(* ===== verification/_CoqProject ===== *)
-Q . S2P
Prelude.v
BitVector.v
BitSet.v
SetHash.v
ColumnSet.v
ColRefSet.v
EquivClasses.v
Range.v
ConstraintInterval.v
ScalarExpr.v
ScalarInterval.v
IntervalEnds.v
Constraint.v
ConstraintSem.v
ConstraintProject.v
ConstraintDerive.v
PropConstraint.v
FilterCoverage.v
IntDatum.v
IntervalProps.v
PredicateProps.v
ConstraintProps.v
SetProps.v
SyncPool.v
Scheduler.v
SchedulerInv.v
SchedulerSpec.v
SchedulerRun.v
SchedulerLive.v
ScriptJob.v
SchedulerProps.v
HyperGraph.v
HyperEnum.v
HyperSound.v
HyperPlan.v
HyperComplete.v
HyperAll.v
HyperProps.v
HyperOrder.v
HyperSimplify.v
HyperStep.v
HyperQueue.v
HyperApply.v
HyperSearch.v
SimplifyProps.v
RuleEnums.v
RuleSyntax.v
RuleGrammar.v
RuleDefs.v
RuleGraph.v
RuleBuild.v
RuleBindings.v
RuleParse.v
RuleWp.v
RuleBuilt.v
RuleTyped.v
RuleFlow.v
RuleExec.v
RulePieces.v
RuleLower.v
RulePrint.v
RuleTotal.v
RuleRoundtrip.v
RuleOrder.v
RuleProps.v
HashMap.v
TreeMap.v
TreeSpec.v
TreeCount.v
TreeBuild.v
TreePlan.v
MapProps.v
StateMachine.v
SearchJobs.v
JobProps.v
CteMap.v
CteSpec.v
CteProps.v
OrderSpec.v
OrderProps.v
