(* ===== verification/Prelude.v ===== *)
(** * Tuuli / pg_orca verification library

    Tuuli packages the ORCA query optimizer as a PostgreSQL extension. A query
    is translated to DXL and then to an expression of logical operators
    ([gpopt/translate], [libnaucrates], [libgpopt/src/translate]); the engine
    ([libgpopt/src/engine]) puts it into the memo ([libgpopt/src/search]) and runs
    search jobs on a scheduler, which apply transformation rules
    ([libgpopt/src/xforms]), derive properties and constraints
    ([libgpopt/src/base]) and choose the cheapest plan. Joins of many relations
    are ordered by the DPHyp enumeration of [libgpopt/src/xforms] (CDPHyper files).
    Everything is built on the containers of [libgpos/.../common].

    This library models the parts of it that are algorithms on data of their own.
    A definition keeps the name of the C++ function it translates (constructors
    and destructors are [_ctor] and [_dtor]; loops that are not a fold are
    functions of their own, named after the function they are in).

    ** How C++ is represented

    - A computation is an [outcome]: [Ret] of a value, or [Abort] with a fault (a
      failing [GPOS_ASSERT], a null dereference, an index out of bounds, a raised
      exception, or [FFuel], the bound of a loop in the model). [m ⤳ P] says that
      [m] returns a value with [P]; it rules out all faults, [FFuel] included.
      Assertions are those of a debug build.
    - Objects are records, methods that change the object return the new one. Where
      objects are shared (jobs, queues, the pairs of a plan, the best steps of the
      simplifier) they live in a store and a pointer is a key of it.
    - Integers: [ULONG] counters, sizes and hashes have their wrap-around at 2^32
      or 2^64 written out in BitVector.v, BitSet.v, SetHash.v and SyncPool.v. The
      counters of the scheduler, which count live objects or events, are unbounded
      upwards, and wrap at a decrement of 0. Costs are IEEE binary64 numbers of
      [SpecFloat].
    - Interfaces of the program are type classes: [ColumnSet] (what the column code
      uses of [CBitSet]), [IComparator], [IDatum] and the metadata the interval
      code asks for, [Pool] (what the scheduler uses of [CSyncPool]), [JobClass]
      (the virtual [FExecute]), [Receiver] ([IDPHyperReceiver]), [BitSetHash] and
      [PriorityQueue] ([std::priority_queue]), [HashKey], [Engine] (what the
      search jobs ask of the memo and the engine), [PlanProps] (the properties of a
      plan, as far as CTEs need them), [MdIds] ([IMDId]) and [ColumnFactory]. Classes named [...Laws] state their
      contracts; clients are proved against them and implementations discharge
      them.

    ** Sets, columns, keys (libgpos/src/common, libgpopt/src/base)

    - BitVector.v: [CBitVector]; BitSet.v: [CBitSet], [CBitSetIter]. A set is a
      list of links to bit vectors; [bs_elements] are its members.
    - SetHash.v: [HashByteArray], [CombineHashes], [HashValue].
    - ColumnSet.v: the interface of column sets and its instance by [CBitSet].
    - ColRefSet.v: [CColRefSet], [CKeyCollection], [CFunctionalDependency].
    - SetProps.v: sequences of set operations refine finite sets, with the cached
      size and the order of the links; queries, iteration and the scan for the next
      bit are exact; equal sets have equal hashes; replacement of columns; keys.

    ** Constraints on a column (libgpopt/src/base, libgpopt/src/operators)

    - Range.v: [CRange]. ConstraintInterval.v: [CConstraintInterval] as a set of
      values. ScalarExpr.v: scalar predicates, [CPredicateUtils], and their
      three-valued meaning. ScalarInterval.v: the interval of a predicate
      ([PciIntervalFromScalarExpr], [CDatumSortedSet]) and the predicate of an
      interval ([PexprConstructScalar]). IntDatum.v: a concrete datum type.
    - IntervalProps.v: the set operations are exact; the interval of a predicate
      holds exactly the values for which it is true (true or null, if so asked) for
      the predicates it understands in full, and at least those for the others
      outside NOT; a predicate built from an interval is true on exactly its values
      and gives back an equal interval. PredicateProps.v: conjuncts, disjuncts and
      their builders keep the meaning. Both also show where the code goes wrong.

    ** Constraint trees and constraint properties (libgpopt/src/base)

    - EquivClasses.v: arrays of column equivalence classes ([CUtils]).
      Constraint.v: [CConstraint] with its conjunctions, disjunctions and
      negations over intervals, and the constraint of a predicate
      ([PcnstrFromScalarExpr]). PropConstraint.v: [CPropConstraint] and the implied
      predicates of [CExpressionPreprocessor]. FilterCoverage.v: the coverage of a
      filter by a foreign key ([FReferringDomainCoveredByFilter] of
      [CDSLConstraintChecker]).
    - IntervalEnds.v: the ends of intervals are values of the column's type, which
      the constructors need when they go through predicates. ConstraintSem.v: the
      rows that satisfy a constraint, and predicates, flattening, deduplication and
      constructors. ConstraintProject.v: parts on columns, containment.
      ConstraintDerive.v: derivation.
    - ConstraintProps.v: building, taking apart and turning into a predicate keep
      the meaning of a constraint; what is derived from a predicate holds where the
      predicate does, the equivalence classes included; classes are merged to the
      transitive closure of their relations; implied predicates hold in every row;
      containment and coverage are sound for conjunctions over intervals, and
      examples show where they, and negation, are not.

    ** Scheduler (libgpopt/src/search, CSyncPool.h)

    - SyncPool.v: [CSyncPool]. Scheduler.v: [CJob], [CJobQueue], [CJobFactory],
      [CScheduler]. SchedulerInv.v, SchedulerSpec.v: the invariant on reference
      counts, parents, queues and waiting jobs, and the effect of every operation.
      SchedulerRun.v: the abstract scheduler. SchedulerLive.v: completion.
      ScriptJob.v: jobs given by scripts, an instance of the job class.
    - SchedulerProps.v: a round of the scheduler is a step of the abstract one,
      whatever the jobs do; a run fails in no other way than by not ending; jobs
      with bounded work and no circular waiting are all completed and released.

    ** Search jobs (libgpopt/src/search, CStateMachine.h, CJobStateMachine.h)

    The jobs that the scheduler runs are state machines: the action of a state
    answers with an event, and a run goes on until the machine stays in its state,
    which means that the job waits for others, or is in its final state.
    - StateMachine.v: [CStateMachine] and [CJobStateMachine], and when a run of
      actions is safe and ends. SearchJobs.v: the tables and the actions of the
      seven jobs that explore, implement and optimize groups and group expressions
      and apply a transformation; memo, engine and scheduler are the class
      [Engine], whose calls and questions may do and answer anything.
    - JobProps.v: the machines run as their diagrams say, however often a job is
      executed and whatever happens in between; what a debug build prints of the
      history and says of unreachable states.

    ** DPHyp join enumeration (libgpopt/src/xforms, CDPHyper files)

    - HyperGraph.v: [CDPHyperGraph]. HyperEnum.v: [CDPHyperEnumerator] against a
      receiver. HyperPlan.v: [CDPHyperPlan], the receiver of the optimizer.
      HyperSound.v: the enumerator returns and reports joinable pairs only, for
      any receiver, and what a stopped run says. HyperComplete.v,
      HyperAll.v: over edges between single nodes all pairs are reported.
      HyperProps.v: the claims, among them that a plan holds only sets that are
      connected in the graph with a join tree for each, that the budget is
      respected and enough if it is the number of joinable pairs, that every pair
      with every edge is recorded; and a hypergraph for which the code misses the
      only plan.
    - HyperOrder.v: [CDPHyperOrderConstraints]. HyperSimplify.v:
      [CDPHyperGraphSimplifier]. HyperStep.v, HyperQueue.v, HyperApply.v,
      HyperSearch.v: the steps, the queue, applying and undoing, the search.
      SimplifyProps.v: accepted constraints are acyclic and answered by their
      closure; [Simplify] returns whatever the costs and filters are, widens edges
      only, undoes them exactly, and leaves a graph that has been enumerated within
      the budget when it says so; its plans are plans of the original graph.
    - A node set is represented by the finite set that its [CBitSet] stands for;
      that the operations of [CBitSet] compute with these sets is SetProps.v.

    ** Rewrite rules (libgpopt/src/dsl)

    A rewrite rule is a text with a source pattern, a target template, and
    constraints and bindings between their symbols; the optimizer loads such rules
    and applies them to expressions.
    - RuleEnums.v: the kinds and tables of CDSLEnums. RuleSyntax.v: tokens and
      parse trees of the grammar DSLRule.g4, with the generated parser as the class
      [Antlr]; RuleGrammar.v: a parser that implements it. RuleDefs.v: [CDSLSymbol],
      [CDSLOp], [CDSLConstraint] and the graph [CDSLExpressionDefinitions]; the
      order of hash tables is the class [HashOrder]. RuleBuild.v, RuleBindings.v:
      the builder of CDSLRuleParser.cpp, a monad over its context. RuleParse.v:
      printing, identity, inline terms and [PdslruleParse].
    - RuleGraph.v: reachability, validation and the index of definitions. RuleWp.v:
      the invariant of the context and rules for programs that keep it. RuleBuilt.v,
      RuleTyped.v: operators and constraints, and the types of bindings.
      RuleFlow.v, RuleExec.v: the data flow is a least fixed point, and what it
      proves of the symbols. RulePieces.v, RuleLower.v, RulePrint.v: texts as
      tokens and blanks, lowered rules, printed rules. RuleTotal.v,
      RuleRoundtrip.v, RuleOrder.v: the whole parser.
    - RuleProps.v: the parser returns for every text; accepted rules are well
      formed, and executable if they have bindings; printing and parsing are
      inverse up to the mark of a surface equality; inline terms are shorthand; the
      result does not depend on the order of hash tables; definitions are accepted
      exactly if they are unique, typed and acyclic.

    ** Hash maps and plans of the memo (libgpos, libgpopt/src/search)

    The memo links the alternatives of its groups in a [CTreeMap], which counts the
    plans and makes the plan of a given rank, for the enumeration and the sampling of
    plans.
    - HashMap.v: [CHashMap] and [CHashMapIter]; hash and equality of keys are the
      class [HashKey]. TreeMap.v: [CTreeMap], whose nodes live in a store.
    - TreeSpec.v: the trees of a store in the order of their ranks. TreeCount.v: a
      count is the number of trees or an overflow, and unranking gives the
      tree at the rank. TreeBuild.v: the store after any sequence of calls.
      TreePlan.v: plans, which are trees of objects, and their correspondence with
      the trees of the store.
    - MapProps.v: programs on a hash map answer like the list of its entries, and
      what [Delete] leaves behind; a map of trees whose links descend counts exactly
      the plans that the calls describe, unless a number does not fit into 64 bits,
      and unranking is a bijection between the ranks and the plans.

    ** Properties of plans (libgpopt/src/base, CPhysical.cpp)

    The optimizer asks each child of an operator for properties, and compares them
    with those that its plan has.
    - CteMap.v: [CCTEMap], what a plan produces and consumes, [CCTEReq], what it
      must or may, and how the n-ary operators and [CPhysicalSequence] compute the
      map of a plan and the requirements of their children. CteSpec.v: both as
      finite maps. CteProps.v: the last child of an operator, in either order of
      optimization, satisfies what it is asked for exactly if the whole satisfies
      what the operator is asked for; the same for a sequence, whose second child
      consumes what the first one produces; equal maps with different hashes.
    - OrderSpec.v: [COrderSpec], [CRewindabilitySpec] and the requirements
      [CEnfdOrder], [CEnfdRewindability]. OrderProps.v: rows sorted by an order are
      sorted by every order it satisfies, satisfaction is kept when columns are
      renamed, matching requirements are interchangeable; the satisfaction of
      rewindability is the table in its comment.

    ** Fuel

    Every fuelled definition is given its bound where the program calls it, and the
    theorems show that it returns: 65 rounds to scan a 64-bit unit; the number of
    members plus one to iterate over a set; the number of intervals for
    the rounds of pairwise unions of a disjunction (the merge loops of two
    intervals are structural); the length of a queue to notify its jobs; twice the
    work of the jobs plus one for [ExecuteJobs]; the number of nodes plus one for
    [ExpandSubgraph] and [ExpandComplement], which grow a set in each call; 2 for
    [ProcessNeighbors], whose inner call has nothing left to recurse on; the
    number of edges plus one for [FetchStep]; [step_bound] (each step adds a
    constraint or a node to an edge) for raising the number of steps, and the
    number of applied steps plus one for the search downwards; the number of
    definitions plus two for the searches in the graph of definitions; the number
    of bindings plus one for the passes that declare them; the symbols plus one for
    the rounds of the data flow; one more than the names in use for a fresh name;
    2 for [PdslruleParse], as a lowered rule has no inline terms; the keys plus one
    to iterate over a hash map; and the nodes plus one for the recursion of
    [UllCount] and [PrUnrank], which go down along the links. A run of a state
    machine has as many actions as the machine has states, and at most 7 for the
    optimization of a group, which goes through two states once for each level.

    ** Not modelled

    Reference counts, memory pools, printing, timing and cancellation
    ([GPOS_CHECK_ABORT]). The truncation of job pools from within [FExecute] of two
    job classes. Predicate functions that need derived properties of relational
    expressions, among them the constraints of subqueries. The memo apart from
    its map of plans, what search jobs ask of it, the job that enumerates the
    orders of a join region, the operators, the transformation rules, the matcher, the checks and the instantiation of rewrite rules, and
    the engine: all of them compute with relational expressions, whose operators
    derive their properties from the metadata of the database. The properties of
    distribution and partition propagation, which hold such expressions, and the
    enforcers that are put on top of a plan.
    Translators, DXL, the metadata cache and the extension's entry are glue to
    XML or to PostgreSQL's own structures; the cost model and the histograms are
    floating-point formulas. *)
From stdpp Require Import base numbers list gmap sets sorting.
From Stdlib Require Export ZifyBool.

(** ** Outcomes of C++ code

    A modelled operation either returns or stops at one of the points where the
    C++ program would abort: a failing [GPOS_ASSERT], a null dereference, an
    index outside an array, a raised exception, or a loop that exceeds the
    bound given to it in the model. *)
Inductive fault :=
  | FAssert
  | FNull
  | FBounds
  | FRaise
  | FFuel.

Inductive outcome (A : Type) :=
  | Ret (a : A)
  | Abort (f : fault).
Arguments Ret {A} _.
Arguments Abort {A} _.

#[export] Instance fault_eq_dec : EqDecision fault.
Proof. solve_decision. Defined.
#[export] Instance outcome_eq_dec `{EqDecision A} : EqDecision (outcome A).
Proof. solve_decision. Defined.

#[export] Instance outcome_ret : MRet outcome := fun A a => Ret a.
#[export] Instance outcome_bind : MBind outcome := fun A B k m =>
  match m with Ret a => k a | Abort f => Abort f end.
#[export] Instance outcome_fmap : FMap outcome := fun A B g m =>
  match m with Ret a => Ret (g a) | Abort f => Abort f end.

(** [GPOS_ASSERT(b)] of a debug build. *)
Definition GPOS_ASSERT (b : bool) : outcome unit :=
  if b then Ret tt else Abort FAssert.

(** Dereference of a possibly null pointer. *)
Definition deref {A} (p : option A) : outcome A :=
  match p with Some a => Ret a | None => Abort FNull end.

(** Array subscript. *)
Definition subscript {A} (l : list A) (i : nat) : outcome A :=
  match l !! i with Some a => Ret a | None => Abort FBounds end.

(** "The operation runs to its end and its result satisfies [P]." *)
Definition returns {A} (m : outcome A) (P : A -> Prop) : Prop :=
  exists a, m = Ret a /\ P a.

Lemma returns_ret {A} (a : A) (P : A -> Prop) : P a -> returns (Ret a) P.
Proof. intros H; exists a; done. Qed.

Lemma returns_bind {A B} (m : outcome A) (k : A -> outcome B) P Q :
  returns m P -> (forall a, P a -> returns (k a) Q) -> returns (m ≫= k) Q.
Proof. intros (a & -> & HP) Hk. exact (Hk a HP). Qed.

Lemma returns_mono {A} (m : outcome A) (P Q : A -> Prop) :
  returns m P -> (forall a, P a -> Q a) -> returns m Q.
Proof. intros (a & -> & HP) HPQ; exists a; auto. Qed.

#[export] Instance returns_proper {A} (m : outcome A) : Proper (pointwise_relation A iff ==> iff) (returns m).
Proof. intros P Q HPQ. split; intros (a & E & Ha); exists a; (split; [done|]); by apply HPQ. Qed.

Lemma returns_and {A} (m : outcome A) (P Q : A -> Prop) : returns m P -> returns m Q -> returns m (fun a => P a /\ Q a).
Proof. intros (a & -> & HP) (b & [= <-] & HQ). by exists a. Qed.

Lemma GPOS_ASSERT_true (b : bool) : b = true -> GPOS_ASSERT b = Ret tt.
Proof. by intros ->. Qed.

Lemma bind_assert {B} (b : bool) (k : unit -> outcome B) :
  b = true -> GPOS_ASSERT b ≫= k = k tt.
Proof. by intros ->. Qed.

Lemma subscript_some {A} (l : list A) i a : l !! i = Some a -> subscript l i = Ret a.
Proof. unfold subscript. by intros ->. Qed.

(** [m ⤳ P]: the operation [m] returns and its result satisfies [P]. *)
Declare Scope outcome_scope.
Delimit Scope outcome_scope with outcome.
Notation "m ⤳ P" := (returns m P) (at level 70, P at level 200, no associativity) : outcome_scope.

(** The hints of the outcome monad: a call is executed by its specification, a
    returned value by what is known of it. *)
Create HintDb outcome discriminated.
#[export] Hint Resolve returns_ret returns_mono : outcome.
Create Rewrite HintDb outcome_run.

Lemma bind_ret {A B} (a : A) (k : A -> outcome B) : Ret a ≫= k = k a.
Proof. done. Qed.

Lemma bind_mret {A B} (a : A) (k : A -> outcome B) : mret a ≫= k = k a.
Proof. done. Qed.

Lemma fmap_ret {A B} (f : A -> B) (a : A) : f <$> Ret a = Ret (f a).
Proof. done. Qed.

#[export] Hint Rewrite @bind_ret @bind_mret @fmap_ret : outcome_run.

(** One step of symbolic execution: discharge an assertion whose condition the
    arithmetic of the context proves, or rewrite with a known call result. *)
Ltac assert_step :=
  match goal with
  | |- context [GPOS_ASSERT ?b ≫= _] => rewrite (bind_assert b) by lia; cbn [mbind outcome_bind]
  end.

(** ** Loops over a sequence *)

Section Loops.
Context {A T : Type}.

(** [for (a : l) t = body(a, t)] *)
Fixpoint for_each (l : list A) (body : A -> T -> outcome T) (t : T) : outcome T :=
  match l with
  | [] => mret t
  | a :: l' => (t ← body a t; for_each l' body t)
  end.

(** [for (a : l) if (body(a, t)) return true; return false] *)
Fixpoint for_until (l : list A) (body : A -> T -> outcome (bool * T)) (t : T) : outcome (bool * T) :=
  match l with
  | [] => mret (false, t)
  | a :: l' =>
      '(stop, t) ← body a t;
      if (stop : bool) then mret (true, t) else for_until l' body t
  end.

(** The rule of a loop: [I] holds of the elements passed and the state. *)
Lemma for_each_rule (I : list A -> T -> Prop) l body t :
  I [] t ->
  (forall pre a rest t, l = pre ++ a :: rest -> I pre t -> returns (body a t) (I (pre ++ [a]))) ->
  returns (for_each l body t) (I l).
Proof.
  intros H0 Hstep. assert (forall (rest pre : list A) (t : T), l = pre ++ rest -> I pre t -> returns (for_each rest body t) (I l)) as Hgen.
  { induction rest as [|a rest IH]; intros pre t' Hl HI; cbn.
    - apply returns_ret. by rewrite Hl, app_nil_r.
    - eapply returns_bind; [by eapply Hstep|]. intros t'' HI'. apply (IH (pre ++ [a])); [|done].
      by rewrite Hl, <- app_assoc. }
  by apply (Hgen l []).
Qed.

(** The loop stops early, with [Q], or runs over all elements. *)
Lemma for_until_rule (I : list A -> T -> Prop) (Q : T -> Prop) l body t :
  I [] t ->
  (forall pre a rest t, l = pre ++ a :: rest -> I pre t ->
     returns (body a t) (fun r : bool * T => if r.1 then Q r.2 else I (pre ++ [a]) r.2)) ->
  returns (for_until l body t) (fun r : bool * T => if r.1 then Q r.2 else I l r.2).
Proof.
  intros H0 Hstep.
  assert (forall (rest pre : list A) (t : T), l = pre ++ rest -> I pre t ->
    returns (for_until rest body t) (fun r : bool * T => if r.1 then Q r.2 else I l r.2)) as Hgen.
  { induction rest as [|a rest IH]; intros pre t' Hl HI; cbn.
    - apply returns_ret. cbn. by rewrite Hl, app_nil_r.
    - eapply returns_bind; [by eapply Hstep|]. intros [[] t''] HI'; cbn in *; [by apply returns_ret|].
      apply (IH (pre ++ [a])); [|done]. by rewrite Hl, <- app_assoc. }
  by apply (Hgen l []).
Qed.
End Loops.

Lemma for_each_map {A B T} (f : A -> B) (l : list A) (body : B -> T -> outcome T) (t : T) :
  for_each (map f l) body t = for_each l (fun a => body (f a)) t.
Proof. revert t. induction l as [|a l IH]; intros t; [done|]. cbn. destruct (body (f a) t); [apply IH|done]. Qed.

(** ** A call for every element of a list *)

Lemma mapM_ret {A B} (f : A -> outcome B) (P : A -> B -> Prop) l :
  (forall a, a ∈ l -> returns (f a) (P a)) -> returns (mapM f l) (Forall2 P l).
Proof.
  induction l as [|a l IH]; intros Hf; cbn; [apply returns_ret; constructor|].
  eapply returns_bind; [apply Hf; set_solver|]. intros b Hb.
  eapply returns_bind; [apply IH; set_solver|]. intros bs Hbs. apply returns_ret. by constructor.
Qed.

(** ** Partial correctness *)

(** What holds of the value of a computation, if it returns one *)
Definition wlp {A} (m : outcome A) (Φ : A -> Prop) : Prop := forall a, m = Ret a -> Φ a.

Lemma wlp_ret {A} (a : A) (Φ : A -> Prop) : Φ a -> wlp (mret a) Φ.
Proof. by intros H b [= <-]. Qed.

Lemma wlp_bind {A B} (m : outcome A) (k : A -> outcome B) Ψ (Φ : B -> Prop) :
  wlp m Ψ -> (forall a, Ψ a -> wlp (k a) Φ) -> wlp (m ≫= k) Φ.
Proof. intros Hm Hk b Hb. destruct m as [a|]; [|done]. by apply (Hk a); [apply Hm|]. Qed.

Lemma wlp_any {A B} (m : outcome A) (k : A -> outcome B) (Φ : B -> Prop) :
  (forall a, wlp (k a) Φ) -> wlp (m ≫= k) Φ.
Proof. intros Hk. apply (wlp_bind _ _ (fun _ => True)); [done|auto]. Qed.

Lemma wlp_for_until {A T} (l : list A) (body : A -> T -> outcome (bool * T)) (I Q : T -> Prop) t :
  I t -> (forall a t, a ∈ l -> I t -> wlp (body a t) (fun x => if x.1 then Q x.2 else I x.2)) ->
  wlp (for_until l body t) (fun x => if x.1 then Q x.2 else I x.2).
Proof.
  revert t. induction l as [|a l IH]; intros t Ht Hbody; cbn [for_until]; [by apply wlp_ret|].
  eapply wlp_bind; [apply Hbody; [set_solver|done]|]. intros [[] t'] Ht'; [by apply wlp_ret|].
  apply IH; [done|]. intros b t'' Hb. apply Hbody. set_solver.
Qed.

(** ** Lists *)

Lemma elem_of_concat_map {A B} (f : A -> list B) (l : list A) b :
  b ∈ concat (map f l) <-> exists a, a ∈ l /\ b ∈ f a.
Proof.
  induction l as [|a l IH]; cbn; [set_solver|]. rewrite elem_of_app, IH. set_solver.
Qed.

(** ** Bits below a bound *)

(** The positions below [n] at which [f] holds, ascending. *)
Definition bits_below (f : N -> bool) (n : nat) : list N :=
  filter (fun p => f p = true) (N.of_nat <$> seq 0 n).

Lemma elem_of_bits_below f n p :
  p ∈ bits_below f n <-> f p = true /\ (p < N.of_nat n)%N.
Proof.
  unfold bits_below. rewrite list_elem_of_filter, list_elem_of_fmap. split.
  - intros [Hf (k & -> & Hk)]. apply elem_of_seq in Hk. split; [done|lia].
  - intros [Hf Hp]. split; [done|]. exists (N.to_nat p).
    split; [lia|]. apply elem_of_seq. lia.
Qed.

Lemma filter_bool_ext {A} (f g : A -> bool) (l : list A) :
  (forall a, a ∈ l -> f a = g a) ->
  filter (fun a => f a = true) l = filter (fun a => g a = true) l.
Proof.
  induction l as [|a l IH]; intros H; [done|].
  rewrite !filter_cons, (H a) by set_solver. rewrite IH by set_solver. done.
Qed.

Lemma filter_fmap_bool {A B} (h : A -> B) (f : B -> bool) (l : list A) :
  filter (fun b => f b = true) (h <$> l) = h <$> filter (fun a => f (h a) = true) l.
Proof.
  induction l as [|a l IH]; [done|].
  rewrite fmap_cons, !filter_cons, IH. by case_decide.
Qed.

Lemma bits_below_ext f g n :
  (forall p, (p < N.of_nat n)%N -> f p = g p) -> bits_below f n = bits_below g n.
Proof.
  intros H. apply filter_bool_ext. intros p (k & -> & Hk)%list_elem_of_fmap.
  apply elem_of_seq in Hk. apply H. lia.
Qed.

Lemma bits_below_app f a b :
  bits_below f (a + b) =
  bits_below f a ++ (N.add (N.of_nat a) <$> bits_below (fun p => f (N.of_nat a + p)%N) b).
Proof.
  unfold bits_below. rewrite seq_app, fmap_app, filter_app. f_equal.
  rewrite <- (filter_fmap_bool (N.add (N.of_nat a)) f). f_equal.
  rewrite <- list_fmap_compose. simpl (0 + a).
  rewrite <- (Nat.add_0_r a) at 1. rewrite <- fmap_add_seq, <- list_fmap_compose.
  apply list_fmap_ext. intros i x _. unfold compose. lia.
Qed.

Lemma bits_below_none f n :
  (forall p, (p < N.of_nat n)%N -> f p = false) -> bits_below f n = [].
Proof.
  intros H. destruct (bits_below f n) as [|p l] eqn:E; [done|].
  assert (p ∈ bits_below f n) as Hp by (rewrite E; set_solver).
  apply elem_of_bits_below in Hp as [Hf Hlt]. rewrite H in Hf; done.
Qed.

Lemma bits_below_NoDup f n : NoDup (bits_below f n).
Proof.
  unfold bits_below. apply NoDup_filter, NoDup_fmap_2; [|apply NoDup_seq].
  intros x y; lia.
Qed.

(** ** Strictly ascending lists of numbers *)

Abbreviation ascending := (StronglySorted N.lt).

Lemma ascending_NoDup l : ascending l -> NoDup l.
Proof.
  induction 1 as [|a l _ IH Ha]; constructor; [|done].
  intros Hin. rewrite Forall_forall in Ha. specialize (Ha a Hin). lia.
Qed.

(** Two ascending lists with the same members are equal. *)
Lemma ascending_ext l1 l2 :
  ascending l1 -> ascending l2 -> (forall p, p ∈ l1 <-> p ∈ l2) -> l1 = l2.
Proof.
  intros H1 H2 Hin. apply StronglySorted_unique_strong with N.lt; [|done..|].
  - intros x y _ _ Hxy Hyx. lia.
  - apply NoDup_Permutation; [by apply ascending_NoDup..|done].
Qed.

Lemma ascending_app l1 l2 :
  ascending l1 -> ascending l2 -> (forall x y, x ∈ l1 -> y ∈ l2 -> (x < y)%N) ->
  ascending (l1 ++ l2).
Proof. intros. by apply StronglySorted_app_2. Qed.

Lemma ascending_shift l o : ascending l -> ascending (N.add o <$> l).
Proof.
  induction 1 as [|a l _ IH Ha]; [constructor|]. rewrite fmap_cons. constructor; [done|].
  rewrite Forall_forall in Ha. apply Forall_forall. intros y (x & -> & Hx)%list_elem_of_fmap.
  specialize (Ha x Hx). lia.
Qed.

Lemma bits_below_ascending f n : ascending (bits_below f n).
Proof.
  induction n as [|n IH]; [constructor|].
  rewrite <- Nat.add_1_r, bits_below_app. apply ascending_app; [done| |].
  - apply ascending_shift. unfold bits_below. cbn [seq fmap list_fmap].
    rewrite filter_cons. case_decide; repeat constructor.
  - intros x y [_ Hx]%elem_of_bits_below (z & -> & _)%list_elem_of_fmap. lia.
Qed.

Lemma ascending_filter (P : N -> Prop) `{!forall x, Decision (P x)} l :
  ascending l -> ascending (filter P l).
Proof.
  induction 1 as [|a l _ IH Ha]; [constructor|]. rewrite filter_cons.
  case_decide; [|done]. constructor; [done|].
  apply Forall_forall. intros x [_ Hx]%list_elem_of_filter.
  rewrite Forall_forall in Ha. by apply Ha.
Qed.

Lemma bool_decide_of_iff (b : bool) (P : Prop) `{!Decision P} :
  (b = true <-> P) -> b = bool_decide P.
Proof. intros H. destruct b; symmetry; [apply bool_decide_eq_true|apply bool_decide_eq_false]; naive_solver. Qed.

Lemma filter_all {A} (P : A -> Prop) `{!forall x, Decision (P x)} (l : list A) :
  (forall x, P x) -> filter P l = l.
Proof. intros HP. induction l as [|a l IH]; [done|]. rewrite filter_cons, decide_True, IH; auto. Qed.

Lemma bool_decide_Exists_cons {A} (P : A -> Prop) `{!forall x, Decision (P x)} x (l : list A) :
  bool_decide (Exists P (x :: l)) = bool_decide (P x) || bool_decide (Exists P l).
Proof.
  apply eq_bool_prop_intro. rewrite orb_True, !bool_decide_spec. apply Exists_cons.
Qed.

Lemma bool_decide_Forall_cons {A} (P : A -> Prop) `{!forall x, Decision (P x)} x (l : list A) :
  bool_decide (Forall P (x :: l)) = bool_decide (P x) && bool_decide (Forall P l).
Proof.
  apply eq_bool_prop_intro. rewrite andb_True, !bool_decide_spec. apply Forall_cons.
Qed.

Lemma bool_decide_Exists_nil {A} (P : A -> Prop) `{!forall x, Decision (P x)} :
  bool_decide (Exists P []) = false.
Proof. apply bool_decide_eq_false. rewrite Exists_nil. tauto. Qed.

(** ** Sums over finite maps *)

(** The sum of [f] over the entries of a map *)
Definition map_sum `{Countable K} {A} (f : K -> A -> nat) (m : gmap K A) : nat :=
  map_fold (fun k a n => f k a + n) 0 m.

Section MapSum.
Context `{Countable K} {A : Type} (f : K -> A -> nat).
Implicit Types m : gmap K A.

Lemma map_sum_empty : map_sum f ∅ = 0.
Proof. apply map_fold_empty. Qed.

Lemma map_sum_insert m k a : m !! k = None -> map_sum f (<[k := a]> m) = f k a + map_sum f m.
Proof. intros Hk. unfold map_sum.
  apply (map_fold_insert_L (fun k a n => f k a + n)); [intros; lia|done]. Qed.

Lemma map_sum_delete m k a : m !! k = Some a -> map_sum f m = f k a + map_sum f (delete k m).
Proof. intros Hk. unfold map_sum.
  apply (map_fold_delete_L (fun k a n => f k a + n)); [intros; lia|done]. Qed.

Lemma map_sum_update m k a b :
  m !! k = Some a -> map_sum f (<[k := b]> m) + f k a = map_sum f m + f k b.
Proof.
  intros Hk. rewrite (map_sum_delete m k a Hk), <- insert_delete_eq, map_sum_insert
    by apply lookup_delete_eq. lia.
Qed.

Lemma map_sum_pos m : 0 < map_sum f m -> exists k a, m !! k = Some a /\ 0 < f k a.
Proof.
  induction m as [|k a m Hk IH] using map_ind; [rewrite map_sum_empty; lia|].
  rewrite map_sum_insert by done. intros Hlt.
  destruct (decide (0 < f k a)) as [|Hf].
  - exists k, a. by rewrite lookup_insert_eq.
  - destruct IH as (k' & a' & Hm & Hf'); [lia|]. exists k', a'. split; [|done].
    rewrite lookup_insert_ne; [done|congruence].
Qed.
End MapSum.

Lemma map_sum_ext `{Countable K} {A} (f g : K -> A -> nat) (m : gmap K A) :
  (forall k a, m !! k = Some a -> f k a = g k a) -> map_sum f m = map_sum g m.
Proof.
  induction m as [|k a m Hk IH] using map_ind; [done|]. intros Hfg.
  rewrite !map_sum_insert by done. rewrite IH.
  - f_equal. apply Hfg. apply lookup_insert_eq.
  - intros k' a' Hm. apply Hfg. rewrite lookup_insert_ne; [done|congruence].
Qed.

Lemma map_sum_mono `{Countable K} {A} (f g : K -> A -> nat) (m : gmap K A) :
  (forall k a, m !! k = Some a -> f k a <= g k a) -> map_sum f m <= map_sum g m.
Proof.
  induction m as [|k a m Hk IH] using map_ind; [done|]. intros Hfg.
  rewrite !map_sum_insert by done.
  pose proof (Hfg k a (lookup_insert_eq m k a)).
  assert (map_sum f m <= map_sum g m); [|lia]. apply IH.
  intros k' a' Hm. apply Hfg. rewrite lookup_insert_ne; [done|congruence].
Qed.

Lemma map_sum_delete_le `{Countable K} {A} (f : K -> A -> nat) (m : gmap K A) k :
  map_sum f (delete k m) <= map_sum f m.
Proof.
  destruct (m !! k) as [a|] eqn:Hk; [rewrite (map_sum_delete f m k a Hk); lia|].
  by rewrite delete_id.
Qed.

(** ** Iteration over a set *)

(** The members of a set, as [CBitSetIter] finds them *)
Definition bits (s : gset N) : list N := merge_sort N.le (elements s).

Lemma elem_of_bits (s : gset N) b : b ∈ bits s <-> b ∈ s.
Proof. unfold bits. by rewrite merge_sort_Permutation, elem_of_elements. Qed.

Lemma bits_NoDup (s : gset N) : NoDup (bits s).
Proof. unfold bits. rewrite merge_sort_Permutation. apply NoDup_elements. Qed.

Lemma bits_ascending (s : gset N) : ascending (bits s).
Proof.
  assert (StronglySorted N.le (bits s)) as Hs.
  { unfold bits. apply (StronglySorted_merge_sort N.le). }
  pose proof (bits_NoDup s) as Hn. induction Hs as [|b l Hl IH Hb]; [constructor|].
  apply NoDup_cons in Hn as [Hnb Hn]. constructor; [by apply IH|].
  rewrite Forall_forall in *. intros x Hx. specialize (Hb x Hx).
  assert (b <> x) by (by intros ->). lia.
Qed.

Lemma bits_cons (s : gset N) : s <> ∅ -> exists b l, bits s = b :: l.
Proof.
  intros Hs. destruct (set_choose_L s Hs) as [x Hx]. apply elem_of_bits in Hx.
  destruct (bits s) as [|b l]; [by apply not_elem_of_nil in Hx|]. by exists b, l.
Qed.
