(* ===== verification/BitVector.v ===== *)
(** * Bit vectors (libgpos/src/common/CBitVector.cpp)

    A [CBitVector] is an array of 64-bit units that holds [m_nbits] bits.  The
    [CBitSet] of BitSet.v is a list of them.  The state is the record
    [CBitVector]; one definition per method follows, with the C++ names.  The
    abstraction [bv_elements] lists the set bits in ascending order, and the
    lemmas at the end say what every method does to it. *)
From stdpp Require Import base numbers list gmap sets.
From S2P Require Import Prelude.
Local Open Scope N_scope.

Module BitVector.

Definition BITS_PER_UNIT : N := 64.

(** [m_len] is the number of units allocated, so it is the length of [m_vec]. *)
Record CBitVector := mkBitVector {
  m_nbits : N;
  m_vec : list N
}.

Definition m_len (bv : CBitVector) : nat := length (m_vec bv).

Definition set_vec (bv : CBitVector) (v : list N) : CBitVector :=
  mkBitVector (m_nbits bv) v.

(** [CBitVector::Clear] *)
Definition Clear (bv : CBitVector) : CBitVector :=
  set_vec bv (replicate (m_len bv) 0).

(** [CBitVector::CBitVector(mp, nbits)] *)
Definition CBitVector_ctor (nbits : N) : outcome CBitVector :=
  let len := nbits / BITS_PER_UNIT in
  let len := if len * BITS_PER_UNIT <? nbits then len + 1 else len in
  _ ← GPOS_ASSERT (nbits <=? len * BITS_PER_UNIT);
  mret (Clear (mkBitVector nbits (replicate (N.to_nat len) 0))).

(** [CBitVector::CBitVector(mp, bv)]: deep copy *)
Definition CBitVector_copy (bv : CBitVector) : CBitVector :=
  mkBitVector (m_nbits bv) (m_vec bv).

(** [((ULLONG) 1) << (pos % BITS_PER_UNIT)] *)
Definition mask_of (pos : N) : N := N.shiftl 1 (pos mod BITS_PER_UNIT).

Definition unit_index (pos : N) : nat := N.to_nat (pos / BITS_PER_UNIT).

(** [CBitVector::Get] *)
Definition Get (bv : CBitVector) (pos : N) : outcome bool :=
  _ ← GPOS_ASSERT (pos <? m_nbits bv);
  u ← subscript (m_vec bv) (unit_index pos);
  mret (negb (N.land u (mask_of pos) =? 0)).

(** [CBitVector::ExchangeSet] *)
Definition ExchangeSet (bv : CBitVector) (pos : N) : outcome (CBitVector * bool) :=
  _ ← GPOS_ASSERT (pos <? m_nbits bv);
  fSet ← Get bv pos;
  u ← subscript (m_vec bv) (unit_index pos);
  mret (set_vec bv (<[unit_index pos := N.lor u (mask_of pos)]> (m_vec bv)), fSet).

(** [CBitVector::ExchangeClear]; [~mask] is the complement on 64 bits *)
Definition ExchangeClear (bv : CBitVector) (pos : N) : outcome (CBitVector * bool) :=
  _ ← GPOS_ASSERT (pos <? m_nbits bv);
  fSet ← Get bv pos;
  u ← subscript (m_vec bv) (unit_index pos);
  mret (set_vec bv (<[unit_index pos :=
          N.land u (N.lnot (mask_of pos) BITS_PER_UNIT)]> (m_vec bv)), fSet).

Definition same_size (bv vec : CBitVector) : bool :=
  (m_nbits bv =? m_nbits vec) && (m_len bv =? m_len vec)%nat.

(** [CBitVector::Or] *)
Definition Or (bv vec : CBitVector) : outcome CBitVector :=
  _ ← GPOS_ASSERT (same_size bv vec);
  mret (set_vec bv (zip_with N.lor (m_vec bv) (m_vec vec))).

(** [CBitVector::And] *)
Definition And (bv vec : CBitVector) : outcome CBitVector :=
  _ ← GPOS_ASSERT (same_size bv vec);
  mret (set_vec bv (zip_with N.land (m_vec bv) (m_vec vec))).

Fixpoint ContainsAll_loop (v w : list N) : bool :=
  match v, w with
  | x :: v', y :: w' =>
      if negb (N.land x y =? y) then false else ContainsAll_loop v' w'
  | _, _ => true
  end.

(** [CBitVector::ContainsAll] *)
Definition ContainsAll (bv vec : CBitVector) : outcome bool :=
  _ ← GPOS_ASSERT (same_size bv vec);
  mret (ContainsAll_loop (m_vec bv) (m_vec vec)).

Fixpoint IsDisjoint_loop (v w : list N) : bool :=
  match v, w with
  | x :: v', y :: w' =>
      if negb (N.land x y =? 0) then false else IsDisjoint_loop v' w'
  | _, _ => true
  end.

(** [CBitVector::IsDisjoint] *)
Definition IsDisjoint (bv vec : CBitVector) : outcome bool :=
  _ ← GPOS_ASSERT (same_size bv vec);
  mret (IsDisjoint_loop (m_vec bv) (m_vec vec)).

(** [CBitVector::Equals]; [Memcmp] over the units *)
Definition Equals (bv vec : CBitVector) : outcome bool :=
  _ ← GPOS_ASSERT (same_size bv vec);
  if bool_decide (m_vec bv = m_vec vec)
  then (c1 ← ContainsAll bv vec;
        c2 ← ContainsAll vec bv;
        _ ← GPOS_ASSERT (c1 && c2);
        mret true)
  else mret false.

(** [CBitVector::IsEmpty] *)
Definition IsEmpty (bv : CBitVector) : bool :=
  forallb (fun u => u =? 0) (m_vec bv).

(** The inner [while] of [GetNextSetBit]: shift until bit 0 is set. *)
Fixpoint next_bit_loop (fuel : nat) (ull bit : N) : outcome (N * N) :=
  match fuel with
  | O => Abort FFuel
  | S fuel' =>
      if negb (ull =? 0) && (N.land ull 1 =? 0)
      then next_bit_loop fuel' (N.shiftr ull 1) (bit + 1)
      else mret (ull, bit)
  end.

(** The outer [for] of [GetNextSetBit], over the units from index [idx] on. *)
Fixpoint GetNextSetBit_loop (rest : list N) (idx offset : N) : outcome (option N) :=
  match rest with
  | [] => mret None
  | u :: rest' =>
      r ← next_bit_loop 65 (N.shiftr u offset) offset;
      if negb (r.1 =? 0) then mret (Some (r.2 + idx * BITS_PER_UNIT))
      else GetNextSetBit_loop rest' (idx + 1) 0
  end.

(** [CBitVector::GetNextSetBit]: [Some next_pos] when it returns true *)
Definition GetNextSetBit (bv : CBitVector) (start_pos : N) : outcome (option N) :=
  GetNextSetBit_loop (drop (unit_index start_pos) (m_vec bv))
    (start_pos / BITS_PER_UNIT) (start_pos mod BITS_PER_UNIT).

(** The inner loop of [CountSetBits]: clear the lowest set bit and count. *)
Fixpoint count_loop (fuel : nat) (ull j : N) : outcome N :=
  match fuel with
  | O => Abort FFuel
  | S fuel' =>
      if ull =? 0 then mret j
      else count_loop fuel' (N.land ull (ull - 1)) (j + 1)
  end.

Fixpoint CountSetBits_loop (v : list N) (nbits : N) : outcome N :=
  match v with
  | [] => mret nbits
  | u :: v' =>
      j ← count_loop 65 u 0;
      CountSetBits_loop v' (nbits + j)
  end.

(** [CBitVector::CountSetBits] *)
Definition CountSetBits (bv : CBitVector) : outcome N :=
  CountSetBits_loop (m_vec bv) 0.

(** ** Abstraction and invariant *)

Definition unit_bit (v : list N) (pos : N) : bool :=
  N.testbit (default 0 (v !! unit_index pos)) (pos mod BITS_PER_UNIT).

Definition bv_bit (bv : CBitVector) (pos : N) : bool := unit_bit (m_vec bv) pos.

(** The units are 64 bits wide, there are just enough of them, and the bits
    past [m_nbits] in the last one are clear. *)
Record bv_wf (bv : CBitVector) : Prop := {
  wf_width : m_nbits bv < 2 ^ 32;
  wf_units : Forall (fun u => u < 2 ^ BITS_PER_UNIT) (m_vec bv);
  wf_len : N.of_nat (m_len bv) = (m_nbits bv + 63) / BITS_PER_UNIT;
  wf_tail : forall pos, m_nbits bv <= pos -> bv_bit bv pos = false
}.

(** The set bits, in ascending order. *)
Definition bv_elements (bv : CBitVector) : list N :=
  bits_below (bv_bit bv) (N.to_nat (m_nbits bv)).

(** ** Single bits *)

Lemma pos_split pos : pos = 64 * (pos / 64) + pos mod 64.
Proof. apply N.div_mod; lia. Qed.

Lemma unit_index_inj p q :
  unit_index p = unit_index q -> p mod 64 = q mod 64 -> p = q.
Proof.
  unfold unit_index, BITS_PER_UNIT. intros H1 H2.
  rewrite (pos_split p), (pos_split q), H2.
  replace (p / 64) with (q / 64) by lia. done.
Qed.

Lemma mask_test u pos :
  negb (N.land u (mask_of pos) =? 0) = N.testbit u (pos mod BITS_PER_UNIT).
Proof.
  unfold mask_of. set (k := pos mod BITS_PER_UNIT).
  rewrite N.shiftl_1_l.
  destruct (N.testbit u k) eqn:E.
  - apply negb_true_iff, N.eqb_neq. intros Hz.
    assert (Hb : N.testbit (N.land u (2 ^ k)) k = true)
      by (rewrite N.land_spec, E, N.pow2_bits_true; done).
    rewrite Hz, N.bits_0 in Hb. done.
  - apply negb_false_iff, N.eqb_eq, N.bits_inj_0. intros n.
    rewrite N.land_spec, N.pow2_bits_eqb.
    destruct (N.eqb_spec k n) as [->|]; [by rewrite E | by rewrite andb_false_r].
Qed.

Lemma mod_lt_unit pos : pos mod BITS_PER_UNIT < BITS_PER_UNIT.
Proof. apply N.mod_lt. done. Qed.

Lemma high_bits_clear u k : u < 2 ^ BITS_PER_UNIT -> BITS_PER_UNIT <= k -> N.testbit u k = false.
Proof.
  intros Hu Hk. destruct (N.eq_dec u 0) as [->|Hz]; [apply N.bits_0|].
  apply N.bits_above_log2.
  apply N.lt_le_trans with BITS_PER_UNIT; [|done].
  apply N.log2_lt_pow2; lia.
Qed.

Lemma units_lt_of_bits u : (forall k, BITS_PER_UNIT <= k -> N.testbit u k = false) -> u < 2 ^ BITS_PER_UNIT.
Proof.
  intros H. destruct (N.eq_dec u 0) as [->|Hz]; [done|].
  apply N.log2_lt_pow2; [lia|].
  destruct (N.le_gt_cases BITS_PER_UNIT (N.log2 u)) as [Hle|]; [|done].
  specialize (H _ Hle). rewrite N.bit_log2 in H by done. done.
Qed.

Lemma unit_bit_insert v p u q :
  (unit_index p < length v)%nat ->
  unit_bit (<[unit_index p := u]> v) q =
  if decide (unit_index p = unit_index q)
  then N.testbit u (q mod BITS_PER_UNIT) else unit_bit v q.
Proof.
  intros Hlt. unfold unit_bit. case_decide as E.
  - by rewrite <- E, list_lookup_insert_eq.
  - by rewrite list_lookup_insert_ne.
Qed.

Lemma unit_bit_zip (f : N -> N -> N) (g : bool -> bool -> bool) v w q :
  length v = length w ->
  (forall a b k, N.testbit (f a b) k = g (N.testbit a k) (N.testbit b k)) ->
  g false false = false ->
  unit_bit (zip_with f v w) q = g (unit_bit v q) (unit_bit w q).
Proof.
  intros Hlen Hf Hg. unfold unit_bit.
  destruct (v !! unit_index q) as [x|] eqn:Ex.
  - destruct (lookup_lt_is_Some_2 w (unit_index q)) as [y Ey].
    { rewrite <- Hlen. by eapply lookup_lt_Some. }
    rewrite lookup_zip_with, Ex, Ey. simpl. apply Hf.
  - assert (w !! unit_index q = None) as Ey.
    { apply lookup_ge_None. rewrite <- Hlen. by apply lookup_ge_None. }
    rewrite lookup_zip_with, Ex, Ey. simpl. by rewrite Hg.
Qed.

(** A vector is determined by its bits. *)
Lemma units_ext v w :
  length v = length w ->
  Forall (fun u => u < 2 ^ BITS_PER_UNIT) v -> Forall (fun u => u < 2 ^ BITS_PER_UNIT) w ->
  (forall q, unit_bit v q = unit_bit w q) -> v = w.
Proof.
  intros Hlen Hv Hw Hbits. apply list_eq_same_length with (length w); [done..|].
  intros i x y _ Hx Hy. apply N.bits_inj. intros k.
  pose proof (Forall_lookup_1 _ _ _ _ Hv Hx). pose proof (Forall_lookup_1 _ _ _ _ Hw Hy).
  destruct (N.lt_ge_cases k BITS_PER_UNIT) as [Hk|Hk];
    [|rewrite !high_bits_clear; done].
  specialize (Hbits (64 * N.of_nat i + k)). unfold unit_bit, unit_index, BITS_PER_UNIT in *.
  assert (E1 : (64 * N.of_nat i + k) / 64 = N.of_nat i)
    by (symmetry; apply N.div_unique with k; lia).
  assert (E2 : (64 * N.of_nat i + k) mod 64 = k)
    by (symmetry; apply N.mod_unique with (N.of_nat i); lia).
  rewrite E1, E2, Nat2N.id, Hx, Hy in Hbits. done.
Qed.

(** ** What the methods do *)

Section Methods.
Context (bv : CBitVector) (Hwf : bv_wf bv).

Lemma unit_index_lt pos : pos < m_nbits bv -> (unit_index pos < m_len bv)%nat.
Proof.
  intros Hp. pose proof (wf_len _ Hwf) as Hlen.
  unfold unit_index, BITS_PER_UNIT in *.
  assert (pos / 64 < (m_nbits bv + 63) / 64); [|lia].
  apply N.lt_le_trans with (pos / 64 + 1); [lia|].
  replace (pos / 64 + 1) with ((pos + 1 * 64) / 64) by (rewrite N.div_add; lia).
  apply N.Div0.div_le_mono. lia.
Qed.

Lemma unit_lookup pos :
  pos < m_nbits bv ->
  exists u, m_vec bv !! unit_index pos = Some u /\ u < 2 ^ BITS_PER_UNIT /\
    bv_bit bv pos = N.testbit u (pos mod BITS_PER_UNIT).
Proof.
  intros Hp. destruct (lookup_lt_is_Some_2 (m_vec bv) (unit_index pos)) as [u Hu].
  { by apply unit_index_lt. }
  exists u. split_and!; [done|exact (Forall_lookup_1 _ _ _ _ (wf_units _ Hwf) Hu)|].
  unfold bv_bit, unit_bit. by rewrite Hu.
Qed.

Lemma bv_Get_spec pos : pos < m_nbits bv -> Get bv pos = Ret (bv_bit bv pos).
Proof.
  intros Hp. destruct (unit_lookup pos Hp) as (u & Hu & _ & ->).
  unfold Get. assert_step. rewrite (subscript_some _ _ _ Hu). simpl.
  by rewrite mask_test.
Qed.

(** Replacing one unit by one that agrees with it except at [pos]. *)
Lemma set_unit_wf pos u b :
  pos < m_nbits bv -> u < 2 ^ BITS_PER_UNIT ->
  (forall k, N.testbit u k =
     if k =? pos mod BITS_PER_UNIT then b
     else N.testbit (default 0 (m_vec bv !! unit_index pos)) k) ->
  let bv' := set_vec bv (<[unit_index pos := u]> (m_vec bv)) in
  bv_wf bv' /\ m_nbits bv' = m_nbits bv /\
  (forall q, bv_bit bv' q = if q =? pos then b else bv_bit bv q).
Proof.
  intros Hp Hu Hbits bv'.
  assert (Hb : forall q, bv_bit bv' q = if q =? pos then b else bv_bit bv q).
  { intros q. unfold bv', bv_bit at 1; simpl.
    rewrite unit_bit_insert by (by apply unit_index_lt).
    case_decide as E; [rewrite Hbits|].
    - destruct (N.eqb_spec (q mod BITS_PER_UNIT) (pos mod BITS_PER_UNIT)) as [Em|Em].
      + by rewrite (unit_index_inj _ _ E (eq_sym Em)), N.eqb_refl.
      + destruct (N.eqb_spec q pos) as [->|]; [done|].
        unfold bv_bit, unit_bit. by rewrite E.
    - destruct (N.eqb_spec q pos) as [->|]; done. }
  split_and!; [|done|done]. destruct Hwf. split; [done| | |].
  - apply Forall_insert; done.
  - unfold m_len in *; simpl. by rewrite length_insert.
  - simpl. intros q Hq. rewrite Hb. destruct (N.eqb_spec q pos); [lia|]. by apply wf_tail0.
Qed.

Lemma bv_ExchangeSet_spec pos :
  pos < m_nbits bv ->
  exists bv', ExchangeSet bv pos = Ret (bv', bv_bit bv pos) /\ bv_wf bv' /\
    m_nbits bv' = m_nbits bv /\
    (forall q, bv_bit bv' q = (q =? pos) || bv_bit bv q).
Proof.
  intros Hp. destruct (unit_lookup pos Hp) as (u & Hu & Hlt & Hbit).
  unfold ExchangeSet. assert_step. rewrite (bv_Get_spec _ Hp). simpl.
  rewrite (subscript_some _ _ _ Hu). simpl.
  eexists; split; [done|].
  destruct (set_unit_wf pos (N.lor u (mask_of pos)) true) as (H1 & H2 & H3); [done| | |].
  - apply units_lt_of_bits. intros k Hk. unfold mask_of.
    rewrite N.lor_spec, high_bits_clear, N.shiftl_1_l, N.pow2_bits_eqb by done.
    pose proof (mod_lt_unit pos). apply N.eqb_neq. lia.
  - intros k. unfold mask_of. rewrite N.lor_spec, N.shiftl_1_l, N.pow2_bits_eqb, N.eqb_sym, Hu.
    simpl. destruct (k =? _); [by rewrite orb_true_r | by rewrite orb_false_r].
  - split_and!; [done..|]. intros q. rewrite H3. by destruct (q =? pos).
Qed.

Lemma bv_ExchangeClear_spec pos :
  pos < m_nbits bv ->
  exists bv', ExchangeClear bv pos = Ret (bv', bv_bit bv pos) /\ bv_wf bv' /\
    m_nbits bv' = m_nbits bv /\
    (forall q, bv_bit bv' q = negb (q =? pos) && bv_bit bv q).
Proof.
  intros Hp. destruct (unit_lookup pos Hp) as (u & Hu & Hlt & Hbit).
  unfold ExchangeClear. assert_step. rewrite (bv_Get_spec _ Hp). simpl.
  rewrite (subscript_some _ _ _ Hu). simpl.
  eexists; split; [done|].
  set (u' := N.land u _).
  assert (Hu' : forall k, N.testbit u' k =
     if k =? pos mod BITS_PER_UNIT then false else N.testbit u k).
  { intros k. unfold u', mask_of. rewrite N.land_spec.
    destruct (N.lt_ge_cases k BITS_PER_UNIT) as [Hk|Hk].
    - rewrite N.lnot_spec_low, N.shiftl_1_l, N.pow2_bits_eqb, N.eqb_sym by done.
      destruct (k =? _); [by rewrite andb_false_r | by rewrite andb_true_r].
    - rewrite (high_bits_clear u k) by done. by destruct (k =? _). }
  destruct (set_unit_wf pos u' false) as (H1 & H2 & H3); [done| | |].
  - apply units_lt_of_bits. intros k Hk. rewrite Hu', high_bits_clear by done.
    by destruct (k =? _).
  - intros k. by rewrite Hu', Hu.
  - split_and!; [done..|]. intros q. rewrite H3. by destruct (q =? pos).
Qed.

Lemma IsEmpty_spec : IsEmpty bv = true <-> forall q, bv_bit bv q = false.
Proof.
  unfold IsEmpty. rewrite forallb_forall. split.
  - intros H q. unfold bv_bit, unit_bit.
    destruct (m_vec bv !! unit_index q) as [u|] eqn:E; [|done].
    apply list_elem_of_lookup_2, list_elem_of_In, H, N.eqb_eq in E as ->. apply N.bits_0.
  - intros H.
    assert (m_vec bv = replicate (m_len bv) 0) as ->.
    { apply units_ext.
      - by rewrite length_replicate.
      - by apply wf_units.
      - apply Forall_replicate. done.
      - intros q. specialize (H q). unfold bv_bit in H. rewrite H. unfold unit_bit.
        destruct (replicate _ _ !! _) eqn:E; [|done].
        apply lookup_replicate in E as [-> _]. done. }
    intros u Hu%list_elem_of_In%elem_of_replicate. destruct Hu as [-> _]. done.
Qed.

End Methods.

(** ** Methods of two vectors *)

Section Binary.
Context (bv vec : CBitVector) (Hbv : bv_wf bv) (Hvec : bv_wf vec).
Context (Hn : m_nbits bv = m_nbits vec).

Lemma len_eq : length (m_vec bv) = length (m_vec vec).
Proof.
  pose proof (wf_len _ Hbv). pose proof (wf_len _ Hvec). unfold m_len in *.
  rewrite Hn in *. lia.
Qed.

Lemma same_size_true : same_size bv vec = true.
Proof.
  unfold same_size, m_len. rewrite len_eq, Hn, N.eqb_refl, Nat.eqb_refl. done.
Qed.

Lemma zip_wf (f : N -> N -> N) (g : bool -> bool -> bool) :
  (forall a b k, N.testbit (f a b) k = g (N.testbit a k) (N.testbit b k)) ->
  g false false = false ->
  let bv' := set_vec bv (zip_with f (m_vec bv) (m_vec vec)) in
  bv_wf bv' /\ m_nbits bv' = m_nbits bv /\
  forall q, bv_bit bv' q = g (bv_bit bv q) (bv_bit vec q).
Proof.
  intros Hf Hg bv'. pose proof len_eq as Hlen.
  assert (Hb : forall q, bv_bit bv' q = g (bv_bit bv q) (bv_bit vec q))
    by (intros q; by apply unit_bit_zip).
  split_and!; [|done|done]. split.
  - apply Hbv.
  - simpl. apply Forall_lookup_2. intros i u Hu.
    apply lookup_zip_with_Some in Hu as (x & y & -> & Hx & Hy).
    pose proof (Forall_lookup_1 _ _ _ _ (wf_units _ Hbv) Hx).
    pose proof (Forall_lookup_1 _ _ _ _ (wf_units _ Hvec) Hy).
    apply units_lt_of_bits. intros k Hk. rewrite Hf, !high_bits_clear; done.
  - unfold m_len in *; simpl. rewrite length_zip_with_l_eq by done. apply (wf_len _ Hbv).
  - simpl. intros q Hq. rewrite Hb, (wf_tail _ Hbv), (wf_tail _ Hvec); [done|lia..].
Qed.

Lemma Or_spec :
  exists bv', Or bv vec = Ret bv' /\ bv_wf bv' /\ m_nbits bv' = m_nbits bv /\
    forall q, bv_bit bv' q = bv_bit bv q || bv_bit vec q.
Proof.
  unfold Or. rewrite bind_assert by apply same_size_true.
  eexists; split; [done|]. apply zip_wf; [apply N.lor_spec|done].
Qed.

Lemma And_spec :
  exists bv', And bv vec = Ret bv' /\ bv_wf bv' /\ m_nbits bv' = m_nbits bv /\
    forall q, bv_bit bv' q = bv_bit bv q && bv_bit vec q.
Proof.
  unfold And. rewrite bind_assert by apply same_size_true.
  eexists; split; [done|]. apply zip_wf; [apply N.land_spec|done].
Qed.

Lemma land_units_spec :
  zip_with N.land (m_vec bv) (m_vec vec) = m_vec vec <->
  forall q, bv_bit vec q = true -> bv_bit bv q = true.
Proof.
  destruct (zip_wf N.land andb) as (Hwf & _ & Hb); [apply N.land_spec|done|].
  split.
  - intros E q Hq. specialize (Hb q). unfold bv_bit at 1 in Hb. simpl in Hb.
    rewrite E in Hb. fold (bv_bit vec q) in Hb. rewrite Hq in Hb.
    by destruct (bv_bit bv q).
  - intros H. apply units_ext.
    + rewrite length_zip_with_l_eq by apply len_eq. apply len_eq.
    + apply (wf_units _ Hwf).
    + apply (wf_units _ Hvec).
    + intros q. specialize (Hb q). unfold bv_bit at 1 in Hb. simpl in Hb. rewrite Hb.
      fold (bv_bit vec q). specialize (H q).
      destruct (bv_bit vec q); [by rewrite H | apply andb_false_r].
Qed.

Lemma bv_ContainsAll_loop_spec v w :
  length v = length w -> ContainsAll_loop v w = true <-> zip_with N.land v w = w.
Proof.
  clear. revert w; induction v as [|x v IH]; intros [|y w] Hlen; simplify_eq/=; [done|].
  destruct (N.eqb_spec (N.land x y) y) as [->|E]; simpl.
  - rewrite IH by done. split; [by intros ->|congruence].
  - split; [done|]. congruence.
Qed.

Lemma bv_ContainsAll_spec :
  exists b, ContainsAll bv vec = Ret b /\
    (b = true <-> forall q, bv_bit vec q = true -> bv_bit bv q = true).
Proof.
  unfold ContainsAll. rewrite bind_assert by apply same_size_true.
  eexists; split; [done|]. rewrite bv_ContainsAll_loop_spec by apply len_eq.
  apply land_units_spec.
Qed.

Lemma bv_IsDisjoint_loop_spec v w :
  length v = length w ->
  IsDisjoint_loop v w = true <-> zip_with N.land v w = replicate (length v) 0.
Proof.
  clear. revert w; induction v as [|x v IH]; intros [|y w] Hlen; simplify_eq/=; [done|].
  destruct (N.eqb_spec (N.land x y) 0) as [->|E]; simpl.
  - rewrite IH by done. split; [by intros ->|congruence].
  - split; [done|]. congruence.
Qed.

Lemma bv_IsDisjoint_spec :
  exists b, IsDisjoint bv vec = Ret b /\
    (b = true <-> forall q, bv_bit vec q = true -> bv_bit bv q = false).
Proof.
  unfold IsDisjoint. rewrite bind_assert by apply same_size_true.
  eexists; split; [done|]. rewrite bv_IsDisjoint_loop_spec by apply len_eq.
  destruct (zip_wf N.land andb) as (Hwf & _ & Hb); [apply N.land_spec|done|].
  pose proof (IsEmpty_spec _ Hwf) as He. unfold IsEmpty in He; simpl in He.
  transitivity (forall q, bv_bit bv q && bv_bit vec q = false).
  - setoid_rewrite Hb in He. rewrite <- He, forallb_forall.
    rewrite <- (length_zip_with_l_eq N.land (m_vec bv) (m_vec vec))
      by apply len_eq. split.
    + intros -> u Hu%list_elem_of_In%elem_of_replicate. by destruct Hu as [-> _].
    + intros H. symmetry. apply replicate_as_Forall_2; [done|].
      apply Forall_forall. intros u Hu%list_elem_of_In. by apply N.eqb_eq, H.
  - split; intros H q; specialize (H q).
    + intros Hq. rewrite Hq in H. by destruct (bv_bit bv q).
    + destruct (bv_bit vec q); [by rewrite H | apply andb_false_r].
Qed.

End Binary.

Lemma bv_Equals_spec bv vec :
  bv_wf bv -> bv_wf vec -> m_nbits bv = m_nbits vec ->
  exists b, Equals bv vec = Ret b /\
    (b = true <-> forall q, bv_bit bv q = bv_bit vec q).
Proof.
  intros Hbv Hvec Hn. unfold Equals. rewrite bind_assert by (by apply same_size_true).
  case_bool_decide as E.
  - destruct (bv_ContainsAll_spec bv vec) as (b1 & -> & H1); [done..|].
    destruct (bv_ContainsAll_spec vec bv) as (b2 & -> & H2); [done..|]. simpl.
    assert (Hq : forall q, bv_bit bv q = bv_bit vec q) by (intros q; unfold bv_bit; by rewrite E).
    assert (b1 = true) as -> by (apply H1; intros q; by rewrite Hq).
    assert (b2 = true) as -> by (apply H2; intros q; by rewrite Hq).
    by exists true.
  - exists false. split; [done|]. split; [done|]. intros H. destruct E.
    apply units_ext; [by apply len_eq|by apply wf_units..|done].
Qed.

(** ** Construction *)

Lemma replicate_bits n q : unit_bit (replicate n 0) q = false.
Proof.
  unfold unit_bit. destruct (replicate n 0 !! unit_index q) eqn:E; [|done].
  apply lookup_replicate in E as [-> _]. done.
Qed.

Lemma units_needed nbits :
  (let len := nbits / 64 in if len * 64 <? nbits then len + 1 else len) = (nbits + 63) / 64.
Proof.
  cbv zeta. pose proof (N.div_mod nbits 64 ltac:(lia)) as Hd.
  pose proof (N.mod_lt nbits 64 ltac:(lia)) as Hm.
  pose proof (N.le_0_l (nbits mod 64)).
  destruct (N.ltb_spec (nbits / 64 * 64) nbits).
  - apply N.div_unique with (nbits mod 64 - 1); lia.
  - apply N.div_unique with 63; lia.
Qed.

Lemma CBitVector_ctor_spec nbits :
  nbits < 2 ^ 32 ->
  exists bv, CBitVector_ctor nbits = Ret bv /\ bv_wf bv /\ m_nbits bv = nbits /\
    forall q, bv_bit bv q = false.
Proof.
  intros Hw. unfold CBitVector_ctor, BITS_PER_UNIT.
  pose proof (units_needed nbits) as Hlen. cbv zeta in Hlen. rewrite Hlen.
  assert (nbits <= (nbits + 63) / 64 * 64).
  { pose proof (N.div_mod (nbits + 63) 64 ltac:(lia)).
    pose proof (N.mod_lt (nbits + 63) 64 ltac:(lia)). lia. }
  assert_step. eexists; split; [done|].
  assert (Hb : forall n q, unit_bit (m_vec (Clear (mkBitVector nbits (replicate n 0)))) q = false)
    by (intros; apply replicate_bits).
  split_and!; [|done|intros; apply Hb]. split; simpl.
  - done.
  - by apply Forall_replicate.
  - unfold m_len; cbn [m_vec Clear set_vec]. rewrite length_replicate. unfold m_len; cbn [m_vec].
    by rewrite length_replicate, N2Nat.id.
  - intros pos _. apply Hb.
Qed.

(** ** Searching for the next set bit *)

Lemma next_bit_loop_zero fuel bit : next_bit_loop (S fuel) 0 bit = Ret (0, bit).
Proof. done. Qed.

(** With more fuel than the width of the unit the loop stops at the lowest set
    bit. *)
Lemma next_bit_loop_spec fuel ull bit :
  ull <> 0 -> ull < 2 ^ N.of_nat fuel ->
  exists k, next_bit_loop fuel ull bit = Ret (N.shiftr ull k, bit + k) /\
    N.testbit ull k = true /\ forall i, i < k -> N.testbit ull i = false.
Proof.
  revert ull bit; induction fuel as [|fuel IH]; intros ull bit Hz Hlt; [simpl in Hlt; lia|].
  cbn [next_bit_loop]. rewrite (proj2 (N.eqb_neq ull 0) Hz). simpl negb.
  change 1 with (N.ones 1) at 1. rewrite N.land_ones. change (2 ^ 1) with 2.
  rewrite <- N.bit0_mod.
  destruct (N.testbit ull 0) eqn:E0; simpl.
  - exists 0. rewrite N.shiftr_0_r, N.add_0_r. split_and!; [done..|]. lia.
  - assert (Hs : N.shiftr ull 1 = ull / 2) by (by rewrite N.shiftr_div_pow2).
    assert (Hd : ull = 2 * (ull / 2)).
    { pose proof (N.div_mod ull 2 ltac:(lia)) as Hdm.
      pose proof (N.bit0_mod ull) as Hm. rewrite E0 in Hm. simpl in Hm. lia. }
    destruct (IH (N.shiftr ull 1) (bit + 1)) as (k & Hk & Ht & Hlow).
    + rewrite Hs. lia.
    + rewrite Hs. rewrite Nat2N.inj_succ, N.pow_succ_r' in Hlt. lia.
    + exists (k + 1). rewrite Hk, N.shiftr_shiftr. rewrite N.shiftr_spec in Ht by lia.
      split_and!.
      * f_equal. f_equal; [f_equal; lia|lia].
      * done.
      * intros i Hi. destruct (N.eq_dec i 0) as [->|]; [done|].
        specialize (Hlow (i - 1) ltac:(lia)). rewrite N.shiftr_spec in Hlow by lia.
        by replace (i - 1 + 1) with i in Hlow by lia.
Qed.

(** [next_found f start r]: [r] is the least position from [start] on at which
    [f] holds, [None] when there is none. *)
Definition next_found (f : N -> bool) (start : N) (r : option N) : Prop :=
  match r with
  | Some p => start <= p /\ f p = true /\ forall q, start <= q < p -> f q = false
  | None => forall q, start <= q -> f q = false
  end.

Lemma shiftr_lt u k : u < 2 ^ BITS_PER_UNIT -> N.shiftr u k < 2 ^ N.of_nat 65.
Proof.
  intros Hu. rewrite N.shiftr_div_pow2.
  pose proof (N.Div0.div_le_upper_bound u (2 ^ k) u ltac:(nia)).
  unfold BITS_PER_UNIT in Hu. change (2 ^ N.of_nat 65) with (2 * 2 ^ 64). lia.
Qed.

Lemma unit_bit_head u v p : p < BITS_PER_UNIT -> unit_bit (u :: v) p = N.testbit u p.
Proof.
  intros Hp. unfold unit_bit, unit_index. by rewrite N.div_small, N.mod_small by done.
Qed.

Lemma unit_bit_tail u v p : unit_bit (u :: v) (p + BITS_PER_UNIT) = unit_bit v p.
Proof.
  unfold unit_bit, unit_index, BITS_PER_UNIT.
  replace (p + 64) with (p + 1 * 64) by lia. rewrite N.div_add, N.Div0.mod_add by lia.
  by rewrite N2Nat.inj_add, Nat.add_comm.
Qed.

(** Positions without a bit are skipped. *)
Lemma next_found_skip f g lo mid r :
  lo <= mid -> (forall q, lo <= q < mid -> f q = false) -> (forall q, mid <= q -> f q = g q) ->
  next_found g mid r -> next_found f lo r.
Proof.
  intros Hle Hlo Hfg. destruct r as [p|]; cbn.
  - intros (Hp & Hg & Hlow). split_and!; [lia|by rewrite Hfg|]. intros q Hq.
    destruct (N.lt_ge_cases q mid); [apply Hlo; lia|]. rewrite Hfg by done. apply Hlow. lia.
  - intros Hr q Hq. destruct (N.lt_ge_cases q mid); [apply Hlo; lia|]. rewrite Hfg by done. by apply Hr.
Qed.

(** The search inside one unit: it ends on the lowest bit from [offset] on, or on 0
    when there is none. *)
Lemma next_bit_unit u offset :
  u < 2 ^ BITS_PER_UNIT -> exists rest bit,
    next_bit_loop 65 (N.shiftr u offset) offset = Ret (rest, bit) /\
    if rest =? 0 then forall q, offset <= q -> N.testbit u q = false
    else offset <= bit < BITS_PER_UNIT /\ N.testbit u bit = true /\
         forall q, offset <= q < bit -> N.testbit u q = false.
Proof.
  intros Hu. assert (Hsh : forall q, offset <= q -> N.testbit u q = N.testbit (N.shiftr u offset) (q - offset)).
  { intros q Hq. rewrite N.shiftr_spec by lia. f_equal. lia. }
  destruct (N.eq_dec (N.shiftr u offset) 0) as [Hz|Hz].
  - exists 0, offset. rewrite Hz. split; [done|]. cbn. intros q Hq. rewrite Hsh, Hz by done. apply N.bits_0.
  - destruct (next_bit_loop_spec 65 (N.shiftr u offset) offset) as (k & -> & Ht & Hlow);
      [done|by apply shiftr_lt|].
    do 2 eexists. split; [done|]. rewrite (proj2 (N.eqb_neq _ _)).
    + assert (N.testbit u (offset + k) = true) as Hb.
      { rewrite Hsh by lia. by replace (offset + k - offset) with k by lia. }
      split_and!; [lia| |done|].
      * destruct (N.lt_ge_cases (offset + k) BITS_PER_UNIT); [done|]. by rewrite high_bits_clear in Hb.
      * intros q Hq. rewrite Hsh by lia. apply Hlow. lia.
    + intros E. apply (f_equal (fun x => N.testbit x 0)) in E.
      rewrite N.shiftr_spec, N.bits_0, N.add_0_l in E by lia. congruence.
Qed.

Lemma GetNextSetBit_loop_spec v idx offset :
  offset < BITS_PER_UNIT -> Forall (fun u => u < 2 ^ BITS_PER_UNIT) v ->
  exists r, GetNextSetBit_loop v idx offset = Ret r /\
    next_found (fun p => (idx * BITS_PER_UNIT <=? p) && unit_bit v (p - idx * BITS_PER_UNIT))
      (idx * BITS_PER_UNIT + offset) r.
Proof.
  revert idx offset; induction v as [|u v IH]; intros idx offset Ho Hv.
  { exists None. split; [done|]. intros q _. simpl. unfold unit_bit.
    rewrite lookup_nil. apply andb_false_r. }
  apply Forall_cons in Hv as [Hu Hv].
  destruct (next_bit_unit u offset Hu) as (rest & bit & E & Hbit).
  cbn [GetNextSetBit_loop]. rewrite E. cbn [mbind outcome_bind]. cbn [fst snd]. destruct (rest =? 0); cbn [negb].
  - destruct (IH (idx + 1) 0) as (r & -> & Hr); [done..|]. exists r. split; [done|].
    eapply next_found_skip; [| | |exact Hr]; [unfold BITS_PER_UNIT in *; lia| |].
    + intros q Hq. rewrite unit_bit_head, Hbit by (unfold BITS_PER_UNIT in *; lia). apply andb_false_r.
    + intros q Hq. replace (q - idx * BITS_PER_UNIT) with (q - (idx + 1) * BITS_PER_UNIT + BITS_PER_UNIT)
        by (unfold BITS_PER_UNIT in *; lia).
      rewrite unit_bit_tail. f_equal. unfold BITS_PER_UNIT in *. lia.
  - destruct Hbit as (Hlt & Hb & Hlow). eexists. split; [done|]. cbn. split_and!; [lia| |].
    + rewrite unit_bit_head by lia. replace (bit + idx * BITS_PER_UNIT - idx * BITS_PER_UNIT) with bit by lia.
      rewrite Hb. lia.
    + intros q Hq. rewrite unit_bit_head, Hlow by lia. apply andb_false_r.
Qed.

Lemma GetNextSetBit_spec bv start :
  bv_wf bv ->
  exists r, GetNextSetBit bv start = Ret r /\ next_found (bv_bit bv) start r.
Proof.
  intros Hwf. unfold GetNextSetBit.
  destruct (GetNextSetBit_loop_spec (drop (unit_index start) (m_vec bv))
    (start / BITS_PER_UNIT) (start mod BITS_PER_UNIT)) as (r & -> & Hr).
  { apply mod_lt_unit. }
  { apply Forall_drop, Hwf. }
  exists r; split; [done|]. unfold BITS_PER_UNIT in *.
  pose proof (pos_split start) as Hs. pose proof (N.le_0_l (start mod 64)).
  replace (start / 64 * 64 + start mod 64) with start in Hr by lia.
  assert (Hq : forall q, start <= q ->
    (start / 64 * 64 <=? q) && unit_bit (drop (unit_index start) (m_vec bv)) (q - start / 64 * 64)
    = bv_bit bv q).
  { intros q Hq. replace (start / 64 * 64 <=? q) with true by lia. simpl.
    unfold bv_bit, unit_bit, unit_index, BITS_PER_UNIT. rewrite lookup_drop.
    replace q with (q - start / 64 * 64 + start / 64 * 64) at 3 4 by lia.
    rewrite N.div_add, N.Div0.mod_add by lia. rewrite N2Nat.inj_add, Nat.add_comm. done. }
  destruct r as [p|]; simpl in *.
  - destruct Hr as (H1 & H2 & H3). split_and!; [done|by rewrite <- Hq|].
    intros q Hlt. rewrite <- Hq by lia. by apply H3.
  - intros q Hle. rewrite <- Hq by done. by apply Hr.
Qed.

(** ** Counting *)

Fixpoint pos_pop (p : positive) : nat :=
  match p with
  | xH => 1
  | xO p' => pos_pop p'
  | xI p' => S (pos_pop p')
  end.

Definition popcount (u : N) : nat :=
  match u with 0 => O | Npos p => pos_pop p end.

Lemma popcount_double u : popcount (2 * u) = popcount u.
Proof. by destruct u. Qed.

Lemma popcount_succ_double u : popcount (2 * u + 1) = S (popcount u).
Proof. by destruct u. Qed.

(** [ull &= (ull - 1)] clears exactly one bit. *)
Lemma popcount_clear_lowest u :
  u <> 0 -> popcount u = S (popcount (N.land u (u - 1))).
Proof.
  destruct u as [|p]; [done|]. intros _.
  induction p as [p IH|p IH|]; [| |done].
  - replace (N.pos p~1 - 1) with (2 * N.pos p) by lia.
    assert (N.land (N.pos p~1) (2 * N.pos p) = 2 * N.pos p) as ->.
    { apply N.bits_inj. intros [|k].
      - rewrite N.land_spec, !N.testbit_even_0. by rewrite andb_false_r.
      - rewrite N.land_spec. change (N.pos p~1) with (2 * N.pos p + 1).
        rewrite <- (N.succ_pred (N.pos k)) by done.
        rewrite N.testbit_odd_succ, N.testbit_even_succ by lia. apply andb_diag. }
    by rewrite popcount_double.
  - replace (N.pos p~0 - 1) with (2 * (N.pos p - 1) + 1) by lia.
    assert (N.land (N.pos p~0) (2 * (N.pos p - 1) + 1) = 2 * N.land (N.pos p) (N.pos p - 1)) as ->.
    { apply N.bits_inj. intros [|k].
      - by rewrite N.land_spec, !N.testbit_even_0.
      - rewrite N.land_spec. change (N.pos p~0) with (2 * N.pos p).
        rewrite <- (N.succ_pred (N.pos k)) by done.
        by rewrite N.testbit_odd_succ, !N.testbit_even_succ, N.land_spec by lia. }
    rewrite popcount_double, <- IH. done.
Qed.

Lemma bits_below_S f n :
  length (bits_below f (S n)) =
  ((if f 0%N then 1 else 0) + length (bits_below (fun p => f (N.succ p)) n))%nat.
Proof.
  change (S n) with (1 + n)%nat. rewrite bits_below_app, length_app, length_fmap.
  f_equal.
  - unfold bits_below. cbn [seq fmap list_fmap]. change (N.of_nat 0) with 0. rewrite filter_cons. case_decide as E; [by rewrite E|]. by destruct (f 0).
  - f_equal. apply bits_below_ext. intros p _. f_equal. lia.
Qed.

Lemma popcount_bits n u :
  u < 2 ^ N.of_nat n -> length (bits_below (N.testbit u) n) = popcount u.
Proof.
  revert u; induction n as [|n IH]; intros u Hu.
  { by assert (u = 0) as -> by (simpl in Hu; lia). }
  rewrite Nat2N.inj_succ, N.pow_succ_r' in Hu. rewrite bits_below_S.
  destruct (N.exists_div2 u) as (h & [] & ->).
  - rewrite N.testbit_odd_0, popcount_succ_double, <- (IH h) by lia. simpl. f_equal.
    f_equal. apply bits_below_ext. intros p _. by rewrite N.testbit_odd_succ by lia.
  - change (N.b2n false) with 0 in *. rewrite N.add_0_r in *.
    rewrite N.testbit_even_0, popcount_double, <- (IH h) by lia. simpl.
    f_equal. apply bits_below_ext. intros p _. by rewrite N.testbit_even_succ by lia.
Qed.

Lemma count_loop_spec fuel u j :
  (popcount u < fuel)%nat -> count_loop fuel u j = Ret (j + N.of_nat (popcount u)).
Proof.
  revert u j; induction fuel as [|fuel IH]; intros u j Hf; [lia|]. cbn [count_loop].
  destruct (N.eqb_spec u 0) as [->|Hz]; [by rewrite N.add_0_r|].
  rewrite (popcount_clear_lowest u Hz) in *. rewrite IH by lia. f_equal. lia.
Qed.

Lemma bits_below_len f n : (length (bits_below f n) <= n)%nat.
Proof. unfold bits_below. etrans; [apply length_filter|]. by rewrite length_fmap, length_seq. Qed.

Lemma CountSetBits_loop_spec v c :
  Forall (fun u => u < 2 ^ BITS_PER_UNIT) v ->
  CountSetBits_loop v c = Ret (c + N.of_nat (length (bits_below (unit_bit v) (64 * length v)))).
Proof.
  revert c; induction v as [|u v IH]; intros c Hv.
  { simpl. by rewrite N.add_0_r. }
  apply Forall_cons in Hv as [Hu Hv]. cbn [CountSetBits_loop].
  pose proof (popcount_bits 64 u Hu) as Hp. pose proof (bits_below_len (N.testbit u) 64).
  rewrite count_loop_spec by lia. cbn [mbind outcome_bind]. rewrite IH by done. f_equal.
  replace (64 * length (u :: v))%nat with (64 + 64 * length v)%nat by (simpl; lia).
  rewrite bits_below_app, length_app, length_fmap, N.add_0_l, <- N.add_assoc, <- Nat2N.inj_add.
  rewrite <- Hp, (bits_below_ext (unit_bit (u :: v)) (N.testbit u)).
  - rewrite (bits_below_ext (fun p => unit_bit (u :: v) (N.of_nat 64 + p)) (unit_bit v)); [done|].
    intros p _. rewrite N.add_comm. apply unit_bit_tail.
  - intros p Hlt. by apply unit_bit_head.
Qed.

Lemma CountSetBits_spec bv :
  bv_wf bv -> CountSetBits bv = Ret (N.of_nat (length (bv_elements bv))).
Proof.
  intros Hwf. unfold CountSetBits. rewrite CountSetBits_loop_spec by apply Hwf.
  rewrite N.add_0_l. do 2 f_equal. unfold bv_elements.
  set (n := N.to_nat (m_nbits bv)). set (m := (64 * length (m_vec bv))%nat).
  assert (n <= m)%nat as Hle.
  { pose proof (wf_len _ Hwf) as Hl. unfold BITS_PER_UNIT in Hl.
    pose proof (N.div_mod (m_nbits bv + 63) 64 ltac:(lia)).
    pose proof (N.mod_lt (m_nbits bv + 63) 64 ltac:(lia)).
    unfold m_len in Hl. lia. }
  replace m with (n + (m - n))%nat by lia.
  rewrite bits_below_app, (bits_below_none (fun p => unit_bit (m_vec bv) (N.of_nat n + p))).
  - rewrite fmap_nil. by rewrite app_nil_r.
  - intros p _. apply (wf_tail _ Hwf). lia.
Qed.

Lemma elem_of_bv_elements bv p :
  bv_wf bv -> p ∈ bv_elements bv <-> bv_bit bv p = true.
Proof.
  intros Hwf. unfold bv_elements. rewrite elem_of_bits_below. split; [by intros []|].
  intros Hb. split; [done|]. destruct (N.lt_ge_cases p (m_nbits bv)) as [|Hge]; [lia|].
  by rewrite (wf_tail _ Hwf _ Hge) in Hb.
Qed.

End BitVector.
