(* ===== verification/BitSet.v ===== *)
(** * Bit sets (libgpos/src/common/CBitSet.cpp, CBitSetIter.cpp)

    A [CBitSet] is a list of links, each a [CBitVector] of [m_vector_size] bits
    placed at a multiple of [m_vector_size], in ascending order of offset.  It
    is the set type of the optimizer: column sets, key sets and rule sets are
    built on it.  A [CBitSetLink *] into the list of a set is modelled by the
    link's index in that list, the null pointer by [None]. *)
From stdpp Require Import base numbers list gmap sets sorting.
From S2P Require Import Prelude BitVector.
Local Open Scope N_scope.

Module BitSet.

Record CBitSetLink := mkLink {
  m_offset : N;
  m_link_vec : BitVector.CBitVector
}.

Record CBitSet := mkBitSet {
  m_bsllist : list CBitSetLink;
  m_vector_size : N;
  m_size : N
}.

Definition ULONG_MOD : N := 2 ^ 32.

Definition set_list (bs : CBitSet) (l : list CBitSetLink) : CBitSet :=
  mkBitSet l (m_vector_size bs) (m_size bs).

Definition set_size (bs : CBitSet) (n : N) : CBitSet :=
  mkBitSet (m_bsllist bs) (m_vector_size bs) n.

(** [CBitSetLink::CBitSetLink(mp, offset, vector_size)] *)
Definition CBitSetLink_ctor (offset vector_size : N) : outcome CBitSetLink :=
  v ← BitVector.CBitVector_ctor vector_size;
  mret (mkLink offset v).

(** [CBitSetLink::CBitSetLink(mp, bsl)] *)
Definition CBitSetLink_copy (bsl : CBitSetLink) : CBitSetLink :=
  mkLink (m_offset bsl) (BitVector.CBitVector_copy (m_link_vec bsl)).

(** The [while] of [FindLinkByOffset]; [cursor] is the index of the head of
    [rest]. *)
Fixpoint FindLink_loop (offset : N) (found : option nat) (cursor : nat)
    (rest : list CBitSetLink) : option nat :=
  match rest with
  | [] => found
  | bsl :: rest' =>
      if offset <? m_offset bsl then found
      else FindLink_loop offset (Some cursor) (S cursor) rest'
  end.

(** [CBitSet::FindLinkByOffset] *)
Definition FindLinkByOffset (bs : CBitSet) (offset : N) (bsl : option nat)
    : outcome (option nat) :=
  match bsl with
  | None => mret (FindLink_loop offset None 0 (m_bsllist bs))
  | Some i =>
      l ← subscript (m_bsllist bs) i;
      _ ← GPOS_ASSERT (m_offset l <=? offset);
      mret (FindLink_loop offset (Some i) i (drop i (m_bsllist bs)))
  end.

Fixpoint sum_bits (l : list CBitSetLink) (size : N) : outcome N :=
  match l with
  | [] => mret size
  | bsl :: l' =>
      c ← BitVector.CountSetBits (m_link_vec bsl);
      sum_bits l' ((size + c) mod ULONG_MOD)
  end.

(** [CBitSet::RecomputeSize] *)
Definition RecomputeSize (bs : CBitSet) : outcome CBitSet :=
  n ← sum_bits (m_bsllist bs) 0;
  mret (set_size bs n).

(** [CBitSet::Clear] *)
Definition Clear (bs : CBitSet) : outcome CBitSet := RecomputeSize (set_list bs []).

(** [CBitSet::ComputeOffset] *)
Definition ComputeOffset (bs : CBitSet) (ul : N) : N :=
  (ul / m_vector_size bs) * m_vector_size bs.

(** [CBitSet::CBitSet(mp, vector_size)] *)
Definition CBitSet_ctor (vector_size : N) : CBitSet := mkBitSet [] vector_size 0.

(** The link a pointer designates, when it has the wanted offset:
    [nullptr != bsl && bsl->GetOffset() == offset]. *)
Definition link_with_offset (l : list CBitSetLink) (bsl : option nat) (offset : N)
    : option (nat * CBitSetLink) :=
  match bsl with
  | None => None
  | Some i =>
      match l !! i with
      | Some k => if m_offset k =? offset then Some (i, k) else None
      | None => None
      end
  end.

(** [CBitSet::Get] *)
Definition Get (bs : CBitSet) (pos : N) : outcome bool :=
  let offset := ComputeOffset bs pos in
  bsl ← FindLinkByOffset bs offset None;
  match link_with_offset (m_bsllist bs) bsl offset with
  | Some (_, k) => BitVector.Get (m_link_vec k) (pos - offset)
  | None => mret false
  end.

(** [m_bsllist.Prepend(new)] for a null position, [m_bsllist.Append(new, bsl)]
    otherwise, with the index of the new link. *)
Definition insert_link (l : list CBitSetLink) (bsl : option nat) (k : CBitSetLink)
    : list CBitSetLink * nat :=
  match bsl with
  | None => (k :: l, O)
  | Some i => (take (S i) l ++ k :: drop (S i) l, S i)
  end.

(** The link that receives a bit: the one found, or a new empty one. *)
Definition link_for_set (bs : CBitSet) (bsl : option nat) (offset : N)
    : outcome (list CBitSetLink * nat) :=
  match link_with_offset (m_bsllist bs) bsl offset with
  | Some (i, _) => mret (m_bsllist bs, i)
  | None =>
      k ← CBitSetLink_ctor offset (m_vector_size bs);
      mret (insert_link (m_bsllist bs) bsl k)
  end.

(** [CBitSet::ExchangeSet] *)
Definition ExchangeSet (bs : CBitSet) (pos : N) : outcome (CBitSet * bool) :=
  let offset := ComputeOffset bs pos in
  bsl ← FindLinkByOffset bs offset None;
  r ← link_for_set bs bsl offset;
  k ← subscript r.1 r.2;
  _ ← GPOS_ASSERT (m_offset k =? offset);
  '(v, bit) ← BitVector.ExchangeSet (m_link_vec k) (pos - offset);
  let bs' := set_list bs (<[r.2 := mkLink (m_offset k) v]> r.1) in
  mret (if negb bit then set_size bs' ((m_size bs' + 1) mod ULONG_MOD) else bs', bit).

(** [CBitSet::ExchangeClear]; an emptied link is removed *)
Definition ExchangeClear (bs : CBitSet) (pos : N) : outcome (CBitSet * bool) :=
  let offset := ComputeOffset bs pos in
  bsl ← FindLinkByOffset bs offset None;
  match link_with_offset (m_bsllist bs) bsl offset with
  | Some (i, k) =>
      '(v, bit) ← BitVector.ExchangeClear (m_link_vec k) (pos - offset);
      let l' := if BitVector.IsEmpty v then delete i (m_bsllist bs)
                else <[i := mkLink (m_offset k) v]> (m_bsllist bs) in
      let bs' := set_list bs l' in
      mret (if (bit : bool) then set_size bs' ((m_size bs' + (ULONG_MOD - 1)) mod ULONG_MOD)
            else bs', bit)
  | None => mret (bs, false)
  end.

(** First loop of [Union]: copies of the links of [other] missing in [bs]. *)
Fixpoint Union_missing (bs : CBitSet) (other : list CBitSetLink) (bsl : option nat)
    : outcome (list CBitSetLink) :=
  match other with
  | [] => mret []
  | k :: other' =>
      bsl' ← FindLinkByOffset bs (m_offset k) bsl;
      r ← Union_missing bs other' bsl';
      mret match link_with_offset (m_bsllist bs) bsl' (m_offset k) with
           | Some _ => r
           | None => CBitSetLink_copy k :: r
           end
  end.

(** Second loop: insert the new links. *)
Fixpoint Union_insert (bs : CBitSet) (new : list CBitSetLink) (bsl : option nat)
    : outcome CBitSet :=
  match new with
  | [] => mret bs
  | k :: new' =>
      bsl' ← FindLinkByOffset bs (m_offset k) bsl;
      _ ← (match bsl' with
           | None => mret tt
           | Some i => l ← subscript (m_bsllist bs) i;
                       GPOS_ASSERT (m_offset l <? m_offset k)
           end : outcome unit);
      Union_insert (set_list bs (insert_link (m_bsllist bs) bsl' k).1) new' bsl'
  end.

(** Third loop: union the vectors of equal offset. *)
Fixpoint Union_or (other : CBitSet) (l : list CBitSetLink) (bsl_other : option nat)
    : outcome (list CBitSetLink) :=
  match l with
  | [] => mret []
  | k :: l' =>
      bsl_other' ← FindLinkByOffset other (m_offset k) bsl_other;
      k' ← (match link_with_offset (m_bsllist other) bsl_other' (m_offset k) with
            | Some (_, o) => v ← BitVector.Or (m_link_vec k) (m_link_vec o);
                             mret (mkLink (m_offset k) v)
            | None => mret k
            end : outcome CBitSetLink);
      r ← Union_or other l' bsl_other';
      mret (k' :: r)
  end.

(** [CBitSet::Union] *)
Definition Union (bs other : CBitSet) : outcome CBitSet :=
  _ ← GPOS_ASSERT (m_vector_size bs =? m_vector_size other);
  new ← Union_missing bs (m_bsllist other) None;
  bs1 ← Union_insert bs new None;
  l ← Union_or other (m_bsllist bs1) None;
  RecomputeSize (set_list bs1 l).

(** [CBitSet::CBitSet(mp, bs)] *)
Definition CBitSet_copy (bs : CBitSet) : outcome CBitSet :=
  Union (CBitSet_ctor (m_vector_size bs)) bs.

Fixpoint Intersection_loop (other : CBitSet) (l : list CBitSetLink) (bsl_other : option nat)
    : outcome (list CBitSetLink) :=
  match l with
  | [] => mret []
  | k :: l' =>
      bsl_other' ← FindLinkByOffset other (m_offset k) bsl_other;
      match link_with_offset (m_bsllist other) bsl_other' (m_offset k) with
      | Some (_, o) =>
          v ← BitVector.And (m_link_vec k) (m_link_vec o);
          r ← Intersection_loop other l' bsl_other';
          mret (if BitVector.IsEmpty v then r else mkLink (m_offset k) v :: r)
      | None => Intersection_loop other l' bsl_other'
      end
  end.

(** [CBitSet::Intersection]; [None] is the null pointer *)
Definition Intersection (bs : CBitSet) (pbsOther : option CBitSet) : outcome CBitSet :=
  match pbsOther with
  | None => mret bs
  | Some other =>
      _ ← GPOS_ASSERT (m_vector_size bs =? m_vector_size other);
      l ← Intersection_loop other (m_bsllist bs) None;
      RecomputeSize (set_list bs l)
  end.

Fixpoint ContainsAll_loop (bs : CBitSet) (other : list CBitSetLink) (bsl : option nat)
    : outcome bool :=
  match other with
  | [] => mret true
  | o :: other' =>
      bsl' ← FindLinkByOffset bs (m_offset o) bsl;
      match link_with_offset (m_bsllist bs) bsl' (m_offset o) with
      | None => mret false
      | Some (_, k) =>
          c ← BitVector.ContainsAll (m_link_vec k) (m_link_vec o);
          if negb (c : bool) then mret false else ContainsAll_loop bs other' bsl'
      end
  end.

(** [CBitSet::ContainsAll] *)
Definition ContainsAll (bs other : CBitSet) : outcome bool :=
  if m_size bs <? m_size other then mret false
  else ContainsAll_loop bs (m_bsllist other) None.

Fixpoint Equals_loop (l other : list CBitSetLink) : outcome bool :=
  match l, other with
  | [], [] => mret true
  | [], _ :: _ => mret false
  | _ :: _, [] => mret false
  | k :: l', o :: other' =>
      if negb (m_offset k =? m_offset o) then mret false
      else (e ← BitVector.Equals (m_link_vec k) (m_link_vec o);
            if negb (e : bool) then mret false else Equals_loop l' other')
  end.

(** [CBitSet::Equals] of two objects at different addresses *)
Definition Equals (bs other : CBitSet) : outcome bool :=
  if negb (m_size bs =? m_size other) then mret false
  else Equals_loop (m_bsllist bs) (m_bsllist other).

Fixpoint IsDisjoint_loop (bs : CBitSet) (other : list CBitSetLink) (bsl : option nat)
    : outcome bool :=
  match other with
  | [] => mret true
  | o :: other' =>
      bsl' ← FindLinkByOffset bs (m_offset o) bsl;
      match link_with_offset (m_bsllist bs) bsl' (m_offset o) with
      | None => IsDisjoint_loop bs other' bsl'
      | Some (_, k) =>
          d ← BitVector.IsDisjoint (m_link_vec k) (m_link_vec o);
          if negb (d : bool) then mret false else IsDisjoint_loop bs other' bsl'
      end
  end.

(** [CBitSet::IsDisjoint] *)
Definition IsDisjoint (bs other : CBitSet) : outcome bool :=
  IsDisjoint_loop bs (m_bsllist other) None.

(** [CBitSetIter]; [m_cursor = (ULONG) -1] before the first bit of a link *)
Record CBitSetIter := mkIter {
  m_cursor : N;
  m_bsl : option nat;
  m_active : bool
}.

Definition ULONG_MINUS_1 : N := ULONG_MOD - 1.

(** [CBitSetIter::CBitSetIter] *)
Definition CBitSetIter_ctor : CBitSetIter := mkIter ULONG_MINUS_1 None true.

(** The [while] of [Advance], over the links from index [i] on. *)
Fixpoint Advance_loop (vector_size : N) (rest : list CBitSetLink) (i : nat) (cursor : N)
    : outcome (N * option nat) :=
  match rest with
  | [] => mret (cursor, None)
  | k :: rest' =>
      let next := (cursor + 1) mod ULONG_MOD in
      r ← (if next <=? vector_size then BitVector.GetNextSetBit (m_link_vec k) next
           else mret None : outcome (option N));
      match r with
      | Some c => mret (c, Some i)
      | None => Advance_loop vector_size rest' (S i) ULONG_MINUS_1
      end
  end.

(** [CBitSetIter::Advance] *)
Definition Advance (bs : CBitSet) (it : CBitSetIter) : outcome (CBitSetIter * bool) :=
  _ ← GPOS_ASSERT (m_active it);
  let i := default O (m_bsl it) in
  '(cursor, bsl) ← Advance_loop (m_vector_size bs) (drop i (m_bsllist bs)) i (m_cursor it);
  let active := match bsl with Some _ => true | None => false end in
  mret (mkIter cursor bsl active, active).

(** [CBitSetIter::Bit] *)
Definition Bit (bs : CBitSet) (it : CBitSetIter) : outcome N :=
  _ ← GPOS_ASSERT (m_active it);
  i ← deref (m_bsl it);
  k ← subscript (m_bsllist bs) i;
  b ← BitVector.Get (m_link_vec k) (m_cursor it);
  _ ← GPOS_ASSERT b;
  mret ((m_offset k + m_cursor it) mod ULONG_MOD).

(** [while (bsiter.Advance()) ExchangeClear(bsiter.Bit())] of [Difference] *)
Fixpoint Difference_loop (fuel : nat) (bs other : CBitSet) (it : CBitSetIter)
    : outcome CBitSet :=
  match fuel with
  | O => Abort FFuel
  | S fuel' =>
      '(it', more) ← Advance other it;
      if (more : bool) then (b ← Bit other it';
                   '(bs', _) ← ExchangeClear bs b;
                   Difference_loop fuel' bs' other it')
      else mret bs
  end.

(** ** Abstraction *)

Definition link_elements (k : CBitSetLink) : list N :=
  N.add (m_offset k) <$> BitVector.bv_elements (m_link_vec k).

Definition links_elements (l : list CBitSetLink) : list N := l ≫= link_elements.

(** The members, link by link. *)
Definition bs_elements (bs : CBitSet) : list N := links_elements (m_bsllist bs).

(** The set of members. *)
Definition bs_set (bs : CBitSet) : gset N := list_to_set (bs_elements bs).

(** [CBitSet::Difference], for [pbs] another object than [this] *)
Definition Difference (bs other : CBitSet) : outcome CBitSet :=
  d ← IsDisjoint bs other;
  if (d : bool) then mret bs
  else Difference_loop (S (length (bs_elements other))) bs other CBitSetIter_ctor.

(** ** Invariant *)

(** A link is well formed when its vector is, has the set's vector size, sits at
    a multiple of it, is not empty, and holds 32-bit members only. *)
Record link_ok (vs : N) (k : CBitSetLink) : Prop := {
  lk_vec : BitVector.bv_wf (m_link_vec k);
  lk_nbits : BitVector.m_nbits (m_link_vec k) = vs;
  lk_offset : m_offset k mod vs = 0;
  lk_nonempty : exists q, BitVector.bv_bit (m_link_vec k) q = true;
  lk_width : forall q, BitVector.bv_bit (m_link_vec k) q = true -> m_offset k + q < ULONG_MOD
}.

Record links_wf (vs : N) (l : list CBitSetLink) : Prop := {
  lw_vs : 0 < vs < ULONG_MOD;
  lw_sorted : ascending (m_offset <$> l);
  lw_links : Forall (link_ok vs) l
}.

Record bs_wf (bs : CBitSet) : Prop := {
  bw_links : links_wf (m_vector_size bs) (m_bsllist bs);
  bw_size : m_size bs = N.of_nat (size (bs_set bs)) mod ULONG_MOD
}.

Section Links.
Context (vs : N) (l : list CBitSetLink) (Hwf : links_wf vs l).

Lemma link_ok_of k : k ∈ l -> link_ok vs k.
Proof. intros Hk. pose proof (lw_links _ _ Hwf) as H. rewrite Forall_forall in H. by apply H. Qed.

Lemma link_bit_lt k q :
  k ∈ l -> BitVector.bv_bit (m_link_vec k) q = true -> q < vs.
Proof.
  intros Hk Hq. destruct (link_ok_of k Hk) as [Hv Hn _ _ _].
  destruct (N.lt_ge_cases q vs) as [|Hge]; [done|].
  rewrite <- Hn in Hge. by rewrite (BitVector.wf_tail _ Hv _ Hge) in Hq.
Qed.

Lemma offset_unique k1 k2 :
  k1 ∈ l -> k2 ∈ l -> m_offset k1 = m_offset k2 -> k1 = k2.
Proof.
  intros H1 H2 E. apply list_elem_of_lookup in H1 as [i Hi], H2 as [j Hj].
  assert (i = j) as ->; [|congruence].
  eapply (NoDup_lookup (m_offset <$> l)); [apply ascending_NoDup, Hwf| |].
  - by rewrite list_lookup_fmap, Hi.
  - rewrite list_lookup_fmap, Hj. simpl. by rewrite E.
Qed.

(** Position [p] lies in the link at offset [(p / vs) * vs]. *)
Lemma offset_of_member o q : o mod vs = 0 -> q < vs -> (o + q) / vs * vs = o.
Proof.
  intros Ho Hq. destruct (lw_vs _ _ Hwf).
  pose proof (N.div_mod o vs ltac:(lia)) as Hd. rewrite Ho in Hd.
  assert ((o + q) / vs = o / vs) as ->; [|lia].
  symmetry. apply N.div_unique with q; [done|]. lia.
Qed.

Lemma elem_of_link k p :
  k ∈ l -> p ∈ link_elements k <->
  m_offset k = p / vs * vs /\ BitVector.bv_bit (m_link_vec k) (p - p / vs * vs) = true.
Proof.
  intros Hk. destruct (link_ok_of k Hk) as [Hv Hn Ho _ _].
  unfold link_elements. rewrite list_elem_of_fmap. split.
  - intros (q & -> & Hq). rewrite BitVector.elem_of_bv_elements in Hq by done.
    assert (q < vs) by (by eapply link_bit_lt).
    rewrite offset_of_member by done. split; [done|].
    by replace (m_offset k + q - m_offset k) with q by lia.
  - intros [E Hb]. exists (p - p / vs * vs).
    rewrite BitVector.elem_of_bv_elements by done. split; [|done].
    destruct (lw_vs _ _ Hwf). pose proof (N.div_mod p vs ltac:(lia)).
    pose proof (N.le_0_l (p mod vs)). lia.
Qed.

Lemma elem_of_links p :
  p ∈ links_elements l <-> exists k, k ∈ l /\ m_offset k = p / vs * vs /\
    BitVector.bv_bit (m_link_vec k) (p - p / vs * vs) = true.
Proof.
  unfold links_elements. rewrite list_elem_of_bind. split.
  - intros (k & Hp & Hk). exists k. split; [done|]. by apply elem_of_link.
  - intros (k & Hk & Hp). exists k. split; [|done]. by apply elem_of_link.
Qed.

Lemma member_width p : p ∈ links_elements l -> p < ULONG_MOD.
Proof.
  intros (k & Hp & Hk)%list_elem_of_bind.
  apply list_elem_of_fmap in Hp as (q & -> & Hq).
  apply (lk_width _ _ (link_ok_of k Hk)). by apply BitVector.elem_of_bv_elements; [apply (lk_vec _ _ (link_ok_of k Hk))|].
Qed.

End Links.

Lemma links_wf_cons vs k l :
  links_wf vs (k :: l) -> link_ok vs k /\ links_wf vs l /\ Forall (fun k' => m_offset k < m_offset k') l.
Proof.
  intros [Hvs Hs Hl]. apply Forall_cons in Hl as [Hk Hl].
  rewrite fmap_cons in Hs. apply StronglySorted_cons in Hs as [Hf Hs].
  split_and!; [done|by constructor|]. rewrite Forall_fmap in Hf. exact Hf.
Qed.

Lemma offset_gap vs o1 o2 : 0 < vs -> o1 mod vs = 0 -> o2 mod vs = 0 -> o1 < o2 -> o1 + vs <= o2.
Proof.
  intros Hvs H1 H2 Hlt. pose proof (N.div_mod o1 vs ltac:(lia)) as E1.
  pose proof (N.div_mod o2 vs ltac:(lia)) as E2. rewrite H1 in E1. rewrite H2 in E2.
  set (a := o1 / vs) in *. set (b := o2 / vs) in *. clearbody a b.
  assert (a < b) by (apply N.nle_gt; intros Hle; nia). nia.
Qed.

Lemma links_elements_ascending vs l : links_wf vs l -> ascending (links_elements l).
Proof.
  induction l as [|k l IH]; intros Hwf; [constructor|].
  destruct (links_wf_cons _ _ _ Hwf) as (Hk & Hl & Hlt).
  unfold links_elements. rewrite bind_cons. apply ascending_app.
  - apply ascending_shift, bits_below_ascending.
  - by apply IH.
  - intros x y (q & -> & Hq)%list_elem_of_fmap (k' & (q' & -> & Hq')%list_elem_of_fmap & Hk')%list_elem_of_bind.
    apply BitVector.elem_of_bv_elements in Hq; [|apply Hk].
    assert (q < vs) by (by eapply (link_bit_lt _ _ Hwf k); [left|]).
    rewrite Forall_forall in Hlt. specialize (Hlt k' Hk').
    pose proof (offset_gap vs (m_offset k) (m_offset k') ltac:(apply Hwf) (lk_offset _ _ Hk)
      (lk_offset _ _ (link_ok_of _ _ Hl k' Hk')) Hlt). lia.
Qed.

Lemma set_size_elements vs l :
  links_wf vs l -> size (list_to_set (links_elements l) : gset N) = length (links_elements l).
Proof. intros H. apply size_list_to_set, ascending_NoDup. by eapply links_elements_ascending. Qed.

(** ** Finding a link *)

Definition find_pos (offset : N) (l : list CBitSetLink) : option nat :=
  FindLink_loop offset None 0 l.

Definition last_index (n : nat) : option nat :=
  match n with O => None | S m => Some m end.

Lemma FindLink_loop_skip o found c l1 l2 :
  Forall (fun k => m_offset k <= o) l1 ->
  FindLink_loop o found c (l1 ++ l2) =
  FindLink_loop o (match l1 with [] => found | _ => Some (c + length l1 - 1)%nat end) (c + length l1) l2.
Proof.
  revert found c; induction l1 as [|k l1 IH]; intros found c H; simpl.
  { by rewrite Nat.add_0_r. }
  apply Forall_cons in H as [Hk H]. replace (o <? m_offset k) with false by lia.
  rewrite IH by done. destruct l1; simpl; f_equal; try f_equal; lia.
Qed.

Lemma FindLink_loop_stop o found c l :
  Forall (fun k => o < m_offset k) l -> FindLink_loop o found c l = found.
Proof. destruct 1 as [|k l Hk]; simpl; [done|]. by replace (o <? m_offset k) with true by lia. Qed.

(** The links split into those at or before [o] and those after it; the search
    returns the last of the first group. *)
Lemma find_pos_split o l :
  ascending (m_offset <$> l) ->
  exists l1 l2, l = l1 ++ l2 /\ Forall (fun k => m_offset k <= o) l1 /\
    Forall (fun k => o < m_offset k) l2 /\ find_pos o l = last_index (length l1).
Proof.
  intros Hs.
  assert (exists l1 l2, l = l1 ++ l2 /\ Forall (fun k => m_offset k <= o) l1 /\
    Forall (fun k => o < m_offset k) l2) as (l1 & l2 & -> & H1 & H2).
  { induction l as [|k l IH]; [by exists [], []|].
    rewrite fmap_cons in Hs. apply StronglySorted_cons in Hs as [Hk Hs].
    destruct (N.le_gt_cases (m_offset k) o) as [Hle|Hgt].
    - destruct (IH Hs) as (l1 & l2 & -> & H1 & H2). exists (k :: l1), l2.
      split_and!; [done|by constructor|done].
    - exists [], (k :: l). split_and!; [done..|]. constructor; [done|].
      rewrite Forall_fmap in Hk. eapply Forall_impl; [exact Hk|]. unfold compose. lia. }
  exists l1, l2. split_and!; [done..|]. unfold find_pos.
  rewrite FindLink_loop_skip, FindLink_loop_stop by done.
  destruct l1; simpl; [done|]. f_equal. lia.
Qed.

(** A cursor from which a search for [o] may start. *)
Definition cursor_ok (l : list CBitSetLink) (cur : option nat) (o : N) : Prop :=
  match cur with
  | None => True
  | Some i => exists k, l !! i = Some k /\ m_offset k <= o
  end.

Lemma cursor_ok_mono l cur o o' : cursor_ok l cur o -> o <= o' -> cursor_ok l cur o'.
Proof. destruct cur as [i|]; [|done]. intros (k & Hk & Hle) ?. exists k. split; [done|lia]. Qed.

Lemma find_pos_cursor_ok o l : ascending (m_offset <$> l) -> cursor_ok l (find_pos o l) o.
Proof.
  intros Hs. destruct (find_pos_split o l Hs) as (l1 & l2 & -> & H1 & _ & ->).
  destruct (length l1) as [|n] eqn:E; [done|]. simpl.
  destruct (lookup_lt_is_Some_2 l1 n) as [k Hk]; [lia|].
  exists k. rewrite lookup_app_l by lia. split; [done|]. by eapply Forall_lookup_1 in H1.
Qed.

(** Starting from a cursor gives the same answer as starting from the head. *)
Lemma FindLinkByOffset_spec bs o cur :
  ascending (m_offset <$> m_bsllist bs) -> cursor_ok (m_bsllist bs) cur o ->
  FindLinkByOffset bs o cur = Ret (find_pos o (m_bsllist bs)).
Proof.
  intros Hs Hcur. destruct cur as [i|]; [|done]. destruct Hcur as (k & Hk & Hle).
  unfold FindLinkByOffset. rewrite (subscript_some _ _ _ Hk). cbn [mbind outcome_bind].
  assert_step. unfold find_pos, mret, outcome_ret. f_equal.
  assert (Hpre : Forall (fun k' => m_offset k' <= o) (take i (m_bsllist bs))).
  { apply Forall_forall. intros k' Hk'.
    rewrite <- (take_drop i (m_bsllist bs)), fmap_app in Hs.
    assert (m_offset k' < m_offset k); [|lia].
    eapply StronglySorted_app_1_elem_of; [exact Hs|by apply list_elem_of_fmap_2|].
    apply list_elem_of_fmap_2. apply list_elem_of_lookup. exists O. by rewrite lookup_drop, Nat.add_0_r. }
  rewrite <- (take_drop i (m_bsllist bs)) at 2.
  rewrite FindLink_loop_skip by done.
  assert (i < length (m_bsllist bs))%nat by (by eapply lookup_lt_Some).
  rewrite length_take, Nat.min_l, Nat.add_0_l by lia.
  rewrite (drop_S _ _ _ Hk). simpl. by replace (o <? m_offset k) with false by lia.
Qed.

Lemma link_with_offset_spec l o :
  ascending (m_offset <$> l) ->
  match link_with_offset l (find_pos o l) o with
  | Some (i, k) => l !! i = Some k /\ m_offset k = o
  | None => forall k, k ∈ l -> m_offset k <> o
  end.
Proof.
  intros Hs. destruct (find_pos_split o l Hs) as (l1 & l2 & El & H1 & H2 & Ef).
  rewrite Ef. destruct (length l1) as [|n] eqn:E.
  - destruct l1; [|done]. simpl in *. subst. rewrite Forall_forall in H2.
    intros k Hk. specialize (H2 k Hk). simpl in H2. lia.
  - simpl. destruct (l !! n) as [k|] eqn:Ek.
    2:{ apply lookup_ge_None in Ek. subst l. rewrite length_app in Ek. lia. }
    destruct (N.eqb_spec (m_offset k) o) as [|Hne]; [done|].
    intros k' Hk' Eo. subst l. apply elem_of_app in Hk' as [Hk'|Hk'].
    + rewrite lookup_app_l in Ek by lia.
      apply list_elem_of_lookup in Hk' as [j Hj].
      pose proof (lookup_lt_Some _ _ _ Hj).
      assert (j = n) as ->; [|by simplify_eq].
      rewrite fmap_app in Hs. apply StronglySorted_app_1_l in Hs.
      pose proof (Forall_lookup_1 _ _ _ _ H1 Ek) as Hle. simpl in Hle.
      destruct (decide (j = n)) as [|Hjn]; [done|]. exfalso.
      assert (m_offset k' < m_offset k); [|lia].
      rewrite <- (take_drop n l1), fmap_app in Hs.
      eapply StronglySorted_app_1_elem_of; [exact Hs| |].
      * apply list_elem_of_fmap_2, list_elem_of_lookup. exists j. rewrite lookup_take_lt by lia. done.
      * apply list_elem_of_fmap_2, list_elem_of_lookup. exists O. by rewrite lookup_drop, Nat.add_0_r.
    + rewrite Forall_forall in H2. specialize (H2 k' Hk'). simpl in H2. lia.
Qed.

(** ** Updating the list of links *)

(** [p] is a member: the link at its offset has its bit. *)
Definition in_links (vs : N) (l : list CBitSetLink) (p : N) : Prop :=
  exists k, k ∈ l /\ m_offset k = p / vs * vs /\
    BitVector.bv_bit (m_link_vec k) (p - p / vs * vs) = true.

Lemma elem_of_bs_set bs p :
  links_wf (m_vector_size bs) (m_bsllist bs) ->
  p ∈ bs_set bs <-> in_links (m_vector_size bs) (m_bsllist bs) p.
Proof. intros Hwf. unfold bs_set. rewrite elem_of_list_to_set. by apply elem_of_links. Qed.

Lemma find_pos_insert l o k :
  ascending (m_offset <$> l) -> (forall k', k' ∈ l -> m_offset k' <> o) ->
  exists l1 l2, l = l1 ++ l2 /\
    Forall (fun k' => m_offset k' < o) l1 /\ Forall (fun k' => o < m_offset k') l2 /\
    insert_link l (find_pos o l) k = (l1 ++ k :: l2, length l1).
Proof.
  intros Hs Hne. destruct (find_pos_split o l Hs) as (l1 & l2 & -> & H1 & H2 & ->).
  exists l1, l2. split_and!; [done| |done|].
  - rewrite Forall_forall in H1 |- *. intros k' Hk'. specialize (H1 k' Hk'). simpl in *.
    specialize (Hne k' ltac:(set_solver)). lia.
  - destruct (length l1) as [|n] eqn:E.
    + by destruct l1.
    + unfold insert_link, last_index. rewrite take_app_length' by done. by rewrite drop_app_length' by done.
Qed.

Lemma insert_links_wf vs l1 l2 k :
  links_wf vs (l1 ++ l2) -> link_ok vs k ->
  Forall (fun k' => m_offset k' < m_offset k) l1 ->
  Forall (fun k' => m_offset k < m_offset k') l2 ->
  links_wf vs (l1 ++ k :: l2).
Proof.
  intros [Hvs Hs Hl] Hk H1 H2. split; [done| |].
  - rewrite fmap_app, fmap_cons. rewrite fmap_app in Hs.
    apply StronglySorted_app in Hs as (H12 & Hs1 & Hs2).
    apply StronglySorted_app_2; [|done|].
    + intros x y Hx Hy. apply elem_of_cons in Hy as [->|Hy]; [|by apply H12].
      apply list_elem_of_fmap in Hx as (k' & -> & Hk'). rewrite Forall_forall in H1. by apply H1.
    + apply StronglySorted_cons. split; [|done]. by rewrite Forall_fmap.
  - apply Forall_app in Hl as [Hl1 Hl2]. apply Forall_app. split; [done|]. by constructor.
Qed.

Lemma replace_links_wf vs l i k k' :
  links_wf vs l -> l !! i = Some k -> link_ok vs k' -> m_offset k' = m_offset k ->
  links_wf vs (<[i := k']> l).
Proof.
  intros [Hvs Hs Hl] Hi Hk' Ho. split; [done| |by apply Forall_insert].
  assert (m_offset <$> <[i := k']> l = m_offset <$> l) as ->; [|done].
  rewrite list_fmap_insert, Ho. apply list_insert_id. by rewrite list_lookup_fmap, Hi.
Qed.

Lemma delete_links_wf vs l1 k l2 : links_wf vs (l1 ++ k :: l2) -> links_wf vs (l1 ++ l2).
Proof.
  intros [Hvs Hs Hl]. split; [done| |].
  - rewrite !fmap_app, fmap_cons in *. apply StronglySorted_app in Hs as (H12 & Hs1 & Hs2).
    apply StronglySorted_cons in Hs2 as [_ Hs2].
    apply StronglySorted_app_2; [|done..]. intros x y Hx Hy. apply H12; [done|by apply list_elem_of_further].
  - apply Forall_app in Hl as [Hl1 Hl2]. apply Forall_cons in Hl2 as [_ Hl2].
    by apply Forall_app.
Qed.

(** The size bookkeeping: whatever the operation, if the new links are well
    formed, the size field is determined by the set they hold. *)
Lemma sum_bits_spec vs l c :
  links_wf vs l -> c < ULONG_MOD ->
  sum_bits l c = Ret ((c + N.of_nat (length (links_elements l))) mod ULONG_MOD).
Proof.
  revert c; induction l as [|k l IH]; intros c Hwf Hc.
  { simpl. rewrite N.add_0_r, N.mod_small; done. }
  destruct (links_wf_cons _ _ _ Hwf) as (Hk & Hl & _). cbn [sum_bits].
  rewrite BitVector.CountSetBits_spec by apply Hk. cbn [mbind outcome_bind].
  rewrite IH; [|done|by apply N.mod_lt]. f_equal. unfold links_elements. rewrite bind_cons, length_app.
  unfold link_elements at 2. rewrite length_fmap, N.Div0.add_mod_idemp_l. f_equal. lia.
Qed.

Lemma RecomputeSize_spec bs :
  links_wf (m_vector_size bs) (m_bsllist bs) ->
  exists bs', RecomputeSize bs = Ret bs' /\ bs_wf bs' /\
    m_vector_size bs' = m_vector_size bs /\ m_bsllist bs' = m_bsllist bs.
Proof.
  intros Hwf. unfold RecomputeSize. rewrite (sum_bits_spec (m_vector_size bs)) by done.
  eexists; split; [done|]. split_and!; [|done..]. split; [done|]. simpl.
  unfold bs_set, bs_elements; simpl. rewrite (set_size_elements (m_vector_size bs)); done.
Qed.

Lemma classic_exists_bit v :
  BitVector.bv_wf v -> BitVector.IsEmpty v = false -> exists q, BitVector.bv_bit v q = true.
Proof.
  intros Hv Hemp. destruct (BitVector.bv_elements v) as [|q l] eqn:E.
  - exfalso. apply not_true_iff_false in Hemp. apply Hemp, BitVector.IsEmpty_spec; [done|].
    intros q. apply not_true_iff_false. intros Hq%BitVector.elem_of_bv_elements; [|done].
    rewrite E in Hq. by apply not_elem_of_nil in Hq.
  - exists q. apply BitVector.elem_of_bv_elements; [done|]. rewrite E. set_solver.
Qed.

Lemma NoDup_app_middle_not l1 l2 k :
  NoDup (m_offset <$> (l1 ++ k :: l2)) -> forall k', k' = k -> k' ∈ l1 ++ l2 -> False.
Proof.
  rewrite fmap_app, fmap_cons. intros H k' -> Hk.
  apply NoDup_app in H as (_ & H1 & H2). apply NoDup_cons in H2 as [H2 _].
  apply elem_of_app in Hk as [Hk|Hk]; [|apply H2; by apply list_elem_of_fmap_2].
  apply (H1 (m_offset k)); [by apply list_elem_of_fmap_2|set_solver].
Qed.

(** ** Single members *)

Section Member.
Context (bs : CBitSet) (Hwf : bs_wf bs).
Abbreviation vs := (m_vector_size bs).

Lemma bs_sorted : ascending (m_offset <$> m_bsllist bs).
Proof. apply Hwf. Qed.

Lemma vs_pos : 0 < vs.
Proof. apply (lw_vs _ _ (bw_links _ Hwf)). Qed.

Lemma rem_lt pos : pos - ComputeOffset bs pos < vs.
Proof.
  unfold ComputeOffset. pose proof vs_pos. pose proof (N.div_mod pos vs ltac:(lia)).
  pose proof (N.mod_lt pos vs ltac:(lia)). lia.
Qed.

Lemma offset_le pos : ComputeOffset bs pos <= pos.
Proof.
  unfold ComputeOffset. pose proof vs_pos. pose proof (N.div_mod pos vs ltac:(lia)).
  pose proof (N.le_0_l (pos mod vs)). lia.
Qed.

Lemma offset_mod pos : ComputeOffset bs pos mod vs = 0.
Proof. unfold ComputeOffset. apply N.Div0.mod_mul. Qed.

Lemma Get_spec pos : Get bs pos = Ret (bool_decide (pos ∈ bs_set bs)).
Proof.
  unfold Get. rewrite FindLinkByOffset_spec by (done || apply bs_sorted). cbn [mbind outcome_bind].
  pose proof (link_with_offset_spec _ (ComputeOffset bs pos) bs_sorted) as H.
  pose proof (elem_of_bs_set bs pos (bw_links _ Hwf)) as Hin.
  destruct (link_with_offset _ _ _) as [[i k]|].
  - destruct H as [Hi Ho]. assert (Hk : k ∈ m_bsllist bs) by (by eapply list_elem_of_lookup_2).
    pose proof (link_ok_of _ _ (bw_links _ Hwf) k Hk) as Hok.
    rewrite BitVector.bv_Get_spec; [|apply Hok|rewrite (lk_nbits _ _ Hok); apply rem_lt].
    f_equal. symmetry. destruct (BitVector.bv_bit _ _) eqn:E.
    + apply bool_decide_eq_true, Hin. by exists k.
    + apply bool_decide_eq_false. intros (k' & Hk' & Ho' & Hb)%Hin.
      rewrite (offset_unique _ _ (bw_links _ Hwf) k' k) in Hb; [|done..|by rewrite Ho, Ho'].
      unfold ComputeOffset in E. congruence.
  - unfold mret, outcome_ret. f_equal. symmetry. apply bool_decide_eq_false.
    intros (k & Hk & Ho & _)%Hin. by apply (H k).
Qed.

(** Setting one bit of the link at the offset of [pos]: the members afterwards
    are the old ones and [pos]. *)
Lemma set_bit_members l' k' v' pos :
  links_wf vs l' -> k' ∈ l' -> m_offset k' = ComputeOffset bs pos -> m_link_vec k' = v' ->
  (forall k, k ∈ l' -> k = k' \/ k ∈ m_bsllist bs) ->
  (forall k, k ∈ m_bsllist bs -> m_offset k <> ComputeOffset bs pos -> k ∈ l') ->
  (forall q, q < vs -> BitVector.bv_bit v' q = (q =? pos - ComputeOffset bs pos) ||
     bool_decide (ComputeOffset bs pos + q ∈ bs_set bs)) ->
  forall p, in_links vs l' p <-> p = pos \/ p ∈ bs_set bs.
Proof.
  intros Hl' Hk' Ho Hv Hback Hkeep Hbits p.
  pose proof (offset_le pos) as Hle. pose proof (offset_mod pos) as Hmod.
  pose proof (elem_of_bs_set bs p (bw_links _ Hwf)) as Hin.
  destruct (decide (p / vs * vs = ComputeOffset bs pos)) as [E|E].
  - assert (Hp : in_links vs l' p <-> BitVector.bv_bit v' (p - p / vs * vs) = true).
    { split.
      - intros (k & Hk & Hok & Hb). by rewrite (offset_unique _ _ Hl' k k'), Hv in Hb by congruence.
      - intros Hb. exists k'. rewrite Hv. split_and!; [done|congruence|done]. }
    rewrite Hp, Hbits, orb_true_iff, N.eqb_eq, bool_decide_eq_true by apply rem_lt.
    assert (p / vs * vs <= p) by apply offset_le.
    replace (ComputeOffset bs pos + (p - p / vs * vs)) with p by lia.
    assert (p - p / vs * vs = pos - ComputeOffset bs pos <-> p = pos) as -> by lia. done.
  - rewrite Hin. split.
    + intros (k & Hk & Hok & Hb). right. destruct (Hback k Hk) as [->|Hk2]; [congruence|].
      by exists k.
    + intros [->|(k & Hk & Hok & Hb)]; [done|]. exists k. split_and!; [|done..].
      apply Hkeep; [done|congruence].
Qed.

Lemma link_bit_member k q :
  k ∈ m_bsllist bs -> q < vs ->
  BitVector.bv_bit (m_link_vec k) q = bool_decide (m_offset k + q ∈ bs_set bs).
Proof.
  intros Hk Hq. pose proof (bw_links _ Hwf) as Hl.
  pose proof (offset_of_member _ _ Hl (m_offset k) q (lk_offset _ _ (link_ok_of _ _ Hl k Hk)) Hq) as Ho.
  symmetry. destruct (BitVector.bv_bit _ q) eqn:E.
  - apply bool_decide_eq_true, elem_of_bs_set; [done|]. exists k. rewrite Ho.
    by replace (m_offset k + q - m_offset k) with q by lia.
  - apply bool_decide_eq_false. intros (k' & Hk' & Ho' & Hb)%elem_of_bs_set; [|done].
    rewrite Ho in *. rewrite (offset_unique _ _ Hl k' k) in Hb by done.
    replace (m_offset k + q - m_offset k) with q in Hb by lia. congruence.
Qed.

(** The size field after the membership of one element changed. *)
Lemma set_size_wf l' (n : N) :
  links_wf vs l' ->
  n = N.of_nat (size (list_to_set (links_elements l') : gset N)) mod ULONG_MOD ->
  bs_wf (mkBitSet l' vs n).
Proof. intros H1 H2. split; done. Qed.

Lemma bs_set_ext l' n (X : gset N) :
  links_wf vs l' -> (forall p, in_links vs l' p <-> p ∈ X) -> bs_set (mkBitSet l' vs n) = X.
Proof.
  intros Hl H. apply set_eq. intros p. by rewrite (elem_of_bs_set (mkBitSet l' vs n)).
Qed.

Lemma mod_succ (a : N) : (a mod ULONG_MOD + 1) mod ULONG_MOD = (a + 1) mod ULONG_MOD.
Proof. apply N.Div0.add_mod_idemp_l. Qed.

Lemma mod_pred (a : N) :
  ((a + 1) mod ULONG_MOD + (ULONG_MOD - 1)) mod ULONG_MOD = a mod ULONG_MOD.
Proof.
  rewrite N.Div0.add_mod_idemp_l.
  replace (a + 1 + (ULONG_MOD - 1)) with (a + 1 * ULONG_MOD) by (unfold ULONG_MOD; lia).
  apply N.Div0.mod_add.
Qed.

Lemma size_after_set (pos : N) (b : bool) :
  b = bool_decide (pos ∈ bs_set bs) ->
  (if b then m_size bs else (m_size bs + 1) mod ULONG_MOD) =
  N.of_nat (size ({[pos]} ∪ bs_set bs)) mod ULONG_MOD.
Proof.
  intros ->. rewrite (bw_size _ Hwf). case_bool_decide as E.
  - by replace ({[pos]} ∪ bs_set bs) with (bs_set bs) by set_solver.
  - rewrite size_union, size_singleton by set_solver. rewrite mod_succ. f_equal. lia.
Qed.

Lemma size_after_clear (pos : N) (b : bool) :
  b = bool_decide (pos ∈ bs_set bs) ->
  (if b then (m_size bs + (ULONG_MOD - 1)) mod ULONG_MOD else m_size bs) =
  N.of_nat (size (bs_set bs ∖ {[pos]})) mod ULONG_MOD.
Proof.
  intros ->. rewrite (bw_size _ Hwf). case_bool_decide as E.
  - assert (size (bs_set bs) = S (size (bs_set bs ∖ {[pos]}))) as ->.
    { rewrite (union_difference_L {[pos]} (bs_set bs)) at 1 by set_solver.
      rewrite size_union, size_singleton by set_solver. done. }
    rewrite Nat2N.inj_succ, <- N.add_1_r. apply mod_pred.
  - by replace (bs_set bs ∖ {[pos]}) with (bs_set bs) by set_solver.
Qed.

Lemma new_link_ok pos v v' :
  pos < ULONG_MOD -> BitVector.bv_wf v -> BitVector.m_nbits v = vs ->
  BitVector.bv_wf v' -> BitVector.m_nbits v' = vs ->
  (forall q, BitVector.bv_bit v' q = (q =? pos - ComputeOffset bs pos) || BitVector.bv_bit v q) ->
  (forall q, BitVector.bv_bit v q = true -> ComputeOffset bs pos + q < ULONG_MOD) ->
  link_ok vs (mkLink (ComputeOffset bs pos) v').
Proof.
  intros Hpos Hv Hn Hv' Hn' Hbits Hw. pose proof (offset_le pos). split; simpl.
  - done.
  - done.
  - apply offset_mod.
  - exists (pos - ComputeOffset bs pos). by rewrite Hbits, N.eqb_refl.
  - intros q. rewrite Hbits. destruct (N.eqb_spec q (pos - ComputeOffset bs pos)) as [->|]; [lia|apply Hw].
Qed.

(** What [link_for_set] guarantees of the link [k] at index [i] of the list [l]
    it returns, for the offset [o] of the bit to set. *)
Record receives (o : N) (l : list CBitSetLink) (i : nat) (k : CBitSetLink) : Prop := {
  rc_lookup : l !! i = Some k;
  rc_offset : m_offset k = o;
  rc_wf : BitVector.bv_wf (m_link_vec k);
  rc_nbits : BitVector.m_nbits (m_link_vec k) = vs;
  rc_bits : forall q, q < vs ->
    BitVector.bv_bit (m_link_vec k) q = bool_decide (o + q ∈ bs_set bs);
  rc_update : forall k', link_ok vs k' -> m_offset k' = o ->
    links_wf vs (<[i := k']> l) /\ k' ∈ <[i := k']> l /\
    (forall k2, k2 ∈ <[i := k']> l -> k2 = k' \/ k2 ∈ m_bsllist bs) /\
    (forall k2, k2 ∈ m_bsllist bs -> m_offset k2 <> o -> k2 ∈ <[i := k']> l)
}.

Lemma receives_existing i k :
  m_bsllist bs !! i = Some k -> receives (m_offset k) (m_bsllist bs) i k.
Proof.
  intros Hi. pose proof (bw_links _ Hwf) as Hl.
  assert (Hk : k ∈ m_bsllist bs) by (by eapply list_elem_of_lookup_2).
  pose proof (link_ok_of _ _ Hl k Hk) as Hok. pose proof (lookup_lt_Some _ _ _ Hi) as Hlt.
  split; [done..|apply Hok|apply Hok|by intros; apply link_bit_member|].
  intros k' Hok' Ho'. split_and!.
  - by apply replace_links_wf with k.
  - apply list_elem_of_lookup. exists i. by apply list_lookup_insert_eq.
  - intros k2 [j Hj]%list_elem_of_lookup.
    destruct (decide (i = j)) as [->|]; [rewrite list_lookup_insert_eq in Hj by done; left; congruence|].
    rewrite list_lookup_insert_ne in Hj by done. right. by eapply list_elem_of_lookup_2.
  - intros k2 [j Hj]%list_elem_of_lookup Hne. apply list_elem_of_lookup. exists j.
    rewrite list_lookup_insert_ne; [done|]. intros ->. congruence.
Qed.

Lemma receives_new o v l1 l2 :
  m_bsllist bs = l1 ++ l2 -> o mod vs = 0 ->
  Forall (fun k' => m_offset k' < o) l1 -> Forall (fun k' => o < m_offset k') l2 ->
  BitVector.bv_wf v -> BitVector.m_nbits v = vs -> (forall q, BitVector.bv_bit v q = false) ->
  receives o (l1 ++ mkLink o v :: l2) (length l1) (mkLink o v).
Proof.
  intros E Hmod H1 H2 Hv Hn Hz. pose proof (bw_links _ Hwf) as Hl.
  split; [by rewrite list_lookup_middle|done..| |].
  - intros q Hq. simpl. rewrite Hz. symmetry. apply bool_decide_eq_false.
    intros (k' & Hk' & Ho' & _)%elem_of_bs_set; [|done].
    rewrite (offset_of_member _ _ Hl o q Hmod Hq) in Ho'. rewrite E in Hk'.
    rewrite Forall_forall in H1. rewrite Forall_forall in H2.
    apply elem_of_app in Hk' as [Hk'|Hk']; [specialize (H1 k' Hk')|specialize (H2 k' Hk')]; simpl in *; lia.
  - intros k' Hok' Ho'. rewrite insert_app_r_alt, Nat.sub_diag by lia. simpl. rewrite E.
    split_and!.
    + apply insert_links_wf; [by rewrite <- E|done|by rewrite Ho'..].
    + set_solver.
    + intros k2. rewrite !elem_of_app, elem_of_cons. tauto.
    + intros k2. rewrite !elem_of_app, elem_of_cons. tauto.
Qed.

Lemma link_for_set_spec pos (o := ComputeOffset bs pos) :
  exists l i k, link_for_set bs (find_pos o (m_bsllist bs)) o = Ret (l, i) /\ receives o l i k.
Proof.
  pose proof bs_sorted as Hs. pose proof (link_with_offset_spec _ o Hs) as H.
  unfold link_for_set. destruct (link_with_offset _ _ _) as [[i k]|].
  - destruct H as [Hi <-]. exists (m_bsllist bs), i, k. split; [done|]. by apply receives_existing.
  - destruct (BitVector.CBitVector_ctor_spec vs) as (v & Ev & Hv & Hn & Hz); [apply Hwf|].
    destruct (find_pos_insert (m_bsllist bs) o (mkLink o v) Hs H) as (l1 & l2 & E & H1 & H2 & Ei).
    exists (l1 ++ mkLink o v :: l2), (length l1), (mkLink o v).
    unfold CBitSetLink_ctor. rewrite Ev. simpl. rewrite Ei. split; [done|].
    apply receives_new; [done|apply offset_mod|done..].
Qed.

Lemma receives_width o l i k q :
  receives o l i k -> BitVector.bv_bit (m_link_vec k) q = true -> o + q < ULONG_MOD.
Proof.
  intros H Hq. assert (q < vs) as Hlt.
  { destruct (N.lt_ge_cases q vs) as [|Hge]; [done|]. rewrite <- (rc_nbits _ _ _ _ H) in Hge.
    by rewrite (BitVector.wf_tail _ (rc_wf _ _ _ _ H) _ Hge) in Hq. }
  rewrite (rc_bits _ _ _ _ H) in Hq by done. apply bool_decide_eq_true in Hq.
  apply (member_width _ _ (bw_links _ Hwf)). by apply elem_of_list_to_set in Hq.
Qed.

Lemma ExchangeSet_spec pos :
  pos < ULONG_MOD ->
  exists bs', ExchangeSet bs pos = Ret (bs', bool_decide (pos ∈ bs_set bs)) /\
    bs_wf bs' /\ m_vector_size bs' = vs /\ bs_set bs' = {[pos]} ∪ bs_set bs.
Proof.
  intros Hpos. pose proof bs_sorted as Hs. set (o := ComputeOffset bs pos).
  destruct (link_for_set_spec pos) as (l & i & k & El & Hr). fold o in El, Hr.
  pose proof Hr as [Hi Ho Hv Hn Hb Hupd]. pose proof (offset_le pos) as Hle. fold o in Hle.
  unfold ExchangeSet. fold o. rewrite FindLinkByOffset_spec by done. cbn [mbind outcome_bind].
  rewrite El. cbn [mbind outcome_bind fst snd]. rewrite (subscript_some _ _ _ Hi). cbn [mbind outcome_bind].
  rewrite bind_assert by (by apply N.eqb_eq).
  destruct (BitVector.bv_ExchangeSet_spec (m_link_vec k) Hv (pos - o)) as (v' & Ev' & Hv' & Hn' & Hb').
  { rewrite Hn. apply rem_lt. }
  rewrite Ev'. cbn [mbind outcome_bind]. rewrite Hb by apply rem_lt.
  replace (o + (pos - o)) with pos by lia.
  destruct (Hupd (mkLink (m_offset k) v')) as (Hwf' & Hk' & Hback & Hkeep); [|done|].
  { rewrite Ho. apply new_link_ok with (m_link_vec k); [done..|congruence|done|].
    intros q. by apply receives_width with l i. }
  eexists. split; [done|].
  assert (Hmem : forall n, bs_set (mkBitSet (<[i := mkLink (m_offset k) v']> l) vs n) = {[pos]} ∪ bs_set bs).
  { intros n. apply bs_set_ext; [done|]. intros p. rewrite elem_of_union, elem_of_singleton.
    apply (set_bit_members _ (mkLink (m_offset k) v') v' pos); [done..|].
    intros q Hq. rewrite Hb'. by rewrite Hb. }
  pose proof (size_after_set pos _ eq_refl) as Hsz.
  destruct (bool_decide (pos ∈ bs_set bs)); simpl in *;
    (split_and!; [apply set_size_wf; [done|] | done | apply Hmem]).
  - by rewrite Hsz, <- (Hmem 0).
  - by rewrite Hsz, <- (Hmem 0).
Qed.

(** The two shapes of the list after a bit was cleared in link [i]: the link
    is removed when it became empty, updated otherwise. *)
Lemma cleared_links l1 k l2 v' (l' := if BitVector.IsEmpty v' then l1 ++ l2 else l1 ++ mkLink (m_offset k) v' :: l2) pos :
  m_bsllist bs = l1 ++ k :: l2 -> m_offset k = ComputeOffset bs pos ->
  BitVector.bv_wf v' -> BitVector.m_nbits v' = vs ->
  (forall q, BitVector.bv_bit v' q =
     negb (q =? pos - ComputeOffset bs pos) && BitVector.bv_bit (m_link_vec k) q) ->
  links_wf vs l' /\ forall p, in_links vs l' p <-> p ∈ bs_set bs ∖ {[pos]}.
Proof.
  intros E Ho Hv' Hn' Hb'. pose proof (bw_links _ Hwf) as Hl. pose proof Hl as Hl0. rewrite E in Hl.
  pose proof (delete_links_wf _ _ _ _ Hl) as Hdel.
  assert (Hk : k ∈ m_bsllist bs) by (rewrite E; set_solver).
  pose proof (link_ok_of _ _ Hl0 k Hk) as Hok.
  assert (Hwf' : links_wf vs l').
  { subst l'. destruct (BitVector.IsEmpty v') eqn:Hemp; [done|].
    apply (insert_links_wf _ _ _ (mkLink (m_offset k) v')); [done| |simpl..].
    - split; simpl; [done..|apply Hok| |].
      + destruct (classic_exists_bit v' Hv' Hemp) as [q Hq]. by exists q.
      + intros q Hq. rewrite Hb' in Hq. apply andb_true_iff in Hq as [_ Hq]. by apply Hok.
    - pose proof (lw_sorted _ _ Hl) as Hs. rewrite fmap_app, fmap_cons in Hs.
      apply Forall_forall. intros k2 Hk2.
      eapply StronglySorted_app_1_elem_of; [exact Hs|by apply list_elem_of_fmap_2|set_solver].
    - pose proof (lw_sorted _ _ Hl) as Hs. rewrite fmap_app, fmap_cons in Hs.
      apply StronglySorted_app_1_r, StronglySorted_cons in Hs as [Hs _]. by rewrite Forall_fmap in Hs. }
  split; [done|]. intros p. rewrite elem_of_difference, elem_of_singleton.
  rewrite elem_of_bs_set by done.
  pose proof (offset_le pos) as Hle. assert (p / vs * vs <= p) by apply offset_le.
  assert (Hin : forall k2, k2 ∈ l' <-> (k2 ∈ l1 ++ l2 \/ (BitVector.IsEmpty v' = false /\ k2 = mkLink (m_offset k) v'))).
  { intros k2. subst l'. destruct (BitVector.IsEmpty v'); set_solver. }
  assert (Hin0 : forall k2, k2 ∈ m_bsllist bs <-> k2 ∈ l1 ++ l2 \/ k2 = k) by (rewrite E; set_solver).
  assert (Hp : p / vs * vs = ComputeOffset bs pos ->
    (p = pos <-> p - p / vs * vs = pos - ComputeOffset bs pos)) by lia.
  split.
  - intros (k2 & Hk2 & Ho2 & Hb2). apply Hin in Hk2 as [Hk2|[_ ->]].
    + assert (Hk2' : k2 ∈ m_bsllist bs) by (apply Hin0; by left).
      split; [by exists k2|]. intros ->.
      assert (k2 = k) as -> by (apply (offset_unique _ _ Hl0); [done..|rewrite Ho2, Ho; reflexivity]).
      exact (NoDup_app_middle_not _ _ _ (ascending_NoDup _ (lw_sorted _ _ Hl)) k eq_refl Hk2).
    + simpl in *. rewrite Hb', andb_true_iff, negb_true_iff, N.eqb_neq in Hb2.
      split; [exists k; split_and!; [done..|apply Hb2]|]. rewrite Hp by congruence. apply Hb2.
  - intros [(k2 & Hk2 & Ho2 & Hb2) Hne]. apply Hin0 in Hk2 as [Hk2| ->].
    + exists k2. split_and!; [apply Hin; by left|done..].
    + assert (Hb : BitVector.bv_bit v' (p - p / vs * vs) = true).
      { rewrite Hb', Hb2, andb_true_r, negb_true_iff, N.eqb_neq. rewrite <- Hp by congruence. done. }
      exists (mkLink (m_offset k) v'). split_and!; [|done..]. apply Hin. right. split; [|done].
      destruct (BitVector.IsEmpty v') eqn:Hemp; [|done].
      rewrite BitVector.IsEmpty_spec in Hemp by done. by rewrite Hemp in Hb.
Qed.

Lemma ExchangeClear_spec pos :
  exists bs', ExchangeClear bs pos = Ret (bs', bool_decide (pos ∈ bs_set bs)) /\
    bs_wf bs' /\ m_vector_size bs' = vs /\ bs_set bs' = bs_set bs ∖ {[pos]}.
Proof.
  pose proof bs_sorted as Hs. set (o := ComputeOffset bs pos).
  unfold ExchangeClear. fold o. rewrite FindLinkByOffset_spec by done. cbn [mbind outcome_bind].
  pose proof (link_with_offset_spec _ o Hs) as H.
  destruct (link_with_offset _ _ _) as [[i k]|].
  - destruct H as [Hi Ho]. assert (Hk : k ∈ m_bsllist bs) by (by eapply list_elem_of_lookup_2).
    pose proof (link_ok_of _ _ (bw_links _ Hwf) k Hk) as [Hv Hn _ _ _].
    destruct (BitVector.bv_ExchangeClear_spec (m_link_vec k) Hv (pos - o)) as (v' & Ev' & Hv' & Hn' & Hb').
    { rewrite Hn. apply rem_lt. }
    rewrite Ev'. cbn [mbind outcome_bind].
    rewrite link_bit_member by (done || apply rem_lt). rewrite Ho.
    pose proof (offset_le pos) as Hle. fold o in Hle. replace (o + (pos - o)) with pos by lia.
    pose proof (take_drop_middle _ _ _ Hi) as E.
    set (l1 := take i (m_bsllist bs)) in *. set (l2 := drop (S i) (m_bsllist bs)) in *.
    assert (Hlen : length l1 = i).
    { subst l1. rewrite length_take. apply lookup_lt_Some in Hi. lia. }
    assert (Hl' : (if BitVector.IsEmpty v' then delete i (m_bsllist bs)
       else <[i := mkLink o v']> (m_bsllist bs)) =
       if BitVector.IsEmpty v' then l1 ++ l2 else l1 ++ mkLink o v' :: l2).
    { destruct (BitVector.IsEmpty v').
      - by rewrite delete_take_drop.
      - rewrite <- E, insert_app_r_alt, Hlen, Nat.sub_diag by lia. done. }
    destruct (cleared_links l1 k l2 v' pos) as [Hwf' Hmem]; [done..|congruence|done|].
    rewrite Ho, <- Hl' in Hwf', Hmem. clear Hl'.
    eexists; split; [done|].
    set (l' := if BitVector.IsEmpty v' then _ else _) in *.
    assert (Hset : forall n, bs_set (mkBitSet l' vs n) = bs_set bs ∖ {[pos]}).
    { intros n. by apply bs_set_ext. }
    pose proof (size_after_clear pos _ eq_refl) as Hsz.
    destruct (bool_decide (pos ∈ bs_set bs)); simpl in *;
      (split_and!; [apply set_size_wf; [done|] | done | apply Hset]); by rewrite Hsz, <- (Hset 0).
  - assert (pos ∉ bs_set bs) as Hni.
    { intros (k & Hk & Ho & _)%elem_of_bs_set; [|apply Hwf]. by apply (H k). }
    exists bs. rewrite bool_decide_eq_false_2 by done. split_and!; [done..|]. set_solver.
Qed.

End Member.

(** ** Two sets

    The loops over one set that look links up in the other keep a cursor; by
    [FindLinkByOffset_spec] the cursor does not change the answer, so they are
    described by [find_link]. *)

Definition find_link (l : list CBitSetLink) (o : N) : option CBitSetLink :=
  snd <$> link_with_offset l (find_pos o l) o.

(** The bit at [q] of the link at offset [o]. *)
Definition links_bit (l : list CBitSetLink) (o q : N) : bool :=
  match find_link l o with
  | Some k => BitVector.bv_bit (m_link_vec k) q
  | None => false
  end.

Lemma find_link_Some vs l o k :
  links_wf vs l -> find_link l o = Some k <-> k ∈ l /\ m_offset k = o.
Proof.
  intros Hwf. pose proof (link_with_offset_spec l o (lw_sorted _ _ Hwf)) as H.
  unfold find_link. destruct (link_with_offset _ _ _) as [[i k']|]; simpl.
  - destruct H as [Hi Ho]. assert (k' ∈ l) by (by eapply list_elem_of_lookup_2). split.
    + intros [= <-]. done.
    + intros [Hk Ho']. f_equal. apply (offset_unique _ _ Hwf); [done..|congruence].
  - split; [done|]. intros [Hk Ho]. by destruct (H k Hk).
Qed.

Lemma find_link_None vs l o :
  links_wf vs l -> find_link l o = None <-> forall k, k ∈ l -> m_offset k <> o.
Proof.
  intros Hwf. split.
  - intros H k Hk Ho. by rewrite (proj2 (find_link_Some _ _ o k Hwf)) in H.
  - intros H. destruct (find_link l o) as [k|] eqn:E; [|done].
    apply (find_link_Some _ _ _ _ Hwf) in E as [Hk Ho]. by destruct (H k).
Qed.

Lemma in_links_bit vs l p :
  links_wf vs l -> in_links vs l p <-> links_bit l (p / vs * vs) (p - p / vs * vs) = true.
Proof.
  intros Hwf. unfold links_bit, in_links. split.
  - intros (k & Hk & Ho & Hb). by rewrite (proj2 (find_link_Some _ _ _ _ Hwf) (conj Hk Ho)).
  - destruct (find_link l _) as [k|] eqn:E; [|done].
    apply (find_link_Some _ _ _ _ Hwf) in E as [Hk Ho]. intros Hb. by exists k.
Qed.

Lemma links_bit_width vs l o q : links_wf vs l -> links_bit l o q = true -> o + q < ULONG_MOD.
Proof.
  intros Hwf. unfold links_bit. destruct (find_link l o) as [k|] eqn:E; [|done].
  apply (find_link_Some _ _ _ _ Hwf) in E as [Hk <-]. apply (lk_width _ _ (link_ok_of _ _ Hwf k Hk)).
Qed.

Lemma CBitSetLink_copy_id k : CBitSetLink_copy k = k.
Proof. by destruct k as [o []]. Qed.

(** A list of links to be looked up in [l], in ascending order, and a cursor
    that is valid for all of them. *)
Definition lookups_ok (l : list CBitSetLink) (cur : option nat) (todo : list CBitSetLink) : Prop :=
  ascending (m_offset <$> todo) /\ Forall (fun k => cursor_ok l cur (m_offset k)) todo.

Lemma lookups_ok_cons l cur k todo :
  ascending (m_offset <$> l) -> lookups_ok l cur (k :: todo) ->
  cursor_ok l cur (m_offset k) /\ lookups_ok l (find_pos (m_offset k) l) todo.
Proof.
  intros Hs [Ht Hc]. apply Forall_cons in Hc as [Hk Hc].
  rewrite fmap_cons in Ht. apply StronglySorted_cons in Ht as [Hlt Ht].
  split; [done|]. split; [done|]. rewrite Forall_fmap in Hlt.
  eapply Forall_impl; [exact Hlt|]. intros k' Hk'. unfold compose in Hk'. simpl in Hk'.
  eapply cursor_ok_mono; [by apply find_pos_cursor_ok|lia].
Qed.

Lemma lookups_ok_start vs l todo : links_wf vs todo -> lookups_ok l None todo.
Proof. intros H. split; [apply H|]. by apply Forall_forall. Qed.

(** One lookup of such a loop. *)
Lemma lookup_step bs cur k todo :
  ascending (m_offset <$> m_bsllist bs) -> lookups_ok (m_bsllist bs) cur (k :: todo) ->
  FindLinkByOffset bs (m_offset k) cur = Ret (find_pos (m_offset k) (m_bsllist bs)) /\
  lookups_ok (m_bsllist bs) (find_pos (m_offset k) (m_bsllist bs)) todo.
Proof.
  intros Hs Hok. destruct (lookups_ok_cons _ _ _ _ Hs Hok) as [Hc Ht].
  split; [|done]. by apply FindLinkByOffset_spec.
Qed.

Lemma link_with_find l o :
  link_with_offset l (find_pos o l) o = None /\ find_link l o = None \/
  exists i k, link_with_offset l (find_pos o l) o = Some (i, k) /\ find_link l o = Some k.
Proof.
  unfold find_link. destruct (link_with_offset _ _ _) as [[i k]|]; [right; by exists i, k|by left].
Qed.

Lemma link_elements_ext vs k o :
  link_ok vs k -> link_ok vs o -> m_offset k = m_offset o ->
  (forall q, BitVector.bv_bit (m_link_vec k) q = BitVector.bv_bit (m_link_vec o) q) ->
  link_elements k = link_elements o.
Proof.
  intros Hk Ho Eo Hq. unfold link_elements, BitVector.bv_elements.
  rewrite Eo, (lk_nbits _ _ Hk), (lk_nbits _ _ Ho). f_equal. apply bits_below_ext. intros p _. apply Hq.
Qed.

Lemma same_nbits vs k o :
  link_ok vs k -> link_ok vs o ->
  BitVector.bv_wf (m_link_vec k) /\ BitVector.bv_wf (m_link_vec o) /\
  BitVector.m_nbits (m_link_vec k) = BitVector.m_nbits (m_link_vec o).
Proof. intros Hk Ho. split_and!; [apply Hk|apply Ho|]. by rewrite (lk_nbits _ _ Hk), (lk_nbits _ _ Ho). Qed.

Lemma link_nonempty_elements vs k : link_ok vs k -> exists p r, link_elements k = p :: r.
Proof.
  intros Hk. destruct (lk_nonempty _ _ Hk) as [q Hq].
  apply BitVector.elem_of_bv_elements in Hq; [|apply Hk].
  unfold link_elements. destruct (BitVector.bv_elements (m_link_vec k)) as [|x r] eqn:E.
  - by apply not_elem_of_nil in Hq.
  - simpl. by eexists _, _.
Qed.

(** Equal element lists come from equal head links and equal tails. *)
Lemma head_link_ext vs k o l1 l2 :
  links_wf vs (k :: l1) -> links_wf vs (o :: l2) ->
  links_elements (k :: l1) = links_elements (o :: l2) <->
  m_offset k = m_offset o /\
  (forall q, BitVector.bv_bit (m_link_vec k) q = BitVector.bv_bit (m_link_vec o) q) /\
  links_elements l1 = links_elements l2.
Proof.
  intros H1 H2. destruct (links_wf_cons _ _ _ H1) as (Hk & Hl1 & Hlt1).
  destruct (links_wf_cons _ _ _ H2) as (Ho & Hl2 & Hlt2). split.
  - intros E.
    assert (Hoff : m_offset k = m_offset o).
    { destruct (link_nonempty_elements _ _ Hk) as (p & r & Ep).
      destruct (link_nonempty_elements _ _ Ho) as (p' & r' & Ep').
      assert (p = p') as <-.
      { unfold links_elements in E. rewrite !bind_cons, Ep, Ep' in E. by simplify_eq/=. }
      assert (Hp1 : p ∈ link_elements k) by (rewrite Ep; set_solver).
      assert (Hp2 : p ∈ link_elements o) by (rewrite Ep'; set_solver).
      apply (elem_of_link _ _ H1) in Hp1 as [-> _]; [|set_solver].
      apply (elem_of_link _ _ H2) in Hp2 as [-> _]; [done|set_solver]. }
    assert (Hbits : forall q, q < vs ->
      links_bit (k :: l1) (m_offset k) q = links_bit (o :: l2) (m_offset k) q).
    { intros q Hq. apply eq_true_iff_eq.
      pose proof (offset_of_member _ _ H1 (m_offset k) q (lk_offset _ _ Hk) Hq) as Em.
      pose proof (in_links_bit _ _ (m_offset k + q) H1) as G1.
      pose proof (in_links_bit _ _ (m_offset k + q) H2) as G2.
      rewrite Em in G1, G2. replace (m_offset k + q - m_offset k) with q in G1, G2 by lia.
      rewrite <- G1, <- G2. unfold in_links. rewrite <- !(elem_of_links _ _ H1), <- !(elem_of_links _ _ H2).
      by rewrite E. }
    assert (Hq : forall q, BitVector.bv_bit (m_link_vec k) q = BitVector.bv_bit (m_link_vec o) q).
    { intros q. destruct (N.lt_ge_cases q vs) as [Hq|Hq].
      - specialize (Hbits q Hq). unfold links_bit in Hbits.
        rewrite (proj2 (find_link_Some _ _ _ k H1)) in Hbits by (split; [set_solver|done]).
        by rewrite (proj2 (find_link_Some _ _ _ o H2)) in Hbits by (split; [set_solver|done]).
      - rewrite (BitVector.wf_tail _ (lk_vec _ _ Hk)) by (by rewrite (lk_nbits _ _ Hk)).
        by rewrite (BitVector.wf_tail _ (lk_vec _ _ Ho)) by (by rewrite (lk_nbits _ _ Ho)). }
    split_and!; [done..|]. unfold links_elements in *. rewrite !bind_cons in E.
    assert (link_elements k = link_elements o) as Ek by (by eapply link_elements_ext).
    rewrite Ek in E. by simplify_list_eq.
  - intros (Eo & Hq & Et). unfold links_elements in *. rewrite !bind_cons, Et. f_equal.
    by eapply link_elements_ext.
Qed.

(** Quantifying over the bits of the links is quantifying over the members. *)
Lemma forall_members vs l (P : N -> N -> Prop) :
  links_wf vs l ->
  (forall k q, k ∈ l -> BitVector.bv_bit (m_link_vec k) q = true -> P (m_offset k) q) <->
  (forall p, in_links vs l p -> P (p / vs * vs) (p - p / vs * vs)).
Proof.
  intros Hl. split.
  - intros H p (k & Hk & Ho & Hb). rewrite <- Ho at 1. by apply H.
  - intros H k q Hk Hq.
    pose proof (offset_of_member _ _ Hl (m_offset k) q (lk_offset _ _ (link_ok_of _ _ Hl k Hk))
      (link_bit_lt _ _ Hl k q Hk Hq)) as Ho.
    specialize (H (m_offset k + q)). rewrite Ho in H.
    replace (m_offset k + q - m_offset k) with q in H by lia. apply H.
    exists k. rewrite Ho. by replace (m_offset k + q - m_offset k) with q by lia.
Qed.

Section Pair.
Context (bs other : CBitSet) (Hbs : bs_wf bs) (Hother : bs_wf other).
Context (Hvs : m_vector_size bs = m_vector_size other).
Abbreviation vs := (m_vector_size bs).

Lemma other_links : links_wf vs (m_bsllist other).
Proof. rewrite Hvs. apply Hother. Qed.

(** *** Disjointness, containment, equality *)

Lemma IsDisjoint_loop_spec todo cur :
  Forall (link_ok vs) todo -> lookups_ok (m_bsllist bs) cur todo ->
  exists b, IsDisjoint_loop bs todo cur = Ret b /\
    (b = true <-> forall k q, k ∈ todo -> BitVector.bv_bit (m_link_vec k) q = true ->
       links_bit (m_bsllist bs) (m_offset k) q = false).
Proof.
  pose proof (bw_links _ Hbs) as Hl.
  revert cur; induction todo as [|o todo IH]; intros cur Htodo Hok.
  { exists true. split; [done|]. split; [|done]. intros _ k q Hk. by apply not_elem_of_nil in Hk. }
  apply Forall_cons in Htodo as [Ho Htodo].
  destruct (lookup_step bs cur o todo (lw_sorted _ _ Hl) Hok) as [Hf Hok'].
  cbn [IsDisjoint_loop]. rewrite Hf. cbn [mbind outcome_bind].
  destruct (IH _ Htodo Hok') as (b & Hb & Hspec).
  assert (Hcons : forall (P : Prop),
    (P <-> forall q, BitVector.bv_bit (m_link_vec o) q = true -> links_bit (m_bsllist bs) (m_offset o) q = false) ->
    (P /\ b = true <-> forall k q, k ∈ o :: todo -> BitVector.bv_bit (m_link_vec k) q = true ->
       links_bit (m_bsllist bs) (m_offset k) q = false)).
  { intros P HP. rewrite HP, Hspec. setoid_rewrite elem_of_cons. naive_solver. }
  destruct (link_with_find (m_bsllist bs) (m_offset o)) as [[-> E]|(i & k & -> & E)].
  - rewrite Hb. exists b. split; [done|]. rewrite <- (Hcons True); [tauto|].
    unfold links_bit. rewrite E. done.
  - apply (find_link_Some _ _ _ _ Hl) in E as Hk. destruct Hk as [Hk Hko].
    destruct (same_nbits vs k o) as (H1 & H2 & H3); [by apply (link_ok_of _ _ Hl)|done|].
    destruct (BitVector.bv_IsDisjoint_spec _ _ H1 H2 H3) as (d & -> & Hd). cbn [mbind outcome_bind].
    assert (Hd' : d = true <-> forall q, BitVector.bv_bit (m_link_vec o) q = true ->
      links_bit (m_bsllist bs) (m_offset o) q = false).
    { rewrite Hd. unfold links_bit. by rewrite E. }
    specialize (Hcons _ Hd'). destruct d; simpl.
    + rewrite Hb. exists b. split; [done|]. rewrite <- Hcons. tauto.
    + exists false. split; [done|]. rewrite <- Hcons. split; [done|]. by intros [].
Qed.

Lemma in_other p : p ∈ bs_set other <-> in_links vs (m_bsllist other) p.
Proof. rewrite elem_of_bs_set by apply Hother. by rewrite Hvs. Qed.

Lemma in_this p : p ∈ bs_set bs <-> in_links vs (m_bsllist bs) p.
Proof. apply elem_of_bs_set, Hbs. Qed.

Lemma IsDisjoint_spec : IsDisjoint bs other = Ret (bool_decide (bs_set bs ## bs_set other)).
Proof.
  pose proof (bw_links _ Hbs) as Hl. pose proof other_links as Hlo.
  destruct (IsDisjoint_loop_spec (m_bsllist other) None) as (b & Eb & Hb);
    [apply Hlo|by eapply lookups_ok_start|].
  unfold IsDisjoint. rewrite Eb. f_equal. apply bool_decide_of_iff. rewrite Hb.
  rewrite (forall_members _ _ (fun o q => links_bit (m_bsllist bs) o q = false) Hlo).
  rewrite elem_of_disjoint. setoid_rewrite in_other. setoid_rewrite in_this.
  setoid_rewrite (in_links_bit _ (m_bsllist bs) _ Hl).
  split; intros H p; specialize (H p).
  - intros H1 H2. rewrite H in H1; done.
  - intros H2. apply not_true_iff_false. intros H1. by apply H.
Qed.

Lemma ContainsAll_loop_spec todo cur :
  Forall (link_ok vs) todo -> lookups_ok (m_bsllist bs) cur todo ->
  exists b, ContainsAll_loop bs todo cur = Ret b /\
    (b = true <-> forall k q, k ∈ todo -> BitVector.bv_bit (m_link_vec k) q = true ->
       links_bit (m_bsllist bs) (m_offset k) q = true).
Proof.
  pose proof (bw_links _ Hbs) as Hl.
  revert cur; induction todo as [|o todo IH]; intros cur Htodo Hok.
  { exists true. split; [done|]. split; [|done]. intros _ k q Hk. by apply not_elem_of_nil in Hk. }
  apply Forall_cons in Htodo as [Ho Htodo].
  destruct (lookup_step bs cur o todo (lw_sorted _ _ Hl) Hok) as [Hf Hok'].
  cbn [ContainsAll_loop]. rewrite Hf. cbn [mbind outcome_bind].
  destruct (link_with_find (m_bsllist bs) (m_offset o)) as [[-> E]|(i & k & -> & E)].
  - exists false. split; [done|]. split; [done|]. intros H.
    destruct (lk_nonempty _ _ Ho) as [q Hq]. specialize (H o q ltac:(set_solver) Hq).
    unfold links_bit in H. by rewrite E in H.
  - apply (find_link_Some _ _ _ _ Hl) in E as Hk. destruct Hk as [Hk Hko].
    destruct (same_nbits vs k o) as (H1 & H2 & H3); [by apply (link_ok_of _ _ Hl)|done|].
    destruct (BitVector.bv_ContainsAll_spec _ _ H1 H2 H3) as (c & -> & Hc). cbn [mbind outcome_bind].
    assert (Hc' : c = true <-> forall q, BitVector.bv_bit (m_link_vec o) q = true ->
      links_bit (m_bsllist bs) (m_offset o) q = true).
    { rewrite Hc. unfold links_bit. by rewrite E. }
    destruct (IH _ Htodo Hok') as (b & Hb & Hspec).
    destruct c; simpl.
    + rewrite Hb. exists b. split; [done|]. rewrite Hspec. setoid_rewrite elem_of_cons. naive_solver.
    + exists false. split; [done|]. split; [done|]. intros H. apply Hc'. intros q. apply H. set_solver.
Qed.

(** The early return on the sizes is right while the set does not hold all
    2^32 positions, which would wrap its size to 0. *)
Lemma ContainsAll_spec :
  N.of_nat (size (bs_set bs)) < ULONG_MOD ->
  ContainsAll bs other = Ret (bool_decide (bs_set other ⊆ bs_set bs)).
Proof.
  intros Hsz. pose proof (bw_links _ Hbs) as Hl. pose proof other_links as Hlo.
  unfold ContainsAll. destruct (N.ltb_spec (m_size bs) (m_size other)) as [Hlt|_].
  - unfold mret, outcome_ret. f_equal. symmetry. apply bool_decide_eq_false. intros Hsub.
    apply subseteq_size in Hsub. rewrite (bw_size _ Hbs), (bw_size _ Hother) in Hlt.
    rewrite !N.mod_small in Hlt by lia. lia.
  - destruct (ContainsAll_loop_spec (m_bsllist other) None) as (b & Eb & Hb);
      [apply Hlo|by eapply lookups_ok_start|].
    rewrite Eb. f_equal. apply bool_decide_of_iff. rewrite Hb.
    rewrite (forall_members _ _ (fun o q => links_bit (m_bsllist bs) o q = true) Hlo).
    rewrite elem_of_subseteq. setoid_rewrite in_other. setoid_rewrite in_this.
    by setoid_rewrite (in_links_bit _ (m_bsllist bs) _ Hl).
Qed.

End Pair.

Lemma Equals_loop_spec vs l1 l2 :
  links_wf vs l1 -> links_wf vs l2 ->
  exists b, Equals_loop l1 l2 = Ret b /\
    (b = true <-> links_elements l1 = links_elements l2).
Proof.
  revert l2; induction l1 as [|k l1 IH]; intros [|o l2] H1 H2.
  - by exists true.
  - exists false. split; [done|]. split; [done|]. intros E.
    destruct (links_wf_cons _ _ _ H2) as (Ho & _).
    destruct (link_nonempty_elements _ _ Ho) as (p & r & Ep).
    unfold links_elements in E. rewrite bind_cons, Ep in E. done.
  - exists false. split; [done|]. split; [done|]. intros E.
    destruct (links_wf_cons _ _ _ H1) as (Hk & _).
    destruct (link_nonempty_elements _ _ Hk) as (p & r & Ep).
    unfold links_elements in E. rewrite bind_cons, Ep in E. done.
  - destruct (links_wf_cons _ _ _ H1) as (Hk & Hl1 & Hlt1).
    destruct (links_wf_cons _ _ _ H2) as (Ho & Hl2 & Hlt2).
    cbn [Equals_loop].
    destruct (IH _ Hl1 Hl2) as (b & Eb & Hb).
    destruct (same_nbits vs k o Hk Ho) as (Hv1 & Hv2 & Hn).
    destruct (BitVector.bv_Equals_spec _ _ Hv1 Hv2 Hn) as (e & Ee & He).
    assert (Hsame : links_elements (k :: l1) = links_elements (o :: l2) <->
      m_offset k = m_offset o /\ (forall q, BitVector.bv_bit (m_link_vec k) q = BitVector.bv_bit (m_link_vec o) q)
      /\ links_elements l1 = links_elements l2) by (by eapply head_link_ext).
    destruct (N.eqb_spec (m_offset k) (m_offset o)) as [Eo|Eo]; simpl.
    + rewrite Ee. cbn [mbind outcome_bind]. destruct e; simpl.
      * rewrite Eb. exists b. split; [done|]. rewrite Hsame, Hb. tauto.
      * exists false. split; [done|]. split; [done|]. intros (_ & Hq & _)%Hsame. by apply He.
    + exists false. split; [done|]. split; [done|]. by intros (? & _)%Hsame.
Qed.

Lemma Equals_spec bs other :
  bs_wf bs -> bs_wf other -> m_vector_size bs = m_vector_size other ->
  Equals bs other = Ret (bool_decide (bs_set bs = bs_set other)).
Proof.
  intros Hbs Hother Hvs. pose proof (bw_links _ Hbs) as Hl.
  pose proof (bw_links _ Hother) as Hlo. rewrite <- Hvs in Hlo.
  unfold Equals. destruct (N.eqb_spec (m_size bs) (m_size other)) as [_|Hne]; simpl.
  - destruct (Equals_loop_spec _ _ _ Hl Hlo) as (b & -> & Hb). f_equal.
    apply bool_decide_of_iff. rewrite Hb. unfold bs_set, bs_elements. split; [by intros ->|].
    intros E. apply ascending_ext; [by eapply links_elements_ascending..|].
    intros p. rewrite <- !(elem_of_list_to_set (C := gset N)). by rewrite E.
  - unfold mret, outcome_ret. f_equal. symmetry. apply bool_decide_eq_false.
    intros E. apply Hne. by rewrite (bw_size _ Hbs), (bw_size _ Hother), E.
Qed.

Lemma find_pos_index vs l o l1 l2 :
  links_wf vs l -> l = l1 ++ l2 ->
  Forall (fun k => m_offset k < o) l1 -> Forall (fun k => o < m_offset k) l2 ->
  find_pos o l = None \/ exists i, find_pos o l = Some i /\ (i < length l1)%nat.
Proof.
  intros Hwf -> H1 H2. unfold find_pos.
  rewrite FindLink_loop_skip by (eapply Forall_impl; [exact H1|]; simpl; lia).
  rewrite FindLink_loop_stop by done. destruct l1 as [|k l1]; [by left|right].
  eexists; split; [done|]. simpl. lia.
Qed.

Lemma filter_links_wf vs (P : CBitSetLink -> Prop) `{!forall k, Decision (P k)} l :
  links_wf vs l -> links_wf vs (filter P l).
Proof.
  induction l as [|k l IH]; intros Hwf; [done|].
  destruct (links_wf_cons _ _ _ Hwf) as (Hk & Hl & Hlt). specialize (IH Hl).
  rewrite filter_cons. case_decide; [|done]. split; [apply Hwf| |].
  - rewrite fmap_cons. apply StronglySorted_cons. split; [|apply IH].
    rewrite Forall_fmap. apply Forall_forall. intros k' [_ Hk']%list_elem_of_filter.
    rewrite Forall_forall in Hlt. by apply Hlt.
  - constructor; [done|apply IH].
Qed.

(** *** Union and intersection *)

Lemma Union_missing_spec bs todo cur :
  ascending (m_offset <$> m_bsllist bs) -> lookups_ok (m_bsllist bs) cur todo ->
  Union_missing bs todo cur =
  Ret (filter (fun k => find_link (m_bsllist bs) (m_offset k) = None) todo).
Proof.
  intros Hs. revert cur; induction todo as [|k todo IH]; intros cur Hok; [done|].
  destruct (lookup_step bs cur k todo Hs Hok) as [Hf Hok'].
  cbn [Union_missing]. rewrite Hf. cbn [mbind outcome_bind]. rewrite (IH _ Hok').
  cbn [mbind outcome_bind]. unfold mret, outcome_ret. f_equal. rewrite filter_cons.
  destruct (link_with_find (m_bsllist bs) (m_offset k)) as [[-> E]|(i & k' & -> & E)]; rewrite E.
  - rewrite decide_True by done. by rewrite CBitSetLink_copy_id.
  - by rewrite decide_False.
Qed.

(** Inserting links of fresh offsets. *)
Lemma Union_insert_spec vs new : forall bs cur,
  links_wf vs (m_bsllist bs) -> Forall (link_ok vs) new ->
  (forall k k', k ∈ new -> k' ∈ m_bsllist bs -> m_offset k' <> m_offset k) ->
  lookups_ok (m_bsllist bs) cur new ->
  exists bs', Union_insert bs new cur = Ret bs' /\ m_vector_size bs' = m_vector_size bs /\
    links_wf vs (m_bsllist bs') /\
    forall k, k ∈ m_bsllist bs' <-> k ∈ m_bsllist bs \/ k ∈ new.
Proof.
  induction new as [|k new IH]; intros bs cur Hl Hnew Hfresh Hok.
  { exists bs. split_and!; [done..|]. set_solver. }
  apply Forall_cons in Hnew as [Hk Hnew].
  destruct (lookup_step bs cur k new (lw_sorted _ _ Hl) Hok) as [Hf Hok'].
  destruct (find_pos_insert (m_bsllist bs) (m_offset k) k (lw_sorted _ _ Hl)) as (l1 & l2 & E & H1 & H2 & Ei).
  { intros k' Hk'. apply Hfresh; set_solver. }
  cbn [Union_insert]. rewrite Hf. cbn [mbind outcome_bind]. rewrite Ei. cbn [fst].
  assert (Hkeep : forall o, cursor_ok (m_bsllist bs) (find_pos (m_offset k) (m_bsllist bs)) o ->
    cursor_ok (l1 ++ k :: l2) (find_pos (m_offset k) (m_bsllist bs)) o).
  { intros o. destruct (find_pos_index _ _ _ _ _ Hl E H1 H2) as [->|(i & -> & Hlt)]; [done|].
    simpl. rewrite E, !lookup_app_l by done. done. }
  assert (Hassert : (match find_pos (m_offset k) (m_bsllist bs) with
    | None => mret tt
    | Some i => l ← subscript (m_bsllist bs) i; GPOS_ASSERT (m_offset l <? m_offset k)
    end : outcome unit) = Ret tt).
  { destruct (find_pos_index _ _ _ _ _ Hl E H1 H2) as [->|(i & -> & Hlt)]; [done|].
    destruct (lookup_lt_is_Some_2 l1 i Hlt) as [k' Hk'].
    rewrite (subscript_some _ _ k') by (by rewrite E, lookup_app_l). cbn [mbind outcome_bind].
    apply GPOS_ASSERT_true. pose proof (Forall_lookup_1 _ _ _ _ H1 Hk') as Hlt'. simpl in Hlt'. lia. }
  rewrite Hassert. cbn [mbind outcome_bind].
  destruct (IH (set_list bs (l1 ++ k :: l2)) (find_pos (m_offset k) (m_bsllist bs)))
    as (bs' & Ebs' & Hv & Hwf & Hin).
  - simpl. apply insert_links_wf; [by rewrite <- E|done..].
  - done.
  - simpl. intros k2 k' Hk2 Hk'. apply elem_of_app in Hk'. rewrite elem_of_cons in Hk'.
    destruct Hk' as [Hk'|[-> |Hk']]; [apply Hfresh; rewrite ?E; set_solver| |apply Hfresh; rewrite ?E; set_solver].
    destruct Hok as [Hs _]. rewrite fmap_cons in Hs. apply StronglySorted_cons in Hs as [Hs _].
    rewrite Forall_fmap, Forall_forall in Hs. specialize (Hs k2 Hk2). unfold compose in Hs. simpl in Hs. lia.
  - destruct Hok' as [Hs' Hc']. split; [done|]. eapply Forall_impl; [exact Hc'|]. intros k2. apply Hkeep.
  - exists bs'. split_and!; [done..|]. intros k2. rewrite Hin. simpl. rewrite E. set_solver.
Qed.

(** A list of links with the same offsets and changed vectors. *)
Definition revised (vs : N) (f : N -> N -> bool -> bool) (k k' : CBitSetLink) : Prop :=
  m_offset k' = m_offset k /\ BitVector.bv_wf (m_link_vec k') /\
  BitVector.m_nbits (m_link_vec k') = vs /\
  forall q, BitVector.bv_bit (m_link_vec k') q = f (m_offset k) q (BitVector.bv_bit (m_link_vec k) q).

Lemma Union_or_spec vs other : forall l cur,
  links_wf vs (m_bsllist other) -> Forall (link_ok vs) l -> lookups_ok (m_bsllist other) cur l ->
  exists l', Union_or other l cur = Ret l' /\
    Forall2 (revised vs (fun o q b => b || links_bit (m_bsllist other) o q)) l l'.
Proof.
  intros l cur Ho. revert cur; induction l as [|k l IH]; intros cur Hl Hok; [by exists []|].
  apply Forall_cons in Hl as [Hk Hl].
  destruct (lookup_step other cur k l (lw_sorted _ _ Ho) Hok) as [Hf Hok'].
  destruct (IH _ Hl Hok') as (l' & El' & HF).
  cbn [Union_or]. rewrite Hf. cbn [mbind outcome_bind].
  destruct (link_with_find (m_bsllist other) (m_offset k)) as [[-> E]|(i & k' & -> & E)].
  - cbn [mbind outcome_bind mret outcome_ret]. rewrite El'. exists (k :: l'). split; [done|].
    constructor; [|done]. split_and!; [done|apply Hk..|]. intros q. unfold links_bit. rewrite E. by rewrite orb_false_r.
  - pose proof E as E'. apply (find_link_Some _ _ _ _ Ho) in E' as [Hk' Hko].
    destruct (same_nbits vs k k' Hk (link_ok_of _ _ Ho _ Hk')) as (G1 & G2 & G3).
    destruct (BitVector.Or_spec _ _ G1 G2 G3) as (v & -> & Hv & Hn & Hb).
    cbn [mbind outcome_bind mret outcome_ret]. rewrite El'. cbn [mbind outcome_bind mret outcome_ret].
    eexists; split; [done|]. constructor; [|done]. split_and!; simpl; [done..| |].
    + rewrite Hn. apply Hk.
    + intros q. rewrite Hb. unfold links_bit. by rewrite E.
Qed.

Lemma revised_links_wf vs f l l' :
  links_wf vs l -> Forall2 (revised vs f) l l' ->
  (forall k, k ∈ l -> exists q, f (m_offset k) q (BitVector.bv_bit (m_link_vec k) q) = true) ->
  (forall k q, k ∈ l -> f (m_offset k) q (BitVector.bv_bit (m_link_vec k) q) = true -> m_offset k + q < ULONG_MOD) ->
  links_wf vs l'.
Proof.
  intros [Hvs Hs Hl] HF Hne Hw. split; [done| |].
  - assert (m_offset <$> l' = m_offset <$> l) as ->; [|done].
    clear -HF. induction HF as [|k k' l l' (Ho & _) _ IH]; [done|]. by rewrite !fmap_cons, IH, Ho.
  - apply Forall_forall. intros k' [i Hi]%list_elem_of_lookup.
    destruct (Forall2_lookup_r _ _ _ _ _ HF Hi) as (k & Hki & Ho & Hv & Hn & Hb).
    assert (Hk : k ∈ l) by (by eapply list_elem_of_lookup_2).
    rewrite Forall_forall in Hl. pose proof (Hl k Hk) as Hok. split; [done..| | |].
    + rewrite Ho. apply Hok.
    + destruct (Hne k Hk) as [q Hq]. exists q. by rewrite Hb.
    + intros q. rewrite Hb, Ho. by apply Hw.
Qed.

Lemma revised_bit vs f l l' o q :
  links_wf vs l -> links_wf vs l' -> Forall2 (revised vs f) l l' ->
  links_bit l' o q = match find_link l o with
                     | Some k => f o q (BitVector.bv_bit (m_link_vec k) q)
                     | None => false
                     end.
Proof.
  intros Hl Hl' HF. unfold links_bit. destruct (find_link l' o) as [k'|] eqn:E'.
  - apply (find_link_Some _ _ _ _ Hl') in E' as [[i Hi]%list_elem_of_lookup Ho'].
    destruct (Forall2_lookup_r _ _ _ _ _ HF Hi) as (k & Hk & Ho & _ & _ & Hb).
    rewrite (proj2 (find_link_Some _ _ o k Hl)); [rewrite Hb; congruence|].
    split; [by eapply list_elem_of_lookup_2|congruence].
  - destruct (find_link l o) as [k|] eqn:E; [|done].
    apply (find_link_Some _ _ _ _ Hl) in E as [[i Hi]%list_elem_of_lookup Ho].
    destruct (Forall2_lookup_l _ _ _ _ _ HF Hi) as (k' & Hk' & Ho' & _).
    rewrite (find_link_None _ _ _ Hl') in E'. destruct (E' k'); [by eapply list_elem_of_lookup_2|congruence].
Qed.

Lemma links_set_ext vs l n (X : gset N) :
  links_wf vs l -> (forall p, in_links vs l p <-> p ∈ X) -> bs_set (mkBitSet l vs n) = X.
Proof. intros Hl H. apply set_eq. intros p. by rewrite (elem_of_bs_set (mkBitSet l vs n)). Qed.

(** The bits after the third loop, when [bs1] holds the links of [bs] and those
    of [other] that [bs] misses. *)
Lemma union_bits vs bs other bs1 o q :
  links_wf vs (m_bsllist bs) -> links_wf vs (m_bsllist other) -> links_wf vs (m_bsllist bs1) ->
  (forall k, k ∈ m_bsllist bs1 <-> k ∈ m_bsllist bs \/
     k ∈ filter (fun k => find_link (m_bsllist bs) (m_offset k) = None) (m_bsllist other)) ->
  match find_link (m_bsllist bs1) o with
  | Some k => BitVector.bv_bit (m_link_vec k) q || links_bit (m_bsllist other) o q
  | None => false
  end = links_bit (m_bsllist bs) o q || links_bit (m_bsllist other) o q.
Proof.
  intros Hl Ho Hl1 Hin. unfold links_bit.
  destruct (find_link (m_bsllist bs) o) as [k|] eqn:E.
  - pose proof E as E'. apply (find_link_Some _ _ _ _ Hl) in E' as [Hk Hko].
    by rewrite (proj2 (find_link_Some _ _ _ k Hl1)) by (split; [apply Hin; by left|done]).
  - destruct (find_link (m_bsllist other) o) as [k|] eqn:E2; simpl.
    + pose proof E2 as E'. apply (find_link_Some _ _ _ _ Ho) in E' as [Hk Hko].
      rewrite (proj2 (find_link_Some _ _ _ k Hl1)); [apply orb_diag|].
      split; [|done]. apply Hin. right. apply list_elem_of_filter. by rewrite Hko.
    + destruct (find_link (m_bsllist bs1) o) as [k|] eqn:E3; [|done].
      apply (find_link_Some _ _ _ _ Hl1) in E3 as [Hk Hko]. apply Hin in Hk as [Hk|Hk].
      * rewrite (find_link_None _ _ _ Hl) in E. by destruct (E k).
      * apply list_elem_of_filter in Hk as [_ Hk].
        rewrite (find_link_None _ _ _ Ho) in E2. by destruct (E2 k).
Qed.

Lemma Union_spec bs other :
  bs_wf bs -> bs_wf other -> m_vector_size bs = m_vector_size other ->
  exists bs', Union bs other = Ret bs' /\ bs_wf bs' /\ m_vector_size bs' = m_vector_size bs /\
    bs_set bs' = bs_set bs ∪ bs_set other.
Proof.
  intros Hbs Hother Hvs. pose proof (bw_links _ Hbs) as Hl. pose proof (lw_sorted _ _ Hl) as Hs.
  pose proof (other_links bs other Hother Hvs) as Ho. set (vs := m_vector_size bs) in *.
  unfold Union. rewrite bind_assert by (by apply N.eqb_eq).
  rewrite (Union_missing_spec _ _ _ Hs) by (by eapply lookups_ok_start). cbn [mbind outcome_bind].
  set (new := filter _ (m_bsllist other)).
  assert (Hnew : links_wf vs new) by (by apply filter_links_wf).
  destruct (Union_insert_spec vs new bs None Hl) as (bs1 & -> & Hv1 & Hl1 & Hin1).
  { apply Hnew. }
  { intros k k' [Hk _]%list_elem_of_filter Hk' E. rewrite (find_link_None _ _ _ Hl) in Hk. by apply (Hk k'). }
  { by eapply lookups_ok_start. }
  cbn [mbind outcome_bind].
  destruct (Union_or_spec vs other (m_bsllist bs1) None Ho) as (l' & -> & HF);
    [apply Hl1|by eapply lookups_ok_start|]. cbn [mbind outcome_bind].
  assert (Hl' : links_wf vs l').
  { eapply revised_links_wf; [exact Hl1|exact HF| |]; simpl.
    - intros k Hk. destruct (lk_nonempty _ _ (link_ok_of _ _ Hl1 k Hk)) as [q Hq]. exists q. by rewrite Hq.
    - intros k q Hk [Hq|Hq]%orb_true_iff; [by apply (lk_width _ _ (link_ok_of _ _ Hl1 k Hk))|].
      eapply links_bit_width; [exact Ho|exact Hq]. }
  destruct (RecomputeSize_spec (set_list bs1 l')) as (bs' & -> & Hwf' & Hv' & Hl2).
  { simpl. rewrite Hv1. done. }
  exists bs'. split_and!; [done..|by rewrite Hv'|].
  destruct bs' as [l2 vs2 n2]; simpl in *. subst l2 vs2. rewrite Hv1. fold vs.
  apply links_set_ext; [done|]. intros p. rewrite elem_of_union.
  rewrite (in_this bs Hbs), (in_other bs other Hother Hvs). fold vs.
  rewrite !in_links_bit by done. set (o := p / vs * vs). set (q := p - o).
  rewrite (revised_bit _ _ _ _ o q Hl1 Hl' HF).
  by rewrite (union_bits vs bs other bs1), orb_true_iff.
Qed.

Lemma links_bit_cons vs k l o q :
  links_wf vs (k :: l) ->
  links_bit (k :: l) o q =
  if m_offset k =? o then BitVector.bv_bit (m_link_vec k) q else links_bit l o q.
Proof.
  intros Hwf. destruct (links_wf_cons _ _ _ Hwf) as (Hk & Hl & _). unfold links_bit.
  destruct (N.eqb_spec (m_offset k) o) as [E|E].
  - by rewrite (proj2 (find_link_Some _ _ _ k Hwf)) by (split; [set_solver|done]).
  - destruct (find_link l o) as [k'|] eqn:E'.
    + apply (find_link_Some _ _ _ _ Hl) in E' as [Hk' Ho].
      by rewrite (proj2 (find_link_Some _ _ _ k' Hwf)) by (split; [set_solver|done]).
    + rewrite (proj2 (find_link_None _ _ _ Hwf)); [done|].
      intros k' [->|Hk']%elem_of_cons; [done|]. rewrite (find_link_None _ _ _ Hl) in E'. by apply E'.
Qed.

Lemma links_bit_before vs l o q :
  links_wf vs l -> Forall (fun k => o < m_offset k) l -> links_bit l o q = false.
Proof.
  intros Hl H. unfold links_bit. rewrite (proj2 (find_link_None _ _ _ Hl)); [done|].
  intros k Hk. rewrite Forall_forall in H. specialize (H k Hk). simpl in H. lia.
Qed.

Lemma cons_links_wf vs k l :
  link_ok vs k -> links_wf vs l -> Forall (fun k' => m_offset k < m_offset k') l -> links_wf vs (k :: l).
Proof. intros Hk Hl H. apply (insert_links_wf vs [] l k); [done..|constructor|done]. Qed.

Lemma Intersection_loop_spec vs other : forall l cur,
  links_wf vs (m_bsllist other) -> links_wf vs l -> lookups_ok (m_bsllist other) cur l ->
  exists l', Intersection_loop other l cur = Ret l' /\ links_wf vs l' /\
    (forall o, Forall (fun k => o < m_offset k) l -> Forall (fun k => o < m_offset k) l') /\
    forall o q, links_bit l' o q = links_bit l o q && links_bit (m_bsllist other) o q.
Proof.
  intros l cur Ho. revert cur; induction l as [|k l IH]; intros cur Hwf Hok.
  { by exists []. }
  destruct (links_wf_cons _ _ _ Hwf) as (Hk & Hl & Hlt).
  destruct (lookup_step other cur k l (lw_sorted _ _ Ho) Hok) as [Hf Hok'].
  destruct (IH _ Hl Hok') as (l' & El' & Hl' & Hup & Hbits).
  cbn [Intersection_loop]. rewrite Hf. cbn [mbind outcome_bind].
  assert (Hskip : (forall q, BitVector.bv_bit (m_link_vec k) q && links_bit (m_bsllist other) (m_offset k) q = false) ->
    (forall o, Forall (fun k => o < m_offset k) (k :: l) -> Forall (fun k => o < m_offset k) l') /\
    forall o q, links_bit l' o q = links_bit (k :: l) o q && links_bit (m_bsllist other) o q).
  { intros Hz. split; [intros o [_ H]%Forall_cons; by apply Hup|]. intros o q.
    rewrite (links_bit_cons _ _ _ _ _ Hwf), Hbits. destruct (N.eqb_spec (m_offset k) o) as [<-|]; [|done].
    rewrite Hz. by rewrite (links_bit_before vs l). }
  destruct (link_with_find (m_bsllist other) (m_offset k)) as [[-> E]|(i & k' & -> & E)].
  - rewrite El'. exists l'. split_and!; [done..|apply Hskip|apply Hskip];
      intros q; unfold links_bit; rewrite E; apply andb_false_r.
  - pose proof E as E'. apply (find_link_Some _ _ _ _ Ho) in E' as [Hk' Hko].
    destruct (same_nbits vs k k' Hk (link_ok_of _ _ Ho _ Hk')) as (G1 & G2 & G3).
    destruct (BitVector.And_spec _ _ G1 G2 G3) as (v & -> & Hv & Hn & Hb).
    cbn [mbind outcome_bind]. rewrite El'. cbn [mbind outcome_bind mret outcome_ret].
    assert (Hb' : forall q, BitVector.bv_bit v q =
      BitVector.bv_bit (m_link_vec k) q && links_bit (m_bsllist other) (m_offset k) q).
    { intros q. rewrite Hb. unfold links_bit. by rewrite E. }
    destruct (BitVector.IsEmpty v) eqn:Hemp.
    + rewrite (BitVector.IsEmpty_spec _ Hv) in Hemp.
      exists l'. split_and!; [done..|apply Hskip|apply Hskip]; intros q; by rewrite <- Hb'.
    + destruct (classic_exists_bit _ Hv Hemp) as [q0 Hq0].
      assert (Hwf' : links_wf vs (mkLink (m_offset k) v :: l')).
      { apply cons_links_wf; [|done|by apply Hup]. split; simpl; [done| |apply Hk|by exists q0|].
        - rewrite Hn. apply Hk.
        - intros q. rewrite Hb. intros [Hq _]%andb_true_iff. by apply Hk. }
      eexists; split_and!; [done..| |].
      * intros o [Hko' H]%Forall_cons. constructor; [done|]. by apply Hup.
      * intros o q. rewrite (links_bit_cons _ _ _ _ _ Hwf), (links_bit_cons _ _ _ _ _ Hwf'), Hbits. simpl.
        destruct (N.eqb_spec (m_offset k) o) as [<-|]; [apply Hb'|done].
Qed.

Lemma Intersection_spec bs other :
  bs_wf bs -> bs_wf other -> m_vector_size bs = m_vector_size other ->
  exists bs', Intersection bs (Some other) = Ret bs' /\ bs_wf bs' /\
    m_vector_size bs' = m_vector_size bs /\ bs_set bs' = bs_set bs ∩ bs_set other.
Proof.
  intros Hbs Hother Hvs. pose proof (bw_links _ Hbs) as Hl.
  pose proof (other_links bs other Hother Hvs) as Ho. set (vs := m_vector_size bs) in *.
  unfold Intersection. rewrite bind_assert by (by apply N.eqb_eq).
  destruct (Intersection_loop_spec vs other (m_bsllist bs) None Ho Hl) as (l' & -> & Hl' & _ & Hb);
    [by eapply lookups_ok_start|]. cbn [mbind outcome_bind].
  destruct (RecomputeSize_spec (set_list bs l')) as (bs' & -> & Hwf' & Hv' & Hl2); [done|].
  exists bs'. split_and!; [done..|].
  destruct bs' as [l2 vs2 n2]; simpl in *. subst l2 vs2. fold vs.
  apply links_set_ext; [done|]. intros p. rewrite elem_of_intersection.
  rewrite (in_this bs Hbs), (in_other bs other Hother Hvs). fold vs.
  rewrite !in_links_bit by done. by rewrite Hb, andb_true_iff.
Qed.

Lemma CBitSet_ctor_wf vs : 0 < vs < ULONG_MOD -> bs_wf (CBitSet_ctor vs).
Proof. intros H. split; [|done]. split; [done|constructor|done]. Qed.

(** *** Iteration *)

(** Members of a link from position [s] of its vector on. *)
Definition link_from (k : CBitSetLink) (s : N) : list N :=
  N.add (m_offset k) <$> filter (fun p => s <= p) (BitVector.bv_elements (m_link_vec k)).

Definition rest_from (l : list CBitSetLink) (s : N) : list N :=
  match l with [] => [] | k :: l' => link_from k s ++ links_elements l' end.

Lemma rest_from_0 l : rest_from l 0 = links_elements l.
Proof.
  destruct l as [|k l]; [done|]. unfold rest_from, links_elements, link_from.
  rewrite bind_cons. f_equal. unfold link_elements. f_equal.
  rewrite filter_all; [done|]. intros; lia.
Qed.

Lemma link_from_next k s r :
  BitVector.bv_wf (m_link_vec k) -> BitVector.next_found (BitVector.bv_bit (m_link_vec k)) s r ->
  link_from k s = match r with Some p => m_offset k + p :: link_from k (p + 1) | None => [] end.
Proof.
  intros Hv Hr. unfold link_from.
  assert (filter (fun p => s <= p) (BitVector.bv_elements (m_link_vec k)) =
    match r with Some p => p :: filter (fun q => p + 1 <= q) (BitVector.bv_elements (m_link_vec k)) | None => [] end)
    as ->; [|by destruct r].
  apply ascending_ext.
  - apply ascending_filter, bits_below_ascending.
  - destruct r as [p|]; [|constructor]. constructor; [apply ascending_filter, bits_below_ascending|].
    apply Forall_forall. intros q [Hq _]%list_elem_of_filter. lia.
  - intros q. rewrite list_elem_of_filter, (BitVector.elem_of_bv_elements _ _ Hv).
    destruct r as [p|]; simpl in Hr.
    + destruct Hr as (Hle & Hp & Hlow).
      rewrite elem_of_cons, list_elem_of_filter, (BitVector.elem_of_bv_elements _ _ Hv). split.
      * intros [Hs Hq]. destruct (N.lt_ge_cases q p) as [Hlt|Hge].
        { by rewrite Hlow in Hq by lia. }
        destruct (N.eq_dec q p); [by left|right; split; [lia|done]].
      * intros [->|[Hs Hq]]; [done|]. split; [lia|done].
    + split; [|by intros ?%not_elem_of_nil]. intros [Hs Hq]. by rewrite Hr in Hq.
Qed.

(** What [Advance_loop] finds: the next member and what remains after it. *)
Definition found (vs : N) (l : list CBitSetLink) (i : nat) (rest : list N) (r : N * option nat) : Prop :=
  match r.2 with
  | None => rest = []
  | Some j => exists k d, j = (i + d)%nat /\ l !! d = Some k /\ r.1 < vs /\
      BitVector.bv_bit (m_link_vec k) r.1 = true /\
      rest = m_offset k + r.1 :: (link_from k (r.1 + 1) ++ links_elements (drop (S d) l))
  end.

Lemma Advance_loop_spec vs l : forall i cursor,
  links_wf vs l -> (cursor + 1) mod ULONG_MOD <= vs ->
  exists r, Advance_loop vs l i cursor = Ret r /\
    found vs l i (rest_from l ((cursor + 1) mod ULONG_MOD)) r.
Proof.
  induction l as [|k l IH]; intros i cursor Hwf Hnext.
  { by exists (cursor, None). }
  destruct (links_wf_cons _ _ _ Hwf) as (Hk & Hl & _). cbn [Advance_loop].
  set (s := (cursor + 1) mod ULONG_MOD) in *. replace (s <=? vs) with true by lia.
  destruct (BitVector.GetNextSetBit_spec (m_link_vec k) s) as (r & -> & Hr); [apply Hk|].
  cbn [mbind outcome_bind]. cbn [rest_from]. rewrite (link_from_next k s r (lk_vec _ _ Hk) Hr).
  destruct r as [c|].
  - exists (c, Some i). split; [done|]. exists k, O. simpl.
    destruct Hr as (_ & Hc & _). split_and!; [lia|done| |done|by rewrite drop_0].
    eapply (link_bit_lt _ _ Hwf k); [set_solver|done].
  - destruct (IH (S i) ULONG_MINUS_1 Hl) as (r & Er & Hf);
      [change ((ULONG_MINUS_1 + 1) mod ULONG_MOD) with 0; apply N.le_0_l|].
    exists r. split; [done|]. rewrite app_nil_l.
    change ((ULONG_MINUS_1 + 1) mod ULONG_MOD) with 0 in Hf. rewrite rest_from_0 in Hf.
    unfold found in *. destruct r.2 as [j|]; [|done].
    destruct Hf as (k' & d & -> & Hd & Hlt & Hb & Hrest).
    exists k', (S d). split_and!; [lia|done..].
Qed.

(** [iter_ok bs it rest]: the iterator is active and will yield [rest]. *)
Definition iter_ok (bs : CBitSet) (it : CBitSetIter) (rest : list N) : Prop :=
  m_active it = true /\
  match m_bsl it with
  | None => m_cursor it = ULONG_MINUS_1 /\ rest = bs_elements bs
  | Some i => exists k, m_bsllist bs !! i = Some k /\ m_cursor it < m_vector_size bs /\
      BitVector.bv_bit (m_link_vec k) (m_cursor it) = true /\
      rest = link_from k (m_cursor it + 1) ++ links_elements (drop (S i) (m_bsllist bs))
  end.

Lemma drop_links_wf vs l i : links_wf vs l -> links_wf vs (drop i l).
Proof.
  intros [Hvs Hs Hl]. split; [done| |by apply Forall_drop].
  rewrite <- (take_drop i l), fmap_app in Hs. by apply StronglySorted_app_1_r in Hs.
Qed.

(** The iterator yields the members one by one, in ascending order, and then
    stops. *)
Lemma Advance_spec bs it rest :
  bs_wf bs -> iter_ok bs it rest ->
  match rest with
  | [] => exists it', Advance bs it = Ret (it', false)
  | p :: rest' => exists it', Advance bs it = Ret (it', true) /\ Bit bs it' = Ret p /\ iter_ok bs it' rest'
  end.
Proof.
  intros Hwf [Hact Hst]. pose proof (bw_links _ Hwf) as Hl. destruct (lw_vs _ _ Hl) as [Hv0 Hv1].
  unfold Advance. rewrite bind_assert by done. set (i := default O (m_bsl it)).
  assert (Hpre : (m_cursor it + 1) mod ULONG_MOD <= m_vector_size bs /\
    rest_from (drop i (m_bsllist bs)) ((m_cursor it + 1) mod ULONG_MOD) = rest).
  { subst i. destruct (m_bsl it) as [j|]; simpl.
    - destruct Hst as (k & Hk & Hlt & _ & ->). rewrite N.mod_small by lia.
      split; [lia|]. by rewrite (drop_S _ _ _ Hk).
    - destruct Hst as [-> ->]. change ((ULONG_MINUS_1 + 1) mod ULONG_MOD) with 0.
      split; [lia|]. by rewrite drop_0, rest_from_0. }
  destruct Hpre as [Hnext Hrest].
  destruct (Advance_loop_spec _ (drop i (m_bsllist bs)) i (m_cursor it) (drop_links_wf _ _ i Hl) Hnext)
    as ([c r] & -> & Hf). cbn [mbind outcome_bind]. rewrite Hrest in Hf.
  destruct r as [j|]; unfold found in Hf; simpl in Hf.
  - destruct Hf as (k & d & -> & Hd & Hlt & Hb & ->). rewrite lookup_drop in Hd.
    assert (Hk : k ∈ m_bsllist bs) by (by eapply list_elem_of_lookup_2).
    pose proof (link_ok_of _ _ Hl k Hk) as Hok.
    eexists; split_and!; [done| |].
    + unfold Bit. simpl. rewrite (subscript_some _ _ _ Hd). cbn [mbind outcome_bind].
      rewrite BitVector.bv_Get_spec; [|apply Hok|by rewrite (lk_nbits _ _ Hok)]. cbn [mbind outcome_bind].
      rewrite bind_assert by done. rewrite N.mod_small; [done|]. by apply (lk_width _ _ Hok).
    + split; [done|]. simpl. exists k. split_and!; [done..|]. by rewrite drop_drop, Nat.add_succ_r.
  - rewrite Hf. by eexists.
Qed.

Lemma iter_start bs : iter_ok bs CBitSetIter_ctor (bs_elements bs).
Proof. unfold iter_ok. simpl. done. Qed.

Lemma Difference_loop_spec other fuel : forall bs it rest,
  bs_wf bs -> bs_wf other -> iter_ok other it rest -> (length rest < fuel)%nat ->
  exists bs', Difference_loop fuel bs other it = Ret bs' /\ bs_wf bs' /\
    m_vector_size bs' = m_vector_size bs /\ bs_set bs' = bs_set bs ∖ list_to_set rest.
Proof.
  induction fuel as [|fuel IH]; intros bs it rest Hbs Hother Hit Hfuel; [lia|].
  pose proof (Advance_spec other it rest Hother Hit) as Hadv. cbn [Difference_loop].
  destruct rest as [|p rest].
  - destruct Hadv as (it' & ->). exists bs. split_and!; [done..|]. set_solver.
  - destruct Hadv as (it' & -> & Hbit & Hit'). cbn [mbind outcome_bind].
    rewrite Hbit. cbn [mbind outcome_bind].
    destruct (ExchangeClear_spec bs Hbs p) as (bs1 & -> & Hwf1 & Hv1 & Hs1). cbn [mbind outcome_bind].
    destruct (IH bs1 it' rest Hwf1 Hother Hit') as (bs' & -> & Hwf' & Hv' & Hs').
    { simpl in Hfuel. lia. }
    exists bs'. split_and!; [done..|congruence|]. rewrite Hs', Hs1. set_solver.
Qed.

Lemma Difference_spec bs other :
  bs_wf bs -> bs_wf other -> m_vector_size bs = m_vector_size other ->
  exists bs', Difference bs other = Ret bs' /\ bs_wf bs' /\
    m_vector_size bs' = m_vector_size bs /\ bs_set bs' = bs_set bs ∖ bs_set other.
Proof.
  intros Hbs Hother Hvs. unfold Difference. rewrite IsDisjoint_spec by done. cbn [mbind outcome_bind].
  case_bool_decide as Hd.
  - exists bs. split_and!; [done..|]. set_solver.
  - apply Difference_loop_spec; [done..|apply iter_start|lia].
Qed.

End BitSet.
