(* ===== verification/SetHash.v ===== *)
(** * Hash values of bit sets

    Source: [HashByteArray] and [CombineHashes] of libgpos/src/utils.cpp, and the
    methods [HashValue] of [CBitVector] and [CBitSet]. The hash tables of the
    optimizer (the pairs and the seen sets of [CDPHyperPlan], for example) look up
    a bit set by its hash and compare with [Equals] within a bucket: that is right
    because equal sets have equal hashes, which is proved here from the invariant
    of the bit sets (no empty link is kept). [BitSetHash] is the interface the
    tables are proved against; [CBitSetHash] implements it.

    The units are read as bytes in the order of a little-endian machine. *)
From stdpp Require Import base numbers list gmap sets.
From S2P Require Import Prelude BitVector BitSet.
Local Open Scope N_scope.

(** The hash of a set of 32-bit positions *)
Class BitSetHash := SetHashValue : gset N -> N.

Module SetHash.

Definition ULLONG_MOD : N := 2 ^ 64.

Definition FNV_OFFSET : N := 0xcbf29ce484222325.
Definition FNV_PRIME : N := 0x100000001b3.

(** [h ^= word; h *= FNV_PRIME] *)
Definition fnv_step (h word : N) : N := (N.lxor h word * FNV_PRIME) mod ULLONG_MOD.

(** [static_cast<ULONG>(h ^ (h >> 32))] *)
Definition fold_hash (h : N) : N := N.lxor h (N.shiftr h 32) mod 2 ^ 32.

(** The value of bytes loaded as one little-endian number *)
Fixpoint load_word (bytes : list N) : N :=
  match bytes with
  | [] => 0
  | b :: bytes' => b + 256 * load_word bytes'
  end.

(** The two loops of [HashByteArray]: eight bytes at a time, then single bytes *)
Fixpoint hash_bytes (bytes : list N) (h : N) : N :=
  match bytes with
  | b0 :: b1 :: b2 :: b3 :: b4 :: b5 :: b6 :: b7 :: rest =>
      hash_bytes rest (fnv_step h (load_word [b0; b1; b2; b3; b4; b5; b6; b7]))
  | tail => fold_left fnv_step tail h
  end.

Definition HashByteArray (byte_array : list N) : N :=
  fold_hash (hash_bytes byte_array (N.lxor FNV_OFFSET (N.of_nat (length byte_array)))).

Definition CombineHashes (hash1 hash2 : N) : N :=
  let h := N.lor (N.shiftl hash1 32) hash2 in
  fold_hash (fnv_step h FNV_OFFSET).

(** The bytes of a 64-bit unit in memory *)
Fixpoint store_word (n : nat) (u : N) : list N :=
  match n with
  | O => []
  | S n' => u mod 256 :: store_word n' (u / 256)
  end.

(** [CBitVector::HashValue] *)
Definition VectorHashValue (bv : BitVector.CBitVector) : N :=
  HashByteArray (BitVector.m_vec bv ≫= store_word 8).

(** [CBitSet::HashValue] *)
Definition HashValue (bs : BitSet.CBitSet) : N :=
  fold_left (fun ulHash bsl => CombineHashes ulHash (VectorHashValue (BitSet.m_link_vec bsl)))
    (BitSet.m_bsllist bs) 0.

(** ** Words and bytes *)

Lemma load_store n u : load_word (store_word n u) = u mod 2 ^ (8 * N.of_nat n).
Proof.
  revert u. induction n as [|n IH]; intros u; cbn [store_word load_word].
  { symmetry. apply N.mod_1_r. }
  rewrite IH. replace (2 ^ (8 * N.of_nat (S n))) with (256 * 2 ^ (8 * N.of_nat n)).
  - rewrite N.Div0.mod_mul_r. done.
  - replace (8 * N.of_nat (S n)) with (8 + 8 * N.of_nat n) by lia. by rewrite N.pow_add_r.
Qed.

(** Eight bytes at a time the hash works on the units. *)
Lemma hash_units units h :
  Forall (fun u => u < 2 ^ 64) units -> hash_bytes (units ≫= store_word 8) h = fold_left fnv_step units h.
Proof.
  intros Hu. revert h. induction Hu as [|u units Hu _ IH]; intros h; [done|].
  rewrite bind_cons. pose proof (load_store 8 u) as E.
  change (8 * N.of_nat 8) with 64 in E. rewrite N.mod_small in E by exact Hu.
  cbn [fold_left]. rewrite <- IH. rewrite <- E at 2. done.
Qed.

Lemma store_word_length n u : length (store_word n u) = n.
Proof. revert u. induction n as [|n IH]; intros u; cbn; [done|]. by rewrite IH. Qed.

Lemma units_bytes_length units : N.of_nat (length (units ≫= store_word 8)) = 8 * N.of_nat (length units).
Proof.
  induction units as [|u units IH]; [done|]. rewrite bind_cons, length_app, store_word_length. cbn [length]. lia.
Qed.

Lemma fold_hash_lt h : fold_hash h < 2 ^ 32.
Proof. apply N.mod_lt. done. Qed.

(** The hash of a vector as a fold over its units *)
Lemma VectorHashValue_units bv :
  BitVector.bv_wf bv ->
  VectorHashValue bv = fold_hash (fold_left fnv_step (BitVector.m_vec bv)
    (N.lxor FNV_OFFSET (8 * N.of_nat (BitVector.m_len bv)))).
Proof.
  intros Hbv. unfold VectorHashValue, HashByteArray. rewrite hash_units by apply Hbv. by rewrite units_bytes_length.
Qed.

Lemma HashValue_lt bs : HashValue bs < 2 ^ 32.
Proof.
  unfold HashValue. assert (forall l h, h < 2 ^ 32 -> fold_left (fun ulHash bsl =>
    CombineHashes ulHash (VectorHashValue (BitSet.m_link_vec bsl))) l h < 2 ^ 32) as H; [|by apply H].
  induction l as [|k l IH]; intros h Hh; [done|]. cbn. apply IH, fold_hash_lt.
Qed.

(** ** Equal sets have equal representations *)

Lemma vector_ext v w :
  BitVector.bv_wf v -> BitVector.bv_wf w -> BitVector.m_nbits v = BitVector.m_nbits w ->
  (forall q, BitVector.bv_bit v q = BitVector.bv_bit w q) -> v = w.
Proof.
  intros Hv Hw Hn Hq. assert (BitVector.m_vec v = BitVector.m_vec w) as E.
  { apply BitVector.units_ext; [by apply BitVector.len_eq|by apply BitVector.wf_units..|done]. }
  destruct v, w; cbn in *. by subst.
Qed.

Lemma links_ext vs l1 l2 :
  BitSet.links_wf vs l1 -> BitSet.links_wf vs l2 -> BitSet.links_elements l1 = BitSet.links_elements l2 -> l1 = l2.
Proof.
  revert l2; induction l1 as [|k l1 IH]; intros [|o l2] H1 H2 E; [done| | |].
  - destruct (BitSet.links_wf_cons _ _ _ H2) as (Ho & _).
    destruct (BitSet.link_nonempty_elements _ _ Ho) as (p & r & Ep).
    unfold BitSet.links_elements in E. by rewrite bind_cons, Ep in E.
  - destruct (BitSet.links_wf_cons _ _ _ H1) as (Hk & _).
    destruct (BitSet.link_nonempty_elements _ _ Hk) as (p & r & Ep).
    unfold BitSet.links_elements in E. by rewrite bind_cons, Ep in E.
  - destruct (BitSet.links_wf_cons _ _ _ H1) as (Hk & Hl1 & _).
    destruct (BitSet.links_wf_cons _ _ _ H2) as (Ho & Hl2 & _).
    apply (BitSet.head_link_ext vs) in E as (Eo & Eb & El); [|done..].
    rewrite (IH l2) by done. f_equal.
    destruct (BitSet.same_nbits vs k o Hk Ho) as (Hv1 & Hv2 & Hn).
    pose proof (vector_ext _ _ Hv1 Hv2 Hn Eb). destruct k, o; cbn in *. by subst.
Qed.

Lemma set_links bs other :
  BitSet.bs_wf bs -> BitSet.bs_wf other -> BitSet.m_vector_size bs = BitSet.m_vector_size other ->
  BitSet.bs_set bs = BitSet.bs_set other -> BitSet.m_bsllist bs = BitSet.m_bsllist other.
Proof.
  intros Hbs Ho Hvs E. pose proof (BitSet.bw_links _ Hbs) as Hl.
  pose proof (BitSet.bw_links _ Ho) as Hlo. rewrite <- Hvs in Hlo.
  apply (links_ext _ _ _ Hl Hlo). apply ascending_ext; [by eapply BitSet.links_elements_ascending..|].
  intros p. rewrite <- !(elem_of_list_to_set (C := gset N)). unfold BitSet.bs_set, BitSet.bs_elements in E. by rewrite E.
Qed.

Lemma HashValue_ext bs other :
  BitSet.bs_wf bs -> BitSet.bs_wf other -> BitSet.m_vector_size bs = BitSet.m_vector_size other ->
  BitSet.bs_set bs = BitSet.bs_set other -> HashValue bs = HashValue other.
Proof. intros H1 H2 H3 H4. unfold HashValue. by rewrite (set_links bs other). Qed.

(** ** The hash of a set *)

(** A bit set with the given members: [ExchangeSet] one after the other into a new
    set of the default vector size *)
Definition build_set (s : gset N) : outcome BitSet.CBitSet :=
  for_each (elements s) (fun b bs => x ← BitSet.ExchangeSet bs b; mret x.1) (BitSet.CBitSet_ctor 256).

Lemma build_set_ret s :
  (forall x, x ∈ s -> x < BitSet.ULONG_MOD) ->
  returns (build_set s) (fun bs => BitSet.bs_wf bs /\ BitSet.m_vector_size bs = 256 /\ BitSet.bs_set bs = s).
Proof.
  intros Hs. eapply returns_mono; [apply (for_each_rule (fun pre bs => BitSet.bs_wf bs /\
    BitSet.m_vector_size bs = 256 /\ BitSet.bs_set bs = list_to_set pre))|].
  - split; [by apply BitSet.CBitSet_ctor_wf|done].
  - intros pre b rest bs Hl (H1 & H2 & H3).
    assert (b ∈ s) as Hb by (apply elem_of_elements; rewrite Hl; set_solver).
    destruct (BitSet.ExchangeSet_spec bs H1 b) as (bs' & -> & H4 & H5 & H6); [by apply Hs|].
    apply returns_ret. split; [done|]. cbn. split; [congruence|]. rewrite H6, H3. set_solver.
  - intros bs (H1 & H2 & H3). split; [done|]. split; [done|]. rewrite H3. apply list_to_set_elements_L.
Qed.

#[export] Instance CBitSetHash : BitSetHash := fun s =>
  match build_set s with Ret bs => HashValue bs | _ => 0 end.

Lemma CBitSetHash_spec bs :
  BitSet.bs_wf bs -> BitSet.m_vector_size bs = 256 -> SetHashValue (BitSet.bs_set bs) = HashValue bs.
Proof.
  intros Hbs Hvs. unfold SetHashValue, CBitSetHash.
  destruct (build_set_ret (BitSet.bs_set bs)) as (bs' & -> & H1 & H2 & H3).
  - intros x Hx. eapply BitSet.member_width; [apply Hbs|]. unfold BitSet.bs_set in Hx. by apply elem_of_list_to_set in Hx.
  - apply HashValue_ext; [done|done|congruence|done].
Qed.
End SetHash.
