(* ===== verification/ColumnSet.v ===== *)
(** * The interface of column sets

    [CColRefSet] inherits from [CBitSet]; the code on column sets uses its
    operations only.  The class [ColumnSet] has these operations, and
    [ColumnSetLaws] their contract: they act as the operations of a finite set of
    column ids.  [BitColumnSet] is the instance by [CBitSet], with the vector size
    of [CColRefSet]; its laws are discharged by the theorems of BitSet.v. *)
From stdpp Require Import base numbers list gmap sets sorting.
From S2P Require Import Prelude BitVector BitSet.

Module ColumnSet.

(** The operations of a set of column ids; [cs_iterate] is the loop
    [while (iter.Advance()) ... iter.Bit()]. *)
Class ColumnSet (S : Type) := {
  cs_new : S;
  cs_get : S -> N -> outcome bool;
  cs_set : S -> N -> outcome (S * bool);
  cs_clear : S -> N -> outcome (S * bool);
  cs_union : S -> S -> outcome S;
  cs_inter : S -> S -> outcome S;
  cs_diff : S -> S -> outcome S;
  cs_contains : S -> S -> outcome bool;
  cs_equals : S -> S -> outcome bool;
  cs_disjoint : S -> S -> outcome bool;
  cs_size : S -> N;
  cs_iterate : S -> outcome (list N)
}.

(** Column ids are below the largest ULONG, which stands for no column. *)
Definition MAX_COLID : N := 2 ^ 32 - 1.

Class ColumnSetLaws (S : Type) `{ColumnSet S} := {
  cs_ok : S -> Prop;
  cs_elems : S -> gset N;
  new_ok : cs_ok cs_new /\ cs_elems cs_new = ∅;
  get_law : forall s p, cs_ok s -> cs_get s p = Ret (bool_decide (p ∈ cs_elems s));
  set_law : forall s p, cs_ok s -> (p < MAX_COLID)%N ->
    exists s', cs_set s p = Ret (s', bool_decide (p ∈ cs_elems s)) /\ cs_ok s' /\
      cs_elems s' = {[p]} ∪ cs_elems s;
  clear_law : forall s p, cs_ok s ->
    exists s', cs_clear s p = Ret (s', bool_decide (p ∈ cs_elems s)) /\ cs_ok s' /\
      cs_elems s' = cs_elems s ∖ {[p]};
  union_law : forall s t, cs_ok s -> cs_ok t ->
    exists u, cs_union s t = Ret u /\ cs_ok u /\ cs_elems u = cs_elems s ∪ cs_elems t;
  inter_law : forall s t, cs_ok s -> cs_ok t ->
    exists u, cs_inter s t = Ret u /\ cs_ok u /\ cs_elems u = cs_elems s ∩ cs_elems t;
  diff_law : forall s t, cs_ok s -> cs_ok t ->
    exists u, cs_diff s t = Ret u /\ cs_ok u /\ cs_elems u = cs_elems s ∖ cs_elems t;
  contains_law : forall s t, cs_ok s -> cs_ok t ->
    cs_contains s t = Ret (bool_decide (cs_elems t ⊆ cs_elems s));
  equals_law : forall s t, cs_ok s -> cs_ok t ->
    cs_equals s t = Ret (bool_decide (cs_elems s = cs_elems t));
  disjoint_law : forall s t, cs_ok s -> cs_ok t ->
    cs_disjoint s t = Ret (bool_decide (cs_elems s ## cs_elems t));
  size_law : forall s, cs_ok s -> cs_size s = N.of_nat (size (cs_elems s));
  iterate_law : forall s, cs_ok s ->
    exists l, cs_iterate s = Ret l /\ ascending l /\ (forall p, p ∈ l <-> p ∈ cs_elems s);
  ids_law : forall s p, cs_ok s -> p ∈ cs_elems s -> (p < MAX_COLID)%N
}.

(** ** The instance by bit sets *)

(** [GPOPT_COLREFSET_SIZE] *)
Definition GPOPT_COLREFSET_SIZE : N := 1024.

Fixpoint iterate_loop (fuel : nat) (bs : BitSet.CBitSet) (it : BitSet.CBitSetIter) : outcome (list N) :=
  match fuel with
  | O => Abort FFuel
  | S fuel' =>
      '(it', more) ← BitSet.Advance bs it;
      if (more : bool) then
        (b ← BitSet.Bit bs it'; rest ← iterate_loop fuel' bs it'; mret (b :: rest))
      else mret []
  end.

Definition iterate (bs : BitSet.CBitSet) : outcome (list N) :=
  iterate_loop (S (length (BitSet.bs_elements bs))) bs BitSet.CBitSetIter_ctor.

Lemma iterate_loop_spec bs fuel : forall it rest,
  BitSet.bs_wf bs -> BitSet.iter_ok bs it rest -> length rest < fuel ->
  iterate_loop fuel bs it = Ret rest.
Proof.
  induction fuel as [|fuel IH]; intros it rest Hwf Hit Hf; [lia|].
  pose proof (BitSet.Advance_spec bs it rest Hwf Hit) as Hadv. cbn [iterate_loop].
  destruct rest as [|p rest].
  - by destruct Hadv as (it' & ->).
  - destruct Hadv as (it' & -> & Hbit & Hit'). cbn [mbind outcome_bind]. rewrite Hbit.
    cbn [mbind outcome_bind]. rewrite (IH it' rest) by (simpl in Hf; auto with lia). done.
Qed.

Lemma iterate_spec bs : BitSet.bs_wf bs -> iterate bs = Ret (BitSet.bs_elements bs).
Proof. intros Hwf. apply iterate_loop_spec; [done|apply BitSet.iter_start|lia]. Qed.

#[export] Instance BitColumnSet : ColumnSet BitSet.CBitSet := {
  cs_new := BitSet.CBitSet_ctor GPOPT_COLREFSET_SIZE;
  cs_get := BitSet.Get;
  cs_set := BitSet.ExchangeSet;
  cs_clear := BitSet.ExchangeClear;
  cs_union := BitSet.Union;
  cs_inter := fun s t => BitSet.Intersection s (Some t);
  cs_diff := BitSet.Difference;
  cs_contains := BitSet.ContainsAll;
  cs_equals := BitSet.Equals;
  cs_disjoint := BitSet.IsDisjoint;
  cs_size := BitSet.m_size;
  cs_iterate := iterate
}.

Record bit_ok (bs : BitSet.CBitSet) : Prop := {
  bo_wf : BitSet.bs_wf bs;
  bo_vs : BitSet.m_vector_size bs = GPOPT_COLREFSET_SIZE;
  bo_ids : forall p, p ∈ BitSet.bs_set bs -> (p < MAX_COLID)%N
}.

(** Sets of ids below the bound have a size that a ULONG holds. *)
Lemma size_bound (X : gset N) :
  (forall p, p ∈ X -> (p < MAX_COLID)%N) -> (N.of_nat (size X) < BitSet.ULONG_MOD)%N.
Proof.
  intros HX.
  assert (Hsub : forall k : nat, forall Y : gset N, (forall p, p ∈ Y -> (p < N.of_nat k)%N) -> size Y <= k).
  { induction k as [|k IH]; intros Y HY.
    - assert (Y = ∅) as -> by (apply elem_of_equiv_empty_L; intros x Hx; specialize (HY x Hx); lia).
      by rewrite size_empty.
    - specialize (IH (Y ∖ {[N.of_nat k]})).
      assert (size (Y ∖ {[N.of_nat k]}) <= k).
      { apply IH. intros p [Hp Hn]%elem_of_difference. specialize (HY p Hp).
        rewrite elem_of_singleton in Hn. lia. }
      assert (size Y <= size (Y ∖ {[N.of_nat k]}) + 1); [|lia].
      rewrite <- (size_singleton (C := gset N) (N.of_nat k)), <- size_union by set_solver.
      apply subseteq_size. intros x Hx. destruct (decide (x = N.of_nat k)); set_solver. }
  specialize (Hsub (N.to_nat MAX_COLID) X). unfold MAX_COLID, BitSet.ULONG_MOD in *.
  assert (size X <= N.to_nat (2 ^ 32 - 1)); [|lia].
  apply Hsub. intros p Hp. specialize (HX p Hp). lia.
Qed.

Lemma bit_size bs : bit_ok bs -> BitSet.m_size bs = N.of_nat (size (BitSet.bs_set bs)).
Proof.
  intros [Hwf _ Hids]. rewrite (BitSet.bw_size _ Hwf). apply N.mod_small. by apply size_bound.
Qed.

#[export] Program Instance BitColumnSetLaws : ColumnSetLaws BitSet.CBitSet := {
  cs_ok := bit_ok;
  cs_elems := BitSet.bs_set
}.
Next Obligation.
  split; [|done]. split; [|done|set_solver]. apply BitSet.CBitSet_ctor_wf.
  unfold GPOPT_COLREFSET_SIZE, BitSet.ULONG_MOD. lia.
Qed.
Next Obligation. intros s p [Hwf _ _]. by apply BitSet.Get_spec. Qed.
Next Obligation.
  intros s p [Hwf Hvs Hids] Hp.
  destruct (BitSet.ExchangeSet_spec s Hwf p) as (s' & E & Hwf' & Hvs' & Hs').
  { unfold MAX_COLID in Hp. unfold BitSet.ULONG_MOD. lia. }
  exists s'. split_and!; [done| |done]. split; [done|congruence|]. rewrite Hs'. set_solver.
Qed.
Next Obligation.
  intros s p [Hwf Hvs Hids]. destruct (BitSet.ExchangeClear_spec s Hwf p) as (s' & E & Hwf' & Hvs' & Hs').
  exists s'. split_and!; [done| |done]. split; [done|congruence|]. rewrite Hs'. set_solver.
Qed.
Next Obligation.
  intros s t [Hwf Hvs Hids] [Hwf2 Hvs2 Hids2].
  destruct (BitSet.Union_spec s t) as (u & E & Hwf' & Hvs' & Hs'); [done|done|congruence|].
  exists u. split_and!; [done| |done]. split; [done|congruence|]. rewrite Hs'. set_solver.
Qed.
Next Obligation.
  intros s t [Hwf Hvs Hids] [Hwf2 Hvs2 Hids2].
  destruct (BitSet.Intersection_spec s t) as (u & E & Hwf' & Hvs' & Hs'); [done|done|congruence|].
  exists u. split_and!; [done| |done]. split; [done|congruence|]. rewrite Hs'. set_solver.
Qed.
Next Obligation.
  intros s t [Hwf Hvs Hids] [Hwf2 Hvs2 Hids2].
  destruct (BitSet.Difference_spec s t) as (u & E & Hwf' & Hvs' & Hs'); [done|done|congruence|].
  exists u. split_and!; [done| |done]. split; [done|congruence|]. rewrite Hs'. set_solver.
Qed.
Next Obligation.
  intros s t [Hwf Hvs Hids] [Hwf2 Hvs2 Hids2].
  apply BitSet.ContainsAll_spec; [done|done|congruence|by apply size_bound].
Qed.
Next Obligation.
  intros s t [Hwf Hvs Hids] [Hwf2 Hvs2 Hids2]. apply BitSet.Equals_spec; [done|done|congruence].
Qed.
Next Obligation.
  intros s t [Hwf Hvs Hids] [Hwf2 Hvs2 Hids2]. apply BitSet.IsDisjoint_spec; [done|done|congruence].
Qed.
Next Obligation. intros s. apply bit_size. Qed.
Next Obligation.
  intros s [Hwf _ _]. exists (BitSet.bs_elements s). split_and!.
  - by apply iterate_spec.
  - eapply BitSet.links_elements_ascending, BitSet.bw_links, Hwf.
  - intros p. unfold BitSet.bs_set. by rewrite elem_of_list_to_set.
Qed.
Next Obligation. intros s p [_ _ Hids]. apply Hids. Qed.

End ColumnSet.
