(* ===== verification/ColRefSet.v ===== *)
(** * Column sets, keys and functional dependencies

    [CColRefSet] (libgpopt/src/base/CColRefSet.cpp), [CKeyCollection]
    (CKeyCollection.cpp) and [CFunctionalDependency] (CFunctionalDependency.cpp),
    written against the interface of column sets.  A column reference is its id:
    the column factory keeps one object per id, and [CColRefSetIter::Pcr] looks
    the object up. *)
From stdpp Require Import base numbers list gmap sets sorting.
From S2P Require Import Prelude ColumnSet.

Module ColRefSet.
Import ColumnSet.

Section Ops.
Context {S : Type} `{ColumnSet S}.
Implicit Types (this pcrs : S) (colref : N) (colref_array : list N).

(** [CColRefSet::FMember] *)
Definition FMember this colref : outcome bool := cs_get this colref.

(** [CColRefSet::Include(colref)] *)
Definition Include this colref : outcome S := fst <$> cs_set this colref.

(** [CColRefSet::Include(colref_array)] *)
Fixpoint Include_array this colref_array : outcome S :=
  match colref_array with
  | [] => mret this
  | colref :: rest => (this' ← Include this colref; Include_array this' rest)
  end.

(** [CColRefSet::Include(pcrs)] *)
Definition Include_set this pcrs : outcome S := (l ← cs_iterate pcrs; Include_array this l).

(** [CColRefSet::Exclude(colref)] *)
Definition Exclude this colref : outcome S := fst <$> cs_clear this colref.

(** [CColRefSet::Exclude(colref_array)] *)
Fixpoint Exclude_array this colref_array : outcome S :=
  match colref_array with
  | [] => mret this
  | colref :: rest => (this' ← Exclude this colref; Exclude_array this' rest)
  end.

(** [CColRefSet::Exclude(pcrs)] *)
Definition Exclude_set this pcrs : outcome S := (l ← cs_iterate pcrs; Exclude_array this l).

(** [CColRefSet::CColRefSet(mp, colref_array, size)] *)
Definition CColRefSet_array colref_array : outcome S := Include_array cs_new colref_array.

(** [CColRefSet::PcrFirst]; [None] is the null result *)
Definition PcrFirst this : outcome (option N) :=
  l ← cs_iterate this;
  match l with
  | p :: _ => mret (Some p)
  | [] => (_ ← GPOS_ASSERT (0 =? cs_size this)%N; mret None)
  end.

(** [CColRefSet::Replace(pcrOut, pcrIn)] *)
Definition Replace this (pcrOut pcrIn : N) : outcome S :=
  m ← FMember this pcrOut;
  if (m : bool) then (this' ← Exclude this pcrOut; Include this' pcrIn) else mret this.

Fixpoint Replace_loop this (pdrgpcrOut pdrgpcrIn : list N) : outcome S :=
  match pdrgpcrOut, pdrgpcrIn with
  | o :: outs, i :: ins => (this' ← Replace this o i; Replace_loop this' outs ins)
  | [], _ => mret this
  | _, [] => Abort FBounds
  end.

(** [CColRefSet::Replace(pdrgpcrOut, pdrgpcrIn)] *)
Definition Replace_array this (pdrgpcrOut pdrgpcrIn : list N) : outcome S :=
  _ ← GPOS_ASSERT (bool_decide (length pdrgpcrOut = length pdrgpcrIn));
  Replace_loop this pdrgpcrOut pdrgpcrIn.

(** [CColRefSet::Pdrgpcr], [ExtractColIds] *)
Definition Pdrgpcr this : outcome (list N) := cs_iterate this.

(** [CColRefSet::FContained] *)
Fixpoint FContained this (pdrgpcrs : list S) : outcome bool :=
  match pdrgpcrs with
  | [] => mret false
  | pcrs :: rest => (b ← cs_contains pcrs this; if (b : bool) then mret true else FContained this rest)
  end.

(** [CColRefSet::FIntersects] *)
Definition FIntersects this pcrs : outcome bool :=
  intersecting_colrefset ← cs_inter this pcrs;
  mret (0 <? cs_size intersecting_colrefset)%N.

(** The inner loop of [FCovered] *)
Fixpoint member_of_any colref (pdrgpcrs : list S) : outcome bool :=
  match pdrgpcrs with
  | [] => mret false
  | pcrs :: rest => (b ← FMember pcrs colref; if (b : bool) then mret true else member_of_any colref rest)
  end.

Fixpoint covered_loop (cols : list N) (pdrgpcrs : list S) : outcome bool :=
  match cols with
  | [] => mret true
  | colref :: rest =>
      fFound ← member_of_any colref pdrgpcrs;
      if (fFound : bool) then covered_loop rest pdrgpcrs else mret false
  end.

(** [CColRefSet::FCovered] *)
Definition FCovered (pdrgpcrs : list S) pcrs : outcome bool :=
  _ ← GPOS_ASSERT (bool_decide (0 < length pdrgpcrs));
  if (0 =? cs_size pcrs)%N then mret false
  else (cols ← cs_iterate pcrs; covered_loop cols pdrgpcrs).

(** ** Keys *)

(** [CKeyCollection]: the array [m_pdrgpcrs] of its key sets *)
Record CKeyCollection := mkKeys { m_pdrgpcrs : list S }.

(** [CKeyCollection::FKey(pcrs, fExactMatch)] *)
Fixpoint FKey_loop (keys : list S) pcrs (fExactMatch : bool) : outcome bool :=
  match keys with
  | [] => mret false
  | k :: rest =>
      b ← (if fExactMatch then cs_equals pcrs k else cs_contains pcrs k);
      if (b : bool) then mret true else FKey_loop rest pcrs fExactMatch
  end.
Definition FKey (kc : CKeyCollection) pcrs (fExactMatch : bool) : outcome bool :=
  FKey_loop (m_pdrgpcrs kc) pcrs fExactMatch.

(** [CKeyCollection::Add]; [FKey] is called with its default, an exact match *)
Definition Add (kc : CKeyCollection) pcrs : outcome CKeyCollection :=
  b ← FKey kc pcrs true;
  _ ← GPOS_ASSERT (negb b);
  mret (mkKeys (m_pdrgpcrs kc ++ [pcrs])).

(** [CKeyCollection::CKeyCollection(mp)], [(mp, pcrs)], [(mp, colref_array)] *)
Definition CKeyCollection_ctor : CKeyCollection := mkKeys [].
Definition CKeyCollection_set pcrs : outcome CKeyCollection :=
  _ ← GPOS_ASSERT (0 <? cs_size pcrs)%N;
  Add CKeyCollection_ctor pcrs.
Definition CKeyCollection_array colref_array : outcome CKeyCollection :=
  pcrs ← Include_array cs_new colref_array;
  Add CKeyCollection_ctor pcrs.

(** [CKeyCollection::FKey(mp, colref_array)] *)
Definition FKey_array (kc : CKeyCollection) colref_array : outcome bool :=
  pcrs ← Include_array cs_new colref_array;
  FKey kc pcrs true.

Fixpoint trim_loop (keys : list S) pcrs : outcome (option (list N)) :=
  match keys with
  | [] => mret None
  | pcrsKey :: rest =>
      b ← cs_contains pcrs pcrsKey;
      if (b : bool) then Some <$> Pdrgpcr pcrsKey else trim_loop rest pcrs
  end.

(** [CKeyCollection::PdrgpcrTrim] *)
Definition PdrgpcrTrim (kc : CKeyCollection) colref_array : outcome (option (list N)) :=
  pcrs ← Include_array cs_new colref_array;
  trim_loop (m_pdrgpcrs kc) pcrs.

(** [CKeyCollection::PdrgpcrKey(mp)] *)
Definition PdrgpcrKey (kc : CKeyCollection) : outcome (option (list N)) :=
  match m_pdrgpcrs kc with
  | [] => mret None
  | k :: _ => Some <$> Pdrgpcr k
  end.

(** [CKeyCollection::PdrgpcrKey(mp, ulIndex)] *)
Definition PdrgpcrKey_at (kc : CKeyCollection) (ulIndex : nat) : outcome (option (list N)) :=
  match m_pdrgpcrs kc with
  | [] => mret None
  | _ => (k ← subscript (m_pdrgpcrs kc) ulIndex; Some <$> Pdrgpcr k)
  end.

(** [CUtils::IsHashable]; [hashable] tells whether the type of a column is *)
Definition IsHashable (hashable : N -> bool) colref_array : outcome bool :=
  _ ← GPOS_ASSERT (bool_decide (0 < length colref_array));
  mret (forallb hashable colref_array).

Fixpoint hashable_loop (hashable : N -> bool) (keys : list S) : outcome (option (list N)) :=
  match keys with
  | [] => mret None
  | k :: rest =>
      pdrgpcrKey ← Pdrgpcr k;
      b ← IsHashable hashable pdrgpcrKey;
      if (b : bool) then mret (Some pdrgpcrKey) else hashable_loop hashable rest
  end.

(** [CKeyCollection::PdrgpcrHashableKey] *)
Definition PdrgpcrHashableKey (hashable : N -> bool) (kc : CKeyCollection) : outcome (option (list N)) :=
  hashable_loop hashable (m_pdrgpcrs kc).

(** ** Functional dependencies *)

Record CFunctionalDependency := mkFD { m_pcrsKey : S; m_pcrsDetermined : S }.

(** [CFunctionalDependency::CFunctionalDependency] *)
Definition CFunctionalDependency_ctor (pcrsKey pcrsDetermined : S) : outcome CFunctionalDependency :=
  _ ← GPOS_ASSERT (0 <? cs_size pcrsKey)%N;
  _ ← GPOS_ASSERT (0 <? cs_size pcrsDetermined)%N;
  mret (mkFD pcrsKey pcrsDetermined).

(** [CFunctionalDependency::FIncluded] *)
Definition FIncluded (fd : CFunctionalDependency) pcrs : outcome bool :=
  b ← cs_contains pcrs (m_pcrsKey fd);
  if (b : bool) then cs_contains pcrs (m_pcrsDetermined fd) else mret false.

(** [CFunctionalDependency::Equals(pfd)] *)
Definition FD_Equals (fd pfd : CFunctionalDependency) : outcome bool :=
  b ← cs_equals (m_pcrsKey fd) (m_pcrsKey pfd);
  if (b : bool) then cs_equals (m_pcrsDetermined fd) (m_pcrsDetermined pfd) else mret false.

(** The inner and the outer loop of [Equals] on arrays *)
Fixpoint fd_match (fd : CFunctionalDependency) (snds : list CFunctionalDependency) : outcome bool :=
  match snds with
  | [] => mret false
  | pfdSnd :: rest => (b ← FD_Equals fd pfdSnd; if (b : bool) then mret true else fd_match fd rest)
  end.
Fixpoint fd_all_match (fsts snds : list CFunctionalDependency) : outcome bool :=
  match fsts with
  | [] => mret true
  | pfdFst :: rest => (b ← fd_match pfdFst snds; if (b : bool) then fd_all_match rest snds else mret false)
  end.

(** [CFunctionalDependency::Equals(pdrgpfdFst, pdrgpfdSnd)]; [None] is a null array *)
Definition FD_Equals_array (fst snd : option (list CFunctionalDependency)) : outcome bool :=
  match fst, snd with
  | None, None => mret true
  | None, Some _ | Some _, None => mret false
  | Some fsts, Some snds =>
      if negb (bool_decide (length fsts = length snds)) then mret false else fd_all_match fsts snds
  end.

Fixpoint keys_loop pcrs (fds : list CFunctionalDependency) : outcome S :=
  match fds with
  | [] => mret pcrs
  | fd :: rest => (pcrs' ← Include_set pcrs (m_pcrsKey fd); keys_loop pcrs' rest)
  end.

(** [CFunctionalDependency::PcrsKeys] *)
Definition PcrsKeys (pdrgpfd : option (list CFunctionalDependency)) : outcome S :=
  keys_loop cs_new (default [] pdrgpfd).

(** [CFunctionalDependency::PdrgpcrKeys] *)
Definition PdrgpcrKeys (pdrgpfd : option (list CFunctionalDependency)) : outcome (list N) :=
  pcrs ← PcrsKeys pdrgpfd;
  Pdrgpcr pcrs.

End Ops.
Arguments CKeyCollection S : clear implicits.
Arguments CFunctionalDependency S : clear implicits.

(** ** The operations are those of sets of ids *)

Section Proofs.
Context {S : Type} `{CSL : ColumnSetLaws S}.
Implicit Types (s t : S) (l : list N).

(** [m] returns a set with the elements [X]. *)
Definition yields (m : outcome S) (X : gset N) : Prop :=
  exists u, m = Ret u /\ cs_ok u /\ cs_elems u = X.

Lemma Include_yields s p : cs_ok s -> (p < MAX_COLID)%N -> yields (Include s p) ({[p]} ∪ cs_elems s).
Proof.
  intros Hs Hp. destruct (set_law s p Hs Hp) as (s' & E & Hok & He). exists s'.
  unfold Include. by rewrite E.
Qed.

Lemma Exclude_yields s p : cs_ok s -> yields (Exclude s p) (cs_elems s ∖ {[p]}).
Proof.
  intros Hs. destruct (clear_law s p Hs) as (s' & E & Hok & He). exists s'.
  unfold Exclude. by rewrite E.
Qed.

Lemma Include_array_yields s l :
  cs_ok s -> Forall (fun p => (p < MAX_COLID)%N) l ->
  yields (Include_array s l) (cs_elems s ∪ list_to_set l).
Proof.
  intros Hs Hl. revert s Hs. induction Hl as [|p l Hp _ IH]; intros s Hs; cbn [Include_array].
  - exists s. split_and!; [done..|]. set_solver.
  - destruct (Include_yields s p Hs Hp) as (u & -> & Hok & He). cbn [mbind outcome_bind].
    destruct (IH u Hok) as (w & -> & Hokw & Hew). exists w. split_and!; [done..|]. rewrite Hew, He. set_solver.
Qed.

Lemma Exclude_array_yields s l :
  cs_ok s -> yields (Exclude_array s l) (cs_elems s ∖ list_to_set l).
Proof.
  revert s. induction l as [|p l IH]; intros s Hs; cbn [Exclude_array].
  - exists s. split_and!; [done..|]. set_solver.
  - destruct (Exclude_yields s p Hs) as (u & -> & Hok & He). cbn [mbind outcome_bind].
    destruct (IH u Hok) as (w & -> & Hokw & Hew). exists w. split_and!; [done..|]. rewrite Hew, He. set_solver.
Qed.

Lemma iterate_elems s : cs_ok s ->
  exists l, cs_iterate s = Ret l /\ ascending l /\ list_to_set l = cs_elems s /\
    Forall (fun p => (p < MAX_COLID)%N) l.
Proof.
  intros Hs. destruct (iterate_law s Hs) as (l & E & Ha & Hin). exists l. split_and!; [done..| |].
  - apply set_eq. intros p. by rewrite elem_of_list_to_set, Hin.
  - apply Forall_forall. intros p Hp. apply (ids_law s); [done|]. by apply Hin.
Qed.

Lemma Include_set_yields s t :
  cs_ok s -> cs_ok t -> yields (Include_set s t) (cs_elems s ∪ cs_elems t).
Proof.
  intros Hs Ht. destruct (iterate_elems t Ht) as (l & E & _ & Hl & Hf). unfold Include_set. rewrite E, <- Hl.
  by apply Include_array_yields.
Qed.

Lemma Exclude_set_yields s t :
  cs_ok s -> cs_ok t -> yields (Exclude_set s t) (cs_elems s ∖ cs_elems t).
Proof.
  intros Hs Ht. destruct (iterate_elems t Ht) as (l & E & _ & Hl & Hf). unfold Exclude_set. rewrite E, <- Hl.
  by apply Exclude_array_yields.
Qed.

Lemma array_set_yields l :
  Forall (fun p => (p < MAX_COLID)%N) l -> yields (Include_array cs_new l) (list_to_set l).
Proof.
  intros Hl. destruct new_ok as [Hn He]. destruct (Include_array_yields cs_new l Hn Hl) as (u & E & Hok & Hu).
  exists u. split_and!; [done..|]. rewrite Hu, He. set_solver.
Qed.

(** Replacing one column by another. *)
Definition replaced (X : gset N) (o i : N) : gset N :=
  if bool_decide (o ∈ X) then {[i]} ∪ (X ∖ {[o]}) else X.

Lemma Replace_yields s o i :
  cs_ok s -> (i < MAX_COLID)%N -> yields (Replace s o i) (replaced (cs_elems s) o i).
Proof.
  intros Hs Hi. unfold Replace, FMember, replaced. rewrite get_law by done. cbn [mbind outcome_bind].
  case_bool_decide; [|by exists s].
  destruct (Exclude_yields s o Hs) as (u & -> & Hok & He). cbn [mbind outcome_bind].
  rewrite <- He. by apply Include_yields.
Qed.

Lemma Replace_array_yields s outs ins :
  cs_ok s -> length outs = length ins -> Forall (fun p => (p < MAX_COLID)%N) ins ->
  yields (Replace_array s outs ins)
    (foldl (fun X oi => replaced X oi.1 oi.2) (cs_elems s) (zip outs ins)).
Proof.
  intros Hs Hlen Hins. unfold Replace_array. rewrite bind_assert by (by apply bool_decide_eq_true).
  revert s ins Hs Hlen Hins. induction outs as [|o outs IH]; intros s ins Hs Hlen Hins.
  - exists s. by destruct ins.
  - destruct ins as [|i ins]; [done|]. apply Forall_cons in Hins as [Hi Hins].
    cbn [Replace_loop]. destruct (Replace_yields s o i Hs Hi) as (u & -> & Hok & He).
    cbn [mbind outcome_bind zip zip_with foldl fst snd]. rewrite <- He. apply IH; auto.
Qed.

Lemma FContained_spec s (ts : list S) :
  cs_ok s -> Forall cs_ok ts ->
  FContained s ts = Ret (bool_decide (Exists (fun t => cs_elems s ⊆ cs_elems t) ts)).
Proof.
  intros Hs Hts. induction Hts as [|t ts Ht _ IH]; cbn [FContained].
  - by rewrite bool_decide_Exists_nil.
  - rewrite contains_law by done. cbn [mbind outcome_bind]. rewrite bool_decide_Exists_cons.
    rewrite IH. by repeat case_bool_decide.
Qed.

Lemma FIntersects_spec s t :
  cs_ok s -> cs_ok t -> FIntersects s t = Ret (bool_decide (~ cs_elems s ## cs_elems t)).
Proof.
  intros Hs Ht. unfold FIntersects. destruct (inter_law s t Hs Ht) as (u & -> & Hok & He).
  cbn [mbind outcome_bind]. unfold mret, outcome_ret. f_equal. rewrite size_law, He by done. apply bool_decide_of_iff.
  rewrite N.ltb_lt. rewrite disjoint_intersection_L.
  destruct (decide (cs_elems s ∩ cs_elems t = ∅)) as [E|E]; [rewrite E, size_empty; split; [lia|done]|].
  split; [done|]. intros _. destruct (size (cs_elems s ∩ cs_elems t)) eqn:Es; [|lia].
  by apply size_empty_inv, leibniz_equiv in Es.
Qed.

Lemma member_of_any_spec p (ts : list S) :
  Forall cs_ok ts -> member_of_any p ts = Ret (bool_decide (Exists (fun t => p ∈ cs_elems t) ts)).
Proof.
  induction 1 as [|t ts Ht _ IH]; cbn [member_of_any].
  - by rewrite bool_decide_Exists_nil.
  - unfold FMember. rewrite get_law by done. cbn [mbind outcome_bind]. rewrite bool_decide_Exists_cons.
    rewrite IH. by repeat case_bool_decide.
Qed.

Lemma covered_loop_spec l (ts : list S) :
  Forall cs_ok ts ->
  covered_loop l ts = Ret (bool_decide (Forall (fun p => Exists (fun t => p ∈ cs_elems t) ts) l)).
Proof.
  intros Hts. induction l as [|p l IH]; cbn [covered_loop].
  - by rewrite bool_decide_eq_true_2.
  - rewrite member_of_any_spec by done. cbn [mbind outcome_bind].
    rewrite bool_decide_Forall_cons.
    rewrite IH. by repeat case_bool_decide.
Qed.

(** [s] matches the key [k]: exactly, or by inclusion. *)
Definition matches_key (ex : bool) (X K : gset N) : bool :=
  if ex then bool_decide (X = K) else bool_decide (K ⊆ X).

Lemma FKey_loop_spec (keys : list S) s (ex : bool) :
  cs_ok s -> Forall cs_ok keys ->
  FKey_loop keys s ex = Ret (existsb (fun k => matches_key ex (cs_elems s) (cs_elems k)) keys).
Proof.
  intros Hs Hk. induction Hk as [|k keys Hk _ IH]; cbn [FKey_loop existsb]; [done|].
  assert (E : (if ex then cs_equals s k else cs_contains s k) =
    Ret (matches_key ex (cs_elems s) (cs_elems k))).
  { destruct ex; [by apply equals_law|by apply contains_law]. }
  rewrite E. cbn [mbind outcome_bind]. rewrite IH. by destruct (matches_key _ _ _).
Qed.

(** A collection of valid, pairwise different keys. *)
Definition keys_ok (kc : CKeyCollection S) : Prop :=
  Forall cs_ok (m_pdrgpcrs kc) /\ NoDup (cs_elems <$> m_pdrgpcrs kc).

Lemma trim_loop_spec (keys : list S) s :
  cs_ok s -> Forall cs_ok keys ->
  exists o, trim_loop keys s = Ret o /\
    match o with
    | Some l => exists k, k ∈ keys /\ ascending l /\ list_to_set l = cs_elems k /\ cs_elems k ⊆ cs_elems s
    | None => forall k, k ∈ keys -> ~ cs_elems k ⊆ cs_elems s
    end.
Proof.
  intros Hs Hk. induction Hk as [|k keys Hk _ IH]; cbn [trim_loop].
  - exists None. split; [done|]. set_solver.
  - rewrite contains_law by done. cbn [mbind outcome_bind]. case_bool_decide as Hin.
    + destruct (iterate_elems k Hk) as (l & E & Ha & Hl & _). unfold Pdrgpcr. rewrite E.
      exists (Some l). split; [done|]. exists k. set_solver.
    + destruct IH as (o & -> & Ho). exists o. split; [done|]. destruct o as [l|].
      * destruct Ho as (k' & ? & ?). exists k'. set_solver.
      * intros k' [->|Hk']%elem_of_cons; auto.
Qed.

(** ** Functional dependencies *)

Definition fd_ok (fd : CFunctionalDependency S) : Prop := cs_ok (m_pcrsKey fd) /\ cs_ok (m_pcrsDetermined fd).
Definition fd_sets (fd : CFunctionalDependency S) : gset N * gset N :=
  (cs_elems (m_pcrsKey fd), cs_elems (m_pcrsDetermined fd)).

Lemma FD_Equals_spec fd fd' :
  fd_ok fd -> fd_ok fd' -> FD_Equals fd fd' = Ret (bool_decide (fd_sets fd = fd_sets fd')).
Proof.
  intros [Hk Hd] [Hk' Hd']. unfold FD_Equals, fd_sets. rewrite !equals_law by done. cbn [mbind outcome_bind].
  case_bool_decide as E1; [|by rewrite bool_decide_eq_false_2 by congruence].
  f_equal. apply bool_decide_ext. rewrite E1. split; congruence.
Qed.

Lemma fd_match_spec fd (fds : list (CFunctionalDependency S)) :
  fd_ok fd -> Forall fd_ok fds -> fd_match fd fds = Ret (bool_decide (fd_sets fd ∈ fd_sets <$> fds)).
Proof.
  intros Hfd Hfds. induction Hfds as [|fd' fds Hfd' _ IH]; cbn [fd_match].
  - rewrite bool_decide_eq_false_2; [done|]. apply not_elem_of_nil.
  - rewrite FD_Equals_spec by done. cbn [mbind outcome_bind]. rewrite fmap_cons, IH.
    rewrite (bool_decide_ext _ _ (elem_of_cons (fd_sets <$> fds) (fd_sets fd) (fd_sets fd'))), bool_decide_or.
    by destruct (bool_decide (fd_sets fd = fd_sets fd')).
Qed.

Lemma fd_all_match_spec (fsts snds : list (CFunctionalDependency S)) :
  Forall fd_ok fsts -> Forall fd_ok snds ->
  fd_all_match fsts snds = Ret (bool_decide (Forall (fun x => x ∈ fd_sets <$> snds) (fd_sets <$> fsts))).
Proof.
  intros Hf Hs. induction Hf as [|fd fds Hfd _ IH]; cbn [fd_all_match].
  - by rewrite bool_decide_eq_true_2.
  - rewrite fd_match_spec by done. cbn [mbind outcome_bind]. rewrite fmap_cons, bool_decide_Forall_cons, IH.
    by destruct (bool_decide (fd_sets fd ∈ fd_sets <$> snds)).
Qed.

Lemma keys_loop_yields s (fds : list (CFunctionalDependency S)) :
  cs_ok s -> Forall fd_ok fds ->
  yields (keys_loop s fds) (cs_elems s ∪ ⋃ ((fun fd => cs_elems (m_pcrsKey fd)) <$> fds)).
Proof.
  intros Hs Hf. revert s Hs. induction Hf as [|fd fds [Hk _] _ IH]; intros s Hs; cbn [keys_loop].
  - exists s. split_and!; [done..|]. set_solver.
  - destruct (Include_set_yields s (m_pcrsKey fd) Hs Hk) as (u & -> & Hok & He). cbn [mbind outcome_bind].
    destruct (IH u Hok) as (w & -> & Hokw & Hew). exists w. split_and!; [done..|].
    rewrite Hew, He, fmap_cons. simpl. by rewrite (assoc_L (∪)).
Qed.

End Proofs.

End ColRefSet.
