(* ===== verification/EquivClasses.v ===== *)
(** * Equivalence classes of columns

    Source: the functions on arrays of column sets of libgpopt/src/base/CUtils.cpp
    and [AddColumnToEquivClasses] of CConstraint.cpp. The constraint property of an
    expression keeps the columns known to be equal as an array of disjoint sets. A
    column set is the set of the ids of its columns. A hash map from columns is a
    finite map; [Insert] does not replace an entry. *)
From stdpp Require Import base numbers list gmap sets sorting relations.
From S2P Require Import Prelude.

Module EquivClasses.
Open Scope nat_scope.
Open Scope outcome_scope.

Abbreviation CColRefSetArray := (list (gset N)).
Implicit Types (pdrgpcrs : CColRefSetArray) (pcrs : gset N).

(** [CHashMap::Insert] *)
Definition hash_insert {A} (m : gmap N A) (key : N) (value : A) : bool * gmap N A :=
  match m !! key with
  | Some _ => (false, m)
  | None => (true, <[key := value]> m)
  end.

(** [CConstraint::AddColumnToEquivClasses] *)
Definition AddColumnToEquivClasses (colref : N) pdrgpcrs : CColRefSetArray :=
  if existsb (fun pcrs => bool_decide (colref ∈ pcrs)) pdrgpcrs then pdrgpcrs
  else pdrgpcrs ++ [{[colref]}].

(** [CUtils::AddEquivClassToArray]: the classes kept so far and the copy of the
    new class, which grows. *)
Fixpoint add_class_loop pdrgpcrs (pdrgpcrsNew : CColRefSetArray) (pcrsCopy : gset N) : CColRefSetArray :=
  match pdrgpcrs with
  | [] => pdrgpcrsNew ++ [pcrsCopy]
  | pcrs :: rest =>
      if bool_decide (pcrsCopy ## pcrs) then add_class_loop rest (pdrgpcrsNew ++ [pcrs]) pcrsCopy
      else add_class_loop rest pdrgpcrsNew (pcrsCopy ∪ pcrs)
  end.

Definition AddEquivClassToArray (pcrsNew : gset N) pdrgpcrs : CColRefSetArray :=
  add_class_loop pdrgpcrs [] pcrsNew.

(** [CUtils::PdrgpcrsMergeEquivClasses] *)
Definition PdrgpcrsMergeEquivClasses (pdrgpcrsFst pdrgpcrsSnd : CColRefSetArray) : CColRefSetArray :=
  fold_left (fun merged pcrs => AddEquivClassToArray pcrs merged) pdrgpcrsSnd pdrgpcrsFst.

(** The loop that fills a map with the class of every column; a column that is
    there already stops [FEquivalanceClassesDisjoint]. *)
Definition disjoint_class pcrs (m : gmap N (gset N)) : outcome (bool * gmap N (gset N)) :=
  for_until (bits pcrs) (fun colref m =>
    let '(inserted, m) := hash_insert m colref pcrs in mret (negb inserted, m)) m.

(** [CUtils::FEquivalanceClassesDisjoint] *)
Definition FEquivalanceClassesDisjoint pdrgpcrs : outcome bool :=
  if bool_decide (length pdrgpcrs = 0) then mret true else
  '(found, _) ← for_until pdrgpcrs disjoint_class ∅;
  mret (negb found).

(** The loop that fills the map in [PdrgpcrsIntersectEquivClasses] *)
Definition class_map pdrgpcrs : outcome (gmap N (gset N)) :=
  for_each pdrgpcrs (fun pcrs m =>
    for_each (bits pcrs) (fun colref m => mret (hash_insert m colref pcrs).2) m) ∅.

(** A column of a class of the second array: the result and the columns done *)
Definition intersect_column (phmcscrs : gmap N (gset N)) (pcrsSnd : gset N) (colref : N)
    (acc : CColRefSetArray * gmap N N) : outcome (CColRefSetArray * gmap N N) :=
  let '(pdrgpcrs, phmcscrDone) := acc in
  match phmcscrs !! colref, phmcscrDone !! colref with
  | Some pcrs, None =>
      let pcrsNew := (∅ ∪ pcrsSnd) ∩ pcrs in
      done ← for_each (bits pcrsNew) (fun c m => mret (hash_insert m c c).2) phmcscrDone;
      mret (pdrgpcrs ++ [pcrsNew], done)
  | _, _ => mret (pdrgpcrs, phmcscrDone)
  end.

(** [CUtils::PdrgpcrsIntersectEquivClasses] *)
Definition PdrgpcrsIntersectEquivClasses (pdrgpcrsFst pdrgpcrsSnd : CColRefSetArray) : outcome CColRefSetArray :=
  d1 ← FEquivalanceClassesDisjoint pdrgpcrsFst;
  _ ← GPOS_ASSERT d1;
  d2 ← FEquivalanceClassesDisjoint pdrgpcrsSnd;
  _ ← GPOS_ASSERT d2;
  if bool_decide (length pdrgpcrsSnd = 0) || bool_decide (length pdrgpcrsFst = 0) then mret [] else
  phmcscrs ← class_map pdrgpcrsFst;
  '(pdrgpcrs, _) ← for_each pdrgpcrsSnd (fun pcrsSnd acc =>
    for_each (bits pcrsSnd) (intersect_column phmcscrs pcrsSnd) acc) ([], ∅);
  mret pdrgpcrs.

(** The loop of [CUtils::FEquivalanceClassesEqual] over the second array; [PcrAny]
    of an empty set is null, which [Find] dereferences. *)
Fixpoint equal_loop (phmcscrs : gmap N (gset N)) (l : CColRefSetArray) : outcome bool :=
  match l with
  | [] => mret true
  | pcrsSnd :: l' =>
      colref ← deref (head (bits pcrsSnd));
      pcrs ← deref (phmcscrs !! colref);
      if bool_decide (pcrsSnd = pcrs) then equal_loop phmcscrs l' else mret false
  end.

Definition FEquivalanceClassesEqual (pdrgpcrsFst pdrgpcrsSnd : CColRefSetArray) : outcome bool :=
  if negb (bool_decide (length pdrgpcrsFst = length pdrgpcrsSnd)) then mret false else
  phmcscrs ← class_map pdrgpcrsFst;
  equal_loop phmcscrs pdrgpcrsSnd.

(** ** What the arrays stand for *)

Definition disjoint_classes : CColRefSetArray -> Prop := StronglySorted (##).

(** Two columns are in one class. *)
Definition same (L : CColRefSetArray) (x y : N) : Prop := exists s, s ∈ L /\ x ∈ s /\ y ∈ s.

#[export] Instance same_symmetric L : Symmetric (same L).
Proof. intros x y (s & H1 & H2 & H3). by exists s. Qed.

Lemma disjoint_classes_cons s L :
  disjoint_classes (s :: L) <-> (forall t, t ∈ L -> s ## t) /\ disjoint_classes L.
Proof.
  split.
  - intros H. inversion H as [|? ? H1 H2]; subst. by rewrite Forall_forall in H2.
  - intros [H1 H2]. constructor; [done|]. by rewrite Forall_forall.
Qed.

Lemma disjoint_classes_app L1 L2 :
  disjoint_classes (L1 ++ L2) <->
  disjoint_classes L1 /\ disjoint_classes L2 /\ forall s t, s ∈ L1 -> t ∈ L2 -> s ## t.
Proof.
  induction L1 as [|s L1 IH]; cbn [app].
  - split; [intros H; split_and!; [constructor|done|set_solver]|by intros (_ & ? & _)].
  - rewrite !disjoint_classes_cons, IH. setoid_rewrite elem_of_app. setoid_rewrite elem_of_cons. naive_solver.
Qed.

Lemma disjoint_unique L s t x : disjoint_classes L -> s ∈ L -> t ∈ L -> x ∈ s -> x ∈ t -> s = t.
Proof.
  induction L as [|u L IH]; [set_solver|]. rewrite disjoint_classes_cons. intros [Hu HL] Hs Ht Hxs Hxt.
  apply elem_of_cons in Hs as [->|Hs]; apply elem_of_cons in Ht as [->|Ht]; [done| | |by apply IH].
  - by destruct (Hu t Ht x).
  - by destruct (Hu s Hs x).
Qed.

Lemma same_trans L x y z : disjoint_classes L -> same L x y -> same L y z -> same L x z.
Proof.
  intros HL (s & Hs & Hx & Hy) (t & Ht & Hy' & Hz). rewrite <- (disjoint_unique L s t y) in Hz by done. by exists s.
Qed.

(** The transitive closure is the least transitive relation. *)
Lemma tc_least {A} (R S : A -> A -> Prop) :
  (forall x y, R x y -> S x y) -> (forall x y z, S x y -> S y z -> S x z) -> forall x y, tc R x y -> S x y.
Proof. intros HR HS x y. induction 1 as [x y H|x y z H _ IH]; [by apply HR|]. eapply HS; [by apply HR|done]. Qed.

(** ** Adding and merging classes *)

Definition meets (s t : gset N) : Prop := ~ s ## t.
#[export] Instance meets_dec s t : Decision (meets s t).
Proof. unfold meets. apply _. Defined.

Lemma add_class_loop_eq s : forall L new U,
  disjoint_classes L -> (forall t, t ∈ L -> U ## t) ->
  add_class_loop L new (s ∪ U) =
  new ++ filter (fun t => s ## t) L ++ [s ∪ U ∪ ⋃ filter (meets s) L].
Proof.
  induction L as [|t L IH]; intros new U HL HU; cbn [add_class_loop].
  - rewrite !filter_nil, union_list_nil, union_empty_r_L. done.
  - apply disjoint_classes_cons in HL as [Ht HL]. assert (U ## t) as HUt by (apply HU; set_solver).
    rewrite !filter_cons. destruct (decide (s ## t)) as [Hd|Hd].
    + rewrite bool_decide_eq_true_2 by set_solver. rewrite decide_False by (unfold meets; tauto).
      rewrite IH by (try done; set_solver). by rewrite <- app_assoc.
    + rewrite bool_decide_eq_false_2 by set_solver. rewrite decide_True by done.
      rewrite <- (union_assoc_L s U t). rewrite IH; [|done|].
      * rewrite union_list_cons, (union_assoc_L (s ∪ U) t), (union_assoc_L s U t). done.
      * intros t' Ht'. specialize (HU t' ltac:(set_solver)). specialize (Ht t' Ht'). set_solver.
Qed.

Lemma AddEquivClass_eq s L : disjoint_classes L ->
  AddEquivClassToArray s L = filter (fun t => s ## t) L ++ [s ∪ ⋃ filter (meets s) L].
Proof.
  intros HL. unfold AddEquivClassToArray. pose proof (add_class_loop_eq s L [] ∅ HL) as H.
  rewrite union_empty_r_L in H. apply H. set_solver.
Qed.

Lemma AddEquivClass_disjoint s L : disjoint_classes L -> disjoint_classes (AddEquivClassToArray s L).
Proof.
  intros HL. rewrite AddEquivClass_eq by done. apply disjoint_classes_app. split_and!.
  - induction L as [|t L IH]; [constructor|]. apply disjoint_classes_cons in HL as [Ht HL].
    rewrite filter_cons. destruct (decide (s ## t)); [|by apply IH]. apply disjoint_classes_cons. split; [|by apply IH].
    intros u [_ Hu]%list_elem_of_filter. by apply Ht.
  - repeat constructor.
  - intros t u [Ht HtL]%list_elem_of_filter ->%list_elem_of_singleton. apply disjoint_union_r. split; [done|].
    intros x Hx (u & Hu & Hxu)%elem_of_union_list. apply list_elem_of_filter in Hu as [Hm Hu].
    rewrite (disjoint_unique L u t x) in Hm by done. by apply Hm.
Qed.

Lemma AddEquivClass_same s L x y : disjoint_classes L ->
  same (AddEquivClassToArray s L) x y <-> tc (fun x y => same L x y \/ (x ∈ s /\ y ∈ s)) x y.
Proof.
  intros HL. set (R := fun x y => same L x y \/ (x ∈ s /\ y ∈ s)).
  assert (AddEquivClassToArray s L = filter (fun t => s ## t) L ++ [s ∪ ⋃ filter (meets s) L]) as E by by apply AddEquivClass_eq.
  set (c := s ∪ ⋃ filter (meets s) L) in *.
  assert (forall t x, t ∈ L -> meets s t -> x ∈ t -> x ∈ c) as Hin.
  { intros t z Ht Hm Hz. unfold c. apply elem_of_union_r, elem_of_union_list. exists t. by rewrite list_elem_of_filter. }
  split.
  - assert (forall x, x ∈ c -> exists z, z ∈ s /\ R x z /\ R z x) as Hc.
    { intros z [Hz|(t & Ht & Hz)%elem_of_union_list]%elem_of_union; [exists z; by split_and!; [|right|right]|].
      apply list_elem_of_filter in Ht as [Hm Ht]. unfold meets in Hm.
      destruct (set_choose_or_empty (s ∩ t)) as [[w Hw]|He]; [|destruct Hm; set_solver].
      apply elem_of_intersection in Hw as [Hws Hwt]. exists w. split; [done|]. split; left; by exists t. }
    intros (t & Ht & Hx & Hy). rewrite E in Ht. apply elem_of_app in Ht as [[_ Ht]%list_elem_of_filter|Ht%list_elem_of_singleton].
    + apply tc_once. left. by exists t.
    + subst t. destruct (Hc x Hx) as (u & Hu & Hxu & _). destruct (Hc y Hy) as (v & Hv & _ & Hvy).
      eapply tc_l; [exact Hxu|]. eapply tc_l; [right; exact (conj Hu Hv)|]. by apply tc_once.
  - apply tc_least; [|intros ? ? ?; by apply same_trans, AddEquivClass_disjoint].
    intros u v [(t & Ht & Hu & Hv)|[Hu Hv]].
    + destruct (decide (s ## t)) as [Hd|Hd].
      * exists t. rewrite E, elem_of_app, list_elem_of_filter. by split_and!; [left|..].
      * exists c. rewrite E, elem_of_app, list_elem_of_singleton. split; [by right|]. split; by eapply Hin.
    + exists c. rewrite E, elem_of_app, list_elem_of_singleton. split; [by right|]. unfold c. set_solver.
Qed.

(** The merge of two arrays has the classes of the closure of both. *)
Lemma MergeEquivClasses_spec L1 L2 :
  disjoint_classes L1 ->
  disjoint_classes (PdrgpcrsMergeEquivClasses L1 L2) /\
  forall x y, same (PdrgpcrsMergeEquivClasses L1 L2) x y <-> tc (fun x y => same L1 x y \/ same L2 x y) x y.
Proof.
  revert L1. induction L2 as [|s L2 IH]; intros L1 HL; cbn.
  - split; [done|]. intros x y. split; [intros; apply tc_once; by left|].
    apply tc_least; [|intros ? ? ?; by apply same_trans]. intros ? ? [?|(t & Ht & _)]; [done|set_solver].
  - destruct (IH (AddEquivClassToArray s L1)) as [H1 H2]; [by apply AddEquivClass_disjoint|].
    split; [done|]. intros x y. etransitivity; [apply H2|]. split.
    + apply tc_least; [|intros ? ? ?; by apply tc_transitive]. intros u v [Huv|(t & Ht & Hu & Hv)].
      * apply AddEquivClass_same in Huv; [|done]. revert Huv. apply tc_least; [|intros ? ? ?; by apply tc_transitive].
        intros a b [H|[Ha Hb]]; apply tc_once; [by left|]. right. exists s. set_solver.
      * apply tc_once. right. exists t. set_solver.
    + apply tc_least; [|intros ? ? ?; by apply tc_transitive].
      intros u v [Huv|(t & [->|Ht]%elem_of_cons & Hu & Hv)]; apply tc_once; [left|left|right].
      * apply AddEquivClass_same; [done|]. apply tc_once. by left.
      * apply AddEquivClass_same; [done|]. apply tc_once. by right.
      * by exists t.
Qed.

Lemma AddColumn_spec c L : disjoint_classes L ->
  disjoint_classes (AddColumnToEquivClasses c L) /\
  forall x y, same (AddColumnToEquivClasses c L) x y <-> same L x y \/ (x = c /\ y = c).
Proof.
  intros HL. unfold AddColumnToEquivClasses. destruct (existsb _ L) eqn:E.
  - apply existsb_exists in E as (s & Hs%list_elem_of_In & Hc%bool_decide_eq_true). split; [done|].
    intros x y. split; [by left|]. intros [H|[-> ->]]; [done|]. by exists s.
  - assert (forall s, s ∈ L -> c ∉ s) as Hn.
    { intros s Hs Hc. apply not_true_iff_false in E. apply E, existsb_exists. exists s.
      split; [by apply list_elem_of_In|by apply bool_decide_eq_true]. }
    split.
    + apply disjoint_classes_app. split_and!; [done|repeat constructor|]. intros s t Hs ->%list_elem_of_singleton.
      specialize (Hn s Hs). set_solver.
    + intros x y. unfold same. setoid_rewrite elem_of_app. setoid_rewrite list_elem_of_singleton. split.
      * intros (s & [Hs| ->] & Hx & Hy); [left; by exists s|right; set_solver].
      * intros [(s & Hs & Hx & Hy)|[-> ->]]; [exists s; auto|exists {[c]}; set_solver].
Qed.

(** ** Disjointness *)

Lemma hash_insert_new {A} (m : gmap N A) k v : m !! k = None -> hash_insert m k v = (true, <[k := v]> m).
Proof. unfold hash_insert. by intros ->. Qed.

Lemma hash_insert_old {A} (m : gmap N A) k v : is_Some (m !! k) -> hash_insert m k v = (false, m).
Proof. unfold hash_insert. by intros [x ->]. Qed.

(** A column not yet passed by the loop over a set *)
Lemma bits_split s pre x rest : bits s = pre ++ x :: rest -> x ∈ s /\ (x ∉ pre).
Proof.
  intros E. split; [apply elem_of_bits; rewrite E; set_solver|]. pose proof (bits_NoDup s) as Hn. rewrite E in Hn.
  apply NoDup_app in Hn as (_ & Hn & _). intros Hx. apply (Hn x Hx). set_solver.
Qed.

Lemma disjoint_class_ret s (m : gmap N (gset N)) :
  disjoint_class s m ⤳ (fun x => if x.1 then ~ dom m ## s else dom m ## s /\ dom x.2 = dom m ∪ s).
Proof.
  unfold disjoint_class. eapply returns_mono; [apply (for_until_rule
    (fun pre m' => dom m' = dom m ∪ list_to_set pre /\ forall x, x ∈ pre -> x ∉ dom m) (fun _ => ~ dom m ## s))|].
  - split; [set_solver|set_solver].
  - intros pre x rest m' Hl [Hd Hn]. apply bits_split in Hl as [Hx Hpre]. destruct (m' !! x) as [t|] eqn:Em.
    + rewrite hash_insert_old by done. apply returns_ret. cbn. apply elem_of_dom_2 in Em. rewrite Hd in Em. set_solver.
    + rewrite hash_insert_new by done. apply returns_ret. cbn. apply not_elem_of_dom in Em.
      rewrite dom_insert_L, Hd. set_solver.
  - intros [[] m'] H; cbn in *; [done|]. destruct H as [Hd Hn]. split.
    + intros x Hx Hs. apply (Hn x); [by apply elem_of_bits|done].
    + rewrite Hd. f_equal. apply set_eq. intros x. by rewrite elem_of_list_to_set, elem_of_bits.
Qed.

Lemma FDisjoint_ret L : FEquivalanceClassesDisjoint L ⤳ (fun b => b = true <-> disjoint_classes L).
Proof.
  unfold FEquivalanceClassesDisjoint. case_bool_decide as El.
  { apply returns_ret. destruct L; [|done]. split; [constructor|done]. }
  eapply returns_bind; [apply (for_until_rule
    (fun pre m => disjoint_classes pre /\ dom m = ⋃ pre) (fun _ => ~ disjoint_classes L))|].
  - split; [constructor|set_solver].
  - intros pre s rest m Hl [Hp Hd]. eapply returns_mono; [apply disjoint_class_ret|]. intros [[] m'] H; cbn in *.
    + intros HL. apply H. rewrite Hl in HL. apply disjoint_classes_app in HL as (_ & _ & HL). rewrite Hd.
      intros x (t & Ht & Hx)%elem_of_union_list Hs. apply (HL t s Ht ltac:(set_solver) x Hx Hs).
    + destruct H as [H1 H2]. split; [|rewrite H2, Hd, union_list_app_L; set_solver].
      apply disjoint_classes_app. split_and!; [done|repeat constructor|]. intros t u Ht ->%list_elem_of_singleton x Hx Hs.
      apply (H1 x); [rewrite Hd; apply elem_of_union_list; by exists t|done].
  - intros [[] m] H; cbn in *; apply returns_ret; cbn; [by split|]. by destruct H.
Qed.

(** ** Intersection *)

(** A loop that enters the class of every column fills the map with the classes. *)
Lemma fill_map_ret (body : gset N -> N -> gmap N (gset N) -> outcome (gmap N (gset N))) L :
  (forall s x m, m !! x = None -> body s x m = Ret (<[x := s]> m)) -> disjoint_classes L ->
  for_each L (fun s m => for_each (bits s) (body s) m) ∅ ⤳ (fun m => forall x s, m !! x = Some s <-> s ∈ L /\ x ∈ s).
Proof.
  intros Hbody HL. apply (for_each_rule (fun pre m => forall x s, m !! x = Some s <-> s ∈ pre /\ x ∈ s)).
  - intros x s. rewrite lookup_empty. set_solver.
  - intros pre s rest m Hl Hm. eapply returns_mono; [apply (for_each_rule (fun cs m' => forall x t,
      m' !! x = Some t <-> (t ∈ pre /\ x ∈ t) \/ (t = s /\ x ∈ cs)))|].
    + intros x t. rewrite Hm. set_solver.
    + intros cs x rest' m' Hcs Hm'. apply bits_split in Hcs as [Hx Hxc]. rewrite Hbody.
      * apply returns_ret. intros y t. destruct (decide (x = y)) as [->|Hxy]; cbn.
        -- rewrite lookup_insert_eq. split; [intros [= ->]; clear; set_solver|].
           intros [[Ht Hy]|[-> _]]; [|done]. f_equal. apply (disjoint_unique L s t y); [done|rewrite Hl; set_solver|rewrite Hl; set_solver|done|done].
        -- rewrite lookup_insert_ne, Hm' by done. clear -Hxy. set_solver.
      * destruct (m' !! x) as [t|] eqn:Em; [|done]. apply Hm' in Em as [[Ht Hxt]|[-> Hc]]; [|done].
        exfalso. rewrite Hl in HL. apply disjoint_classes_app in HL as (_ & _ & HL). apply (HL t s Ht ltac:(set_solver) x); done.
    + intros m' Hm' x t. etransitivity; [apply Hm'|]. rewrite (elem_of_bits s x). clear.
      rewrite elem_of_app, list_elem_of_singleton. naive_solver.
Qed.

Lemma class_map_ret L : disjoint_classes L ->
  class_map L ⤳ (fun m => forall x s, m !! x = Some s <-> s ∈ L /\ x ∈ s).
Proof. apply fill_map_ret. intros s x m Hm. by rewrite hash_insert_new. Qed.

(** [t] is a nonempty intersection of classes of the two arrays. *)
Definition common_class (L1 L2 : CColRefSetArray) (t : gset N) : Prop :=
  exists s p, s ∈ L2 /\ p ∈ L1 /\ t = s ∩ p /\ t <> ∅.

Record intersected (ok : gset N -> Prop) (acc : CColRefSetArray * gmap N N) : Prop := {
  is_disjoint : disjoint_classes acc.1;
  is_classes : forall t, t ∈ acc.1 <-> ok t;
  is_done : forall x, x ∈ dom acc.2 <-> exists t, t ∈ acc.1 /\ x ∈ t;
}.

Section Intersect.
Context (L1 L2 : CColRefSetArray) (HL1 : disjoint_classes L1) (HL2 : disjoint_classes L2).
Context (m : gmap N (gset N)) (Hm : forall x s, m !! x = Some s <-> s ∈ L1 /\ x ∈ s).

(** The classes found after the columns [cs] of class [s] *)
Definition found (pre : CColRefSetArray) (s : gset N) (cs : list N) (t : gset N) : Prop :=
  common_class L1 pre t \/ exists p z, p ∈ L1 /\ t = s ∩ p /\ z ∈ cs /\ z ∈ t.

Lemma mark_done (t : gset N) (d : gmap N N) :
  for_each (bits t) (fun c m => mret (hash_insert m c c).2) d ⤳ (fun d' => dom d' = dom d ∪ t).
Proof.
  eapply returns_mono; [apply (for_each_rule (fun pre d' => dom d' = dom d ∪ list_to_set pre))|].
  - set_solver.
  - intros pre x rest d' _ Hd. apply returns_ret. destruct (d' !! x) eqn:E.
    + rewrite hash_insert_old by done. apply elem_of_dom_2 in E. cbn. set_solver.
    + rewrite hash_insert_new by done. cbn. rewrite dom_insert_L. set_solver.
  - intros d' ->. f_equal. apply set_eq. intros x. by rewrite elem_of_list_to_set, elem_of_bits.
Qed.

(** A class found is determined by one of its columns. *)
Lemma found_unique pre s rest cs t p x :
  L2 = pre ++ s :: rest -> found pre s cs t -> x ∈ t -> x ∈ s -> p ∈ L1 -> x ∈ p -> t = s ∩ p.
Proof.
  intros Hl [(s' & p' & Hs' & Hp' & -> & _)|(p' & z & Hp' & -> & _)] [Hx1 Hx2]%elem_of_intersection Hx Hp Hxp.
  - exfalso. rewrite Hl in HL2. apply disjoint_classes_app in HL2 as (_ & _ & H).
    apply (H s' s Hs' ltac:(left) x Hx1 Hx).
  - f_equal. by apply (disjoint_unique L1 p' p x).
Qed.

Lemma found_step pre s cs x p :
  p ∈ L1 -> x ∈ p -> x ∈ s -> forall t, found pre s (cs ++ [x]) t <-> found pre s cs t \/ t = s ∩ p.
Proof.
  intros Hp Hxp Hx t. unfold found. setoid_rewrite elem_of_app. setoid_rewrite list_elem_of_singleton. split.
  - intros [H|(p' & z & Hp' & -> & [Hz| ->] & Hzt)]; [left; by left|left; right; by exists p', z|].
    right. f_equal. apply elem_of_intersection in Hzt as [_ Hzt]. by apply (disjoint_unique L1 p' p x).
  - intros [[H|(p' & z & ? & ? & ? & ?)]| ->]; [by left|right; exists p', z; tauto|].
    right. exists p, x. split; [done|]. split; [done|]. split; [by right|]. by apply elem_of_intersection.
Qed.

Lemma intersect_column_ret pre s rest cs x acc :
  L2 = pre ++ s :: rest -> x ∈ s -> x ∉ cs -> intersected (found pre s cs) acc ->
  intersect_column m s x acc ⤳ intersected (found pre s (cs ++ [x])).
Proof.
  intros Hl Hx Hcs [I1 I2 I3]. destruct acc as [R d]. cbn in I1, I2, I3. unfold intersect_column.
  destruct (m !! x) as [p|] eqn:Ep.
  - apply Hm in Ep as [Hp Hxp]. pose proof (found_step pre s cs x p Hp Hxp Hx) as Hstep. destruct (d !! x) as [y|] eqn:Ed.
    + apply returns_ret. apply elem_of_dom_2, I3 in Ed as (t & Ht & Hxt). split; cbn; [done| |done].
      intros t'. rewrite I2, Hstep. split; [by left|]. intros [H| ->]; [done|].
      rewrite <- (found_unique pre s rest cs t p x); [by apply I2|done|by apply I2|done..].
    + cbn zeta. rewrite (union_empty_l_L s). eapply returns_bind; [apply mark_done|]. intros d' Hd'. apply returns_ret.
      assert (forall t, t ∈ R -> x ∉ t) as Hnx.
      { intros t Ht Hxt. apply not_elem_of_dom in Ed. apply Ed, I3. by exists t. }
      split; cbn.
      * apply disjoint_classes_app. split_and!; [done|repeat constructor|]. intros t u Ht ->%list_elem_of_singleton z Hz Hzu.
        apply elem_of_intersection in Hzu as [Hzs Hzp]. apply (Hnx t Ht).
        rewrite (found_unique pre s rest cs t p z); [by apply elem_of_intersection|done|by apply I2|done..].
      * intros t. rewrite elem_of_app, list_elem_of_singleton, I2, Hstep. done.
      * intros z. rewrite Hd', elem_of_union, I3. setoid_rewrite elem_of_app. setoid_rewrite list_elem_of_singleton.
        clear. naive_solver.
  - apply returns_ret. split; cbn; [done| |done]. intros t. rewrite I2. unfold found.
    setoid_rewrite elem_of_app. setoid_rewrite list_elem_of_singleton. split.
    + intros [H|(p & z & ? & ? & ? & ?)]; [by left|right; exists p, z; tauto].
    + intros [H|(p & z & Hp & -> & [Hz| ->] & Hzt)]; [by left|right; by exists p, z|].
      apply elem_of_intersection in Hzt as [_ Hxp]. assert (m !! x = Some p) by (by apply Hm). congruence.
Qed.

Lemma intersect_loop_ret :
  for_each L2 (fun s acc => for_each (bits s) (intersect_column m s) acc) ([], ∅) ⤳ intersected (common_class L1 L2).
Proof.
  apply (for_each_rule (fun pre => intersected (common_class L1 pre))).
  - split; cbn; [constructor| |set_solver]. intros t. split; [set_solver|]. intros (s & p & Hs & _). set_solver.
  - intros pre s rest acc Hl HI. eapply returns_mono; [apply (for_each_rule (fun cs => intersected (found pre s cs)))|].
    + destruct HI as [H1 H2 H3]. split; [done| |done]. intros t. rewrite H2. unfold found. set_solver.
    + intros cs x rest' acc' Hcs HI'. apply bits_split in Hcs as [Hx Hxc]. by eapply intersect_column_ret.
    + intros acc' [H1 H2 H3]. split; [done| |done]. intros t. rewrite H2. unfold found, common_class. split.
      * intros [(s' & p & ? & ? & ? & ?)|(p & z & Hp & -> & Hz & Hzt)]; [exists s', p; set_solver|exists s, p; set_solver].
      * intros (s' & p & Hs' & Hp & -> & Hne). apply elem_of_app in Hs' as [Hs'|Hs'%list_elem_of_singleton].
        -- left. by exists s', p.
        -- subst s'. right. destruct (set_choose_L _ Hne) as [z Hz]. exists p, z. rewrite elem_of_bits. set_solver.
Qed.
End Intersect.

(** The intersection has the nonempty intersections of the classes. *)
Lemma IntersectEquivClasses_ret L1 L2 :
  disjoint_classes L1 -> disjoint_classes L2 ->
  PdrgpcrsIntersectEquivClasses L1 L2 ⤳ (fun R => disjoint_classes R /\
    (forall t, t ∈ R <-> common_class L1 L2 t) /\ forall x y, same R x y <-> same L1 x y /\ same L2 x y).
Proof.
  intros HL1 HL2. unfold PdrgpcrsIntersectEquivClasses.
  eapply returns_bind; [apply FDisjoint_ret|]. intros d1 Hd1. rewrite bind_assert by (by apply Hd1).
  eapply returns_bind; [apply FDisjoint_ret|]. intros d2 Hd2. rewrite bind_assert by (by apply Hd2).
  assert (forall R, (forall t, t ∈ R <-> common_class L1 L2 t) -> forall x y, same R x y <-> same L1 x y /\ same L2 x y) as Hsame.
  { intros R HR x y. split.
    - intros (t & Ht & Hx & Hy). apply HR in Ht as (s & p & Hs & Hp & -> & _). split; [exists p|exists s]; set_solver.
    - intros [(p & Hp & Hxp & Hyp) (s & Hs & Hxs & Hys)]. exists (s ∩ p). split; [|set_solver].
      apply HR. exists s, p. set_solver. }
  destruct (_ || _) eqn:E.
  - apply returns_ret. assert (forall t, t ∈ [] <-> common_class L1 L2 t) as HR.
    { intros t. split; [set_solver|]. intros (s & p & Hs & Hp & _). apply orb_true_iff in E as [E|E];
        apply bool_decide_eq_true, length_zero_iff_nil in E; subst; set_solver. }
    split; [constructor|]. split; [done|by apply Hsame].
  - eapply returns_bind; [by apply class_map_ret|]. intros m Hm.
    eapply returns_bind; [by apply (intersect_loop_ret L1 L2)|]. intros [R d] [H1 H2 H3]. apply returns_ret. cbn in *.
    split; [done|]. split; [done|by apply Hsame].
Qed.

Lemma disjoint_inj L L' : disjoint_classes L -> disjoint_classes L' -> (forall s, s ∈ L -> s <> ∅) ->
  (forall s, s ∈ L -> s ∈ L') -> length L = length L' -> L ≡ₚ L'.
Proof.
  intros HL HL' Hne Hin Hlen. apply submseteq_length_Permutation; [|lia]. apply NoDup_submseteq; [|done].
  clear -HL Hne. induction L as [|s L IH]; [constructor|]. apply disjoint_classes_cons in HL as [Hs HL]. constructor.
  - intros Hin. specialize (Hs s Hin). destruct (Hne s); set_solver.
  - apply IH; [done|]. set_solver.
Qed.
End EquivClasses.
