(* ===== verification/Range.v ===== *)
(** * Ranges of values (libgpopt/src/base/CRange.cpp)

    A [CRange] is an interval over the datums of one type; a null end point is
    infinite.  The datums and their comparator ([IComparator]) are an interface:
    the class [IComparator] has its operations, [ComparatorLaws] what the range
    code relies on.  Every operation is related to the cuts of the range, the
    places on the line of datums where it starts and ends; results on sets of
    ranges (ConstraintInterval.v) are proved from those. *)
From stdpp Require Import base numbers list.
From S2P Require Import Prelude.

Module Range.

(** [gpopt::IComparator] *)
Class IComparator (D : Type) := {
  IsLessThan : D -> D -> bool;
  Equals : D -> D -> bool;
  IsLessThanOrEqual : D -> D -> bool;
  IsGreaterThan : D -> D -> bool;
  IsGreaterThanOrEqual : D -> D -> bool
}.

(** The comparator orders the datums: [IsLessThan] is a strict weak order and
    the other operations agree with it. *)
Class ComparatorLaws (D : Type) `{IComparator D} : Prop := {
  lt_irrefl : forall a, IsLessThan a a = false;
  lt_trans : forall a b c, IsLessThan a b = true -> IsLessThan b c = true -> IsLessThan a c = true;
  lt_cotrans : forall a b c, IsLessThan a c = true -> IsLessThan a b = true \/ IsLessThan b c = true;
  eq_spec : forall a b, Equals a b = negb (IsLessThan a b) && negb (IsLessThan b a);
  le_spec : forall a b, IsLessThanOrEqual a b = negb (IsLessThan b a);
  gt_spec : forall a b, IsGreaterThan a b = IsLessThan b a;
  ge_spec : forall a b, IsGreaterThanOrEqual a b = negb (IsLessThan a b)
}.

(** [CRange::ERangeInclusion], without the sentinel *)
Inductive ERangeInclusion := EriIncluded | EriExcluded.

#[export] Instance eri_eq_dec : EqDecision ERangeInclusion.
Proof. solve_decision. Defined.

Definition eri_eqb (a b : ERangeInclusion) : bool := bool_decide (a = b).

(** [IMDType::ECmpType] *)
Inductive ECmpType :=
  | EcmptEq | EcmptNEq | EcmptL | EcmptLEq | EcmptG | EcmptGEq | EcmptIDF | EcmptOther.

#[export] Instance cmp_eq_dec : EqDecision ECmpType.
Proof. solve_decision. Defined.

Record CRange (D : Type) := mkRange {
  m_pdatumLeft : option D;
  m_eriLeft : ERangeInclusion;
  m_pdatumRight : option D;
  m_eriRight : ERangeInclusion
}.
Arguments mkRange {D} _ _ _ _.
Arguments m_pdatumLeft {D} _.
Arguments m_eriLeft {D} _.
Arguments m_pdatumRight {D} _.
Arguments m_eriRight {D} _.

Definition is_null {D} (p : option D) : bool :=
  match p with None => true | Some _ => false end.

(** [CRange::EriInverseInclusion] *)
Definition EriInverseInclusion (eri : ERangeInclusion) : ERangeInclusion :=
  if eri_eqb EriIncluded eri then EriExcluded else EriIncluded.

Section Ops.
Context {D : Type} `{IComparator D}.
Implicit Types (this prange : CRange D).

(** [CRange::CRange(mdid, pcomp, left, eriLeft, right, eriRight)] *)
Definition CRange_ctor (l : option D) (el : ERangeInclusion) (r : option D) (er : ERangeInclusion)
    : outcome (CRange D) :=
  _ ← GPOS_ASSERT (match l, r with
                   | Some a, Some b => IsLessThanOrEqual a b
                   | _, _ => true
                   end);
  mret (mkRange l el r er).

(** [CRange::CRange(pcomp, cmp_type, datum)] *)
Definition CRange_cmp (cmp_type : ECmpType) (datum : D) : CRange D :=
  match cmp_type with
  | EcmptEq => mkRange (Some datum) EriIncluded (Some datum) EriIncluded
  | EcmptL => mkRange None EriExcluded (Some datum) EriExcluded
  | EcmptLEq => mkRange None EriExcluded (Some datum) EriIncluded
  | EcmptG => mkRange (Some datum) EriExcluded None EriExcluded
  | EcmptGEq => mkRange (Some datum) EriIncluded None EriExcluded
  | _ => mkRange None EriExcluded None EriExcluded
  end.

(** [CRange::FDisjointLeft] *)
Definition FDisjointLeft this prange : bool :=
  match m_pdatumRight this, m_pdatumLeft prange with
  | Some r, Some l =>
      if IsLessThan r l then true
      else if Equals r l then
        eri_eqb EriExcluded (m_eriRight this) || eri_eqb EriExcluded (m_eriLeft prange)
      else false
  | _, _ => false
  end.

(** [CRange::FStartsBefore] *)
Definition FStartsBefore this prange : outcome bool :=
  match m_pdatumLeft prange with
  | None => mret (is_null (m_pdatumLeft this))
  | Some l' =>
      match m_pdatumLeft this with
      | None => mret true
      | Some l =>
          if IsLessThan l l' then mret true
          else if IsGreaterThan l l' then mret false
          else (_ ← GPOS_ASSERT (Equals l l');
                mret (eri_eqb EriIncluded (m_eriLeft this) && eri_eqb EriExcluded (m_eriLeft prange)))
      end
  end.

(** [CRange::FStartsWithOrBefore] *)
Definition FStartsWithOrBefore this prange : outcome bool :=
  b ← FStartsBefore this prange;
  if (b : bool) then mret true
  else mret match m_pdatumLeft prange, m_pdatumLeft this with
       | None, None => true
       | Some l', Some l => Equals l l' && eri_eqb (m_eriLeft this) (m_eriLeft prange)
       | _, _ => false
       end.

(** [CRange::FEndsAfter] *)
Definition FEndsAfter this prange : outcome bool :=
  match m_pdatumRight prange with
  | None => mret (is_null (m_pdatumRight this))
  | Some r' =>
      match m_pdatumRight this with
      | None => mret true
      | Some r =>
          if IsGreaterThan r r' then mret true
          else if IsLessThan r r' then mret false
          else (_ ← GPOS_ASSERT (Equals r r');
                mret (eri_eqb EriIncluded (m_eriRight this) && eri_eqb EriExcluded (m_eriRight prange)))
      end
  end.

(** [CRange::FEndsWithOrAfter] *)
Definition FEndsWithOrAfter this prange : outcome bool :=
  b ← FEndsAfter this prange;
  if (b : bool) then mret true
  else mret match m_pdatumRight prange, m_pdatumRight this with
       | None, None => true
       | Some r', Some r => Equals r r' && eri_eqb (m_eriRight this) (m_eriRight prange)
       | _, _ => false
       end.

(** [CRange::Contains] *)
Definition Contains this prange : outcome bool :=
  s ← FStartsWithOrBefore this prange;
  if (s : bool) then FEndsWithOrAfter this prange else mret false.

(** [CRange::FOverlapsLeft] *)
Definition FOverlapsLeft this prange : outcome bool :=
  s ← FStartsBefore this prange;
  if (s : bool) then (e ← FEndsAfter this prange;
                      mret (negb e && negb (FDisjointLeft this prange)))
  else mret false.

(** [CRange::FOverlapsRight] *)
Definition FOverlapsRight this prange : outcome bool :=
  e ← FEndsAfter this prange;
  if (e : bool) then (s ← FStartsBefore this prange;
                      mret (negb s && negb (FDisjointLeft prange this)))
  else mret false.

(** [CRange::FUpperBoundEqualsLowerBound] *)
Definition FUpperBoundEqualsLowerBound this prange : bool :=
  match m_pdatumLeft prange, m_pdatumRight this with
  | None, None => true
  | Some l, Some r => Equals r l
  | _, _ => false
  end.

(** [CRange::FPoint] *)
Definition FPoint this : outcome bool :=
  if eri_eqb EriIncluded (m_eriLeft this) && eri_eqb EriIncluded (m_eriRight this)
  then (r ← deref (m_pdatumRight this); l ← deref (m_pdatumLeft this); mret (Equals r l))
  else mret false.

(** [CRange::PrngIntersect]; [None] is the null result *)
Definition PrngIntersect this prange : outcome (option (CRange D)) :=
  c1 ← Contains this prange;
  if (c1 : bool) then mret (Some prange) else
  c2 ← Contains prange this;
  if (c2 : bool) then mret (Some this) else
  ol ← FOverlapsLeft this prange;
  if (ol : bool) then
    (l ← deref (m_pdatumLeft prange);
     r ← deref (m_pdatumRight this);
     Some <$> CRange_ctor (Some l) (m_eriLeft prange) (Some r) (m_eriRight this))
  else
  right_overlap ← FOverlapsRight this prange;
  if (right_overlap : bool) then
    (r ← deref (m_pdatumRight prange);
     l ← deref (m_pdatumLeft this);
     Some <$> CRange_ctor (Some l) (m_eriLeft this) (Some r) (m_eriRight prange))
  else mret None.

(** [CRange::PrngDifferenceLeft] *)
Definition PrngDifferenceLeft this prange : outcome (option (CRange D)) :=
  if FDisjointLeft this prange then mret (Some this) else
  match m_pdatumLeft prange with
  | None => mret None
  | Some l' =>
      s ← FStartsBefore this prange;
      if (s : bool) then
        Some <$> CRange_ctor (m_pdatumLeft this) (m_eriLeft this)
                   (Some l') (EriInverseInclusion (m_eriLeft prange))
      else mret None
  end.

(** [CRange::PrngDifferenceRight] *)
Definition PrngDifferenceRight this prange : outcome (option (CRange D)) :=
  if FDisjointLeft prange this then mret (Some this) else
  match m_pdatumRight prange with
  | None => mret None
  | Some r' =>
      e ← FEndsAfter this prange;
      if (e : bool) then
        Some <$> CRange_ctor (Some r') (EriInverseInclusion (m_eriRight prange))
                   (m_pdatumRight this) (m_eriRight this)
      else mret None
  end.

(** [CRange::PrngExtend] *)
Definition PrngExtend this prange : outcome (option (CRange D)) :=
  c ← (if eri_eqb EriIncluded (m_eriLeft prange) || eri_eqb EriIncluded (m_eriRight this)
       then (l ← deref (m_pdatumLeft prange); r ← deref (m_pdatumRight this); mret (Equals l r))
       else mret false : outcome bool);
  if (c : bool) then
    Some <$> CRange_ctor (m_pdatumLeft this) (m_eriLeft this) (m_pdatumRight prange) (m_eriRight prange)
  else mret None.

(** [CRange::IsConstraintUnbounded] *)
Definition IsConstraintUnbounded this : bool :=
  is_null (m_pdatumLeft this) && is_null (m_pdatumRight this).

End Ops.

(** ** Cuts *)

Inductive cut (D : Type) := CNegInf | CBefore (d : D) | CAfter (d : D) | CPosInf.
Arguments CNegInf {D}.
Arguments CBefore {D} _.
Arguments CAfter {D} _.
Arguments CPosInf {D}.

Section Cuts.
Context {D : Type} `{ComparatorLaws D}.

Definition cleb (a b : cut D) : bool :=
  match a, b with
  | CNegInf, _ => true
  | _, CPosInf => true
  | _, CNegInf => false
  | CPosInf, _ => false
  | CBefore x, CBefore y => negb (IsLessThan y x)
  | CBefore x, CAfter y => negb (IsLessThan y x)
  | CAfter x, CAfter y => negb (IsLessThan y x)
  | CAfter x, CBefore y => IsLessThan x y
  end.

Definition cle (a b : cut D) : Prop := cleb a b = true.

(** Where a range starts and where it ends. *)
Definition lcut (r : CRange D) : cut D :=
  match m_pdatumLeft r, m_eriLeft r with
  | None, _ => CNegInf
  | Some d, EriIncluded => CBefore d
  | Some d, EriExcluded => CAfter d
  end.

Definition rcut (r : CRange D) : cut D :=
  match m_pdatumRight r, m_eriRight r with
  | None, _ => CPosInf
  | Some d, EriIncluded => CAfter d
  | Some d, EriExcluded => CBefore d
  end.

(** The value [v] is in the range. *)
Definition in_range (r : CRange D) (v : D) : bool :=
  match m_pdatumLeft r with
  | None => true
  | Some l => if eri_eqb (m_eriLeft r) EriIncluded then IsLessThanOrEqual l v else IsLessThan l v
  end &&
  match m_pdatumRight r with
  | None => true
  | Some u => if eri_eqb (m_eriRight r) EriIncluded then IsLessThanOrEqual v u else IsLessThan v u
  end.

(** A range is well formed when it starts before it ends and its infinite ends
    are open. *)
Record range_ok (r : CRange D) : Prop := {
  ro_order : cleb (rcut r) (lcut r) = false;
  ro_left : m_pdatumLeft r = None -> m_eriLeft r = EriExcluded;
  ro_right : m_pdatumRight r = None -> m_eriRight r = EriExcluded
}.

Lemma nlt_trans (a b c : D) :
  IsLessThan b a = false -> IsLessThan c b = false -> IsLessThan c a = false.
Proof.
  intros H1 H2. apply not_true_iff_false. intros H3.
  destruct (lt_cotrans c b a H3); congruence.
Qed.

Lemma lt_nlt_trans (a b c : D) :
  IsLessThan a b = true -> IsLessThan c b = false -> IsLessThan a c = true.
Proof. intros H1 H2. destruct (lt_cotrans a c b H1); congruence. Qed.

Lemma nlt_lt_trans (a b c : D) :
  IsLessThan b a = false -> IsLessThan b c = true -> IsLessThan a c = true.
Proof. intros H1 H2. destruct (lt_cotrans b a c H2); congruence. Qed.

Lemma lt_asym (a b : D) : IsLessThan a b = true -> IsLessThan b a = false.
Proof.
  intros H1. apply not_true_iff_false. intros H2.
  pose proof (lt_trans a b a H1 H2) as H3. by rewrite lt_irrefl in H3.
Qed.

Lemma cle_refl c : cle c c.
Proof. unfold cle. destruct c; simpl; rewrite ?lt_irrefl; done. Qed.

Lemma cle_total a b : cle a b \/ cle b a.
Proof.
  unfold cle. destruct a as [|x|x|], b as [|y|y|]; simpl; auto;
    destruct (IsLessThan x y) eqn:E1, (IsLessThan y x) eqn:E2; auto;
    by rewrite (lt_asym _ _ E1) in E2.
Qed.

Lemma cle_trans a b c : cle a b -> cle b c -> cle a c.
Proof.
  unfold cle. destruct a as [|x|x|], b as [|y|y|], c as [|z|z|]; simpl; auto; try done;
    rewrite ?negb_true_iff; intros H1 H2;
    first [ exact (nlt_trans _ _ _ H1 H2) | exact (lt_trans _ _ _ H1 H2)
          | exact (lt_nlt_trans _ _ _ H1 H2) | exact (nlt_lt_trans _ _ _ H1 H2)
          | apply lt_asym; first [ exact (nlt_lt_trans _ _ _ H1 H2) | exact (lt_nlt_trans _ _ _ H1 H2)] ].
Qed.

Lemma cnle a b : cleb a b = false <-> ~ cle a b.
Proof. unfold cle. by rewrite not_true_iff_false. Qed.

Lemma cnle_le a b : ~ cle a b -> cle b a.
Proof. intros Hn. destruct (cle_total a b); done. Qed.

(** A value separates the cuts into those at its left and those at its right. *)
Definition left_of (c : cut D) (v : D) : Prop := cle c (CBefore v).

Lemma left_of_mono c c' v : cle c c' -> left_of c' v -> left_of c v.
Proof. unfold left_of. apply cle_trans. Qed.

Lemma right_of c v : ~ left_of c v <-> cle (CAfter v) c.
Proof.
  unfold left_of, cle. destruct c as [|x|x|]; simpl; try (split; done);
    destruct (IsLessThan x v) eqn:E1, (IsLessThan v x) eqn:E2; simpl; try (split; done);
    by rewrite (lt_asym _ _ E1) in E2.
Qed.

Lemma in_range_cuts r v : in_range r v = true <-> left_of (lcut r) v /\ ~ left_of (rcut r) v.
Proof.
  rewrite right_of. unfold in_range, left_of, cle, lcut, rcut. rewrite andb_true_iff.
  destruct (m_pdatumLeft r) as [l|], (m_eriLeft r), (m_pdatumRight r) as [u|], (m_eriRight r);
    simpl; rewrite ?le_spec; tauto.
Qed.

End Cuts.

(** ** Automation *)

(** Case split on the order of two datums that keeps both comparisons. *)
Ltac three_way a b :=
  let E1 := fresh "E" in let E2 := fresh "E" in
  destruct (IsLessThan a b) eqn:E1, (IsLessThan b a) eqn:E2;
  [ exfalso; rewrite (lt_asym _ _ E1) in E2; done | | | ].

(** [cut_order] closes a goal that follows from the order of the cuts in the
    context: it turns [~ cle a b] into [cle b a] and closes under transitivity. *)
Ltac cut_fact P :=
  lazymatch goal with
  | _ : P |- _ => fail
  | _ => idtac
  end.

Ltac cut_saturate :=
  unfold left_of in *;
  repeat match goal with
  | H : cleb _ _ = false |- _ => apply cnle in H
  | H : ~ cle ?a ?b |- _ => cut_fact (cle b a); pose proof (cnle_le _ _ H)
  | H1 : cle ?a ?b, H2 : cle ?b ?c |- _ =>
      cut_fact (cle a c); pose proof (cle_trans _ _ _ H1 H2)
  end.

Ltac cut_order :=
  first
    [ (match goal with
       | |- cleb _ _ = false => apply cnle
       | _ => idtac
       end);
      (match goal with
       | |- ~ _ => intro
       | |- cle ?a ?b => destruct (cleb a b) eqn:?; [assumption|exfalso]
       | |- left_of ?a ?v => unfold left_of; destruct (cleb a (CBefore v)) eqn:?; [assumption|exfalso]
       | _ => idtac
       end);
      cut_saturate; solve [contradiction | assumption] ].

Section RangeOps.
Context {D : Type} `{ComparatorLaws D}.
Implicit Types (r s t : CRange D).

(** ** The comparisons of ranges are comparisons of cuts *)

Lemma eq_lt (a b : D) : Equals a b = true -> IsLessThan a b = false /\ IsLessThan b a = false.
Proof. rewrite eq_spec, andb_true_iff, !negb_true_iff. done. Qed.

Lemma FDisjointLeft_cut r s : FDisjointLeft r s = true <-> cle (rcut r) (lcut s).
Proof.
  unfold FDisjointLeft, rcut, lcut, cle.
  destruct (m_pdatumRight r) as [b|], (m_pdatumLeft s) as [a|], (m_eriRight r), (m_eriLeft s);
    simpl; try done; rewrite eq_spec; three_way a b; simpl; done.
Qed.

(** [b] tells whether [r] starts before [s]; two infinite starts count. *)
Definition starts_before (r s : CRange D) : Prop :=
  ~ cle (lcut s) (lcut r) \/ (m_pdatumLeft r = None /\ m_pdatumLeft s = None).

Definition ends_after (r s : CRange D) : Prop :=
  ~ cle (rcut r) (rcut s) \/ (m_pdatumRight r = None /\ m_pdatumRight s = None).

Lemma FStartsBefore_cut r s :
  exists b, FStartsBefore r s = Ret b /\ (b = true <-> starts_before r s).
Proof.
  unfold FStartsBefore, starts_before, lcut, cle.
  destruct (m_pdatumLeft r) as [a|] eqn:Er, (m_pdatumLeft s) as [b|] eqn:Es, (m_eriLeft r), (m_eriLeft s);
    simpl; rewrite ?eq_spec, ?gt_spec; try three_way a b; simpl;
    eexists; split; try reflexivity; naive_solver.
Qed.

Lemma FEndsAfter_cut r s :
  exists b, FEndsAfter r s = Ret b /\ (b = true <-> ends_after r s).
Proof.
  unfold FEndsAfter, ends_after, rcut, cle.
  destruct (m_pdatumRight r) as [a|] eqn:Er, (m_pdatumRight s) as [b|] eqn:Es, (m_eriRight r), (m_eriRight s);
    simpl; rewrite ?eq_spec, ?gt_spec; try three_way a b; simpl;
    eexists; split; try reflexivity; naive_solver.
Qed.

Lemma FStartsWithOrBefore_cut r s :
  exists b, FStartsWithOrBefore r s = Ret b /\ (b = true <-> cle (lcut r) (lcut s)).
Proof.
  unfold FStartsWithOrBefore, FStartsBefore, lcut, cle.
  destruct (m_pdatumLeft r) as [a|] eqn:Er, (m_pdatumLeft s) as [b|] eqn:Es, (m_eriLeft r), (m_eriLeft s);
    simpl; rewrite ?eq_spec, ?gt_spec; try three_way a b; simpl;
    eexists; split; try reflexivity; naive_solver.
Qed.

Lemma FEndsWithOrAfter_cut r s :
  exists b, FEndsWithOrAfter r s = Ret b /\ (b = true <-> cle (rcut s) (rcut r)).
Proof.
  unfold FEndsWithOrAfter, FEndsAfter, rcut, cle.
  destruct (m_pdatumRight r) as [a|] eqn:Er, (m_pdatumRight s) as [b|] eqn:Es, (m_eriRight r), (m_eriRight s);
    simpl; rewrite ?eq_spec, ?gt_spec; try three_way a b; simpl;
    eexists; split; try reflexivity; naive_solver.
Qed.

Lemma Contains_cut r s :
  exists b, Contains r s = Ret b /\
    (b = true <-> cle (lcut r) (lcut s) /\ cle (rcut s) (rcut r)).
Proof.
  unfold Contains. destruct (FStartsWithOrBefore_cut r s) as (b1 & -> & H1).
  destruct (FEndsWithOrAfter_cut r s) as (b2 & E2 & H2). simpl. destruct b1.
  - rewrite E2. exists b2. split; [done|]. rewrite H2. tauto.
  - exists false. split; [done|]. rewrite <- H1. split; [done|]. by intros [].
Qed.

(** The constructor's assertion holds when the range is not empty. *)
Lemma CRange_ctor_ok (dl dr : option D) el er :
  range_ok (mkRange dl el dr er) -> CRange_ctor dl el dr er = Ret (mkRange dl el dr er).
Proof.
  intros [Ho _ _]. unfold CRange_ctor. rewrite bind_assert; [done|].
  unfold lcut, rcut in Ho. simpl in Ho. destruct dl as [a|], dr as [b|]; try done.
  rewrite le_spec. destruct el, er; simpl in Ho; three_way a b; done.
Qed.

Lemma inverse_right s l :
  m_pdatumLeft s = Some l ->
  forall l0 e0, rcut (mkRange l0 e0 (Some l) (EriInverseInclusion (m_eriLeft s))) = lcut s.
Proof. intros E l0 e0. unfold rcut, lcut. rewrite E. simpl. by destruct (m_eriLeft s). Qed.

Lemma inverse_left s d :
  m_pdatumRight s = Some d ->
  forall o0 e0, lcut (mkRange (Some d) (EriInverseInclusion (m_eriRight s)) o0 e0) = rcut s.
Proof. intros E o0 e0. unfold rcut, lcut. rewrite E. simpl. by destruct (m_eriRight s). Qed.

Lemma lcut_null r : m_pdatumLeft r = None <-> lcut r = CNegInf.
Proof. unfold lcut. destruct (m_pdatumLeft r), (m_eriLeft r); split; done. Qed.

Lemma rcut_null r : m_pdatumRight r = None <-> rcut r = CPosInf.
Proof. unfold rcut. destruct (m_pdatumRight r), (m_eriRight r); split; done. Qed.

Lemma cle_neginf c : cle CNegInf c.
Proof. done. Qed.

Lemma cle_posinf c : cle c CPosInf.
Proof. unfold cle. by destruct c. Qed.

Lemma left_of_pos (v : D) : ~ left_of CPosInf v.
Proof. done. Qed.

Lemma lcut_not_pos r : ~ cle CPosInf (lcut r).
Proof. unfold lcut, cle. by destruct (m_pdatumLeft r), (m_eriLeft r). Qed.

Lemma rcut_not_neg r : ~ cle (rcut r) CNegInf.
Proof. unfold rcut, cle. by destruct (m_pdatumRight r), (m_eriRight r). Qed.

Lemma ends_after_strict r s : ~ cle (rcut r) (rcut s) -> ends_after r s.
Proof. by left. Qed.

Lemma finite_left r c : ~ cle (lcut r) c -> exists l, m_pdatumLeft r = Some l.
Proof. intros Hn. destruct (m_pdatumLeft r) eqn:E; [eauto|]. apply lcut_null in E. by rewrite E in Hn. Qed.

Lemma finite_right r c : ~ cle c (rcut r) -> exists d, m_pdatumRight r = Some d.
Proof.
  intros Hn. destruct (m_pdatumRight r) eqn:E; [eauto|]. apply rcut_null in E. rewrite E in Hn.
  destruct Hn. apply cle_posinf.
Qed.

Lemma not_starts_before r s : ~ cle (lcut r) (lcut s) -> ~ starts_before r s.
Proof.
  intros Hn [Hs|[E1 E2]]; [cut_order|]. apply lcut_null in E1. by rewrite E1 in Hn.
Qed.

Lemma not_ends_after r s : ~ cle (rcut s) (rcut r) -> ~ ends_after r s.
Proof.
  intros Hn [Hs|[E1 E2]]; [cut_order|]. apply rcut_null in E1. rewrite E1 in Hn. by destruct Hn; apply cle_posinf.
Qed.

Lemma FOverlapsLeft_cut r s :
  ~ cle (rcut s) (rcut r) -> ~ cle (lcut s) (lcut r) ->
  exists b, FOverlapsLeft r s = Ret b /\ (b = true <-> ~ cle (rcut r) (lcut s)).
Proof.
  intros Hr Hl. unfold FOverlapsLeft.
  destruct (FStartsBefore_cut r s) as (b1 & -> & H1). destruct (FEndsAfter_cut r s) as (b2 & E2 & H2).
  assert (b1 = true) as -> by (apply H1; by left).
  assert (b2 = false) as -> by (apply not_true_iff_false; rewrite H2; by apply not_ends_after).
  simpl. rewrite E2. simpl. eexists; split; [done|].
  rewrite negb_true_iff, <- not_true_iff_false. by rewrite FDisjointLeft_cut.
Qed.

Lemma FOverlapsLeft_false r s :
  ~ cle (lcut r) (lcut s) -> FOverlapsLeft r s = Ret false.
Proof.
  intros Hl. unfold FOverlapsLeft. destruct (FStartsBefore_cut r s) as (b1 & -> & H1).
  assert (b1 = false) as -> by (apply not_true_iff_false; rewrite H1; by apply not_starts_before). done.
Qed.

Lemma FOverlapsRight_cut r s :
  ~ cle (rcut r) (rcut s) -> ~ cle (lcut r) (lcut s) ->
  exists b, FOverlapsRight r s = Ret b /\ (b = true <-> ~ cle (rcut s) (lcut r)).
Proof.
  intros Hr Hl. unfold FOverlapsRight.
  destruct (FStartsBefore_cut r s) as (b1 & E1 & H1). destruct (FEndsAfter_cut r s) as (b2 & -> & H2).
  assert (b2 = true) as -> by (apply H2; by left).
  assert (b1 = false) as -> by (apply not_true_iff_false; rewrite H1; by apply not_starts_before).
  simpl. rewrite E1. simpl. eexists; split; [done|].
  rewrite negb_true_iff, <- not_true_iff_false. by rewrite FDisjointLeft_cut.
Qed.

Lemma FOverlapsRight_false r s :
  ~ cle (rcut s) (rcut r) -> FOverlapsRight r s = Ret false.
Proof.
  intros Hl. unfold FOverlapsRight. destruct (FEndsAfter_cut r s) as (b1 & -> & H1).
  assert (b1 = false) as -> by (apply not_true_iff_false; rewrite H1; by apply not_ends_after). done.
Qed.

(** [t] is the overlap of [r] and [s]: it starts at the later start and ends at
    the earlier end. *)
Definition overlap r s t : Prop :=
  range_ok t /\
  ((lcut t = lcut r /\ cle (lcut s) (lcut r)) \/ (lcut t = lcut s /\ cle (lcut r) (lcut s))) /\
  ((rcut t = rcut r /\ cle (rcut r) (rcut s)) \/ (rcut t = rcut s /\ cle (rcut s) (rcut r))).

Lemma cle_dec (a b : cut D) : {cle a b} + {~ cle a b}.
Proof. unfold cle. destruct (cleb a b); [by left|right; congruence]. Defined.

Lemma PrngIntersect_cut r s :
  range_ok r -> range_ok s ->
  exists o, PrngIntersect r s = Ret o /\
    match o with
    | Some t => overlap r s t
    | None => cle (rcut r) (lcut s) \/ cle (rcut s) (lcut r)
    end.
Proof.
  intros Hr Hs. unfold PrngIntersect.
  destruct (Contains_cut r s) as (c1 & -> & H1), (Contains_cut s r) as (c2 & -> & H2).
  simpl. destruct c1.
  { exists (Some s). split; [done|]. destruct (proj1 H1 eq_refl). unfold overlap. tauto. }
  destruct c2.
  { exists (Some r). split; [done|]. destruct (proj1 H2 eq_refl). unfold overlap. tauto. }
  assert (Hcase : (~ cle (lcut s) (lcut r) /\ ~ cle (rcut s) (rcut r)) \/
                  (~ cle (lcut r) (lcut s) /\ ~ cle (rcut r) (rcut s))).
  { destruct (cle_dec (lcut r) (lcut s)), (cle_dec (rcut s) (rcut r)), (cle_dec (lcut s) (lcut r)),
      (cle_dec (rcut r) (rcut s)); try tauto; exfalso;
      first [ assert (false = true) by (apply H1; split; cut_order); done
            | assert (false = true) by (apply H2; split; cut_order); done ]. }
  destruct Hcase as [[Hl Hrr]|[Hl Hrr]].
  - destruct (FOverlapsLeft_cut r s Hrr Hl) as (b & -> & Hb). simpl. destruct b.
    + destruct (finite_left s _ Hl) as [l El]. destruct (finite_right r _ Hrr) as [d Ed].
      rewrite El, Ed. simpl. apply proj1 in Hb. specialize (Hb eq_refl).
      set (t := mkRange (Some l) (m_eriLeft s) (Some d) (m_eriRight r)).
      assert (El' : lcut t = lcut s) by (unfold lcut; by rewrite El).
      assert (Er' : rcut t = rcut r) by (unfold rcut; by rewrite Ed).
      assert (range_ok t) by (split; [rewrite El', Er'; cut_order|done..]).
      rewrite CRange_ctor_ok by done. exists (Some t). split; [done|].
      split_and!; [done|right; split; [done|cut_order]|left; split; [done|cut_order]].
    + rewrite FOverlapsRight_false by done. exists None. split; [done|]. left.
      destruct (cle_dec (rcut r) (lcut s)) as [|Hn]; [done|]. apply Hb in Hn. done.
  - rewrite FOverlapsLeft_false by done. simpl.
    destruct (FOverlapsRight_cut r s Hrr Hl) as (b & -> & Hb). simpl. destruct b.
    + destruct (finite_left r _ Hl) as [l El]. destruct (finite_right s _ Hrr) as [d Ed].
      rewrite El, Ed. simpl. apply proj1 in Hb. specialize (Hb eq_refl).
      set (t := mkRange (Some l) (m_eriLeft r) (Some d) (m_eriRight s)).
      assert (El' : lcut t = lcut r) by (unfold lcut; by rewrite El).
      assert (Er' : rcut t = rcut s) by (unfold rcut; by rewrite Ed).
      assert (range_ok t) by (split; [rewrite El', Er'; cut_order|done..]).
      rewrite CRange_ctor_ok by done. exists (Some t). split; [done|].
      split_and!; [done|left; split; [done|cut_order]|right; split; [done|cut_order]].
    + exists None. split; [done|]. right.
      destruct (cle_dec (rcut s) (lcut r)) as [|Hn]; [done|]. apply Hb in Hn. done.
Qed.

(** [t] is the part of [r] before the start of [s]. *)
Definition left_part r s t : Prop :=
  range_ok t /\ lcut t = lcut r /\
  ((rcut t = rcut r /\ cle (rcut r) (lcut s)) \/ (rcut t = lcut s /\ cle (lcut s) (rcut r))).

(** [t] is the part of [r] after the end of [s]. *)
Definition right_part r s t : Prop :=
  range_ok t /\ rcut t = rcut r /\
  ((lcut t = lcut r /\ cle (rcut s) (lcut r)) \/ (lcut t = rcut s /\ cle (lcut r) (rcut s))).

Lemma PrngDifferenceLeft_cut r s :
  range_ok r -> range_ok s ->
  exists o, PrngDifferenceLeft r s = Ret o /\
    match o with
    | Some t => left_part r s t
    | None => cle (lcut s) (lcut r)
    end.
Proof.
  intros Hr Hs. unfold PrngDifferenceLeft. destruct (FDisjointLeft r s) eqn:Ed.
  { exists (Some r). split; [done|]. apply FDisjointLeft_cut in Ed. unfold left_part. tauto. }
  apply not_true_iff_false in Ed. rewrite FDisjointLeft_cut in Ed.
  destruct (m_pdatumLeft s) as [l|] eqn:El.
  2:{ exists None. split; [done|]. apply lcut_null in El. by rewrite El. }
  destruct (FStartsBefore_cut r s) as (b & -> & Hb). simpl. destruct b.
  - destruct (proj1 Hb eq_refl) as [Hlt|[_ E]]; [|congruence].
    set (t := mkRange (m_pdatumLeft r) (m_eriLeft r) (Some l) (EriInverseInclusion (m_eriLeft s))).
    assert (El' : lcut t = lcut r) by done.
    assert (Er' : rcut t = lcut s) by (by apply inverse_right).
    assert (range_ok t) by (split; [rewrite El', Er'; cut_order|apply Hr|done]).
    rewrite CRange_ctor_ok by done. exists (Some t). split; [done|].
    split_and!; [done..|right; split; [done|cut_order]].
  - exists None. split; [done|]. destruct (cle_dec (lcut s) (lcut r)) as [|Hn]; [done|].
    assert (false = true) by (apply Hb; by left). done.
Qed.

Lemma PrngDifferenceRight_cut r s :
  range_ok r -> range_ok s ->
  exists o, PrngDifferenceRight r s = Ret o /\
    match o with
    | Some t => right_part r s t
    | None => cle (rcut r) (rcut s)
    end.
Proof.
  intros Hr Hs. unfold PrngDifferenceRight. destruct (FDisjointLeft s r) eqn:Ed.
  { exists (Some r). split; [done|]. apply FDisjointLeft_cut in Ed. unfold right_part. tauto. }
  apply not_true_iff_false in Ed. rewrite FDisjointLeft_cut in Ed.
  destruct (m_pdatumRight s) as [d|] eqn:El.
  2:{ exists None. split; [done|]. apply rcut_null in El. rewrite El. apply cle_posinf. }
  destruct (FEndsAfter_cut r s) as (b & -> & Hb). simpl. destruct b.
  - destruct (proj1 Hb eq_refl) as [Hlt|[_ E]]; [|congruence].
    set (t := mkRange (Some d) (EriInverseInclusion (m_eriRight s)) (m_pdatumRight r) (m_eriRight r)).
    assert (El' : rcut t = rcut r) by done.
    assert (Er' : lcut t = rcut s) by (by apply inverse_left).
    assert (range_ok t) by (split; [rewrite El', Er'; cut_order|done|apply Hr]).
    rewrite CRange_ctor_ok by done. exists (Some t). split; [done|].
    split_and!; [done..|right; split; [done|cut_order]].
  - exists None. split; [done|]. destruct (cle_dec (rcut r) (rcut s)) as [|Hn]; [done|].
    assert (false = true) by (apply Hb; by left). done.
Qed.

(** Two ranges in order are merged exactly when nothing lies between them. *)
Lemma PrngExtend_cut r s :
  range_ok r -> range_ok s -> cle (rcut r) (lcut s) ->
  exists o, PrngExtend r s = Ret o /\
    match o with
    | Some t => range_ok t /\ lcut t = lcut r /\ rcut t = rcut s /\ cle (lcut s) (rcut r)
    | None => ~ cle (lcut s) (rcut r)
    end.
Proof.
  intros Hr Hs Hle.
  set (t := mkRange (m_pdatumLeft r) (m_eriLeft r) (m_pdatumRight s) (m_eriRight s)).
  assert (Hok : range_ok t).
  { pose proof (ro_order _ Hr). pose proof (ro_order _ Hs). split; [|apply Hr|apply Hs].
    assert (El : lcut t = lcut r) by done. assert (Er : rcut t = rcut s) by done. rewrite El, Er. cut_order. }
  assert (Hd : exists a b, m_pdatumLeft s = Some a /\ m_pdatumRight r = Some b).
  { destruct (m_pdatumLeft s) as [a|] eqn:Ea; [|apply lcut_null in Ea; rewrite Ea in Hle; by destruct (rcut_not_neg r)].
    destruct (m_pdatumRight r) as [b|] eqn:Eb; [by exists a, b|].
    apply rcut_null in Eb. rewrite Eb in Hle. by destruct (lcut_not_pos s). }
  destruct Hd as (a & b & Ea & Eb). unfold PrngExtend. rewrite Ea, Eb.
  assert (Hc : exists c, (if eri_eqb EriIncluded (m_eriLeft s) || eri_eqb EriIncluded (m_eriRight r)
       then (l ← deref (Some a); d ← deref (Some b); mret (Equals l d))
       else mret false : outcome bool) = Ret c /\ (c = true <-> cle (lcut s) (rcut r))).
  { unfold lcut, rcut, cle in *. rewrite Ea, Eb in *.
    destruct (m_eriLeft s), (m_eriRight r); simpl in *; rewrite ?eq_spec; three_way a b; simpl;
      solve [done | eexists; done]. }
  destruct Hc as ([] & -> & Hc); simpl.
  - rewrite CRange_ctor_ok by done. exists (Some t). split; [done|]. split_and!; [done..|]. by apply Hc.
  - exists None. split; [done|]. by rewrite <- Hc.
Qed.

(** ** What the operations mean for single values *)

Lemma overlap_in r s t v : overlap r s t ->
  in_range t v = true <-> in_range r v = true /\ in_range s v = true.
Proof.
  intros (_ & Hl & Hr). rewrite !in_range_cuts.
  destruct Hl as [[-> ?]|[-> ?]], Hr as [[-> ?]|[-> ?]]; split;
    intros; destruct_and?; split_and?; cut_order.
Qed.

Lemma disjoint_in r s v : cle (rcut r) (lcut s) -> in_range r v = true -> in_range s v = false.
Proof.
  intros Hle. rewrite <- not_true_iff_false, !in_range_cuts. intros [H1 H2] [H3 H4]. cut_order.
Qed.

Lemma left_part_in r s t v : left_part r s t ->
  in_range t v = true <-> in_range r v = true /\ ~ left_of (lcut s) v.
Proof.
  intros (_ & Hl & Hr). rewrite !in_range_cuts, Hl.
  destruct Hr as [[-> ?]|[-> ?]]; split; intros; destruct_and?; split_and?; cut_order.
Qed.

Lemma right_part_in r s t v : right_part r s t ->
  in_range t v = true <-> in_range r v = true /\ left_of (rcut s) v.
Proof.
  intros (_ & Hr & Hl). rewrite !in_range_cuts, Hr.
  destruct Hl as [[-> ?]|[-> ?]]; split; intros; destruct_and?; split_and?; cut_order.
Qed.

End RangeOps.

End Range.
