(* ===== verification/ConstraintInterval.v ===== *)
(** * Intervals of column values (libgpopt/src/base/CConstraintInterval.cpp)

    A [CConstraintInterval] is the set of values a column may take: an ordered
    array of ranges and a flag for NULL.  This file models the column data the
    code reads, the construction of intervals from one comparison and the set
    operations, and proves that the operations compute union, intersection,
    difference, complement and inclusion of the sets of values. *)
From stdpp Require Import base numbers list sets sorting.
From S2P Require Import Prelude Range.

Module ConstraintInterval.
Import Range.

(** ** Columns and their types *)

(** [IMDType::ETypeInfo] *)
Inductive ETypeInfo := EtiInt2 | EtiInt4 | EtiInt8 | EtiBool | EtiOid | EtiGeneric.

#[export] Instance eti_eq_dec : EqDecision ETypeInfo.
Proof. solve_decision. Defined.

(** The types [CUtils::FConstrainableType] names by their metadata id. *)
Inductive mdid_name :=
  | mdid_date | mdid_bool | mdid_time | mdid_timestamp | mdid_timeTz | mdid_timestampTz
  | mdid_float4 | mdid_float8 | mdid_numeric | mdid_other.

#[export] Instance mdid_eq_dec : EqDecision mdid_name.
Proof. solve_decision. Defined.

(** What the code reads of an [IMDType]: its type class, its id, which default
    comparison operators it has, and whether it has an array type. *)
Record IMDType := mkType {
  GetDatumType : ETypeInfo;
  MDId : mdid_name;
  has_cmp : ECmpType -> bool;
  has_array_type : bool
}.

(** The trace flags the interval code tests. *)
Record TraceFlags := mkFlags {
  EopttraceEnableConstantExpressionEvaluation : bool;
  EopttraceArrayConstraints : bool;
  EopttraceConsiderOpfamiliesForDistribution : bool
}.

Record CColRef := mkCol { m_id : N; RetrieveType : IMDType }.

(** Column references are compared as pointers; a column factory makes one
    object per id. *)
Definition same_col (a b : CColRef) : bool := (m_id a =? m_id b)%N.

(** [CUtils::FIntType] *)
Definition FIntType (t : IMDType) : bool :=
  match GetDatumType t with EtiInt2 | EtiInt4 | EtiInt8 => true | _ => false end.

(** [CUtils::FHasAllDefaultComparisons] *)
Definition FHasAllDefaultComparisons (t : IMDType) : bool :=
  has_cmp t EcmptEq && has_cmp t EcmptNEq && has_cmp t EcmptL &&
  has_cmp t EcmptLEq && has_cmp t EcmptG && has_cmp t EcmptGEq.

(** [CUtils::FConstrainableType] *)
Definition FConstrainableType (tf : TraceFlags) (t : IMDType) : bool :=
  if FIntType t then true
  else if EopttraceEnableConstantExpressionEvaluation tf then FHasAllDefaultComparisons t
  else match MDId t with mdid_other => false | _ => true end.

(** What the interval code uses of a datum besides its comparator:
    [IDatum::IsNull], [IMDTypeBool::CreateBoolDatum(mp, b, false)] and, for a
    datum of type [EtiBool], [IDatumBool::GetValue] ([None] for other types). *)
Class IDatum (D : Type) := {
  IsNull : D -> bool;
  CreateBoolDatum : bool -> D;
  bool_value : D -> option bool
}.

(** What the code relies on: the boolean datums are not null, in order, and hold
    their value. *)
Class DatumLaws (D : Type) `{IComparator D} `{IDatum D} : Prop := {
  bool_not_null : forall b, IsNull (CreateBoolDatum b) = false;
  bool_get : forall b, bool_value (CreateBoolDatum b) = Some b;
  bool_order : IsLessThan (CreateBoolDatum false) (CreateBoolDatum true) = true
}.

Record CConstraintInterval (D : Type) := mkCI {
  m_pcr : CColRef;
  m_pdrgprng : list (CRange D);
  m_fIncludesNull : bool
}.
Arguments mkCI {D} _ _ _.
Arguments m_pcr {D} _.
Arguments m_pdrgprng {D} _.
Arguments m_fIncludesNull {D} _.

Section Ops.
Context {D : Type} `{IComparator D} `{IDatum D}.
Implicit Types (this pci : CConstraintInterval D) (r s : CRange D).

Definition is_bool_col (c : CColRef) : bool := bool_decide (GetDatumType (RetrieveType c) = EtiBool).

(** [CConstraintInterval::FContradiction] *)
Definition FContradiction this : bool :=
  if negb (m_fIncludesNull this) && bool_decide (length (m_pdrgprng this) = 0) then true
  else if is_bool_col (m_pcr this) && bool_decide (length (m_pdrgprng this) = 1)
          && negb (m_fIncludesNull this)
  then match m_pdrgprng this with
       | r :: _ =>
           eri_eqb (m_eriLeft r) EriExcluded && eri_eqb (m_eriRight r) EriExcluded
           && negb (is_null (m_pdatumLeft r)) && negb (is_null (m_pdatumRight r))
       | [] => false
       end
  else false.

(** [CConstraintInterval::IsConstraintUnbounded] *)
Definition IsConstraintUnbounded this : bool :=
  m_fIncludesNull this &&
  match m_pdrgprng this with [r] => Range.IsConstraintUnbounded r | _ => false end.

(** [CConstraintInterval::AppendOrExtend] *)
Definition AppendOrExtend (pdrgprng : list (CRange D)) (prange : option (CRange D))
    : outcome (list (CRange D)) :=
  match prange with
  | None => mret pdrgprng
  | Some r =>
      match last pdrgprng with
      | None => mret (pdrgprng ++ [r])
      | Some prangeLast =>
          prangeNew ← PrngExtend prangeLast r;
          match prangeNew with
          | None => mret (pdrgprng ++ [r])
          | Some n => mret (<[length pdrgprng - 1 := n]> pdrgprng)
          end
      end
  end.

(** [CConstraintInterval::AddRemainingRanges]; [src] holds the ranges from the
    start index on. *)
Fixpoint AddRemainingRanges (src dest : list (CRange D)) : outcome (list (CRange D)) :=
  match src with
  | [] => mret dest
  | prange :: src' => (dest' ← AppendOrExtend dest (Some prange); AddRemainingRanges src' dest')
  end.

Definition append_opt (l : list (CRange D)) (o : option (CRange D)) : list (CRange D) :=
  match o with Some r => l ++ [r] | None => l end.

(** The loop of [PciIntersect]; the arguments hold the ranges from [ulFst] and
    from [ulSnd] on. *)
Fixpoint intersect_loop (fst : list (CRange D)) : list (CRange D) -> list (CRange D) ->
    outcome (list (CRange D)) :=
  fix go snd acc :=
    match fst, snd with
    | prangeThis :: fst', prangeOther :: snd' =>
        ends ← FEndsAfter prangeOther prangeThis;
        if (ends : bool) then
          (prangeNew ← PrngIntersect prangeThis prangeOther;
           intersect_loop fst' snd (append_opt acc prangeNew))
        else
          (prangeNew ← PrngIntersect prangeOther prangeThis;
           go snd' (append_opt acc prangeNew))
    | _, _ => mret acc
    end.

(** [CConstraintInterval::PciIntersect] *)
Definition PciIntersect this pci : outcome (CConstraintInterval D) :=
  _ ← GPOS_ASSERT (same_col (m_pcr this) (m_pcr pci));
  pdrgprngNew ← intersect_loop (m_pdrgprng this) (m_pdrgprng pci) [];
  mret (mkCI (m_pcr this) pdrgprngNew (m_fIncludesNull this && m_fIncludesNull pci)).

(** The loop of [PciUnion] and the two calls of [AddRemainingRanges] after it *)
Fixpoint union_loop (fst : list (CRange D)) : list (CRange D) -> list (CRange D) ->
    outcome (list (CRange D)) :=
  fix go snd acc :=
    match fst, snd with
    | prangeThis :: fst', prangeOther :: snd' =>
        ends ← FEndsAfter prangeOther prangeThis;
        if (ends : bool) then
          (prangeNew ← PrngDifferenceLeft prangeThis prangeOther;
           acc' ← AppendOrExtend acc prangeNew;
           union_loop fst' snd acc')
        else
          (prangeNew ← PrngDifferenceLeft prangeOther prangeThis;
           acc' ← AppendOrExtend acc prangeNew;
           go snd' acc')
    | _, _ =>
        acc' ← AddRemainingRanges fst acc;
        AddRemainingRanges snd acc'
    end.

(** [CConstraintInterval::PciUnion] *)
Definition PciUnion this pci : outcome (CConstraintInterval D) :=
  _ ← GPOS_ASSERT (same_col (m_pcr this) (m_pcr pci));
  pdrgprngNew ← union_loop (m_pdrgprng this) (m_pdrgprng pci) [];
  mret (mkCI (m_pcr this) pdrgprngNew (m_fIncludesNull this || m_fIncludesNull pci)).

(** [CConstraintInterval::PrangeDiffWithRightResidual]: the range to the left of
    [prangeSecond] and the residual to its right *)
Definition PrangeDiffWithRightResidual (prangeFirst prangeSecond : CRange D)
    : outcome (option (CRange D) * option (CRange D)) :=
  if FDisjointLeft prangeSecond prangeFirst then mret (None, None) else
  c ← Contains prangeFirst prangeSecond;
  prangeRet ← (if (c : bool) then PrngDifferenceLeft prangeFirst prangeSecond else mret None);
  residual ← PrngDifferenceRight prangeFirst prangeSecond;
  mret (prangeRet, residual).

(** The loop of [PciDifference] with the code after it: the residual of the last
    iteration and the remaining ranges are added. *)
Fixpoint difference_loop (fst : list (CRange D)) : list (CRange D) -> option (CRange D) ->
    list (CRange D) -> outcome (list (CRange D)) :=
  fix go snd residual acc :=
    match fst, snd with
    | r :: fst', prangeOther :: snd' =>
        let prangeThis := default r residual in
        ends ← FEndsWithOrAfter prangeOther prangeThis;
        if (ends : bool) then
          (prangeNew ← PrngDifferenceLeft prangeThis prangeOther;
           acc' ← AppendOrExtend acc prangeNew;
           difference_loop fst' snd None acc')
        else
          ('(prangeNew, residual') ← PrangeDiffWithRightResidual prangeThis prangeOther;
           acc' ← AppendOrExtend acc prangeNew;
           go snd' residual' acc')
    | _, _ =>
        acc' ← AppendOrExtend acc residual;
        AddRemainingRanges (match residual with Some _ => tail fst | None => fst end) acc'
    end.

(** [CConstraintInterval::PciDifference] *)
Definition PciDifference this pci : outcome (CConstraintInterval D) :=
  _ ← GPOS_ASSERT (same_col (m_pcr this) (m_pcr pci));
  pdrgprngNew ← difference_loop (m_pdrgprng this) (m_pdrgprng pci) None [];
  mret (mkCI (m_pcr this) pdrgprngNew (m_fIncludesNull this && negb (m_fIncludesNull pci))).

(** [CConstraintInterval::FContainsInterval] *)
Definition FContainsInterval this pci : outcome bool :=
  _ ← GPOS_ASSERT (same_col (m_pcr this) (m_pcr pci));
  if IsConstraintUnbounded this then mret true
  else if IsConstraintUnbounded pci || (negb (m_fIncludesNull this) && m_fIncludesNull pci)
  then mret false
  else FContradiction <$> PciDifference pci this.

(** [CConstraintInterval::PciUnbounded(mp, colref, fIncludesNull)]; [None] is the
    null result for a type that cannot be constrained *)
Definition PciUnbounded (tf : TraceFlags) (colref : CColRef) (fIncludesNull : bool)
    : outcome (option (CConstraintInterval D)) :=
  if negb (FConstrainableType tf (RetrieveType colref)) then mret None else
  prange ← (if is_bool_col colref
            then CRange_ctor (Some (CreateBoolDatum false)) EriIncluded
                             (Some (CreateBoolDatum true)) EriIncluded
            else CRange_ctor None EriExcluded None EriExcluded);
  mret (Some (mkCI colref [prange] fIncludesNull)).

(** [CConstraintInterval::PciUnbounded(mp, pcrs, fIncludesNull)] *)
Fixpoint PciUnbounded_set (tf : TraceFlags) (pcrs : list CColRef) (fIncludesNull : bool)
    : outcome (option (CConstraintInterval D)) :=
  match pcrs with
  | [] => mret None
  | colref :: pcrs' =>
      pci ← PciUnbounded tf colref fIncludesNull;
      match pci with
      | Some p => mret (Some p)
      | None => PciUnbounded_set tf pcrs' fIncludesNull
      end
  end.

(** [CConstraintInterval::PciComplement] *)
Definition PciComplement (tf : TraceFlags) this : outcome (CConstraintInterval D) :=
  pciUniversal ← PciUnbounded tf (m_pcr this) true;
  u ← deref pciUniversal;
  PciDifference u this.

(** [CConstraintInterval::PciRangeFromColConstCmp] *)
Definition PciRangeFromColConstCmp (cmp_type : ECmpType) (datum : D) : option (list (CRange D)) :=
  match cmp_type with
  | EcmptOther => None
  | EcmptNEq | EcmptIDF => Some [CRange_cmp EcmptL datum; CRange_cmp EcmptG datum]
  | _ => Some [CRange_cmp cmp_type datum]
  end.

(** [CConstraintInterval::PciIntervalFromColConstCmp] *)
Definition PciIntervalFromColConstCmp (colref : CColRef) (cmp_type : ECmpType) (datum : D)
    (infer_nulls_as : bool) : option (CConstraintInterval D) :=
  match PciRangeFromColConstCmp cmp_type datum with
  | Some pdrngprng => Some (mkCI colref pdrngprng infer_nulls_as)
  | None => None
  end.

(** [CConstraintInterval::PcnstrRemapForColumn] *)
Definition PcnstrRemapForColumn this (colref : CColRef) : CConstraintInterval D :=
  mkCI colref (m_pdrgprng this) (m_fIncludesNull this).

End Ops.

(** ** The set of values of an interval *)

Section Semantics.
Context {D : Type} `{CL : ComparatorLaws D} `{ID : IDatum D}.
Implicit Types (r s t : CRange D) (rs ss acc : list (CRange D)) (p q : CConstraintInterval D).

Definition in_ranges rs (v : D) : bool := existsb (fun r => in_range r v) rs.

(** A column value: [None] is NULL. *)
Definition in_interval (pci : CConstraintInterval D) (v : option D) : bool :=
  match v with None => m_fIncludesNull pci | Some d => in_ranges (m_pdrgprng pci) d end.

(** The ranges are well formed, in order and disjoint. *)
Definition before r s : Prop := cle (rcut r) (lcut s).

Definition ranges_ok rs : Prop := Forall range_ok rs /\ StronglySorted before rs.

Lemma in_ranges_elem rs v : in_ranges rs v = true <-> exists r, r ∈ rs /\ in_range r v = true.
Proof.
  unfold in_ranges. rewrite existsb_exists. setoid_rewrite <- list_elem_of_In. done.
Qed.

Lemma in_ranges_app rs ss v : in_ranges (rs ++ ss) v = in_ranges rs v || in_ranges ss v.
Proof. apply existsb_app. Qed.

Lemma ranges_ok_cons r rs :
  ranges_ok (r :: rs) <-> range_ok r /\ ranges_ok rs /\ Forall (before r) rs.
Proof.
  unfold ranges_ok. rewrite Forall_cons. split.
  - intros [[] Hs]. inversion Hs; subst. tauto.
  - intros (? & [] & ?). split; [done|]. by constructor.
Qed.

Lemma ranges_ok_app rs ss :
  ranges_ok rs -> ranges_ok ss -> (forall r s, r ∈ rs -> s ∈ ss -> before r s) -> ranges_ok (rs ++ ss).
Proof.
  intros [] [] ?. split; [by apply Forall_app|]. by apply StronglySorted_app_2.
Qed.

Lemma ranges_ok_app_inv rs ss :
  ranges_ok (rs ++ ss) -> ranges_ok rs /\ ranges_ok ss /\ (forall r s, r ∈ rs -> s ∈ ss -> before r s).
Proof.
  induction rs as [|r rs IH]; simpl.
  - intros Hs. split_and!; [split; constructor|done|set_solver].
  - rewrite !ranges_ok_cons. intros (Hr & Hs & Hall). destruct (IH Hs) as (H1 & H2 & H3).
    apply Forall_app in Hall as [Ha Hb]. split_and!; [done..|].
    intros x y [->|Hx]%elem_of_cons Hy; [|by apply H3]. by rewrite Forall_forall in Hb; apply Hb.
Qed.

Lemma ranges_ok_single r : range_ok r -> ranges_ok [r].
Proof. intros Hr. split; [apply Forall_singleton, Hr|]. repeat constructor. Qed.

(** [ends_by acc c]: the ranges of [acc] end at or before [c]. *)
Definition ends_by acc (c : cut D) : Prop := forall a, a ∈ acc -> cle (rcut a) c.

Lemma ends_by_mono acc c c' : cle c c' -> ends_by acc c -> ends_by acc c'.
Proof. intros Hc Hacc a Ha. eapply cle_trans; eauto. Qed.

(** [AppendOrExtend] adds the values of a range that lies after all ranges. *)
Lemma AppendOrExtend_spec acc r :
  ranges_ok acc -> range_ok r -> ends_by acc (lcut r) ->
  exists acc', AppendOrExtend acc (Some r) = Ret acc' /\ ranges_ok acc' /\ ends_by acc' (rcut r) /\
    forall v, in_ranges acc' v = in_ranges acc v || in_range r v.
Proof.
  intros Hacc Hr Hend. unfold AppendOrExtend.
  pose proof (ro_order _ Hr) as Hor.
  assert (Happ : ranges_ok (acc ++ [r]) /\ ends_by (acc ++ [r]) (rcut r) /\
    forall v, in_ranges (acc ++ [r]) v = in_ranges acc v || in_range r v).
  { split_and!.
    - apply ranges_ok_app; [done|by apply ranges_ok_single|].
      intros x y Hx ->%list_elem_of_singleton. by apply Hend.
    - intros a [Ha| ->%list_elem_of_singleton]%elem_of_app; [|apply cle_refl].
      specialize (Hend a Ha). cut_order.
    - intros v. rewrite in_ranges_app. simpl. by rewrite orb_false_r. }
  destruct (last acc) as [l|] eqn:El.
  2:{ exists (acc ++ [r]). done. }
  apply last_Some in El as [acc0 ->].
  apply ranges_ok_app_inv in Hacc as (H0 & Hl & Hb).
  apply ranges_ok_cons in Hl as (Hl & _ & _).
  destruct (PrngExtend_cut l r) as (o & -> & Ho); [done|done|apply Hend; set_solver|].
  simpl. destruct o as [t|]; [|by eexists].
  destruct Ho as (Ht & Hlt & Hrt & Hadj). eexists. split; [done|].
  rewrite insert_app_r_alt; rewrite length_app; simpl; [|lia].
  replace (length acc0 + 1 - 1 - length acc0) with 0 by lia. simpl.
  pose proof (ro_order _ Hl). split_and!.
  - apply ranges_ok_app; [done|by apply ranges_ok_single|].
    intros x y Hx ->%list_elem_of_singleton. unfold before. rewrite Hlt. apply Hb; set_solver.
  - intros a [Ha| ->%list_elem_of_singleton]%elem_of_app; [|rewrite Hrt; apply cle_refl].
    assert (cle (rcut a) (lcut r)) by (apply Hend; set_solver). cut_order.
  - intros v. rewrite !in_ranges_app. simpl. rewrite !orb_false_r, <- orb_assoc. f_equal.
    apply eq_bool_prop_intro. rewrite orb_True, !Is_true_true, !in_range_cuts, Hlt, Hrt.
    assert (cle (rcut l) (lcut r)) by (apply Hend; set_solver).
    split.
    + intros [Hv1 Hv2]. destruct (cle_dec (lcut r) (CBefore v)); [by right|left].
      split; [done|]. unfold left_of. cut_order.
    + intros [[Hv1 Hv2]|[Hv1 Hv2]]; split; unfold left_of in *; cut_order.
Qed.

Lemma ends_after_le r s : ends_after s r -> cle (rcut r) (rcut s).
Proof.
  intros [Hs|[E1 E2]]; [cut_order|]. apply rcut_null in E1 as ->. apply rcut_null in E2 as ->. done.
Qed.

Lemma not_ends_after_le r s : ~ ends_after s r -> cle (rcut s) (rcut r).
Proof. intros Hn. destruct (cle_dec (rcut s) (rcut r)) as [|Hc]; [done|]. destruct Hn. by left. Qed.

(** Emitting the part of [r] to the left of [s]. *)
Lemma emit_left acc r s :
  ranges_ok acc -> range_ok r -> range_ok s -> ends_by acc (lcut r) ->
  exists o acc', PrngDifferenceLeft r s = Ret o /\ AppendOrExtend acc o = Ret acc' /\ ranges_ok acc' /\
    (forall c, ends_by acc c -> cle (rcut r) c \/ cle (lcut s) c -> ends_by acc' c) /\
    (forall v, in_ranges acc' v = true <->
       in_ranges acc v = true \/ (in_range r v = true /\ ~ left_of (lcut s) v)).
Proof.
  intros Hacc Hr Hs Hend. destruct (PrngDifferenceLeft_cut r s Hr Hs) as (o & E & Ho).
  exists o. destruct o as [t|].
  - pose proof Ho as (Ht & Hlt & Hrt).
    destruct (AppendOrExtend_spec acc t) as (acc' & Ea & Hok & He & Hv); [done|done|by rewrite Hlt|].
    exists acc'. split_and!; [done..| |].
    + intros c _ Hc. eapply ends_by_mono; [|exact He].
      destruct Hrt as [[-> ?]|[-> ?]], Hc; cut_order.
    + intros v. rewrite Hv, orb_true_iff. by rewrite (left_part_in _ _ _ _ Ho).
  - exists acc. split_and!; [done..|]. intros v. split; [by left|].
    intros [|[Hin Hn]]; [done|]. apply in_range_cuts in Hin as [Hin _]. destruct Hn.
    by eapply left_of_mono.
Qed.

Lemma AddRemainingRanges_spec rs acc :
  ranges_ok rs -> ranges_ok acc -> (forall r, r ∈ rs -> ends_by acc (lcut r)) ->
  exists acc', AddRemainingRanges rs acc = Ret acc' /\ ranges_ok acc' /\
    forall v, in_ranges acc' v = in_ranges acc v || in_ranges rs v.
Proof.
  revert acc. induction rs as [|r rs IH]; intros acc Hrs Hacc Hb.
  - exists acc. split_and!; [done..|]. intros v. by rewrite orb_false_r.
  - apply ranges_ok_cons in Hrs as (Hr & Hrs & Hf). rewrite Forall_forall in Hf.
    destruct (AppendOrExtend_spec acc r) as (a1 & E1 & Ha1 & He & Hv); [done|done|apply Hb; set_solver|].
    destruct (IH a1) as (a2 & E2 & Ha2 & Hv2); [done|done| |].
    { intros x Hx. eapply ends_by_mono; [apply (Hf x Hx)|done]. }
    exists a2. cbn [AddRemainingRanges]. rewrite E1. cbn [mbind outcome_bind]. split_and!; [done..|].
    intros v. rewrite Hv2, Hv. simpl. by rewrite orb_assoc.
Qed.

Lemma union_loop_cons r rs s ss acc :
  union_loop (r :: rs) (s :: ss) acc =
  (ends ← FEndsAfter s r;
   if (ends : bool) then
     (o ← PrngDifferenceLeft r s; acc' ← AppendOrExtend acc o; union_loop rs (s :: ss) acc')
   else
     (o ← PrngDifferenceLeft s r; acc' ← AppendOrExtend acc o; union_loop (r :: rs) ss acc')).
Proof. done. Qed.

(** A range that ends no later than [s] is covered by its part before [s] and
    by [s] itself. *)
Lemma cover_left r s v :
  cle (rcut r) (rcut s) -> in_range r v = true ->
  in_range s v = true \/ ~ left_of (lcut s) v.
Proof.
  intros Hc [Hv1 Hv2]%in_range_cuts. destruct (cle_dec (lcut s) (CBefore v)) as [Hl|]; [left|by right].
  apply in_range_cuts. split; [done|]. unfold left_of in *. cut_order.
Qed.

Lemma union_loop_spec rs ss acc :
  ranges_ok rs -> ranges_ok ss -> ranges_ok acc ->
  (forall r, r ∈ rs ++ ss -> ends_by acc (lcut r)) ->
  exists acc', union_loop rs ss acc = Ret acc' /\ ranges_ok acc' /\
    forall v, in_ranges acc' v = in_ranges acc v || (in_ranges rs v || in_ranges ss v).
Proof.
  revert ss acc. induction rs as [|r rs IHr]; intros ss.
  { intros acc Hrs Hss Hacc Hb. destruct (AddRemainingRanges_spec ss acc) as (a & E & ? & ?); [done..|].
    exists a. destruct ss; done. }
  induction ss as [|s ss IHs]; intros acc Hrs Hss Hacc Hb.
  { destruct (AddRemainingRanges_spec (r :: rs) acc) as (a & E & ? & Hv); [done..|by rewrite app_nil_r in Hb|].
    exists a. cbn [union_loop]. rewrite E. cbn. split_and!; [done..|]. intros v. by rewrite Hv, orb_false_r. }
  rewrite union_loop_cons. pose proof Hrs as Hrs'. pose proof Hss as Hss'.
  apply ranges_ok_cons in Hrs' as (Hr & Hrs' & Hfr). apply ranges_ok_cons in Hss' as (Hs & Hss' & Hfs).
  rewrite Forall_forall in Hfr, Hfs. pose proof (ro_order _ Hr). pose proof (ro_order _ Hs).
  destruct (FEndsAfter_cut s r) as (b & -> & Hend). cbn [mbind outcome_bind]. destruct b.
  - assert (Hle : cle (rcut r) (rcut s)) by (by apply ends_after_le, Hend).
    destruct (emit_left acc r s) as (o & a1 & -> & E & Ha1 & He & Hv); [done..|apply Hb; set_solver|].
    cbn [mbind outcome_bind]. rewrite E. cbn [mbind outcome_bind].
    destruct (IHr (s :: ss) a1) as (a2 & -> & Ha2 & Hv2); [done..| |].
    { intros x Hx. apply He; [apply Hb; set_solver|].
      apply elem_of_app in Hx as [Hx|[->|Hx]%elem_of_cons]; [left; by apply Hfr|right; apply cle_refl|].
      right. specialize (Hfs x Hx). unfold before in Hfs. cut_order. }
    exists a2. split_and!; [done..|]. intros v. rewrite Hv2. apply eq_bool_prop_intro.
    cbn [in_ranges existsb]. rewrite !orb_True, !Is_true_true, Hv. fold (in_ranges rs v) (in_ranges ss v).
    split; [tauto|]. pose proof (cover_left r s v Hle). tauto.
  - assert (Hle : cle (rcut s) (rcut r)) by (apply not_ends_after_le; rewrite <- Hend; done).
    destruct (emit_left acc s r) as (o & a1 & -> & E & Ha1 & He & Hv); [done..|apply Hb; set_solver|].
    cbn [mbind outcome_bind]. rewrite E. cbn [mbind outcome_bind].
    destruct (IHs a1) as (a2 & -> & Ha2 & Hv2); [done..| |].
    { intros x Hx. apply He; [apply Hb; set_solver|].
      apply elem_of_app in Hx as [[->|Hx]%elem_of_cons|Hx]; [right; apply cle_refl| |left; by apply Hfs].
      right. specialize (Hfr x Hx). unfold before in Hfr. cut_order. }
    exists a2. split_and!; [done..|]. intros v. rewrite Hv2. apply eq_bool_prop_intro.
    cbn [in_ranges existsb]. rewrite !orb_True, !Is_true_true, Hv. fold (in_ranges rs v) (in_ranges ss v).
    split; [tauto|]. pose proof (cover_left s r v Hle). tauto.
Qed.

Lemma intersect_loop_cons r rs s ss acc :
  intersect_loop (r :: rs) (s :: ss) acc =
  (ends ← FEndsAfter s r;
   if (ends : bool) then
     (o ← PrngIntersect r s; intersect_loop rs (s :: ss) (append_opt acc o))
   else
     (o ← PrngIntersect s r; intersect_loop (r :: rs) ss (append_opt acc o))).
Proof. done. Qed.

(** [acc] ends before every overlap of a range of [rs] with one of [ss]. *)
Definition before_pairs acc rs ss : Prop :=
  forall a r s, a ∈ acc -> r ∈ rs -> s ∈ ss -> cle (rcut a) (lcut r) \/ cle (rcut a) (lcut s).

(** Appending the overlap of the head ranges. *)
Lemma emit_overlap acc rs ss r s :
  ranges_ok acc -> range_ok r -> range_ok s -> before_pairs acc rs ss -> r ∈ rs -> s ∈ ss ->
  exists o, PrngIntersect r s = Ret o /\ ranges_ok (append_opt acc o) /\
    (forall a, a ∈ append_opt acc o -> a ∈ acc \/ cle (rcut a) (rcut r)) /\
    (forall v, in_ranges (append_opt acc o) v = true <->
       in_ranges acc v = true \/ (in_range r v = true /\ in_range s v = true)).
Proof.
  intros Hacc Hr Hs Hb Hinr Hins. destruct (PrngIntersect_cut r s Hr Hs) as (o & -> & Ho).
  exists o. split; [done|]. destruct o as [t|]; simpl.
  - pose proof Ho as (Ht & Hl & Hrt). split_and!.
    + apply ranges_ok_app; [done|by apply ranges_ok_single|].
      intros a x Ha ->%list_elem_of_singleton. unfold before.
      destruct (Hb a r s Ha Hinr Hins), Hl as [[-> ?]|[-> ?]]; cut_order.
    + intros a [Ha| ->%list_elem_of_singleton]%elem_of_app; [by left|right].
      destruct Hrt as [[-> ?]|[-> ?]]; [apply cle_refl|done].
    + intros v. rewrite in_ranges_app, orb_true_iff. simpl. rewrite orb_false_r.
      by rewrite (overlap_in _ _ _ _ Ho).
  - split_and!; [done|by left|]. intros v. split; [by left|]. intros [|[Hv1 Hv2]]; [done|].
    destruct Ho as [Ho|Ho]; by rewrite (disjoint_in _ _ v Ho) in * by done.
Qed.

Lemma in_ranges_after r rs v : Forall (before r) rs -> in_ranges rs v = true -> left_of (rcut r) v.
Proof.
  intros Hf (x & Hx & [Hv _]%in_range_cuts)%in_ranges_elem. rewrite Forall_forall in Hf.
  eapply left_of_mono; [apply Hf|]; done.
Qed.

(** What ends before a range of [ss] cannot meet the later ranges. *)
Lemma in_both_head r s ss v :
  Forall (before s) ss -> cle (rcut r) (rcut s) ->
  in_range r v = true -> in_ranges (s :: ss) v = true -> in_range s v = true.
Proof.
  intros Hf Hc [_ Hv]%in_range_cuts. simpl. rewrite orb_true_iff. intros [|Hin]; [done|].
  pose proof (in_ranges_after _ _ _ Hf Hin). destruct Hv. unfold left_of in *. cut_order.
Qed.

Lemma intersect_loop_spec rs ss acc :
  ranges_ok rs -> ranges_ok ss -> ranges_ok acc -> before_pairs acc rs ss ->
  exists acc', intersect_loop rs ss acc = Ret acc' /\ ranges_ok acc' /\
    forall v, in_ranges acc' v = in_ranges acc v || (in_ranges rs v && in_ranges ss v).
Proof.
  revert ss acc. induction rs as [|r rs IHr]; intros ss.
  { intros acc _ _ Hacc _. exists acc. destruct ss; (split_and!; [done..|]); intros v; by rewrite orb_false_r. }
  induction ss as [|s ss IHs]; intros acc Hrs Hss Hacc Hb.
  { exists acc. split_and!; [done..|]. intros v. by rewrite andb_false_r, orb_false_r. }
  rewrite intersect_loop_cons. pose proof Hrs as Hrs'. pose proof Hss as Hss'.
  apply ranges_ok_cons in Hrs' as (Hr & Hrs' & Hfr). apply ranges_ok_cons in Hss' as (Hs & Hss' & Hfs).
  pose proof Hfr as Hfr'. pose proof Hfs as Hfs'. rewrite Forall_forall in Hfr', Hfs'.
  destruct (FEndsAfter_cut s r) as (b & -> & Hend). cbn [mbind outcome_bind]. destruct b.
  - assert (Hle : cle (rcut r) (rcut s)) by (by apply ends_after_le, Hend).
    destruct (emit_overlap acc (r :: rs) (s :: ss) r s) as (o & -> & Ha1 & He & Hv); [done..|set_solver|set_solver|].
    cbn [mbind outcome_bind].
    destruct (IHr (s :: ss) (append_opt acc o)) as (a2 & -> & Ha2 & Hv2); [done..| |].
    { intros a x y Ha Hx Hy. destruct (He a Ha) as [Ha'|Ha']; [apply Hb; set_solver|left].
      specialize (Hfr' x Hx). unfold before in Hfr'. cut_order. }
    exists a2. split_and!; [done..|]. intros v. rewrite Hv2. apply eq_bool_prop_intro.
    rewrite !orb_True, !andb_True, !Is_true_true, Hv.
    pose proof (in_both_head r s ss v Hfs Hle). cbn [in_ranges existsb] in *. rewrite !orb_true_iff in *.
    fold (in_ranges rs v) (in_ranges ss v) in *. tauto.
  - assert (Hle : cle (rcut s) (rcut r)) by (apply not_ends_after_le; rewrite <- Hend; done).
    destruct (emit_overlap acc (s :: ss) (r :: rs) s r) as (o & -> & Ha1 & He & Hv);
      [done|done|done| |set_solver|set_solver|].
    { intros a x y Ha Hx Hy. destruct (Hb a y x); [done..|by right|by left]. }
    cbn [mbind outcome_bind].
    destruct (IHs (append_opt acc o)) as (a2 & -> & Ha2 & Hv2); [done..| |].
    { intros a x y Ha Hx Hy. destruct (He a Ha) as [Ha'|Ha']; [apply Hb; set_solver|right].
      specialize (Hfs' y Hy). unfold before in Hfs'. cut_order. }
    exists a2. split_and!; [done..|]. intros v. rewrite Hv2. apply eq_bool_prop_intro.
    rewrite !orb_True, !andb_True, !Is_true_true, Hv.
    pose proof (in_both_head s r rs v Hfr Hle). cbn [in_ranges existsb] in *. rewrite !orb_true_iff in *.
    fold (in_ranges rs v) (in_ranges ss v) in *. tauto.
Qed.

Lemma difference_loop_cons r rs s ss res acc :
  difference_loop (r :: rs) (s :: ss) res acc =
  (let r0 := default r res in
   ends ← FEndsWithOrAfter s r0;
   if (ends : bool) then
     (o ← PrngDifferenceLeft r0 s; acc' ← AppendOrExtend acc o; difference_loop rs (s :: ss) None acc')
   else
     ('(o, res') ← PrangeDiffWithRightResidual r0 s;
      acc' ← AppendOrExtend acc o; difference_loop (r :: rs) ss res' acc')).
Proof. done. Qed.

(** The ranges still to be processed: the residual stands for the first one. *)
Definition pending rs (res : option (CRange D)) : list (CRange D) :=
  match res with Some t => t :: tail rs | None => rs end.

(** A residual belongs to a current range and starts before what is still to be
    subtracted. *)
Definition residual_ok rs ss (res : option (CRange D)) : Prop :=
  match res with
  | Some t => rs <> [] /\ forall s, s ∈ ss -> cle (lcut t) (lcut s)
  | None => True
  end.

(** [PrangeDiffWithRightResidual] splits [r] around [s]. *)
Lemma diff_residual_spec acc r s :
  ranges_ok acc -> range_ok r -> range_ok s -> ends_by acc (lcut r) ->
  cle (rcut s) (rcut r) -> ~ cle (rcut r) (rcut s) ->
  exists o res acc', PrangeDiffWithRightResidual r s = Ret (o, res) /\
    AppendOrExtend acc o = Ret acc' /\ ranges_ok acc' /\
    match res with
    | None => acc' = acc /\ cle (rcut s) (lcut r)
    | Some t => range_ok t /\ lcut t = rcut s /\ rcut t = rcut r /\ cle (lcut r) (lcut t) /\
        ends_by acc' (lcut t) /\
        forall v, in_ranges acc' v = true <->
          in_ranges acc v = true \/ (in_range r v = true /\ ~ left_of (lcut s) v)
    end.
Proof.
  intros Hacc Hr Hs Hend Hle Hlt. unfold PrangeDiffWithRightResidual.
  destruct (FDisjointLeft s r) eqn:Ed.
  { exists None, None, acc. apply FDisjointLeft_cut in Ed. done. }
  apply not_true_iff_false in Ed. rewrite FDisjointLeft_cut in Ed.
  destruct (PrngDifferenceRight_cut r s Hr Hs) as ([t|] & Eres & Ht); [|done].
  destruct Ht as (Hok & Hrt & [[? ?]|[Hlt' Hlr]]); [done|].
  pose proof (ro_order _ Hr) as Hor. pose proof (ro_order _ Hs) as Hos.
  assert (Hlr' : cle (lcut r) (lcut t)) by (rewrite Hlt'; done).
  destruct (Contains_cut r s) as (b & -> & Hb). cbn [mbind outcome_bind]. destruct b.
  - destruct (emit_left acc r s) as (o & acc' & -> & Ea & Ha & He & Hv); [done..|].
    exists o, (Some t), acc'. cbn [mbind outcome_bind]. rewrite Eres. split_and!; try done.
    apply He; [rewrite Hlt'; eapply ends_by_mono; [|done]; done|right; rewrite Hlt'; cut_order].
  - assert (Hn : ~ cle (lcut r) (lcut s)) by (intros Hc; assert (false = true) by (apply Hb; done); done).
    exists None, (Some t), acc. cbn [mbind outcome_bind mret outcome_ret]. rewrite Eres.
    split_and!; try done.
    + by eapply ends_by_mono.
    + intros v. split; [by left|]. intros [|[[Hv _]%in_range_cuts Hnl]]; [done|].
      destruct Hnl. unfold left_of in *. cut_order.
Qed.

Lemma difference_base rs ss res acc :
  rs = [] \/ ss = [] -> residual_ok rs ss res -> ranges_ok (pending rs res) -> ranges_ok acc ->
  (forall r, r ∈ pending rs res -> ends_by acc (lcut r)) ->
  exists acc', difference_loop rs ss res acc = Ret acc' /\ ranges_ok acc' /\
    forall v, in_ranges acc' v = in_ranges acc v || (in_ranges (pending rs res) v && negb (in_ranges ss v)).
Proof.
  intros Hnil Hres Hp Hacc Hb.
  assert (E : difference_loop rs ss res acc =
    (acc' ← AppendOrExtend acc res;
     AddRemainingRanges (match res with Some _ => tail rs | None => rs end) acc')).
  { destruct rs, ss; try done. naive_solver. }
  rewrite E. clear E.
  destruct (AddRemainingRanges_spec (pending rs res) acc) as (a & E & Ha & Hv); [done..|].
  exists a. split_and!; [|done|].
  - destruct res as [t|]; [|exact E]. exact E.
  - intros v. rewrite Hv. destruct Hnil as [-> | ->].
    + destruct res; [by destruct Hres|]. done.
    + by rewrite andb_true_r.
Qed.

(** The values covered after one round of the loop, in its three cases. *)

Local Ltac cover_cases :=
  apply eq_bool_prop_intro; cbn [in_ranges existsb];
  rewrite !orb_True, !andb_True, !negb_True, ?orb_True, !Is_true_true.

Lemma difference_cover_ends r s rs ss acc a1 v :
  range_ok s -> cle (rcut r) (rcut s) -> Forall (before s) ss ->
  (in_ranges a1 v = true <-> in_ranges acc v = true \/ (in_range r v = true /\ ~ left_of (lcut s) v)) ->
  in_ranges a1 v || (in_ranges rs v && negb (in_ranges (s :: ss) v)) =
  in_ranges acc v || (in_ranges (r :: rs) v && negb (in_ranges (s :: ss) v)).
Proof.
  intros Hs Hle Hfs Hv. cover_cases. rewrite Hv. fold (in_ranges rs v) (in_ranges ss v).
  pose proof (cover_left r s v Hle). pose proof (ro_order _ Hs) as Hos.
  assert (in_range s v = true -> left_of (lcut s) v) by (intros [? ?]%in_range_cuts; done).
  assert (~ left_of (lcut s) v -> in_ranges ss v <> true).
  { intros Hn Hin. apply Hn. apply (left_of_mono _ (rcut s)); [cut_order|]. by eapply in_ranges_after. }
  tauto.
Qed.

Lemma difference_cover_residual r s t rs ss acc a1 v :
  range_ok r -> range_ok s -> range_ok t -> lcut t = rcut s -> rcut t = rcut r -> cle (lcut r) (lcut t) ->
  Forall (before s) ss -> Forall (before r) rs ->
  (in_ranges a1 v = true <-> in_ranges acc v = true \/ (in_range r v = true /\ ~ left_of (lcut s) v)) ->
  in_ranges a1 v || (in_ranges (t :: rs) v && negb (in_ranges ss v)) =
  in_ranges acc v || (in_ranges (r :: rs) v && negb (in_ranges (s :: ss) v)).
Proof.
  intros Hr Hs Ht Hlt Hrt Hlr Hfs Hfr Hv. cover_cases. rewrite Hv. fold (in_ranges rs v) (in_ranges ss v).
  pose proof (ro_order _ Hs) as Hos. pose proof (ro_order _ Ht) as Hot.
  assert (Hin_t : in_range t v = true <-> in_range r v = true /\ left_of (rcut s) v).
  { apply (right_part_in r s t). split_and!; [done..|]. right. split; [done|]. by rewrite <- Hlt. }
  assert (Hin_s : in_range s v = true <-> left_of (lcut s) v /\ ~ left_of (rcut s) v) by apply in_range_cuts.
  assert (Hls : left_of (rcut s) v -> left_of (lcut s) v) by (apply left_of_mono; cut_order).
  assert (Hss2 : in_ranges ss v = true -> left_of (rcut s) v) by (by apply in_ranges_after).
  assert (Hrs2 : in_ranges rs v = true -> left_of (rcut s) v).
  { intros Hin. apply (left_of_mono _ (rcut r)); [rewrite <- Hrt, <- Hlt; cut_order|]. by eapply in_ranges_after. }
  destruct (cle_dec (lcut s) (CBefore v)), (cle_dec (rcut s) (CBefore v)); unfold left_of in *; tauto.
Qed.

Lemma difference_cover_disjoint r s rs ss acc v :
  range_ok r -> range_ok s -> cle (rcut s) (lcut r) -> Forall (before r) rs ->
  in_ranges acc v || (in_ranges (r :: rs) v && negb (in_ranges ss v)) =
  in_ranges acc v || (in_ranges (r :: rs) v && negb (in_ranges (s :: ss) v)).
Proof.
  intros Hr Hs Hdis Hfr. cover_cases. fold (in_ranges rs v) (in_ranges ss v).
  pose proof (ro_order _ Hr) as Hor.
  assert (Hin_s : in_range s v = true -> ~ in_range r v = true).
  { intros Hv Hv'. by rewrite (disjoint_in s r v) in Hv' by done. }
  assert (Hin_s2 : in_range s v = true -> ~ in_ranges rs v = true).
  { intros [Hv1 Hv2']%in_range_cuts Hin. apply Hv2'. apply (left_of_mono _ (rcut r)); [cut_order|].
    by eapply in_ranges_after. }
  tauto.
Qed.

Lemma difference_loop_spec rs ss res acc :
  residual_ok rs ss res -> ranges_ok (pending rs res) -> ranges_ok rs -> ranges_ok ss -> ranges_ok acc ->
  (forall r, r ∈ pending rs res -> ends_by acc (lcut r)) ->
  exists acc', difference_loop rs ss res acc = Ret acc' /\ ranges_ok acc' /\
    forall v, in_ranges acc' v = in_ranges acc v || (in_ranges (pending rs res) v && negb (in_ranges ss v)).
Proof.
  revert ss res acc. induction rs as [|r rs IHr]; intros ss.
  { intros res acc Hres Hp _ _ Hacc Hb. apply difference_base; auto. }
  induction ss as [|s ss IHs]; intros res acc Hres Hp Hrs Hss Hacc Hb.
  { apply difference_base; auto. }
  rewrite difference_loop_cons. cbn zeta. set (r0 := default r res).
  assert (Epend : pending (r :: rs) res = r0 :: rs) by (by destruct res).
  rewrite Epend in *. apply ranges_ok_cons in Hp as (Hr & Hp & Hfr).
  pose proof Hss as Hss'. apply ranges_ok_cons in Hss' as (Hs & Hss' & Hfs).
  pose proof Hfr as Hfr'. pose proof Hfs as Hfs'. rewrite Forall_forall in Hfr', Hfs'.
  destruct (FEndsWithOrAfter_cut s r0) as (b & -> & Hend). cbn [mbind outcome_bind]. destruct b.
  - assert (Hle : cle (rcut r0) (rcut s)) by (by apply Hend).
    destruct (emit_left acc r0 s) as (o & a1 & -> & E & Ha1 & He & Hv); [done..|apply Hb; set_solver|].
    cbn [mbind outcome_bind]. rewrite E. cbn [mbind outcome_bind].
    destruct (IHr (s :: ss) None a1) as (a2 & -> & Ha2 & Hv2); [done..| |].
    { intros x Hx. apply He; [apply Hb; set_solver|left; by apply Hfr']. }
    exists a2. split_and!; [done..|]. intros v. rewrite Hv2. by apply difference_cover_ends.
  - assert (Hn : ~ cle (rcut r0) (rcut s)) by (rewrite <- Hend; done).
    pose proof (ro_order _ Hr) as Hor. pose proof (ro_order _ Hs) as Hos.
    destruct (diff_residual_spec acc r0 s) as (o & res' & a1 & -> & E & Ha1 & Hres');
      [done|done|done|apply Hb; set_solver|cut_order|done|].
    cbn [mbind outcome_bind]. rewrite E. cbn [mbind outcome_bind]. destruct res' as [t|].
    + destruct Hres' as (Ht & Hlt & Hrt & Hlr & He & Hv). pose proof (ro_order _ Ht) as Hot.
      destruct (IHs (Some t) a1) as (a2 & -> & Ha2 & Hv2); [| |done..| |].
      { split; [done|]. intros x Hx. rewrite Hlt. by apply Hfs'. }
      { apply ranges_ok_cons. split_and!; [done..|]. apply Forall_forall. intros x Hx.
        unfold before. rewrite Hrt. by apply Hfr'. }
      { intros x [->|Hx]%elem_of_cons; [done|]. eapply ends_by_mono; [|done].
        specialize (Hfr' x Hx). unfold before in Hfr'. rewrite Hrt in *. cut_order. }
      exists a2. split_and!; [done..|]. intros v. rewrite Hv2. by apply difference_cover_residual.
    + destruct Hres' as [-> Hdis].
      assert (res = None) as ->.
      { destruct res as [t|]; [|done]. destruct Hres as [_ Hres]. specialize (Hres s ltac:(set_solver)).
        subst r0. simpl in *. exfalso. cut_order. }
      destruct (IHs None acc) as (a2 & -> & Ha2 & Hv2); [done..|].
      exists a2. split_and!; [done..|]. intros v. rewrite Hv2. by apply difference_cover_disjoint.
Qed.

(** ** The operations on intervals *)

Definition interval_ok (p : CConstraintInterval D) : Prop := ranges_ok (m_pdrgprng p).

(** [p] has column [c], is well formed, and its values are those of [f]. *)
Definition denotes (p : CConstraintInterval D) (c : CColRef) (f : option D -> bool) : Prop :=
  interval_ok p /\ same_col c (m_pcr p) = true /\ forall v, in_interval p v = f v.

Lemma same_col_trans a b c : same_col a b = true -> same_col a c = true -> same_col b c = true.
Proof. unfold same_col. rewrite !N.eqb_eq. congruence. Qed.

Lemma same_col_refl a : same_col a a = true.
Proof. apply N.eqb_refl. Qed.

Lemma ranges_ok_nil : ranges_ok [].
Proof. split; constructor. Qed.

Lemma ends_by_nil c : ends_by [] c.
Proof. intros a Ha. by apply not_elem_of_nil in Ha. Qed.

Lemma PciUnion_denotes p q c f g :
  denotes p c f -> denotes q c g ->
  exists u, PciUnion p q = Ret u /\ m_pcr u = m_pcr p /\ denotes u c (fun v => f v || g v).
Proof.
  intros (Hp & Hcp & Hf) (Hq & Hcq & Hg). unfold PciUnion.
  rewrite bind_assert by (by eapply same_col_trans).
  destruct (union_loop_spec (m_pdrgprng p) (m_pdrgprng q) []) as (l & -> & Hl & Hv);
    [done|done|apply ranges_ok_nil|intros; apply ends_by_nil|].
  eexists. split; [done|]. split; [done|]. split_and!; [done..|].
  intros [v|]; simpl; rewrite <- Hf, <- Hg; [|done]. apply Hv.
Qed.

Lemma PciIntersect_denotes p q c f g :
  denotes p c f -> denotes q c g ->
  exists u, PciIntersect p q = Ret u /\ m_pcr u = m_pcr p /\ denotes u c (fun v => f v && g v).
Proof.
  intros (Hp & Hcp & Hf) (Hq & Hcq & Hg). unfold PciIntersect.
  rewrite bind_assert by (by eapply same_col_trans).
  destruct (intersect_loop_spec (m_pdrgprng p) (m_pdrgprng q) []) as (l & -> & Hl & Hv);
    [done|done|apply ranges_ok_nil|intros a; set_solver|].
  eexists. split; [done|]. split; [done|]. split_and!; [done..|].
  intros [v|]; simpl; rewrite <- Hf, <- Hg; [|done]. apply Hv.
Qed.

Lemma PciDifference_denotes p q c f g :
  denotes p c f -> denotes q c g ->
  exists u, PciDifference p q = Ret u /\ m_pcr u = m_pcr p /\ denotes u c (fun v => f v && negb (g v)).
Proof.
  intros (Hp & Hcp & Hf) (Hq & Hcq & Hg). unfold PciDifference.
  rewrite bind_assert by (by eapply same_col_trans).
  destruct (difference_loop_spec (m_pdrgprng p) (m_pdrgprng q) None []) as (l & -> & Hl & Hv);
    [done|done|done|done|apply ranges_ok_nil|intros; apply ends_by_nil|].
  eexists. split; [done|]. split; [done|]. split_and!; [done..|].
  intros [v|]; simpl; rewrite <- Hf, <- Hg; [|done]. apply Hv.
Qed.

Lemma denotes_self p : interval_ok p -> denotes p (m_pcr p) (in_interval p).
Proof. intros. split_and!; [done|apply same_col_refl|done]. Qed.

Lemma denotes_other p q :
  interval_ok q -> same_col (m_pcr p) (m_pcr q) = true -> denotes q (m_pcr p) (in_interval q).
Proof. by intros. Qed.

Lemma denotes_ext p c f g : (forall v, f v = g v) -> denotes p c f -> denotes p c g.
Proof. intros Hfg (? & ? & Hv). split_and!; [done..|]. intros v. by rewrite Hv. Qed.

End Semantics.

Section Columns.
Context {D : Type} `{CL : ComparatorLaws D} `{ID : IDatum D} `{DL : !DatumLaws D}.
Implicit Types (p q : CConstraintInterval D).

(** The values a column of this type takes: the datums of a boolean column are
    false and true. *)
Definition col_value (c : CColRef) (v : option D) : Prop :=
  match v with
  | None => True
  | Some d => IsNull d = false /\ (is_bool_col c = true -> exists b, d = CreateBoolDatum b)
  end.

Lemma full_range_ok : range_ok (D := D) (mkRange None EriExcluded None EriExcluded).
Proof. by split. Qed.

Lemma bool_range_ok :
  range_ok (mkRange (Some (CreateBoolDatum false)) EriIncluded (Some (CreateBoolDatum true)) EriIncluded).
Proof.
  split; [|done|done]. unfold rcut, lcut. simpl. apply lt_asym, bool_order.
Qed.

Lemma in_bool_range (b : bool) :
  in_range (mkRange (Some (CreateBoolDatum false)) EriIncluded (Some (CreateBoolDatum true)) EriIncluded)
    (CreateBoolDatum b) = true.
Proof.
  unfold in_range. simpl. rewrite !le_spec, andb_true_iff, !negb_true_iff.
  pose proof bool_order as Ho. destruct b; rewrite ?lt_irrefl, ?(lt_asym _ _ Ho); done.
Qed.

(** The unbounded interval has every value of the column. *)
Lemma PciUnbounded_spec tf c n :
  FConstrainableType tf (RetrieveType c) = true ->
  exists p, PciUnbounded (D := D) tf c n = Ret (Some p) /\ m_pcr p = c /\ interval_ok p /\
    m_fIncludesNull p = n /\ (forall v, col_value c (Some v) -> in_interval p (Some v) = true).
Proof.
  intros Hc. unfold PciUnbounded. rewrite Hc. cbn [negb].
  destruct (is_bool_col c) eqn:Eb.
  - rewrite CRange_ctor_ok by apply bool_range_ok. eexists. split; [done|].
    split_and!; [done|apply ranges_ok_single, bool_range_ok|done|].
    intros v [_ Hv]. destruct (Hv Eb) as [b ->]. simpl. by rewrite in_bool_range.
  - rewrite CRange_ctor_ok by apply full_range_ok. eexists. split; [done|].
    split_and!; [done|apply ranges_ok_single, full_range_ok|done|done].
Qed.

(** The complement has the values of the column that the interval has not. *)
Lemma PciComplement_spec tf p :
  interval_ok p -> FConstrainableType tf (RetrieveType (m_pcr p)) = true ->
  exists u, PciComplement tf p = Ret u /\ m_pcr u = m_pcr p /\ interval_ok u /\
    (forall v, in_interval u v = true -> in_interval p v = false) /\
    (forall v, col_value (m_pcr p) v -> in_interval u v = negb (in_interval p v)).
Proof.
  intros Hp Hc. unfold PciComplement.
  destruct (PciUnbounded_spec tf (m_pcr p) true Hc) as (w & -> & Hw & Hok & Hn & Hall).
  cbn [mbind outcome_bind deref].
  destruct (PciDifference_denotes w p (m_pcr p) (in_interval w) (in_interval p)) as (u & -> & Hu & Hok' & _ & Hv).
  { rewrite <- Hw. by apply denotes_self. }
  { by apply denotes_self. }
  exists u. split_and!; [done|by rewrite Hu|done| |].
  - intros v. rewrite Hv, andb_true_iff, negb_true_iff. tauto.
  - intros [v|] Hcv; rewrite Hv; [by rewrite Hall|]. simpl. by rewrite Hn.
Qed.

(** The ends of the ranges are values of the column. *)
Definition typed (p : CConstraintInterval D) : Prop :=
  forall r, r ∈ m_pdrgprng p ->
    (forall d, m_pdatumLeft r = Some d -> col_value (m_pcr p) (Some d)) /\
    (forall d, m_pdatumRight r = Some d -> col_value (m_pcr p) (Some d)).

(** No boolean lies strictly between two booleans. *)
Lemma no_bool_between (l v u : bool) :
  IsLessThan (CreateBoolDatum l) (CreateBoolDatum v) = true ->
  IsLessThan (CreateBoolDatum v) (CreateBoolDatum u) = true -> False.
Proof.
  pose proof bool_order as Ho. destruct l, v, u; rewrite ?lt_irrefl, ?(lt_asym _ _ Ho); done.
Qed.

Lemma FContradiction_sound p v :
  FContradiction p = true -> typed p -> col_value (m_pcr p) v -> in_interval p v = false.
Proof.
  intros Hc Ht Hv. unfold FContradiction in Hc. destruct p as [c rs n]. simpl in *.
  destruct n; simpl in Hc; [by rewrite !andb_false_r in Hc|].
  destruct v as [v|]; [|done]. simpl.
  destruct rs as [|r rs]; [done|]. simpl in Hc. destruct rs as [|]; [|by rewrite !andb_false_r in Hc].
  rewrite !andb_true_r in Hc. destruct (is_bool_col c) eqn:Eb; [|done].
  simpl in Hc. rewrite !andb_true_iff in Hc. destruct Hc as (((H1 & H2) & H3) & H4).
  destruct (Ht r) as [Hl Hr]; [set_solver|].
  destruct r as [[l|] el [u|] er]; try done. simpl in *.
  apply bool_decide_eq_true in H1 as ->. apply bool_decide_eq_true in H2 as ->.
  destruct Hv as [_ Hv]. destruct (Hv Eb) as [bv ->].
  destruct (Hl l eq_refl) as [_ Hl']. destruct (Hl' Eb) as [bl ->].
  destruct (Hr u eq_refl) as [_ Hr']. destruct (Hr' Eb) as [bu ->].
  rewrite orb_false_r. unfold in_range. simpl.
  apply not_true_iff_false. rewrite andb_true_iff. intros [Ha Hb]. exact (no_bool_between _ _ _ Ha Hb).
Qed.

(** A range from one comparison holds the values that satisfy the comparison. *)
Lemma CRange_cmp_ok cmp d : range_ok (D := D) (CRange_cmp cmp d).
Proof. destruct cmp; split; try done. unfold rcut, lcut; simpl. apply lt_irrefl. Qed.

End Columns.

End ConstraintInterval.
