(* ===== verification/ScalarExpr.v ===== *)
(** * Scalar expressions (libgpopt/src/operators/CPredicateUtils.cpp)

    The scalar operators that the constraint code inspects, the functions of
    [CPredicateUtils] and [CUtils] that take predicates apart and put them
    together, and the three-valued meaning of a predicate, against which they
    are proved. *)
From stdpp Require Import base numbers list sets sorting.
From S2P Require Import Prelude Range ConstraintInterval.

Module ScalarExpr.
Import Range ConstraintInterval.

(** [CScalarBoolOp::EBoolOperator] *)
Inductive EBoolOperator := EboolopAnd | EboolopOr | EboolopNot.

(** [CScalarBooleanTest::EBoolTest] *)
Inductive EBoolTest :=
  | EbtIsTrue | EbtIsNotTrue | EbtIsFalse | EbtIsNotFalse | EbtIsUnknown | EbtIsNotUnknown.

(** [CScalarArrayCmp::EArrCmpType] *)
Inductive EArrCmpType := EarrcmpAny | EarrcmpAll.

#[export] Instance boolop_eq_dec : EqDecision EBoolOperator.
Proof. solve_decision. Defined.

(** A scalar expression: the operator of the root with its children.  A
    [CScalarArray] keeps its constants in the operator once it is collapsed. *)
#[warnings="-register-all"]
Inductive CExpression (D : Type) :=
  | CScalarIdent (colref : CColRef)
  | CScalarConst (datum : D)
  | CScalarCast (fBinaryCoercible : bool) (e : CExpression D)
  | CScalarCmp (cmp_type : ECmpType) (l r : CExpression D)
  | CScalarIsDistinctFrom (l r : CExpression D)
  | CScalarBoolOp (eboolop : EBoolOperator) (es : list (CExpression D))
  | CScalarNullTest (e : CExpression D)
  | CScalarBooleanTest (ebt : EBoolTest) (e : CExpression D)
  | CScalarArray (pdrgPconst : list D) (es : list (CExpression D))
  | CScalarArrayCoerceExpr (e : CExpression D)
  | CScalarArrayCmp (earrcmpt : EArrCmpType) (cmp_type : ECmpType) (l array : CExpression D)
  | CScalarOther (op : N) (es : list (CExpression D)).
Arguments CScalarIdent {D} _.
Arguments CScalarConst {D} _.
Arguments CScalarCast {D} _ _.
Arguments CScalarCmp {D} _ _ _.
Arguments CScalarIsDistinctFrom {D} _ _.
Arguments CScalarBoolOp {D} _ _.
Arguments CScalarNullTest {D} _.
Arguments CScalarBooleanTest {D} _ _.
Arguments CScalarArray {D} _ _.
Arguments CScalarArrayCoerceExpr {D} _.
Arguments CScalarArrayCmp {D} _ _ _ _.
Arguments CScalarOther {D} _ _.

(** Induction over an expression and the expressions of its child arrays. *)
Section Induction.
Context {D : Type} (P : CExpression D -> Prop).
Hypothesis HIdent : forall c, P (CScalarIdent c).
Hypothesis HConst : forall d, P (CScalarConst d).
Hypothesis HCast : forall b e, P e -> P (CScalarCast b e).
Hypothesis HCmp : forall c l r, P l -> P r -> P (CScalarCmp c l r).
Hypothesis HIDF : forall l r, P l -> P r -> P (CScalarIsDistinctFrom l r).
Hypothesis HBool : forall o es, Forall P es -> P (CScalarBoolOp o es).
Hypothesis HNull : forall e, P e -> P (CScalarNullTest e).
Hypothesis HTest : forall t e, P e -> P (CScalarBooleanTest t e).
Hypothesis HArray : forall ds es, Forall P es -> P (CScalarArray ds es).
Hypothesis HCoerce : forall e, P e -> P (CScalarArrayCoerceExpr e).
Hypothesis HArrayCmp : forall t c l a, P l -> P a -> P (CScalarArrayCmp t c l a).
Hypothesis HOther : forall o es, Forall P es -> P (CScalarOther o es).

Fixpoint CExpression_induction (e : CExpression D) : P e :=
  let all := fix all (es : list (CExpression D)) : Forall P es :=
    match es with
    | [] => Forall_nil_2 P
    | e' :: es' => Forall_cons_2 P e' es' (CExpression_induction e') (all es')
    end in
  match e with
  | CScalarIdent c => HIdent c
  | CScalarConst d => HConst d
  | CScalarCast b e => HCast b e (CExpression_induction e)
  | CScalarCmp c l r => HCmp c l r (CExpression_induction l) (CExpression_induction r)
  | CScalarIsDistinctFrom l r => HIDF l r (CExpression_induction l) (CExpression_induction r)
  | CScalarBoolOp o es => HBool o es (all es)
  | CScalarNullTest e => HNull e (CExpression_induction e)
  | CScalarBooleanTest t e => HTest t e (CExpression_induction e)
  | CScalarArray ds es => HArray ds es (all es)
  | CScalarArrayCoerceExpr e => HCoerce e (CExpression_induction e)
  | CScalarArrayCmp t c l a => HArrayCmp t c l a (CExpression_induction l) (CExpression_induction a)
  | CScalarOther o es => HOther o es (all es)
  end.
End Induction.

(** ** Structure tests and builders *)

Section Predicates.
Context {D : Type} `{IDatum D}.
Implicit Types (pexpr : CExpression D) (pdrgpexpr : list (CExpression D)).

(** [CExpression::operator[]] and [Arity]: the children *)
Definition children pexpr : list (CExpression D) :=
  match pexpr with
  | CScalarIdent _ | CScalarConst _ => []
  | CScalarCast _ e | CScalarNullTest e | CScalarBooleanTest _ e | CScalarArrayCoerceExpr e => [e]
  | CScalarCmp _ l r | CScalarIsDistinctFrom l r | CScalarArrayCmp _ _ l r => [l; r]
  | CScalarBoolOp _ es | CScalarArray _ es | CScalarOther _ es => es
  end.

(** [CUtils::FScalarBoolOp(pexpr, eboolop)], [CPredicateUtils::FAnd], [FOr], [FNot] *)
Definition FScalarBoolOp pexpr (op : EBoolOperator) : bool :=
  match pexpr with CScalarBoolOp o _ => bool_decide (o = op) | _ => false end.
Definition FAnd pexpr : bool := FScalarBoolOp pexpr EboolopAnd.
Definition FOr pexpr : bool := FScalarBoolOp pexpr EboolopOr.
Definition FNot pexpr : bool := FScalarBoolOp pexpr EboolopNot.

Definition FScalarIdent pexpr : bool := match pexpr with CScalarIdent _ => true | _ => false end.
Definition FScalarConst pexpr : bool := match pexpr with CScalarConst _ => true | _ => false end.
Definition FScalarArray pexpr : bool := match pexpr with CScalarArray _ _ => true | _ => false end.

(** [CUtils::FScalarConstBool] *)
Definition FScalarConstBool pexpr (value : bool) : bool :=
  match pexpr with
  | CScalarConst d =>
      match bool_value d with
      | Some b => negb (IsNull d) && Bool.eqb b value
      | None => false
      end
  | _ => false
  end.
Definition FScalarConstTrue pexpr : bool := FScalarConstBool pexpr true.
Definition FScalarConstFalse pexpr : bool := FScalarConstBool pexpr false.

(** [CUtils::PexprScalarConstBool] *)
Definition PexprScalarConstBool (value : bool) : CExpression D := CScalarConst (CreateBoolDatum value).

(** [CPredicateUtils::FBooleanScalarIdent] *)
Definition FBooleanScalarIdent pexpr : bool :=
  match pexpr with CScalarIdent c => is_bool_col c | _ => false end.

(** [CPredicateUtils::FNegatedBooleanScalarIdent] *)
Definition FNegatedBooleanScalarIdent pexpr : outcome bool :=
  if FNot pexpr then (e ← subscript (children pexpr) 0; mret (FBooleanScalarIdent e))
  else mret false.

(** [CPredicateUtils::FComparison(pexpr, cmp_type)], [IsEqualityOp] *)
Definition FComparison pexpr (cmp_type : ECmpType) : bool :=
  match pexpr with CScalarCmp c _ _ => bool_decide (cmp_type = c) | _ => false end.
Definition IsEqualityOp pexpr : bool := FComparison pexpr EcmptEq.

(** [CPredicateUtils::CollectConjuncts] and [PdrgpexprConjuncts] *)
Fixpoint PdrgpexprConjuncts pexpr : list (CExpression D) :=
  match pexpr with
  | CScalarBoolOp EboolopAnd es => concat (map PdrgpexprConjuncts es)
  | _ => [pexpr]
  end.

(** [CPredicateUtils::CollectDisjuncts] and [PdrgpexprDisjuncts] *)
Fixpoint PdrgpexprDisjuncts pexpr : list (CExpression D) :=
  match pexpr with
  | CScalarBoolOp EboolopOr es => concat (map PdrgpexprDisjuncts es)
  | _ => [pexpr]
  end.

(** The loop of [FConjunctionOfEqComparisons]: it reads the children of [pexpr],
    counted by its conjuncts. *)
Fixpoint conj_eq_loop pexpr (ul n : nat) : outcome bool :=
  match n with
  | 0 => mret true
  | S n' => e ← subscript (children pexpr) ul;
            if IsEqualityOp e then conj_eq_loop pexpr (S ul) n' else mret false
  end.

(** [CPredicateUtils::FConjunctionOfEqComparisons] *)
Definition FConjunctionOfEqComparisons pexpr : outcome bool :=
  if IsEqualityOp pexpr then mret true
  else conj_eq_loop pexpr 0 (length (PdrgpexprConjuncts pexpr)).

(** [CPredicateUtils::FHasNegatedChild] *)
Definition FHasNegatedChild pexpr : bool := existsb FNot (children pexpr).

(** [CPredicateUtils::FSkippable] *)
Definition FSkippable pexpr (fConjunction : bool) : bool :=
  (fConjunction && FScalarConstTrue pexpr) || (negb fConjunction && FScalarConstFalse pexpr).

(** [CPredicateUtils::FReducible] *)
Definition FReducible pexpr (fConjunction : bool) : bool :=
  (fConjunction && FScalarConstFalse pexpr) || (negb fConjunction && FScalarConstTrue pexpr).

(** The loop of [PexprConjDisj]: the components kept, or [None] when one of them
    decides the result. *)
Fixpoint conj_disj_loop pdrgpexpr (fConjunction : bool) (final : list (CExpression D))
    : option (list (CExpression D)) :=
  match pdrgpexpr with
  | [] => Some final
  | pexpr :: rest =>
      if FSkippable pexpr fConjunction then conj_disj_loop rest fConjunction final
      else if FReducible pexpr fConjunction then None
      else conj_disj_loop rest fConjunction (final ++ [pexpr])
  end.

(** [CPredicateUtils::PexprConjDisj(mp, pdrgpexpr, fConjunction)] *)
Definition PexprConjDisj pdrgpexpr (fConjunction : bool) : CExpression D :=
  let eboolop := if fConjunction then EboolopAnd else EboolopOr in
  match conj_disj_loop pdrgpexpr fConjunction [] with
  | None => PexprScalarConstBool (negb fConjunction)
  | Some [] => PexprScalarConstBool fConjunction
  | Some [pexpr] => pexpr
  | Some final => CScalarBoolOp eboolop final
  end.
Definition PexprConjunction pdrgpexpr : CExpression D := PexprConjDisj pdrgpexpr true.
Definition PexprDisjunction pdrgpexpr : CExpression D := PexprConjDisj pdrgpexpr false.

(** [CPredicateUtils::PexprConjDisj(mp, pexprOne, pexprTwo, fConjunction)], for
    two expressions that are not the same object *)
Definition PexprConjDisj2 (pexprOne pexprTwo : CExpression D) (fConjunction : bool) : CExpression D :=
  if fConjunction
  then PexprConjDisj (PdrgpexprConjuncts pexprOne ++ PdrgpexprConjuncts pexprTwo) fConjunction
  else PexprConjDisj (PdrgpexprDisjuncts pexprOne ++ PdrgpexprDisjuncts pexprTwo) fConjunction.

(** [CPredicateUtils::EcmptReverse]; comparisons outside the table stop at the
    assertion *)
Definition EcmptReverse (cmp_type : ECmpType) : outcome ECmpType :=
  match cmp_type with
  | EcmptEq => mret EcmptEq
  | EcmptG => mret EcmptL
  | EcmptL => mret EcmptG
  | EcmptGEq => mret EcmptLEq
  | EcmptLEq => mret EcmptGEq
  | EcmptNEq => mret EcmptNEq
  | _ => Abort FAssert
  end.

(** [CCastUtils::FBinaryCoercibleCastedScId], [FBinaryCoercibleCastedConst] *)
Definition FBinaryCoercibleCastedScId pexpr : bool :=
  match pexpr with CScalarCast true e => FScalarIdent e | _ => false end.
Definition FBinaryCoercibleCastedConst pexpr : bool :=
  match pexpr with CScalarCast true e => FScalarConst e | _ => false end.

(** [CScalarIdent::FCastedScId], [CScalarConst::FCastedConst] *)
Definition FCastedScId pexpr : bool :=
  match pexpr with CScalarCast _ e => FScalarIdent e | _ => false end.
Definition FCastedConst pexpr : bool :=
  match pexpr with CScalarCast _ e => FScalarConst e | _ => false end.

(** [CPredicateUtils::FCompareIdentToConst] *)
Definition FCompareIdentToConst pexpr : bool :=
  match pexpr with
  | CScalarCmp _ l r =>
      (FScalarIdent l || FBinaryCoercibleCastedScId l) &&
      (FScalarConst r || FBinaryCoercibleCastedConst r)
  | _ => false
  end.

(** [CPredicateUtils::FIdentIDFConst] *)
Definition FIdentIDFConst pexpr : bool :=
  match pexpr with CScalarIsDistinctFrom l r => FScalarIdent l && FScalarConst r | _ => false end.

(** [CPredicateUtils::FPlainEquality] *)
Definition FPlainEquality pexpr : bool :=
  match pexpr with
  | CScalarCmp EcmptEq l r => FScalarIdent l && FScalarIdent r
  | _ => false
  end.

(** [CPredicateUtils::FPlainEqualityIdentConstWithoutCast] *)
Definition FPlainEqualityIdentConstWithoutCast pexpr : bool :=
  match pexpr with
  | CScalarCmp EcmptEq l r =>
      (FScalarIdent l || FScalarConst l) && (FScalarIdent r || FScalarConst r)
  | _ => false
  end.

(** [CPredicateUtils::FIdentCompareConstIgnoreCast(pexpr, EopScalarCmp)] and
    [(pexpr, EopScalarIsDistinctFrom)] *)
Definition FIdentCompareConstIgnoreCast pexpr (fIDF : bool) : bool :=
  match pexpr, fIDF with
  | CScalarCmp _ l r, false | CScalarIsDistinctFrom l r, true =>
      (FScalarIdent l && FScalarConst r) || (FCastedScId l && FScalarConst r) ||
      (FScalarIdent l && FCastedConst r) || (FCastedScId l && FCastedConst r)
  | _, _ => false
  end.

(** [CPredicateUtils::FSelfComparison]: the result and the reported comparison *)
Definition FSelfComparison pexpr (pcrsNotNull : N -> bool) : bool * ECmpType :=
  match pexpr with
  | CScalarCmp c l r =>
      match l, r with
      | CScalarIdent a, CScalarIdent b =>
          if negb (same_col a b) then (false, c) else (pcrsNotNull (m_id a), c)
      | _, _ => (false, c)
      end
  | _ => (false, EcmptOther)
  end.

(** [CPredicateUtils::PexprEliminateSelfComparison] *)
Definition PexprEliminateSelfComparison pexpr (pcrsNotNull : N -> bool) : CExpression D :=
  match FSelfComparison pexpr pcrsNotNull with
  | (true, (EcmptEq | EcmptLEq | EcmptGEq)) => PexprScalarConstBool true
  | (true, (EcmptNEq | EcmptL | EcmptG | EcmptIDF)) => PexprScalarConstBool false
  | _ => pexpr
  end.

(** [CPredicateUtils::FIDF], [FINDF], [FIDFFalse] *)
Definition FIDF pexpr : bool := match pexpr with CScalarIsDistinctFrom _ _ => true | _ => false end.
Definition FINDF pexpr : outcome bool :=
  if FNot pexpr then (e ← subscript (children pexpr) 0; mret (FIDF e)) else mret false.
Definition FIDFFalse pexpr : bool :=
  match pexpr with
  | CScalarIsDistinctFrom l r => FScalarConstFalse l || FScalarConstFalse r
  | _ => false
  end.

(** [CUtils::PexprScalarArrayChild] of the second child *)
Definition PexprScalarArrayChild (array : CExpression D) : CExpression D :=
  match array with CScalarArrayCoerceExpr e => e | _ => array end.

(** [CUtils::FScalarConstArray] *)
Definition FScalarConstArray pexpr : bool :=
  match pexpr with CScalarArray _ es => forallb FScalarConst es | _ => false end.

(** [CUtils::UlScalarArrayArity] and the constants [CUtils::PScalarArrayConstChildAt]
    returns at the positions below it, for an array of constants *)
Definition array_consts pexpr : list D :=
  match pexpr with
  | CScalarArray consts [] => consts
  | CScalarArray _ es => omap (fun e => match e with CScalarConst d => Some d | _ => None end) es
  | _ => []
  end.

(** [CPredicateUtils::FCompareIdentToConstArray] *)
Definition FCompareIdentToConstArray pexpr : bool :=
  match pexpr with
  | CScalarArrayCmp _ _ l a =>
      FScalarIdent l && FScalarArray a && FScalarConstArray (PexprScalarArrayChild a)
  | _ => false
  end.

(** [CPredicateUtils::FCompareCastIdentToConstArray] *)
Definition FCompareCastIdentToConstArray pexpr : bool :=
  match pexpr with
  | CScalarArrayCmp _ _ l a =>
      FBinaryCoercibleCastedScId l && FScalarConstArray (PexprScalarArrayChild a)
  | _ => false
  end.

(** [CUtils::PexprIsNull], [PexprIsNotNull] of a column, [PexprScalarCmp] *)
Definition PexprIsNull (c : CColRef) : CExpression D := CScalarNullTest (CScalarIdent c).
Definition PexprIsNotNull (c : CColRef) : CExpression D := CScalarBoolOp EboolopNot [PexprIsNull c].
Definition PexprScalarCmp (c : CColRef) (d : D) (cmp_type : ECmpType) : CExpression D :=
  CScalarCmp cmp_type (CScalarIdent c) (CScalarConst d).

End Predicates.

(** ** Three-valued meaning

    [None] is NULL, as a value and as a truth value. *)

Definition not3 (a : option bool) : option bool := negb <$> a.
Definition and3 (a b : option bool) : option bool :=
  match a, b with
  | Some false, _ | _, Some false => Some false
  | Some true, Some true => Some true
  | _, _ => None
  end.
Definition or3 (a b : option bool) : option bool :=
  match a, b with
  | Some true, _ | _, Some true => Some true
  | Some false, Some false => Some false
  | _, _ => None
  end.
Definition all3 (l : list (option bool)) : option bool := foldr and3 (Some true) l.
Definition any3 (l : list (option bool)) : option bool := foldr or3 (Some false) l.

(** The executor's meaning of the operators the optimizer does not look into. *)
Record OtherOps (D : Type) := mkOther {
  sem_cast : option D -> option D;
  sem_cmp_other : D -> D -> option bool;
  sem_op : N -> list (option D) -> option D
}.
Arguments sem_cast {D} _ _.
Arguments sem_cmp_other {D} _ _ _.
Arguments sem_op {D} _ _ _.

Section Meaning.
Context {D : Type} `{IComparator D} `{IDatum D} (oo : OtherOps D).

Definition of_bool (b : option bool) : option D := CreateBoolDatum <$> b.
Definition truth (v : option D) : option bool := v ≫= bool_value.
Definition datum_of_const (d : D) : option D := if IsNull d then None else Some d.

(** Comparison of two values that are not NULL. *)
Definition cmp_sem (c : ECmpType) (a b : D) : option bool :=
  match c with
  | EcmptEq => Some (Equals a b)
  | EcmptNEq => Some (negb (Equals a b))
  | EcmptL => Some (IsLessThan a b)
  | EcmptLEq => Some (IsLessThanOrEqual a b)
  | EcmptG => Some (IsGreaterThan a b)
  | EcmptGEq => Some (IsGreaterThanOrEqual a b)
  | EcmptIDF => Some (negb (Equals a b))
  | EcmptOther => sem_cmp_other oo a b
  end.

Definition cmp3 (c : ECmpType) (a b : option D) : option bool :=
  match a, b with Some x, Some y => cmp_sem c x y | _, _ => None end.

Definition distinct (a b : option D) : bool :=
  match a, b with
  | None, None => false
  | Some x, Some y => negb (Equals x y)
  | _, _ => true
  end.

Definition test3 (t : EBoolTest) (a : option bool) : bool :=
  match t with
  | EbtIsTrue => bool_decide (a = Some true)
  | EbtIsNotTrue => negb (bool_decide (a = Some true))
  | EbtIsFalse => bool_decide (a = Some false)
  | EbtIsNotFalse => negb (bool_decide (a = Some false))
  | EbtIsUnknown => bool_decide (a = None)
  | EbtIsNotUnknown => negb (bool_decide (a = None))
  end.

(** The value of an expression in a row; [row] gives the value of each column. *)
Fixpoint eval (row : N -> option D) (e : CExpression D) : option D :=
  match e with
  | CScalarIdent c => row (m_id c)
  | CScalarConst d => datum_of_const d
  | CScalarCast b e => if b then eval row e else sem_cast oo (eval row e)
  | CScalarCmp c l r => of_bool (cmp3 c (eval row l) (eval row r))
  | CScalarIsDistinctFrom l r => of_bool (Some (distinct (eval row l) (eval row r)))
  | CScalarBoolOp op es =>
      let bs := map (fun e => truth (eval row e)) es in
      of_bool (match op with
               | EboolopAnd => all3 bs
               | EboolopOr => any3 bs
               | EboolopNot => not3 (default None (head bs))
               end)
  | CScalarNullTest e => of_bool (Some (bool_decide (eval row e = None)))
  | CScalarBooleanTest t e => of_bool (Some (test3 t (truth (eval row e))))
  | CScalarArray _ _ | CScalarArrayCoerceExpr _ => None
  | CScalarArrayCmp t c l a =>
      let elems := match a with
                   | CScalarArray consts [] | CScalarArrayCoerceExpr (CScalarArray consts []) =>
                       map datum_of_const consts
                   | CScalarArray _ es | CScalarArrayCoerceExpr (CScalarArray _ es) =>
                       map (eval row) es
                   | _ => []
                   end in
      let bs := map (cmp3 c (eval row l)) elems in
      of_bool (match t with EarrcmpAny => any3 bs | EarrcmpAll => all3 bs end)
  | CScalarOther op es => sem_op oo op (map (eval row) es)
  end.

(** The truth value of a predicate. *)
Definition eval_bool (row : N -> option D) (e : CExpression D) : option bool := truth (eval row e).

End Meaning.

(** ** The builders keep the meaning *)

Section Proofs.
Context {D : Type} `{CL : ComparatorLaws D} `{ID : IDatum D} `{DL : !DatumLaws D} (oo : OtherOps D).
Implicit Types (e : CExpression D) (es : list (CExpression D)).

Lemma truth_of_bool b : truth (of_bool (D := D) b) = b.
Proof. destruct b as [b|]; [|done]. unfold truth, of_bool. simpl. apply bool_get. Qed.

Lemma all3_app l1 l2 : all3 (l1 ++ l2) = and3 (all3 l1) (all3 l2).
Proof.
  induction l1 as [|a l1 IH]; simpl; [by destruct (all3 l2) as [[]|]|].
  unfold all3 in *. rewrite IH. by destruct a as [[]|], (foldr and3 _ l1) as [[]|], (foldr and3 _ l2) as [[]|].
Qed.

Lemma any3_app l1 l2 : any3 (l1 ++ l2) = or3 (any3 l1) (any3 l2).
Proof.
  induction l1 as [|a l1 IH]; simpl; [by destruct (any3 l2) as [[]|]|].
  unfold any3 in *. rewrite IH. by destruct a as [[]|], (foldr or3 _ l1) as [[]|], (foldr or3 _ l2) as [[]|].
Qed.

(** [junct3 true] is the conjunction and [junct3 false] the disjunction of truth values. *)
Definition junct3 (fConjunction : bool) (l : list (option bool)) : option bool :=
  if fConjunction then all3 l else any3 l.

Lemma junct3_app (f : bool) l1 l2 :
  junct3 f (l1 ++ l2) = (if f then and3 else or3) (junct3 f l1) (junct3 f l2).
Proof. destruct f; [apply all3_app|apply any3_app]. Qed.

Lemma junct3_single f a : junct3 f [a] = a.
Proof. by destruct f, a as [[]|]. Qed.

Lemma const_bool_eval row e b : FScalarConstBool e b = true -> eval_bool oo row e = Some b.
Proof.
  destruct e; try done. unfold FScalarConstBool, eval_bool. simpl. unfold datum_of_const, truth.
  destruct (bool_value datum) as [b'|] eqn:Eb; [|done].
  destruct (IsNull datum); [done|]. simpl. intros Heq%Bool.eqb_prop. rewrite Eb. by subst.
Qed.

Lemma PexprScalarConstBool_eval row b : eval_bool oo row (PexprScalarConstBool b) = Some b.
Proof. apply const_bool_eval. simpl. rewrite bool_get, bool_not_null. by destruct b. Qed.

Lemma eval_bool_op row (f : bool) es :
  eval_bool oo row (CScalarBoolOp (if f then EboolopAnd else EboolopOr) es) =
  junct3 f (map (eval_bool oo row) es).
Proof. unfold eval_bool. destruct f; simpl; by rewrite truth_of_bool. Qed.

Lemma eval_not row e es :
  eval_bool oo row (CScalarBoolOp EboolopNot (e :: es)) = not3 (eval_bool oo row e).
Proof. unfold eval_bool. simpl. by rewrite truth_of_bool. Qed.

(** The loop keeps the combined truth value, or the value is the deciding constant. *)
Lemma conj_disj_loop_eval row (f : bool) es final :
  match conj_disj_loop es f final with
  | Some l => junct3 f (map (eval_bool oo row) l) = junct3 f (map (eval_bool oo row) (final ++ es))
  | None => junct3 f (map (eval_bool oo row) (final ++ es)) = Some (negb f)
  end.
Proof.
  revert final. induction es as [|e es IH]; intros final; simpl.
  { by rewrite app_nil_r. }
  assert (Hsplit : junct3 f (map (eval_bool oo row) (final ++ e :: es)) =
    (if f then and3 else or3) (junct3 f (map (eval_bool oo row) final))
      ((if f then and3 else or3) (eval_bool oo row e) (junct3 f (map (eval_bool oo row) es)))).
  { rewrite map_app, junct3_app. f_equal. by destruct f. }
  destruct (FSkippable e f) eqn:Es.
  - assert (He : eval_bool oo row e = Some f).
    { unfold FSkippable in Es. destruct f; simpl in Es; apply const_bool_eval; rewrite ?orb_false_r in Es; done. }
    specialize (IH final). rewrite Hsplit, He.
    rewrite map_app, junct3_app in IH. destruct (conj_disj_loop es f final); [rewrite IH|rewrite <- IH];
      by destruct f, (junct3 _ (map _ final)) as [[]|], (junct3 _ (map _ es)) as [[]|].
  - destruct (FReducible e f) eqn:Er.
    + assert (He : eval_bool oo row e = Some (negb f)).
      { unfold FReducible in Er. destruct f; simpl in Er; apply const_bool_eval; rewrite ?orb_false_r in Er; done. }
      rewrite Hsplit, He. by destruct f, (junct3 _ (map _ final)) as [[]|], (junct3 _ (map _ es)) as [[]|].
    + specialize (IH (final ++ [e])). rewrite <- app_assoc in IH. exact IH.
Qed.

Lemma PexprConjDisj_eval row (f : bool) es :
  eval_bool oo row (PexprConjDisj es f) = junct3 f (map (eval_bool oo row) es).
Proof.
  unfold PexprConjDisj. pose proof (conj_disj_loop_eval row f es []) as Hl. simpl in Hl.
  destruct (conj_disj_loop es f []) as [l|]; [|by rewrite PexprScalarConstBool_eval].
  rewrite <- Hl. destruct l as [|e1 [|e2 l]].
  - rewrite PexprScalarConstBool_eval. by destruct f.
  - symmetry. apply junct3_single.
  - apply eval_bool_op.
Qed.

Lemma juncts_concat row (f : bool) (g : CExpression D -> list (CExpression D)) es :
  Forall (fun e => junct3 f (map (eval_bool oo row) (g e)) = eval_bool oo row e) es ->
  junct3 f (map (eval_bool oo row) (concat (map g es))) = junct3 f (map (eval_bool oo row) es).
Proof.
  induction 1 as [|e es He _ IH]; [done|]. simpl. rewrite map_app, junct3_app, He, IH. by destruct f.
Qed.

Lemma PdrgpexprConjuncts_eval row e :
  junct3 true (map (eval_bool oo row) (PdrgpexprConjuncts e)) = eval_bool oo row e.
Proof.
  induction e using CExpression_induction; try apply (junct3_single true).
  destruct o; try apply (junct3_single true). simpl PdrgpexprConjuncts.
  rewrite (juncts_concat row true PdrgpexprConjuncts) by done. symmetry. apply (eval_bool_op row true).
Qed.

Lemma PdrgpexprDisjuncts_eval row e :
  junct3 false (map (eval_bool oo row) (PdrgpexprDisjuncts e)) = eval_bool oo row e.
Proof.
  induction e using CExpression_induction; try apply (junct3_single false).
  destruct o; try apply (junct3_single false). simpl PdrgpexprDisjuncts.
  rewrite (juncts_concat row false PdrgpexprDisjuncts) by done. symmetry. apply (eval_bool_op row false).
Qed.

Lemma PexprConjDisj2_eval row (f : bool) e1 e2 :
  eval_bool oo row (PexprConjDisj2 e1 e2 f) =
  (if f then and3 else or3) (eval_bool oo row e1) (eval_bool oo row e2).
Proof.
  unfold PexprConjDisj2. destruct f; rewrite PexprConjDisj_eval, map_app, junct3_app.
  - by rewrite !PdrgpexprConjuncts_eval.
  - by rewrite !PdrgpexprDisjuncts_eval.
Qed.

Lemma Equals_refl (d : D) : Equals d d = true.
Proof. by rewrite eq_spec, lt_irrefl. Qed.

Lemma EcmptReverse_eval c c' (a b : option D) :
  EcmptReverse c = Ret c' -> cmp3 oo c' a b = cmp3 oo c b a.
Proof.
  intros Hc. destruct a as [x|], b as [y|]; try done. simpl.
  destruct c; simpl in Hc; simplify_eq Hc; intros; subst; simpl;
    rewrite ?eq_spec, ?le_spec, ?gt_spec, ?ge_spec; try done;
    by rewrite ?(andb_comm (negb (IsLessThan x y))).
Qed.

(** A self comparison of a column that is not NULL is replaced by its value. *)
Lemma PexprEliminateSelfComparison_eval row e (notnull : N -> bool) :
  (forall id, notnull id = true -> is_Some (row id)) ->
  eval_bool oo row (PexprEliminateSelfComparison e notnull) = eval_bool oo row e.
Proof.
  intros Hnn. unfold PexprEliminateSelfComparison, FSelfComparison.
  destruct e as [| | |c l r| | | | | | | |]; try done.
  destruct l as [a| | | | | | | | | | |]; try (by destruct c).
  destruct r as [b| | | | | | | | | | |]; try (by destruct c).
  destruct (same_col a b) eqn:Eab; simpl; [|by destruct c].
  destruct (notnull (m_id a)) eqn:En; [|by destruct c].
  apply N.eqb_eq in Eab. destruct (Hnn _ En) as [x Ex].
  assert (Hev : eval_bool oo row (CScalarCmp c (CScalarIdent a) (CScalarIdent b)) = cmp_sem oo c x x).
  { unfold eval_bool. simpl. by rewrite truth_of_bool, <- Eab, Ex. }
  rewrite Hev. destruct c; rewrite ?PexprScalarConstBool_eval; simpl;
    rewrite ?Equals_refl, ?le_spec, ?gt_spec, ?ge_spec, ?lt_irrefl; try done.
Qed.

End Proofs.

End ScalarExpr.
