(* ===== verification/ScalarInterval.v ===== *)
(** * Intervals from predicates and back (CConstraintInterval.cpp, CDatumSortedSet.cpp, CRange.cpp)

    [PciIntervalFromScalarExpr] derives the interval of one column from a
    predicate; [PexprScalar] turns an interval back into a predicate.  The
    theorems relate both to the three-valued meaning of the predicate. *)
From stdpp Require Import base numbers list sets sorting.
From S2P Require Import Prelude Range ConstraintInterval ScalarExpr.

Module ScalarInterval.
Import Range ConstraintInterval ScalarExpr.

(** [IMDIndex::EmdindexType] *)
Inductive EmdindexType :=
  | EmdindBtree | EmdindHash | EmdindBitmap | EmdindGist | EmdindGin | EmdindBrin | EmdindSentinel.

(** The optimizer context of a call: the trace flags, and the metadata query
    [CPredicateUtils::FOpInOpfamily(pexprScalar, pexpr, access_method)]. *)
Record Ctxt (D : Type) := mkCtxt {
  flags : TraceFlags;
  FOpInOpfamily : CExpression D -> CExpression D -> EmdindexType -> bool
}.
Arguments flags {D} _.
Arguments FOpInOpfamily {D} _ _ _ _.

(** ** Sorted datums *)

Section SortedSet.
Context {D : Type} `{IComparator D} `{IDatum D}.

(** [CUtils::IDatumCmp] *)
Definition IDatumCmp (a b : D) : Z :=
  if Equals a b then 0%Z else if IsLessThan a b then (-1)%Z else 1%Z.

(** [CDynamicPtrArray::IsSorted] *)
Fixpoint IsSorted (l : list D) : bool :=
  match l with
  | a :: ((b :: _) as t) => if (0 <? IDatumCmp a b)%Z then false else IsSorted t
  | _ => true
  end.

(** [CDynamicPtrArray::Sort] calls the C library's [qsort] with the comparison;
    here it is an insertion sort. *)
Fixpoint insert_datum (d : D) (l : list D) : list D :=
  match l with
  | [] => [d]
  | a :: l' => if (0 <? IDatumCmp d a)%Z then a :: insert_datum d l' else d :: a :: l'
  end.
Definition Sort (l : list D) : list D := foldr insert_datum [] l.

(** The de-duplication loop of the constructor. *)
Fixpoint dedup_loop (pdatumPrev : D) (l : list D) : list D :=
  match l with
  | [] => []
  | d :: l' => if negb (Equals d pdatumPrev) then d :: dedup_loop d l' else dedup_loop pdatumPrev l'
  end.

Record CDatumSortedSet := mkSortedSet { ss_datums : list D; ss_fIncludesNull : bool }.

(** [CDatumSortedSet::CDatumSortedSet] *)
Definition CDatumSortedSet_ctor (consts : list D) : outcome CDatumSortedSet :=
  _ ← GPOS_ASSERT (bool_decide (0 < length consts));
  let fIncludesNull := existsb IsNull consts in
  let aprngdatum := filter (fun d => IsNull d = false) consts in
  match (if IsSorted aprngdatum then aprngdatum else Sort aprngdatum) with
  | [] => mret (mkSortedSet [] fIncludesNull)
  | pdatumPrev :: rest => mret (mkSortedSet (pdatumPrev :: dedup_loop pdatumPrev rest) fIncludesNull)
  end.

End SortedSet.
Arguments CDatumSortedSet D : clear implicits.

(** ** From predicates to intervals *)

Section Derive.
Context {D : Type} `{IComparator D} `{IDatum D} (ctx : Ctxt D).

Abbreviation pci := (option (CConstraintInterval D)).

(** The ids of the columns an expression uses ([DeriveUsedColumns]). *)
Fixpoint used_columns (e : CExpression D) : list N :=
  match e with
  | CScalarIdent c => [m_id c]
  | CScalarConst _ => []
  | CScalarCast _ e | CScalarNullTest e | CScalarBooleanTest _ e | CScalarArrayCoerceExpr e => used_columns e
  | CScalarCmp _ l r | CScalarIsDistinctFrom l r | CScalarArrayCmp _ _ l r => used_columns l ++ used_columns r
  | CScalarBoolOp _ es | CScalarArray _ es | CScalarOther _ es => concat (map used_columns es)
  end.

(** [CConstraintInterval::PciIntervalFromScalarNullAndUnknownTest], on the child *)
Definition PciIntervalFromScalarNullAndUnknownTest (child : CExpression D) (colref : CColRef) : outcome pci :=
  match child with
  | CScalarIdent c =>
      _ ← GPOS_ASSERT (same_col colref c);
      mret (Some (mkCI colref [] true))
  | _ => mret None
  end.

(** [CConstraintInterval::PciIntervalFromScalarIdent] *)
Definition PciIntervalFromScalarIdent (colref : CColRef) (infer_nulls_as : bool) : outcome pci :=
  _ ← GPOS_ASSERT (is_bool_col colref);
  mret (Some (mkCI colref [CRange_cmp EcmptEq (CreateBoolDatum true)] infer_nulls_as)).

(** The identifier of [col] or of a cast of it, and the constant of [const] or
    of a binary coercible cast of it. *)
Definition ident_of (e : CExpression D) : option CColRef :=
  match e with CScalarIdent c | CScalarCast _ (CScalarIdent c) => Some c | _ => None end.
Definition const_of (e : CExpression D) : option D :=
  match e with CScalarConst d | CScalarCast _ (CScalarConst d) => Some d | _ => None end.

(** [CConstraintInterval::PciIntervalFromScalarCmp] *)
Definition PciIntervalFromScalarCmp (pexpr : CExpression D) (colref : CColRef) (infer_nulls_as : bool)
    (access_method : EmdindexType) : outcome pci :=
  match pexpr with
  | CScalarCmp cmp_type pexprLeft pexprRight =>
      if FCompareIdentToConst pexpr then
        if EopttraceConsiderOpfamiliesForDistribution (flags ctx) &&
           (negb (FOpInOpfamily ctx pexprLeft pexpr access_method) ||
            negb (FOpInOpfamily ctx pexprRight pexpr access_method))
        then mret None
        else
          popScId ← deref (ident_of pexprLeft);
          _ ← GPOS_ASSERT (same_col colref popScId);
          datum ← deref (const_of pexprRight);
          mret (PciIntervalFromColConstCmp colref cmp_type datum infer_nulls_as)
      else mret None
  | _ => Abort FAssert
  end.

(** [CConstraintInterval::PciIntervalFromScalarIDF] *)
Definition PciIntervalFromScalarIDF (pexpr : CExpression D) (colref : CColRef) : outcome pci :=
  match pexpr with
  | CScalarIsDistinctFrom (CScalarIdent c) (CScalarConst datum) =>
      _ ← GPOS_ASSERT (same_col colref c);
      if IsNull datum then Some <$> PciComplement (flags ctx) (mkCI colref [] true)
      else mret match PciRangeFromColConstCmp EcmptIDF datum with
           | Some pdrgprng => Some (mkCI colref pdrgprng true)
           | None => None
           end
  | CScalarIsDistinctFrom _ _ => mret None
  | _ => Abort FAssert
  end.

(** The NOT IN branch of [PcnstrIntervalFromScalarArrayCmp] *)
Fixpoint ranges_not_in (pprevdatum : option D) (ds : list D) : outcome (list (CRange D)) :=
  match ds with
  | [] =>
      p ← deref pprevdatum;
      prng ← CRange_ctor (Some p) EriExcluded None EriExcluded;
      mret [prng]
  | datum :: ds' =>
      prng ← CRange_ctor pprevdatum EriExcluded (Some datum) EriExcluded;
      rest ← ranges_not_in (Some datum) ds';
      mret (prng :: rest)
  end.

(** [CConstraintInterval::PcnstrIntervalFromScalarArrayCmp] *)
Definition PcnstrIntervalFromScalarArrayCmp (pexpr : CExpression D) (colref : CColRef)
    (infer_nulls_as : bool) : outcome pci :=
  if negb (FCompareIdentToConstArray pexpr || FCompareCastIdentToConstArray pexpr) then mret None else
  match pexpr with
  | CScalarArrayCmp _ cmp_type l array =>
      popScId ← deref (ident_of l);
      _ ← GPOS_ASSERT (same_col colref popScId);
      let consts := array_consts (PexprScalarArrayChild array) in
      if bool_decide (length consts = 0) then mret None else
      set ← CDatumSortedSet_ctor consts;
      match cmp_type with
      | EcmptEq => mret (Some (mkCI colref (map (CRange_cmp EcmptEq) (ss_datums set)) infer_nulls_as))
      | EcmptNEq =>
          prgrng ← ranges_not_in None (ss_datums set);
          mret (Some (mkCI colref prgrng infer_nulls_as))
      | _ => mret None
      end
  | _ => mret None
  end.

(** The loop of [PciIntervalFromScalarBoolAnd] over the children after the first *)
Definition BoolAnd_loop (derive : CExpression D -> outcome pci) :
    list (CExpression D) -> pci -> outcome pci :=
  fix go es pci :=
    match es with
    | [] => mret pci
    | e :: es' =>
        pciChild ← derive e;
        pci' ← match pciChild, pci with
               | Some c, Some p => Some <$> PciIntersect p c
               | Some c, None => mret (Some c)
               | None, _ => mret pci
               end;
        go es' pci'
    end.

(** [CConstraintInterval::PciIntervalFromScalarBoolAnd] *)
Definition PciIntervalFromScalarBoolAnd (derive : CExpression D -> outcome pci)
    (es : list (CExpression D)) : outcome pci :=
  match es with
  | [] => Abort FAssert
  | e :: es' => (pci ← derive e; BoolAnd_loop derive es' pci)
  end.

(** The child intervals of [PciIntervalFromScalarBoolOr], up to the first null one *)
Definition BoolOr_children (derive : CExpression D -> outcome pci) :
    list (CExpression D) -> list (CConstraintInterval D) ->
    outcome (option (list (CConstraintInterval D))) :=
  fix go es child_constraints :=
    match es with
    | [] => mret (Some child_constraints)
    | e :: es' =>
        pciChild ← derive e;
        match pciChild with
        | None => mret None
        | Some c => go es' (child_constraints ++ [c])
        end
    end.

(** One pass over the array: the union of the intervals in pairs. *)
Fixpoint union_pairs (l : list (CConstraintInterval D)) : outcome (list (CConstraintInterval D)) :=
  match l with
  | pci1 :: pci2 :: l' =>
      pciOr ← PciUnion pci1 pci2;
      rest ← union_pairs l';
      mret (pciOr :: rest)
  | _ => mret l
  end.

(** The loop [while (child_constraints->Size() > 1)] *)
Fixpoint union_rounds (fuel : nat) (l : list (CConstraintInterval D))
    : outcome (list (CConstraintInterval D)) :=
  if (1 <? length l)%nat then
    match fuel with
    | O => Abort FFuel
    | S fuel' => (l' ← union_pairs l; union_rounds fuel' l')
    end
  else mret l.

(** [CConstraintInterval::PciIntervalFromScalarBoolOr] *)
Definition PciIntervalFromScalarBoolOr (derive : CExpression D -> outcome pci)
    (es : list (CExpression D)) : outcome pci :=
  _ ← GPOS_ASSERT (bool_decide (0 < length es));
  child_constraints ← BoolOr_children derive es [];
  match child_constraints with
  | None => mret None
  | Some l =>
      dest ← union_rounds (length l) l;
      match dest with
      | [p] => mret (Some p)
      | _ => Abort FAssert
      end
  end.

(** The complement of a derived child, null for a null child. *)
Definition complement_of (o : pci) : outcome pci :=
  match o with
  | None => mret None
  | Some p => Some <$> PciComplement (flags ctx) p
  end.

(** [CConstraintInterval::PciIntervalFromScalarExpr], with
    [PciIntervalFromScalarBooleanTest] and [PciIntervalFromScalarBoolOp] *)
Fixpoint PciIntervalFromScalarExpr (pexpr : CExpression D) (colref : CColRef) (infer_nulls_as : bool)
    (access_method : EmdindexType) {struct pexpr} : outcome pci :=
  _ ← GPOS_ASSERT (bool_decide (length (remove_dups (used_columns pexpr)) <= 1));
  match pexpr with
  | CScalarNullTest e => PciIntervalFromScalarNullAndUnknownTest e colref
  | CScalarBooleanTest ebt e =>
      match ebt with
      | EbtIsTrue => PciIntervalFromScalarExpr e colref false EmdindSentinel
      | EbtIsNotFalse => PciIntervalFromScalarExpr e colref true EmdindSentinel
      | EbtIsNotTrue =>
          pciChild ← PciIntervalFromScalarExpr e colref false EmdindSentinel;
          complement_of pciChild
      | EbtIsFalse =>
          pciChild ← PciIntervalFromScalarExpr e colref true EmdindSentinel;
          complement_of pciChild
      | EbtIsUnknown => PciIntervalFromScalarNullAndUnknownTest e colref
      | EbtIsNotUnknown =>
          pciNullTest ← PciIntervalFromScalarNullAndUnknownTest e colref;
          complement_of pciNullTest
      end
  | CScalarBoolOp EboolopAnd es =>
      PciIntervalFromScalarBoolAnd
        (fun e => PciIntervalFromScalarExpr e colref infer_nulls_as access_method) es
  | CScalarBoolOp EboolopOr es =>
      PciIntervalFromScalarBoolOr
        (fun e => PciIntervalFromScalarExpr e colref infer_nulls_as access_method) es
  | CScalarBoolOp EboolopNot es =>
      match es with
      | [] => Abort FBounds
      | e :: _ =>
          pciChild ← PciIntervalFromScalarExpr e colref (negb infer_nulls_as) EmdindSentinel;
          complement_of pciChild
      end
  | CScalarIdent _ => PciIntervalFromScalarIdent colref infer_nulls_as
  | CScalarCmp _ _ _ => PciIntervalFromScalarCmp pexpr colref infer_nulls_as access_method
  | CScalarIsDistinctFrom _ _ => PciIntervalFromScalarIDF pexpr colref
  | CScalarConst _ =>
      if FScalarConstTrue pexpr then PciUnbounded (flags ctx) colref true
      else mret (Some (mkCI colref [] false))
  | CScalarArrayCmp _ _ _ _ =>
      if EopttraceArrayConstraints (flags ctx)
      then PcnstrIntervalFromScalarArrayCmp pexpr colref infer_nulls_as
      else mret None
  | _ => mret None
  end.

End Derive.

(** ** From intervals to predicates *)

Section Construct.
Context {D : Type} `{IComparator D} `{IDatum D} (ctx : Ctxt D).
Implicit Types (this : CConstraintInterval D).

(** [CRange::PexprEquality] *)
Definition PexprEquality (r : CRange D) (colref : CColRef) : option (CExpression D) :=
  match m_pdatumLeft r, m_pdatumRight r with
  | Some l, Some u =>
      if negb (Equals l u) || eri_eqb EriExcluded (m_eriLeft r) || eri_eqb EriExcluded (m_eriRight r)
      then None
      else Some (PexprScalarCmp colref l EcmptEq)
  | _, _ => None
  end.

(** [CRange::PexprScalarCompEnd] *)
Definition PexprScalarCompEnd (datum : option D) (eri : ERangeInclusion) (ecmptIncl ecmptExcl : ECmpType)
    (colref : CColRef) : option (CExpression D) :=
  match datum with
  | None => None
  | Some d => Some (PexprScalarCmp colref d (if eri_eqb EriIncluded eri then ecmptIncl else ecmptExcl))
  end.

(** [CRange::PexprScalar] *)
Definition range_PexprScalar (r : CRange D) (colref : CColRef) : CExpression D :=
  match PexprEquality r colref with
  | Some pexprEq => pexprEq
  | None =>
      let pexprLeft := PexprScalarCompEnd (m_pdatumLeft r) (m_eriLeft r) EcmptGEq EcmptG colref in
      let pexprRight := PexprScalarCompEnd (m_pdatumRight r) (m_eriRight r) EcmptLEq EcmptL colref in
      PexprConjunction (option_list pexprLeft ++ option_list pexprRight)
  end.

(** [CConstraintInterval::PexprConstructDisjunctionScalar] *)
Definition PexprConstructDisjunctionScalar this : CExpression D :=
  let pdrgpexpr := map (fun r => range_PexprScalar r (m_pcr this)) (m_pdrgprng this) in
  if bool_decide (length pdrgpexpr = 1) && default false (FScalarConstTrue <$> head pdrgpexpr) then
    if m_fIncludesNull this then PexprScalarConstBool true else PexprIsNotNull (m_pcr this)
  else
    PexprDisjunction (pdrgpexpr ++ if m_fIncludesNull this then [PexprIsNull (m_pcr this)] else []).

Fixpoint all_points (rs : list (CRange D)) : outcome bool :=
  match rs with
  | [] => mret true
  | r :: rs' => b ← FPoint r; if (b : bool) then all_points rs' else mret false
  end.

(** [CConstraintInterval::FConvertsToIn] *)
Definition FConvertsToIn this : outcome bool :=
  if bool_decide (length (m_pdrgprng this) <= 1) then mret false else all_points (m_pdrgprng this).

Fixpoint not_in_loop (pLeftRng : CRange D) (rs : list (CRange D)) : bool :=
  match rs with
  | [] => true
  | pRightRng :: rs' =>
      if eri_eqb (m_eriRight pLeftRng) EriExcluded && eri_eqb (m_eriLeft pRightRng) EriExcluded &&
         FUpperBoundEqualsLowerBound pLeftRng pRightRng
      then not_in_loop pRightRng rs'
      else false
  end.

(** [CConstraintInterval::FConvertsToNotIn] *)
Definition FConvertsToNotIn this : bool :=
  match m_pdrgprng this with
  | [] | [_] => false
  | r :: rs =>
      if negb (is_null (m_pdatumLeft r)) ||
         negb (is_null (default None (m_pdatumRight <$> last (r :: rs))))
      then false
      else not_in_loop r rs
  end.

(** The right ends of the first [n] ranges, as constants *)
Fixpoint right_datums (n : nat) (rs : list (CRange D)) : outcome (list D) :=
  match n, rs with
  | S n', r :: rs' => (d ← deref (m_pdatumRight r); ds ← right_datums n' rs'; mret (d :: ds))
  | S _, [] => Abort FBounds
  | 0, _ => mret []
  end.

(** [CUtils::PexprScalarArrayCmp]; null when the column's type has no array type
    or no such comparison operator *)
Definition PexprScalarArrayCmp (t : EArrCmpType) (cmp : ECmpType) (ds : list D) (colref : CColRef)
    : outcome (option (CExpression D)) :=
  _ ← GPOS_ASSERT (bool_decide (0 < length ds));
  if negb (has_array_type (RetrieveType colref)) || negb (has_cmp (RetrieveType colref) cmp)
  then mret None
  else match ds with
       | [d] => mret (Some (PexprScalarCmp colref d cmp))
       | _ => mret (Some (CScalarArrayCmp t cmp (CScalarIdent colref)
                            (CScalarArray [] (map CScalarConst ds))))
       end.

(** [CConstraintInterval::PexprConstructArrayScalar(mp, fIn)] *)
Definition PexprConstructArrayScalar_in this (fIn : bool) : outcome (option (CExpression D)) :=
  let ulRngs := if fIn then length (m_pdrgprng this) else length (m_pdrgprng this) - 1 in
  prngexpr ← right_datums ulRngs (m_pdrgprng this);
  pexpr ← PexprScalarArrayCmp (if fIn then EarrcmpAny else EarrcmpAll) (if fIn then EcmptEq else EcmptNEq)
            prngexpr (m_pcr this);
  if m_fIncludesNull this then
    (_ ← GPOS_ASSERT (negb (is_null pexpr));
     pexprOne ← deref pexpr;
     mret (Some (PexprConjDisj2 pexprOne (PexprIsNull (m_pcr this)) false)))
  else mret pexpr.

(** [CConstraintInterval::PexprConstructArrayScalar(mp)] *)
Definition PexprConstructArrayScalar this : outcome (option (CExpression D)) :=
  if bool_decide (length (m_pdrgprng this) <= 1) then mret None else
  fIn ← FConvertsToIn this;
  if (fIn : bool) then PexprConstructArrayScalar_in this true
  else if FConvertsToNotIn this then PexprConstructArrayScalar_in this false
  else mret None.

(** [CConstraintInterval::PexprConstructScalar], with [PexprScalar] *)
Definition PexprConstructScalar this : outcome (CExpression D) :=
  if FContradiction this then mret (PexprScalarConstBool false) else
  array ← (if EopttraceArrayConstraints (flags ctx) then PexprConstructArrayScalar this else mret None);
  match array with
  | Some pexpr => mret pexpr
  | None => mret (PexprConstructDisjunctionScalar this)
  end.

End Construct.

(** ** The sorted set of datums *)

Section SortedSetProofs.
Context {D : Type} `{CL : ComparatorLaws D} `{ID : IDatum D}.
Implicit Types (a b d v : D) (l : list D).

Definition dle a b : Prop := IsLessThan b a = false.
Definition dlt a b : Prop := IsLessThan a b = true.

Lemma IDatumCmp_gt a b : (0 <? IDatumCmp a b)%Z = IsLessThan b a.
Proof.
  unfold IDatumCmp. rewrite eq_spec. three_way a b; done.
Qed.

Lemma dle_trans a b c : dle a b -> dle b c -> dle a c.
Proof. unfold dle. intros. by eapply nlt_trans. Qed.

Lemma IsSorted_spec l : IsSorted l = true -> StronglySorted dle l.
Proof.
  induction l as [|a [|b l] IH]; intros Hs; [constructor|repeat constructor|].
  cbn [IsSorted] in Hs. rewrite IDatumCmp_gt in Hs. destruct (IsLessThan b a) eqn:E; [done|].
  specialize (IH Hs). constructor; [done|]. inversion IH as [|? ? _ Hb]; subst.
  constructor; [done|]. eapply Forall_impl; [exact Hb|]. intros x Hx. by apply dle_trans with b.
Qed.

Lemma insert_datum_perm d l : insert_datum d l ≡ₚ d :: l.
Proof.
  induction l as [|a l IH]; [done|]. simpl. case_match; [|done]. rewrite IH. constructor.
Qed.

Lemma insert_datum_sorted d l : StronglySorted dle l -> StronglySorted dle (insert_datum d l).
Proof.
  induction 1 as [|a l Hs IH Ha]; simpl; [repeat constructor|].
  rewrite IDatumCmp_gt. destruct (IsLessThan a d) eqn:E.
  - constructor; [done|]. rewrite insert_datum_perm. constructor; [|done].
    unfold dle. by apply lt_asym.
  - constructor; [by constructor|]. constructor; [done|].
    eapply Forall_impl; [exact Ha|]. intros x Hx. by apply dle_trans with a.
Qed.

Lemma Sort_spec l : Sort l ≡ₚ l /\ StronglySorted dle (Sort l).
Proof.
  induction l as [|a l [IHp IHs]]; [split; [done|constructor]|]. simpl. split.
  - by rewrite insert_datum_perm, IHp.
  - by apply insert_datum_sorted.
Qed.

(** De-duplicating an ordered array leaves strictly increasing datums with the
    same values up to [Equals]. *)
Lemma dedup_loop_spec p l :
  StronglySorted dle (p :: l) ->
  StronglySorted dlt (p :: dedup_loop p l) /\ dedup_loop p l ⊆ l /\
  forall v, existsb (Equals v) (p :: dedup_loop p l) = existsb (Equals v) (p :: l).
Proof.
  revert p. induction l as [|d l IH]; intros p Hs; cbn [dedup_loop].
  { split_and!; [repeat constructor|done|done]. }
  inversion Hs as [|? ? Hs' Hp]; subst. inversion Hp as [|? ? Hpd Hp']; subst.
  rewrite eq_spec. unfold dle in Hpd. destruct (IsLessThan p d) eqn:E; rewrite Hpd; simpl negb; cbn [andb].
  - destruct (IH d Hs') as (H1 & H2 & H3). split_and!.
    + constructor; [done|]. inversion H1 as [|? ? _ Hd]; subst. constructor; [done|].
      eapply Forall_impl; [exact Hd|]. intros x Hx. by apply lt_trans with d.
    + set_solver.
    + intros v. specialize (H3 v). simpl in *. by rewrite H3.
  - destruct (IH p) as (H1 & H2 & H3). { inversion Hs'; subst. by constructor. }
    split_and!; [done|set_solver|].
    intros v. specialize (H3 v). simpl in *. rewrite H3.
    rewrite !eq_spec. destruct (IsLessThan v p) eqn:E1, (IsLessThan v d) eqn:E2; simpl; try done;
      destruct (IsLessThan p v) eqn:E3, (IsLessThan d v) eqn:E4; simpl; try done.
    all: exfalso.
    all: repeat match goal with
      | HL : IsLessThan ?x ?y = true, HN : IsLessThan ?z ?y = false |- _ =>
          lazymatch goal with _ : IsLessThan x z = true |- _ => fail | _ => pose proof (lt_nlt_trans x y z HL HN) end
      | HL : IsLessThan ?x ?y = true, HN : IsLessThan ?x ?z = false |- _ =>
          lazymatch goal with _ : IsLessThan z y = true |- _ => fail | _ => pose proof (nlt_lt_trans z x y HN HL) end
      end; congruence.
Qed.

(** A value below the first datum equals none of the later ones. *)
Lemma below_sorted d l v :
  StronglySorted dlt (d :: l) -> IsLessThan v d = true -> existsb (Equals v) l = false.
Proof.
  intros Hs Hv. apply not_true_iff_false. rewrite existsb_exists. intros (y & Hy%list_elem_of_In & Heq).
  inversion Hs as [|? ? _ Hd]; subst. rewrite Forall_forall in Hd. specialize (Hd y Hy).
  apply eq_lt in Heq as [Hx _]. unfold dlt in Hd. by rewrite (lt_trans _ _ _ Hv Hd) in Hx.
Qed.

(** The constructor returns the distinct datums that are not null, in order. *)
Lemma CDatumSortedSet_spec consts :
  consts <> [] ->
  exists s, CDatumSortedSet_ctor consts = Ret s /\ ss_fIncludesNull s = existsb IsNull consts /\
    StronglySorted dlt (ss_datums s) /\ (forall d, d ∈ ss_datums s -> d ∈ consts /\ IsNull d = false) /\
    forall v, existsb (Equals v) (ss_datums s) =
              existsb (Equals v) (filter (fun d => IsNull d = false) consts).
Proof.
  intros Hne. unfold CDatumSortedSet_ctor.
  rewrite bind_assert by (apply bool_decide_eq_true; destruct consts; simpl; [done|lia]).
  set (kept := filter (fun d => IsNull d = false) consts). cbn zeta.
  assert (Hl : exists l, (if IsSorted kept then kept else Sort kept) = l /\ l ≡ₚ kept /\ StronglySorted dle l).
  { destruct (IsSorted kept) eqn:E; [exists kept; split_and!; [done|done|by apply IsSorted_spec]|].
    exists (Sort kept). destruct (Sort_spec kept). done. }
  destruct Hl as (l & -> & Hp & Hs).
  assert (Hin : forall d, d ∈ l -> d ∈ consts /\ IsNull d = false).
  { intros d. rewrite Hp. unfold kept. rewrite list_elem_of_filter. tauto. }
  assert (Hex : forall v, existsb (Equals v) l = existsb (Equals v) kept).
  { intros v. apply eq_bool_prop_intro. rewrite !Is_true_true, !existsb_exists.
    setoid_rewrite <- list_elem_of_In. by setoid_rewrite Hp. }
  destruct l as [|p l].
  - eexists. split; [done|]. split_and!; [done|constructor|set_solver|done].
  - destruct (dedup_loop_spec p l Hs) as (H1 & H2 & H3). eexists. split; [done|].
    cbn [ss_datums ss_fIncludesNull]. split_and!; [done|done| |intros v; rewrite H3; apply Hex].
    intros d Hd. apply Hin. set_solver.
Qed.

End SortedSetProofs.

(** ** The derived interval and the meaning of the predicate *)

Section DeriveProofs.
Context {D : Type} `{CL : ComparatorLaws D} `{ID : IDatum D} `{DL : !DatumLaws D}.
Context (ctx : Ctxt D) (oo : OtherOps D) (c : CColRef).
Hypothesis Hconstr : FConstrainableType (flags ctx) (RetrieveType c) = true.
Implicit Types (e : CExpression D) (v : option D) (p : CConstraintInterval D).

(** A truth value qualifies when it is true, or when it is NULL and NULL is
    inferred as true. *)
Definition holds (infer_nulls_as : bool) (b : option bool) : bool := default infer_nulls_as b.

(** [p] is an interval of a predicate whose truth value in a row is [f]: membership
    of the column's value is related by [R] to the predicate holding. *)
Definition meets (R : bool -> bool -> Prop) p (infer : bool) (f : (N -> option D) -> option bool) : Prop :=
  m_pcr p = c /\ interval_ok p /\
  forall row, col_value c (row (m_id c)) -> R (in_interval p (row (m_id c))) (holds infer (f row)).

(** The exact interval of the predicate, and one with at least its values. *)
Abbreviation exact := (meets eq).
Definition implied (a b : bool) : Prop := b = true -> a = true.
Abbreviation covers := (meets implied).

(** Relations that disjunction and conjunction respect. *)
Definition monotone (R : bool -> bool -> Prop) : Prop :=
  (forall a b a' b', R a b -> R a' b' -> R (a || a') (b || b')) /\
  (forall a b a' b', R a b -> R a' b' -> R (a && a') (b && b')).

Lemma eq_monotone : monotone eq.
Proof. split; congruence. Qed.

Lemma implied_monotone : monotone implied.
Proof. split; unfold implied; intros [] [] [] []; simpl; tauto. Qed.

Definition cmp_bool (cmp : ECmpType) (x d : D) : bool :=
  match cmp with
  | EcmptEq => Equals x d
  | EcmptL => IsLessThan x d
  | EcmptLEq => IsLessThanOrEqual x d
  | EcmptG => IsGreaterThan x d
  | EcmptGEq => IsGreaterThanOrEqual x d
  | _ => true
  end.

Lemma in_range_cmp cmp d x : in_range (CRange_cmp cmp d) x = cmp_bool cmp x d.
Proof.
  unfold in_range. destruct cmp; simpl; rewrite ?eq_spec, ?le_spec, ?gt_spec, ?ge_spec, ?andb_true_r; try done.
Qed.

(** The ranges of one comparison. *)
Lemma ColConstCmp_exact cmp d infer :
  cmp <> EcmptOther -> cmp <> EcmptIDF -> 
  exists p, PciIntervalFromColConstCmp c cmp d infer = Some p /\
    exact p infer (fun row => cmp3 oo cmp (row (m_id c)) (Some d)).
Proof.
  intros Hc1 Hc2. unfold PciIntervalFromColConstCmp.
  assert (Hone : forall cmp', exact (mkCI c [CRange_cmp cmp' d] infer) infer
     (fun row => match row (m_id c) with Some x => Some (cmp_bool cmp' x d) | None => None end)).
  { intros cmp'. split_and!; [done|apply ranges_ok_single, CRange_cmp_ok|].
    intros row _. destruct (row (m_id c)) as [x|]; [|done].
    cbn [in_interval in_ranges m_pdrgprng existsb holds default].
    by rewrite in_range_cmp, orb_false_r. }
  destruct cmp; try done; try (eexists; split; [done|];
    match goal with |- exact _ _ (fun _ => cmp3 _ ?k _ _) => apply (Hone k) end).
  eexists. split; [done|]. split_and!; [done| |].
  - apply ranges_ok_cons. split_and!; [apply CRange_cmp_ok|apply ranges_ok_single, CRange_cmp_ok|].
    repeat constructor. unfold before, cle, rcut, lcut. simpl. by rewrite lt_irrefl.
  - intros row _. destruct (row (m_id c)) as [x|]; [|done]. cbn [in_interval in_ranges m_pdrgprng existsb].
    rewrite !in_range_cmp, orb_false_r. simpl. rewrite gt_spec, eq_spec.
    by destruct (IsLessThan x d), (IsLessThan d x).
Qed.

(** Strictly increasing datums give the points of an IN list ... *)
Lemma points_ok (ds : list D) : StronglySorted dlt ds -> ranges_ok (map (CRange_cmp EcmptEq) ds).
Proof.
  induction 1 as [|d ds Hs IH Hd]; cbn [map]; [apply ranges_ok_nil|].
  apply ranges_ok_cons. split_and!; [apply CRange_cmp_ok|done|].
  apply Forall_fmap. eapply Forall_impl; [exact Hd|]. done.
Qed.

Lemma in_points (ds : list D) x : in_ranges (map (CRange_cmp EcmptEq) ds) x = existsb (Equals x) ds.
Proof.
  induction ds as [|d ds IH]; [done|]. cbn [map in_ranges existsb]. fold (in_ranges (map (CRange_cmp EcmptEq) ds) x).
  by rewrite in_range_cmp, IH.
Qed.

(** ... and the gaps of a NOT IN list. *)
Lemma ranges_not_in_some d (ds : list D) :
  StronglySorted dlt (d :: ds) ->
  exists rs, ranges_not_in (Some d) ds = Ret rs /\ ranges_ok rs /\
    (forall r, r ∈ rs -> cle (CAfter d) (lcut r)) /\
    forall x, in_ranges rs x = IsLessThan d x && negb (existsb (Equals x) ds).
Proof.
  revert d. induction ds as [|d' ds IH]; intros d Hs; cbn [ranges_not_in].
  - assert (Hok : range_ok (mkRange (Some d) EriExcluded None EriExcluded)) by (by split).
    cbn [deref mbind outcome_bind]. rewrite CRange_ctor_ok by done. eexists. split; [done|].
    split_and!; [by apply ranges_ok_single|intros r ->%list_elem_of_singleton; apply cle_refl|].
    intros x. simpl. unfold in_range. simpl. by rewrite !andb_true_r, orb_false_r.
  - inversion Hs as [|? ? Hs' Hd]; subst. inversion Hd as [|? ? Hdd' _]; subst. unfold dlt in Hdd'.
    destruct (IH d' Hs') as (rs & E & Hok & Hb & Hv).
    set (r0 := mkRange (Some d) EriExcluded (Some d') EriExcluded).
    assert (Hr0 : range_ok r0) by (split; [unfold rcut, lcut; simpl; by rewrite Hdd'|done..]).
    rewrite CRange_ctor_ok by exact Hr0. cbn [mbind outcome_bind]. rewrite E. cbn [mbind outcome_bind].
    assert (Hcc : cle (CBefore d') (CAfter d')) by (unfold cle; simpl; by rewrite lt_irrefl).
    eexists. split; [done|]. split_and!.
    + apply ranges_ok_cons. split_and!; [done|done|]. apply Forall_forall. intros r Hr.
      specialize (Hb r Hr). unfold before. change (rcut r0) with (CBefore d'). cut_order.
    + intros r [->|Hr]%elem_of_cons; [apply cle_refl|]. specialize (Hb r Hr).
      assert (cle (CAfter d) (CAfter d')) by (unfold cle; simpl; by rewrite (lt_asym _ _ Hdd')). cut_order.
    + intros x. cbn [in_ranges existsb]. fold (in_ranges rs x). rewrite Hv. unfold in_range, r0. simpl.
      rewrite eq_spec. destruct (IsLessThan d' x) eqn:E1; simpl.
      * rewrite (lt_asym _ _ E1), (lt_trans _ _ _ Hdd' E1). simpl. done.
      * destruct (IsLessThan x d') eqn:E2; simpl; [|by rewrite andb_false_r].
        rewrite andb_true_r, orb_false_r. destruct (IsLessThan d x) eqn:E3; [|done]. simpl.
        by rewrite (below_sorted d' ds x).
Qed.

Lemma ranges_not_in_spec (ds : list D) :
  ds <> [] -> StronglySorted dlt ds ->
  exists rs, ranges_not_in None ds = Ret rs /\ ranges_ok rs /\
    forall x, in_ranges rs x = negb (existsb (Equals x) ds).
Proof.
  intros Hne Hs. destruct ds as [|d ds]; [done|]. cbn [ranges_not_in].
  destruct (ranges_not_in_some d ds Hs) as (rs & E & Hok & Hb & Hv).
  set (r0 := mkRange None EriExcluded (Some d) EriExcluded).
  assert (Hr0 : range_ok r0) by (by split).
  rewrite CRange_ctor_ok by exact Hr0. cbn [mbind outcome_bind]. rewrite E. cbn [mbind outcome_bind].
  assert (Hcc : cle (CBefore d) (CAfter d)) by (unfold cle; simpl; by rewrite lt_irrefl).
  eexists. split; [done|]. split.
  - apply ranges_ok_cons. split_and!; [done|done|]. apply Forall_forall. intros r Hr.
    specialize (Hb r Hr). unfold before. change (rcut r0) with (CBefore d). cut_order.
  - intros x. cbn [in_ranges existsb]. fold (in_ranges rs x). rewrite Hv. unfold in_range, r0. simpl.
    rewrite eq_spec. destruct (IsLessThan x d) eqn:E1; simpl.
    + by rewrite (below_sorted d ds x).
    + by destruct (IsLessThan d x).
Qed.

(** The operator of a comparison belongs to the operator families of its sides,
    when the trace flag asks for that. *)
Definition opfamily_ok (pexpr l r : CExpression D) : Prop :=
  EopttraceConsiderOpfamiliesForDistribution (flags ctx) = false \/
  forall am, FOpInOpfamily ctx l pexpr am = true /\ FOpInOpfamily ctx r pexpr am = true.

(** Predicates on the column [c] whose interval is exact. *)
Inductive supported : CExpression D -> Prop :=
  | sup_null i : same_col c i = true -> supported (CScalarNullTest (CScalarIdent i))
  | sup_test t e : t <> EbtIsUnknown -> t <> EbtIsNotUnknown -> supported e ->
      supported (CScalarBooleanTest t e)
  | sup_unknown t i : t = EbtIsUnknown \/ t = EbtIsNotUnknown -> same_col c i = true ->
      is_bool_col c = true -> supported (CScalarBooleanTest t (CScalarIdent i))
  | sup_and es : es <> [] -> (forall e, e ∈ es -> supported e) -> supported (CScalarBoolOp EboolopAnd es)
  | sup_or es : es <> [] -> (forall e, e ∈ es -> supported e) -> supported (CScalarBoolOp EboolopOr es)
  | sup_not e : supported e -> supported (CScalarBoolOp EboolopNot [e])
  | sup_ident i : same_col c i = true -> is_bool_col c = true -> supported (CScalarIdent i)
  | sup_cmp cmp l r i d :
      FCompareIdentToConst (CScalarCmp cmp l r) = true -> ident_of l = Some i -> same_col c i = true ->
      const_of r = Some d -> IsNull d = false -> cmp <> EcmptOther -> cmp <> EcmptIDF ->
      opfamily_ok (CScalarCmp cmp l r) l r -> supported (CScalarCmp cmp l r)
  | sup_idf i d : same_col c i = true ->
      supported (CScalarIsDistinctFrom (CScalarIdent i) (CScalarConst d))
  | sup_const d b : FScalarConstBool (CScalarConst d) b = true -> supported (CScalarConst d)
  | sup_in t cmp l a i :
      FCompareIdentToConstArray (CScalarArrayCmp t cmp l a) ||
        FCompareCastIdentToConstArray (CScalarArrayCmp t cmp l a) = true ->
      ident_of l = Some i -> same_col c i = true ->
      array_consts (PexprScalarArrayChild a) <> [] ->
      Forall (fun d => IsNull d = false) (array_consts (PexprScalarArrayChild a)) ->
      (t = EarrcmpAny /\ cmp = EcmptEq \/ t = EarrcmpAll /\ cmp = EcmptNEq) ->
      EopttraceArrayConstraints (flags ctx) = true ->
      supported (CScalarArrayCmp t cmp l a).

Lemma remove_dups_one (l : list N) a : (forall x, x ∈ l -> x = a) -> length (remove_dups l) <= 1.
Proof.
  intros Hl. pose proof (NoDup_remove_dups l) as Hnd.
  assert (Hl' : forall x, x ∈ remove_dups l -> x = a) by (intros x Hx; apply Hl, elem_of_remove_dups, Hx).
  destruct (remove_dups l) as [|x [|y t]]; simpl; [lia|lia|].
  apply NoDup_cons in Hnd as [Hn _]. rewrite (Hl' x), (Hl' y) in Hn by set_solver. set_solver.
Qed.

Lemma used_consts (es : list (CExpression D)) x :
  forallb FScalarConst es = true -> x ∈ concat (map used_columns es) -> x = m_id c.
Proof.
  induction es as [|e es IH]; simpl; [set_solver|]. rewrite andb_true_iff. intros [He Hes].
  destruct e; try done. simpl. auto.
Qed.

Lemma used_concat (es : list (CExpression D)) :
  (forall e, e ∈ es -> forall x, x ∈ used_columns e -> x = m_id c) ->
  forall x, x ∈ concat (map used_columns es) -> x = m_id c.
Proof. induction es as [|e es IH]; simpl; [set_solver|]. intros Hes x. rewrite elem_of_app. set_solver. Qed.

Lemma same_col_id i : same_col c i = true -> m_id i = m_id c.
Proof. unfold same_col. rewrite N.eqb_eq. done. Qed.

Lemma ident_of_used e i x :
  ident_of e = Some i -> same_col c i = true -> x ∈ used_columns e -> x = m_id c.
Proof.
  intros Hi Hc Hx. apply same_col_id in Hc.
  destruct e as [| |? []| | | | | | | | |]; simpl in *; try done; simplify_eq; set_solver.
Qed.

Lemma const_of_used e d : const_of e = Some d -> used_columns e = [].
Proof. destruct e as [| |? []| | | | | | | | |]; simpl; done. Qed.

Lemma supported_used e x : supported e -> x ∈ used_columns e -> x = m_id c.
Proof.
  intros He. revert x. induction He as [i Hi|t e _ _ _ IH|t i _ Hi _|es _ _ IH|es _ _ IH|e _ IH|i Hi _
    |cmp l r i d _ Hi Hc Hd _ _ _ _|i d Hi|d b _|t cmp l a i Ha Hi Hc _ _ _ _];
    intros x; cbn [used_columns map concat].
  - apply same_col_id in Hi as ->. set_solver.
  - apply IH.
  - apply same_col_id in Hi as ->. set_solver.
  - by apply used_concat.
  - by apply used_concat.
  - rewrite app_nil_r. apply IH.
  - apply same_col_id in Hi as ->. set_solver.
  - rewrite (const_of_used r d), app_nil_r by done. by apply ident_of_used with i.
  - apply same_col_id in Hi as ->. set_solver.
  - set_solver.
  - rewrite elem_of_app. intros [Hx|Hx]; [by apply (ident_of_used l i)|].
    assert (Hca : FScalarConstArray (PexprScalarArrayChild a) = true).
    { unfold FCompareIdentToConstArray, FCompareCastIdentToConstArray in Ha.
      apply orb_true_iff in Ha as [Ha|Ha]; rewrite !andb_true_iff in Ha; tauto. }
    destruct a; try done; simpl in *; [by eapply used_consts|].
    destruct a; try done. by eapply used_consts.
Qed.

Lemma used_assert {B} e (k : unit -> outcome B) :
  (forall x, x ∈ used_columns e -> x = m_id c) ->
  GPOS_ASSERT (bool_decide (length (remove_dups (used_columns e)) <= 1)) ≫= k = k tt.
Proof. intros Hu. apply bind_assert, bool_decide_eq_true. by apply remove_dups_one with (m_id c). Qed.

Lemma meets_ext R p infer infer' f g :
  (forall row, col_value c (row (m_id c)) -> holds infer (f row) = holds infer' (g row)) ->
  meets R p infer f -> meets R p infer' g.
Proof. intros Hfg (Hc & Hok & Hv). split_and!; [done..|]. intros row Hr. rewrite <- Hfg by done. auto. Qed.

Lemma holds_and infer a b : holds infer (and3 a b) = holds infer a && holds infer b.
Proof. by destruct infer, a as [[]|], b as [[]|]. Qed.

Lemma holds_or infer a b : holds infer (or3 a b) = holds infer a || holds infer b.
Proof. by destruct infer, a as [[]|], b as [[]|]. Qed.

Lemma holds_not infer b : holds infer (not3 b) = negb (holds (negb infer) b).
Proof. by destruct infer, b as [[]|]. Qed.

Lemma complement_exact p infer f :
  exact p (negb infer) f ->
  exists u, complement_of ctx (Some p) = Ret (Some u) /\ exact u infer (fun row => not3 (f row)).
Proof.
  intros (Hc & Hok & Hv). unfold complement_of.
  destruct (PciComplement_spec (flags ctx) p Hok) as (u & -> & Hu & Hok' & _ & Hn); [by rewrite Hc|].
  exists u. split; [done|]. split_and!; [congruence|done|].
  intros row Hr. rewrite Hn by (by rewrite Hc). by rewrite holds_not, Hv.
Qed.

Lemma intersect_meets R p q infer f g :
  monotone R -> meets R p infer f -> meets R q infer g ->
  exists u, PciIntersect p q = Ret u /\ meets R u infer (fun row => and3 (f row) (g row)).
Proof.
  intros HR (Hcp & Hokp & Hp) (Hcq & Hokq & Hq).
  destruct (PciIntersect_denotes p q c (in_interval p) (in_interval q)) as (u & -> & Hu & Hok & _ & Hv).
  { rewrite <- Hcp. by apply denotes_self. }
  { rewrite <- Hcq. by apply denotes_self. }
  exists u. split; [done|]. split_and!; [congruence|done|].
  intros row Hr. rewrite Hv, holds_and. apply HR; auto.
Qed.

Lemma union_meets R p q infer f g :
  monotone R -> meets R p infer f -> meets R q infer g ->
  exists u, PciUnion p q = Ret u /\ meets R u infer (fun row => or3 (f row) (g row)).
Proof.
  intros HR (Hcp & Hokp & Hp) (Hcq & Hokq & Hq).
  destruct (PciUnion_denotes p q c (in_interval p) (in_interval q)) as (u & -> & Hu & Hok & _ & Hv).
  { rewrite <- Hcp. by apply denotes_self. }
  { rewrite <- Hcq. by apply denotes_self. }
  exists u. split; [done|]. split_and!; [congruence|done|].
  intros row Hr. rewrite Hv, holds_or. apply HR; auto.
Qed.

(** [derive] gives the exact interval of [e]. *)
Definition derives_exact (derive : CExpression D -> outcome (option (CConstraintInterval D)))
    (infer : bool) (e : CExpression D) : Prop :=
  exists p, derive e = Ret (Some p) /\ exact p infer (fun row => eval_bool oo row e).

Lemma BoolAnd_loop_cons (derive : CExpression D -> outcome (option (CConstraintInterval D))) e es pci :
  BoolAnd_loop derive (e :: es) pci =
  (pciChild ← derive e;
   pci' ← match pciChild, pci with
          | Some c, Some p => Some <$> PciIntersect p c
          | Some c, None => mret (Some c)
          | None, _ => mret pci
          end;
   BoolAnd_loop derive es pci').
Proof. done. Qed.

Lemma BoolOr_children_cons (derive : CExpression D -> outcome (option (CConstraintInterval D))) e es ps :
  BoolOr_children derive (e :: es) ps =
  (pciChild ← derive e;
   match pciChild with
   | None => mret None
   | Some p => BoolOr_children derive es (ps ++ [p])
   end).
Proof. done. Qed.

Lemma BoolAnd_exact derive infer es p f :
  (forall e, e ∈ es -> derives_exact derive infer e) -> exact p infer f ->
  exists u, BoolAnd_loop derive es (Some p) = Ret (Some u) /\
    exact u infer (fun row => and3 (f row) (all3 (map (eval_bool oo row) es))).
Proof.
  revert p f. induction es as [|e es IH]; intros p f Hes Hp.
  - exists p. split; [done|]. eapply meets_ext, Hp. intros row _. simpl. by destruct (f row) as [[]|].
  - rewrite BoolAnd_loop_cons. destruct (Hes e) as (q & -> & Hq); [set_solver|]. cbn [mbind outcome_bind].
    destruct (intersect_meets eq p q infer f _ eq_monotone Hp Hq) as (u & -> & Hu). cbn [fmap outcome_fmap mbind outcome_bind].
    destruct (IH u _ ltac:(set_solver) Hu) as (w & -> & Hw). exists w. split; [done|].
    eapply meets_ext, Hw. intros row _. simpl. f_equal. unfold all3.
    by destruct (f row) as [[]|], (eval_bool oo row e) as [[]|], (foldr and3 _ _) as [[]|].
Qed.

(** A list of intervals, each related to the predicate at its place. *)
Definition meets_list (R : bool -> bool -> Prop) infer (ps : list (CConstraintInterval D)) (fs : list ((N -> option D) -> option bool))
    : Prop := Forall2 (fun p f => meets R p infer f) ps fs.

Lemma BoolOr_children_exact derive infer es ps fs :
  (forall e, e ∈ es -> derives_exact derive infer e) -> meets_list eq infer ps fs ->
  exists qs, BoolOr_children derive es ps = Ret (Some qs) /\
    meets_list eq infer qs (fs ++ map (fun e row => eval_bool oo row e) es).
Proof.
  revert ps fs. induction es as [|e es IH]; intros ps fs Hes Hps.
  - exists ps. simpl. by rewrite app_nil_r.
  - rewrite BoolOr_children_cons. destruct (Hes e) as (q & -> & Hq); [set_solver|]. cbn [mbind outcome_bind].
    destruct (IH (ps ++ [q]) (fs ++ [fun row => eval_bool oo row e])) as (qs & -> & Hqs); [set_solver| |].
    { apply Forall2_app; [done|]. by constructor. }
    exists qs. split; [done|]. by rewrite <- app_assoc in Hqs.
Qed.

(** One round keeps the disjunction and halves the array. *)
Lemma union_pairs_meets R infer n ps fs :
  monotone R -> length ps <= n -> meets_list R infer ps fs ->
  exists qs gs, union_pairs ps = Ret qs /\ meets_list R infer qs gs /\
    length qs + length qs <= length ps + 1 /\ (ps <> [] -> qs <> []) /\
    forall row, any3 (map (fun g => g row) gs) = any3 (map (fun f => f row) fs).
Proof.
  intros HR. revert ps fs. induction n as [|n IH]; intros ps fs Hlen Hps.
  { destruct ps; [|simpl in Hlen; lia]. exists [], fs. split_and!; [done..|simpl; lia|done|done]. }
  destruct ps as [|p1 [|p2 ps]].
  - exists [], fs. split_and!; [done..|simpl; lia|done|done].
  - exists [p1], fs. split_and!; [done..|simpl; lia|done|done].
  - inversion Hps as [|? f1 ? fs1 H1 Hps1]; subst. inversion Hps1 as [|? f2 ? fs2 H2 Hps2]; subst.
    cbn [union_pairs]. destruct (union_meets R p1 p2 infer f1 f2 HR H1 H2) as (u & -> & Hu).
    destruct (IH ps fs2) as (qs & gs & -> & Hqs & Hl & _ & Hg); [simpl in Hlen; lia|done|].
    cbn [mbind outcome_bind]. exists (u :: qs), ((fun row => or3 (f1 row) (f2 row)) :: gs).
    split_and!; [done|by constructor|simpl in *; lia|done|].
    intros row. cbn [map any3 foldr]. fold (any3 (map (fun g => g row) gs)) (any3 (map (fun f => f row) fs2)).
    rewrite Hg. by destruct (f1 row) as [[]|], (f2 row) as [[]|], (any3 _) as [[]|].
Qed.

Lemma union_rounds_meets R infer fuel ps fs :
  monotone R -> length ps <= fuel -> ps <> [] -> meets_list R infer ps fs ->
  exists u, union_rounds fuel ps = Ret [u] /\
    meets R u infer (fun row => any3 (map (fun f => f row) fs)).
Proof.
  intros HR. revert ps fs. induction fuel as [|fuel IH]; intros ps fs Hf Hne Hps.
  { destruct ps; [done|simpl in Hf; lia]. }
  cbn [union_rounds]. destruct (1 <? length ps) eqn:El.
  - destruct (union_pairs_meets R infer (length ps) ps fs) as (qs & gs & -> & Hqs & Hl & Hne' & Hg); [done|lia|done|].
    cbn [mbind outcome_bind]. destruct (IH qs gs) as (u & -> & Hu); [lia|auto|done|].
    exists u. split; [done|]. eapply meets_ext, Hu. intros row _. cbn beta. by rewrite Hg.
  - destruct ps as [|p [|]]; [done| |simpl in El; lia].
    inversion Hps as [|? f ? fs' Hp Hps']; subst. inversion Hps'; subst.
    exists p. split; [done|]. eapply meets_ext, Hp. intros row _. simpl. by destruct (f row) as [[]|].
Qed.

Lemma BoolOr_exact derive infer es :
  es <> [] -> (forall e, e ∈ es -> derives_exact derive infer e) ->
  exists u, PciIntervalFromScalarBoolOr derive es = Ret (Some u) /\
    exact u infer (fun row => any3 (map (eval_bool oo row) es)).
Proof.
  intros Hne Hes. unfold PciIntervalFromScalarBoolOr.
  rewrite bind_assert by (apply bool_decide_eq_true; destruct es; simpl; [done|lia]).
  destruct (BoolOr_children_exact derive infer es [] []) as (ps & -> & Hps); [done|constructor|].
  cbn [mbind outcome_bind]. assert (Hne' : ps <> []).
  { intros ->. inversion Hps as [Hnil|]. destruct es; done. }
  edestruct (union_rounds_meets eq infer (length ps) ps) as (u & -> & Hu);
    [apply eq_monotone|done|done|exact Hps|].
  exists u. split; [done|]. eapply meets_ext, Hu. intros row _. f_equal. f_equal.
  simpl. rewrite map_map. done.
Qed.

Lemma consts_eval row (es : list (CExpression D)) :
  forallb FScalarConst es = true ->
  map (eval oo row) es =
  map datum_of_const (omap (fun e => match e with CScalarConst d => Some d | _ => None end) es).
Proof.
  induction es as [|e es IH]; [done|]. simpl. rewrite andb_true_iff. intros [He Hes].
  destruct e; try done. cbn [eval]. rewrite IH by done. done.
Qed.

(** The meaning of an array comparison is that of the comparisons with its constants. *)
Lemma eval_array_cmp row t cmp l a :
  FScalarConstArray (PexprScalarArrayChild a) = true ->
  eval_bool oo row (CScalarArrayCmp t cmp l a) =
  (let bs := map (fun d => cmp3 oo cmp (eval oo row l) (datum_of_const d))
               (array_consts (PexprScalarArrayChild a)) in
   match t with EarrcmpAny => any3 bs | EarrcmpAll => all3 bs end).
Proof.
  intros Ha. unfold eval_bool. cbn [eval]. rewrite truth_of_bool.
  assert (Hgo : forall consts es, FScalarConstArray (CScalarArray consts es) = true ->
    match es with [] => map datum_of_const consts | _ => map (eval oo row) es end =
    map datum_of_const (array_consts (CScalarArray consts es))).
  { intros consts es Hc. destruct es as [|e es]; [done|]. by apply consts_eval. }
  destruct a as [| | | | | | | |consts es|e| |]; try done.
  - cbn [PexprScalarArrayChild] in *. cbn zeta.
    rewrite <- (map_map datum_of_const (cmp3 oo cmp (eval oo row l))), <- (Hgo consts es) by done. by destruct es.
  - destruct e as [| | | | | | | |consts es| | |]; try done.
    cbn [PexprScalarArrayChild] in *. cbn zeta.
    rewrite <- (map_map datum_of_const (cmp3 oo cmp (eval oo row l))), <- (Hgo consts es) by done. by destruct es.
Qed.

Lemma any_eq_consts (x : D) ds :
  Forall (fun d => IsNull d = false) ds ->
  any3 (map (fun d => cmp3 oo EcmptEq (Some x) (datum_of_const d)) ds) = Some (existsb (Equals x) ds).
Proof.
  induction 1 as [|d ds Hd _ IH]; [done|]. cbn [map any3 foldr].
  fold (any3 (map (fun d => cmp3 oo EcmptEq (Some x) (datum_of_const d)) ds)). rewrite IH.
  unfold datum_of_const. rewrite Hd. simpl. by destruct (Equals x d), (existsb _ ds).
Qed.

Lemma all_neq_consts (x : D) ds :
  Forall (fun d => IsNull d = false) ds ->
  all3 (map (fun d => cmp3 oo EcmptNEq (Some x) (datum_of_const d)) ds) = Some (negb (existsb (Equals x) ds)).
Proof.
  induction 1 as [|d ds Hd _ IH]; [done|]. cbn [map all3 foldr].
  fold (all3 (map (fun d => cmp3 oo EcmptNEq (Some x) (datum_of_const d)) ds)). rewrite IH.
  unfold datum_of_const. rewrite Hd. simpl. by destruct (Equals x d), (existsb _ ds).
Qed.

Lemma null_consts t cmp (ds : list D) :
  ds <> [] ->
  (let bs := map (fun d => cmp3 oo cmp None (datum_of_const d)) ds in
   match t with EarrcmpAny => any3 bs | EarrcmpAll => all3 bs end) = None.
Proof.
  intros Hne. destruct ds as [|d ds]; [done|]. clear Hne.
  revert d. induction ds as [|d' ds IH]; intros d; [by destruct t|].
  specialize (IH d'). destruct t; simpl in *; by rewrite IH.
Qed.

Lemma filter_nonnull (ds : list D) :
  Forall (fun d => IsNull d = false) ds -> filter (fun d => IsNull d = false) ds = ds.
Proof. induction 1 as [|d ds Hd _ IH]; [done|]. by rewrite filter_cons, decide_True, IH. Qed.

Lemma eval_ident_of row l i :
  FScalarIdent l || FBinaryCoercibleCastedScId l = true -> ident_of l = Some i ->
  eval oo row l = row (m_id i).
Proof.
  destruct l as [| |b e| | | | | | | | |]; try done; simpl.
  - intros _ [= ->]. done.
  - destruct b, e; try done. intros _ [= ->]. done.
Qed.

Lemma eval_const_of row r d :
  FScalarConst r || FBinaryCoercibleCastedConst r = true -> const_of r = Some d ->
  eval oo row r = datum_of_const d.
Proof.
  destruct r as [| |b e| | | | | | | | |]; try done; simpl.
  - intros _ [= ->]. done.
  - destruct b, e; try done. intros _ [= ->]. done.
Qed.

Lemma ArrayCmp_exact t cmp l a i infer :
  FCompareIdentToConstArray (CScalarArrayCmp t cmp l a) ||
    FCompareCastIdentToConstArray (CScalarArrayCmp t cmp l a) = true ->
  ident_of l = Some i -> same_col c i = true ->
  array_consts (PexprScalarArrayChild a) <> [] ->
  Forall (fun d => IsNull d = false) (array_consts (PexprScalarArrayChild a)) ->
  (t = EarrcmpAny /\ cmp = EcmptEq \/ t = EarrcmpAll /\ cmp = EcmptNEq) ->
  exists p, PcnstrIntervalFromScalarArrayCmp (CScalarArrayCmp t cmp l a) c infer = Ret (Some p) /\
    exact p infer (fun row => eval_bool oo row (CScalarArrayCmp t cmp l a)).
Proof.
  intros Hf Hi Hc Hne Hnn Htc. unfold PcnstrIntervalFromScalarArrayCmp. rewrite Hf. cbn [negb].
  assert (Hsides : FScalarConstArray (PexprScalarArrayChild a) = true /\
                   FScalarIdent l || FBinaryCoercibleCastedScId l = true).
  { unfold FCompareIdentToConstArray, FCompareCastIdentToConstArray in Hf.
    rewrite orb_true_iff, !andb_true_iff in Hf. rewrite orb_true_iff. tauto. }
  destruct Hsides as [Hca Hl]. rewrite Hi. cbn [deref mbind outcome_bind]. rewrite bind_assert by done.
  cbn zeta. set (ds := array_consts (PexprScalarArrayChild a)) in *.
  rewrite bool_decide_eq_false_2 by (by destruct ds).
  destruct (CDatumSortedSet_spec ds Hne) as (s & -> & _ & Hs & Hin & Hex). cbn [mbind outcome_bind].
  rewrite filter_nonnull in Hex by done.
  assert (Hsne : ss_datums s <> []).
  { intros E. rewrite E in Hex. destruct ds as [|d ds']; [done|]. specialize (Hex d). simpl in Hex.
    by rewrite Equals_refl in Hex. }
  assert (Hrow : forall row, eval oo row l = row (m_id c)).
  { intros row. rewrite (eval_ident_of row l i) by done. by rewrite (same_col_id i). }
  destruct Htc as [[-> ->]|[-> ->]].
  - eexists. split; [done|]. split_and!; [done|by apply points_ok|].
    intros row _. rewrite eval_array_cmp by done. rewrite Hrow. destruct (row (m_id c)) as [x|].
    + cbn zeta. fold ds. rewrite any_eq_consts by done. cbn [in_interval m_pdrgprng]. by rewrite in_points.
    + cbn zeta. fold ds. pose proof (null_consts EarrcmpAny EcmptEq ds Hne) as E. cbn zeta in E. by rewrite E.
  - destruct (ranges_not_in_spec (ss_datums s) Hsne Hs) as (rs & -> & Hok & Hv). cbn [mbind outcome_bind].
    eexists. split; [done|]. split_and!; [done|done|].
    intros row _. rewrite eval_array_cmp by done. rewrite Hrow. destruct (row (m_id c)) as [x|].
    + cbn zeta. fold ds. rewrite all_neq_consts by done. cbn [in_interval m_pdrgprng]. by rewrite Hv, Hex.
    + cbn zeta. fold ds. pose proof (null_consts EarrcmpAll EcmptNEq ds Hne) as E. cbn zeta in E. by rewrite E.
Qed.

Lemma null_exact infer :
  exact (mkCI c [] true) infer (fun row => Some (bool_decide (row (m_id c) = None))).
Proof.
  split_and!; [done|apply ranges_ok_nil|]. intros row _. by destruct (row (m_id c)).
Qed.

Lemma eval_unknown row i :
  same_col c i = true -> is_bool_col c = true -> col_value c (row (m_id c)) ->
  bool_decide (eval_bool oo row (CScalarIdent i) = None) = bool_decide (row (m_id c) = None).
Proof.
  intros Hi Hb Hv. unfold eval_bool. simpl. rewrite (same_col_id i) by done.
  destruct (row (m_id c)) as [x|]; [|done]. destruct Hv as [_ Hv]. destruct (Hv Hb) as [b ->].
  simpl. by rewrite bool_get.
Qed.

Lemma ident_exact i infer :
  same_col c i = true -> is_bool_col c = true ->
  exact (mkCI c [CRange_cmp EcmptEq (CreateBoolDatum true)] infer) infer
    (fun row => eval_bool oo row (CScalarIdent i)).
Proof.
  intros Hi Hb. split_and!; [done|apply ranges_ok_single, CRange_cmp_ok|].
  intros row Hv. unfold eval_bool. cbn [eval]. rewrite (same_col_id i) by done.
  destruct (row (m_id c)) as [x|]; [|done]. destruct Hv as [_ Hv]. destruct (Hv Hb) as [b ->].
  unfold truth. simpl mbind. rewrite bool_get. cbn [in_interval in_ranges m_pdrgprng existsb].
  rewrite in_range_cmp, orb_false_r. simpl. rewrite eq_spec. pose proof bool_order as Ho.
  destruct b; rewrite ?lt_irrefl, ?Ho; done.
Qed.

Lemma exact_bool_test p infer t (f : (N -> option D) -> option bool) :
  t = EbtIsTrue /\ exact p false f \/ t = EbtIsNotFalse /\ exact p true f ->
  exact p infer (fun row => Some (test3 t (f row))).
Proof.
  intros [[-> Hp]|[-> Hp]]; eapply meets_ext, Hp; intros row _; by destruct (f row) as [[]|].
Qed.

Lemma eval_test row t e :
  eval_bool oo row (CScalarBooleanTest t e) = Some (test3 t (eval_bool oo row e)).
Proof. unfold eval_bool. cbn [eval]. by rewrite truth_of_bool. Qed.

(** A test of a derived child: IS TRUE and IS NOT FALSE keep its interval, IS FALSE
    and IS NOT TRUE complement it. *)
Lemma bool_test_exact t e infer am :
  t <> EbtIsUnknown -> t <> EbtIsNotUnknown ->
  (forall x, x ∈ used_columns e -> x = m_id c) ->
  (forall infer, derives_exact (fun e => PciIntervalFromScalarExpr ctx e c infer EmdindSentinel) infer e) ->
  exists p, PciIntervalFromScalarExpr ctx (CScalarBooleanTest t e) c infer am = Ret (Some p) /\
    exact p infer (fun row => eval_bool oo row (CScalarBooleanTest t e)).
Proof.
  intros Ht1 Ht2 Hu He. cbn [PciIntervalFromScalarExpr]. rewrite used_assert by done.
  destruct t; try done.
  - destruct (He false) as (p & -> & Hp). exists p. split; [done|].
    eapply meets_ext, exact_bool_test; [|by left]. intros row _. cbn beta. by rewrite eval_test.
  - destruct (He false) as (p & -> & Hp). cbn [mbind outcome_bind].
    destruct (complement_exact p true _ Hp) as (u & -> & Hu'). exists u. split; [done|].
    eapply meets_ext, Hu'. intros row _. rewrite eval_test. by destruct (eval_bool oo row e) as [[]|].
  - destruct (He true) as (p & -> & Hp). cbn [mbind outcome_bind].
    destruct (complement_exact p false _ Hp) as (u & -> & Hu'). exists u. split; [done|].
    eapply meets_ext, Hu'. intros row _. rewrite eval_test. by destruct (eval_bool oo row e) as [[]|].
  - destruct (He true) as (p & -> & Hp). exists p. split; [done|].
    eapply meets_ext, exact_bool_test; [|by right]. intros row _. cbn beta. by rewrite eval_test.
Qed.

Lemma unknown_exact t i infer am :
  t = EbtIsUnknown \/ t = EbtIsNotUnknown -> same_col c i = true -> is_bool_col c = true ->
  exists p, PciIntervalFromScalarExpr ctx (CScalarBooleanTest t (CScalarIdent i)) c infer am = Ret (Some p) /\
    exact p infer (fun row => eval_bool oo row (CScalarBooleanTest t (CScalarIdent i))).
Proof.
  intros Ht Hi Hb. cbn [PciIntervalFromScalarExpr].
  rewrite used_assert by (cbn [used_columns]; rewrite (same_col_id i) by done; set_solver).
  destruct Ht as [-> | ->]; cbn [PciIntervalFromScalarNullAndUnknownTest]; rewrite bind_assert by done.
  - eexists. split; [done|]. eapply meets_ext, (null_exact infer). intros row Hv.
    rewrite eval_test. cbn [test3 holds default]. by rewrite eval_unknown.
  - cbn [mbind outcome_bind mret outcome_ret].
    destruct (complement_exact _ infer _ (null_exact (negb infer))) as (u & -> & Hu). exists u. split; [done|].
    eapply meets_ext, Hu. intros row Hv. rewrite eval_test. cbn [test3]. by rewrite eval_unknown.
Qed.

Lemma idf_exact i d infer :
  same_col c i = true ->
  exists p, PciIntervalFromScalarIDF ctx (CScalarIsDistinctFrom (CScalarIdent i) (CScalarConst d)) c = Ret (Some p) /\
    exact p infer (fun row => eval_bool oo row (CScalarIsDistinctFrom (CScalarIdent i) (CScalarConst d))).
Proof.
  intros Hi. cbn [PciIntervalFromScalarIDF]. rewrite bind_assert by done.
  assert (Hev : forall row, eval_bool oo row (CScalarIsDistinctFrom (CScalarIdent i) (CScalarConst d)) =
    Some (distinct (row (m_id c)) (datum_of_const d))).
  { intros row. unfold eval_bool. cbn [eval]. by rewrite truth_of_bool, (same_col_id i). }
  unfold datum_of_const in Hev. destruct (IsNull d) eqn:Ed.
  - destruct (complement_exact _ infer _ (null_exact (negb infer))) as (u & E & Hu).
    exists u. split; [exact E|]. eapply meets_ext, Hu. intros row _. rewrite Hev. by destruct (row (m_id c)).
  - destruct (ColConstCmp_exact EcmptNEq d true) as (p & E & Hp); [done..|].
    unfold PciIntervalFromColConstCmp in E. cbn [PciRangeFromColConstCmp] in *.
    injection E as <-. eexists. split; [done|].
    eapply meets_ext, Hp. intros row _. rewrite Hev. by destruct (row (m_id c)).
Qed.

Lemma cmp_exact cmp l r i d infer am :
  FCompareIdentToConst (CScalarCmp cmp l r) = true -> ident_of l = Some i -> same_col c i = true ->
  const_of r = Some d -> IsNull d = false -> cmp <> EcmptOther -> cmp <> EcmptIDF ->
  opfamily_ok (CScalarCmp cmp l r) l r ->
  exists p, PciIntervalFromScalarCmp ctx (CScalarCmp cmp l r) c infer am = Ret (Some p) /\
    exact p infer (fun row => eval_bool oo row (CScalarCmp cmp l r)).
Proof.
  intros Hf Hi Hc Hd Hn Hc1 Hc2 Hop. cbn [PciIntervalFromScalarCmp]. rewrite Hf, Hi, Hd.
  assert (Hfl : EopttraceConsiderOpfamiliesForDistribution (flags ctx) &&
    (negb (FOpInOpfamily ctx l (CScalarCmp cmp l r) am) || negb (FOpInOpfamily ctx r (CScalarCmp cmp l r) am)) = false).
  { destruct Hop as [->|Hop]; [done|]. destruct (Hop am) as [-> ->]. by rewrite andb_false_r. }
  rewrite Hfl. cbn [deref mbind outcome_bind]. rewrite bind_assert by done.
  destruct (ColConstCmp_exact cmp d infer) as (p & -> & Hp); [done..|]. exists p. split; [done|].
  cbn [FCompareIdentToConst] in Hf. apply andb_true_iff in Hf as [Hl Hr].
  eapply meets_ext, Hp. intros row _. unfold eval_bool. cbn [eval].
  rewrite truth_of_bool, (eval_ident_of row l i), (eval_const_of row r d), (same_col_id i) by done.
  unfold datum_of_const. by rewrite Hn.
Qed.

Lemma const_exact d b infer :
  FScalarConstBool (CScalarConst d) b = true ->
  exists p, (if FScalarConstTrue (CScalarConst d) then PciUnbounded (flags ctx) c true
             else mret (Some (mkCI c [] false))) = Ret (Some p) /\
    exact p infer (fun row => eval_bool oo row (CScalarConst d)).
Proof.
  intros Hd. assert (Hev : forall row, eval_bool oo row (CScalarConst d) = Some b)
    by (intros; by apply const_bool_eval).
  destruct (FScalarConstTrue (CScalarConst d)) eqn:Et.
  - destruct (PciUnbounded_spec (flags ctx) c true Hconstr) as (p & -> & Hc & Hok & Hn & Hall).
    exists p. split; [done|]. split_and!; [done..|]. intros row Hv. rewrite (const_bool_eval oo row _ true) by done.
    destruct (row (m_id c)) as [x|]; [by rewrite Hall|by simpl; rewrite Hn].
  - eexists. split; [done|]. split_and!; [done|apply ranges_ok_nil|]. intros row _. rewrite Hev.
    destruct b; [by unfold FScalarConstTrue in Et; congruence|]. by destruct (row (m_id c)).
Qed.

(** The interval of a supported predicate has exactly the column values that
    qualify. *)
Lemma derive_exact e :
  supported e -> forall infer am, exists p,
    PciIntervalFromScalarExpr ctx e c infer am = Ret (Some p) /\
    exact p infer (fun row => eval_bool oo row e).
Proof.
  intros Hsup. induction Hsup as [i Hi|t e Ht1 Ht2 Hs IH|t i Ht Hi Hb|es Hne Hs IH|es Hne Hs IH|e Hs IH
    |i Hi Hb|cmp l r i d Hf Hi Hc Hd Hn Hc1 Hc2 Hop|i d Hi|d b Hd|t cmp l a i Ha Hi Hc Hne Hnn Htc Hfl];
    intros infer am.
  - cbn [PciIntervalFromScalarExpr].
    rewrite used_assert by (cbn [used_columns]; rewrite (same_col_id i) by done; set_solver).
    cbn [PciIntervalFromScalarNullAndUnknownTest]. rewrite bind_assert by done. eexists. split; [done|].
    eapply meets_ext, (null_exact infer). intros row _. unfold eval_bool. cbn [eval].
    by rewrite truth_of_bool, (same_col_id i).
  - apply bool_test_exact; [done..| |].
    + intros x. by apply supported_used.
    + intros infer'. apply IH.
  - by apply unknown_exact.
  - cbn [PciIntervalFromScalarExpr]. rewrite used_assert by (intros x; apply supported_used; by constructor).
    destruct es as [|e es]; [done|]. unfold PciIntervalFromScalarBoolAnd.
    destruct (IH e ltac:(set_solver) infer am) as (p & -> & Hp). cbn [mbind outcome_bind].
    edestruct (BoolAnd_exact (fun e => PciIntervalFromScalarExpr ctx e c infer am) infer es p)
      as (u & -> & Hu); [|exact Hp|].
    { intros e' He'. apply IH. set_solver. }
    exists u. split; [done|]. eapply meets_ext, Hu. intros row _. by rewrite (eval_bool_op oo row true).
  - cbn [PciIntervalFromScalarExpr]. rewrite used_assert by (intros x; apply supported_used; by constructor).
    edestruct (BoolOr_exact (fun e => PciIntervalFromScalarExpr ctx e c infer am) infer es) as (u & -> & Hu); [done| |].
    { intros e' He'. by apply IH. }
    exists u. split; [done|]. eapply meets_ext, Hu. intros row _. by rewrite (eval_bool_op oo row false).
  - cbn [PciIntervalFromScalarExpr]. rewrite used_assert by (intros x; apply supported_used; by constructor).
    destruct (IH (negb infer) EmdindSentinel) as (p & -> & Hp). cbn [mbind outcome_bind].
    destruct (complement_exact p infer _ Hp) as (u & -> & Hu). exists u. split; [done|].
    eapply meets_ext, Hu. intros row _. by rewrite eval_not.
  - cbn [PciIntervalFromScalarExpr].
    rewrite used_assert by (cbn [used_columns]; rewrite (same_col_id i) by done; set_solver).
    unfold PciIntervalFromScalarIdent. rewrite bind_assert by done. eexists. split; [done|]. by apply ident_exact.
  - cbn [PciIntervalFromScalarExpr]. rewrite used_assert by (intros x; apply supported_used; by econstructor).
    by eapply cmp_exact.
  - cbn [PciIntervalFromScalarExpr]. rewrite used_assert by (intros x; apply supported_used; by constructor).
    by apply idf_exact.
  - cbn [PciIntervalFromScalarExpr]. rewrite used_assert by (intros x; apply supported_used; by econstructor).
    by eapply const_exact.
  - cbn [PciIntervalFromScalarExpr]. rewrite used_assert by (intros x; apply supported_used; by econstructor).
    rewrite Hfl. by eapply ArrayCmp_exact.
Qed.

(** ** Predicates of which a part has no interval *)

(** Conjunctions, disjunctions and positive tests may have operands the code does
    not look into; a negation may not. *)
Inductive approximable : CExpression D -> Prop :=
  | ap_supported e : supported e -> approximable e
  | ap_opaque op es : (forall x, x ∈ used_columns (CScalarOther op es) -> x = m_id c) ->
      approximable (CScalarOther op es)
  | ap_and es : es <> [] -> (forall e, e ∈ es -> approximable e) -> approximable (CScalarBoolOp EboolopAnd es)
  | ap_or es : es <> [] -> (forall e, e ∈ es -> approximable e) -> approximable (CScalarBoolOp EboolopOr es)
  | ap_test t e : t = EbtIsTrue \/ t = EbtIsNotFalse -> approximable e ->
      approximable (CScalarBooleanTest t e).

Lemma approximable_used e x : approximable e -> x ∈ used_columns e -> x = m_id c.
Proof.
  intros He. revert x. induction He as [e He|op es Hu|es _ _ IH|es _ _ IH|t e _ _ IH]; intros x.
  - by apply supported_used.
  - apply Hu.
  - by apply used_concat.
  - by apply used_concat.
  - apply IH.
Qed.

(** A null interval says nothing. *)
Definition covers_opt (o : option (CConstraintInterval D)) infer (f : (N -> option D) -> option bool) : Prop :=
  match o with Some p => covers p infer f | None => True end.

Definition derives_cover (derive : CExpression D -> outcome (option (CConstraintInterval D)))
    (infer : bool) (e : CExpression D) : Prop :=
  exists o, derive e = Ret o /\ covers_opt o infer (fun row => eval_bool oo row e).

Lemma covers_weaken p infer infer' f g :
  (forall row, col_value c (row (m_id c)) -> holds infer' (g row) = true -> holds infer (f row) = true) ->
  covers p infer f -> covers p infer' g.
Proof. intros Hfg (Hc & Hok & Hv). split_and!; [done..|]. intros row Hr Hg. by apply Hv, Hfg. Qed.

Lemma BoolAnd_covers derive infer es o f :
  (forall e, e ∈ es -> derives_cover derive infer e) -> covers_opt o infer f ->
  exists u, BoolAnd_loop derive es o = Ret u /\
    covers_opt u infer (fun row => and3 (f row) (all3 (map (eval_bool oo row) es))).
Proof.
  revert o f. induction es as [|e es IH]; intros o f Hes Ho.
  - exists o. split; [done|]. destruct o; [|done]. eapply meets_ext, Ho. intros row _. simpl.
    by destruct (f row) as [[]|].
  - rewrite BoolAnd_loop_cons. destruct (Hes e) as (q & -> & Hq); [set_solver|]. cbn [mbind outcome_bind].
    assert (Hstep : exists u, match q, o with
       | Some c, Some p => Some <$> PciIntersect p c
       | Some c, None => mret (Some c)
       | None, _ => mret o
       end = Ret u /\ covers_opt u infer (fun row => and3 (f row) (eval_bool oo row e))).
    { destruct q as [q|], o as [p|]; [| | |by exists None].
      - destruct (intersect_meets implied p q infer f _ implied_monotone Ho Hq) as (u & -> & Hu). by exists (Some u).
      - exists (Some q). split; [done|]. eapply covers_weaken, Hq. intros row _. rewrite holds_and, andb_true_iff. tauto.
      - exists (Some p). split; [done|]. eapply covers_weaken, Ho. intros row _. rewrite holds_and, andb_true_iff. tauto. }
    destruct Hstep as (u & -> & Hu). cbn [mbind outcome_bind].
    destruct (IH u _ ltac:(set_solver) Hu) as (w & -> & Hw). exists w. split; [done|].
    destruct w; [|done]. eapply meets_ext, Hw. intros row _. simpl. f_equal. unfold all3.
    by destruct (f row) as [[]|], (eval_bool oo row e) as [[]|], (foldr and3 _ _) as [[]|].
Qed.

Lemma BoolOr_children_covers derive infer es ps fs :
  (forall e, e ∈ es -> derives_cover derive infer e) -> meets_list implied infer ps fs ->
  exists o, BoolOr_children derive es ps = Ret o /\
    match o with
    | Some qs => meets_list implied infer qs (fs ++ map (fun e row => eval_bool oo row e) es)
    | None => True
    end.
Proof.
  revert ps fs. induction es as [|e es IH]; intros ps fs Hes Hps.
  - exists (Some ps). simpl. by rewrite app_nil_r.
  - rewrite BoolOr_children_cons. destruct (Hes e) as (q & -> & Hq); [set_solver|]. cbn [mbind outcome_bind].
    destruct q as [q|]; [|by exists None].
    destruct (IH (ps ++ [q]) (fs ++ [fun row => eval_bool oo row e])) as (qs & -> & Hqs); [set_solver| |].
    { apply Forall2_app; [done|]. by constructor. }
    exists qs. split; [done|]. destruct qs; [|done]. by rewrite <- app_assoc in Hqs.
Qed.

Lemma BoolOr_covers derive infer es :
  es <> [] -> (forall e, e ∈ es -> derives_cover derive infer e) ->
  exists u, PciIntervalFromScalarBoolOr derive es = Ret u /\
    covers_opt u infer (fun row => any3 (map (eval_bool oo row) es)).
Proof.
  intros Hne Hes. unfold PciIntervalFromScalarBoolOr.
  rewrite bind_assert by (apply bool_decide_eq_true; destruct es; simpl; [done|lia]).
  destruct (BoolOr_children_covers derive infer es [] []) as (ps & -> & Hps); [done|constructor|].
  cbn [mbind outcome_bind]. destruct ps as [ps|]; [|by exists None].
  assert (Hne' : ps <> []).
  { intros ->. inversion Hps as [Hnil|]. destruct es; done. }
  edestruct (union_rounds_meets implied infer (length ps) ps) as (u & -> & Hu);
    [apply implied_monotone|done|done|exact Hps|].
  exists (Some u). split; [done|]. eapply meets_ext, Hu. intros row _. f_equal. f_equal.
  simpl. rewrite map_map. done.
Qed.

(** The interval derived for an approximable predicate, if any, has every column
    value that qualifies. *)
Lemma derive_covers e :
  approximable e -> forall infer am,
    derives_cover (fun e => PciIntervalFromScalarExpr ctx e c infer am) infer e.
Proof.
  intros He. induction He as [e He|op es Hu|es Hne Hs IH|es Hne Hs IH|t e Ht Hs IH]; intros infer am.
  - destruct (derive_exact e He infer am) as (p & E & Hc & Hok & Hv). exists (Some p). split; [done|].
    split_and!; [done..|]. intros row Hr Hh. by rewrite Hv.
  - exists None. split; [|done]. cbn [PciIntervalFromScalarExpr]. by rewrite used_assert.
  - unfold derives_cover. cbn [PciIntervalFromScalarExpr].
    rewrite used_assert by (intros x; apply approximable_used; by constructor).
    destruct es as [|e es]; [done|]. unfold PciIntervalFromScalarBoolAnd.
    destruct (IH e ltac:(set_solver) infer am) as (o & -> & Ho). cbn [mbind outcome_bind].
    edestruct (BoolAnd_covers (fun e => PciIntervalFromScalarExpr ctx e c infer am) infer es o)
      as (u & -> & Hu); [|exact Ho|].
    { intros e' He'. apply IH. set_solver. }
    exists u. split; [done|]. destruct u; [|done]. eapply meets_ext, Hu. intros row _.
    by rewrite (eval_bool_op oo row true).
  - unfold derives_cover. cbn [PciIntervalFromScalarExpr].
    rewrite used_assert by (intros x; apply approximable_used; by constructor).
    edestruct (BoolOr_covers (fun e => PciIntervalFromScalarExpr ctx e c infer am) infer es) as (u & -> & Hu); [done| |].
    { intros e' He'. by apply IH. }
    exists u. split; [done|]. destruct u; [|done]. eapply meets_ext, Hu. intros row _.
    by rewrite (eval_bool_op oo row false).
  - unfold derives_cover. cbn [PciIntervalFromScalarExpr].
    rewrite used_assert by (intros x; apply approximable_used; by constructor).
    assert (Hi : exists b, (match t with EbtIsTrue => b = false | _ => b = true end) /\
      forall row, holds b (eval_bool oo row e) = holds infer (eval_bool oo row (CScalarBooleanTest t e))).
    { destruct Ht as [-> | ->]; eexists; (split; [done|]); intros row; rewrite eval_test;
        by destruct (eval_bool oo row e) as [[]|]. }
    destruct Hi as (b & Hb & Hh). destruct (IH b EmdindSentinel) as (o & E & Ho). exists o.
    split; [destruct Ht as [-> | ->]; subst b; exact E|].
    destruct o; [|done]. eapply meets_ext, Ho. intros row _. cbn beta. apply Hh.
Qed.

End DeriveProofs.

(** ** The predicate of an interval *)

Section ConstructProofs.
Context {D : Type} `{CL : ComparatorLaws D} `{ID : IDatum D} `{DL : !DatumLaws D}.
Context (ctx : Ctxt D) (oo : OtherOps D) (c : CColRef).
Implicit Types (r : CRange D) (rs : list (CRange D)) (p : CConstraintInterval D).

(** The ends of a range are datums that are not null. *)
Definition ends_not_null r : Prop :=
  (forall d, m_pdatumLeft r = Some d -> IsNull d = false) /\
  (forall d, m_pdatumRight r = Some d -> IsNull d = false).

Lemma eval_ScalarCmp row d cmp :
  IsNull d = false -> eval_bool oo row (PexprScalarCmp c d cmp) = cmp3 oo cmp (row (m_id c)) (Some d).
Proof.
  intros Hd. unfold eval_bool, PexprScalarCmp. cbn [eval]. unfold datum_of_const.
  by rewrite Hd, truth_of_bool.
Qed.

Lemma eval_IsNull row : eval_bool oo row (PexprIsNull c) = Some (bool_decide (row (m_id c) = None)).
Proof. unfold eval_bool, PexprIsNull. cbn [eval]. by rewrite truth_of_bool. Qed.

Lemma Equals_lt (a b x : D) :
  Equals a b = true -> IsLessThan a x = IsLessThan b x /\ IsLessThan x a = IsLessThan x b.
Proof.
  intros [H1 H2]%eq_lt. split; apply eq_bool_prop_intro; rewrite !Is_true_true; split; intros Hl.
  - by apply (nlt_lt_trans b a x).
  - by apply (nlt_lt_trans a b x).
  - by apply (lt_nlt_trans x a b).
  - by apply (lt_nlt_trans x b a).
Qed.

(** A range with equal included ends is the equality with its end. *)
Lemma in_point r l u x :
  m_pdatumLeft r = Some l -> m_pdatumRight r = Some u -> m_eriLeft r = EriIncluded ->
  m_eriRight r = EriIncluded -> Equals l u = true -> in_range r x = Equals x u /\ in_range r x = Equals x l.
Proof.
  intros El Eu E1 E2 Heq. unfold in_range. rewrite El, Eu, E1, E2. simpl. rewrite !le_spec, !eq_spec.
  destruct (Equals_lt l u x Heq) as [-> ->]. done.
Qed.

Lemma PexprEquality_some r e row x :
  ends_not_null r -> PexprEquality r c = Some e -> row (m_id c) = x ->
  eval_bool oo row e = (fun y => in_range r y) <$> x.
Proof.
  intros [Hl Hr] He Hx. unfold PexprEquality in He.
  destruct (m_pdatumLeft r) as [l|] eqn:El; [|done]. destruct (m_pdatumRight r) as [u|] eqn:Eu; [|done].
  destruct (negb (Equals l u) || _ || _) eqn:Ec; [done|]. injection He as <-.
  rewrite !orb_false_iff, negb_false_iff in Ec. destruct Ec as [[Heq E1] E2].
  rewrite eval_ScalarCmp by auto. rewrite Hx. destruct x as [y|]; [|done]. simpl.
  destruct (in_point r l u y) as [_ ->]; try done.
  - by destruct (m_eriLeft r).
  - by destruct (m_eriRight r).
Qed.

Definition full r : bool := is_null (m_pdatumLeft r) && is_null (m_pdatumRight r).

Lemma range_eval row r :
  ends_not_null r -> full r = false ->
  eval_bool oo row (range_PexprScalar r c) = (fun y => in_range r y) <$> (row (m_id c)).
Proof.
  intros Hnn Hfull. unfold range_PexprScalar. destruct (PexprEquality r c) as [e|] eqn:E.
  { by apply PexprEquality_some. }
  destruct Hnn as [Hl Hr]. unfold PexprConjunction. rewrite PexprConjDisj_eval. cbn [junct3].
  unfold full in Hfull. unfold PexprScalarCompEnd, in_range.
  destruct (m_pdatumLeft r) as [l|] eqn:El, (m_pdatumRight r) as [u|] eqn:Eu; try done;
    cbn [option_list option_rect app map];
    try pose proof (eval_ScalarCmp row l) as Evl; try pose proof (eval_ScalarCmp row u) as Evu;
    try rewrite Evl by (by apply Hl); try rewrite Evu by (by apply Hr);
    destruct (row (m_id c)) as [y|]; try done;
    destruct (m_eriLeft r), (m_eriRight r); simpl; rewrite ?le_spec, ?gt_spec, ?ge_spec, ?andb_true_r; try done;
    repeat match goal with |- context [IsLessThan ?a ?b] => destruct (IsLessThan a b) end; done.
Qed.

Lemma range_full r : full r = true -> range_PexprScalar r c = PexprScalarConstBool true.
Proof.
  unfold full, range_PexprScalar, PexprEquality, PexprScalarCompEnd.
  destruct (m_pdatumLeft r), (m_pdatumRight r); done.
Qed.

Lemma range_const_true r : FScalarConstTrue (range_PexprScalar r c) = full r.
Proof.
  destruct (full r) eqn:Ef.
  - rewrite range_full by done. unfold FScalarConstTrue. simpl. by rewrite bool_get, bool_not_null.
  - unfold full in Ef. unfold range_PexprScalar, PexprEquality, PexprScalarCompEnd, PexprConjunction, PexprConjDisj.
    destruct (m_pdatumLeft r) as [l|], (m_pdatumRight r) as [u|]; try done.
    destruct (negb (Equals l u) || eri_eqb EriExcluded (m_eriLeft r) || eri_eqb EriExcluded (m_eriRight r)); done.
Qed.

(** With two ranges or more none is full. *)
Lemma not_full_many r1 r2 rs : ranges_ok (r1 :: r2 :: rs) -> Forall (fun r => full r = false) (r1 :: r2 :: rs).
Proof.
  intros Hok. apply Forall_forall. intros r Hr. unfold full. apply andb_false_iff.
  apply ranges_ok_cons in Hok as (H1 & H2 & Hf). pose proof H2 as H2'.
  apply ranges_ok_cons in H2' as (H2' & _ & _). rewrite Forall_forall in Hf.
  apply elem_of_cons in Hr as [->|Hr].
  - right. destruct (m_pdatumRight r1) eqn:E; [done|]. apply rcut_null in E.
    specialize (Hf r2 ltac:(set_solver)). unfold before in Hf. rewrite E in Hf. by apply lcut_not_pos in Hf.
  - left. destruct (m_pdatumLeft r) eqn:E; [done|]. apply lcut_null in E.
    specialize (Hf r Hr). unfold before in Hf. rewrite E in Hf. by apply rcut_not_neg in Hf.
Qed.

Lemma eval_ranges row rs :
  Forall ends_not_null rs -> Forall (fun r => full r = false) rs ->
  holds false (any3 (map (fun r => eval_bool oo row (range_PexprScalar r c)) rs)) =
  match row (m_id c) with Some x => in_ranges rs x | None => false end.
Proof.
  intros Hn. induction Hn as [|r rs Hr _ IH]; intros Hf; [by destruct (row (m_id c))|].
  apply Forall_cons in Hf as [Hf Hf']. specialize (IH Hf').
  cbn [map any3 foldr]. fold (any3 (map (fun r => eval_bool oo row (range_PexprScalar r c)) rs)).
  rewrite holds_or, IH, range_eval by done. by destruct (row (m_id c)).
Qed.

(** The disjunction of the ranges. *)
Lemma disjunction_eval p row :
  interval_ok p -> m_pcr p = c -> Forall ends_not_null (m_pdrgprng p) ->
  holds false (eval_bool oo row (PexprConstructDisjunctionScalar p)) = in_interval p (row (m_id c)).
Proof.
  intros Hok Hc Hn. unfold PexprConstructDisjunctionScalar. rewrite Hc. unfold in_interval.
  destruct (bool_decide _ && _) eqn:Eb.
  - apply andb_true_iff in Eb as [El Eh]. apply bool_decide_eq_true in El. rewrite length_map in El.
    destruct (m_pdrgprng p) as [|r [|]]; try done. simpl in Eh. rewrite range_const_true in Eh.
    assert (Hin : forall x, in_ranges [r] x = true).
    { intros x. unfold full in Eh. simpl. unfold in_range.
      by destruct (m_pdatumLeft r), (m_pdatumRight r). }
    destruct (m_fIncludesNull p).
    + rewrite PexprScalarConstBool_eval. destruct (row (m_id c)); [|done]. by rewrite Hin.
    + unfold PexprIsNotNull. rewrite eval_not, eval_IsNull. destruct (row (m_id c)); [|done]. by rewrite Hin.
  - unfold PexprDisjunction. rewrite PexprConjDisj_eval. cbn [junct3].
    rewrite map_app, any3_app, holds_or, map_map, eval_ranges; [|done|].
    + destruct (m_fIncludesNull p); cbn [map any3 foldr]; rewrite ?eval_IsNull;
        destruct (row (m_id c)); simpl; by rewrite ?orb_false_r.
    + destruct (m_pdrgprng p) as [|r [|r2 rs]] eqn:Er; [constructor| |].
      * repeat constructor. simpl in Eb. by rewrite range_const_true in Eb.
      * apply not_full_many. unfold interval_ok in Hok. by rewrite Er in Hok.
Qed.

(** *** IN and NOT IN lists *)

Lemma FPoint_spec r : range_ok r ->
  exists b, FPoint r = Ret b /\
    (b = true -> exists l u, m_pdatumLeft r = Some l /\ m_pdatumRight r = Some u /\
       m_eriLeft r = EriIncluded /\ m_eriRight r = EriIncluded /\ Equals l u = true).
Proof.
  intros [_ Hl Hr]. unfold FPoint.
  destruct (m_eriLeft r) eqn:E1, (m_eriRight r) eqn:E2; simpl; try (by exists false).
  destruct (m_pdatumLeft r) as [l|]; [|by specialize (Hl eq_refl)].
  destruct (m_pdatumRight r) as [u|]; [|by specialize (Hr eq_refl)].
  simpl. eexists. split; [done|]. intros Heq. exists l, u. split_and!; try done.
  rewrite eq_spec in *. by rewrite andb_comm.
Qed.

Lemma all_points_spec rs : Forall range_ok rs ->
  exists b, all_points rs = Ret b /\
    (b = true -> exists ds, right_datums (length rs) rs = Ret ds /\ length ds = length rs /\
       (forall d, d ∈ ds -> exists r, r ∈ rs /\ m_pdatumRight r = Some d) /\
       forall x, in_ranges rs x = existsb (Equals x) ds).
Proof.
  induction 1 as [|r rs Hr _ IH]; cbn [all_points].
  { exists true. split; [done|]. intros _. exists []. split_and!; [done|done|set_solver|done]. }
  destruct (FPoint_spec r Hr) as (b & -> & Hb). cbn [mbind outcome_bind].
  destruct b; [|by exists false]. destruct IH as (b' & -> & Hb'). exists b'. split; [done|].
  intros Ht. destruct (Hb eq_refl) as (l & u & El & Eu & E1 & E2 & Heq).
  destruct (Hb' Ht) as (ds & Ed & Hlen & Hin & Hv). exists (u :: ds).
  cbn [length right_datums]. rewrite Eu. cbn [deref mbind outcome_bind]. rewrite Ed.
  split_and!; [done|by simpl; rewrite Hlen| |].
  - intros d [->|Hd]%elem_of_cons; [exists r; set_solver|]. destruct (Hin d Hd) as (r' & ? & ?). exists r'. set_solver.
  - intros x. cbn [in_ranges existsb]. fold (in_ranges rs x). rewrite Hv. f_equal.
    by apply (in_point r l u).
Qed.

(** The gaps between consecutive excluded ends. *)
Lemma not_in_spec r rs :
  ranges_ok (r :: rs) -> not_in_loop r rs = true ->
  default None (m_pdatumRight <$> last (r :: rs)) = None ->
  exists ds, right_datums (length rs) (r :: rs) = Ret ds /\ length ds = length rs /\
    (forall d, d ∈ ds -> exists r', r' ∈ r :: rs /\ m_pdatumRight r' = Some d) /\
    (forall d, d ∈ ds -> cle (lcut r) (CBefore d)) /\
    forall x, in_ranges (r :: rs) x = true <->
      left_of (lcut r) x /\ existsb (Equals x) ds = false.
Proof.
  revert r. induction rs as [|r' rs IH]; intros r Hok Hn Hlast.
  - exists []. split_and!; [done|done|set_solver|set_solver|]. intros x. cbn [in_ranges existsb].
    rewrite orb_false_r, in_range_cuts. simpl in Hlast. apply rcut_null in Hlast as ->.
    split; [tauto|]. intros [Hl _]. split; [done|]. by intros Hp%left_of_pos.
  - cbn [not_in_loop] in Hn. destruct (_ && _ && _) eqn:Ec; [|done].
    rewrite !andb_true_iff in Ec. destruct Ec as [[E1 E2] Eu].
    apply bool_decide_eq_true in E1. apply bool_decide_eq_true in E2.
    pose proof Hok as Hok'. apply ranges_ok_cons in Hok' as (Hr & Hrs & Hf).
    inversion Hf as [|? ? Hb _]; subst. unfold before in Hb. unfold FUpperBoundEqualsLowerBound in Eu.
    destruct (m_pdatumRight r) as [d|] eqn:Ed.
    2:{ apply rcut_null in Ed. rewrite Ed in Hb. by apply lcut_not_pos in Hb. }
    destruct (m_pdatumLeft r') as [d'|] eqn:Ed'; [|done].
    destruct (IH r' Hrs Hn) as (ds & E & Hlen & Hin & Hcut & Hv); [done|].
    exists (d :: ds). cbn [length right_datums] in *. rewrite Ed. cbn [deref mbind outcome_bind]. rewrite E.
    assert (Erc : rcut r = CBefore d) by (unfold rcut; by rewrite Ed, E1).
    assert (Elc : lcut r' = CAfter d') by (unfold lcut; by rewrite Ed', E2).
    pose proof (ro_order _ Hr) as Hor. rewrite Erc, Elc in *. split_and!; [done|by simpl; rewrite Hlen| | |].
    + intros y [->|Hy]%elem_of_cons; [exists r; set_solver|]. destruct (Hin y Hy) as (r0 & ? & ?). exists r0. set_solver.
    + intros y [->|Hy]%elem_of_cons; [cut_order|]. specialize (Hcut y Hy). cut_order.
    + intros x. cbn [existsb]. destruct (Equals_lt d d' x Eu) as [Hd1 Hd2].
      cbn [in_ranges existsb]. fold (in_ranges rs x). rewrite orb_true_iff.
      change (in_range r' x || in_ranges rs x) with (in_ranges (r' :: rs) x).
      rewrite Hv, in_range_cuts, Erc, orb_false_iff, eq_spec.
      assert (Hafter : left_of (CAfter d') x <-> IsLessThan d x = true) by (rewrite Hd1; done).
      assert (Hbefore : ~ left_of (CBefore d) x <-> IsLessThan x d = true).
      { unfold left_of, cle. simpl. by destruct (IsLessThan x d). }
      assert (Hex : IsLessThan x d = true -> existsb (Equals x) ds = false).
      { intros Hx. apply not_true_iff_false. rewrite existsb_exists. intros (y & Hy%list_elem_of_In & Heq).
        specialize (Hcut y Hy). rewrite Hd2 in Hx. unfold cle in Hcut. simpl in Hcut.
        apply eq_lt in Heq as [Heq _]. by rewrite (lt_trans _ _ _ Hx Hcut) in Heq. }
      assert (Hlo : IsLessThan d x = true -> left_of (lcut r) x).
      { intros Hx. assert (cle (CBefore d) (CBefore x)) by (unfold cle; simpl; by rewrite (lt_asym _ _ Hx)).
        unfold left_of. cut_order. }
      rewrite Hafter, Hbefore. destruct (IsLessThan x d) eqn:X1, (IsLessThan d x) eqn:X2; simpl;
        try (by rewrite (lt_asym _ _ X1) in X2); naive_solver.
Qed.

(** The array comparison over datums that are not null. *)
Lemma array_eval row (fIn : bool) ds e :
  ds <> [] -> Forall (fun d => IsNull d = false) ds ->
  PexprScalarArrayCmp (if fIn then EarrcmpAny else EarrcmpAll) (if fIn then EcmptEq else EcmptNEq) ds c
    = Ret (Some e) ->
  holds false (eval_bool oo row e) =
  match row (m_id c) with
  | Some x => if fIn then existsb (Equals x) ds else negb (existsb (Equals x) ds)
  | None => false
  end.
Proof.
  intros Hne Hnn He. unfold PexprScalarArrayCmp in He.
  rewrite bind_assert in He by (apply bool_decide_eq_true; destruct ds; simpl; [done|lia]).
  destruct (negb _ || negb _); [done|].
  assert (Hca : forall l, FScalarConstArray (CScalarArray (D := D) [] (map CScalarConst l)) = true).
  { intros l. simpl. induction l; done. }
  assert (Hac : forall l, array_consts (CScalarArray (D := D) [] (map CScalarConst l)) = l).
  { intros l. destruct l as [|d l]; [done|]. simpl. f_equal. induction l as [|d' l IH]; [done|]. simpl. by f_equal. }
  assert (Hgen : holds false (eval_bool oo row (CScalarArrayCmp (if fIn then EarrcmpAny else EarrcmpAll)
      (if fIn then EcmptEq else EcmptNEq) (CScalarIdent c) (CScalarArray [] (map CScalarConst ds)))) =
    match row (m_id c) with
    | Some x => if fIn then existsb (Equals x) ds else negb (existsb (Equals x) ds)
    | None => false
    end).
  { rewrite eval_array_cmp by apply Hca. cbn [PexprScalarArrayChild]. rewrite Hac. cbn [eval].
    destruct (row (m_id c)) as [x|].
    - destruct fIn; cbn zeta; [by rewrite any_eq_consts|by rewrite all_neq_consts].
    - pose proof (null_consts oo (if fIn then EarrcmpAny else EarrcmpAll)
        (if fIn then EcmptEq else EcmptNEq) ds Hne) as E. cbn zeta in E |- *. by rewrite E. }
  destruct ds as [|d [|d2 ds]]; [done| |by injection He as <-].
  injection He as <-. inversion Hnn; subst. rewrite eval_ScalarCmp by done.
  destruct (row (m_id c)) as [x|]; [|done]. destruct fIn; simpl; by rewrite orb_false_r.
Qed.

(** Types that have no array type or comparison must not be asked for a list with NULL. *)
Definition array_usable p : Prop :=
  m_fIncludesNull p = false \/
  (has_array_type (RetrieveType (m_pcr p)) = true /\ has_cmp (RetrieveType (m_pcr p)) EcmptEq = true /\
   has_cmp (RetrieveType (m_pcr p)) EcmptNEq = true).

(** The common part of both lists: from the constants to the predicate. *)
Lemma list_scalar_eval p (fIn : bool) ds :
  m_pcr p = c -> array_usable p -> ds <> [] -> Forall (fun d => IsNull d = false) ds ->
  right_datums (if fIn then length (m_pdrgprng p) else length (m_pdrgprng p) - 1) (m_pdrgprng p) = Ret ds ->
  (forall x, in_ranges (m_pdrgprng p) x = if fIn then existsb (Equals x) ds else negb (existsb (Equals x) ds)) ->
  exists o, PexprConstructArrayScalar_in p fIn = Ret o /\
    forall e, o = Some e -> forall row, holds false (eval_bool oo row e) = in_interval p (row (m_id c)).
Proof.
  intros Hc Hau Hne Hnn Ed Hv. unfold PexprConstructArrayScalar_in. cbn zeta. rewrite Ed, Hc.
  cbn [mbind outcome_bind].
  assert (Ho : exists o, PexprScalarArrayCmp (if fIn then EarrcmpAny else EarrcmpAll)
    (if fIn then EcmptEq else EcmptNEq) ds c = Ret o /\ (m_fIncludesNull p = true -> is_Some o)).
  { unfold PexprScalarArrayCmp.
    rewrite bind_assert by (apply bool_decide_eq_true; destruct ds; simpl; [done|lia]).
    destruct Hau as [Hau|(A1 & A2 & A3)].
    - destruct (negb _ || negb _); [exists None; split; [done|congruence]|].
      destruct ds as [|? [|]]; eexists; (split; [done|]); congruence.
    - rewrite Hc in A1, A2, A3. rewrite A1. destruct fIn; rewrite ?A2, ?A3; simpl;
        destruct ds as [|? [|]]; (eexists; split; [done|]); intros _; by eexists. }
  destruct Ho as (o & Eo & Ho). rewrite Eo. cbn [mbind outcome_bind].
  assert (Hev : forall e, o = Some e -> forall row, holds false (eval_bool oo row e) =
    match row (m_id c) with Some x => in_ranges (m_pdrgprng p) x | None => false end).
  { intros e -> row. rewrite (array_eval row fIn ds) by done. destruct (row (m_id c)); [|done]. by rewrite Hv. }
  destruct (m_fIncludesNull p) eqn:En.
  - destruct (Ho eq_refl) as [e ->]. rewrite bind_assert by done. cbn [deref mbind outcome_bind].
    eexists. split; [done|]. intros e' [= <-] row.
    etransitivity; [exact (f_equal (holds false) (PexprConjDisj2_eval oo row false e (PexprIsNull c)))|].
    cbn iota. rewrite holds_or, Hev, eval_IsNull by done. unfold in_interval. rewrite En.
    destruct (row (m_id c)); simpl; by rewrite ?orb_false_r.
  - exists o. split; [done|]. intros e He row. rewrite (Hev e He). unfold in_interval. by rewrite En.
Qed.

Lemma array_scalar_eval p :
  interval_ok p -> m_pcr p = c -> Forall ends_not_null (m_pdrgprng p) -> array_usable p ->
  exists o, PexprConstructArrayScalar p = Ret o /\
    forall e, o = Some e -> forall row, holds false (eval_bool oo row e) = in_interval p (row (m_id c)).
Proof.
  intros Hok Hc Hnn Hau. unfold PexprConstructArrayScalar.
  destruct (bool_decide (length (m_pdrgprng p) <= 1)) eqn:El; [by exists None|].
  apply bool_decide_eq_false in El. unfold FConvertsToIn. rewrite bool_decide_eq_false_2 by done.
  destruct (all_points_spec (m_pdrgprng p)) as (b & -> & Hb); [apply Hok|]. cbn [mbind outcome_bind].
  assert (Hnull : forall ds, (forall d, d ∈ ds -> exists r, r ∈ m_pdrgprng p /\ m_pdatumRight r = Some d) ->
    Forall (fun d => IsNull d = false) ds).
  { intros ds Hin. apply Forall_forall. intros d Hd. destruct (Hin d Hd) as (r & Hr & E).
    rewrite Forall_forall in Hnn. by apply (Hnn r Hr). }
  destruct b.
  - destruct (Hb eq_refl) as (ds & Ed & Hlen & Hin & Hv).
    apply (list_scalar_eval p true ds); auto. intros ->. simpl in Hlen. lia.
  - destruct (FConvertsToNotIn p) eqn:En; [|by exists None]. unfold FConvertsToNotIn in En.
    unfold interval_ok in Hok. destruct (m_pdrgprng p) as [|r [|r2 rs]] eqn:Er; [done..|].
    destruct (negb _ || negb _) eqn:Eends; [done|]. rewrite orb_false_iff, !negb_false_iff in Eends.
    destruct Eends as [E1 E2]. destruct (m_pdatumLeft r) eqn:Eleft; [done|].
    destruct (not_in_spec r (r2 :: rs)) as (ds & Ed & Hlen & Hin & _ & Hv); [done|done| |].
    { by destruct (default None _). }
    rewrite <- Er in *. apply (list_scalar_eval p false ds); auto.
    + intros ->. simpl in Hlen. lia.
    + replace (length (m_pdrgprng p) - 1) with (length (r2 :: rs)) by (rewrite Er; simpl; lia). exact Ed.
    + intros x. apply eq_bool_prop_intro. rewrite !Is_true_true, Hv, negb_true_iff.
      apply lcut_null in Eleft as ->. unfold left_of. simpl. by intuition.
Qed.

(** The predicate of an interval is true exactly for the values of the interval. *)
Lemma construct_eval p :
  interval_ok p -> m_pcr p = c -> typed p -> array_usable p ->
  exists e, PexprConstructScalar ctx p = Ret e /\
    forall row, col_value c (row (m_id c)) -> holds false (eval_bool oo row e) = in_interval p (row (m_id c)).
Proof.
  intros Hok Hc Ht Hau. unfold PexprConstructScalar.
  assert (Hnn : Forall ends_not_null (m_pdrgprng p)).
  { apply Forall_forall. intros r Hr. destruct (Ht r Hr) as [Hl Hr']. split; intros d Hd; [by apply Hl|by apply Hr']. }
  destruct (FContradiction p) eqn:Ec.
  { eexists. split; [done|]. intros row Hv. rewrite PexprScalarConstBool_eval. symmetry.
    apply FContradiction_sound; [done..|]. by rewrite Hc. }
  assert (Harr : exists o, (if EopttraceArrayConstraints (flags ctx) then PexprConstructArrayScalar p else mret None) = Ret o /\
    forall e, o = Some e -> forall row, holds false (eval_bool oo row e) = in_interval p (row (m_id c))).
  { destruct (EopttraceArrayConstraints (flags ctx)); [by apply array_scalar_eval|by exists None]. }
  destruct Harr as (o & -> & Ho). cbn [mbind outcome_bind]. destruct o as [e|].
  - exists e. split; [done|]. intros row _. by apply Ho.
  - eexists. split; [done|]. intros row _. by apply disjunction_eval.
Qed.

(** *** The predicate of an interval is supported *)

Hypothesis Hflag : EopttraceConsiderOpfamiliesForDistribution (flags ctx) = false.

Lemma conj_disj_kept es (f : bool) final l e :
  conj_disj_loop (D := D) es f final = Some l -> e ∈ l -> e ∈ final ++ es.
Proof.
  revert final. induction es as [|x es IH]; intros final; simpl.
  - intros [= <-]. by rewrite app_nil_r.
  - destruct (FSkippable x f); [|destruct (FReducible x f); [done|]]; intros El He;
      specialize (IH _ El He); set_solver.
Qed.

Lemma const_supported b : supported ctx c (PexprScalarConstBool b).
Proof. apply sup_const with b. simpl. rewrite bool_get, bool_not_null. by destruct b. Qed.

Lemma ConjDisj_supported es (f : bool) :
  Forall (supported ctx c) es -> supported ctx c (PexprConjDisj es f).
Proof.
  intros Hes. unfold PexprConjDisj. destruct (conj_disj_loop es f []) as [l|] eqn:El; [|apply const_supported].
  assert (Hl : forall e, e ∈ l -> supported ctx c e).
  { intros e He. rewrite Forall_forall in Hes. apply Hes. by apply (conj_disj_kept _ _ _ _ e) in El. }
  destruct l as [|e1 [|e2 l]]; [apply const_supported|apply Hl; set_solver|].
  destruct f; by constructor.
Qed.

Lemma cmp_supported d cmp :
  IsNull d = false -> cmp <> EcmptOther -> cmp <> EcmptIDF -> supported ctx c (PexprScalarCmp c d cmp).
Proof. intros. eapply sup_cmp; try done; [apply same_col_refl|by left]. Qed.

Lemma is_null_supported : supported ctx c (PexprIsNull c).
Proof. constructor. apply same_col_refl. Qed.

Lemma range_supported r : ends_not_null r -> supported ctx c (range_PexprScalar r c).
Proof.
  intros [Hl Hr]. unfold range_PexprScalar. destruct (PexprEquality r c) as [e|] eqn:E.
  - unfold PexprEquality in E. destruct (m_pdatumLeft r) as [l|] eqn:El; [|done].
    destruct (m_pdatumRight r) as [u|] eqn:Eu; [|done]. destruct (negb _ || _ || _); [done|].
    injection E as <-. apply cmp_supported; auto.
  - apply ConjDisj_supported. unfold PexprScalarCompEnd. apply Forall_app. split.
    + destruct (m_pdatumLeft r) as [l|]; [|constructor]. repeat constructor.
      apply cmp_supported; [auto|by destruct (eri_eqb _ _)..].
    + destruct (m_pdatumRight r) as [u|]; [|constructor]. repeat constructor.
      apply cmp_supported; [auto|by destruct (eri_eqb _ _)..].
Qed.

Lemma disjunction_supported p :
  m_pcr p = c -> Forall ends_not_null (m_pdrgprng p) -> supported ctx c (PexprConstructDisjunctionScalar p).
Proof.
  intros Hc Hn. unfold PexprConstructDisjunctionScalar. rewrite Hc. destruct (bool_decide _ && _).
  - destruct (m_fIncludesNull p); [apply const_supported|]. constructor. apply is_null_supported.
  - apply ConjDisj_supported, Forall_app. split.
    + apply Forall_fmap. eapply Forall_impl; [exact Hn|]. intros r. apply range_supported.
    + destruct (m_fIncludesNull p); [|constructor]. repeat constructor. apply same_col_refl.
Qed.

Lemma array_cmp_supported (fIn : bool) ds e :
  EopttraceArrayConstraints (flags ctx) = true -> Forall (fun d => IsNull d = false) ds ->
  PexprScalarArrayCmp (if fIn then EarrcmpAny else EarrcmpAll) (if fIn then EcmptEq else EcmptNEq) ds c
    = Ret (Some e) ->
  supported ctx c e /\ PdrgpexprDisjuncts e = [e].
Proof.
  intros Hfl Hnn. unfold PexprScalarArrayCmp.
  destruct ds as [|d ds]; [done|]. cbn [length]. rewrite bind_assert by (apply bool_decide_eq_true; lia).
  destruct (negb _ || negb _); [done|]. apply Forall_cons in Hnn as [Hd Hds].
  assert (Hca : forall l, forallb FScalarConst (map (CScalarConst (D := D)) l) = true) by (by induction l).
  assert (Hac : forall l, omap (fun e => match e with CScalarConst d => Some d | _ => None end)
                            (map (CScalarConst (D := D)) l) = l).
  { induction l as [|d' l IH]; [done|]. simpl. by f_equal. }
  destruct ds as [|d2 ds]; intros [= <-]; [split; [|done]|split; [|by destruct fIn]].
  - apply cmp_supported; [done|by destruct fIn..].
  - eapply sup_in; [|done|apply same_col_refl|done| |by destruct fIn; auto|done].
    + unfold FCompareIdentToConstArray. simpl. by rewrite Hca.
    + cbn [PexprScalarArrayChild]. change (Forall (fun d => IsNull d = false)
        (omap (fun e => match e with CScalarConst d => Some d | _ => None end) (map CScalarConst (d :: d2 :: ds)))).
      rewrite Hac. by constructor.
Qed.

Lemma right_datums_in n rs ds d :
  right_datums n rs = Ret ds -> d ∈ ds -> exists r, r ∈ rs /\ m_pdatumRight r = Some d.
Proof.
  revert rs ds. induction n as [|n IH]; intros rs ds; simpl; [intros [= <-]; set_solver|].
  destruct rs as [|r rs]; [done|]. destruct (m_pdatumRight r) as [u|] eqn:Eu; [|done]. simpl.
  destruct (right_datums n rs) as [l|] eqn:El; [|done]. simpl. intros [= <-] [->|Hd]%elem_of_cons.
  - exists r. set_solver.
  - destruct (IH rs l El Hd) as (r' & ? & ?). exists r'. set_solver.
Qed.

Lemma array_scalar_supported p o e :
  m_pcr p = c -> Forall ends_not_null (m_pdrgprng p) -> EopttraceArrayConstraints (flags ctx) = true ->
  PexprConstructArrayScalar p = Ret o -> o = Some e -> supported ctx c e.
Proof.
  intros Hc Hn Hfl E ->. unfold PexprConstructArrayScalar in E.
  assert (Hin : exists fIn, PexprConstructArrayScalar_in p fIn = Ret (Some e)).
  { destruct (bool_decide _); [done|]. destruct (FConvertsToIn p) as [[]|]; [by exists true| |done].
    cbn [mbind outcome_bind] in E. destruct (FConvertsToNotIn p); [by exists false|done]. }
  clear E. destruct Hin as (fIn & E). unfold PexprConstructArrayScalar_in in E. cbn zeta in E. rewrite Hc in E.
  destruct (right_datums _ _) as [ds|] eqn:Ed; [|done]. cbn [mbind outcome_bind] in E.
  assert (Hnn : Forall (fun d => IsNull d = false) ds).
  { apply Forall_forall. intros d Hd. destruct (right_datums_in _ _ _ _ Ed Hd) as (r & Hr & Er).
    rewrite Forall_forall in Hn. by apply (Hn r Hr). }
  destruct (PexprScalarArrayCmp _ _ ds c) as [[a|]|] eqn:Ea; [| |done]; cbn [mbind outcome_bind] in E.
  - destruct (array_cmp_supported fIn ds a Hfl Hnn Ea) as [Ha Hd].
    destruct (m_fIncludesNull p); [|by injection E as <-].
    rewrite bind_assert in E by done. injection E as <-. rewrite Hd. apply ConjDisj_supported.
    repeat constructor; [done|apply same_col_refl].
  - by destruct (m_fIncludesNull p).
Qed.

Lemma construct_supported p e :
  m_pcr p = c -> Forall ends_not_null (m_pdrgprng p) ->
  PexprConstructScalar ctx p = Ret e -> supported ctx c e.
Proof.
  intros Hc Hn. unfold PexprConstructScalar. destruct (FContradiction p).
  { intros [= <-]. apply const_supported. }
  destruct (EopttraceArrayConstraints (flags ctx)) eqn:Efl.
  - destruct (PexprConstructArrayScalar p) as [[a|]|] eqn:Ea; [| |done]; intros [= <-].
    + by eapply array_scalar_supported.
    + by apply disjunction_supported.
  - intros [= <-]. by apply disjunction_supported.
Qed.

End ConstructProofs.

End ScalarInterval.
