(* ===== verification/IntervalEnds.v ===== *)
(** * The ends of the ranges of an interval

    The set operations on intervals only use ends of the ranges they are given, and
    the interval of a predicate only the constants of the predicate and the two
    booleans: so intervals stay typed, that is, their ends are values of the column. *)
From stdpp Require Import base numbers list sets sorting.
From S2P Require Import Prelude Range ConstraintInterval ScalarExpr ScalarInterval.

Module IntervalEnds.
Import Range ConstraintInterval ScalarExpr ScalarInterval.
Open Scope nat_scope.

Section Ends.
Context {D : Type} `{IComparator D} `{IDatum D} (P : D -> Prop).
Implicit Types (r s : CRange D) (rs : list (CRange D)) (p q : CConstraintInterval D).

Definition end_ok (o : option D) : Prop := forall d, o = Some d -> P d.
Definition ends r : Prop := end_ok (m_pdatumLeft r) /\ end_ok (m_pdatumRight r).
Definition ends_opt (o : option (CRange D)) : Prop := forall r, o = Some r -> ends r.
Definition ends_of p : Prop := Forall ends (m_pdrgprng p).
Definition ends_of_opt (o : option (CConstraintInterval D)) : Prop := forall p, o = Some p -> ends_of p.

Lemma ends_none : ends_opt None.
Proof. by intros r. Qed.

Lemma ends_some r : ends r -> ends_opt (Some r).
Proof. by intros Hr s [= <-]. Qed.

Lemma ctor_ends l el u eu : end_ok l -> end_ok u -> wlp (CRange_ctor l el u eu) ends.
Proof. intros Hl Hu. unfold CRange_ctor. apply wlp_any. intros _. by apply wlp_ret. Qed.

Lemma ctor_ends_some l el u eu : end_ok l -> end_ok u -> wlp (Some <$> CRange_ctor l el u eu) ends_opt.
Proof.
  intros Hl Hu o Ho. pose proof (ctor_ends l el u eu Hl Hu) as Hr.
  destruct (CRange_ctor l el u eu) as [r|]; [|done]. injection Ho as <-. by apply ends_some, Hr.
Qed.

Lemma end_some d : P d -> end_ok (Some d).
Proof. by intros Hd e [= <-]. Qed.

(** A dereferenced end *)
Lemma deref_end {B} (o : option D) (k : D -> outcome B) Φ :
  end_ok o -> (forall d, P d -> wlp (k d) Φ) -> wlp (deref o ≫= k) Φ.
Proof. intros Ho Hk. destruct o as [d|]; [|by intros ? ?]. by apply Hk, Ho. Qed.

Lemma PrngIntersect_ends r s : ends r -> ends s -> wlp (PrngIntersect r s) ends_opt.
Proof.
  intros [R1 R2] [S1 S2]. unfold PrngIntersect. do 2 (apply wlp_any; intros []; [by apply wlp_ret, ends_some|]).
  do 2 (apply wlp_any; intros [];
    [apply deref_end; [done|]; intros d Hd; apply deref_end; [done|]; intros d' Hd'; by apply ctor_ends_some; apply end_some|]).
  apply wlp_ret, ends_none.
Qed.

Lemma DifferenceLeft_ends r s : ends r -> ends s -> wlp (PrngDifferenceLeft r s) ends_opt.
Proof.
  intros Hr [S1 S2]. unfold PrngDifferenceLeft. destruct (FDisjointLeft r s); [by apply wlp_ret, ends_some|].
  destruct (m_pdatumLeft s) as [l|]; [|apply wlp_ret, ends_none]. apply wlp_any. intros []; [|apply wlp_ret, ends_none].
  apply ctor_ends_some; [apply Hr|done].
Qed.

Lemma DifferenceRight_ends r s : ends r -> ends s -> wlp (PrngDifferenceRight r s) ends_opt.
Proof.
  intros Hr [S1 S2]. unfold PrngDifferenceRight. destruct (FDisjointLeft s r); [by apply wlp_ret, ends_some|].
  destruct (m_pdatumRight s) as [l|]; [|apply wlp_ret, ends_none]. apply wlp_any. intros []; [|apply wlp_ret, ends_none].
  apply ctor_ends_some; [done|apply Hr].
Qed.

Lemma PrngExtend_ends r s : ends r -> ends s -> wlp (PrngExtend r s) ends_opt.
Proof.
  intros Hr Hs. unfold PrngExtend. apply wlp_any. intros []; [|apply wlp_ret, ends_none].
  apply ctor_ends_some; [apply Hr|apply Hs].
Qed.

Lemma AppendOrExtend_ends rs o : Forall ends rs -> ends_opt o -> wlp (AppendOrExtend rs o) (Forall ends).
Proof.
  intros Hrs Ho. unfold AppendOrExtend. destruct o as [r|]; [|by apply wlp_ret].
  assert (Forall ends (rs ++ [r])) as Happ by (apply Forall_app; split; [done|]; constructor; [by apply Ho|constructor]).
  destruct (last rs) as [t|] eqn:El; [|by apply wlp_ret].
  assert (ends t) as Ht by (rewrite Forall_forall in Hrs; apply Hrs, last_Some_elem_of; done).
  eapply wlp_bind; [by apply PrngExtend_ends; [|apply Ho]|]. intros [n|] Hn; apply wlp_ret; [|done].
  apply Forall_insert; [done|by apply Hn].
Qed.

Lemma AddRemaining_ends src : forall dest, Forall ends src -> Forall ends dest -> wlp (AddRemainingRanges src dest) (Forall ends).
Proof.
  induction src as [|r src IH]; intros dest Hs Hd; cbn [AddRemainingRanges]; [by apply wlp_ret|].
  apply Forall_cons in Hs as [Hr Hs]. eapply wlp_bind; [by apply AppendOrExtend_ends; [|apply ends_some]|].
  intros dest' Hd'. by apply IH.
Qed.

Lemma append_opt_ends rs o : Forall ends rs -> ends_opt o -> Forall ends (append_opt rs o).
Proof. intros Hrs Ho. destruct o as [r|]; [|done]. apply Forall_app. split; [done|]. constructor; [by apply Ho|constructor]. Qed.

Lemma intersect_loop_ends fst : forall snd acc,
  Forall ends fst -> Forall ends snd -> Forall ends acc -> wlp (intersect_loop fst snd acc) (Forall ends).
Proof.
  induction fst as [|r fst IH]; intros snd acc Hf; [destruct snd; intros; by apply wlp_ret|].
  apply Forall_cons in Hf as [Hr Hf]. revert acc. induction snd as [|s snd IHs]; intros acc Hs Hacc; [by apply wlp_ret|].
  pose proof Hs as Hs'. apply Forall_cons in Hs' as [Hs1 Hs2]. cbn [intersect_loop]. apply wlp_any. intros [].
  - eapply wlp_bind; [by apply PrngIntersect_ends|]. intros o Ho. apply IH; [done..|]. by apply append_opt_ends.
  - eapply wlp_bind; [by apply PrngIntersect_ends|]. intros o Ho. apply IHs; [done|]. by apply append_opt_ends.
Qed.

Lemma union_loop_ends fst : forall snd acc,
  Forall ends fst -> Forall ends snd -> Forall ends acc -> wlp (union_loop fst snd acc) (Forall ends).
Proof.
  induction fst as [|r fst IH]; intros snd acc Hf.
  { intros Hs Ha. destruct snd; (eapply wlp_bind; [by apply AddRemaining_ends|intros acc' Ha'; by apply AddRemaining_ends]). }
  pose proof Hf as Hf0. apply Forall_cons in Hf as [Hr Hf]. revert acc. induction snd as [|s snd IHs]; intros acc Hs Hacc.
  { eapply wlp_bind; [by apply AddRemaining_ends|]. intros acc' Ha'. by apply AddRemaining_ends. }
  pose proof Hs as Hs'. apply Forall_cons in Hs' as [Hs1 Hs2]. cbn [union_loop]. apply wlp_any. intros [].
  - eapply wlp_bind; [by apply DifferenceLeft_ends|]. intros o Ho. eapply wlp_bind; [by apply AppendOrExtend_ends|].
    intros acc' Ha'. by apply IH.
  - eapply wlp_bind; [by apply DifferenceLeft_ends|]. intros o Ho. eapply wlp_bind; [by apply AppendOrExtend_ends|].
    intros acc' Ha'. by apply IHs.
Qed.

Lemma residual_ends r s : ends r -> ends s ->
  wlp (PrangeDiffWithRightResidual r s) (fun x => ends_opt x.1 /\ ends_opt x.2).
Proof.
  intros Hr Hs. unfold PrangeDiffWithRightResidual.
  destruct (FDisjointLeft s r); [apply wlp_ret; split; apply ends_none|]. apply wlp_any. intros c.
  eapply wlp_bind with (Ψ := ends_opt); [destruct c; [by apply DifferenceLeft_ends|apply wlp_ret, ends_none]|].
  intros o Ho. eapply wlp_bind; [by apply DifferenceRight_ends|]. intros o' Ho'. by apply wlp_ret.
Qed.

Lemma difference_loop_ends fst : forall snd res acc,
  Forall ends fst -> Forall ends snd -> ends_opt res -> Forall ends acc -> wlp (difference_loop fst snd res acc) (Forall ends).
Proof.
  assert (forall l res acc, Forall ends l -> ends_opt res -> Forall ends acc ->
    wlp (acc' ← AppendOrExtend acc res; AddRemainingRanges (match res with Some _ => tail l | None => l end) acc') (Forall ends)) as Hend.
  { intros l res acc Hl Hres Hacc. eapply wlp_bind; [by apply AppendOrExtend_ends|]. intros acc' Ha'.
    apply AddRemaining_ends; [|done]. destruct res; [|done]. destruct l; [done|]. by apply Forall_cons in Hl as [_ Hl]. }
  induction fst as [|r fst IH]; intros snd res acc Hf.
  { intros Hs Hres Ha. destruct snd; by apply (Hend []). }
  pose proof Hf as Hf0. apply Forall_cons in Hf as [Hr Hf]. revert res acc.
  induction snd as [|s snd IHs]; intros res acc Hs Hres Hacc; [by apply (Hend (r :: fst))|].
  pose proof Hs as Hs'. apply Forall_cons in Hs' as [Hs1 Hs2]. cbn [difference_loop].
  assert (ends (default r res)) as Hthis by (destruct res; [by apply Hres|done]).
  apply wlp_any. intros [].
  - eapply wlp_bind; [by apply DifferenceLeft_ends|]. intros o Ho. eapply wlp_bind; [by apply AppendOrExtend_ends|].
    intros acc' Ha'. by apply IH.
  - eapply wlp_bind; [by apply residual_ends|]. intros [o res'] [Ho Hres']. eapply wlp_bind; [by apply AppendOrExtend_ends|].
    intros acc' Ha'. by apply IHs.
Qed.

Lemma PciIntersect_ends p q : ends_of p -> ends_of q -> wlp (PciIntersect p q) ends_of.
Proof.
  intros Hp Hq. unfold PciIntersect. apply wlp_any. intros _.
  eapply wlp_bind; [apply intersect_loop_ends; [exact Hp|exact Hq|constructor]|]. intros l Hl. by apply wlp_ret.
Qed.

Lemma PciUnion_ends p q : ends_of p -> ends_of q -> wlp (PciUnion p q) ends_of.
Proof.
  intros Hp Hq. unfold PciUnion. apply wlp_any. intros _.
  eapply wlp_bind; [apply union_loop_ends; [exact Hp|exact Hq|constructor]|]. intros l Hl. by apply wlp_ret.
Qed.

Lemma PciDifference_ends p q : ends_of p -> ends_of q -> wlp (PciDifference p q) ends_of.
Proof.
  intros Hp Hq. unfold PciDifference. apply wlp_any. intros _.
  eapply wlp_bind; [apply difference_loop_ends; [exact Hp|exact Hq|apply ends_none|constructor]|]. intros l Hl. by apply wlp_ret.
Qed.

Hypothesis Hbool : forall b, P (CreateBoolDatum b).

Lemma range_ends l el u eu : end_ok l -> end_ok u -> ends (mkRange l el u eu).
Proof. by split. Qed.

Lemma end_none : end_ok None.
Proof. done. Qed.

Lemma PciUnbounded_ends tf c n : wlp (PciUnbounded tf c n) ends_of_opt.
Proof.
  unfold PciUnbounded. destruct (negb _); [by apply wlp_ret|].
  eapply wlp_bind with (Ψ := ends).
  - destruct (is_bool_col c); apply ctor_ends; (apply end_some, Hbool || apply end_none).
  - intros r Hr. apply wlp_ret. intros p [= <-]. by repeat constructor; apply Hr.
Qed.

Lemma PciComplement_ends tf p : ends_of p -> wlp (PciComplement tf p) ends_of.
Proof.
  intros Hp. unfold PciComplement. eapply wlp_bind; [apply PciUnbounded_ends|]. intros [u|] Hu; [|by intros ? ?].
  apply PciDifference_ends; [by apply Hu|done].
Qed.

(** ** The interval of a predicate *)

Section Derive.
Context (ctx : Ctxt D).

(** The constants of a predicate *)
Fixpoint constants (e : CExpression D) : list D :=
  match e with
  | CScalarIdent _ => []
  | CScalarConst d => [d]
  | CScalarCast _ e | CScalarNullTest e | CScalarBooleanTest _ e | CScalarArrayCoerceExpr e => constants e
  | CScalarCmp _ l r | CScalarArrayCmp _ _ l r => constants l ++ constants r
  | CScalarIsDistinctFrom l r => filter (fun d => IsNull d = false) (constants l ++ constants r)
  | CScalarBoolOp _ es | CScalarOther _ es => concat (map constants es)
  | CScalarArray ds es => ds ++ concat (map constants es)
  end.

Definition constants_ok e : Prop := Forall P (constants e).

Lemma CRange_cmp_ends c d : P d -> ends (CRange_cmp c d).
Proof. intros Hd. destruct c; apply range_ends; (apply end_none || by apply end_some). Qed.

Lemma RangeFromCmp_ends c d rs : P d -> PciRangeFromColConstCmp c d = Some rs -> Forall ends rs.
Proof. intros Hd. destruct c; cbn; try done; intros [= <-]; repeat constructor; (apply end_none || by apply end_some). Qed.

Lemma const_of_ok e d : constants_ok e -> const_of e = Some d -> P d.
Proof.
  unfold constants_ok. intros Hc Hd. destruct e as [|d'|b e| | | | | | | | |]; try done; cbn in *.
  - injection Hd as <-. by apply Forall_cons in Hc as [? _].
  - destruct e; try done. injection Hd as <-. by apply Forall_cons in Hc as [? _].
Qed.

Lemma array_consts_ok e : constants_ok e -> Forall P (array_consts (PexprScalarArrayChild e)).
Proof.
  assert (forall a, constants_ok a -> Forall P (array_consts a)) as Ha.
  { unfold constants_ok. intros a Ha. destruct a as [| | | | | | | |ds es| | |]; try constructor. cbn in Ha.
    apply Forall_app in Ha as [Hds Hes]. destruct es as [|e1 es]; [done|]. apply Forall_forall. intros d Hd.
    rewrite Forall_forall in Hes. apply Hes. cbn [array_consts] in Hd. apply list_elem_of_omap in Hd as (x & Hx & Ex).
    destruct x; try done. injection Ex as ->. apply elem_of_concat_map. exists (CScalarConst d). split; [done|]. set_solver. }
  intros He. unfold PexprScalarArrayChild. destruct e; by apply Ha.
Qed.

Lemma sorted_set_ok l : Forall P l -> wlp (CDatumSortedSet_ctor l) (fun set => Forall P (ss_datums set)).
Proof.
  intros Hl. unfold CDatumSortedSet_ctor. apply wlp_any. intros _.
  set (l' := filter _ l). assert (Forall P l') as Hl'.
  { apply Forall_forall. intros d [_ Hd]%list_elem_of_filter. rewrite Forall_forall in Hl. by apply Hl. }
  assert (forall d m, Forall P (d :: m) -> Forall P (insert_datum d m)) as Hins.
  { intros d m. induction m as [|a m IH]; intros Hm; cbn; [done|]. rewrite !Forall_cons in Hm. destruct (_ <? _)%Z.
    - constructor; [tauto|]. apply IH. by constructor; tauto.
    - constructor; [tauto|]. by constructor; tauto. }
  assert (Forall P (Sort l')) as Hs.
  { clear -Hl' Hins. unfold Sort. induction Hl' as [|d m Hd _ IH]; cbn; [done|]. apply Hins. by constructor. }
  assert (Forall P (if IsSorted l' then l' else Sort l')) as Hx by (by destruct (IsSorted l')).
  assert (forall m d, Forall P m -> Forall P (dedup_loop d m)) as Hdd.
  { induction m as [|a m IH]; intros d Hm; cbn; [done|]. apply Forall_cons in Hm as [Ha Hm].
    destruct (negb _); [constructor; [done|]|]; by apply IH. }
  destruct (if IsSorted l' then l' else Sort l') as [|d m]; apply wlp_ret; cbn; [done|].
  apply Forall_cons in Hx as [Hd Hm]. constructor; [done|]. by apply Hdd.
Qed.

Lemma not_in_ends ds : forall o, Forall P ds -> end_ok o -> wlp (ranges_not_in o ds) (Forall ends).
Proof.
  induction ds as [|d ds IH]; intros o Hds Ho; cbn [ranges_not_in].
  - apply deref_end; [done|]. intros x Hx. eapply wlp_bind; [apply ctor_ends; [by apply end_some|apply end_none]|].
    intros r Hr. apply wlp_ret. by repeat constructor; apply Hr.
  - apply Forall_cons in Hds as [Hd Hds]. eapply wlp_bind; [by apply ctor_ends; [|apply end_some]|]. intros r Hr.
    eapply wlp_bind; [by apply IH; [|apply end_some]|]. intros rs Hrs. apply wlp_ret. by constructor.
Qed.

Lemma ArrayCmp_ends e c infer : constants_ok e -> wlp (PcnstrIntervalFromScalarArrayCmp e c infer) ends_of_opt.
Proof.
  intros He. unfold PcnstrIntervalFromScalarArrayCmp. destruct (negb _); [by apply wlp_ret|].
  destruct e as [| | | | | | | | | |t k l a|]; try by apply wlp_ret. do 2 (apply wlp_any; intros ?).
  unfold constants_ok in He. cbn in He. apply Forall_app in He as [_ Ha].
  destruct (bool_decide _); [by apply wlp_ret|]. eapply wlp_bind; [by apply sorted_set_ok, array_consts_ok|].
  intros set Hset. destruct k; try by apply wlp_ret.
  - apply wlp_ret. intros p [= <-]. apply Forall_fmap. eapply Forall_impl; [exact Hset|]. intros d. apply CRange_cmp_ends.
  - eapply wlp_bind; [by apply not_in_ends; [|apply end_none]|]. intros rs Hrs. apply wlp_ret. by intros p [= <-].
Qed.

Lemma complement_of_ends o : ends_of_opt o -> wlp (complement_of ctx o) ends_of_opt.
Proof.
  intros Ho. destruct o as [p|]; [|by apply wlp_ret]. intros q Hq. cbn in Hq.
  pose proof (PciComplement_ends (flags ctx) p (Ho p eq_refl)) as Hc.
  destruct (PciComplement (flags ctx) p) as [u|]; [|done]. injection Hq as <-. intros x [= <-]. by apply Hc.
Qed.

Lemma null_test_ends e c : wlp (PciIntervalFromScalarNullAndUnknownTest e c) ends_of_opt.
Proof. destruct e; try by apply wlp_ret. apply wlp_any. intros _. apply wlp_ret. intros p [= <-]. constructor. Qed.

Lemma BoolAnd_ends derive es :
  (forall e, e ∈ es -> wlp (derive e) ends_of_opt) -> wlp (PciIntervalFromScalarBoolAnd derive es) ends_of_opt.
Proof.
  intros Hes. destruct es as [|e es]; [by intros ? ?|]. cbn [PciIntervalFromScalarBoolAnd].
  eapply wlp_bind; [apply Hes; set_solver|]. assert (forall e, e ∈ es -> wlp (derive e) ends_of_opt) as Hes' by set_solver.
  clear Hes. induction es as [|e' es IH]; intros o Ho; cbn [BoolAnd_loop]; [by apply wlp_ret|].
  eapply wlp_bind; [apply Hes'; set_solver|]. intros o' Ho'.
  eapply wlp_bind with (Ψ := ends_of_opt); [|intros o'' Ho''; apply IH; [set_solver|done]].
  destruct o' as [c|]; [|by apply wlp_ret]. destruct o as [p|]; [|by apply wlp_ret].
  intros x Hx. pose proof (PciIntersect_ends p c (Ho p eq_refl) (Ho' c eq_refl)) as Hi.
  destruct (PciIntersect p c) as [u|]; [|done]. injection Hx as <-. intros y [= <-]. by apply Hi.
Qed.

Lemma union_pairs_ends n : forall l, length l <= n -> Forall ends_of l -> wlp (union_pairs l) (Forall ends_of).
Proof.
  induction n as [|n IH]; intros [|p [|q l]] Hn Hl; try by apply wlp_ret; cbn in Hn; [cbn in Hn; lia..|].
  - by cbn in Hn; lia.
  - cbn [union_pairs]. rewrite !Forall_cons in Hl. destruct Hl as (Hp & Hq & Hl).
    eapply wlp_bind; [by apply PciUnion_ends|]. intros u Hu. eapply wlp_bind; [apply IH; [cbn in Hn; lia|done]|].
    intros rest Hr. apply wlp_ret. by constructor.
Qed.

Lemma union_rounds_ends n : forall l, Forall ends_of l -> wlp (union_rounds n l) (Forall ends_of).
Proof.
  induction n as [|n IH]; intros l Hl; cbn [union_rounds]; (destruct (1 <? length l); [|by apply wlp_ret]); [by intros ? ?|].
  eapply wlp_bind; [by eapply union_pairs_ends|]. intros l' Hl'. by apply IH.
Qed.

Lemma BoolOr_ends derive es :
  (forall e, e ∈ es -> wlp (derive e) ends_of_opt) -> wlp (PciIntervalFromScalarBoolOr derive es) ends_of_opt.
Proof.
  intros Hes. unfold PciIntervalFromScalarBoolOr. apply wlp_any. intros _.
  assert (forall acc, Forall ends_of acc ->
    wlp (BoolOr_children derive es acc) (fun o => forall l, o = Some l -> Forall ends_of l)) as Hch.
  { induction es as [|e es IH]; intros acc Hacc; cbn [BoolOr_children]; [apply wlp_ret; by intros l [= <-]|].
    eapply wlp_bind; [apply Hes; set_solver|]. intros [c|] Hc; [|by apply wlp_ret].
    apply IH; [set_solver|]. apply Forall_app. split; [done|]. constructor; [by apply Hc|constructor]. }
  eapply wlp_bind; [apply Hch; constructor|]. intros [l|] Hl; [|by apply wlp_ret].
  eapply wlp_bind; [by apply union_rounds_ends, Hl|]. intros [|p [|]] Hp; try by intros ? ?.
  apply wlp_ret. intros q [= <-]. by apply Forall_cons in Hp as [? _].
Qed.

Lemma derive_ends c e : constants_ok e -> forall infer am, wlp (PciIntervalFromScalarExpr ctx e c infer am) ends_of_opt.
Proof.
  unfold constants_ok. induction e as [i|d|b e IH|k l r IHl IHr|l r IHl IHr|o es IHes|e IH|t e IH|ds es IHes|e IH|t k l a IHl IHa|o es IHes]
    using CExpression_induction; intros He infer am; cbn [PciIntervalFromScalarExpr]; apply wlp_any; intros _; try by apply wlp_ret.
  - unfold PciIntervalFromScalarIdent. apply wlp_any. intros _. apply wlp_ret. intros p [= <-].
    repeat constructor; apply end_some, Hbool.
  - destruct (FScalarConstTrue _); [apply PciUnbounded_ends|]. apply wlp_ret. intros p [= <-]. constructor.
  - unfold PciIntervalFromScalarCmp. destruct (FCompareIdentToConst _); [|by apply wlp_ret]. destruct (_ && _); [by apply wlp_ret|].
    do 2 (apply wlp_any; intros ?). cbn in He. apply Forall_app in He as [_ Hr].
    destruct (const_of r) as [d|] eqn:Ed; [|by intros ? ?]. apply wlp_ret. unfold PciIntervalFromColConstCmp.
    destruct (PciRangeFromColConstCmp k d) as [rs|] eqn:Ers; [|done]. intros p [= <-]. eapply RangeFromCmp_ends; [|done].
    by apply (const_of_ok r).
  - unfold PciIntervalFromScalarIDF. destruct l; try by apply wlp_ret. destruct r as [|d| | | | | | | | | |]; try by apply wlp_ret.
    apply wlp_any. intros _. destruct (IsNull d) eqn:En.
    + intros x Hx. pose proof (PciComplement_ends (flags ctx) (mkCI c [] true) ltac:(constructor)) as Hc.
      destruct (PciComplement _ _) as [u|]; [|done]. injection Hx as <-. intros y [= <-]. by apply Hc.
    + apply wlp_ret. destruct (PciRangeFromColConstCmp EcmptIDF d) as [rs|] eqn:Ers; [|done]. intros p [= <-].
      eapply RangeFromCmp_ends; [|done]. rewrite Forall_forall in He. apply He. cbn [constants]. apply list_elem_of_filter. set_solver.
  - assert (forall e, e ∈ es -> Forall P (constants e)) as Hc.
    { intros e Hin. apply Forall_forall. intros d Hd. rewrite Forall_forall in He. apply He. cbn.
      apply elem_of_concat_map. by exists e. }
    rewrite Forall_forall in IHes. destruct o.
    + apply BoolAnd_ends. intros e Hin. by apply IHes; [|apply Hc].
    + apply BoolOr_ends. intros e Hin. by apply IHes; [|apply Hc].
    + destruct es as [|e es]; [by intros ? ?|]. eapply wlp_bind; [apply IHes; [set_solver|apply Hc; set_solver]|].
      intros x Hx. by apply complement_of_ends.
  - apply null_test_ends.
  - specialize (IH He). destruct t; try apply IH; try apply null_test_ends.
    + eapply wlp_bind; [apply IH|]. intros x Hx. by apply complement_of_ends.
    + eapply wlp_bind; [apply IH|]. intros x Hx. by apply complement_of_ends.
    + eapply wlp_bind; [apply null_test_ends|]. intros x Hx. by apply complement_of_ends.
  - destruct (EopttraceArrayConstraints _); [|by apply wlp_ret]. by apply ArrayCmp_ends.
Qed.

(** ** The predicate of an interval *)

Lemma bool_const_constants b : constants_ok (PexprScalarConstBool b).
Proof. unfold constants_ok. cbn. constructor; [apply Hbool|constructor]. Qed.

Lemma bool_op_constants o es : Forall constants_ok es -> constants_ok (CScalarBoolOp o es).
Proof.
  intros Hes. apply Forall_forall. cbn. intros d (e & He & Hd)%elem_of_concat_map. rewrite Forall_forall in Hes.
  specialize (Hes e He). unfold constants_ok in Hes. rewrite Forall_forall in Hes. by apply Hes.
Qed.

Lemma ConjDisj_constants es f : Forall constants_ok es -> constants_ok (PexprConjDisj es f).
Proof.
  intros Hes. unfold PexprConjDisj.
  assert (forall final l, Forall constants_ok final -> conj_disj_loop es f final = Some l -> Forall constants_ok l) as Hl.
  { induction Hes as [|e es He _ IH]; intros final l Hf; cbn [conj_disj_loop]; [by intros [= <-]|].
    destruct (FSkippable e f); [by apply IH|]. destruct (FReducible e f); [done|]. apply IH. apply Forall_app. by repeat constructor. }
  destruct (conj_disj_loop es f []) as [l|] eqn:El; [|apply bool_const_constants].
  specialize (Hl [] l ltac:(constructor) El). destruct l as [|e1 [|e2 l]]; [apply bool_const_constants| |].
  - by apply Forall_cons in Hl as [? _].
  - by apply bool_op_constants.
Qed.

Lemma disjuncts_constants e : constants_ok e -> Forall constants_ok (PdrgpexprDisjuncts e).
Proof.
  induction e as [i|d|b e IH|k l r IHl IHr|l r IHl IHr|o es IHes|e IH|t e IH|ds es IHes|e IH|t k l a IHl IHa|o es IHes]
    using CExpression_induction; intros He; try (constructor; [exact He|constructor]).
  destruct o; try (constructor; [exact He|constructor]). cbn. apply Forall_forall.
  intros x (e & Hin & Hx)%elem_of_concat_map. rewrite Forall_forall in IHes. specialize (IHes e Hin).
  assert (constants_ok e) as Hc.
  { apply Forall_forall. intros d Hd. unfold constants_ok in He. rewrite Forall_forall in He. apply He. cbn.
    apply elem_of_concat_map. by exists e. }
  specialize (IHes Hc). rewrite Forall_forall in IHes. by apply IHes.
Qed.

Lemma cmp_constants c d k : P d -> constants_ok (PexprScalarCmp c d k).
Proof. intros Hd. unfold constants_ok. cbn. by repeat constructor. Qed.

Lemma range_constants r c : ends r -> constants_ok (range_PexprScalar r c).
Proof.
  intros [Hl Hr]. unfold range_PexprScalar. destruct (PexprEquality r c) as [e|] eqn:E.
  - unfold PexprEquality in E. destruct (m_pdatumLeft r) as [l|]; [|done]. destruct (m_pdatumRight r) as [u|]; [|done].
    destruct (_ || _ || _); [done|]. injection E as <-. by apply cmp_constants, Hl.
  - apply ConjDisj_constants. unfold PexprScalarCompEnd. apply Forall_app. split.
    + destruct (m_pdatumLeft r) as [l|]; repeat constructor. by apply Hl.
    + destruct (m_pdatumRight r) as [u|]; repeat constructor. by apply Hr.
Qed.

Lemma is_null_constants c : constants_ok (PexprIsNull c).
Proof. constructor. Qed.

Lemma disjunction_constants p : ends_of p -> constants_ok (PexprConstructDisjunctionScalar p).
Proof.
  intros Hp. unfold PexprConstructDisjunctionScalar. destruct (_ && _).
  - destruct (m_fIncludesNull p); [apply bool_const_constants|]. constructor.
  - apply ConjDisj_constants, Forall_app. split.
    + apply Forall_fmap. eapply Forall_impl; [exact Hp|]. intros r. apply range_constants.
    + destruct (m_fIncludesNull p); repeat constructor.
Qed.

Lemma right_datums_ok n : forall rs, Forall ends rs -> wlp (right_datums n rs) (Forall P).
Proof.
  induction n as [|n IH]; intros [|r rs] Hrs; cbn [right_datums]; try (apply wlp_ret; constructor); [by intros ? ?|].
  apply Forall_cons in Hrs as [[_ Hr] Hrs]. apply deref_end; [done|]. intros d Hd.
  eapply wlp_bind; [by apply IH|]. intros ds Hds. apply wlp_ret. by constructor.
Qed.

Lemma array_constants p fIn :
  ends_of p -> wlp (PexprConstructArrayScalar_in p fIn) (fun o => forall e, o = Some e -> constants_ok e).
Proof.
  intros Hp. unfold PexprConstructArrayScalar_in. cbn zeta. eapply wlp_bind; [by apply right_datums_ok|]. intros ds Hds.
  eapply wlp_bind with (Ψ := fun o => forall e, o = Some e -> constants_ok e).
  - unfold PexprScalarArrayCmp. apply wlp_any. intros _. destruct (_ || _); [by apply wlp_ret|].
    destruct ds as [|d [|d2 ds]]; apply wlp_ret; intros e [= <-].
    + constructor.
    + apply Forall_cons in Hds as [? _]. by apply cmp_constants.
    + apply Forall_forall. cbn [constants app]. intros x (y & Hy & Hx)%elem_of_concat_map.
      change (y ∈ CScalarConst <$> d :: d2 :: ds) in Hy. apply list_elem_of_fmap in Hy as (z & -> & Hz). apply list_elem_of_singleton in Hx as ->.
      rewrite Forall_forall in Hds. by apply Hds.
  - intros o Ho. destruct (m_fIncludesNull p); [|by apply wlp_ret]. apply wlp_any. intros _.
    destruct o as [e|]; [|by intros ? ?]. apply wlp_ret. intros x [= <-]. unfold PexprConjDisj2.
    apply ConjDisj_constants, Forall_app. split; [by apply disjuncts_constants, Ho|]. repeat constructor.
Qed.

Lemma construct_constants p : ends_of p -> wlp (PexprConstructScalar ctx p) constants_ok.
Proof.
  intros Hp. unfold PexprConstructScalar. destruct (FContradiction p); [apply wlp_ret, bool_const_constants|].
  eapply wlp_bind with (Ψ := fun o => forall e, o = Some e -> constants_ok e).
  - destruct (EopttraceArrayConstraints _); [|by apply wlp_ret]. unfold PexprConstructArrayScalar.
    destruct (bool_decide _); [by apply wlp_ret|]. apply wlp_any. intros []; [by apply array_constants|].
    destruct (FConvertsToNotIn p); [by apply array_constants|by apply wlp_ret].
  - intros [e|] He; apply wlp_ret; [by apply He|by apply disjunction_constants].
Qed.
End Derive.
End Ends.

(** Typed intervals are those whose ends are values of the column. *)
Definition value_of {D} `{IDatum D} (c : CColRef) (d : D) : Prop := col_value c (Some d).

Lemma value_of_bool {D} `{DatumLaws D} c (b : bool) : value_of c (CreateBoolDatum b).
Proof. split; [apply bool_not_null|]. intros _. by exists b. Qed.

Lemma typed_ends {D} `{IDatum D} (p : CConstraintInterval D) : typed p <-> ends_of (value_of (m_pcr p)) p.
Proof. unfold typed, ends_of. rewrite Forall_forall. done. Qed.
End IntervalEnds.
