(* ===== verification/Constraint.v ===== *)
(** * Constraint trees

    Sources: [CConstraint], [CConstraintConjunction], [CConstraintDisjunction],
    [CConstraintNegation], the parts of [CConstraintInterval] that implement the
    interface, and [CColConstraintsArrayMapper] and [CColConstraintsHashMapper]
    (libgpopt/src/base). A constraint is a tree over intervals.

    A constraint object does not change once it is built. Its map from columns to
    children is therefore computed where it is looked up ([PhmFind]), and the cached
    predicate and the cache of containment queries are left out. Columns are made by
    the column factory; a column set is the set of the ids of its columns. The
    expressions modelled have no subqueries, for which [PcnstrFromScalarExpr] has a
    function of its own that needs the properties of relational expressions. *)
From stdpp Require Import base numbers list gmap sets sorting.
From S2P Require Import Prelude Range ConstraintInterval ScalarExpr ScalarInterval EquivClasses.

Module Constraint.
Import Range ConstraintInterval ScalarExpr ScalarInterval EquivClasses.
Open Scope nat_scope.

Inductive EConstraintType := EctInterval | EctConjunction | EctDisjunction | EctNegation.

#[export] Instance EConstraintType_eq_dec : EqDecision EConstraintType.
Proof. solve_decision. Defined.

(** The classes, with their fields *)
#[warnings="-register-all"]
Inductive CConstraint (D : Type) :=
  | Interval (pci : CConstraintInterval D)
  | Conjunction (pcrsUsed : gset N) (pdrgpcnstr : list (CConstraint D))
  | Disjunction (pcrsUsed : gset N) (pdrgpcnstr : list (CConstraint D))
  | Negation (pcnstr : CConstraint D).
Arguments Interval {D} _.
Arguments Conjunction {D} _ _.
Arguments Disjunction {D} _ _.
Arguments Negation {D} _.

(** What the code asks of its context besides the metadata of [Ctxt]: the column
    factory; the hint [UlArrayExpansionThreshold]; whether a column is a nullable
    column of a table ([EcrtTable] and [IsNullable]) and whether it is the system
    column gp_segment_id; [FOpInOpfamily(mdid, pexpr, EmdindHash)]. *)
Record CnCtxt (D : Type) := mkCnCtxt {
  cn_ctxt : Ctxt D;
  LookupColRef : N -> CColRef;
  UlArrayExpansionThreshold : nat;
  IsNullableTableCol : N -> bool;
  IsSegmentIdCol : N -> bool;
  FTypeOpInOpfamily : IMDType -> CExpression D -> bool;
}.
Arguments cn_ctxt {D} _.
Arguments LookupColRef {D} _ _.
Arguments UlArrayExpansionThreshold {D} _.
Arguments IsNullableTableCol {D} _ _.
Arguments IsSegmentIdCol {D} _ _.
Arguments FTypeOpInOpfamily {D} _ _ _.

(** [CColRefSet::PcrFirst] *)
Definition PcrFirst (pcrs : gset N) : outcome N := deref (head (bits pcrs)).

Section Model.
Context {D : Type} `{IComparator D} `{IDatum D} (cx : CnCtxt D).
Implicit Types (pcnstr : CConstraint D) (pdrgpcnstr : list (CConstraint D)).

Abbreviation tflags := (flags (cn_ctxt cx)).

(** ** Accessors *)

Definition Ect pcnstr : EConstraintType :=
  match pcnstr with
  | Interval _ => EctInterval
  | Conjunction _ _ => EctConjunction
  | Disjunction _ _ => EctDisjunction
  | Negation _ => EctNegation
  end.

Fixpoint PcrsUsed pcnstr : gset N :=
  match pcnstr with
  | Interval pci => {[m_id (m_pcr pci)]}
  | Conjunction pcrsUsed _ | Disjunction pcrsUsed _ => pcrsUsed
  | Negation c => PcrsUsed c
  end.

(** [FContradiction] and [IsConstraintUnbounded] of the classes *)
Fixpoint CnContradiction pcnstr : bool :=
  match pcnstr with
  | Interval pci => FContradiction pci
  | Conjunction _ l => existsb CnContradiction l
  | Disjunction _ l => forallb CnContradiction l
  | Negation c => CnUnbounded c
  end
with CnUnbounded pcnstr : bool :=
  match pcnstr with
  | Interval pci => IsConstraintUnbounded pci
  | Conjunction _ _ | Disjunction _ _ => false
  | Negation c => CnContradiction c
  end.

(** ** Predicates *)

(** [CUtils::PexprNegate] *)
Definition PexprNegate (pexpr : CExpression D) : CExpression D := CScalarBoolOp EboolopNot [pexpr].

(** [CConstraint::PexprScalarConjDisj], given the predicates of the children *)
Definition PexprScalarConjDisj (scalar : CConstraint D -> outcome (CExpression D)) pdrgpcnstr (fConj : bool) :
    outcome (CExpression D) :=
  pdrgpexpr ← mapM scalar pdrgpcnstr;
  mret (if fConj then PexprConjunction pdrgpexpr else PexprDisjunction pdrgpexpr).

(** [PexprScalar] of the classes *)
Fixpoint PexprScalar pcnstr : outcome (CExpression D) :=
  match pcnstr with
  | Interval pci => PexprConstructScalar (cn_ctxt cx) pci
  | Conjunction _ l =>
      if existsb CnContradiction l then mret (PexprScalarConstBool false)
      else PexprScalarConjDisj PexprScalar l true
  | Disjunction _ l =>
      if forallb CnContradiction l then mret (PexprScalarConstBool false)
      else PexprScalarConjDisj PexprScalar l false
  | Negation (Negation c) => PexprScalar c
  | Negation (Interval pci) => (pciComp ← PciComplement tflags pci; PexprConstructScalar (cn_ctxt cx) pciComp)
  | Negation c => (pexpr ← PexprScalar c; mret (PexprNegate pexpr))
  end.

(** ** Construction *)

(** [CConstraint::PcrsFromConstraints] *)
Definition PcrsFromConstraints pdrgpcnstr : outcome (gset N) :=
  _ ← GPOS_ASSERT (0 <? length pdrgpcnstr);
  mret (⋃ (PcrsUsed <$> pdrgpcnstr)).

(** [CConstraint::PdrgpcnstrOnColumn] *)
Definition PdrgpcnstrOnColumn pdrgpcnstr (colref : N) (fExclusive : bool) : list (CConstraint D) :=
  filter (fun c => colref ∈ PcrsUsed c /\ (fExclusive = false \/ size (PcrsUsed c) = 1)) pdrgpcnstr.

(** The map that [CColConstraintsHashMapper] makes *)
Definition PhmcolconstrSingleColConstr pdrgpcnstr : outcome (gmap N (list (CConstraint D))) :=
  for_each pdrgpcnstr (fun pcnstrChild phmcolconstr =>
    let pcrs := PcrsUsed pcnstrChild in
    if size pcrs =? 1 then
      (colref ← PcrFirst pcrs;
       mret (<[colref := default [] (phmcolconstr !! colref) ++ [pcnstrChild]]> phmcolconstr))
    else mret phmcolconstr) ∅.

(** [IColConstraintsMapper::PdrgPcnstrLookup] of the mapper of an array: the hash
    mapper for five or more constraints, else the array mapper *)
Definition PdrgPcnstrLookup pdrgpcnstr (colref : N) : outcome (list (CConstraint D)) :=
  if 5 <=? length pdrgpcnstr then
    (phm ← PhmcolconstrSingleColConstr pdrgpcnstr;
     deref (phm !! colref))
  else mret (PdrgpcnstrOnColumn pdrgpcnstr colref true).

(** The body of the loop of [PdrgpcnstrDeduplicate] *)
Definition dedup_child pdrgpcnstr (ect : EConstraintType) (pcnstrChild : CConstraint D)
    (acc : list (CConstraint D) * gset N) : outcome (list (CConstraint D) * gset N) :=
  let '(pdrgpcnstrNew, pcrsDeduped) := acc in
  let pcrs := PcrsUsed pcnstrChild in
  _ ← GPOS_ASSERT (negb (size pcrs =? 0));
  if negb (size pcrs =? 1) then mret (pdrgpcnstrNew ++ [pcnstrChild], pcrsDeduped) else
  colref ← PcrFirst pcrs;
  if bool_decide (colref ∈ pcrsDeduped) then mret (pdrgpcnstrNew, pcrsDeduped) else
  pdrgpcnstrCol ← PdrgPcnstrLookup pdrgpcnstr colref;
  if length pdrgpcnstrCol =? 1 then mret (pdrgpcnstrNew ++ [pcnstrChild], pcrsDeduped) else
  pexpr ← (if bool_decide (ect = EctConjunction) then PexprScalarConjDisj PexprScalar pdrgpcnstrCol true
           else (_ ← GPOS_ASSERT (bool_decide (ect = EctDisjunction));
                 PexprScalarConjDisj PexprScalar pdrgpcnstrCol false));
  pcnstrNew ← PciIntervalFromScalarExpr (cn_ctxt cx) pexpr (LookupColRef cx colref) false EmdindSentinel;
  let pcnstrNew := match pcnstrNew with Some pci => Interval pci | None => pcnstrChild end in
  mret (pdrgpcnstrNew ++ [pcnstrNew], pcrsDeduped ∪ {[colref]}).

(** [CConstraint::PdrgpcnstrDeduplicate] *)
Definition PdrgpcnstrDeduplicate pdrgpcnstr (ect : EConstraintType) : outcome (list (CConstraint D)) :=
  '(pdrgpcnstrNew, _) ← for_each pdrgpcnstr (dedup_child pdrgpcnstr ect) ([], ∅);
  mret pdrgpcnstrNew.

(** [CConstraint::PdrgpcnstrFlatten] *)
Definition PdrgpcnstrFlatten pdrgpcnstr (ect : EConstraintType) : outcome (list (CConstraint D)) :=
  let pdrgpcnstrNew := concat (map (fun pcnstrChild =>
    match pcnstrChild, ect with
    | Conjunction _ l, EctConjunction => l
    | Disjunction _ l, EctDisjunction => l
    | _, _ => [pcnstrChild]
    end) pdrgpcnstr) in
  PdrgpcnstrDeduplicate pdrgpcnstrNew ect.

(** The constructors *)
Definition CConstraintConjunction_ctor pdrgpcnstr : outcome (CConstraint D) :=
  pcrsUsed ← PcrsFromConstraints pdrgpcnstr;
  l ← PdrgpcnstrFlatten pdrgpcnstr EctConjunction;
  mret (Conjunction pcrsUsed l).

Definition CConstraintDisjunction_ctor pdrgpcnstr : outcome (CConstraint D) :=
  pcrsUsed ← PcrsFromConstraints pdrgpcnstr;
  l ← PdrgpcnstrFlatten pdrgpcnstr EctDisjunction;
  mret (Disjunction pcrsUsed l).

(** The constructor of a negation reads the columns of its argument. *)
Definition CConstraintNegation_ctor (pcnstr : option (CConstraint D)) : outcome (CConstraint D) :=
  c ← deref pcnstr;
  mret (Negation c).

(** [CConstraint::PcnstrConjDisj], [PcnstrConjunction], [PcnstrDisjunction]; [None]
    is the null result *)
Definition PcnstrConjDisj pdrgpcnstr (fConj : bool) : outcome (option (CConstraint D)) :=
  match pdrgpcnstr with
  | [] => mret None
  | [pcnstr] => mret (Some pcnstr)
  | _ => Some <$> (if fConj then CConstraintConjunction_ctor pdrgpcnstr else CConstraintDisjunction_ctor pdrgpcnstr)
  end.

(** ** The part on a column *)

(** [m_phmcolconstr->Find] on the map that [Phmcolconstr] makes *)
Definition PhmFind (pcrsUsed : gset N) pdrgpcnstr (colref : N) : option (list (CConstraint D)) :=
  if bool_decide (colref ∈ pcrsUsed) then Some (PdrgpcnstrOnColumn pdrgpcnstr colref false) else None.

(** [FConstraint] of the classes *)
Fixpoint FConstraint pcnstr (colref : N) : bool :=
  match pcnstr with
  | Interval pci => bool_decide (m_id (m_pcr pci) = colref)
  | Conjunction u l => match PhmFind u l colref with Some cs => 0 <? length cs | None => false end
  | Disjunction u l => match PhmFind u l colref with Some cs => length l =? length cs | None => false end
  | Negation c => FConstraint c colref
  end.

(** The loop of [CConstraintConjunction::Pcnstr] over the children on the column *)
Definition conj_parts (part : CConstraint D -> outcome (option (CConstraint D))) (colref : N) :
    list (CConstraint D) -> outcome (list (CConstraint D)) :=
  fix go l :=
    match l with
    | [] => mret []
    | c :: l' =>
        if bool_decide (colref ∈ PcrsUsed c) then
          (pcnstrCol ← part c;
           rest ← go l';
           mret (match pcnstrCol with
                 | Some x => if CnUnbounded x then rest else x :: rest
                 | None => rest
                 end))
        else go l'
    end.

(** The loop of [CConstraintDisjunction::Pcnstr], when all children have the
    column: an unbounded part ends it. *)
Definition disj_parts (part : CConstraint D -> outcome (option (CConstraint D))) (colref : CColRef) :
    list (CConstraint D) -> list (CConstraint D) -> outcome (CConstraint D + list (CConstraint D)) :=
  fix go l acc :=
    match l with
    | [] => mret (inr acc)
    | c :: l' =>
        pcnstrCol ← part c;
        x ← match pcnstrCol with
            | Some x => mret x
            | None => (pci ← PciUnbounded tflags colref true; Interval <$> deref pci)
            end;
        if CnUnbounded x then mret (inl x) else go l' (acc ++ [x])
    end.

(** [Pcnstr(mp, colref)] of the classes *)
Fixpoint Pcnstr pcnstr (colref : CColRef) : outcome (option (CConstraint D)) :=
  match pcnstr with
  | Interval pci => mret (if same_col (m_pcr pci) colref then Some pcnstr else None)
  | Conjunction u l =>
      match PhmFind u l (m_id colref) with
      | None => mret None
      | Some _ =>
          parts ← conj_parts (fun c => Pcnstr c colref) (m_id colref) l;
          PcnstrConjDisj parts true
      end
  | Disjunction u l =>
      match PhmFind u l (m_id colref) with
      | None => mret None
      | Some cs =>
          if negb (length cs =? length l) then
            (pci ← PciUnbounded tflags colref true; mret (option_map Interval pci))
          else
            parts ← disj_parts (fun c => Pcnstr c colref) colref l [];
            match parts with
            | inl x => mret (Some x)
            | inr parts => PcnstrConjDisj parts false
            end
      end
  | Negation c =>
      if negb (bool_decide (m_id colref ∈ PcrsUsed c)) || negb (size (PcrsUsed c) =? 1) then mret None
      else (part ← Pcnstr c colref; Some <$> CConstraintNegation_ctor part)
  end.

(** ** The part on a set of columns *)

Definition conj_set_parts (part : CConstraint D -> outcome (option (CConstraint D))) (pcrs : gset N) :
    list (CConstraint D) -> outcome (list (CConstraint D)) :=
  fix go l :=
    match l with
    | [] => mret []
    | c :: l' =>
        if bool_decide (PcrsUsed c ## pcrs) then go l'
        else (pcnstrCol ← part c;
              rest ← go l';
              mret (match pcnstrCol with Some x => x :: rest | None => rest end))
    end.

(** [CConstraintInterval::PciUnbounded(mp, pcrs, true)] *)
Definition unbounded_on (pcrs : gset N) : outcome (option (CConstraint D)) :=
  pci ← PciUnbounded_set tflags (LookupColRef cx <$> bits pcrs) true;
  mret (option_map Interval pci).

Definition disj_set_parts (part : CConstraint D -> outcome (option (CConstraint D))) (pcrs : gset N) :
    list (CConstraint D) -> list (CConstraint D) -> outcome (option (CConstraint D) + list (CConstraint D)) :=
  fix go l acc :=
    match l with
    | [] => mret (inr acc)
    | c :: l' =>
        if bool_decide (PcrsUsed c ## pcrs) then (x ← unbounded_on pcrs; mret (inl x)) else
        pcnstrCol ← part c;
        pcnstrCol ← match pcnstrCol with Some x => mret (Some x) | None => unbounded_on pcrs end;
        _ ← GPOS_ASSERT (bool_decide (is_Some pcnstrCol));
        x ← deref pcnstrCol;
        go l' (acc ++ [x])
    end.

(** [Pcnstr(mp, pcrs)] of the classes *)
Fixpoint PcnstrSet pcnstr (pcrs : gset N) : outcome (option (CConstraint D)) :=
  match pcnstr with
  | Interval pci => mret (if bool_decide (m_id (m_pcr pci) ∈ pcrs) then Some pcnstr else None)
  | Conjunction _ l =>
      parts ← conj_set_parts (fun c => PcnstrSet c pcrs) pcrs l;
      PcnstrConjDisj parts true
  | Disjunction _ l =>
      parts ← disj_set_parts (fun c => PcnstrSet c pcrs) pcrs l [];
      match parts with
      | inl x => mret x
      | inr parts => PcnstrConjDisj parts false
      end
  | Negation c =>
      if negb (bool_decide (PcrsUsed c = pcrs)) then mret None
      else (part ← PcnstrSet c pcrs; Some <$> CConstraintNegation_ctor part)
  end.

(** ** Other columns *)

(** [PcnstrRemapForColumn] of the classes, with [PcnstrConjDisjRemapForColumn] *)
Fixpoint CnRemapForColumn pcnstr (colref : CColRef) : outcome (option (CConstraint D)) :=
  let remapped l :=
    mapM (fun c => (x ← CnRemapForColumn c colref;
                    _ ← GPOS_ASSERT (bool_decide (is_Some x));
                    deref x)) l in
  match pcnstr with
  | Interval pci => mret (Some (Interval (PcnstrRemapForColumn pci colref)))
  | Conjunction _ l => (l' ← remapped l; PcnstrConjDisj l' true)
  | Disjunction _ l => (l' ← remapped l; PcnstrConjDisj l' false)
  | Negation c =>
      _ ← GPOS_ASSERT (size (PcrsUsed c) =? 1);
      x ← CnRemapForColumn c colref;
      Some <$> CConstraintNegation_ctor x
  end.

(** [CUtils::PcrRemap] *)
Definition PcrRemap (colref : CColRef) (colref_mapping : gmap N CColRef) (must_exist : bool) : outcome CColRef :=
  match colref_mapping !! m_id colref with
  | Some pcrMapped => (_ ← GPOS_ASSERT (negb (same_col colref pcrMapped)); mret pcrMapped)
  | None => (_ ← GPOS_ASSERT (negb must_exist); mret colref)
  end.

(** [PcnstrCopyWithRemappedColumns] of the classes *)
Fixpoint PcnstrCopyWithRemappedColumns pcnstr (colref_mapping : gmap N CColRef) (must_exist : bool) :
    outcome (CConstraint D) :=
  let copies l := mapM (fun c => PcnstrCopyWithRemappedColumns c colref_mapping must_exist) l in
  match pcnstr with
  | Interval pci =>
      colref ← PcrRemap (m_pcr pci) colref_mapping must_exist;
      mret (Interval (PcnstrRemapForColumn pci colref))
  | Conjunction _ l => (l' ← copies l; CConstraintConjunction_ctor l')
  | Disjunction _ l => (l' ← copies l; CConstraintDisjunction_ctor l')
  | Negation c =>
      x ← PcnstrCopyWithRemappedColumns c colref_mapping must_exist;
      CConstraintNegation_ctor (Some x)
  end.

(** [FConstraintOnSegmentId] and [GetConstraintOnSegmentId] of the classes *)
Definition FConstraintOnSegmentId pcnstr : bool :=
  match pcnstr with Interval pci => IsSegmentIdCol cx (m_id (m_pcr pci)) | _ => false end.

Definition GetConstraintOnSegmentId pcnstr : option (CConstraint D) :=
  match pcnstr with
  | Interval _ => if FConstraintOnSegmentId pcnstr then Some pcnstr else None
  | Conjunction _ l => List.find FConstraintOnSegmentId l
  | _ => None
  end.

(** ** Containment *)

(** [CConstraintInterval::PciIntervalFromConstraint] *)
Definition PciIntervalFromConstraint (pcnstr : option (CConstraint D)) (colref : CColRef) :
    outcome (option (CConstraintInterval D)) :=
  match pcnstr with
  | None => PciUnbounded tflags colref true
  | Some (Interval pci) => mret (Some pci)
  | Some c =>
      _ ← GPOS_ASSERT (size (PcrsUsed c) =? 1);
      pcrFirst ← PcrFirst (PcrsUsed c);
      _ ← GPOS_ASSERT (bool_decide (pcrFirst = m_id colref));
      pexprScalar ← PexprScalar c;
      PciIntervalFromScalarExpr (cn_ctxt cx) pexprScalar (LookupColRef cx pcrFirst) false EmdindSentinel
  end.

(** A column in the loop of [Contains] *)
Definition contains_on pcnstr (other : CConstraint D) (id : N) : outcome bool :=
  let colref := LookupColRef cx id in
  pcnstrColThis ← Pcnstr pcnstr colref;
  _ ← GPOS_ASSERT (bool_decide (is_Some pcnstrColThis));
  pcnstrColOther ← Pcnstr other colref;
  pciThis ← PciIntervalFromConstraint pcnstrColThis colref;
  pciOther ← PciIntervalFromConstraint pcnstrColOther colref;
  pciThis ← deref pciThis;
  pciOther ← deref pciOther;
  FContainsInterval pciThis pciOther.

Fixpoint contains_loop pcnstr (other : CConstraint D) (l : list N) : outcome bool :=
  match l with
  | [] => mret true
  | id :: l' => (b ← contains_on pcnstr other id; if (b : bool) then contains_loop pcnstr other l' else mret false)
  end.

(** [CConstraint::Contains] on a constraint that is another object *)
Definition Contains pcnstr (other : option (CConstraint D)) : outcome bool :=
  if CnUnbounded pcnstr then mret true else
  match other with
  | None => mret false
  | Some o => if CnUnbounded o then mret false else contains_loop pcnstr o (bits (PcrsUsed pcnstr))
  end.

(** [CConstraint::Equals] on a constraint that is another object *)
Definition CnEquals pcnstr (other : option (CConstraint D)) : outcome bool :=
  match other with
  | None => mret (CnUnbounded pcnstr)
  | Some o =>
      if CnUnbounded o then mret (CnUnbounded pcnstr) else
      b ← Contains pcnstr (Some o);
      if (b : bool) then Contains o (Some pcnstr) else mret false
  end.

(** ** Constraints of a predicate *)

(** A constraint and the equivalence classes found with it; both may be null. *)
Abbreviation derived := (option (CConstraint D) * option CColRefSetArray)%type.

(** [CConstraint::PcnstrFromScalarArrayCmp] *)
Definition PcnstrFromScalarArrayCmp (pexpr : CExpression D) (colref : CColRef) (infer_nulls_as : bool) :
    outcome (option (CConstraint D)) :=
  match pexpr with
  | CScalarArrayCmp earrccmpt cmp_type l array =>
      if FCompareIdentToConstArray pexpr || FCompareCastIdentToConstArray pexpr then
        popScId ← deref (ident_of l);
        _ ← GPOS_ASSERT (same_col colref popScId);
        match cmp_type with
        | EcmptOther => mret None
        | _ =>
            let consts := array_consts (PexprScalarArrayChild array) in
            if UlArrayExpansionThreshold cx <? length consts then mret None
            else if length consts =? 0 then
              mret (match earrccmpt with
                    | EarrcmpAny => Some (Interval (mkCI colref [] false))
                    | EarrcmpAll => None
                    end)
            else
              cs ← mapM (fun d => Interval <$> deref (PciIntervalFromColConstCmp colref cmp_type d infer_nulls_as)) consts;
              Some <$> match earrccmpt with
                       | EarrcmpAny => CConstraintDisjunction_ctor cs
                       | EarrcmpAll => CConstraintConjunction_ctor cs
                       end
        end
      else mret None
  | _ => Abort FAssert
  end.

(** [CConstraint::PcnstrFromScalarCmp] *)
Definition PcnstrFromScalarCmp (pexpr : CExpression D) (infer_nulls_as : bool) : outcome derived :=
  match pexpr with
  | CScalarCmp _ pexprLeft pexprRight =>
      if (FScalarIdent pexprLeft || FBinaryCoercibleCastedScId pexprLeft) &&
         (FScalarIdent pexprRight || FBinaryCoercibleCastedScId pexprRight) then
        pcrLeft ← deref (ident_of pexprLeft);
        pcrRight ← deref (ident_of pexprRight);
        let left_mdid := RetrieveType pcrLeft in
        let right_mdid := RetrieveType pcrRight in
        if negb (FConstrainableType tflags left_mdid) || negb (FConstrainableType tflags right_mdid)
        then mret (None, None)
        else if EopttraceConsiderOpfamiliesForDistribution tflags &&
                (negb (FTypeOpInOpfamily cx left_mdid pexpr) || negb (FTypeOpInOpfamily cx right_mdid pexpr))
        then mret (None, None)
        else
          let pcrLeftIncludesNull := infer_nulls_as && IsNullableTableCol cx (m_id pcrLeft) in
          let pcrRightIncludesNull := infer_nulls_as && IsNullableTableCol cx (m_id pcrRight) in
          let checkEquality := IsEqualityOp pexpr && negb pcrLeftIncludesNull && negb pcrRightIncludesNull in
          let classes : CColRefSetArray :=
            if checkEquality then [{[m_id pcrLeft]} ∪ {[m_id pcrRight]}] else [] in
          pciLeft ← PciUnbounded tflags pcrLeft pcrLeftIncludesNull;
          pciRight ← PciUnbounded tflags pcrRight pcrRightIncludesNull;
          pciLeft ← deref pciLeft;
          pciRight ← deref pciRight;
          pcnstr ← PcnstrConjDisj [Interval pciLeft; Interval pciRight] true;
          mret (pcnstr, Some classes)
      else mret (None, None)
  | _ => Abort FAssert
  end.

(** [CConstraint::PdrgpcrsMergeFromBoolOp] *)
Definition PdrgpcrsMergeFromBoolOp (eboolop : EBoolOperator) (pdrgpcrsFst pdrgpcrsSnd : CColRefSetArray) :
    outcome CColRefSetArray :=
  match eboolop with
  | EboolopAnd => mret (PdrgpcrsMergeEquivClasses pdrgpcrsFst pdrgpcrsSnd)
  | EboolopOr => PdrgpcrsIntersectEquivClasses pdrgpcrsFst pdrgpcrsSnd
  | EboolopNot => mret []
  end.

(** The loop of [PcnstrFromScalarBoolOp] over the children; [inl] is the early
    return of a null constraint, with the classes found so far. *)
Definition bool_op_loop (derive : CExpression D -> outcome derived) (eboolop : EBoolOperator) :
    list (CExpression D) -> list (CConstraint D) -> CColRefSetArray ->
    outcome (CColRefSetArray + list (CConstraint D) * CColRefSetArray) :=
  fix go es pdrgpcnstr pdrgpcrs :=
    match es with
    | [] => mret (inr (pdrgpcnstr, pdrgpcrs))
    | e :: es' =>
        '(pcnstrChild, pdrgpcrsChild) ← derive e;
        match pcnstrChild with
        | Some c =>
            if CnUnbounded c then
              if bool_decide (eboolop = EboolopOr) then mret (inl pdrgpcrs) else go es' pdrgpcnstr pdrgpcrs
            else
              _ ← GPOS_ASSERT (bool_decide (is_Some pdrgpcrsChild));
              classes ← deref pdrgpcrsChild;
              pdrgpcrsMerged ← PdrgpcrsMergeFromBoolOp eboolop pdrgpcrs classes;
              go es' (pdrgpcnstr ++ [c]) pdrgpcrsMerged
        | None => if bool_decide (eboolop = EboolopOr) then mret (inl pdrgpcrs) else go es' pdrgpcnstr pdrgpcrs
        end
    end.

(** [CConstraint::PcnstrFromScalarBoolOp] *)
Definition PcnstrFromScalarBoolOp (derive : CExpression D -> outcome derived) (eboolop : EBoolOperator)
    (es : list (CExpression D)) : outcome derived :=
  if bool_decide (eboolop = EboolopOr) && (UlArrayExpansionThreshold cx <? length es) then mret (None, None) else
  r ← bool_op_loop derive eboolop es [] [];
  match r with
  | inl pdrgpcrs => mret (None, Some pdrgpcrs)
  | inr ([], pdrgpcrs) => mret (None, Some pdrgpcrs)
  | inr ([pcnstrChild], pdrgpcrs) =>
      mret (Some (match eboolop with EboolopNot => Negation pcnstrChild | _ => pcnstrChild end), Some pdrgpcrs)
  | inr (pdrgpcnstr, pdrgpcrs) =>
      match eboolop with
      | EboolopAnd => (c ← CConstraintConjunction_ctor pdrgpcnstr; mret (Some c, Some pdrgpcrs))
      | EboolopOr => (c ← CConstraintDisjunction_ctor pdrgpcnstr; mret (Some c, Some pdrgpcrs))
      | EboolopNot => mret (None, Some pdrgpcrs)
      end
  end.

(** The constraint of an expression on one column *)
Definition one_column (pexpr : CExpression D) (id : N) (infer_nulls_as : bool) (access_method : EmdindexType) :
    outcome derived :=
  let colref := LookupColRef cx id in
  if negb (FConstrainableType tflags (RetrieveType colref)) then mret (None, None) else
  pci ← PciIntervalFromScalarExpr (cn_ctxt cx) pexpr colref infer_nulls_as access_method;
  pcnstr ← match pci with
           | Some p => mret (Some (Interval p))
           | None =>
               match pexpr with
               | CScalarArrayCmp _ _ _ _ => PcnstrFromScalarArrayCmp pexpr colref infer_nulls_as
               | _ => mret None
               end
           end;
  mret (pcnstr, match pcnstr with Some _ => Some (AddColumnToEquivClasses id []) | None => None end).

(** [CConstraint::PcnstrFromScalarExpr] *)
Fixpoint PcnstrFromScalarExpr (pexpr : CExpression D) (infer_nulls_as : bool) (access_method : EmdindexType) :
    outcome derived :=
  let pcrs : gset N := list_to_set (used_columns pexpr) in
  if size pcrs =? 0 then mret (None, None)
  else if size pcrs =? 1 then (id ← PcrFirst pcrs; one_column pexpr id infer_nulls_as access_method)
  else
    match pexpr with
    | CScalarBoolOp eboolop es =>
        PcnstrFromScalarBoolOp (fun e => PcnstrFromScalarExpr e infer_nulls_as access_method) eboolop es
    | CScalarCmp _ _ _ => PcnstrFromScalarCmp pexpr infer_nulls_as
    | _ => mret (None, None)
    end.
End Model.
End Constraint.
