(* ===== verification/ConstraintSem.v ===== *)
(** * The meaning of a constraint tree

    A row satisfies an interval if the value of its column is in it, and the tree
    by its connectives ([sat]). The constructors keep this meaning, though they
    flatten the tree and combine the constraints on one column by way of their
    predicates; the predicate of a tree is true for the rows that satisfy it. *)
From stdpp Require Import base numbers list gmap sets sorting.
From S2P Require Import Prelude Range ConstraintInterval ScalarExpr ScalarInterval IntervalEnds EquivClasses Constraint.

Module ConstraintSem.
Import Range ConstraintInterval ScalarExpr ScalarInterval IntervalEnds EquivClasses Constraint.
Open Scope nat_scope.
Open Scope outcome_scope.

(** Induction over a tree and the trees of its arrays *)
Section Induction.
Context {D : Type} (P : CConstraint D -> Prop).
Hypothesis HInterval : forall p, P (Interval p).
Hypothesis HConj : forall u l, Forall P l -> P (Conjunction u l).
Hypothesis HDisj : forall u l, Forall P l -> P (Disjunction u l).
Hypothesis HNeg : forall c, P c -> P (Negation c).

Fixpoint CConstraint_induction (c : CConstraint D) : P c :=
  let all := fix all (l : list (CConstraint D)) : Forall P l :=
    match l with
    | [] => Forall_nil_2 P
    | c' :: l' => Forall_cons_2 P c' l' (CConstraint_induction c') (all l')
    end in
  match c with
  | Interval p => HInterval p
  | Conjunction u l => HConj u l (all l)
  | Disjunction u l => HDisj u l (all l)
  | Negation c => HNeg c (CConstraint_induction c)
  end.
End Induction.

Lemma first_column i : PcrFirst {[i]} = Ret i.
Proof.
  unfold PcrFirst. pose proof (bits_NoDup {[i]}) as Hn. pose proof (elem_of_bits {[i]}) as He.
  destruct (bits {[i]}) as [|a l]; [specialize (He i); set_solver|].
  assert (a = i) as -> by (specialize (He a); set_solver). done.
Qed.

Section Sem.
Context {D : Type} `{CL : ComparatorLaws D} `{ID : IDatum D} `{DL : !DatumLaws D}.
Implicit Types (p : CConstraintInterval D) (c : CConstraint D) (l : list (CConstraint D)) (row : N -> option D).

Fixpoint sat row c : bool :=
  match c with
  | Interval p => in_interval p (row (m_id (m_pcr p)))
  | Conjunction _ l => forallb (sat row) l
  | Disjunction _ l => existsb (sat row) l
  | Negation c => negb (sat row c)
  end.

(** A conjunction ([true]) or a disjunction *)
Definition junction (f : bool) (u : gset N) l : CConstraint D := if f then Conjunction u l else Disjunction u l.
Definition every_some {A} (f : bool) (P : A -> bool) (l : list A) : bool := if f then forallb P l else existsb P l.
Definition all_any (f : bool) row l : bool := every_some f (sat row) l.

(** The columns of a list of constraints *)
Definition used_by l : gset N := ⋃ (PcrsUsed <$> l).

Lemma elem_of_used_by l i : i ∈ used_by l <-> exists c, c ∈ l /\ i ∈ PcrsUsed c.
Proof.
  unfold used_by. rewrite elem_of_union_list. split.
  - intros (s & Hs & Hi). apply list_elem_of_fmap in Hs as (c & -> & Hc). by exists c.
  - intros (c & Hc & Hi). exists (PcrsUsed c). split; [|done]. apply list_elem_of_fmap. by exists c.
Qed.

Lemma used_by_app l1 l2 : used_by (l1 ++ l2) = used_by l1 ∪ used_by l2.
Proof. unfold used_by. by rewrite fmap_app, union_list_app_L. Qed.

Lemma used_by_one c : used_by [c] = PcrsUsed c.
Proof. unfold used_by. cbn. by rewrite union_empty_r_L. Qed.

Context (cx : CnCtxt D).
Abbreviation tflags := (flags (cn_ctxt cx)).

(** Columns that may be constrained and compared with lists of constants *)
Record usable (col : CColRef) : Prop := {
  us_constr : FConstrainableType tflags (RetrieveType col) = true;
  us_array : has_array_type (RetrieveType col) = true;
  us_eq : has_cmp (RetrieveType col) EcmptEq = true;
  us_neq : has_cmp (RetrieveType col) EcmptNEq = true;
}.

(** Well-formed trees. The code makes negations of single intervals or of
    constraints on several columns. *)
Inductive cn_ok : CConstraint D -> Prop :=
  | ok_interval p : m_pcr p = LookupColRef cx (m_id (m_pcr p)) -> usable (m_pcr p) -> interval_ok p -> typed p ->
      cn_ok (Interval p)
  | ok_conj u l : l <> [] -> u = used_by l -> (forall c, c ∈ l -> cn_ok c) -> cn_ok (Conjunction u l)
  | ok_disj u l : l <> [] -> u = used_by l -> (forall c, c ∈ l -> cn_ok c) -> cn_ok (Disjunction u l)
  | ok_neg c : cn_ok c -> Ect c = EctInterval \/ 2 <= size (PcrsUsed c) -> cn_ok (Negation c).

(** No negation but of intervals *)
Fixpoint pure c : bool :=
  match c with
  | Interval _ => true
  | Conjunction _ l | Disjunction _ l => forallb pure l
  | Negation c => match c with Interval _ => true | _ => false end
  end.

Definition row_ok row : Prop := forall i, col_value (LookupColRef cx i) (row i).

Lemma row_value (p : CConstraintInterval D) row :
  m_pcr p = LookupColRef cx (m_id (m_pcr p)) -> row_ok row -> col_value (m_pcr p) (row (m_id (m_pcr p))).
Proof. intros Hp Hrow. specialize (Hrow (m_id (m_pcr p))). by rewrite <- Hp in Hrow. Qed.

Lemma cn_ok_junction f u l : cn_ok (junction f u l) <-> l <> [] /\ u = used_by l /\ forall c, c ∈ l -> cn_ok c.
Proof.
  split.
  - intros Hok. destruct f; inversion Hok; subst; done.
  - intros (H1 & H2 & H3). destruct f; by constructor.
Qed.

Lemma sat_junction f u l row : sat row (junction f u l) = all_any f row l.
Proof. by destruct f. Qed.

Lemma used_junction f u l : PcrsUsed (junction f u l) = u.
Proof. by destruct f. Qed.

Lemma pure_junction f u l : pure (junction f u l) = forallb pure l.
Proof. by destruct f. Qed.

Lemma cn_ok_used c : cn_ok c -> PcrsUsed c <> ∅.
Proof.
  assert (forall l, l <> [] -> (forall c, c ∈ l -> PcrsUsed c <> ∅) -> used_by l <> ∅) as Hl.
  { intros [|a l] Hne Hc; [done|]. destruct (set_choose_L (PcrsUsed a)) as [i Hi]; [apply Hc; set_solver|].
    intros E. assert (i ∈ used_by (a :: l)) as Hin by (apply elem_of_used_by; exists a; set_solver). rewrite E in Hin. set_solver. }
  induction 1 as [p|u l Hne -> _ IH|u l Hne -> _ IH|c0 _ IH _]; cbn; [set_solver|by apply Hl|by apply Hl|done].
Qed.

Lemma all_any_app f row l1 l2 :
  all_any f row (l1 ++ l2) = (if f then andb else orb) (all_any f row l1) (all_any f row l2).
Proof. destruct f; [apply forallb_app|apply existsb_app]. Qed.

(** ** Contradictions and unbounded constraints *)

Lemma unbounded_interval (p : CConstraintInterval D) v : IsConstraintUnbounded p = true -> in_interval p v = true.
Proof.
  unfold IsConstraintUnbounded. rewrite andb_true_iff. intros [Hn Hr]. destruct v as [d|]; [|done].
  unfold in_interval. destruct (m_pdrgprng p) as [|r [|]]; try done. unfold Range.IsConstraintUnbounded in Hr. cbn.
  unfold in_range. by destruct (m_pdatumLeft r), (m_pdatumRight r).
Qed.

Lemma contradiction_unbounded c row : cn_ok c -> row_ok row ->
  (CnContradiction c = true -> sat row c = false) /\ (CnUnbounded c = true -> sat row c = true).
Proof.
  intros Hok Hrow. induction Hok as [p Hp Hu Hi Ht|u l Hne _ _ IH|u l Hne _ _ IH|c0 _ [IH1 IH2] _]; cbn.
  - split; [|apply unbounded_interval]. intros Hc. apply FContradiction_sound; [done..|]. by apply row_value.
  - split; [|done]. intros (c & Hc%list_elem_of_In & Hcc)%existsb_exists. apply not_true_iff_false. rewrite forallb_forall.
    intros Hall. pose proof (proj1 (IH c Hc) Hcc) as Hs. rewrite Hall in Hs; [done|]. by apply list_elem_of_In.
  - split; [|done]. rewrite forallb_forall. intros Hall. apply not_true_iff_false. intros (c & Hc & Hs)%existsb_exists.
    rewrite (proj1 (IH c ltac:(by apply list_elem_of_In))) in Hs; [done|]. by apply Hall.
  - split; intros Hc; [by rewrite IH2|by rewrite IH1].
Qed.

(** ** The predicate of a tree *)

Hypothesis Hid : forall i, m_id (LookupColRef cx i) = i.
Context (oo : OtherOps D).
Abbreviation bctx := (cn_ctxt cx).

Lemma usable_array p : usable (m_pcr p) -> array_usable p.
Proof. intros [_ ? ? ?]. by right. Qed.

Lemma complement_ok p : cn_ok (Interval p) ->
  returns (PciComplement tflags p) (fun u => cn_ok (Interval u) /\ m_pcr u = m_pcr p /\
    forall row, row_ok row -> sat row (Interval u) = negb (sat row (Interval p))).
Proof.
  intros Hok. inversion Hok as [? Hp Hu Hi Ht| | |]; subst.
  destruct (PciComplement_spec tflags p) as (u & E & Hc & Hiu & _ & Hv); [done|apply Hu|].
  pose proof (PciComplement_ends (value_of (m_pcr p)) (value_of_bool _) tflags p) as He.
  rewrite E in *. exists u. split; [done|]. split_and!; [|done|].
  - constructor; [by rewrite Hc|by rewrite Hc|done|]. apply typed_ends. rewrite Hc. apply He; [|done]. by apply typed_ends.
  - intros row Hrow. cbn. rewrite Hc. by apply Hv, row_value.
Qed.

Lemma interval_scalar p : cn_ok (Interval p) ->
  returns (PexprConstructScalar bctx p) (fun e => forall row, row_ok row ->
    holds false (eval_bool oo row e) = sat row (Interval p)).
Proof.
  intros Hok. inversion Hok as [? Hp Hu Hi Ht| | |]; subst.
  destruct (construct_eval bctx oo (m_pcr p) p) as (e & E & Hv); [done..|by apply usable_array|].
  exists e. split; [done|]. intros row Hrow. by apply Hv, row_value.
Qed.

(** The truth of a conjunction or disjunction of predicates *)
Lemma holds_junct infer (f : bool) (bs : list (option bool)) :
  holds infer (junct3 f bs) = every_some f (holds infer) bs.
Proof.
  induction bs as [|b bs IH]; [by destruct f|].
  destruct f; (etransitivity; [apply holds_and || apply holds_or|]); exact (f_equal2 _ eq_refl IH).
Qed.

Lemma forall2_all_any f row (es : list (CExpression D)) l :
  Forall2 (fun c e => holds false (eval_bool oo row e) = sat row c) l es ->
  every_some f (holds false) (map (eval_bool oo row) es) = all_any f row l.
Proof. induction 1 as [|c e l es Hc _ IH]; [by destruct f|]. destruct f; cbn in *; by rewrite Hc, IH. Qed.

(** [e] is true in the rows that satisfy [c]. *)
Definition predicate_of c (e : CExpression D) : Prop :=
  forall row, row_ok row -> holds false (eval_bool oo row e) = sat row c.

Lemma scalar_junct f l :
  (forall c, c ∈ l -> returns (PexprScalar cx c) (predicate_of c)) ->
  returns (PexprScalarConjDisj (PexprScalar cx) l f) (fun e => forall row, row_ok row ->
     holds false (eval_bool oo row e) = all_any f row l).
Proof.
  intros Hl. eapply returns_bind; [by apply (mapM_ret _ predicate_of)|]. intros es Hes.
  replace (if f then PexprConjunction es else PexprDisjunction es) with (PexprConjDisj es f) by (by destruct f).
  apply returns_ret. intros row Hrow. rewrite PexprConjDisj_eval, holds_junct. apply forall2_all_any.
  eapply Forall2_impl; [exact Hes|]. cbn. intros c e Hce. by apply Hce.
Qed.

Lemma scalar_false l f :
  every_some (negb f) CnContradiction l = true -> (forall c, c ∈ l -> cn_ok c) ->
  forall row, row_ok row -> holds false (eval_bool oo row (PexprScalarConstBool false)) = all_any f row l.
Proof.
  intros Hf Hok row Hrow. rewrite PexprScalarConstBool_eval. cbn. symmetry.
  assert (forall c, c ∈ l -> CnContradiction c = true -> sat row c = false) as Hs.
  { intros x Hx. by apply contradiction_unbounded; [apply Hok|]. }
  clear Hok. destruct f.
  - apply existsb_exists in Hf as (x & Hx%list_elem_of_In & Hc). apply not_true_iff_false. cbn. rewrite forallb_forall.
    intros Hall. specialize (Hall x ltac:(by apply list_elem_of_In)). by rewrite (Hs x) in Hall.
  - apply not_true_iff_false. intros (x & Hx & Hsx)%existsb_exists. cbn in Hf. rewrite forallb_forall in Hf.
    rewrite Hs in Hsx; [done|by apply list_elem_of_In|by apply Hf].
Qed.

(** The predicate of a tree is true for the rows that satisfy it. *)
Lemma scalar_exact c : cn_ok c -> pure c = true ->
  returns (PexprScalar cx c) (predicate_of c).
Proof.
  induction 1 as [p Hp Hu Hi Ht|u l Hne Hul Hl IH|u l Hne Hul Hl IH|c0 Hc IH Hor]; intros Hpure; cbn [PexprScalar].
  - by apply interval_scalar; constructor.
  - cbn in Hpure. rewrite forallb_forall in Hpure. destruct (existsb _ l) eqn:Ec.
    + apply returns_ret. exact (scalar_false l true Ec Hl).
    + apply (scalar_junct true). intros c Hc. apply IH; [done|]. by apply Hpure, list_elem_of_In.
  - cbn in Hpure. rewrite forallb_forall in Hpure. destruct (forallb _ l) eqn:Ec.
    + apply returns_ret. exact (scalar_false l false Ec Hl).
    + apply (scalar_junct false). intros c Hc. apply IH; [done|]. by apply Hpure, list_elem_of_In.
  - destruct c0 as [p| | |]; try done. eapply returns_bind; [by apply complement_ok|]. intros u (Huok & Huc & Hu).
    eapply returns_mono; [by apply interval_scalar|]. cbn beta. intros e He row Hrow. rewrite He, Hu by done. done.
Qed.

(** ** Constraints on one column *)

Hypothesis Hflag : EopttraceConsiderOpfamiliesForDistribution tflags = false.

Definition on_column (i : N) c : Prop := PcrsUsed c = {[i]}.
#[local] Instance on_column_dec i c : Decision (on_column i c).
Proof. unfold on_column. apply _. Defined.

(** The predicate can be turned back into an interval. *)
Definition column_predicate (i : N) (e : CExpression D) : Prop :=
  supported bctx (LookupColRef cx i) e /\ constants_ok (value_of (LookupColRef cx i)) e.

Lemma on_column_size i c : on_column i c -> size (PcrsUsed c) = 1.
Proof. intros ->. apply size_singleton. Qed.

Lemma interval_column p i : cn_ok (Interval p) -> m_id (m_pcr p) = i ->
  wlp (PexprConstructScalar bctx p) (column_predicate i).
Proof.
  intros Hok <- e He. inversion Hok as [? Hp Hu Hi Ht| | |]; subst. unfold column_predicate. rewrite <- Hp. split.
  - eapply construct_supported; [done..| |exact He]. apply Forall_forall. intros r Hr.
    destruct (Ht r Hr) as [Hl Hr']. split; intros d Hd; [by apply Hl|by apply Hr'].
  - eapply construct_constants; [apply value_of_bool|by apply typed_ends|done].
Qed.

Lemma child_column l i c : used_by l = {[i]} -> c ∈ l -> cn_ok c -> on_column i c.
Proof.
  intros Hu Hc Hok. pose proof (cn_ok_used c Hok) as Hne. unfold on_column. apply set_eq. intros x. split.
  - intros Hx. rewrite <- Hu. apply elem_of_used_by. by exists c.
  - intros ->%elem_of_singleton. destruct (set_choose_L (PcrsUsed c) Hne) as [y Hy].
    assert (y ∈ used_by l) as Hyu by (apply elem_of_used_by; by exists c).
    rewrite Hu, elem_of_singleton in Hyu. by subst.
Qed.

Lemma column_pure c i : cn_ok c -> on_column i c -> pure c = true.
Proof.
  intros Hok. revert i. induction Hok as [p Hp Hu Hi Ht|u l Hne Hul Hl IH|u l Hne Hul Hl IH|c0 Hc IH Hor]; intros i Hon; [done| | |].
  - apply forallb_forall. intros x Hx%list_elem_of_In. apply (IH x Hx i), (child_column l); [by rewrite <- Hul|done|by apply Hl].
  - apply forallb_forall. intros x Hx%list_elem_of_In. apply (IH x Hx i), (child_column l); [by rewrite <- Hul|done|by apply Hl].
  - unfold on_column in Hon. cbn in Hon. destruct Hor as [Hor|Hor]; [by destruct c0|].
    rewrite Hon, size_singleton in Hor. lia.
Qed.

Lemma junct_column i l f :
  (forall c, c ∈ l -> wlp (PexprScalar cx c) (column_predicate i)) ->
  wlp (PexprScalarConjDisj (PexprScalar cx) l f) (column_predicate i).
Proof.
  intros Hl. eapply wlp_bind with (Ψ := Forall (column_predicate i)).
  - induction l as [|c l IH]; cbn; [by apply wlp_ret|].
    eapply wlp_bind; [apply Hl; set_solver|]. intros e He. eapply wlp_bind; [apply IH; set_solver|].
    intros es Hes. apply wlp_ret. by constructor.
  - intros es Hes. replace (if f then PexprConjunction es else PexprDisjunction es) with (PexprConjDisj es f) by (by destruct f).
    apply wlp_ret. split.
    + apply ConjDisj_supported; [done|]. eapply Forall_impl; [exact Hes|]. by intros e [? _].
    + apply ConjDisj_constants; [apply value_of_bool|]. eapply Forall_impl; [exact Hes|]. by intros e [_ ?].
Qed.

Lemma false_column i : wlp (mret (PexprScalarConstBool false)) (column_predicate i).
Proof. apply wlp_ret. split; [by apply const_supported|apply bool_const_constants, value_of_bool]. Qed.

Lemma scalar_column c i : cn_ok c -> on_column i c -> wlp (PexprScalar cx c) (column_predicate i).
Proof.
  intros Hok. induction Hok as [p Hp Hu Hi Ht|u l Hne Hul Hl IH|u l Hne Hul Hl IH|c0 Hc IH Hor]; intros Hon; cbn [PexprScalar].
  - apply interval_column; [by constructor|]. unfold on_column in Hon. cbn in Hon. set_solver.
  - destruct (existsb _ l); [apply false_column|]. apply junct_column. intros x Hx. apply IH; [done|].
    apply (child_column l); [by rewrite <- Hul|done|by apply Hl].
  - destruct (forallb _ l); [apply false_column|]. apply junct_column. intros x Hx. apply IH; [done|].
    apply (child_column l); [by rewrite <- Hul|done|by apply Hl].
  - pose proof (column_pure (Negation c0) i (ok_neg _ Hc Hor) Hon) as Hp. destruct c0 as [p| | |]; try done.
    pose proof (complement_ok p Hc) as (u & -> & Huok & Huc & _). rewrite bind_ret.
    apply interval_column; [done|]. rewrite Huc. unfold on_column in Hon. cbn in Hon. set_solver.
Qed.

(** An interval from a predicate on the column *)
Lemma from_predicate i e am : usable (LookupColRef cx i) -> column_predicate i e ->
  returns (PciIntervalFromScalarExpr bctx e (LookupColRef cx i) false am)
    (fun o => exists p, o = Some p /\ cn_ok (Interval p) /\ on_column i (Interval p) /\
       forall row, row_ok row -> sat row (Interval p) = holds false (eval_bool oo row e)).
Proof.
  intros Hu [Hs Hk]. destruct (derive_exact bctx oo (LookupColRef cx i) (us_constr _ Hu) e Hs false am) as (p & E & Hc & Hi & Hv).
  pose proof (derive_ends (value_of (LookupColRef cx i)) (value_of_bool _) bctx (LookupColRef cx i) e Hk false am _ E) as He.
  exists (Some p). split; [done|]. exists p. split; [done|]. split_and!.
  - constructor; [by rewrite Hc, Hid|by rewrite Hc|done|]. apply typed_ends. rewrite Hc. by apply He.
  - unfold on_column. cbn. by rewrite Hc, Hid.
  - intros row Hrow. cbn. rewrite Hc. apply Hv. rewrite Hid. apply Hrow.
Qed.

Lemma column_usable c i : cn_ok c -> on_column i c -> usable (LookupColRef cx i).
Proof.
  intros Hok. induction Hok as [p Hp Hu Hi Ht|u l Hne Hul Hl IH|u l Hne Hul Hl IH|c0 Hc IH Hor]; intros Hon; [| | |by apply IH].
  - unfold on_column in Hon. cbn in Hon. assert (m_id (m_pcr p) = i) as <- by set_solver. by rewrite <- Hp.
  - destruct l as [|x l]; [done|]. apply (IH x); [set_solver|]. apply (child_column (x :: l)); [by rewrite <- Hul|set_solver|apply Hl; set_solver].
  - destruct l as [|x l]; [done|]. apply (IH x); [set_solver|]. apply (child_column (x :: l)); [by rewrite <- Hul|set_solver|apply Hl; set_solver].
Qed.

(** A list of constraints on a column, its predicate turned back *)
Lemma combine_column i l f am :
  l <> [] -> (forall c, c ∈ l -> cn_ok c /\ on_column i c) ->
  returns (pexpr ← PexprScalarConjDisj (PexprScalar cx) l f;
           PciIntervalFromScalarExpr bctx pexpr (LookupColRef cx i) false am)
    (fun o => exists p, o = Some p /\ cn_ok (Interval p) /\ on_column i (Interval p) /\
       forall row, row_ok row -> sat row (Interval p) = all_any f row l).
Proof.
  intros Hne Hl. destruct (scalar_junct f l) as (e & Ee & He).
  { intros c Hc. destruct (Hl c Hc). by apply scalar_exact; [|eapply column_pure]. }
  assert (column_predicate i e) as Hs.
  { apply (junct_column i l f); [|done]. intros c Hc. destruct (Hl c Hc). by apply scalar_column. }
  rewrite Ee, bind_ret. destruct l as [|x l]; [done|]. destruct (Hl x) as [Hx Hxi]; [set_solver|].
  eapply returns_mono; [apply from_predicate; [by eapply column_usable|done]|]. cbn beta.
  intros o (p & -> & H1 & H2 & H3). exists p. split_and!; [done..|]. intros row Hrow. by rewrite H3, He.
Qed.

(** ** The constraints of a list on a column *)

Lemma size_one c : size (PcrsUsed c) = 1 -> exists i, on_column i c.
Proof. intros (i & Hi)%size_1_elem_of. exists i. by apply leibniz_equiv. Qed.

Lemma on_column_filter l i c :
  c ∈ PdrgpcnstrOnColumn l i true <-> c ∈ l /\ on_column i c.
Proof.
  unfold PdrgpcnstrOnColumn. rewrite list_elem_of_filter. split.
  - intros [[Hi [?|Hs]] Hc]; [done|]. destruct (size_one c Hs) as [j Hj]. rewrite Hj, elem_of_singleton in Hi. by subst.
  - intros [Hc Hi]. split; [|done]. rewrite Hi, size_singleton. set_solver.
Qed.

(** The map of the hash mapper has the constraints on each column that has one. *)
Definition column_entry l (i : N) : option (list (CConstraint D)) :=
  match PdrgpcnstrOnColumn l i true with [] => None | cs => Some cs end.

Lemma column_entry_app l c i : column_entry (l ++ [c]) i =
  if decide (on_column i c) then Some (default [] (column_entry l i) ++ [c]) else column_entry l i.
Proof.
  unfold column_entry, PdrgpcnstrOnColumn. rewrite filter_app, filter_cons, filter_nil. set (cs := filter _ l).
  destruct (decide (on_column i c)) as [Hi|Hi].
  - rewrite decide_True by (rewrite Hi, size_singleton; set_solver). by destruct cs.
  - rewrite decide_False; [by rewrite app_nil_r|]. intros [Hin [?|(j & Hj)%size_one]]; [done|].
    rewrite Hj, elem_of_singleton in Hin. by subst.
Qed.

Lemma hash_mapper_ret l :
  returns (PhmcolconstrSingleColConstr l) (fun m => forall i, m !! i = column_entry l i).
Proof.
  unfold PhmcolconstrSingleColConstr.
  apply (for_each_rule (fun pre (m : gmap N (list (CConstraint D))) => forall i, m !! i = column_entry pre i)); [done|].
  intros pre c rest m _ Hm. cbn zeta. destruct (size (PcrsUsed c) =? 1) eqn:Es.
  - apply Nat.eqb_eq, size_one in Es as [j Hj]. rewrite Hj, first_column, bind_ret. apply returns_ret. intros i.
    rewrite Hm, column_entry_app. destruct (decide (on_column i c)) as [Hi|Hi].
    + assert (i = j) as -> by (unfold on_column in *; set_solver). by rewrite lookup_insert_eq.
    + rewrite lookup_insert_ne, Hm; [done|]. by intros ->.
  - apply returns_ret. intros i. rewrite column_entry_app, decide_False; [done|]. intros Hi%on_column_size. by rewrite Hi in Es.
Qed.

(** Both mappers find the constraints on the column of a constraint of the list. *)
Lemma lookup_ret l i c : c ∈ l -> on_column i c -> PdrgPcnstrLookup l i = Ret (PdrgpcnstrOnColumn l i true).
Proof.
  intros Hc Hi. unfold PdrgPcnstrLookup. destruct (5 <=? length l); [|done].
  destruct (hash_mapper_ret l) as (m & -> & Hm). rewrite bind_ret, Hm. unfold column_entry.
  destruct (PdrgpcnstrOnColumn l i true) eqn:E; [|done]. destruct (not_elem_of_nil c). rewrite <- E. by apply on_column_filter.
Qed.

(** ** Combining the constraints on one column *)

(** A row that decides a conjunction (disjunction) by one constraint *)
Definition hit (f : bool) row c : bool := if f then negb (sat row c) else sat row c.

Lemma all_any_hit f row l : all_any f row l = xorb f (existsb (hit f row) l).
Proof.
  induction l as [|c l IH]; [by destruct f|]. destruct f; cbn in *; rewrite IH; cbn; [|done].
  by destruct (sat row c), (existsb _ l).
Qed.

(** The lists decide the same rows. *)
Lemma hit_same f row l1 l2 :
  (forall c, c ∈ l1 -> hit f row c = true -> exists c', c' ∈ l2 /\ hit f row c' = true) ->
  (forall c, c ∈ l2 -> hit f row c = true -> exists c', c' ∈ l1 /\ hit f row c' = true) ->
  all_any f row l1 = all_any f row l2.
Proof.
  intros H1 H2. rewrite !all_any_hit. f_equal. apply eq_bool_prop_intro. rewrite !Is_true_true, !existsb_exists.
  setoid_rewrite <- list_elem_of_In. naive_solver.
Qed.

Lemma all_any_one f row l c : (forall d, d ∈ l -> d = c) -> l <> [] -> all_any f row l = sat row c.
Proof.
  intros Hl Hne. rewrite all_any_hit. assert (existsb (hit f row) l = hit f row c) as ->.
  { destruct l as [|d l]; [done|]. cbn. assert (d = c) as -> by (apply Hl; set_solver).
    destruct (hit f row c) eqn:Eh; [done|]. cbn. apply not_true_iff_false. intros (x & Hx%list_elem_of_In & Hh)%existsb_exists.
    rewrite (Hl x) in Hh by set_solver. congruence. }
  unfold hit. by destruct f, (sat row c).
Qed.

Definition ect_of (f : bool) : EConstraintType := if f then EctConjunction else EctDisjunction.

(** Where the loop stands after the constraints [pre] of [l] *)
Record deduped (f : bool) l (pre new : list (CConstraint D)) (done : gset N) : Prop := {
  dd_ok : forall c, c ∈ new -> cn_ok c;
  dd_used : used_by new = used_by pre;
  dd_done : done ⊆ used_by new;
  dd_pure : forallb pure l = true -> forallb pure new = true;
  dd_pre : forall row c, row_ok row -> c ∈ pre -> hit f row c = true -> exists c', c' ∈ new /\ hit f row c' = true;
  dd_new : forall row c, row_ok row -> c ∈ new -> hit f row c = true -> exists c', c' ∈ l /\ hit f row c' = true;
  dd_cols : forall row i c, row_ok row -> i ∈ done -> c ∈ l -> on_column i c -> hit f row c = true ->
     exists c', c' ∈ new /\ hit f row c' = true;
}.

(** The child is kept. *)
Lemma deduped_keep f l pre new done c :
  deduped f l pre new done -> c ∈ l -> cn_ok c -> deduped f l (pre ++ [c]) (new ++ [c]) done.
Proof.
  intros [H1 H2 H3 H4 H5 H6 H7] Hc Hok. split.
  - intros x [Hx| ->%list_elem_of_singleton]%elem_of_app; auto.
  - by rewrite !used_by_app, H2.
  - rewrite used_by_app. set_solver.
  - intros Hp. rewrite forallb_app, H4 by done. cbn. rewrite forallb_forall in Hp. rewrite Hp; [done|by apply list_elem_of_In].
  - intros row x Hrow [Hx| ->%list_elem_of_singleton]%elem_of_app Hh; [|exists c; set_solver].
    destruct (H5 row x Hrow Hx Hh) as (y & ? & ?). exists y. set_solver.
  - intros row x Hrow [Hx| ->%list_elem_of_singleton]%elem_of_app Hh; [by apply (H6 row x)|by exists c].
  - intros row i x Hrow Hi Hx Hon Hh. destruct (H7 row i x Hrow Hi Hx Hon Hh) as (y & ? & ?). exists y. set_solver.
Qed.

(** The child is on a column that is done. *)
Lemma deduped_skip f l pre new done c i :
  deduped f l pre new done -> c ∈ l -> on_column i c -> i ∈ done -> deduped f l (pre ++ [c]) new done.
Proof.
  intros [H1 H2 H3 H4 H5 H6 H7] Hc Hon Hi. split; try done.
  - rewrite used_by_app, used_by_one, Hon, <- H2. set_solver.
  - intros row x Hrow [Hx| ->%list_elem_of_singleton]%elem_of_app Hh; [by apply (H5 row x)|by apply (H7 row i c)].
Qed.

(** The child and the others on its column become one interval. *)
Lemma deduped_combine f l pre new done c i p :
  deduped f l pre new done -> c ∈ l -> on_column i c -> cn_ok (Interval p) -> on_column i (Interval p) ->
  (forall row, row_ok row -> sat row (Interval p) = all_any f row (PdrgpcnstrOnColumn l i true)) ->
  deduped f l (pre ++ [c]) (new ++ [Interval p]) (done ∪ {[i]}).
Proof.
  intros [H1 H2 H3 H4 H5 H6 H7] Hc Hon Hok Hpi Hp.
  assert (forall row, row_ok row -> hit f row (Interval p) = existsb (hit f row) (PdrgpcnstrOnColumn l i true)) as Hh.
  { intros row Hrow. unfold hit at 1. rewrite Hp, all_any_hit by done. by destruct f, (existsb _ _). }
  assert (forall row x, row_ok row -> x ∈ l -> on_column i x -> hit f row x = true -> hit f row (Interval p) = true) as Hx.
  { intros row x Hrow Hx Hxi Hhx. rewrite Hh by done. apply existsb_exists. exists x.
    split; [|done]. by apply list_elem_of_In, on_column_filter. }
  split.
  - intros x [Hx'| ->%list_elem_of_singleton]%elem_of_app; auto.
  - rewrite !used_by_app, !used_by_one, H2. by rewrite Hon, Hpi.
  - rewrite used_by_app, used_by_one, Hpi. set_solver.
  - intros Hpu. by rewrite forallb_app, H4.
  - intros row x Hrow [Hx'| ->%list_elem_of_singleton]%elem_of_app Hhx.
    + destruct (H5 row x Hrow Hx' Hhx) as (y & ? & ?). exists y. set_solver.
    + exists (Interval p). split; [set_solver|]. by apply (Hx row c).
  - intros row x Hrow [Hx'| ->%list_elem_of_singleton]%elem_of_app Hhx; [by apply (H6 row x)|].
    rewrite Hh in Hhx by done. apply existsb_exists in Hhx as (y & Hy & Hhy). exists y. split; [|done].
    apply list_elem_of_In, on_column_filter in Hy. tauto.
  - intros row j x Hrow [Hj|Hj]%elem_of_union Hxl Hxj Hhx.
    + destruct (H7 row j x Hrow Hj Hxl Hxj Hhx) as (y & ? & ?). exists y. set_solver.
    + apply elem_of_singleton in Hj as ->. exists (Interval p). split; [set_solver|]. by apply (Hx row x).
Qed.

Lemma dedup_child_ret f l pre c acc :
  (forall c, c ∈ l -> cn_ok c) -> c ∈ l -> deduped f l pre acc.1 acc.2 ->
  returns (dedup_child cx l (ect_of f) c acc) (fun acc' => deduped f l (pre ++ [c]) acc'.1 acc'.2).
Proof.
  intros Hl Hc Hd. destruct acc as [new done]. unfold dedup_child. cbn [fst snd] in *. pose proof (Hl c Hc) as Hok.
  rewrite bind_assert.
  2: { pose proof (cn_ok_used c Hok) as Hne. apply negb_true_iff, Nat.eqb_neq. intros Hz%size_empty_inv. apply Hne. by apply leibniz_equiv. }
  destruct (size (PcrsUsed c) =? 1) eqn:Es; cbn [negb]; [|by apply returns_ret, deduped_keep].
  apply Nat.eqb_eq, size_one in Es as [i Hi]. rewrite Hi, first_column, bind_ret.
  destruct (bool_decide (i ∈ done)) eqn:Ed.
  { apply returns_ret. apply bool_decide_eq_true in Ed. by eapply deduped_skip. }
  rewrite (lookup_ret l i c), bind_ret by done. destruct (length _ =? 1); [by apply returns_ret, deduped_keep|].
  assert (forall k : CExpression D -> outcome (list (CConstraint D) * gset N),
    ((if bool_decide (ect_of f = EctConjunction) then PexprScalarConjDisj (PexprScalar cx) (PdrgpcnstrOnColumn l i true) true
      else (_ ← GPOS_ASSERT (bool_decide (ect_of f = EctDisjunction));
            PexprScalarConjDisj (PexprScalar cx) (PdrgpcnstrOnColumn l i true) false)) ≫= k) =
    (PexprScalarConjDisj (PexprScalar cx) (PdrgpcnstrOnColumn l i true) f ≫= k)) as Hk by (by destruct f).
  rewrite Hk. clear Hk.
  pose proof (combine_column i (PdrgpcnstrOnColumn l i true) f EmdindSentinel) as Hco.
  destruct Hco as (o & Eo & p & -> & Hpok & Hpi & Hp).
  { intros E. apply (not_elem_of_nil c). rewrite <- E. by apply on_column_filter. }
  { intros x [Hx Hxi]%on_column_filter. auto. }
  destruct (PexprScalarConjDisj _ _ f) as [e|]; [|done]. rewrite bind_ret in Eo. rewrite bind_ret, Eo, bind_ret.
  apply returns_ret. by apply deduped_combine.
Qed.

Lemma Deduplicate_ret f l : (forall c, c ∈ l -> cn_ok c) ->
  returns (PdrgpcnstrDeduplicate cx l (ect_of f)) (fun l' =>
    (forall c, c ∈ l' -> cn_ok c) /\ used_by l' = used_by l /\ (forallb pure l = true -> forallb pure l' = true) /\
    forall row, row_ok row -> all_any f row l' = all_any f row l).
Proof.
  intros Hl. unfold PdrgpcnstrDeduplicate. eapply returns_bind.
  { apply (for_each_rule (fun pre acc => deduped f l pre acc.1 acc.2)).
    - split; cbn; set_solver.
    - intros pre c rest acc E Hd. apply dedup_child_ret; [done| |done]. rewrite E. set_solver. }
  intros [new done] [H1 H2 H3 H4 H5 H6 H7]. apply returns_ret. cbn in *. split_and!; [done..|].
  intros row Hrow. apply hit_same; intros c; [by apply H6|by apply H5].
Qed.

(** Flattening *)
Lemma Flatten_ret f l : (forall c, c ∈ l -> cn_ok c) ->
  returns (PdrgpcnstrFlatten cx l (ect_of f)) (fun l' =>
    (forall c, c ∈ l' -> cn_ok c) /\ used_by l' = used_by l /\ (forallb pure l = true -> forallb pure l' = true) /\
    forall row, row_ok row -> all_any f row l' = all_any f row l).
Proof.
  intros Hl. unfold PdrgpcnstrFlatten. cbn zeta.
  set (flat := fun c => match c, ect_of f with Conjunction _ l, EctConjunction => l | Disjunction _ l, EctDisjunction => l | _, _ => [c] end).
  set (l0 := concat (map flat l)).
  assert ((forall c, c ∈ l0 -> cn_ok c) /\ used_by l0 = used_by l /\ (forallb pure l = true -> forallb pure l0 = true) /\
          forall row, all_any f row l0 = all_any f row l) as (H1 & H2 & H3 & H4).
  { assert (forall c, cn_ok c -> flat c = [c] \/ exists u l', flat c = l' /\ c = junction f u l') as Hf.
    { intros [| | |] _; destruct f; cbn; eauto. }
    subst l0. induction l as [|c l IH]; cbn [map concat]; [done|].
    destruct IH as (I1 & I2 & I3 & I4); [set_solver|]. pose proof (Hl c ltac:(set_solver)) as Hc.
    change (used_by (c :: l)) with (used_by ([c] ++ l)). change (forallb pure (c :: l)) with (forallb pure ([c] ++ l)).
    change (all_any f ?row (c :: l)) with (all_any f row ([c] ++ l)).
    rewrite !used_by_app, I2, !forallb_app, !andb_true_iff.
    destruct (Hf c Hc) as [-> | (u & l' & -> & ->)].
    - split_and!; [set_solver|done|naive_solver|]. intros row. change (all_any f row (c :: l)) with (all_any f row ([c] ++ l)).
      by rewrite !all_any_app, I4.
    - apply cn_ok_junction in Hc as (Hne & -> & Hc). split_and!; [set_solver| | |].
      + by rewrite used_by_one, used_junction.
      + cbn. rewrite pure_junction, andb_true_r. naive_solver.
      + intros row. change (all_any f row (junction f (used_by l') l' :: l)) with (all_any f row ([junction f (used_by l') l'] ++ l)).
        rewrite !all_any_app, I4. f_equal. rewrite all_any_hit.
        rewrite (all_any_one f row [_] (junction f (used_by l') l')), <- all_any_hit by (done || set_solver). by rewrite sat_junction. }
  eapply returns_mono; [by apply Deduplicate_ret|]. cbn beta. intros l' (I1 & I2 & I3 & I4).
  split_and!; [done|by rewrite I2|auto|]. intros row Hrow. by rewrite I4.
Qed.

(** ** The constructors *)

(** The constraint [c] stands for the list [l]. *)
Record stands_for (f : bool) (l : list (CConstraint D)) (c : CConstraint D) : Prop := {
  sf_ok : cn_ok c;
  sf_used : PcrsUsed c = used_by l;
  sf_pure : forallb pure l = true -> pure c = true;
  sf_sat : forall row : N -> option D, row_ok row -> sat row c = all_any f row l;
}.

Lemma junction_ctor_ret (f : bool) l : l <> [] -> (forall c, c ∈ l -> cn_ok c) ->
  returns (if f then CConstraintConjunction_ctor cx l else CConstraintDisjunction_ctor cx l) (stands_for f l).
Proof.
  intros Hne Hl. destruct (Flatten_ret f l Hl) as (l' & E & H1 & H2 & H3 & H4).
  assert (used_by l <> ∅) as Hu.
  { destruct l as [|x l]; [done|]. destruct (set_choose_L (PcrsUsed x)) as [i Hi]; [apply cn_ok_used, Hl; set_solver|].
    intros Eu. assert (i ∈ used_by (x :: l)) as Hin by (apply elem_of_used_by; exists x; set_solver). rewrite Eu in Hin. set_solver. }
  assert (stands_for f l (junction f (used_by l) l')) as Hs.
  { split.
    - apply cn_ok_junction. split_and!; [|done|done]. intros ->. by rewrite <- H2 in Hu.
    - apply used_junction.
    - rewrite pure_junction. apply H3.
    - intros row Hrow. rewrite sat_junction. by apply H4. }
  assert ((0 <? length l) = true) as Hlen by (destruct l; done).
  exists (junction f (used_by l) l'). split; [|done].
  destruct f; unfold CConstraintConjunction_ctor, CConstraintDisjunction_ctor, PcrsFromConstraints; rewrite Hlen; cbn in *; by rewrite E.
Qed.

Lemma ConjDisj_ret (f : bool) l : (forall c, c ∈ l -> cn_ok c) ->
  returns (PcnstrConjDisj cx l f) (fun o =>
    match o with Some c => l <> [] /\ stands_for f l c | None => l = [] end).
Proof.
  intros Hl. unfold PcnstrConjDisj. destruct l as [|c [|d l]]; [by apply returns_ret| |].
  - apply returns_ret. split; [done|]. split.
    + apply Hl. set_solver.
    + by rewrite used_by_one.
    + cbn. by rewrite andb_true_r.
    + intros row Hrow. symmetry. apply all_any_one; [set_solver|done].
  - destruct (junction_ctor_ret f (c :: d :: l)) as (x & E & Hx); [done|done|]. exists (Some x). split; [|done].
    destruct f; cbn in *; by rewrite E.
Qed.

End Sem.
End ConstraintSem.
