(* ===== verification/ConstraintProject.v ===== *)
(** * The parts of a constraint tree

    The part of a constraint on a column, or on a set of columns, is implied by
    the constraint: a row that satisfies the constraint satisfies the part. On
    these parts rests the containment test [Contains], which compares two
    constraints column by column. *)
From stdpp Require Import base numbers list gmap sets sorting.
From S2P Require Import Prelude Range ConstraintInterval ScalarExpr ScalarInterval IntervalEnds EquivClasses Constraint ConstraintSem.

Module ConstraintProject.
Import Range ConstraintInterval ScalarExpr ScalarInterval IntervalEnds EquivClasses Constraint ConstraintSem.
Open Scope nat_scope.
Open Scope outcome_scope.

Lemma filter_every {A} (P : A -> Prop) `{!forall x, Decision (P x)} (l : list A) :
  (forall x, x ∈ l -> P x) -> filter P l = l.
Proof. induction l as [|a l IH]; intros Hl; [done|]. rewrite filter_cons, decide_True, IH; set_solver. Qed.

Section Project.
Context {D : Type} `{CL : ComparatorLaws D} `{ID : IDatum D} `{DL : !DatumLaws D}.
Context (cx : CnCtxt D) (oo : OtherOps D).
Hypothesis Hid : forall i, m_id (LookupColRef cx i) = i.
Hypothesis Hflag : EopttraceConsiderOpfamiliesForDistribution (flags (cn_ctxt cx)) = false.
Implicit Types (p : CConstraintInterval D) (c : CConstraint D) (l : list (CConstraint D)) (row : N -> option D).
Abbreviation cn_ok := (cn_ok cx).
Abbreviation row_ok := (row_ok cx).
Abbreviation tflags := (flags (cn_ctxt cx)).

(** Every column of a tree is one of its intervals. *)
Lemma used_usable c i : cn_ok c -> i ∈ PcrsUsed c -> usable cx (LookupColRef cx i).
Proof.
  induction 1 as [p Hp Hu Hi Ht|u l Hne Hul Hl IH|u l Hne Hul Hl IH|c0 Hc IH Hor]; cbn; [| | |done].
  - intros ->%elem_of_singleton. by rewrite <- Hp.
  - rewrite Hul, elem_of_used_by. intros (x & Hx & Hxi). by apply (IH x).
  - rewrite Hul, elem_of_used_by. intros (x & Hx & Hxi). by apply (IH x).
Qed.

(** The unbounded interval of a column *)
Lemma unbounded_ret i : usable cx (LookupColRef cx i) ->
  returns (PciUnbounded tflags (LookupColRef cx i) true) (fun o => exists p, o = Some p /\ cn_ok (Interval p) /\
    on_column i (Interval p) /\ forall row, row_ok row -> sat row (Interval p) = true).
Proof.
  intros Hu. destruct (PciUnbounded_spec (D := D) tflags (LookupColRef cx i) true) as (p & E & Hc & Hi & Hn & Hv); [apply Hu|].
  pose proof (PciUnbounded_ends (value_of (LookupColRef cx i)) (value_of_bool _) tflags (LookupColRef cx i) true _ E) as He.
  exists (Some p). split; [done|]. exists p. split; [done|]. split_and!.
  - constructor; [by rewrite Hc, Hid|by rewrite Hc|done|]. apply typed_ends. rewrite Hc. by apply He.
  - unfold on_column. cbn. by rewrite Hc, Hid.
  - intros row Hrow. cbn. rewrite Hc, Hid. specialize (Hrow i). destruct (row i) as [d|]; [by apply Hv|].
    destruct p; cbn in *. by subst.
Qed.

(** What a part, maybe null, says of a row *)
Definition sat_opt row (o : option (CConstraint D)) : bool := match o with Some c => sat row c | None => true end.

(** ** The part on a column *)

Record part_on (i : N) (c : CConstraint D) (o : option (CConstraint D)) : Prop := {
  po_ok : forall x, o = Some x -> cn_ok x /\ on_column i x;
  po_sound : forall row, row_ok row -> sat row c = true -> sat_opt row o = true;
  po_exact : on_column i c -> forall row, row_ok row -> sat_opt row o = sat row c;
}.

Lemma all_any_sub row l l' : (forall c, c ∈ l' -> c ∈ l) -> all_any true row l = true -> all_any true row l' = true.
Proof.
  unfold all_any. cbn. rewrite !forallb_forall. setoid_rewrite <- list_elem_of_In. auto.
Qed.

(** The parts the loop over a conjunction keeps *)
Lemma conj_parts_ret i (part : CConstraint D -> outcome (option (CConstraint D))) l :
  (forall c, c ∈ l -> cn_ok c /\ returns (part c) (part_on i c)) ->
  returns (conj_parts part i l) (fun ps =>
    (forall x, x ∈ ps -> cn_ok x /\ on_column i x) /\
    (forall row, row_ok row -> all_any true row l = true -> all_any true row ps = true) /\
    ((forall c, c ∈ l -> i ∈ PcrsUsed c -> on_column i c) -> forall row, row_ok row ->
       all_any true row ps = all_any true row (filter (fun c => i ∈ PcrsUsed c) l))).
Proof.
  induction l as [|c l IH]; intros Hl; cbn [conj_parts].
  { apply returns_ret. split_and!; [set_solver|done|done]. }
  destruct IH as (ps & E & H1 & H2 & H3); [set_solver|]. destruct (Hl c ltac:(set_solver)) as [Hok (o & Eo & Ho)].
  destruct (bool_decide (i ∈ PcrsUsed c)) eqn:Ei.
  - apply bool_decide_eq_true in Ei. rewrite Eo, bind_ret, E, bind_ret.
    set (ps' := match o with Some x => if CnUnbounded x then ps else x :: ps | None => ps end).
    assert (forall row, row_ok row -> all_any true row ps' = sat_opt row o && all_any true row ps) as Hps.
    { intros row Hrow. subst ps'. destruct o as [x|]; [|done]. destruct (CnUnbounded x) eqn:Eu; [|done]. cbn [sat_opt].
      destruct (po_ok _ _ _ Ho x eq_refl) as [Hx _]. by rewrite (proj2 (contradiction_unbounded cx x row Hx Hrow) Eu). }
    apply returns_ret. split_and!.
    + intros x. subst ps'. destruct o as [y|]; [|apply H1]. destruct (CnUnbounded y); [apply H1|].
      intros [->|Hx]%elem_of_cons; [by apply (po_ok _ _ _ Ho)|by apply H1].
    + intros row Hrow. rewrite Hps by done. cbn. rewrite !andb_true_iff. intros [Hc Hall].
      split; [by apply (po_sound _ _ _ Ho)|by apply H2].
    + intros Hon row Hrow. rewrite Hps, filter_cons, decide_True by done. cbn.
      rewrite (po_exact _ _ _ Ho) by (try done; apply Hon; set_solver). f_equal. apply H3; [set_solver|done].
  - apply bool_decide_eq_false in Ei. exists ps. split; [exact E|]. split_and!; [done| |].
    + intros row Hrow. cbn. rewrite andb_true_iff. intros [_ Hall]. by apply H2.
    + intros Hon row Hrow. rewrite filter_cons, decide_False by done. apply H3; [set_solver|done].
Qed.

(** The loop over a disjunction all of whose children have the column *)
Lemma disj_parts_ret i (part : CConstraint D -> outcome (option (CConstraint D))) l : forall acc,
  usable cx (LookupColRef cx i) -> (forall x, x ∈ acc -> cn_ok x /\ on_column i x) ->
  (forall c, c ∈ l -> cn_ok c /\ returns (part c) (part_on i c)) ->
  returns (disj_parts cx part (LookupColRef cx i) l acc) (fun r =>
    match r with
    | inl x => cn_ok x /\ on_column i x /\ (forall row, row_ok row -> sat row x = true) /\
        ((forall c, c ∈ l -> on_column i c) -> forall row, row_ok row -> all_any false row (acc ++ l) = true)
    | inr ps => (forall x, x ∈ ps -> cn_ok x /\ on_column i x) /\ length ps = length acc + length l /\
        (forall row, row_ok row -> all_any false row (acc ++ l) = true -> all_any false row ps = true) /\
        ((forall c, c ∈ l -> on_column i c) -> forall row, row_ok row ->
           all_any false row ps = all_any false row (acc ++ l))
    end).
Proof.
  induction l as [|c l IH]; intros acc Hu Hacc Hl; cbn [disj_parts].
  { apply returns_ret. rewrite app_nil_r. cbn. split_and!; [done|lia|done|done]. }
  destruct (Hl c ltac:(set_solver)) as [Hok (o & Eo & Ho)]. rewrite Eo, bind_ret.
  eapply returns_bind with (P := fun x => cn_ok x /\ on_column i x /\ forall row, row_ok row -> sat row x = sat_opt row o).
  { destruct o as [x|]; [apply returns_ret; by destruct (po_ok _ _ _ Ho x eq_refl)|].
    destruct (unbounded_ret i Hu) as (? & -> & p & -> & Hp). cbn. apply returns_ret. exact Hp. }
  intros x (Hx & Hxi & Hxs). destruct (CnUnbounded x) eqn:Eu.
  - apply returns_ret. pose proof (fun row Hrow => proj2 (contradiction_unbounded cx x row Hx Hrow) Eu) as Ht.
    split_and!; [done..|]. intros Hon row Hrow. rewrite all_any_app, (orb_comm (all_any _ _ _)). cbn.
    rewrite <- (po_exact _ _ _ Ho), <- Hxs, Ht by (try done; apply Hon; set_solver). done.
  - eapply returns_mono; [apply (IH (acc ++ [x])); [done| |set_solver]|].
    { intros y [Hy| ->%list_elem_of_singleton]%elem_of_app; auto. }
    assert (forall row, row_ok row -> all_any false row (acc ++ c :: l) = true -> all_any false row ((acc ++ [x]) ++ l) = true) as Hs.
    { intros row Hrow. rewrite !all_any_app. cbn. rewrite !orb_true_iff. intros [?|[Hc|?]]; [auto| |auto].
      left. right. left. rewrite Hxs by done. by apply (po_sound _ _ _ Ho). }
    assert (on_column i c -> forall row, row_ok row -> all_any false row ((acc ++ [x]) ++ l) = all_any false row (acc ++ c :: l)) as He.
    { intros Hc row Hrow. rewrite !all_any_app. cbn. rewrite Hxs, (po_exact _ _ _ Ho), orb_false_r by done. by rewrite orb_assoc. }
    intros [y|ps].
    + intros (H1 & H2 & H3 & H4). split_and!; [done..|]. intros Hon row Hrow. rewrite <- He; [|apply Hon; set_solver|done].
      apply H4; [set_solver|done].
    + intros (H1 & H2 & H3 & H4). rewrite length_app in H2. cbn in H2. split_and!; [done|cbn; lia|auto|].
      intros Hon row Hrow. rewrite <- He; [|apply Hon; set_solver|done]. apply H4; [set_solver|done].
Qed.

Lemma interval_on i p : on_column i (Interval p) <-> m_id (m_pcr p) = i.
Proof. unfold on_column. cbn. split; [set_solver|]. by intros ->. Qed.

Lemma part_none i c : ~ on_column i c -> part_on i c None.
Proof. intros Hn. by split. Qed.

Lemma not_on_column i c : i ∉ PcrsUsed c -> ~ on_column i c.
Proof. intros Hi Hc. rewrite Hc in Hi. set_solver. Qed.

(** Every child of the list has the column if the filtered list is as long. *)
Lemma filter_length_all i l :
  length (PdrgpcnstrOnColumn l i false) = length l -> forall c, c ∈ l -> i ∈ PcrsUsed c.
Proof.
  unfold PdrgpcnstrOnColumn. induction l as [|c l IH]; [set_solver|]. rewrite filter_cons. cbn [length].
  pose proof (length_filter (fun c => i ∈ PcrsUsed c /\ (false = false \/ size (PcrsUsed c) = 1)) l) as Hlen.
  destruct (decide _) as [[Hi _]|Hi]; cbn [length]; [|lia].
  intros Hl x [->|Hx]%elem_of_cons; [done|]. apply IH; [lia|done].
Qed.

Lemma parts_column i l : l <> [] -> (forall x, x ∈ l -> cn_ok x /\ on_column i x) -> used_by l = {[i]}.
Proof.
  intros Hne Hl. destruct l as [|y l]; [done|]. apply set_eq. intros j. rewrite elem_of_used_by, elem_of_singleton. split.
  - intros (z & Hz & Hj). destruct (Hl z Hz) as [_ Hzi]. rewrite Hzi in Hj. set_solver.
  - intros ->. exists y. split; [set_solver|]. destruct (Hl y ltac:(set_solver)) as [_ ->]. set_solver.
Qed.

(** The constraint made of parts on the column *)
Lemma made_of_parts i f ps : (forall x, x ∈ ps -> cn_ok x /\ on_column i x) ->
  returns (PcnstrConjDisj cx ps f) (fun o =>
    (forall x, o = Some x -> cn_ok x /\ on_column i x) /\
    (forall row, row_ok row -> f = true \/ ps <> [] -> sat_opt row o = all_any f row ps) /\ (ps <> [] -> is_Some o)).
Proof.
  intros Hps. eapply returns_mono; [apply (ConjDisj_ret cx Hid oo Hflag); by intros x [? _]%Hps|]. cbn beta.
  intros [x|] Ho.
  - destruct Ho as [Hne [Hok Hu _ Hs]]. split_and!; [|by intros; apply Hs|done]. intros y [= <-]. split; [done|].
    unfold on_column. by rewrite Hu, (parts_column i).
  - subst ps. split_and!; [done| |done]. by intros row _ [-> |?].
Qed.

Lemma Pcnstr_conj i u l : cn_ok (Conjunction u l) ->
  (forall c, c ∈ l -> returns (Pcnstr cx c (LookupColRef cx i)) (part_on i c)) ->
  returns (Pcnstr cx (Conjunction u l) (LookupColRef cx i)) (part_on i (Conjunction u l)).
Proof.
  intros Hok IH. apply (cn_ok_junction cx true) in Hok as (Hne & Hul & Hl). cbn [Pcnstr]. unfold PhmFind. rewrite Hid.
  destruct (bool_decide (i ∈ u)) eqn:Ei.
  2: { apply returns_ret, part_none, not_on_column. by apply bool_decide_eq_false in Ei. }
  eapply returns_bind; [by apply conj_parts_ret; auto|]. intros ps (H1 & H2 & H3).
  eapply returns_mono; [by apply made_of_parts|]. cbn beta. intros o (H4 & H5 & _). split; [done| |].
  - intros row Hrow Hs. rewrite H5 by auto. by apply H2.
  - intros Hon row Hrow.
    assert (forall c, c ∈ l -> on_column i c) as Hch.
    { intros c Hc. apply (child_column cx l); [by rewrite <- Hul|done|by apply Hl]. }
    rewrite H5, H3 by auto. rewrite filter_every; [done|]. intros c Hc. rewrite (Hch c Hc). set_solver.
Qed.

Lemma Pcnstr_disj i u l : cn_ok (Disjunction u l) ->
  (forall c, c ∈ l -> returns (Pcnstr cx c (LookupColRef cx i)) (part_on i c)) ->
  returns (Pcnstr cx (Disjunction u l) (LookupColRef cx i)) (part_on i (Disjunction u l)).
Proof.
  intros Hok IH. pose proof (used_usable _ i Hok) as Hu. cbn in Hu.
  apply (cn_ok_junction cx false) in Hok as (Hne & Hul & Hl). cbn [Pcnstr]. unfold PhmFind. rewrite Hid.
  destruct (bool_decide (i ∈ u)) eqn:Ei.
  2: { apply returns_ret, part_none, not_on_column. by apply bool_decide_eq_false in Ei. }
  apply bool_decide_eq_true in Ei. specialize (Hu Ei).
  assert (on_column i (Disjunction u l) -> forall c, c ∈ l -> on_column i c) as Hch.
  { intros Hon c Hc. apply (child_column cx l); [by rewrite <- Hul|done|by apply Hl]. }
  destruct (length _ =? length l) eqn:El; cbn [negb].
  - eapply returns_bind; [apply disj_parts_ret; [done|set_solver|auto]|]. intros [x|ps].
    + intros (H1 & H2 & H3 & H4). apply returns_ret. split; [by intros y [= <-]|by intros; apply H3|].
      intros Hon row Hrow. cbn [sat_opt sat]. rewrite H3 by done. symmetry. apply (H4 (Hch Hon) row Hrow).
    + cbn [app]. intros (H1 & H2 & H3 & H4). assert (ps <> []) as Hps by (intros ->; by destruct l).
      eapply returns_mono; [by apply made_of_parts|]. cbn beta. intros o (H5 & H6 & _). split; [done| |].
      * intros row Hrow Hsat. rewrite H6 by auto. by apply H3.
      * intros Hon row Hrow. rewrite H6 by auto. apply (H4 (Hch Hon) row Hrow).
  - destruct (unbounded_ret i Hu) as (? & -> & p & -> & Hp1 & Hp2 & Hp3). rewrite bind_ret. apply returns_ret. cbn.
    split; [by intros y [= <-]|by intros; apply Hp3|].
    intros Hon. exfalso. apply Nat.eqb_neq in El. apply El. unfold PdrgpcnstrOnColumn. f_equal. apply filter_every.
    intros c Hc. rewrite (Hch Hon c Hc). set_solver.
Qed.

Lemma Pcnstr_ret c i : cn_ok c -> returns (Pcnstr cx c (LookupColRef cx i)) (part_on i c).
Proof.
  intros Hok. induction Hok as [p Hp Hu Hi Ht|u l Hne Hul Hl IH|u l Hne Hul Hl IH|c0 Hc IH Hor].
  - cbn. apply returns_ret. unfold same_col. rewrite Hid. destruct (N.eqb_spec (m_id (m_pcr p)) i) as [Hpi|Hpi].
    + split; [|done|done]. intros x [= <-]. split; [by constructor|by apply interval_on].
    + apply part_none. by rewrite interval_on.
  - apply Pcnstr_conj; [by constructor|done].
  - apply Pcnstr_disj; [by constructor|done].
  - cbn [Pcnstr]. rewrite Hid. destruct (_ || _) eqn:Eb.
    + apply returns_ret, part_none. intros Hon. apply orb_true_iff in Eb as [Eb|Eb]; apply negb_true_iff in Eb.
      * apply bool_decide_eq_false in Eb. by apply (not_on_column i c0).
      * apply Nat.eqb_neq in Eb. by apply Eb, (on_column_size i c0).
    + apply orb_false_iff in Eb as [E1 E2]. rewrite negb_false_iff in E1, E2. apply bool_decide_eq_true in E1.
      apply Nat.eqb_eq in E2. destruct Hor as [Hor|Hor]; [|lia]. destruct c0 as [p| | |]; try done. cbn in E1.
      apply elem_of_singleton in E1. cbn. unfold same_col. rewrite Hid, <- E1, N.eqb_refl. cbn. apply returns_ret.
      split; [|done|done]. intros x [= <-]. split; [apply ok_neg; [done|by left]|by apply interval_on].
Qed.

(** ** The part on a set of columns *)

(** The columns of the set that can be constrained can be used. *)
Definition all_usable (pcrs : gset N) : Prop :=
  forall i, i ∈ pcrs -> FConstrainableType tflags (RetrieveType (LookupColRef cx i)) = true -> usable cx (LookupColRef cx i).

Record part_in (pcrs : gset N) (c x : CConstraint D) : Prop := {
  pi_ok : cn_ok x;
  pi_pure : pure x = true;
  pi_used : PcrsUsed x ⊆ pcrs;
  pi_sound : forall row, row_ok row -> sat row c = true -> sat row x = true;
}.

Lemma unbounded_on_ret pcrs c : all_usable pcrs ->
  returns (unbounded_on cx pcrs) (fun o => (forall x, o = Some x -> part_in pcrs c x) /\
    ((exists i, i ∈ pcrs /\ usable cx (LookupColRef cx i)) -> is_Some o)).
Proof.
  intros Hall. unfold unbounded_on. setoid_rewrite <- (elem_of_bits pcrs).
  assert (forall i, i ∈ bits pcrs -> i ∈ pcrs) as Hb by (intros i; apply elem_of_bits).
  induction (bits pcrs) as [|i l IH]; cbn.
  { apply returns_ret. split; [done|]. intros (i & Hi & _). set_solver. }
  destruct (FConstrainableType tflags (RetrieveType (LookupColRef cx i))) eqn:Ec.
  - destruct (unbounded_ret i) as (? & -> & p & -> & H1 & H2 & H3); [apply Hall; [apply Hb; set_solver|done]|].
    cbn. apply returns_ret. split; [|done]. intros x [= <-]. split; [done|done| |auto]. rewrite H2.
    intros j ->%elem_of_singleton. apply Hb. set_solver.
  - unfold PciUnbounded at 1. rewrite Ec. cbn. eapply returns_mono; [apply IH; set_solver|]. cbn beta.
    intros o [H1 H2]. split; [done|]. intros (j & [->|Hj]%elem_of_cons & Hu); [|apply H2; eauto].
    destruct Hu as [Hu _ _ _]. congruence.
Qed.

Lemma meets_usable c pcrs : cn_ok c -> ~ PcrsUsed c ## pcrs -> exists i, i ∈ pcrs /\ usable cx (LookupColRef cx i).
Proof.
  intros Hok Hm. destruct (set_choose_or_empty (PcrsUsed c ∩ pcrs)) as [[i Hi]|He]; [|destruct Hm; set_solver].
  apply elem_of_intersection in Hi as [H1 H2]. exists i. split; [done|]. by apply used_usable with c.
Qed.

Definition part_in_opt (pcrs : gset N) c (o : option (CConstraint D)) : Prop := forall x, o = Some x -> part_in pcrs c x.

Lemma conj_set_parts_ret pcrs (part : CConstraint D -> outcome (option (CConstraint D))) l :
  (forall c, c ∈ l -> returns (part c) (part_in_opt pcrs c)) ->
  returns (conj_set_parts part pcrs l) (fun ps => forall x, x ∈ ps -> exists c, c ∈ l /\ part_in pcrs c x).
Proof.
  induction l as [|c l IH]; intros Hl; cbn [conj_set_parts]; [apply returns_ret; set_solver|].
  destruct IH as (ps & E & Hps); [set_solver|].
  assert (forall x, x ∈ ps -> exists d, d ∈ c :: l /\ part_in pcrs d x) as Hps'.
  { intros x (d & Hd & Hx)%Hps. exists d. set_solver. }
  destruct (bool_decide _); [by exists ps|]. destruct (Hl c) as (o & -> & Ho); [set_solver|]. rewrite bind_ret, E, bind_ret.
  apply returns_ret. destruct o as [y|]; [|done]. intros x [->|Hx]%elem_of_cons; [|by apply Hps'].
  exists c. split; [set_solver|]. by apply Ho.
Qed.

Lemma disj_set_parts_ret pcrs (part : CConstraint D -> outcome (option (CConstraint D))) l0 l : forall acc,
  all_usable pcrs -> (forall c, c ∈ l -> cn_ok c /\ returns (part c) (part_in_opt pcrs c)) ->
  returns (disj_set_parts cx part pcrs l acc) (fun r =>
    match r with
    | inl o => part_in_opt pcrs (Disjunction ∅ l0) o
    | inr ps => exists qs, ps = acc ++ qs /\ Forall2 (part_in pcrs) l qs
    end).
Proof.
  induction l as [|c l IH]; intros acc Hall Hl; cbn [disj_set_parts].
  { apply returns_ret. exists []. by rewrite app_nil_r. }
  destruct (bool_decide _) eqn:Em.
  { destruct (unbounded_on_ret pcrs (Disjunction ∅ l0) Hall) as (o & -> & Ho & _). by apply returns_ret. }
  apply bool_decide_eq_false in Em. destruct (Hl c) as [Hok (o & -> & Ho)]; [set_solver|]. rewrite bind_ret.
  eapply returns_bind with (P := fun o => exists x, o = Some x /\ part_in pcrs c x).
  { destruct o as [x|]; [apply returns_ret; exists x; split; [done|by apply Ho]|].
    eapply returns_mono; [by apply (unbounded_on_ret pcrs c)|]. cbn beta. intros o [H1 H2].
    destruct H2 as [x ->]; [by eapply meets_usable|]. eauto. }
  intros ? (x & -> & Hx). cbn. eapply returns_mono; [apply (IH (acc ++ [x])); [done|set_solver]|]. cbn beta.
  intros [y|ps]; [done|]. intros (qs & -> & Hqs). exists (x :: qs). rewrite <- app_assoc. split; [done|by constructor].
Qed.

Lemma used_by_sub l (pcrs : gset N) : (forall x, x ∈ l -> PcrsUsed x ⊆ pcrs) -> used_by l ⊆ pcrs.
Proof. intros Hl i (x & Hx & Hi)%elem_of_used_by. by apply (Hl x). Qed.

Lemma pure_all l : (forall c, c ∈ l -> pure c = true) -> forallb pure l = true.
Proof. intros Hl. apply forallb_forall. intros x Hx. by apply Hl, list_elem_of_In. Qed.

(** The part of a tree without nested negations *)
Lemma PcnstrSet_ret pcrs c : all_usable pcrs -> cn_ok c -> pure c = true ->
  returns (PcnstrSet cx c pcrs) (part_in_opt pcrs c).
Proof.
  intros Hall Hok. induction Hok as [p Hp Hu Hi Ht|u l Hne Hul Hl IH|u l Hne Hul Hl IH|c0 Hc IH Hor]; intros Hpure; cbn [PcnstrSet].
  - apply returns_ret. destruct (bool_decide _) eqn:Ei; [|done]. apply bool_decide_eq_true in Ei. intros x [= <-].
    split; [by constructor|done|cbn; set_solver|done].
  - cbn in Hpure. rewrite forallb_forall in Hpure. setoid_rewrite <- list_elem_of_In in Hpure.
    eapply returns_bind; [apply conj_set_parts_ret; auto|]. intros ps Hps.
    eapply returns_mono; [apply (ConjDisj_ret cx Hid oo Hflag); intros x (c & _ & Hx)%Hps; apply Hx|]. cbn beta.
    intros o Ho x ->. destruct Ho as [_ [H1 H2 H3 H4]]. split.
    + done.
    + apply H3, pure_all. intros y (c & _ & Hy)%Hps. apply Hy.
    + rewrite H2. apply used_by_sub. intros y (c & _ & Hy)%Hps. apply Hy.
    + intros row Hrow Hs. rewrite H4 by done. cbn in Hs. rewrite forallb_forall in Hs. apply forallb_forall.
      intros y (c & Hcl & Hy)%list_elem_of_In%Hps. apply (pi_sound _ _ _ Hy row Hrow). by apply Hs, list_elem_of_In.
  - cbn in Hpure. rewrite forallb_forall in Hpure. setoid_rewrite <- list_elem_of_In in Hpure.
    eapply returns_bind; [apply (disj_set_parts_ret pcrs _ l); auto|]. intros [o|ps].
    + intros Ho. apply returns_ret. intros x Hx. destruct (Ho x Hx) as [H1 H2 H3 H4]. by split.
    + cbn [app]. intros (qs & -> & Hqs).
      assert (forall y, y ∈ qs -> exists c, part_in pcrs c y) as Hy.
      { intros y (j & Hj)%list_elem_of_lookup. destruct (Forall2_lookup_r _ _ _ _ _ Hqs Hj) as (c & _ & Hcy). eauto. }
      eapply returns_mono; [apply (ConjDisj_ret cx Hid oo Hflag); intros x (c & Hx)%Hy; apply Hx|]. cbn beta.
      intros o Ho x ->. destruct Ho as [_ [H1 H2 H3 H4]]. split.
      * done.
      * apply H3, pure_all. intros y (c & Hc)%Hy. apply Hc.
      * rewrite H2. apply used_by_sub. intros y (c & Hc)%Hy. apply Hc.
      * intros row Hrow Hs. rewrite H4 by done. cbn in Hs. apply existsb_exists in Hs as (c & Hcl%list_elem_of_In & Hs).
        apply list_elem_of_lookup in Hcl as [j Hj]. destruct (Forall2_lookup_l _ _ _ _ _ Hqs Hj) as (y & Hyj & Hcy).
        apply existsb_exists. exists y. split; [by eapply list_elem_of_In, list_elem_of_lookup_2|].
        by apply (pi_sound _ _ _ Hcy).
  - destruct c0 as [p| | |]; try done. destruct (negb _) eqn:Ee; [by apply returns_ret|].
    apply negb_false_iff, bool_decide_eq_true in Ee. cbn in *. rewrite bool_decide_eq_true_2 by set_solver. cbn.
    apply returns_ret. intros x [= <-]. split; [by constructor|done|cbn; set_solver|done].
Qed.

(** ** Containment *)

Lemma interval_from_ret o i : usable cx (LookupColRef cx i) -> (forall x, o = Some x -> cn_ok x /\ on_column i x) ->
  returns (PciIntervalFromConstraint cx o (LookupColRef cx i)) (fun q => exists p, q = Some p /\ cn_ok (Interval p) /\
    on_column i (Interval p) /\ forall row, row_ok row -> sat row (Interval p) = sat_opt row o).
Proof.
  intros Hu Ho. destruct o as [c|]; [|by apply unbounded_ret]. destruct (Ho c eq_refl) as [Hok Hon].
  assert ((exists p, c = Interval p) \/ PciIntervalFromConstraint cx (Some c) (LookupColRef cx i) =
    (pexprScalar ← PexprScalar cx c;
     PciIntervalFromScalarExpr (cn_ctxt cx) pexprScalar (LookupColRef cx i) false EmdindSentinel)) as [[p ->]| ->].
  { destruct c; [by left; eauto|right..]; cbn [PciIntervalFromConstraint];
      rewrite bind_assert by (by rewrite Hon, size_singleton); rewrite Hon, first_column, bind_ret, Hid;
      by rewrite bind_assert by (by apply bool_decide_eq_true). }
  { apply returns_ret. eauto. }
  destruct (scalar_exact cx oo c Hok) as (e & E & He); [by eapply column_pure|].
  assert (column_predicate cx i e) as Hp by (by eapply scalar_column). rewrite E, bind_ret.
  eapply returns_mono; [by apply (from_predicate cx Hid oo)|]. cbn beta.
  intros q (p & -> & H1 & H2 & H3). exists p. split_and!; [done..|]. intros row Hrow. rewrite H3 by done. by apply He.
Qed.

Lemma FContains_ret p q i :
  cn_ok (Interval p) -> on_column i (Interval p) -> cn_ok (Interval q) -> on_column i (Interval q) ->
  returns (FContainsInterval p q) (fun b => b = true -> forall row, row_ok row ->
    sat row (Interval q) = true -> sat row (Interval p) = true).
Proof.
  intros Hp Hpi%interval_on Hq Hqi%interval_on. inversion Hp as [? Hcp _ Hip Htp| | |]; subst. inversion Hq as [? Hcq _ Hiq Htq| | |]; subst.
  assert (m_pcr p = m_pcr q) as Epq by (by rewrite Hcp, Hcq, Hqi).
  unfold FContainsInterval. rewrite bind_assert by (unfold same_col; rewrite Hqi; apply N.eqb_refl).
  destruct (ConstraintInterval.IsConstraintUnbounded p) eqn:Eu.
  { apply returns_ret. intros _ row _ _. by apply unbounded_interval. }
  destruct (_ || _); [by apply returns_ret|].
  destruct (PciDifference_denotes q p (m_pcr q) (in_interval q) (in_interval p)) as (u & E & Hu & Hok & _ & Hv).
  { by apply denotes_self. }
  { split_and!; [done| |done]. unfold same_col. rewrite Epq. apply N.eqb_refl. }
  assert (typed u) as Htu.
  { apply typed_ends. rewrite Hu. apply (PciDifference_ends _ q p); [by apply typed_ends|rewrite <- Epq; by apply typed_ends|done]. }
  rewrite E. apply returns_ret. intros Hc row Hrow Hs. cbn in Hs |- *.
  assert (in_interval u (row (m_id (m_pcr q))) = false) as Hf.
  { apply FContradiction_sound; [done..|]. rewrite Hu. by apply (row_value cx). }
  rewrite Hv, Hs in Hf. cbn in Hf. apply negb_false_iff in Hf. by rewrite Epq.
Qed.

(** Intervals and their negations, and conjunctions of them *)
Definition literal c : bool :=
  match c with Interval _ => true | Negation c => match c with Interval _ => true | _ => false end | _ => false end.
Definition literals c : list (CConstraint D) := match c with Conjunction _ l => l | _ => [c] end.
Definition conjunctive c : bool := forallb (fun c => literal c && negb (CnUnbounded c)) (literals c).

Lemma literal_column c : literal c = true -> exists i, on_column i c.
Proof. destruct c as [p| | |c]; try done; [|destruct c as [p| | |]; try done]; intros _; exists (m_id (m_pcr p)); done. Qed.

Lemma literal_part c i : literal c = true -> i ∈ PcrsUsed c -> Pcnstr cx c (LookupColRef cx i) = Ret (Some c).
Proof.
  destruct c as [p| | |c]; try done; [|destruct c as [p| | |]; try done]; cbn; intros _ Hi; apply elem_of_singleton in Hi; subst i.
  - unfold same_col. by rewrite Hid, N.eqb_refl.
  - rewrite Hid, bool_decide_eq_true_2, size_singleton by set_solver. cbn. unfold same_col. by rewrite Hid, N.eqb_refl.
Qed.

Lemma conj_parts_literals i l : forallb (fun c => literal c && negb (CnUnbounded c)) l = true ->
  conj_parts (fun c => Pcnstr cx c (LookupColRef cx i)) i l = Ret (filter (fun c => i ∈ PcrsUsed c) l).
Proof.
  induction l as [|c l IH]; [done|]. cbn [forallb conj_parts]. rewrite !andb_true_iff, filter_cons. intros [[Hl Hn] Hall].
  destruct (decide (i ∈ PcrsUsed c)) as [Hi|Hi].
  - rewrite bool_decide_eq_true_2, literal_part, bind_ret, (IH Hall) by done. cbn. apply negb_true_iff in Hn. by rewrite Hn.
  - rewrite bool_decide_eq_false_2 by done. by apply IH.
Qed.

Lemma literals_sat c row : sat row c = all_any true row (literals c).
Proof. destruct c; cbn; by rewrite ?andb_true_r. Qed.

Lemma literals_used c : cn_ok c -> PcrsUsed c = used_by (literals c) /\ literals c <> [] /\ forall x, x ∈ literals c -> cn_ok x.
Proof.
  intros Hok. destruct c as [p|u l|u l|c]; cbn [literals].
  2: { by apply (cn_ok_junction cx true) in Hok as (? & ? & ?). }
  all: (split_and!; [by rewrite used_by_one|done|]); by intros x ->%list_elem_of_singleton.
Qed.

(** The part of a conjunction of literals on one of its columns *)
Lemma conjunctive_part c i : cn_ok c -> conjunctive c = true -> i ∈ PcrsUsed c ->
  returns (Pcnstr cx c (LookupColRef cx i)) (fun o => exists x, o = Some x /\ cn_ok x /\ on_column i x /\
    forall row, row_ok row -> sat row x = all_any true row (filter (fun c => i ∈ PcrsUsed c) (literals c))).
Proof.
  intros Hok Hc Hi. pose proof (literals_used c Hok) as (Hu & _ & Hl). unfold conjunctive in Hc.
  assert (forall x, x ∈ filter (fun c => i ∈ PcrsUsed c) (literals c) -> cn_ok x /\ on_column i x) as Hf.
  { intros x [Hxi Hx]%list_elem_of_filter. split; [by apply Hl|]. rewrite forallb_forall in Hc.
    specialize (Hc x ltac:(by apply list_elem_of_In)). apply andb_true_iff in Hc as [[j Hj]%literal_column _].
    assert (i = j) as -> by (rewrite Hj in Hxi; set_solver). done. }
  assert ((exists u l, c = Conjunction u l) \/ literals c = [c]) as [(u & l & ->)|El] by (destruct c; eauto).
  - cbn [Pcnstr literals] in *. unfold PhmFind. rewrite Hid, bool_decide_eq_true_2 by done.
    rewrite (conj_parts_literals i l Hc), bind_ret. eapply returns_mono; [by apply made_of_parts|]. cbn beta.
    intros o (H1 & H2 & H3). destruct H3 as [x ->].
    { cbn in Hi, Hu. rewrite Hu in Hi. apply elem_of_used_by in Hi as (x & Hx & Hxi). intros E.
      apply (not_elem_of_nil x). rewrite <- E. by apply list_elem_of_filter. }
    exists x. destruct (H1 x eq_refl). split_and!; [done..|]. intros row Hrow. apply (H2 row Hrow). by left.
  - rewrite El in *. cbn in Hc. rewrite !andb_true_iff in Hc. rewrite literal_part by tauto. apply returns_ret. exists c.
    rewrite filter_cons, decide_True, filter_nil in * by done. destruct (Hf c) as [_ Hon]; [set_solver|].
    split_and!; [done..|]. intros row _. cbn. by rewrite andb_true_r.
Qed.

Lemma contains_on_ret c o i : cn_ok c -> conjunctive c = true -> i ∈ PcrsUsed c -> cn_ok o ->
  returns (contains_on cx c o i) (fun b => b = true -> forall row, row_ok row -> sat row o = true ->
    all_any true row (filter (fun c => i ∈ PcrsUsed c) (literals c)) = true).
Proof.
  intros Hok Hc Hi Hoko. unfold contains_on. cbn zeta. pose proof (used_usable c i Hok Hi) as Hu.
  destruct (conjunctive_part c i Hok Hc Hi) as (? & -> & x & -> & Hx & Hxi & Hxs). rewrite bind_ret, bind_assert by done.
  destruct (Pcnstr_ret o i Hoko) as (y & -> & [Hy1 Hy2 _]). rewrite bind_ret.
  destruct (interval_from_ret (Some x) i Hu) as (? & -> & p & -> & Hp & Hpi & Hps); [by intros ? [= <-]|].
  destruct (interval_from_ret y i Hu Hy1) as (? & -> & q & -> & Hq & Hqi & Hqs). rewrite !bind_ret. cbn [deref].
  rewrite !bind_ret. eapply returns_mono; [by apply (FContains_ret p q i)|]. cbn beta.
  intros b Hb Ht row Hrow Hs. rewrite <- Hxs by done. change (sat row x) with (sat_opt row (Some x)).
  rewrite <- Hps by done. apply Hb; [done..|]. rewrite Hqs by done. by apply Hy2.
Qed.

(** A conjunction of literals that contains a constraint is implied by it. *)
Lemma Contains_ret c o : cn_ok c -> conjunctive c = true -> cn_ok o ->
  returns (Contains cx c (Some o)) (fun b => b = true -> forall row, row_ok row -> sat row o = true -> sat row c = true).
Proof.
  intros Hok Hc Hoko. unfold Contains. destruct (CnUnbounded c) eqn:Eu.
  { apply returns_ret. intros _ row Hrow _. by apply (contradiction_unbounded cx). }
  destruct (CnUnbounded o); [by apply returns_ret|].
  assert (forall js, (forall i, i ∈ js -> i ∈ PcrsUsed c) ->
    returns (contains_loop cx c o js) (fun b => b = true -> forall row i, row_ok row -> sat row o = true -> i ∈ js ->
      all_any true row (filter (fun c => i ∈ PcrsUsed c) (literals c)) = true)) as Hloop.
  { induction js as [|i js IH]; intros Hjs; cbn [contains_loop]; [apply returns_ret; set_solver|].
    destruct (contains_on_ret c o i) as (b & -> & Hb); [done|done|apply Hjs; set_solver|done|]. rewrite bind_ret.
    destruct b; [|by apply returns_ret]. eapply returns_mono; [apply IH; set_solver|]. cbn beta.
    intros b' Hb' Ht row j Hrow Hs [->|Hj]%elem_of_cons; [by apply Hb|by apply (Hb' Ht)]. }
  eapply returns_mono; [apply Hloop; intros i; apply elem_of_bits|]. cbn beta. intros b Hb Ht row Hrow Hs.
  rewrite literals_sat. apply forallb_forall. intros x Hx%list_elem_of_In.
  destruct (literals_used c Hok) as (Hu & _ & Hl). destruct (set_choose_L (PcrsUsed x)) as [i Hi]; [by apply (cn_ok_used cx), Hl|].
  assert (i ∈ PcrsUsed c) as Hic by (rewrite Hu; apply elem_of_used_by; by exists x).
  specialize (Hb Ht row i Hrow Hs ltac:(by apply elem_of_bits)). unfold all_any in Hb. cbn in Hb. rewrite forallb_forall in Hb.
  apply Hb, list_elem_of_In, list_elem_of_filter. done.
Qed.

End Project.
End ConstraintProject.
