(* ===== verification/ConstraintDerive.v ===== *)
(** * Constraints of predicates

    [PcnstrFromScalarExpr] makes a constraint of a predicate and collects the
    columns it makes equal. Every row in which the predicate is true satisfies the
    constraint, so partitions and scans pruned by it lose no row, and two columns
    of one equivalence class have equal values in such a row. *)
From stdpp Require Import base numbers list gmap sets sorting relations.
From S2P Require Import Prelude Range ConstraintInterval ScalarExpr ScalarInterval IntervalEnds EquivClasses Constraint ConstraintSem ConstraintProject.

Module ConstraintDerive.
Import Range ConstraintInterval ScalarExpr ScalarInterval IntervalEnds EquivClasses Constraint ConstraintSem ConstraintProject.
Open Scope nat_scope.
Open Scope outcome_scope.

Section Derive.
Context {D : Type} `{CL : ComparatorLaws D} `{ID : IDatum D} `{DL : !DatumLaws D}.
Context (cx : CnCtxt D) (oo : OtherOps D).
Hypothesis Hid : forall i, m_id (LookupColRef cx i) = i.
Hypothesis Hflag : EopttraceConsiderOpfamiliesForDistribution (flags (cn_ctxt cx)) = false.
Implicit Types (p : CConstraintInterval D) (c : CConstraint D) (l : list (CConstraint D)) (row : N -> option D)
  (e : CExpression D) (es : list (CExpression D)) (L : CColRefSetArray).
Abbreviation cn_ok := (cn_ok cx).
Abbreviation row_ok := (row_ok cx).
Abbreviation tflags := (flags (cn_ctxt cx)).
Abbreviation bctx := (cn_ctxt cx).
Abbreviation col := (LookupColRef cx).

(** The columns of a predicate *)
Definition columns e : gset N := list_to_set (used_columns e).
Definition columns_of es : gset N := list_to_set (concat (map used_columns es)).

(** The values of two columns are equal. *)
Definition equal_values row (x y : N) : Prop :=
  x = y \/ exists a b, row x = Some a /\ row y = Some b /\ Equals a b = true.

Lemma equal_values_trans row x y z : equal_values row x y -> equal_values row y z -> equal_values row x z.
Proof.
  intros [->|(a & b & Hx & Hy & Hab)]; [done|]. intros [<-|(b' & d & Hy' & Hz & Hbd)]; right; [by exists a, b|].
  rewrite Hy in Hy'. injection Hy' as <-. exists a, d. split_and!; [done..|].
  rewrite eq_spec, andb_true_iff, !negb_true_iff in *. destruct Hab as [H1 H2], Hbd as [H3 H4]. split.
  - destruct (IsLessThan a d) eqn:E; [|done]. destruct (lt_cotrans a b d E); congruence.
  - destruct (IsLessThan d a) eqn:E; [|done]. destruct (lt_cotrans d b a E); congruence.
Qed.

(** Columns that cannot be NULL, for the derivation that takes unknown for true *)
Definition nulls_ok (infer : bool) row : Prop := infer = true -> forall i, IsNullableTableCol cx i = false -> row i <> None.

(** ** What a derivation promises *)

Record sound_for (infer : bool) (e : CExpression D) (r : option (CConstraint D) * option CColRefSetArray) : Prop := {
  sd_ok : forall c, r.1 = Some c -> cn_ok c /\ is_Some r.2;
  sd_sound : forall row, row_ok row -> nulls_ok infer row -> holds infer (eval_bool oo row e) = true -> sat_opt row r.1 = true;
  sd_disjoint : forall L, r.2 = Some L -> disjoint_classes L;
  sd_equal : forall L, r.2 = Some L -> forall row, row_ok row -> nulls_ok infer row ->
    holds infer (eval_bool oo row e) = true -> forall x y, same L x y -> equal_values row x y;
}.

Record exact_for (infer : bool) (e : CExpression D) (r : option (CConstraint D) * option CColRefSetArray) : Prop := {
  xt_some : exists c L, r = (Some c, Some L) /\ cn_ok c /\ CnUnbounded c = false /\ PcrsUsed c = columns e /\
    disjoint_classes L /\ forall row, row_ok row -> sat row c = holds infer (eval_bool oo row e);
}.

Lemma sound_none infer e : sound_for infer e (None, None).
Proof. by split. Qed.

(** ** Predicates on one column *)

Lemma one_class_same (s : gset N) x y : same [s] x y -> x ∈ s /\ y ∈ s.
Proof. intros (t & ->%list_elem_of_singleton & ? & ?). done. Qed.

Lemma column_interval i p : m_pcr p = col i -> usable cx (col i) -> interval_ok p -> ends_of (value_of (col i)) p ->
  cn_ok (Interval p) /\ on_column i (Interval p).
Proof.
  intros Hc Hu Hi He. split; [|unfold on_column; cbn; by rewrite Hc, Hid].
  constructor; [by rewrite Hc, Hid|by rewrite Hc|done|]. apply typed_ends. by rewrite Hc.
Qed.

(** A constraint on one column and its class *)
Lemma one_column_sound infer e c i :
  cn_ok c -> (forall row, row_ok row -> holds infer (eval_bool oo row e) = true -> sat row c = true) ->
  sound_for infer e (Some c, Some (AddColumnToEquivClasses i [])).
Proof.
  intros Hok Hs. split; cbn.
  - intros x [= <-]. by split.
  - intros row Hrow _. by apply Hs.
  - intros L [= <-]. repeat constructor.
  - intros L [= <-] row _ _ _ x y [Hx Hy]%one_class_same. left. set_solver.
Qed.

(** What the derivation needs of a predicate on the column *)
Record column_ok (i : N) (e : CExpression D) : Prop := {
  co_used : columns e = {[i]};
  co_approx : approximable bctx (col i) e;
  co_constants : constants_ok (value_of (col i)) e;
  co_usable : FConstrainableType tflags (RetrieveType (col i)) = true -> usable cx (col i);
}.

Lemma array_cmp_interval e i infer am :
  approximable bctx (col i) e -> PciIntervalFromScalarExpr bctx e (col i) infer am = Ret None ->
  FConstrainableType tflags (RetrieveType (col i)) = true -> forall t k x a, e <> CScalarArrayCmp t k x a.
Proof.
  intros Ha E Hc t k x a ->. inversion Ha as [? Hs| | | |]; subst.
  destruct (derive_exact bctx oo (col i) Hc _ Hs infer am) as (p & E' & _). congruence.
Qed.

Lemma one_column_ret i e infer am : column_ok i e ->
  returns (one_column cx e i infer am) (sound_for infer e).
Proof.
  intros [Hu Ha Hk Hus]. unfold one_column. cbn zeta. destruct (FConstrainableType _ _) eqn:Hc; cbn [negb].
  2: { apply returns_ret, sound_none. }
  destruct (derive_covers bctx oo (col i) Hc e Ha infer am) as (o & E & Ho). rewrite E, bind_ret.
  pose proof (derive_ends (value_of (col i)) (value_of_bool _) bctx (col i) e Hk infer am _ E) as He.
  destruct o as [p|].
  - rewrite bind_mret. apply returns_ret. destruct Ho as (Hpc & Hpi & Hv).
    destruct (column_interval i p) as [Hok Hon]; [done|by apply Hus|done|by apply He|]. apply one_column_sound; [done|].
    intros row Hrow Hh. cbn. rewrite Hpc. apply Hv; [|done]. rewrite Hid. apply Hrow.
  - pose proof (array_cmp_interval e i infer am Ha E Hc) as Hn.
    destruct e as [| | | | | | | | | |t k x a|]; try (apply returns_ret, sound_none). by destruct (Hn t k x a).
Qed.

(** Array comparisons that are no interval: they become a disjunction or a
    conjunction of comparisons with the constants. *)
Record array_ok (i : N) (t : EArrCmpType) (k : ECmpType) (x a : CExpression D) : Prop := {
  ar_flag : EopttraceArrayConstraints tflags = false;
  ar_form : FCompareIdentToConstArray (CScalarArrayCmp t k x a) || FCompareCastIdentToConstArray (CScalarArrayCmp t k x a) = true;
  ar_col : ident_of x = Some (col i);
  ar_cmp : k <> EcmptOther /\ k <> EcmptIDF;
  ar_consts : Forall (value_of (col i)) (array_consts (PexprScalarArrayChild a));
  ar_constr : FConstrainableType tflags (RetrieveType (col i)) = true -> usable cx (col i);
}.

Lemma array_sides i t k x a : array_ok i t k x a ->
  FScalarConstArray (PexprScalarArrayChild a) = true /\ FScalarIdent x || FBinaryCoercibleCastedScId x = true.
Proof.
  intros Ha. pose proof (ar_form _ _ _ _ _ Ha) as Hf. unfold FCompareIdentToConstArray, FCompareCastIdentToConstArray in Hf.
  rewrite orb_true_iff, !andb_true_iff in Hf. rewrite orb_true_iff. tauto.
Qed.

Lemma array_used i t k x a : array_ok i t k x a -> forall j, j ∈ used_columns (CScalarArrayCmp t k x a) -> j = i.
Proof.
  intros Ha j. destruct (array_sides _ _ _ _ _ Ha) as [Hca Hx]. cbn. rewrite elem_of_app. intros [Hj|Hj].
  - pose proof (ar_col _ _ _ _ _ Ha) as Hi.
    destruct x as [| |? []| | | | | | | | |]; cbn in *; try done; injection Hi as ->; rewrite Hid in Hj; set_solver.
  - assert (forall es, forallb FScalarConst es = true -> j ∉ concat (map used_columns es)) as Hes.
    { clear. induction es as [|e es IH]; cbn; [set_solver|]. rewrite andb_true_iff. intros [He Hes].
      destruct e; try done. by apply IH. }
    destruct a; try done; cbn in *; [by destruct (Hes es)|]. destruct a; try done. by destruct (Hes es).
Qed.

Lemma array_interval_none i t k x a infer am : array_ok i t k x a ->
  FConstrainableType tflags (RetrieveType (col i)) = true ->
  PciIntervalFromScalarExpr bctx (CScalarArrayCmp t k x a) (col i) infer am = Ret None.
Proof.
  intros Ha Hc. cbn [PciIntervalFromScalarExpr]. rewrite (used_assert bctx (col i) Hc).
  - by rewrite (ar_flag _ _ _ _ _ Ha).
  - intros j Hj. rewrite Hid. by apply (array_used i t k x a).
Qed.

(** The comparisons with the constants *)
Lemma array_children i k infer ds : k <> EcmptOther /\ k <> EcmptIDF -> usable cx (col i) -> Forall (value_of (col i)) ds ->
  returns (mapM (fun d => Interval <$> deref (PciIntervalFromColConstCmp (col i) k d infer)) ds) (fun cs =>
    Forall2 (fun d c => cn_ok c /\ forall row, row_ok row ->
      sat row c = holds infer (cmp3 oo k (row i) (datum_of_const d))) ds cs).
Proof.
  intros [Hk1 Hk2] Hu Hds. apply mapM_ret. intros d Hd. rewrite Forall_forall in Hds. destruct (Hds d Hd) as [Hn Hb].
  destruct (ColConstCmp_exact oo (col i) k d infer Hk1 Hk2) as (p & E & Hc & Hi & Hv). rewrite E. apply returns_ret.
  destruct (column_interval i p) as [Hok _]; [done|done|done| |].
  { unfold PciIntervalFromColConstCmp in E. destruct (PciRangeFromColConstCmp k d) as [rs|] eqn:Ers; [|done].
    injection E as <-. by eapply RangeFromCmp_ends; [|exact Ers]. }
  split; [done|]. intros row Hrow. cbn. rewrite Hc, Hv by (rewrite Hid; apply Hrow). rewrite Hid. unfold datum_of_const. by rewrite Hn.
Qed.

Lemma array_children_sat i k infer (f : bool) ds l row :
  Forall2 (fun d c => cn_ok c /\ forall row, row_ok row ->
    sat row c = holds infer (cmp3 oo k (row i) (datum_of_const d))) ds l -> row_ok row ->
  all_any f row l = holds infer (junct3 f (map (fun d => cmp3 oo k (row i) (datum_of_const d)) ds)).
Proof.
  intros Hl Hrow. rewrite holds_junct. induction Hl as [|d c ds l [_ Hc] _ IH]; [by destruct f|].
  destruct f; cbn in *; by rewrite Hc, IH.
Qed.

Lemma array_column_ret i t k x a infer am : array_ok i t k x a ->
  returns (one_column cx (CScalarArrayCmp t k x a) i infer am) (sound_for infer (CScalarArrayCmp t k x a)).
Proof.
  intros Ha. destruct (array_sides _ _ _ _ _ Ha) as [Hca Hx]. unfold one_column. cbn zeta.
  destruct (FConstrainableType _ _) eqn:Hc; cbn [negb]; [|apply returns_ret, sound_none].
  pose proof (ar_constr _ _ _ _ _ Ha Hc) as Hu. rewrite array_interval_none, bind_ret by done.
  unfold PcnstrFromScalarArrayCmp. rewrite (ar_form _ _ _ _ _ Ha), (ar_col _ _ _ _ _ Ha). cbn [deref]. rewrite bind_ret, bind_assert.
  2: { unfold same_col. apply N.eqb_refl. }
  set (ds := array_consts (PexprScalarArrayChild a)). destruct (ar_cmp _ _ _ _ _ Ha) as [Hk1 Hk2].
  assert (forall row, eval_bool oo row (CScalarArrayCmp t k x a) =
    junct3 (match t with EarrcmpAny => false | EarrcmpAll => true end) (map (fun d => cmp3 oo k (row i) (datum_of_const d)) ds)) as Hev.
  { intros row. rewrite eval_array_cmp, (eval_ident_of oo row x (col i)), Hid by (done || apply Ha). by destruct t. }
  assert (forall A (y z : A), match k with EcmptOther => y | _ => z end = z) as Hk by (by destruct k). rewrite Hk. clear Hk. cbn zeta.
  destruct (_ <? _); [apply returns_ret, sound_none|]. destruct (length ds =? 0) eqn:El.
  { apply Nat.eqb_eq, length_zero_iff_nil in El. rewrite El in Hev. rewrite bind_mret. apply returns_ret. destruct t; [|apply sound_none].
    apply one_column_sound; [|intros row _; by rewrite Hev].
    apply (column_interval i); [done|done|apply ranges_ok_nil|constructor]. }
  apply Nat.eqb_neq in El. destruct (array_children i k infer ds) as (cs & E & Hcs); [done|done|apply Ha|]. rewrite E, bind_ret.
  assert (cs <> []) as Hne by (intros ->; apply Forall2_length in Hcs; done).
  assert (forall c, c ∈ cs -> cn_ok c) as Hok.
  { intros c (j & Hj)%list_elem_of_lookup. by destruct (Forall2_lookup_r _ _ _ _ _ Hcs Hj) as (d & _ & ? & _). }
  destruct t; [destruct (junction_ctor_ret cx Hid oo Hflag false cs Hne Hok) as (c & Ec & [S1 _ _ S4])
              |destruct (junction_ctor_ret cx Hid oo Hflag true cs Hne Hok) as (c & Ec & [S1 _ _ S4])];
    rewrite Ec; (apply returns_ret, one_column_sound; [done|]); intros row Hrow;
    rewrite Hev, S4, (array_children_sat i k infer _ ds) by done; done.
Qed.

(** ** Comparisons of columns *)

Record columns_ok (x y : CExpression D) (i j : N) : Prop := {
  cc_left : FScalarIdent x || FBinaryCoercibleCastedScId x = true /\ ident_of x = Some (col i);
  cc_right : FScalarIdent y || FBinaryCoercibleCastedScId y = true /\ ident_of y = Some (col j);
  cc_usable : forall n, n = i \/ n = j -> FConstrainableType tflags (RetrieveType (col n)) = true -> usable cx (col n);
}.

(** The interval of all values, NULL among them or not *)
Lemma all_values_ret i n : usable cx (col i) ->
  returns (PciUnbounded tflags (col i) n) (fun o => exists p, o = Some p /\ cn_ok (Interval p) /\
    forall row, row_ok row -> (n = false -> row i <> None) -> sat row (Interval p) = true).
Proof.
  intros Hu. destruct (PciUnbounded_spec (D := D) tflags (col i) n) as (p & E & Hc & Hi & Hn & Hv); [apply Hu|].
  pose proof (PciUnbounded_ends (value_of (col i)) (value_of_bool _) tflags (col i) n _ E) as He.
  exists (Some p). split; [done|]. exists p. split; [done|]. split; [by apply (column_interval i); [..|apply He]|].
  intros row Hrow Hnn. cbn. rewrite Hc, Hid. specialize (Hrow i). destruct (row i) as [d|]; [by apply Hv|].
  destruct n; [|by destruct Hnn]. destruct p; cbn in *. by subst.
Qed.

Lemma scalar_cmp_ret k x y i j infer : columns_ok x y i j ->
  returns (PcnstrFromScalarCmp cx (CScalarCmp k x y) infer) (sound_for infer (CScalarCmp k x y)).
Proof.
  intros [[Hx Hxi] [Hy Hyj] Hus]. unfold PcnstrFromScalarCmp. rewrite Hx, Hy, Hxi, Hyj. cbn [andb deref]. rewrite !bind_ret. cbn zeta.
  destruct (FConstrainableType tflags (RetrieveType (col i))) eqn:Hci; cbn [negb orb]; [|apply returns_ret, sound_none].
  destruct (FConstrainableType tflags (RetrieveType (col j))) eqn:Hcj; cbn [negb]; [|apply returns_ret, sound_none].
  rewrite Hflag. cbn [andb]. rewrite !Hid.
  set (ni := infer && IsNullableTableCol cx i). set (nj := infer && IsNullableTableCol cx j).
  destruct (all_values_ret i ni) as (? & -> & p & -> & Hp & Hps); [by apply Hus; [left|]|].
  destruct (all_values_ret j nj) as (? & -> & q & -> & Hq & Hqs); [by apply Hus; [right|]|]. rewrite !bind_ret. cbn [deref]. rewrite !bind_ret.
  destruct (ConjDisj_ret cx Hid oo Hflag true [Interval p; Interval q]) as (o & -> & Ho).
  { by intros c [-> | ->%list_elem_of_singleton]%elem_of_cons. }
  rewrite bind_ret. apply returns_ret. destruct o as [c|]; [|done]. destruct Ho as [_ [S1 _ _ S4]].
  assert (forall row, eval_bool oo row (CScalarCmp k x y) = cmp3 oo k (row i) (row j)) as Hev.
  { intros row. unfold eval_bool. cbn [eval]. rewrite truth_of_bool, (eval_ident_of oo row x (col i)), (eval_ident_of oo row y (col j)), !Hid by done. done. }
  assert (forall row n, nulls_ok infer row -> holds infer (cmp3 oo k (row i) (row j)) = true -> n = i \/ n = j ->
    infer && IsNullableTableCol cx n = false -> row n <> None) as Hnn.
  { intros row n Hnu Hh Hn. destruct infer; cbn; [by intros ?; apply Hnu|]. intros _ E.
    destruct Hn as [-> | ->]; rewrite E in Hh; [done|]. by destruct (row i). }
  split; cbn [fst snd].
  - intros c' [= <-]. by split.
  - intros row Hrow Hnu. rewrite Hev. intros Hh. cbn [sat_opt]. rewrite S4 by done. unfold all_any. cbn [every_some forallb].
    rewrite Hps, Hqs; [done|done| |done|].
    + intros Hf. apply (Hnn row); auto.
    + intros Hf. apply (Hnn row); auto.
  - intros L [= <-]. destruct (_ && _ && _); repeat constructor.
  - intros L [= <-] row Hrow Hnu. rewrite Hev. intros Hh z w. destruct (_ && _ && _) eqn:Eq; [|by intros (s & Hs & _); set_solver].
    rewrite !andb_true_iff, !negb_true_iff in Eq. destruct Eq as [[Ek Ei] Ej]. intros [Hz Hw]%one_class_same.
    assert (equal_values row i j) as Hij.
    { right. pose proof (Hnn row i Hnu Hh ltac:(auto) Ei) as Hri. pose proof (Hnn row j Hnu Hh ltac:(auto) Ej) as Hrj.
      destruct (row i) as [u|]; [|done]. destruct (row j) as [v|]; [|done]. exists u, v. split_and!; [done..|].
      destruct k; try done. }
    assert (equal_values row j i) as Hji.
    { destruct Hij as [->|(u & v & H1 & H2 & H3)]; [by left|]. right. exists v, u. split_and!; [done..|].
      rewrite eq_spec in *. by rewrite andb_comm. }
    apply elem_of_union in Hz as [Hz|Hz], Hw as [Hw|Hw]; apply elem_of_singleton in Hz, Hw; subst; [by left|done|done|by left].
Qed.

(** ** Boolean operators *)

Lemma merge_ret op L1 L2 : disjoint_classes L1 -> disjoint_classes L2 ->
  returns (PdrgpcrsMergeFromBoolOp op L1 L2) (fun L => disjoint_classes L /\
    (op = EboolopAnd -> forall row, (forall x y, same L1 x y -> equal_values row x y) ->
       (forall x y, same L2 x y -> equal_values row x y) -> forall x y, same L x y -> equal_values row x y) /\
    (op <> EboolopAnd -> L1 = [] -> L = [])).
Proof.
  intros H1 H2. destruct op; cbn.
  - apply returns_ret. destruct (MergeEquivClasses_spec L1 L2 H1) as [H3 H4]. split_and!; [done| |done].
    intros _ row E1 E2 x y. rewrite H4. apply tc_least; [|intros ? ? ?; apply equal_values_trans]. intros u v [?|?]; auto.
  - eapply returns_mono; [by apply IntersectEquivClasses_ret|]. cbn beta. intros L (H3 & H4 & H5). split_and!; [done|done|].
    intros _ ->. destruct L as [|s L]; [done|]. exfalso. specialize (H4 s). destruct H4 as [H4 _].
    destruct (H4 ltac:(apply elem_of_cons; by left)) as (s1 & s2 & _ & Hs1 & _). by apply not_elem_of_nil in Hs1.
  - apply returns_ret. split_and!; [constructor|done|done].
Qed.

Definition child_sound (infer : bool) (derive : CExpression D -> outcome (option (CConstraint D) * option CColRefSetArray)) e : Prop :=
  returns (derive e) (sound_for infer e).

(** The loop over the operands of AND *)
Lemma and_loop_ret infer derive es : forall acc L,
  (forall e, e ∈ es -> child_sound infer derive e) -> disjoint_classes L ->
  returns (bool_op_loop derive EboolopAnd es acc L) (fun r => exists cs L', r = inr (acc ++ cs, L') /\
    (forall c, c ∈ cs -> cn_ok c) /\ disjoint_classes L' /\
    forall row, row_ok row -> nulls_ok infer row -> (forall e, e ∈ es -> holds infer (eval_bool oo row e) = true) ->
      (forall c, c ∈ cs -> sat row c = true) /\
      ((forall x y, same L x y -> equal_values row x y) -> forall x y, same L' x y -> equal_values row x y)).
Proof.
  induction es as [|e es IH]; intros acc L Hes HL; cbn [bool_op_loop].
  { apply returns_ret. exists [], L. rewrite app_nil_r. split_and!; [done|set_solver|done|]. intros row _ _ _. split; [set_solver|done]. }
  destruct (Hes e ltac:(set_solver)) as ([o r] & -> & [S1 S2 S3 S4]). cbn [fst snd] in *. rewrite bind_ret.
  assert (forall acc, returns (bool_op_loop derive EboolopAnd es acc L) (fun r => exists cs L', r = inr (acc ++ cs, L') /\
    (forall c, c ∈ cs -> cn_ok c) /\ disjoint_classes L' /\
    forall row, row_ok row -> nulls_ok infer row -> (forall e', e' ∈ e :: es -> holds infer (eval_bool oo row e') = true) ->
      (forall c, c ∈ cs -> sat row c = true) /\
      ((forall x y, same L x y -> equal_values row x y) -> forall x y, same L' x y -> equal_values row x y))) as Hskip.
  { intros acc'. eapply returns_mono; [apply (IH acc' L); [set_solver|done]|]. cbn beta. intros r' (cs & L' & -> & H1 & H2 & H3).
    exists cs, L'. split_and!; [done..|]. intros row Hrow Hn Hall. apply H3; [done..|set_solver]. }
  destruct o as [c|]; [|apply Hskip]. destruct (CnUnbounded c); [apply Hskip|]. clear Hskip.
  destruct (S1 c eq_refl) as [Hok [Lc ->]]. cbn [deref]. rewrite bind_assert by done. rewrite bind_ret.
  destruct (merge_ret EboolopAnd L Lc HL (S3 Lc eq_refl)) as (L1 & -> & H1 & H2 & _). rewrite bind_ret.
  eapply returns_mono; [apply (IH (acc ++ [c]) L1); [set_solver|done]|]. cbn beta. intros r' (cs & L' & -> & H3 & H4 & H5).
  exists (c :: cs), L'. rewrite <- app_assoc. split_and!; [done|set_solver|done|]. intros row Hrow Hn Hall.
  destruct (H5 row Hrow Hn) as [H6 H7]; [set_solver|]. assert (holds infer (eval_bool oo row e) = true) as He by (apply Hall; set_solver).
  split.
  - intros x [->|Hx]%elem_of_cons; [by apply S2|by apply H6].
  - intros HLe. apply H7. apply H2; [done|done|]. by apply S4.
Qed.

(** The loop over the operands of OR *)
Lemma or_loop_ret infer derive es : forall acc,
  (forall e, e ∈ es -> child_sound infer derive e) ->
  returns (bool_op_loop derive EboolopOr es acc []) (fun r => r = inl [] \/ exists cs, r = inr (acc ++ cs, []) /\
    (forall c, c ∈ cs -> cn_ok c) /\ length cs = length es /\
    forall row, row_ok row -> nulls_ok infer row -> (exists e, e ∈ es /\ holds infer (eval_bool oo row e) = true) ->
      exists c, c ∈ cs /\ sat row c = true).
Proof.
  induction es as [|e es IH]; intros acc Hes; cbn [bool_op_loop].
  { apply returns_ret. right. exists []. rewrite app_nil_r. split_and!; [done|set_solver|done|]. intros row _ _ (e & He & _). set_solver. }
  destruct (Hes e ltac:(set_solver)) as ([o r] & -> & [S1 S2 S3 _]). cbn [fst snd] in *. rewrite bind_ret.
  destruct o as [c|]; [|apply returns_ret; by left]. destruct (CnUnbounded c); [apply returns_ret; by left|].
  destruct (S1 c eq_refl) as [Hok [Lc ->]]. cbn [deref]. rewrite bind_assert by done. rewrite bind_ret.
  destruct (merge_ret EboolopOr [] Lc ltac:(constructor) (S3 Lc eq_refl)) as (L1 & -> & _ & _ & H2). rewrite bind_ret, H2 by done.
  eapply returns_mono; [apply (IH (acc ++ [c])); set_solver|]. cbn beta. intros r' [->|(cs & -> & H3 & H4 & H5)]; [by left|].
  right. exists (c :: cs). rewrite <- app_assoc. split_and!; [done|set_solver|cbn; lia|]. intros row Hrow Hn (x & [->|Hx]%elem_of_cons & Hh).
  - exists c. split; [set_solver|]. by apply S2.
  - destruct (H5 row Hrow Hn) as (y & Hy & Hs); [by exists x|]. exists y. set_solver.
Qed.

Lemma bool_op_many derive op es : (bool_decide (op = EboolopOr) && (UlArrayExpansionThreshold cx <? length es)) = false ->
  PcnstrFromScalarBoolOp cx derive op es =
  (r ← bool_op_loop derive op es [] [];
   match r with
   | inl L | inr ([], L) => mret (None, Some L)
   | inr ([c], L) => mret (Some (match op with EboolopNot => Negation c | _ => c end), Some L)
   | inr (cs, L) =>
       match op with
       | EboolopAnd => (c ← CConstraintConjunction_ctor cx cs; mret (Some c, Some L))
       | EboolopOr => (c ← CConstraintDisjunction_ctor cx cs; mret (Some c, Some L))
       | EboolopNot => mret (None, Some L)
       end
   end).
Proof. intros E. unfold PcnstrFromScalarBoolOp. rewrite E. destruct (bool_op_loop _ _ _ _ _) as [[L|[[|c cs] L]]|]; done. Qed.

(** The constraint of the operands [l] and their classes [L] *)
Definition made_of (f : bool) l L (r : option (CConstraint D) * option CColRefSetArray) : Prop :=
  r.2 = Some L /\ match r.1 with Some c => l <> [] /\ stands_for cx f l c | None => l = [] end /\
  forall c, r.1 = Some c -> l = [c] \/ CnUnbounded c = false.

Lemma ctor_shape (f : bool) l :
  wlp (if f then CConstraintConjunction_ctor cx l else CConstraintDisjunction_ctor cx l) (fun c => exists u l', c = junction f u l').
Proof. destruct f; apply wlp_any; intros u; apply wlp_any; intros l'; apply wlp_ret; by exists u, l'. Qed.

Lemma junct_made (f : bool) l L : (forall c, c ∈ l -> cn_ok c) ->
  returns (match l with
           | [] => mret (None, Some L)
           | [c] => mret (Some c, Some L)
           | _ => (c ← (if f then CConstraintConjunction_ctor cx l else CConstraintDisjunction_ctor cx l); mret (Some c, Some L))
           end) (made_of f l L).
Proof.
  intros Hl. destruct (ConjDisj_ret cx Hid oo Hflag f l Hl) as (o & E & Ho). unfold PcnstrConjDisj in E.
  destruct l as [|c [|d l]]; [apply returns_ret; by injection E as <-| |].
  - apply returns_ret. injection E as <-. split_and!; [done|done|]. intros x [= <-]. by left.
  - destruct (junction_ctor_ret cx Hid oo Hflag f (c :: d :: l) ltac:(done) Hl) as (x & Ex & Hx). rewrite Ex, bind_ret. apply returns_ret.
    split_and!; [done|done|]. intros y [= <-]. right. destruct (ctor_shape _ _ _ Ex) as (u & l' & ->). by destruct f.
Qed.

Lemma bool_and_ret infer derive es : (forall e, e ∈ es -> child_sound infer derive e) ->
  returns (PcnstrFromScalarBoolOp cx derive EboolopAnd es) (sound_for infer (CScalarBoolOp EboolopAnd es)).
Proof.
  intros Hes. rewrite bool_op_many by done.
  destruct (and_loop_ret infer derive es [] [] Hes ltac:(constructor)) as (? & -> & cs & L & -> & H1 & H2 & H3). rewrite bind_ret. cbn [app].
  assert (forall row, row_ok row -> nulls_ok infer row -> holds infer (eval_bool oo row (CScalarBoolOp EboolopAnd es)) = true ->
    (forall c, c ∈ cs -> sat row c = true) /\ forall x y, same L x y -> equal_values row x y) as H4.
  { intros row Hrow Hn Hh. rewrite (eval_bool_op oo row true), holds_junct in Hh. cbn in Hh. rewrite forallb_forall in Hh.
    destruct (H3 row Hrow Hn) as [H5 H6].
    { intros e He. apply Hh, in_map. by apply list_elem_of_In. }
    split; [done|]. apply H6. intros x y (s & Hs & _). set_solver. }
  pose proof (junct_made true cs L H1) as Hm.
  eapply returns_mono with (P := made_of true cs L); [by destruct cs as [|c [|d cs]]|].
  intros [o r] (Er & Ho & _). cbn in Er, Ho. subst r. split; cbn [fst snd].
  - intros c ->. split; [apply Ho|done].
  - intros row Hrow Hn Hh. destruct o as [c|]; [|done]. cbn. destruct Ho as [_ [_ _ _ S4]]. rewrite S4 by done.
    apply forallb_forall. intros x Hx. apply (H4 row); [done..|]. by apply list_elem_of_In.
  - intros L' [= <-]. done.
  - intros L' [= <-] row Hrow Hn Hh. by apply H4.
Qed.

Lemma bool_or_ret infer derive es : es <> [] -> (forall e, e ∈ es -> child_sound infer derive e) ->
  returns (PcnstrFromScalarBoolOp cx derive EboolopOr es) (sound_for infer (CScalarBoolOp EboolopOr es)).
Proof.
  intros Hne Hes. destruct (UlArrayExpansionThreshold cx <? length es) eqn:Et.
  { unfold PcnstrFromScalarBoolOp. rewrite Et. apply returns_ret, sound_none. }
  rewrite bool_op_many by (by rewrite Et).
  assert (sound_for infer (CScalarBoolOp EboolopOr es) (None, Some [])) as Hnone.
  { split; cbn [fst snd]; [done|done|by intros L [= <-]; constructor|]. intros L [= <-] row _ _ _ x y (s & Hs & _). set_solver. }
  destruct (or_loop_ret infer derive es [] Hes) as (? & -> & [->|(cs & -> & H1 & H2 & H3)]); rewrite bind_ret; [by apply returns_ret|]. cbn [app].
  pose proof (junct_made false cs [] H1) as Hm.
  eapply returns_mono with (P := made_of false cs []); [by destruct cs as [|c [|d cs]]|].
  intros [o r] (Er & Ho & _). cbn in Er, Ho. subst r. destruct o as [c|]; [|by destruct Hnone].
  destruct Ho as [_ [S1 _ _ S4]]. destruct Hnone as [_ _ N3 N4]. split; [by intros c' [= <-]| |apply N3|apply N4].
  intros row Hrow Hn Hh. cbn. rewrite S4 by done. rewrite (eval_bool_op oo row false), holds_junct in Hh. cbn in Hh.
  apply existsb_exists in Hh as (b & (e & <- & He%list_elem_of_In)%in_map_iff & Hh).
  destruct (H3 row Hrow Hn) as (x & Hx & Hs); [by exists e|]. apply existsb_exists. exists x. by split; [apply list_elem_of_In|].
Qed.

(** ** Predicates whose constraint is exact *)

(** Operands with an exact interval that some row fails; a negation of such a
    predicate can be taken as the negation of its constraint. *)
Inductive exact_pred : CExpression D -> Prop :=
  | xp_one i e : columns e = {[i]} -> supported bctx (col i) e -> constants_ok (value_of (col i)) e -> usable cx (col i) ->
      (exists row, row_ok row /\ holds false (eval_bool oo row e) = false) -> exact_pred e
  | xp_and es : 2 <= size (columns_of es) -> (forall e, e ∈ es -> exact_pred e) -> exact_pred (CScalarBoolOp EboolopAnd es)
  | xp_or es : 2 <= size (columns_of es) -> length es <= UlArrayExpansionThreshold cx ->
      (forall e, e ∈ es -> exact_pred e) -> exact_pred (CScalarBoolOp EboolopOr es).

Definition child_exact e c : Prop :=
  cn_ok c /\ CnUnbounded c = false /\ PcrsUsed c = columns e /\
  forall row, row_ok row -> sat row c = holds false (eval_bool oo row e).

(** The loop keeps all operands. *)
Lemma exact_loop_ret derive op es : op <> EboolopNot -> forall acc L,
  (forall e, e ∈ es -> returns (derive e) (exact_for false e)) -> disjoint_classes L ->
  returns (bool_op_loop derive op es acc L) (fun r => exists cs L', r = inr (acc ++ cs, L') /\
    Forall2 child_exact es cs /\ disjoint_classes L').
Proof.
  intros Hop. induction es as [|e es IH]; intros acc L Hes HL; cbn [bool_op_loop].
  { apply returns_ret. exists [], L. by rewrite app_nil_r. }
  destruct (Hes e ltac:(set_solver)) as (? & -> & [(c & Lc & -> & Hok & Hun & Hu & HLc & Hs)]). rewrite bind_ret, Hun, bind_assert by done.
  cbn [deref]. rewrite bind_ret. destruct (merge_ret op L Lc HL HLc) as (L1 & -> & HL1 & _). rewrite bind_ret.
  eapply returns_mono; [apply (IH (acc ++ [c]) L1); [set_solver|done]|]. cbn beta. intros r (cs & L' & -> & Hcs & HL').
  exists (c :: cs), L'. rewrite <- app_assoc. split_and!; [done| |done]. by constructor.
Qed.

Lemma exact_columns es l : Forall2 child_exact es l -> used_by l = columns_of es.
Proof.
  unfold columns_of. induction 1 as [|e c es l (_ & _ & Hu & _) _ IH]; [done|]. cbn [map concat]. rewrite list_to_set_app_L, <- IH.
  change (used_by (c :: l)) with (used_by ([c] ++ l)). by rewrite used_by_app, used_by_one, Hu.
Qed.

Lemma exact_sat (f : bool) row es l : Forall2 child_exact es l -> row_ok row ->
  all_any f row l = holds false (junct3 f (map (eval_bool oo row) es)).
Proof.
  intros Hl Hrow. rewrite holds_junct. induction Hl as [|e c es l (_ & _ & _ & Hc) _ IH]; [by destruct f|].
  destruct f; cbn in *; by rewrite Hc, IH.
Qed.

Lemma exact_junct_ret (f : bool) derive es : let op := if f then EboolopAnd else EboolopOr in
  2 <= size (columns_of es) -> (f = false -> length es <= UlArrayExpansionThreshold cx) ->
  (forall e, e ∈ es -> returns (derive e) (exact_for false e)) ->
  returns (PcnstrFromScalarBoolOp cx derive op es) (exact_for false (CScalarBoolOp op es)).
Proof.
  cbn zeta. intros Hsz Hlen Hes. rewrite bool_op_many.
  2: { destruct f; [done|]. cbn. apply Nat.ltb_ge. auto. }
  destruct (exact_loop_ret derive (if f then EboolopAnd else EboolopOr) es ltac:(by destruct f) [] [] Hes ltac:(constructor))
    as (? & -> & cs & L & -> & Hcs & HL). rewrite bind_ret. cbn [app].
  assert (forall c, c ∈ cs -> cn_ok c /\ CnUnbounded c = false) as Hc.
  { intros c (j & Hj)%list_elem_of_lookup. by destruct (Forall2_lookup_r _ _ _ _ _ Hcs Hj) as (e & _ & ? & ? & _). }
  pose proof (junct_made f cs L (fun c H => proj1 (Hc c H))) as Hm.
  eapply returns_mono with (P := made_of f cs L); [destruct cs as [|c [|d cs]]; by destruct f|].
  pose proof (exact_columns es cs Hcs) as Hu.
  intros [o r] (Er & Ho & Hn). cbn in Er, Ho, Hn. subst r. destruct o as [c|].
  2: { subst cs. rewrite <- Hu in Hsz. unfold used_by in Hsz. cbn in Hsz. rewrite size_empty in Hsz. lia. }
  destruct Ho as [_ [S1 S2 _ S4]]. split. exists c, L. split_and!; [done|done| |by rewrite S2, Hu; destruct f|done|].
  - destruct (Hn c eq_refl) as [->|?]; [|done]. apply Hc. by apply list_elem_of_singleton.
  - intros row Hrow. rewrite S4, (exact_sat f row es cs), <- (eval_bool_op oo row f) by done. done.
Qed.

Lemma exact_one_ret i e am : columns e = {[i]} -> supported bctx (col i) e -> constants_ok (value_of (col i)) e ->
  usable cx (col i) -> (exists row, row_ok row /\ holds false (eval_bool oo row e) = false) ->
  returns (one_column cx e i false am) (exact_for false e).
Proof.
  intros Hu Hs Hk Hus (row & Hrow & Hf). unfold one_column. cbn zeta. rewrite (us_constr _ _ Hus). cbn [negb].
  destruct (from_predicate cx Hid oo i e am Hus (conj Hs Hk)) as (? & -> & p & -> & Hok & Hon & Hp). rewrite bind_ret, bind_mret.
  apply returns_ret. split. eexists _, _. split_and!; [done|done| |by rewrite Hu|repeat constructor|done].
  apply not_true_iff_false. intros Hun. rewrite <- (Hp row Hrow) in Hf.
  by rewrite (proj2 (contradiction_unbounded cx _ row Hok Hrow) Hun) in Hf.
Qed.

Lemma derive_multi e infer am : 2 <= size (columns e) ->
  PcnstrFromScalarExpr cx e infer am =
  match e with
  | CScalarBoolOp op es => PcnstrFromScalarBoolOp cx (fun e => PcnstrFromScalarExpr cx e infer am) op es
  | CScalarCmp _ _ _ => PcnstrFromScalarCmp cx e infer
  | _ => mret (None, None)
  end.
Proof.
  intros Hs. unfold columns in Hs. destruct e; cbn [PcnstrFromScalarExpr];
    (destruct (size _ =? 0) eqn:E0; [apply Nat.eqb_eq in E0; lia|]);
    (destruct (size _ =? 1) eqn:E1; [apply Nat.eqb_eq in E1; lia|]); done.
Qed.

Lemma derive_one e i infer am : columns e = {[i]} -> PcnstrFromScalarExpr cx e infer am = one_column cx e i infer am.
Proof.
  intros Hs. unfold columns in Hs.
  destruct e; cbn [PcnstrFromScalarExpr]; rewrite Hs, size_singleton, first_column; done.
Qed.

Lemma exact_ret e am : exact_pred e -> returns (PcnstrFromScalarExpr cx e false am) (exact_for false e).
Proof.
  induction 1 as [i e Hu Hs Hk Hus Hf|es Hsz Hes IH|es Hsz Hlen Hes IH].
  - rewrite (derive_one e i) by done. by apply exact_one_ret.
  - rewrite derive_multi by done. by apply (exact_junct_ret true).
  - rewrite derive_multi by done. by apply (exact_junct_ret false).
Qed.

(** ** The derivation *)

(** Predicates the code does not look into *)
Definition opaque e : bool :=
  match e with
  | CScalarBoolOp _ _ => false
  | CScalarCmp _ x y => negb ((FScalarIdent x || FBinaryCoercibleCastedScId x) && (FScalarIdent y || FBinaryCoercibleCastedScId y))
  | _ => true
  end.

Inductive covered (infer : bool) : CExpression D -> Prop :=
  | cv_none e : columns e = ∅ -> covered infer e
  | cv_one i e : column_ok i e -> covered infer e
  | cv_array i t k x a : columns (CScalarArrayCmp t k x a) = {[i]} -> array_ok i t k x a -> covered infer (CScalarArrayCmp t k x a)
  | cv_cmp k x y i j : 2 <= size (columns (CScalarCmp k x y)) -> columns_ok x y i j -> covered infer (CScalarCmp k x y)
  | cv_and es : 2 <= size (columns_of es) -> (forall e, e ∈ es -> covered infer e) -> covered infer (CScalarBoolOp EboolopAnd es)
  | cv_or es : 2 <= size (columns_of es) -> (forall e, e ∈ es -> covered infer e) -> covered infer (CScalarBoolOp EboolopOr es)
  | cv_not e : infer = false -> 2 <= size (columns e) -> exact_pred e -> covered infer (CScalarBoolOp EboolopNot [e])
  | cv_opaque e : 2 <= size (columns e) -> opaque e = true -> covered infer e.

Lemma bool_not_ret e derive : 2 <= size (columns e) -> returns (derive e) (exact_for false e) ->
  returns (PcnstrFromScalarBoolOp cx derive EboolopNot [e]) (sound_for false (CScalarBoolOp EboolopNot [e])).
Proof.
  intros Hsz (? & E & [(c & L & -> & Hok & Hun & Hu & HL & Hs)]). rewrite bool_op_many by done. cbn [bool_op_loop].
  rewrite E, bind_ret, Hun. cbn. apply returns_ret. split; cbn [fst snd].
  - intros x [= <-]. split; [|done]. constructor; [done|]. right. by rewrite Hu.
  - intros row Hrow _ Hh. rewrite eval_not, holds_not in Hh. cbn. rewrite Hs by done. destruct (eval_bool oo row e) as [[]|]; done.
  - intros L' [= <-]. constructor.
  - intros L' [= <-] row _ _ _ x y (s & Hin & _). set_solver.
Qed.

(** The constraint of a predicate holds in every row in which the predicate does,
    and the columns of a class are equal there. *)
Lemma derive_ret infer e am : covered infer e -> returns (PcnstrFromScalarExpr cx e infer am) (sound_for infer e).
Proof.
  induction 1 as [e Hu|i e Hok|i t k x a Hu Hok|k x y i j Hsz Hok|es Hsz Hes IH|es Hsz Hes IH|e Hinf Hsz Hx|e Hsz Ho].
  - unfold columns in Hu. assert (PcnstrFromScalarExpr cx e infer am = Ret (None, None)) as ->.
    { destruct e; cbn [PcnstrFromScalarExpr]; by rewrite Hu, size_empty. }
    apply returns_ret, sound_none.
  - rewrite (derive_one e i) by apply Hok. by apply one_column_ret.
  - rewrite (derive_one _ i) by done. by apply array_column_ret.
  - rewrite derive_multi by done. by eapply scalar_cmp_ret.
  - rewrite derive_multi by done. by apply bool_and_ret.
  - rewrite derive_multi by done. apply bool_or_ret; [|done]. intros ->. unfold columns_of in Hsz. cbn in Hsz. rewrite size_empty in Hsz. lia.
  - subst infer. rewrite derive_multi by (unfold columns in *; cbn; by rewrite app_nil_r). apply bool_not_ret; [done|]. by apply exact_ret.
  - rewrite derive_multi by done. destruct e; try (apply returns_ret, sound_none); [|done]. unfold PcnstrFromScalarCmp.
    cbn in Ho. apply negb_true_iff in Ho. rewrite Ho. apply returns_ret, sound_none.
Qed.

End Derive.
End ConstraintDerive.
