(* ===== verification/PropConstraint.v ===== *)
(** * The constraint property and the predicates it implies

    Sources: libgpopt/src/base/CPropConstraint.cpp, and [PexprScalarPredicates] and
    [PexprConjEqualityPredicates] of libgpopt/src/operators/CExpressionPreprocessor.cpp.
    The property of a relational expression is a constraint and the classes of
    columns that are equal in its rows. The preprocessor adds to the expression the
    predicates that follow for a column from the constraints on the columns equal
    to it; a row of the expression must pass them. *)
From stdpp Require Import base numbers list gmap sets sorting relations.
From S2P Require Import Prelude Range ConstraintInterval ScalarExpr ScalarInterval IntervalEnds EquivClasses Constraint ConstraintSem ConstraintProject ConstraintDerive.

Module PropConstraint.
Import Range ConstraintInterval ScalarExpr ScalarInterval IntervalEnds EquivClasses Constraint ConstraintSem ConstraintProject ConstraintDerive.
Open Scope nat_scope.
Open Scope outcome_scope.

(** The property; the map is null when there are no classes. *)
Record CPropConstraint (D : Type) := mkProp {
  m_pdrgpcrs : CColRefSetArray;
  m_phmcrcrs : option (gmap N (gset N));
  m_pcnstr : option (CConstraint D);
}.
Arguments mkProp {D} _ _ _.
Arguments m_pdrgpcrs {D} _.
Arguments m_phmcrcrs {D} _.
Arguments m_pcnstr {D} _.

(** [CPropConstraint::InitHashMap] *)
Definition InitHashMap (pdrgpcrs : CColRefSetArray) : outcome (option (gmap N (gset N))) :=
  if length pdrgpcrs =? 0 then mret None else
  m ← for_each pdrgpcrs (fun pcrs m =>
        for_each (bits pcrs) (fun colref m =>
          let '(fres, m) := hash_insert m colref pcrs in
          _ ← GPOS_ASSERT fres;
          mret m) m) ∅;
  mret (Some m).

Section Model.
Context {D : Type} `{IComparator D} `{IDatum D} (cx : CnCtxt D).
Implicit Types (ppc : CPropConstraint D).

(** The constructor asserts that the array is not null. *)
Definition CPropConstraint_ctor (pdrgpcrs : option CColRefSetArray) (pcnstr : option (CConstraint D)) :
    outcome (CPropConstraint D) :=
  _ ← GPOS_ASSERT (bool_decide (is_Some pdrgpcrs));
  pdrgpcrs ← deref pdrgpcrs;
  m ← InitHashMap pdrgpcrs;
  mret (mkProp pdrgpcrs m pcnstr).

(** [CPropConstraint::PcrsEquivClass] *)
Definition PcrsEquivClass ppc (colref : N) : option (gset N) := m ← m_phmcrcrs ppc; m !! colref.

(** [CPropConstraint::FContradiction] *)
Definition PropContradiction ppc : bool :=
  match m_pcnstr ppc with Some c => CnContradiction c | None => false end.

(** No column is equivalent: the set is null or has one column. *)
Definition no_equivalent (pcrs : option (gset N)) : bool :=
  match pcrs with Some s => size s =? 1 | None => true end.

(** The constraints of both scopes *)
Definition combine_scopes (local outer : option (CConstraint D)) : outcome (option (CConstraint D)) :=
  match local, outer with
  | Some x, Some y => Some <$> CConstraintConjunction_ctor cx [x; y]
  | Some x, None => mret (Some x)
  | None, y => mret y
  end.

(** [CPropConstraint::PexprScalarMappedFromEquivCols]; next to the predicate, the
    class of the outer property whose reference is released, though [Find] gave
    none. [Include] of a null set is a null dereference. *)
Definition PexprScalarMappedFromEquivCols ppc (colref : CColRef) (constraintsForOuterRefs : option (CPropConstraint D)) :
    outcome (option (CExpression D) * option (gset N)) :=
  match m_pcnstr ppc, m_phmcrcrs ppc with
  | Some pcnstr, Some phm =>
      let pcrs := phm !! m_id colref in
      let equivOuterRefs := outer ← constraintsForOuterRefs; PcrsEquivClass outer (m_id colref) in
      if no_equivalent pcrs && no_equivalent equivOuterRefs then mret (None, None) else
      pcrs ← deref pcrs;
      let pcrsEquiv := (pcrs ∪ default ∅ equivOuterRefs) ∖ {[m_id colref]} in
      local ← PcnstrSet cx pcnstr pcrsEquiv;
      fromOuterRefs ← match (outer ← constraintsForOuterRefs; m_pcnstr outer) with
                      | Some o => PcnstrSet cx o pcrsEquiv
                      | None => mret None
                      end;
      combined ← combine_scopes local fromOuterRefs;
      match combined with
      | None => mret (None, equivOuterRefs)
      | Some c =>
          pcnstrCol ← CnRemapForColumn cx c colref;
          pcnstrCol ← deref pcnstrCol;
          pexprScalar ← PexprScalar cx pcnstrCol;
          mret (Some pexprScalar, equivOuterRefs)
      end
  | _, _ => mret (None, None)
  end.

(** [CUtils::FScalarNotNull] *)
Definition FScalarNotNull (pexpr : CExpression D) : bool :=
  match pexpr with CScalarBoolOp EboolopNot (CScalarNullTest _ :: _) => true | _ => false end.

(** The predicate that follows from the property of a subquery in the filter *)
Definition subquery_predicate (ppcSub : CPropConstraint D) (crs : gset N) (colref : CColRef) : outcome (CExpression D) :=
  c ← deref (m_pcnstr ppcSub);
  pcnstr ← PcnstrSet cx c crs;
  pcnstr ← deref pcnstr;
  pcnstrCol ← CnRemapForColumn cx pcnstr colref;
  pcnstrCol ← deref pcnstrCol;
  PexprScalar cx pcnstrCol.

(** A column in the loop of [CExpressionPreprocessor::PexprScalarPredicates]: the
    predicates and the columns processed so far *)
Definition column_predicates ppc (outer sub : option (CPropConstraint D)) (pcrsNotNull : gset N) (id : N)
    (acc : list (CExpression D) * gset N) : outcome (list (CExpression D) * gset N) :=
  let colref := LookupColRef cx id in
  '(pdrgpexpr, processed) ←
    match sub with
    | Some s =>
        match PcrsEquivClass s id with
        | Some crs =>
            pexprScalar ← subquery_predicate s crs colref;
            let constrained := match m_pcnstr ppc with Some c => FConstraint c id | None => false end in
            mret (if FScalarNotNull pexprScalar && (bool_decide (id ∈ pcrsNotNull) || constrained)
                  then acc.1 else acc.1 ++ [pexprScalar], acc.2 ∪ {[id]})
        | None => mret acc
        end
    | None => mret acc
    end;
  '(pexprScalar, _) ← PexprScalarMappedFromEquivCols ppc colref outer;
  match pexprScalar with
  | None => mret (pdrgpexpr, processed)
  | Some pexpr =>
      skip ← (if FScalarNotNull pexpr then
                (if bool_decide (id ∈ pcrsNotNull) then mret true
                 else (c ← deref (m_pcnstr ppc); mret (FConstraint c id)))
              else mret false);
      mret (if (skip : bool) then (pdrgpexpr, processed) else (pdrgpexpr ++ [pexpr], processed ∪ {[id]}))
  end.

(** [CExpressionPreprocessor::PexprScalarPredicates]; [None] is the null result *)
Definition PexprScalarPredicates ppc (outer sub : option (CPropConstraint D)) (pcrsNotNull pcrs pcrsProcessed : gset N) :
    outcome (option (CExpression D) * gset N) :=
  '(pdrgpexpr, processed) ← for_each (bits pcrs) (column_predicates ppc outer sub pcrsNotNull) ([], pcrsProcessed);
  mret (match pdrgpexpr with [] => None | _ => Some (PexprConjunction pdrgpexpr) end, processed).

(** [CUtils::PexprScalarEqCmp] on two columns of one type, which needs no casts *)
Definition PexprScalarEqCmp (pcrLeft pcrRight : CColRef) : CExpression D :=
  CScalarCmp EcmptEq (CScalarIdent pcrLeft) (CScalarIdent pcrRight).

Definition GPOPT_MAX_DERIVED_PREDS : nat := 50.

(** The loops of [CExpressionPreprocessor::PexprConjEqualityPredicates]; [n]
    predicates have been made. *)
Fixpoint equality_left (right : N) (lefts : list N) (n : nat) : list (CExpression D) :=
  match lefts with
  | [] => []
  | pcrLeft :: lefts' =>
      if negb (n <? GPOPT_MAX_DERIVED_PREDS) then []
      else if N.eqb pcrLeft right then []
      else PexprScalarEqCmp (LookupColRef cx pcrLeft) (LookupColRef cx right) :: equality_left right lefts' (S n)
  end.

Fixpoint equality_loop (all rights : list N) (n : nat) : list (CExpression D) :=
  match rights with
  | [] => []
  | pcrRight :: rights' =>
      if negb (n <? GPOPT_MAX_DERIVED_PREDS) then []
      else let made := equality_left pcrRight all n in made ++ equality_loop all rights' (n + length made)
  end.

Definition PexprConjEqualityPredicates (pcrs : gset N) : CExpression D :=
  PexprConjunction (equality_loop (bits pcrs) (bits pcrs) 0).
End Model.

(** ** Equal values *)

Section Proofs.
Context {D : Type} `{CL : ComparatorLaws D} `{ID : IDatum D} `{DL : !DatumLaws D}.
Context (cx : CnCtxt D) (oo : OtherOps D).
Hypothesis Hid : forall i, m_id (LookupColRef cx i) = i.
Hypothesis Hflag : EopttraceConsiderOpfamiliesForDistribution (flags (cn_ctxt cx)) = false.
Implicit Types (p : CConstraintInterval D) (c : CConstraint D) (l : list (CConstraint D)) (row : N -> option D)
  (ppc : CPropConstraint D) (L : CColRefSetArray).
Abbreviation cn_ok := (cn_ok cx).
Abbreviation row_ok := (row_ok cx).
Abbreviation col := (LookupColRef cx).

Lemma equal_lt (a b x : D) : Equals a b = true -> IsLessThan x a = IsLessThan x b /\ IsLessThan a x = IsLessThan b x.
Proof.
  intros [H1 H2]%eq_lt. split; apply eq_bool_prop_intro; rewrite !Is_true_true; split; intros E.
  - destruct (lt_cotrans x b a E); congruence.
  - destruct (lt_cotrans x a b E); congruence.
  - destruct (lt_cotrans a b x E); congruence.
  - destruct (lt_cotrans b a x E); congruence.
Qed.

Lemma in_range_equal r (a b : D) : Equals a b = true -> in_range r a = in_range r b.
Proof.
  intros E. unfold in_range. f_equal.
  - destruct (m_pdatumLeft r) as [x|]; [|done]. destruct (equal_lt a b x E) as [H1 H2]. rewrite !le_spec. by rewrite H1, H2.
  - destruct (m_pdatumRight r) as [x|]; [|done]. destruct (equal_lt a b x E) as [H1 H2]. rewrite !le_spec. by rewrite H1, H2.
Qed.

Lemma in_interval_equal p row i j : equal_values row i j -> in_interval p (row i) = in_interval p (row j).
Proof.
  intros [->|(a & b & -> & -> & E)]; [done|]. cbn. unfold in_ranges. induction (m_pdrgprng p) as [|r rs IH]; [done|].
  cbn. by rewrite IH, (in_range_equal r a b).
Qed.

Lemma every_some_ext {A} (f : bool) (P Q : A -> bool) (xs : list A) :
  (forall x, x ∈ xs -> P x = Q x) -> every_some f P xs = every_some f Q xs.
Proof.
  induction xs as [|x xs IH]; intros Hx; [by destruct f|].
  destruct f; cbn in *; (rewrite Hx by (apply elem_of_cons; by left)); f_equal; apply IH; intros y Hy; apply Hx, elem_of_cons; by right.
Qed.

(** The constraint does not tell equal columns apart. *)
Lemma sat_equal c row j : cn_ok c -> (forall i, i ∈ PcrsUsed c -> equal_values row i j) -> sat (fun _ => row j) c = sat row c.
Proof.
  intros Hok. induction Hok as [p Hp Hu Hi Ht|u l Hne Hul Hl IH|u l Hne Hul Hl IH|c0 Hc IH Hor]; cbn [PcrsUsed sat]; intros Hj.
  - symmetry. apply in_interval_equal, Hj. set_solver.
  - subst u. apply (every_some_ext true). intros x Hx. apply IH; [done|]. intros i Hi. apply Hj, elem_of_used_by. eauto.
  - subst u. apply (every_some_ext false). intros x Hx. apply IH; [done|]. intros i Hi. apply Hj, elem_of_used_by. eauto.
  - by rewrite IH.
Qed.

(** ** The constraint for another column *)

(** Columns whose values are of one kind *)
Definition alike (i j : N) : Prop := is_bool_col (col i) = is_bool_col (col j).

Record remapped (j : N) (c x : CConstraint D) : Prop := {
  rm_ok : cn_ok x;
  rm_on : on_column j x;
  rm_pure : pure x = true;
  rm_sat : forall row, row_ok row -> sat row x = sat (fun _ => row j) c;
}.

Lemma remap_interval p j : cn_ok (Interval p) -> usable cx (col j) -> alike (m_id (m_pcr p)) j ->
  remapped j (Interval p) (Interval (PcnstrRemapForColumn p (col j))).
Proof.
  intros Hok Hu Hal. inversion Hok as [? Hp _ Hi Ht| | |]; subst. unfold alike in Hal. rewrite <- Hp in Hal. split; [|unfold on_column; cbn; by rewrite Hid|done|].
  - constructor; [cbn; by rewrite Hid|done|done|]. intros r Hr. cbn in Hr. destruct (Ht r Hr) as [H1 H2]. cbn [m_pcr PcnstrRemapForColumn].
    split; intros d Hd; [specialize (H1 d Hd)|specialize (H2 d Hd)]; unfold col_value in *; by rewrite <- Hal.
  - intros row _. cbn. by rewrite Hid.
Qed.

Lemma remap_list j l cs (f : bool) : l <> [] -> Forall2 (remapped j) l cs ->
  returns (PcnstrConjDisj cx cs f) (fun o => exists x, o = Some x /\ cn_ok x /\ on_column j x /\ pure x = true /\
    forall row, row_ok row -> sat row x = all_any f (fun _ => row j) l).
Proof.
  intros Hne Hl.
  assert (forall x, x ∈ cs -> cn_ok x /\ on_column j x /\ pure x = true) as Hcs.
  { intros x (n & Hn)%list_elem_of_lookup. destruct (Forall2_lookup_r _ _ _ _ _ Hl Hn) as (c & _ & [? ? ? _]). done. }
  eapply returns_mono; [apply (ConjDisj_ret cx Hid oo Hflag f cs); by intros x [? _]%Hcs|]. cbn beta. intros [x|] Ho.
  - destruct Ho as [Hne' [H1 H2 H3 H4]]. exists x. split_and!; [done|done| | |].
    + unfold on_column. rewrite H2. eapply parts_column; [done..|]. by intros y (? & ? & _)%Hcs.
    + apply H3, pure_all. by intros y (_ & _ & ?)%Hcs.
    + intros row Hrow. rewrite H4 by done. clear -Hl Hrow. unfold all_any.
      induction Hl as [|c y l cs [_ _ _ Hs] _ IH]; [by destruct f|]. destruct f; cbn in *; by rewrite Hs, IH.
  - subst cs. by inversion Hl; subst.
Qed.

Lemma remap_junct (f : bool) l j u :
  cn_ok (junction f u l) -> (forall c, c ∈ l -> returns (CnRemapForColumn cx c (col j)) (fun o => exists x, o = Some x /\ remapped j c x)) ->
  returns (l' ← mapM (fun c => (x ← CnRemapForColumn cx c (col j);
                                _ ← GPOS_ASSERT (bool_decide (is_Some x));
                                deref x)) l;
           PcnstrConjDisj cx l' f) (fun o => exists x, o = Some x /\ remapped j (junction f u l) x).
Proof.
  intros Hok Hl. apply cn_ok_junction in Hok as (Hne & _ & _). eapply returns_bind; [apply (mapM_ret _ (remapped j))|].
  - intros c Hc. destruct (Hl c Hc) as (? & -> & x & -> & Hx). rewrite bind_ret, bind_assert by done. by apply returns_ret.
  - intros cs Hcs. eapply returns_mono; [by apply (remap_list j l cs f)|]. cbn beta.
    intros o (x & -> & H1 & H2 & H3 & H4). exists x. split; [done|]. split; [done|done|done|]. intros row Hrow.
    by rewrite sat_junction, H4.
Qed.

Lemma remap_ret c j : cn_ok c -> pure c = true -> usable cx (col j) -> (forall i, i ∈ PcrsUsed c -> alike i j) ->
  returns (CnRemapForColumn cx c (col j)) (fun o => exists x, o = Some x /\ remapped j c x).
Proof.
  intros Hok. induction Hok as [p Hp Hu Hi Ht|u l Hne Hul Hl IH|u l Hne Hul Hl IH|c0 Hc IH Hor];
    intros Hpure Huj Hal; cbn [CnRemapForColumn PcrsUsed] in *.
  - apply returns_ret. eexists. split; [done|]. apply remap_interval; [by constructor|done|]. apply Hal. set_solver.
  - apply (remap_junct true l j u); [by constructor|]. intros c Hc. cbn in Hpure. rewrite forallb_forall in Hpure.
    apply IH; [done|by apply Hpure, list_elem_of_In|done|]. intros i Hi. apply Hal. subst u. apply elem_of_used_by. eauto.
  - apply (remap_junct false l j u); [by constructor|]. intros c Hc. cbn in Hpure. rewrite forallb_forall in Hpure.
    apply IH; [done|by apply Hpure, list_elem_of_In|done|]. intros i Hi. apply Hal. subst u. apply elem_of_used_by. eauto.
  - destruct c0 as [p| | |]; try done. rewrite bind_assert by (cbn; by rewrite size_singleton). cbn. apply returns_ret.
    eexists. split; [done|]. destruct (remap_interval p j) as [H1 H2 H3 H4]; [done|done|apply Hal; set_solver|].
    split; [by apply ok_neg; [|left]|done|done|]. intros row Hrow. cbn in *. by rewrite H4.
Qed.

(** ** The map of the property *)

Lemma InitHashMap_ret L : disjoint_classes L ->
  returns (InitHashMap L) (fun o => match o with
    | Some m => forall i s, m !! i = Some s <-> s ∈ L /\ i ∈ s
    | None => L = []
    end).
Proof.
  intros HL. unfold InitHashMap. destruct (length L =? 0) eqn:El.
  { apply returns_ret. by destruct L. }
  eapply returns_bind; [apply fill_map_ret; [|exact HL]|intros m Hm; by apply returns_ret].
  intros s x m Hm. by rewrite hash_insert_new.
Qed.

(** A property as the constructor makes it, of a tree the derivation makes *)
Record prop_ok ppc : Prop := {
  pr_map : match m_phmcrcrs ppc with
           | Some m => forall i s, m !! i = Some s <-> s ∈ m_pdrgpcrs ppc /\ i ∈ s
           | None => m_pdrgpcrs ppc = []
           end;
  pr_cnstr : forall c, m_pcnstr ppc = Some c -> cn_ok c /\ pure c = true;
}.

(** What the property says of a row *)
Definition prop_holds row ppc : Prop :=
  sat_opt row (m_pcnstr ppc) = true /\ forall x y, same (m_pdrgpcrs ppc) x y -> equal_values row x y.

Lemma ctor_prop_ok L o : disjoint_classes L -> (forall c, o = Some c -> cn_ok c /\ pure c = true) ->
  returns (CPropConstraint_ctor (Some L) o) (fun ppc => prop_ok ppc /\ m_pdrgpcrs ppc = L /\ m_pcnstr ppc = o).
Proof.
  intros HL Ho. unfold CPropConstraint_ctor. cbn [deref]. rewrite bind_assert by done. rewrite bind_ret.
  destruct (InitHashMap_ret L HL) as (m & -> & Hm). rewrite bind_ret. apply returns_ret. by split_and!; [split|..].
Qed.

Lemma class_of ppc i s : prop_ok ppc -> PcrsEquivClass ppc i = Some s -> s ∈ m_pdrgpcrs ppc /\ i ∈ s.
Proof.
  intros [Hm _]. unfold PcrsEquivClass. destruct (m_phmcrcrs ppc) as [m|]; [|done]. cbn. apply Hm.
Qed.

Lemma class_equal ppc i s row x : prop_ok ppc -> PcrsEquivClass ppc i = Some s -> prop_holds row ppc -> x ∈ s -> equal_values row x i.
Proof. intros Hp Hs [_ Heq] Hx. destruct (class_of ppc i s Hp Hs) as [HL Hi]. apply Heq. by exists s. Qed.

(** ** Predicates on a column from those on the columns equal to it *)

(** The columns of the class of the column can stand in for it. *)
Definition class_ok (j : N) ppc : Prop :=
  forall s, PcrsEquivClass ppc j = Some s -> all_usable cx s /\ forall i, i ∈ s -> alike i j.

(** A constraint for columns equal to [j], as a predicate on [j] *)
Lemma remap_predicate c j (s : gset N) : cn_ok c -> pure c = true -> PcrsUsed c ⊆ s -> usable cx (col j) ->
  (forall i, i ∈ s -> alike i j) ->
  returns (x ← CnRemapForColumn cx c (col j); x ← deref x; PexprScalar cx x) (fun e =>
    forall row, row_ok row -> (forall i, i ∈ s -> equal_values row i j) -> holds false (eval_bool oo row e) = sat row c).
Proof.
  intros Hok Hp Hu Huj Hal. destruct (remap_ret c j Hok Hp Huj) as (? & -> & x & -> & [H1 H2 H3 H4]); [auto|]. rewrite bind_ret. cbn [deref].
  rewrite bind_ret. eapply returns_mono; [by apply (scalar_exact cx oo)|]. intros e He row Hrow Heq.
  rewrite (He row Hrow), H4 by done. apply sat_equal; [done|]. auto.
Qed.

Lemma combine_ret (pcrs : gset N) x y c d :
  part_in_opt cx pcrs c x -> part_in_opt cx pcrs d y ->
  returns (combine_scopes cx x y) (fun o => forall z, o = Some z -> cn_ok z /\ pure z = true /\ PcrsUsed z ⊆ pcrs /\
    forall row, row_ok row -> sat row c = true -> sat row d = true -> sat row z = true).
Proof.
  intros Hx Hy. destruct x as [x|], y as [y|]; cbn.
  2: { apply returns_ret. intros z [= <-]. destruct (Hx x eq_refl) as [? ? ? ?]. split_and!; auto. }
  2: { apply returns_ret. intros z [= <-]. destruct (Hy y eq_refl) as [? ? ? ?]. split_and!; auto. }
  2: { by apply returns_ret. }
  destruct (Hx x eq_refl) as [X1 X2 X3 X4], (Hy y eq_refl) as [Y1 Y2 Y3 Y4].
  destruct (junction_ctor_ret cx Hid oo Hflag true [x; y]) as (z & E & [S1 S2 S3 S4]); [done| |].
  { by intros v [-> | ->%list_elem_of_singleton]%elem_of_cons. }
  cbn in E. rewrite E. apply returns_ret. intros z' [= <-]. split_and!; [done| | |].
  - apply S3. cbn. by rewrite X2, Y2.
  - rewrite S2. apply used_by_sub. by intros v [-> | ->%list_elem_of_singleton]%elem_of_cons.
  - intros row Hrow Hc Hd. rewrite S4 by done. cbn. by rewrite X4, Y4.
Qed.

Lemma part_trivial (pcrs : gset N) c : part_in_opt cx pcrs c None.
Proof. by intros x. Qed.

(** The equivalent columns the code collects *)
Lemma equivalent_columns ppc (outer : option (CPropConstraint D)) j s :
  prop_ok ppc -> (forall o, outer = Some o -> prop_ok o) -> class_ok j ppc -> (forall o, outer = Some o -> class_ok j o) ->
  PcrsEquivClass ppc j = Some s ->
  let cols := (s ∪ default ∅ (o ← outer; PcrsEquivClass o j)) ∖ {[j]} in
  all_usable cx cols /\ (forall i, i ∈ cols -> alike i j) /\
  forall row, prop_holds row ppc -> (forall o, outer = Some o -> prop_holds row o) -> forall i, i ∈ cols -> equal_values row i j.
Proof.
  intros Hp Ho Hc Hco Hs cols. assert (forall i, i ∈ cols -> i ∈ s \/ exists o t, outer = Some o /\ PcrsEquivClass o j = Some t /\ i ∈ t) as Hcols.
  { intros i [[Hi|Hi]%elem_of_union _]%elem_of_difference; [by left|]. right. destruct outer as [o|]; cbn in Hi; [|set_solver].
    destruct (PcrsEquivClass o j) as [t|] eqn:Et; cbn in Hi; [|set_solver]. exists o, t. done. }
  destruct (Hc s Hs) as [H1 H2]. split_and!.
  - intros i [Hi|(o & t & -> & Ht & Hi)]%Hcols; [by apply H1|]. by apply (Hco o eq_refl t).
  - intros i [Hi|(o & t & -> & Ht & Hi)]%Hcols; [by apply H2|]. by apply (Hco o eq_refl t).
  - intros row Hr Hro i [Hi|(o & t & -> & Ht & Hi)]%Hcols; [by apply (class_equal ppc j s)|].
    apply (class_equal o j t); auto.
Qed.

Lemma mapped_ret ppc (outer : option (CPropConstraint D)) j :
  prop_ok ppc -> (forall o, outer = Some o -> prop_ok o) -> class_ok j ppc -> (forall o, outer = Some o -> class_ok j o) ->
  usable cx (col j) ->
  (forall o t, outer = Some o -> PcrsEquivClass o j = Some t -> size t <> 1 -> is_Some (PcrsEquivClass ppc j)) ->
  returns (PexprScalarMappedFromEquivCols cx ppc (col j) outer) (fun r => forall e, r.1 = Some e -> forall row, row_ok row ->
    prop_holds row ppc -> (forall o, outer = Some o -> prop_holds row o) -> holds false (eval_bool oo row e) = true).
Proof.
  intros Hp Ho Hc Hco Hu Hnn. unfold PexprScalarMappedFromEquivCols. rewrite Hid.
  destruct (m_pcnstr ppc) as [c|] eqn:Ec; [|by apply returns_ret]. destruct (m_phmcrcrs ppc) as [m|] eqn:Em; [|by apply returns_ret].
  assert (PcrsEquivClass ppc j = m !! j) as Ej by (unfold PcrsEquivClass; by rewrite Em). cbn zeta. rewrite <- Ej.
  destruct (no_equivalent _ && no_equivalent _) eqn:En; [by apply returns_ret|].
  assert (is_Some (PcrsEquivClass ppc j)) as [s Es].
  { destruct (PcrsEquivClass ppc j) as [s|] eqn:Es; [done|]. cbn in En. destruct outer as [o|]; cbn in En; [|done].
    destruct (PcrsEquivClass o j) as [t|] eqn:Et; [|done]. apply (Hnn o t); [done|done|]. by apply Nat.eqb_neq. }
  destruct (equivalent_columns ppc outer j s Hp Ho Hc Hco Es) as (Hau & Hal & Heq). rewrite Es. cbn [deref]. rewrite bind_ret.
  set (cols := (s ∪ default ∅ (o ← outer; PcrsEquivClass o j)) ∖ {[j]}) in *.
  destruct (pr_cnstr _ Hp c Ec) as [Hok Hpure].
  eapply returns_bind; [by apply (PcnstrSet_ret cx oo Hid Hflag)|]. intros x Hx.
  set (d := match (o ← outer; m_pcnstr o) with Some d => d | None => c end).
  eapply returns_bind with (P := part_in_opt cx cols d).
  { destruct outer as [o|]; cbn in *; [|apply returns_ret, part_trivial]. subst d.
    destruct (m_pcnstr o) as [d|] eqn:Ed; [|apply returns_ret, part_trivial].
    destruct (pr_cnstr _ (Ho o eq_refl) d Ed). by apply (PcnstrSet_ret cx oo Hid Hflag). }
  intros y Hy. eapply returns_bind; [by apply (combine_ret cols x y c d)|]. intros [z|] Hz; [|by apply returns_ret].
  destruct (Hz z eq_refl) as (Z1 & Z2 & Z3 & Z4). pose proof (remap_predicate z j cols Z1 Z2 Z3 Hu Hal) as (e & E & He).
  exists (Some e, o ← outer; PcrsEquivClass o j). split.
  - destruct (CnRemapForColumn cx z (col j)) as [[w|]|]; [|done..]. cbn in E |- *. by rewrite E.
  - intros e' [= <-] row Hrow Hr Hro. rewrite He; [|done|by apply Heq]. destruct Hr as [Hr1 Hr2]. rewrite Ec in Hr1. apply Z4; [done|done|].
    subst d. destruct outer as [o|]; [|done]. cbn. destruct (m_pcnstr o) as [d|] eqn:Ed; [|done].
    destruct (Hro o eq_refl) as [Hro1 _]. by rewrite Ed in Hro1.
Qed.

(** ** The predicates for a set of columns *)

Lemma mapped_constraint ppc colref outer :
  wlp (PexprScalarMappedFromEquivCols cx ppc colref outer) (fun r => is_Some r.1 -> is_Some (m_pcnstr ppc)).
Proof. unfold PexprScalarMappedFromEquivCols. intros r Hr. destruct (m_pcnstr ppc); [done|]. injection Hr as <-. by intros [? ?]. Qed.

(** A property of a subquery has a constraint on the columns of its classes. *)
Definition subquery_ok (sub : option (CPropConstraint D)) (j : N) : Prop :=
  forall s crs, sub = Some s -> PcrsEquivClass s j = Some crs ->
    prop_ok s /\ class_ok j s /\ exists c, m_pcnstr s = Some c /\ returns (PcnstrSet cx c crs) is_Some.

Lemma subquery_ret s j crs : prop_ok s -> class_ok j s -> PcrsEquivClass s j = Some crs -> usable cx (col j) ->
  (exists c, m_pcnstr s = Some c /\ returns (PcnstrSet cx c crs) is_Some) ->
  returns (subquery_predicate cx s crs (col j)) (fun e => forall row, row_ok row -> prop_holds row s ->
    holds false (eval_bool oo row e) = true).
Proof.
  intros Hs Hc Hcrs Hu (c & Ec & Hx). unfold subquery_predicate. rewrite Ec. cbn [deref]. rewrite bind_ret.
  destruct (pr_cnstr _ Hs c Ec) as [Hok Hpure]. destruct (Hc crs Hcrs) as [Hau Hal].
  destruct (returns_and _ _ _ Hx (PcnstrSet_ret cx oo Hid Hflag crs c Hau Hok Hpure)) as (? & -> & [x ->] & Hxp).
  rewrite bind_ret. cbn [deref]. rewrite bind_ret. destruct (Hxp x eq_refl) as [X1 X2 X3 X4].
  eapply returns_mono; [by apply (remap_predicate x j crs)|]. cbn beta. intros e He row Hrow Hr. rewrite He; [|done|].
  - apply X4; [done|]. destruct Hr as [Hr _]. by rewrite Ec in Hr.
  - intros i Hi. by apply (class_equal s j crs).
Qed.

(** The predicates so far are true in the rows, and columns are only added. *)
Record implied (ok : (N -> option D) -> Prop) (cols : list N) (start : gset N) (acc : list (CExpression D) * gset N) : Prop := {
  im_true : forall e row, e ∈ acc.1 -> row_ok row -> ok row -> holds false (eval_bool oo row e) = true;
  im_grow : start ⊆ acc.2;
  im_cols : acc.2 ⊆ start ∪ list_to_set cols;
}.

Lemma implied_weaken ok cols j start acc : implied ok cols start acc -> implied ok (cols ++ [j]) start acc.
Proof. intros [H1 H2 H3]. split; [done|done|]. rewrite list_to_set_app_L. set_solver. Qed.

Lemma implied_add ok cols j start acc e :
  implied ok cols start acc -> (forall row, row_ok row -> ok row -> holds false (eval_bool oo row e) = true) ->
  implied ok (cols ++ [j]) start (acc.1 ++ [e], acc.2 ∪ {[j]}).
Proof.
  intros [H1 H2 H3] He. split; cbn.
  - intros x row [Hx| ->%list_elem_of_singleton]%elem_of_app; [by apply H1|by apply He].
  - set_solver.
  - rewrite list_to_set_app_L. cbn. set_solver.
Qed.

Lemma implied_mark ok cols j start acc : implied ok cols start acc -> implied ok (cols ++ [j]) start (acc.1, acc.2 ∪ {[j]}).
Proof. intros [H1 H2 H3]. split; cbn; [done|set_solver|]. rewrite list_to_set_app_L. cbn. set_solver. Qed.

(** What the loop needs of a column *)
Record column_ready ppc (outer sub : option (CPropConstraint D)) (j : N) : Prop := {
  cr_class : class_ok j ppc;
  cr_outer : forall o, outer = Some o -> class_ok j o;
  cr_usable : usable cx (col j);
  cr_null : forall o t, outer = Some o -> PcrsEquivClass o j = Some t -> size t <> 1 -> is_Some (PcrsEquivClass ppc j);
  cr_sub : subquery_ok sub j;
}.

Definition all_hold ppc (outer sub : option (CPropConstraint D)) row : Prop :=
  prop_holds row ppc /\ (forall o, outer = Some o -> prop_holds row o) /\ (forall s, sub = Some s -> prop_holds row s).

Lemma column_predicates_ret ppc outer sub notnull j cols start acc :
  prop_ok ppc -> (forall o, outer = Some o -> prop_ok o) -> column_ready ppc outer sub j ->
  implied (all_hold ppc outer sub) cols start acc ->
  returns (column_predicates cx ppc outer sub notnull j acc) (implied (all_hold ppc outer sub) (cols ++ [j]) start).
Proof.
  intros Hp Ho [Hc Hco Hu Hn Hsub] Hacc. unfold column_predicates. cbn zeta.
  eapply returns_bind with (P := implied (all_hold ppc outer sub) (cols ++ [j]) start).
  { destruct sub as [s|]; [|apply returns_ret; by apply implied_weaken].
    destruct (PcrsEquivClass s j) as [crs|] eqn:Ecrs; [|apply returns_ret; by apply implied_weaken].
    destruct (Hsub s crs eq_refl Ecrs) as (Hs & Hcs & Hx).
    destruct (subquery_ret s j crs Hs Hcs Ecrs Hu Hx) as (e & -> & He). rewrite bind_ret. cbn zeta. apply returns_ret.
    destruct (_ && _); [by apply implied_mark|]. apply implied_add; [done|]. intros row Hrow (_ & _ & Hr). by apply He; [|apply Hr]. }
  intros [es done'] Hes.
  destruct (mapped_ret ppc outer j Hp Ho Hc Hco Hu Hn) as ([o r] & E & Hm). pose proof (mapped_constraint ppc (col j) outer _ E) as Hsome.
  cbn [fst] in Hm, Hsome. rewrite E, bind_ret. destruct o as [e|]; [|by apply returns_ret]. destruct (Hsome ltac:(done)) as [c Ec].
  assert (implied (all_hold ppc outer sub) (cols ++ [j]) start (es ++ [e], done' ∪ {[j]})) as Hadd.
  { destruct Hes as [H1 H2 H3]. cbn [fst snd] in *. split; cbn [fst snd].
    - intros x row [Hx| ->%list_elem_of_singleton]%elem_of_app Hrow Hh; [by apply (H1 x row)|]. destruct Hh as (? & ? & _). by apply Hm.
    - set_solver.
    - rewrite list_to_set_app_L in *. cbn in *. set_solver. }
  rewrite Ec. destruct (FScalarNotNull e); [|rewrite bind_mret; by apply returns_ret].
  destruct (bool_decide _); cbn; [by apply returns_ret|]. destruct (FConstraint c j); by apply returns_ret.
Qed.

(** The predicates the preprocessor adds are true in every row of the expression. *)
Lemma scalar_predicates_ret ppc outer sub notnull pcrs processed :
  prop_ok ppc -> (forall o, outer = Some o -> prop_ok o) -> (forall j, j ∈ pcrs -> column_ready ppc outer sub j) ->
  returns (PexprScalarPredicates cx ppc outer sub notnull pcrs processed) (fun r =>
    (forall e, r.1 = Some e -> forall row, row_ok row -> all_hold ppc outer sub row -> holds false (eval_bool oo row e) = true) /\
    processed ⊆ r.2 /\ r.2 ⊆ processed ∪ pcrs).
Proof.
  intros Hp Ho Hj. unfold PexprScalarPredicates. eapply returns_bind.
  - apply (for_each_rule (fun cols acc => implied (all_hold ppc outer sub) cols processed acc)).
    + split; cbn; set_solver.
    + intros pre j rest acc E Hacc. apply column_predicates_ret; [done|done| |done]. apply Hj, elem_of_bits. rewrite E. set_solver.
  - intros [es done'] [H1 H2 H3]. cbn [fst snd] in *. apply returns_ret. split_and!; cbn [fst snd].
    + intros e He row Hrow Hh. destruct es as [|e1 es]; [done|]. injection He as <-. unfold PexprConjunction.
      rewrite PexprConjDisj_eval, holds_junct. cbn -[eval_bool]. apply (forallb_forall (holds false) (map (eval_bool oo row) (e1 :: es))).
      intros b (x & <- & Hx)%in_map_iff. apply (H1 x row); [by apply list_elem_of_In|done|done].
    + done.
    + intros i Hi%H3. rewrite elem_of_union, elem_of_list_to_set, elem_of_bits in Hi. set_solver.
Qed.

(** ** Equality predicates of a class *)

(** The columns before [x] *)
Fixpoint before (x : N) (l : list N) : list N :=
  match l with [] => [] | y :: l' => if N.eqb y x then [] else y :: before x l' end.

Definition all_pairs (all rights : list N) : list (N * N) :=
  concat (map (fun r => map (fun y => (y, r)) (before r all)) rights).

Definition eq_of (p : N * N) : CExpression D := PexprScalarEqCmp (col p.1) (col p.2).

Lemma equality_left_take r lefts : forall n,
  equality_left cx r lefts n = map eq_of (take (GPOPT_MAX_DERIVED_PREDS - n) (map (fun y => (y, r)) (before r lefts))).
Proof.
  clear Hid Hflag.
  induction lefts as [|y lefts IH]; intros n; cbn [equality_left before map]; [by rewrite take_nil|].
  destruct (n <? GPOPT_MAX_DERIVED_PREDS) eqn:En; cbn [negb].
  - apply Nat.ltb_lt in En. destruct (N.eqb y r); cbn [map]; [by rewrite take_nil|].
    replace (GPOPT_MAX_DERIVED_PREDS - n) with (S (GPOPT_MAX_DERIVED_PREDS - S n)) by lia. cbn [map take]. by rewrite IH.
  - apply Nat.ltb_ge in En. by replace (GPOPT_MAX_DERIVED_PREDS - n) with 0 by lia.
Qed.

(** The loops make the first predicates of all pairs. *)
Lemma equality_loop_take all rights : forall n,
  equality_loop cx all rights n = map eq_of (take (GPOPT_MAX_DERIVED_PREDS - n) (all_pairs all rights)).
Proof.
  clear Hid Hflag.
  induction rights as [|r rights IH]; intros n; cbn [equality_loop all_pairs map concat]; [by rewrite take_nil|].
  destruct (n <? GPOPT_MAX_DERIVED_PREDS) eqn:En; cbn [negb].
  - apply Nat.ltb_lt in En. rewrite IH, equality_left_take, take_app, map_app. f_equal. fold (all_pairs all rights). do 2 f_equal.
    rewrite !length_map, length_take, length_map. lia.
  - apply Nat.ltb_ge in En. by replace (GPOPT_MAX_DERIVED_PREDS - n) with 0 by lia.
Qed.

Lemma elem_of_before x y (l : list N) : y ∈ before x l -> y ∈ l /\ y <> x.
Proof.
  clear Hid Hflag.
  induction l as [|z l IH]; cbn; [set_solver|]. destruct (N.eqb_spec z x); [set_solver|]. intros [->|Hy]%elem_of_cons; [set_solver|].
  destruct (IH Hy). split; [set_solver|done].
Qed.

(** Of two columns of the list one is before the other. *)
Lemma before_total (l : list N) x y : x ∈ l -> y ∈ l -> x <> y -> x ∈ before y l \/ y ∈ before x l.
Proof.
  clear Hid Hflag.
  induction l as [|z l IH]; cbn; [set_solver|]. intros Hx Hy Hne.
  apply elem_of_cons in Hx as [Hx|Hx], Hy as [Hy|Hy].
  { congruence. }
  { subst z. rewrite (proj2 (N.eqb_neq x y)) by done. left. set_solver. }
  { subst z. rewrite (proj2 (N.eqb_neq y x)) by done. right. set_solver. }
  destruct (N.eqb_spec z x) as [E1|E1], (N.eqb_spec z y) as [E2|E2]; [congruence|subst z; left; set_solver|subst z; right; set_solver|].
  destruct (IH Hx Hy Hne); [left|right]; set_solver.
Qed.

Lemma elem_of_all_pairs all rights x y : (x, y) ∈ all_pairs all rights <-> y ∈ rights /\ x ∈ before y all.
Proof.
  unfold all_pairs. rewrite elem_of_concat_map. split.
  - intros (r & Hr & Hxy). apply list_elem_of_In, in_map_iff in Hxy as (z & [= <- <-] & Hz). split; [done|by apply list_elem_of_In].
  - intros [Hy Hx]. exists y. split; [done|]. apply list_elem_of_In, in_map_iff. exists x. split; [done|by apply list_elem_of_In].
Qed.

Lemma before_length (l : list N) : NoDup l -> length (all_pairs l l) * 2 = length l * (length l - 1).
Proof.
  clear Hid Hflag.
  intros Hn. assert (forall pre post, l = pre ++ post -> length (all_pairs l post) * 2 = length post * (length pre * 2 + length post - 1)) as Hgen.
  { intros pre post. revert pre. induction post as [|r post IH]; intros pre El; [done|]. unfold all_pairs. cbn [map concat]. rewrite length_app, length_map.
    specialize (IH (pre ++ [r])). rewrite <- app_assoc in IH. specialize (IH El). unfold all_pairs in IH.
    assert (before r l = pre) as ->.
    { rewrite El in Hn |- *. clear -Hn. induction pre as [|z pre IHp]; cbn; [by rewrite N.eqb_refl|].
      apply NoDup_cons in Hn as [Hz Hn]. destruct (N.eqb_spec z r) as [->|]; [set_solver|]. f_equal. by apply IHp. }
    rewrite length_app in IH. cbn [length] in *. nia. }
  specialize (Hgen [] l eq_refl). cbn in Hgen. done.
Qed.

Lemma eq_of_true row x y : x <> y -> holds false (eval_bool oo row (eq_of (x, y))) = true <-> equal_values row x y.
Proof.
  intros Hne. unfold eq_of, PexprScalarEqCmp, eval_bool. cbn [eval fst snd]. rewrite truth_of_bool, !Hid. split.
  - intros Hh. right. destruct (row x) as [a|]; [|done]. destruct (row y) as [b|]; [|done]. exists a, b. done.
  - intros [?|(a & b & -> & -> & E)]; [done|]. cbn. by rewrite E.
Qed.

Lemma bits_length (s : gset N) : length (bits s) = size s.
Proof. unfold bits. by rewrite merge_sort_Permutation. Qed.

Lemma equality_predicates_ret (pcrs : gset N) row :
  let es := equality_loop cx (bits pcrs) (bits pcrs) 0 in
  PexprConjEqualityPredicates cx pcrs = PexprConjunction es /\
  length es = Nat.min GPOPT_MAX_DERIVED_PREDS (size pcrs * (size pcrs - 1) / 2) /\
  ((forall x y, x ∈ pcrs -> y ∈ pcrs -> equal_values row x y) ->
     holds false (eval_bool oo row (PexprConjEqualityPredicates cx pcrs)) = true) /\
  (size pcrs * (size pcrs - 1) / 2 <= GPOPT_MAX_DERIVED_PREDS ->
     holds false (eval_bool oo row (PexprConjEqualityPredicates cx pcrs)) = true ->
     forall x y, x ∈ pcrs -> y ∈ pcrs -> equal_values row x y).
Proof.
  cbn zeta. rewrite equality_loop_take, Nat.sub_0_r.
  assert (length (all_pairs (bits pcrs) (bits pcrs)) = size pcrs * (size pcrs - 1) / 2) as Hlen.
  { pose proof (before_length (bits pcrs) (bits_NoDup pcrs)) as Hl. rewrite bits_length in Hl. rewrite <- Hl. by rewrite Nat.div_mul. }
  assert (forall es, holds false (eval_bool oo row (PexprConjunction (map eq_of es))) = forallb (fun q => holds false (eval_bool oo row (eq_of q))) es) as Hev.
  { intros es. unfold PexprConjunction. rewrite PexprConjDisj_eval, holds_junct. induction es as [|q es IH]; [done|]. cbn -[eval_bool holds] in *. by rewrite IH. }
  split_and!.
  - unfold PexprConjEqualityPredicates. by rewrite equality_loop_take, Nat.sub_0_r.
  - rewrite length_map, length_take, Hlen. done.
  - intros Heq. unfold PexprConjEqualityPredicates. rewrite equality_loop_take, Nat.sub_0_r, Hev. apply forallb_forall.
    intros [x y] Hxy%list_elem_of_In%elem_of_take. destruct Hxy as (i & Hi%list_elem_of_lookup_2 & _).
    apply elem_of_all_pairs in Hi as [Hy [Hx Hne]%elem_of_before]. apply eq_of_true; [done|]. apply Heq; by apply elem_of_bits.
  - intros Hle Hh x y Hx Hy. unfold PexprConjEqualityPredicates in Hh. rewrite equality_loop_take, Nat.sub_0_r, Hev in Hh.
    rewrite take_ge in Hh by (rewrite Hlen; done). rewrite forallb_forall in Hh.
    assert (forall u v, u ∈ pcrs -> v ∈ pcrs -> u <> v -> u ∈ before v (bits pcrs) -> equal_values row u v) as Hp.
    { intros u v Hu Hv Hne Hb. apply eq_of_true; [done|]. apply Hh, list_elem_of_In, elem_of_all_pairs. by rewrite elem_of_bits. }
    destruct (decide (x = y)) as [->|Hne]; [by left|].
    destruct (before_total (bits pcrs) x y) as [Hb|Hb]; [by apply elem_of_bits..|done|by apply Hp|].
    destruct (Hp y x) as [->|(a & b & H1 & H2 & H3)]; [done..|by left|]. right. exists b, a. split_and!; [done..|].
    rewrite eq_spec in *. by rewrite andb_comm.
Qed.

End Proofs.
End PropConstraint.
