(* ===== verification/FilterCoverage.v ===== *)
(** * Coverage of a referring domain by a filter

    Source: [FReferringDomainCoveredByFilter] of libgpopt/src/dsl/CDSLConstraintChecker.cpp.
    A rewrite that relies on a foreign key may be applied below a filter on the
    referred side if the filter keeps every key the referring side can have. The
    check derives the constraint of the filter and compares it, key column by key
    column, with the constraint of the referring expression. *)
From stdpp Require Import base numbers list gmap sets sorting relations.
From S2P Require Import Prelude Range ConstraintInterval ScalarExpr ScalarInterval IntervalEnds EquivClasses Constraint ConstraintSem ConstraintProject ConstraintDerive PropConstraint.

Module FilterCoverage.
Import Range ConstraintInterval ScalarExpr ScalarInterval IntervalEnds EquivClasses Constraint ConstraintSem ConstraintProject ConstraintDerive PropConstraint.
Open Scope nat_scope.
Open Scope outcome_scope.

Section Model.
Context {D : Type} `{IComparator D} `{IDatum D} (cx : CnCtxt D).

(** The loop that asks whether each conjunct has a constraint *)
Fixpoint fully_constrained (conjuncts : list (CExpression D)) : outcome bool :=
  match conjuncts with
  | [] => mret true
  | e :: es =>
      '(pcnstrConj, _) ← PcnstrFromScalarExpr cx e false EmdindSentinel;
      if match pcnstrConj with Some c => negb (CnUnbounded c) | None => false end then fully_constrained es else mret false
  end.

(** A key column: its place among the referred columns, the local column there,
    and the parts of both constraints *)
Definition column_covered (filterRoot localRoot : CConstraint D) (pdrgpcrLocal pdrgpcrReferred : list N) (pcrReferred : N) : outcome bool :=
  ulMatch ← deref (fst <$> list_find (pcrReferred =.) pdrgpcrReferred);
  pcrLocal ← subscript pdrgpcrLocal ulMatch;
  pcnstrReferred ← Pcnstr cx filterRoot (LookupColRef cx pcrReferred);
  pcnstrLocal ← Pcnstr cx localRoot (LookupColRef cx pcrLocal);
  match pcnstrReferred, pcnstrLocal with
  | Some referred, Some local =>
      pcnstrMapped ← CnRemapForColumn cx referred (LookupColRef cx pcrLocal);
      pcnstrMapped ← deref pcnstrMapped;
      Contains cx pcnstrMapped (Some local)
  | _, _ => mret false
  end.

Fixpoint columns_covered (filterRoot localRoot : CConstraint D) (pdrgpcrLocal pdrgpcrReferred cols : list N) : outcome bool :=
  match cols with
  | [] => mret true
  | i :: cols' =>
      fCovered ← column_covered filterRoot localRoot pdrgpcrLocal pdrgpcrReferred i;
      if (fCovered : bool) then columns_covered filterRoot localRoot pdrgpcrLocal pdrgpcrReferred cols' else mret false
  end.

(** [FReferringDomainCoveredByFilter], given the constraint of the property of the
    referring expression *)
Definition FReferringDomainCoveredByFilter (pcnstrLocalRoot : option (CConstraint D))
    (pdrgpcrLocal pdrgpcrReferred : list N) (pexprFilter : CExpression D) : outcome bool :=
  if negb (length pdrgpcrLocal =? length pdrgpcrReferred) then mret false else
  let pcrsUsed : gset N := list_to_set (used_columns pexprFilter) in
  if size pcrsUsed =? 0 then mret false else
  if negb (forallb (fun i => bool_decide (i ∈ pdrgpcrReferred)) (bits pcrsUsed)) then mret false else
  fFullyConstrained ← fully_constrained (PdrgpexprConjuncts pexprFilter);
  if negb fFullyConstrained then mret false else
  '(pcnstrFilterRoot, _) ← PcnstrFromScalarExpr cx pexprFilter false EmdindSentinel;
  match pcnstrLocalRoot, pcnstrFilterRoot with
  | Some localRoot, Some filterRoot => columns_covered filterRoot localRoot pdrgpcrLocal pdrgpcrReferred (bits pcrsUsed)
  | _, _ => mret false
  end.
End Model.

(** ** Filters the check is right about *)

Section Proofs.
Context {D : Type} `{CL : ComparatorLaws D} `{ID : IDatum D} `{DL : !DatumLaws D}.
Context (cx : CnCtxt D) (oo : OtherOps D).
Hypothesis Hid : forall i, m_id (LookupColRef cx i) = i.
Hypothesis Hflag : EopttraceConsiderOpfamiliesForDistribution (flags (cn_ctxt cx)) = false.
Implicit Types (p : CConstraintInterval D) (c : CConstraint D) (l : list (CConstraint D)) (row : N -> option D)
  (e : CExpression D) (es : list (CExpression D)).
Abbreviation cn_ok := (cn_ok cx).
Abbreviation row_ok := (row_ok cx).
Abbreviation col := (LookupColRef cx).
Abbreviation bctx := (cn_ctxt cx).

(** A predicate on one column with an exact interval *)
Record exact_column (e : CExpression D) (i : N) : Prop := {
  ec_used : columns e = {[i]};
  ec_sup : supported bctx (col i) e;
  ec_const : constants_ok (value_of (col i)) e;
  ec_usable : usable cx (col i);
}.

(** Conjunctions of such predicates *)
Inductive exact_filter : CExpression D -> Prop :=
  | ef_one i e : exact_column e i -> exact_filter e
  | ef_and es : 2 <= size (columns_of es) -> (forall e, e ∈ es -> exists i, exact_column e i) ->
      exact_filter (CScalarBoolOp EboolopAnd es).

Definition is_interval c : Prop := exists p, c = Interval p.

(** The constraint of such a filter: intervals that say what the filter says *)
Record filter_constraint (e : CExpression D) (c : CConstraint D) : Prop := {
  fc_ok : cn_ok c;
  fc_intervals : forall x, x ∈ literals c -> is_interval x;
  fc_used : PcrsUsed c ⊆ columns e;
  fc_sat : forall row, row_ok row -> sat row c = holds false (eval_bool oo row e);
}.

Lemma exact_column_ret e i : exact_column e i ->
  returns (PcnstrFromScalarExpr cx e false EmdindSentinel) (fun r => exists p L, r = (Some (Interval p), Some L) /\
    disjoint_classes L /\ filter_constraint e (Interval p)).
Proof.
  intros [Hu Hs Hk Hus]. rewrite (derive_one cx e i) by done. unfold one_column. cbn zeta. rewrite (us_constr _ _ Hus). cbn [negb].
  destruct (from_predicate cx Hid oo i e EmdindSentinel Hus (conj Hs Hk)) as (? & -> & p & -> & Hok & Hon & Hp). rewrite bind_ret, bind_mret.
  apply returns_ret. eexists p, _. split_and!; [done|repeat constructor|]. split; [done| |by rewrite Hon, Hu|done].
  intros x ->%list_elem_of_singleton. by exists p.
Qed.

(** Intervals stay intervals when they are combined. *)
Lemma wlp_for_each {A T} (xs : list A) (body : A -> T -> outcome T) (I : T -> Prop) t :
  I t -> (forall a t, a ∈ xs -> I t -> wlp (body a t) I) -> wlp (for_each xs body t) I.
Proof.
  revert t. induction xs as [|a xs IH]; intros t Ht Hb; cbn; [by apply wlp_ret|].
  eapply wlp_bind; [apply Hb; [set_solver|done]|]. intros t' Ht'. apply IH; [done|]. intros b t'' Hbx. apply Hb. set_solver.
Qed.

Lemma conj_ctor_intervals l : (forall x, x ∈ l -> is_interval x) ->
  wlp (CConstraintConjunction_ctor cx l) (fun c => forall x, x ∈ literals c -> is_interval x).
Proof.
  intros Hl. unfold CConstraintConjunction_ctor. apply wlp_any. intros u.
  assert (concat (map (fun c => match c with Conjunction _ l => l | _ => [c] end) l) = l) as Hflat.
  { clear u. induction l as [|x l IH]; [done|]. destruct (Hl x) as [p ->]; [set_solver|]. cbn. f_equal. apply IH. set_solver. }
  eapply wlp_bind with (Ψ := fun l' => forall x, x ∈ l' -> is_interval x); [|intros l' Hl'; by apply wlp_ret].
  unfold PdrgpcnstrFlatten. cbn zeta.
  replace (concat (map _ l)) with l by (rewrite <- Hflat at 1; f_equal; apply map_ext; by intros []).
  eapply wlp_bind with (Ψ := fun acc => forall x, x ∈ acc.1 -> is_interval x); [|intros [l' s] Hl'; by apply wlp_ret].
  apply wlp_for_each; [cbn; set_solver|]. intros x [acc s] Hx Hacc. cbn in Hacc.
  assert (forall y, is_interval y -> forall z, z ∈ acc ++ [y] -> is_interval z) as Hadd.
  { intros y Hy z [Hz| ->%list_elem_of_singleton]%elem_of_app; auto. }
  unfold dedup_child. apply wlp_any. intros _. destruct (negb _); [apply wlp_ret; cbn; apply Hadd; auto|]. apply wlp_any. intros i.
  destruct (bool_decide _); [by apply wlp_ret|]. apply wlp_any. intros cs. destruct (_ =? 1); [apply wlp_ret; cbn; apply Hadd; auto|].
  apply wlp_any. intros e. apply wlp_any. intros o. apply wlp_ret. cbn. apply Hadd. destruct o as [p|]; [by exists p|auto].
Qed.

Lemma and_intervals_ret es : (forall e, e ∈ es -> exists i, exact_column e i) -> forall acc L, disjoint_classes L ->
  returns (bool_op_loop (fun e => PcnstrFromScalarExpr cx e false EmdindSentinel) EboolopAnd es acc L) (fun r => exists cs L',
    r = inr (acc ++ cs, L') /\ (forall c, c ∈ cs -> cn_ok c /\ is_interval c /\ PcrsUsed c ⊆ columns_of es) /\
    forall row, row_ok row -> all_any true row cs = holds false (all3 (map (eval_bool oo row) es))).
Proof.
  induction es as [|e es IH]; intros Hes acc L HL; cbn [bool_op_loop].
  { apply returns_ret. exists [], L. rewrite app_nil_r. split_and!; [done|set_solver|done]. }
  destruct (Hes e ltac:(set_solver)) as [i Hi]. destruct (exact_column_ret e i Hi) as (? & -> & p & Lc & -> & HLc & [F1 F2 F4 F3]). rewrite bind_ret.
  assert (columns_of (e :: es) = columns e ∪ columns_of es) as Hcol by (unfold columns_of, columns; cbn; apply list_to_set_app_L).
  assert (forall row, holds false (all3 (map (eval_bool oo row) (e :: es))) =
    holds false (eval_bool oo row e) && holds false (all3 (map (eval_bool oo row) es))) as Hcons by (intros row; apply holds_and).
  destruct (CnUnbounded (Interval p)) eqn:Eu.
  - eapply returns_mono; [apply (IH ltac:(set_solver) acc L HL)|]. cbn beta. intros r (cs & L' & -> & H1 & H2). exists cs, L'. split_and!; [done| |].
    { intros c (? & ? & Hu)%H1. split_and!; [done..|]. rewrite Hcol. set_solver. }
    intros row Hrow. rewrite Hcons, H2, <- F3 by done. by rewrite (proj2 (contradiction_unbounded cx _ row F1 Hrow) Eu).
  - rewrite bind_assert by done. cbn [deref]. rewrite bind_ret. destruct (merge_ret EboolopAnd L Lc HL HLc) as (L1 & -> & HL1 & _).
    rewrite bind_ret. eapply returns_mono; [apply (IH ltac:(set_solver) (acc ++ [Interval p]) L1 HL1)|]. cbn beta. intros r (cs & L' & -> & H1 & H2).
    exists (Interval p :: cs), L'. rewrite <- app_assoc. split_and!; [done| |].
    + intros c [->|(? & ? & Hu)%H1]%elem_of_cons; rewrite Hcol; (split_and!; [done| |]); [by exists p|set_solver|done|set_solver].
    + intros row Hrow. rewrite Hcons, <- F3 by done. rewrite <- H2 by done. done.
Qed.

Lemma filter_ret e : exact_filter e ->
  returns (PcnstrFromScalarExpr cx e false EmdindSentinel) (fun r => forall c, r.1 = Some c -> filter_constraint e c).
Proof.
  intros [i e' He|es Hsz Hes].
  - eapply returns_mono; [by apply (exact_column_ret e' i)|]. cbn beta. intros r (p & L & -> & _ & Hf) c [= <-]. done.
  - rewrite (derive_multi cx) by done. rewrite bool_op_many by done.
    destruct (and_intervals_ret es Hes [] [] ltac:(constructor)) as (? & -> & cs & L & -> & H1 & H2). rewrite bind_ret. cbn [app].
    destruct (junct_made cx oo Hid Hflag true cs L) as (r & E & _ & Hr & _); [by intros c [? _]%H1|].
    exists r. split; [by destruct cs as [|c [|d cs]]|]. intros c Hc. destruct r as [o L2]. cbn in Hc, Hr. subst o.
    destruct Hr as [_ [S1 S2 S3 S4]]. split; [done| | |].
    + destruct cs as [|x [|y cs]]; [done| |].
      * injection E as Ex _. subst x. destruct (H1 c) as (_ & [p ->] & _); [set_solver|]. intros z ->%list_elem_of_singleton. by exists p.
      * change ((CConstraintConjunction_ctor cx (x :: y :: cs) ≫= fun c => mret (Some c, Some L)) = Ret (Some c, L2)) in E.
        destruct (CConstraintConjunction_ctor cx (x :: y :: cs)) as [d|] eqn:Ed; [|done]. injection E as <- _.
        eapply conj_ctor_intervals; [|exact Ed]. by intros z (_ & Hz & _)%H1.
    + rewrite S2. apply used_by_sub. by intros x (_ & _ & ?)%H1.
    + intros row Hrow. rewrite S4, H2, (eval_bool_op oo row true) by done. done.
Qed.

(** ** The parts of the filter *)

(** The part of the filter on a column says what its intervals on the column say. *)
Lemma filter_part c i : cn_ok c -> (forall x, x ∈ literals c -> is_interval x) ->
  returns (Pcnstr cx c (col i)) (fun o => (forall x, o = Some x -> cn_ok x /\ on_column i x) /\
    forall row, row_ok row -> sat_opt row o = all_any true row (filter (fun c => i ∈ PcrsUsed c) (literals c))).
Proof.
  intros Hok Hl. assert (forall x, x ∈ literals c -> i ∈ PcrsUsed x -> on_column i x) as Hon.
  { intros x Hx Hi. destruct (Hl x Hx) as [p ->]. unfold on_column. cbn in *. set_solver. }
  assert ((exists u l, c = Conjunction u l) \/ literals c = [c]) as [(u & l & ->)|El] by (destruct c; eauto).
  - cbn [literals] in *. pose proof Hok as Hok'. apply (cn_ok_junction cx true) in Hok' as (_ & Hul & Hok'). cbn [Pcnstr]. unfold PhmFind. rewrite Hid.
    destruct (bool_decide (i ∈ u)) eqn:Ei.
    + destruct (conj_parts_ret cx Hid Hflag i (fun c => Pcnstr cx c (col i)) l) as (ps & -> & H1 & _ & H3).
      { intros x Hx. split; [by apply Hok'|]. by apply (Pcnstr_ret cx oo Hid Hflag), Hok'. }
      rewrite bind_ret. eapply returns_mono; [by apply (made_of_parts cx oo Hid Hflag)|]. cbn beta. intros o (H4 & H5 & _).
      split; [done|]. intros row Hrow. rewrite H5, H3; auto.
    + apply bool_decide_eq_false in Ei. apply returns_ret. split; [done|]. intros row _. cbn. symmetry.
      apply forallb_forall. intros x [Hi Hx]%list_elem_of_In%list_elem_of_filter. destruct Ei. rewrite Hul. apply elem_of_used_by. eauto.
  - rewrite El in *. destruct (Hl c) as [p ->]; [set_solver|]. cbn [Pcnstr]. apply returns_ret. unfold same_col. rewrite Hid, filter_cons, filter_nil.
    cbn [PcrsUsed]. destruct (N.eqb_spec (m_id (m_pcr p)) i) as [Hi|Hi].
    + rewrite decide_True by set_solver. split; [|intros row _; cbn; by rewrite andb_true_r].
      intros x [= <-]. split; [done|]. unfold on_column. cbn. by rewrite Hi.
    + by rewrite decide_False by set_solver.
Qed.

(** A yes of [Contains] for constraints on one column *)
Lemma contains_column c o j row : cn_ok c -> on_column j c -> cn_ok o -> Contains cx c (Some o) = Ret true ->
  row_ok row -> sat row o = true -> sat row c = true.
Proof.
  intros Hok Hon Hoko Hc Hrow Hs. unfold Contains in Hc. destruct (CnUnbounded c) eqn:Eu.
  { by apply (contradiction_unbounded cx). }
  destruct (CnUnbounded o); [done|]. rewrite Hon in Hc. assert (bits {[j]} = [j]) as Eb.
  { pose proof (bits_length {[j]}) as Hl. rewrite size_singleton in Hl. pose proof (elem_of_bits {[j]} j) as Hj.
    destruct (bits {[j]}) as [|x [|y xs]]; try done. assert (j = x) as -> by set_solver. done. }
  rewrite Eb in Hc. cbn [contains_loop] in Hc. destruct (contains_on cx c o j) as [[]|] eqn:Eo; try done. clear Hc.
  unfold contains_on in Eo. cbn zeta in Eo.
  destruct (Pcnstr_ret cx oo Hid Hflag c j Hok) as (x & Ex & [X1 _ X3]). rewrite Ex, bind_ret in Eo. destruct x as [x|]; [|done].
  destruct (Pcnstr_ret cx oo Hid Hflag o j Hoko) as (y & Ey & [Y1 Y2 _]). rewrite bind_assert, Ey, bind_ret in Eo by done.
  assert (usable cx (col j)) as Hu by (apply (used_usable cx c); [done|rewrite Hon; set_solver]).
  destruct (interval_from_ret cx oo Hid Hflag (Some x) j Hu X1) as (? & Ep & p & -> & Hp & Hpi & Hps).
  destruct (interval_from_ret cx oo Hid Hflag y j Hu Y1) as (? & Eq & q & -> & Hq & Hqi & Hqs).
  rewrite Ep, bind_ret, Eq, bind_ret in Eo. cbn [deref] in Eo. rewrite !bind_ret in Eo.
  destruct (FContains_ret cx Hid Hflag p q j Hp Hpi Hq Hqi) as (b & Eb' & Hb). rewrite Eo in Eb'. injection Eb' as <-.
  rewrite <- (X3 Hon row Hrow), <- Hps by done. apply Hb; [done|done|]. rewrite Hqs by done. by apply Y2.
Qed.

(** ** The check *)

(** The columns of the key, pairwise of one kind *)
Definition key_ok (locals referreds : list N) : Prop :=
  forall k i j, referreds !! k = Some i -> locals !! k = Some j -> alike cx i j /\ usable cx (col j).

(** The referred row has the key of the referring row. *)
Definition same_key (locals referreds : list N) (local referred : N -> option D) : Prop :=
  forall k i j, referreds !! k = Some i -> locals !! k = Some j -> referred i = local j.

Lemma column_covered_sound c localRoot locals referreds i rl rr :
  cn_ok c -> (forall x, x ∈ literals c -> is_interval x) -> cn_ok localRoot -> key_ok locals referreds ->
  column_covered cx c localRoot locals referreds i = Ret true ->
  row_ok rl -> row_ok rr -> sat rl localRoot = true -> same_key locals referreds rl rr ->
  all_any true rr (filter (fun c => i ∈ PcrsUsed c) (literals c)) = true.
Proof.
  intros Hok Hl Hlok Hkey Hc Hrl Hrr Hs Hsame. unfold column_covered in Hc.
  destruct (list_find (i =.) referreds) as [[k i']|] eqn:Ek; [|done]. apply list_find_Some in Ek as (Hk & Hi & _). cbn in Hi. subst i'.
  cbn [fmap option_fmap option_map fst deref] in Hc. rewrite bind_ret in Hc. unfold subscript in Hc.
  destruct (locals !! k) as [j|] eqn:Ej; [|done]. rewrite bind_ret in Hc. destruct (Hkey k i j Hk Ej) as [Hal Huj].
  destruct (filter_part c i Hok Hl) as (x & Ex & Hx1 & Hx2). rewrite Ex, bind_ret in Hc.
  destruct (Pcnstr_ret cx oo Hid Hflag localRoot j Hlok) as (y & Ey & [Y1 Y2 _]). rewrite Ey, bind_ret in Hc.
  destruct x as [x|]; [|done]. destruct y as [y|]; [|done]. destruct (Hx1 x eq_refl) as [Hxok Hxi].
  destruct (remap_ret cx oo Hid Hflag x j Hxok) as (? & Em & m & -> & [M1 M2 _ M4]); [by eapply column_pure|done| |].
  { intros n Hn. rewrite Hxi in Hn. apply elem_of_singleton in Hn as ->. done. }
  rewrite Em, bind_ret in Hc. cbn [deref] in Hc. rewrite bind_ret in Hc.
  destruct (Y1 y eq_refl) as [Hyok _]. pose proof (contains_column m y j rl M1 M2 Hyok Hc Hrl (Y2 rl Hrl Hs)) as Hm.
  rewrite <- Hx2 by done. cbn. rewrite M4 in Hm by done. rewrite <- (Hsame k i j Hk Ej) in Hm.
  rewrite sat_equal with (cx := cx) (row := rr) in Hm; [done|done..|]. intros n Hn. rewrite Hxi in Hn. left. set_solver.
Qed.

Lemma columns_covered_sound c localRoot locals referreds cols rl rr :
  cn_ok c -> (forall x, x ∈ literals c -> is_interval x) -> cn_ok localRoot -> key_ok locals referreds ->
  columns_covered cx c localRoot locals referreds cols = Ret true ->
  row_ok rl -> row_ok rr -> sat rl localRoot = true -> same_key locals referreds rl rr ->
  forall i, i ∈ cols -> all_any true rr (filter (fun c => i ∈ PcrsUsed c) (literals c)) = true.
Proof.
  intros Hok Hl Hlok Hkey Hc Hrl Hrr Hs Hsame. induction cols as [|j cols IH]; [set_solver|]. cbn [columns_covered] in Hc.
  destruct (column_covered cx c localRoot locals referreds j) as [[]|] eqn:Ej; try done. rewrite bind_ret in Hc.
  intros i [->|Hi]%elem_of_cons; [by apply (column_covered_sound c localRoot locals referreds j rl rr)|by apply IH].
Qed.

(** A filter that covers the referring domain is true for every key it has. *)
Lemma coverage_sound localRoot locals referreds e rl rr :
  exact_filter e -> (forall c, localRoot = Some c -> cn_ok c) -> key_ok locals referreds ->
  FReferringDomainCoveredByFilter cx localRoot locals referreds e = Ret true ->
  row_ok rl -> row_ok rr -> sat_opt rl localRoot = true -> same_key locals referreds rl rr ->
  holds false (eval_bool oo rr e) = true.
Proof.
  intros He Hlok Hkey Hc Hrl Hrr Hs Hsame. unfold FReferringDomainCoveredByFilter in Hc. destruct (negb _); [done|]. cbn zeta in Hc.
  destruct (size _ =? 0); [done|]. destruct (negb (forallb _ _)); [done|].
  destruct (fully_constrained cx (PdrgpexprConjuncts e)) as [[]|]; try done. rewrite bind_ret in Hc. cbn [negb] in Hc.
  destruct (filter_ret e He) as ([o L] & Er & Hf). rewrite Er, bind_ret in Hc. destruct localRoot as [lr|]; [|done].
  destruct o as [c|]; [|done]. destruct (Hf c eq_refl) as [F1 F2 F4 F3]. rewrite <- F3 by done. rewrite literals_sat.
  apply forallb_forall. intros x Hx%list_elem_of_In. destruct (F2 x Hx) as [p Ep].
  destruct (literals_used cx c F1) as (Hu & _ & _).
  pose proof (columns_covered_sound c lr locals referreds _ rl rr F1 F2 (Hlok lr eq_refl) Hkey Hc Hrl Hrr Hs Hsame (m_id (m_pcr p))) as Hall.
  unfold all_any in Hall. cbn in Hall. rewrite forallb_forall in Hall. apply Hall.
  - apply elem_of_bits, F4. rewrite Hu. apply elem_of_used_by. exists x. split; [done|]. subst x. cbn. set_solver.
  - apply list_elem_of_In, list_elem_of_filter. split; [|done]. subst x. cbn. set_solver.
Qed.

End Proofs.
End FilterCoverage.
