(* ===== verification/IntDatum.v ===== *)
(** * A concrete datum type

    Datums that are null, boolean or integer, ordered the way [CDefaultComparator]
    documents it: null is below everything and equal to itself.  The instance
    evaluates the examples and witnesses of the development. *)
From stdpp Require Import base numbers list sets sorting.
From S2P Require Import Prelude Range ConstraintInterval ScalarExpr ScalarInterval.

Module IntDatum.
Import Range ConstraintInterval ScalarExpr ScalarInterval.

Inductive datum := DNull | DBool (b : bool) | DInt (z : Z).

#[export] Instance datum_eq_dec : EqDecision datum.
Proof. solve_decision. Defined.

Definition lt (a b : datum) : bool :=
  match a, b with
  | DNull, DNull => false
  | DNull, _ => true
  | DBool x, DBool y => negb x && y
  | DBool _, DInt _ => true
  | DInt x, DInt y => (x <? y)%Z
  | _, _ => false
  end.

#[export] Instance datum_comparator : IComparator datum := {
  IsLessThan := lt;
  Range.Equals := fun a b => bool_decide (a = b);
  IsLessThanOrEqual := fun a b => negb (lt b a);
  IsGreaterThan := fun a b => lt b a;
  IsGreaterThanOrEqual := fun a b => negb (lt a b)
}.

#[export] Instance datum_comparator_laws : ComparatorLaws datum.
Proof.
  split; try done.
  - intros [| |]; simpl; [done|by destruct b|lia].
  - intros [|[]|] [|[]|] [|[]|]; simpl; try done; lia.
  - intros [|[]|] [|[]|] [|[]|]; simpl; try (intros; by auto); try lia.
  - intros a b. simpl. apply eq_bool_prop_intro. rewrite Is_true_true, bool_decide_eq_true.
    destruct a as [|[]|x], b as [|[]|y]; simpl; try (split; done).
    rewrite Is_true_true, andb_true_iff, !negb_true_iff, !Z.ltb_ge. split.
    + intros [= ->]. lia.
    + intros. f_equal. lia.
Qed.

#[export] Instance datum_datum : IDatum datum := {
  IsNull := fun d => bool_decide (d = DNull);
  CreateBoolDatum := DBool;
  bool_value := fun d => match d with DBool b => Some b | _ => None end
}.

#[export] Instance datum_laws : DatumLaws datum.
Proof. by split. Qed.

(** An int4 column and a boolean column. *)
Definition int4 : IMDType := mkType EtiInt4 mdid_other (fun _ => true) true.
Definition booltype : IMDType := mkType EtiBool mdid_bool (fun _ => true) true.
Definition col_a : CColRef := mkCol 1 int4.
Definition col_b : CColRef := mkCol 2 booltype.

Definition all_flags : TraceFlags := mkFlags true true false.
Definition ctx : Ctxt datum := mkCtxt datum all_flags (fun _ _ _ => true).

(** Executor operators for the examples: casts are the identity, the unknown
    operators yield true. *)
Definition ops : OtherOps datum :=
  mkOther datum (fun v => v) (fun _ _ => None) (fun _ _ => Some (DBool true)).

(** A row whose columns all have the value [v]. *)
Definition row_of (v : option datum) : N -> option datum := fun _ => v.

Definition cmp (c : ECmpType) (z : Z) : CExpression datum :=
  CScalarCmp c (CScalarIdent col_a) (CScalarConst (DInt z)).

(** Intervals of the integer column. *)
Definition closed (l u : Z) : CRange datum := mkRange (Some (DInt l)) EriIncluded (Some (DInt u)) EriIncluded.
Definition interval (rs : list (CRange datum)) (n : bool) : CConstraintInterval datum := mkCI col_a rs n.

(** Deciding the order of the ranges of a concrete interval. *)
Fixpoint ranges_okb (rs : list (CRange datum)) : bool :=
  match rs with
  | [] => true
  | r :: rs' =>
      negb (cleb (rcut r) (lcut r)) &&
      (negb (is_null (m_pdatumLeft r)) || bool_decide (m_eriLeft r = EriExcluded)) &&
      (negb (is_null (m_pdatumRight r)) || bool_decide (m_eriRight r = EriExcluded)) &&
      forallb (fun s => cleb (rcut r) (lcut s)) rs' && ranges_okb rs'
  end.

Lemma ranges_okb_ok rs : ranges_okb rs = true -> ranges_ok rs.
Proof.
  induction rs as [|r rs IH]; [intros; apply ranges_ok_nil|]. cbn [ranges_okb].
  rewrite !andb_true_iff, !orb_true_iff, !negb_true_iff. intros ((((H1 & H2) & H3) & H4) & H5).
  apply ranges_ok_cons. split_and!.
  - split; [done| |].
    + intros E. rewrite E in H2. destruct H2 as [|H2]; [done|]. by apply bool_decide_eq_true in H2.
    + intros E. rewrite E in H3. destruct H3 as [|H3]; [done|]. by apply bool_decide_eq_true in H3.
  - by apply IH.
  - apply Forall_forall. intros s Hs. rewrite forallb_forall in H4. apply H4. by apply list_elem_of_In.
Qed.

End IntDatum.
