(* ===== verification/IntervalProps.v ===== *)
(** * Properties of ranges and intervals

    The contracts of [CRange] and [CConstraintInterval] as statements about the
    values a column may take, and of the functions between predicates and
    intervals as statements about the truth value of the predicate. *)
From stdpp Require Import base numbers list sets sorting.
From S2P Require Import Prelude Range ConstraintInterval ScalarExpr ScalarInterval IntDatum.

Module IntervalProps.
Import Range ConstraintInterval ScalarExpr ScalarInterval IntDatum.

(** ** Set operations *)

(** C25: [PciUnion] of two well-formed intervals on the same column returns a
    well-formed interval on that column that has exactly the values, NULL
    included, of the one or the other. *)
Theorem union_correct {D} `{CL : ComparatorLaws D} (p q : CConstraintInterval D) :
  interval_ok p -> interval_ok q -> same_col (m_pcr p) (m_pcr q) = true ->
  exists u, PciUnion p q = Ret u /\ interval_ok u /\ m_pcr u = m_pcr p /\
    forall v, in_interval u v = in_interval p v || in_interval q v.
Proof.
  intros Hp Hq Hc. destruct (PciUnion_denotes p q (m_pcr p) (in_interval p) (in_interval q))
    as (u & E & Hu & Hok & _ & Hv); [by apply denotes_self|by apply denotes_other|].
  by exists u.
Qed.

Definition pair_p := interval [closed 1 3; closed 7 9] false.
Definition pair_q := interval [closed 2 5; closed 9 12] true.

Lemma union_correct_witness :
  exists u, PciUnion pair_p pair_q = Ret u /\ interval_ok u /\ m_pcr u = m_pcr pair_p /\
    forall v, in_interval u v = in_interval pair_p v || in_interval pair_q v.
Proof. apply (union_correct pair_p pair_q); [by apply ranges_okb_ok|by apply ranges_okb_ok|done]. Defined.

(** [PciIntersect] of two well-formed intervals on the same column returns a
    well-formed interval that has exactly the values, NULL included, of both. *)
Theorem intersect_correct {D} `{CL : ComparatorLaws D} (p q : CConstraintInterval D) :
  interval_ok p -> interval_ok q -> same_col (m_pcr p) (m_pcr q) = true ->
  exists u, PciIntersect p q = Ret u /\ interval_ok u /\ m_pcr u = m_pcr p /\
    forall v, in_interval u v = in_interval p v && in_interval q v.
Proof.
  intros Hp Hq Hc. destruct (PciIntersect_denotes p q (m_pcr p) (in_interval p) (in_interval q))
    as (u & E & Hu & Hok & _ & Hv); [by apply denotes_self|by apply denotes_other|].
  by exists u.
Qed.

Lemma intersect_correct_witness :
  exists u, PciIntersect pair_p pair_q = Ret u /\ interval_ok u /\ m_pcr u = m_pcr pair_p /\
    forall v, in_interval u v = in_interval pair_p v && in_interval pair_q v.
Proof. apply (intersect_correct pair_p pair_q); [by apply ranges_okb_ok|by apply ranges_okb_ok|done]. Defined.

(** C28: [PciDifference], with its residual ranges, returns a well-formed interval
    that has exactly the values of the first interval that the second has not. *)
Theorem difference_correct {D} `{CL : ComparatorLaws D} (p q : CConstraintInterval D) :
  interval_ok p -> interval_ok q -> same_col (m_pcr p) (m_pcr q) = true ->
  exists u, PciDifference p q = Ret u /\ interval_ok u /\ m_pcr u = m_pcr p /\
    forall v, in_interval u v = in_interval p v && negb (in_interval q v).
Proof.
  intros Hp Hq Hc. destruct (PciDifference_denotes p q (m_pcr p) (in_interval p) (in_interval q))
    as (u & E & Hu & Hok & _ & Hv); [by apply denotes_self|by apply denotes_other|].
  by exists u.
Qed.

Lemma difference_correct_witness :
  exists u, PciDifference pair_p pair_q = Ret u /\ interval_ok u /\ m_pcr u = m_pcr pair_p /\
    forall v, in_interval u v = in_interval pair_p v && negb (in_interval pair_q v).
Proof. apply (difference_correct pair_p pair_q); [by apply ranges_okb_ok|by apply ranges_okb_ok|done]. Defined.

(** [PciComplement] of a well-formed interval on a column of a constrainable
    type returns a well-formed interval that has exactly the values of the
    column's domain (false and true for a boolean column) that the interval has
    not, and none of its values. *)
Theorem complement_correct {D} `{CL : ComparatorLaws D} `{ID : IDatum D} `{DL : !DatumLaws D}
    (tf : TraceFlags) (p : CConstraintInterval D) :
  interval_ok p -> FConstrainableType tf (RetrieveType (m_pcr p)) = true ->
  exists u, PciComplement tf p = Ret u /\ m_pcr u = m_pcr p /\ interval_ok u /\
    (forall v, in_interval u v = true -> in_interval p v = false) /\
    (forall v, col_value (m_pcr p) v -> in_interval u v = negb (in_interval p v)).
Proof. apply PciComplement_spec. Qed.

Lemma complement_correct_witness :
  exists u, PciComplement all_flags pair_q = Ret u /\ m_pcr u = m_pcr pair_q /\ interval_ok u /\
    (forall v, in_interval u v = true -> in_interval pair_q v = false) /\
    (forall v, col_value (m_pcr pair_q) v -> in_interval u v = negb (in_interval pair_q v)).
Proof. apply (complement_correct all_flags pair_q); [by apply ranges_okb_ok|done]. Defined.

(** [PciComplement] on a column whose type cannot be constrained dereferences
    the null unbounded interval. *)
Theorem complement_unconstrainable {D} `{IComparator D} `{IDatum D} (tf : TraceFlags)
    (p : CConstraintInterval D) :
  FConstrainableType tf (RetrieveType (m_pcr p)) = false -> PciComplement tf p = Abort FNull.
Proof. intros Hc. unfold PciComplement, PciUnbounded. by rewrite Hc. Qed.

Lemma complement_unconstrainable_witness :
  PciComplement (mkFlags false true false)
    (mkCI (mkCol 3 (mkType EtiGeneric mdid_other (fun _ => true) true)) [closed 1 2] false) = Abort FNull.
Proof. apply complement_unconstrainable. reflexivity. Defined.

(** An interval that [FContradiction] reports, the boolean case of two
    excluded ends included, has no value of its column. *)
Theorem contradiction_sound {D} `{CL : ComparatorLaws D} `{ID : IDatum D} `{DL : !DatumLaws D}
    (p : CConstraintInterval D) v :
  FContradiction p = true -> typed p -> col_value (m_pcr p) v -> in_interval p v = false.
Proof. apply FContradiction_sound. Qed.

Definition bool_gap : CConstraintInterval datum :=
  mkCI col_b [mkRange (Some (DBool false)) EriExcluded (Some (DBool true)) EriExcluded] false.

Lemma bool_gap_typed : typed bool_gap.
Proof. intros r ->%list_elem_of_singleton. split; intros d [= <-]; (split; [done|]); by eexists. Qed.

Lemma contradiction_sound_witness : in_interval bool_gap (Some (DBool true)) = false.
Proof. apply contradiction_sound; [reflexivity|exact bool_gap_typed|split; [done|by eexists]]. Defined.

(** When [FContainsInterval] answers yes, every value of the column that the
    argument has is one of this interval, and the call always answers. *)
Theorem contains_sound {D} `{CL : ComparatorLaws D} `{ID : IDatum D} `{DL : !DatumLaws D}
    (p q : CConstraintInterval D) :
  interval_ok p -> interval_ok q -> same_col (m_pcr p) (m_pcr q) = true -> is_bool_col (m_pcr q) = false ->
  exists b, FContainsInterval p q = Ret b /\
    (b = true -> forall v, col_value (m_pcr q) v -> in_interval q v = true -> in_interval p v = true).
Proof.
  intros Hp Hq Hc Hb. unfold FContainsInterval. rewrite bind_assert by done.
  destruct (ConstraintInterval.IsConstraintUnbounded p) eqn:Eu.
  { exists true. split; [done|]. intros _ v _ _. unfold ConstraintInterval.IsConstraintUnbounded in Eu.
    apply andb_true_iff in Eu as [En Er]. destruct v as [d|]; [|done]. unfold in_interval.
    destruct (m_pdrgprng p) as [|r [|]]; try done. unfold Range.IsConstraintUnbounded in Er. simpl. unfold in_range.
    by destruct (m_pdatumLeft r), (m_pdatumRight r). }
  destruct (_ || _); [by exists false|].
  destruct (PciDifference_denotes q p (m_pcr q) (in_interval q) (in_interval p)) as (u & -> & Hu & Hok & _ & Hv).
  { by apply denotes_self. }
  { split_and!; [done| |done]. unfold same_col in *. rewrite N.eqb_eq in *. congruence. }
  eexists. split; [done|]. intros Hcon v Hcv Hin. unfold FContradiction in Hcon. rewrite Hu, Hb in Hcon.
  assert (Hno : in_interval u v = false).
  { destruct u as [cu rs n]. simpl in *. destruct n; simpl in Hcon; [done|].
    destruct rs; simpl in Hcon; [|done]. by destruct v. }
  rewrite Hv, Hin in Hno. simpl in Hno. by apply negb_false_iff.
Qed.

Lemma contains_sound_witness :
  exists b, FContainsInterval (interval [closed 0 20] false) pair_p = Ret b /\
    (b = true -> forall v, col_value (m_pcr pair_p) v -> in_interval pair_p v = true ->
       in_interval (interval [closed 0 20] false) v = true).
Proof.
  apply (contains_sound (interval [closed 0 20] false) pair_p); [by apply ranges_okb_ok|by apply ranges_okb_ok|done|done].
Defined.

(** [CRange::PrngIntersect] of two non-empty ranges returns null exactly when
    they are disjoint as ranges, and otherwise the non-empty range of their
    common values. *)
Theorem range_intersect_correct {D} `{CL : ComparatorLaws D} (r s : CRange D) :
  range_ok r -> range_ok s ->
  exists o, PrngIntersect r s = Ret o /\
    match o with
    | Some t => range_ok t /\ forall v, in_range t v = in_range r v && in_range s v
    | None => forall v, in_range r v && in_range s v = false
    end.
Proof.
  intros Hr Hs. destruct (PrngIntersect_cut r s Hr Hs) as (o & E & Ho). exists o. split; [done|].
  destruct o as [t|].
  - split; [apply Ho|]. intros v. apply eq_bool_prop_intro.
    by rewrite andb_True, !Is_true_true, (overlap_in _ _ _ _ Ho).
  - intros v. destruct (in_range r v) eqn:E1, (in_range s v) eqn:E2; try done.
    destruct Ho as [Ho|Ho]; by rewrite (disjoint_in _ _ v Ho) in *.
Qed.

Lemma closed_ok l u : (l <= u)%Z -> range_ok (closed l u).
Proof. intros. split; [|done|done]. unfold rcut, lcut. simpl. lia. Qed.

Lemma range_intersect_correct_witness :
  exists o, PrngIntersect (closed 1 5) (closed 3 9) = Ret o /\
    match o with
    | Some t => range_ok t /\ forall v, in_range t v = in_range (closed 1 5) v && in_range (closed 3 9) v
    | None => forall v, in_range (closed 1 5) v && in_range (closed 3 9) v = false
    end.
Proof. apply (range_intersect_correct (closed 1 5) (closed 3 9)); apply closed_ok; lia. Defined.

(** ** Predicates and intervals *)

(** C2: for a supported predicate on a constrainable column,
    [PciIntervalFromScalarExpr] returns an interval with exactly the column values
    for which the predicate is true, or, with [infer_nulls_as], not false. *)
Theorem derive_interval_exact {D} `{CL : ComparatorLaws D} `{ID : IDatum D} `{DL : !DatumLaws D}
    (cx : Ctxt D) (oo : OtherOps D) (c : CColRef) e infer am :
  FConstrainableType (flags cx) (RetrieveType c) = true -> supported cx c e ->
  exists p, PciIntervalFromScalarExpr cx e c infer am = Ret (Some p) /\ m_pcr p = c /\ interval_ok p /\
    forall row, col_value c (row (m_id c)) ->
      in_interval p (row (m_id c)) = default infer (eval_bool oo row e).
Proof.
  intros Hc He. destruct (derive_exact cx oo c Hc e He infer am) as (p & E & H1 & H2 & H3). by exists p.
Qed.

(** NOT (a > 3 AND a <= 9) OR a IS NULL *)
Definition pred_example : CExpression datum :=
  CScalarBoolOp EboolopOr
    [CScalarBoolOp EboolopNot [CScalarBoolOp EboolopAnd [cmp EcmptG 3; cmp EcmptLEq 9]];
     PexprIsNull col_a].

Lemma cmp_example_supported k z : k <> EcmptOther -> k <> EcmptIDF -> supported ctx col_a (cmp k z).
Proof. intros. eapply sup_cmp; try done. by left. Qed.

Lemma pred_example_supported : supported ctx col_a pred_example.
Proof.
  apply sup_or; [done|]. intros e [->|[->|[]%not_elem_of_nil]%elem_of_cons]%elem_of_cons.
  - apply sup_not, sup_and; [done|]. intros e [->|[->|[]%not_elem_of_nil]%elem_of_cons]%elem_of_cons;
      by apply cmp_example_supported.
  - by apply sup_null.
Qed.

Lemma derive_interval_exact_witness :
  exists p, PciIntervalFromScalarExpr ctx pred_example col_a false EmdindSentinel = Ret (Some p) /\
    m_pcr p = col_a /\ interval_ok p /\
    forall row, col_value col_a (row (m_id col_a)) ->
      in_interval p (row (m_id col_a)) = default false (eval_bool ops row pred_example).
Proof. apply derive_interval_exact; [reflexivity|exact pred_example_supported]. Defined.

(** Conjunctions, disjunctions and positive boolean tests may hold operands
    the code does not look into; the derived interval, when there is one, has
    every column value that qualifies, so pruning by it loses no row. *)
Theorem derive_interval_covers {D} `{CL : ComparatorLaws D} `{ID : IDatum D} `{DL : !DatumLaws D}
    (cx : Ctxt D) (oo : OtherOps D) (c : CColRef) e infer am :
  FConstrainableType (flags cx) (RetrieveType c) = true -> approximable cx c e ->
  exists o, PciIntervalFromScalarExpr cx e c infer am = Ret o /\
    forall p, o = Some p -> m_pcr p = c /\ interval_ok p /\
      forall row, col_value c (row (m_id c)) -> default infer (eval_bool oo row e) = true ->
        in_interval p (row (m_id c)) = true.
Proof.
  intros Hc He. destruct (derive_covers cx oo c Hc e He infer am) as (o & E & Ho).
  exists o. split; [done|]. intros p ->. destruct Ho as (H1 & H2 & H3). done.
Qed.

(** a > 3 AND f(a) *)
Definition opaque_example : CExpression datum :=
  CScalarBoolOp EboolopAnd [cmp EcmptG 3; CScalarOther 7 [CScalarIdent col_a]].

Lemma opaque_example_approximable : approximable ctx col_a opaque_example.
Proof.
  apply ap_and; [done|]. intros e [->|[->|[]%not_elem_of_nil]%elem_of_cons]%elem_of_cons.
  - apply ap_supported. by apply cmp_example_supported.
  - apply ap_opaque. intros x ->%list_elem_of_singleton. done.
Qed.

Lemma derive_interval_covers_witness :
  exists o, PciIntervalFromScalarExpr ctx opaque_example col_a false EmdindSentinel = Ret o /\
    forall p, o = Some p -> m_pcr p = col_a /\ interval_ok p /\
      forall row, col_value col_a (row (m_id col_a)) -> default false (eval_bool ops row opaque_example) = true ->
        in_interval p (row (m_id col_a)) = true.
Proof. apply derive_interval_covers; [reflexivity|exact opaque_example_approximable]. Defined.

(** [PexprScalar] turns a well-formed interval into a predicate, be it a
    constant, an IN or NOT IN list or a disjunction of comparisons, that is true
    exactly for the values of the interval. *)
Theorem interval_predicate_correct {D} `{CL : ComparatorLaws D} `{ID : IDatum D} `{DL : !DatumLaws D}
    (cx : Ctxt D) (oo : OtherOps D) (p : CConstraintInterval D) :
  interval_ok p -> typed p -> array_usable p ->
  exists e, PexprConstructScalar cx p = Ret e /\
    forall row, col_value (m_pcr p) (row (m_id (m_pcr p))) ->
      default false (eval_bool oo row e) = in_interval p (row (m_id (m_pcr p))).
Proof. intros Hok Ht Ha. by apply construct_eval. Qed.

Definition gaps : CConstraintInterval datum :=
  interval [mkRange None EriExcluded (Some (DInt 3)) EriExcluded;
            mkRange (Some (DInt 3)) EriExcluded (Some (DInt 8)) EriExcluded;
            mkRange (Some (DInt 8)) EriExcluded None EriExcluded] true.

Lemma gaps_typed : typed gaps.
Proof.
  intros r Hr. unfold gaps, interval in Hr. cbn [m_pdrgprng] in Hr. rewrite !elem_of_cons in Hr.
  destruct Hr as [->|[->|[->|[]%not_elem_of_nil]]]; split; intros d Hd; simpl in Hd; simplify_eq; by split.
Qed.

Lemma interval_predicate_correct_witness :
  exists e, PexprConstructScalar ctx gaps = Ret e /\
    forall row, col_value col_a (row (m_id col_a)) ->
      default false (eval_bool ops row e) = in_interval gaps (row (m_id col_a)).
Proof.
  apply (interval_predicate_correct ctx ops gaps); [by apply ranges_okb_ok|exact gaps_typed|by right].
Defined.



(** The sorted set of the constants of an array has the distinct datums that
    are not null in increasing order, equal as values to those of the array, and
    remembers whether a null was there. *)
Theorem sorted_set_correct {D} `{CL : ComparatorLaws D} `{ID : IDatum D} (consts : list D) :
  consts <> [] ->
  exists s, CDatumSortedSet_ctor consts = Ret s /\ ss_fIncludesNull s = existsb IsNull consts /\
    StronglySorted (fun a b => IsLessThan a b = true) (ss_datums s) /\
    (forall d, d ∈ ss_datums s -> d ∈ consts /\ IsNull d = false) /\
    forall v, existsb (Range.Equals v) (ss_datums s) =
              existsb (Range.Equals v) (filter (fun d => IsNull d = false) consts).
Proof. apply CDatumSortedSet_spec. Qed.

Lemma sorted_set_correct_witness :
  exists s, CDatumSortedSet_ctor [DInt 5; DNull; DInt 2; DInt 5] = Ret s /\
    ss_fIncludesNull s = existsb IsNull [DInt 5; DNull; DInt 2; DInt 5] /\
    StronglySorted (fun a b => IsLessThan a b = true) (ss_datums s) /\
    (forall d, d ∈ ss_datums s -> d ∈ [DInt 5; DNull; DInt 2; DInt 5] /\ IsNull d = false) /\
    forall v, existsb (Range.Equals v) (ss_datums s) =
              existsb (Range.Equals v) (filter (fun d => IsNull d = false) [DInt 5; DNull; DInt 2; DInt 5]).
Proof. apply sorted_set_correct. discriminate. Defined.

(** ** What the code does outside the supported predicates *)


(** [a NOT IN (NULL, ..., NULL)]: the sorted set is empty, and the code that
    makes the last range dereferences the null previous datum. *)
Theorem not_in_all_nulls_crashes (n : nat) :
  PcnstrIntervalFromScalarArrayCmp
    (CScalarArrayCmp EarrcmpAll EcmptNEq (CScalarIdent col_a) (CScalarArray (repeat DNull (S n)) []))
    col_a false = Abort FNull.
Proof.
  unfold PcnstrIntervalFromScalarArrayCmp. cbn -[CDatumSortedSet_ctor repeat].
  assert (E : filter (fun d => IsNull d = false) (repeat DNull n) = []).
  { induction n as [|n IH]; [done|]. cbn [repeat]. rewrite filter_cons, decide_False by done. exact IH. }
  unfold CDatumSortedSet_ctor. cbn [repeat length]. rewrite bind_assert by done. cbn zeta.
  rewrite filter_cons, decide_False, E by done. done.
Qed.

(** The constant NULL qualifies when nulls are inferred as true, but the
    derived interval is empty: the interval of [a > 5 OR NULL] as a constraint
    excludes the value 3, which the constraint accepts. *)
Theorem null_constant_not_covered :
  let e := CScalarBoolOp EboolopOr [cmp EcmptG 5; CScalarConst DNull] in
  exists p, PciIntervalFromScalarExpr ctx e col_a true EmdindSentinel = Ret (Some p) /\
    default true (eval_bool ops (row_of (Some (DInt 3))) e) = true /\
    in_interval p (Some (DInt 3)) = false.
Proof. eexists. split; [vm_compute; reflexivity|]. split; reflexivity. Qed.

(** The quantifier of an array comparison is not looked at: for
    [a <> ANY (1, 2)], true for the value 1, the interval of NOT IN is derived. *)
Theorem neq_any_taken_for_not_in :
  let e := CScalarArrayCmp EarrcmpAny EcmptNEq (CScalarIdent col_a) (CScalarArray [DInt 1; DInt 2] []) in
  exists p, PciIntervalFromScalarExpr ctx e col_a false EmdindSentinel = Ret (Some p) /\
    eval_bool ops (row_of (Some (DInt 1))) e = Some true /\
    in_interval p (Some (DInt 1)) = false.
Proof. eexists. split; [vm_compute; reflexivity|]. split; reflexivity. Qed.

(** The null test of an array is not used either: with nulls inferred as true,
    [a IN (1, NULL)] is NULL, and so satisfied, for the value 5, which the
    derived interval excludes. *)
Theorem in_list_null_ignored :
  let e := CScalarArrayCmp EarrcmpAny EcmptEq (CScalarIdent col_a) (CScalarArray [DInt 1; DNull] []) in
  exists p, PciIntervalFromScalarExpr ctx e col_a true EmdindSentinel = Ret (Some p) /\
    default true (eval_bool ops (row_of (Some (DInt 5))) e) = true /\
    in_interval p (Some (DInt 5)) = false.
Proof. eexists. split; [vm_compute; reflexivity|]. split; reflexivity. Qed.

(** An interval of points with NULL on a column whose type has no array type:
    [PexprScalarArrayCmp] returns null, which [PexprConstructArrayScalar] passes on
    to the disjunction with IS NULL, where the assertion on its argument fails. *)
Theorem points_without_array_type_crash :
  let c := mkCol 4 (mkType EtiInt4 mdid_other (fun _ => true) false) in
  PexprConstructScalar ctx (mkCI c [closed 1 1; closed 4 4] true) = Abort FAssert.
Proof. reflexivity. Qed.

End IntervalProps.
