(* ===== verification/PredicateProps.v ===== *)
(** * Properties of the predicate utilities *)
From stdpp Require Import base numbers list sets sorting.
From S2P Require Import Prelude Range ConstraintInterval ScalarExpr ScalarInterval IntDatum.

Module PredicateProps.
Import Range ConstraintInterval ScalarExpr ScalarInterval IntDatum.

(** [PexprConjunction] and [PexprDisjunction] of an array of components, with
    their skipped and deciding constants and the shortcut for one component, have
    in every row the three-valued conjunction and disjunction of the components. *)
Theorem conj_disj_meaning {D} `{CL : ComparatorLaws D} `{ID : IDatum D} `{DL : !DatumLaws D}
    (oo : OtherOps D) row (f : bool) (es : list (CExpression D)) :
  eval_bool oo row (PexprConjDisj es f) =
  if f then all3 (map (eval_bool oo row) es) else any3 (map (eval_bool oo row) es).
Proof. apply PexprConjDisj_eval. Qed.

Lemma conj_disj_meaning_witness :
  eval_bool ops (row_of None) (PexprConjDisj [cmp EcmptEq 1; PexprScalarConstBool true] true) =
  all3 (map (eval_bool ops (row_of None)) [cmp EcmptEq 1; PexprScalarConstBool true]).
Proof. exact (conj_disj_meaning ops (row_of None) true [cmp EcmptEq 1; PexprScalarConstBool true]). Defined.

(** Taking a predicate apart into conjuncts (disjuncts) keeps its meaning, no
    conjunct is itself a conjunction (no disjunct a disjunction), and putting two
    predicates together with the binary [PexprConjunction] ([PexprDisjunction])
    gives the conjunction (disjunction) of their truth values. *)
Theorem juncts_meaning {D} `{CL : ComparatorLaws D} `{ID : IDatum D} `{DL : !DatumLaws D}
    (oo : OtherOps D) row (e e' : CExpression D) :
  all3 (map (eval_bool oo row) (PdrgpexprConjuncts e)) = eval_bool oo row e /\
  any3 (map (eval_bool oo row) (PdrgpexprDisjuncts e)) = eval_bool oo row e /\
  Forall (fun x => FAnd x = false) (PdrgpexprConjuncts e) /\
  Forall (fun x => FOr x = false) (PdrgpexprDisjuncts e) /\
  eval_bool oo row (PexprConjDisj2 e e' true) = and3 (eval_bool oo row e) (eval_bool oo row e') /\
  eval_bool oo row (PexprConjDisj2 e e' false) = or3 (eval_bool oo row e) (eval_bool oo row e').
Proof.
  split_and!.
  - apply (PdrgpexprConjuncts_eval oo row e).
  - apply (PdrgpexprDisjuncts_eval oo row e).
  - induction e as [| | | | |o es IH| | | | | |] using CExpression_induction; try (by repeat constructor).
    destruct o; try (by repeat constructor). simpl. induction IH; simpl; [constructor|by apply Forall_app].
  - induction e as [| | | | |o es IH| | | | | |] using CExpression_induction; try (by repeat constructor).
    destruct o; try (by repeat constructor). simpl. induction IH; simpl; [constructor|by apply Forall_app].
  - apply (PexprConjDisj2_eval oo row true).
  - apply (PexprConjDisj2_eval oo row false).
Qed.

Lemma juncts_meaning_witness :
  let e := CScalarBoolOp EboolopAnd [cmp EcmptG 1; CScalarBoolOp EboolopAnd [cmp EcmptL 9]] in
  let row := row_of (Some (DInt 4)) in
  all3 (map (eval_bool ops row) (PdrgpexprConjuncts e)) = eval_bool ops row e /\
  any3 (map (eval_bool ops row) (PdrgpexprDisjuncts e)) = eval_bool ops row e /\
  Forall (fun x => FAnd x = false) (PdrgpexprConjuncts e) /\
  Forall (fun x => FOr x = false) (PdrgpexprDisjuncts e) /\
  eval_bool ops row (PexprConjDisj2 e e true) = and3 (eval_bool ops row e) (eval_bool ops row e) /\
  eval_bool ops row (PexprConjDisj2 e e false) = or3 (eval_bool ops row e) (eval_bool ops row e).
Proof. cbn zeta. apply juncts_meaning. Defined.

(** [PexprEliminateSelfComparison] keeps the truth value of a predicate in
    every row where the columns it takes for not nullable are not NULL. *)
Theorem self_comparison_meaning {D} `{CL : ComparatorLaws D} `{ID : IDatum D} `{DL : !DatumLaws D}
    (oo : OtherOps D) row (e : CExpression D) (notnull : N -> bool) :
  (forall id, notnull id = true -> is_Some (row id)) ->
  eval_bool oo row (PexprEliminateSelfComparison e notnull) = eval_bool oo row e.
Proof. apply PexprEliminateSelfComparison_eval. Qed.

Definition self_cmp : CExpression datum := CScalarCmp EcmptLEq (CScalarIdent col_a) (CScalarIdent col_a).

Lemma self_comparison_meaning_witness :
  eval_bool ops (row_of (Some (DInt 4))) (PexprEliminateSelfComparison self_cmp (fun _ => true)) =
  eval_bool ops (row_of (Some (DInt 4))) self_cmp.
Proof. apply self_comparison_meaning. intros id _. by eexists. Defined.

(** [EcmptReverse] gives the comparison with its sides exchanged, and stops at
    its assertion exactly for the types it has no entry for. *)
Theorem reverse_comparison_meaning {D} `{CL : ComparatorLaws D} `{ID : IDatum D} (oo : OtherOps D)
    (c : ECmpType) (a b : option D) :
  match EcmptReverse c with
  | Ret c' => cmp3 oo c' a b = cmp3 oo c b a
  | Abort f => f = FAssert /\ (c = EcmptIDF \/ c = EcmptOther)
  end.
Proof.
  destruct (EcmptReverse c) as [c'|f] eqn:E; [by apply EcmptReverse_eval|].
  destruct c; simpl in E; simplify_eq; auto.
Qed.

Lemma reverse_comparison_meaning_witness :
  match EcmptReverse EcmptLEq with
  | Ret c' => cmp3 ops c' (Some (DInt 1)) (Some (DInt 2)) = cmp3 ops EcmptLEq (Some (DInt 2)) (Some (DInt 1))
  | Abort f => f = FAssert /\ (EcmptLEq = EcmptIDF \/ EcmptLEq = EcmptOther)
  end.
Proof. exact (reverse_comparison_meaning ops EcmptLEq (Some (DInt 1)) (Some (DInt 2))). Defined.

(** [FConjunctionOfEqComparisons] counts the conjuncts but reads the children
    of the expression: it accepts NOT (a = 1) and [a = 1 OR a > 2], which are no
    conjunctions of equalities, and rejects [a = 1 AND (a = 2 AND a = 3)], which is. *)
Theorem conjunction_of_equalities_wrong :
  FConjunctionOfEqComparisons (CScalarBoolOp EboolopNot [cmp EcmptEq 1]) = Ret true /\
  FConjunctionOfEqComparisons (CScalarBoolOp EboolopOr [cmp EcmptEq 1; cmp EcmptG 2]) = Ret true /\
  FConjunctionOfEqComparisons
    (CScalarBoolOp EboolopAnd [cmp EcmptEq 1; CScalarBoolOp EboolopAnd [cmp EcmptEq 2; cmp EcmptEq 3]])
    = Ret false.
Proof. split_and!; reflexivity. Qed.

End PredicateProps.
