(* ===== verification/ConstraintProps.v ===== *)
(** * Properties of constraint trees, equivalence classes and implied predicates *)
From stdpp Require Import base numbers list gmap sets sorting relations.
From S2P Require Import Prelude Range ConstraintInterval ScalarExpr ScalarInterval IntDatum IntervalEnds EquivClasses Constraint ConstraintSem ConstraintProject ConstraintDerive PropConstraint FilterCoverage.

Module ConstraintProps.
Import Range ConstraintInterval ScalarExpr ScalarInterval IntDatum IntervalEnds EquivClasses Constraint ConstraintSem ConstraintProject ConstraintDerive PropConstraint FilterCoverage.
Open Scope nat_scope.
Open Scope outcome_scope.

(** ** Examples: integer columns *)

Definition icol (i : N) : CColRef := mkCol i int4.
Definition cn_with (c : Ctxt datum) : CnCtxt datum :=
  mkCnCtxt datum c icol 25 (fun _ => true) (fun _ => false) (fun _ _ => true).
Definition icx : CnCtxt datum := cn_with ctx.
Definition point (i : N) (z : Z) : CConstraint datum := Interval (mkCI (icol i) [closed z z] false).
Definition is_equal (i : N) (z : Z) : CExpression datum := CScalarCmp EcmptEq (CScalarIdent (icol i)) (CScalarConst (DInt z)).
Definition columns_equal (i j : N) : CExpression datum := CScalarCmp EcmptEq (CScalarIdent (icol i)) (CScalarIdent (icol j)).
Definition opaque_on (i : N) : CExpression datum := CScalarOther 7 [CScalarIdent (icol i)].
Definition both (e1 e2 : CExpression datum) : CExpression datum := CScalarBoolOp EboolopAnd [e1; e2].
Definition either (e1 e2 : CExpression datum) : CExpression datum := CScalarBoolOp EboolopOr [e1; e2].

(** A row with the values [a] and [b] in the columns 1 and 2 *)
Definition row2 (a b : option Z) : N -> option datum :=
  fun i => if N.eqb i 1 then DInt <$> a else if N.eqb i 2 then DInt <$> b else None.

Lemma icx_id i : m_id (LookupColRef icx i) = i.
Proof. done. Qed.

Lemma icx_usable i : usable icx (icol i).
Proof. by split. Qed.

Lemma row2_ok a b : row_ok icx (row2 a b).
Proof. intros i. unfold row2. destruct (N.eqb i 1); [by destruct a|]. destruct (N.eqb i 2); [by destruct b|done]. Qed.

Lemma point_ok i z : cn_ok icx (point i z).
Proof.
  constructor; [done|apply icx_usable|by apply ranges_okb_ok; cbn; rewrite Z.ltb_irrefl|].
  intros r ->%list_elem_of_singleton. split; intros d [= <-]; by split.
Qed.

Lemma points_listed {l : list (CConstraint datum)} : Forall (fun c => exists i z, c = point i z) l -> forall c, c ∈ l -> cn_ok icx c.
Proof. rewrite Forall_forall. intros Hl c (i & z & ->)%Hl. apply point_ok. Qed.

(** ** Construction *)



(** With the operator family trace flag on, a comparison outside the families
    is no interval; the constructor of a disjunction then keeps the first of the
    constraints on the column and drops the others, though the comment says it
    returns the un-flattened constraint: [a = 1 OR a = 2] becomes [a = 1]. *)
Theorem failed_merge_drops :
  let cx := cn_with (mkCtxt datum (mkFlags true true true) (fun _ _ _ => false)) in
  CConstraintDisjunction_ctor cx [point 1 1; point 1 2] = Ret (Disjunction {[1%N]} [point 1 1]) /\
  sat (row2 (Some 2%Z) None) (Disjunction {[1%N]} [point 1 1; point 1 2]) = true /\
  sat (row2 (Some 2%Z) None) (Disjunction {[1%N]} [point 1 1]) = false.
Proof. split_and!; vm_compute; reflexivity. Qed.


Definition tree : CConstraint datum :=
  Conjunction (used_by [Disjunction (used_by [point 1 1; point 2 4]) [point 1 1; point 2 4]; Negation (point 3 7)])
    [Disjunction (used_by [point 1 1; point 2 4]) [point 1 1; point 2 4]; Negation (point 3 7)].

Lemma tree_ok : cn_ok icx tree.
Proof.
  constructor; [done|done|]. intros c [->|[->|[]%not_elem_of_nil]%elem_of_cons]%elem_of_cons.
  - constructor; [done|done|]. apply points_listed. repeat constructor; by eexists _, _.
  - apply ok_neg; [apply point_ok|by left].
Qed.


(** ** Parts *)

(** the part of a constraint on a column, [Pcnstr(mp, colref)], is a constraint
    on that column alone that every row satisfying the constraint satisfies; for a
    constraint on that column alone it says the same. A null part says nothing. *)
Theorem column_part_sound {D} `{CL : ComparatorLaws D} `{ID : IDatum D} `{DL : !DatumLaws D} (cx : CnCtxt D) c i :
  (forall i, m_id (LookupColRef cx i) = i) -> EopttraceConsiderOpfamiliesForDistribution (flags (cn_ctxt cx)) = false ->
  cn_ok cx c ->
  returns (Pcnstr cx c (LookupColRef cx i)) (fun o =>
    (forall x, o = Some x -> cn_ok cx x /\ PcrsUsed x = {[i]}) /\
    (forall row, row_ok cx row -> sat row c = true -> sat_opt row o = true) /\
    (PcrsUsed c = {[i]} -> forall row, row_ok cx row -> sat_opt row o = sat row c)).
Proof.
  intros Hid Hf Hok. eapply returns_mono; [apply (Pcnstr_ret cx (mkOther D (fun v => v) (fun _ _ => None) (fun _ _ => None)) Hid Hf); done|].
  intros o [H1 H2 H3]. split_and!; [exact H1|exact H2|exact H3].
Qed.

Lemma column_part_sound_witness :
  returns (Pcnstr icx tree (icol 3)) (fun o =>
    (forall x, o = Some x -> cn_ok icx x /\ PcrsUsed x = {[3%N]}) /\
    (forall row, row_ok icx row -> sat row tree = true -> sat_opt row o = true) /\
    (PcrsUsed tree = {[3%N]} -> forall row, row_ok icx row -> sat_opt row o = sat row tree)).
Proof. apply (column_part_sound icx tree 3); [done|done|exact tree_ok]. Defined.

(** ** Containment *)


Definition box : CConstraint datum := Conjunction (used_by [point 1 1; Negation (point 2 4)]) [point 1 1; Negation (point 2 4)].

Lemma box_ok : cn_ok icx box.
Proof.
  constructor; [done|done|]. intros c [->|[->|[]%not_elem_of_nil]%elem_of_cons]%elem_of_cons; [apply point_ok|].
  apply ok_neg; [apply point_ok|by left].
Qed.


(** [Contains] compares the constraints column by column, and the part of a
    disjunction on a column that only some of its children have is unbounded:
    [a = 1 OR b = 2] is said to contain [a = 5], which it does not. *)
Theorem contains_disjunction_wrong :
  let c := Disjunction (used_by [point 1 1; point 2 2]) [point 1 1; point 2 2] in
  Contains icx c (Some (point 1 5)) = Ret true /\
  sat (row2 (Some 5%Z) (Some 7%Z)) (point 1 5) = true /\ sat (row2 (Some 5%Z) (Some 7%Z)) c = false.
Proof. split_and!; vm_compute; reflexivity. Qed.

(** ** Derivation *)


Lemma is_equal_supported i z : supported ctx (icol i) (is_equal i z).
Proof. eapply sup_cmp; try done; [unfold same_col; apply N.eqb_refl|by left]. Qed.

Lemma is_equal_constants i z : constants_ok (value_of (icol i)) (is_equal i z).
Proof. repeat constructor; done. Qed.

Lemma is_equal_columns i z : columns (is_equal i z) = {[i]}.
Proof. unfold columns. cbn. set_solver. Qed.

Lemma is_equal_covered infer i z : covered icx ops infer (is_equal i z).
Proof.
  apply cv_one with i. split; [apply is_equal_columns| |apply is_equal_constants|by intros _; apply icx_usable].
  apply ap_supported, is_equal_supported.
Qed.

Lemma columns_equal_covered infer i j : i <> j -> covered icx ops infer (columns_equal i j).
Proof.
  intros Hij. apply cv_cmp with i j.
  - unfold columns. cbn. replace (_ ∪ _) with ({[i; j]} : gset N) by set_solver. rewrite size_union, !size_singleton by set_solver. lia.
  - split; [done|done|]. intros n _ _. apply icx_usable.
Qed.

(** a = b AND a = 3 *)
Definition chained : CExpression datum := both (columns_equal 1 2) (is_equal 1 3).

Lemma chained_covered infer : covered icx ops infer chained.
Proof.
  apply cv_and; [vm_compute; lia|]. intros e [->|[->|[]%not_elem_of_nil]%elem_of_cons]%elem_of_cons;
    [by apply columns_equal_covered|apply is_equal_covered].
Qed.


(** A negation is made of the constraint of its operand although that constraint
    is only implied by the operand: for NOT (a = 1 AND f(b)) the opaque conjunct is
    dropped and rows with a = 1 are excluded, and with [infer_nulls_as] the operand
    is derived with nulls as true, so NOT (a = 1 AND b = 2), which is unknown for
    NULLs and should then hold, excludes them. *)
Theorem negation_excludes_rows :
  let no_op := mkOther datum (fun v => v) (fun _ _ => None) (fun _ _ => Some (DBool false)) in
  let e1 := CScalarBoolOp EboolopNot [both (is_equal 1 1) (opaque_on 2)] in
  let e2 := CScalarBoolOp EboolopNot [both (is_equal 1 1) (is_equal 2 2)] in
  (exists c L, PcnstrFromScalarExpr icx e1 false EmdindSentinel = Ret (Some c, L) /\
    eval_bool no_op (row2 (Some 1%Z) None) e1 = Some true /\ sat (row2 (Some 1%Z) None) c = false) /\
  (exists c L, PcnstrFromScalarExpr icx e2 true EmdindSentinel = Ret (Some c, L) /\
    eval_bool no_op (row2 None None) e2 = None /\ sat (row2 None None) c = false).
Proof.
  cbn zeta. split; (eexists _, _; split; [vm_compute; reflexivity|]); split; vm_compute; reflexivity.
Qed.

(** The derivation finds no equivalence class in a disjunction on several
    columns, also none that all disjuncts give, though the comment says such a class
    is part of the output: the intersection starts from the empty array. *)
Theorem disjunction_without_classes {D} `{CL : ComparatorLaws D} `{ID : IDatum D} `{DL : !DatumLaws D}
    (cx : CnCtxt D) (oo : OtherOps D) infer es am :
  (forall i, m_id (LookupColRef cx i) = i) -> EopttraceConsiderOpfamiliesForDistribution (flags (cn_ctxt cx)) = false ->
  2 <= size (columns_of es) -> (forall e, e ∈ es -> covered cx oo infer e) ->
  returns (PcnstrFromScalarExpr cx (CScalarBoolOp EboolopOr es) infer am) (fun r => r.2 = None \/ r.2 = Some []).
Proof.
  intros Hid Hf Hsz Hes. rewrite (derive_multi cx) by done. destruct (UlArrayExpansionThreshold cx <? length es) eqn:Et.
  { unfold PcnstrFromScalarBoolOp. rewrite Et. apply returns_ret. by left. }
  rewrite bool_op_many by (by rewrite Et). edestruct (or_loop_ret cx oo Hid Hf infer) as (? & E & [->|(cs & -> & H1 & _)]).
  - intros e He. by apply (derive_ret cx oo Hid Hf), Hes.
  - rewrite E, bind_ret. apply returns_ret. by right.
  - rewrite E, bind_ret. cbn [app]. destruct (junct_made cx oo Hid Hf false cs [] H1) as (r & Er & Hr & _).
    exists r. split; [by destruct cs as [|c [|d cs]]|by right].
Qed.

(** a = b OR (a = b AND a = 3), whose disjuncts both give the class of a and b *)
Lemma disjunction_without_classes_witness :
  returns (PcnstrFromScalarExpr icx (either (columns_equal 1 2) chained) false EmdindSentinel) (fun r => r.2 = None \/ r.2 = Some []).
Proof.
  apply (disjunction_without_classes icx ops); [done|done|vm_compute; lia|].
  intros e [->|[->|[]%not_elem_of_nil]%elem_of_cons]%elem_of_cons; [by apply columns_equal_covered|apply chained_covered].
Defined.

(** ** Equivalence classes *)

(** C23: merging two arrays of disjoint classes gives disjoint classes that relate
    two columns exactly if a chain of classes of both arrays does; intersecting them
    gives disjoint, nonempty classes that relate two columns exactly if both arrays
    do, and passes the assertions. *)
Theorem equivalence_classes_correct L1 L2 :
  disjoint_classes L1 -> disjoint_classes L2 ->
  (disjoint_classes (PdrgpcrsMergeEquivClasses L1 L2) /\
   forall x y, same (PdrgpcrsMergeEquivClasses L1 L2) x y <-> tc (fun x y => same L1 x y \/ same L2 x y) x y) /\
  returns (PdrgpcrsIntersectEquivClasses L1 L2) (fun R => disjoint_classes R /\ (∅ ∉ R) /\
    forall x y, same R x y <-> same L1 x y /\ same L2 x y).
Proof.
  intros H1 H2. split; [by apply MergeEquivClasses_spec|]. eapply returns_mono; [by apply IntersectEquivClasses_ret|]. cbn beta.
  intros R (H3 & H4 & H5). split_and!; [done| |done]. intros (s & p & _ & _ & _ & Hne)%H4. done.
Qed.

Lemma classes_disjoint (s t : gset N) : s ## t -> disjoint_classes [s; t].
Proof. intros H. by repeat constructor. Qed.

Lemma equivalence_classes_correct_witness :
  let L1 : CColRefSetArray := [{[1; 2]}; {[3; 4]}]%N in let L2 : CColRefSetArray := [{[2; 3]}; {[5]}]%N in
  (disjoint_classes (PdrgpcrsMergeEquivClasses L1 L2) /\
   forall x y, same (PdrgpcrsMergeEquivClasses L1 L2) x y <-> tc (fun x y => same L1 x y \/ same L2 x y) x y) /\
  returns (PdrgpcrsIntersectEquivClasses L1 L2) (fun R => disjoint_classes R /\ (∅ ∉ R) /\
    forall x y, same R x y <-> same L1 x y /\ same L2 x y).
Proof. cbn zeta. apply equivalence_classes_correct; apply classes_disjoint; set_solver. Defined.

(** ** The constraint property *)

Lemma icx_all_usable (s : gset N) : all_usable icx s.
Proof. intros i _ _. apply icx_usable. Qed.

Lemma icx_class j (ppc : CPropConstraint datum) : class_ok icx j ppc.
Proof. intros s _. split; [apply icx_all_usable|done]. Qed.


(** The columns 1 and 2 are equal, and the column 1 is 3. *)
Definition equal_prop : CPropConstraint datum := mkProp [{[1; 2]}]%N (Some (<[2 := {[1; 2]}]> (<[1 := {[1; 2]}]> ∅)))%N (Some (point 1 3)).

Lemma pair_prop_ok (a b : N) (c : option (CConstraint datum)) :
  (forall x, c = Some x -> cn_ok icx x /\ pure x = true) ->
  prop_ok icx (mkProp [{[a; b]}] (Some (<[b := {[a; b]}]> (<[a := {[a; b]}]> ∅))) c).
Proof.
  intros Hc. split; cbn; [|done]. intros i s. rewrite list_elem_of_singleton. destruct (decide (i = b)) as [->|Hb].
  - rewrite lookup_insert_eq. split; [intros [= <-]; set_solver|by intros [-> _]].
  - rewrite lookup_insert_ne by done. destruct (decide (i = a)) as [->|Ha].
    + rewrite lookup_insert_eq. split; [intros [= <-]; set_solver|by intros [-> _]].
    + rewrite lookup_insert_ne, lookup_empty by done. split; [done|]. intros [-> Hi]. set_solver.
Qed.

Lemma equal_prop_ok : prop_ok icx equal_prop.
Proof. apply pair_prop_ok. intros x [= <-]. split; [apply point_ok|done]. Qed.

Lemma equal_prop_ready j : column_ready icx equal_prop None None j.
Proof. split; [apply icx_class|done|apply icx_usable|done|done]. Qed.


(** The predicate for the column 2 is [b = 3]. *)
Example implied_example :
  fst <$> PexprScalarPredicates icx equal_prop None None ∅ {[2%N]} ∅ = Ret (Some (is_equal 2 3)).
Proof. vm_compute. reflexivity. Qed.

(** The equality predicates of a class of n columns are the first 50 of its
    n (n - 1) / 2 pairs; their conjunction is true where the columns are equal, and
    when there are at most 50 pairs, only there. *)
Theorem equality_predicates_bounded {D} `{CL : ComparatorLaws D} `{ID : IDatum D} `{DL : !DatumLaws D}
    (cx : CnCtxt D) (oo : OtherOps D) (pcrs : gset N) row :
  (forall i, m_id (LookupColRef cx i) = i) ->
  let es := equality_loop cx (bits pcrs) (bits pcrs) 0 in
  let pairs := size pcrs * (size pcrs - 1) / 2 in
  PexprConjEqualityPredicates cx pcrs = PexprConjunction es /\ length es = Nat.min 50 pairs /\
  ((forall x y, x ∈ pcrs -> y ∈ pcrs -> equal_values row x y) ->
     default false (eval_bool oo row (PexprConjEqualityPredicates cx pcrs)) = true) /\
  (pairs <= 50 -> default false (eval_bool oo row (PexprConjEqualityPredicates cx pcrs)) = true ->
     forall x y, x ∈ pcrs -> y ∈ pcrs -> equal_values row x y).
Proof. intros Hid. apply (equality_predicates_ret cx oo Hid). Qed.

Lemma equality_predicates_bounded_witness :
  let es := equality_loop icx (bits {[1; 2; 5]}%N) (bits {[1; 2; 5]}%N) 0 in
  let pairs := size ({[1; 2; 5]}%N : gset N) * (size ({[1; 2; 5]}%N : gset N) - 1) / 2 in
  PexprConjEqualityPredicates icx {[1; 2; 5]}%N = PexprConjunction es /\ length es = Nat.min 50 pairs /\
  ((forall x y, x ∈ ({[1; 2; 5]}%N : gset N) -> y ∈ ({[1; 2; 5]}%N : gset N) -> equal_values (row2 None None) x y) ->
     default false (eval_bool ops (row2 None None) (PexprConjEqualityPredicates icx {[1; 2; 5]}%N)) = true) /\
  (pairs <= 50 -> default false (eval_bool ops (row2 None None) (PexprConjEqualityPredicates icx {[1; 2; 5]}%N)) = true ->
     forall x y, x ∈ ({[1; 2; 5]}%N : gset N) -> y ∈ ({[1; 2; 5]}%N : gset N) -> equal_values (row2 None None) x y).
Proof. apply (equality_predicates_bounded icx ops {[1; 2; 5]}%N (row2 None None)). done. Defined.

(** [PexprScalarMappedFromEquivCols] dereferences the null class of a column that
    has no class of its own but one in the outer scope, and otherwise releases a
    reference to the class of the outer property, which still holds the class. *)
Theorem outer_scope_faults :
  let outer := equal_prop in
  let local := mkProp [{[3; 4]}]%N (Some (<[4 := {[3; 4]}]> (<[3 := {[3; 4]}]> ∅)))%N (Some (point 3 1)) in
  prop_ok icx local /\ prop_ok icx outer /\
  PexprScalarMappedFromEquivCols icx local (icol 2) (Some outer) = Abort FNull /\
  PexprScalarMappedFromEquivCols icx equal_prop (icol 2) (Some outer) = Ret (Some (is_equal 2 3), PcrsEquivClass outer 2) /\
  PcrsEquivClass outer 2 = Some {[1; 2]}%N.
Proof.
  cbn zeta. split_and!; [|exact equal_prop_ok|vm_compute; reflexivity..].
  apply pair_prop_ok. intros x [= <-]. split; [apply point_ok|done].
Qed.

(** ** Coverage by a filter *)


Definition key_filter : CExpression datum := both (is_equal 1 5) (is_equal 2 7).
Definition referring : CConstraint datum := Conjunction (used_by [point 3 5; point 4 7]) [point 3 5; point 4 7].
Definition referring_row : N -> option datum := fun i => if N.eqb i 3 then Some (DInt 5) else Some (DInt 7).

Lemma key_filter_exact : exact_filter icx key_filter.
Proof.
  apply ef_and; [vm_compute; lia|]. intros e [->|[->|[]%not_elem_of_nil]%elem_of_cons]%elem_of_cons; eexists;
    (split; [apply is_equal_columns|apply is_equal_supported|apply is_equal_constants|apply icx_usable]).
Qed.

Lemma referring_ok : forall c, Some referring = Some c -> cn_ok icx c.
Proof. intros c [= <-]. constructor; [done|done|]. apply points_listed. repeat constructor; by eexists _, _. Qed.


(** For other filters the check is wrong. A disjunction over two key columns has
    unbounded parts and a comparison of key columns only requires them not NULL, so
    both are accepted for a referring side whose only key (5, 7) they reject. *)
Theorem filter_coverage_wrong :
  let key_row := row2 (Some 5%Z) (Some 7%Z) in
  sat referring_row referring = true /\ same_key [3; 4]%N [1; 2]%N referring_row key_row /\
  FReferringDomainCoveredByFilter icx (Some referring) [3; 4]%N [1; 2]%N (either (is_equal 1 1) (is_equal 2 2)) = Ret true /\
  eval_bool ops key_row (either (is_equal 1 1) (is_equal 2 2)) = Some false /\
  FReferringDomainCoveredByFilter icx (Some referring) [3; 4]%N [1; 2]%N (columns_equal 1 2) = Ret true /\
  eval_bool ops key_row (columns_equal 1 2) = Some false.
Proof.
  cbn zeta. split; [reflexivity|]. split; [|split_and!; vm_compute; reflexivity].
  intros [|[|k]] i j; cbn; [by intros [= <-] [= <-]..|done].
Qed.

End ConstraintProps.
