(* ===== verification/SetProps.v ===== *)
(** * Properties of bit sets, column sets, keys and functional dependencies *)
From stdpp Require Import base numbers list gmap sets sorting.
From S2P Require Import Prelude BitVector BitSet SetHash ColumnSet ColRefSet.

Module SetProps.
Import ColumnSet ColRefSet.

(** ** Programs over bit sets

    A program works on an array of sets: it adds and removes members and combines
    two of the sets.  [run] executes it on [CBitSet] objects, [spec_step] says
    what it does to the sets they stand for. *)
Inductive instr :=
  | ISet (i : nat) (p : N)
  | IClear (i : nat) (p : N)
  | IUnion (i j : nat)
  | IIntersection (i j : nat)
  | IDifference (i j : nat).

Definition step (st : list BitSet.CBitSet) (ins : instr) : outcome (list BitSet.CBitSet) :=
  match ins with
  | ISet i p => (s ← subscript st i; '(s', _) ← BitSet.ExchangeSet s p; mret (<[i := s']> st))
  | IClear i p => (s ← subscript st i; '(s', _) ← BitSet.ExchangeClear s p; mret (<[i := s']> st))
  | IUnion i j => (s ← subscript st i; t ← subscript st j; u ← BitSet.Union s t; mret (<[i := u]> st))
  | IIntersection i j =>
      (s ← subscript st i; t ← subscript st j; u ← BitSet.Intersection s (Some t); mret (<[i := u]> st))
  | IDifference i j =>
      (s ← subscript st i; t ← subscript st j; u ← BitSet.Difference s t; mret (<[i := u]> st))
  end.

Fixpoint run (st : list BitSet.CBitSet) (prog : list instr) : outcome (list BitSet.CBitSet) :=
  match prog with
  | [] => mret st
  | ins :: prog' => (st' ← step st ins; run st' prog')
  end.

Definition spec_step (st : list (gset N)) (ins : instr) : list (gset N) :=
  match ins with
  | ISet i p => alter (fun X => {[p]} ∪ X) i st
  | IClear i p => alter (fun X => X ∖ {[p]}) i st
  | IUnion i j => alter (fun X => X ∪ default ∅ (st !! j)) i st
  | IIntersection i j => alter (fun X => X ∩ default ∅ (st !! j)) i st
  | IDifference i j => alter (fun X => X ∖ default ∅ (st !! j)) i st
  end.

(** The instruction names sets of the array and, for ISet, a column id; the
    operands of a difference are two objects. *)
Definition instr_ok (n : nat) (ins : instr) : bool :=
  match ins with
  | ISet i p => bool_decide (i < n) && (p <? MAX_COLID)%N
  | IClear i p => bool_decide (i < n)
  | IUnion i j | IIntersection i j => bool_decide (i < n) && bool_decide (j < n)
  | IDifference i j => bool_decide (i < n) && bool_decide (j < n) && negb (bool_decide (i = j))
  end.

(** The objects are well formed and stand for the sets. *)
Definition represents (st : list BitSet.CBitSet) (sets : list (gset N)) : Prop :=
  Forall2 (fun s X => bit_ok s /\ BitSet.bs_set s = X) st sets.

Lemma represents_lookup st sets i :
  represents st sets -> i < length st ->
  exists s, st !! i = Some s /\ sets !! i = Some (BitSet.bs_set s) /\ bit_ok s.
Proof.
  intros Hr Hi. destruct (lookup_lt_is_Some_2 st i Hi) as [s Es].
  destruct (Forall2_lookup_l _ _ _ _ _ Hr Es) as (X & EX & Hok & <-). by exists s.
Qed.

Lemma represents_update st sets i s' (f : gset N -> gset N) s :
  represents st sets -> sets !! i = Some (BitSet.bs_set s) -> bit_ok s' ->
  BitSet.bs_set s' = f (BitSet.bs_set s) -> represents (<[i := s']> st) (alter f i sets).
Proof.
  intros Hr Hs Hok Hf. unfold represents. rewrite <- (list_insert_id (alter f i sets) i (BitSet.bs_set s')).
  - assert (E : <[i := BitSet.bs_set s']> (alter f i sets) = <[i := BitSet.bs_set s']> sets).
    { apply list_eq. intros k. destruct (decide (k = i)) as [->|Hne].
      - assert (i < length sets) by (by apply lookup_lt_Some in Hs).
        rewrite !list_lookup_insert_eq; [done|done|by rewrite length_alter].
      - rewrite !list_lookup_insert_ne by done. by rewrite list_lookup_alter_ne. }
    rewrite E. apply Forall2_insert; [done|]. done.
  - rewrite list_lookup_alter_eq, Hs. simpl. by rewrite Hf.
Qed.

Lemma step_refines st sets ins :
  represents st sets -> instr_ok (length st) ins = true ->
  exists st', step st ins = Ret st' /\ length st' = length st /\ represents st' (spec_step sets ins).
Proof.
  intros Hr Hins. destruct ins as [i p|i p|i j|i j|i j]; simpl in Hins; rewrite ?andb_true_iff, ?bool_decide_eq_true in Hins.
  - destruct Hins as [Hi Hp%N.ltb_lt]. destruct (represents_lookup st sets i Hr Hi) as (s & Es & EX & Hok).
    destruct (set_law s p) as (s' & E & Hok' & He); [exact Hok|exact Hp|]. cbn [cs_set cs_clear cs_union cs_inter cs_diff cs_elems BitColumnSet BitColumnSetLaws] in E, He. unfold step.
    rewrite (subscript_some _ _ _ Es). cbn [mbind outcome_bind]. rewrite E. cbn [mbind outcome_bind].
    eexists. split_and!; [done|by rewrite length_insert|by eapply represents_update].
  - destruct (represents_lookup st sets i Hr Hins) as (s & Es & EX & Hok).
    destruct (clear_law s p) as (s' & E & Hok' & He); [exact Hok|]. cbn [cs_set cs_clear cs_union cs_inter cs_diff cs_elems BitColumnSet BitColumnSetLaws] in E, He. unfold step.
    rewrite (subscript_some _ _ _ Es). cbn [mbind outcome_bind]. rewrite E. cbn [mbind outcome_bind].
    eexists. split_and!; [done|by rewrite length_insert|by eapply represents_update].
  - destruct Hins as [Hi Hj]. destruct (represents_lookup st sets i Hr Hi) as (s & Es & EX & Hok).
    destruct (represents_lookup st sets j Hr Hj) as (t & Et & EY & Hokt).
    destruct (union_law s t) as (u & E & Hok' & He); [exact Hok|exact Hokt|]. cbn [cs_set cs_clear cs_union cs_inter cs_diff cs_elems BitColumnSet BitColumnSetLaws] in E, He. unfold step.
    rewrite (subscript_some _ _ _ Es), (subscript_some _ _ _ Et). cbn [mbind outcome_bind]. rewrite E.
    eexists. split_and!; [done|by rewrite length_insert|]. eapply represents_update; [done|done|done|]. by rewrite EY.
  - destruct Hins as [Hi Hj]. destruct (represents_lookup st sets i Hr Hi) as (s & Es & EX & Hok).
    destruct (represents_lookup st sets j Hr Hj) as (t & Et & EY & Hokt).
    destruct (inter_law s t) as (u & E & Hok' & He); [exact Hok|exact Hokt|]. cbn [cs_set cs_clear cs_union cs_inter cs_diff cs_elems BitColumnSet BitColumnSetLaws] in E, He. unfold step.
    rewrite (subscript_some _ _ _ Es), (subscript_some _ _ _ Et). cbn [mbind outcome_bind]. rewrite E.
    eexists. split_and!; [done|by rewrite length_insert|]. eapply represents_update; [done|done|done|]. by rewrite EY.
  - destruct Hins as [[Hi Hj] _]. destruct (represents_lookup st sets i Hr Hi) as (s & Es & EX & Hok).
    destruct (represents_lookup st sets j Hr Hj) as (t & Et & EY & Hokt).
    destruct (diff_law s t) as (u & E & Hok' & He); [exact Hok|exact Hokt|]. cbn [cs_set cs_clear cs_union cs_inter cs_diff cs_elems BitColumnSet BitColumnSetLaws] in E, He. unfold step.
    rewrite (subscript_some _ _ _ Es), (subscript_some _ _ _ Et). cbn [mbind outcome_bind]. rewrite E.
    eexists. split_and!; [done|by rewrite length_insert|]. eapply represents_update; [done|done|done|]. by rewrite EY.
Qed.


Definition empty_set : BitSet.CBitSet := BitSet.CBitSet_ctor GPOPT_COLREFSET_SIZE.

Lemma empty_set_ok : bit_ok empty_set /\ BitSet.bs_set empty_set = ∅.
Proof. exact (new_ok (S := BitSet.CBitSet)). Qed.

Definition example_prog : list instr :=
  [ISet 0 5; ISet 0 3000; ISet 1 3000; ISet 1 70; IUnion 0 1; IDifference 0 1; IClear 0 5; IIntersection 1 0].


(** The queries on well-formed sets of the same vector size ([Get],
    [ContainsAll], [Equals], [IsDisjoint], [Size]) decide membership, inclusion,
    equality, disjointness and count the members. *)
Theorem bitset_queries_correct (s t : BitSet.CBitSet) p :
  bit_ok s -> bit_ok t ->
  BitSet.Get s p = Ret (bool_decide (p ∈ BitSet.bs_set s)) /\
  BitSet.ContainsAll s t = Ret (bool_decide (BitSet.bs_set t ⊆ BitSet.bs_set s)) /\
  BitSet.Equals s t = Ret (bool_decide (BitSet.bs_set s = BitSet.bs_set t)) /\
  BitSet.IsDisjoint s t = Ret (bool_decide (BitSet.bs_set s ## BitSet.bs_set t)) /\
  BitSet.m_size s = N.of_nat (size (BitSet.bs_set s)).
Proof.
  intros Hs Ht. split_and!.
  - pose proof (get_law s p) as HL. exact (HL Hs).
  - pose proof (contains_law s t) as HL. exact (HL Hs Ht).
  - pose proof (equals_law s t) as HL. exact (HL Hs Ht).
  - pose proof (disjoint_law s t) as HL. exact (HL Hs Ht).
  - by apply bit_size.
Qed.

Lemma bitset_queries_correct_witness :
  BitSet.Get empty_set 7 = Ret (bool_decide (7%N ∈ BitSet.bs_set empty_set)) /\
  BitSet.ContainsAll empty_set empty_set = Ret (bool_decide (BitSet.bs_set empty_set ⊆ BitSet.bs_set empty_set)) /\
  BitSet.Equals empty_set empty_set = Ret (bool_decide (BitSet.bs_set empty_set = BitSet.bs_set empty_set)) /\
  BitSet.IsDisjoint empty_set empty_set = Ret (bool_decide (BitSet.bs_set empty_set ## BitSet.bs_set empty_set)) /\
  BitSet.m_size empty_set = N.of_nat (size (BitSet.bs_set empty_set)).
Proof. apply bitset_queries_correct; apply empty_set_ok. Defined.

(** Iterating a well-formed set with [Advance] and [Bit] terminates and gives
    its members, each once, in ascending order. *)
Theorem bitset_iteration_correct (s : BitSet.CBitSet) :
  bit_ok s ->
  exists l, iterate s = Ret l /\ StronglySorted N.lt l /\ forall p, p ∈ l <-> p ∈ BitSet.bs_set s.
Proof. intros Hs. pose proof (iterate_law s) as HL. exact (HL Hs). Qed.

Lemma bitset_iteration_correct_witness :
  exists l, iterate empty_set = Ret l /\ StronglySorted N.lt l /\ forall p, p ∈ l <-> p ∈ BitSet.bs_set empty_set.
Proof. apply bitset_iteration_correct. apply empty_set_ok. Defined.

(** [GetNextSetBit] returns the first set bit at or after the start, with true,
    or false when there is none; [CountSetBits] counts the set bits. *)
Theorem bitvector_scan_correct (bv : BitVector.CBitVector) start :
  BitVector.bv_wf bv ->
  (exists r, BitVector.GetNextSetBit bv start = Ret r /\ BitVector.next_found (BitVector.bv_bit bv) start r) /\
  BitVector.CountSetBits bv = Ret (N.of_nat (length (BitVector.bv_elements bv))).
Proof. intros Hwf. split; [by apply BitVector.GetNextSetBit_spec|by apply BitVector.CountSetBits_spec]. Qed.

Definition scan_example : BitVector.CBitVector := BitVector.mkBitVector 128 [5%N; 8%N].

Lemma scan_example_wf : BitVector.bv_wf scan_example.
Proof.
  split; [simpl; lia|repeat constructor|reflexivity|].
  intros q Hq. unfold BitVector.bv_bit, BitVector.unit_bit. simpl in Hq.
  assert (Hl : [5%N; 8%N] !! BitVector.unit_index q = None).
  { apply lookup_ge_None. unfold BitVector.unit_index, BitVector.BITS_PER_UNIT. simpl.
    pose proof (N.Div0.div_le_mono 128 q 64 Hq). change (128 / 64)%N with 2%N in *. lia. }
  simpl BitVector.m_vec. rewrite Hl. simpl. done.
Qed.

Lemma bitvector_scan_correct_witness :
  let bv := scan_example in
  (exists r, BitVector.GetNextSetBit bv 3 = Ret r /\ BitVector.next_found (BitVector.bv_bit bv) 3 r) /\
  BitVector.CountSetBits bv = Ret (N.of_nat (length (BitVector.bv_elements bv))).
Proof.
  apply bitvector_scan_correct. exact scan_example_wf.
Defined.

(** ** Column sets, keys and functional dependencies *)

(** [Include] and [Exclude] of an array of column ids or of another set add
    and remove exactly these columns, for every implementation of the set
    interface. *)
Theorem include_exclude_correct {S} `{CSL : ColumnSetLaws S} (s t : S) (l : list N) :
  cs_ok s -> cs_ok t -> Forall (fun p => (p < MAX_COLID)%N) l ->
  yields (Include_array s l) (cs_elems s ∪ list_to_set l) /\
  yields (Exclude_array s l) (cs_elems s ∖ list_to_set l) /\
  yields (Include_set s t) (cs_elems s ∪ cs_elems t) /\
  yields (Exclude_set s t) (cs_elems s ∖ cs_elems t).
Proof.
  intros Hs Ht Hl. split_and!; [by apply Include_array_yields|by apply Exclude_array_yields|
    by apply Include_set_yields|by apply Exclude_set_yields].
Qed.

Lemma include_exclude_correct_witness :
  yields (Include_array empty_set [4%N; 9%N]) (BitSet.bs_set empty_set ∪ list_to_set [4%N; 9%N]) /\
  yields (Exclude_array empty_set [4%N; 9%N]) (BitSet.bs_set empty_set ∖ list_to_set [4%N; 9%N]) /\
  yields (Include_set empty_set empty_set) (BitSet.bs_set empty_set ∪ BitSet.bs_set empty_set) /\
  yields (Exclude_set empty_set empty_set) (BitSet.bs_set empty_set ∖ BitSet.bs_set empty_set).
Proof.
  refine (include_exclude_correct empty_set empty_set [4%N; 9%N] (proj1 empty_set_ok) (proj1 empty_set_ok) _).
  repeat constructor.
Defined.

(** [Replace] of an array of columns performs the replacements in order: a
    column is taken out and its partner put in exactly when it is a member then. *)
Theorem replace_correct {S} `{CSL : ColumnSetLaws S} (s : S) (outs ins : list N) :
  cs_ok s -> length outs = length ins -> Forall (fun p => (p < MAX_COLID)%N) ins ->
  yields (Replace_array s outs ins)
    (foldl (fun X oi => replaced X oi.1 oi.2) (cs_elems s) (zip outs ins)).
Proof. apply Replace_array_yields. Qed.

Lemma replace_correct_witness :
  yields (Replace_array empty_set [4%N] [9%N])
    (foldl (fun X oi => replaced X oi.1 oi.2) (BitSet.bs_set empty_set) (zip [4%N] [9%N])).
Proof.
  refine (replace_correct empty_set [4%N] [9%N] (proj1 empty_set_ok) eq_refl _).
  repeat constructor.
Defined.

(** [FCovered] answers yes exactly for a set with a column whose columns all
    belong to some set of the array; for the empty set it answers no. *)
Theorem covered_correct {S} `{CSL : ColumnSetLaws S} (ts : list S) (s : S) :
  ts <> [] -> Forall cs_ok ts -> cs_ok s ->
  exists b, FCovered ts s = Ret b /\
    (b = true <-> cs_elems s <> ∅ /\ forall p, p ∈ cs_elems s -> exists t, t ∈ ts /\ p ∈ cs_elems t).
Proof.
  intros Hne Hts Hs. unfold FCovered.
  rewrite bind_assert by (apply bool_decide_eq_true; destruct ts; simpl; [done|lia]).
  rewrite size_law by done. destruct (decide (cs_elems s = ∅)) as [E|E].
  { exists false. rewrite E, size_empty. split; [done|]. by split; [|intros []]. }
  assert (Hsz : (0 =? N.of_nat (size (cs_elems s)))%N = false).
  { apply N.eqb_neq. intros Hz. assert (Hz' : size (cs_elems s) = 0) by lia.
    by apply size_empty_inv, leibniz_equiv in Hz'. }
  rewrite Hsz. destruct (iterate_law s Hs) as (l & -> & _ & Hin). cbn [mbind outcome_bind].
  rewrite covered_loop_spec by done. eexists. split; [done|]. rewrite bool_decide_eq_true, Forall_forall.
  setoid_rewrite Exists_exists. setoid_rewrite Hin. tauto.
Qed.

Lemma covered_correct_witness :
  exists b, FCovered [empty_set] empty_set = Ret b /\
    (b = true <-> BitSet.bs_set empty_set <> ∅ /\
       forall p, p ∈ BitSet.bs_set empty_set -> exists t, t ∈ [empty_set] /\ p ∈ BitSet.bs_set t).
Proof.
  exact (covered_correct [empty_set] empty_set ltac:(discriminate)
    (Forall_cons_2 _ _ _ (proj1 empty_set_ok) (Forall_nil_2 _)) (proj1 empty_set_ok)).
Defined.

(** A key collection keeps valid, pairwise different keys: [Add] of a new key
    appends it, and [FKey] finds a set by an exact match or by inclusion of a key
    exactly when there is one. *)
Theorem key_collection_correct {S} `{CSL : ColumnSetLaws S} (kc : CKeyCollection S) (s : S) :
  keys_ok kc -> cs_ok s -> (forall k, k ∈ m_pdrgpcrs kc -> cs_elems s <> cs_elems k) ->
  exists kc', Add kc s = Ret kc' /\ m_pdrgpcrs kc' = m_pdrgpcrs kc ++ [s] /\ keys_ok kc' /\
    forall t ex, cs_ok t -> exists b, FKey kc' t ex = Ret b /\
      (b = true <-> exists k, k ∈ m_pdrgpcrs kc' /\
         if ex : bool then cs_elems t = cs_elems k else cs_elems k ⊆ cs_elems t).
Proof.
  intros [Hok Hnd] Hs Hnew. unfold Add, FKey. rewrite FKey_loop_spec by done. cbn [mbind outcome_bind].
  assert (Hno : existsb (fun k => matches_key true (cs_elems s) (cs_elems k)) (m_pdrgpcrs kc) = false).
  { apply not_true_iff_false. rewrite existsb_exists. intros (k & Hk%list_elem_of_In & Hm).
    apply bool_decide_eq_true in Hm. by apply (Hnew k). }
  rewrite Hno, bind_assert by done. eexists. split; [done|]. cbn [m_pdrgpcrs].
  assert (Hok' : Forall cs_ok (m_pdrgpcrs kc ++ [s])) by (apply Forall_app; split; [done|by constructor]).
  split_and!; [done| |].
  - split; [done|]. cbn [m_pdrgpcrs]. rewrite fmap_app. apply NoDup_app. split_and!; [done| |by apply NoDup_singleton].
    intros X (k & -> & Hk)%list_elem_of_fmap. simpl. rewrite list_elem_of_singleton. intros E.
    by apply (Hnew k).
  - intros t ex Ht. rewrite FKey_loop_spec by done. eexists. split; [done|].
    rewrite existsb_exists. setoid_rewrite <- list_elem_of_In. unfold matches_key.
    destruct ex; setoid_rewrite bool_decide_eq_true; done.
Qed.

Lemma key_collection_correct_witness :
  exists kc', Add CKeyCollection_ctor empty_set = Ret kc' /\ m_pdrgpcrs kc' = [empty_set] /\ keys_ok kc' /\
    forall (t : BitSet.CBitSet) ex, bit_ok t -> exists b, FKey kc' t ex = Ret b /\
      (b = true <-> exists k, k ∈ m_pdrgpcrs kc' /\
         if ex : bool then BitSet.bs_set t = BitSet.bs_set k else BitSet.bs_set k ⊆ BitSet.bs_set t).
Proof.
  refine (key_collection_correct CKeyCollection_ctor empty_set _ (proj1 empty_set_ok) _).
  - split; constructor.
  - intros k Hk. by apply not_elem_of_nil in Hk.
Defined.

(** [PdrgpcrTrim] returns, in ascending order, the columns of a key of the
    collection that the given columns include, and null when they include none. *)
Theorem trim_correct {S} `{CSL : ColumnSetLaws S} (kc : CKeyCollection S) (cols : list N) :
  keys_ok kc -> Forall (fun p => (p < MAX_COLID)%N) cols ->
  exists o, PdrgpcrTrim kc cols = Ret o /\
    match o with
    | Some l => exists k, k ∈ m_pdrgpcrs kc /\ StronglySorted N.lt l /\ list_to_set l = cs_elems k /\
        forall p, p ∈ l -> p ∈ cols
    | None => forall k, k ∈ m_pdrgpcrs kc -> exists p, p ∈ cs_elems k /\ p ∉ cols
    end.
Proof.
  intros [Hok _] Hcols. unfold PdrgpcrTrim. destruct (array_set_yields cols Hcols) as (s & -> & Hs & He).
  cbn [mbind outcome_bind]. destruct (trim_loop_spec (m_pdrgpcrs kc) s Hs Hok) as (o & -> & Ho).
  exists o. split; [done|]. rewrite He in Ho. destruct o as [l|].
  - destruct Ho as (k & Hk & Ha & Hl & Hsub). exists k. split_and!; [done..|]. intros p Hp.
    rewrite <- Hl in Hsub. specialize (Hsub p). rewrite !elem_of_list_to_set in Hsub. auto.
  - intros k Hk. specialize (Ho k Hk).
    destruct (decide (Exists (fun p => p ∉ cols) (elements (cs_elems k)))) as [Hex|Hn].
    + apply Exists_exists in Hex as (p & Hp%elem_of_elements & Hn). by exists p.
    + destruct Ho. intros p Hp. apply elem_of_list_to_set.
      destruct (decide (p ∈ cols)) as [|Hnp]; [done|]. destruct Hn. apply Exists_exists. exists p.
      by rewrite elem_of_elements.
Qed.

Lemma trim_correct_witness :
  exists o, PdrgpcrTrim (mkKeys [empty_set]) [3%N] = Ret o /\
    match o with
    | Some l => exists k, k ∈ [empty_set] /\ StronglySorted N.lt l /\ list_to_set l = BitSet.bs_set k /\
        forall p, p ∈ l -> p ∈ [3%N]
    | None => forall k, k ∈ [empty_set] -> exists p, p ∈ BitSet.bs_set k /\ p ∉ [3%N]
    end.
Proof.
  refine (trim_correct (mkKeys [empty_set]) [3%N] _ _); [|repeat constructor].
  split; [exact (Forall_cons_2 _ _ _ (proj1 empty_set_ok) (Forall_nil_2 _))|apply NoDup_singleton].
Defined.

(** [Equals] of two arrays of functional dependencies holds exactly when they
    have the same length and each dependency of the first occurs in the second;
    nothing is asked of the dependencies of the second. *)
Theorem fd_arrays_equal_meaning {S} `{CSL : ColumnSetLaws S} (fsts snds : list (CFunctionalDependency S)) :
  Forall fd_ok fsts -> Forall fd_ok snds ->
  exists b, FD_Equals_array (Some fsts) (Some snds) = Ret b /\
    (b = true <-> length fsts = length snds /\
       forall fd, fd ∈ fsts -> exists fd', fd' ∈ snds /\ fd_sets fd = fd_sets fd').
Proof.
  intros Hf Hs. unfold FD_Equals_array. case_bool_decide as Hlen; simpl; [|by exists false; split; [|split; [|intros []]]].
  rewrite fd_all_match_spec by done. eexists. split; [done|]. rewrite bool_decide_eq_true, Forall_fmap, Forall_forall.
  split.
  - intros Hall. split; [done|]. intros fd Hfd. specialize (Hall fd Hfd). apply list_elem_of_fmap in Hall as (fd' & ? & ?).
    by exists fd'.
  - intros [_ Hall] fd Hfd. destruct (Hall fd Hfd) as (fd' & ? & E). simpl. rewrite E. by apply list_elem_of_fmap_2.
Qed.

Lemma fd_arrays_equal_meaning_witness :
  exists b, FD_Equals_array (Some [mkFD empty_set empty_set]) (Some []) = Ret b /\
    (b = true <-> length [mkFD empty_set empty_set] = length (A := CFunctionalDependency BitSet.CBitSet) [] /\
       forall fd, fd ∈ [mkFD empty_set empty_set] -> exists fd', fd' ∈ [] /\ fd_sets fd = fd_sets fd').
Proof.
  refine (fd_arrays_equal_meaning [mkFD empty_set empty_set] [] _ (Forall_nil_2 _)).
  constructor; [split; exact (proj1 empty_set_ok)|constructor].
Defined.

Definition column (p : N) : BitSet.CBitSet :=
  match Include (S := BitSet.CBitSet) empty_set p with Ret s => s | Abort _ => empty_set end.

(** Equality of dependency arrays is not symmetric: two copies of 1 -> 2
    compare equal to 1 -> 2, 3 -> 4, but not the other way round. *)
Theorem fd_array_equality_asymmetric :
  let f := mkFD (column 1) (column 2) in
  let g := mkFD (column 3) (column 4) in
  FD_Equals_array (Some [f; f]) (Some [f; g]) = Ret true /\
  FD_Equals_array (Some [f; g]) (Some [f; f]) = Ret false.
Proof. split; vm_compute; reflexivity. Qed.

(** [PcrsKeys] and [PdrgpcrKeys] collect the key columns of all dependencies;
    the array has each of them once, in ascending order. *)
Theorem fd_keys_correct {S} `{CSL : ColumnSetLaws S} (fds : list (CFunctionalDependency S)) :
  Forall fd_ok fds ->
  exists l, PdrgpcrKeys (Some fds) = Ret l /\ StronglySorted N.lt l /\
    forall p, p ∈ l <-> exists fd, fd ∈ fds /\ p ∈ cs_elems (m_pcrsKey fd).
Proof.
  intros Hfds. destruct new_ok as [Hn He]. unfold PdrgpcrKeys, PcrsKeys. simpl default.
  destruct (keys_loop_yields cs_new fds Hn Hfds) as (s & -> & Hs & Hk). cbn [mbind outcome_bind].
  destruct (iterate_law s Hs) as (l & E & Ha & Hin). exists l. split_and!; [done..|].
  intros p. rewrite Hin, Hk, He, elem_of_union, elem_of_empty, elem_of_union_list. split.
  - intros [[]|(X & (fd & -> & Hfd)%list_elem_of_fmap & Hp)]. by exists fd.
  - intros (fd & Hfd & Hp). right. exists (cs_elems (m_pcrsKey fd)). split; [|done].
    by apply (list_elem_of_fmap_2 (fun fd => cs_elems (m_pcrsKey fd))).
Qed.

Lemma fd_keys_correct_witness :
  exists l, PdrgpcrKeys (Some [mkFD empty_set empty_set]) = Ret l /\ StronglySorted N.lt l /\
    forall p, p ∈ l <-> exists fd, fd ∈ [mkFD empty_set empty_set] /\ p ∈ BitSet.bs_set (m_pcrsKey fd).
Proof.
  refine (fd_keys_correct [mkFD empty_set empty_set] _).
  constructor; [split; exact (proj1 empty_set_ok)|constructor].
Defined.

(** the contract of a hash table over bit sets: two sets that [Equals] finds equal
    have the same hash value, and it fits 32 bits. The hash of a vector, computed
    over its bytes, is the fold of the FNV step over its 64-bit units. *)
Theorem bitset_hash_correct (bs other : BitSet.CBitSet) :
  BitSet.bs_wf bs -> BitSet.bs_wf other -> BitSet.m_vector_size bs = BitSet.m_vector_size other ->
  (BitSet.Equals bs other = Ret true -> SetHash.HashValue bs = SetHash.HashValue other) /\
  (SetHash.HashValue bs < 2 ^ 32)%N /\
  forall k, k ∈ BitSet.m_bsllist bs ->
    SetHash.VectorHashValue (BitSet.m_link_vec k) =
    SetHash.fold_hash (fold_left SetHash.fnv_step (BitVector.m_vec (BitSet.m_link_vec k))
      (N.lxor SetHash.FNV_OFFSET (8 * N.of_nat (BitVector.m_len (BitSet.m_link_vec k)))%N)).
Proof.
  intros H1 H2 H3. split; [|split; [apply SetHash.HashValue_lt|]].
  - rewrite BitSet.Equals_spec by done. intros [= E%bool_decide_eq_true]. by apply SetHash.HashValue_ext.
  - intros k Hk. apply SetHash.VectorHashValue_units. by apply (BitSet.link_ok_of _ _ (BitSet.bw_links _ H1)).
Qed.

(** The set {5, 300} as a [CBitSet] *)
Definition sample_set : BitSet.CBitSet :=
  match SetHash.build_set {[5%N; 300%N]} with Ret bs => bs | _ => empty_set end.

Lemma sample_set_ok : BitSet.bs_wf sample_set.
Proof.
  unfold sample_set. destruct (SetHash.build_set_ret {[5%N; 300%N]}) as (bs & -> & H & _); [|done].
  intros x [->%elem_of_singleton| ->%elem_of_singleton]%elem_of_union; done.
Qed.

Lemma bitset_hash_correct_witness :
  (BitSet.Equals sample_set sample_set = Ret true -> SetHash.HashValue sample_set = SetHash.HashValue sample_set) /\
  (SetHash.HashValue sample_set < 2 ^ 32)%N /\
  forall k, k ∈ BitSet.m_bsllist sample_set ->
    SetHash.VectorHashValue (BitSet.m_link_vec k) =
    SetHash.fold_hash (fold_left SetHash.fnv_step (BitVector.m_vec (BitSet.m_link_vec k))
      (N.lxor SetHash.FNV_OFFSET (8 * N.of_nat (BitVector.m_len (BitSet.m_link_vec k)))%N)).
Proof. exact (bitset_hash_correct sample_set sample_set sample_set_ok sample_set_ok eq_refl). Defined.

End SetProps.
