(* ===== verification/SyncPool.v ===== *)
(** * Object pools ([libgpos/include/gpos/common/CSyncPool.h])

    A pool owns an array of objects and two bitmaps of 32-bit words, the
    reserved and the recycled objects. [PtRetrieve] searches the array round
    robin and allocates an object of its own when the array is used up;
    [Recycle] marks an object of the array or deletes an allocated one. The
    scheduler takes its job links, and the job factory its jobs, from such
    pools: what they rely on is the class [Pool] with its laws, and the bitmap
    pool is an instance. *)
From stdpp Require Import base numbers list gmap.
From S2P Require Import Prelude.

Module SyncPool.
Open Scope N_scope.

(** What the users of a pool rely on: the objects handed out and not yet given
    back are different, and those only are given back. *)
Class Pool (P O : Type) := {
  pool_new : N -> P;
  retrieve : P -> outcome (P * O);
  recycle : P -> O -> outcome P;
  pool_delete : P -> outcome unit;
  used : P -> O -> bool;
  pool_inv : P -> Prop;
}.

Class PoolLaws (P O : Type) `{EqDecision O} `{Pool P O} : Prop := {
  new_law n : n < 2 ^ 31 -> pool_inv (pool_new n) /\ forall x, used (pool_new n) x = false;
  retrieve_law p : pool_inv p ->
    returns (retrieve p) (fun r => pool_inv r.1 /\ used p r.2 = false /\
      forall x, used r.1 x = used p x || bool_decide (x = r.2));
  recycle_law p o : pool_inv p -> used p o = true ->
    returns (recycle p o) (fun p' => pool_inv p' /\
      forall x, used p' x = used p x && negb (bool_decide (x = o)));
  delete_law p : pool_inv p -> (forall x, used p x = false) -> pool_delete p = Ret tt;
}.

(** ** The bitmap pool *)

Definition BITS_PER_ULONG : N := 32.
Definition ULONG_PTR_MOD : N := 2 ^ 64.

(** A pointer to an object: an element of [m_objects], whose id is its index, or
    an allocated object, whose id is [ulong_max]. *)
Inductive object :=
  | InArray (index : N)
  | Allocated (address : N).

#[export] Instance object_eq_dec : EqDecision object.
Proof. solve_decision. Defined.
#[export] Instance object_countable : Countable object.
Proof.
  refine (inj_countable'
    (fun o => match o with InArray i => inl i | Allocated a => inr a end)
    (fun s => match s with inl i => InArray i | inr a => Allocated a end) _).
  by intros [].
Defined.

(** The fields of [CSyncPool]; [m_allocated] are the objects of the heap that
    were allocated and not deleted, [m_next_address] an address never used. *)
Record CSyncPool := mkPool {
  m_objs_reserved : list N;
  m_objs_recycled : list N;
  m_numobjs : N;
  m_last_lookup_idx : N;
  m_allocated : gset N;
  m_next_address : N;
}.

Definition set_reserved p v :=
  mkPool v (m_objs_recycled p) (m_numobjs p) (m_last_lookup_idx p) (m_allocated p) (m_next_address p).
Definition set_recycled p v :=
  mkPool (m_objs_reserved p) v (m_numobjs p) (m_last_lookup_idx p) (m_allocated p) (m_next_address p).
Definition set_lookup p n :=
  mkPool (m_objs_reserved p) (m_objs_recycled p) (m_numobjs p) n (m_allocated p) (m_next_address p).
Definition set_heap p h n :=
  mkPool (m_objs_reserved p) (m_objs_recycled p) (m_numobjs p) (m_last_lookup_idx p) h n.

(** The constructor and [Init]: bitmaps of zeros *)
Definition CSyncPool_ctor (size : N) : CSyncPool :=
  let m_bitmap_size := N.to_nat (size / BITS_PER_ULONG + 1) in
  mkPool (replicate m_bitmap_size 0) (replicate m_bitmap_size 0) size 0 ∅ 0.

Definition elem_offset (index : N) : nat := N.to_nat (index / BITS_PER_ULONG).
Definition bit_val (index : N) : N := N.shiftl 1 (index mod BITS_PER_ULONG).

(** [SetBit] and [UnsetBit] on the word of an index. Nobody else writes the
    word, so that the loop ends in its first round. *)
Definition SetBit (dest : list N) (index : N) : outcome (list N * bool) :=
  old_val ← subscript dest (elem_offset index);
  if N.land (bit_val index) old_val =? 0 then
    mret (<[elem_offset index := N.lor (bit_val index) old_val]> dest, true)
  else mret (dest, false).

Definition UnsetBit (dest : list N) (index : N) : outcome (list N * bool) :=
  old_val ← subscript dest (elem_offset index);
  if N.land (bit_val index) old_val =? bit_val index then
    mret (<[elem_offset index := N.lxor (bit_val index) old_val]> dest, true)
  else mret (dest, false).

(** The test of a bit, [bit_val == (bit_val & map[elem_offset])] *)
Definition bit_is_set (map : list N) (index : N) : outcome bool :=
  w ← subscript map (elem_offset index);
  mret (N.land (bit_val index) w =? bit_val index).

(** The loop of [PtRetrieve], [n] rounds to go *)
Fixpoint PtRetrieve_loop (n : nat) (p : CSyncPool) : outcome (CSyncPool * option N) :=
  match n with
  | O => mret (p, None)
  | S n' =>
      let index := m_last_lookup_idx p mod m_numobjs p in
      let p := set_lookup p ((m_last_lookup_idx p + 1) mod ULONG_PTR_MOD) in
      '(reserved, found) ← SetBit (m_objs_reserved p) index;
      if (found : bool) then mret (set_reserved p reserved, Some index)
      else
        marked ← bit_is_set (m_objs_recycled p) index;
        if (marked : bool) then
          ('(recycled, cleared) ← UnsetBit (m_objs_recycled p) index;
           if (cleared : bool) then
             ('(reserved, recycled_ok) ← UnsetBit (m_objs_reserved p) index;
              _ ← GPOS_ASSERT recycled_ok;
              PtRetrieve_loop n' (set_reserved (set_recycled p recycled) reserved))
           else PtRetrieve_loop n' p)
        else PtRetrieve_loop n' p
  end.

(** [CSyncPool::PtRetrieve]; the bound of the loop is computed in 32 bits. *)
Definition PtRetrieve (p : CSyncPool) : outcome (CSyncPool * object) :=
  '(p', found) ← PtRetrieve_loop (N.to_nat ((2 * m_numobjs p) mod 2 ^ 32)) p;
  match found with
  | Some index => mret (p', InArray index)
  | None =>
      let address := m_next_address p' in
      mret (set_heap p' ({[address]} ∪ m_allocated p') (address + 1), Allocated address)
  end.

(** [CSyncPool::Recycle]; deleting an object that is not allocated is a fault. *)
Definition Recycle (p : CSyncPool) (elem : object) : outcome CSyncPool :=
  match elem with
  | Allocated address =>
      if bool_decide (address ∈ m_allocated p)
      then mret (set_heap p (m_allocated p ∖ {[address]}) (m_next_address p))
      else Abort FNull
  | InArray offset =>
      _ ← GPOS_ASSERT (offset <? m_numobjs p);
      reserved ← bit_is_set (m_objs_reserved p) offset;
      _ ← GPOS_ASSERT reserved;
      '(recycled, mark_recycled) ← SetBit (m_objs_recycled p) offset;
      _ ← GPOS_ASSERT mark_recycled;
      mret (set_recycled p recycled)
  end.

(** The destructor's check that no object of the array is still in use, from
    index [i] on *)
Fixpoint dtor_loop (n : nat) (p : CSyncPool) (i : N) : outcome unit :=
  match n with
  | O => mret tt
  | S n' =>
      reserved ← bit_is_set (m_objs_reserved p) i;
      recycled ← bit_is_set (m_objs_recycled p) i;
      _ ← GPOS_ASSERT (negb reserved || recycled);
      dtor_loop n' p (i + 1)
  end.

(** [CSyncPool::~CSyncPool] *)
Definition CSyncPool_dtor (p : CSyncPool) : outcome unit := dtor_loop (N.to_nat (m_numobjs p)) p 0.

(** ** Meaning of the bitmaps *)

Definition map_bit (v : list N) (i : N) : bool :=
  N.testbit (default 0 (v !! elem_offset i)) (i mod BITS_PER_ULONG).

(** An object is in use from its retrieval to its recycling. *)
Definition in_use (p : CSyncPool) (o : object) : bool :=
  match o with
  | InArray i => (i <? m_numobjs p) && map_bit (m_objs_reserved p) i && negb (map_bit (m_objs_recycled p) i)
  | Allocated a => bool_decide (a ∈ m_allocated p)
  end.

Record pool_ok (p : CSyncPool) : Prop := {
  pool_reserved_len : forall i, i < m_numobjs p -> (elem_offset i < length (m_objs_reserved p))%nat;
  pool_recycled_len : forall i, i < m_numobjs p -> (elem_offset i < length (m_objs_recycled p))%nat;
  pool_recycled : forall i, map_bit (m_objs_recycled p) i = true -> map_bit (m_objs_reserved p) i = true;
  pool_size : m_numobjs p < 2 ^ 31;
  pool_heap : forall a, a ∈ m_allocated p -> a < m_next_address p;
}.

Lemma same_word_bit i j :
  elem_offset i = elem_offset j -> i mod BITS_PER_ULONG = j mod BITS_PER_ULONG -> i = j.
Proof.
  unfold elem_offset, BITS_PER_ULONG. intros H1 H2. apply N2Nat.inj in H1.
  rewrite (N.div_mod i 32), (N.div_mod j 32); lia.
Qed.

Lemma land_bit_val w i :
  N.land (bit_val i) w = if N.testbit w (i mod BITS_PER_ULONG) then bit_val i else 0.
Proof.
  unfold bit_val. rewrite N.shiftl_1_l. apply N.bits_inj. intros k.
  rewrite N.land_spec, N.pow2_bits_eqb. destruct (N.eqb_spec (i mod BITS_PER_ULONG) k) as [<-|E]; simpl.
  - destruct (N.testbit w _); [by rewrite N.pow2_bits_eqb, N.eqb_refl|by rewrite N.bits_0].
  - destruct (N.testbit w (i mod BITS_PER_ULONG)); [|by rewrite N.bits_0].
    rewrite N.pow2_bits_eqb. symmetry. by apply N.eqb_neq.
Qed.

Lemma bit_val_pos i : bit_val i <> 0.
Proof. unfold bit_val. rewrite N.shiftl_1_l. by apply N.pow_nonzero. Qed.

(** Writing a word changes the one bit in which it differs. *)
Lemma map_bit_insert v i w' b :
  (elem_offset i < length v)%nat ->
  (forall k, N.testbit w' k = if k =? i mod BITS_PER_ULONG then b
             else N.testbit (default 0 (v !! elem_offset i)) k) ->
  forall j, map_bit (<[elem_offset i := w']> v) j = if bool_decide (j = i) then b else map_bit v j.
Proof.
  intros Hlen Hw j. unfold map_bit. destruct (decide (elem_offset j = elem_offset i)) as [E|E].
  - rewrite E, list_lookup_insert_eq by done. simpl. rewrite Hw. case_bool_decide as Hj.
    + subst. by rewrite N.eqb_refl.
    + destruct (N.eqb_spec (j mod BITS_PER_ULONG) (i mod BITS_PER_ULONG)) as [E'|]; [|done].
      by pose proof (same_word_bit j i E E').
  - rewrite list_lookup_insert_ne by done. case_bool_decide; [congruence|done].
Qed.

Section Words.
Context (v : list N) (i : N) (Hi : (elem_offset i < length v)%nat).

Lemma bitmap_word : exists w, v !! elem_offset i = Some w /\ map_bit v i = N.testbit w (i mod BITS_PER_ULONG).
Proof.
  destruct (lookup_lt_is_Some_2 v (elem_offset i) Hi) as [w Hw].
  exists w. split; [done|]. unfold map_bit. by rewrite Hw.
Qed.

Lemma bit_is_set_spec : bit_is_set v i = Ret (map_bit v i).
Proof.
  destruct bitmap_word as (w & Hw & ->). unfold bit_is_set. rewrite (subscript_some _ _ _ Hw).
  cbn [mbind outcome_bind]. rewrite land_bit_val. f_equal.
  destruct (N.testbit w _); [apply N.eqb_refl|]. apply N.eqb_neq. apply not_eq_sym, bit_val_pos.
Qed.

Lemma SetBit_spec :
  exists v', SetBit v i = Ret (v', negb (map_bit v i)) /\ length v' = length v /\
    forall j, map_bit v' j = bool_decide (j = i) || map_bit v j.
Proof.
  destruct bitmap_word as (w & Hw & Hb). unfold SetBit. rewrite (subscript_some _ _ _ Hw).
  cbn [mbind outcome_bind]. rewrite land_bit_val, Hb.
  destruct (N.testbit w (i mod BITS_PER_ULONG)) eqn:E.
  - rewrite (proj2 (N.eqb_neq _ _) (bit_val_pos i)). exists v. repeat split.
    intros j. case_bool_decide as Hj; [by subst|done].
  - rewrite N.eqb_refl. eexists. split; [done|]. split; [by rewrite length_insert|].
    intros j. rewrite (map_bit_insert v i _ true Hi); [by case_bool_decide|].
    intros k. rewrite N.lor_spec, Hw. unfold bit_val. rewrite N.shiftl_1_l, N.pow2_bits_eqb, N.eqb_sym. cbn [default].
    by destruct (N.eqb_spec k (i mod BITS_PER_ULONG)).
Qed.

Lemma UnsetBit_spec :
  map_bit v i = true ->
  exists v', UnsetBit v i = Ret (v', true) /\ length v' = length v /\
    forall j, map_bit v' j = negb (bool_decide (j = i)) && map_bit v j.
Proof.
  destruct bitmap_word as (w & Hw & Hb). intros Ht. unfold UnsetBit. rewrite (subscript_some _ _ _ Hw).
  cbn [mbind outcome_bind]. rewrite Hb in Ht. rewrite land_bit_val, Ht, N.eqb_refl.
  eexists. split; [done|]. split; [by rewrite length_insert|].
  intros j. rewrite (map_bit_insert v i _ false Hi); [by case_bool_decide|].
  intros k. rewrite N.lxor_spec, Hw. unfold bit_val. rewrite N.shiftl_1_l, N.pow2_bits_eqb, N.eqb_sym. cbn [default].
  destruct (N.eqb_spec k (i mod BITS_PER_ULONG)) as [->|]; [by rewrite Ht|by rewrite xorb_false_l].
Qed.
End Words.

(** ** The search *)

(** What a round of the search, or the whole search, may do to the pool when it
    finds nothing: an object that is not in use becomes free. *)
Record searched (p p' : CSyncPool) : Prop := {
  searched_ok : pool_ok p';
  searched_size : m_numobjs p' = m_numobjs p;
  searched_use : forall x, in_use p' x = in_use p x;
  searched_free : forall i, map_bit (m_objs_reserved p) i = false -> map_bit (m_objs_reserved p') i = false;
}.

(** One round: it takes the object at the index, or goes on. *)
Definition round (p : CSyncPool) (o : outcome (CSyncPool * option N)) (k : CSyncPool -> outcome (CSyncPool * option N)) : Prop :=
  let i := m_last_lookup_idx p mod m_numobjs p in
  let next := (m_last_lookup_idx p + 1) mod ULONG_PTR_MOD in
  if map_bit (m_objs_reserved p) i then
    exists p', o = k p' /\ searched p p' /\ m_last_lookup_idx p' = next /\
      (map_bit (m_objs_recycled p) i = true -> map_bit (m_objs_reserved p') i = false)
  else
    exists p', o = Ret (p', Some i) /\ pool_ok p' /\ m_numobjs p' = m_numobjs p /\
      in_use p (InArray i) = false /\
      forall x, in_use p' x = in_use p x || bool_decide (x = InArray i).

Lemma PtRetrieve_round n p :
  pool_ok p -> 0 < m_numobjs p -> round p (PtRetrieve_loop (S n) p) (PtRetrieve_loop n).
Proof.
  intros Hok Hpos. unfold round. cbn [PtRetrieve_loop].
  set (i := m_last_lookup_idx p mod m_numobjs p).
  assert (i < m_numobjs p) as Hi by (subst i; apply N.mod_lt; lia).
  destruct Hok as [H1 H2 H3 H4 H5]. pose proof (H1 i Hi) as L1. pose proof (H2 i Hi) as L2.
  destruct p as [rsv rcy num last heap next]. cbn [m_objs_reserved m_objs_recycled m_numobjs m_last_lookup_idx
    set_lookup set_reserved set_recycled m_allocated m_next_address] in *.
  destruct (SetBit_spec rsv i L1) as (v' & -> & Hlen & Hbits). cbn [mbind outcome_bind].
  destruct (map_bit rsv i) eqn:Ei; cbn [negb].
  - rewrite (bit_is_set_spec rcy i L2). cbn [mbind outcome_bind].
    destruct (map_bit rcy i) eqn:Er.
    + destruct (UnsetBit_spec rcy i L2 Er) as (rcy' & -> & Hl2 & Hb2). cbn [mbind outcome_bind].
      destruct (UnsetBit_spec rsv i L1 Ei) as (rsv' & -> & Hl1 & Hb1). cbn [mbind outcome_bind].
      rewrite bind_assert by done. eexists. split; [reflexivity|].
      split; [|split; [done|intros _; cbn; rewrite Hb1, bool_decide_eq_true_2; done]].
      split; cbn; [split; cbn; try done| done | |].
      * intros j Hj. rewrite Hl1. by apply H1.
      * intros j Hj. rewrite Hl2. by apply H2.
      * intros j. rewrite Hb1, Hb2. destruct (bool_decide (j = i)); naive_solver.
      * intros [j|a]; cbn; [|done]. rewrite Hb1, Hb2. case_bool_decide as Hj; [|done].
        subst j. rewrite Ei, Er. by destruct (i <? num).
      * intros j Hj. rewrite Hb1, Hj. apply andb_false_r.
    + eexists. split; [reflexivity|]. split; [|split; [done|naive_solver]].
      split; cbn; [split; done|done|done|done].
  - assert (map_bit rcy i = false) as Er.
    { destruct (map_bit rcy i) eqn:Er; [|done]. apply H3 in Er. congruence. }
    eexists. split; [reflexivity|]. split; [|split; [done|split]].
    + split; cbn; try done.
      * intros j Hj. rewrite Hlen. by apply H1.
      * intros j Hj. rewrite Hbits, (H3 j Hj). apply orb_true_r.
    + cbn. rewrite Ei. by destruct (i <? num).
    + intros [j|a]; cbn; [|rewrite (bool_decide_eq_false_2 (Allocated a = InArray i)) by done; by rewrite orb_false_r].
      rewrite Hbits. case_bool_decide as Hj.
      * subst j. rewrite Er, Ei, bool_decide_eq_true_2 by done.
        assert ((i <? num) = true) as -> by by apply N.ltb_lt. done.
      * rewrite bool_decide_eq_false_2 by naive_solver. by rewrite orb_false_r.
Qed.

Lemma searched_trans p q r : searched p q -> searched q r -> searched p r.
Proof.
  intros [A1 A2 A3 A4] [B1 B2 B3 B4]. split; [done|congruence| |auto].
  intros x. by rewrite B3.
Qed.

(** What the search gives. *)
Definition search_result (p : CSyncPool) (r : CSyncPool * option N) : Prop :=
  match r.2 with
  | None => searched p r.1
  | Some i => pool_ok r.1 /\ in_use p (InArray i) = false /\
      forall x, in_use r.1 x = in_use p x || bool_decide (x = InArray i)
  end.

Lemma search_result_mono p q r : searched p q -> search_result q r -> search_result p r.
Proof.
  intros Hs. destruct r as [p' [i|]]; unfold search_result; cbn [fst snd].
  - intros (H1 & H2 & H3). split; [done|]. split; [by rewrite <- (searched_use p q Hs)|].
    intros x. by rewrite H3, (searched_use p q Hs).
  - by apply searched_trans.
Qed.

Lemma PtRetrieve_loop_spec n p :
  pool_ok p -> (n <> O -> 0 < m_numobjs p) -> returns (PtRetrieve_loop n p) (search_result p).
Proof.
  revert p. induction n as [|n IH]; intros p Hok Hpos.
  - apply returns_ret. by split.
  - pose proof (PtRetrieve_round n p Hok (Hpos ltac:(done))) as Hr. unfold round in Hr.
    destruct (map_bit (m_objs_reserved p) (m_last_lookup_idx p mod m_numobjs p)).
    + destruct Hr as (p' & -> & Hs & _ & _). pose proof Hs as [Hok' Hn _ _].
      eapply returns_mono; [apply IH; [done|]|intros r; by apply search_result_mono].
      intros _. rewrite Hn. by apply Hpos.
    + destruct Hr as (p' & -> & Hok' & _ & Hu & Hx). by apply returns_ret.
Qed.
(** ** The contract of the pool *)

Lemma PtRetrieve_spec p :
  pool_ok p ->
  returns (PtRetrieve p) (fun r => pool_ok r.1 /\ in_use p r.2 = false /\
    forall x, in_use r.1 x = in_use p x || bool_decide (x = r.2)).
Proof.
  intros Hok. unfold PtRetrieve.
  eapply returns_bind; [apply PtRetrieve_loop_spec; [done|]|].
  { intros Hn. destruct (N.eq_dec (m_numobjs p) 0) as [E|]; [|lia]. by rewrite E in Hn. }
  intros [p' [i|]]; unfold search_result; cbn [fst snd]; [by intros; apply returns_ret|].
  intros [[H1 H2 H3 H4 H5] Hn Hu _]. apply returns_ret. cbn [fst snd]. split; [|split].
  - split; cbn [set_heap m_objs_reserved m_objs_recycled m_numobjs m_allocated m_next_address]; try done.
    intros a [->%elem_of_singleton|Ha%H5]%elem_of_union; lia.
  - rewrite <- Hu. cbn. apply bool_decide_eq_false. intros Ha%H5. lia.
  - intros x. rewrite <- Hu. destruct x as [i|a]; cbn.
    + rewrite (bool_decide_eq_false_2 (InArray i = _)) by done. by rewrite orb_false_r.
    + apply eq_bool_prop_intro. rewrite orb_True, !bool_decide_spec, elem_of_union, elem_of_singleton.
      naive_solver.
Qed.

Lemma Recycle_spec p o :
  pool_ok p -> in_use p o = true ->
  returns (Recycle p o) (fun p' => pool_ok p' /\
    forall x, in_use p' x = in_use p x && negb (bool_decide (x = o))).
Proof.
  intros [H1 H2 H3 H4 H5]. destruct o as [i|a]; cbn [in_use Recycle].
  - intros ((Hi & Hr)%andb_prop & Hn)%andb_prop. rewrite bind_assert by done.
    apply N.ltb_lt in Hi. rewrite (bit_is_set_spec _ _ (H1 i Hi)), Hr. cbn [mbind outcome_bind].
    rewrite bind_assert by done.
    destruct (SetBit_spec _ _ (H2 i Hi)) as (v' & -> & Hl & Hb). rewrite Hn. cbn [mbind outcome_bind].
    rewrite bind_assert by done. apply returns_ret. split.
    + split; cbn [set_recycled m_objs_reserved m_objs_recycled m_numobjs m_allocated m_next_address]; try done.
      * intros j Hj. rewrite Hl. by apply H2.
      * intros j. rewrite Hb. case_bool_decide; [by subst|apply H3].
    + intros [j|a]; cbn; [|by rewrite (bool_decide_eq_false_2 (Allocated a = _)), andb_true_r].
      rewrite Hb. case_bool_decide as Hj.
      * subst j. rewrite (bool_decide_eq_true_2 (InArray i = _)) by done. by rewrite !andb_false_r.
      * rewrite (bool_decide_eq_false_2 (InArray j = _)) by naive_solver. cbn. by rewrite andb_true_r.
  - intros ->. apply returns_ret. split.
    + split; cbn [set_heap m_objs_reserved m_objs_recycled m_numobjs m_allocated m_next_address]; try done.
      intros b [Hb _]%elem_of_difference. by apply H5.
    + intros [i|b]; cbn; [by rewrite (bool_decide_eq_false_2 (InArray i = _)), andb_true_r|].
      apply eq_bool_prop_intro. rewrite andb_True, negb_True, !bool_decide_spec, elem_of_difference, elem_of_singleton.
      naive_solver.
Qed.

Lemma CSyncPool_ctor_spec n :
  n < 2 ^ 31 -> pool_ok (CSyncPool_ctor n) /\ forall x, in_use (CSyncPool_ctor n) x = false.
Proof.
  intros Hn. assert (forall i, map_bit (replicate (N.to_nat (n / BITS_PER_ULONG + 1)) 0) i = false) as Hz.
  { intros i. unfold map_bit. destruct (_ !! _) as [w|] eqn:E; [|apply N.bits_0].
    apply lookup_replicate in E as [-> _]. apply N.bits_0. }
  assert (forall i, i < n -> (elem_offset i < N.to_nat (n / BITS_PER_ULONG + 1))%nat) as Hl.
  { intros i Hi. unfold elem_offset, BITS_PER_ULONG.
    pose proof (N.Div0.div_le_mono i n 32 ltac:(lia)). lia. }
  unfold CSyncPool_ctor.
  split; [split; cbn [m_objs_reserved m_objs_recycled m_numobjs m_allocated m_next_address]; try done|].
  - intros i Hi. rewrite length_replicate. by apply Hl.
  - intros i Hi. rewrite length_replicate. by apply Hl.
  - intros [i|a]; cbn [in_use m_objs_reserved m_objs_recycled m_numobjs m_allocated]; [|done].
    rewrite Hz. by rewrite andb_false_r.
Qed.

Lemma dtor_loop_spec n p i :
  pool_ok p -> (forall x, in_use p x = false) -> N.of_nat n + i <= m_numobjs p -> dtor_loop n p i = Ret tt.
Proof.
  intros Hok Hu. revert i. induction n as [|n IH]; intros i Hi; [done|]. cbn [dtor_loop].
  pose proof (pool_reserved_len p Hok i ltac:(lia)) as L1. pose proof (pool_recycled_len p Hok i ltac:(lia)) as L2.
  rewrite (bit_is_set_spec _ _ L1). cbn [mbind outcome_bind]. rewrite (bit_is_set_spec _ _ L2). cbn [mbind outcome_bind].
  rewrite bind_assert; [apply IH; lia|]. specialize (Hu (InArray i)). cbn in Hu.
  assert ((i <? m_numobjs p) = true) as Hlt by (apply N.ltb_lt; lia). rewrite Hlt in Hu.
  by destruct (map_bit (m_objs_reserved p) i), (map_bit (m_objs_recycled p) i).
Qed.

Lemma CSyncPool_dtor_spec p :
  pool_ok p -> (forall x, in_use p x = false) -> CSyncPool_dtor p = Ret tt.
Proof. intros Hok Hu. apply dtor_loop_spec; [done|done|lia]. Qed.

#[export] Instance BitmapPool : Pool CSyncPool object := {
  pool_new := CSyncPool_ctor;
  retrieve := PtRetrieve;
  recycle := Recycle;
  pool_delete := CSyncPool_dtor;
  used := in_use;
  pool_inv := pool_ok;
}.

#[export] Instance BitmapPoolLaws : PoolLaws CSyncPool object.
Proof. split; [apply CSyncPool_ctor_spec|apply PtRetrieve_spec|apply Recycle_spec|apply CSyncPool_dtor_spec]. Qed.

(** ** The array is used before the heap *)

(** The search reaches index [j] within [n] rounds. *)
Definition reaches (p : CSyncPool) (n : nat) (j : N) : Prop :=
  exists k, (k < n)%nat /\ (m_last_lookup_idx p + N.of_nat k) mod m_numobjs p = j.

Definition no_wrap (p : CSyncPool) (n : nat) : Prop := m_last_lookup_idx p + N.of_nat n < ULONG_PTR_MOD.

Lemma reaches_next p p' n j :
  no_wrap p (S n) -> searched p p' ->
  m_last_lookup_idx p' = (m_last_lookup_idx p + 1) mod ULONG_PTR_MOD ->
  no_wrap p' n /\
  (reaches p (S n) j -> m_last_lookup_idx p mod m_numobjs p <> j -> reaches p' n j).
Proof.
  unfold no_wrap. intros Hw [_ Hn _ _] Hl.
  rewrite N.mod_small in Hl by (unfold ULONG_PTR_MOD in *; lia).
  split; [rewrite Hl; lia|].
  intros ([|k] & Hk & Hj) Hne; [rewrite N.add_0_r in Hj; done|].
  exists k. split; [lia|]. rewrite Hn, Hl, <- Hj. f_equal. lia.
Qed.

Lemma search_finds_free n p j :
  pool_ok p -> 0 < m_numobjs p -> no_wrap p n ->
  map_bit (m_objs_reserved p) j = false -> reaches p n j ->
  returns (PtRetrieve_loop n p) (fun r => is_Some r.2).
Proof.
  revert p. induction n as [|n IH]; intros p Hok Hpos Hw Hj Hr; [by destruct Hr as (k & Hk & _); lia|].
  pose proof (PtRetrieve_round n p Hok Hpos) as Hround. unfold round in Hround.
  destruct (map_bit (m_objs_reserved p) (m_last_lookup_idx p mod m_numobjs p)) eqn:E.
  - destruct Hround as (p' & -> & Hs & Hl & _).
    destruct (reaches_next p p' n j Hw Hs Hl) as [Hw' Hr'].
    destruct Hs as [Hok' Hn _ Hf].
    apply IH; [done|by rewrite Hn|done|by apply Hf|]. apply Hr'; [done|]. intros Eq. rewrite Eq in E. congruence.
  - destruct Hround as (p' & -> & _). apply returns_ret. by eexists.
Qed.

Lemma search_finds_unused n m p j :
  pool_ok p -> 0 < m_numobjs p -> no_wrap p (n + m) ->
  in_use p (InArray j) = false -> j < m_numobjs p -> reaches p n j ->
  (forall l, l < m_numobjs p -> forall q, m_numobjs q = m_numobjs p -> reaches q m l) ->
  returns (PtRetrieve_loop (n + m) p) (fun r => is_Some r.2).
Proof.
  revert p. induction n as [|n IH]; intros p Hok Hpos Hw Hu Hj Hr Hall; [by destruct Hr as (k & Hk & _); lia|].
  pose proof (PtRetrieve_round (n + m) p Hok Hpos) as Hround. unfold round in Hround.
  cbn [Nat.add] in *.
  destruct (map_bit (m_objs_reserved p) (m_last_lookup_idx p mod m_numobjs p)) eqn:E.
  - destruct Hround as (p' & -> & Hs & Hl & Hc).
    destruct (reaches_next p p' (n + m) j Hw Hs Hl) as [Hw' _].
    assert (no_wrap p (S n)) as Hw1 by (unfold no_wrap in *; lia).
    destruct (reaches_next p p' n j Hw1 Hs Hl) as [_ Hr'].
    pose proof Hs as [Hok' Hn Hx Hf].
    destruct (N.eq_dec (m_last_lookup_idx p mod m_numobjs p) j) as [Eq|Ne].
    + apply (search_finds_free (n + m) p' j); [done|by rewrite Hn|done| |].
      * rewrite <- Eq. apply Hc. rewrite Eq in *. cbn in Hu. rewrite E in Hu.
        apply N.ltb_lt in Hj. rewrite Hj in Hu. by destruct (map_bit (m_objs_recycled p) j).
      * destruct (Hall j Hj p' Hn) as (k & Hk & Hkj). exists k. split; [lia|done].
    + apply IH; [done|by rewrite Hn|done|by rewrite Hx|by rewrite Hn|by apply Hr'|].
      intros l Hlt q Hq. apply Hall; congruence.
  - destruct Hround as (p' & -> & _). apply returns_ret. by eexists.
Qed.

Lemma reaches_all q n l :
  l < m_numobjs q -> n = N.to_nat (m_numobjs q) -> reaches q n l.
Proof.
  intros Hl ->. set (m := m_numobjs q) in *. set (a := m_last_lookup_idx q).
  exists (N.to_nat ((l + (m - a mod m)) mod m)).
  pose proof (N.mod_lt (l + (m - a mod m)) m ltac:(lia)). pose proof (N.mod_lt a m ltac:(lia)).
  split; [lia|]. rewrite N2Nat.id. fold a m. rewrite N.Div0.add_mod_idemp_r.
  replace (a + (l + (m - a mod m))) with (l + ((a / m + 1) * m)).
  - rewrite N.Div0.mod_add. by apply N.mod_small.
  - pose proof (N.div_mod a m ltac:(lia)). nia.
Qed.

(** While an object of the array is not in use, retrieval does not allocate. *)
Lemma PtRetrieve_uses_array p j :
  pool_ok p -> m_last_lookup_idx p + 2 * m_numobjs p < ULONG_PTR_MOD ->
  j < m_numobjs p -> in_use p (InArray j) = false ->
  returns (PtRetrieve p) (fun r => exists i, r.2 = InArray i).
Proof.
  intros Hok Hw Hj Hu. unfold PtRetrieve. pose proof (pool_size p Hok) as Hsz.
  rewrite N.mod_small by lia. replace (N.to_nat (2 * m_numobjs p))
    with (N.to_nat (m_numobjs p) + N.to_nat (m_numobjs p))%nat by lia.
  eapply returns_bind.
  - apply (search_finds_unused _ _ p j); try done; [lia|unfold no_wrap; lia|by apply reaches_all|].
    intros l Hl q Hq. apply reaches_all; [by rewrite Hq|by rewrite Hq].
  - intros [p' o] [i Hi]. cbn in Hi. subst o. apply returns_ret. by exists i.
Qed.
End SyncPool.
