(* ===== verification/Scheduler.v ===== *)
(** * Jobs, job queues and the scheduler

    Sources: [CJob], [CJobQueue], [CJobFactory] and [CScheduler] of
    [libgpopt/.../search]. A job is an object in memory, known by its pointer;
    a pointer to a released job cannot be dereferenced, and the memory of a
    released job is handed out again. The state holds the jobs, the job queues
    of the groups, the scheduler's own fields and the pools of the factory.

    What a job does when it runs is the virtual [FExecute] of its class: it
    changes the data of the job and the state of the engine, schedules child
    jobs, and says whether the job is completed. It is the class [JobClass]
    below, whatever the subclass. *)
From stdpp Require Import base numbers list gmap.
From S2P Require Import Prelude SyncPool.

Module Scheduler.
Import SyncPool.
Open Scope N_scope.

Inductive EJobType :=
  | EjtTest
  | EjtGroupOptimization
  | EjtGroupImplementation
  | EjtGroupExploration
  | EjtGroupExpressionOptimization
  | EjtGroupExpressionImplementation
  | EjtGroupExpressionExploration
  | EjtTransformation
  | EjtJoinEnumeration.

Inductive EJobState := EjsInit | EjsWaiting | EjsRunning | EjsSuspended | EjsCompleted.

Inductive EJobQueueResult := EjqrMain | EjqrQueued | EjqrCompleted.

Inductive EJobResult := EjrRunnable | EjrSuspended | EjrCompleted.

#[export] Instance EJobType_eq_dec : EqDecision EJobType.
Proof. solve_decision. Defined.
#[export] Instance EJobState_eq_dec : EqDecision EJobState.
Proof. solve_decision. Defined.

Definition job_types : list EJobType :=
  [EjtTest; EjtGroupOptimization; EjtGroupImplementation; EjtGroupExploration;
   EjtGroupExpressionOptimization; EjtGroupExpressionImplementation;
   EjtGroupExpressionExploration; EjtTransformation; EjtJoinEnumeration].

#[export] Instance EJobType_countable : Countable EJobType.
Proof.
  refine (inj_countable
    (fun t => match t with
      | EjtTest => 0 | EjtGroupOptimization => 1 | EjtGroupImplementation => 2
      | EjtGroupExploration => 3 | EjtGroupExpressionOptimization => 4
      | EjtGroupExpressionImplementation => 5 | EjtGroupExpressionExploration => 6
      | EjtTransformation => 7 | EjtJoinEnumeration => 8 end%nat)
    (fun n => job_types !! n) _).
  by intros [].
Defined.

(** A call of [ScheduleJob(psc, ..., this)]: the class of the child, the queue its
    [Init] sets, and the data it is given. *)
Record spawn (J : Type) := mkSpawn {
  sp_type : EJobType;
  sp_queue : option N;
  sp_data : J;
}.
Arguments mkSpawn {J} _ _ _.
Arguments sp_type {J} _.
Arguments sp_queue {J} _.
Arguments sp_data {J} _.

(** [virtual BOOL CJob::FExecute(CSchedulerContext *psc)] on a state [E] of the
    engine and the data [J] of the job: the children it schedules, in order, and
    whether the job is completed. *)
Class JobClass (E J : Type) := {
  job_FExecute : E -> J -> E * J * list (spawn J) * bool;
}.

Section Model.
Context {P Ob : Type} `{CO : Countable Ob} `{PO : Pool P Ob}.
Context {E J : Type} `{JC : JobClass E J}.

(** A job pointer: the pool it comes from and the object there *)
Definition jptr : Type := EJobType * Ob.

Record CJob := mkJob {
  m_pjParent : option jptr;
  m_pjq : option N;
  m_ulpRefs : N;
  m_ejt : EJobType;
  m_fInit : bool;
  m_ejs : EJobState;
  m_data : J;
}.

Record CJobQueue := mkQueue {
  m_pj : option jptr;
  m_fCompleted : bool;
  m_listjQueued : list jptr;
}.

Definition CJobQueue_ctor : CJobQueue := mkQueue None false [].

Record SJobLink := mkJobLink { link_obj : Ob; link_pj : jptr }.

(** The counters of [CScheduler] *)
Record counters := mkCounters {
  m_ulpTotal : N;
  m_ulpRunning : N;
  m_ulpQueued : N;
  m_ulpStatsQueued : N;
  m_ulpStatsDequeued : N;
  m_ulpStatsSuspended : N;
  m_ulpStatsCompleted : N;
  m_ulpStatsCompletedQueued : N;
  m_ulpStatsResumed : N;
  m_ulpStatsMaxRunnable : N;
  m_ullStatsRunnableDepth : N;
}.

(** The state: jobs and queues in memory, the engine, the factory ([m_pools],
    one per job type, and [m_ulJobs]), the scheduler *)
Record state := mkState {
  m_jobs : gmap jptr CJob;
  m_queues : gmap N CJobQueue;
  m_engine : E;
  m_pools : gmap EJobType P;
  m_ulJobs : N;
  m_listjlWaiting : list SJobLink;
  m_spjl : P;
  m_cnt : counters;
  m_listjRunning : list jptr;
  m_listjSuspended : list jptr;
  m_fTrackingJobs : bool;
}.

Definition set_jobs s x := mkState x (m_queues s) (m_engine s) (m_pools s) (m_ulJobs s)
  (m_listjlWaiting s) (m_spjl s) (m_cnt s) (m_listjRunning s) (m_listjSuspended s) (m_fTrackingJobs s).
Definition set_queues s x := mkState (m_jobs s) x (m_engine s) (m_pools s) (m_ulJobs s)
  (m_listjlWaiting s) (m_spjl s) (m_cnt s) (m_listjRunning s) (m_listjSuspended s) (m_fTrackingJobs s).
Definition set_engine s x := mkState (m_jobs s) (m_queues s) x (m_pools s) (m_ulJobs s)
  (m_listjlWaiting s) (m_spjl s) (m_cnt s) (m_listjRunning s) (m_listjSuspended s) (m_fTrackingJobs s).
Definition set_pools s x := mkState (m_jobs s) (m_queues s) (m_engine s) x (m_ulJobs s)
  (m_listjlWaiting s) (m_spjl s) (m_cnt s) (m_listjRunning s) (m_listjSuspended s) (m_fTrackingJobs s).
Definition set_waiting s x p := mkState (m_jobs s) (m_queues s) (m_engine s) (m_pools s) (m_ulJobs s)
  x p (m_cnt s) (m_listjRunning s) (m_listjSuspended s) (m_fTrackingJobs s).
Definition set_cnt s x := mkState (m_jobs s) (m_queues s) (m_engine s) (m_pools s) (m_ulJobs s)
  (m_listjlWaiting s) (m_spjl s) x (m_listjRunning s) (m_listjSuspended s) (m_fTrackingJobs s).
Definition set_running s x := mkState (m_jobs s) (m_queues s) (m_engine s) (m_pools s) (m_ulJobs s)
  (m_listjlWaiting s) (m_spjl s) (m_cnt s) x (m_listjSuspended s) (m_fTrackingJobs s).
Definition set_suspended s x := mkState (m_jobs s) (m_queues s) (m_engine s) (m_pools s) (m_ulJobs s)
  (m_listjlWaiting s) (m_spjl s) (m_cnt s) (m_listjRunning s) x (m_fTrackingJobs s).

(** A decrement of a [ULONG_PTR] wraps around at 0. *)
Definition ulp_dec (n : N) : N := if n =? 0 then 2 ^ 64 - 1 else n - 1.

(** ** CJob *)

(** Dereference of a job pointer; a pointer to no live job is dangling. *)
Definition job (s : state) (pj : jptr) : outcome CJob := deref (m_jobs s !! pj).

Definition put_job (s : state) (pj : jptr) (j : CJob) : state := set_jobs s (<[pj := j]> (m_jobs s)).

Definition with_refs j n := mkJob (m_pjParent j) (m_pjq j) n (m_ejt j) (m_fInit j) (m_ejs j) (m_data j).
Definition with_ejs j st := mkJob (m_pjParent j) (m_pjq j) (m_ulpRefs j) (m_ejt j) (m_fInit j) st (m_data j).
Definition with_parent j p := mkJob p (m_pjq j) (m_ulpRefs j) (m_ejt j) (m_fInit j) (m_ejs j) (m_data j).
Definition with_data j d := mkJob (m_pjParent j) (m_pjq j) (m_ulpRefs j) (m_ejt j) (m_fInit j) (m_ejs j) d.

(** [CJob::IncRefs] *)
Definition IncRefs (s : state) (pj : jptr) : outcome state :=
  j ← job s pj;
  mret (put_job s pj (with_refs j (m_ulpRefs j + 1))).

(** [CJob::UlpDecrRefs]: the value before the decrement *)
Definition UlpDecrRefs (s : state) (pj : jptr) : outcome (N * state) :=
  j ← job s pj;
  _ ← GPOS_ASSERT (0 <? m_ulpRefs j);
  mret (m_ulpRefs j, put_job s pj (with_refs j (ulp_dec (m_ulpRefs j)))).

(** [GPOS_ASSERT(0 == pj->UlpRefs())] *)
Definition assert_no_refs (s : state) (pj : jptr) : outcome unit :=
  j ← job s pj;
  GPOS_ASSERT (m_ulpRefs j =? 0).

(** [CJob::SetParent] *)
Definition SetParent (s : state) (this : jptr) (pj : option jptr) : outcome state :=
  _ ← GPOS_ASSERT (negb (bool_decide (Some this = pj)));
  j ← job s this;
  mret (put_job s this (with_parent j pj)).

(** [GPOS_ASSERT(st == pj->Ejs()); pj->SetState(st')] under [FTrackingJobs()] *)
Definition track_state (s : state) (pj : jptr) (from : list EJobState) (to : EJobState) : outcome state :=
  if m_fTrackingJobs s then
    (j ← job s pj;
     _ ← GPOS_ASSERT (bool_decide (m_ejs j ∈ from));
     mret (put_job s pj (with_ejs j to)))
  else mret s.

(** [CJob::FResumeParent]: the last reference of the parent is given up. *)
Definition FResumeParent (s : state) (pj : jptr) : outcome (bool * state) :=
  _ ← assert_no_refs s pj;
  j ← job s pj;
  match m_pjParent j with
  | None => Abort FAssert
  | Some parent =>
      jp ← job s parent;
      _ ← GPOS_ASSERT (0 <? m_ulpRefs jp);
      '(ulpRefs, s) ← UlpDecrRefs s parent;
      mret (ulpRefs =? 1, s)
  end.

(** [CList::Remove]: an element that is not in the list fails the assertion on
    the tail. *)
Fixpoint CList_Remove (l : list jptr) (pj : jptr) : outcome (list jptr) :=
  match l with
  | [] => Abort FAssert
  | x :: l' => if bool_decide (x = pj) then mret l' else cons x <$> CList_Remove l' pj
  end.

(** ** CJobFactory *)

(** [CJobFactory::PjCreate], with [CJob::Reset] and [SetJobType]; the subclass
    data are those [Init] will set. *)
Definition PjCreate (s : state) (ejt : EJobType) (d : J) : outcome (jptr * state) :=
  let pspt := default (pool_new (m_ulJobs s)) (m_pools s !! ejt) in
  '(pspt, o) ← retrieve pspt;
  let pj : jptr := (ejt, o) in
  mret (pj, put_job (set_pools s (<[ejt := pspt]> (m_pools s))) pj
              (mkJob None None 0 ejt false EjsInit d)).

(** [CJobFactory::Release]: the job goes back to the pool of its type. *)
Definition Release (s : state) (pj : jptr) : outcome state :=
  j ← job s pj;
  match m_pools s !! m_ejt j with
  | None => Abort FAssert
  | Some pspt =>
      pspt ← recycle pspt pj.2;
      mret (set_jobs (set_pools s (<[m_ejt j := pspt]> (m_pools s))) (delete pj (m_jobs s)))
  end.

(** [CJobFactory::Truncate]: the pool of a type is deleted, if there is one. *)
Definition Truncate (s : state) (ejt : EJobType) : outcome state :=
  match m_pools s !! ejt with
  | None => mret s
  | Some pspt =>
      _ ← pool_delete pspt;
      mret (set_pools s (delete ejt (m_pools s)))
  end.

(** [Release(PjCreate(ejt))] of the constructor [CJobFactory::CJobFactory], on the
    pools used first *)
Definition warm_up (s : state) (d : J) (ejt : EJobType) : outcome state :=
  '(pj, s) ← PjCreate s ejt d;
  Release s pj.

Definition CJobFactory_ctor (s : state) (d : J) : outcome state :=
  s ← warm_up s d EjtGroupExploration;
  s ← warm_up s d EjtGroupExpressionExploration;
  warm_up s d EjtTransformation.

(** The pools [CJobFactory::~CJobFactory] deletes *)
Definition truncated_types : list EJobType :=
  [EjtTest; EjtGroupExploration; EjtGroupImplementation; EjtGroupOptimization;
   EjtGroupExpressionExploration; EjtGroupExpressionExploration;
   EjtGroupExpressionOptimization; EjtTransformation; EjtJoinEnumeration].

Fixpoint truncate_all (s : state) (l : list EJobType) : outcome state :=
  match l with
  | [] => mret s
  | t :: l' => (s ← Truncate s t; truncate_all s l')
  end.

Definition CJobFactory_dtor (s : state) : outcome state := truncate_all s truncated_types.

(** ** CScheduler: queueing *)

Definition bump_queued c := mkCounters (m_ulpTotal c) (m_ulpRunning c) (m_ulpQueued c + 1)
  (m_ulpStatsQueued c + 1) (m_ulpStatsDequeued c) (m_ulpStatsSuspended c) (m_ulpStatsCompleted c)
  (m_ulpStatsCompletedQueued c) (m_ulpStatsResumed c) (m_ulpStatsMaxRunnable c) (m_ullStatsRunnableDepth c).
Definition bump_dequeued c := mkCounters (m_ulpTotal c) (m_ulpRunning c) (ulp_dec (m_ulpQueued c))
  (m_ulpStatsQueued c) (m_ulpStatsDequeued c + 1) (m_ulpStatsSuspended c) (m_ulpStatsCompleted c)
  (m_ulpStatsCompletedQueued c) (m_ulpStatsResumed c) (m_ulpStatsMaxRunnable c) (m_ullStatsRunnableDepth c).
Definition bump_depth c := mkCounters (m_ulpTotal c) (m_ulpRunning c) (m_ulpQueued c)
  (m_ulpStatsQueued c) (m_ulpStatsDequeued c) (m_ulpStatsSuspended c) (m_ulpStatsCompleted c)
  (m_ulpStatsCompletedQueued c) (m_ulpStatsResumed c) (N.max (m_ulpStatsMaxRunnable c) (m_ulpQueued c))
  (m_ullStatsRunnableDepth c + m_ulpQueued c).
Definition set_total c n := mkCounters n (m_ulpRunning c) (m_ulpQueued c)
  (m_ulpStatsQueued c) (m_ulpStatsDequeued c) (m_ulpStatsSuspended c) (m_ulpStatsCompleted c)
  (m_ulpStatsCompletedQueued c) (m_ulpStatsResumed c) (m_ulpStatsMaxRunnable c) (m_ullStatsRunnableDepth c).
Definition set_nrunning c n := mkCounters (m_ulpTotal c) n (m_ulpQueued c)
  (m_ulpStatsQueued c) (m_ulpStatsDequeued c) (m_ulpStatsSuspended c) (m_ulpStatsCompleted c)
  (m_ulpStatsCompletedQueued c) (m_ulpStatsResumed c) (m_ulpStatsMaxRunnable c) (m_ullStatsRunnableDepth c).
Definition bump_suspended c := mkCounters (m_ulpTotal c) (m_ulpRunning c) (m_ulpQueued c)
  (m_ulpStatsQueued c) (m_ulpStatsDequeued c) (m_ulpStatsSuspended c + 1) (m_ulpStatsCompleted c)
  (m_ulpStatsCompletedQueued c) (m_ulpStatsResumed c) (m_ulpStatsMaxRunnable c) (m_ullStatsRunnableDepth c).
Definition bump_resumed c := mkCounters (m_ulpTotal c) (m_ulpRunning c) (m_ulpQueued c)
  (m_ulpStatsQueued c) (m_ulpStatsDequeued c) (m_ulpStatsSuspended c) (m_ulpStatsCompleted c)
  (m_ulpStatsCompletedQueued c) (m_ulpStatsResumed c + 1) (m_ulpStatsMaxRunnable c) (m_ullStatsRunnableDepth c).
Definition bump_completed c (queued : bool) := mkCounters (ulp_dec (m_ulpTotal c)) (m_ulpRunning c) (m_ulpQueued c)
  (m_ulpStatsQueued c) (m_ulpStatsDequeued c) (m_ulpStatsSuspended c) (m_ulpStatsCompleted c + 1)
  (m_ulpStatsCompletedQueued c + if queued then 1 else 0) (m_ulpStatsResumed c) (m_ulpStatsMaxRunnable c)
  (m_ullStatsRunnableDepth c).

(** [CScheduler::Schedule]; [Push] puts the link at the head of the list. *)
Definition Schedule (s : state) (pj : jptr) : outcome state :=
  '(pool, o) ← retrieve (m_spjl s);
  s ← track_state s pj [EjsInit; EjsRunning; EjsSuspended] EjsWaiting;
  let s := set_waiting s (mkJobLink o pj :: m_listjlWaiting s) pool in
  mret (set_cnt s (bump_queued (m_cnt s))).

(** [CScheduler::Add] *)
Definition Add (s : state) (pj : jptr) (pjParent : option jptr) : outcome state :=
  _ ← assert_no_refs s pj;
  s ← match pjParent with Some parent => IncRefs s parent | None => mret s end;
  s ← SetParent s pj pjParent;
  let s := set_cnt s (set_total (m_cnt s) (m_ulpTotal (m_cnt s) + 1)) in
  Schedule s pj.

(** [CScheduler::Resume] *)
Definition Resume (s : state) (pj : jptr) : outcome state :=
  _ ← assert_no_refs s pj;
  Schedule s pj.

(** [CScheduler::PjRetrieve]: the job of the link at the head *)
Definition PjRetrieve (s : state) : outcome (option jptr * state) :=
  let s := set_cnt s (bump_depth (m_cnt s)) in
  match m_listjlWaiting s with
  | [] => mret (None, s)
  | pjl :: rest =>
      let pj := link_pj pjl in
      _ ← assert_no_refs s pj;
      let s := set_cnt s (bump_dequeued (m_cnt s)) in
      pool ← recycle (m_spjl s) (link_obj pjl);
      let s := set_waiting s rest pool in
      s ← track_state s pj [EjsWaiting] EjsRunning;
      let s := if m_fTrackingJobs s then set_running s (m_listjRunning s ++ [pj]) else s in
      mret (Some pj, s)
  end.

(** [CScheduler::PreExecute] *)
Definition PreExecute (s : state) (pj : jptr) : outcome state :=
  _ ← assert_no_refs s pj;
  let s := set_cnt s (set_nrunning (m_cnt s) (m_ulpRunning (m_cnt s) + 1)) in
  IncRefs s pj.

(** [CScheduler::ResumeParent] *)
Definition ResumeParent (s : state) (pj : jptr) : outcome state :=
  _ ← assert_no_refs s pj;
  j ← job s pj;
  match m_pjParent j with
  | None => mret s
  | Some pjParent =>
      '(fResume, s) ← FResumeParent s pj;
      if (fResume : bool) then
        (s ← (if m_fTrackingJobs s
              then set_suspended s <$> CList_Remove (m_listjSuspended s) pjParent
              else mret s);
         s ← Resume s pjParent;
         mret (set_cnt s (bump_resumed (m_cnt s))))
      else mret s
  end.

(** [CScheduler::Complete] *)
Definition Complete (s : state) (pj : jptr) : outcome state :=
  _ ← assert_no_refs s pj;
  s ← track_state s pj [EjsRunning] EjsCompleted;
  s ← ResumeParent s pj;
  mret (set_cnt s (bump_completed (m_cnt s) false)).

(** [CScheduler::CompleteQueued] *)
Definition CompleteQueued (s : state) (pj : jptr) : outcome state :=
  _ ← assert_no_refs s pj;
  s ← (if m_fTrackingJobs s then
         (j ← job s pj;
          _ ← GPOS_ASSERT (bool_decide (m_ejs j = EjsSuspended));
          l ← CList_Remove (m_listjSuspended s) pj;
          mret (put_job (set_suspended s l) pj (with_ejs j EjsCompleted)))
       else mret s);
  s ← ResumeParent s pj;
  mret (set_cnt s (bump_completed (m_cnt s) true)).

(** [CScheduler::Suspend] *)
Definition Suspend (s : state) (pj : jptr) : outcome state :=
  s ← track_state s pj [EjsRunning] EjsSuspended;
  let s := if m_fTrackingJobs s then set_suspended s (m_listjSuspended s ++ [pj]) else s in
  mret (set_cnt s (bump_suspended (m_cnt s))).

(** ** CJobQueue *)

(** The queue of a group; a group is made with an empty queue. *)
Definition queue (s : state) (q : N) : CJobQueue := default CJobQueue_ctor (m_queues s !! q).

Definition put_queue (s : state) (q : N) (x : CJobQueue) : state := set_queues s (<[q := x]> (m_queues s)).

(** [CJobQueue::EjqrAdd] *)
Definition EjqrAdd (s : state) (q : N) (pj : jptr) : outcome (EJobQueueResult * state) :=
  let jq := queue s q in
  if m_fCompleted jq then mret (EjqrCompleted, s)
  else if bool_decide (Some pj = m_pj jq) then
    s ← IncRefs s pj; mret (EjqrMain, s)
  else
    let l := m_listjQueued jq ++ [pj] in
    '(ejer, s) ← (if bool_decide (head l = Some pj) then
                    (_ ← GPOS_ASSERT (bool_decide (m_pj jq = None));
                     mret (EjqrMain, put_queue s q (mkQueue (Some pj) false l)))
                  else mret (EjqrQueued, put_queue s q (mkQueue (m_pj jq) false l)));
    s ← IncRefs s pj;
    mret (ejer, s).

(** The loop of [CJobQueue::NotifyCompleted] *)
Fixpoint Notify_loop (fuel : nat) (s : state) (q : N) : outcome state :=
  match m_listjQueued (queue s q) with
  | [] => mret s
  | pj :: rest =>
      match fuel with
      | O => Abort FFuel
      | S fuel' =>
          let s := put_queue s q (mkQueue (m_pj (queue s q)) (m_fCompleted (queue s q)) rest) in
          '(refs, s) ← UlpDecrRefs s pj;
          if refs =? 1 then
            (s ← CompleteQueued s pj;
             s ← Release s pj;
             Notify_loop fuel' s q)
          else Notify_loop fuel' s q
      end
  end.

(** [CJobQueue::NotifyCompleted] *)
Definition NotifyCompleted (s : state) (q : N) : outcome state :=
  let jq := queue s q in
  _ ← GPOS_ASSERT (negb (m_fCompleted jq));
  let s := put_queue s q (mkQueue (m_pj jq) true (m_listjQueued jq)) in
  _ ← GPOS_ASSERT (negb (bool_decide (m_listjQueued jq = [])));
  Notify_loop (length (m_listjQueued jq)) s q.

(** [CJobQueue::Reset], between two runs of the scheduler *)
Definition JobQueue_Reset (s : state) (q : N) : outcome state :=
  _ ← GPOS_ASSERT (bool_decide (m_listjQueued (queue s q) = []));
  mret (put_queue s q (mkQueue None false (m_listjQueued (queue s q)))).

(** ** CScheduler: execution *)

(** [ScheduleJob] of the job classes: create, [Init] (with [SetJobQueue] and
    [SetInit]) and [Add] *)
Definition ScheduleJob (s : state) (x : spawn J) (pjParent : option jptr) : outcome (jptr * state) :=
  '(pj, s) ← PjCreate s (sp_type x) (sp_data x);
  j ← job s pj;
  _ ← GPOS_ASSERT (negb (m_fInit j));
  let s := put_job s pj (mkJob (m_pjParent j) (sp_queue x) (m_ulpRefs j) (m_ejt j) true (m_ejs j) (sp_data x)) in
  s ← Add s pj pjParent;
  mret (pj, s).

Fixpoint schedule_children (s : state) (xs : list (spawn J)) (pj : jptr) : outcome state :=
  match xs with
  | [] => mret s
  | x :: xs' =>
      '(_, s) ← ScheduleJob s x (Some pj);
      schedule_children s xs' pj
  end.

(** The virtual call [pj->FExecute(psc)], with the assertion [FInit()] *)
Definition run_job (s : state) (pj : jptr) : outcome (bool * state) :=
  j ← job s pj;
  _ ← GPOS_ASSERT (m_fInit j);
  let '(e, d, children, fCompleted) := job_FExecute (m_engine s) (m_data j) in
  let s := put_job (set_engine s e) pj (with_data j d) in
  s ← schedule_children s children pj;
  mret (fCompleted, s).

(** [CScheduler::FExecute] *)
Definition FExecute (s : state) (pj : jptr) : outcome (bool * state) :=
  j ← job s pj;
  match m_pjq j with
  | None => run_job s pj
  | Some q =>
      '(ejqr, s) ← EjqrAdd s q pj;
      match ejqr with
      | EjqrMain =>
          '(fCompleted, s) ← run_job s pj;
          if (fCompleted : bool) then
            (s ← NotifyCompleted s q; mret (true, s))
          else
            ('(_, s) ← UlpDecrRefs s pj; mret (false, s))
      | EjqrQueued => mret (false, s)
      | EjqrCompleted => mret (true, s)
      end
  end.

(** [CScheduler::EjrPostExecute] *)
Definition EjrPostExecute (s : state) (pj : jptr) (fCompleted : bool) : outcome (EJobResult * state) :=
  j ← job s pj;
  _ ← GPOS_ASSERT (0 <? m_ulpRefs j);
  '(ulRefs, s) ← UlpDecrRefs s pj;
  let s := set_cnt s (set_nrunning (m_cnt s) (ulp_dec (m_ulpRunning (m_cnt s)))) in
  if fCompleted then
    (_ ← GPOS_ASSERT (ulRefs =? 1); mret (EjrCompleted, s))
  else if ulRefs =? 1 then mret (EjrRunnable, s)
  else mret (EjrSuspended, s).

(** The body of the loop of [ExecuteJobs], on a retrieved job *)
Definition ExecuteJob (s : state) (pj : jptr) : outcome state :=
  s ← PreExecute s pj;
  '(fCompleted, s) ← FExecute s pj;
  s ← (if m_fTrackingJobs s
       then set_running s <$> CList_Remove (m_listjRunning s) pj
       else mret s);
  '(result, s) ← EjrPostExecute s pj fCompleted;
  match result with
  | EjrCompleted => (s ← Complete s pj; Release s pj)
  | EjrRunnable => Resume s pj
  | EjrSuspended => Suspend s pj
  end.

(** [CScheduler::ExecuteJobs], at most [fuel] jobs *)
Fixpoint ExecuteJobs (fuel : nat) (s : state) : outcome state :=
  '(pj, s) ← PjRetrieve s;
  match pj with
  | None => mret s
  | Some pj =>
      match fuel with
      | O => Abort FFuel
      | S fuel' => (s ← ExecuteJob s pj; ExecuteJobs fuel' s)
      end
  end.

(** The constructor of [CScheduler], with a factory that has no pools yet *)
Definition CScheduler_ctor (e : E) (ulJobs : N) (fTrackingJobs : bool) : state :=
  mkState ∅ ∅ e ∅ ulJobs [] (pool_new ulJobs) (mkCounters 0 0 0 0 0 0 0 0 0 0 0) [] [] fTrackingJobs.

(** [CScheduler::~CScheduler] *)
Definition CScheduler_dtor (s : state) : outcome unit := GPOS_ASSERT (m_ulpTotal (m_cnt s) =? 0).
End Model.

Arguments jptr Ob : clear implicits.
Arguments CJob Ob J : clear implicits.
Arguments CJobQueue Ob : clear implicits.
Arguments SJobLink Ob : clear implicits.
Arguments state P Ob {_ _} E J.

End Scheduler.
