(* ===== verification/SchedulerInv.v ===== *)
(** * The invariant of the scheduler

    The reference count of a job is the number of its live children, plus one
    while it sits in the queue of another job, plus what the code that holds the
    job at the moment has added or taken. A ghost state records the jobs in hand,
    the parent links that count, and the queued jobs; each operation moves
    between such states. *)
From stdpp Require Import base numbers list gmap.
From S2P Require Import Prelude SyncPool Scheduler.

Module SchedulerInv.
Import SyncPool Scheduler.
Open Scope nat_scope.

Section Inv.
Context {P Ob : Type} `{CO : Countable Ob} `{PO : Pool P Ob} `{PL : !PoolLaws P Ob}.
Context {E J : Type} `{JC : JobClass E J}.
Abbreviation ptr := (jptr Ob).
Abbreviation st := (state P Ob E J).
Implicit Types (s : st) (a c p : ptr) (j : CJob Ob J).

(** A job in hand: its debug state, whether it is in the list of suspended jobs,
    and the references beyond those of children and queue *)
Record hold := mkHold { h_ejs : EJobState; h_susp : bool; h_refs : Z }.

Record ghost := mkGhost {
  g_hand : gmap ptr hold;
  g_par : gmap ptr ptr;     (** child to parent, for children not yet completed *)
  g_que : gset ptr;         (** jobs waiting for the main job of their queue *)
  g_tot : Z;                (** the total counter minus the number of jobs *)
  g_note : option N;        (** a queue whose jobs are being notified *)
}.

Definition with_hand g x := mkGhost x (g_par g) (g_que g) (g_tot g) (g_note g).
Definition with_par g x := mkGhost (g_hand g) x (g_que g) (g_tot g) (g_note g).
Definition with_que g x := mkGhost (g_hand g) (g_par g) x (g_tot g) (g_note g).
Definition with_tot g x := mkGhost (g_hand g) (g_par g) (g_que g) x (g_note g).
Definition with_note g x := mkGhost (g_hand g) (g_par g) (g_que g) (g_tot g) x.

Local Ltac gsimp :=
  cbn [g_hand g_par g_que g_tot g_note with_hand with_par with_que with_tot with_note
       h_ejs h_susp h_refs].

(** ** Children *)

Definition nch (G : gmap ptr ptr) a : nat :=
  map_sum (fun _ p => if bool_decide (p = a) then 1 else 0) G.

Lemma nch_insert G c p a :
  G !! c = None -> nch (<[c := p]> G) a = (if bool_decide (p = a) then 1 else 0) + nch G a.
Proof. intros. unfold nch. by rewrite map_sum_insert. Qed.

Lemma nch_delete G c p a :
  G !! c = Some p -> nch G a = (if bool_decide (p = a) then 1 else 0) + nch (delete c G) a.
Proof. intros. unfold nch. by rewrite (map_sum_delete _ G c p). Qed.

Lemma nch_pos G a : 0 < nch G a -> exists c, G !! c = Some a.
Proof.
  intros (c & p & Hc & Hp)%map_sum_pos. exists c. case_bool_decide; [by subst|lia].
Qed.

Lemma nch_child G c a : G !! c = Some a -> 0 < nch G a.
Proof. intros Hc. rewrite (nch_delete G c a a Hc), bool_decide_eq_true_2 by done. lia. Qed.

(** ** The invariant, one predicate for each part of the state *)

Definition waiting s : list ptr := link_pj <$> m_listjlWaiting s.
Definition queued_in s q : list ptr := m_listjQueued (queue s q).

Definition held g a : Z := match g_hand g !! a with Some h => h_refs h | None => 0 end.
Definition quref g a : Z := if bool_decide (a ∈ g_que g) then 1 else 0.

(** The links of the waiting list are the links in use. *)
Definition I_links s : Prop :=
  pool_inv (m_spjl s) /\ NoDup (link_obj <$> m_listjlWaiting s) /\
  forall x, used (m_spjl s) x = bool_decide (x ∈ link_obj <$> m_listjlWaiting s).

(** The live jobs are the objects in use of the factory's pools. *)
Definition I_factory s : Prop :=
  (m_ulJobs s < 2 ^ 31)%N /\ (forall t x, m_pools s !! t = Some x -> pool_inv x) /\
  forall t o, is_Some (m_jobs s !! (t, o)) <->
    exists x, m_pools s !! t = Some x /\ used x o = true.

Definition I_jobs g s : Prop := forall a j, m_jobs s !! a = Some j ->
  m_ejt j = a.1 /\ m_fInit j = true /\
  Z.of_N (m_ulpRefs j) = (Z.of_nat (nch (g_par g) a) + quref g a + held g a)%Z.

(** The waiting jobs are those without references that nobody holds. *)
Definition I_wait g s : Prop :=
  NoDup (waiting s) /\
  (forall a, a ∈ waiting s -> is_Some (m_jobs s !! a) /\ g_hand g !! a = None) /\
  (forall a j, m_jobs s !! a = Some j -> g_hand g !! a = None -> (a ∈ waiting s <-> m_ulpRefs j = 0%N)) /\
  (forall a, is_Some (g_hand g !! a) -> is_Some (m_jobs s !! a)).

Definition I_par g s : Prop :=
  (forall c p, g_par g !! c = Some p ->
     is_Some (m_jobs s !! p) /\ exists j, m_jobs s !! c = Some j /\ m_pjParent j = Some p) /\
  (forall c j, m_jobs s !! c = Some j -> g_hand g !! c = None -> g_par g !! c = m_pjParent j).

Definition waits_in g s q : list ptr :=
  if bool_decide (g_note g = Some q) then queued_in s q else tail (queued_in s q).

Definition I_queue g s : Prop :=
  (forall q, g_note g <> Some q -> m_fCompleted (queue s q) = true -> queued_in s q = []) /\
  (forall q, m_fCompleted (queue s q) = false -> m_pj (queue s q) = head (queued_in s q)) /\
  (forall q, NoDup (queued_in s q)) /\
  (forall q a, a ∈ queued_in s q -> exists j, m_jobs s !! a = Some j /\ m_pjq j = Some q) /\
  (forall a, a ∈ g_que g <-> exists q, a ∈ waits_in g s q) /\
  (forall a, a ∈ g_que g -> nch (g_par g) a = 0).

(** The debug states and the list of suspended jobs *)
Definition I_track g s : Prop := m_fTrackingJobs s = true ->
  (forall a j, m_jobs s !! a = Some j ->
     m_ejs j = match g_hand g !! a with
               | Some h => h_ejs h
               | None => if bool_decide (a ∈ waiting s) then EjsWaiting else EjsSuspended
               end) /\
  NoDup (m_listjSuspended s) /\
  (forall a, a ∈ m_listjSuspended s <->
     is_Some (m_jobs s !! a) /\ (a ∉ waiting s) /\
     match g_hand g !! a with Some h => h_susp h = true | None => True end).

Definition I_count g s : Prop :=
  m_ulpQueued (m_cnt s) = N.of_nat (length (m_listjlWaiting s)) /\
  Z.of_N (m_ulpTotal (m_cnt s)) = (Z.of_nat (size (m_jobs s)) + g_tot g)%Z.

Record inv g s : Prop := {
  inv_links : I_links s;
  inv_factory : I_factory s;
  inv_jobs : I_jobs g s;
  inv_wait : I_wait g s;
  inv_par : I_par g s;
  inv_queue : I_queue g s;
  inv_track : I_track g s;
  inv_count : I_count g s;
}.

(** ** What an operation leaves alone *)

(** The part of a job that only its own run changes *)
Definition view_job j : option N * option ptr * J := (m_pjq j, m_pjParent j, m_data j).
Definition view s : gmap ptr (option N * option ptr * J) := view_job <$> m_jobs s.

Record frame s s' : Prop := {
  fr_queues : m_queues s' = m_queues s;
  fr_engine : m_engine s' = m_engine s;
  fr_running : m_listjRunning s' = m_listjRunning s;
  fr_track : m_fTrackingJobs s' = m_fTrackingJobs s;
  fr_nrun : m_ulpRunning (m_cnt s') = m_ulpRunning (m_cnt s);
}.

Lemma frame_refl s : frame s s.
Proof. done. Qed.

Lemma frame_trans s1 s2 s3 : frame s1 s2 -> frame s2 s3 -> frame s1 s3.
Proof. intros [] []. split; congruence. Qed.

Lemma view_lookup s a x :
  view s !! a = Some x <-> exists j, m_jobs s !! a = Some j /\ view_job j = x.
Proof. unfold view. rewrite lookup_fmap, fmap_Some. naive_solver. Qed.

Lemma view_put s a j j' :
  m_jobs s !! a = Some j -> view_job j' = view_job j -> view (put_job s a j') = view s.
Proof.
  intros Ha Hv. unfold view, put_job. cbn. rewrite fmap_insert, Hv. apply insert_id.
  by rewrite lookup_fmap, Ha.
Qed.

Lemma lookup_put s a j b :
  m_jobs (put_job s a j) !! b = if bool_decide (a = b) then Some j else m_jobs s !! b.
Proof.
  unfold put_job. cbn. case_bool_decide; [subst; apply lookup_insert_eq|by apply lookup_insert_ne].
Qed.

Lemma is_Some_put s a j j' b :
  m_jobs s !! a = Some j -> is_Some (m_jobs (put_job s a j') !! b) <-> is_Some (m_jobs s !! b).
Proof.
  intros Ha. rewrite lookup_put. case_bool_decide; [subst; rewrite Ha; split; by eexists|done].
Qed.

(** ** Changes of a job in hand *)

(** A job in hand may be changed: its references with the count of the holder,
    its debug state, its data. *)
Lemma inv_put g s a j j' h h' :
  inv g s -> m_jobs s !! a = Some j -> g_hand g !! a = Some h ->
  m_ejt j' = m_ejt j -> m_fInit j' = m_fInit j -> m_pjq j' = m_pjq j ->
  (m_pjParent j' = m_pjParent j \/ g_par g !! a = None) ->
  (Z.of_N (m_ulpRefs j') - Z.of_N (m_ulpRefs j) = h_refs h' - h_refs h)%Z ->
  h_susp h' = h_susp h -> (m_fTrackingJobs s = true -> m_ejs j' = h_ejs h') ->
  inv (with_hand g (<[a := h']> (g_hand g))) (put_job s a j').
Proof.
  intros [L F Jb W Pa Q T C] Ha Hh Ht Hi Hq Hp Hr Hs He.
  assert (forall b, is_Some (m_jobs (put_job s a j') !! b) <-> is_Some (m_jobs s !! b)) as Hdom
    by (intros b; by eapply is_Some_put).
  split.
  - done.
  - destruct F as (F1 & F2 & F3). repeat split; [done|done|..]; intros Hx; [apply F3, Hdom|apply Hdom, F3]; done.
  - intros b jb. rewrite lookup_put. case_bool_decide as Hb.
    + intros [= <-]. subst b. destruct (Jb a j Ha) as (J1 & J2 & J3).
      split; [congruence|]. split; [congruence|]. unfold held, quref in *. gsimp.
      rewrite Hh in J3. rewrite lookup_insert_eq. lia.
    + intros Hjb. destruct (Jb b jb Hjb) as (J1 & J2 & J3). split; [done|]. split; [done|].
      unfold held, quref in *. gsimp. by rewrite lookup_insert_ne.
  - destruct W as (W1 & W2 & W3 & W4). split; [done|]. split; [|split]; gsimp.
    + intros b Hb. destruct (W2 b Hb) as [Hb1 Hb2]. split; [by apply Hdom|].
      rewrite lookup_insert_ne; [done|congruence].
    + intros b jb Hjb Hn. assert (a <> b) as Hab by (intros ->; by rewrite lookup_insert_eq in Hn).
      rewrite lookup_insert_ne in Hn by done. apply W3; [|done].
      rewrite lookup_put, bool_decide_eq_false_2 in Hjb by done. done.
    + intros b Hb. apply Hdom. destruct (decide (a = b)) as [<-|Hab]; [by rewrite Ha|].
      rewrite lookup_insert_ne in Hb by done. by apply W4.
  - destruct Pa as (P1 & P2). split; gsimp.
    + intros c p Hc. destruct (P1 c p Hc) as (Hpl & jc & Hjc & Hpc). split; [by apply Hdom|].
      rewrite lookup_put. case_bool_decide as Hb; [|by eexists].
      subst c. eexists. split; [done|]. rewrite Ha in Hjc. injection Hjc as <-.
      destruct Hp as [->|Hn]; [done|congruence].
    + intros c jc Hjc Hn. assert (a <> c) as Hac by (intros ->; by rewrite lookup_insert_eq in Hn).
      rewrite lookup_insert_ne in Hn by done. rewrite lookup_put, bool_decide_eq_false_2 in Hjc by done. by apply P2.
  - destruct Q as (Q1 & Q2 & Q3 & Q4 & Q5 & Q6). repeat split; try done.
    + intros q b Hb. destruct (Q4 q b Hb) as (jb & Hjb & Hqb). rewrite lookup_put.
      case_bool_decide; [|by eexists]. subst b. eexists. split; [done|]. congruence.
    + apply Q5.
    + apply Q5.
  - intros Htr. destruct (T Htr) as (T1 & T2 & T3). split; [|split; [done|]]; gsimp.
    + intros b jb. rewrite lookup_put. case_bool_decide as Hb.
      * intros [= <-]. subst b. rewrite lookup_insert_eq. by apply He.
      * intros Hjb. rewrite lookup_insert_ne by done. by apply T1.
    + intros b. rewrite T3, Hdom. destruct (decide (a = b)) as [<-|Hab].
      * by rewrite lookup_insert_eq, Hh, Hs.
      * by rewrite lookup_insert_ne.
  - destruct C as (C1 & C2). split; [done|]. cbn. rewrite map_size_insert_Some; [done|by eexists].
Qed.

(** ** A job taken in hand, or held differently *)

Lemma I_wait_hold g g' s a h :
  I_wait g s -> g_hand g' = <[a := h]> (g_hand g) -> is_Some (m_jobs s !! a) -> a ∉ waiting s -> I_wait g' s.
Proof.
  intros (W1 & W2 & W3 & W4) Hg Hl Hw. unfold I_wait. rewrite Hg. split; [done|]. split; [|split].
  - intros b Hb. rewrite lookup_insert_ne by congruence. by apply W2.
  - intros b jb Hb Hnb. apply lookup_insert_None in Hnb as [Hnb _]. by apply W3.
  - intros b. destruct (decide (a = b)) as [<-|Hab]; [done|]. rewrite lookup_insert_ne by done. apply W4.
Qed.

Lemma I_par_hold g g' s a h :
  I_par g s -> g_hand g' = <[a := h]> (g_hand g) -> g_par g' = g_par g -> I_par g' s.
Proof.
  intros (P1 & P2) Hg Hp. unfold I_par. rewrite Hg, Hp. split; [done|].
  intros b jb Hb Hnb. apply lookup_insert_None in Hnb as [Hnb _]. by apply P2.
Qed.

Lemma I_track_hold g g' s a h h' :
  I_track g s -> g_hand g !! a = Some h -> g_hand g' = <[a := h']> (g_hand g) ->
  h_ejs h' = h_ejs h -> h_susp h' = h_susp h -> I_track g' s.
Proof.
  intros T Hh Hg He Hs Htr. destruct (T Htr) as (T1 & T2 & T3). rewrite Hg. split; [|split; [done|]].
  - intros b jb Hb. rewrite (T1 b jb Hb). destruct (decide (a = b)) as [<-|Hab];
      [by rewrite Hh, lookup_insert_eq|by rewrite lookup_insert_ne].
  - intros b. rewrite T3. destruct (decide (a = b)) as [<-|Hab];
      [by rewrite Hh, lookup_insert_eq, Hs|by rewrite lookup_insert_ne].
Qed.

Lemma hand_facts g s a :
  inv g s -> is_Some (g_hand g !! a) -> is_Some (m_jobs s !! a) /\ (a ∉ waiting s).
Proof.
  intros HI [h Hh]. destruct (inv_wait _ _ HI) as (_ & W2 & _ & W4). split; [apply W4; by rewrite Hh|].
  intros Hw. destruct (W2 a Hw). congruence.
Qed.

(** ** Changes of the ghost state alone *)

(** A suspended job can be taken in hand. *)
Lemma inv_take g s a :
  inv g s -> g_hand g !! a = None -> is_Some (m_jobs s !! a) -> a ∉ waiting s ->
  inv (with_hand g (<[a := mkHold EjsSuspended true 0]> (g_hand g))) s.
Proof.
  intros [L F Jb W Pa Q T C] Hn Hl Hw. split; [done|done| | | |done| |done].
  - intros b jb Hb. destruct (Jb b jb Hb) as (J1 & J2 & J3). split; [done|]. split; [done|].
    unfold held, quref in *. gsimp. destruct (decide (a = b)) as [<-|Hab].
    + rewrite Hn in J3. by rewrite lookup_insert_eq.
    + by rewrite lookup_insert_ne.
  - by eapply I_wait_hold.
  - by eapply I_par_hold.
  - intros Htr. destruct (T Htr) as (T1 & T2 & T3). gsimp. split; [|split; [done|]].
    + intros b jb Hb. rewrite (T1 b jb Hb). destruct (decide (a = b)) as [<-|Hab].
      * by rewrite Hn, lookup_insert_eq, bool_decide_eq_false_2.
      * by rewrite lookup_insert_ne.
    + intros b. rewrite T3. destruct (decide (a = b)) as [<-|Hab].
      * by rewrite Hn, lookup_insert_eq.
      * by rewrite lookup_insert_ne.
Qed.

(** A job that is suspended again leaves the hand. *)
Lemma inv_drop g s a j :
  inv g s -> g_hand g !! a = Some (mkHold EjsSuspended true 0) ->
  m_jobs s !! a = Some j -> m_ulpRefs j <> 0%N -> g_par g !! a = m_pjParent j ->
  inv (with_hand g (delete a (g_hand g))) s.
Proof.
  intros [L F Jb W Pa Q T C] Hh Ha Hr Hp.
  assert (a ∉ waiting s) as Hw by (intros [_ Hn]%W; congruence).
  split; [done|done| | | |done| |done].
  - intros b jb Hb. destruct (Jb b jb Hb) as (J1 & J2 & J3). split; [done|]. split; [done|].
    unfold held, quref in *. gsimp. destruct (decide (a = b)) as [<-|Hab].
    + rewrite Hh in J3. by rewrite lookup_delete_eq.
    + by rewrite lookup_delete_ne.
  - destruct W as (W1 & W2 & W3 & W4). split; [done|]. gsimp. split; [|split].
    + intros b Hb. rewrite lookup_delete_ne by congruence. by apply W2.
    + intros b jb Hb Hnb. destruct (decide (a = b)) as [<-|Hab].
      * rewrite Ha in Hb. injection Hb as <-. split; [done|lia].
      * rewrite lookup_delete_ne in Hnb by done. by apply W3.
    + intros b Hb. destruct (decide (a = b)) as [<-|Hab]; [by rewrite Ha|].
      rewrite lookup_delete_ne in Hb by done. by apply W4.
  - destruct Pa as (P1 & P2). split; [done|]. gsimp. intros b jb Hb Hnb.
    destruct (decide (a = b)) as [<-|Hab]; [congruence|].
    rewrite lookup_delete_ne in Hnb by done. by apply P2.
  - intros Htr. destruct (T Htr) as (T1 & T2 & T3). gsimp. split; [|split; [done|]].
    + intros b jb Hb. rewrite (T1 b jb Hb). destruct (decide (a = b)) as [<-|Hab].
      * by rewrite Hh, lookup_delete_eq, bool_decide_eq_false_2.
      * by rewrite lookup_delete_ne.
    + intros b. rewrite T3. destruct (decide (a = b)) as [<-|Hab].
      * by rewrite Hh, lookup_delete_eq.
      * by rewrite lookup_delete_ne.
Qed.

(** The counted parent links may change when a parent in hand makes up for it. *)
Lemma inv_relink g s G' p h :
  inv g s -> g_hand g !! p = Some h ->
  let h' := mkHold (h_ejs h) (h_susp h) (h_refs h + Z.of_nat (nch (g_par g) p) - Z.of_nat (nch G' p)) in
  (forall a, a <> p -> nch G' a = nch (g_par g) a) ->
  (forall b, g_hand g !! b = None -> G' !! b = g_par g !! b) ->
  (forall c x, G' !! c = Some x -> is_Some (m_jobs s !! x) /\ exists j, m_jobs s !! c = Some j /\ m_pjParent j = Some x) ->
  p ∉ g_que g ->
  inv (with_hand (with_par g G') (<[p := h']> (g_hand g))) s.
Proof.
  intros HI Hh h' Hne Hsame Hok Hq. pose proof HI as [L F Jb W Pa Q T C].
  assert (is_Some (g_hand g !! p)) as His by (by rewrite Hh).
  split; [done|done| | | | | |done].
  - intros b jb Hb. destruct (Jb b jb Hb) as (J1 & J2 & J3). split; [done|]. split; [done|].
    unfold held, quref in *. gsimp. destruct (decide (p = b)) as [<-|Hab].
    + rewrite Hh in J3. rewrite lookup_insert_eq. subst h'. gsimp. lia.
    + rewrite lookup_insert_ne by done. by rewrite Hne.
  - eapply I_wait_hold; [exact W|done|by apply (hand_facts _ _ _ HI)..].
  - destruct Pa as (P1 & P2). split; [done|]. gsimp. intros b jb Hb Hnb.
    destruct (decide (p = b)) as [<-|Hab]; [by rewrite lookup_insert_eq in Hnb|].
    rewrite lookup_insert_ne in Hnb by done. rewrite Hsame by done. by apply P2.
  - destruct Q as (Q1 & Q2 & Q3 & Q4 & Q5 & Q6). repeat split; try done; try apply Q5.
    gsimp. intros a Ha. rewrite Hne by congruence. by apply Q6.
  - by eapply I_track_hold.
Qed.

(** A child in hand starts to count for its parent in hand. *)
Lemma inv_attach g s c p hp jc :
  inv g s -> is_Some (g_hand g !! c) -> g_hand g !! p = Some hp -> g_par g !! c = None ->
  m_jobs s !! c = Some jc -> m_pjParent jc = Some p -> p ∉ g_que g ->
  inv (with_hand (with_par g (<[c := p]> (g_par g)))
         (<[p := mkHold (h_ejs hp) (h_susp hp) (h_refs hp - 1)]> (g_hand g))) s.
Proof.
  intros HI Hc Hp Hg Hjc Hpar Hq.
  replace (h_refs hp - 1)%Z with (h_refs hp + Z.of_nat (nch (g_par g) p) - Z.of_nat (nch (<[c := p]> (g_par g)) p))%Z.
  2:{ rewrite nch_insert, bool_decide_eq_true_2 by done. lia. }
  apply inv_relink; try done.
  - intros a Ha. rewrite nch_insert, bool_decide_eq_false_2 by done. done.
  - intros b Hb. rewrite lookup_insert_ne; [done|]. intros ->. destruct Hc. congruence.
  - intros d x. destruct (decide (c = d)) as [<-|Hcd].
    + rewrite lookup_insert_eq. intros [= <-]. split; [|by eexists].
      apply (proj2 (proj2 (proj2 (inv_wait _ _ HI)))). by rewrite Hp.
    + rewrite lookup_insert_ne by done. apply (proj1 (inv_par _ _ HI)).
Qed.

(** A child in hand no longer counts for its parent in hand. *)
Lemma inv_detach g s c p hp :
  inv g s -> is_Some (g_hand g !! c) -> g_hand g !! p = Some hp -> g_par g !! c = Some p ->
  p ∉ g_que g ->
  inv (with_hand (with_par g (delete c (g_par g)))
         (<[p := mkHold (h_ejs hp) (h_susp hp) (h_refs hp + 1)]> (g_hand g))) s.
Proof.
  intros HI Hc Hp Hg Hq.
  replace (h_refs hp + 1)%Z with (h_refs hp + Z.of_nat (nch (g_par g) p) - Z.of_nat (nch (delete c (g_par g)) p))%Z.
  2:{ rewrite (nch_delete (g_par g) c p p), bool_decide_eq_true_2 by done. lia. }
  apply inv_relink; try done.
  - intros a Ha. rewrite (nch_delete (g_par g) c p a), bool_decide_eq_false_2 by done. done.
  - intros b Hb. rewrite lookup_delete_ne; [done|]. intros ->. destruct Hc. congruence.
  - intros d x [Hd Hx]%lookup_delete_Some. by apply (proj1 (inv_par _ _ HI)).
Qed.

(** A parent with a counted child has a reference, and so is not waiting; a
    queued job has none and is no parent. *)
Lemma parent_facts g s c p :
  inv g s -> g_par g !! c = Some p ->
  (p ∉ g_que g) /\ (p ∉ waiting s) /\ exists jp, m_jobs s !! p = Some jp.
Proof.
  intros HI Hc. pose proof (nch_child _ _ _ Hc) as Hpos.
  destruct (proj1 (inv_par _ _ HI) c p Hc) as ([jp Hjp] & _).
  split; [|split; [|by eexists]].
  - intros Hq. pose proof (proj2 (proj2 (proj2 (proj2 (proj2 (inv_queue _ _ HI))))) p Hq). lia.
  - intros Hw. destruct (inv_wait _ _ HI) as (W1 & W2 & W3 & _).
    destruct (W2 p Hw) as [_ Hn]. apply (W3 p jp Hjp Hn) in Hw.
    destruct (inv_jobs _ _ HI p jp Hjp) as (_ & _ & HR). unfold held, quref in HR.
    rewrite Hn, Hw in HR. destruct (bool_decide (p ∈ g_que g)); lia.
Qed.

(** ** The waiting list *)

(** The counters other than those of the total and of the waiting list are free. *)
Lemma inv_cnt g s x :
  inv g s -> m_ulpQueued x = m_ulpQueued (m_cnt s) -> m_ulpTotal x = m_ulpTotal (m_cnt s) ->
  inv g (set_cnt s x).
Proof.
  intros [L F Jb W Pa Q T [C1 C2]] H1 H2. split; try done. split; cbn; congruence.
Qed.

(** A job in hand without references is put at the head of the list. *)
Lemma inv_push g s a j pool o x :
  inv g s -> m_jobs s !! a = Some j -> g_hand g !! a = Some (mkHold EjsWaiting false 0) ->
  m_ulpRefs j = 0%N -> g_par g !! a = m_pjParent j ->
  pool_inv pool -> used (m_spjl s) o = false ->
  (forall y, used pool y = used (m_spjl s) y || bool_decide (y = o)) ->
  m_ulpQueued x = (m_ulpQueued (m_cnt s) + 1)%N -> m_ulpTotal x = m_ulpTotal (m_cnt s) ->
  inv (with_hand g (delete a (g_hand g)))
    (set_cnt (set_waiting s (mkJobLink o a :: m_listjlWaiting s) pool) x).
Proof.
  intros [L F Jb W Pa Q T [C1 C2]] Ha Hh Hr Hp Hpi Huo Hus Hx1 Hx2.
  assert (a ∉ waiting s) as Hw by (intros [_ Hn]%W; congruence).
  set (s' := set_cnt _ _). assert (waiting s' = a :: waiting s) as Hws by done. assert (m_jobs s' = m_jobs s) as Hjs by done.
  split; [|done| | | |done| |].
  - destruct L as (L1 & L2 & L3). split; [done|]. rewrite L3 in Huo. apply bool_decide_eq_false in Huo.
    split; [by constructor|]. intros y. cbn. rewrite Hus, L3.
    apply eq_bool_prop_intro. rewrite orb_True, !bool_decide_spec, elem_of_cons. naive_solver.
  - intros b jb Hb. destruct (Jb b jb Hb) as (J1 & J2 & J3). split; [done|]. split; [done|].
    unfold held, quref in *. gsimp. destruct (decide (a = b)) as [<-|Hab].
    + rewrite Hh in J3. by rewrite lookup_delete_eq.
    + by rewrite lookup_delete_ne.
  - destruct W as (W1 & W2 & W3 & W4). unfold I_wait. rewrite Hws, Hjs. gsimp. split; [by constructor|]. split; [|split].
    + intros b [->|Hb]%elem_of_cons; [by rewrite lookup_delete_eq, Ha|].
      rewrite lookup_delete_ne by congruence. by apply W2.
    + intros b jb Hb Hnb. rewrite elem_of_cons. destruct (decide (a = b)) as [<-|Hab].
      * rewrite Ha in Hb. injection Hb as <-. naive_solver.
      * rewrite lookup_delete_ne in Hnb by done. rewrite <- (W3 b jb Hb Hnb). naive_solver.
    + intros b Hb. destruct (decide (a = b)) as [<-|Hab]; [by rewrite Ha|].
      rewrite lookup_delete_ne in Hb by done. by apply W4.
  - destruct Pa as (P1 & P2). split; [done|]. rewrite Hjs. gsimp. intros b jb Hb Hnb.
    destruct (decide (a = b)) as [<-|Hab]; [congruence|].
    rewrite lookup_delete_ne in Hnb by done. by apply P2.
  - intros Htr. destruct (T Htr) as (T1 & T2 & T3). rewrite Hws, Hjs. gsimp. split; [|split; [done|]].
    + intros b jb Hb. rewrite (T1 b jb Hb). destruct (decide (a = b)) as [<-|Hab].
      * rewrite Hh, lookup_delete_eq, bool_decide_eq_true_2 by set_solver. done.
      * rewrite lookup_delete_ne by done. destruct (g_hand g !! b); [done|].
        rewrite (bool_decide_ext (b ∈ a :: waiting s) (b ∈ waiting s)); [done|]. rewrite elem_of_cons. naive_solver.
    + intros b. cbn. rewrite T3, not_elem_of_cons. destruct (decide (a = b)) as [<-|Hab].
      * rewrite Hh, lookup_delete_eq. cbn. naive_solver.
      * rewrite lookup_delete_ne by done. naive_solver.
  - split; cbn; [|congruence]. rewrite Hx1, C1. lia.
Qed.

(** The job at the head of the list is taken in hand. *)
Lemma inv_pop g s l rest pool x :
  inv g s -> m_listjlWaiting s = l :: rest -> pool_inv pool ->
  (forall y, used pool y = used (m_spjl s) y && negb (bool_decide (y = link_obj l))) ->
  m_ulpQueued x = ulp_dec (m_ulpQueued (m_cnt s)) -> m_ulpTotal x = m_ulpTotal (m_cnt s) ->
  let a := link_pj l in
  inv (with_hand g (<[a := mkHold EjsWaiting false 0]> (g_hand g))) (set_waiting (set_cnt s x) rest pool).
Proof.
  intros [L F Jb W Pa Q T [C1 C2]] Hl Hpi Hus Hx1 Hx2 a.
  destruct W as (W1 & W2 & W3 & W4).
  assert (waiting s = a :: (link_pj <$> rest)) as Hws by (unfold waiting; by rewrite Hl).
  assert (a ∉ link_pj <$> rest) as Hnr by (rewrite Hws in W1; by inversion W1).
  destruct (W2 a) as [[j Ha] Hn]; [rewrite Hws; set_solver|].
  set (s' := set_waiting _ _ _). assert (waiting s' = link_pj <$> rest) as Hws' by done. assert (m_jobs s' = m_jobs s) as Hjs by done.
  split; [|done| | | |done| |].
  - destruct L as (L1 & L2 & L3). rewrite Hl in L2. cbn in L2. apply NoDup_cons in L2 as [L2 L2'].
    split; [done|]. split; [done|]. intros y. cbn. rewrite Hus, L3, Hl.
    apply eq_bool_prop_intro. rewrite andb_True, negb_True, !bool_decide_spec. cbn. rewrite elem_of_cons.
    split; [naive_solver|]. intros Hy. split; [by right|]. intros ->. done.
  - intros b jb Hb. destruct (Jb b jb Hb) as (J1 & J2 & J3). split; [done|]. split; [done|].
    unfold held, quref in *. gsimp. destruct (decide (a = b)) as [<-|Hab].
    + rewrite Hn in J3. by rewrite lookup_insert_eq.
    + by rewrite lookup_insert_ne.
  - unfold I_wait. rewrite Hws', Hjs. gsimp. rewrite Hws in W1, W2, W3. split; [by inversion W1|]. split; [|split].
    + intros b Hb. rewrite lookup_insert_ne by congruence. apply W2. set_solver.
    + intros b jb Hb Hnb. destruct (decide (a = b)) as [<-|Hab]; [by rewrite lookup_insert_eq in Hnb|].
      rewrite lookup_insert_ne in Hnb by done. rewrite <- (W3 b jb Hb Hnb), elem_of_cons. naive_solver.
    + intros b. cbn. destruct (decide (a = b)) as [<-|Hab]; [by rewrite Ha|].
      rewrite lookup_insert_ne by done. apply W4.
  - destruct Pa as (P1 & P2). split; [done|]. gsimp. intros b jb Hb Hnb.
    destruct (decide (a = b)) as [<-|Hab]; [by rewrite lookup_insert_eq in Hnb|].
    rewrite lookup_insert_ne in Hnb by done. by apply P2.
  - intros Htr. destruct (T Htr) as (T1 & T2 & T3). rewrite Hws', Hjs. rewrite Hws in T1, T3. gsimp. split; [|split; [done|]].
    + intros b jb Hb. rewrite (T1 b jb Hb). destruct (decide (a = b)) as [<-|Hab].
      * rewrite Hn, lookup_insert_eq, bool_decide_eq_true_2 by set_solver. done.
      * rewrite lookup_insert_ne by done. destruct (g_hand g !! b); [done|].
        rewrite (bool_decide_ext (b ∈ a :: (link_pj <$> rest)) (b ∈ link_pj <$> rest)); [done|].
        rewrite elem_of_cons. naive_solver.
    + intros b. cbn. rewrite T3, not_elem_of_cons. destruct (decide (a = b)) as [<-|Hab].
      * rewrite lookup_insert_eq. naive_solver.
      * rewrite lookup_insert_ne by done. naive_solver.
  - split; [|cbn; congruence]. change (m_ulpQueued x = N.of_nat (length rest)).
    rewrite Hx1, C1, Hl. unfold ulp_dec. cbn [length]. destruct (N.eqb_spec (N.of_nat (S (length rest))) 0); lia.
Qed.

(** ** Creation and release *)

Lemma dead_facts g s a :
  inv g s -> m_jobs s !! a = None ->
  g_hand g !! a = None /\ nch (g_par g) a = 0 /\ g_par g !! a = None /\
  (a ∉ g_que g) /\ (a ∉ waiting s) /\ (forall q, a ∉ queued_in s q).
Proof.
  intros HI Ha. destruct (inv_wait _ _ HI) as (W1 & W2 & W3 & W4).
  destruct (inv_par _ _ HI) as (P1 & P2). destruct (inv_queue _ _ HI) as (Q1 & Q2 & Q3 & Q4 & Q5 & Q6).
  assert (forall q, a ∉ queued_in s q) as Hnq by (intros q (j & Hj & _)%Q4; congruence).
  split; [|split; [|split; [|split; [|split; [|done]]]]].
  - destruct (g_hand g !! a) eqn:Eq; [|done]. destruct (W4 a) as [j Hj]; [by rewrite Eq|congruence].
  - destruct (nch (g_par g) a) eqn:Eq; [done|]. destruct (nch_pos (g_par g) a) as [c Hc]; [lia|].
    destruct (P1 c a Hc) as ([j Hj] & _). congruence.
  - destruct (g_par g !! a) as [p'|] eqn:Eq; [|done]. destruct (P1 _ _ Eq) as (_ & j & Hj & _). congruence.
  - intros (q & Hq)%Q5. apply (Hnq q). unfold waits_in in Hq. case_bool_decide; [done|].
    destruct (queued_in s q); [done|by right].
  - intros [[j Hj] _]%W2. congruence.
Qed.

(** A new job, with the object [o] of the pool of its type, is in hand. *)
Lemma inv_create g s t o pool q d :
  let a : ptr := (t, o) in
  inv g s -> pool_inv pool ->
  match m_pools s !! t with Some x => used x o = false | None => True end ->
  (forall y, used pool y = match m_pools s !! t with Some x => used x y | None => false end || bool_decide (y = o)) ->
  m_jobs s !! a = None /\
  inv (with_tot (with_hand g (<[a := mkHold EjsInit false 0]> (g_hand g))) (g_tot g - 1))
    (put_job (set_pools s (<[t := pool]> (m_pools s))) a (mkJob None q 0 t true EjsInit d)).
Proof.
  intros a HI Hpi Hun Hus. destruct (inv_factory _ _ HI) as (F1 & F2 & F3).
  assert (m_jobs s !! a = None) as Ha.
  { destruct (m_jobs s !! a) eqn:Ej; [|done]. destruct (proj1 (F3 t o)) as (x & Hx & Hux); [eexists; exact Ej|].
    rewrite Hx in Hun. congruence. }
  split; [done|]. destruct (dead_facts g s a HI Ha) as (D1 & D2 & D3 & D4 & D5 & D6).
  destruct HI as [L F Jb W Pa Q T C].
  set (s1 := set_pools s _). set (j := mkJob _ _ _ _ _ _ _).
  assert (forall b, m_jobs (put_job s1 a j) !! b = if bool_decide (a = b) then Some j else m_jobs s !! b) as Hlk
    by (intros b; exact (lookup_put s1 a j b)).
  split; [done| | | | | | |].
  - split; [done|]. split.
    + intros t' x. cbn. destruct (decide (t = t')) as [<-|Ht].
      * rewrite lookup_insert_eq. by intros [= <-].
      * rewrite lookup_insert_ne by done. apply F2.
    + intros t' o'. rewrite Hlk. cbn. destruct (decide (t = t')) as [<-|Ht].
      * rewrite lookup_insert_eq. case_bool_decide as Hb.
        -- injection Hb as <-. split; [intros _|by eexists]. eexists. split; [done|].
           rewrite Hus, (bool_decide_eq_true_2 (o = o)) by done. apply orb_true_r.
        -- rewrite F3. split.
           ++ intros (x & Hx & Hu). exists pool. split; [done|]. by rewrite Hus, Hx, Hu.
           ++ intros (x & [= <-] & Hu). rewrite Hus in Hu.
              rewrite (bool_decide_eq_false_2 (o' = o)), orb_false_r in Hu by (subst a; congruence).
              destruct (m_pools s !! t) as [x|]; [by exists x|done].
      * rewrite lookup_insert_ne, bool_decide_eq_false_2 by (subst a; congruence). apply F3.
  - intros b jb. rewrite Hlk. unfold held, quref. gsimp. case_bool_decide as Hb.
    + intros [= <-]. subst b. repeat split. rewrite lookup_insert_eq, D2, bool_decide_eq_false_2 by done. done.
    + intros Hjb. rewrite lookup_insert_ne by done. by apply Jb.
  - destruct W as (W1 & W2 & W3 & W4). split; [done|]. gsimp. split; [|split].
    + intros b Hb. assert (a <> b) by (intros Hab; apply D5; by rewrite Hab). rewrite Hlk, bool_decide_eq_false_2, lookup_insert_ne by done. by apply W2.
    + intros b jb. rewrite Hlk. case_bool_decide as Hb; [subst b; by rewrite lookup_insert_eq|].
      rewrite lookup_insert_ne by done. apply W3.
    + intros b. rewrite Hlk. case_bool_decide as Hb; [by eexists|]. rewrite lookup_insert_ne by done. apply W4.
  - destruct Pa as (P1 & P2). split; gsimp.
    + intros c p Hc. destruct (P1 c p Hc) as (Hp & jc & Hjc & Hpc).
      rewrite !Hlk. rewrite !bool_decide_eq_false_2; [by split; [|eexists]|congruence|].
      intros <-. destruct Hp. congruence.
    + intros c jc. rewrite Hlk. case_bool_decide as Hb; [subst c; by rewrite lookup_insert_eq|].
      rewrite lookup_insert_ne by done. apply P2.
  - destruct Q as (Q1 & Q2 & Q3 & Q4 & Q5 & Q6). repeat split; try done; try apply Q5.
    intros q' b Hb. rewrite Hlk, bool_decide_eq_false_2; [by apply Q4|]. intros <-. by apply (D6 q').
  - intros Htr. destruct (T Htr) as (T1 & T2 & T3). gsimp. split; [|split; [done|]].
    + intros b jb. rewrite Hlk. case_bool_decide as Hb; [subst b; by rewrite lookup_insert_eq; intros [= <-]|].
      rewrite lookup_insert_ne by done. apply T1.
    + intros b. rewrite Hlk. cbn. rewrite T3. case_bool_decide as Hb.
      * subst b. rewrite lookup_insert_eq, Ha. cbn. split; [by intros [[] _]|naive_solver].
      * by rewrite lookup_insert_ne.
  - destruct C as (C1 & C2). split; [done|]. gsimp.
    change (Z.of_N (m_ulpTotal (m_cnt s)) = (Z.of_nat (size (<[a := j]> (m_jobs s))) + (g_tot g - 1))%Z).
    rewrite map_size_insert_None by done. lia.
Qed.

(** A job in hand that nothing refers to is given back to its pool. *)
Lemma inv_delete g s a j h pool pool' :
  inv g s -> m_jobs s !! a = Some j -> g_hand g !! a = Some h -> h_susp h = false ->
  nch (g_par g) a = 0 -> g_par g !! a = None -> a ∉ g_que g -> (forall q, a ∉ queued_in s q) ->
  m_pools s !! a.1 = Some pool -> pool_inv pool' ->
  (forall y, used pool' y = used pool y && negb (bool_decide (y = a.2))) ->
  inv (with_tot (with_hand g (delete a (g_hand g))) (g_tot g + 1))
    (set_jobs (set_pools s (<[a.1 := pool']> (m_pools s))) (delete a (m_jobs s))).
Proof.
  intros [L F Jb W Pa Q T C] Ha Hh Hsu Hnc Hpar Hque Hnq Hpl Hpi Hus.
  set (s' := set_jobs _ _). assert (m_jobs s' = delete a (m_jobs s)) as Hjs by done.
  assert (forall b, is_Some (delete a (m_jobs s) !! b) <-> a <> b /\ is_Some (m_jobs s !! b)) as Hdom.
  { intros b. destruct (decide (a = b)) as [<-|Hab].
    - rewrite lookup_delete_eq. split; [by intros []|naive_solver].
    - rewrite lookup_delete_ne by done. naive_solver. }
  assert (a ∉ waiting s) as Hw by (intros [_ Hn]%W; congruence).
  split; [done| | | | | | |].
  - destruct F as (F1 & F2 & F3). split; [done|]. rewrite Hjs. cbn [m_pools set_jobs set_pools s']. split.
    + intros t x [[<- <-]|[Ht Hx]]%lookup_insert_Some; [done|by eapply F2].
    + intros t o. rewrite Hdom, F3. destruct a as [ta oa]. cbn in *. destruct (decide (ta = t)) as [<-|Ht].
      * rewrite lookup_insert_eq. rewrite Hpl. split.
        -- intros (Hne & x & [= <-] & Hu). eexists. split; [done|].
           rewrite Hus, Hu, bool_decide_eq_false_2; [done|congruence].
        -- intros (x & [= <-] & Hu). rewrite Hus in Hu. apply andb_prop in Hu as [Hu Hne].
           apply negb_true_iff, bool_decide_eq_false in Hne. split; [congruence|by eexists].
      * rewrite lookup_insert_ne by done. split; [naive_solver|]. intros Hx. split; [congruence|done].
  - intros b jb. rewrite Hjs. intros [Hab Hb]%lookup_delete_Some. unfold held, quref. gsimp. rewrite lookup_delete_ne by done. by apply Jb.
  - destruct W as (W1 & W2 & W3 & W4). split; [done|]. rewrite Hjs. gsimp. split; [|split].
    + intros b Hb. assert (a <> b) by (intros ->; done). rewrite Hdom, lookup_delete_ne by done.
      destruct (W2 b Hb). done.
    + intros b jb [Hab Hb]%lookup_delete_Some. rewrite lookup_delete_ne by done. by apply W3.
    + intros b Hb. rewrite Hdom. destruct (decide (a = b)) as [<-|Hab]; [by rewrite lookup_delete_eq in Hb; destruct Hb|].
      rewrite lookup_delete_ne in Hb by done. split; [done|by apply W4].
  - destruct Pa as (P1 & P2). split; rewrite Hjs; gsimp.
    + intros c p Hc. destruct (P1 c p Hc) as (Hp & jc & Hjc & Hpc). rewrite Hdom. split.
      * split; [|done]. intros <-. pose proof (nch_child _ _ _ Hc). lia.
      * exists jc. split; [|done]. rewrite lookup_delete_ne; [done|congruence].
    + intros c jc [Hac Hc]%lookup_delete_Some. rewrite lookup_delete_ne by done. by apply P2.
  - destruct Q as (Q1 & Q2 & Q3 & Q4 & Q5 & Q6). repeat split; try done; try apply Q5.
    intros q b Hb. destruct (Q4 q b Hb) as (jb & Hjb & Hqb). exists jb. split; [|done]. rewrite Hjs.
    rewrite lookup_delete_ne; [done|]. intros ->. by apply (Hnq q).
  - intros Htr. destruct (T Htr) as (T1 & T2 & T3). rewrite Hjs. gsimp. split; [|split; [done|]].
    + intros b jb [Hab Hb]%lookup_delete_Some. rewrite lookup_delete_ne by done. by apply T1.
    + intros b. cbn. rewrite T3, Hdom. destruct (decide (a = b)) as [<-|Hab].
      * rewrite Hh, Hsu. naive_solver.
      * rewrite lookup_delete_ne by done. naive_solver.
  - destruct C as (C1 & C2). split; [done|]. rewrite Hjs. gsimp. cbn [m_cnt set_jobs set_pools s'].
    rewrite C2, map_size_delete_Some by (by eexists).
    assert (size (m_jobs s) <> 0) by (apply map_size_ne_0_lookup_2 with a; by eexists). lia.
Qed.

(** ** The list of suspended jobs *)

Lemma CList_Remove_spec (l : list ptr) a :
  NoDup l -> a ∈ l ->
  returns (CList_Remove l a) (fun l' => NoDup l' /\ forall b, b ∈ l' <-> b ∈ l /\ b <> a).
Proof.
  induction l as [|x l IH]; intros Hnd Hin; [by apply not_elem_of_nil in Hin|].
  apply NoDup_cons in Hnd as [Hx Hnd]. cbn [CList_Remove]. case_bool_decide as Hxa.
  - subst x. apply returns_ret. split; [done|]. intros b. rewrite elem_of_cons. naive_solver.
  - destruct IH as (l' & -> & Hnd' & Hl'); [done|set_solver|].
    apply returns_ret. split.
    + constructor; [rewrite Hl'; naive_solver|done].
    + intros b. rewrite !elem_of_cons, Hl'. naive_solver.
Qed.

Lemma inv_susp g s a h sp l :
  inv g s -> g_hand g !! a = Some h ->
  (m_fTrackingJobs s = true -> NoDup l /\ forall b, b ∈ l <->
     if decide (b = a) then sp = true else b ∈ m_listjSuspended s) ->
  inv (with_hand g (<[a := mkHold (h_ejs h) sp (h_refs h)]> (g_hand g))) (set_suspended s l).
Proof.
  intros HI Hh Hl. destruct (hand_facts g s a HI) as [Hlive Hnw]; [by rewrite Hh|].
  pose proof HI as [L F Jb W Pa Q T C].
  split; [done|done| | | |done| |done].
  - intros b jb Hb. destruct (Jb b jb Hb) as (J1 & J2 & J3). split; [done|]. split; [done|].
    unfold held, quref in *. gsimp. destruct (decide (a = b)) as [<-|Hab].
    + rewrite Hh in J3. by rewrite lookup_insert_eq.
    + by rewrite lookup_insert_ne.
  - eapply I_wait_hold; [exact (inv_wait _ _ HI)|done|done|done].
  - by eapply I_par_hold.
  - intros Htr. destruct (T Htr) as (T1 & T2 & T3). destruct (Hl Htr) as [L1 L2]. gsimp. split; [|split; [done|]].
    + intros b jb Hb. rewrite (T1 b jb Hb). destruct (decide (a = b)) as [<-|Hab].
      * by rewrite Hh, lookup_insert_eq.
      * by rewrite lookup_insert_ne.
    + intros b. cbn. rewrite L2. destruct (decide (b = a)) as [->|Hab].
      * rewrite lookup_insert_eq. cbn. split; [|naive_solver]. by intros ->.
      * rewrite lookup_insert_ne by congruence. apply T3.
Qed.

(** Removal of a job in hand from the list, under [FTrackingJobs()] *)
Lemma inv_unsuspend g s a h :
  inv g s -> g_hand g !! a = Some h -> h_susp h = true ->
  returns (if m_fTrackingJobs s then set_suspended s <$> CList_Remove (m_listjSuspended s) a else mret s)
    (fun s' => inv (with_hand g (<[a := mkHold (h_ejs h) false (h_refs h)]> (g_hand g))) s' /\
       m_jobs s' = m_jobs s /\ frame s s' /\ m_listjlWaiting s' = m_listjlWaiting s /\ m_cnt s' = m_cnt s).
Proof.
  intros HI Hh Hs. destruct (m_fTrackingJobs s) eqn:Htr.
  - destruct (inv_track _ _ HI Htr) as (T1 & T2 & T3). destruct (inv_wait _ _ HI) as (W1 & W2 & W3 & W4).
    destruct (CList_Remove_spec (m_listjSuspended s) a) as (l & -> & Hnd & Hl); [done| |].
    { apply T3. rewrite Hh. split; [apply W4; by rewrite Hh|]. split; [|done]. intros Hb. destruct (W2 a Hb). congruence. }
    apply returns_ret. split; [|done]. apply inv_susp; [done..|]. intros _. split; [done|].
    intros b. rewrite Hl. destruct (decide (b = a)); naive_solver.
  - apply returns_ret. split; [|done].
    assert (s = set_suspended s (m_listjSuspended s)) as -> by (by destruct s).
    apply inv_susp; [done..|]. congruence.
Qed.

(** ** Job queues *)

Lemma queue_put s q x q' : queue (put_queue s q x) q' = if bool_decide (q = q') then x else queue s q'.
Proof.
  unfold queue, put_queue. cbn. case_bool_decide as Hq; [subst; by rewrite lookup_insert_eq|].
  by rewrite lookup_insert_ne.
Qed.

Lemma inv_queue_only g s q x n :
  inv g s -> I_queue (with_note g n) (put_queue s q x) -> inv (with_note g n) (put_queue s q x).
Proof. intros [L F Jb W Pa Q T C] HQ. by split. Qed.

(** A job in hand that enters or leaves a queue trades the reference. *)
Lemma inv_requeue g s q x que n a h :
  inv g s -> g_hand g !! a = Some h -> (forall b, b <> a -> (b ∈ que <-> b ∈ g_que g)) ->
  let r := (h_refs h + quref g a - if bool_decide (a ∈ que) then 1 else 0)%Z in
  let g' := mkGhost (<[a := mkHold (h_ejs h) (h_susp h) r]> (g_hand g)) (g_par g) que (g_tot g) n in
  I_queue g' (put_queue s q x) -> inv g' (put_queue s q x).
Proof.
  intros HI Hh Hque r g' HQ. destruct (hand_facts g s a HI) as [Hlive Hnw]; [by rewrite Hh|].
  pose proof HI as [L F Jb W Pa Q T C].
  split; [done|done| | | |done| |done].
  - intros b jb Hb. destruct (Jb b jb Hb) as (J1 & J2 & J3). split; [done|]. split; [done|].
    unfold held, quref in *. subst g' r. gsimp. destruct (decide (a = b)) as [<-|Hab].
    + rewrite Hh in J3. rewrite lookup_insert_eq. gsimp. unfold quref. lia.
    + rewrite lookup_insert_ne by done. rewrite (bool_decide_ext (b ∈ que) (b ∈ g_que g)); [done|].
      apply Hque. congruence.
  - eapply I_wait_hold; [exact W|done|done|done].
  - by eapply I_par_hold.
  - by eapply I_track_hold.
Qed.

Lemma waits_none g s q : g_note g = None -> waits_in g s q = tail (queued_in s q).
Proof. intros Hn. unfold waits_in. by rewrite Hn. Qed.

Lemma queued_put s q x q' :
  queued_in (put_queue s q x) q' = if bool_decide (q = q') then m_listjQueued x else queued_in s q'.
Proof. unfold queued_in. rewrite queue_put. by case_bool_decide. Qed.

(** The first job of a queue becomes its main job. *)
Lemma inv_first g s q a j :
  inv g s -> g_note g = None -> m_fCompleted (queue s q) = false -> queued_in s q = [] ->
  m_jobs s !! a = Some j -> m_pjq j = Some q ->
  inv g (put_queue s q (mkQueue (Some a) false [a])).
Proof.
  intros HI Hn Hc Hl Ha Hq. destruct (inv_queue _ _ HI) as (Q1 & Q2 & Q3 & Q4 & Q5 & Q6).
  assert (g = with_note g (g_note g)) as -> by (by destruct g). apply inv_queue_only; [done|].
  unfold I_queue. setoid_rewrite (waits_none _ (put_queue s q _)); [|done].
  setoid_rewrite queued_put. setoid_rewrite queue_put. gsimp. rewrite Hn.
  split; [|split; [|split; [|split; [|split]]]].
  - intros q' _. case_bool_decide; [done|]. apply Q1. by rewrite Hn.
  - intros q'. case_bool_decide; [done|]. apply Q2.
  - intros q'. case_bool_decide; [apply NoDup_singleton|]. apply Q3.
  - intros q' b. case_bool_decide as Hqq; [|apply Q4]. cbn. subst q'.
    intros ->%list_elem_of_singleton. by exists j.
  - intros b. rewrite Q5. setoid_rewrite (waits_none g s); [|done].
    split; intros (q' & Hb); exists q'.
    + case_bool_decide as Hqq; [|done]. subst q'. by rewrite Hl in Hb.
    + case_bool_decide as Hqq; [by apply not_elem_of_nil in Hb|done].
  - apply Q6.
Qed.

(** A later job is queued behind the main job. *)
Lemma inv_enqueue g s q a j h x l :
  inv g s -> g_note g = None -> m_fCompleted (queue s q) = false -> queued_in s q = x :: l ->
  m_jobs s !! a = Some j -> m_pjq j = Some q -> g_hand g !! a = Some h ->
  nch (g_par g) a = 0 -> a ∉ queued_in s q ->
  inv (with_que (with_hand g (<[a := mkHold (h_ejs h) (h_susp h) (h_refs h - 1)]> (g_hand g))) ({[a]} ∪ g_que g))
    (put_queue s q (mkQueue (m_pj (queue s q)) false (queued_in s q ++ [a]))).
Proof.
  intros HI Hn Hc Hl Ha Hq Hh Hnc Hnq. destruct (inv_queue _ _ HI) as (Q1 & Q2 & Q3 & Q4 & Q5 & Q6).
  assert (a ∉ g_que g) as Hng.
  { intros (q' & Hb)%Q5. rewrite waits_none in Hb by done.
    assert (a ∈ queued_in s q') as Hin by (destruct (queued_in s q'); [done|by right]).
    destruct (Q4 q' a Hin) as (j' & Hj' & Hq'). assert (q' = q) by congruence. by subst. }
  set (g' := with_que _ _). set (x' := mkQueue _ _ _).
  assert (I_queue g' (put_queue s q x')) as HQ.
  { unfold I_queue. setoid_rewrite (waits_none g' (put_queue s q x')); [|done].
    setoid_rewrite queued_put. setoid_rewrite queue_put. subst g' x'. gsimp. rewrite Hn.
    split; [|split; [|split; [|split; [|split]]]].
    - intros q' _. case_bool_decide; [done|]. apply Q1. by rewrite Hn.
    - intros q'. case_bool_decide as Hqq; [|apply Q2]. cbn. intros _. rewrite (Q2 q Hc), Hl. done.
    - intros q'. case_bool_decide as Hqq; [|apply Q3]. cbn. apply NoDup_app. split; [apply Q3|].
      split; [|apply NoDup_singleton]. intros b Hb ->%list_elem_of_singleton. done.
    - intros q' b. case_bool_decide as Hqq; [|apply Q4]. cbn. subst q'.
      intros [Hb|Hb%list_elem_of_singleton]%elem_of_app; [by apply Q4|subst b; by exists j].
    - intros b. rewrite elem_of_union, elem_of_singleton, Q5. setoid_rewrite (waits_none g s); [|done].
      split.
      + intros [->|(q' & Hb)].
        * exists q. rewrite bool_decide_eq_true_2 by done. rewrite Hl. cbn. set_solver.
        * exists q'. case_bool_decide as Hqq; [|done]. subst q'. rewrite Hl in *. cbn in *. set_solver.
      + intros (q' & Hb). case_bool_decide as Hqq; [|right; by exists q'].
        rewrite Hl in Hb. cbn in Hb. apply elem_of_app in Hb as [Hb|Hb%list_elem_of_singleton]; [|by left].
        right. exists q. rewrite Hl. done.
    - intros b [->%elem_of_singleton|Hb]%elem_of_union; [done|by apply Q6]. }
  assert (g' = mkGhost (<[a := mkHold (h_ejs h) (h_susp h) (h_refs h + quref g a - if bool_decide (a ∈ {[a]} ∪ g_que g) then 1 else 0)]> (g_hand g))
                 (g_par g) ({[a]} ∪ g_que g) (g_tot g) (g_note g)) as Hg'.
  { subst g'. unfold with_que, with_hand. cbn. unfold quref.
    rewrite (bool_decide_eq_false_2 (a ∈ g_que g)), (bool_decide_eq_true_2 (a ∈ {[a]} ∪ g_que g)) by set_solver. by rewrite Z.add_0_r. }
  rewrite Hg' in *. apply inv_requeue; [done..| |done].
  intros b Hb. set_solver.
Qed.

Lemma waits_note g s q q' :
  g_note g = Some q ->
  waits_in g s q' = if bool_decide (q = q') then queued_in s q' else tail (queued_in s q').
Proof.
  intros Hn. unfold waits_in. rewrite Hn.
  by rewrite (bool_decide_ext (Some q = Some q') (q = q')) by naive_solver.
Qed.

(** Is it the same queue? *)
Local Ltac same_queue q q' :=
  rewrite ?queued_put in *; destruct (decide (q = q')) as [<-|];
  [rewrite ?(bool_decide_eq_true_2 (q = q)) in * by done
  |rewrite ?(bool_decide_eq_false_2 (q = q')) in * by done].

(** The queue is completed and its main job leaves it. *)
Lemma inv_notify_start g s q mp main rest :
  inv g s -> g_note g = None -> queued_in s q = main :: rest ->
  inv (with_note g (Some q)) (put_queue s q (mkQueue mp true rest)).
Proof.
  intros HI Hn Hl. destruct (inv_queue _ _ HI) as (Q1 & Q2 & Q3 & Q4 & Q5 & Q6).
  apply inv_queue_only; [done|].
  unfold I_queue. setoid_rewrite (waits_note _ (put_queue s q _) q); [|done].
  setoid_rewrite queued_put. setoid_rewrite queue_put. gsimp.
  split; [|split; [|split; [|split; [|split]]]].
  - intros q' Hqq. rewrite bool_decide_eq_false_2 by congruence. apply Q1. by rewrite Hn.
  - intros q'. case_bool_decide; [done|]. apply Q2.
  - intros q'. case_bool_decide; [|apply Q3]. cbn. pose proof (Q3 q) as Hnd. rewrite Hl in Hnd. by inversion Hnd.
  - intros q' b. case_bool_decide as Hqq; [|apply Q4]. cbn. subst q'. intros Hb. apply Q4. rewrite Hl. by right.
  - intros b. rewrite Q5. setoid_rewrite (waits_none g s); [|done].
    split; intros (q' & Hb); exists q'; same_queue q q'; try done.
    + by rewrite Hl in Hb.
    + by rewrite Hl.
  - apply Q6.
Qed.

(** The next queued job, taken in hand, leaves the queue with its reference. *)
Lemma inv_notify_pop g s q mp c rest h :
  inv g s -> g_note g = Some q -> queued_in s q = c :: rest -> g_hand g !! c = Some h ->
  inv (with_que (with_hand g (<[c := mkHold (h_ejs h) (h_susp h) (h_refs h + 1)]> (g_hand g))) (g_que g ∖ {[c]}))
    (put_queue s q (mkQueue mp true rest)).
Proof.
  intros HI Hn Hl Hh. destruct (inv_queue _ _ HI) as (Q1 & Q2 & Q3 & Q4 & Q5 & Q6).
  assert (c ∈ queued_in s q) as Hcin by (rewrite Hl; by left).
  assert (c ∈ g_que g) as Hcq.
  { apply Q5. exists q. by rewrite (waits_note g s q q Hn), bool_decide_eq_true_2. }
  pose proof (Q3 q) as Hnd. rewrite Hl in Hnd. apply NoDup_cons in Hnd as [Hcr Hnd].
  assert (forall q', q <> q' -> c ∉ queued_in s q') as Hother.
  { intros q' Hne (j' & Hj' & Hq')%Q4. destruct (Q4 q c Hcin) as (j & Hj & Hq). congruence. }
  set (g' := with_que _ _). set (x' := mkQueue _ _ _).
  assert (I_queue g' (put_queue s q x')) as HQ.
  { unfold I_queue. setoid_rewrite (waits_note g' (put_queue s q x') q); [|done].
    setoid_rewrite queued_put. setoid_rewrite queue_put. subst g' x'. gsimp. rewrite Hn.
    split; [|split; [|split; [|split; [|split]]]].
    - intros q' Hqq. rewrite bool_decide_eq_false_2 by congruence. apply Q1. by rewrite Hn.
    - intros q'. case_bool_decide; [done|]. apply Q2.
    - intros q'. case_bool_decide; [done|]. apply Q3.
    - intros q' b. case_bool_decide as Hqq; [|apply Q4]. cbn. subst q'. intros Hb. apply Q4. rewrite Hl. by right.
    - intros b. rewrite elem_of_difference, elem_of_singleton, Q5. setoid_rewrite (waits_note g s q); [|done].
      split.
      + intros [(q' & Hb) Hbc]. exists q'. same_queue q q'; [|done]. cbn.
        rewrite Hl in Hb. apply elem_of_cons in Hb as [|]; done.
      + intros (q' & Hb). same_queue q q'.
        * cbn in Hb. split; [|congruence]. exists q. rewrite bool_decide_eq_true_2 by done.
          rewrite Hl. by right.
        * split; [exists q'; by rewrite bool_decide_eq_false_2|]. intros ->. apply (Hother q'); [done|].
          destruct (queued_in s q'); [done|by right].
    - intros b [Hb _]%elem_of_difference. by apply Q6. }
  assert (g' = mkGhost (<[c := mkHold (h_ejs h) (h_susp h) (h_refs h + quref g c - if bool_decide (c ∈ g_que g ∖ {[c]}) then 1 else 0)]> (g_hand g))
                 (g_par g) (g_que g ∖ {[c]}) (g_tot g) (g_note g)) as Hg'.
  { subst g'. unfold with_que, with_hand. cbn. unfold quref.
    rewrite (bool_decide_eq_true_2 (c ∈ g_que g)), (bool_decide_eq_false_2 (c ∈ g_que g ∖ {[c]})) by set_solver. by rewrite Z.sub_0_r. }
  rewrite Hg' in *. apply inv_requeue; [done..| |done].
  intros b Hb. set_solver.
Qed.

Lemma inv_notify_end g s q :
  inv g s -> g_note g = Some q -> queued_in s q = [] -> inv (with_note g None) s.
Proof.
  intros HI Hn Hl. destruct (inv_queue _ _ HI) as (Q1 & Q2 & Q3 & Q4 & Q5 & Q6).
  destruct HI as [L F Jb W Pa Q T C]. split; try done.
  split; [|split; [|split; [|split; [|split]]]]; try done.
  - intros q' _ Hc. destruct (decide (q = q')) as [<-|Hne]; [done|]. apply Q1; [rewrite Hn; congruence|done].
  - intros b. gsimp. rewrite Q5. setoid_rewrite (waits_note g s q); [|done].
    setoid_rewrite (waits_none (with_note g None) s); [|done].
    split; intros (q' & Hb); exists q'; same_queue q q'; try done.
    + rewrite Hl in Hb. by apply not_elem_of_nil in Hb.
    + rewrite Hl in Hb. by apply not_elem_of_nil in Hb.
Qed.
End Inv.
End SchedulerInv.
