(* ===== verification/SchedulerSpec.v ===== *)
(** * What the operations of the scheduler do

    Each operation of [Scheduler.v] is executed on a state that satisfies the
    invariant: it returns, no assertion fails and no pointer dangles, and its
    effect on the invariant's ghost state and on the jobs is given. *)
From stdpp Require Import base numbers list gmap.
From S2P Require Import Prelude SyncPool Scheduler SchedulerInv.

Module SchedulerSpec.
Import SyncPool Scheduler SchedulerInv.
Open Scope nat_scope.

Section Spec.
Context {P Ob : Type} `{CO : Countable Ob} `{PO : Pool P Ob} `{PL : !PoolLaws P Ob}.
Context {E J : Type} `{JC : JobClass E J}.
Abbreviation ptr := (jptr Ob).
Abbreviation st := (state P Ob E J).
Implicit Types (s : st) (a c p : ptr) (j : CJob Ob J) (g : ghost (Ob := Ob)).

Local Ltac gsimp :=
  cbn [g_hand g_par g_que g_tot g_note with_hand with_par with_que with_tot with_note
       h_ejs h_susp h_refs].

(** ** Steps on one job *)

Lemma job_some s a j : m_jobs s !! a = Some j -> job s a = Ret j.
Proof. intros Ha. unfold job. by rewrite Ha. Qed.

Lemma no_refs_ret s a j : m_jobs s !! a = Some j -> m_ulpRefs j = 0%N -> assert_no_refs s a = Ret tt.
Proof. intros Ha Hr. unfold assert_no_refs. rewrite (job_some s a j Ha). cbn. by rewrite Hr. Qed.

Lemma IncRefs_ret s a j :
  m_jobs s !! a = Some j -> IncRefs s a = Ret (put_job s a (with_refs j (m_ulpRefs j + 1))).
Proof. intros Ha. unfold IncRefs. by rewrite (job_some s a j Ha). Qed.

Lemma UlpDecrRefs_ret s a j :
  m_jobs s !! a = Some j -> (0 < m_ulpRefs j)%N ->
  UlpDecrRefs s a = Ret (m_ulpRefs j, put_job s a (with_refs j (m_ulpRefs j - 1))).
Proof.
  intros Ha Hr. unfold UlpDecrRefs. rewrite (job_some s a j Ha). cbn [mbind outcome_bind].
  rewrite bind_assert by (by apply N.ltb_lt). unfold ulp_dec.
  destruct (N.eqb_spec (m_ulpRefs j) 0); [lia|done].
Qed.

Lemma put_same s a j : m_jobs s !! a = Some j -> put_job s a j = s.
Proof. intros Ha. unfold put_job, set_jobs. rewrite insert_id by done. by destruct s. Qed.

Lemma put_put s a j j' : put_job (put_job s a j) a j' = put_job s a j'.
Proof. unfold put_job, set_jobs. cbn. by rewrite insert_insert_eq. Qed.

Lemma lookup_put_same s a j : m_jobs (put_job s a j) !! a = Some j.
Proof. rewrite lookup_put. by rewrite bool_decide_eq_true_2. Qed.

Lemma track_spec s a j from to :
  m_jobs s !! a = Some j -> (m_fTrackingJobs s = true -> m_ejs j ∈ from) ->
  exists e, track_state s a from to = Ret (put_job s a (with_ejs j e)) /\
    (m_fTrackingJobs s = true -> e = to).
Proof.
  intros Ha Hf. unfold track_state. destruct (m_fTrackingJobs s).
  - exists to. split; [|done]. rewrite (job_some s a j Ha). cbn [mbind outcome_bind].
    rewrite bind_assert; [done|]. apply bool_decide_eq_true_2. by apply Hf.
  - exists (m_ejs j). split; [|done]. replace (with_ejs j (m_ejs j)) with j by (by destruct j).
    by rewrite put_same.
Qed.

Lemma frame_put s a j : frame s (put_job s a j).
Proof. done. Qed.

(** The effect of an operation that leaves the jobs' own parts alone *)
Definition does g s s' : Prop := inv g s' /\ view s' = view s /\ frame s s'.

Lemma does_trans g s1 s2 s3 : view s2 = view s1 -> frame s1 s2 -> does g s2 s3 -> does g s1 s3.
Proof. intros Hv Hf (H1 & H2 & H3). split; [done|]. split; [congruence|by eapply frame_trans]. Qed.

Lemma inv_ghost_eq g g' s : inv g s -> g = g' -> inv g' s.
Proof. by intros ? <-. Qed.

(** ** Scheduling *)

Lemma Schedule_spec g s a j h :
  inv g s -> m_jobs s !! a = Some j -> g_hand g !! a = Some h ->
  m_ulpRefs j = 0%N -> h_susp h = false -> h_refs h = 0%Z ->
  h_ejs h ∈ [EjsInit; EjsRunning; EjsSuspended] -> g_par g !! a = m_pjParent j ->
  returns (Schedule s a) (does (with_hand g (delete a (g_hand g))) s).
Proof.
  intros HI Ha Hh Hr Hs Hk He Hp. unfold Schedule.
  pose proof (retrieve_law (m_spjl s)) as HL.
  destruct HL as ([pool o] & -> & Hpi & Huo & Hus); [apply (inv_links _ _ HI)|]. cbn [mbind outcome_bind].
  destruct (track_spec s a j [EjsInit; EjsRunning; EjsSuspended] EjsWaiting Ha) as (e & -> & Hte).
  { intros Htr. destruct (inv_track _ _ HI Htr) as (T1 & _). specialize (T1 a j Ha). rewrite Hh in T1. by rewrite T1. }
  cbn [mbind outcome_bind]. apply returns_ret.
  split; [|split; [apply (view_put s a j); done|done]].
  pose proof (inv_put g s a j (with_ejs j e) h (mkHold EjsWaiting false 0) HI Ha Hh) as HI1.
  eapply inv_ghost_eq.
  - eapply inv_push with (s := put_job s a (with_ejs j e)); [apply HI1; try done; [by left|gsimp; cbn; lia]|apply lookup_put_same|..].
    + apply lookup_insert_eq.
    + done.
    + done.
    + exact Hpi.
    + done.
    + exact Hus.
    + done.
    + done.
  - unfold with_hand. gsimp. by rewrite delete_insert_eq.
Qed.

Lemma Resume_spec g s a j h :
  inv g s -> m_jobs s !! a = Some j -> g_hand g !! a = Some h ->
  m_ulpRefs j = 0%N -> h_susp h = false -> h_refs h = 0%Z ->
  h_ejs h ∈ [EjsInit; EjsRunning; EjsSuspended] -> g_par g !! a = m_pjParent j ->
  returns (Resume s a) (does (with_hand g (delete a (g_hand g))) s).
Proof.
  intros HI Ha Hh Hr Hs Hk He Hp. unfold Resume. rewrite (no_refs_ret s a j Ha Hr).
  by eapply Schedule_spec.
Qed.

(** ** Completion *)

(** A job in hand gives up one reference. *)
Lemma inv_dec g s a j h :
  inv g s -> m_jobs s !! a = Some j -> g_hand g !! a = Some h -> (0 < m_ulpRefs j)%N ->
  inv (with_hand g (<[a := mkHold (h_ejs h) (h_susp h) (h_refs h - 1)]> (g_hand g)))
    (put_job s a (with_refs j (m_ulpRefs j - 1))).
Proof.
  intros HI Ha Hh Hr. eapply inv_put; try done; [by left|gsimp; cbn; lia|].
  intros Htr. destruct (inv_track _ _ HI Htr) as (T1 & _). specialize (T1 a j Ha). by rewrite Hh in T1.
Qed.

Lemma inv_inc g s a j h :
  inv g s -> m_jobs s !! a = Some j -> g_hand g !! a = Some h ->
  inv (with_hand g (<[a := mkHold (h_ejs h) (h_susp h) (h_refs h + 1)]> (g_hand g)))
    (put_job s a (with_refs j (m_ulpRefs j + 1))).
Proof.
  intros HI Ha Hh. eapply inv_put; try done; [by left|gsimp; cbn; lia|].
  intros Htr. destruct (inv_track _ _ HI Htr) as (T1 & _). specialize (T1 a j Ha). by rewrite Hh in T1.
Qed.

(** What the holder of a parent and of one of its children knows of the count *)
Lemma parent_refs g s c p jp :
  inv g s -> g_par g !! c = Some p -> m_jobs s !! p = Some jp ->
  (Z.of_N (m_ulpRefs jp) = Z.of_nat (nch (g_par g) p) + held g p)%Z /\ 0 < nch (g_par g) p.
Proof.
  intros HI Hc Hp. split; [|by eapply nch_child].
  destruct (inv_jobs _ _ HI p jp Hp) as (_ & _ & HR).
  destruct (parent_facts g s c p HI Hc) as (Hq & _). unfold quref in HR.
  rewrite bool_decide_eq_false_2 in HR by done. lia.
Qed.

(** The parent is not in hand: it is suspended, and resumed with the last child. *)
Lemma resume_suspended g s c p jc jp hc :
  inv g s -> g_par g !! c = Some p -> c <> p -> m_jobs s !! c = Some jc -> m_ulpRefs jc = 0%N ->
  m_pjParent jc = Some p -> g_hand g !! c = Some hc -> g_hand g !! p = None -> m_jobs s !! p = Some jp ->
  returns (ResumeParent s c) (does (with_par g (delete c (g_par g))) s).
Proof.
  intros HI Hg Hne Hc Hr Hpc Hhc Hhp Hp.
  destruct (parent_facts g s c p HI Hg) as (Hq & Hw & _).
  destruct (parent_refs g s c p jp HI Hg Hp) as (HR & Hpos). unfold held in HR. rewrite Hhp in HR.
  assert (g_par g !! p = m_pjParent jp) as Hpp by (by apply (proj2 (inv_par _ _ HI))).
  unfold ResumeParent, FResumeParent.
  rewrite !(no_refs_ret s c jc Hc Hr), !(job_some s c jc Hc). cbn [mbind outcome_bind].
  rewrite !Hpc. rewrite (job_some s p jp Hp). cbn [mbind outcome_bind].
  rewrite bind_assert by (apply N.ltb_lt; lia).
  rewrite (UlpDecrRefs_ret s p jp Hp) by lia. cbn [mbind outcome_bind mret outcome_ret].
  set (s1 := put_job s p _).
  assert (m_jobs s1 !! p = Some (with_refs jp (m_ulpRefs jp - 1))) as Hp1 by apply lookup_put_same.
  assert (view s1 = view s) as Hv1 by (by apply (view_put s p jp)).
  pose proof (inv_take g s p HI Hhp ltac:(by eexists) Hw) as HI1.
  assert (inv (with_hand (with_par g (delete c (g_par g))) (<[p := mkHold EjsSuspended true 0]> (g_hand g))) s1) as HI2.
  { eapply (inv_detach _ s c p) in HI1; [| gsimp; rewrite lookup_insert_ne by done; by eexists | gsimp; apply lookup_insert_eq|done|done].
    eapply (inv_dec _ s p jp) in HI1; [|done|gsimp; apply lookup_insert_eq|lia].
    eapply inv_ghost_eq; [exact HI1|]. unfold with_hand, with_par. gsimp. f_equal. by rewrite !insert_insert_eq. }
  assert (delete c (g_par g) !! p = m_pjParent jp) as Hpd by (rewrite lookup_delete_ne; done).
  destruct (N.eqb_spec (m_ulpRefs jp) 1) as [H1|H1].
  - eapply returns_bind; [eapply inv_unsuspend; [exact HI2|gsimp; apply lookup_insert_eq|done]|].
    intros s2 (HI3 & Hj2 & Hf2 & _ & _). gsimp. 
    eapply returns_bind; [eapply (Resume_spec _ s2 p); [exact HI3|by rewrite Hj2|gsimp; apply lookup_insert_eq|..]|].
    + cbn. lia.
    + done.
    + done.
    + gsimp. set_solver.
    + done.
    + intros s3 (HI4 & Hv3 & Hf3). apply returns_ret. split; [|split].
      * apply inv_cnt; [|done..]. eapply inv_ghost_eq; [exact HI4|]. destruct g. unfold with_hand, with_par. cbn in *. f_equal.
        rewrite !delete_insert_eq. by apply delete_id.
      * transitivity (view s3); [done|]. rewrite Hv3. unfold view at 1. rewrite Hj2. exact Hv1.
      * eapply frame_trans; [apply frame_put|]. eapply frame_trans; [exact Hf2|]. by destruct Hf3.
  - apply returns_ret. split; [|split; [done|apply frame_put]].
    eapply (inv_drop _ s1 p) in HI2; [|gsimp; apply lookup_insert_eq|exact Hp1|cbn; lia|done].
    eapply inv_ghost_eq; [exact HI2|]. destruct g. unfold with_hand, with_par. cbn in *. f_equal.
    rewrite delete_insert_eq. by apply delete_id.
Qed.

(** The parent is in hand with a reference of its holder: it only loses the
    reference of the child. *)
Lemma resume_held g s c p jc jp hp :
  inv g s -> g_par g !! c = Some p -> is_Some (g_hand g !! c) -> m_jobs s !! c = Some jc -> m_ulpRefs jc = 0%N ->
  m_pjParent jc = Some p -> g_hand g !! p = Some hp -> (1 <= h_refs hp)%Z -> m_jobs s !! p = Some jp ->
  returns (ResumeParent s c) (does (with_par g (delete c (g_par g))) s).
Proof.
  intros HI Hg Hhc Hc Hr Hpc Hhp Hk Hp.
  destruct (parent_facts g s c p HI Hg) as (Hq & Hw & _).
  destruct (parent_refs g s c p jp HI Hg Hp) as (HR & Hpos). unfold held in HR. rewrite Hhp in HR.
  unfold ResumeParent, FResumeParent.
  rewrite !(no_refs_ret s c jc Hc Hr), !(job_some s c jc Hc). cbn [mbind outcome_bind].
  rewrite !Hpc. rewrite (job_some s p jp Hp). cbn [mbind outcome_bind].
  rewrite bind_assert by (apply N.ltb_lt; lia).
  rewrite (UlpDecrRefs_ret s p jp Hp) by lia. cbn [mbind outcome_bind mret outcome_ret].
  destruct (N.eqb_spec (m_ulpRefs jp) 1) as [H1|H1]; [lia|].
  apply returns_ret. split; [|split; [by apply (view_put s p jp)|apply frame_put]].
  eapply (inv_detach _ s c p) in HI; [|done|done|done|done].
  eapply (inv_dec _ s p jp) in HI; [|done|gsimp; apply lookup_insert_eq|lia].
  eapply inv_ghost_eq; [exact HI|]. destruct g. unfold with_hand, with_par. cbn in *. f_equal.
  rewrite insert_insert_eq. apply insert_id. rewrite Hhp. f_equal. destruct hp. cbn. f_equal. lia.
Qed.

(** Nothing but the holder's references keeps the job: it has no counted child and
    is in no queue. *)
Lemma no_refs_facts g s c jc hc :
  inv g s -> m_jobs s !! c = Some jc -> g_hand g !! c = Some hc ->
  (Z.of_N (m_ulpRefs jc) <= h_refs hc)%Z -> nch (g_par g) c = 0 /\ (c ∉ g_que g).
Proof.
  intros HI Hc Hh Hle. destruct (inv_jobs _ _ HI c jc Hc) as (_ & _ & HR).
  unfold held, quref in HR. rewrite Hh in HR. case_bool_decide; [lia|]. split; [lia|done].
Qed.

Lemma ResumeParent_spec g s c jc hc :
  inv g s -> m_jobs s !! c = Some jc -> m_ulpRefs jc = 0%N ->
  g_hand g !! c = Some hc -> h_refs hc = 0%Z -> g_par g !! c = m_pjParent jc ->
  (forall b h, g_hand g !! b = Some h -> b <> c -> (1 <= h_refs h)%Z) ->
  returns (ResumeParent s c) (does (with_par g (delete c (g_par g))) s).
Proof.
  intros HI Hc Hr Hh Hk Hpar Hothers.
  destruct (no_refs_facts g s c jc hc HI Hc Hh ltac:(lia)) as [Hnc Hque].
  destruct (m_pjParent jc) as [p|] eqn:Hp.
  - destruct (parent_facts g s c p HI Hpar) as (_ & _ & jp & Hjp).
    assert (c <> p) as Hne by (intros <-; pose proof (nch_child _ _ _ Hpar); lia).
    destruct (g_hand g !! p) as [hp|] eqn:Hhp.
    + eapply resume_held; try done. by eapply Hothers.
    + by eapply resume_suspended.
  - unfold ResumeParent. rewrite (no_refs_ret s c jc Hc Hr), (job_some s c jc Hc). cbn [mbind outcome_bind].
    rewrite Hp. apply returns_ret. split; [|done].
    eapply inv_ghost_eq; [exact HI|]. destruct g. unfold with_par. cbn in *. by rewrite delete_id.
Qed.

(** The counter of completed jobs *)
Lemma inv_completed g s b :
  inv g s -> (0 < size (m_jobs s))%nat -> g_tot g = 0%Z ->
  inv (with_tot g (-1)) (set_cnt s (bump_completed (m_cnt s) b)).
Proof.
  intros [L F Jb W Pa Q T [C1 C2]] Hs Ht. split; try done. split; [done|]. gsimp.
  cbn [set_cnt m_cnt m_jobs bump_completed m_ulpTotal]. unfold ulp_dec. rewrite Ht in C2.
  destruct (N.eqb_spec (m_ulpTotal (m_cnt s)) 0); lia.
Qed.

Lemma Release_spec g s a j h :
  inv g s -> m_jobs s !! a = Some j -> g_hand g !! a = Some h -> h_susp h = false ->
  nch (g_par g) a = 0 -> g_par g !! a = None -> a ∉ g_que g -> (forall q, a ∉ queued_in s q) ->
  returns (Release s a) (fun s' =>
    inv (with_tot (with_hand g (delete a (g_hand g))) (g_tot g + 1)) s' /\
    view s' = delete a (view s) /\ frame s s').
Proof.
  intros HI Ha Hh Hs Hnc Hpar Hque Hnq. unfold Release. rewrite (job_some s a j Ha). cbn [mbind outcome_bind].
  destruct (inv_jobs _ _ HI a j Ha) as (-> & _ & _).
  destruct (inv_factory _ _ HI) as (F1 & F2 & F3).
  destruct (proj1 (F3 a.1 a.2)) as (pool & Hpl & Hu); [destruct a; by eexists|]. rewrite Hpl.
  pose proof (recycle_law pool a.2 (F2 _ _ Hpl) Hu) as (pool' & -> & Hpi & Hus). cbn [mbind outcome_bind].
  apply returns_ret. split; [by eapply inv_delete|]. split; [|done].
  unfold view. cbn. apply fmap_delete.
Qed.

Lemma view_live s s' a : view s' = view s -> is_Some (m_jobs s !! a) -> is_Some (m_jobs s' !! a).
Proof.
  intros Hv [j Hj]. assert (view s !! a = Some (view_job j)) as Hl by (apply view_lookup; by exists j).
  rewrite <- Hv in Hl. apply view_lookup in Hl as (j' & Hj' & _). by exists j'.
Qed.

Lemma queued_frame s s' q : frame s s' -> queued_in s' q = queued_in s q /\ queue s' q = queue s q.
Proof. intros [Hq _ _ _ _]. unfold queued_in, queue. by rewrite Hq. Qed.

(** A job in hand may be completed when nobody else refers to it and its holder
    has given up all references. *)
Record completable g s c jc hc : Prop := {
  cp_job : m_jobs s !! c = Some jc;
  cp_refs : m_ulpRefs jc = 0%N;
  cp_hand : g_hand g !! c = Some hc;
  cp_held : h_refs hc = 0%Z;
  cp_par : g_par g !! c = m_pjParent jc;
  cp_others : forall b h, g_hand g !! b = Some h -> b <> c -> (1 <= h_refs h)%Z;
  cp_tot : g_tot g = 0%Z;
  cp_queues : forall q, c ∉ queued_in s q;
}.

(** The end of [Complete] and [CompleteQueued] *)
Lemma complete_tail g s c jc hc b :
  inv g s -> completable g s c jc hc ->
  returns (s1 ← ResumeParent s c; mret (set_cnt s1 (bump_completed (m_cnt s1) b)))
    (does (with_tot (with_par g (delete c (g_par g))) (-1)) s).
Proof.
  intros HI [Hc Hr Hh Hk Hp Ho Ht Hq].
  eapply returns_bind; [by eapply ResumeParent_spec|].
  intros s1 (HI1 & Hv1 & Hf1). apply returns_ret. split; [|split; [done|by destruct Hf1]].
  apply inv_completed; [done| |done].
  destruct (view_live s s1 c Hv1) as [j1 Hj1]; [by eexists|].
  assert (size (m_jobs s1) <> 0) by (apply map_size_ne_0_lookup_2 with c; by eexists). lia.
Qed.

Definition retired_hand c sp g :=
  mkGhost (<[c := mkHold EjsCompleted sp 0]> (g_hand g)) (delete c (g_par g)) (g_que g) (-1) (g_note g).

Lemma Complete_spec g s c jc :
  inv g s -> completable g s c jc (mkHold EjsRunning false 0) ->
  returns (Complete s c) (does (retired_hand c false g) s).
Proof.
  intros HI HC. pose proof HC as [Hc Hr Hh Hk Hp Ho Ht Hq]. unfold Complete.
  rewrite (no_refs_ret s c jc Hc Hr). cbn [mbind outcome_bind].
  destruct (track_spec s c jc [EjsRunning] EjsCompleted Hc) as (e & -> & Hte).
  { intros Htr. destruct (inv_track _ _ HI Htr) as (T1 & _). specialize (T1 c jc Hc). rewrite Hh in T1.
    rewrite T1. set_solver. }
  cbn [mbind outcome_bind].
  eapply (inv_put g s c jc (with_ejs jc e) _ (mkHold EjsCompleted false 0)) in HI;
    [|done|done|done|done|done|by left|cbn; lia|done|done].
  eapply returns_mono; [eapply (complete_tail _ _ c (with_ejs jc e) (mkHold EjsCompleted false 0)); [exact HI|]|].
  - split; gsimp; try done.
    + apply lookup_put_same.
    + apply lookup_insert_eq.
    + intros b h Hb Hne. rewrite lookup_insert_ne in Hb by congruence. by eapply Ho.
  - intros s' Hd. eapply does_trans; [..|exact Hd]; [by apply (view_put s c jc)|apply frame_put].
Qed.

Lemma CompleteQueued_spec g s c jc :
  inv g s -> completable g s c jc (mkHold EjsSuspended true 0) ->
  returns (CompleteQueued s c) (does (retired_hand c false g) s).
Proof.
  intros HI HC. pose proof HC as [Hc Hr Hh Hk Hp Ho Ht Hq]. unfold CompleteQueued.
  rewrite (no_refs_ret s c jc Hc Hr). cbn [mbind outcome_bind].
  pose proof (inv_unsuspend g s c _ HI Hh ltac:(done)) as (s1 & Hs1 & HI1 & Hj1 & Hf1 & _).
  assert (exists e, (if m_fTrackingJobs s then
             j ← job s c; _ ← GPOS_ASSERT (bool_decide (m_ejs j = EjsSuspended));
             l ← CList_Remove (m_listjSuspended s) c;
             mret (put_job (set_suspended s l) c (with_ejs j EjsCompleted))
           else mret s) = Ret (put_job s1 c (with_ejs jc e)) /\ (m_fTrackingJobs s = true -> e = EjsCompleted)) as (e & -> & He).
  { destruct (m_fTrackingJobs s) eqn:Htr.
    - exists EjsCompleted. split; [|done]. rewrite (job_some s c jc Hc). cbn [mbind outcome_bind].
      destruct (inv_track _ _ HI Htr) as (T1 & _). specialize (T1 c jc Hc). rewrite Hh in T1.
      rewrite bind_assert by (by apply bool_decide_eq_true_2).
      destruct (CList_Remove (m_listjSuspended s) c) as [l|]; [|done]. cbn in Hs1. by injection Hs1 as <-.
    - exists (m_ejs jc). split; [|done]. injection Hs1 as <-.
      replace (with_ejs jc (m_ejs jc)) with jc by (by destruct jc). by rewrite put_same. }
  cbn [mbind outcome_bind].
  assert (m_jobs s1 !! c = Some jc) as Hc1 by (by rewrite Hj1).
  eapply (inv_put _ s1 c jc (with_ejs jc e) _ (mkHold EjsCompleted false 0)) in HI1;
    [|done|gsimp; apply lookup_insert_eq|done|done|done|by left|cbn; lia|done|].
  2:{ intros Htr. apply He. by destruct Hf1 as [_ _ _ <- _]. }
  eapply returns_mono; [eapply (complete_tail _ _ c (with_ejs jc e) (mkHold EjsCompleted false 0)); [exact HI1|]|].
  - split; gsimp; try done.
    + apply lookup_put_same.
    + apply lookup_insert_eq.
    + intros b h Hb Hne. rewrite !lookup_insert_ne in Hb by congruence. by eapply Ho.
    + intros q. destruct (queued_frame s s1 q Hf1) as [Hqf _]. change (c ∉ queued_in s1 q). rewrite Hqf. done.
  - intros s' (HI' & Hv' & Hf'). split; [|split].
    + eapply inv_ghost_eq; [exact HI'|]. unfold retired_hand, with_tot, with_par, with_hand. gsimp. by rewrite insert_insert_eq.
    + rewrite Hv', (view_put s1 c jc) by done. unfold view. by rewrite Hj1.
    + eapply frame_trans; [exact Hf1|]. by destruct Hf'.
Qed.

(** The completed job is released. *)
Lemma retire_spec g s0 s c jc hc :
  inv g s0 -> completable g s0 c jc hc -> does (retired_hand c false g) s0 s ->
  returns (Release s c) (fun s' =>
    inv (mkGhost (delete c (g_hand g)) (delete c (g_par g)) (g_que g) 0 (g_note g)) s' /\
    view s' = delete c (view s0) /\ frame s0 s').
Proof.
  intros HI0 [Hc Hr Hh Hk Hp Ho Ht Hq] (HI & Hv & Hf).
  destruct (no_refs_facts g s0 c jc hc HI0 Hc Hh ltac:(lia)) as [Hnc Hque].
  destruct (view_live s0 s c Hv) as [j Hj]; [by eexists|].
  eapply returns_mono; [eapply (Release_spec _ s c j); [exact HI|done|apply lookup_insert_eq|done|..]|].
  - unfold retired_hand. gsimp. destruct (g_par g !! c) as [p|] eqn:Hg; [|by rewrite delete_id].
    rewrite (nch_delete _ c p c Hg) in Hnc. destruct (bool_decide (p = c)); lia.
  - unfold retired_hand. gsimp. apply lookup_delete_eq.
  - done.
  - intros q. rewrite (proj1 (queued_frame s0 s q Hf)). apply Hq.
  - intros s' (HI' & Hv' & Hf'). split; [|split].
    + eapply inv_ghost_eq; [exact HI'|]. unfold retired_hand, with_tot, with_hand. gsimp. by rewrite delete_insert_eq.
    + by rewrite Hv', Hv.
    + by eapply frame_trans.
Qed.

(** ** Creation of jobs *)

Lemma view_insert s a j : view (put_job s a j) = <[a := view_job j]> (view s).
Proof. unfold view, put_job. cbn. apply fmap_insert. Qed.

Lemma inv_added g s x :
  inv g s -> m_ulpQueued x = m_ulpQueued (m_cnt s) -> m_ulpTotal x = (m_ulpTotal (m_cnt s) + 1)%N ->
  inv (with_tot g (g_tot g + 1)) (set_cnt s x).
Proof.
  intros [L F Jb W Pa Q T [C1 C2]] H1 H2. split; try done. split; gsimp; cbn [set_cnt m_cnt m_jobs]; [by rewrite H1|lia].
Qed.

(** Creation and [Init]: a fresh job in hand, with an object that was free *)
Lemma PjCreate_spec g s x :
  inv g s ->
  returns ('(pj, s) ← PjCreate s (sp_type x) (sp_data x);
           j ← job s pj;
           _ ← GPOS_ASSERT (negb (m_fInit j));
           mret (pj, put_job s pj (mkJob (m_pjParent j) (sp_queue x) (m_ulpRefs j) (m_ejt j) true (m_ejs j) (sp_data x))))
    (fun r => let j := mkJob None (sp_queue x) 0 (sp_type x) true EjsInit (sp_data x) in
       m_jobs s !! r.1 = None /\ m_jobs r.2 = <[r.1 := j]> (m_jobs s) /\
       inv (with_tot (with_hand g (<[r.1 := mkHold EjsInit false 0]> (g_hand g))) (g_tot g - 1)) r.2 /\
       view r.2 = <[r.1 := view_job j]> (view s) /\ frame s r.2).
Proof.
  intros HI. unfold PjCreate. set (pspt := default _ _). destruct (inv_factory _ _ HI) as (F1 & F2 & F3).
  pose proof (new_law (m_ulJobs s) F1) as [HN1 HN2].
  assert (pool_inv pspt) as Hpi.
  { subst pspt. destruct (m_pools s !! sp_type x) eqn:Hp; [by eapply F2|done]. }
  pose proof (retrieve_law pspt Hpi) as ([pool o] & -> & Hpi' & Huo & Hus). cbn [mbind outcome_bind mret outcome_ret fst snd] in *.
  set (a := (sp_type x, o)). rewrite (job_some _ a _ (lookup_put_same _ a _)). cbn [mbind outcome_bind m_fInit negb].
  rewrite bind_assert by done. rewrite put_put. apply returns_ret. cbn [fst snd m_pjParent m_ulpRefs m_ejt m_ejs].
  destruct (inv_create g s (sp_type x) o pool (sp_queue x) (sp_data x) HI Hpi') as [Ha HI'].
  - subst pspt. destruct (m_pools s !! sp_type x); done.
  - intros y. rewrite Hus. subst pspt. destruct (m_pools s !! sp_type x); [done|]. cbn. by rewrite HN2.
  - split; [done|]. split; [done|]. split; [done|]. split; [|done]. by rewrite view_insert.
Qed.

Local Ltac hand_eq :=
  apply map_eq; intros ?; repeat (rewrite lookup_insert || rewrite lookup_delete); repeat case_decide; subst; try done.

(** [Add] of a fresh job below a parent in hand *)
Lemma Add_child_spec g s a p hp jp j :
  inv g s -> m_jobs s !! a = Some j -> g_hand g !! a = Some (mkHold EjsInit false 0) ->
  m_ulpRefs j = 0%N -> g_par g !! a = None ->
  m_jobs s !! p = Some jp -> g_hand g !! p = Some hp -> a <> p -> p ∉ g_que g ->
  returns (Add s a (Some p)) (fun s' =>
    inv (mkGhost (delete a (g_hand g)) (<[a := p]> (g_par g)) (g_que g) (g_tot g + 1) (g_note g)) s' /\
    view s' = <[a := (m_pjq j, Some p, m_data j)]> (view s) /\ frame s s').
Proof.
  intros HI Ha Hh Hr Hg Hp Hhp Hne Hq. unfold Add. rewrite (no_refs_ret s a j Ha Hr). cbn [mbind outcome_bind].
  rewrite (IncRefs_ret s p jp Hp). cbn [mbind outcome_bind].
  eapply inv_inc in HI; [|exact Hp|exact Hhp]. set (s1 := put_job s p _) in *.
  assert (m_jobs s1 !! a = Some j) as Ha1 by (subst s1; rewrite lookup_put, bool_decide_eq_false_2 by congruence; done).
  unfold SetParent. rewrite bind_assert by (by rewrite bool_decide_eq_false_2 by congruence).
  rewrite (job_some s1 a j Ha1). cbn [mbind outcome_bind].
  set (s2 := put_job s1 a _).
  eapply (inv_put _ s1 a j (with_parent j (Some p)) _ (mkHold EjsInit false 0)) in HI;
    [|done|gsimp; rewrite lookup_insert_ne by congruence; exact Hh|done|done|done|by right|cbn; lia|done|].
  2:{ intros Htr. destruct (inv_track _ _ HI Htr) as (T1 & _). specialize (T1 a j Ha1).
      gsimp. cbn [g_hand with_hand] in T1. rewrite lookup_insert_ne, Hh in T1 by congruence. done. }
  fold s2 in HI.
  assert (m_jobs s2 !! a = Some (with_parent j (Some p))) as Ha2 by apply lookup_put_same.
  eapply (inv_attach _ s2 a p) in HI; [|gsimp; rewrite lookup_insert_eq; by eexists
    |gsimp; rewrite lookup_insert_ne, lookup_insert_eq by congruence; done|done|exact Ha2|done|done].
  eapply (inv_added _ s2 (set_total (m_cnt s2) (m_ulpTotal (m_cnt s2) + 1))) in HI; [|done|done].
  eapply returns_mono.
  - eapply (Schedule_spec _ _ a (with_parent j (Some p)) (mkHold EjsInit false 0)); [exact HI|exact Ha2| |done|done|done|..].
    + gsimp. rewrite lookup_insert_ne by congruence. by rewrite lookup_insert_eq.
    + gsimp. set_solver.
    + gsimp. by rewrite lookup_insert_eq.
  - intros s' (HI' & Hv' & Hf'). split; [|split].
    + eapply inv_ghost_eq; [exact HI'|]. destruct g. unfold with_hand, with_par, with_tot. cbn in *. f_equal.
      hand_eq. rewrite Hhp. f_equal. destruct hp. cbn. f_equal. lia.
    + rewrite Hv'. transitivity (view s2); [done|]. subst s2. rewrite view_insert.
      f_equal. subst s1. by apply (view_put s p jp).
    + destruct Hf'. by split.
Qed.

(** [Add] of a fresh root job *)
Lemma Add_root_spec g s a j :
  inv g s -> m_jobs s !! a = Some j -> g_hand g !! a = Some (mkHold EjsInit false 0) ->
  m_ulpRefs j = 0%N -> g_par g !! a = None -> 
  returns (Add s a None) (fun s' =>
    inv (mkGhost (delete a (g_hand g)) (g_par g) (g_que g) (g_tot g + 1) (g_note g)) s' /\
    view s' = <[a := (m_pjq j, None, m_data j)]> (view s) /\ frame s s').
Proof.
  intros HI Ha Hh Hr Hg. unfold Add. rewrite (no_refs_ret s a j Ha Hr). cbn [mbind outcome_bind mret outcome_ret].
  unfold SetParent. rewrite bind_assert by done. rewrite (job_some s a j Ha). cbn [mbind outcome_bind].
  set (s2 := put_job s a _).
  eapply (inv_put _ s a j (with_parent j None) _ (mkHold EjsInit false 0)) in HI;
    [|done|exact Hh|done|done|done|by right|cbn; lia|done|].
  2:{ intros Htr. destruct (inv_track _ _ HI Htr) as (T1 & _). specialize (T1 a j Ha). by rewrite Hh in T1. }
  fold s2 in HI.
  assert (m_jobs s2 !! a = Some (with_parent j None)) as Ha2 by apply lookup_put_same.
  eapply (inv_added _ s2 (set_total (m_cnt s2) (m_ulpTotal (m_cnt s2) + 1))) in HI; [|done|done].
  eapply returns_mono.
  - eapply (Schedule_spec _ _ a (with_parent j None) (mkHold EjsInit false 0)); [exact HI|exact Ha2| |done|done|done|..].
    + gsimp. by rewrite lookup_insert_eq.
    + gsimp. set_solver.
    + done.
  - intros s' (HI' & Hv' & Hf'). split; [|split].
    + eapply inv_ghost_eq; [exact HI'|]. destruct g. unfold with_hand, with_tot. cbn in *. f_equal. by rewrite delete_insert_eq.
    + rewrite Hv'. transitivity (view s2); [done|]. subst s2. by rewrite view_insert.
    + destruct Hf'. by split.
Qed.

Lemma ScheduleJob_unfold s x par :
  ScheduleJob s x par =
  (('(pj, s) ← PjCreate s (sp_type x) (sp_data x);
    j ← job s pj;
    _ ← GPOS_ASSERT (negb (m_fInit j));
    mret (pj, put_job s pj (mkJob (m_pjParent j) (sp_queue x) (m_ulpRefs j) (m_ejt j) true (m_ejs j) (sp_data x))))
   ≫= fun '(pj, s) => s' ← Add s pj par; mret (pj, s')).
Proof.
  unfold ScheduleJob. destruct (PjCreate _ _ _) as [[pj s1]|]; [|done]. cbn [mbind outcome_bind].
  destruct (job s1 pj); [|done]. cbn [mbind outcome_bind]. by destruct (GPOS_ASSERT _).
Qed.

(** A new entry of the jobs *)
Definition view_spawn (x : spawn J) (par : option ptr) : option N * option ptr * J :=
  (sp_queue x, par, sp_data x).

Lemma ScheduleJob_child_spec g s x p hp jp :
  inv g s -> m_jobs s !! p = Some jp -> g_hand g !! p = Some hp -> p ∉ g_que g ->
  returns (ScheduleJob s x (Some p)) (fun r =>
    m_jobs s !! r.1 = None /\ inv (with_par g (<[r.1 := p]> (g_par g))) r.2 /\
    view r.2 = <[r.1 := view_spawn x (Some p)]> (view s) /\ frame s r.2).
Proof.
  intros HI Hp Hhp Hq. rewrite ScheduleJob_unfold. eapply returns_bind; [by apply PjCreate_spec|].
  intros [a s1] (Ha & Hj1 & HI1 & Hv1 & Hf1). cbn [fst snd] in *.
  destruct (dead_facts g s a HI Ha) as (D1 & D2 & D3 & D4 & D5 & D6).
  eapply returns_bind.
  - eapply (Add_child_spec _ s1 a p hp jp); [exact HI1|rewrite Hj1; apply lookup_insert_eq|gsimp; apply lookup_insert_eq|done|done|..].
    + rewrite Hj1, lookup_insert_ne by congruence. done.
    + gsimp. rewrite lookup_insert_ne by congruence. done.
    + congruence.
    + done.
  - intros s2 (HI2 & Hv2 & Hf2). apply returns_ret. cbn [fst snd]. split; [done|]. split; [|split].
    + eapply inv_ghost_eq; [exact HI2|]. destruct g. unfold with_par, with_tot, with_hand. cbn in *. f_equal; [|lia].
      by rewrite delete_insert_id.
    + rewrite Hv2, Hv1. by rewrite insert_insert_eq.
    + by eapply frame_trans.
Qed.

Lemma ScheduleJob_root_spec g s x :
  inv g s ->
  returns (ScheduleJob s x None) (fun r =>
    m_jobs s !! r.1 = None /\ inv g r.2 /\
    view r.2 = <[r.1 := view_spawn x None]> (view s) /\ frame s r.2).
Proof.
  intros HI. rewrite ScheduleJob_unfold. eapply returns_bind; [by apply PjCreate_spec|].
  intros [a s1] (Ha & Hj1 & HI1 & Hv1 & Hf1). cbn [fst snd] in *.
  destruct (dead_facts g s a HI Ha) as (D1 & D2 & D3 & D4 & D5 & D6).
  eapply returns_bind.
  - eapply (Add_root_spec _ s1 a); [exact HI1|rewrite Hj1; apply lookup_insert_eq|gsimp; apply lookup_insert_eq|done|done].
  - intros s2 (HI2 & Hv2 & Hf2). apply returns_ret. cbn [fst snd]. split; [done|]. split; [|split].
    + eapply inv_ghost_eq; [exact HI2|]. destruct g. unfold with_tot, with_hand. cbn in *. f_equal; [|lia].
      by rewrite delete_insert_id.
    + rewrite Hv2, Hv1. by rewrite insert_insert_eq.
    + by eapply frame_trans.
Qed.

(** ** A run of a job *)

(** The children [xs] of [p] are added to the jobs, each at a fresh pointer. *)
Inductive spawned p : list (spawn J) -> gmap ptr (option N * option ptr * J) ->
    gmap ptr (option N * option ptr * J) -> Prop :=
  | spawned_nil V : spawned p [] V V
  | spawned_cons x xs a V V' : V !! a = None ->
      spawned p xs (<[a := view_spawn x (Some p)]> V) V' -> spawned p (x :: xs) V V'.

Lemma view_none s a : view s !! a = None <-> m_jobs s !! a = None.
Proof. unfold view. rewrite lookup_fmap, fmap_None. done. Qed.

(** Children leave the counts of the other jobs alone. *)
Definition adds_children p (n : nat) (G G' : gmap ptr ptr) : Prop :=
  G' !! p = G !! p /\ nch G' p = nch G p + n /\ forall b, b <> p -> nch G' b = nch G b.

Lemma schedule_children_spec xs g s p hp :
  inv g s -> is_Some (m_jobs s !! p) -> g_hand g !! p = Some hp -> p ∉ g_que g ->
  returns (schedule_children s xs p) (fun s' => exists G',
    inv (with_par g G') s' /\ spawned p xs (view s) (view s') /\
    adds_children p (length xs) (g_par g) G' /\ frame s s').
Proof.
  revert g s. induction xs as [|x xs IH]; intros g s HI [jp Hp] Hh Hq; cbn [schedule_children].
  - apply returns_ret. exists (g_par g). split; [by eapply inv_ghost_eq; [exact HI|destruct g]|].
    split; [constructor|]. split; [|done]. split; [done|]. split; [cbn; lia|done].
  - eapply returns_bind; [by eapply ScheduleJob_child_spec|].
    intros [a s1] (Ha & HI1 & Hv1 & Hf1). cbn [fst snd] in *.
    destruct (dead_facts g s a HI Ha) as (_ & Hna & Hga & _).
    assert (is_Some (m_jobs s1 !! p)) as Hp1.
    { assert (view s1 !! p = Some (view_job jp)) as Hl.
      { rewrite Hv1, lookup_insert_ne by congruence. apply view_lookup. by exists jp. }
      apply view_lookup in Hl as (j1 & Hj1 & _). by eexists. }
    eapply returns_mono; [by eapply IH|].
    intros s' (G' & HI' & Hsp & (A1 & A2 & A3) & Hf'). exists G'. gsimp.
    split; [by eapply inv_ghost_eq; [exact HI'|destruct g]|].
    split; [econstructor; [by apply view_none|]; by rewrite <- Hv1|].
    split; [|by eapply frame_trans]. cbn [with_par g_par] in *. split; [|split].
    + rewrite A1, lookup_insert_ne by congruence. done.
    + rewrite A2, nch_insert, bool_decide_eq_true_2 by done. cbn. lia.
    + intros b Hb. rewrite A3, nch_insert, bool_decide_eq_false_2 by done. done.
Qed.

Lemma run_job_spec g s a j h e d xs b :
  inv g s -> m_jobs s !! a = Some j -> g_hand g !! a = Some h -> a ∉ g_que g ->
  job_FExecute (m_engine s) (m_data j) = (e, d, xs, b) ->
  returns (run_job s a) (fun r => r.1 = b /\ exists G',
    inv (with_par g G') r.2 /\
    spawned a xs (<[a := (m_pjq j, m_pjParent j, d)]> (view s)) (view r.2) /\
    adds_children a (length xs) (g_par g) G' /\ frame (set_engine s e) r.2).
Proof.
  intros HI Ha Hh Hq Hex. unfold run_job. rewrite (job_some s a j Ha). cbn [mbind outcome_bind].
  destruct (inv_jobs _ _ HI a j Ha) as (_ & Hi & _). rewrite bind_assert by done. rewrite Hex.
  assert (inv g (set_engine s e)) as HI1 by (destruct HI; by split).
  eapply (inv_put g (set_engine s e) a j (with_data j d) h h) in HI1;
    [|done|done|done|done|done|by left|cbn; lia|done|].
  2:{ intros Htr. destruct (inv_track _ _ HI Htr) as (T1 & _). specialize (T1 a j Ha). by rewrite Hh in T1. }
  set (s1 := put_job _ _ _) in *.
  assert (inv g s1) as HI2.
  { eapply inv_ghost_eq; [exact HI1|]. destruct g. unfold with_hand. cbn in *. by rewrite insert_id. }
  eapply returns_bind.
  - eapply (schedule_children_spec xs g s1 a h); [done| |done|done]. eexists. apply lookup_put_same.
  - intros s' (G' & HI' & Hsp & Hadd & Hf'). apply returns_ret. cbn [fst snd]. split; [done|].
    exists G'. split; [done|]. split; [|split; [done|by destruct Hf']].
    subst s1. by rewrite view_insert in Hsp.
Qed.

(** ** Job queues *)

Fixpoint delete_all {A} (l : list ptr) (m : gmap ptr A) : gmap ptr A :=
  match l with [] => m | c :: l' => delete_all l' (delete c m) end.

Lemma put_put_queue s q x y : put_queue (put_queue s q x) q y = put_queue s q y.
Proof. unfold put_queue, set_queues. cbn. by rewrite insert_insert_eq. Qed.

(** What is known of a queued job *)
Lemma queued_facts g s c :
  inv g s -> c ∈ g_que g -> g_hand g !! c = None ->
  exists j, m_jobs s !! c = Some j /\ m_ulpRefs j = 1%N /\ (c ∉ waiting s) /\
    g_par g !! c = m_pjParent j /\ nch (g_par g) c = 0.
Proof.
  intros HI Hc Hn. destruct (inv_queue _ _ HI) as (Q1 & Q2 & Q3 & Q4 & Q5 & Q6).
  pose proof Hc as (q & Hq)%Q5.
  assert (c ∈ queued_in s q) as Hin.
  { unfold waits_in in Hq. case_bool_decide; [done|]. destruct (queued_in s q); [done|by right]. }
  destruct (Q4 q c Hin) as (j & Hj & _). exists j. split; [done|].
  pose proof (Q6 c Hc) as Hnc. destruct (inv_jobs _ _ HI c j Hj) as (_ & _ & HR).
  unfold held, quref in HR. rewrite Hn, bool_decide_eq_true_2 in HR by done.
  assert (m_ulpRefs j = 1%N) as Hr by lia. split; [done|]. split; [|split; [|done]].
  - intros Hw. destruct (inv_wait _ _ HI) as (_ & _ & W3 & _). apply (W3 c j Hj Hn) in Hw. lia.
  - by apply (proj2 (inv_par _ _ HI)).
Qed.

(** One queued job is completed and released while the main job [a] is held. *)
Lemma notify_one g s q a h c rest :
  inv g s -> g_hand g = {[a := h]} -> (1 <= h_refs h)%Z -> g_tot g = 0%Z -> g_note g = Some q ->
  m_fCompleted (queue s q) = true -> queued_in s q = c :: rest -> c <> a ->
  let s1 := put_queue s q (mkQueue (m_pj (queue s q)) true rest) in
  returns ('(refs, s2) ← UlpDecrRefs s1 c;
           if (refs =? 1)%N then (s3 ← CompleteQueued s2 c; Release s3 c) else mret s2)
    (fun s' => inv (mkGhost (g_hand g) (delete c (g_par g)) (g_que g ∖ {[c]}) 0 (Some q)) s' /\
       view s' = delete c (view s) /\ frame s1 s').
Proof.
  intros HI Hha Hk Ht Hn Hcq Hl Hne s1.
  destruct (inv_queue _ _ HI) as (_ & _ & Q3 & Q4 & Q5 & _).
  assert (c ∈ g_que g) as Hc.
  { apply Q5. exists q. rewrite (waits_note g s q q Hn), bool_decide_eq_true_2, Hl by done. by left. }
  assert (g_hand g !! c = None) as Hnc by (rewrite Hha; by apply lookup_singleton_ne).
  destruct (queued_facts g s c HI Hc Hnc) as (j & Hj & Hr & Hw & Hp & Hch).
  assert (c ∈ queued_in s q) as Hin by (rewrite Hl; by left).
  destruct (Q4 q c Hin) as (j' & Hj' & Hqj). replace j' with j in * by congruence.
  pose proof (inv_take g s c HI Hnc ltac:(by eexists) Hw) as HI1.
  eapply (inv_notify_pop _ s q (m_pj (queue s q)) c rest) in HI1; [|done|done|gsimp; apply lookup_insert_eq]. fold s1 in HI1.
  rewrite (UlpDecrRefs_ret s1 c j) by (done || lia). rewrite Hr. cbn [mbind outcome_bind N.eqb Pos.eqb].
  eapply (inv_dec _ s1 c j) in HI1; [|done|gsimp; apply lookup_insert_eq|lia]. rewrite Hr in HI1.
  set (s2 := put_job s1 c _) in *. set (g2 := mkGhost (<[c := mkHold EjsSuspended true 0]> (g_hand g)) (g_par g) (g_que g ∖ {[c]}) 0 (Some q)).
  assert (inv g2 s2) as HI2.
  { eapply inv_ghost_eq; [exact HI1|]. subst g2. destruct g. unfold with_hand, with_que. cbn in *. subst. f_equal.
    by rewrite !insert_insert_eq. }
  assert (completable g2 s2 c (with_refs j 0) (mkHold EjsSuspended true 0)) as HC.
  { subst g2. split; gsimp; try done.
    - apply lookup_put_same.
    - apply lookup_insert_eq.
    - intros b hb Hb Hbc. rewrite lookup_insert_ne, Hha in Hb by congruence.
      by apply lookup_singleton_Some in Hb as [<- <-].
    - intros q'. change (c ∉ queued_in s1 q'). subst s1. rewrite queued_put. case_bool_decide as Hqq; cbn.
      + subst q'. pose proof (Q3 q) as Hnd. rewrite Hl in Hnd. by inversion Hnd.
      + intros (j2 & Hj2 & Hq2)%Q4. congruence. }
  eapply returns_bind; [by eapply CompleteQueued_spec|].
  intros s3 Hd. eapply returns_mono; [by eapply retire_spec|].
  intros s' (HI' & Hv' & Hf'). split; [|split].
  - eapply inv_ghost_eq; [exact HI'|]. subst g2. gsimp. f_equal. by rewrite delete_insert_id.
  - rewrite Hv'. f_equal. by apply (view_put s1 c j).
  - eapply frame_trans; [apply frame_put|exact Hf'].
Qed.

(** All jobs of the list are completed and released. *)
Lemma Notify_loop_spec l n g s q a h :
  inv g s -> g_hand g = {[a := h]} -> (1 <= h_refs h)%Z -> g_tot g = 0%Z -> g_note g = Some q ->
  m_fCompleted (queue s q) = true -> queued_in s q = l -> a ∉ l -> length l <= n ->
  returns (Notify_loop n s q) (fun s' => exists G' D',
    inv (mkGhost (g_hand g) G' D' 0 (Some q)) s' /\ view s' = delete_all l (view s) /\
    G' !! a = g_par g !! a /\ nch G' a <= nch (g_par g) a /\ queued_in s' q = [] /\
    frame (put_queue s q (mkQueue (m_pj (queue s q)) true [])) s').
Proof.
  revert n g s. induction l as [|c rest IH]; intros n g s HI Hha Hk Ht Hn Hcq Hl Hnin Hlen.
  - destruct n; cbn [Notify_loop]; unfold queued_in in Hl; rewrite Hl; apply returns_ret;
      exists (g_par g), (g_que g); (split; [by eapply inv_ghost_eq; [exact HI|destruct g; cbn in *; congruence]|]);
      (split; [done|]); (split; [done|]); (split; [lia|]); (split; [done|]);
      split; try done; cbn; apply map_eq; intros q'; destruct (decide (q = q')) as [<-|Hqq];
      rewrite ?lookup_insert_eq, ?lookup_insert_ne by done; try done; 
      unfold queue in *; destruct (m_queues s !! q) as [[mp cm lq]|]; cbn in *; congruence.
  - destruct n as [|n]; [cbn in Hlen; lia|]. apply not_elem_of_cons in Hnin as [Hac Hnin].
    pose proof (notify_one g s q a h c rest HI Hha Hk Ht Hn Hcq Hl ltac:(congruence)) as HN.
    cbn [Notify_loop]. unfold queued_in in Hl. rewrite Hl, Hcq. set (s1 := put_queue s q _) in *.
    cbv zeta in HN. destruct HN as (s' & HN & HI' & Hv' & Hf').
    destruct (queued_frame s1 s' q Hf') as [Hq1 Hq2].
    destruct (IH n (mkGhost (g_hand g) (delete c (g_par g)) (g_que g ∖ {[c]}) 0 (Some q)) s')
      as (s'' & HL & G' & D' & HI'' & Hv'' & HG & Hnch & Hq'' & Hf''); try done.
    { rewrite Hq2. subst s1. by rewrite queue_put, bool_decide_eq_true_2. }
    { rewrite Hq1. subst s1. by rewrite queued_put, bool_decide_eq_true_2. }
    { cbn in Hlen. lia. }
    cbn [g_hand g_par] in *.
    assert (forall (refs : N) (s2 : st),
      (if (refs =? 1)%N then s3 ← CompleteQueued s2 c; Release s3 c else mret s2) = Ret s' ->
      (if (refs =? 1)%N then s3 ← CompleteQueued s2 c; s4 ← Release s3 c; Notify_loop n s4 q
       else Notify_loop n s2 q) = Notify_loop n s' q) as Hassoc.
    { intros refs s2. destruct (refs =? 1)%N; [|by intros [= ->]].
      destruct (CompleteQueued s2 c) as [s3|]; [|done]. cbn [mbind outcome_bind]. by intros ->. }
    destruct (UlpDecrRefs s1 c) as [[refs s2]|]; [|done]. cbn [mbind outcome_bind] in *.
    rewrite (Hassoc refs s2 HN), HL. exists s''. split; [done|]. exists G', D'.
    split; [done|]. split; [by rewrite Hv'', Hv'|].
    split; [rewrite HG; apply lookup_delete_ne; congruence|]. split; [|split; [done|]].
    + destruct (g_par g !! c) as [p|] eqn:Hg; [rewrite (nch_delete _ c p a Hg); lia|by rewrite delete_id in Hnch].
    + destruct Hf' as [A1 A2 A3 A4 A5], Hf'' as [B1 B2 B3 B4 B5]. split; cbn in *; try congruence.
      rewrite B1, A1. unfold queue. rewrite A1. cbn. rewrite lookup_insert_eq. cbn. by rewrite insert_insert_eq.
Qed.

Lemma NotifyCompleted_spec g s q a h rest :
  inv g s -> g_hand g = {[a := h]} -> (2 <= h_refs h)%Z -> g_tot g = 0%Z -> g_note g = None ->
  m_fCompleted (queue s q) = false -> queued_in s q = a :: rest ->
  returns (NotifyCompleted s q) (fun s' => exists G' D',
    inv (mkGhost {[a := mkHold (h_ejs h) (h_susp h) (h_refs h - 1)]} G' D' 0 None) s' /\
    view s' = delete_all rest (view s) /\ G' !! a = g_par g !! a /\ nch G' a <= nch (g_par g) a /\
    frame (put_queue s q (mkQueue (m_pj (queue s q)) true [])) s').
Proof.
  intros HI Hha Hk Ht Hn Hcq Hl. unfold NotifyCompleted. rewrite bind_assert by (by rewrite Hcq).
  unfold queued_in in Hl. rewrite Hl. rewrite bind_assert by done. cbn [length Notify_loop].
  rewrite queue_put, bool_decide_eq_true_2 by done. cbn [m_listjQueued m_pj m_fCompleted]. rewrite put_put_queue.
  set (s1 := put_queue s q _).
  destruct (inv_queue _ _ HI) as (_ & _ & Q3 & Q4 & _).
  destruct (Q4 q a) as (j & Hj & Hqj); [unfold queued_in; rewrite Hl; by left|].
  pose proof (Q3 q) as Hnd. unfold queued_in in Hnd. rewrite Hl in Hnd. apply NoDup_cons in Hnd as [Hnin _].
  assert (g_hand g !! a = Some h) as Hh by (rewrite Hha; by apply lookup_singleton_eq).
  destruct (inv_jobs _ _ HI a j Hj) as (_ & _ & HR). unfold held in HR. rewrite Hh in HR.
  assert (0 <= quref g a)%Z by (unfold quref; destruct (bool_decide _); lia).
  rewrite (UlpDecrRefs_ret s1 a j) by (done || lia). cbn [mbind outcome_bind].
  destruct (N.eqb_spec (m_ulpRefs j) 1) as [|_]; [lia|].
  pose proof (inv_notify_start g s q (m_pj (queue s q)) a rest HI Hn Hl) as HI1. fold s1 in HI1.
  eapply (inv_dec _ s1 a j) in HI1; [|done|done|lia]. set (s2 := put_job s1 a _) in *.
  eapply returns_mono.
  - eapply (Notify_loop_spec rest _ _ s2 q a); [exact HI1| | |done|done| | |done|done].
    + gsimp. by rewrite Hha, insert_singleton_eq.
    + gsimp. lia.
    + subst s2. change (m_fCompleted (queue s1 q) = true). subst s1. by rewrite queue_put, bool_decide_eq_true_2.
    + change (queued_in s1 q = rest). subst s1. by rewrite queued_put, bool_decide_eq_true_2.
  - intros s' (G' & D' & HI' & Hv' & HG & Hnch & Hq' & Hf'). exists G', D'. split; [|split; [|split; [done|split; [done|]]]].
    + eapply inv_notify_end in HI'; [|done|done]. eapply inv_ghost_eq; [exact HI'|]. unfold with_note. gsimp. f_equal.
      by rewrite Hha, insert_singleton_eq.
    + rewrite Hv'. f_equal. by apply (view_put s1 a j).
    + destruct Hf' as [A1 A2 A3 A4 A5]. split; try done. rewrite A1. subst s2.
      change (m_queues (put_queue s1 q (mkQueue (m_pj (queue s1 q)) true [])) = m_queues (put_queue s q (mkQueue (m_pj (queue s q)) true []))).
      subst s1. rewrite queue_put, bool_decide_eq_true_2, put_put_queue by done. done.
Qed.

(** The queue of a map of queues *)
Definition qof (Q : gmap N (CJobQueue Ob)) q : CJobQueue Ob := default CJobQueue_ctor (Q !! q).

(** A job that runs: it has no queue, or it is or becomes the main job of a queue
    that is not completed. *)
Definition enters (Q : gmap N (CJobQueue Ob)) a (oq : option N) (Q' : gmap N (CJobQueue Ob)) : Prop :=
  match oq with
  | None => Q' = Q
  | Some q => m_fCompleted (qof Q q) = false /\
      (m_pj (qof Q q) = Some a /\ Q' = Q \/
       m_listjQueued (qof Q q) = [] /\ Q' = <[q := mkQueue (Some a) false [a]]> Q)
  end.

Lemma EjqrAdd_spec g s q a j h :
  inv g s -> m_jobs s !! a = Some j -> m_pjq j = Some q -> g_hand g = {[a := h]} -> g_note g = None ->
  nch (g_par g) a = 0 -> a ∉ g_que g ->
  returns (EjqrAdd s q a) (fun r =>
    view r.2 = view s /\ frame (set_queues s (m_queues r.2)) r.2 /\
    match r.1 with
    | EjqrCompleted => r.2 = s /\ m_fCompleted (queue s q) = true
    | EjqrMain =>
        inv (with_hand g {[a := mkHold (h_ejs h) (h_susp h) (h_refs h + 1)]}) r.2 /\
        enters (m_queues s) a (Some q) (m_queues r.2) /\
        m_fCompleted (queue r.2 q) = false /\ exists rest, queued_in r.2 q = a :: rest
    | EjqrQueued =>
        inv (with_que g ({[a]} ∪ g_que g)) r.2 /\ m_fCompleted (queue s q) = false /\
        (exists m l, queued_in s q = m :: l /\ m <> a) /\ (a ∉ queued_in s q) /\
        m_queues r.2 = <[q := mkQueue (m_pj (queue s q)) false (queued_in s q ++ [a])]> (m_queues s)
    end).
Proof.
  intros HI Ha Hq Hha Hn Hnch Hque. destruct (inv_queue _ _ HI) as (Q1 & Q2 & Q3 & Q4 & Q5 & Q6).
  assert (g_hand g !! a = Some h) as Hh by (rewrite Hha; by apply lookup_singleton_eq).
  assert (a ∉ tail (queued_in s q)) as Htl.
  { intros Ht. apply Hque, Q5. exists q. by rewrite waits_none. }
  unfold EjqrAdd. destruct (m_fCompleted (queue s q)) eqn:Hc; [by apply returns_ret|].
  case_bool_decide as Hm.
  - rewrite (IncRefs_ret s a j Ha). cbn [mbind outcome_bind]. apply returns_ret. cbn [fst snd].
    split; [by apply (view_put s a j)|]. split; [done|].
    pose proof (Q2 q Hc) as Hhd. rewrite <- Hm in Hhd. split; [|split; [|split]].
    + eapply inv_ghost_eq; [by eapply inv_inc|]. unfold with_hand. by rewrite Hha, insert_singleton_eq.
    + split; [done|]. by left.
    + done.
    + change (exists rest, queued_in s q = a :: rest).
      destruct (queued_in s q) as [|x rest]; [done|]. injection Hhd as ->. by exists rest.
  - destruct (queued_in s q) as [|x l] eqn:Hl; unfold queued_in in Hl; rewrite Hl; cbn [app head].
    + rewrite (bool_decide_eq_true_2 (Some a = Some a)) by done.
      rewrite bind_assert by (apply bool_decide_eq_true_2; rewrite (Q2 q Hc); unfold queued_in; by rewrite Hl).
      cbn [mbind outcome_bind mret outcome_ret]. pose proof (inv_first g s q a j HI Hn Hc Hl Ha Hq) as HI1.
      set (s1 := put_queue s q _) in *. rewrite (IncRefs_ret s1 a j Ha). cbn [mbind outcome_bind].
      apply returns_ret. cbn [fst snd]. split; [by apply (view_put s1 a j)|]. split; [done|]. split; [|split; [|split]].
      * eapply inv_ghost_eq; [by eapply inv_inc|]. unfold with_hand. by rewrite Hha, insert_singleton_eq.
      * split; [done|]. by right.
      * change (m_fCompleted (queue s1 q) = false). subst s1. by rewrite queue_put, bool_decide_eq_true_2.
      * change (exists rest, queued_in s1 q = a :: rest). subst s1. rewrite queued_put, bool_decide_eq_true_2 by done. by exists [].
    + pose proof (Q2 q Hc) as Hhd. unfold queued_in in Hhd. rewrite Hl in Hhd. cbn in Hhd.
      assert (x <> a) as Hxa by (intros ->; by rewrite Hhd in Hm).
      rewrite bool_decide_eq_false_2 by congruence. cbn [mbind outcome_bind mret outcome_ret].
      assert (a ∉ queued_in s q) as Hnin by (unfold queued_in; rewrite Hl; apply not_elem_of_cons; split; [congruence|done]).
      pose proof (inv_enqueue g s q a j h x l HI Hn Hc Hl Ha Hq Hh Hnch Hnin) as HI1.
      unfold queued_in in HI1. rewrite Hl in HI1. cbn [app] in HI1.
      set (s1 := put_queue s q _) in *. rewrite (IncRefs_ret s1 a j Ha). cbn [mbind outcome_bind].
      apply returns_ret. cbn [fst snd]. split; [by apply (view_put s1 a j)|]. split; [done|]. split; [|split; [done|split; [|split]]].
      * eapply inv_inc in HI1; [|exact Ha|gsimp; apply lookup_insert_eq]. eapply inv_ghost_eq; [exact HI1|].
        destruct g. unfold with_hand, with_que. cbn in *. f_equal. rewrite insert_insert_eq. apply insert_id.
        rewrite Hh. f_equal. destruct h. cbn. f_equal. lia.
      * by exists x, l.
      * unfold queued_in in Hnin. by rewrite Hl in Hnin.
      * done.
Qed.
End Spec.
End SchedulerSpec.
