(* ===== verification/SchedulerRun.v ===== *)
(** * Runs of the scheduler

    The abstract scheduler knows the live jobs with their parents, queues and
    data, the queues and the engine; a step runs one job that waits for nothing.
    One iteration of [ExecuteJobs] is such a step; with jobs that do a bounded
    amount of work and do not wait for each other in a circle, all jobs are
    completed. *)
From stdpp Require Import base numbers list gmap.
From S2P Require Import Prelude SyncPool Scheduler SchedulerInv SchedulerSpec.

Module SchedulerRun.
Import SyncPool Scheduler SchedulerInv SchedulerSpec.
Open Scope nat_scope.

(** What the scheduler relies on: a run that completes its job has scheduled no
    children. The state machines of the job classes schedule children only on
    events that keep the state, after which the run ends as not completed. *)
Class JobLaws (E J : Type) `{JobClass E J} : Prop := {
  completes_alone e d e' d' xs : job_FExecute e d = (e', d', xs, true) -> xs = [];
}.

Section Run.
Context {P Ob : Type} `{CO : Countable Ob} `{PO : Pool P Ob} `{PL : !PoolLaws P Ob}.
Context {E J : Type} `{JC : JobClass E J} `{JL : !JobLaws E J}.
Abbreviation ptr := (jptr Ob).
Abbreviation st := (state P Ob E J).
Abbreviation jobs_view := (gmap ptr (option N * option ptr * J)).
Abbreviation queue_map := (gmap N (CJobQueue Ob)).
Implicit Types (s : st) (a c p : ptr) (j : CJob Ob J) (g : ghost (Ob := Ob)) (V : jobs_view) (Q : queue_map).

Local Ltac gsimp :=
  cbn [g_hand g_par g_que g_tot g_note with_hand with_par with_que with_tot with_note
       h_ejs h_susp h_refs].

(** ** The abstract scheduler *)

Definition abs_state : Type := jobs_view * queue_map * E.
Definition abs s : abs_state := (view s, m_queues s, m_engine s).

(** A step of job [a] *)
Inductive job_step a : abs_state -> abs_state -> Prop :=
  | js_more V Q e oq par d Q' e' d' xs V' :      (** it runs on, with new children *)
      V !! a = Some (oq, par, d) -> enters Q a oq Q' ->
      job_FExecute e d = (e', d', xs, false) ->
      spawned a xs (<[a := (oq, par, d')]> V) V' ->
      job_step a (V, Q, e) (V', Q', e')
  | js_done V Q e par d e' d' :                  (** it is completed *)
      V !! a = Some (None, par, d) -> job_FExecute e d = (e', d', [], true) ->
      job_step a (V, Q, e) (delete a V, Q, e')
  | js_main_done V Q e q par d Q' e' d' rest :   (** with it the jobs queued behind it *)
      V !! a = Some (Some q, par, d) -> enters Q a (Some q) Q' ->
      job_FExecute e d = (e', d', [], true) ->
      m_listjQueued (qof Q' q) = a :: rest ->
      job_step a (V, Q, e) (delete a (delete_all rest V), <[q := mkQueue (m_pj (qof Q' q)) true []]> Q', e')
  | js_queued V Q e q par d m l :                (** it waits for the main job of its queue *)
      V !! a = Some (Some q, par, d) -> m_fCompleted (qof Q q) = false ->
      m_listjQueued (qof Q q) = m :: l -> m <> a -> a ∉ m_listjQueued (qof Q q) ->
      job_step a (V, Q, e) (V, <[q := mkQueue (m_pj (qof Q q)) false (m_listjQueued (qof Q q) ++ [a])]> Q, e)
  | js_skip V Q e q par d :                      (** its work has been done by another *)
      V !! a = Some (Some q, par, d) -> m_fCompleted (qof Q q) = true ->
      job_step a (V, Q, e) (delete a V, Q, e).

(** ** One execution *)

Definition held_ghost a r G D := mkGhost {[a := mkHold EjsRunning false r]} G D 0 None.

Lemma not_in_queues g s a j :
  inv g s -> m_jobs s !! a = Some j ->
  match m_pjq j with Some q => queued_in s q = [] | None => True end ->
  (a ∉ g_que g) /\ forall q, a ∉ queued_in s q.
Proof.
  intros HI Ha Hq. destruct (inv_queue _ _ HI) as (Q1 & Q2 & Q3 & Q4 & Q5 & Q6).
  assert (forall q, a ∉ queued_in s q) as Hn.
  { intros q Hin. destruct (Q4 q a Hin) as (j' & Hj' & Hq'). rewrite Ha in Hj'. injection Hj' as <-.
    rewrite Hq' in Hq. rewrite Hq in Hin. by apply not_elem_of_nil in Hin. }
  split; [|done]. intros (q & Hin)%Q5. apply (Hn q). unfold waits_in in Hin.
  case_bool_decide; [done|]. destruct (queued_in s q); [done|by right].
Qed.

(** What [FExecute] leaves for the code after it *)
Definition executed a j s (r : bool * st) : Prop := exists G D,
  inv (held_ghost a 1 G D) r.2 /\ G !! a = m_pjParent j /\ is_Some (m_jobs r.2 !! a) /\
  m_listjRunning r.2 = m_listjRunning s /\ m_fTrackingJobs r.2 = m_fTrackingJobs s /\
  m_ulpRunning (m_cnt r.2) = m_ulpRunning (m_cnt s) /\
  (forall x, view r.2 !! a = Some x -> x.1.2 = m_pjParent j) /\
  if r.1 then
    nch G a = 0 /\ (a ∉ D) /\ (forall q, a ∉ queued_in r.2 q) /\
    job_step a (abs s) (delete a (view r.2), m_queues r.2, m_engine r.2)
  else job_step a (abs s) (abs r.2).

Lemma spawned_keeps a xs V V' b x : spawned a xs V V' -> V !! b = Some x -> V' !! b = Some x.
Proof.
  induction 1 as [|y xs c V V' Hc _ IH]; [done|]. intros Hb. apply IH.
  rewrite lookup_insert_ne; [done|congruence].
Qed.

Lemma view_some s a j : m_jobs s !! a = Some j -> view s !! a = Some (m_pjq j, m_pjParent j, m_data j).
Proof. intros Ha. apply view_lookup. by exists j. Qed.

(** A job without a queue *)
Lemma FExecute_plain G D s a j :
  inv (held_ghost a 1 G D) s -> m_jobs s !! a = Some j -> m_pjq j = None ->
  nch G a = 0 -> a ∉ D -> G !! a = m_pjParent j ->
  returns (FExecute s a) (executed a j s).
Proof.
  intros HI Ha Hq Hnch HD HG. unfold FExecute. rewrite (job_some s a j Ha). cbn [mbind outcome_bind]. rewrite Hq.
  destruct (job_FExecute (m_engine s) (m_data j)) as [[[e d] xs] b] eqn:Hex.
  eapply returns_mono; [eapply (run_job_spec _ s a j); [exact HI|done|apply lookup_singleton_eq|done|exact Hex]|].
  intros [b' s'] (Hb & G' & HI' & Hsp & (A1 & A2 & A3) & Hf). cbn [fst snd held_ghost g_par] in *. subst b'.
  assert (view s' !! a = Some (None, m_pjParent j, d)) as Hva.
  { eapply spawned_keeps; [exact Hsp|]. rewrite Hq. apply lookup_insert_eq. }
  pose proof Hva as (j' & Hj' & Hvj)%view_lookup. injection Hvj as Hq' Hp' Hd'.
  exists G', D. cbn [fst snd]. destruct Hf as [Fq Fe Fr Ft Fn].
  split; [done|]. split; [by rewrite A1|]. split; [by eexists|]. split; [done|]. split; [done|]. split; [done|].
  split; [intros x; rewrite Hva; by intros [= <-]|]. destruct b.
  - pose proof (completes_alone _ _ _ _ _ Hex) as ->. inversion Hsp as [V HV|]; subst.
    split; [cbn in A2; lia|]. split; [done|]. split.
    + eapply not_in_queues; [exact HI'|exact Hj'|]. by rewrite Hq'.
    + rewrite delete_insert_eq. unfold abs. rewrite Fq, Fe. eapply js_done; [|exact Hex].
      rewrite (view_some s a j Ha). by rewrite Hq.
  - unfold abs. rewrite Fq, Fe. eapply js_more; [rewrite (view_some s a j Ha); by rewrite Hq|done|exact Hex|].
    by rewrite Hq in Hsp.
Qed.

(** The main job of a queue runs. *)
Lemma FExecute_main G D s s1 a j q rest :
  inv (held_ghost a 2 G D) s1 -> view s1 = view s -> frame (set_queues s (m_queues s1)) s1 ->
  m_jobs s !! a = Some j -> m_pjq j = Some q -> nch G a = 0 -> a ∉ D -> G !! a = m_pjParent j ->
  enters (m_queues s) a (Some q) (m_queues s1) -> m_fCompleted (queue s1 q) = false ->
  queued_in s1 q = a :: rest ->
  returns ('(fCompleted, s) ← run_job s1 a;
           if (fCompleted : bool) then s ← NotifyCompleted s q; mret (true, s)
           else '(_, s) ← UlpDecrRefs s a; mret (false, s))
    (executed a j s).
Proof.
  intros HI Hv1 Hf1 Ha Hq Hnch HD HG Hent Hcq Hl.
  pose proof (view_some s a j Ha) as Hva. rewrite <- Hv1 in Hva. apply view_lookup in Hva as (j1 & Hj1 & Hvj1).
  injection Hvj1 as Hq1 Hp1 Hd1. destruct Hf1 as [_ Fe Fr Ft Fn]. cbn in Fe, Fr, Ft, Fn.
  destruct (job_FExecute (m_engine s) (m_data j)) as [[[e d] xs] b] eqn:Hex.
  eapply returns_bind; [eapply (run_job_spec _ s1 a j1); [exact HI|done|apply lookup_singleton_eq|done|]|].
  { rewrite Fe, Hd1. exact Hex. }
  intros [b' s2] (Hb & G2 & HI2 & Hsp & (A1 & A2 & A3) & [Kq Ke Kr Kt Kn]). cbn [fst snd held_ghost g_par] in *. subst b'.
  rewrite Hv1, Hq1, Hp1, Hq in Hsp.
  assert (view s2 !! a = Some (Some q, m_pjParent j, d)) as Hva.
  { eapply spawned_keeps; [exact Hsp|]. apply lookup_insert_eq. }
  pose proof Hva as (j2 & Hj2 & Hvj2)%view_lookup. injection Hvj2 as Hq2 Hp2 Hd2.
  assert (forall q', queue s2 q' = queue s1 q') as Hqs by (intros q'; unfold queue; by rewrite Kq).
  assert (queued_in s2 q = a :: rest) as Hl2 by (unfold queued_in; rewrite Hqs; exact Hl).
  assert (view s !! a = Some (Some q, m_pjParent j, m_data j)) as Hvs by (rewrite (view_some s a j Ha); by rewrite Hq).
  destruct b.
  - pose proof (completes_alone _ _ _ _ _ Hex) as ->.
    assert (view s2 = <[a := (Some q, m_pjParent j, d)]> (view s)) as HV by (by inversion Hsp).
    eapply returns_bind; [eapply (NotifyCompleted_spec _ s2 q a); [exact HI2|done|done|done|done|by rewrite Hqs|exact Hl2]|].
    intros s3 (G3 & D3 & HI3 & Hv3 & HG3 & Hn3 & [Lq Le Lr Lt Ln]). apply returns_ret.
    cbn [with_par g_par held_ghost h_refs h_ejs h_susp] in *.
    assert (a ∉ rest) as Hnr.
    { pose proof (proj1 (proj2 (proj2 (inv_queue _ _ HI2))) q) as Hnd. rewrite Hl2 in Hnd. by inversion Hnd. }
    assert (forall l (W : jobs_view), a ∉ l -> delete_all l W !! a = W !! a) as Hda.
    { intros l. induction l as [|c l IH]; intros W Hnin; [done|]. apply not_elem_of_cons in Hnin as [Hac Hnin].
      cbn. rewrite IH by done. apply lookup_delete_ne. congruence. }
    assert (view s3 !! a = Some (Some q, m_pjParent j, d)) as Hva3 by (rewrite Hv3, Hda; done).
    pose proof Hva3 as (j3 & Hj3 & Hvj3)%view_lookup. injection Hvj3 as Hq3 Hp3 Hd3.
    assert (queued_in s3 q = []) as Hl3 by (unfold queued_in, queue; rewrite Lq; cbn; by rewrite lookup_insert_eq).
    destruct (not_in_queues _ s3 a j3 HI3 Hj3) as [ND3 NQ3]; [by rewrite Hq3|].
    exists G3, D3. cbn [fst snd]. split; [done|]. split; [by rewrite HG3, A1|]. split; [by eexists|].
    split; [cbn in *; congruence|]. split; [cbn in *; congruence|]. split; [cbn in *; congruence|].
    split; [intros x; rewrite Hva3; by intros [= <-]|].
    split; [cbn in A2; lia|]. split; [done|]. split; [done|].
    unfold abs. rewrite Lq, Le, Hv3. cbn [m_queues put_queue set_queues m_engine]. rewrite Kq, Ke.
    rewrite HV.
    assert (delete a (delete_all rest (<[a := (Some q, m_pjParent j, d)]> (view s))) = delete a (delete_all rest (view s))) as ->.
    { clear. generalize (view s) as W. induction rest as [|c l IH]; intros W; cbn; [apply delete_insert_eq|].
      destruct (decide (a = c)) as [<-|Hac]; [by rewrite delete_insert_eq|]. by rewrite delete_insert_ne, IH. }
    rewrite Hqs. eapply (js_main_done a (view s) (m_queues s) (m_engine s) q _ _ (m_queues s1)); [exact Hvs|exact Hent|exact Hex|exact Hl].
  - destruct (inv_jobs _ _ HI2 a j2 Hj2) as (_ & _ & HR). unfold held, quref in HR. gsimp.
    cbn [with_par held_ghost g_hand g_que g_par] in HR. rewrite lookup_singleton_eq in HR. cbn [h_refs] in HR.
    rewrite (UlpDecrRefs_ret s2 a j2 Hj2) by (destruct (bool_decide (a ∈ D)); lia). cbn [mbind outcome_bind].
    apply returns_ret. exists G2, D. cbn [fst snd]. split; [|split; [by rewrite A1|split; [|split; [cbn in *; congruence|split; [cbn in *; congruence|split; [cbn in *; congruence|split]]]]]].
    + eapply (inv_dec _ s2 a j2) in HI2; [|done|apply lookup_singleton_eq|destruct (bool_decide (a ∈ D)); lia].
      eapply inv_ghost_eq; [exact HI2|]. unfold with_hand, with_par, held_ghost. gsimp. by rewrite insert_singleton_eq.
    + eexists. apply lookup_put_same.
    + intros x. rewrite (view_put s2 a j2) by done. rewrite Hva. by intros [= <-].
    + unfold abs. rewrite (view_put s2 a j2) by done. cbn [m_queues put_job set_jobs m_engine]. rewrite Kq, Ke.
      eapply js_more; [exact Hvs|exact Hent|exact Hex|exact Hsp].
Qed.

Lemma FExecute_spec G D s a j :
  inv (held_ghost a 1 G D) s -> m_jobs s !! a = Some j -> nch G a = 0 -> a ∉ D -> G !! a = m_pjParent j ->
  returns (FExecute s a) (executed a j s).
Proof.
  intros HI Ha Hnch HD HG. destruct (m_pjq j) as [q|] eqn:Hq; [|by eapply FExecute_plain].
  unfold FExecute. rewrite (job_some s a j Ha). cbn [mbind outcome_bind]. rewrite Hq.
  assert (view s !! a = Some (Some q, m_pjParent j, m_data j)) as Hvs by (rewrite (view_some s a j Ha); by rewrite Hq).
  eapply returns_bind; [by eapply (EjqrAdd_spec _ s q a j)|].
  intros [[] s1] (Hv1 & Hf1 & Hcase); cbn [fst snd] in *.
  - destruct Hcase as (HI1 & Hent & Hc1 & rest & Hl1). by eapply FExecute_main.
  - destruct Hcase as (HI1 & Hc & (m & l & Hl & Hma) & Hnin & Hqs). apply returns_ret.
    destruct Hf1 as [_ Fe Fr Ft Fn]. exists G, ({[a]} ∪ D). cbn [fst snd].
    split; [done|]. split; [done|]. split; [eapply view_live; [done|by eexists]|].
    split; [done|]. split; [done|]. split; [done|].
    split; [intros x; rewrite Hv1, Hvs; by intros [= <-]|].
    unfold abs. rewrite Hv1, Hqs, Fe. by eapply js_queued.
  - destruct Hcase as (-> & Hc). apply returns_ret.
    destruct (not_in_queues _ s a j HI Ha) as [ND NQ].
    { rewrite Hq. by apply (proj1 (inv_queue _ _ HI)). }
    exists G, D. cbn [fst snd]. split; [done|]. split; [done|]. split; [by eexists|].
    split; [done|]. split; [done|]. split; [done|].
    split; [intros x; rewrite Hvs; by intros [= <-]|].
    split; [done|]. split; [done|]. split; [done|]. by eapply js_skip.
Qed.

(** ** After the execution *)

(** Between two iterations nothing is in hand and nothing runs. *)
Definition idle s : Prop := exists G D, inv (mkGhost ∅ G D 0 None) s /\
  m_listjRunning s = [] /\ m_ulpRunning (m_cnt s) = 0%N.

(** The holder gives up its last reference and the running counter. *)
Lemma EjrPostExecute_spec G D s a j b :
  inv (held_ghost a 1 G D) s -> m_jobs s !! a = Some j -> m_ulpRunning (m_cnt s) = 1%N ->
  (b = true -> nch G a = 0 /\ a ∉ D) ->
  returns (EjrPostExecute s a b) (fun r =>
    inv (held_ghost a 0 G D) r.2 /\ m_jobs r.2 = <[a := with_refs j (m_ulpRefs j - 1)]> (m_jobs s) /\
    m_queues r.2 = m_queues s /\ m_engine r.2 = m_engine s /\ m_listjRunning r.2 = m_listjRunning s /\
    m_fTrackingJobs r.2 = m_fTrackingJobs s /\ m_ulpRunning (m_cnt r.2) = 0%N /\
    match r.1 with
    | EjrCompleted => b = true /\ m_ulpRefs j = 1%N
    | EjrRunnable => b = false /\ m_ulpRefs j = 1%N
    | EjrSuspended => b = false /\ m_ulpRefs j <> 1%N
    end).
Proof.
  intros HI Ha Hrun Hb. destruct (inv_jobs _ _ HI a j Ha) as (_ & _ & HR). unfold held, quref in HR.
  cbn [held_ghost g_hand g_que g_par] in HR. rewrite lookup_singleton_eq in HR. cbn [h_refs] in HR.
  assert (0 < m_ulpRefs j)%N as Hpos by (destruct (bool_decide (a ∈ D)); lia).
  unfold EjrPostExecute. rewrite (job_some s a j Ha). cbn [mbind outcome_bind].
  rewrite bind_assert by (by apply N.ltb_lt). rewrite (UlpDecrRefs_ret s a j Ha Hpos). cbn [mbind outcome_bind].
  set (s1 := put_job s a _). set (s2 := set_cnt s1 _).
  assert (inv (held_ghost a 0 G D) s2) as HI2.
  { apply inv_cnt; [|done|done]. eapply (inv_dec _ s a j) in HI; [|done|apply lookup_singleton_eq|done].
    eapply inv_ghost_eq; [exact HI|]. unfold with_hand, held_ghost. gsimp. by rewrite insert_singleton_eq. }
  assert (m_ulpRunning (m_cnt s2) = 0%N) as Hr2 by (cbn; by rewrite Hrun).
  destruct b.
  - destruct (Hb eq_refl) as [Hn HD]. rewrite bool_decide_eq_false_2 in HR by done.
    assert (m_ulpRefs j = 1%N) as Hr1 by lia. rewrite bind_assert by (by rewrite Hr1).
    apply returns_ret. cbn [fst snd]. done.
  - destruct (N.eqb_spec (m_ulpRefs j) 1) as [Hr1|Hr1]; apply returns_ret; cbn [fst snd]; done.
Qed.

(** A job that is not completed waits again. *)
Lemma Suspend_spec G D s a j :
  inv (held_ghost a 0 G D) s -> m_jobs s !! a = Some j -> m_ulpRefs j <> 0%N -> G !! a = m_pjParent j ->
  returns (Suspend s a) (does (mkGhost ∅ G D 0 None) s).
Proof.
  intros HI Ha Hr HG. unfold Suspend.
  destruct (track_spec s a j [EjsRunning] EjsSuspended Ha) as (e & -> & He).
  { intros Htr. destruct (inv_track _ _ HI Htr) as (T1 & _). specialize (T1 a j Ha).
    cbn [held_ghost g_hand] in T1. rewrite lookup_singleton_eq in T1. cbn in T1. rewrite T1. set_solver. }
  cbn [mbind outcome_bind]. apply returns_ret.
  assert (a ∉ waiting s) as Hw.
  { intros Hw. destruct (proj1 (proj2 (inv_wait _ _ HI)) a Hw) as [_ Hn]. cbn in Hn. by rewrite lookup_singleton_eq in Hn. }
  eapply (inv_put _ s a j (with_ejs j e) _ (mkHold EjsSuspended false 0)) in HI;
    [|done|apply lookup_singleton_eq|done|done|done|by left|cbn; lia|done|done].
  set (s1 := put_job s a _) in *.
  set (l := if m_fTrackingJobs s1 then m_listjSuspended s1 ++ [a] else m_listjSuspended s1).
  assert ((if m_fTrackingJobs s1 then set_suspended s1 (m_listjSuspended s1 ++ [a]) else s1) = set_suspended s1 l) as ->.
  { subst l. destruct (m_fTrackingJobs s1); [done|]. by destruct s1. }
  pose proof HI as HI0.
  eapply (inv_susp _ s1 a _ true l) in HI; [|gsimp; apply lookup_insert_eq|].
  2:{ intros Htr. subst l. rewrite Htr. destruct (inv_track _ _ HI Htr) as (T1 & T2 & T3).
      cbn [with_hand g_hand] in T3.
      assert (a ∉ m_listjSuspended s1) as Hns by (rewrite T3, lookup_insert_eq; cbn; naive_solver). split.
      - apply NoDup_app. split; [done|]. split; [|apply NoDup_singleton]. intros x Hx ->%list_elem_of_singleton. done.
      - intros b. rewrite elem_of_app, list_elem_of_singleton. destruct (decide (b = a)); naive_solver. }
  eapply (inv_drop _ _ a (with_ejs j e)) in HI; [|gsimp; apply lookup_insert_eq|apply lookup_put_same|done|done].
  split; [|split; [by apply (view_put s a j)|done]]. apply inv_cnt; [|done|done].
  eapply inv_ghost_eq; [exact HI|]. unfold with_hand, held_ghost. gsimp. f_equal.
  rewrite insert_insert_eq, insert_singleton_eq. apply delete_singleton_eq.
Qed.

(** ** One iteration of the loop *)

(** The job at the head of the list, taken out of it *)
Record retrieved a s s1 : Prop := {
  rt_abs : abs s1 = abs s;
  rt_running : m_listjRunning s1 = if m_fTrackingJobs s1 then [a] else [];
  rt_nrun : m_ulpRunning (m_cnt s1) = 0%N;
  rt_ghost : exists G D j, inv (held_ghost a 0 G D) s1 /\ m_jobs s1 !! a = Some j /\ m_ulpRefs j = 0%N /\
    G !! a = m_pjParent j;
}.

Lemma PjRetrieve_spec s :
  idle s ->
  returns (PjRetrieve s) (fun r =>
    match m_listjlWaiting s with
    | [] => r.1 = None /\ idle r.2 /\ abs r.2 = abs s /\ m_listjlWaiting r.2 = []
    | l :: _ => r.1 = Some (link_pj l) /\ retrieved (link_pj l) s r.2
    end).
Proof.
  intros (G & D & HI & Hrun & Hnr). unfold PjRetrieve. cbn [m_listjlWaiting set_cnt].
  set (s0 := set_cnt s _). assert (inv (mkGhost ∅ G D 0 None) s0) as HI0 by (by apply inv_cnt).
  destruct (m_listjlWaiting s) as [|l rest] eqn:Hl.
  - apply returns_ret. cbn [fst snd]. split; [done|]. split; [|done]. by exists G, D.
  - set (a := link_pj l).
    destruct (inv_wait _ _ HI) as (W1 & W2 & W3 & _).
    assert (a ∈ waiting s) as Haw by (unfold waiting; rewrite Hl; by left).
    destruct (W2 a Haw) as [[j Hj] Hn]. pose proof (proj1 (W3 a j Hj Hn) Haw) as Hr.
    rewrite (no_refs_ret s0 a j Hj Hr). cbn [mbind outcome_bind].
    destruct (inv_links _ _ HI) as (L1 & L2 & L3).
    pose proof (recycle_law (m_spjl s) (link_obj l) L1) as HR.
    destruct HR as (pool & Hpool & Hpi & Hus).
    { rewrite L3, Hl. apply bool_decide_eq_true_2. by left. }
    cbn [set_cnt m_spjl]. subst s0. cbn [set_cnt m_spjl]. rewrite Hpool. cbn [mbind outcome_bind].
    set (s1 := set_waiting _ rest pool).
    assert (inv (mkGhost {[a := mkHold EjsWaiting false 0]} G D 0 None) s1) as HI1.
    { eapply inv_ghost_eq; [eapply (inv_pop _ _ l rest pool (bump_dequeued (bump_depth (m_cnt s)))); [exact HI0|exact Hl|exact Hpi|exact Hus|done|done]|].
      done. }
    assert (m_jobs s1 !! a = Some j) as Hj1 by done.
    destruct (track_spec s1 a j [EjsWaiting] EjsRunning Hj1) as (e & -> & He).
    { intros Htr. destruct (inv_track _ _ HI1 Htr) as (T1 & _). specialize (T1 a j Hj1). cbn [g_hand] in T1.
      rewrite lookup_singleton_eq in T1. cbn in T1. rewrite T1. set_solver. }
    cbn [mbind outcome_bind]. apply returns_ret. cbn [fst snd]. split; [done|].
    eapply (inv_put _ s1 a j (with_ejs j e) _ (mkHold EjsRunning false 0)) in HI1;
      [|done|apply lookup_singleton_eq|done|done|done|by left|cbn; lia|done|done].
    set (s2 := put_job s1 a _) in *.
    assert (view s2 = view s) as Hv by (by apply (view_put s1 a j)).
    split.
    + unfold abs. destruct (m_fTrackingJobs s2); f_equal; f_equal; exact Hv.
    + destruct (m_fTrackingJobs s2) eqn:Htr; cbn; [|change (m_fTrackingJobs s2) with (m_fTrackingJobs s) in *]; rewrite ?Hrun.
      * change (m_fTrackingJobs s2) with (m_fTrackingJobs s) in Htr. by rewrite Htr.
      * by rewrite Htr.
    + by destruct (m_fTrackingJobs s2).
    + exists G, D, (with_ejs j e).
      assert (inv (held_ghost a 0 G D) s2) as HI2.
      { eapply inv_ghost_eq; [exact HI1|]. unfold with_hand, held_ghost. gsimp. by rewrite insert_singleton_eq. }
      split; [destruct (m_fTrackingJobs s2); destruct HI2; by split|].
      split; [destruct (m_fTrackingJobs s2); apply lookup_put_same|]. split; [done|].
      exact (proj2 (inv_par _ _ HI) a j Hj Hn).
Qed.

Lemma PreExecute_spec G D s a j :
  inv (held_ghost a 0 G D) s -> m_jobs s !! a = Some j -> m_ulpRefs j = 0%N ->
  let s1 := put_job (set_cnt s (set_nrunning (m_cnt s) (m_ulpRunning (m_cnt s) + 1))) a (with_refs j 1) in
  PreExecute s a = Ret s1 /\ inv (held_ghost a 1 G D) s1.
Proof.
  intros HI Ha Hr s1. unfold PreExecute. rewrite (no_refs_ret s a j Ha Hr). cbn [mbind outcome_bind].
  rewrite (IncRefs_ret _ a j) by done. rewrite Hr. split; [done|].
  assert (inv (held_ghost a 0 G D) (set_cnt s (set_nrunning (m_cnt s) (m_ulpRunning (m_cnt s) + 1)))) as HI1 by (by apply inv_cnt).
  eapply (inv_inc _ _ a j) in HI1; [|done|apply lookup_singleton_eq]. rewrite Hr in HI1.
  eapply inv_ghost_eq; [exact HI1|]. unfold with_hand, held_ghost. gsimp. by rewrite insert_singleton_eq.
Qed.

(** The job completed, resumed or suspended *)
Lemma finish_spec G D s a j (b : bool) s0 :
  inv (held_ghost a 1 G D) s -> m_jobs s !! a = Some j -> G !! a = m_pjParent j ->
  m_listjRunning s = [] -> m_ulpRunning (m_cnt s) = 1%N ->
  (if b then nch G a = 0 /\ (a ∉ D) /\ (forall q, a ∉ queued_in s q) /\
             job_step a (abs s0) (delete a (view s), m_queues s, m_engine s)
   else job_step a (abs s0) (abs s)) ->
  returns ('(result, s) ← EjrPostExecute s a b;
           match result with
           | EjrCompleted => (s ← Complete s a; Release s a)
           | EjrRunnable => Resume s a
           | EjrSuspended => Suspend s a
           end)
    (fun s' => idle s' /\ job_step a (abs s0) (abs s')).
Proof.
  intros HI Ha HG Hrun Hnr Hstep.
  assert (b = true -> nch G a = 0 /\ a ∉ D) as Hb by (destruct b; naive_solver).
  eapply returns_bind; [by eapply (EjrPostExecute_spec G D s a j b)|].
  intros [r s1] (HI1 & Hj1 & Hq1 & He1 & Hr1 & Ht1 & Hn1 & Hcase). cbn [fst snd] in *.
  assert (m_jobs s1 !! a = Some (with_refs j (m_ulpRefs j - 1))) as Ha1 by (rewrite Hj1; apply lookup_insert_eq).
  assert (view s1 = view s) as Hv1.
  { unfold view. rewrite Hj1, fmap_insert. apply insert_id. by rewrite lookup_fmap, Ha. }
  rewrite <- Hr1 in Hrun.
  destruct r; destruct Hcase as [-> Hrefs].
  - eapply returns_mono; [eapply (Resume_spec _ s1 a); [exact HI1|exact Ha1|apply lookup_singleton_eq|cbn; lia|done|done|gsimp; set_solver|done]|].
    intros s' (HI' & Hv' & [Fq Fe Fr Ft Fn]). split.
    + exists G, D. split; [|split; congruence]. eapply inv_ghost_eq; [exact HI'|].
      unfold with_hand, held_ghost. gsimp. f_equal. apply delete_singleton_eq.
    + unfold abs. rewrite Hv', Hv1, Fq, Fe, Hq1, He1. exact Hstep.
  - assert (0 < m_ulpRefs j)%N.
    { destruct (inv_jobs _ _ HI a j Ha) as (_ & _ & HR). unfold held, quref in HR. cbn [held_ghost g_hand g_que g_par] in HR.
      rewrite lookup_singleton_eq in HR. cbn [h_refs] in HR. destruct (bool_decide (a ∈ D)); lia. }
    eapply returns_mono; [eapply (Suspend_spec G D s1 a); [exact HI1|exact Ha1|cbn; lia|done]|].
    intros s' (HI' & Hv' & [Fq Fe Fr Ft Fn]). split.
    + exists G, D. split; [done|split; congruence].
    + unfold abs. rewrite Hv', Hv1, Fq, Fe, Hq1, He1. exact Hstep.
  - destruct Hstep as (Hnch & HD & Hnq & Hstep).
    assert (completable (held_ghost a 0 G D) s1 a (with_refs j (m_ulpRefs j - 1)) (mkHold EjsRunning false 0)) as HC.
    { split; try done.
      - cbn. lia.
      - apply lookup_singleton_eq.
      - intros c h Hc Hne. cbn [held_ghost g_hand] in Hc. by apply lookup_singleton_Some in Hc as [<- _].
      - intros q. specialize (Hnq q). unfold queued_in, queue in *. by rewrite Hq1. }
    eapply returns_bind; [by eapply Complete_spec|].
    intros s2 Hd. eapply returns_mono; [by eapply retire_spec|].
    intros s' (HI' & Hv' & [Fq Fe Fr Ft Fn]). split.
    + exists (delete a G), D. split; [|split; congruence]. eapply inv_ghost_eq; [exact HI'|].
      unfold held_ghost. gsimp. f_equal. apply delete_singleton_eq.
    + unfold abs. rewrite Hv', Hv1, Fq, Fe, Hq1, He1. exact Hstep.
Qed.

(** One execution of a retrieved job is a step of the abstract scheduler. *)
Lemma ExecuteJob_spec s s1 a :
  retrieved a s s1 -> returns (ExecuteJob s1 a) (fun s' => idle s' /\ job_step a (abs s) (abs s')).
Proof.
  intros [Habs Hrun Hnr (G & D & j & HI & Ha & Hr & HG)]. rewrite <- Habs.
  destruct (no_refs_facts _ s1 a j (mkHold EjsRunning false 0) HI Ha) as [Hnch HD];
    [apply lookup_singleton_eq|cbn; lia|]. cbn [held_ghost g_par g_que] in Hnch, HD.
  unfold ExecuteJob. destruct (PreExecute_spec G D s1 a j HI Ha Hr) as [-> HI2]. cbn [mbind outcome_bind].
  set (s2 := put_job _ a _) in *.
  assert (abs s2 = abs s1) as Habs2.
  { unfold abs. f_equal. f_equal. subst s2. by rewrite (view_put _ a j). }
  assert (m_jobs s2 !! a = Some (with_refs j 1)) as Ha2 by apply lookup_put_same.
  eapply returns_bind; [by eapply (FExecute_spec G D s2 a (with_refs j 1))|].
  intros [b s3] (G3 & D3 & HI3 & HG3 & [j3 Hj3] & Fr & Ft & Fn & Hpar & Hstep). cbn [fst snd] in *.
  assert (m_listjRunning s3 = if m_fTrackingJobs s3 then [a] else []) as Hr3 by (rewrite Fr, Ft; exact Hrun).
  set (s4 := set_running s3 []).
  assert ((if m_fTrackingJobs s3 then set_running s3 <$> CList_Remove (m_listjRunning s3) a else mret s3) = Ret s4) as ->.
  { subst s4. destruct (m_fTrackingJobs s3) eqn:Htr3.
    - rewrite Hr3. cbn. by rewrite bool_decide_eq_true_2.
    - unfold mret, outcome_ret. f_equal. clear - Hr3. unfold set_running. rewrite <- Hr3. by destruct s3. }
  cbn [mbind outcome_bind]. rewrite <- Habs2.
  eapply (finish_spec G3 D3 s4 a j3).
  - destruct HI3; by split.
  - done.
  - rewrite HG3. symmetry. exact (Hpar _ (view_some s3 a j3 Hj3)).
  - done.
  - cbn. rewrite Fn. cbn. by rewrite Hnr.
  - exact Hstep.
Qed.

(** ** The abstract and the concrete scheduler agree on what can run *)

(** A job waits for nothing: no live child, and it is not queued behind another
    job. *)
Definition ready (A : abs_state) a : Prop :=
  is_Some (A.1.1 !! a) /\ (forall c x, A.1.1 !! c = Some x -> x.1.2 <> Some a) /\
  (forall q, a ∉ tail (m_listjQueued (qof A.1.2 q))).

Lemma idle_waiting s a : idle s -> (a ∈ waiting s <-> ready (abs s) a).
Proof.
  intros (G & D & HI & _ & _). destruct (inv_wait _ _ HI) as (W1 & W2 & W3 & W4).
  destruct (inv_par _ _ HI) as (P1 & P2). destruct (inv_queue _ _ HI) as (_ & _ & _ & _ & Q5 & _).
  cbn [g_hand g_par g_que] in *.
  assert (forall j, m_jobs s !! a = Some j ->
    (m_ulpRefs j = 0%N <-> (forall c x, view s !! c = Some x -> x.1.2 <> Some a) /\
      forall q, a ∉ tail (queued_in s q))) as Hrefs.
  { intros j Hj. destruct (inv_jobs _ _ HI a j Hj) as (_ & _ & HR). unfold held, quref in HR.
    cbn [g_hand g_par g_que] in HR. rewrite lookup_empty in HR. split.
    - intros H0. rewrite H0 in HR. case_bool_decide as HD; [lia|]. split.
      + intros c x (jc & Hjc & <-)%view_lookup Hx. cbn in Hx.
        rewrite <- (P2 c jc Hjc) in Hx by apply lookup_empty. pose proof (nch_child _ _ _ Hx). lia.
      + intros q Hq. apply HD, Q5. exists q. by rewrite waits_none.
    - intros [Hc Hq]. rewrite bool_decide_eq_false_2 in HR.
      + destruct (nch G a) as [|n] eqn:Hn; [lia|]. destruct (nch_pos G a) as [c Hca]; [lia|].
        destruct (P1 c a Hca) as (_ & jc & Hjc & Hp). by destruct (Hc c _ (view_some s c jc Hjc)).
      + intros (q & Hin)%Q5. rewrite waits_none in Hin by done. by apply (Hq q). }
  split.
  - intros Hw. destruct (W2 a Hw) as [[j Hj] Hn]. apply (W3 a j Hj Hn), (Hrefs j Hj) in Hw as [H1 H2].
    split; [|done]. cbn. eexists. by apply view_some.
  - intros ([x Hx] & H1 & H2). apply view_lookup in Hx as (j & Hj & _).
    apply (W3 a j Hj (lookup_empty _)). by apply (Hrefs j Hj).
Qed.

(** ** The loop *)

(** A step of some job that is ready *)
Definition sched_step (A B : abs_state) : Prop := exists a, ready A a /\ job_step a A B.

Lemma iterate s :
  idle s ->
  returns (PjRetrieve s) (fun r =>
    match r.1 with
    | None => idle r.2 /\ abs r.2 = abs s /\ waiting r.2 = []
    | Some a => returns (ExecuteJob r.2 a) (fun s' => idle s' /\ ready (abs s) a /\ job_step a (abs s) (abs s'))
    end).
Proof.
  intros Hi. eapply returns_mono; [by apply PjRetrieve_spec|]. intros [o s1]. cbn [fst snd].
  destruct (m_listjlWaiting s) as [|l rest] eqn:Hl.
  - intros (-> & Hi1 & Ha1 & Hw1). split; [done|]. split; [done|]. unfold waiting. by rewrite Hw1.
  - intros (-> & Hr). eapply returns_mono; [by eapply ExecuteJob_spec|]. intros s' [Hi' Hs'].
    split; [done|]. split; [|done]. apply idle_waiting; [done|]. unfold waiting. rewrite Hl. by left.
Qed.

(** Every run of the scheduler is a run of the abstract scheduler; the only fault
    of the model is to run out of fuel. *)
Lemma ExecuteJobs_refines n s :
  idle s ->
  match ExecuteJobs n s with
  | Ret s' => idle s' /\ rtc sched_step (abs s) (abs s') /\ waiting s' = []
  | Abort f => f = FFuel
  end.
Proof.
  revert s. induction n as [|n IH]; intros s Hi; destruct (iterate s Hi) as ([o s1] & Hp & Hcase);
    cbn [ExecuteJobs]; rewrite Hp; cbn [mbind outcome_bind mret outcome_ret fst snd] in *; destruct o as [a|].
  - done.
  - destruct Hcase as (Hi1 & Ha1 & Hw).
    change (idle s1 /\ rtc sched_step (abs s) (abs s1) /\ waiting s1 = []). by rewrite Ha1.
  - destruct Hcase as (s' & -> & Hi' & Hr & Hs). cbn [mbind outcome_bind].
    specialize (IH s' Hi'). destruct (ExecuteJobs n s') as [s''|]; [|done].
    destruct IH as (Hi'' & Hst & Hw). split; [done|]. split; [|done]. eapply rtc_l; [|exact Hst]. by exists a.
  - destruct Hcase as (Hi1 & Ha1 & Hw).
    change (idle s1 /\ rtc sched_step (abs s) (abs s1) /\ waiting s1 = []). by rewrite Ha1.
Qed.

Lemma ctor_idle e ulJobs tr : (ulJobs < 2 ^ 31)%N -> idle (CScheduler_ctor (J := J) e ulJobs tr).
Proof.
  intros Hu. pose proof (new_law ulJobs Hu) as [N1 N2]. exists ∅, ∅. split; [|done]. split.
  - split; [done|]. split; [apply NoDup_nil_2|]. intros x. cbn. by rewrite N2.
  - split; [done|]. split; [done|]. intros t o. cbn. rewrite lookup_empty. split; [by intros []|].
    intros (x & Hx & _). by rewrite lookup_empty in Hx.
  - intros a j Ha. cbn in Ha. by rewrite lookup_empty in Ha.
  - split; [apply NoDup_nil_2|]. split; [intros a Ha; by apply not_elem_of_nil in Ha|]. split.
    + intros a j Ha. cbn in Ha. by rewrite lookup_empty in Ha.
    + intros a [h Ha]. cbn in Ha. by rewrite lookup_empty in Ha.
  - split; intros c p Hc; cbn in Hc; by rewrite lookup_empty in Hc.
  - assert (forall q, queue (CScheduler_ctor (J := J) e ulJobs tr) q = CJobQueue_ctor) as Hq
      by (intros q; unfold queue; cbn; by rewrite lookup_empty).
    unfold I_queue, waits_in, queued_in. cbn [g_note g_que g_par]. setoid_rewrite Hq.
    split; [done|]. split; [done|]. split; [intros q; apply NoDup_nil_2|]. split; [intros q a Ha; by apply not_elem_of_nil in Ha|].
    split; [|intros a Ha; by apply not_elem_of_empty in Ha].
    intros a. split; [intros Ha; by apply not_elem_of_empty in Ha|].
    intros (q & Ha). case_bool_decide; cbn in Ha; by apply not_elem_of_nil in Ha.
  - intros _. split; [intros a j Ha; cbn in Ha; by rewrite lookup_empty in Ha|]. split; [apply NoDup_nil_2|].
    intros a. cbn. rewrite lookup_empty. split; [intros Ha; by apply not_elem_of_nil in Ha|by intros [[] _]].
  - done.
Qed.

(** A job created and released at once leaves only a pool behind. *)
Lemma warm_up_idle s d t :
  idle s -> returns (warm_up s d t) (fun s' => idle s' /\ abs s' = abs s).
Proof.
  intros (G & D & HI & Hr & Hn). unfold warm_up, PjCreate. set (pspt := default _ _).
  destruct (inv_factory _ _ HI) as (F1 & F2 & F3). pose proof (new_law (m_ulJobs s) F1) as [HN1 HN2].
  assert (pool_inv pspt) as Hpi.
  { subst pspt. destruct (m_pools s !! t) eqn:Hp; [by eapply F2|done]. }
  assert (forall o, is_Some (m_jobs s !! (t, o)) <-> used pspt o = true) as Hlive.
  { intros o. rewrite F3. subst pspt. destruct (m_pools s !! t) as [x|]; cbn; [|rewrite HN2]; naive_solver. }
  pose proof (retrieve_law pspt Hpi) as ([pool o] & -> & Hpi' & Huo & Hus). cbn [mbind outcome_bind mret outcome_ret fst snd] in *.
  unfold Release. rewrite (job_some _ (t, o) _ (lookup_put_same _ (t, o) _)). cbn [mbind outcome_bind m_ejt put_job set_jobs set_pools m_pools].
  rewrite lookup_insert_eq. pose proof (recycle_law pool o Hpi') as HR.
  destruct HR as (pool' & Hrec & Hpi2 & Hus2); [rewrite Hus, (bool_decide_eq_true_2 (o = o)) by done; apply orb_true_r|].
  cbn [snd]. rewrite Hrec. cbn [mbind outcome_bind]. apply returns_ret.
  assert (m_jobs s !! (t, o) = None) as Hnone.
  { destruct (m_jobs s !! (t, o)) eqn:Hj; [|done]. assert (used pspt o = true) by (apply Hlive; by eexists). congruence. }
  unfold set_jobs, set_pools. cbn. rewrite delete_insert_id, insert_insert_eq by done.
  split; [|done]. exists G, D. split; [|done]. destruct HI as [L F Jb W Pa Q T C]. split; try done.
  split; [done|]. split.
  - intros t' x. cbn [m_pools]. intros [[<- <-]|[Ht Hx]]%lookup_insert_Some; [done|by eapply F2].
  - intros t' o'. cbn. destruct (decide (t = t')) as [<-|Ht]; [|rewrite lookup_insert_ne by done; apply F3].
    rewrite lookup_insert_eq, Hlive. split.
    + intros Hu. exists pool'. split; [done|]. rewrite Hus2, Hus, Hu. cbn.
      rewrite bool_decide_eq_false_2; [done|]. intros ->. congruence.
    + intros (x & [= <-] & Hu). rewrite Hus2, Hus in Hu. by destruct (used pspt o'), (bool_decide (o' = o)).
Qed.

Lemma CJobFactory_ctor_idle s d :
  idle s -> returns (CJobFactory_ctor s d) (fun s' => idle s' /\ abs s' = abs s).
Proof.
  intros Hi. unfold CJobFactory_ctor.
  eapply returns_bind; [by apply warm_up_idle|]. intros s1 [H1 A1].
  eapply returns_bind; [by apply warm_up_idle|]. intros s2 [H2 A2].
  eapply returns_mono; [by apply warm_up_idle|]. intros s3 [H3 A3]. split; [done|congruence].
Qed.

Lemma root_idle s x :
  idle s -> returns (ScheduleJob s x None) (fun r =>
    idle r.2 /\ view s !! r.1 = None /\
    abs r.2 = (<[r.1 := view_spawn x None]> (view s), m_queues s, m_engine s)).
Proof.
  intros (G & D & HI & Hr & Hn). eapply returns_mono; [by apply ScheduleJob_root_spec|].
  intros [a s1] (Ha & HI1 & Hv1 & [Fq Fe Fr Ft Fn]). cbn [fst snd] in *. split; [|split].
  - exists G, D. split; [done|]. split; congruence.
  - by apply view_none.
  - unfold abs. by rewrite Hv1, Fq, Fe.
Qed.
End Run.
End SchedulerRun.
