(* ===== verification/SchedulerLive.v ===== *)
(** * All jobs are completed

    Jobs with a bounded amount of work, and a rank that falls from parent to child
    and that the jobs of a queue share, never wait in a circle: as long as there
    is a job, one is ready, and every step lowers a measure. *)
From stdpp Require Import base numbers list gmap.
From S2P Require Import Prelude SyncPool Scheduler SchedulerInv SchedulerSpec SchedulerRun.

Module SchedulerLive.
Import SyncPool Scheduler SchedulerInv SchedulerSpec SchedulerRun.
Open Scope nat_scope.

(** The work left to a job: what it keeps and what its children get is less. *)
Class JobWork (E J : Type) `{JobClass E J} := {
  work : J -> nat;
  work_law e d e' d' xs : job_FExecute e d = (e', d', xs, false) ->
    work d' + sum_list (map (fun x => S (work (sp_data x))) xs) < work d;
}.

(** The order in which jobs may wait: a job waits for its children, and for the
    main job of its queue. *)
Class JobRank (E J : Type) `{JobClass E J} := {
  rank : J -> nat;
  qrank : N -> nat;
  rank_keep e d e' d' xs b : job_FExecute e d = (e', d', xs, b) -> rank d' = rank d;
  rank_child e d e' d' xs b x : job_FExecute e d = (e', d', xs, b) -> x ∈ xs ->
    rank (sp_data x) < rank d /\ forall q, sp_queue x = Some q -> qrank q = rank (sp_data x);
}.

Section Live.
Context {P Ob : Type} `{CO : Countable Ob} `{PO : Pool P Ob} `{PL : !PoolLaws P Ob}.
Context {E J : Type} `{JC : JobClass E J} `{JL : !JobLaws E J} `{JW : !JobWork E J} `{JR : !JobRank E J}.
Abbreviation ptr := (jptr Ob).
Abbreviation st := (state P Ob E J).
Abbreviation jobs_view := (gmap ptr (option N * option ptr * J)).
Abbreviation queue_map := (gmap N (CJobQueue Ob)).
Abbreviation abs_state := (abs_state (Ob := Ob) (E := E) (J := J)).
Implicit Types (s : st) (a b c p : ptr) (V : jobs_view) (Q : queue_map) (A B : abs_state).

(** ** Ranks *)

Definition ranked A : Prop := forall a oq par d, A.1.1 !! a = Some (oq, par, d) ->
  (forall p oq' par' d', par = Some p -> A.1.1 !! p = Some (oq', par', d') -> rank d < rank d') /\
  (forall q, oq = Some q -> qrank q = rank d).

Lemma ranked_sub V V' Q Q' e e' :
  ranked (V, Q, e) -> (forall a x, V' !! a = Some x -> V !! a = Some x) -> ranked (V', Q', e').
Proof.
  intros HR Hsub a oq par d Ha. destruct (HR a oq par d (Hsub _ _ Ha)) as [H1 H2].
  split; [|done]. intros p oq' par' d' Hp Hp'. eapply H1; [done|]. by apply Hsub.
Qed.

Lemma ranked_spawned a xs V V' oq par d Q e :
  spawned a xs V V' -> V !! a = Some (oq, par, d) -> ranked (V, Q, e) ->
  (forall x, x ∈ xs -> rank (sp_data x) < rank d /\ forall q, sp_queue x = Some q -> qrank q = rank (sp_data x)) ->
  (forall b oq' p' d', V !! b = Some (oq', Some p', d') -> is_Some (V !! p')) ->
  ranked (V', Q, e).
Proof.
  intros Hsp. revert Q e. induction Hsp as [|x xs c V V' Hc _ IH]; intros Q e Ha HR Hx Hpar; [done|].
  assert (a <> c) as Hac by congruence.
  apply IH; [by rewrite lookup_insert_ne| |intros y Hy; apply Hx; by right|].
  - intros b oqb parb db. cbn [fst snd]. destruct (decide (c = b)) as [<-|Hcb].
    + rewrite lookup_insert_eq. intros [= <- <- <-]. destruct (Hx x) as [Hr Hq]; [by left|]. split; [|done].
      intros p oq' par' d' [= <-]. rewrite lookup_insert_ne by done. cbn in *. rewrite Ha. by intros [= <- <- <-].
    + rewrite lookup_insert_ne by done. intros Hb. destruct (HR b oqb parb db Hb) as [H1 H2]. split; [|done].
      intros p oq' par' d' -> Hp. cbn [fst snd] in *. destruct (Hpar b oqb p db Hb) as [y Hy].
      rewrite lookup_insert_ne in Hp by congruence. by eapply H1.
  - intros b oq' p' d'. destruct (decide (c = b)) as [<-|Hcb].
    + rewrite lookup_insert_eq. intros [= <- <- <-]. rewrite lookup_insert_ne by done. by eexists.
    + rewrite lookup_insert_ne by done. intros Hb. destruct (Hpar b oq' p' d' Hb) as [y Hy].
      rewrite lookup_insert_ne by congruence. by eexists.
Qed.

Lemma lookup_delete_all (l : list ptr) V b :
  delete_all l V !! b = if bool_decide (b ∈ l) then None else V !! b.
Proof.
  revert V. induction l as [|c l IH]; intros V; cbn; [done|]. rewrite IH.
  destruct (decide (b = c)) as [->|Hbc].
  - rewrite lookup_delete_eq, (bool_decide_eq_true_2 (c ∈ c :: l)) by set_solver. by case_bool_decide.
  - rewrite lookup_delete_ne by congruence.
    rewrite (bool_decide_ext (b ∈ c :: l) (b ∈ l)); [done|]. rewrite elem_of_cons. naive_solver.
Qed.

(** Every parent is a live job. *)
Definition closed A : Prop := forall b oq p d, A.1.1 !! b = Some (oq, Some p, d) -> is_Some (A.1.1 !! p).

Lemma ranked_step a A B : job_step a A B -> closed A -> ranked A -> ranked B.
Proof.
  intros Hs Hcl HR. destruct Hs as
    [V Q e oq par d Q' e' d' xs V' Ha _ Hex Hsp|V Q e par d e' d' Ha Hex|V Q e q par d Q' e' d' rest Ha _ Hex Hl
    |V Q e q par d m l Ha _ _ _ _|V Q e q par d Ha _].
  - apply (ranked_spawned a xs (<[a := (oq, par, d')]> V) V' oq par d' Q' e' Hsp); [apply lookup_insert_eq| | |].
    + intros b oqb parb db. cbn [fst snd]. pose proof (rank_keep _ _ _ _ _ _ Hex) as Hk.
      destruct (decide (a = b)) as [<-|Hab].
      * rewrite lookup_insert_eq. intros [= <- <- <-]. destruct (HR a oq par d Ha) as [H1 H2]. rewrite Hk. split; [|done].
        intros p oq' par' dp -> Hp. destruct (decide (a = p)) as [<-|Hap].
        -- specialize (H1 a oq (Some a) d eq_refl Ha). lia.
        -- rewrite lookup_insert_ne in Hp by done. by eapply H1.
      * rewrite lookup_insert_ne by done. intros Hb. destruct (HR b oqb parb db Hb) as [H1 H2]. split; [|done].
        intros p oq' par' dp -> Hp. destruct (decide (a = p)) as [<-|Hap].
        -- rewrite lookup_insert_eq in Hp. injection Hp as <- <- <-. rewrite Hk. by eapply H1.
        -- rewrite lookup_insert_ne in Hp by done. by eapply H1.
    + intros x Hx. rewrite (rank_keep _ _ _ _ _ _ Hex). by eapply rank_child.
    + intros b oqb pb db Hb. destruct (decide (a = pb)) as [<-|Hap]; [rewrite lookup_insert_eq; by eexists|].
      rewrite lookup_insert_ne by done. destruct (decide (a = b)) as [<-|Hab].
      * rewrite lookup_insert_eq in Hb. injection Hb as -> -> ->. by eapply (Hcl a).
      * rewrite lookup_insert_ne in Hb by done. by eapply (Hcl b).
  - eapply ranked_sub; [exact HR|]. intros b x [_ Hb]%lookup_delete_Some. done.
  - eapply ranked_sub; [exact HR|]. intros b x [_ Hb]%lookup_delete_Some.
    rewrite lookup_delete_all in Hb. by case_bool_decide.
  - eapply ranked_sub; [exact HR|done].
  - eapply ranked_sub; [exact HR|]. intros b x [_ Hb]%lookup_delete_Some. done.
Qed.

Lemma idle_closed s : idle s -> closed (abs s).
Proof.
  intros (G & D & HI & _ & _) b oq p d (j & Hj & Hv)%view_lookup. injection Hv as Hq Hp Hd.
  destruct (inv_par _ _ HI) as (P1 & P2). cbn in P1, P2.
  assert (G !! b = Some p) as Hg by (rewrite (P2 b j Hj) by apply lookup_empty; done).
  destruct (P1 b p Hg) as ([jp Hjp] & _). cbn. eexists. by apply view_some.
Qed.

(** ** No deadlock *)

(** The first job of a queue is live and on that queue, and not queued itself. *)
Lemma queue_head s q m l :
  idle s -> queued_in s q = m :: l ->
  (exists par d, view s !! m = Some (Some q, par, d)) /\ (forall q', m ∉ tail (queued_in s q')) /\
  (forall a, a ∈ l -> exists par d, view s !! a = Some (Some q, par, d)).
Proof.
  intros (G & D & HI & _ & _) Hl. destruct (inv_queue _ _ HI) as (_ & _ & Q3 & Q4 & _ & _).
  assert (forall a, a ∈ queued_in s q -> exists par d, view s !! a = Some (Some q, par, d)) as Hin.
  { intros a Ha. destruct (Q4 q a Ha) as (j & Hj & Hq). rewrite (view_some s a j Hj), Hq. by eexists _, _. }
  split; [apply Hin; rewrite Hl; by left|]. split; [|intros a Ha; apply Hin; rewrite Hl; by right].
  intros q' Hm. assert (m ∈ queued_in s q') as Hm' by (destruct (queued_in s q'); [done|by right]).
  destruct (Q4 q' m Hm') as (j & Hj & Hq). destruct (Q4 q m) as (j' & Hj' & Hq'); [rewrite Hl; by left|].
  assert (q' = q) as -> by congruence. rewrite Hl in Hm. pose proof (Q3 q) as Hnd. rewrite Hl in Hnd. by inversion Hnd.
Qed.

(** As long as there is a job, one is ready: follow the jobs waited for. *)
Lemma some_ready s n : idle s -> ranked (abs s) ->
  forall a oq par d, view s !! a = Some (oq, par, d) ->
  2 * rank d + (if bool_decide (Exists (fun q => a ∈ tail (queued_in s q)) (option_list oq)) then 1 else 0) <= n ->
  exists b, ready (abs s) b.
Proof.
  intros Hi HR. induction n as [n IH] using lt_wf_ind. intros a oq par d Ha Hn.
  destruct (decide (map_Exists (fun _ x => x.1.2 = Some a) (view s))) as [(c & [[oqc pc] dc] & Hc & Hpc)|Hnc].
  - cbn in Hpc. subst pc. destruct (HR c oqc (Some a) dc Hc) as [Hlt _]. specialize (Hlt a oq par d eq_refl Ha).
    eapply (IH (2 * rank dc + 1)); [|exact Hc|destruct (bool_decide (Exists _ (option_list oqc))); lia].
    destruct (bool_decide _); lia.
  - case_bool_decide as Hq.
    + destruct oq as [q|]; cbn in Hq; [|by apply Exists_nil in Hq]. apply Exists_cons in Hq as [Hq|Hq]; [|by apply Exists_nil in Hq].
      destruct (queued_in s q) as [|m l] eqn:Hl; [by apply not_elem_of_nil in Hq|].
      destruct (queue_head s q m l Hi Hl) as ((par' & d' & Hm) & Hnt & _).
      destruct (HR a (Some q) par d Ha) as [_ Hra]. destruct (HR m (Some q) par' d' Hm) as [_ Hrm].
      specialize (Hra q eq_refl). specialize (Hrm q eq_refl).
      eapply (IH (2 * rank d')); [lia|exact Hm|]. rewrite bool_decide_eq_false_2; [lia|].
      cbn. rewrite Exists_cons, Exists_nil. intros [Hin|[]]. by apply (Hnt q).
    + exists a. split; [by eexists|]. split.
      * intros c x Hc Hp. apply Hnc. by exists c, x.
      * intros q Hin. apply Hq. change (a ∈ tail (queued_in s q)) in Hin.
        assert (oq = Some q) as ->; [|cbn; by constructor].
        destruct (queued_in s q) as [|m l] eqn:Hl; [by apply not_elem_of_nil in Hin|].
        destruct (queue_head s q m l Hi Hl) as (_ & _ & Hall). destruct (Hall a Hin) as (par' & d' & Ha').
        rewrite Ha in Ha'. by injection Ha'.
Qed.

Lemma no_deadlock s : idle s -> ranked (abs s) -> waiting s = [] -> m_jobs s = ∅.
Proof.
  intros Hi HR Hw. apply map_empty. intros a. destruct (m_jobs s !! a) as [j|] eqn:Ha; [exfalso|done].
  destruct (some_ready s _ Hi HR a _ _ _ (view_some s a j Ha) (le_n _)) as [b Hb].
  apply (idle_waiting s b Hi) in Hb. rewrite Hw in Hb. by apply not_elem_of_nil in Hb.
Qed.

(** ** Termination *)

Definition queuedb Q a (oq : option N) : bool :=
  match oq with Some q => bool_decide (a ∈ tail (m_listjQueued (qof Q q))) | None => false end.

(** The work of a job, and one step for a job that may still be queued *)
Definition load Q a (x : option N * option ptr * J) : nat :=
  2 * work x.2 + if queuedb Q a x.1.1 then 0 else 1.

Definition measure A : nat := map_sum (load A.1.2) A.1.1.

Lemma qof_insert Q q x q' : qof (<[q := x]> Q) q' = if bool_decide (q = q') then x else qof Q q'.
Proof.
  unfold qof. case_bool_decide; [subst; by rewrite lookup_insert_eq|by rewrite lookup_insert_ne].
Qed.

Lemma enters_tails Q a oq Q' q : enters Q a oq Q' ->
  tail (m_listjQueued (qof Q' q)) = tail (m_listjQueued (qof Q q)).
Proof.
  destruct oq as [q0|]; [|by intros ->]. intros [_ [[_ ->]|[Hl ->]]]; [done|].
  rewrite qof_insert. case_bool_decide; [|done]. subst. cbn. by rewrite Hl.
Qed.

Lemma enters_load Q a oq Q' b x : enters Q a oq Q' -> load Q' b x = load Q b x.
Proof.
  intros He. unfold load, queuedb. destruct x.1.1 as [q|]; [|done]. by rewrite (enters_tails Q a oq Q' q He).
Qed.

Lemma spawned_measure Q a xs V V' :
  spawned a xs V V' ->
  map_sum (load Q) V' <= map_sum (load Q) V + 2 * sum_list (map (fun x => S (work (sp_data x))) xs).
Proof.
  induction 1 as [|x xs c V V' Hc _ IH]; [cbn; lia|].
  rewrite map_sum_insert in IH by done. unfold load in IH at 2. cbn [sum_list map] in *.
  unfold view_spawn in IH at 1. cbn [fst snd] in IH. destruct (queuedb Q c _); cbn in *; lia.
Qed.

Lemma ready_load A a x : ready A a -> A.1.1 !! a = Some x -> load A.1.2 a x = 2 * work x.2 + 1.
Proof.
  intros (_ & _ & Hq) _. unfold load, queuedb. destruct x.1.1 as [q|]; [|done].
  by rewrite bool_decide_eq_false_2 by apply Hq.
Qed.

Lemma map_sum_delete_all (f : ptr -> option N * option ptr * J -> nat) (l : list ptr) V :
  map_sum f (delete_all l V) <= map_sum f V.
Proof.
  revert V. induction l as [|c l IH]; intros V; cbn; [done|].
  etransitivity; [apply IH|apply map_sum_delete_le].
Qed.

(** Removing the job that ran, and maybe others, lowers the measure when the loads
    of the jobs that stay do not grow. *)
Lemma measure_remove a V V' Q Q' x :
  V !! a = Some x -> 0 < load Q a x ->
  (forall b y, V' !! b = Some y -> load Q' b y <= load Q b y) ->
  map_sum (load Q) V' <= map_sum (load Q) (delete a V) ->
  map_sum (load Q') V' < map_sum (load Q) V.
Proof.
  intros Ha Hpos Hle Hsum. pose proof (map_sum_mono _ _ V' Hle).
  rewrite (map_sum_delete (load Q) V a x Ha). lia.
Qed.

Lemma measure_step a A B : ready A a -> job_step a A B -> measure B < measure A.
Proof.
  intros Hr Hs. destruct Hs as
    [V Q e oq par d Q' e' d' xs V' Ha Hen Hex Hsp|V Q e par d e' d' Ha Hex|V Q e q par d Q' e' d' rest Ha Hen Hex Hl
    |V Q e q par d m l Ha Hc Hl Hma Hnin|V Q e q par d Ha Hc];
    unfold measure; cbn [fst snd]; pose proof (ready_load _ a _ Hr Ha) as Hload; cbn [fst snd] in Hload.
  - pose proof (spawned_measure Q a xs _ V' Hsp) as Hm.
    rewrite (map_sum_ext (load Q') (load Q)) by (intros; by eapply enters_load).
    pose proof (map_sum_update (load Q) V a (oq, par, d) (oq, par, d') Ha) as Hu.
    pose proof (work_law _ _ _ _ _ Hex) as Hw.
    assert (load Q a (oq, par, d') <= 2 * work d' + 1) by (unfold load; cbn; destruct (queuedb _ _ _); lia).
    lia.
  - rewrite (map_sum_delete (load Q) V a _ Ha). lia.
  - apply (measure_remove a V _ Q _ (Some q, par, d)); [done|lia| |].
    + intros b y [Hab Hb]%lookup_delete_Some. rewrite lookup_delete_all in Hb. case_bool_decide as Hbr; [done|].
      unfold load, queuedb. destruct y.1.1 as [q'|]; [|lia]. rewrite qof_insert.
      destruct (decide (q = q')) as [<-|Hq];
        [rewrite (bool_decide_eq_true_2 (q = q)) by done|rewrite (bool_decide_eq_false_2 (q = q')) by done].
      * rewrite <- (enters_tails Q a _ Q' q Hen), Hl. cbn [tail]. rewrite (bool_decide_eq_false_2 (b ∈ rest)) by done.
        destruct (bool_decide _); lia.
      * rewrite (enters_tails Q a _ Q' q' Hen). lia.
    + clear. revert V. induction rest as [|c l IH]; intros V; cbn; [done|].
      etransitivity; [apply IH|]. rewrite (delete_delete V a c). apply map_sum_delete_le.
  - pose proof (map_sum_delete (load Q) V a _ Ha) as H1.
    set (Q' := <[q := _]> Q). rewrite (map_sum_delete (load Q') V a _ Ha).
    assert (map_sum (load Q') (delete a V) = map_sum (load Q) (delete a V)) as ->.
    { apply map_sum_ext. intros b y [Hab Hb]%lookup_delete_Some. unfold load, queuedb. destruct y.1.1 as [q'|]; [|done].
      unfold Q'. rewrite qof_insert. destruct (decide (q = q')) as [<-|Hq];
        [rewrite (bool_decide_eq_true_2 (q = q)) by done|by rewrite (bool_decide_eq_false_2 (q = q'))].
      cbn [m_listjQueued]. rewrite Hl. cbn [app tail].
      rewrite (bool_decide_ext (b ∈ l ++ [a]) (b ∈ l)); [done|]. rewrite elem_of_app, list_elem_of_singleton. naive_solver. }
    assert (load Q' a (Some q, par, d) = 2 * work d) as ->; [|lia].
    unfold load, queuedb, Q'. cbn [fst snd]. rewrite qof_insert, (bool_decide_eq_true_2 (q = q)) by done. cbn [m_listjQueued].
    rewrite Hl. cbn [app tail]. rewrite bool_decide_eq_true_2 by set_solver. lia.
  - rewrite (map_sum_delete (load Q) V a _ Ha). lia.
Qed.

(** ** Completion *)

(** The scheduler has nothing left: no job, no counter, no job link or job object in use. *)
Record finished s : Prop := {
  fin_jobs : m_jobs s = ∅;
  fin_waiting : m_listjlWaiting s = [];
  fin_total : m_ulpTotal (m_cnt s) = 0%N;
  fin_queued : m_ulpQueued (m_cnt s) = 0%N;
  fin_running : m_ulpRunning (m_cnt s) = 0%N;
  fin_suspended : m_fTrackingJobs s = true -> m_listjSuspended s = [];
  fin_queues : forall q, m_listjQueued (queue s q) = [];
  fin_links : forall o, used (m_spjl s) o = false;
  fin_pools : forall t x, m_pools s !! t = Some x -> pool_inv x /\ forall o, used x o = false;
}.

Lemma idle_finished s : idle s -> m_jobs s = ∅ -> finished s.
Proof.
  intros (G & D & HI & _ & Hn) He.
  assert (forall a, m_jobs s !! a = None) as Hno by (intros a; by rewrite He, lookup_empty).
  assert (m_listjlWaiting s = []) as Hw.
  { destruct (m_listjlWaiting s) as [|l rest] eqn:Hl; [done|].
    destruct (proj1 (proj2 (inv_wait _ _ HI)) (link_pj l)) as [[j Hj] _]; [unfold waiting; rewrite Hl; by left|].
    by rewrite Hno in Hj. }
  destruct (inv_count _ _ HI) as [C1 C2]. split; try done.
  - rewrite He, map_size_empty in C2. cbn in C2. lia.
  - by rewrite C1, Hw.
  - intros Htr. destruct (inv_track _ _ HI Htr) as (_ & _ & T3).
    destruct (m_listjSuspended s) as [|a l]; [done|]. destruct (proj1 (T3 a)) as [[j Hj] _]; [by left|].
    by rewrite Hno in Hj.
  - intros q. destruct (m_listjQueued (queue s q)) as [|a l] eqn:Hl; [done|].
    destruct (inv_queue _ _ HI) as (_ & _ & _ & Q4 & _). destruct (Q4 q a) as (j & Hj & _); [unfold queued_in; rewrite Hl; by left|].
    by rewrite Hno in Hj.
  - intros o. destruct (inv_links _ _ HI) as (_ & _ & ->). by rewrite Hw.
  - intros t x Hx. destruct (inv_factory _ _ HI) as (_ & F2 & F3). split; [by eapply F2|].
    intros o. destruct (used x o) eqn:Hu; [|done].
    destruct (proj2 (F3 t o)) as [j Hj]; [by exists x|]. by rewrite Hno in Hj.
Qed.

Lemma ExecuteJobs_completes n s :
  idle s -> ranked (abs s) -> measure (abs s) <= n ->
  returns (ExecuteJobs n s) (fun s' => idle s' /\ rtc sched_step (abs s) (abs s') /\ finished s').
Proof.
  revert s. induction n as [|n IH]; intros s Hi HR Hm; destruct (iterate s Hi) as ([o s1] & Hp & Hcase);
    cbn [ExecuteJobs]; rewrite Hp; cbn [mbind outcome_bind fst snd] in *; destruct o as [a|].
  - destruct Hcase as (s' & _ & _ & Hr & Hs). pose proof (measure_step a _ _ Hr Hs). lia.
  - destruct Hcase as (Hi1 & Ha1 & Hw). apply returns_ret. rewrite Ha1. split; [done|]. split; [apply rtc_refl|].
    apply idle_finished; [done|]. apply no_deadlock; [done| |done]. by rewrite Ha1.
  - destruct Hcase as (s' & -> & Hi' & Hr & Hs). cbn [mbind outcome_bind].
    pose proof (measure_step a _ _ Hr Hs).
    destruct (IH s' Hi') as (s'' & He & Hi'' & Hst & Hf); [by eapply ranked_step; [|apply idle_closed|]|lia|].
    exists s''. split; [done|]. split; [done|]. split; [|done]. eapply rtc_l; [|exact Hst]. by exists a.
  - destruct Hcase as (Hi1 & Ha1 & Hw). apply returns_ret. rewrite Ha1. split; [done|]. split; [apply rtc_refl|].
    apply idle_finished; [done|]. apply no_deadlock; [done| |done]. by rewrite Ha1.
Qed.

(** The pools of a finished scheduler can be deleted. *)
Lemma truncate_all_spec s l :
  (forall t x, m_pools s !! t = Some x -> pool_inv x /\ forall o, used x o = false) ->
  returns (truncate_all s l) (fun s' => forall t,
    m_pools s' !! t = if bool_decide (t ∈ l) then None else m_pools s !! t).
Proof.
  revert s. induction l as [|t0 l IH]; intros s Hs; cbn [truncate_all].
  - apply returns_ret. intros t. by rewrite bool_decide_eq_false_2 by apply not_elem_of_nil.
  - eapply (returns_bind _ _ (fun s1 => m_pools s1 = delete t0 (m_pools s))).
    + unfold Truncate. destruct (m_pools s !! t0) as [x|] eqn:Hx.
      * destruct (Hs t0 x Hx) as [Hx1 Hx2]. rewrite (delete_law x Hx1 Hx2). by apply returns_ret.
      * apply returns_ret. by rewrite delete_id.
    + intros s1 H1. eapply returns_mono; [apply IH|].
      * intros t x. rewrite H1. intros [_ Hx]%lookup_delete_Some. by eapply Hs.
      * intros s' Hs' t. rewrite Hs', H1. destruct (decide (t = t0)) as [->|Hne].
        -- rewrite (bool_decide_eq_true_2 (t0 ∈ t0 :: l)), lookup_delete_eq by set_solver. by case_bool_decide.
        -- rewrite lookup_delete_ne by congruence.
           rewrite (bool_decide_ext (t ∈ t0 :: l) (t ∈ l)); [done|]. rewrite elem_of_cons. naive_solver.
Qed.

(** The destructor of the factory succeeds, and deletes every pool but one. *)
Lemma CJobFactory_dtor_spec s :
  finished s ->
  returns (CJobFactory_dtor s) (fun s' => forall t,
    m_pools s' !! t = if bool_decide (t = EjtGroupExpressionImplementation) then m_pools s !! t else None).
Proof.
  intros [_ _ _ _ _ _ _ _ Hp]. eapply returns_mono; [by apply truncate_all_spec|].
  intros s' Hs' t. rewrite Hs'. by destruct t.
Qed.
End Live.
End SchedulerLive.
