(* ===== verification/ScriptJob.v ===== *)
(** * Jobs given by scripts

    A concrete job class for the theorems on the scheduler: a job has a rank and
    runs in rounds, each of which schedules children of a lower rank, on the queue
    of their rank or on none; after the last round it is completed. *)
From stdpp Require Import base numbers list gmap.
From S2P Require Import Prelude SyncPool Scheduler SchedulerRun SchedulerLive.

Module ScriptJob.
Import SyncPool Scheduler SchedulerRun SchedulerLive.
Open Scope nat_scope.

Inductive script := Script (r : nat) (rounds : list (list (bool * script))).

Definition script_rank (d : script) : nat := match d with Script r _ => r end.

Fixpoint script_work (d : script) : nat :=
  match d with
  | Script _ rounds =>
      sum_list (map (fun cs => S (sum_list (map (fun c => match c with (_, d') => S (script_work d') end) cs))) rounds)
  end.

Definition script_spawn (c : bool * script) : spawn script :=
  mkSpawn EjtGroupExploration (if c.1 then Some (N.of_nat (script_rank c.2)) else None) c.2.

(** The engine counts the runs. *)
#[export] Instance ScriptClass : JobClass N script := {
  job_FExecute e d :=
    match d with
    | Script r [] => ((e + 1)%N, d, [], true)
    | Script r (cs :: rounds) =>
        ((e + 1)%N, Script r rounds,
         map script_spawn (filter (fun c => script_rank c.2 < r) cs), false)
    end;
}.

#[export] Instance ScriptLaws : JobLaws N script.
Proof. split. intros e [r [|cs rounds]] e' d' xs; cbn; naive_solver. Qed.

Lemma filter_work (r : nat) cs :
  sum_list (map (fun x => S (script_work (sp_data x))) (map script_spawn (filter (fun c => script_rank c.2 < r) cs)))
  <= sum_list (map (fun c => match c with (_, d') => S (script_work d') end) cs).
Proof.
  induction cs as [|[b c] cs IH]; [done|]. rewrite filter_cons. case_decide; cbn in *; lia.
Qed.

Lemma script_work_law (e : N) (d : script) e' d' xs :
  job_FExecute e d = (e', d', xs, false) ->
  script_work d' + sum_list (map (fun x => S (script_work (sp_data x))) xs) < script_work d.
Proof.
  destruct d as [r [|cs rounds]]; cbn [job_FExecute ScriptClass]; [done|].
  intros [= <- <- <-]. pose proof (filter_work r cs). cbn [script_work map sum_list]. cbn in *. lia.
Qed.

Lemma script_rank_keep (e : N) (d : script) e' d' xs b :
  job_FExecute e d = (e', d', xs, b) -> script_rank d' = script_rank d.
Proof. destruct d as [r [|cs rounds]]; cbn; naive_solver. Qed.

Lemma script_rank_child (e : N) (d : script) e' d' xs b x :
  job_FExecute e d = (e', d', xs, b) -> x ∈ xs ->
  script_rank (sp_data x) < script_rank d /\
  forall q, sp_queue x = Some q -> N.to_nat q = script_rank (sp_data x).
Proof.
  destruct d as [r [|cs rounds]]; cbn; [intros [= <- <- <- <-] Hx; by apply not_elem_of_nil in Hx|].
  intros [= <- <- <- <-] Hx. apply list_elem_of_fmap in Hx as ([b' c] & -> & Hc).
  apply list_elem_of_filter in Hc as [Hlt _]. cbn in *. split; [done|].
  intros q. destruct b'; [|done]. intros [= <-]. lia.
Qed.

#[export] Instance ScriptWork : JobWork N script := {
  work := script_work;
  work_law := script_work_law;
}.

#[export] Instance ScriptRank : JobRank N script := {
  rank := script_rank;
  qrank := N.to_nat;
  rank_keep := script_rank_keep;
  rank_child := script_rank_child;
}.

(** A root job whose children share a queue, one of them with a child of its own *)
Definition leaf (r : nat) : script := Script r [].
Definition demo : script :=
  Script 3 [[(true, Script 2 [[(true, leaf 1); (false, leaf 0)]]); (true, leaf 2); (false, leaf 2)]; []; [(true, leaf 2)]].
Definition demo_root : spawn script := mkSpawn EjtGroupOptimization (Some 3%N) demo.
Definition demo_start : outcome (jptr object * state CSyncPool object N script) :=
  ScheduleJob (CScheduler_ctor 0%N 2 true) demo_root None.
End ScriptJob.
