(* ===== verification/SchedulerProps.v ===== *)
(** * Properties of the object pools and of the scheduler *)
From stdpp Require Import base numbers list gmap.
From S2P Require Import Prelude SyncPool Scheduler SchedulerInv SchedulerSpec SchedulerRun SchedulerLive ScriptJob.

Module SchedulerProps.
Import SyncPool Scheduler SchedulerInv SchedulerSpec SchedulerRun SchedulerLive ScriptJob.
Open Scope nat_scope.

Lemma view_ctor {P Ob} `{CO : Countable Ob} `{PO : Pool P Ob} {E J} (e : E) n b :
  view (CScheduler_ctor (P := P) (Ob := Ob) (J := J) e n b) = ∅.
Proof. apply fmap_empty. Qed.

(** C7: with jobs of bounded work that do not wait for each other in a circle, a
    scheduler and a factory that are made and given a root job run the loop to its
    end within the measure of the root job, and leave nothing: no job, no job
    waiting, suspended or queued, every counter zero, every job link and job object
    back in its pool; the destructors' checks succeed. The pool and the job classes
    are any that keep their laws. *)
Theorem scheduler_completes {P Ob} `{CO : Countable Ob} `{PO : Pool P Ob} `{PL : !PoolLaws P Ob}
    {E J} `{JL : JobLaws E J} `{JW : !JobWork E J} `{JR : !JobRank E J}
    (e : E) (ulJobs : N) (tracking : bool) (d : J) (x : spawn J) :
  (ulJobs < 2 ^ 31)%N -> (forall q, sp_queue x = Some q -> qrank q = rank (sp_data x)) ->
  returns (s0 ← CJobFactory_ctor (CScheduler_ctor e ulJobs tracking) d;
           '(_, s) ← ScheduleJob s0 x None;
           ExecuteJobs (2 * work (sp_data x) + 1) s)
    (fun s' => finished s' /\ CScheduler_dtor s' = Ret tt /\
       returns (CJobFactory_dtor s') (fun _ => True)).
Proof.
  intros Hu Hx. eapply returns_bind; [by apply CJobFactory_ctor_idle, ctor_idle|]. intros s0 [Hi0 Ha0].
  eapply returns_bind; [by apply root_idle|].
  intros [a s] (Hi & _ & Ha). cbn [fst snd] in *.
  assert (view s0 = ∅) as Hv0 by (injection Ha0 as -> _ _; apply view_ctor). rewrite Hv0 in Ha.
  eapply returns_mono; [eapply ExecuteJobs_completes; [done|..]|intros s' (_ & _ & Hf)].
  - rewrite Ha. intros b oq par d'. cbn [fst snd].
    intros [[<- [= <- <- <-]]|[_ Hb]]%lookup_insert_Some; [|by rewrite lookup_empty in Hb]. split; [done|]. apply Hx.
  - rewrite Ha. unfold measure. cbn [fst snd].
    rewrite map_sum_insert, map_sum_empty by apply lookup_empty. unfold load. cbn. destruct (queuedb _ _ _); lia.
  - split; [done|]. split; [unfold CScheduler_dtor; by rewrite (fin_total _ Hf)|].
    eapply returns_mono; [by apply CJobFactory_dtor_spec|done].
Qed.

Lemma scheduler_completes_witness :
  (2 < 2 ^ 31)%N /\
  returns (s0 ← CJobFactory_ctor (CScheduler_ctor (P := CSyncPool) 0%N 2 true) (leaf 0);
           '(_, s) ← ScheduleJob s0 demo_root None;
           ExecuteJobs (2 * work (sp_data demo_root) + 1) s)
    (fun s' => finished s' /\ CScheduler_dtor s' = Ret tt /\
       returns (CJobFactory_dtor s') (fun _ => True)).
Proof.
  split; [done|]. apply (scheduler_completes 0%N 2 true (leaf 0) demo_root); [done|]. by intros q [= <-].
Defined.

(** The destructor of the factory never deletes the pool of the jobs of type
    [EjtGroupExpressionImplementation]: it names another type twice. *)
Lemma factory_dtor_leaves_pool {P Ob} `{CO : Countable Ob} `{PO : Pool P Ob} `{PL : !PoolLaws P Ob}
    {E J} `{JL : JobLaws E J} (s : state P Ob E J) x :
  finished s -> m_pools s !! EjtGroupExpressionImplementation = Some x ->
  returns (CJobFactory_dtor s) (fun s' => m_pools s' = {[EjtGroupExpressionImplementation := x]}).
Proof.
  intros Hf Hx. eapply returns_mono; [by apply CJobFactory_dtor_spec|]. intros s' Hs'. apply map_eq. intros t.
  rewrite Hs'. case_bool_decide as Ht; [subst t; by rewrite lookup_singleton_eq|].
  by rewrite lookup_singleton_ne by congruence.
Qed.

(** C20: one round of the loop of [ExecuteJobs] on a state between two rounds
    returns, whatever the jobs do: no assertion of the scheduler, of the jobs, of
    the queues or of the factory fails and no released job is touched. If a job is
    taken, it waits for nothing (it has no live child and is not queued behind
    another job) and its execution is one step of the abstract scheduler; the
    waiting list has exactly the jobs that wait for nothing. *)
Theorem scheduler_round_refines {P Ob} `{CO : Countable Ob} `{PO : Pool P Ob} `{PL : !PoolLaws P Ob}
    {E J} `{JL : JobLaws E J} (s : state P Ob E J) :
  idle s ->
  (forall a, a ∈ waiting s <-> ready (abs s) a) /\
  returns (PjRetrieve s) (fun r =>
    match r.1 with
    | None => idle r.2 /\ abs r.2 = abs s /\ waiting s = []
    | Some a => ready (abs s) a /\
        returns (ExecuteJob r.2 a) (fun s' => idle s' /\ job_step a (abs s) (abs s'))
    end).
Proof.
  intros Hi. split; [intros a; by apply idle_waiting|].
  eapply returns_mono; [by apply iterate|]. intros [[a|] s1]; cbn [fst snd].
  - intros (s' & He & Hi' & Hr & Hs). split; [done|]. by exists s'.
  - intros (Hi1 & Ha1 & Hw). split; [done|]. split; [done|].
    destruct (waiting s) as [|a l] eqn:Hl; [done|]. exfalso.
    assert (a ∈ waiting s1) as Hin by (apply idle_waiting; [done|]; rewrite Ha1; apply idle_waiting; [done|]; rewrite Hl; by left).
    rewrite Hw in Hin. by apply not_elem_of_nil in Hin.
Qed.

Lemma scheduler_round_refines_witness :
  exists a s, demo_start = Ret (a, s) /\ idle s /\ (a ∈ waiting s <-> ready (abs s) a).
Proof.
  destruct (root_idle (CScheduler_ctor (P := CSyncPool) 0%N 2 true) demo_root) as ([a s] & Hs & Hi & _).
  - by apply ctor_idle.
  - exists a, s. split; [exact Hs|]. split; [exact Hi|].
    exact (proj1 (scheduler_round_refines s Hi) a).
Defined.

(** A run of the scheduler on any jobs, started with one root job, either ends
    in a state reached by steps of the abstract scheduler in which no job is
    waiting, or it runs on: the only fault is that the fuel of the model is used
    up, at any amount of fuel. *)
Theorem scheduler_run_refines {P Ob} `{CO : Countable Ob} `{PO : Pool P Ob} `{PL : !PoolLaws P Ob}
    {E J} `{JL : JobLaws E J} (e : E) (ulJobs : N) (tracking : bool) (x : spawn J) (fuel : nat) :
  (ulJobs < 2 ^ 31)%N ->
  match '(_, s) ← ScheduleJob (CScheduler_ctor e ulJobs tracking) x None; ExecuteJobs fuel s with
  | Ret s' => idle s' /\ waiting s' = [] /\
      exists a, rtc sched_step ({[a := view_spawn x None]}, ∅, e) (abs s')
  | Abort f => f = FFuel
  end.
Proof.
  intros Hu. destruct (root_idle (CScheduler_ctor e ulJobs tracking) x) as ([a s] & -> & Hi & _ & Ha); [by apply ctor_idle|].
  cbn [mbind outcome_bind fst snd] in *. pose proof (ExecuteJobs_refines fuel s Hi) as HR.
  destruct (ExecuteJobs fuel s) as [s'|]; [|done]. destruct HR as (Hi' & Hst & Hw). split; [done|]. split; [done|].
  exists a. by rewrite Ha, view_ctor in Hst.
Qed.

Lemma scheduler_run_refines_witness :
  match '(_, s) ← ScheduleJob (CScheduler_ctor (P := CSyncPool) 0%N 2 true) demo_root None; ExecuteJobs 3 s with
  | Ret s' => idle s' /\ waiting s' = [] /\
      exists a, rtc sched_step ({[a := view_spawn demo_root None]}, ∅, 0%N) (abs s')
  | Abort f => f = FFuel
  end.
Proof. apply (scheduler_run_refines (P := CSyncPool) 0%N 2 true demo_root 3). done. Defined.

(** [PtRetrieve] on a well-formed pool returns an object that is not in use,
    after which exactly this object has come into use, and it is an object of the
    array while one is free there and the 64-bit lookup index does not wrap;
    [Recycle] of an object in use returns and frees exactly this object. *)
Theorem pool_correct (p : CSyncPool) :
  pool_ok p ->
  returns (PtRetrieve p) (fun r => pool_ok r.1 /\ in_use p r.2 = false /\
    (forall x, in_use r.1 x = in_use p x || bool_decide (x = r.2)) /\
    ((m_last_lookup_idx p + 2 * m_numobjs p < 2 ^ 64)%N ->
     (exists i, (i < m_numobjs p)%N /\ in_use p (InArray i) = false) ->
     exists i, r.2 = InArray i)) /\
  (forall o, in_use p o = true ->
   returns (Recycle p o) (fun p' => pool_ok p' /\
     forall x, in_use p' x = in_use p x && negb (bool_decide (x = o)))).
Proof.
  intros Hok. split; [|intros o Ho; by apply Recycle_spec].
  destruct (PtRetrieve_spec p Hok) as (r & Hr & H1 & H2 & H3). exists r.
  split; [done|]. split; [done|]. split; [done|]. split; [done|].
  intros Hw (i & Hi & Hu). destruct (PtRetrieve_uses_array p i Hok Hw Hi Hu) as (r' & Hr' & Hx).
  rewrite Hr in Hr'. by injection Hr' as <-.
Qed.

Lemma pool_correct_witness :
  pool_ok (CSyncPool_ctor 3) /\
  returns (PtRetrieve (CSyncPool_ctor 3)) (fun r => exists i, r.2 = InArray i).
Proof.
  assert (pool_ok (CSyncPool_ctor 3)) as Hok by (by apply CSyncPool_ctor_spec).
  split; [exact Hok|]. eapply returns_mono; [exact (proj1 (pool_correct _ Hok))|].
  intros r (_ & _ & _ & H). apply H; [done|]. by exists 1%N.
Defined.
End SchedulerProps.
