(* ===== verification/HyperGraph.v ===== *)
(** * Join hypergraphs

    Source: [CDPHyperGraph] of [libgpopt/.../xforms]. A node set is a [CBitSet];
    it is represented here by the set of its members, which is what the
    operations of [CBitSet] compute with (BitSet.v), and an iteration over it by
    the ascending list of its members.

    The graph keeps every undirected hyperedge as two directed ones, one beside
    the other, and per node the directed edges that leave it; [graph_wf] states
    that these agree, and the operations on the graph keep it. *)
From stdpp Require Import base numbers list gmap sets sorting.
From S2P Require Import Prelude.

Module HyperGraph.
Open Scope nat_scope.

Record SEdge := mkSEdge {
  m_left : gset N;
  m_right : gset N;
  m_edge_id : N;
}.

Record SNode := mkSNode {
  m_simple_neighborhood : gset N;
  m_simple_edges : list nat;
  m_complex_edges : list nat;
}.

Record CDPHyperGraph := mkGraph {
  m_nodes : list SNode;
  m_edges : list SEdge;
}.

#[export] Instance SEdge_eq_dec : EqDecision SEdge.
Proof. solve_decision. Defined.
#[export] Instance SNode_eq_dec : EqDecision SNode.
Proof. solve_decision. Defined.

Implicit Types (g : CDPHyperGraph) (e : SEdge) (n : SNode) (left right : gset N).

Definition NodeCount g : nat := length (m_nodes g).
Definition DirectedEdgeCount g : nat := length (m_edges g).

Definition set_nodes g x := mkGraph x (m_edges g).
Definition set_edges g x := mkGraph (m_nodes g) x.

(** [Node(node_id)] and [Edge(edge_id)], with their assertions *)
Definition Node g (node_id : N) : outcome SNode :=
  match m_nodes g !! N.to_nat node_id with Some n => Ret n | None => Abort FAssert end.

Definition Edge g (edge_id : nat) : outcome SEdge :=
  match m_edges g !! edge_id with Some e => Ret e | None => Abort FAssert end.

Definition LogicalEdgeCount g : outcome nat :=
  _ ← GPOS_ASSERT (length (m_edges g) mod 2 =? 0);
  mret (length (m_edges g) / 2).

(** The constructor *)
Definition CDPHyperGraph_ctor (node_count : nat) : CDPHyperGraph :=
  mkGraph (replicate node_count (mkSNode ∅ [] [])) [].

(** An assignment through the pointer [m_nodes[i]] *)
Definition update_node g (i : N) (f : SNode -> SNode) : outcome CDPHyperGraph :=
  n ← subscript (m_nodes g) (N.to_nat i);
  mret (set_nodes g (<[N.to_nat i := f n]> (m_nodes g))).

Definition add_neighbors (s : gset N) n :=
  mkSNode (m_simple_neighborhood n ∪ s) (m_simple_edges n) (m_complex_edges n).
Definition push_simple (k : nat) n :=
  mkSNode (m_simple_neighborhood n) (m_simple_edges n ++ [k]) (m_complex_edges n).
Definition push_complex (k : nat) n :=
  mkSNode (m_simple_neighborhood n) (m_simple_edges n) (m_complex_edges n ++ [k]).
(** [erase(remove(...))] *)
Definition erase_simple (k : nat) n :=
  mkSNode (m_simple_neighborhood n) (filter (fun x => x <> k) (m_simple_edges n)) (m_complex_edges n).
Definition erase_complex (k : nat) n :=
  mkSNode (m_simple_neighborhood n) (m_simple_edges n) (filter (fun x => x <> k) (m_complex_edges n)).
Definition with_neighborhood (s : gset N) n := mkSNode s (m_simple_edges n) (m_complex_edges n).

(** [1 == left->Size() && 1 == right->Size()] *)
Definition simple left right : bool := (size left =? 1) && (size right =? 1).

(** [iter.Advance()] with its assertion, and [iter.Bit()] *)
Definition first_bit (s : gset N) : outcome N :=
  match bits s with b :: _ => Ret b | [] => Abort FAssert end.

Definition AttachEdgeToNodes g (forward_edge reverse_edge : nat) left right : outcome CDPHyperGraph :=
  if simple left right then
    (l ← first_bit left;
     r ← first_bit right;
     g ← update_node g l (add_neighbors right);
     g ← update_node g r (add_neighbors left);
     g ← update_node g l (push_simple forward_edge);
     update_node g r (push_simple reverse_edge))
  else
    (g ← for_each (bits left) (fun b g =>
            _ ← GPOS_ASSERT (N.to_nat b <? NodeCount g);
            update_node g b (push_complex forward_edge)) g;
     for_each (bits right) (fun b g =>
            _ ← GPOS_ASSERT (N.to_nat b <? NodeCount g);
            update_node g b (push_complex reverse_edge)) g).

Definition RebuildSimpleNeighborhood g (i : N) : outcome CDPHyperGraph :=
  n ← subscript (m_nodes g) (N.to_nat i);
  s ← for_each (m_simple_edges n) (fun edge s =>
        e ← subscript (m_edges g) edge;
        mret (s ∪ m_right e)) ∅;
  update_node g i (with_neighborhood s).

Definition DetachEdgeFromNodes g (forward_edge reverse_edge : nat) left right : outcome CDPHyperGraph :=
  if simple left right then
    (l ← first_bit left;
     r ← first_bit right;
     g ← update_node g l (erase_simple forward_edge);
     g ← update_node g r (erase_simple reverse_edge);
     g ← RebuildSimpleNeighborhood g l;
     RebuildSimpleNeighborhood g r)
  else
    (g ← for_each (bits left) (fun b g => update_node g b (erase_complex forward_edge)) g;
     for_each (bits right) (fun b g => update_node g b (erase_complex reverse_edge)) g).

(** The assertions on the sides of an edge *)
Definition assert_sides left right : outcome unit :=
  _ ← GPOS_ASSERT ((0 <? size left) && (0 <? size right));
  GPOS_ASSERT (bool_decide (left ## right)).

Definition AddEdge g left right (edge_id : N) : outcome CDPHyperGraph :=
  _ ← assert_sides left right;
  let forward := length (m_edges g) in
  let g := set_edges g (m_edges g ++ [mkSEdge left right edge_id]) in
  let reverse := length (m_edges g) in
  let g := set_edges g (m_edges g ++ [mkSEdge right left edge_id]) in
  AttachEdgeToNodes g forward reverse left right.

Definition ReplaceEdge g (logical_edge : nat) left right : outcome CDPHyperGraph :=
  _ ← assert_sides left right;
  count ← LogicalEdgeCount g;
  _ ← GPOS_ASSERT (logical_edge <? count);
  let forward := logical_edge * 2 in
  let reverse := forward + 1 in
  ef ← subscript (m_edges g) forward;
  er ← subscript (m_edges g) reverse;
  _ ← GPOS_ASSERT (m_edge_id ef =? m_edge_id er)%N;
  g ← DetachEdgeFromNodes g forward reverse (m_left ef) (m_right ef);
  let g := set_edges g (<[forward := mkSEdge left right (m_edge_id ef)]> (m_edges g)) in
  let g := set_edges g (<[reverse := mkSEdge right left (m_edge_id ef)]> (m_edges g)) in
  AttachEdgeToNodes g forward reverse left right.

(** ** Bits of a set *)

(** The first bit is the least. *)
Definition is_min (b : N) (s : gset N) : Prop := b ∈ s /\ forall x, x ∈ s -> (b <= x)%N.

Lemma first_bit_spec s : s <> ∅ -> exists b, first_bit s = Ret b /\ is_min b s.
Proof.
  intros Hs. destruct (bits_cons s Hs) as (b & l & E). exists b. unfold first_bit. rewrite E.
  split; [done|]. pose proof (bits_ascending s) as Ha. rewrite E in Ha. split.
  - apply elem_of_bits. rewrite E. set_solver.
  - intros x Hx%elem_of_bits. rewrite E in Hx. apply elem_of_cons in Hx as [->|Hx]; [lia|].
    apply StronglySorted_inv in Ha as [_ Ha]. rewrite Forall_forall in Ha. specialize (Ha x Hx). lia.
Qed.

Lemma is_min_unique b c s : is_min b s -> is_min c s -> b = c.
Proof. intros [H1 H2] [H3 H4]. specialize (H2 c H3). specialize (H4 b H1). lia. Qed.

(** ** Updates of all nodes at once *)

Definition map_nodes g (f : N -> SNode -> SNode) : CDPHyperGraph :=
  set_nodes g (imap (fun i n => f (N.of_nat i) n) (m_nodes g)).

Lemma lookup_map_nodes g f i :
  m_nodes (map_nodes g f) !! N.to_nat i = f i <$> m_nodes g !! N.to_nat i.
Proof. cbn. rewrite list_lookup_imap, N2Nat.id. done. Qed.

Lemma NodeCount_map g f : NodeCount (map_nodes g f) = NodeCount g.
Proof. unfold NodeCount. cbn. by rewrite length_imap. Qed.

Lemma map_nodes_ext g f f' :
  (forall i n, m_nodes g !! N.to_nat i = Some n -> f i n = f' i n) -> map_nodes g f = map_nodes g f'.
Proof.
  intros Hf. unfold map_nodes. f_equal. apply list_eq. intros i. rewrite !list_lookup_imap.
  destruct (m_nodes g !! i) eqn:E; [|done]. cbn. f_equal. apply Hf. by rewrite Nat2N.id.
Qed.

Lemma map_nodes_compose g f f' :
  map_nodes (map_nodes g f) f' = map_nodes g (fun i n => f' i (f i n)).
Proof.
  unfold map_nodes. cbn. unfold set_nodes. cbn. f_equal. apply list_eq. intros i.
  rewrite !list_lookup_imap. by destruct (m_nodes g !! i).
Qed.

Lemma map_nodes_id g : map_nodes g (fun _ n => n) = g.
Proof.
  destruct g. unfold map_nodes, set_nodes. cbn. f_equal. apply list_eq. intros i.
  rewrite list_lookup_imap. by destruct (_ !! i).
Qed.

Definition in_graph g (s : gset N) : Prop := forall b, b ∈ s -> N.to_nat b < NodeCount g.

Lemma update_node_ret g b f :
  N.to_nat b < NodeCount g ->
  update_node g b f = Ret (map_nodes g (fun i n => if decide (i = b) then f n else n)).
Proof.
  intros Hb. unfold update_node, subscript. destruct (lookup_lt_is_Some_2 _ _ Hb) as [n Hn].
  rewrite Hn. cbn. unfold mret, outcome_ret. f_equal. unfold map_nodes, set_nodes. f_equal. apply list_eq. intros i.
  rewrite list_lookup_imap. destruct (decide (N.to_nat b = i)) as [<-|Hi].
  - rewrite list_lookup_insert_eq, Hn, N2Nat.id by done. cbn. by rewrite decide_True.
  - rewrite list_lookup_insert_ne by done. destruct (m_nodes g !! i); [|done]. cbn.
    by rewrite decide_False by lia.
Qed.

(** A loop that updates the nodes of a list *)
Lemma for_each_update g l f :
  NoDup l -> (forall b, b ∈ l -> N.to_nat b < NodeCount g) ->
  for_each l (fun b g => update_node g b f) g =
  Ret (map_nodes g (fun i n => if decide (i ∈ l) then f n else n)).
Proof.
  revert g. induction l as [|b l IH]; intros g Hnd Hb.
  - cbn. unfold mret, outcome_ret. f_equal. symmetry. rewrite <- (map_nodes_id g) at 2. apply map_nodes_ext.
    intros i n _. by rewrite decide_False by set_solver.
  - apply NoDup_cons in Hnd as [Hnb Hnd]. cbn [for_each].
    rewrite update_node_ret by (apply Hb; set_solver). cbn [mbind outcome_bind].
    rewrite IH; [|done|intros x Hx; rewrite NodeCount_map; apply Hb; set_solver].
    rewrite map_nodes_compose. f_equal. apply map_nodes_ext. intros i n _.
    repeat case_decide; subst; set_solver.
Qed.

(** The assertion of the loop holds on nodes of the graph. *)
Lemma for_each_assert g l f :
  (forall b, b ∈ l -> N.to_nat b < NodeCount g) ->
  for_each l (fun b g => _ ← GPOS_ASSERT (N.to_nat b <? NodeCount g); update_node g b f) g =
  for_each l (fun b g => update_node g b f) g.
Proof.
  revert g. induction l as [|b l IH]; intros g Hb; [done|]. cbn [for_each].
  assert (N.to_nat b < NodeCount g) as Hlt by (apply Hb; set_solver).
  rewrite bind_assert by (by apply Nat.ltb_lt). rewrite update_node_ret by done.
  cbn [mbind outcome_bind]. apply IH. intros x Hx. rewrite NodeCount_map. apply Hb. set_solver.
Qed.

(** ** What attaching and detaching an edge do to a node *)

Definition attach_node (forward reverse : nat) left right (i : N) n : SNode :=
  if simple left right then
    if decide (i ∈ left) then push_simple forward (add_neighbors right n)
    else if decide (i ∈ right) then push_simple reverse (add_neighbors left n) else n
  else
    if decide (i ∈ left) then push_complex forward n
    else if decide (i ∈ right) then push_complex reverse n else n.

(** The neighborhood of the simple edges of a node *)
Definition simple_rights (es : list SEdge) (ks : list nat) : gset N :=
  ⋃ ((fun k => from_option m_right ∅ (es !! k)) <$> ks).
Arguments simple_rights : simpl never.

Definition detach_node (es : list SEdge) (forward reverse : nat) left right (i : N) n : SNode :=
  let rebuild n := with_neighborhood (simple_rights es (m_simple_edges n)) n in
  if simple left right then
    if decide (i ∈ left) then rebuild (erase_simple forward n)
    else if decide (i ∈ right) then rebuild (erase_simple reverse n) else n
  else
    if decide (i ∈ left) then erase_complex forward n
    else if decide (i ∈ right) then erase_complex reverse n else n.

Lemma simple_singletons left right :
  simple left right = true -> exists l r, left = {[l]} /\ right = {[r]}.
Proof.
  unfold simple. intros [Hl Hr]%andb_prop. apply Nat.eqb_eq in Hl, Hr.
  apply size_1_elem_of in Hl as [l Hl], Hr as [r Hr]. exists l, r. by split; apply leibniz_equiv.
Qed.

Lemma first_bit_singleton b : first_bit {[b]} = Ret b.
Proof.
  destruct (first_bit_spec {[b]}) as (c & -> & Hc & _); [set_solver|].
  apply elem_of_singleton in Hc. by subst.
Qed.

(** Two loops, over the two sides of an edge *)
Lemma for_each_sides g left right f h :
  in_graph g left -> in_graph g right -> left ## right ->
  (g ← for_each (bits left) (fun b g => update_node g b f) g;
   for_each (bits right) (fun b g => update_node g b h) g) =
  Ret (map_nodes g (fun i n => if decide (i ∈ left) then f n else if decide (i ∈ right) then h n else n)).
Proof.
  intros Hl Hr Hd.
  rewrite for_each_update by (try apply bits_NoDup; intros b; rewrite elem_of_bits; apply Hl).
  cbn [mbind outcome_bind].
  rewrite for_each_update by (try apply bits_NoDup; intros b; rewrite elem_of_bits, NodeCount_map; apply Hr).
  f_equal. rewrite map_nodes_compose. apply map_nodes_ext. intros i n _.
  pose proof (elem_of_bits left i). pose proof (elem_of_bits right i).
  repeat case_decide; try done; set_solver.
Qed.

Lemma AttachEdge_ret g fw rv left right :
  in_graph g left -> in_graph g right -> left ## right ->
  AttachEdgeToNodes g fw rv left right = Ret (map_nodes g (attach_node fw rv left right)).
Proof.
  intros Hl Hr Hd. unfold AttachEdgeToNodes, attach_node. destruct (simple left right) eqn:Hs.
  - destruct (simple_singletons _ _ Hs) as (l & r & -> & ->). rewrite !first_bit_singleton. cbn [mbind outcome_bind].
    assert (N.to_nat l < NodeCount g) by (apply Hl; set_solver).
    assert (N.to_nat r < NodeCount g) by (apply Hr; set_solver).
    do 4 (rewrite update_node_ret by (rewrite ?NodeCount_map; done); cbn [mbind outcome_bind]).
    rewrite !map_nodes_compose. f_equal. apply map_nodes_ext. intros i n _.
    repeat case_decide; subst; set_solver.
  - rewrite for_each_assert by (intros b; rewrite elem_of_bits; apply Hl).
    etransitivity; [|by apply (for_each_sides g left right (push_complex fw) (push_complex rv))].
    destruct (for_each (bits left) _ g) as [g'|] eqn:E; [|done]. cbn [mbind outcome_bind].
    apply for_each_assert. intros b. rewrite elem_of_bits. intros Hb.
    rewrite for_each_update in E by (try apply bits_NoDup; intros x; rewrite elem_of_bits; apply Hl).
    injection E as <-. rewrite NodeCount_map. by apply Hr.
Qed.

Lemma Rebuild_ret g b :
  N.to_nat b < NodeCount g ->
  (forall n k, m_nodes g !! N.to_nat b = Some n -> k ∈ m_simple_edges n -> k < length (m_edges g)) ->
  RebuildSimpleNeighborhood g b =
  Ret (map_nodes g (fun i n => if decide (i = b)
         then with_neighborhood (simple_rights (m_edges g) (m_simple_edges n)) n else n)).
Proof.
  intros Hb Hk. unfold RebuildSimpleNeighborhood. destruct (lookup_lt_is_Some_2 _ _ Hb) as [n Hn].
  rewrite (subscript_some _ _ _ Hn). cbn [mbind outcome_bind].
  assert (forall ks s, (forall k, k ∈ ks -> k < length (m_edges g)) ->
    for_each ks (fun edge s => e ← subscript (m_edges g) edge; mret (s ∪ m_right e)) s =
    Ret (s ∪ simple_rights (m_edges g) ks)) as Hloop.
  { induction ks as [|k ks IH]; intros s Hks; cbn [for_each].
    - unfold mret, outcome_ret. f_equal. unfold simple_rights. cbn. set_solver.
    - destruct (lookup_lt_is_Some_2 (m_edges g) k) as [e He]; [apply Hks; set_solver|].
      rewrite (subscript_some _ _ _ He). cbn [mbind outcome_bind mret outcome_ret].
      rewrite IH by set_solver. f_equal. unfold simple_rights. cbn. rewrite He. cbn. set_solver. }
  rewrite Hloop by (intros k; by apply Hk). cbn [mbind outcome_bind]. rewrite update_node_ret by done.
  f_equal. apply map_nodes_ext. intros i m Hi. case_decide; [|done]. subst. rewrite Hn in Hi. injection Hi as <-.
  f_equal. set_solver.
Qed.

Lemma DetachEdge_ret g fw rv left right :
  in_graph g left -> in_graph g right -> left ## right ->
  (forall i n k, m_nodes g !! i = Some n -> k ∈ m_simple_edges n -> k < length (m_edges g)) ->
  DetachEdgeFromNodes g fw rv left right = Ret (map_nodes g (detach_node (m_edges g) fw rv left right)).
Proof.
  intros Hl Hr Hd Hk. unfold DetachEdgeFromNodes, detach_node. destruct (simple left right) eqn:Hs.
  2: by apply for_each_sides.
  destruct (simple_singletons _ _ Hs) as (l & r & -> & ->). rewrite !first_bit_singleton. cbn [mbind outcome_bind].
  assert (N.to_nat l < NodeCount g) by (apply Hl; set_solver).
  assert (N.to_nat r < NodeCount g) by (apply Hr; set_solver).
  assert (forall f, (forall i n k, k ∈ m_simple_edges (f i n) -> k ∈ m_simple_edges n) ->
    forall b n k, m_nodes (map_nodes g f) !! N.to_nat b = Some n -> k ∈ m_simple_edges n -> k < length (m_edges g)) as Hsub.
  { intros f Hf b n k. rewrite lookup_map_nodes. intros (m & Hm & ->)%fmap_Some Hin. eapply Hk; [exact Hm|by eapply Hf]. }
  do 2 (rewrite update_node_ret by (rewrite ?NodeCount_map; done); cbn [mbind outcome_bind]).
  rewrite map_nodes_compose.
  do 2 (rewrite Rebuild_ret; [cbn [mbind outcome_bind]; rewrite ?map_nodes_compose|by rewrite ?NodeCount_map|
    apply Hsub; intros i n k; repeat case_decide; cbn; rewrite ?list_elem_of_filter; tauto]).
  f_equal. apply map_nodes_ext. intros i n _. repeat case_decide; subst; set_solver.
Qed.

(** ** The invariant of the graph *)

Definition is_simple e : bool := simple (m_left e) (m_right e).
Definition flip_edge e : SEdge := mkSEdge (m_right e) (m_left e) (m_edge_id e).

(** Edge [k] leaves node [i] and is simple as [b] says. *)
Definition leaves (es : list SEdge) (b : bool) (i : N) (k : nat) : Prop :=
  exists e, es !! k = Some e /\ is_simple e = b /\ i ∈ m_left e.

(** The lists of a node are its edges, except those of [D]. *)
Record node_but (es : list SEdge) (D : list nat) (i : N) n : Prop := {
  nb_simple : NoDup (m_simple_edges n) /\
    forall k, k ∈ m_simple_edges n <-> leaves es true i k /\ k ∉ D;
  nb_complex : NoDup (m_complex_edges n) /\
    forall k, k ∈ m_complex_edges n <-> leaves es false i k /\ k ∉ D;
  nb_neighborhood : m_simple_neighborhood n = simple_rights es (m_simple_edges n);
}.

Definition node_ok es i n : Prop := node_but es [] i n.

Record edge_ok g e : Prop := {
  eo_left : m_left e <> ∅;
  eo_right : m_right e <> ∅;
  eo_disjoint : m_left e ## m_right e;
  eo_in_left : in_graph g (m_left e);
  eo_in_right : in_graph g (m_right e);
}.

Record graph_wf g : Prop := {
  gw_edges : forall k e, m_edges g !! k = Some e -> edge_ok g e;
  gw_even : exists m, length (m_edges g) = m * 2;
  gw_flip : forall k e, m_edges g !! (k * 2) = Some e -> m_edges g !! (k * 2 + 1) = Some (flip_edge e);
  gw_nodes : forall i n, m_nodes g !! N.to_nat i = Some n -> node_ok (m_edges g) i n;
}.

Lemma simple_comm left right : simple left right = simple right left.
Proof. apply andb_comm. Qed.

Lemma simple_rights_app es ks k :
  simple_rights es (ks ++ [k]) = simple_rights es ks ∪ from_option m_right ∅ (es !! k).
Proof. unfold simple_rights. rewrite fmap_app, union_list_app_L. cbn. set_solver. Qed.

Lemma simple_rights_ext es es' ks :
  (forall k, k ∈ ks -> es !! k = es' !! k) -> simple_rights es ks = simple_rights es' ks.
Proof.
  intros H. unfold simple_rights. f_equal. apply list_fmap_ext. intros i k Hk. f_equal. apply H.
  by eapply list_elem_of_lookup_2.
Qed.

Lemma elem_of_simple_rights es ks x :
  x ∈ simple_rights es ks <-> exists k e, k ∈ ks /\ es !! k = Some e /\ x ∈ m_right e.
Proof.
  unfold simple_rights. rewrite elem_of_union_list. split.
  - intros (X & (k & -> & Hk)%list_elem_of_fmap & Hx). destruct (es !! k) as [e|] eqn:E; cbn in Hx; [|set_solver].
    by exists k, e.
  - intros (k & e & Hk & He & Hx). exists (m_right e). split; [|done]. apply list_elem_of_fmap.
    exists k. by rewrite He.
Qed.

Lemma node_but_ext es es' D i n :
  (forall k, k ∉ D -> es !! k = es' !! k) -> node_but es D i n -> node_but es' D i n.
Proof.
  intros H [[S1 S2] [C1 C2] B].
  assert (forall b k, leaves es b i k /\ k ∉ D <-> leaves es' b i k /\ k ∉ D) as Hl.
  { intros b k. unfold leaves. split; intros [(e & He & Hb) Hk]; (split; [|done]); exists e; split; auto;
      [rewrite <- H|rewrite H]; done. }
  split; [split; [done|]; intros k; by rewrite S2, Hl|split; [done|]; intros k; by rewrite C2, Hl|].
  rewrite B. apply simple_rights_ext. intros k Hk. apply H. by apply S2 in Hk as [_ Hk].
Qed.

(** Both edges of a pair that leave [i] *)
Lemma leaves_pair es b i k fw rv left right id :
  es !! fw = Some (mkSEdge left right id) -> es !! rv = Some (mkSEdge right left id) ->
  leaves es b i k <->
    (leaves es b i k /\ k ∉ [fw; rv]) \/
    (simple left right = b /\ ((k = fw /\ i ∈ left) \/ (k = rv /\ i ∈ right))).
Proof.
  intros Hf Hr. split.
  - intros Hl. destruct (decide (k = fw)) as [->|]; [|destruct (decide (k = rv)) as [->|]].
    + destruct Hl as (e & He & Hb & Hi). rewrite Hf in He. injection He as <-. right. eauto.
    + destruct Hl as (e & He & Hb & Hi). rewrite Hr in He. injection He as <-. right.
      unfold is_simple in Hb. cbn in Hb. rewrite simple_comm. eauto.
    + left. split; [done|]. set_solver.
  - intros [[Hl _]|[Hs [[-> Hi]|[-> Hi]]]]; [done| |].
    + exists (mkSEdge left right id). done.
    + exists (mkSEdge right left id). unfold is_simple. cbn. by rewrite simple_comm.
Qed.

Section Attach.
Context (es : list SEdge) (fw rv : nat) (left right : gset N) (id : N).
Context (Hfr : fw <> rv) (Hdis : left ## right).
Context (Hfw : es !! fw = Some (mkSEdge left right id)).
Context (Hrv : es !! rv = Some (mkSEdge right left id)).

Lemma attach_ok i n : node_but es [fw; rv] i n -> node_ok es i (attach_node fw rv left right i n).
Proof.
  intros [[S1 S2] [C1 C2] B].
  assert (forall b k, leaves es b i k /\ k ∉ [] <->
    (leaves es b i k /\ k ∉ [fw; rv]) \/
    (simple left right = b /\ ((k = fw /\ i ∈ left) \/ (k = rv /\ i ∈ right)))) as Hl.
  { intros b k. rewrite <- (leaves_pair es b i k fw rv left right id Hfw Hrv). set_solver. }
  assert ((fw ∉ m_simple_edges n) /\ (rv ∉ m_simple_edges n) /\ (fw ∉ m_complex_edges n) /\ (rv ∉ m_complex_edges n)) as Hn.
  { rewrite !S2, !C2. set_solver. }
  assert (forall l (k : nat), NoDup l -> k ∉ l -> NoDup (l ++ [k])) as Hsnoc.
  { intros l k Hnd Hk. apply NoDup_app. split; [done|]. split; [set_solver|]. apply NoDup_singleton. }
  unfold attach_node. destruct (simple left right) eqn:Hs; repeat case_decide; (split; cbn;
    [split; [first [done|apply Hsnoc; [done|tauto]]|]; intros k; rewrite Hl, ?elem_of_app, ?list_elem_of_singleton, S2; set_solver
    |split; [first [done|apply Hsnoc; [done|tauto]]|]; intros k; rewrite Hl, ?elem_of_app, ?list_elem_of_singleton, C2; set_solver
    |rewrite ?simple_rights_app, ?Hfw, ?Hrv, B; reflexivity]).
Qed.

Lemma detach_ok i n : node_ok es i n -> node_but es [fw; rv] i (detach_node es fw rv left right i n).
Proof.
  intros [[S1 S2] [C1 C2] B].
  assert (forall b k, leaves es b i k /\ k ∉ [fw; rv] <->
    leaves es b i k /\ ~ (simple left right = b /\ ((k = fw /\ i ∈ left) \/ (k = rv /\ i ∈ right)))) as Hl.
  { intros b k. split.
    - intros [Hb Hk]. split; [done|]. set_solver.
    - intros [Hb Hk]. split; [done|]. apply (leaves_pair es b i k fw rv left right id Hfw Hrv) in Hb. tauto. }
  unfold detach_node. destruct (simple left right) eqn:Hs; repeat case_decide; (split; cbn;
    [split; [try apply NoDup_filter; done|]; intros k; rewrite Hl, ?list_elem_of_filter, S2; set_solver
    |split; [try apply NoDup_filter; done|]; intros k; rewrite Hl, ?list_elem_of_filter, C2; set_solver
    |done]).
Qed.
End Attach.

(** ** The operations keep the invariant *)

(** The two sides of an edge that may be added *)
Record sides_ok g left right : Prop := {
  so_left : left <> ∅;
  so_right : right <> ∅;
  so_disjoint : left ## right;
  so_in_left : in_graph g left;
  so_in_right : in_graph g right;
}.

Lemma assert_sides_ret g left right : sides_ok g left right -> assert_sides left right = Ret tt.
Proof.
  intros [H1 H2 H3 _ _]. unfold assert_sides.
  assert (forall s : gset N, s <> ∅ -> (0 <? size s) = true) as Hs.
  { intros s Hs. apply Nat.ltb_lt. destruct (size s) eqn:E; [|lia]. by apply size_empty_inv, leibniz_equiv in E. }
  rewrite !Hs by done. cbn. by rewrite bool_decide_eq_true_2.
Qed.

Lemma sides_edge_ok g left right id : sides_ok g left right -> edge_ok g (mkSEdge left right id).
Proof. by intros []. Qed.

Lemma sides_flip g left right : sides_ok g left right -> sides_ok g right left.
Proof. by intros []. Qed.

Lemma ctor_wf k : graph_wf (CDPHyperGraph_ctor k).
Proof.
  split; cbn.
  - intros j e. by rewrite lookup_nil.
  - by exists 0.
  - intros j e. by rewrite lookup_nil.
  - intros i n [-> _]%lookup_replicate_1.
    split; cbn; [split; [constructor|]|split; [constructor|]|done]; intros j; split; try set_solver;
      intros [(e & He & _) _]; by rewrite lookup_nil in He.
Qed.

(** The edges of a well-formed graph lie in the same nodes whatever their lists. *)
Lemma edge_ok_count g g' e : NodeCount g' = NodeCount g -> edge_ok g e -> edge_ok g' e.
Proof. intros Hc [H1 H2 H3 H4 H5]. unfold in_graph in *. split; try done; unfold in_graph; rewrite Hc; auto. Qed.

(** Attaching a pair of edges that is in the edge list completes the graph. *)
Lemma attach_wf g fw rv left right id :
  fw <> rv -> left ## right ->
  m_edges g !! fw = Some (mkSEdge left right id) -> m_edges g !! rv = Some (mkSEdge right left id) ->
  (forall k e, m_edges g !! k = Some e -> edge_ok g e) ->
  (exists m, length (m_edges g) = m * 2) ->
  (forall k e, m_edges g !! (k * 2) = Some e -> m_edges g !! (k * 2 + 1) = Some (flip_edge e)) ->
  (forall i n, m_nodes g !! N.to_nat i = Some n -> node_but (m_edges g) [fw; rv] i n) ->
  graph_wf (map_nodes g (attach_node fw rv left right)).
Proof.
  intros Hne Hd Hfw Hrv We Wm Wf Wn. split; cbn [m_edges map_nodes set_nodes]; [|done|done|].
  - intros k e He. apply (edge_ok_count g); [apply NodeCount_map|]. by eapply We.
  - intros i n Hi. rewrite lookup_map_nodes in Hi. apply fmap_Some in Hi as (n0 & Hn0 & ->).
    eapply attach_ok; [done|done|exact Hfw|exact Hrv|]. by apply Wn.
Qed.

Lemma AddEdge_spec g left right id :
  graph_wf g -> sides_ok g left right ->
  returns (AddEdge g left right id) (fun g' =>
    graph_wf g' /\ NodeCount g' = NodeCount g /\
    m_edges g' = m_edges g ++ [mkSEdge left right id; mkSEdge right left id]).
Proof.
  intros [We [m Wm] Wf Wn] Hs. unfold AddEdge. rewrite (assert_sides_ret g) by done. cbn zeta.
  cbn [mbind outcome_bind]. set (fw := length (m_edges g)) in *.
  set (es := m_edges g ++ [mkSEdge left right id; mkSEdge right left id]).
  assert (set_edges (set_edges g (m_edges g ++ [mkSEdge left right id]))
    (m_edges (set_edges g (m_edges g ++ [mkSEdge left right id])) ++ [mkSEdge right left id]) = set_edges g es) as ->
    by (unfold set_edges; cbn; by rewrite <- app_assoc).
  assert (length (m_edges (set_edges g (m_edges g ++ [mkSEdge left right id]))) = fw + 1) as ->
    by (cbn; by rewrite length_app).
  rewrite AttachEdge_ret; [|exact (so_in_left _ _ _ Hs)|exact (so_in_right _ _ _ Hs)|apply Hs].
  apply returns_ret. split; [|split; [exact (NodeCount_map (set_edges g es) _)|done]].
  assert (es !! fw = Some (mkSEdge left right id)) as Hfw by (by apply list_lookup_middle).
  assert (es !! (fw + 1) = Some (mkSEdge right left id)) as Hrv.
  { unfold es. rewrite lookup_app_r by lia. by replace (fw + 1 - length (m_edges g)) with 1 by (unfold fw; lia). }
  assert (forall k, k ∉ [fw; fw + 1] -> m_edges g !! k = es !! k) as Hold.
  { intros k Hk. destruct (decide (k < fw)); [unfold es; by rewrite lookup_app_l|].
    rewrite !not_elem_of_cons in Hk. rewrite !lookup_ge_None_2; [done|unfold es; rewrite length_app; cbn; fold fw; lia|fold fw; lia]. }
  assert (forall k e, es !! k = Some e -> edge_ok g e) as He.
  { intros k e He. destruct (decide (k ∈ [fw; fw + 1])) as [Hk|Hk]; [|rewrite <- Hold in He by done; by eapply We].
    apply elem_of_cons in Hk as [->|Hk]; [|apply list_elem_of_singleton in Hk as ->]; [rewrite Hfw in He|rewrite Hrv in He]; injection He as <-;
      [by apply sides_edge_ok|by apply sides_edge_ok, sides_flip]. }
  apply attach_wf with id; cbn [m_edges m_nodes set_edges]; [lia|apply Hs|done|done| | | |].
  - intros k e Hk. apply (edge_ok_count g); [done|]. by eapply He.
  - exists (m + 1). unfold es. rewrite length_app. fold fw. cbn. lia.
  - intros k e Hk. destruct (decide (k * 2 = fw)) as [E|E].
    + rewrite E, Hfw in *. injection Hk as <-. exact Hrv.
    + rewrite <- Hold in Hk |- * by (rewrite !not_elem_of_cons; split_and!; [lia..|set_solver]). by apply Wf.
  - intros i n Hn. eapply node_but_ext; [exact Hold|]. destruct (Wn i n Hn) as [[S1 S2] [C1 C2] B].
    assert (forall b k, leaves (m_edges g) b i k /\ k ∉ [] <-> leaves (m_edges g) b i k /\ k ∉ [fw; fw + 1]) as Hl.
    { intros b k. split; intros [(e & Hk & Hb) _]; (split; [by exists e|]); [|set_solver].
      apply lookup_lt_Some in Hk. rewrite !not_elem_of_cons. split_and!; [unfold fw; lia..|set_solver]. }
    split; [split; [done|]; intros k; by rewrite S2, Hl|split; [done|]; intros k; by rewrite C2, Hl|exact B].
Qed.

Lemma wf_simple_bound g : graph_wf g ->
  forall i n k, m_nodes g !! i = Some n -> k ∈ m_simple_edges n -> k < length (m_edges g).
Proof.
  intros Hwf i n k Hn Hk. rewrite <- (Nat2N.id i) in Hn.
  apply (nb_simple _ _ _ _ (gw_nodes _ Hwf _ _ Hn)) in Hk as [(e & He & _) _]. by eapply lookup_lt_Some.
Qed.

Lemma ReplaceEdge_spec g k e left right :
  graph_wf g -> sides_ok g left right -> m_edges g !! (k * 2) = Some e ->
  returns (ReplaceEdge g k left right) (fun g' =>
    graph_wf g' /\ NodeCount g' = NodeCount g /\
    m_edges g' = <[k * 2 + 1 := mkSEdge right left (m_edge_id e)]>
                   (<[k * 2 := mkSEdge left right (m_edge_id e)]> (m_edges g))).
Proof.
  intros Hwf Hs Hk. pose proof Hwf as [We [m Wm] Wf Wn]. unfold ReplaceEdge. rewrite (assert_sides_ret g) by done.
  cbn [mbind outcome_bind]. unfold LogicalEdgeCount. pose proof (lookup_lt_Some _ _ _ Hk) as Hlt. rewrite Wm in *.
  rewrite bind_assert by (by rewrite Nat.Div0.mod_mul). rewrite Nat.div_mul by lia.
  cbn [mbind outcome_bind mret outcome_ret]. rewrite bind_assert by (apply Nat.ltb_lt; lia). cbn zeta.
  pose proof (Wf k e Hk) as Hk1. rewrite (subscript_some _ _ _ Hk), (subscript_some _ _ _ Hk1).
  cbn [mbind outcome_bind]. rewrite bind_assert by (cbn; lia).
  destruct (We _ _ Hk) as [E1 E2 E3 E4 E5].
  rewrite DetachEdge_ret; [|done..|intros i n k' Hi Hk'; by eapply wf_simple_bound]. cbn [mbind outcome_bind].
  set (fw := k * 2) in *. set (es := m_edges g). set (es' := <[fw + 1 := mkSEdge right left (m_edge_id e)]> (<[fw := mkSEdge left right (m_edge_id e)]> (m_edges g))).
  set (h := detach_node es fw (fw + 1) (m_left e) (m_right e)).
  assert (set_edges (set_edges (map_nodes g h) (<[fw := mkSEdge left right (m_edge_id e)]> (m_edges (map_nodes g h))))
    (<[fw + 1 := mkSEdge right left (m_edge_id e)]>
      (m_edges (set_edges (map_nodes g h) (<[fw := mkSEdge left right (m_edge_id e)]> (m_edges (map_nodes g h)))))) =
    set_edges (map_nodes g h) es') as -> by done.
  assert (length es = m * 2) as Hlen by done.
  assert (es' !! fw = Some (mkSEdge left right (m_edge_id e))) as Hfw.
  { unfold es'. rewrite list_lookup_insert_ne by lia. apply list_lookup_insert_eq. unfold es in *. lia. }
  assert (es' !! (fw + 1) = Some (mkSEdge right left (m_edge_id e))) as Hrv.
  { apply list_lookup_insert_eq. rewrite length_insert. unfold es in *. unfold fw in *. lia. }
  assert (forall k', k' ∉ [fw; fw + 1] -> es !! k' = es' !! k') as Hold.
  { intros k' Hk'. rewrite !not_elem_of_cons in Hk'. unfold es'. rewrite !list_lookup_insert_ne; [done|lia..]. }
  assert (NodeCount (set_edges (map_nodes g h) es') = NodeCount g) as Hc by apply NodeCount_map.
  assert (in_graph (set_edges (map_nodes g h) es') left /\ in_graph (set_edges (map_nodes g h) es') right) as [Hil Hir].
  { unfold in_graph. rewrite Hc. split; apply Hs. }
  rewrite AttachEdge_ret by (done || apply Hs). apply returns_ret.
  split; [|split; [by rewrite NodeCount_map|done]].
  apply attach_wf with (m_edge_id e); [lia|apply Hs|done|done| | | |]; cbn [m_edges set_edges].
  - intros k' e' He'. apply (edge_ok_count g); [done|].
    destruct (decide (k' ∈ [fw; fw + 1])) as [Hk'|Hk']; [|rewrite <- Hold in He' by done; by eapply We].
    apply elem_of_cons in Hk' as [->|Hk']; [|apply list_elem_of_singleton in Hk' as ->]; [rewrite Hfw in He'|rewrite Hrv in He']; injection He' as <-;
      [by apply sides_edge_ok|by apply sides_edge_ok, sides_flip].
  - exists m. unfold es'. by rewrite !length_insert.
  - intros k' e' He'. destruct (decide (k' * 2 = fw)) as [E|E].
    + rewrite E, Hfw in *. injection He' as <-. exact Hrv.
    + rewrite <- Hold in He' |- * by (rewrite !not_elem_of_cons; unfold fw in *; split_and!; [lia..|set_solver]). by apply Wf.
  - intros i n Hi. eapply node_but_ext; [exact Hold|]. cbn [m_nodes set_edges] in Hi. rewrite lookup_map_nodes in Hi.
    apply fmap_Some in Hi as (n0 & Hn0 & ->).
    apply detach_ok with (m_edge_id e); [lia|done| |exact Hk1|by apply Wn].
    unfold es. rewrite Hk. by destruct e.
Qed.

End HyperGraph.
