(* ===== verification/HyperEnum.v ===== *)
(** * Enumeration of connected subgraphs and their complements

    Source: [CDPHyperEnumerator] of [CDPHyperGraph.h] and [CDPHyperGraph.cpp].
    The enumerator walks over the hypergraph and reports to a receiver the single
    nodes and the pairs of node sets that an edge joins; the receiver says which
    sets it has seen, and may stop the enumeration. The receiver is the class
    [Receiver] below (the C++ interface [IDPHyperReceiver]); its implementation by
    [CDPHyperPlan] is in HyperPlan.v.

    The recursion of [ExpandSubgraph] and [ExpandComplement] grows a node set in
    every step; it is bounded by the number of nodes. *)
From stdpp Require Import base numbers list gmap sets sorting.
From S2P Require Import Prelude HyperGraph.

Module HyperEnum.
Import HyperGraph.
Open Scope nat_scope.

(** [IDPHyperReceiver]; a result [true] stops the enumeration. *)
Class Receiver (R : Type) := {
  FoundSingleNode : R -> N -> outcome (bool * R);
  HasSeen : R -> gset N -> bool;
  FoundSubgraphPair : R -> gset N -> gset N -> N -> outcome (bool * R);
}.

(** ** The neighborhood cache *)

Record CNeighborhoodCache := mkCache {
  m_taboo : gset N;
  m_last_grown : gset N;
  m_last_neighborhood : gset N;
  m_last_full_neighborhood : gset N;
  m_initialized : bool;
}.

Definition CNeighborhoodCache_ctor (neighborhood : gset N) : outcome CNeighborhoodCache :=
  if 0 <? size neighborhood then
    (b ← first_bit neighborhood; mret (mkCache {[b]} ∅ ∅ ∅ false))
  else mret (mkCache ∅ ∅ ∅ ∅ false).

(** The nodes to search, and the two neighborhoods with what is cached added *)
Definition PbsToSearch (c : CNeighborhoodCache) (just_grown neighborhood full_neighborhood : gset N) :
    gset N * gset N * gset N :=
  if m_initialized c && bool_decide (m_last_grown c ⊆ just_grown) then
    (just_grown ∖ m_last_grown c, neighborhood ∪ m_last_neighborhood c,
     full_neighborhood ∪ m_last_full_neighborhood c)
  else (just_grown, neighborhood, full_neighborhood).

Definition Store (c : CNeighborhoodCache) (just_grown neighborhood full_neighborhood : gset N) :
    CNeighborhoodCache :=
  if negb (bool_decide (just_grown ## m_taboo c)) then c
  else mkCache (m_taboo c) just_grown neighborhood full_neighborhood true.

(** ** Small sets *)

Definition PbsSingleton (node_id : N) : gset N := {[node_id]}.

Definition PbsLowerNodes (upper_bound : N) : gset N :=
  list_to_set (N.of_nat <$> seq 0 (N.to_nat upper_bound)).

Definition LowestBit (set : gset N) : outcome N :=
  _ ← GPOS_ASSERT (0 <? size set);
  first_bit set.

Definition PbsLowestBit (set : gset N) : outcome (gset N) :=
  b ← LowestBit set;
  mret (PbsSingleton b).

(** ** Subsets *)

Section Subsets.
Context {T : Type}.

(** [pos] is the part of [bits] not yet decided. The bit set in [current] for the
    second call is cleared after it. *)
Fixpoint EnumerateSubsetsRecursive (pos : list N) (current : gset N)
    (callback : gset N -> T -> outcome (bool * T)) (t : T) : outcome (bool * T) :=
  match pos with
  | [] => if 0 <? size current then callback current t else mret (false, t)
  | b :: pos' =>
      '(stop, t) ← EnumerateSubsetsRecursive pos' current callback t;
      if (stop : bool) then mret (true, t)
      else EnumerateSubsetsRecursive pos' ({[b]} ∪ current) callback t
  end.

Definition EnumerateSubsets (set : gset N) (callback : gset N -> T -> outcome (bool * T)) (t : T) :
    outcome (bool * T) :=
  EnumerateSubsetsRecursive (reverse (bits set)) ∅ callback t.
End Subsets.

Section Enumerator.
Context {R : Type} `{RC : Receiver R}.
Context (g : CDPHyperGraph).

(** ** Neighborhoods *)

(** A complex edge of a grown node *)
Definition add_complex_edge (subgraph forbidden : gset N) (edge_idx : nat) (acc : gset N * gset N) :
    outcome (gset N * gset N) :=
  let '(neighborhood, full_neighborhood) := acc in
  edge ← Edge g edge_idx;
  if negb (bool_decide (m_left edge ⊆ subgraph)) || negb (bool_decide (m_right edge ## subgraph))
     || negb (bool_decide (m_right edge ## forbidden))
  then mret (neighborhood, full_neighborhood)
  else
    let full_neighborhood := full_neighborhood ∪ m_right edge in
    if bool_decide (m_right edge ## neighborhood) then
      (representative ← PbsLowestBit (m_right edge);
       mret (neighborhood ∪ representative, full_neighborhood))
    else mret (neighborhood, full_neighborhood).

(** A grown node *)
Definition add_node_neighbors (subgraph forbidden : gset N) (b : N) (acc : gset N * gset N) :
    outcome (gset N * gset N) :=
  let '(neighborhood, full_neighborhood) := acc in
  node ← Node g b;
  for_each (m_complex_edges node) (add_complex_edge subgraph forbidden)
    (neighborhood ∪ m_simple_neighborhood node, full_neighborhood).

(** The neighborhood, the cache, and the full neighborhood, which is an
    in-and-out argument *)
Definition PbsNeighborhood (subgraph forbidden just_grown : gset N) (cache : CNeighborhoodCache)
    (full_neighborhood : gset N) : outcome (gset N * CNeighborhoodCache * gset N) :=
  _ ← GPOS_ASSERT (bool_decide (just_grown ⊆ subgraph));
  let '(to_search, neighborhood, full_neighborhood) :=
    PbsToSearch cache just_grown ∅ full_neighborhood in
  '(neighborhood, full_neighborhood) ←
    for_each (bits to_search) (add_node_neighbors subgraph forbidden) (neighborhood, full_neighborhood);
  let neighborhood := neighborhood ∖ subgraph in
  let neighborhood := neighborhood ∖ forbidden in
  let full_neighborhood := full_neighborhood ∪ neighborhood in
  let cache := Store cache just_grown neighborhood full_neighborhood in
  mret (neighborhood, cache, full_neighborhood).

(** ** Complements *)

Definition TryConnecting (subgraph subgraph_full_neighborhood complement : gset N) (r : R) :
    outcome (bool * R) :=
  let candidates := complement ∩ subgraph_full_neighborhood in
  for_until (bits candidates) (fun node_id r =>
    node ← Node g node_id;
    '(stop, r) ←
      (if negb (bool_decide (m_simple_neighborhood node ## subgraph)) then
         for_until (m_simple_edges node) (fun edge_idx r =>
           edge ← Edge g edge_idx;
           if negb (bool_decide (m_right edge ## subgraph)) && negb (bool_decide (m_left edge ## complement))
           then FoundSubgraphPair r subgraph complement (m_edge_id edge)
           else mret (false, r)) r
       else mret (false, r));
    if (stop : bool) then mret (true, r)
    else for_until (m_complex_edges node) (fun edge_idx r =>
           edge ← Edge g edge_idx;
           lowest ← LowestBit (m_left edge);
           if bool_decide (node_id = lowest) && bool_decide (m_left edge ⊆ complement)
              && bool_decide (m_right edge ⊆ subgraph)
           then FoundSubgraphPair r subgraph complement (m_edge_id edge)
           else mret (false, r)) r) r.

Fixpoint ExpandComplement (fuel : nat) (lowest_node : N)
    (subgraph subgraph_full_neighborhood complement neighborhood forbidden : gset N) (r : R) :
    outcome (bool * R) :=
  match fuel with
  | O => Abort FFuel
  | S fuel' =>
      _ ← GPOS_ASSERT (bool_decide (subgraph ⊆ forbidden));
      _ ← GPOS_ASSERT (negb (bool_decide (complement ⊆ forbidden)));
      '(stop, r) ← EnumerateSubsets neighborhood (fun grow_by r =>
        let grown := complement ∪ grow_by in
        if HasSeen r grown then TryConnecting subgraph subgraph_full_neighborhood grown r
        else mret (false, r)) r;
      if (stop : bool) then mret (true, r) else
      cache ← CNeighborhoodCache_ctor neighborhood;
      '(stop, (_, r)) ← EnumerateSubsets neighborhood (fun grow_by '(cache, r) =>
        let grown := complement ∪ grow_by in
        let new_forbidden := (forbidden ∪ neighborhood) ∖ grown in
        '(new_neighborhood, cache, _) ← PbsNeighborhood grown new_forbidden grow_by cache ∅;
        '(stop, r) ← ExpandComplement fuel' lowest_node subgraph subgraph_full_neighborhood grown
                       new_neighborhood new_forbidden r;
        mret (stop, (cache, r))) (cache, r);
      mret (stop, r)
  end.

(** The edges that join the subgraph to a single node *)
Definition connect_seed (subgraph : gset N) (seed_id : N) (r : R) : outcome (bool * R) :=
  let seed := PbsSingleton seed_id in
  node ← Node g seed_id;
  '(stop, r) ←
    (if negb (bool_decide (m_simple_neighborhood node ## subgraph)) then
       for_until (m_simple_edges node) (fun edge_idx r =>
         edge ← Edge g edge_idx;
         if negb (bool_decide (m_right edge ## subgraph))
         then FoundSubgraphPair r subgraph seed (m_edge_id edge)
         else mret (false, r)) r
     else mret (false, r));
  if (stop : bool) then mret (true, r)
  else for_until (m_complex_edges node) (fun edge_idx r =>
         edge ← Edge g edge_idx;
         if bool_decide (m_left edge = seed) && bool_decide (m_right edge ⊆ subgraph)
         then FoundSubgraphPair r subgraph seed (m_edge_id edge)
         else mret (false, r)) r.

Definition EnumerateComplements (lowest_node : N) (subgraph full_neighborhood input_neighborhood : gset N)
    (r : R) : outcome (bool * R) :=
  let neighborhood := input_neighborhood ∖ subgraph in
  let forbidden := PbsLowerNodes lowest_node in
  cache ← CNeighborhoodCache_ctor neighborhood;
  let seeds := reverse (bits neighborhood) in
  '(stop, (_, r)) ← for_until seeds (fun seed_id '(cache, r) =>
    let seed := PbsSingleton seed_id in
    '(stop, r) ← connect_seed subgraph seed_id r;
    if (stop : bool) then mret (true, (cache, r)) else
    let lower_seed := PbsLowerNodes seed_id in
    let new_forbidden := forbidden ∪ subgraph in
    let lower_seed := lower_seed ∩ neighborhood in
    let new_forbidden := new_forbidden ∪ lower_seed in
    '(new_neighborhood, cache, _) ← PbsNeighborhood seed new_forbidden seed cache ∅;
    '(stop, r) ← ExpandComplement (S (NodeCount g)) lowest_node subgraph full_neighborhood seed
                   new_neighborhood new_forbidden r;
    mret (stop, (cache, r))) (cache, r);
  mret (stop, r).

(** ** Subgraphs *)

Fixpoint ExpandSubgraph (fuel : nat) (lowest_node : N)
    (subgraph full_neighborhood neighborhood forbidden : gset N) (r : R) : outcome (bool * R) :=
  match fuel with
  | O => Abort FFuel
  | S fuel' =>
      cache ← CNeighborhoodCache_ctor neighborhood;
      '(stop, (cache, r)) ← EnumerateSubsets neighborhood (fun grow_by '(cache, r) =>
        let grown := subgraph ∪ grow_by in
        if negb (HasSeen r grown) then mret (false, (cache, r)) else
        '(new_neighborhood, cache, new_full) ← PbsNeighborhood grown forbidden grow_by cache full_neighborhood;
        let high_nodes := PbsLowerNodes (N.of_nat (NodeCount g)) in
        let low_nodes := PbsLowerNodes lowest_node in
        let high_nodes := high_nodes ∖ low_nodes in
        let previously_forbidden := forbidden ∩ high_nodes in
        let new_neighborhood := new_neighborhood ∪ previously_forbidden in
        let new_neighborhood := new_neighborhood ∪ neighborhood in
        '(stop, r) ← EnumerateComplements lowest_node grown new_full new_neighborhood r;
        mret (stop, (cache, r))) (cache, r);
      if (stop : bool) then mret (true, r) else
      '(stop, (_, r)) ← EnumerateSubsets neighborhood (fun grow_by '(cache, r) =>
        let grown := subgraph ∪ grow_by in
        let new_forbidden := (forbidden ∪ neighborhood) ∖ grown in
        '(new_neighborhood, cache, new_full) ←
          PbsNeighborhood grown new_forbidden grow_by cache full_neighborhood;
        '(stop, r) ← ExpandSubgraph fuel' lowest_node grown new_full new_neighborhood new_forbidden r;
        mret (stop, (cache, r))) (cache, r);
      mret (stop, r)
  end.

(** The body of the loop of [Enumerate] *)
Definition enumerate_from (node_id : N) (r : R) : outcome (bool * R) :=
  '(stop, r) ← FoundSingleNode r node_id;
  if (stop : bool) then mret (true, r) else
  let seed := PbsSingleton node_id in
  let forbidden := PbsLowerNodes node_id in
  cache ← CNeighborhoodCache_ctor ∅;
  '(neighborhood, _, full_neighborhood) ← PbsNeighborhood seed forbidden seed cache ∅;
  '(stop, r) ← EnumerateComplements node_id seed full_neighborhood neighborhood r;
  if (stop : bool) then mret (true, r) else
  let forbidden := forbidden ∪ seed in
  ExpandSubgraph (S (NodeCount g)) node_id seed full_neighborhood neighborhood forbidden r.

Definition Enumerate (r : R) : outcome (bool * R) :=
  for_until (reverse (N.of_nat <$> seq 0 (NodeCount g))) enumerate_from r.
End Enumerator.
End HyperEnum.
