(* ===== verification/HyperSound.v ===== *)
(** * The enumerator runs to its end and reports joinable pairs only

    For every well-formed graph and every receiver: no assertion of the
    enumerator fails, no node or edge is looked up outside the graph, the
    recursion is not deeper than the number of nodes, and the receiver is called
    only with disjoint sets it has seen and an edge that joins them. The second Module
    says what the answer of a run tells of the receiver. *)
From stdpp Require Import base numbers list gmap sets sorting.
From S2P Require Import Prelude HyperGraph HyperEnum.

Module HyperSound.
Import HyperGraph HyperEnum.
Open Scope nat_scope.
Open Scope outcome_scope.

(** Edge [id] joins [a] and [b]. *)
Definition connects (g : CDPHyperGraph) (a b : gset N) (id : N) : Prop :=
  exists k e, m_edges g !! k = Some e /\ m_left e ⊆ a /\ m_right e ⊆ b /\ m_edge_id e = id.

(** A connected subgraph: a node, or two connected subgraphs and an edge between
    them. These are the node sets that a tree of joins can produce. *)
Inductive csg (g : CDPHyperGraph) : gset N -> Prop :=
  | csg_node v : N.to_nat v < NodeCount g -> csg g {[v]}
  | csg_join a b id : csg g a -> csg g b -> a ## b -> connects g a b id -> csg g (a ∪ b).

(** What the enumerator relies on and what it grants: the receiver keeps what it
    has seen, and is called under the stated conditions. *)
Class ReceiverLaws (g : CDPHyperGraph) (R : Type) `{Receiver R} := {
  rc_inv : R -> Prop;
  rc_ext : R -> R -> Prop;
  rc_preorder :: PreOrder rc_ext;
  rc_seen_mono r r' s : rc_ext r r' -> HasSeen r s = true -> HasSeen r' s = true;
  rc_single r v : rc_inv r -> N.to_nat v < NodeCount g ->
    FoundSingleNode r v ⤳ (fun x => rc_inv x.2 /\ rc_ext r x.2 /\ HasSeen x.2 {[v]} = true);
  rc_pair r a b id : rc_inv r -> HasSeen r a = true -> HasSeen r b = true -> a ## b -> connects g a b id ->
    FoundSubgraphPair r a b id ⤳ (fun x => rc_inv x.2 /\ rc_ext r x.2);
}.

(** ** Subsets in the order of the enumeration *)

Fixpoint all_subsets (pos : list N) (current : gset N) : list (gset N) :=
  match pos with
  | [] => [current]
  | b :: pos' => all_subsets pos' current ++ all_subsets pos' ({[b]} ∪ current)
  end.

Definition subsets (s : gset N) : list (gset N) := filter (fun x => x <> ∅) (all_subsets (reverse (bits s)) ∅).

Lemma for_until_app {A T} (l1 l2 : list A) (f : A -> T -> outcome (bool * T)) t :
  for_until (l1 ++ l2) f t =
  ('(stop, t) ← for_until l1 f t; if (stop : bool) then mret (true, t) else for_until l2 f t).
Proof.
  revert t. induction l1 as [|a l1 IH]; intros t; [done|]. cbn.
  destruct (f a t) as [[[] t']|]; cbn; [done|apply IH|done].
Qed.

Lemma size_pos (s : gset N) : (0 <? size s) = bool_decide (s <> ∅).
Proof.
  case_bool_decide as Hs; [apply Nat.ltb_lt|apply Nat.ltb_ge].
  - destruct (size s) eqn:E; [|lia]. by apply size_empty_inv, leibniz_equiv in E.
  - assert (s = ∅) as -> by (by destruct (decide (s = ∅))). by rewrite size_empty.
Qed.

Lemma EnumerateSubsets_list {T} s (cb : gset N -> T -> outcome (bool * T)) t :
  EnumerateSubsets s cb t = for_until (subsets s) cb t.
Proof.
  assert (forall pos cur t, EnumerateSubsetsRecursive pos cur cb t =
    for_until (filter (fun x => x <> ∅) (all_subsets pos cur)) cb t) as Hgen; [|apply Hgen].
  clear t. induction pos as [|b pos IH]; intros cur t; cbn [all_subsets EnumerateSubsetsRecursive].
  - rewrite size_pos, filter_cons, filter_nil. destruct (decide (cur <> ∅)) as [Hc|Hc].
    + rewrite bool_decide_eq_true_2 by done. cbn. destruct (cb cur t) as [[[] t']|]; done.
    + by rewrite bool_decide_eq_false_2.
  - rewrite filter_app, for_until_app, <- !IH.
    destruct (EnumerateSubsetsRecursive pos cur cb t) as [[[] t']|]; [done|cbn; apply IH|done].
Qed.

Lemma elem_of_all_subsets pos cur x :
  x ∈ all_subsets pos cur <-> exists y, x = y ∪ cur /\ y ⊆ list_to_set pos.
Proof.
  revert cur. induction pos as [|b pos IH]; intros cur; cbn [all_subsets].
  - rewrite list_elem_of_singleton. split; [intros ->; exists ∅; set_solver|].
    intros (y & -> & Hy). assert (y = ∅) as -> by set_solver. set_solver.
  - rewrite elem_of_app, !IH. split.
    + intros [(y & -> & Hy)|(y & -> & Hy)]; [exists y; set_solver|exists ({[b]} ∪ y); set_solver].
    + intros (y & -> & Hy). destruct (decide (b ∈ y)) as [Hb|Hb]; [right|left].
      * exists (y ∖ {[b]}). split; [|set_solver]. rewrite assoc_L by apply _.
        f_equal. rewrite (union_comm_L _ {[b]}). apply union_difference_L. set_solver.
      * exists y. split; [done|]. set_solver.
Qed.

Lemma elem_of_subsets s x : x ∈ subsets s <-> x ⊆ s /\ x <> ∅.
Proof.
  unfold subsets. rewrite list_elem_of_filter, elem_of_all_subsets.
  assert (list_to_set (reverse (bits s)) = s) as ->.
  { apply set_eq. intros b. rewrite elem_of_list_to_set, elem_of_reverse, elem_of_bits. done. }
  split; [intros [Hx (y & -> & Hy)]; set_solver|]. intros [Hx Hn]. split; [done|]. exists x. set_solver.
Qed.

(** ** Node sets of the graph *)

Definition nodes (g : CDPHyperGraph) : gset N := PbsLowerNodes (N.of_nat (NodeCount g)).

Lemma elem_of_lower x v : x ∈ PbsLowerNodes v <-> (x < v)%N.
Proof.
  unfold PbsLowerNodes. rewrite elem_of_list_to_set, list_elem_of_fmap. split.
  - intros (k & -> & Hk%elem_of_seq). lia.
  - intros Hx. exists (N.to_nat x). rewrite elem_of_seq. lia.
Qed.

Lemma elem_of_nodes g x : x ∈ nodes g <-> N.to_nat x < NodeCount g.
Proof. unfold nodes. rewrite elem_of_lower. lia. Qed.

Lemma csg_nonempty g s : csg g s -> s <> ∅.
Proof. induction 1; set_solver. Qed.

Lemma csg_nodes g s : csg g s -> s ⊆ nodes g.
Proof. induction 1 as [v Hv|]; [|set_solver]. apply singleton_subseteq_l. by apply elem_of_nodes. Qed.

Lemma in_graph_nodes g s : in_graph g s <-> s ⊆ nodes g.
Proof. unfold in_graph. split; intros H x Hx; [apply elem_of_nodes|apply elem_of_nodes]; by apply H. Qed.

Lemma size_nodes g : size (nodes g) = NodeCount g.
Proof.
  unfold nodes, PbsLowerNodes. rewrite Nat2N.id, size_list_to_set.
  - by rewrite length_fmap, length_seq.
  - apply NoDup_fmap_2; [intros x y; lia|apply NoDup_seq].
Qed.

(** A set that grows inside the nodes is smaller than their number before. *)
Lemma grown_size g (c s : gset N) :
  c ∪ s ⊆ nodes g -> s ## c -> s <> ∅ -> size c < size (c ∪ s) <= NodeCount g.
Proof.
  intros Hn Hd Hs. rewrite <- (size_nodes g). split; [|by apply subseteq_size].
  rewrite size_union by set_solver. destruct (size s) eqn:E; [|lia].
  by apply size_empty_inv, leibniz_equiv in E.
Qed.

(** The sets of the next level of the recursion *)
Lemma next_forbidden (X C nb forb s : gset N) :
  X ⊆ forb -> X ## C -> nb ## forb -> s ⊆ nb -> X ⊆ (forb ∪ nb) ∖ (C ∪ s).
Proof. set_solver. Qed.

Lemma next_disjoint (C F s : gset N) : (C ∪ s) ## F ∖ (C ∪ s).
Proof. set_solver. Qed.

Lemma next_nonempty (C s : gset N) : C <> ∅ -> C ∪ s <> ∅.
Proof. set_solver. Qed.

Lemma next_nodes (C nb s V : gset N) : C ⊆ V -> nb ⊆ V -> s ⊆ nb -> C ∪ s ⊆ V.
Proof. set_solver. Qed.

Lemma meets_singleton (x : N) (s : gset N) : ~ {[x]} ## s -> {[x]} ⊆ s.
Proof. intros H. destruct (decide (x ∈ s)); set_solver. Qed.

Section Sound.
Context {R : Type} `{RC : Receiver R} (g : CDPHyperGraph) (Hwf : graph_wf g) `{RL : !ReceiverLaws g R}.
Implicit Types (r : R) (s sub forb full jg nb S C : gset N) (c : CNeighborhoodCache).

Lemma edge_in_nodes k e : m_edges g !! k = Some e -> m_left e ⊆ nodes g /\ m_right e ⊆ nodes g.
Proof.
  intros He. destruct (gw_edges _ Hwf _ _ He) as [_ _ _ H1 H2]. by rewrite <- !in_graph_nodes.
Qed.

(** Every directed edge has its reverse. *)
Lemma flip_in k e : m_edges g !! k = Some e -> exists k', m_edges g !! k' = Some (flip_edge e).
Proof.
  intros He. destruct (gw_even _ Hwf) as [m Hm]. pose proof (lookup_lt_Some _ _ _ He) as Hlt.
  destruct (Nat.even k) eqn:Hk.
  - apply Nat.even_spec in Hk as [j ->]. exists (j * 2 + 1). apply (gw_flip _ Hwf). by rewrite Nat.mul_comm.
  - assert (Nat.odd k = true) as Ho by (unfold Nat.odd; by rewrite Hk). apply Nat.odd_spec in Ho as [j ->].
    destruct (lookup_lt_is_Some_2 (m_edges g) (j * 2)) as [e' He']; [lia|].
    exists (j * 2). pose proof (gw_flip _ Hwf _ _ He') as Hf.
    replace (j * 2 + 1) with (2 * j + 1) in Hf by lia. rewrite He in Hf. injection Hf as ->.
    rewrite He'. by destruct e'.
Qed.

Lemma connects_sym (a b : gset N) id : connects g a b id -> connects g b a id.
Proof.
  intros (k & e & He & Ha & Hb & Hid). destruct (flip_in k e He) as [k' Hk'].
  by exists k', (flip_edge e).
Qed.

Lemma Node_ret v : v ∈ nodes g -> exists n, Node g v = Ret n /\ node_ok (m_edges g) v n.
Proof.
  intros Hv%elem_of_nodes. destruct (lookup_lt_is_Some_2 _ _ Hv) as [n Hn]. exists n. unfold Node. rewrite Hn.
  split; [done|]. by apply (gw_nodes _ Hwf).
Qed.

(** The edges in the lists of a node *)
Lemma simple_edge v n k :
  node_ok (m_edges g) v n -> k ∈ m_simple_edges n ->
  exists e x, Edge g k = Ret e /\ m_edges g !! k = Some e /\ m_left e = {[v]} /\ m_right e = {[x]}.
Proof.
  intros [[_ S] _ _] Hk. apply S in Hk as [(e & He & Hs & Hv) _].
  destruct (simple_singletons _ _ Hs) as (l & x & Hl & Hx). exists e, x. unfold Edge. rewrite He.
  rewrite Hl in Hv. apply elem_of_singleton in Hv as ->. done.
Qed.

Lemma complex_edge v n k :
  node_ok (m_edges g) v n -> k ∈ m_complex_edges n ->
  exists e, Edge g k = Ret e /\ m_edges g !! k = Some e /\ v ∈ m_left e /\ is_simple e = false.
Proof.
  intros [_ [_ C] _] Hk. apply C in Hk as [(e & He & Hs & Hv) _]. exists e. unfold Edge. by rewrite He.
Qed.

Lemma simple_neighbors v n x :
  node_ok (m_edges g) v n -> x ∈ m_simple_neighborhood n <->
  exists k e, m_edges g !! k = Some e /\ m_left e = {[v]} /\ m_right e = {[x]}.
Proof.
  intros [[_ S] _ B]. rewrite B, elem_of_simple_rights. split.
  - intros (k & e & Hk & He & Hx). apply S in Hk as [(e' & He' & Hs & Hv) _]. rewrite He in He'. injection He' as <-.
    destruct (simple_singletons _ _ Hs) as (l & y & Hl & Hy). exists k, e. rewrite Hl, Hy in *. set_solver.
  - intros (k & e & He & Hl & Hx). exists k, e. split; [|split; [done|]; rewrite Hx; set_solver].
    apply S. split; [|set_solver]. exists e. split; [done|]. unfold is_simple, simple. rewrite Hl, Hx, !size_singleton.
    set_solver.
Qed.

Lemma LowestBit_ret s : s <> ∅ -> exists b, LowestBit s = Ret b /\ is_min b s.
Proof.
  intros Hs. unfold LowestBit. rewrite size_pos, bool_decide_eq_true_2 by done. by apply first_bit_spec.
Qed.

(** ** Neighborhoods *)

Lemma add_complex_edge_nodes sub forb k v n acc :
  node_ok (m_edges g) v n -> k ∈ m_complex_edges n -> acc.1 ⊆ nodes g ->
  add_complex_edge g sub forb k acc ⤳ (fun x => x.1 ⊆ nodes g).
Proof.
  intros Hn Hk Ha. destruct acc as [nb full]. unfold add_complex_edge.
  destruct (complex_edge v n k Hn Hk) as (e & -> & He & _). cbn [mbind outcome_bind].
  destruct (_ || _); [by apply returns_ret|]. case_bool_decide; [|by apply returns_ret].
  unfold PbsLowestBit. destruct (LowestBit_ret (m_right e)) as (b & -> & Hb & _); [by apply (gw_edges _ Hwf k)|].
  apply returns_ret. cbn in *. destruct (edge_in_nodes k e He). unfold PbsSingleton. set_solver.
Qed.

Lemma add_node_neighbors_nodes sub forb v acc :
  v ∈ nodes g -> acc.1 ⊆ nodes g -> add_node_neighbors g sub forb v acc ⤳ (fun x => x.1 ⊆ nodes g).
Proof.
  intros Hv Ha. destruct acc as [nb full]. unfold add_node_neighbors.
  destruct (Node_ret v Hv) as (n & -> & Hn). cbn [mbind outcome_bind].
  apply (for_each_rule (fun _ x => x.1 ⊆ nodes g)).
  - cbn in *. assert (m_simple_neighborhood n ⊆ nodes g); [|set_solver].
    intros x (k & e & He & _ & Hx)%(simple_neighbors v n x Hn). destruct (edge_in_nodes k e He). set_solver.
  - intros pre k rest x Hl Hx. eapply add_complex_edge_nodes; [exact Hn|rewrite Hl; set_solver|done].
Qed.

Definition cache_nodes (c : CNeighborhoodCache) : Prop := m_last_neighborhood c ⊆ nodes g.

Lemma cache_ctor_ret s : exists c, CNeighborhoodCache_ctor s = Ret c /\ m_initialized c = false /\
  m_last_neighborhood c = ∅ /\ forall b, is_min b s -> m_taboo c = {[b]}.
Proof.
  unfold CNeighborhoodCache_ctor. rewrite size_pos. case_bool_decide as Hs.
  - destruct (first_bit_spec s Hs) as (b & -> & Hb). eexists. split; [done|]. split; [done|]. split; [done|].
    intros b' Hb'. cbn. by rewrite (is_min_unique b' b s).
  - eexists. split; [done|]. split; [done|]. split; [done|]. intros b [Hb _]. set_solver.
Qed.

Lemma Store_nodes c jg nb full : nb ⊆ nodes g -> cache_nodes c -> cache_nodes (Store c jg nb full).
Proof. intros Hn Hc. unfold Store. by destruct (negb _). Qed.

Lemma PbsNeighborhood_nodes sub forb jg c full :
  jg ⊆ sub -> sub ⊆ nodes g -> cache_nodes c ->
  PbsNeighborhood g sub forb jg c full ⤳ (fun x =>
    x.1.1 ⊆ nodes g /\ x.1.1 ## sub /\ x.1.1 ## forb /\ cache_nodes x.1.2).
Proof.
  intros Hjg Hsub Hc. unfold PbsNeighborhood. rewrite bool_decide_eq_true_2 by done. cbn [mbind outcome_bind GPOS_ASSERT].
  destruct (PbsToSearch c jg ∅ full) as [[ts nb] fl] eqn:E.
  assert (ts ⊆ nodes g /\ nb ⊆ nodes g) as [Hts Hnb].
  { unfold PbsToSearch in E. unfold cache_nodes in Hc. destruct (_ && _); injection E as <- <- <-; set_solver. }
  eapply returns_bind; [apply (for_each_rule (fun _ x => x.1 ⊆ nodes g)); [exact Hnb|]|].
  - intros pre v rest x Hl Hx. apply add_node_neighbors_nodes; [|done]. apply Hts, elem_of_bits. rewrite Hl. set_solver.
  - intros [nb' fl'] Hnb'. apply returns_ret. cbn in *. split_and!; [set_solver..|].
    apply Store_nodes; [set_solver|done].
Qed.

(** ** The state of the receiver during the enumeration *)

(** The nodes from [lo] on have been announced. *)
Definition good (lo : N) r : Prop :=
  rc_inv r /\ forall v, (lo <= v)%N -> v ∈ nodes g -> HasSeen r {[v]} = true.

(** What every part of the enumeration guarantees, whether it stops early or not *)
Definition kept (lo : N) r (x : bool * R) : Prop := good lo x.2 /\ rc_ext r x.2.

Lemma kept_refl lo r b : good lo r -> kept lo r (b, r).
Proof. intros H. split; [done|]. cbn. reflexivity. Qed.

Lemma kept_trans lo r r' b x : kept lo r (b, r') -> kept lo r' x -> kept lo r x.
Proof. intros [_ H1] [H2 H3]. split; [done|]. by transitivity r'. Qed.

Lemma good_ext lo r r' : good lo r -> rc_inv r' -> rc_ext r r' -> good lo r'.
Proof. intros [_ H] Hi He. split; [done|]. intros v Hv Hn. eapply rc_seen_mono; [done|]. by apply H. Qed.

(** A loop whose body keeps the receiver keeps it. *)
Lemma for_until_kept {A} lo (l : list A) (f : A -> R -> outcome (bool * R)) r :
  good lo r -> (forall a r', a ∈ l -> good lo r' -> rc_ext r r' -> f a r' ⤳ kept lo r') ->
  for_until l f r ⤳ kept lo r.
Proof.
  intros Hr Hf. eapply returns_mono; [apply (for_until_rule (fun _ r' => kept lo r (false, r')) (fun r' => kept lo r (true, r')))|].
  - by apply kept_refl.
  - intros pre a rest r' Hl [H1 H2]. eapply returns_mono; [apply Hf; [rewrite Hl; set_solver|done..]|].
    intros [[] r''] Hk; cbn; by apply (kept_trans lo r r' false).
  - intros [[] r'] Hk; done.
Qed.

(** The same with a state beside the receiver, which keeps [J]. *)
Lemma for_until_kept_with {A T} lo (J : T -> Prop) (l : list A) (f : A -> T * R -> outcome (bool * (T * R))) t r :
  good lo r -> J t ->
  (forall a t' r', a ∈ l -> good lo r' -> J t' -> rc_ext r r' ->
     f a (t', r') ⤳ (fun x => J x.2.1 /\ kept lo r' (x.1, x.2.2))) ->
  for_until l f (t, r) ⤳ (fun x => J x.2.1 /\ kept lo r (x.1, x.2.2)).
Proof.
  intros Hr Ht Hf. eapply returns_mono;
    [apply (for_until_rule (fun _ y => J y.1 /\ kept lo r (false, y.2)) (fun y => J y.1 /\ kept lo r (true, y.2)))|].
  - split; [done|by apply kept_refl].
  - intros pre a rest [t' r'] Hl [HJ [H1 H2]]. eapply returns_mono; [apply Hf; [rewrite Hl; set_solver|done..]|].
    intros [[] [t'' r'']] [HJ' Hk]; cbn in *; (split; [done|]); by apply (kept_trans lo r r' false).
  - intros [[] [t' r']] Hk; done.
Qed.

Lemma report_kept lo r a b id :
  good lo r -> HasSeen r a = true -> HasSeen r b = true -> a ## b -> connects g a b id ->
  FoundSubgraphPair r a b id ⤳ kept lo r.
Proof.
  intros Hr Ha Hb Hd Hc. eapply returns_mono; [apply rc_pair; try done; apply Hr|].
  intros x [H1 H2]. split; [|done]. by eapply good_ext.
Qed.

(** ** Connecting *)

Lemma TryConnecting_kept lo S full C r :
  good lo r -> HasSeen r S = true -> HasSeen r C = true -> S ## C -> C ⊆ nodes g ->
  TryConnecting g S full C r ⤳ kept lo r.
Proof.
  intros Hr HS HC Hd HCn. unfold TryConnecting. apply for_until_kept; [done|].
  intros v r1 Hv%elem_of_bits Hr1 He1. destruct (Node_ret v) as (n & -> & Hn); [set_solver|].
  cbn [mbind outcome_bind].
  assert (HasSeen r1 S = true /\ HasSeen r1 C = true) as [HS1 HC1] by (split; by eapply rc_seen_mono).
  eapply returns_bind with (P := kept lo r1).
  - destruct (negb _); [|apply returns_ret; by apply kept_refl]. apply for_until_kept; [done|].
    intros k r2 Hk Hr2 He2. destruct (simple_edge v n k Hn Hk) as (e & x & -> & He & Hl & Hx). cbn [mbind outcome_bind].
    destruct (_ && _) eqn:E; [|apply returns_ret; by apply kept_refl].
    apply andb_prop in E as [E1%negb_true_iff%bool_decide_eq_false E2%negb_true_iff%bool_decide_eq_false].
    apply report_kept; [done|by eapply rc_seen_mono..|done|]. apply connects_sym. exists k, e.
    rewrite Hl in E2 |- *. rewrite Hx in E1 |- *. split_and!; [done|by apply meets_singleton..|done].
  - intros [stop r2] Hk2. destruct stop; [by apply returns_ret|].
    eapply returns_mono; [|intros x Hx; eapply kept_trans; [exact Hk2|exact Hx]]. destruct Hk2 as [Hr2 He2].
    apply for_until_kept; [done|]. intros k r3 Hk Hr3 He3.
    destruct (complex_edge v n k Hn Hk) as (e & -> & He & _). cbn [mbind outcome_bind].
    destruct (LowestBit_ret (m_left e)) as (b & -> & _); [by apply (gw_edges _ Hwf k)|]. cbn [mbind outcome_bind].
    destruct (_ && _) eqn:E; [|apply returns_ret; by apply kept_refl].
    apply andb_prop in E as [[_ E1%bool_decide_eq_true]%andb_prop E2%bool_decide_eq_true].
    assert (rc_ext r1 r3) by (by transitivity r2).
    apply report_kept; [done|by eapply rc_seen_mono..|done|]. apply connects_sym. by exists k, e.
Qed.

Lemma connect_seed_kept lo S v r :
  good lo r -> HasSeen r S = true -> v ∈ nodes g -> (lo <= v)%N -> v ∉ S ->
  connect_seed g S v r ⤳ kept lo r.
Proof.
  intros Hr HS Hv Hlo Hn. unfold connect_seed. destruct (Node_ret v) as (n & -> & Hnode); [done|]. cbn [mbind outcome_bind].
  assert (forall r', good lo r' -> rc_ext r r' -> forall id, connects g {[v]} S id ->
    FoundSubgraphPair r' S {[v]} id ⤳ kept lo r') as Hrep.
  { intros r' Hr' He' id Hc. apply report_kept; [done|by eapply rc_seen_mono|by apply Hr'|set_solver|by apply connects_sym]. }
  eapply returns_bind with (P := kept lo r).
  - destruct (negb _); [|apply returns_ret; by apply kept_refl]. apply for_until_kept; [done|].
    intros k r2 Hk Hr2 He2. destruct (simple_edge v n k Hnode Hk) as (e & x & -> & He & Hl & Hx). cbn [mbind outcome_bind].
    destruct (negb _) eqn:E; [|apply returns_ret; by apply kept_refl].
    apply negb_true_iff, bool_decide_eq_false in E. apply Hrep; [done..|]. exists k, e.
    rewrite Hl, Hx. rewrite Hx in E. split_and!; [done..|by apply meets_singleton|done].
  - intros [stop r2] Hk2. destruct stop; [by apply returns_ret|].
    eapply returns_mono; [|intros x Hx; eapply kept_trans; [exact Hk2|exact Hx]]. destruct Hk2 as [Hr2 He2].
    apply for_until_kept; [done|]. intros k r3 Hk Hr3 He3.
    destruct (complex_edge v n k Hnode Hk) as (e & -> & He & _). cbn [mbind outcome_bind].
    destruct (_ && _) eqn:E; [|apply returns_ret; by apply kept_refl].
    apply andb_prop in E as [E1%bool_decide_eq_true E2%bool_decide_eq_true].
    apply Hrep; [done|by transitivity r2|]. exists k, e. unfold PbsSingleton in E1. rewrite E1. done.
Qed.

(** ** Complements *)

Lemma ExpandComplement_kept lo S full : forall fuel C nb forb r,
  good lo r -> HasSeen r S = true -> S ⊆ forb -> C ## forb -> C <> ∅ -> C ⊆ nodes g ->
  nb ## forb -> nb ## C -> nb ⊆ nodes g -> NodeCount g < fuel + size C ->
  ExpandComplement g fuel lo S full C nb forb r ⤳ kept lo r.
Proof.
  induction fuel as [|fuel IH]; intros C nb forb r Hr HS HSf HCf HC HCn Hnf HnC Hnn Hfuel.
  { pose proof (subseteq_size _ _ HCn) as Hle. rewrite size_nodes in Hle. lia. }
  cbn [ExpandComplement]. rewrite bind_assert by (by apply bool_decide_eq_true).
  rewrite bind_assert by (rewrite bool_decide_eq_false_2; [done|set_solver]).
  eapply returns_bind with (P := kept lo r).
  - rewrite EnumerateSubsets_list. apply for_until_kept; [done|]. intros s r' [Hs _]%elem_of_subsets Hr' He.
    destruct (HasSeen r' (C ∪ s)) eqn:Hseen; [|apply returns_ret; by apply kept_refl].
    apply TryConnecting_kept; [done|by eapply rc_seen_mono|done|set_solver|set_solver].
  - intros [stop r1] Hk1. destruct stop; [by apply returns_ret|].
    destruct (cache_ctor_ret nb) as (c & -> & _ & Hc & _). cbn [mbind outcome_bind].
    rewrite EnumerateSubsets_list.
    eapply returns_bind; [apply (for_until_kept_with lo cache_nodes); [apply Hk1|unfold cache_nodes; rewrite Hc; set_solver|]|].
    + intros s c' r' [Hs Hs0]%elem_of_subsets Hr' Hc' He'. cbn zeta.
      eapply returns_bind; [apply PbsNeighborhood_nodes; [set_solver..|done]|].
      intros [[nn c2] fl] (Hn1 & Hn2 & Hn3 & Hc2). cbn in Hn1, Hn2, Hn3, Hc2.
      destruct (grown_size g C s) as [Hsz _]; [set_solver|set_solver|done|].
      assert (C ∪ s ⊆ nodes g) as HCs by (by apply (next_nodes C nb)).
      eapply returns_bind; [apply (IH (C ∪ s)); [done| |apply next_forbidden; [done|set_solver|done|done]|
        apply next_disjoint|by apply next_nonempty|done|done|done|done|lia]|].
      * eapply rc_seen_mono; [|exact HS]. etransitivity; [apply Hk1|done].
      * intros [stop r2] Hk2. by apply returns_ret.
    + intros [stop [c' r2]] [_ Hk2]. apply returns_ret. by eapply (kept_trans lo r r1).
Qed.

Lemma EnumerateComplements_kept lo S full nb r :
  good lo r -> HasSeen r S = true -> nb ⊆ nodes g -> (forall v, v ∈ nb -> (lo <= v)%N) ->
  EnumerateComplements g lo S full nb r ⤳ kept lo r.
Proof.
  intros Hr HS Hn Hlo. unfold EnumerateComplements. cbn zeta.
  destruct (cache_ctor_ret (nb ∖ S)) as (c & -> & _ & Hc & _). cbn [mbind outcome_bind].
  eapply returns_bind; [apply (for_until_kept_with lo cache_nodes); [done|unfold cache_nodes; rewrite Hc; set_solver|]|].
  - intros v c' r' Hv Hr' Hc' He'. rewrite elem_of_reverse, elem_of_bits in Hv.
    assert (HasSeen r' S = true) as HS' by (by eapply rc_seen_mono).
    assert ((lo <= v)%N) as Hv' by (apply Hlo; set_solver).
    eapply returns_bind; [apply (connect_seed_kept lo); [done|done|set_solver|done|set_solver]|].
    intros [stop r1] Hk1. destruct stop; [by apply returns_ret|]. unfold PbsSingleton.
    eapply returns_bind; [apply PbsNeighborhood_nodes; [done|set_solver|done]|].
    intros [[nn c2] fl] (Hn1 & Hn2 & Hn3 & Hc2). cbn in Hn1, Hn2, Hn3, Hc2.
    eapply returns_bind; [apply (ExpandComplement_kept lo S full)|].
    + apply Hk1.
    + eapply rc_seen_mono; [apply Hk1|done].
    + set_solver.
    + assert (v ∉ PbsLowerNodes lo) by (rewrite elem_of_lower; lia).
      assert (v ∉ PbsLowerNodes v) by (rewrite elem_of_lower; lia). set_solver.
    + set_solver.
    + set_solver.
    + exact Hn3.
    + exact Hn2.
    + exact Hn1.
    + lia.
    + intros [stop r2] Hk2. apply returns_ret. cbn. split; [done|]. by eapply (kept_trans lo r' r1).
  - intros [stop [c' r']] [_ Hk]. by apply returns_ret.
Qed.

(** ** Subgraphs *)

Lemma ExpandSubgraph_kept lo : forall fuel S full nb forb r,
  good lo r -> S <> ∅ -> S ⊆ nodes g -> S ## PbsLowerNodes lo -> PbsLowerNodes lo ⊆ forb ->
  nb ## forb -> nb ## S -> nb ⊆ nodes g -> NodeCount g < fuel + size S ->
  ExpandSubgraph g fuel lo S full nb forb r ⤳ kept lo r.
Proof.
  induction fuel as [|fuel IH]; intros S full nb forb r Hr HS HSn HSl Hlf Hnf HnS Hnn Hfuel.
  { pose proof (subseteq_size _ _ HSn) as Hle. rewrite size_nodes in Hle. lia. }
  cbn [ExpandSubgraph]. destruct (cache_ctor_ret nb) as (c & -> & _ & Hc & _). cbn [mbind outcome_bind].
  rewrite !EnumerateSubsets_list.
  eapply returns_bind; [apply (for_until_kept_with lo cache_nodes); [done|unfold cache_nodes; rewrite Hc; set_solver|]|].
  - intros s c' r' [Hs Hs0]%elem_of_subsets Hr' Hc' He'.
    destruct (HasSeen r' (S ∪ s)) eqn:Hseen; cbn [negb]; [|by apply returns_ret; split; [|apply kept_refl]].
    eapply returns_bind; [apply PbsNeighborhood_nodes; [set_solver..|done]|].
    intros [[nn c2] fl] (Hn1 & Hn2 & Hn3 & Hc2). cbn in Hn1, Hn2, Hn3, Hc2.
    eapply returns_bind; [apply EnumerateComplements_kept; [done|done| |]|].
    + intros x. rewrite !elem_of_union, elem_of_intersection, elem_of_difference. unfold nodes in *. set_solver.
    + intros x. rewrite !elem_of_union, elem_of_intersection, elem_of_difference, !elem_of_lower.
      assert (x ∈ nn \/ x ∈ nb -> x ∉ PbsLowerNodes lo) as Hx by set_solver.
      rewrite elem_of_lower in Hx. intros [[Hx'|Hx']|Hx']; [specialize (Hx (or_introl Hx'))| |specialize (Hx (or_intror Hx'))]; lia.
    + intros [stop r1] Hk1. by apply returns_ret.
  - intros [stop [c1 r1]] [Hc1 Hk1]. cbn in Hc1, Hk1. destruct stop; [by apply returns_ret|].
    rewrite EnumerateSubsets_list.
    eapply returns_bind; [apply (for_until_kept_with lo cache_nodes); [apply Hk1|done|]|].
    + intros s c' r' [Hs Hs0]%elem_of_subsets Hr' Hc' He'. cbn zeta.
      eapply returns_bind; [apply PbsNeighborhood_nodes; [set_solver..|done]|].
      intros [[nn c2] fl] (Hn1 & Hn2 & Hn3 & Hc2). cbn in Hn1, Hn2, Hn3, Hc2.
      destruct (grown_size g S s) as [Hsz _]; [set_solver|set_solver|done|].
      assert (S ∪ s ⊆ nodes g) as HSs by (by apply (next_nodes S nb)).
      assert (S ∪ s ## PbsLowerNodes lo) as Hsl by set_solver.
      eapply returns_bind; [apply (IH (S ∪ s)); [done|by apply next_nonempty|done|done|
        apply next_forbidden; [done|set_solver|done|done]|done|done|done|lia]|].
      intros [stop r2] Hk2. by apply returns_ret.
    + intros [stop [c' r2]] [_ Hk2]. apply returns_ret. by eapply (kept_trans lo r r1).
Qed.

Lemma enumerate_from_kept v r :
  good (v + 1) r -> v ∈ nodes g -> enumerate_from g v r ⤳ (fun x => rc_inv x.2 /\ rc_ext r x.2 /\ (x.1 = false -> good v x.2)).
Proof.
  intros [Hi Hs] Hv. unfold enumerate_from.
  eapply returns_bind; [apply rc_single; [done|by apply elem_of_nodes]|]. intros [stop r1] (Hi1 & He1 & Hs1). cbn in Hi1, He1, Hs1.
  assert (good v r1) as Hr1.
  { split; [done|]. intros u Hu Hun. destruct (decide (u = v)) as [->|]; [done|].
    eapply rc_seen_mono; [done|]. apply Hs; [lia|done]. }
  destruct stop; [by apply returns_ret|]. cbn zeta.
  destruct (cache_ctor_ret ∅) as (c & -> & _ & Hc & _). cbn [mbind outcome_bind]. unfold PbsSingleton.
  eapply returns_bind; [apply PbsNeighborhood_nodes; [done|set_solver|unfold cache_nodes; rewrite Hc; set_solver]|].
  intros [[nb c2] fl] (Hn1 & Hn2 & Hn3 & _). cbn in Hn1, Hn2, Hn3.
  assert (v ∉ PbsLowerNodes v) by (rewrite elem_of_lower; lia).
  eapply returns_bind; [apply EnumerateComplements_kept; [exact Hr1|exact Hs1|done|]|].
  - intros u Hu. assert (u ∉ PbsLowerNodes v) as Hu' by set_solver. rewrite elem_of_lower in Hu'. lia.
  - intros [stop r2] [Hr2 He2]. cbn in Hr2, He2.
    assert (rc_ext r r2) by (by transitivity r1).
    destruct stop; [apply returns_ret; by split; [apply Hr2|]|].
    eapply returns_mono; [apply (ExpandSubgraph_kept v); [done|set_solver|set_solver|set_solver|set_solver|set_solver|done|done|lia]|].
    intros x [Hx He3]. split; [apply Hx|]. split; [by transitivity r2|done].
Qed.

(** The loop of [Enumerate] goes from the highest node to the lowest. *)
Lemma node_order pre v rest :
  reverse (N.of_nat <$> seq 0 (NodeCount g)) = pre ++ v :: rest ->
  v = N.of_nat (NodeCount g - S (length pre)) /\ length pre < NodeCount g.
Proof.
  intros Hl. assert (reverse (N.of_nat <$> seq 0 (NodeCount g)) !! length pre = Some v) as Hv by (by rewrite Hl, list_lookup_middle).
  pose proof (lookup_lt_Some _ _ _ Hv) as Hlt. rewrite length_reverse, length_fmap, length_seq in Hlt. split; [|done].
  rewrite reverse_lookup in Hv by (rewrite length_fmap, length_seq; lia).
  rewrite list_lookup_fmap, length_fmap, length_seq, lookup_seq_lt in Hv by lia. cbn in Hv. by injection Hv as <-.
Qed.

(** The whole enumeration *)
Lemma Enumerate_sound r :
  rc_inv r -> Enumerate g r ⤳ (fun x => rc_inv x.2 /\ rc_ext r x.2 /\
    (x.1 = false -> forall v, v ∈ nodes g -> HasSeen x.2 {[v]} = true)).
Proof.
  intros Hi. unfold Enumerate. set (l := reverse _).
  eapply returns_mono; [apply (for_until_rule
    (fun pre r' => rc_inv r' /\ rc_ext r r' /\ good (N.of_nat (NodeCount g - length pre)) r')
    (fun r' => rc_inv r' /\ rc_ext r r'))|].
  - split; [done|]. split; [reflexivity|]. split; [done|]. intros v Hv Hn%elem_of_nodes. cbn in Hv. lia.
  - intros pre v rest r' Hl (Hi' & He' & Hg).
    assert (v = N.of_nat (NodeCount g - S (length pre)) /\ length pre < NodeCount g) as [-> Hlt] by (by eapply node_order).
    eapply returns_mono; [apply enumerate_from_kept|].
    + replace (N.of_nat (NodeCount g - S (length pre)) + 1)%N with (N.of_nat (NodeCount g - length pre)) by lia. done.
    + apply elem_of_nodes. lia.
    + intros [[] r2] (H1 & H2 & H3); cbn in *; [by split; [|transitivity r']|].
      split; [done|]. split; [by transitivity r'|]. rewrite length_app. cbn. rewrite Nat.add_1_r. by apply H3.
  - intros [[] r2] Hx; cbn in *; [destruct Hx; by split_and!|]. destruct Hx as (H1 & H2 & [_ H3]).
    split; [done|]. split; [done|]. intros _ v Hv. apply H3; [|done].
    unfold l. rewrite length_reverse, length_fmap, length_seq. lia.
Qed.
End Sound.
End HyperSound.

(** ** What a stopped enumeration says about the receiver

    The functions of the enumerator pass on the answer of the receiver: if every
    answer [true] of the receiver establishes [Q], and every other answer keeps
    [P], then so does the enumeration. No assumption on the graph is needed: the
    statements are about whatever value a run returns. *)

Module HyperStop.
Import HyperGraph HyperEnum HyperSound.
Open Scope nat_scope.

Section Stop.
Context {R : Type} `{RC : Receiver R} (g : CDPHyperGraph) (P Q : R -> Prop).

(** The answer and the receiver agree. *)
Definition agrees (x : bool * R) : Prop := if x.1 then Q x.2 else P x.2.

Context (Hsingle : forall r v, P r -> wlp (FoundSingleNode r v) agrees).
Context (Hpair : forall r a b id, P r -> wlp (FoundSubgraphPair r a b id) agrees).

(** A loop over a state that has the receiver in it *)
Definition agrees_with {T} (x : bool * (T * R)) : Prop := agrees (x.1, x.2.2).

Lemma loop_agrees {A} (l : list A) body r :
  P r -> (forall a r, P r -> wlp (body a r) agrees) -> wlp (for_until l body r) agrees.
Proof. intros Hr Hb. apply wlp_for_until; [done|]. intros a r' _. apply Hb. Qed.

Lemma loop_agrees_with {A T} (l : list A) (body : A -> T * R -> outcome (bool * (T * R))) t r :
  P r -> (forall a t r, P r -> wlp (body a (t, r)) agrees_with) -> wlp (for_until l body (t, r)) agrees_with.
Proof.
  intros Hr Hb. eapply (wlp_for_until l body (fun x => P x.2) (fun x => Q x.2)); [done|].
  intros a [t' r'] _ Hr'. by apply Hb.
Qed.

(** The end of a function: stop, or go on with the receiver *)
Lemma agrees_then (m : outcome (bool * R)) k :
  wlp m agrees -> (forall r, P r -> wlp (k r) agrees) ->
  wlp ('(stop, r) ← m; if (stop : bool) then mret (true, r) else k r) agrees.
Proof. intros Hm Hk. eapply wlp_bind; [exact Hm|]. intros [[] r] Hr; [by apply wlp_ret|by apply Hk]. Qed.

Lemma agrees_keep {T} (m : outcome (bool * R)) (t : T) :
  wlp m agrees -> wlp ('(stop, r) ← m; mret (stop, (t, r))) agrees_with.
Proof. intros Hm. eapply wlp_bind; [exact Hm|]. intros [stop r] Hr. by apply wlp_ret. Qed.

Lemma agrees_drop {T} (m : outcome (bool * (T * R))) :
  wlp m agrees_with -> wlp ('(stop, (_, r)) ← m; mret (stop, r)) agrees.
Proof. intros Hm. eapply wlp_bind; [exact Hm|]. intros [stop [t r]] Hr. by apply wlp_ret. Qed.

Lemma TryConnecting_agrees S full C r : P r -> wlp (TryConnecting g S full C r) agrees.
Proof using Hpair.
  intros Hr. apply loop_agrees; [done|]. intros v r1 Hr1. apply wlp_any. intros n. apply agrees_then.
  - destruct (negb _); [|by apply wlp_ret]. apply loop_agrees; [done|]. intros k r2 Hr2. apply wlp_any. intros e.
    destruct (_ && _); [by apply Hpair|by apply wlp_ret].
  - intros r2 Hr2. apply loop_agrees; [done|]. intros k r3 Hr3. apply wlp_any. intros e. apply wlp_any. intros low.
    destruct (_ && _); [by apply Hpair|by apply wlp_ret].
Qed.

Lemma connect_seed_agrees S v r : P r -> wlp (connect_seed g S v r) agrees.
Proof using Hpair.
  intros Hr. apply wlp_any. intros n. apply agrees_then.
  - destruct (negb _); [|by apply wlp_ret]. apply loop_agrees; [done|]. intros k r2 Hr2. apply wlp_any. intros e.
    destruct (negb _); [by apply Hpair|by apply wlp_ret].
  - intros r2 Hr2. apply loop_agrees; [done|]. intros k r3 Hr3. apply wlp_any. intros e.
    destruct (_ && _); [by apply Hpair|by apply wlp_ret].
Qed.

Lemma ExpandComplement_agrees lo S full : forall fuel C nb forb r,
  P r -> wlp (ExpandComplement g fuel lo S full C nb forb r) agrees.
Proof using Hpair.
  induction fuel as [|fuel IH]; intros C nb forb r Hr; [done|]. cbn [ExpandComplement].
  apply wlp_any. intros _. apply wlp_any. intros _. apply agrees_then.
  - rewrite EnumerateSubsets_list. apply loop_agrees; [done|]. intros s r1 Hr1. cbn zeta.
    destruct (HasSeen _ _); [by apply TryConnecting_agrees|by apply wlp_ret].
  - intros r1 Hr1. apply wlp_any. intros c. apply agrees_drop. rewrite EnumerateSubsets_list.
    apply loop_agrees_with; [done|]. intros s c' r2 Hr2. cbn zeta. apply wlp_any. intros [[nn c2] fl].
    apply agrees_keep. by apply IH.
Qed.

Lemma EnumerateComplements_agrees lo S full nb r : P r -> wlp (EnumerateComplements g lo S full nb r) agrees.
Proof using Hpair.
  intros Hr. unfold EnumerateComplements. cbn zeta. apply wlp_any. intros c. apply agrees_drop.
  apply loop_agrees_with; [done|]. intros v c' r1 Hr1. cbn zeta.
  eapply wlp_bind; [by apply connect_seed_agrees|]. intros [[] r2] Hr2; [by apply wlp_ret|].
  apply wlp_any. intros [[nn c2] fl]. apply agrees_keep. by apply ExpandComplement_agrees.
Qed.

Lemma ExpandSubgraph_agrees lo : forall fuel S full nb forb r,
  P r -> wlp (ExpandSubgraph g fuel lo S full nb forb r) agrees.
Proof using Hpair.
  induction fuel as [|fuel IH]; intros S full nb forb r Hr; [done|]. cbn [ExpandSubgraph].
  apply wlp_any. intros c. rewrite EnumerateSubsets_list.
  eapply wlp_bind; [apply (loop_agrees_with _ _ c r); [done|]|].
  - intros s c' r1 Hr1. cbn zeta. destruct (negb _); [by apply wlp_ret|]. apply wlp_any. intros [[nn c2] fl].
    cbn zeta. apply agrees_keep. by apply EnumerateComplements_agrees.
  - intros [[] [c1 r1]] Hr1; [by apply wlp_ret|]. apply agrees_drop. rewrite EnumerateSubsets_list.
    apply loop_agrees_with; [done|]. intros s c' r2 Hr2. cbn zeta. apply wlp_any. intros [[nn c2] fl].
    apply agrees_keep. by apply IH.
Qed.

Lemma Enumerate_agrees r : P r -> wlp (Enumerate g r) agrees.
Proof using Hpair Hsingle.
  intros Hr. apply loop_agrees; [done|]. intros v r1 Hr1. apply agrees_then; [by apply Hsingle|].
  intros r2 Hr2. cbn zeta. apply wlp_any. intros c. apply wlp_any. intros [[nb c2] full].
  apply agrees_then; [by apply EnumerateComplements_agrees|]. intros r3 Hr3. by apply ExpandSubgraph_agrees.
Qed.
End Stop.
End HyperStop.
