(* ===== verification/HyperPlan.v ===== *)
(** * The plan of an enumeration

    Source: [CDPHyperPlan]. The plan is the receiver of an enumeration: it
    records the sets it has seen, in buckets by their hash, and the pairs of sets
    that are joined, each with the edges that join it and at most as many as the
    budget allows. A pair is an object that is reached from the vector of pairs
    and from a bucket; a pointer to it is its position in the vector.

    The hash is any function of the set ([BitSetHash]); that of the source is one by
    SetHash.v. *)
From stdpp Require Import base numbers list gmap sets sorting.
From S2P Require Import Prelude BitSet SetHash HyperGraph HyperEnum HyperSound.

Module HyperPlan.
Import HyperGraph HyperEnum HyperSound.
Open Scope nat_scope.
Open Scope outcome_scope.

Record SPair := mkPair {
  p_left : gset N;
  p_right : gset N;
  m_connecting_edges : list N;
}.

(** [SPair::AddConnectingEdge] *)
Definition AddConnectingEdge (p : SPair) (connecting_edge : N) : SPair :=
  if decide (connecting_edge ∈ m_connecting_edges p) then p
  else mkPair (p_left p) (p_right p) (m_connecting_edges p ++ [connecting_edge]).

Record CDPHyperPlan := mkPlan {
  m_pair_budget : nat;
  m_budget_exhausted : bool;
  m_pair_filter : option (gset N -> gset N -> N -> bool);
  m_seen : gmap N (list (gset N));
  m_pairs_by_union : gmap N (list nat);
  m_pairs : list SPair;
  m_seen_count : N;
}.

Section Plan.
Context `{BH : BitSetHash}.
Implicit Types (p : CDPHyperPlan) (s : gset N).

(** The constructor *)
Definition CDPHyperPlan_ctor (pair_budget : nat) (pair_filter : option (gset N -> gset N -> N -> bool)) :
    outcome CDPHyperPlan :=
  _ ← GPOS_ASSERT (0 <? pair_budget);
  mret (mkPlan pair_budget false pair_filter ∅ ∅ [] 0).

Definition PlanHasSeen p s : bool :=
  match m_seen p !! SetHashValue s with
  | None => false
  | Some bucket => existsb (fun seen => bool_decide (seen = s)) bucket
  end.

Definition RecordSeen p s : bool * CDPHyperPlan :=
  if PlanHasSeen p s then (false, p)
  else (true, mkPlan (m_pair_budget p) (m_budget_exhausted p) (m_pair_filter p)
                (<[SetHashValue s := default [] (m_seen p !! SetHashValue s) ++ [s]]> (m_seen p))
                (m_pairs_by_union p) (m_pairs p) ((m_seen_count p + 1) mod 2 ^ 32)%N).

Definition PlanFoundSingleNode p (node_id : N) : outcome (bool * CDPHyperPlan) :=
  let node : gset N := {[node_id]} in
  mret (false, (RecordSeen p node).2).

(** [(left, right)] or [(right, left)] is the pair *)
Definition same_pair (l r : gset N) (x : SPair) : bool :=
  (bool_decide (p_left x = l) && bool_decide (p_right x = r)) ||
  (bool_decide (p_left x = r) && bool_decide (p_right x = l)).

(** The loop of [Ppair] over a bucket *)
Fixpoint find_pair p (l r : gset N) (bucket : list nat) : outcome (option nat) :=
  match bucket with
  | [] => mret None
  | i :: bucket' =>
      x ← subscript (m_pairs p) i;
      if same_pair l r x then mret (Some i) else find_pair p l r bucket'
  end.

Definition Ppair p (left right : gset N) (union_hash : N) : outcome (option nat) :=
  match m_pairs_by_union p !! union_hash with
  | None => mret None
  | Some bucket => find_pair p left right bucket
  end.

Definition PlanFoundSubgraphPair p (left right : gset N) (edge_id : N) : outcome (bool * CDPHyperPlan) :=
  _ ← GPOS_ASSERT (bool_decide (left ## right));
  _ ← GPOS_ASSERT (PlanHasSeen p left);
  _ ← GPOS_ASSERT (PlanHasSeen p right);
  if match m_pair_filter p with Some f => negb (f left right edge_id) | None => false end
  then mret (false, p) else
  let joined := left ∪ right in
  let union_hash := SetHashValue joined in
  existing ← Ppair p left right union_hash;
  match existing with
  | Some i =>
      x ← subscript (m_pairs p) i;
      mret (false, mkPlan (m_pair_budget p) (m_budget_exhausted p) (m_pair_filter p) (m_seen p)
                     (m_pairs_by_union p) (<[i := AddConnectingEdge x edge_id]> (m_pairs p)) (m_seen_count p))
  | None =>
      if m_pair_budget p <=? length (m_pairs p) then
        mret (true, mkPlan (m_pair_budget p) true (m_pair_filter p) (m_seen p)
                      (m_pairs_by_union p) (m_pairs p) (m_seen_count p))
      else
        let i := length (m_pairs p) in
        let p := mkPlan (m_pair_budget p) (m_budget_exhausted p) (m_pair_filter p) (m_seen p)
                   (<[union_hash := default [] (m_pairs_by_union p !! union_hash) ++ [i]]> (m_pairs_by_union p))
                   (m_pairs p ++ [mkPair left right [edge_id]]) (m_seen_count p) in
        mret (false, (RecordSeen p joined).2)
  end.

Definition Complete p (node_count : nat) : bool :=
  if m_budget_exhausted p || (node_count =? 0) then false
  else PlanHasSeen p (PbsLowerNodes (N.of_nat node_count)).

#[export] Instance PlanReceiver : Receiver CDPHyperPlan := {
  FoundSingleNode := PlanFoundSingleNode;
  HasSeen := PlanHasSeen;
  FoundSubgraphPair := PlanFoundSubgraphPair;
}.
End Plan.

(** ** The invariant of a plan *)

Section Invariant.
Context `{BH : BitSetHash} (g : CDPHyperGraph) (Hwf : graph_wf g).
Implicit Types (p : CDPHyperPlan) (s : gset N) (x : SPair).

Definition seen p s : Prop := PlanHasSeen p s = true.

Definition accepted p (l r : gset N) (id : N) : Prop :=
  match m_pair_filter p with Some f => f l r id = true | None => True end.

(** A recorded pair is a join of two sets seen before, by edges of the graph. *)
Record pair_ok p x : Prop := {
  po_disjoint : p_left x ## p_right x;
  po_left : seen p (p_left x);
  po_right : seen p (p_right x);
  po_union : seen p (p_left x ∪ p_right x);
  po_edges : m_connecting_edges x <> [] /\ NoDup (m_connecting_edges x) /\
    forall id, id ∈ m_connecting_edges x -> connects g (p_left x) (p_right x) id /\
      (accepted p (p_left x) (p_right x) id \/ accepted p (p_right x) (p_left x) id);
}.

(** The bucket of a hash *)
Definition in_bucket p (h : N) (i : nat) : Prop := i ∈ default [] (m_pairs_by_union p !! h).

Record plan_inv p : Prop := {
  pi_seen : forall s, seen p s -> csg g s;
  pi_origin : forall s, seen p s ->
    (exists v, s = {[v]}) \/ exists x, x ∈ m_pairs p /\ s = p_left x ∪ p_right x;
  pi_pairs : forall i x, m_pairs p !! i = Some x -> pair_ok p x;
  pi_index : forall h i, in_bucket p h i <->
    exists x, m_pairs p !! i = Some x /\ SetHashValue (p_left x ∪ p_right x) = h;
  pi_unique : forall i j x y, m_pairs p !! i = Some x -> m_pairs p !! j = Some y ->
    same_pair (p_left x) (p_right x) y = true -> i = j;
  pi_budget : length (m_pairs p) <= m_pair_budget p;
}.

(** The plan only grows. *)
Record plan_ext p p' : Prop := {
  pe_budget : m_pair_budget p' = m_pair_budget p;
  pe_filter : m_pair_filter p' = m_pair_filter p;
  pe_seen : forall s, seen p s -> seen p' s;
  pe_pairs : forall i x, m_pairs p !! i = Some x -> exists x', m_pairs p' !! i = Some x' /\
    p_left x' = p_left x /\ p_right x' = p_right x /\ m_connecting_edges x ⊆ m_connecting_edges x';
}.

#[export] Instance plan_ext_preorder : PreOrder plan_ext.
Proof.
  split.
  - intros p. split; [done..|]. intros i x Hx. exists x. by split_and!.
  - intros p q r [B1 F1 S1 P1] [B2 F2 S2 P2]. split; [congruence..|auto|].
    intros i x Hx. destruct (P1 i x Hx) as (y & Hy & HL & HR & HE). destruct (P2 i y Hy) as (z & Hz & HL' & HR' & HE').
    exists z. split_and!; [done|congruence|congruence|set_solver].
Qed.

Lemma seen_elem p s : seen p s <-> exists l, m_seen p !! SetHashValue s = Some l /\ s ∈ l.
Proof.
  unfold seen, PlanHasSeen. destruct (m_seen p !! SetHashValue s) as [l|]; [|naive_solver].
  rewrite existsb_exists. split.
  - intros (t & Ht & Hb%bool_decide_eq_true). subst. exists l. split; [done|]. by apply list_elem_of_In.
  - intros (l' & [= <-] & Hs). exists s. rewrite bool_decide_eq_true. split; [by apply list_elem_of_In|done].
Qed.

Lemma RecordSeen_seen p s t : seen (RecordSeen p s).2 t <-> seen p t \/ t = s.
Proof.
  unfold RecordSeen. destruct (PlanHasSeen p s) eqn:E; cbn [snd].
  - split; [by left|]. intros [H| ->]; done.
  - rewrite !seen_elem. cbn. destruct (decide (SetHashValue s = SetHashValue t)) as [Hh|Hh].
    + rewrite <- Hh, lookup_insert_eq. split.
      * intros (l & [= <-] & Ht). apply elem_of_app in Ht as [Ht|Ht%list_elem_of_singleton]; [|by right].
        left. destruct (m_seen p !! SetHashValue s) as [l|]; cbn in Ht; [by exists l|set_solver].
      * intros [(l & Hl & Ht)| ->]; (eexists; split; [done|]); [rewrite Hl; cbn; set_solver|set_solver].
    + rewrite lookup_insert_ne by done. split; [by left|]. intros [H| ->]; done.
Qed.

Lemma RecordSeen_pairs p s : m_pairs (RecordSeen p s).2 = m_pairs p /\
  m_pairs_by_union (RecordSeen p s).2 = m_pairs_by_union p /\ m_pair_budget (RecordSeen p s).2 = m_pair_budget p /\
  m_pair_filter (RecordSeen p s).2 = m_pair_filter p /\ m_budget_exhausted (RecordSeen p s).2 = m_budget_exhausted p.
Proof. unfold RecordSeen. by destruct (PlanHasSeen p s). Qed.

Lemma pair_ok_ext p p' x :
  m_pair_filter p' = m_pair_filter p -> (forall s, seen p s -> seen p' s) -> pair_ok p x -> pair_ok p' x.
Proof. intros Hf Hs [H1 H2 H3 H4 H5]. unfold accepted in *. split; auto. unfold accepted. by rewrite Hf. Qed.

Lemma same_pair_spec l r x :
  same_pair l r x = true <-> (p_left x = l /\ p_right x = r) \/ (p_left x = r /\ p_right x = l).
Proof. unfold same_pair. rewrite orb_true_iff, !andb_true_iff, !bool_decide_eq_true. done. Qed.

Lemma same_pair_union l r x : same_pair l r x = true -> p_left x ∪ p_right x = l ∪ r.
Proof. rewrite same_pair_spec. intros [[-> ->]|[-> ->]]; set_solver. Qed.

(** [Ppair] finds the pair if it is recorded. *)
Lemma Ppair_spec p l r : plan_inv p ->
  exists o, Ppair p l r (SetHashValue (l ∪ r)) = Ret o /\
    match o with
    | Some i => exists x, m_pairs p !! i = Some x /\ same_pair l r x = true
    | None => forall i x, m_pairs p !! i = Some x -> same_pair l r x = false
    end.
Proof.
  intros HI. unfold Ppair.
  assert (forall b, (forall i, i ∈ b -> exists x, m_pairs p !! i = Some x) ->
    exists o, find_pair p l r b = Ret o /\ match o with
      | Some i => exists x, m_pairs p !! i = Some x /\ same_pair l r x = true
      | None => forall i x, i ∈ b -> m_pairs p !! i = Some x -> same_pair l r x = false end) as Hfind.
  { induction b as [|i b IH]; intros Hb; cbn [find_pair]; [exists None; split; [done|]; set_solver|].
    destruct (Hb i) as [x Hx]; [set_solver|]. rewrite (subscript_some _ _ _ Hx). cbn [mbind outcome_bind].
    destruct (same_pair l r x) eqn:E; [exists (Some i); split; [done|]; by exists x|].
    destruct IH as (o & -> & Ho); [set_solver|]. exists o. split; [done|]. destruct o; [done|].
    intros j y [->|Hj]%elem_of_cons Hy; [congruence|by eapply Ho]. }
  pose proof (pi_index _ HI (SetHashValue (l ∪ r))) as Hidx. unfold in_bucket in Hidx.
  destruct (m_pairs_by_union p !! SetHashValue (l ∪ r)) as [b|] eqn:Eb; cbn in Hidx.
  - destruct (Hfind b) as (o & -> & Ho); [intros i Hi; apply Hidx in Hi as (x & Hx & _); by exists x|].
    exists o. split; [done|]. destruct o; [done|]. intros i x Hx. destruct (same_pair l r x) eqn:E; [|done].
    rewrite <- E. apply (Ho i); [|done]. apply Hidx. exists x. split; [done|]. by rewrite (same_pair_union l r x).
  - exists None. split; [done|]. intros i x Hx. destruct (same_pair l r x) eqn:E; [|done]. exfalso.
    apply (not_elem_of_nil i), Hidx. exists x. split; [done|]. by rewrite (same_pair_union l r x).
Qed.

(** ** The operations keep it *)

Lemma ctor_inv budget filter : 0 < budget ->
  exists p, CDPHyperPlan_ctor budget filter = Ret p /\ plan_inv p /\ m_pair_budget p = budget /\
    m_pair_filter p = filter /\ m_budget_exhausted p = false /\ (forall s, ~ seen p s) /\ m_pairs p = [].
Proof.
  intros Hb. unfold CDPHyperPlan_ctor. rewrite bind_assert by (by apply Nat.ltb_lt). eexists. split; [done|].
  assert (forall s, ~ seen (mkPlan budget false filter ∅ ∅ [] 0) s) as Hs.
  { intros s (l & Hl & _)%seen_elem. cbn in Hl. by rewrite lookup_empty in Hl. }
  split; [|by split_and!]. split; cbn.
  - intros s H. by destruct (Hs s).
  - intros s H. by destruct (Hs s).
  - intros i x. by rewrite lookup_nil.
  - intros h i. unfold in_bucket. cbn. rewrite lookup_empty. cbn. split; [set_solver|].
    intros (x & Hx & _). by rewrite lookup_nil in Hx.
  - intros i j x y. by rewrite lookup_nil.
  - lia.
Qed.

Lemma RecordSeen_inv p s :
  plan_inv p -> csg g s -> (exists v, s = {[v]}) \/ (exists x, x ∈ m_pairs p /\ s = p_left x ∪ p_right x) ->
  plan_inv (RecordSeen p s).2 /\ plan_ext p (RecordSeen p s).2 /\ seen (RecordSeen p s).2 s.
Proof.
  intros [I1 I2 I3 I4 I5 I6] Hc Ho. destruct (RecordSeen_pairs p s) as (Ep & Eu & Eb & Ef & _).
  assert (forall t, seen p t -> seen (RecordSeen p s).2 t) as Hm by (intros t Ht; apply RecordSeen_seen; by left).
  split; [|split; [|apply RecordSeen_seen; by right]].
  - split; unfold in_bucket; rewrite ?Ep, ?Eu, ?Eb; [| | |done|done|done].
    + intros t [Ht| ->]%RecordSeen_seen; [by apply I1|done].
    + intros t [Ht| ->]%RecordSeen_seen; [by apply I2|done].
    + intros i x Hx. eapply pair_ok_ext; [done|exact Hm|by eapply I3].
  - split; [done|done|done|]. rewrite Ep. intros i x Hx. exists x. by split_and!.
Qed.

Lemma FoundSingleNode_spec p v :
  plan_inv p -> N.to_nat v < NodeCount g ->
  PlanFoundSingleNode p v ⤳ (fun r => plan_inv r.2 /\ plan_ext p r.2 /\ seen r.2 {[v]} /\
    r.1 = false /\ m_budget_exhausted r.2 = m_budget_exhausted p).
Proof.
  intros HI Hv. apply returns_ret. destruct (RecordSeen_inv p {[v]}) as (H1 & H2 & H3);
    [done|by apply csg_node|left; by exists v|]. destruct (RecordSeen_pairs p {[v]}) as (_ & _ & _ & _ & H4). by split_and!.
Qed.

(** A recorded pair gets one more edge. *)
Lemma add_edge_inv p i x l r id :
  plan_inv p -> m_pairs p !! i = Some x -> same_pair l r x = true -> connects g l r id -> accepted p l r id ->
  let p' := mkPlan (m_pair_budget p) (m_budget_exhausted p) (m_pair_filter p) (m_seen p)
              (m_pairs_by_union p) (<[i := AddConnectingEdge x id]> (m_pairs p)) (m_seen_count p) in
  plan_inv p' /\ plan_ext p p'.
Proof.
  intros [I1 I2 I3 I4 I5 I6] Hx Hsp Hc Hacc p'.
  assert (forall s, seen p' s <-> seen p s) as Hseen by done.
  assert (p_left (AddConnectingEdge x id) = p_left x /\ p_right (AddConnectingEdge x id) = p_right x) as [HL HR]
    by (unfold AddConnectingEdge; by case_decide).
  assert (forall j y, m_pairs p' !! j = Some y -> exists y0, m_pairs p !! j = Some y0 /\
    p_left y = p_left y0 /\ p_right y = p_right y0 /\ (y = y0 \/ y0 = x /\ y = AddConnectingEdge x id)) as Hlk.
  { intros j y [(<- & <- & _)|[Hj Hy]]%list_lookup_insert_Some; [exists x|exists y]; split_and!; auto. }
  assert (forall j y0, m_pairs p !! j = Some y0 -> exists y, m_pairs p' !! j = Some y /\
    p_left y = p_left y0 /\ p_right y = p_right y0 /\ m_connecting_edges y0 ⊆ m_connecting_edges y) as Hlk'.
  { intros j y0 Hy0. cbn. destruct (decide (i = j)) as [<-|Hij].
    - rewrite list_lookup_insert_eq by (by eapply lookup_lt_Some). rewrite Hx in Hy0. injection Hy0 as <-.
      eexists. split; [done|]. split; [done|]. split; [done|]. unfold AddConnectingEdge. case_decide; [done|]. cbn. set_solver.
    - rewrite list_lookup_insert_ne by done. by exists y0. }
  split; [|split; try done]. split; try done.
  - intros s Hs. destruct (I2 s Hs) as [Hv|(y0 & Hy0 & ->)]; [by left|right].
    apply list_elem_of_lookup in Hy0 as [j Hy0]. destruct (Hlk' j y0 Hy0) as (y & Hy & <- & <- & _).
    exists y. split; [by eapply list_elem_of_lookup_2|done].
  - intros j y Hy. destruct (Hlk j y Hy) as (y0 & Hy0 & _ & _ & [->|[-> ->]]).
    + eapply pair_ok_ext; [..|by eapply I3]; done.
    + destruct (I3 j x Hy0) as [P1 P2 P3 P4 (P5 & P6 & P7)]. split; rewrite ?HL, ?HR; try done.
      unfold AddConnectingEdge. case_decide as Hin; [done|]. cbn.
      split; [by destruct (m_connecting_edges x)|]. split.
      { apply NoDup_app. split; [done|]. split; [set_solver|apply NoDup_singleton]. }
      intros id' [Hid|Hid%list_elem_of_singleton]%elem_of_app; [by apply P7|]. subst id'.
      apply same_pair_spec in Hsp as [[-> ->]|[-> ->]]; [split; [done|by left]|].
      split; [by apply connects_sym|by right].
  - intros h j. etransitivity; [apply I4|]. split.
    + intros (y0 & Hy0 & Hh). destruct (Hlk' j y0 Hy0) as (y & Hy & E1 & E2 & _). exists y. by rewrite E1, E2.
    + intros (y & Hy & Hh). destruct (Hlk j y Hy) as (y0 & Hy0 & E1 & E2 & _). exists y0. by rewrite <- E1, <- E2.
  - intros j k y z Hy Hz. destruct (Hlk j y Hy) as (y0 & Hy0 & E1 & E2 & _). destruct (Hlk k z Hz) as (z0 & Hz0 & E3 & E4 & _).
    rewrite E1, E2, same_pair_spec, E3, E4, <- same_pair_spec. by apply I5.
  - cbn. by rewrite length_insert.
Qed.

(** A new pair is recorded. *)
Lemma new_pair_inv p l r id :
  plan_inv p -> (forall i x, m_pairs p !! i = Some x -> same_pair l r x = false) ->
  length (m_pairs p) < m_pair_budget p -> seen p l -> seen p r -> l ## r -> connects g l r id -> accepted p l r id ->
  let p' := mkPlan (m_pair_budget p) (m_budget_exhausted p) (m_pair_filter p) (m_seen p)
              (<[SetHashValue (l ∪ r) := default [] (m_pairs_by_union p !! SetHashValue (l ∪ r)) ++ [length (m_pairs p)]]> (m_pairs_by_union p))
              (m_pairs p ++ [mkPair l r [id]]) (m_seen_count p) in
  plan_inv (RecordSeen p' (l ∪ r)).2 /\ plan_ext p (RecordSeen p' (l ∪ r)).2.
Proof.
  intros HI Hnew Hb Hl Hr Hd Hc Hacc p'. pose proof HI as [I1 I2 I3 I4 I5 I6].
  destruct (RecordSeen_pairs p' (l ∪ r)) as (Ep & Eu & Eb & Ef & _).
  assert (forall t, seen (RecordSeen p' (l ∪ r)).2 t <-> seen p t \/ t = l ∪ r) as Hseen
    by (intros t; rewrite RecordSeen_seen; done).
  assert (forall t, seen p t -> seen (RecordSeen p' (l ∪ r)).2 t) as Hm by (intros t Ht; apply Hseen; by left).
  assert (forall i x, m_pairs p' !! i = Some x <->
    m_pairs p !! i = Some x \/ (i = length (m_pairs p) /\ x = mkPair l r [id])) as Hlk.
  { intros i x. cbn. rewrite lookup_app_Some, list_lookup_singleton_Some. split; intros [H|[H1 H2]]; auto.
    - right. destruct H2. split; [lia|done].
    - right. split; [lia|]. split; [lia|done]. }
  split; [split|split]; unfold in_bucket; rewrite ?Ep, ?Eu, ?Eb, ?Ef; try done.
  - intros t [Ht| ->]%Hseen; [by apply I1|]. eapply csg_join; eauto.
  - intros t [Ht| ->]%Hseen.
    + destruct (I2 t Ht) as [Hv|(x & Hx & ->)]; [by left|right]. exists x. split; [cbn; set_solver|done].
    + right. exists (mkPair l r [id]). split; [cbn; set_solver|done].
  - intros i x [Hx|[-> ->]]%Hlk.
    + apply (pair_ok_ext p); [exact Ef|exact Hm|by eapply I3].
    + split; cbn; [done|by apply Hm|by apply Hm|apply Hseen; by right|].
      split; [done|]. split; [apply NoDup_singleton|]. intros id' ->%list_elem_of_singleton. split; [done|left].
      unfold accepted in *. rewrite Ef. exact Hacc.
  - intros h i. cbn. destruct (decide (SetHashValue (l ∪ r) = h)) as [<-|Hh].
    + rewrite lookup_insert_eq. cbn. rewrite elem_of_app, list_elem_of_singleton.
      etransitivity; [apply or_iff_compat_r, (I4 (SetHashValue (l ∪ r)) i)|]. split.
      * intros [(x & Hx & Hh)| ->]; [exists x; split; [apply Hlk; by left|done]|].
        exists (mkPair l r [id]). split; [apply Hlk; by right|done].
      * intros (x & [Hx|[-> ->]]%Hlk & Hh); [left; by exists x|by right].
    + rewrite lookup_insert_ne by done. etransitivity; [apply (I4 h i)|]. split.
      * intros (x & Hx & Hh'). exists x. split; [apply Hlk; by left|done].
      * intros (x & [Hx|[-> ->]]%Hlk & Hh'); [by exists x|]. cbn in Hh'. congruence.
  - intros i j x y [Hx|[-> ->]]%Hlk [Hy|[-> ->]]%Hlk; [by apply I5| | |done].
    + rewrite same_pair_spec. cbn. intros Hs. pose proof (Hnew i x Hx) as Hf.
      assert (same_pair l r x = true) as Ht by (apply same_pair_spec; naive_solver). congruence.
    + cbn. intros Hs. pose proof (Hnew j y Hy). congruence.
  - cbn. rewrite length_app. cbn. lia.
  - intros i x Hx. exists x. split; [apply Hlk; by left|done].
Qed.

Lemma FoundSubgraphPair_spec p l r id :
  plan_inv p -> seen p l -> seen p r -> l ## r -> connects g l r id ->
  PlanFoundSubgraphPair p l r id ⤳ (fun q => plan_inv q.2 /\ plan_ext p q.2 /\
    m_budget_exhausted q.2 = m_budget_exhausted p || q.1 /\
    (accepted p l r id -> q.1 = false -> seen q.2 (l ∪ r) /\
       exists i y, m_pairs q.2 !! i = Some y /\ same_pair l r y = true /\ id ∈ m_connecting_edges y)).
Proof.
  intros HI Hl Hr Hd Hc. unfold PlanFoundSubgraphPair.
  rewrite bind_assert by (by apply bool_decide_eq_true). rewrite !bind_assert by done.
  destruct (match m_pair_filter p with Some f => negb (f l r id) | None => false end) eqn:Ef.
  { apply returns_ret. cbn. rewrite orb_false_r. split; [done|]. split; [reflexivity|]. split; [done|].
    unfold accepted. destruct (m_pair_filter p) as [f|]; [|done]. intros Hf. by rewrite Hf in Ef. }
  assert (accepted p l r id) as Hacc.
  { unfold accepted. destruct (m_pair_filter p) as [f|]; [|done]. by apply negb_false_iff in Ef. }
  cbn zeta. destruct (Ppair_spec p l r HI) as (o & -> & Ho). cbn [mbind outcome_bind]. destruct o as [i|].
  - destruct Ho as (x & Hx & Hs). rewrite (subscript_some _ _ _ Hx). cbn [mbind outcome_bind].
    destruct (add_edge_inv p i x l r id) as [H1 H2]; [done..|]. apply returns_ret. cbn [fst snd]. rewrite orb_false_r.
    split; [exact H1|]. split; [exact H2|]. split; [done|]. intros _ _. split.
    + apply (pe_seen _ _ H2). rewrite <- (same_pair_union l r x Hs). by apply (pi_pairs _ HI i).
    + exists i, (AddConnectingEdge x id). cbn [m_pairs]. rewrite list_lookup_insert_eq by (by eapply lookup_lt_Some).
      split; [done|]. unfold AddConnectingEdge. case_decide; [done|]. split; [done|]. cbn. set_solver.
  - destruct (m_pair_budget p <=? length (m_pairs p)) eqn:Eb; apply returns_ret; cbn [fst snd].
    + rewrite orb_true_r. destruct HI as [I1 I2 I3 I4 I5 I6]. split; [|split; [|done]].
      * split; try done. intros i x Hx. eapply pair_ok_ext; [..|by eapply I3]; done.
      * split; try done. intros i x Hx. by exists x.
    + apply Nat.leb_gt in Eb. destruct (new_pair_inv p l r id) as [H1 H2]; [done..|]. rewrite orb_false_r.
      split; [exact H1|]. split; [exact H2|]. split; [by rewrite (proj2 (proj2 (proj2 (proj2 (RecordSeen_pairs _ _)))))|]. intros _ _.
      split; [apply RecordSeen_seen; by right|]. exists (length (m_pairs p)), (mkPair l r [id]).
      rewrite (proj1 (RecordSeen_pairs _ _)). cbn [m_pairs]. rewrite list_lookup_middle by done.
      split; [done|]. split; [apply same_pair_spec; by left|cbn; set_solver].
Qed.

#[export] Program Instance PlanLaws : ReceiverLaws g CDPHyperPlan := {
  rc_inv := plan_inv;
  rc_ext := plan_ext;
}.
Next Obligation. intros r r' s He Hs. by apply (pe_seen _ _ He). Qed.
Next Obligation.
  intros r v Hi Hv. eapply returns_mono; [by apply FoundSingleNode_spec|]. intros q (H1 & H2 & H3 & _). done.
Qed.
Next Obligation.
  intros r a b id Hi Ha Hb Hd Hc. eapply returns_mono; [by apply FoundSubgraphPair_spec|]. intros q (H1 & H2 & _). done.
Qed.
End Invariant.
End HyperPlan.
