(* ===== verification/HyperComplete.v ===== *)
(** * The enumerator finds every joinable pair of a graph with simple edges

    If all edges of the graph join two single nodes, and the receiver takes every
    pair and does not stop, then every pair of disjoint connected subgraphs is
    reported with every edge between them, and every connected subgraph is seen.

    The heart of the argument is the order: a subgraph is looked at only after
    every smaller one that contains the same lowest node has been joined to all
    its complements ([Expand_complete]). *)
From stdpp Require Import base numbers list gmap sets sorting.
From S2P Require Import Prelude HyperGraph HyperEnum HyperSound.

Module HyperComplete.
Import HyperGraph HyperEnum HyperSound.
Open Scope nat_scope.
Open Scope outcome_scope.

(** A receiver that can record every pair: [rc_found r a b id] says that the join
    of [a] and [b] by edge [id] is recorded. *)
Class ReceiverComplete (g : CDPHyperGraph) (R : Type) `{Receiver R} `{!ReceiverLaws g R} := {
  rc_total : R -> Prop;
  rc_found : R -> gset N -> gset N -> N -> Prop;
  total_ext r r' : rc_ext r r' -> rc_total r -> rc_total r';
  found_ext r r' a b id : rc_ext r r' -> rc_found r a b id -> rc_found r' a b id;
  found_sym r a b id : rc_found r a b id -> rc_found r b a id;
  found_seen r a b id : rc_inv r -> rc_found r a b id -> HasSeen r (a ∪ b) = true;
  pair_found r a b id : rc_inv r -> rc_total r -> HasSeen r a = true -> HasSeen r b = true ->
    a ## b -> connects g a b id ->
    FoundSubgraphPair r a b id ⤳ (fun x => x.1 = false -> rc_found x.2 a b id);
}.

Definition simple_graph (g : CDPHyperGraph) : Prop :=
  forall k e, m_edges g !! k = Some e -> is_simple e = true.

(** ** The order of the subsets *)

(** A proper subset comes before the set. *)
Lemma all_subsets_order (pos : list N) (cur s t : gset N) l1 l2 :
  NoDup pos -> (forall b, b ∈ pos -> b ∉ cur) ->
  all_subsets pos cur = l1 ++ s :: l2 -> t ∈ all_subsets pos cur -> t ⊆ s -> t <> s -> t ∈ l1.
Proof.
  revert cur l1 l2. induction pos as [|b pos IH]; intros cur l1 l2 Hnd Hcur; cbn [all_subsets].
  - intros Hl ->%list_elem_of_singleton _ Hne. destruct l1 as [|? []]; cbn in Hl; [|done..]. congruence.
  - apply NoDup_cons in Hnd as [Hb Hnd].
    assert (forall x, x ∈ all_subsets pos cur -> b ∉ x) as H1.
    { intros x (y & -> & Hy)%elem_of_all_subsets. pose proof (Hcur b ltac:(set_solver)).
      rewrite elem_of_union. intros [Hby|?]; [|done]. apply Hy, elem_of_list_to_set in Hby. done. }
    assert (forall x, x ∈ all_subsets pos ({[b]} ∪ cur) -> b ∈ x) as H2.
    { intros x (y & -> & Hy)%elem_of_all_subsets. set_solver. }
    intros Hl Ht Hts Hne. apply elem_of_app in Ht as [Ht|Ht].
    + destruct (decide (s ∈ all_subsets pos cur)) as [Hs|Hs].
      * assert (exists l3, all_subsets pos cur = l1 ++ s :: l3) as [l3 Hl3].
        { apply app_eq_inv in Hl as [(k & Ek & Hk)|(k & Ek & Hk)].
          - destruct k as [|x k]; cbn in Hk; [|injection Hk as -> Hk; by exists k].
            exfalso. assert (s ∈ all_subsets pos ({[b]} ∪ cur)) as Hs' by (rewrite <- Hk; set_solver).
            by apply H1 in Hs; apply H2 in Hs'.
          - exfalso. assert (s ∈ all_subsets pos ({[b]} ∪ cur)) as Hs' by (rewrite Hk; set_solver).
            by apply H1 in Hs; apply H2 in Hs'. }
        apply (IH cur l1 l3); try done. set_solver.
      * apply app_eq_inv in Hl as [(k & Ek & Hk)|(k & Ek & Hk)]; [|rewrite Ek; set_solver].
        destruct k as [|x k]; cbn in Hk; [rewrite app_nil_r in Ek; by rewrite <- Ek|].
        injection Hk as -> Hk. exfalso. apply Hs. rewrite Ek. set_solver.
    + assert (s ∈ all_subsets pos ({[b]} ∪ cur)) as Hs.
      { assert (s ∈ all_subsets pos cur ++ all_subsets pos ({[b]} ∪ cur)) as Hs by (rewrite Hl; set_solver).
        apply elem_of_app in Hs as [Hs|Hs]; [|done]. exfalso. apply (H1 s Hs). by apply Hts, H2. }
      apply app_eq_inv in Hl as [(k & Ek & Hk)|(k & Ek & Hk)].
      * destruct k as [|x k]; cbn in Hk.
        -- assert (t ∈ []) as Hin; [|set_solver]. apply (IH ({[b]} ∪ cur) [] l2); try done. set_solver.
        -- injection Hk as -> Hk. exfalso. apply (H1 x); [rewrite Ek; set_solver|]. by apply H2.
      * rewrite Ek. apply elem_of_app. right. apply (IH ({[b]} ∪ cur) k l2); try done. set_solver.
Qed.

Lemma filter_split {A} (P : A -> Prop) `{!forall x, Decision (P x)} (l l1 l2 : list A) s :
  filter P l = l1 ++ s :: l2 -> exists k1 k2, l = k1 ++ s :: k2 /\ l1 = filter P k1.
Proof.
  revert l1. induction l as [|a l IH]; intros l1; [by destruct l1|]. rewrite filter_cons. case_decide as Ha.
  - destruct l1 as [|x l1]; cbn; intros [= -> Hl].
    + by exists [], l.
    + destruct (IH l1 Hl) as (k1 & k2 & -> & ->). exists (x :: k1), k2. by rewrite filter_cons, decide_True.
  - intros Hl. destruct (IH l1 Hl) as (k1 & k2 & -> & ->). exists (a :: k1), k2. by rewrite filter_cons, decide_False.
Qed.

Lemma subsets_order (N s t : gset N) l1 l2 :
  subsets N = l1 ++ s :: l2 -> t ⊆ s -> t <> s -> t <> ∅ -> t ∈ l1.
Proof.
  intros Hl Hts Hne H0. assert (s ∈ subsets N) as Hs by (rewrite Hl; set_solver).
  assert (t ∈ subsets N) as Ht by (apply elem_of_subsets; apply elem_of_subsets in Hs; set_solver).
  unfold subsets in *. apply filter_split in Hl as (k1 & k2 & Hk & ->).
  apply list_elem_of_filter in Ht as [_ Ht]. apply list_elem_of_filter. split; [done|].
  eapply all_subsets_order; [..|exact Ht|exact Hts|exact Hne]; [| |exact Hk]; [|set_solver].
  rewrite reverse_Permutation. apply bits_NoDup.
Qed.

(** The nodes excluded at a level, whatever was grown *)
Lemma level_elem (X nb forb s : gset N) (y : N) :
  s ⊆ nb -> (y ∉ X ∪ forb ∪ nb) <-> (y ∉ X ∪ s) /\ (y ∉ (forb ∪ nb) ∖ (X ∪ s)).
Proof.
  intros Hs. rewrite elem_of_difference, !elem_of_union. specialize (Hs y).
  destruct (decide (y ∈ X)), (decide (y ∈ s)); tauto.
Qed.

Lemma part_grown (S0 A s : gset N) :
  S0 ⊆ A -> A ⊆ S0 ∪ s -> A <> S0 -> A <> S0 ∪ s -> A ∖ S0 ⊆ s /\ A ∖ S0 <> s /\ A ∖ S0 <> ∅.
Proof.
  intros H1 H2 H3 H4. pose proof (union_difference_L _ _ H1) as E. split; [set_solver|]. split.
  - intros Es. apply H4. by rewrite E, Es.
  - intros Es. apply H3. rewrite E, Es. set_solver.
Qed.

Section Complete.
Context {R : Type} `{RC : Receiver R} (g : CDPHyperGraph) (Hwf : graph_wf g) (Hsimple : simple_graph g).
Context `{RL : !ReceiverLaws g R} `{RT : !ReceiverComplete g R}.
Implicit Types (r : R) (s S C A B sub forb full jg nb : gset N) (c : CNeighborhoodCache).

(** ** Adjacent nodes *)

Definition adj (u x : N) : Prop :=
  exists k e, m_edges g !! k = Some e /\ m_left e = {[u]} /\ m_right e = {[x]}.

(** [x] is adjacent to a member of [S]. *)
Definition near S (x : N) : Prop := exists u, u ∈ S /\ adj u x.

Lemma near_union S C x : near (S ∪ C) x <-> near S x \/ near C x.
Proof. unfold near. set_solver. Qed.

Lemma adj_nodes u x : adj u x -> u ∈ nodes g /\ x ∈ nodes g.
Proof. intros (k & e & He & Hl & Hr). destruct (edge_in_nodes g Hwf k e He). set_solver. Qed.

Lemma adj_sym u x : adj u x -> adj x u.
Proof. intros (k & e & He & Hl & Hr). destruct (flip_in g Hwf k e He) as [k' Hk']. exists k', (flip_edge e). done. Qed.

(** In a graph with simple edges an edge joins two sets iff it joins two of their
    members. *)
Lemma connects_simple A B id :
  connects g A B id <-> exists k e u w, m_edges g !! k = Some e /\ m_left e = {[u]} /\ m_right e = {[w]} /\
    u ∈ A /\ w ∈ B /\ m_edge_id e = id.
Proof.
  split.
  - intros (k & e & He & HA & HB & Hid). destruct (simple_singletons _ _ (Hsimple k e He)) as (u & w & Hu & Hw).
    exists k, e, u, w. rewrite Hu, Hw in *. set_solver.
  - intros (k & e & u & w & He & Hu & Hw & HA & HB & Hid). exists k, e. rewrite Hu, Hw. set_solver.
Qed.

Lemma connects_near A B id : connects g A B id -> exists w, w ∈ B /\ near A w.
Proof.
  intros (k & e & u & w & He & Hu & Hw & HA & HB & _)%connects_simple. exists w. split; [done|].
  exists u. split; [done|]. by exists k, e.
Qed.

(** A part of a connected subgraph that is not all of it has a neighbor in it. *)
Lemma csg_grow S C : csg g S -> C ⊆ S -> C <> ∅ -> C <> S -> exists x, x ∈ S /\ (x ∉ C) /\ near C x.
Proof.
  intros HS. revert C. induction HS as [v|A B id HA IHA HB IHB Hd Hc]; intros C HC H0 Hne.
  { exfalso. apply Hne. set_solver. }
  assert (forall D, (forall C', C' ⊆ D -> C' <> ∅ -> C' <> D -> exists x, x ∈ D /\ (x ∉ C') /\ near C' x) ->
    D ⊆ A ∪ B -> (exists x, x ∈ A ∪ B /\ (x ∉ C) /\ near C x) \/ C ∩ D = ∅ \/ C ∩ D = D) as Hpart.
  { intros D IH HD. destruct (decide (C ∩ D = ∅)); [by right; left|]. destruct (decide (C ∩ D = D)); [by right; right|].
    destruct (IH (C ∩ D)) as (x & Hx & Hn & u & Hu & Ha); [set_solver|done|done|]. left. exists x.
    split; [set_solver|]. split; [set_solver|]. exists u. split; [set_solver|done]. }
  destruct (Hpart A IHA) as [|HCA]; [set_solver|done|]. destruct (Hpart B IHB) as [|HCB]; [set_solver|done|].
  clear Hpart IHA IHB. destruct HCA as [HCA|HCA], HCB as [HCB|HCB].
  - exfalso. apply H0. set_solver.
  - destruct (connects_near B A id) as (w & Hw & u & Hu & Ha); [by apply connects_sym|].
    exists w. split; [set_solver|]. split; [set_solver|]. exists u. split; [|done]. set_solver.
  - destruct (connects_near A B id) as (w & Hw & u & Hu & Ha); [done|].
    exists w. split; [set_solver|]. split; [set_solver|]. exists u. split; [|done]. set_solver.
  - exfalso. apply Hne. set_solver.
Qed.

(** A connected subgraph of more than one node is a join, with a given node on the
    first side. *)
Lemma csg_split S v : csg g S -> v ∈ S -> S <> {[v]} ->
  exists A B id, csg g A /\ csg g B /\ A ## B /\ connects g A B id /\ S = A ∪ B /\ v ∈ A.
Proof.
  intros HS Hv Hne. destruct HS as [u|A B id HA HB Hd Hc]; [exfalso; apply Hne; set_solver|].
  apply elem_of_union in Hv as [Hv|Hv]; [by exists A, B, id|].
  exists B, A, id. split_and!; [done|done|done|by apply connects_sym|set_solver|done].
Qed.

(** ** Exact neighborhoods *)

Lemma no_complex v n : node_ok (m_edges g) v n -> m_complex_edges n = [].
Proof.
  intros [_ [_ C] _]. destruct (m_complex_edges n) as [|k l]; [done|]. exfalso.
  destruct (proj1 (C k)) as [(e & He & Hs & _) _]; [set_solver|]. by rewrite (Hsimple k e He) in Hs.
Qed.

Lemma add_node_exact sub forb v nb full :
  v ∈ nodes g -> exists nb', add_node_neighbors g sub forb v (nb, full) = Ret (nb', full) /\
    forall x, x ∈ nb' <-> x ∈ nb \/ adj v x.
Proof.
  intros Hv. unfold add_node_neighbors. destruct (Node_ret g Hwf v Hv) as (n & -> & Hn). cbn [mbind outcome_bind].
  rewrite (no_complex v n Hn). eexists. split; [done|]. intros x. rewrite elem_of_union.
  by rewrite (simple_neighbors g Hwf v n x Hn).
Qed.

(** The cached neighborhood is that of the cached set, up to [U]. *)
Definition cache_exact c (U : gset N) : Prop :=
  m_initialized c = true ->
  (forall x, x ∈ m_last_neighborhood c -> near (m_last_grown c) x) /\
  (forall x, near (m_last_grown c) x -> x ∉ U -> x ∈ m_last_neighborhood c).

Lemma PbsNeighborhood_exact sub forb jg c full :
  jg ⊆ sub -> sub ⊆ nodes g ->
  (m_last_grown c ⊆ jg -> cache_exact c (sub ∪ forb)) ->
  PbsNeighborhood g sub forb jg c full ⤳ (fun x =>
    (forall y, y ∈ x.1.1 <-> near jg y /\ (y ∉ sub) /\ (y ∉ forb)) /\
    x.1.2 = Store c jg x.1.1 x.2 /\ full ∪ x.1.1 ⊆ x.2).
Proof.
  intros Hjg Hsub Hc. unfold PbsNeighborhood. rewrite bool_decide_eq_true_2 by done. cbn [mbind outcome_bind GPOS_ASSERT].
  destruct (PbsToSearch c jg ∅ full) as [[ts nb0] fl] eqn:E.
  assert (ts ⊆ nodes g /\ full ⊆ fl /\ (forall x, x ∈ nb0 \/ near ts x -> near jg x) /\
    (forall x, near jg x -> x ∉ sub ∪ forb -> x ∈ nb0 \/ near ts x)) as (Hts & Hfl & H1 & H2).
  { unfold PbsToSearch in E. destruct (m_initialized c && _) eqn:Ec.
    - apply andb_prop in Ec as [Hi Hl%bool_decide_eq_true]. destruct (Hc Hl Hi) as [C1 C2]. injection E as <- <- <-.
      split; [set_solver|]. split; [set_solver|]. split.
      + intros x [Hx|(u & Hu & Ha)]; [|exists u; set_solver]. rewrite elem_of_union in Hx. destruct Hx as [Hx|Hx]; [set_solver|].
        destruct (C1 x Hx) as (u & Hu & Ha). exists u. set_solver.
      + intros x (u & Hu & Ha) Hn. destruct (decide (u ∈ m_last_grown c)) as [Hul|Hul].
        * left. rewrite elem_of_union. right. apply C2; [|done]. by exists u.
        * right. exists u. set_solver.
    - injection E as <- <- <-. split; [set_solver|]. split; [done|]. split; [|by right].
      intros x [Hx|Hx]; [set_solver|done]. }
  eapply returns_bind; [apply (for_each_rule (fun pre x => x.2 = fl /\ forall y, y ∈ x.1 <-> y ∈ nb0 \/ exists u, u ∈ pre /\ adj u y))|].
  - cbn. split; [done|]. intros y. split; [by left|]. intros [Hy|(u & Hu & _)]; [done|set_solver].
  - intros pre v rest [nb' fl'] Hl [Hfl' Hnb']. cbn in Hfl', Hnb'. subst fl'.
    destruct (add_node_exact sub forb v nb' fl) as (nb2 & -> & Hnb2).
    { apply Hts, elem_of_bits. rewrite Hl. set_solver. }
    apply returns_ret. split; [done|]. intros y. cbn. rewrite Hnb2, Hnb'. split.
    + intros [[Hy|(u & Hu & Ha)]|Ha]; [by left|right; exists u; set_solver|right; exists v; set_solver].
    + intros [Hy|(u & Hu & Ha)]; [by left; left|]. apply elem_of_app in Hu as [Hu|Hu%list_elem_of_singleton];
        [left; right; by exists u|subst; by right].
  - intros [nb' fl'] [Hfl' Hnb']. cbn in Hfl', Hnb'. subst fl'. apply returns_ret. cbn.
    split; [|split; [done|set_solver]]. intros y. rewrite !elem_of_difference, Hnb'.
    assert ((exists u, u ∈ bits ts /\ adj u y) <-> near ts y) as Hnear.
    { unfold near. split; intros (u & Hu & Ha); exists u; split; try done; by apply elem_of_bits. }
    rewrite Hnear. specialize (H1 y). specialize (H2 y). rewrite elem_of_union in H2. tauto.
Qed.

(** ** Reports *)

Definition ready (lo : N) r : Prop := good g lo r /\ rc_total r.

Lemma ready_ext lo r r' : ready lo r -> good g lo r' -> rc_ext r r' -> ready lo r'.
Proof. intros [_ Ht] Hg He. split; [done|]. by eapply total_ext. Qed.

Lemma report_found lo r A B id :
  ready lo r -> HasSeen r A = true -> HasSeen r B = true -> A ## B -> connects g A B id ->
  FoundSubgraphPair r A B id ⤳ (fun x => kept g lo r x /\ (x.1 = false -> rc_found x.2 A B id)).
Proof.
  intros [Hg Ht] HA HB Hd Hc. apply returns_and; [by apply report_kept|].
  apply pair_found; try done. apply Hg.
Qed.

(** A loop over a list of edges that reports a pair for those that pass a test *)
Lemma report_loop lo r A B id ks k e (test : SEdge -> bool) :
  ready lo r -> HasSeen r A = true -> HasSeen r B = true -> A ## B ->
  (forall k, k ∈ ks -> exists e, Edge g k = Ret e /\ (test e = true -> connects g A B (m_edge_id e))) ->
  k ∈ ks -> Edge g k = Ret e -> test e = true -> m_edge_id e = id ->
  for_until ks (fun edge_idx r =>
    edge ← Edge g edge_idx;
    if test edge then FoundSubgraphPair r A B (m_edge_id edge) else mret (false, r)) r ⤳
  (fun x => kept g lo r x /\ (x.1 = false -> rc_found x.2 A B id)).
Proof.
  intros Hr HA HB Hd Hks Hk He Ht Hid.
  assert (forall j r', j ∈ ks -> good g lo r' -> rc_ext r r' ->
    (edge ← Edge g j; if test edge then FoundSubgraphPair r' A B (m_edge_id edge) else mret (false, r')) ⤳
    (fun x => kept g lo r' x /\ (j = k -> x.1 = false -> rc_found x.2 A B id))) as Hbody.
  { intros j r' Hj Hr' Hext. destruct (Hks j Hj) as (e' & He' & Hc). rewrite He'. cbn [mbind outcome_bind].
    destruct (test e') eqn:Et.
    - eapply returns_mono; [apply (report_found lo); [by eapply ready_ext|by eapply rc_seen_mono..|done|by apply Hc]|].
      intros x [H1 H2]. split; [done|]. intros -> Hx. rewrite He in He'. injection He' as <-. rewrite <- Hid. by apply H2.
    - apply returns_ret. split; [by apply kept_refl|]. intros ->. congruence. }
  eapply returns_mono; [apply (for_until_rule
    (fun pre r' => kept g lo r (false, r') /\ (k ∈ pre -> rc_found r' A B id)) (fun r' => kept g lo r (true, r')))|].
  - split; [apply kept_refl, Hr|set_solver].
  - intros pre j rest r' Hl [Hk' Hf]. eapply returns_mono; [apply Hbody; [rewrite Hl; set_solver|apply Hk'..]|].
    intros [[] r''] [H1 H2]; cbn in *; [by eapply (kept_trans g lo r r' false)|].
    split; [by eapply (kept_trans g lo r r' false)|]. intros Hin. apply elem_of_app in Hin as [Hin|Hin%list_elem_of_singleton].
    + eapply found_ext; [apply H1|by apply Hf].
    + by apply H2.
  - intros [[] r'] Hx; cbn in *; [by split|]. destruct Hx as [H1 H2]. split; [done|]. intros _. by apply H2.
Qed.

(** The node through which an edge enters [B] *)
Lemma edge_at A B id : connects g A B id -> exists w n k e,
  w ∈ B /\ near A w /\ Node g w = Ret n /\ node_ok (m_edges g) w n /\ k ∈ m_simple_edges n /\
  Edge g k = Ret e /\ m_left e = {[w]} /\ (exists u, m_right e = {[u]} /\ u ∈ A) /\ m_edge_id e = id /\
  ~ m_simple_neighborhood n ## A.
Proof.
  intros (k & e & u & w & He & Hu & Hw & HA & HB & Hid)%connects_simple.
  destruct (flip_in g Hwf k e He) as [k' Hk']. destruct (edge_in_nodes g Hwf k e He) as [_ Hwn].
  destruct (Node_ret g Hwf w) as (n & Hn & Hok); [rewrite Hw in Hwn; set_solver|].
  exists w, n, k', (flip_edge e). split; [done|]. split; [exists u; split; [done|]; by exists k, e|].
  split; [done|]. split; [done|]. split.
  { apply (nb_simple _ _ _ _ Hok). split; [|set_solver]. exists (flip_edge e). split; [done|].
    split; [by apply (Hsimple k')|]. cbn. rewrite Hw. set_solver. }
  split; [unfold Edge; by rewrite Hk'|]. split; [done|]. split; [by exists u|]. split; [done|].
  intros Hdis. apply (Hdis u); [|done]. apply (simple_neighbors g Hwf w n u Hok). by exists k', (flip_edge e).
Qed.

(** The test of the loops over simple edges *)
Lemma simple_test v n S B : node_ok (m_edges g) v n -> v ∈ B ->
  forall k, k ∈ m_simple_edges n -> exists e, Edge g k = Ret e /\
    (negb (bool_decide (m_right e ## S)) = true -> connects g S B (m_edge_id e)).
Proof.
  intros Hok Hv k Hk. destruct (simple_edge g v n k Hok Hk) as (e & x & He & Hke & Hl & Hx). exists e. split; [done|].
  intros Ht%negb_true_iff%bool_decide_eq_false. apply connects_sym; [done|]. exists k, e.
  rewrite Hl, Hx in *. split_and!; [done|set_solver|by apply meets_singleton|done].
Qed.

Lemma connect_seed_found lo S v r id :
  ready lo r -> HasSeen r S = true -> v ∈ nodes g -> (lo <= v)%N -> v ∉ S -> connects g S {[v]} id ->
  connect_seed g S v r ⤳ (fun x => x.1 = false -> rc_found x.2 S {[v]} id).
Proof.
  intros Hr HS Hv Hlo Hn Hc. destruct (edge_at S {[v]} id Hc) as (w & n & k & e & Hw & _ & Hnode & Hok & Hk & He & Hl & (u & Hu & HuS) & Hid & Hdis).
  apply elem_of_singleton in Hw as ->. unfold connect_seed. rewrite Hnode. cbn [mbind outcome_bind].
  rewrite (no_complex v n Hok), bool_decide_eq_false_2 by done. cbn [negb].
  eapply returns_bind; [apply (report_loop lo r S {[v]} id (m_simple_edges n) k e
    (fun edge => negb (bool_decide (m_right edge ## S)))); try done|].
  - apply Hr; [done|done].
  - set_solver.
  - apply (simple_test v); [done|set_solver].
  - rewrite Hu. apply negb_true_iff, bool_decide_eq_false. set_solver.
  - intros [stop r'] [_ Hf]. destruct stop; apply returns_ret; [done|]. intros _. by apply Hf.
Qed.

Lemma TryConnecting_found lo S full B r id :
  ready lo r -> HasSeen r S = true -> HasSeen r B = true -> S ## B -> B ⊆ nodes g ->
  (forall x, near S x -> x ∈ B -> x ∈ full) -> connects g S B id ->
  TryConnecting g S full B r ⤳ (fun x => x.1 = false -> rc_found x.2 S B id).
Proof.
  intros Hr HS HB Hd HBn Hfull Hc.
  destruct (edge_at S B id Hc) as (w & n & k & e & Hw & Hnear & Hnode & Hok & Hk & He & Hl & (u & Hu & HuS) & Hid & Hdis).
  unfold TryConnecting. set (body := fun node_id r => _).
  assert (forall v r', v ∈ B -> good g lo r' -> rc_ext r r' ->
    body v r' ⤳ (fun x => kept g lo r' x /\ (v = w -> x.1 = false -> rc_found x.2 S B id))) as Hbody.
  { intros v r' Hv Hr' Hext. unfold body. destruct (Node_ret g Hwf v) as (nv & Hnv & Hokv); [set_solver|].
    rewrite Hnv. cbn [mbind outcome_bind]. rewrite (no_complex v nv Hokv).
    assert (HasSeen r' S = true /\ HasSeen r' B = true) as [HS' HB'] by (split; by eapply rc_seen_mono).
    set (test := fun edge => negb (bool_decide (m_right edge ## S)) && negb (bool_decide (m_left edge ## B))).
    assert (forall j, j ∈ m_simple_edges nv -> exists e', Edge g j = Ret e' /\ (test e' = true -> connects g S B (m_edge_id e'))) as Htest.
    { intros j Hj. destruct (simple_test v nv S B Hokv Hv j Hj) as (e' & He' & Ht). exists e'. split; [done|].
      intros [Ht1 _]%andb_prop. by apply Ht. }
    eapply returns_bind with (P := fun x => kept g lo r' x /\ (v = w -> x.1 = false -> rc_found x.2 S B id)).
    - destruct (negb _) eqn:En.
      + destruct (decide (v = w)) as [->|Hvw].
        * rewrite Hnode in Hnv. injection Hnv as <-.
          eapply returns_mono; [apply (report_loop lo r' S B id (m_simple_edges n) k e test); try done|].
          -- by eapply ready_ext.
          -- unfold test. rewrite Hl, Hu. apply andb_true_intro. split; apply negb_true_iff, bool_decide_eq_false; set_solver.
          -- intros x [H1 H2]. split; [done|]. intros _. exact H2.
        * eapply returns_mono; [apply (for_until_kept g Hwf lo); [done|]|intros x Hx; split; [exact Hx|done]].
          intros j r2 Hj Hr2 He2. destruct (Htest j Hj) as (e' & -> & Ht). cbn [mbind outcome_bind].
          fold (test e'). destruct (test e') eqn:Et; [|apply returns_ret; by apply kept_refl].
          apply report_kept; [done|by eapply rc_seen_mono..|done|by apply Ht].
      + apply returns_ret. split; [by apply kept_refl|]. intros ->. rewrite Hnode in Hnv. injection Hnv as <-.
        apply negb_false_iff, bool_decide_eq_true in En. done.
    - intros [stop r2] Hx. destruct stop; apply returns_ret; exact Hx. }
  eapply returns_mono; [apply (for_until_rule
    (fun pre r' => kept g lo r (false, r') /\ (w ∈ pre -> rc_found r' S B id)) (fun _ => True))|].
  - split; [apply kept_refl, Hr|set_solver].
  - intros pre v rest r' Hl' [Hk' Hf].
    assert (v ∈ B) as HvB by (assert (v ∈ bits (B ∩ full)) as Hv by (rewrite Hl'; set_solver); apply elem_of_bits in Hv; set_solver).
    eapply returns_mono; [apply Hbody; [done|apply Hk'..]|].
    intros [[] r''] [H1 H2]; cbn in *; [done|].
    split; [by eapply (kept_trans g lo r r' false)|]. intros Hin. apply elem_of_app in Hin as [Hin|Hin%list_elem_of_singleton].
    + eapply found_ext; [apply H1|by apply Hf].
    + by apply H2.
  - intros [[] r'] Hx; cbn in *; [done|]. destruct Hx as [_ H2]. intros _. apply H2. apply elem_of_bits.
    apply elem_of_intersection. split; [done|]. by apply Hfull.
Qed.

(** ** Loops that reach a goal *)

(** A loop reaches [Q] if it holds at the start or one of the iterations reaches
    it; [J] is kept by the state beside the receiver. *)
Lemma for_until_reaches {X T : Type} lo (J : list X -> T -> Prop) (Q : R -> Prop)
    (l : list X) (f : X -> T * R -> outcome (bool * (T * R))) t r (a : X) :
  good g lo r -> J [] t -> (forall r1 r2, rc_ext r1 r2 -> Q r1 -> Q r2) -> Q r \/ a ∈ l ->
  (forall pre b rest t' r', l = pre ++ b :: rest -> J pre t' -> good g lo r' -> rc_ext r r' ->
     f b (t', r') ⤳ (fun x => J (pre ++ [b]) x.2.1 /\ kept g lo r' (x.1, x.2.2) /\ (b = a -> x.1 = false -> Q x.2.2))) ->
  for_until l f (t, r) ⤳ (fun x => kept g lo r (x.1, x.2.2) /\ (x.1 = false -> Q x.2.2 /\ J l x.2.1)).
Proof.
  intros Hr Ht HQ Hin Hf. eapply returns_mono; [apply (for_until_rule
    (fun pre y => J pre y.1 /\ kept g lo r (false, y.2) /\ (Q r \/ a ∈ pre -> Q y.2)) (fun y => kept g lo r (true, y.2)))|].
  - split; [done|]. split; [by apply kept_refl|]. intros [|?]; [done|set_solver].
  - intros pre b rest [t' r'] Hl (HJ & Hk & Hq). eapply returns_mono; [apply (Hf pre b rest); [done|done|apply Hk..]|].
    intros [[] [t'' r'']] (H1 & H2 & H3); cbn in *; [by eapply (kept_trans g lo r r' false)|].
    split; [done|]. split; [by eapply (kept_trans g lo r r' false)|]. intros Ha.
    assert (Q r' -> Q r'') as Hmono by (apply HQ, H2).
    destruct Ha as [Ha|Ha]; [by apply Hmono, Hq; left|]. apply elem_of_app in Ha as [Ha|Ha%list_elem_of_singleton].
    + apply Hmono, Hq. by right.
    + by apply H3.
  - intros [[] [t' r']] Hx; cbn in *; [done|]. destruct Hx as (H1 & H2 & H3). split; [done|]. intros _. split; [|done].
    by apply H3.
Qed.

(** The cache of the second pass: everything it excludes is excluded again. *)
Definition cache_level (U nb : gset N) c : Prop :=
  cache_nodes g c /\ (m_initialized c = true -> m_last_grown c ⊆ nb) /\ cache_exact c U.

Lemma cache_new (U nb : gset N) : exists c, CNeighborhoodCache_ctor nb = Ret c /\ cache_level U nb c.
Proof.
  destruct (cache_ctor_ret g Hwf nb) as (c & -> & Hi & Hn & _). exists c. split; [done|].
  split; [unfold cache_nodes; rewrite Hn; set_solver|]. split; intros Hc; congruence.
Qed.

Lemma cache_store (U nb : gset N) c jg nb' full :
  cache_level U nb c -> jg ⊆ nb -> nb' ⊆ nodes g ->
  (forall y, y ∈ nb' -> near jg y) -> (forall y, near jg y -> y ∉ U -> y ∈ nb') ->
  cache_level U nb (Store c jg nb' full).
Proof.
  intros [H1 [H2 H3]] Hjg Hn Hy1 Hy2. unfold Store. destruct (negb _); [done|].
  split; [done|]. split; [done|]. intros _. done.
Qed.

(** The neighborhood of the next level, through the cache *)
Lemma next_neighborhood (X nb forb s full : gset N) c :
  X ⊆ nodes g -> nb ⊆ nodes g -> s ⊆ nb -> cache_level (X ∪ forb ∪ nb) nb c ->
  PbsNeighborhood g (X ∪ s) ((forb ∪ nb) ∖ (X ∪ s)) s c full ⤳ (fun x =>
    (forall y, y ∈ x.1.1 <-> near s y /\ (y ∉ X ∪ s) /\ (y ∉ (forb ∪ nb) ∖ (X ∪ s))) /\
    cache_level (X ∪ forb ∪ nb) nb x.1.2 /\ full ∪ x.1.1 ⊆ x.2 /\ x.1.1 ⊆ nodes g).
Proof.
  intros HX Hnb Hs Hc. pose proof Hc as [Hc1 [Hc2 Hc3]].
  eapply returns_mono; [apply returns_and; [apply PbsNeighborhood_exact; [set_solver|set_solver|]|
    apply (PbsNeighborhood_nodes g Hwf); [set_solver|set_solver|done]]|].
  - intros _ Hi. destruct (Hc3 Hi) as [E1 E2]. split; [done|]. intros x Hx Hn. apply E2; [done|].
    apply (level_elem X nb forb s x Hs). by rewrite not_elem_of_union in Hn.
  - intros [[nn c'] fl] [(H1 & H2 & H3) (H4 & _)]. cbn in *. split; [done|]. split; [|done]. rewrite H2.
    apply cache_store; [done|done|done| |].
    + intros y Hy. by apply H1.
    + intros y Hy Hn. apply H1. split; [done|]. by apply (level_elem X nb forb s y Hs).
Qed.

(** ** Complements *)

(** The first pass of [ExpandComplement]: it connects the grown complement [B]. *)
Lemma complement_first_pass lo S full B id C nb s r :
  ready lo r -> HasSeen r S = true -> HasSeen r B = true -> connects g S B id -> B ⊆ nodes g -> S ## B ->
  (forall x, near S x -> x ∈ B -> x ∈ full) -> C ⊆ nodes g -> nb ⊆ nodes g -> S ## C ∪ nb -> s ∈ subsets nb ->
  for_until (subsets nb) (fun grow_by r =>
    let grown := C ∪ grow_by in
    if HasSeen r grown then TryConnecting g S full grown r else mret (false, r)) r ⤳
  (fun x => kept g lo r x /\ (C ∪ s = B -> x.1 = false -> rc_found x.2 S B id)).
Proof.
  intros Hr HS HsB Hc HBn Hd Hfull HCn Hnn HSC Hsin.
  eapply returns_mono; [apply (for_until_rule
    (fun pre r' => kept g lo r (false, r') /\ (s ∈ pre -> C ∪ s = B -> rc_found r' S B id)) (fun r' => kept g lo r (true, r')))|].
  - split; [apply kept_refl, Hr|set_solver].
  - intros pre s' rest r' Hl [Hk Hf]. destruct Hk as [Hg He]. cbn in Hg, He.
    assert (s' ⊆ nb) as Hs' by (assert (s' ∈ subsets nb) as Hin by (rewrite Hl; set_solver); by apply elem_of_subsets in Hin as [? _]).
    assert (HasSeen r' S = true /\ HasSeen r' B = true) as [HS' HB'] by (split; by eapply rc_seen_mono).
    assert (C ∪ s = B -> HasSeen r' (C ∪ s) = true) as Hseen by (intros ->; done).
    cbn beta zeta. destruct (HasSeen r' (C ∪ s')) eqn:Es.
    + eapply returns_mono with (P := fun x => kept g lo r' x /\ (s' = s -> C ∪ s = B -> x.1 = false -> rc_found x.2 S B id)).
      * destruct (decide (s' = s /\ C ∪ s = B)) as [[-> HCs]|Hno].
         -- apply returns_and; [apply (TryConnecting_kept g Hwf lo); [done|done|done|set_solver|set_solver]|].
            rewrite HCs. eapply returns_mono; [apply (TryConnecting_found lo S full B); try done; by eapply ready_ext|].
            intros x Hx _ _. exact Hx.
         -- eapply returns_mono; [apply (TryConnecting_kept g Hwf lo); [done|done|done|set_solver|set_solver]|].
            intros x Hx. split; [done|]. intros -> HCs. by destruct Hno.
      * intros [[] r2] [H1 H2]; cbn in *; [by eapply (kept_trans g lo r r' false); [split|]|].
         split; [by eapply (kept_trans g lo r r' false); [split|]|]. intros Hin HCs.
         apply elem_of_app in Hin as [Hin|Hin%list_elem_of_singleton]; [|by apply H2].
         eapply found_ext; [apply H1|by apply Hf].
    + apply returns_ret. cbn. split; [by split|]. intros Hin HCs.
      apply elem_of_app in Hin as [Hin|Hin%list_elem_of_singleton]; [by apply Hf|]. subst s'. rewrite Hseen in Es by done. done.
  - intros [[] r'] Hx; cbn in *; [by split|]. destruct Hx as [H1 H2]. split; [done|]. intros HCs _. by apply H2.
Qed.

Lemma ExpandComplement_found lo S full B id : forall fuel C nb forb r,
  ready lo r -> HasSeen r S = true -> S ⊆ forb -> csg g B -> HasSeen r B = true -> B ## forb -> connects g S B id ->
  C <> ∅ -> C ⊆ B -> C <> B -> nb ## forb -> nb ## C -> nb ⊆ nodes g ->
  (forall x, near C x -> x ∈ B -> x ∉ C -> x ∈ nb) -> (forall x, near S x -> x ∈ B -> x ∈ full) ->
  NodeCount g < fuel + size C ->
  ExpandComplement g fuel lo S full C nb forb r ⤳ (fun x => x.1 = false -> rc_found x.2 S B id).
Proof.
  induction fuel as [|fuel IH]; intros C nb forb r Hr HS HSf HB HsB HBf Hc HC HCB Hne Hnf HnC Hnn Hnear Hfull Hfuel;
    pose proof (csg_nodes g B HB) as HBn.
  { assert (C ⊆ nodes g) as Hle by set_solver. apply subseteq_size in Hle. rewrite size_nodes in Hle. lia. }
  assert (C ⊆ nodes g) as HCn by set_solver. assert (S ## B) as Hd by set_solver. assert (C ## forb) as HCf by set_solver.
  set (s := nb ∩ B). assert (s <> ∅) as Hs0.
  { destruct (csg_grow B C HB HCB HC Hne) as (x & Hx & Hxn & Hxc). assert (x ∈ s); [|set_solver].
    apply elem_of_intersection. split; [by apply Hnear|done]. }
  assert (s ∈ subsets nb) as Hsin by (apply elem_of_subsets; set_solver).
  cbn [ExpandComplement]. rewrite bind_assert by (by apply bool_decide_eq_true).
  rewrite bind_assert by (rewrite bool_decide_eq_false_2; [done|set_solver]). rewrite EnumerateSubsets_list.
  assert (S ## C ∪ nb) as HSC by set_solver.
  eapply returns_bind; [by apply (complement_first_pass lo S full B id C nb s)|].
  intros [stop r1] [Hk1 Hf1]. destruct stop; [by apply returns_ret|]. destruct Hk1 as [Hg1 He1]. cbn in Hg1, He1, Hf1.
    destruct (cache_new (C ∪ forb ∪ nb) nb) as (c & -> & Hc1). cbn [mbind outcome_bind]. rewrite EnumerateSubsets_list.
    eapply returns_bind; [apply (for_until_reaches lo (fun _ c => cache_level (C ∪ forb ∪ nb) nb c)
      (fun r => rc_found r S B id) _ _ c r1 s); [done|done|intros ? ?; apply found_ext|by right|]|].
    + intros pre s' rest c' r' Hl Hc' Hg' He'.
      assert (s' ⊆ nb /\ s' <> ∅) as [Hs' Hs'0] by (apply elem_of_subsets; rewrite Hl; set_solver).
      cbn zeta. eapply returns_bind; [by apply next_neighborhood|].
      intros [[nn c2] fl] (Hn1 & Hn2 & _ & Hn3). cbn in Hn1, Hn2, Hn3.
      destruct (grown_size g C s') as [Hsz _]; [set_solver|set_solver|done|].
      assert (rc_ext r r') as Her by (by transitivity r1).
      assert (HasSeen r' S = true /\ HasSeen r' B = true) as [HS' HB'] by (split; by eapply rc_seen_mono).
      assert (S ⊆ (forb ∪ nb) ∖ (C ∪ s')) as HSf' by (apply next_forbidden; [done|set_solver|done|done]).
      assert (nn ## (forb ∪ nb) ∖ (C ∪ s')) as Hnf' by (intros y Hy; by apply Hn1 in Hy as (_ & _ & ?)).
      assert (nn ## C ∪ s') as HnC' by (intros y Hy; by apply Hn1 in Hy as (_ & ? & _)).
      eapply returns_bind with (P := fun x => kept g lo r' x /\ (s' = s -> x.1 = false -> rc_found x.2 S B id)).
      * assert (ExpandComplement g fuel lo S full (C ∪ s') nn ((forb ∪ nb) ∖ (C ∪ s')) r' ⤳ kept g lo r') as Hkept.
        { apply (ExpandComplement_kept g Hwf lo); [done|done|done|apply next_disjoint|by apply next_nonempty|
            by apply (next_nodes C nb)|done|done|done|lia]. }
        destruct (decide (s' = s)) as [->|Hss]; [|eapply returns_mono; [exact Hkept|intros x Hx; by split]].
        apply returns_and; [exact Hkept|]. destruct (decide (C ∪ s = B)) as [HCs|HCs].
        { eapply returns_mono; [exact Hkept|]. intros x [_ Hx] _ _. eapply found_ext; [exact Hx|].
          eapply found_ext; [exact He'|by apply Hf1]. }
        eapply returns_mono; [apply (IH (C ∪ s)); try done|].
        -- by eapply ready_ext.
        -- unfold s. set_solver.
        -- by apply next_nonempty.
        -- unfold s. set_solver.
        -- intros x Hx HxB HxC. apply Hn1. split; [|split; [done|unfold s in *; set_solver]].
           apply near_union in Hx as [Hx|Hx]; [|done]. exfalso. apply HxC.
           destruct (decide (x ∈ C)); [set_solver|]. assert (x ∈ nb) by (by apply Hnear). unfold s. set_solver.
        -- lia.
        -- intros x Hx _. exact Hx.
      * intros [stop r2] [H1 H2]. by apply returns_ret.
    + intros [stop [c' r2]] [_ Hx]. apply returns_ret. cbn in *. intros ->. by apply Hx.
Qed.

(** The cache over the seeds is never used: the seeds differ. *)
Definition seed_cache (pre : list N) c : Prop :=
  cache_nodes g c /\ (m_initialized c = true -> exists u, u ∈ pre /\ m_last_grown c = {[u]}).

Lemma seed_neighborhood pre v forb c :
  v ∈ nodes g -> v ∉ pre -> seed_cache pre c ->
  PbsNeighborhood g {[v]} forb {[v]} c ∅ ⤳ (fun x =>
    (forall y, y ∈ x.1.1 <-> near {[v]} y /\ (y ∉ ({[v]} : gset N)) /\ (y ∉ forb)) /\
    seed_cache (pre ++ [v]) x.1.2 /\ x.1.1 ⊆ nodes g).
Proof.
  intros Hv Hpre [Hc1 Hc2].
  eapply returns_mono; [apply returns_and; [apply PbsNeighborhood_exact; [done|set_solver|]|
    apply (PbsNeighborhood_nodes g Hwf); [done|set_solver|done]]|].
  - intros Hl Hi. exfalso. destruct (Hc2 Hi) as (u & Hu & E). rewrite E in Hl. assert (u = v) as -> by set_solver. done.
  - intros [[nn c'] fl] [(H1 & H2 & _) (H4 & _ & _ & H5)]. cbn in *. split; [done|]. split; [|done]. split; [done|].
    rewrite H2. unfold Store. destruct (negb _); [|intros _; exists v; set_solver].
    intros Hi. destruct (Hc2 Hi) as (u & Hu & E). exists u. set_solver.
Qed.

(** One seed of [EnumerateComplements]; the least seed in [B] leads to [B]. *)
Lemma seed_found lo S full M B id pre b c' r' :
  ready lo r' -> HasSeen r' S = true -> csg g B -> HasSeen r' B = true -> S ## B -> (forall x, x ∈ B -> (lo < x)%N) ->
  connects g S B id -> (forall x, near S x -> x ∈ B -> x ∈ full) -> seed_cache pre c' -> b ∉ pre -> M ## S ->
  b ∈ M -> b ∈ nodes g -> (lo <= b)%N ->
  ('(stop, r) ← connect_seed g S b r';
   if (stop : bool) then mret (true, (c', r)) else
   '(new_neighborhood, cache, _) ← PbsNeighborhood g {[b]} (PbsLowerNodes lo ∪ S ∪ PbsLowerNodes b ∩ M) {[b]} c' ∅;
   '(stop, r) ← ExpandComplement g (Datatypes.S (NodeCount g)) lo S full {[b]} new_neighborhood
                  (PbsLowerNodes lo ∪ S ∪ PbsLowerNodes b ∩ M) r;
   mret (stop, (cache, r))) ⤳
  (fun x => seed_cache (pre ++ [b]) x.2.1 /\ kept g lo r' (x.1, x.2.2) /\
     (is_min b (M ∩ B) -> x.1 = false -> rc_found x.2.2 S B id)).
Proof.
  intros Hr' HS' HB HB' Hd Hlo Hc Hfull Hc' Hbp HMS Hb Hbn Hlob. pose proof (proj1 Hr') as Hg'. assert (b ∉ S) as HbS by set_solver.
  eapply returns_bind with (P := fun x => kept g lo r' x /\ (B = {[b]} -> x.1 = false -> rc_found x.2 S B id)).
  { destruct (decide (B = {[b]})) as [->|Hne]; [|eapply returns_mono; [by apply (connect_seed_kept g Hwf lo)|by intros x Hx; split]].
    apply returns_and; [by apply (connect_seed_kept g Hwf lo)|].
    eapply returns_mono; [by apply (connect_seed_found lo S b r' id)|]. intros x Hx _. exact Hx. }
  intros [stop r1] [[Hg1 He1] Hf1]. cbn in Hg1, He1, Hf1. unfold PbsSingleton.
  destruct stop.
  { apply returns_ret. cbn. split; [|by split].
    destruct Hc' as [C1 C2]. split; [done|]. intros Hin. destruct (C2 Hin) as (u & Hu & E). exists u. set_solver. }
  set (forb := PbsLowerNodes lo ∪ S ∪ PbsLowerNodes b ∩ M).
  assert (b ∉ forb) as Hbf.
  { unfold forb. rewrite !elem_of_union, elem_of_intersection, !elem_of_lower. naive_solver lia. }
  eapply returns_bind; [by apply seed_neighborhood|].
  intros [[nn c2] fl] (Hn1 & Hn2 & Hn3). cbn in Hn1, Hn2, Hn3.
  assert (nn ## forb) as Hnf by (intros y Hy; by apply Hn1 in Hy as (_ & _ & ?)).
  assert (nn ## ({[b]} : gset N)) as HnC by (intros y Hy; by apply Hn1 in Hy as (_ & ? & _)).
  assert (HasSeen r1 S = true /\ HasSeen r1 B = true) as [HS1 HB1] by (split; by eapply rc_seen_mono).
  assert (ExpandComplement g (Datatypes.S (NodeCount g)) lo S full {[b]} nn forb r1 ⤳ kept g lo r1) as Hkept.
  { apply (ExpandComplement_kept g Hwf lo); [done|done|unfold forb; set_solver|set_solver|set_solver|set_solver|done|done|done|lia]. }
  eapply returns_bind with (P := fun x => kept g lo r1 x /\ (is_min b (M ∩ B) -> x.1 = false -> rc_found x.2 S B id)).
  - destruct Hkept as (x & Ex & Hk). exists x. split; [done|]. split; [done|]. intros [HbM Hmin] Hx.
    assert (forall y, y ∈ B -> y ∉ forb) as HBf.
    { intros y HyB. unfold forb. rewrite !elem_of_union, elem_of_intersection, !elem_of_lower.
      specialize (Hlo y HyB). intros [[Hy|Hy]|[Hy HyN]]; [lia|set_solver|].
      assert ((b <= y)%N) by (apply Hmin; set_solver). lia. }
    destruct (decide (B = {[b]})) as [HBv|HBv]; [eapply found_ext; [apply Hk|by apply Hf1]|].
    destruct (ExpandComplement_found lo S full B id (Datatypes.S (NodeCount g)) {[b]} nn forb r1) as (x' & Ex' & Hx');
      [by eapply ready_ext|done|unfold forb; set_solver|done|done|done|done|set_solver|set_solver|done|done|done|done| |done|lia|].
    + intros y Hy HyB Hyv. apply Hn1. auto.
    + rewrite Ex in Ex'. injection Ex' as <-. by apply Hx'.
  - intros [stop r2] [H1 H2]. apply returns_ret. cbn. split; [done|]. split; [|done].
    eapply (kept_trans g lo r' r1 false); [by split|done].
Qed.

Lemma EnumerateComplements_found lo S full nb B id r :
  ready lo r -> HasSeen r S = true -> csg g B -> HasSeen r B = true -> S ## B -> (forall x, x ∈ B -> (lo < x)%N) ->
  connects g S B id -> nb ⊆ nodes g -> (forall v, v ∈ nb -> (lo <= v)%N) ->
  (forall x, near S x -> x ∈ B -> x ∈ nb /\ x ∈ full) ->
  EnumerateComplements g lo S full nb r ⤳ (fun x => x.1 = false -> rc_found x.2 S B id).
Proof.
  intros Hr HS HB HsB Hd Hlo Hc Hnb Hnlo Hnear. unfold EnumerateComplements. cbn zeta. set (M := nb ∖ S).
  assert (M ⊆ nodes g) as HN by (unfold M; set_solver).
  destruct (first_bit_spec (M ∩ B)) as (v & _ & Hv & Hmin).
  { destruct (connects_near S B id Hc) as (w & Hw & Hn). destruct (Hnear w Hn Hw). unfold M. set_solver. }
  destruct (cache_ctor_ret g Hwf M) as (c & -> & Hi & Hcn & _). cbn [mbind outcome_bind].
  eapply returns_bind; [apply (for_until_reaches lo seed_cache (fun r => rc_found r S B id) _ _ c r v)|].
  - apply Hr.
  - split; [unfold cache_nodes; rewrite Hcn; set_solver|]. intros; congruence.
  - intros ? ?. apply found_ext.
  - right. rewrite elem_of_reverse, elem_of_bits. set_solver.
  - intros pre b rest c' r' Hl Hc' Hg' He'.
    assert (b ∈ M) as Hb by (apply elem_of_bits; rewrite <- elem_of_reverse, Hl; set_solver).
    assert (b ∉ pre) as Hbp.
    { assert (NoDup (reverse (bits M))) as Hnd by (rewrite reverse_Permutation; apply bits_NoDup). rewrite Hl in Hnd.
      apply NoDup_app in Hnd as (_ & Hnd & _). intros Hin. apply (Hnd b Hin). set_solver. }
    assert (b ∈ nodes g /\ b ∉ S) as [Hbn HbS] by (unfold M in Hb; set_solver).
    assert ((lo <= b)%N) as Hlob by (apply Hnlo; unfold M in Hb; set_solver).
    assert (HasSeen r' S = true /\ HasSeen r' B = true) as [HS' HB'] by (split; by eapply rc_seen_mono).
    assert (ready lo r') as Hr' by (by eapply ready_ext).
    cbn beta iota zeta. unfold PbsSingleton.
    eapply returns_mono; [apply (seed_found lo S full M B id pre b c' r'); try done; [by intros x Hx HxB; apply Hnear|unfold M; set_solver]|].
    intros x (X1 & X2 & X3). split; [done|]. split; [done|]. intros ->. apply X3. by split.
  - intros [stop [c' r2]] [_ Hx]. apply returns_ret. cbn in *. intros ->. by apply Hx.
Qed.

(** ** Subgraphs *)

Section Subgraphs.
Context (lo : N).

(** [S] has been joined to all its complements above the lowest node. *)
Definition joined S r : Prop :=
  forall B id, csg g B -> S ## B -> (forall x, x ∈ B -> (lo < x)%N) -> connects g S B id -> rc_found r S B id.

(** The connected subgraphs above the lowest node have been seen. *)
Definition above r : Prop :=
  forall B, csg g B -> (forall x, x ∈ B -> (lo < x)%N) -> HasSeen r B = true.

Lemma joined_ext S r r' : rc_ext r r' -> joined S r -> joined S r'.
Proof. intros He Hj B id H1 H2 H3 H4. eapply found_ext; [done|]. by apply Hj. Qed.

Lemma above_ext r r' : rc_ext r r' -> above r -> above r'.
Proof. intros He Ha B H1 H2. eapply rc_seen_mono; [done|]. by apply Ha. Qed.

(** The arguments of a call of [ExpandSubgraph] *)
Record level (S0 full nb forb : gset N) : Prop := {
  lv_lo : lo ∈ S0;
  lv_nodes : S0 ⊆ nodes g;
  lv_ge : forall x, x ∈ S0 -> (lo <= x)%N;
  lv_low : PbsLowerNodes lo ⊆ forb;
  lv_nb : nb ⊆ nodes g;
  lv_nb_forb : nb ## forb;
  lv_nb_S : nb ## S0;
  lv_near : forall x, near S0 x -> x ∉ S0 -> x ∉ forb -> x ∈ nb;
  lv_full : forall x, near S0 x -> x ∉ S0 -> (lo < x)%N -> x ∈ full;
  lv_nb_full : nb ⊆ full;
  lv_forb_full : forall x, x ∈ forb -> (lo < x)%N -> x ∈ full;
}.

(** The subgraphs a call has to visit *)
Record target (S0 forb S : gset N) : Prop := {
  tg_csg : csg g S;
  tg_sub : S0 ⊆ S;
  tg_ne : S <> S0;
  tg_forb : forall x, x ∈ S -> x ∉ S0 -> x ∉ forb;
}.

Abbreviation next_forb forb nb S0 s := ((forb ∪ nb) ∖ (S0 ∪ s)).

Lemma level_nb_lt S0 full nb forb x : level S0 full nb forb -> x ∈ nb -> (lo < x)%N.
Proof.
  intros [L1 _ _ L4 _ L6 L7 _ _ _ _] Hx.
  assert (x ∉ PbsLowerNodes lo) as H by set_solver. rewrite elem_of_lower in H.
  assert (x <> lo) by (intros ->; set_solver). lia.
Qed.

Lemma level_next S0 full nb forb s nn fl :
  level S0 full nb forb -> s ⊆ nb ->
  (forall y, y ∈ nn <-> near s y /\ (y ∉ S0 ∪ s) /\ (y ∉ next_forb forb nb S0 s)) ->
  nn ⊆ nodes g -> full ∪ nn ⊆ fl -> level (S0 ∪ s) fl nn (next_forb forb nb S0 s).
Proof.
  intros HL Hs Hnn Hn Hfl. pose proof (fun x => level_nb_lt S0 full nb forb x HL) as Hlt.
  destruct HL as [L1 L2 L3 L4 L5 L6 L7 L8 L9 L10 L11].
  assert (PbsLowerNodes lo ## S0) as HlS by (intros x Hx HxS; apply elem_of_lower in Hx; specialize (L3 x HxS); lia).
  split; [set_solver|set_solver| | |done| | | | |set_solver|].
  - intros x [Hx|Hx]%elem_of_union; [by apply L3|]. apply Hs, Hlt in Hx. lia.
  - apply next_forbidden; [done|done|done|done].
  - intros y Hy. by apply Hnn in Hy as (_ & _ & ?).
  - intros y Hy. by apply Hnn in Hy as (_ & ? & _).
  - intros x Hx HxS Hxf. apply Hnn. split; [|done]. apply near_union in Hx as [Hx|Hx]; [|done]. exfalso.
    rewrite elem_of_union in HxS. rewrite elem_of_difference, !elem_of_union in Hxf.
    specialize (L8 x Hx). tauto.
  - intros x Hx HxS Hxl. rewrite elem_of_union in HxS. apply Hfl, elem_of_union.
    apply near_union in Hx as [Hx|Hx]; [left; apply L9; tauto|].
    destruct (decide (x ∈ forb)); [left; by apply L11|]. destruct (decide (x ∈ nb)); [left; by apply L10|].
    right. apply Hnn. split; [done|]. rewrite elem_of_difference, !elem_of_union. tauto.
  - intros x Hx Hxl. apply Hfl, elem_of_union. left. apply elem_of_difference in Hx as [[Hx|Hx]%elem_of_union _];
      [by apply L11|by apply L10].
Qed.

(** A target is reached by growing the subgraph by its part of the neighborhood. *)
Lemma target_step S0 full nb forb S :
  level S0 full nb forb -> target S0 forb S ->
  nb ∩ S <> ∅ /\ (S = S0 ∪ (nb ∩ S) \/ target (S0 ∪ (nb ∩ S)) (next_forb forb nb S0 (nb ∩ S)) S).
Proof.
  intros HL [T1 T2 T3 T4]. split.
  - destruct (csg_grow S S0 T1 T2) as (x & Hx & Hxn & Hxc); [pose proof (lv_lo _ _ _ _ HL); set_solver|congruence|].
    assert (x ∈ nb ∩ S); [|set_solver]. apply elem_of_intersection. split; [|done].
    apply (lv_near _ _ _ _ HL); [done|done|by apply T4].
  - destruct (decide (S = S0 ∪ (nb ∩ S))) as [E|E]; [by left|right]. split; [done|set_solver|done|].
    intros x Hx Hxn. rewrite elem_of_difference, !elem_of_union. rewrite elem_of_union, elem_of_intersection in Hxn.
    specialize (T4 x Hx). tauto.
Qed.

Lemma target_up S0 full nb forb s S :
  level S0 full nb forb -> s ⊆ nb -> target (S0 ∪ s) (next_forb forb nb S0 s) S ->
  target S0 forb S /\ nb ∩ S = s.
Proof.
  intros HL Hs [T1 T2 T3 T4]. pose proof (lv_nb_forb _ _ _ _ HL) as Hd. split.
  - split; [done|set_solver| |].
    + intros ->. apply T3. set_solver.
    + intros x Hx Hxn Hxf. destruct (decide (x ∈ s)) as [Hxs|Hxs]; [set_solver|].
      apply (T4 x Hx); [set_solver|]. rewrite elem_of_difference, !elem_of_union. tauto.
  - apply set_eq. intros x. rewrite elem_of_intersection. split; [|set_solver]. intros [Hxn HxS].
    destruct (decide (x ∈ s)); [done|]. exfalso. pose proof (lv_nb_S _ _ _ _ HL) as HdS.
    apply (T4 x HxS); [set_solver|]. rewrite elem_of_difference, !elem_of_union. set_solver.
Qed.

(** The cache of the first pass *)
Definition cache_first (S0 forb nb : gset N) c : Prop :=
  cache_nodes g c /\ (m_initialized c = true -> m_last_grown c ⊆ nb) /\ cache_exact c (S0 ∪ m_last_grown c ∪ forb).

Lemma cache_exact_mono c (U V : gset N) : U ⊆ V -> cache_exact c U -> cache_exact c V.
Proof. intros HUV Hc Hi. destruct (Hc Hi) as [H1 H2]. split; [done|]. intros x Hx Hn. apply H2; [done|]. set_solver. Qed.

Lemma cache_first_level S0 forb nb c : cache_first S0 forb nb c -> cache_level (S0 ∪ forb ∪ nb) nb c.
Proof.
  intros (H1 & H2 & H3). split; [done|]. split; [done|]. intros Hi. eapply cache_exact_mono; [|exact H3|done].
  specialize (H2 Hi). set_solver.
Qed.

Lemma first_neighborhood S0 full nb forb s c :
  level S0 full nb forb -> s ⊆ nb -> cache_first S0 forb nb c ->
  PbsNeighborhood g (S0 ∪ s) forb s c full ⤳ (fun x =>
    (forall y, y ∈ x.1.1 <-> near s y /\ (y ∉ S0 ∪ s) /\ (y ∉ forb)) /\
    cache_first S0 forb nb x.1.2 /\ full ∪ x.1.1 ⊆ x.2 /\ x.1.1 ⊆ nodes g).
Proof.
  intros HL Hs (Hc1 & Hc2 & Hc3). pose proof (lv_nodes _ _ _ _ HL) as HS. pose proof (lv_nb _ _ _ _ HL) as Hn.
  eapply returns_mono; [apply returns_and; [apply PbsNeighborhood_exact; [set_solver|set_solver|]|
    apply (PbsNeighborhood_nodes g Hwf); [set_solver|set_solver|done]]|].
  - intros Hl. eapply cache_exact_mono; [|exact Hc3]. set_solver.
  - intros [[nn c'] fl] [(H1 & H2 & H3) (H4 & _)]. cbn in *. split; [done|]. split; [|done]. rewrite H2.
    unfold Store. destruct (negb _); [done|]. split; [done|]. split; [done|]. intros _. cbn. split.
    + intros y Hy. by apply H1.
    + intros y Hy Hny. apply H1. split; [done|]. set_solver.
Qed.

(** A subgraph whose smaller parts have been joined has been seen. *)
Lemma seen_of_joined S r :
  rc_inv r -> csg g S -> lo ∈ S -> S <> {[lo]} -> (forall x, x ∈ S -> (lo <= x)%N) ->
  (forall A, csg g A -> lo ∈ A -> A ⊆ S -> A <> S -> joined A r) -> HasSeen r S = true.
Proof.
  intros Hi HS Hlo Hne Hge Hj. destruct (csg_split S lo HS Hlo Hne) as (A & B & id & HA & HB & Hd & Hc & -> & HlA).
  apply (found_seen r A B id); [done|]. apply Hj; [done|done|set_solver| |done|done| |done].
  - pose proof (csg_nonempty g B HB). set_solver.
  - intros x Hx. specialize (Hge x ltac:(set_solver)). assert (x <> lo) by set_solver. lia.
Qed.

(** One subgraph of the first pass *)
Lemma visit_joined S0 full nb forb s nn fl r :
  level S0 full nb forb -> s ⊆ nb -> csg g (S0 ∪ s) ->
  (forall y, y ∈ nn <-> near s y /\ (y ∉ S0 ∪ s) /\ (y ∉ forb)) -> nn ⊆ nodes g -> full ∪ nn ⊆ fl ->
  ready lo r -> above r -> HasSeen r (S0 ∪ s) = true ->
  EnumerateComplements g lo (S0 ∪ s) fl
    (nn ∪ forb ∩ (PbsLowerNodes (N.of_nat (NodeCount g)) ∖ PbsLowerNodes lo) ∪ nb) r ⤳
  (fun x => kept g lo r x /\ (x.1 = false -> joined (S0 ∪ s) x.2)).
Proof.
  intros HL Hs HS Hnn Hn Hfl Hr Ha Hseen. pose proof (fun x => level_nb_lt S0 full nb forb x HL) as Hlt.
  destruct HL as [L1 L2 L3 L4 L5 L6 L7 L8 L9 L10 L11].
  set (M := nn ∪ forb ∩ (PbsLowerNodes (N.of_nat (NodeCount g)) ∖ PbsLowerNodes lo) ∪ nb).
  assert (M ⊆ nodes g) as HM.
  { intros x. unfold M. rewrite !elem_of_union, elem_of_intersection, elem_of_difference. fold (nodes g). set_solver. }
  assert (forall v, v ∈ M -> (lo <= v)%N) as HMlo.
  { intros v. unfold M. rewrite !elem_of_union, elem_of_intersection, elem_of_difference, !elem_of_lower.
    intros [[Hv|[_ [_ Hv]]]|Hv]; [|lia|apply Hlt in Hv; lia]. apply Hnn in Hv as (_ & _ & Hv).
    assert (v ∉ PbsLowerNodes lo) as H by set_solver. rewrite elem_of_lower in H. lia. }
  assert (EnumerateComplements g lo (S0 ∪ s) fl M r ⤳ kept g lo r) as Hkept.
  { apply (EnumerateComplements_kept g Hwf lo); [apply Hr|done|done|done]. }
  destruct Hkept as (x & Ex & Hkx). exists x. split; [done|]. split; [done|]. intros Hx B id HB Hd HBlo Hc.
  destruct (EnumerateComplements_found lo (S0 ∪ s) fl M B id r) as (x' & Ex' & Hf); try done.
  - by apply Ha.
  - intros y Hy HyB. specialize (HBlo y HyB).
    assert (y ∈ nodes g) as Hyn by (destruct Hy as (u & _ & Hadj); by apply adj_nodes in Hadj as [_ ?]).
    assert (y ∉ S0 ∪ s) as HyS by set_solver. pose proof HyS as HyS'. rewrite elem_of_union in HyS'.
    unfold M. rewrite !elem_of_union, elem_of_intersection, elem_of_difference, !elem_of_lower.
    assert (y ∈ nn \/ y ∈ forb \/ y ∈ nb) as Hor.
    { destruct (decide (y ∈ forb)); [by right; left|]. apply near_union in Hy as [Hy|Hy].
      - right. right. apply L8; [done|tauto|done].
      - left. by apply Hnn. }
    assert (y ∈ full ∪ nn) as Hyf.
    { apply elem_of_union. destruct Hor as [Hy'|[Hy'|Hy']]; [by right|left; by apply L11|left; by apply L10]. }
    split; [|by apply Hfl]. apply elem_of_nodes in Hyn. destruct Hor as [Hy'|[Hy'|Hy']]; [tauto| |tauto].
    left. right. split; [done|]. lia.
  - rewrite Ex in Ex'. injection Ex' as <-. by apply Hf.
Qed.

(** The parts of a target that a call does not visit itself *)
Definition parts_joined (S0 forb : gset N) r : Prop :=
  forall S A, target S0 forb S -> csg g A -> lo ∈ A -> A ⊆ S -> A <> S -> ~ (S0 ⊆ A /\ A <> S0) -> joined A r.

Lemma target_ge S0 full nb forb S x : level S0 full nb forb -> target S0 forb S -> x ∈ S -> (lo <= x)%N.
Proof.
  intros HL HT Hx. destruct (decide (x ∈ S0)) as [H|H]; [by apply (lv_ge _ _ _ _ HL)|].
  pose proof (tg_forb _ _ _ HT x Hx H) as Hf. assert (x ∉ PbsLowerNodes lo) as Hl.
  { intros Hl. by apply Hf, (lv_low _ _ _ _ HL). }
  rewrite elem_of_lower in Hl. lia.
Qed.

(** The first pass of [ExpandSubgraph] *)
Lemma first_pass S0 full nb forb r c :
  level S0 full nb forb -> ready lo r -> above r -> parts_joined S0 forb r -> cache_first S0 forb nb c ->
  for_until (subsets nb) (fun grow_by '(cache, r) =>
    let grown := S0 ∪ grow_by in
    if negb (HasSeen r grown) then mret (false, (cache, r)) else
    '(new_neighborhood, cache, new_full) ← PbsNeighborhood g grown forb grow_by cache full;
    let high_nodes := PbsLowerNodes (N.of_nat (NodeCount g)) in
    let low_nodes := PbsLowerNodes lo in
    let high_nodes := high_nodes ∖ low_nodes in
    let previously_forbidden := forb ∩ high_nodes in
    let new_neighborhood := new_neighborhood ∪ previously_forbidden in
    let new_neighborhood := new_neighborhood ∪ nb in
    '(stop, r) ← EnumerateComplements g lo grown new_full new_neighborhood r;
    mret (stop, (cache, r))) (c, r) ⤳
  (fun x => x.1 = false -> cache_first S0 forb nb x.2.1 /\ kept g lo r (false, x.2.2) /\
    forall s, s ⊆ nb -> s <> ∅ -> csg g (S0 ∪ s) -> joined (S0 ∪ s) x.2.2).
Proof.
  intros HL Hr Ha Hp Hc. eapply returns_mono; [apply (for_until_rule
    (fun pre y => cache_first S0 forb nb y.1 /\ kept g lo r (false, y.2) /\
       forall s, s ∈ pre -> csg g (S0 ∪ s) -> joined (S0 ∪ s) y.2) (fun _ => True))|].
  - split; [done|]. split; [apply kept_refl, Hr|set_solver].
  - intros pre s rest [c' r'] Hl (Hc' & [Hg' He'] & Hj). cbn [fst snd] in Hc', Hg', He', Hj.
    assert (s ⊆ nb /\ s <> ∅) as [Hs Hs0] by (apply elem_of_subsets; rewrite Hl; set_solver).
    assert (csg g (S0 ∪ s) -> HasSeen r' (S0 ∪ s) = true) as Hseen.
    { intros HS. assert (target S0 forb (S0 ∪ s)) as HT.
      { pose proof (lv_nb_S _ _ _ _ HL). pose proof (lv_nb_forb _ _ _ _ HL).
        split; [done|set_solver|set_solver|set_solver]. }
      pose proof (lv_lo _ _ _ _ HL) as Hlo. apply seen_of_joined; [apply Hg'|done|set_solver| | |].
      - intros E. destruct (set_choose_L s Hs0) as [y Hy]. pose proof (level_nb_lt S0 full nb forb y HL (Hs y Hy)).
        assert (y ∈ S0 ∪ s) as Hyl by set_solver. rewrite E in Hyl. apply elem_of_singleton in Hyl. lia.
      - intros x. by eapply target_ge.
      - intros A HA HlA HAS Hne. destruct (decide (S0 ⊆ A /\ A <> S0)) as [[HSA HnA]|Hno].
        + assert (A = S0 ∪ (A ∖ S0)) as -> by (apply union_difference_L; done).
          destruct (part_grown S0 A s) as (P1 & P2 & P3); [done|done|done|done|].
          apply Hj; [|by rewrite <- union_difference_L]. by eapply subsets_order; [exact Hl|..].
        + eapply joined_ext; [exact He'|]. by eapply Hp. }
    cbn beta iota zeta. destruct (HasSeen r' (S0 ∪ s)) eqn:Es; cbn beta iota delta [negb].
    + eapply returns_bind; [by apply first_neighborhood|]. intros [[nn c2] fl] (Hn1 & Hn2 & Hn3 & Hn4). cbn in Hn1, Hn2, Hn3, Hn4.
      eapply returns_bind with (P := fun x => kept g lo r' x /\ (x.1 = false -> csg g (S0 ∪ s) -> joined (S0 ∪ s) x.2)).
      { destruct (EnumerateComplements_kept g Hwf lo (S0 ∪ s) fl
          (nn ∪ forb ∩ (PbsLowerNodes (N.of_nat (NodeCount g)) ∖ PbsLowerNodes lo) ∪ nb) r') as (x & Ex & Hkx); [done|done| | |].
        - intros x. rewrite !elem_of_union, elem_of_intersection, elem_of_difference. fold (nodes g).
          pose proof (lv_nb _ _ _ _ HL). set_solver.
        - intros v. rewrite !elem_of_union, elem_of_intersection, elem_of_difference, !elem_of_lower.
          intros [[Hv|[_ [_ Hv]]]|Hv]; [|lia|apply (level_nb_lt S0 full nb forb v HL) in Hv; lia].
          apply Hn1 in Hv as (_ & _ & Hv). assert (v ∉ PbsLowerNodes lo) as H by (pose proof (lv_low _ _ _ _ HL); set_solver).
          rewrite elem_of_lower in H. lia.
        - exists x. split; [done|]. split; [done|]. intros Hx HS.
          destruct (visit_joined S0 full nb forb s nn fl r') as (x' & Ex' & _ & Hv); try done.
          { by eapply ready_ext. } { by eapply above_ext. }
          rewrite Ex in Ex'. injection Ex' as <-. by apply Hv. }
      intros [[] r2] [H1 H2]; apply returns_ret; cbn in *; [done|].
      split; [done|]. split; [eapply (kept_trans g lo r r' false); [by split|done]|].
      intros s' [Hs'|Hs'%list_elem_of_singleton]%elem_of_app HS'; [|subst s'; by apply H2].
      eapply joined_ext; [apply H1|by apply Hj].
    + apply returns_ret. cbn. split; [done|]. split; [by split|].
      intros s' [Hs'|Hs'%list_elem_of_singleton]%elem_of_app HS'; [by apply Hj|]. subst s'. by specialize (Hseen HS').
  - intros [[] [c' r']] Hx; cbn in *; [done|]. destruct Hx as (H1 & H2 & H3). intros _. split; [done|]. split; [done|].
    intros s Hs Hs0. apply H3. by apply elem_of_subsets.
Qed.
End Subgraphs.
End Complete.
End HyperComplete.
