(* ===== verification/HyperAll.v ===== *)
(** * Every connected subgraph is visited

    The second pass of [ExpandSubgraph] and the loop of [Enumerate], over a graph
    with simple edges: with HyperComplete.v, every joinable pair is recorded. *)
From stdpp Require Import base numbers list gmap sets sorting.
From S2P Require Import Prelude HyperGraph HyperEnum HyperSound HyperComplete.

Module HyperAll.
Import HyperGraph HyperEnum HyperSound HyperComplete.
Open Scope nat_scope.
Open Scope outcome_scope.

Section All.
Context {R : Type} `{RC : Receiver R} (g : CDPHyperGraph) (Hwf : graph_wf g) (Hsimple : simple_graph g).
Context `{RL : !ReceiverLaws g R} `{RT : !ReceiverComplete g R}.
Implicit Types (r : R) (s S A B forb full nb : gset N) (c : CNeighborhoodCache).

Section Subgraph.
Context (lo : N).

Abbreviation next_forb forb nb S0 s := ((forb ∪ nb) ∖ (S0 ∪ s)).

Lemma target_part S0 forb S A :
  target g S0 forb S -> csg g A -> A ⊆ S -> S0 ⊆ A -> A <> S0 -> target g S0 forb A.
Proof. intros [T1 T2 T3 T4] HA HAS HSA Hne. split; [done..|]. intros x Hx. apply T4. set_solver. Qed.

(** Before the recursive call for [s], the smaller parts of its targets have been
    joined: by the caller, by the first pass, or by an earlier recursive call. *)
Lemma parts_next S0 full nb forb r r1 r' pre s rest :
  level g lo S0 full nb forb -> parts_joined g lo S0 forb r -> rc_ext r r1 -> rc_ext r1 r' ->
  (forall t, t ⊆ nb -> t <> ∅ -> csg g (S0 ∪ t) -> joined g lo (S0 ∪ t) r1) ->
  subsets nb = pre ++ s :: rest ->
  (forall t, t ∈ pre -> forall S, target g (S0 ∪ t) (next_forb forb nb S0 t) S -> joined g lo S r') ->
  parts_joined g lo (S0 ∪ s) (next_forb forb nb S0 s) r'.
Proof.
  intros HL Hp He1 He' H1 Hl Hpre S A HT HA HlA HAS Hne Hno.
  assert (s ⊆ nb) as Hs by (assert (s ∈ subsets nb) as Hin by (rewrite Hl; set_solver); by apply elem_of_subsets in Hin as [? _]).
  destruct (target_up g Hwf Hsimple lo S0 full nb forb s S HL Hs HT) as [HT0 HnS].
  destruct (decide (S0 ⊆ A /\ A <> S0)) as [[HSA HAne]|Hn].
  - pose proof (target_part S0 forb S A HT0 HA HAS HSA HAne) as HTA.
    destruct (target_step g Hwf Hsimple lo S0 full nb forb A HL HTA) as [Hsa [Ea|HTA']].
    + eapply joined_ext; [exact He'|]. rewrite Ea. apply H1; [set_solver|done|by rewrite <- Ea].
    + apply (Hpre (nb ∩ A)); [|done]. eapply subsets_order; [exact Hl|set_solver| |done].
      intros E. apply Hno. split; [set_solver|]. rewrite <- E. intros EA. by apply (tg_ne _ _ _ _ HTA').
  - eapply joined_ext; [exact He'|]. eapply joined_ext; [exact He1|]. by eapply Hp.
Qed.

Lemma expand_kept fuel S0 full nb forb r :
  level g lo S0 full nb forb -> good g lo r -> NodeCount g < fuel + size S0 ->
  ExpandSubgraph g fuel lo S0 full nb forb r ⤳ kept g lo r.
Proof.
  intros HL Hr Hf. pose proof (lv_ge _ _ _ _ _ _ HL) as Hge. pose proof (lv_lo _ _ _ _ _ _ HL).
  apply (ExpandSubgraph_kept g Hwf lo); [done|set_solver|by eapply lv_nodes| |by eapply lv_low|by eapply lv_nb_forb|
    by eapply lv_nb_S|by eapply lv_nb|done].
  intros x Hx. rewrite elem_of_lower. specialize (Hge x Hx). lia.
Qed.

(** Every target of a call is joined to its complements. *)
Lemma Expand_complete : forall fuel S0 full nb forb r,
  level g lo S0 full nb forb -> ready g lo r -> above g lo r -> parts_joined g lo S0 forb r ->
  NodeCount g < fuel + size S0 ->
  ExpandSubgraph g fuel lo S0 full nb forb r ⤳
    (fun x => x.1 = false -> forall S, target g S0 forb S -> joined g lo S x.2).
Proof.
  induction fuel as [|fuel IH]; intros S0 full nb forb r HL Hr Ha Hp Hfuel.
  { pose proof (subseteq_size _ _ (lv_nodes _ _ _ _ _ _ HL)) as Hle. rewrite size_nodes in Hle. lia. }
  cbn [ExpandSubgraph]. destruct (cache_ctor_ret g Hwf nb) as (c & -> & Hi & Hc & _). cbn [mbind outcome_bind].
  rewrite EnumerateSubsets_list. eapply returns_bind; [apply (first_pass g Hwf Hsimple lo); [done..|]|].
  { split; [unfold cache_nodes; rewrite Hc; set_solver|]. split; intros ?; congruence. }
  intros [[] [c1 r1]] H1; [by apply returns_ret|]. destruct (H1 eq_refl) as (Hc1 & [Hg1 He1] & Hj1). cbn in Hc1, Hg1, He1, Hj1.
  apply (cache_first_level g Hwf Hsimple) in Hc1. rewrite EnumerateSubsets_list.
  eapply returns_bind; [apply (for_until_rule (fun pre y => cache_level g (S0 ∪ forb ∪ nb) nb y.1 /\ kept g lo r1 (false, y.2) /\
    forall t, t ∈ pre -> forall S, target g (S0 ∪ t) (next_forb forb nb S0 t) S -> joined g lo S y.2) (fun _ => True))|].
  - split; [done|]. split; [by apply kept_refl|set_solver].
  - intros pre s rest [c' r'] Hl (Hc' & [Hg' He'] & Hj). cbn [fst snd] in Hc', Hg', He', Hj.
    assert (s ⊆ nb /\ s <> ∅) as [Hs Hs0] by (apply elem_of_subsets; rewrite Hl; set_solver).
    assert (parts_joined g lo (S0 ∪ s) (next_forb forb nb S0 s) r') as Hp' by (by eapply parts_next).
    assert (rc_ext r r') as Her by (by transitivity r1). cbn beta iota zeta.
    eapply returns_bind; [apply (next_neighborhood g Hwf Hsimple); [by eapply lv_nodes|by eapply lv_nb|done|done]|].
    intros [[nn c2] fl] (Hn1 & Hn2 & Hn3 & Hn4). cbn in Hn1, Hn2, Hn3, Hn4.
    assert (level g lo (S0 ∪ s) fl nn (next_forb forb nb S0 s)) as HL' by (by eapply level_next).
    destruct (grown_size g S0 s) as [Hsz _];
      [pose proof (lv_nodes _ _ _ _ _ _ HL'); set_solver|pose proof (lv_nb_S _ _ _ _ _ _ HL); set_solver|done|].
    assert (ready g lo r') as Hr' by (by eapply ready_ext).
    eapply returns_bind; [apply returns_and; [apply (expand_kept fuel (S0 ∪ s)); [done|done|lia]|
      apply (IH (S0 ∪ s)); [done|done|by eapply above_ext|done|lia]]|].
    intros [[] r2] [H2 H3]; apply returns_ret; cbn in *; [done|]. split; [done|].
    split; [eapply (kept_trans g lo r1 r' false); [by split|done]|].
    intros t [Ht|Ht%list_elem_of_singleton]%elem_of_app S HT; [|subst t; by apply H3].
    eapply joined_ext; [apply H2|]. by eapply Hj.
  - intros [[] [c' r']] Hx; apply returns_ret; cbn in *; [done|]. destruct Hx as (_ & [_ He'] & Hj). intros _ S HT.
    destruct (target_step g Hwf Hsimple lo S0 full nb forb S HL HT) as [HnS [E|HT']].
    + eapply joined_ext; [exact He'|]. rewrite E. apply Hj1; [set_solver|done|]. rewrite <- E. apply HT.
    + eapply Hj; [|exact HT']. apply elem_of_subsets. set_solver.
Qed.
End Subgraph.

(** ** The whole enumeration *)

(** Everything above a node has been found. *)
Record finished (lo : N) r : Prop := {
  fi_seen : forall S, csg g S -> (forall x, x ∈ S -> (lo <= x)%N) -> HasSeen r S = true;
  fi_found : forall A B id, csg g A -> csg g B -> A ## B -> connects g A B id ->
    (forall x, x ∈ A ∪ B -> (lo <= x)%N) -> rc_found r A B id;
}.

Lemma finished_next v r :
  rc_inv r -> HasSeen r {[v]} = true -> finished (v + 1) r ->
  (forall S, csg g S -> v ∈ S -> (forall x, x ∈ S -> (v <= x)%N) -> joined g v S r) -> finished v r.
Proof.
  intros Hi Hv [F1 F2] Hj.
  assert (forall X : gset N, (forall x, x ∈ X -> (v <= x)%N) -> v ∉ X -> forall x, x ∈ X -> (v + 1 <= x)%N) as Hup.
  { intros X HX Hn x Hx. specialize (HX x Hx). assert (x <> v) by (by intros ->). lia. }
  split.
  - intros S HS Hge. destruct (decide (v ∈ S)) as [HvS|HvS]; [|by apply F1; [|apply Hup]].
    destruct (decide (S = {[v]})) as [->|Hne]; [done|].
    apply (seen_of_joined g Hwf Hsimple v); [done..|]. intros A HA HvA HAS _. apply Hj; [done|done|]. set_solver.
  - intros A B id HA HB Hd Hc Hge.
    assert (forall X Y : gset N, X ## Y -> v ∈ X -> (forall x, x ∈ Y -> (v <= x)%N) -> forall x, x ∈ Y -> (v < x)%N) as Hlt.
    { intros X Y HXY HvX HY x Hx. specialize (Hup Y HY ltac:(set_solver) x Hx). lia. }
    destruct (decide (v ∈ A)) as [HvA|HvA].
    { apply Hj; [done|done|set_solver|done|done| |done]. apply (Hlt A); [done|done|set_solver]. }
    destruct (decide (v ∈ B)) as [HvB|HvB].
    { apply found_sym. apply Hj; [done|done|set_solver|done|done| |by apply connects_sym]. apply (Hlt B); [done|done|set_solver]. }
    apply F2; [done..|]. apply Hup; [done|set_solver].
Qed.

(** The neighborhood the enumeration of a node starts with *)
Lemma start_level v full nb :
  v ∈ nodes g -> (forall y, y ∈ nb <-> near g {[v]} y /\ (y ∉ ({[v]} : gset N)) /\ (y ∉ PbsLowerNodes v)) ->
  nb ⊆ nodes g -> nb ⊆ full -> level g v {[v]} full nb (PbsLowerNodes v ∪ {[v]}).
Proof.
  intros Hv Hnb Hn Hf. split; [set_solver|set_solver|set_solver by lia|set_solver|done| | | | |done|].
  - intros y Hy. apply Hnb in Hy as (_ & H1 & H2). set_solver.
  - intros y Hy. by apply Hnb in Hy as (_ & H1 & _).
  - intros x Hx Hxv Hxf. apply Hnb. set_solver.
  - intros x Hx Hxv Hlt. apply Hf, Hnb. split; [done|]. split; [done|]. rewrite elem_of_lower. lia.
  - intros x. rewrite elem_of_union, elem_of_lower, elem_of_singleton. lia.
Qed.

(** The single node is joined first. *)
Lemma start_joined v full nb r :
  level g v {[v]} full nb (PbsLowerNodes v ∪ {[v]}) -> ready g v r -> above g v r -> HasSeen r {[v]} = true ->
  EnumerateComplements g v {[v]} full nb r ⤳ (fun x => kept g v r x /\ (x.1 = false -> joined g v {[v]} x.2)).
Proof.
  intros HL Hr Ha Hs. pose proof (level_nb_lt g Hwf Hsimple v {[v]} full nb (PbsLowerNodes v ∪ {[v]})) as Hlt.
  destruct (EnumerateComplements_kept g Hwf v {[v]} full nb r) as (x & Ex & Hk);
    [apply Hr|done|by eapply lv_nb|intros u Hu; specialize (Hlt u HL Hu); lia|].
  exists x. split; [done|]. split; [done|]. intros Hx B id HB Hd HBlo Hc.
  destruct (EnumerateComplements_found g Hwf Hsimple v {[v]} full nb B id r) as (x' & Ex' & Hf); try done.
  - by apply Ha.
  - by eapply lv_nb.
  - intros u Hu. specialize (Hlt u HL Hu). lia.
  - intros y Hy HyB. specialize (HBlo y HyB). assert (y ∈ nb) as Hyn.
    { apply (lv_near _ _ _ _ _ _ HL); [done|set_solver|]. rewrite elem_of_union, elem_of_lower, elem_of_singleton. lia. }
    split; [done|]. by apply (lv_nb_full _ _ _ _ _ _ HL).
  - rewrite Ex in Ex'. injection Ex' as <-. by apply Hf.
Qed.

Lemma enumerate_from_complete v r :
  good g (v + 1) r -> rc_total r -> v ∈ nodes g -> finished (v + 1) r ->
  enumerate_from g v r ⤳ (fun x => x.1 = false -> finished v x.2).
Proof.
  intros [Hi Hs] Ht Hv HF. unfold enumerate_from.
  eapply returns_bind; [apply rc_single; [done|by apply elem_of_nodes]|]. intros [stop r1] (Hi1 & He1 & Hs1). cbn in Hi1, He1, Hs1.
  destruct stop; [by apply returns_ret|]. cbn zeta.
  assert (ready g v r1) as Hr1.
  { split; [|by eapply total_ext]. split; [done|]. intros u Hu Hun. destruct (decide (u = v)) as [->|]; [done|].
    eapply rc_seen_mono; [done|]. apply Hs; [lia|done]. }
  assert (above g v r1) as Ha1.
  { intros B HB HBv. eapply rc_seen_mono; [exact He1|]. apply HF; [done|]. intros x Hx. specialize (HBv x Hx). lia. }
  destruct (cache_ctor_ret g Hwf ∅) as (c & -> & Hci & Hc & _). cbn [mbind outcome_bind]. unfold PbsSingleton.
  eapply returns_bind; [apply returns_and; [apply (PbsNeighborhood_exact g Hwf Hsimple); [done|set_solver|intros _ ?; congruence]|
    apply (PbsNeighborhood_nodes g Hwf); [done|set_solver|unfold cache_nodes; rewrite Hc; set_solver]]|].
  intros [[nb c2] fl] [(Hn1 & _ & Hn2) (Hn3 & _)]. cbn in Hn1, Hn2, Hn3.
  pose proof (start_level v fl nb Hv Hn1 Hn3 ltac:(set_solver)) as HL.
  eapply returns_bind; [by apply start_joined|]. intros [[] r2] [[Hg2 He2] Hj2]; [by apply returns_ret|]. cbn in Hg2, He2, Hj2.
  specialize (Hj2 eq_refl).
  assert (ready g v r2) as Hr2 by (by eapply ready_ext).
  assert (parts_joined g v {[v]} (PbsLowerNodes v ∪ {[v]}) r2) as Hp.
  { intros S A _ _ HvA _ _ Hno. assert (A = {[v]}) as ->; [|done]. destruct (decide (A = {[v]})); [done|].
    exfalso. apply Hno. set_solver. }
  eapply returns_mono; [apply returns_and; [apply (expand_kept v (Datatypes.S (NodeCount g)) {[v]}); [exact HL|done|lia]|
    apply (Expand_complete v (Datatypes.S (NodeCount g)) {[v]}); [exact HL|done|by eapply above_ext|done|lia]]|].
  intros [[] r3] [[Hg3 He3] Hj3] Hstop; cbn in *; [done|]. specialize (Hj3 eq_refl).
  assert (rc_ext r r3) as He by (transitivity r1; [done|]; by transitivity r2).
  apply finished_next; [apply Hg3|apply Hg3; [lia|done]| |].
  - destruct HF as [F1 F2]. split; [intros S H1 H2; by eapply rc_seen_mono; [exact He|apply F1]|].
    intros A B id H1 H2 H3 H4 H5. eapply found_ext; [exact He|by apply F2].
  - intros S HS HvS Hge. destruct (decide (S = {[v]})) as [->|Hne]; [eapply joined_ext; [exact He3|exact Hj2]|].
    apply Hj3. split; [done|set_solver|done|]. intros x Hx Hxn. rewrite elem_of_union, elem_of_lower.
    specialize (Hge x Hx). intros [Hlt|?]; [lia|done].
Qed.

(** If the enumeration was not stopped, everything has been found. *)
Lemma Enumerate_complete r :
  rc_inv r -> rc_total r -> Enumerate g r ⤳ (fun x => x.1 = false -> finished 0 x.2).
Proof.
  intros Hi Ht. unfold Enumerate. set (l := reverse _).
  eapply returns_mono; [apply (for_until_rule
    (fun pre r' => rc_ext r r' /\ good g (N.of_nat (NodeCount g - length pre)) r' /\
       finished (N.of_nat (NodeCount g - length pre)) r') (fun r' => True))|].
  - split; [reflexivity|]. cbn. rewrite Nat.sub_0_r. assert (forall S, csg g S -> ~ (forall x, x ∈ S -> (N.of_nat (NodeCount g) <= x)%N)) as Hno.
    { intros S HS Hge. destruct (set_choose_L S (csg_nonempty g S HS)) as [x Hx].
      pose proof (csg_nodes g S HS x Hx) as Hn%elem_of_nodes. specialize (Hge x Hx). lia. }
    split; [split; [done|intros v Hv Hn%elem_of_nodes; lia]|].
    split; [intros S HS Hge; by destruct (Hno S)|]. intros A B id HA _ _ _ Hge. destruct (Hno A); [done|]. set_solver.
  - intros pre v rest r' Hl (He' & Hg & HF).
    assert (v = N.of_nat (NodeCount g - Datatypes.S (length pre)) /\ length pre < NodeCount g) as [-> Hlt] by (by eapply node_order).
    assert (N.of_nat (NodeCount g - Datatypes.S (length pre)) + 1 = N.of_nat (NodeCount g - length pre))%N as En by lia.
    assert (N.of_nat (NodeCount g - Datatypes.S (length pre)) ∈ nodes g) as Hv by (apply elem_of_nodes; lia).
    eapply returns_mono; [apply returns_and; [apply (enumerate_from_kept g Hwf)|apply enumerate_from_complete]; rewrite ?En; try done|].
    { by eapply total_ext. }
    intros [[] r2] [(H1 & H2 & H3) H4]; cbn in *; [done|]. rewrite length_app. cbn. rewrite Nat.add_1_r.
    split; [by transitivity r'|]. split; [by apply H3|by apply H4].
  - intros [[] r2] Hx; cbn in *; [done|]. destruct Hx as (_ & _ & HF). intros _.
    unfold l in HF. rewrite length_reverse, length_fmap, length_seq, Nat.sub_diag in HF. done.
Qed.
End All.
End HyperAll.
