(* ===== verification/HyperProps.v ===== *)
(** * Properties of the join enumeration

    The claims about the join hypergraph, the enumerator and its plan. *)
From stdpp Require Import base numbers list gmap sets sorting.
From S2P Require Import Prelude BitSet SetHash HyperGraph HyperEnum HyperSound HyperPlan HyperComplete HyperAll.

Module HyperProps.
Import HyperGraph HyperEnum HyperSound HyperStop HyperPlan HyperComplete HyperAll.
Open Scope nat_scope.
Open Scope outcome_scope.

(** ** Programs over a graph *)

Inductive GraphOp :=
  | OpAddEdge (l r : gset N) (edge_id : N)
  | OpReplaceEdge (logical_edge : nat) (l r : gset N).

Definition exec_op (op : GraphOp) (g : CDPHyperGraph) : outcome CDPHyperGraph :=
  match op with
  | OpAddEdge l r id => AddEdge g l r id
  | OpReplaceEdge k l r => ReplaceEdge g k l r
  end.

(** The abstract graph is the list of its undirected edges. *)
Definition spec_op (op : GraphOp) (L : list SEdge) : list SEdge :=
  match op with
  | OpAddEdge l r id => L ++ [mkSEdge l r id]
  | OpReplaceEdge k l r =>
      match L !! k with Some e => <[k := mkSEdge l r (m_edge_id e)]> L | None => L end
  end.

Definition op_ok (n : nat) (L : list SEdge) (op : GraphOp) : Prop :=
  let ok (l r : gset N) := l <> ∅ /\ r <> ∅ /\ l ## r /\
    (forall x, x ∈ l ∪ r -> N.to_nat x < n) in
  match op with
  | OpAddEdge l r _ => ok l r
  | OpReplaceEdge k l r => ok l r /\ k < length L
  end.

Fixpoint ops_ok (n : nat) (L : list SEdge) (ops : list GraphOp) : Prop :=
  match ops with
  | [] => True
  | op :: ops' => op_ok n L op /\ ops_ok n (spec_op op L) ops'
  end.

(** Both directions of every edge *)
Definition directed (L : list SEdge) : list SEdge := L ≫= (fun e => [e; flip_edge e]).

Record graph_shows (n : nat) (L : list SEdge) (g : CDPHyperGraph) : Prop := {
  gs_wf : graph_wf g;
  gs_nodes : NodeCount g = n;
  gs_edges : m_edges g = directed L;
}.

Lemma directed_lookup L k : directed L !! (k * 2) = L !! k.
Proof.
  revert k. induction L as [|e L IH]; intros k; [by rewrite !lookup_nil|]. unfold directed. rewrite bind_cons.
  destruct k as [|k]; [done|]. cbn. apply IH.
Qed.

Lemma directed_insert L k e :
  <[k * 2 + 1 := flip_edge e]> (<[k * 2 := e]> (directed L)) = directed (<[k := e]> L).
Proof.
  revert k. induction L as [|e' L IH]; intros k; [done|]. unfold directed. rewrite bind_cons.
  destruct k as [|k]; [done|]. cbn. by rewrite <- IH.
Qed.

Lemma exec_op_shows n L g op :
  graph_shows n L g -> op_ok n L op -> exec_op op g ⤳ graph_shows n (spec_op op L).
Proof.
  intros [Hw Hn He] Hop.
  assert (forall l r : gset N, l <> ∅ /\ r <> ∅ /\ l ## r /\
    (forall x, x ∈ l ∪ r -> N.to_nat x < n) -> sides_ok g l r) as Hok.
  { intros l r (H1 & H2 & H3 & H4). split; [done..| |]; intros x Hx; rewrite Hn; apply H4; set_solver. }
  destruct op as [l r id|k l r]; cbn [exec_op spec_op op_ok] in *.
  - eapply returns_mono; [by apply AddEdge_spec; [|apply Hok]|]. intros g' (H1 & H2 & H3). split; [done|by rewrite H2|].
    rewrite H3, He. unfold directed. by rewrite bind_app.
  - destruct Hop as [Hop Hk]. destruct (lookup_lt_is_Some_2 L k Hk) as [e Hlk]. rewrite Hlk.
    eapply returns_mono; [apply (ReplaceEdge_spec g k e); [done|by apply Hok|by rewrite He, directed_lookup]|].
    intros g' (H1 & H2 & H3). split; [done|by rewrite H2|]. rewrite H3, He.
    apply (directed_insert L k (mkSEdge l r (m_edge_id e))).
Qed.

Lemma run_ops_shows n : forall ops L g, graph_shows n L g -> ops_ok n L ops ->
  for_each ops exec_op g ⤳ graph_shows n (fold_left (fun L op => spec_op op L) ops L).
Proof.
  induction ops as [|op ops IH]; intros L g Hg Hops; cbn in *; [by apply returns_ret|].
  destruct Hops as [Hop Hops]. eapply returns_bind; [by apply exec_op_shows|]. intros g' Hg'. by apply IH.
Qed.

Lemma new_graph_shows n : graph_shows n [] (CDPHyperGraph_ctor n).
Proof. split; [apply ctor_wf| |done]. unfold NodeCount. cbn. apply length_replicate. Qed.

(** The graph of a program *)
Definition graph_of (n : nat) (ops : list GraphOp) : CDPHyperGraph :=
  match for_each ops exec_op (CDPHyperGraph_ctor n) with Ret g => g | _ => CDPHyperGraph_ctor n end.

Lemma graph_of_shows n ops :
  ops_ok n [] ops -> graph_shows n (fold_left (fun L op => spec_op op L) ops []) (graph_of n ops).
Proof.
  intros Hops. destruct (run_ops_shows n ops [] _ (new_graph_shows n) Hops) as (g & Eg & Hg).
  unfold graph_of. by rewrite Eg.
Qed.

(** C31. Every sequence of calls of AddEdge and ReplaceEdge on a new graph, with
    disjoint and nonempty sides inside the graph, returns without a failing
    assertion. The directed edges are then the two directions of the undirected
    edges the calls describe, and the edge lists and neighborhoods of all nodes
    agree with them. *)
Theorem graph_programs_refine (n : nat) (ops : list GraphOp) :
  ops_ok n [] ops ->
  for_each ops exec_op (CDPHyperGraph_ctor n) ⤳ graph_shows n (fold_left (fun L op => spec_op op L) ops []).
Proof. apply run_ops_shows, new_graph_shows. Qed.

(** A chain of three nodes, whose second edge is made a hyperedge *)
Definition chain_ops : list GraphOp :=
  [OpAddEdge {[0%N]} {[1%N]} 7; OpAddEdge {[1%N]} {[2%N]} 8; OpReplaceEdge 1 {[0%N; 1%N]} {[2%N]}].

Lemma chain_ok : ops_ok 3 [] chain_ops.
Proof. cbn. split_and!; try done; try (cbn; lia); try set_solver by lia. Qed.

Lemma graph_programs_refine_witness :
  for_each chain_ops exec_op (CDPHyperGraph_ctor 3) ⤳
  graph_shows 3 [mkSEdge {[0%N]} {[1%N]} 7; mkSEdge {[0%N; 1%N]} {[2%N]} 8].
Proof. apply (graph_programs_refine 3 chain_ops). apply chain_ok. Defined.

(** ** The plan as a receiver that records every pair *)

Section Plan.
Context `{BH : BitSetHash} (g : CDPHyperGraph).
Implicit Types (p : CDPHyperPlan) (a b : gset N).

(** The join of [a] and [b] by edge [id] is recorded. *)
Definition recorded p a b (id : N) : Prop :=
  exists i y, m_pairs p !! i = Some y /\ same_pair a b y = true /\ id ∈ m_connecting_edges y.

Lemma same_pair_sym a b y : same_pair a b y = same_pair b a y.
Proof. unfold same_pair. apply orb_comm. Qed.

Lemma recorded_ext p p' a b id : plan_ext p p' -> recorded p a b id -> recorded p' a b id.
Proof.
  intros He (i & y & Hi & Hs & Hid). destruct (pe_pairs _ _ He i y Hi) as (y' & Hy & El & Er & Hsub).
  exists i, y'. split; [done|]. split; [|by apply Hsub]. unfold same_pair in *. by rewrite El, Er.
Qed.

Context (Hwf : graph_wf g).

#[local] Instance plan_laws : ReceiverLaws g CDPHyperPlan := PlanLaws g Hwf.

#[local] Program Instance plan_complete : ReceiverComplete g CDPHyperPlan := {
  rc_total p := forall a b id, accepted p a b id;
  rc_found := recorded;
}.
Next Obligation. intros p p' He Ht a b id. unfold accepted. rewrite (pe_filter _ _ He). apply Ht. Qed.
Next Obligation. intros p p' a b id. apply recorded_ext. Qed.
Next Obligation. intros p a b id (i & y & Hi & Hs & Hid). exists i, y. by rewrite same_pair_sym. Qed.
Next Obligation.
  intros p a b id HI (i & y & Hi & Hs & _). rewrite <- (same_pair_union g Hwf a b y Hs). by apply (pi_pairs _ _ HI i y Hi).
Qed.
Next Obligation.
  intros p a b id HI Ht Ha Hb Hd Hc. eapply returns_mono; [by apply FoundSubgraphPair_spec|].
  intros q (_ & _ & _ & H) Hq. by destruct (H (Ht a b id) Hq).
Qed.

(** ** The budget *)

Definition within p : Prop := m_budget_exhausted p = false.
Definition exhausted p : Prop := m_budget_exhausted p = true /\ m_pair_budget p <= length (m_pairs p).

Lemma single_agrees p v : within p -> wlp (PlanFoundSingleNode p v) (agrees within exhausted).
Proof.
  intros Hp. apply wlp_ret. unfold agrees, within. cbn.
  by rewrite (proj2 (proj2 (proj2 (proj2 (RecordSeen_pairs p _))))).
Qed.

Lemma pair_agrees p a b id : within p -> wlp (PlanFoundSubgraphPair p a b id) (agrees within exhausted).
Proof.
  intros Hp. unfold PlanFoundSubgraphPair. do 3 (apply wlp_any; intros _).
  destruct (match m_pair_filter p with Some f => _ | None => _ end); [by apply wlp_ret|].
  cbn zeta. apply wlp_any. intros [i|].
  - apply wlp_any. intros x. by apply wlp_ret.
  - destruct (m_pair_budget p <=? length (m_pairs p)) eqn:E; apply wlp_ret; [by apply Nat.leb_le in E|].
    unfold agrees, within. cbn [fst snd]. by rewrite (proj2 (proj2 (proj2 (proj2 (RecordSeen_pairs _ _))))).
Qed.

(** What a run of the enumerator on a new plan gives *)
Record enumerated (budget : nat) (x : bool * CDPHyperPlan) : Prop := {
  en_inv : plan_inv g x.2;
  en_bound : length (m_pairs x.2) <= budget;
  en_stop : x.1 = m_budget_exhausted x.2;
  en_full : x.1 = true -> length (m_pairs x.2) = budget;
  en_nodes : x.1 = false -> forall v, N.to_nat v < NodeCount g -> seen x.2 {[v]};
}.

Lemma enumerate_enumerated budget filter :
  0 < budget -> (p ← CDPHyperPlan_ctor budget filter; Enumerate g p) ⤳ enumerated budget.
Proof.
  intros Hb. destruct (ctor_inv g Hwf budget filter Hb) as (p & Ep & HI & Hbud & Hf & Hex & _). rewrite Ep. cbn [mbind outcome_bind].
  destruct (Enumerate_sound (RL := plan_laws) g Hwf p HI) as (x & Ex & Hi & He & Hn). exists x. split; [exact Ex|].
  pose proof (Enumerate_agrees g within exhausted single_agrees pair_agrees p Hex x Ex) as Ha.
  pose proof (pe_budget _ _ He) as Hbx. pose proof (pi_budget _ _ Hi) as Hle.
  destruct x as [[] q]; cbn in *; [destruct Ha as [Ha1 Ha2]|]; split; cbn; try done; try lia.
  intros _ v Hv. apply Hn; [done|]. by apply elem_of_nodes.
Qed.
End Plan.

(** C16. On a well-formed graph, with any filter and a positive budget, the
    enumeration on a new plan returns: no assertion fails, no index is out of
    bounds and the recursion ends. Every set seen is connected; every recorded
    pair consists of two disjoint seen sets, is recorded once, and its edges join
    the two sets. The number of pairs stays within the budget; the enumeration is
    stopped exactly when the plan is marked exhausted, and then the budget is
    used up. If it is not stopped, every single node has been seen. *)
Theorem enumerate_plan_sound `{BitSetHash} (g : CDPHyperGraph) (budget : nat)
    (filter : option (gset N -> gset N -> N -> bool)) :
  graph_wf g -> 0 < budget ->
  (p ← CDPHyperPlan_ctor budget filter; Enumerate g p) ⤳ enumerated g budget.
Proof. intros Hwf Hb. by apply enumerate_enumerated. Qed.

(** The examples run with the hash of [CBitSet]. *)
#[local] Existing Instance SetHash.CBitSetHash.

Lemma enumerate_plan_sound_witness :
  (p ← CDPHyperPlan_ctor 10 None; Enumerate (graph_of 3 chain_ops) p) ⤳ enumerated (graph_of 3 chain_ops) 10.
Proof. apply (enumerate_plan_sound (graph_of 3 chain_ops) 10 None); [apply graph_of_shows, chain_ok|lia]. Defined.

(** ** Join trees *)

(** A tree of joins over the nodes of the graph *)
Inductive tree := Leaf (v : N) | Join (l r : tree).

Fixpoint tree_leaves (t : tree) : list N :=
  match t with Leaf v => [v] | Join l r => tree_leaves l ++ tree_leaves r end.

Definition tree_set (t : tree) : gset N := list_to_set (tree_leaves t).

(** Every join of the tree is a recorded pair. *)
Fixpoint tree_in (p : CDPHyperPlan) (t : tree) : Prop :=
  match t with
  | Leaf _ => True
  | Join l r => (exists x, x ∈ m_pairs p /\ p_left x = tree_set l /\ p_right x = tree_set r) /\
      tree_in p l /\ tree_in p r
  end.

Section Trees.
Context `{BH : BitSetHash} (g : CDPHyperGraph).

Lemma seen_tree p : plan_inv g p -> forall s, seen p s ->
  exists t, tree_set t = s /\ NoDup (tree_leaves t) /\ tree_in p t.
Proof.
  intros HI s. remember (size s) as k eqn:Hk. revert s Hk. induction (lt_wf k) as [k _ IH]. intros s -> Hs.
  destruct (pi_origin _ _ HI s Hs) as [[v ->]|(x & Hx & ->)].
  { exists (Leaf v). split; [cbn; set_solver|]. split; [apply NoDup_singleton|done]. }
  apply list_elem_of_lookup in Hx as [i Hi]. pose proof (pi_pairs _ _ HI i x Hi) as [P1 P2 P3 P4 _].
  pose proof (csg_nonempty g _ (pi_seen _ _ HI _ P2)) as N1. pose proof (csg_nonempty g _ (pi_seen _ _ HI _ P3)) as N2.
  pose proof (size_union (p_left x) (p_right x) P1) as Hsz.
  assert (forall X : gset N, X <> ∅ -> 0 < size X) as Hpos.
  { intros X HX. destruct (size X) eqn:E; [|lia]. by apply size_empty_inv, leibniz_equiv in E. }
  pose proof (Hpos _ N1). pose proof (Hpos _ N2).
  destruct (IH (size (p_left x))) with (s := p_left x) as (tl & El & Nl & Tl); [lia|done|done|].
  destruct (IH (size (p_right x))) with (s := p_right x) as (tr & Er & Nr & Tr); [lia|done|done|].
  exists (Join tl tr). unfold tree_set in *. cbn. rewrite list_to_set_app_L, El, Er. split; [done|]. split.
  - apply NoDup_app. split; [done|]. split; [|done]. intros v Hv Hv'.
    rewrite <- El, <- Er in P1. apply (P1 v); by apply elem_of_list_to_set.
  - split; [|done]. exists x. split; [by eapply list_elem_of_lookup_2|]. done.
Qed.
End Trees.

(** C26. If the plan of an enumeration is complete, it holds a tree of recorded
    joins with every node of the graph as a leaf exactly once. *)
Theorem complete_plan_has_tree `{BitSetHash} (g : CDPHyperGraph) (budget : nat)
    (filter : option (gset N -> gset N -> N -> bool)) (x : bool * CDPHyperPlan) :
  graph_wf g -> 0 < budget -> (p ← CDPHyperPlan_ctor budget filter; Enumerate g p) = Ret x ->
  Complete x.2 (NodeCount g) = true ->
  exists t, tree_leaves t ≡ₚ (N.of_nat <$> seq 0 (NodeCount g)) /\ tree_in x.2 t.
Proof.
  intros Hwf Hb Hx Hc. destruct (enumerate_enumerated g Hwf budget filter Hb) as (x' & Hx' & [HI _ _ _ _]).
  rewrite Hx in Hx'. injection Hx' as <-.
  unfold Complete in Hc. destruct (_ || _); [done|].
  destruct (seen_tree g x.2 HI _ Hc) as (t & Et & Nt & Ht). exists t. split; [|done].
  apply NoDup_Permutation; [done|apply NoDup_fmap_2; [intros ? ?; lia|apply NoDup_seq]|].
  intros v. rewrite <- (elem_of_list_to_set (C := gset N)). fold (tree_set t). rewrite Et.
  unfold PbsLowerNodes. by rewrite elem_of_list_to_set, Nat2N.id.
Qed.

(** The plan of the chain: two pairs, and complete *)
Definition chain_result : outcome (bool * CDPHyperPlan) :=
  p ← CDPHyperPlan_ctor 10 None; Enumerate (graph_of 3 chain_ops) p.

Definition chain_plan : CDPHyperPlan :=
  match chain_result with Ret x => x.2 | _ => mkPlan 0 true None ∅ ∅ [] 0 end.

Example chain_plan_pairs :
  chain_result = Ret (false, chain_plan) /\
  (fun x => (bits (p_left x), bits (p_right x), m_connecting_edges x)) <$> m_pairs chain_plan =
    [([0%N], [1%N], [7%N]); ([0%N; 1%N], [2%N], [8%N])].
Proof. split; vm_compute; reflexivity. Qed.

Lemma complete_plan_has_tree_witness :
  exists t, tree_leaves t ≡ₚ (N.of_nat <$> seq 0 3) /\ tree_in chain_plan t.
Proof.
  apply (complete_plan_has_tree (graph_of 3 chain_ops) 10 None (false, chain_plan)).
  - apply graph_of_shows, chain_ok.
  - lia.
  - vm_compute. reflexivity.
  - vm_compute. reflexivity.
Defined.

(** ** Everything is found *)

Section Bound.
Context `{BH : BitSetHash} (g : CDPHyperGraph).

Lemma all_subsets_length pos cur : length (all_subsets pos cur) = 2 ^ length pos.
Proof.
  revert cur. induction pos as [|b pos IH]; intros cur; [done|]. cbn [all_subsets length].
  rewrite length_app, !IH. cbn. lia.
Qed.

(** The recorded pairs are different pairs of sets of nodes. *)
Lemma plan_pairs_bound p : plan_inv g p -> length (m_pairs p) <= 4 ^ NodeCount g.
Proof.
  intros HI. set (L := all_subsets (bits (nodes g)) ∅).
  assert (length L = 2 ^ NodeCount g) as HL.
  { unfold L. rewrite all_subsets_length. unfold bits. by rewrite merge_sort_Permutation, <- size_nodes. }
  assert (forall s, s ⊆ nodes g -> s ∈ L) as Hin.
  { intros s Hs. apply elem_of_all_subsets. exists s. split; [set_solver|]. intros x Hx.
    apply elem_of_list_to_set, elem_of_bits. by apply Hs. }
  rewrite <- (length_fmap (fun x => (p_left x, p_right x)) (m_pairs p)).
  replace (4 ^ NodeCount g) with (length (list_prod L L)).
  2: { rewrite length_prod, HL. replace 4 with (2 * 2) by lia. symmetry. apply Nat.pow_mul_l. }
  apply NoDup_incl_length.
  - apply NoDup_ListNoDup, NoDup_alt. intros i j y Hi Hj.
    rewrite list_lookup_fmap in Hi, Hj. apply fmap_Some in Hi as (a & Ha & ->), Hj as (b & Hb & E).
    apply (pi_unique _ _ HI i j a b Ha Hb). apply same_pair_spec. left. by injection E as -> ->.
  - intros y Hy. apply list_elem_of_In, list_elem_of_fmap in Hy as (x & -> & Hx).
    apply list_elem_of_lookup in Hx as [i Hi]. pose proof (pi_pairs _ _ HI i x Hi) as [_ P2 P3 _ _].
    apply in_prod; apply list_elem_of_In, Hin, csg_nodes; by apply (pi_seen _ _ HI).
Qed.
End Bound.

(** A budget above 4^n is never used up by a graph of n nodes: the enumeration
    is not stopped. *)
Theorem enumerate_budget_suffices `{BitSetHash} (g : CDPHyperGraph) (budget : nat)
    (filter : option (gset N -> gset N -> N -> bool)) :
  graph_wf g -> 4 ^ NodeCount g < budget ->
  (p ← CDPHyperPlan_ctor budget filter; Enumerate g p) ⤳ (fun x =>
    x.1 = false /\ m_budget_exhausted x.2 = false /\ length (m_pairs x.2) <= 4 ^ NodeCount g).
Proof.
  intros Hwf Hb. eapply returns_mono; [apply (enumerate_enumerated g Hwf budget filter); lia|].
  intros [[] p] [E1 E2 E3 E4 E5]; cbn in *; pose proof (plan_pairs_bound g p E1); [specialize (E4 eq_refl); lia|].
  by rewrite <- E3.
Qed.

Lemma enumerate_budget_suffices_witness :
  (p ← CDPHyperPlan_ctor 65 None; Enumerate (graph_of 3 chain_ops) p) ⤳ (fun x =>
    x.1 = false /\ m_budget_exhausted x.2 = false /\ length (m_pairs x.2) <= 4 ^ 3).
Proof.
  apply (enumerate_budget_suffices (graph_of 3 chain_ops) 65 None); [apply graph_of_shows, chain_ok|].
  rewrite (gs_nodes _ _ _ (graph_of_shows 3 chain_ops chain_ok)). cbn. lia.
Defined.

(** C1. On a graph whose edges all join single nodes, with a filter that accepts
    everything, an enumeration that is not stopped finds everything: a set is seen
    exactly if it is a connected subgraph, every two disjoint connected subgraphs
    with an edge between them are recorded with that edge, and the plan is
    complete exactly if the graph is connected. *)
Theorem enumerate_finds_all `{BitSetHash} (g : CDPHyperGraph) (budget : nat)
    (filter : option (gset N -> gset N -> N -> bool)) :
  graph_wf g -> simple_graph g -> 0 < budget ->
  (forall f, filter = Some f -> forall a b id, f a b id = true) ->
  (p ← CDPHyperPlan_ctor budget filter; Enumerate g p) ⤳ (fun x => x.1 = false ->
    (forall s, seen x.2 s <-> csg g s) /\
    (forall a b id, csg g a -> csg g b -> a ## b -> connects g a b id -> recorded x.2 a b id) /\
    (Complete x.2 (NodeCount g) = true <-> csg g (nodes g))).
Proof.
  intros Hwf Hsimple Hb Hf. destruct (enumerate_enumerated g Hwf budget filter Hb) as (x & Ex & [E1 _ E3 _ _]).
  exists x. split; [exact Ex|]. intros Hx.
  destruct (ctor_inv g Hwf budget filter Hb) as (p & Ep & HI & Hbud & Hfil & _). rewrite Ep in Ex. cbn [mbind outcome_bind] in Ex.
  destruct (Enumerate_complete (RL := plan_laws g Hwf) (RT := plan_complete g Hwf) g Hwf Hsimple p HI) as (x' & Ex' & HF).
  { intros a b id. unfold accepted. rewrite Hfil. destruct filter as [f|]; [by apply Hf|done]. }
  rewrite Ex in Ex'. injection Ex' as <-. destruct (HF Hx) as [F1 F2].
  assert (forall s, seen x.2 s <-> csg g s) as Hseen.
  { intros s. split; [apply E1|]. intros Hs. apply F1; [done|]. intros y _. lia. }
  split; [done|]. split; [intros a b id Ha Hb' Hd Hc; apply F2; [done..|]; intros y _; lia|].
  rewrite <- Hseen. unfold Complete. rewrite <- E3, Hx. cbn.
  destruct (NodeCount g =? 0) eqn:En; [|done]. apply Nat.eqb_eq in En. split; [done|].
  intros Hs%Hseen%csg_nonempty. exfalso. apply Hs. apply set_eq. intros y. rewrite elem_of_nodes, En. set_solver by lia.
Qed.

(** A triangle of three nodes *)
Definition triangle_ops : list GraphOp :=
  [OpAddEdge {[0%N]} {[1%N]} 0; OpAddEdge {[1%N]} {[2%N]} 1; OpAddEdge {[0%N]} {[2%N]} 2].

Lemma triangle_ok : ops_ok 3 [] triangle_ops.
Proof. cbn. split_and!; try done; try set_solver by lia. Qed.

Definition triangle : CDPHyperGraph := graph_of 3 triangle_ops.

Lemma enumerate_finds_all_witness :
  (p ← CDPHyperPlan_ctor 100 None; Enumerate triangle p) ⤳ (fun x => x.1 = false ->
    (forall s, seen x.2 s <-> csg triangle s) /\
    (forall a b id, csg triangle a -> csg triangle b -> a ## b -> connects triangle a b id -> recorded x.2 a b id) /\
    (Complete x.2 3 = true <-> csg triangle (nodes triangle))).
Proof.
  apply (enumerate_finds_all triangle 100 None).
  - apply graph_of_shows, triangle_ok.
  - intros k e He. unfold triangle in He.
    rewrite (gs_edges _ _ _ (graph_of_shows 3 triangle_ops triangle_ok)) in He.
    do 6 (destruct k as [|k]; [by injection He as <-|]). done.
  - lia.
  - done.
Defined.

(** ** Hyperedges *)

(** Five nodes and the edges 2-3, 1-4, {2,3}-{0,4}, 0-1 and {3,4}-0 *)
Definition hyper_ops : list GraphOp :=
  [OpAddEdge {[2%N]} {[3%N]} 0; OpAddEdge {[1%N]} {[4%N]} 1; OpAddEdge {[2%N; 3%N]} {[0%N; 4%N]} 2;
   OpAddEdge {[0%N]} {[1%N]} 3; OpAddEdge {[3%N; 4%N]} {[0%N]} 4].

Lemma hyper_ok : ops_ok 5 [] hyper_ops.
Proof. cbn. split_and!; try done; try set_solver by lia. Qed.

Definition hyper : CDPHyperGraph := graph_of 5 hyper_ops.

Lemma hyper_edge k (l r a b : gset N) id :
  fold_left (fun L op => spec_op op L) hyper_ops [] !! k = Some (mkSEdge l r id) -> l ⊆ a -> r ⊆ b -> connects hyper a b id.
Proof.
  intros He Ha Hb. exists (k * 2), (mkSEdge l r id). unfold hyper. rewrite (gs_edges _ _ _ (graph_of_shows 5 hyper_ops hyper_ok)), directed_lookup.
  done.
Qed.

(** {2,3} and {0,1,4} are connected, and joined by the edge {2,3}-{0,4}. *)
Lemma hyper_connected : csg hyper (nodes hyper).
Proof.
  assert (forall v, (v < 5)%N -> csg hyper {[v]}) as Hv.
  { intros v Hv. apply csg_node. unfold hyper. rewrite (gs_nodes _ _ _ (graph_of_shows 5 hyper_ops hyper_ok)). lia. }
  replace (nodes hyper) with (({[2%N]} ∪ {[3%N]}) ∪ ({[0%N]} ∪ ({[1%N]} ∪ {[4%N]})) : gset N).
  - apply (csg_join _ _ _ 2); [apply (csg_join _ _ _ 0)|apply (csg_join _ _ _ 3); [|apply (csg_join _ _ _ 1)|..]|..];
      try (apply Hv; lia); try set_solver.
    + by eapply (hyper_edge 0).
    + by eapply (hyper_edge 1).
    + eapply (hyper_edge 3); [done|set_solver|set_solver].
    + eapply (hyper_edge 2); [done|set_solver|set_solver].
  - vm_compute. reflexivity.
Qed.

Definition hyper_result : outcome (bool * CDPHyperPlan) :=
  p ← CDPHyperPlan_ctor 1000 None; Enumerate hyper p.

Definition hyper_plan : CDPHyperPlan :=
  match hyper_result with Ret x => x.2 | _ => mkPlan 0 true None ∅ ∅ [] 0 end.

(** C38. With hyperedges the enumerator can miss the only way to join all nodes: the
    graph below is connected, no filter rejects anything and the budget is not
    used up, but the plan is not complete. *)
Theorem enumerate_misses_hyperedge :
  graph_wf hyper /\ csg hyper (nodes hyper) /\
  exists q, (p ← CDPHyperPlan_ctor 1000 None; Enumerate hyper p) = Ret (false, q) /\
    length (m_pairs q) = 5 /\ Complete q (NodeCount hyper) = false.
Proof.
  split; [apply graph_of_shows, hyper_ok|]. split; [apply hyper_connected|].
  exists hyper_plan. split; [vm_compute; reflexivity|]. split; vm_compute; reflexivity.
Qed.
End HyperProps.
