(* ===== verification/HyperOrder.v ===== *)
(** * Order constraints between the edges of a graph

    Source: [CDPHyperOrderConstraints]. The constraints [before -> after] that have
    been accepted are kept as their reflexive and transitive closure, one set of
    reachable edges per edge; a constraint that closes a cycle is refused.
    [order_shows L o] relates the sets to the list [L] of accepted constraints. *)
From stdpp Require Import base numbers list gmap sets relations.
From S2P Require Import Prelude.

Module HyperOrder.
Open Scope nat_scope.
Open Scope outcome_scope.

(** The state of the object is [m_reachable], a vector of sets of edges. *)
Abbreviation CDPHyperOrderConstraints := (list (gset nat)).

Implicit Types (o : CDPHyperOrderConstraints) (before after : nat).

Definition CDPHyperOrderConstraints_ctor (edge_count : nat) : CDPHyperOrderConstraints :=
  (fun edge => {[edge]}) <$> seq 0 edge_count.

Definition WouldCreateCycle o before after : outcome bool :=
  _ ← GPOS_ASSERT ((before <? length o) && (after <? length o));
  s ← subscript o after;
  mret (bool_decide (before ∈ s)).

(** The loop over [m_reachable]; the set of [after] is read in every step *)
Definition extend_reachable before after (i : nat) o : outcome CDPHyperOrderConstraints :=
  reachable ← subscript o i;
  if bool_decide (before ∈ reachable) then
    (s ← subscript o after;
     mret (<[i := reachable ∪ s]> o))
  else mret o.

Definition TryAdd o before after : outcome (bool * CDPHyperOrderConstraints) :=
  cycle ← WouldCreateCycle o before after;
  if (cycle : bool) then mret (false, o) else
  s ← subscript o before;
  if bool_decide (after ∈ s) then mret (true, o) else
  o ← for_each (seq 0 (length o)) (extend_reachable before after) o;
  mret (true, o).

Definition Precedes o before after : outcome bool :=
  _ ← GPOS_ASSERT ((before <? length o) && (after <? length o));
  if negb (bool_decide (before = after)) then
    (s ← subscript o before; mret (bool_decide (after ∈ s)))
  else mret false.

(** ** The constraints behind the sets *)

Definition edge_of (L : list (nat * nat)) (x y : nat) : Prop := (x, y) ∈ L.

(** [y] comes after [x], or is [x]. *)
Definition reach (L : list (nat * nat)) : nat -> nat -> Prop := rtc (edge_of L).

#[export] Instance reach_preorder L : PreOrder (reach L).
Proof. unfold reach. apply _. Qed.

Definition acyclic (L : list (nat * nat)) : Prop := forall x y, reach L x y -> reach L y x -> x = y.

Record order_shows (n : nat) (L : list (nat * nat)) o : Prop := {
  os_length : length o = n;
  os_reach : forall i s, o !! i = Some s -> forall j, j ∈ s <-> reach L i j;
  os_acyclic : acyclic L;
  os_range : forall x y, (x, y) ∈ L -> x < n /\ y < n /\ x <> y;
}.

Lemma reach_snoc L (b a i j : nat) :
  reach (L ++ [(b, a)]) i j <-> reach L i j \/ (reach L i b /\ reach L a j).
Proof.
  assert (forall x y, edge_of (L ++ [(b, a)]) x y <-> edge_of L x y \/ (x = b /\ y = a)) as He.
  { intros x y. unfold edge_of. rewrite elem_of_app, list_elem_of_singleton. naive_solver. }
  split.
  - induction 1 as [x|x y z Hxy _ IH]; [left; apply rtc_refl|]. apply He in Hxy as [Hxy|[-> ->]].
    + destruct IH as [H|[H1 H2]]; [left; by eapply rtc_l|right; split; [by eapply rtc_l|done]].
    + right. destruct IH as [H|[_ H2]]; (split; [apply rtc_refl|done]).
  - assert (forall x y, reach L x y -> reach (L ++ [(b, a)]) x y) as Hm.
    { intros x y. apply rtc_subrel. intros u v Huv. apply He. by left. }
    intros [H|[H1 H2]]; [by apply Hm|]. transitivity b; [by apply Hm|].
    eapply rtc_l; [apply He; by right|by apply Hm].
Qed.

Lemma acyclic_snoc L (b a : nat) : acyclic L -> ~ reach L a b -> acyclic (L ++ [(b, a)]).
Proof.
  intros Ha Hn x y. rewrite !reach_snoc. intros [H1|[H1 H2]] [H3|[H3 H4]]; [by apply Ha|exfalso..].
  - apply Hn. transitivity x; [done|]. by transitivity y.
  - apply Hn. transitivity y; [done|]. by transitivity x.
  - apply Hn. by transitivity y.
Qed.

Lemma reach_range n L o i j : order_shows n L o -> reach L i j -> i < n -> j < n.
Proof.
  intros Ho. induction 1 as [|x y z Hxy _ IH]; [done|]. intros _. apply IH. by apply (os_range _ _ _ Ho x y).
Qed.

Lemma ctor_shows n : order_shows n [] (CDPHyperOrderConstraints_ctor n).
Proof.
  assert (forall i j, reach [] i j <-> i = j) as Hr.
  { intros i j. split; [|intros ->; apply rtc_refl]. intros H. destruct H as [|x y z Hxy _]; [done|].
    by apply not_elem_of_nil in Hxy. }
  split.
  - unfold CDPHyperOrderConstraints_ctor. by rewrite length_fmap, length_seq.
  - intros i s Hs j. unfold CDPHyperOrderConstraints_ctor in Hs.
    apply list_lookup_fmap_Some in Hs as (k & -> & Hk). apply lookup_seq in Hk as [-> _]. cbn.
    rewrite Hr, elem_of_singleton. naive_solver.
  - intros x y H _. by apply Hr in H.
  - intros x y H. by apply not_elem_of_nil in H.
Qed.

Section Operations.
Context (n : nat) (L : list (nat * nat)) (o : CDPHyperOrderConstraints) (Ho : order_shows n L o).
Context (before after : nat) (Hb : before < n) (Ha : after < n).

Lemma shows_lookup i : i < n -> exists s, o !! i = Some s /\ forall j, j ∈ s <-> reach L i j.
Proof using Ho.
  intros Hi. rewrite <- (os_length _ _ _ Ho) in Hi. destruct (lookup_lt_is_Some_2 o i Hi) as [s Hs].
  exists s. split; [done|]. by apply (os_reach _ _ _ Ho i).
Qed.

Lemma WouldCreateCycle_ret : exists c, WouldCreateCycle o before after = Ret c /\ (c = true <-> reach L after before).
Proof using All.
  unfold WouldCreateCycle. rewrite bind_assert; [|rewrite (os_length _ _ _ Ho); apply andb_true_intro; split; by apply Nat.ltb_lt].
  destruct (shows_lookup after Ha) as (s & Hs & Hr). rewrite (subscript_some _ _ _ Hs). cbn [mbind outcome_bind].
  eexists. split; [done|]. by rewrite bool_decide_eq_true.
Qed.

Lemma Precedes_ret :
  exists c, Precedes o before after = Ret c /\ (c = true <-> before <> after /\ reach L before after).
Proof using All.
  unfold Precedes. rewrite bind_assert; [|rewrite (os_length _ _ _ Ho); apply andb_true_intro; split; by apply Nat.ltb_lt].
  case_bool_decide as E; cbn [negb]; [exists false; split; [done|]; split; [done|by intros [? _]]|].
  destruct (shows_lookup before Hb) as (s & Hs & Hr). rewrite (subscript_some _ _ _ Hs). cbn [mbind outcome_bind].
  eexists. split; [done|]. rewrite bool_decide_eq_true, Hr. tauto.
Qed.

(** The sets up to a position have been extended by what [after] reaches. *)
Definition extended (pre : list nat) o' : Prop :=
  length o' = n /\ forall i s', o' !! i = Some s' -> forall j,
    j ∈ s' <-> reach L i j \/ (i ∈ pre /\ reach L i before /\ reach L after j).

Lemma extend_loop :
  ~ reach L after before -> for_each (seq 0 n) (extend_reachable before after) o ⤳ extended (seq 0 n).
Proof using All.
  intros Hn. apply (for_each_rule extended).
  - split; [apply Ho|]. intros i s Hs j. rewrite (os_reach _ _ _ Ho i s Hs). set_solver.
  - intros pre i rest o' Hl [Hlen Hext]. unfold extend_reachable.
    assert (i ∈ seq 0 n) as Hin by (rewrite Hl; set_solver). apply elem_of_seq in Hin.
    assert (i ∉ pre) as Hip.
    { pose proof (NoDup_seq 0 n) as Hnd. rewrite Hl in Hnd. apply NoDup_app in Hnd as (_ & Hnd & _).
      intros Hip. apply (Hnd i Hip). set_solver. }
    destruct (lookup_lt_is_Some_2 o' i) as [s' Hs']; [lia|]. rewrite (subscript_some _ _ _ Hs'). cbn [mbind outcome_bind].
    destruct (lookup_lt_is_Some_2 o' after) as [sa Hsa]; [lia|]. rewrite (subscript_some _ _ _ Hsa). cbn [mbind outcome_bind].
    pose proof (Hext i s' Hs') as Hi. pose proof (Hext after sa Hsa) as Hra.
    case_bool_decide as Eb; apply returns_ret.
    + assert (reach L i before) as Hib by (apply Hi in Eb; tauto).
      split; [by rewrite length_insert|]. intros k t Ht j. rewrite elem_of_app, list_elem_of_singleton.
      destruct (decide (k = i)) as [->|Hk].
      * rewrite list_lookup_insert_eq in Ht by (by eapply lookup_lt_Some). injection Ht as <-.
        rewrite elem_of_union, Hi, Hra. tauto.
      * rewrite list_lookup_insert_ne in Ht by done. rewrite (Hext k t Ht j). tauto.
    + split; [done|]. intros k t Ht j. rewrite elem_of_app, list_elem_of_singleton, (Hext k t Ht j).
      assert (k = i -> ~ reach L k before) as Hk; [|tauto]. intros ->. rewrite Hi in Eb. tauto.
Qed.

(** A constraint that holds already changes nothing. *)
Lemma TryAdd_same : reach L before after -> ~ reach L after before -> TryAdd o before after = Ret (true, o).
Proof using All.
  intros Hr Hn. unfold TryAdd. destruct WouldCreateCycle_ret as (c & -> & Hc). cbn [mbind outcome_bind].
  destruct c; [by destruct Hn; apply Hc|]. destruct (shows_lookup before Hb) as (s & Hs & Hrs).
  rewrite (subscript_some _ _ _ Hs). cbn [mbind outcome_bind]. by rewrite bool_decide_eq_true_2 by (by apply Hrs).
Qed.

(** A constraint is refused exactly if it closes a cycle; else it is accepted. *)
Lemma TryAdd_ret :
  TryAdd o before after ⤳ (fun x => (x.1 = false <-> reach L after before) /\
    (x.1 = false -> x.2 = o) /\ (x.1 = true -> order_shows n (L ++ [(before, after)]) x.2)).
Proof using All.
  unfold TryAdd. destruct WouldCreateCycle_ret as (c & -> & Hc). cbn [mbind outcome_bind]. destruct c.
  { apply returns_ret. cbn. by intuition. }
  assert (~ reach L after before) as Hn by (intros H; by apply Hc in H).
  assert (forall x y, (x, y) ∈ L ++ [(before, after)] -> x < n /\ y < n /\ x <> y) as Hr.
  { intros x y [H|H%list_elem_of_singleton]%elem_of_app; [by apply (os_range _ _ _ Ho)|]. injection H as -> ->.
    split_and!; [done|done|]. intros ->. apply Hn, rtc_refl. }
  pose proof (acyclic_snoc L before after (os_acyclic _ _ _ Ho) Hn) as Hac.
  destruct (shows_lookup before Hb) as (s & Hs & Hrs). rewrite (subscript_some _ _ _ Hs). cbn [mbind outcome_bind].
  case_bool_decide as Es.
  - apply returns_ret. cbn. split; [by split|]. split; [done|]. intros _. split; [apply Ho| |done|done].
    intros i t Ht j. rewrite (os_reach _ _ _ Ho i t Ht), reach_snoc. apply Hrs in Es.
    split; [by left|]. intros [H|[H1 H2]]; [done|]. transitivity before; [done|]. by transitivity after.
  - rewrite (os_length _ _ _ Ho). eapply returns_bind; [by apply extend_loop|]. intros o' [Hlen Hext].
    apply returns_ret. cbn. split; [by split|]. split; [done|]. intros _. split; [done| |done|done].
    intros i t Ht j. rewrite (Hext i t Ht), reach_snoc. pose proof (lookup_lt_Some _ _ _ Ht) as Hlt.
    rewrite elem_of_seq. intuition lia.
Qed.
End Operations.
End HyperOrder.
