(* ===== verification/HyperSimplify.v ===== *)
(** * Simplification of a join hypergraph

    Source: [CDPHyperGraphSimplifier]. When the enumeration of a graph would need
    more pairs than the budget allows, the simplifier orders pairs of neighboring
    edges: the later edge is widened so that it contains the nodes of the earlier
    one. It applies the most promising steps until the enumeration fits the budget
    and then searches for the smallest number of steps that does.

    [DOUBLE] is an IEEE binary64 number. The callbacks (the cost of a join, the
    filters) are arguments of the section. [std::priority_queue] is a list of the
    elements in the queue with a choice of its top ([PriorityQueue]); nothing is
    assumed of that choice but that it is an element of the queue.  A pointer to an
    [SBestSimplification] is its position in [m_best], and the neighbor -1 is
    [None]. Counts of steps and edges are unbounded numbers.

    Bounds of the loops: [ProcessNeighbors] calls itself once, with a range below
    which there is nothing to do, so its depth is two; [FetchStep] pops each stale
    element at most once; [step_bound] bounds the number of steps ever made. *)
From stdpp Require Import base numbers list gmap sets.
From Stdlib Require Import SpecFloat.
From S2P Require Import Prelude BitSet SetHash HyperGraph HyperEnum HyperPlan HyperOrder.

Module HyperSimplify.
Import HyperGraph HyperEnum HyperPlan HyperOrder.
Open Scope nat_scope.

(** ** Floating-point numbers *)

Definition DOUBLE : Type := spec_float.
Definition double_zero : DOUBLE := S754_zero false.
(** [std::numeric_limits<DOUBLE>::max()] *)
Definition double_max : DOUBLE := S754_finite false 9007199254740991 971.
Definition double_div : DOUBLE -> DOUBLE -> DOUBLE := SFdiv 53 1024.
(** [std::min] and [std::max] *)
Definition double_min2 (a b : DOUBLE) : DOUBLE := if SFltb b a then b else a.
Definition double_max2 (a b : DOUBLE) : DOUBLE := if SFltb a b then b else a.

(** ** Data *)

Record SEdgeChange := mkChange {
  c_edge : nat;
  c_old_left : gset N;
  c_old_right : gset N;
  c_new_left : gset N;
  c_new_right : gset N;
}.

Record SSimplificationStep := mkStep {
  m_benefit : DOUBLE;
  m_before : nat;
  m_after : nat;
  m_change : SEdgeChange;
}.

Record SBestSimplification := mkBest {
  m_best_neighbor : option nat;
  m_step : option SSimplificationStep;
  m_in_queue : bool;
}.

Record CDPHyperGraphSimplifier := mkSimplifier {
  m_graph : CDPHyperGraph;
  m_order : list (gset nat);
  m_best : list SBestSimplification;
  m_queue : list nat;
  m_applied : list SSimplificationStep;
  m_unapplied : list SSimplificationStep;
}.

Implicit Types (st : CDPHyperGraphSimplifier).

Definition set_graph st g := mkSimplifier g (m_order st) (m_best st) (m_queue st) (m_applied st) (m_unapplied st).
Definition set_order st o := mkSimplifier (m_graph st) o (m_best st) (m_queue st) (m_applied st) (m_unapplied st).
Definition set_best st l := mkSimplifier (m_graph st) (m_order st) l (m_queue st) (m_applied st) (m_unapplied st).
Definition set_queue st q := mkSimplifier (m_graph st) (m_order st) (m_best st) q (m_applied st) (m_unapplied st).
Definition set_stacks st a u := mkSimplifier (m_graph st) (m_order st) (m_best st) (m_queue st) a u.

(** The top of a priority queue, given the benefits of its elements *)
Class PriorityQueue := {
  pq_top : list DOUBLE -> nat;
  pq_top_lt l : l <> [] -> pq_top l < length l;
}.

(** An assignment through the pointer [m_best[i]] *)
Definition update_best st (i : nat) (f : SBestSimplification -> SBestSimplification) : outcome CDPHyperGraphSimplifier :=
  b ← subscript (m_best st) i;
  mret (set_best st (<[i := f b]> (m_best st))).

Definition with_neighbor (x : option nat) (b : SBestSimplification) := mkBest x (m_step b) (m_in_queue b).
Definition with_step (x : option SSimplificationStep) (b : SBestSimplification) := mkBest (m_best_neighbor b) x (m_in_queue b).
Definition with_in_queue (x : bool) (b : SBestSimplification) := mkBest (m_best_neighbor b) (m_step b) x.

(** ** Edges *)

Definition FSubset (subset superset : gset N) : bool := bool_decide (subset ⊆ superset).

Definition PbsUnion (l r : gset N) : gset N := l ∪ r.

Definition edge_count st : outcome nat := LogicalEdgeCount (m_graph st).

Definition SEdgeOf st (edge : nat) : outcome SEdge :=
  n ← edge_count st;
  _ ← GPOS_ASSERT (edge <? n);
  Edge (m_graph st) (edge * 2).

Definition PbsUsedNodes st (edge : nat) : outcome (gset N) :=
  e ← SEdgeOf st edge;
  mret (PbsUnion (m_left e) (m_right e)).

Definition FTryGetSuperset (l r : gset N) : option (gset N) :=
  if FSubset l r then Some r
  else if FSubset r l then Some l
  else None.

(** A pair of edges whose nodes are contained in each other's *)
Definition extract_pair edge1 edge2 st : outcome CDPHyperGraphSimplifier :=
  used1 ← PbsUsedNodes st edge1;
  used2 ← PbsUsedNodes st edge2;
  if FSubset used1 used2 then
    ('(added, o) ← TryAdd (m_order st) edge1 edge2;
     _ ← GPOS_ASSERT added;
     mret (set_order st o))
  else if FSubset used2 used1 then
    ('(added, o) ← TryAdd (m_order st) edge2 edge1;
     _ ← GPOS_ASSERT added;
     mret (set_order st o))
  else mret st.

Definition ExtractJoinDependencies st : outcome CDPHyperGraphSimplifier :=
  n ← edge_count st;
  for_each (seq 0 n) (fun edge1 st =>
    for_each (seq (edge1 + 1) (n - (edge1 + 1))) (extract_pair edge1) st) st.

Section Simplifier.
Context `{BH : BitSetHash} `{PQ : PriorityQueue}.
Context (m_pair_budget : nat) (m_pair_filter : option (gset N -> gset N -> N -> bool))
  (m_edge_filter : N -> bool) (m_join_cost : gset N -> gset N -> option DOUBLE).

(** ** Steps *)

Definition Pchange st (edge : nat) (new_left new_right : gset N) : outcome SEdgeChange :=
  old ← SEdgeOf st edge;
  mret (mkChange edge (m_left old) (m_right old) new_left new_right).

Definition ThreeLeftJoin st (set1 : gset N) edge1 (set2 : gset N) edge2 (set3 : gset N) :
    outcome (option SSimplificationStep) :=
  let new_left := PbsUnion set1 set2 in
  if negb (bool_decide (set1 ## set2)) || negb (bool_decide (new_left ## set3)) then mret None else
  match m_join_cost set1 set2 with
  | None => mret None
  | Some first_cost =>
      match m_join_cost new_left set3 with
      | None => mret None
      | Some total_cost =>
          change ← Pchange st edge2 new_left set3;
          mret (Some (mkStep total_cost edge1 edge2 change))
      end
  end.

Definition ThreeRightJoin st (set1 : gset N) edge1 (set2 : gset N) edge2 (set3 : gset N) :
    outcome (option SSimplificationStep) :=
  let new_right := PbsUnion set2 set3 in
  if negb (bool_decide (set2 ## set3)) || negb (bool_decide (set1 ## new_right)) then mret None else
  match m_join_cost set2 set3 with
  | None => mret None
  | Some first_cost =>
      match m_join_cost set1 new_right with
      | None => mret None
      | Some total_cost =>
          change ← Pchange st edge1 set1 new_right;
          mret (Some (mkStep total_cost edge2 edge1 change))
      end
  end.

Definition OrderJoin (edge1_before2 edge2_before1 : SSimplificationStep) : SSimplificationStep :=
  let cost1 := m_benefit edge1_before2 in
  let cost2 := m_benefit edge2_before1 in
  let selected := if SFltb cost1 cost2 then edge1_before2 else edge2_before1 in
  let lower := double_min2 cost1 cost2 in
  let higher := double_max2 cost1 cost2 in
  mkStep (if SFltb double_zero lower then double_div higher lower else double_max)
    (m_before selected) (m_after selected) (m_change selected).

(** The tests at the start of [MakeStep], in their order *)
Definition step_excluded st edge1 edge2 : outcome bool :=
  used1 ← PbsUsedNodes st edge1;
  used2 ← PbsUsedNodes st edge2;
  if FSubset used1 used2 || FSubset used2 used1 then mret true else
  c1 ← WouldCreateCycle (m_order st) edge1 edge2;
  if (c1 : bool) then mret true else
  c2 ← WouldCreateCycle (m_order st) edge2 edge1;
  if (c2 : bool) then mret true else
  e1 ← SEdgeOf st edge1;
  if negb (m_edge_filter (m_edge_id e1)) then mret true else
  e2 ← SEdgeOf st edge2;
  mret (negb (m_edge_filter (m_edge_id e2))).

(** [FTryGetSuperset(l, r, &common) && other1->IsDisjoint(other2)] *)
Definition common_superset (l r other1 other2 : gset N) : option (gset N) :=
  match FTryGetSuperset l r with
  | Some common => if bool_decide (other1 ## other2) then Some common else None
  | None => None
  end.

(** The four cases of [MakeStep]: the two orders of the edges *)
Definition both_orders st edge1 edge2 (e1 e2 : SEdge) :
    outcome (option SSimplificationStep * option SSimplificationStep) :=
  let left1 := m_left e1 in
  let right1 := m_right e1 in
  let left2 := m_left e2 in
  let right2 := m_right e2 in
  match common_superset left1 left2 right1 right2 with
  | Some common =>
      first ← ThreeLeftJoin st common edge1 right1 edge2 right2;
      second ← ThreeLeftJoin st common edge2 right2 edge1 right1;
      mret (first, second)
  | None =>
  match common_superset left1 right2 left2 right1 with
  | Some common =>
      first ← ThreeRightJoin st left2 edge2 common edge1 right1;
      second ← ThreeLeftJoin st left2 edge2 common edge1 right1;
      mret (first, second)
  | None =>
  match common_superset right1 left2 left1 right2 with
  | Some common =>
      first ← ThreeLeftJoin st left1 edge1 common edge2 right2;
      second ← ThreeRightJoin st left1 edge1 common edge2 right2;
      mret (first, second)
  | None =>
  match common_superset right1 right2 left1 left2 with
  | Some common =>
      first ← ThreeRightJoin st left2 edge2 left1 edge1 common;
      second ← ThreeRightJoin st left1 edge1 left2 edge2 common;
      mret (first, second)
  | None => mret (None, None)
  end end end end.

Definition MakeStep st edge1 edge2 : outcome (option SSimplificationStep) :=
  excluded ← step_excluded st edge1 edge2;
  if (excluded : bool) then mret None else
  e1 ← SEdgeOf st edge1;
  e2 ← SEdgeOf st edge2;
  '(first, second) ← both_orders st edge1 edge2 e1 e2;
  match first, second with
  | Some s1, Some s2 => mret (Some (OrderJoin s1 s2))
  | _, _ => mret None
  end.

(** ** The queue *)

(** The benefits of the elements; the comparison asserts that there is a step. *)
Definition queue_benefits st : outcome (list DOUBLE) :=
  for_each (m_queue st) (fun i l =>
    b ← subscript (m_best st) i;
    match m_step b with Some s => mret (l ++ [m_benefit s]) | None => Abort FAssert end) [].

(** [m_queue.top()] and [m_queue.pop()] *)
Definition queue_pop st : outcome (nat * CDPHyperGraphSimplifier) :=
  benefits ← queue_benefits st;
  let k := pq_top benefits in
  i ← subscript (m_queue st) k;
  mret (i, set_queue st (delete k (m_queue st))).

(** The loop of [UpdateQueue] that moves the elements to [rebuilt] *)
Fixpoint rebuild_queue (fuel : nat) (best : nat) st (rebuilt : list nat) : outcome (CDPHyperGraphSimplifier * list nat) :=
  match m_queue st with
  | [] => mret (st, rebuilt)
  | _ :: _ =>
      match fuel with
      | O => Abort FFuel
      | S fuel' =>
          '(candidate, st) ← queue_pop st;
          rebuild_queue fuel' best st (if bool_decide (candidate = best) then rebuilt else rebuilt ++ [candidate])
      end
  end.

Definition UpdateQueue (best : nat) st : outcome CDPHyperGraphSimplifier :=
  b ← subscript (m_best st) best;
  if negb (m_in_queue b) then
    match m_best_neighbor b with
    | Some _ => update_best (set_queue st (m_queue st ++ [best])) best (with_in_queue true)
    | None => mret st
    end
  else
    '(st, rebuilt) ← rebuild_queue (length (m_queue st)) best st [];
    match m_best_neighbor b with
    | None =>
        st ← update_best st best (with_in_queue false);
        mret (set_queue st rebuilt)
    | Some _ => mret (set_queue st (rebuilt ++ [best]))
    end.

Definition TrySetStep (step : SSimplificationStep) (best neighbor : nat) st : outcome (bool * CDPHyperGraphSimplifier) :=
  b ← subscript (m_best st) best;
  better ← match m_best_neighbor b with
           | None => mret true
           | Some _ =>
               if negb (m_in_queue b) then mret true
               else (s ← deref (m_step b); mret (SFleb (m_benefit s) (m_benefit step)))
           end;
  if (better : bool) then
    st ← update_best st best (with_neighbor (Some neighbor));
    st ← update_best st best (with_step (Some step));
    st ← UpdateQueue best st;
    mret (true, st)
  else mret (false, st).

(** The second loop of [ProcessNeighbors] *)
Definition fill_best edge1 (l : list nat) st : outcome CDPHyperGraphSimplifier :=
  for_each l (fun edge2 st =>
    step ← MakeStep st edge1 edge2;
    match step with
    | Some s => x ← TrySetStep s edge1 edge2 st; mret x.2
    | None => mret st
    end) st.

Fixpoint ProcessNeighbors (fuel : nat) edge1 (begin_ end_ : nat) st : outcome CDPHyperGraphSimplifier :=
  match fuel with
  | O => Abort FFuel
  | S fuel' =>
      st ← for_each (seq begin_ (min end_ edge1 - begin_)) (fun edge2 st =>
        step ← MakeStep st edge1 edge2;
        '(set, st) ← match step with
                     | Some s => TrySetStep s edge2 edge1 st
                     | None => mret (false, st)
                     end;
        if (set : bool) then mret st else
        best ← subscript (m_best st) edge2;
        if bool_decide (m_best_neighbor best = Some edge1) then
          (n ← edge_count st; ProcessNeighbors fuel' edge2 (edge2 + 1) n st)
        else mret st) st;
      st ← update_best st edge1 (with_neighbor None);
      st ← fill_best edge1 (seq (max begin_ (edge1 + 1)) (end_ - max begin_ (edge1 + 1))) st;
      UpdateQueue edge1 st
  end.

Definition InitFirstStep st : outcome CDPHyperGraphSimplifier :=
  st ← ExtractJoinDependencies st;
  n ← edge_count st;
  for_each (seq 0 n) (fun edge st =>
    n ← edge_count st;
    ProcessNeighbors 2 edge (edge + 1) n st) st.

Definition CDPHyperGraphSimplifier_ctor (graph : CDPHyperGraph) : outcome CDPHyperGraphSimplifier :=
  n ← LogicalEdgeCount graph;
  _ ← GPOS_ASSERT (0 <? m_pair_budget);
  InitFirstStep (mkSimplifier graph (CDPHyperOrderConstraints_ctor n) (replicate n (mkBest None None false)) [] [] []).

(** ** Applying steps *)

(** The loop of [FetchStep] over the queue *)
Fixpoint fetch_loop (fuel : nat) st : outcome (option SSimplificationStep * CDPHyperGraphSimplifier) :=
  match m_queue st with
  | [] => mret (None, st)
  | _ :: _ =>
      match fuel with
      | O => Abort FFuel
      | S fuel' =>
          '(best, st) ← queue_pop st;
          st ← update_best st best (with_in_queue false);
          b ← subscript (m_best st) best;
          match m_best_neighbor b, m_step b with
          | Some _, Some step =>
              '(added, o) ← TryAdd (m_order st) (m_before step) (m_after step);
              let st := set_order st o in
              if (added : bool) then mret (Some step, st) else
              n ← edge_count st;
              st ← ProcessNeighbors 2 (m_after step) 0 n st;
              fetch_loop fuel' st
          | _, _ => fetch_loop fuel' st
          end
      end
  end.

Definition FetchStep st : outcome (option SSimplificationStep * CDPHyperGraphSimplifier) :=
  match m_unapplied st with
  | step :: unapplied => mret (Some step, set_stacks st (m_applied st) unapplied)
  | [] => fetch_loop (S (length (m_best st))) st
  end.

Definition ModifyEdge (step : SSimplificationStep) (apply : bool) st : outcome CDPHyperGraphSimplifier :=
  let change := m_change step in
  g ← ReplaceEdge (m_graph st) (c_edge change)
        (if apply then c_new_left change else c_old_left change)
        (if apply then c_new_right change else c_old_right change);
  mret (set_graph st g).

Definition ApplyStep st : outcome (bool * CDPHyperGraphSimplifier) :=
  let fresh := match m_unapplied st with [] => true | _ :: _ => false end in
  '(step, st) ← FetchStep st;
  match step with
  | None => mret (false, st)
  | Some step =>
      st ← ModifyEdge step true st;
      let st := set_stacks st (step :: m_applied st) (m_unapplied st) in
      if (fresh : bool) then
        (n ← edge_count st;
         st ← ProcessNeighbors 2 (m_after step) 0 n st;
         mret (true, st))
      else mret (true, st)
  end.

Definition UnapplyStep st : outcome (bool * CDPHyperGraphSimplifier) :=
  match m_applied st with
  | [] => mret (false, st)
  | step :: applied =>
      let st := set_stacks st applied (m_unapplied st) in
      st ← ModifyEdge step false st;
      mret (true, set_stacks st (m_applied st) (step :: m_unapplied st))
  end.

(** The two loops of [ApplySteps] *)
Fixpoint apply_up (fuel count : nat) st : outcome (bool * CDPHyperGraphSimplifier) :=
  if length (m_applied st) <? count then
    match fuel with
    | O => Abort FFuel
    | S fuel' =>
        '(ok, st) ← ApplyStep st;
        if (ok : bool) then apply_up fuel' count st else mret (false, st)
    end
  else mret (true, st).

Fixpoint apply_down (fuel count : nat) st : outcome CDPHyperGraphSimplifier :=
  if count <? length (m_applied st) then
    match fuel with
    | O => Abort FFuel
    | S fuel' =>
        '(unapplied, st) ← UnapplyStep st;
        _ ← GPOS_ASSERT unapplied;
        apply_down fuel' count st
    end
  else mret st.

Definition ApplySteps (count : nat) st : outcome (bool * CDPHyperGraphSimplifier) :=
  '(ok, st) ← apply_up count count st;
  if (ok : bool) then
    st ← apply_down (length (m_applied st)) count st;
    mret (true, st)
  else mret (false, st).

(** ** The search for the number of steps *)

Definition EnumerationExceedsBudget (graph : CDPHyperGraph) : outcome bool :=
  probe ← CDPHyperPlan_ctor m_pair_budget m_pair_filter;
  '(aborted, probe) ← Enumerate graph probe;
  mret (aborted || negb (Complete probe (NodeCount graph))).

(** How a loop of [Simplify] ends: [return false], or with the number of steps *)
Inductive raise_end := RaiseReturn | RaiseBreak (applied : nat).

(** [while (applied < upper)] *)
Fixpoint raise_to (fuel applied upper : nat) st : outcome (raise_end * CDPHyperGraphSimplifier) :=
  if applied <? upper then
    match fuel with
    | O => Abort FFuel
    | S fuel' =>
        '(ok, st) ← ApplyStep st;
        if (ok : bool) then raise_to fuel' (applied + 1) upper st else
        exceeds ← EnumerationExceedsBudget (m_graph st);
        if (exceeds : bool) then
          x ← ApplySteps 0 st;
          mret (RaiseReturn, x.2)
        else mret (RaiseBreak applied, st)
    end
  else mret (RaiseBreak applied, st).

(** [while (true)] *)
Fixpoint raise_loop (fuel applied upper : nat) st : outcome (raise_end * CDPHyperGraphSimplifier) :=
  match fuel with
  | O => Abort FFuel
  | S fuel' =>
      '(r, st) ← raise_to (upper - applied) applied upper st;
      match r with
      | RaiseReturn => mret (RaiseReturn, st)
      | RaiseBreak applied =>
          if applied <? upper then mret (RaiseBreak applied, st) else
          exceeds ← EnumerationExceedsBudget (m_graph st);
          if (exceeds : bool) then raise_loop fuel' applied (upper * 2) st
          else mret (RaiseBreak applied, st)
      end
  end.

(** The binary search *)
Fixpoint search_loop (fuel lower upper : nat) st : outcome (nat * CDPHyperGraphSimplifier) :=
  if lower <? upper then
    match fuel with
    | O => Abort FFuel
    | S fuel' =>
        let middle := lower + (upper - lower) / 2 in
        '(ok, st) ← ApplySteps middle st;
        if negb ok then search_loop fuel' (middle + 1) upper st else
        exceeds ← EnumerationExceedsBudget (m_graph st);
        if negb exceeds then search_loop fuel' lower middle st
        else search_loop fuel' (middle + 1) upper st
    end
  else mret (upper, st).

(** A bound on the number of steps ever made over [n] edges *)
Definition step_bound (n : nat) : nat := n * n * (n + 1) + n.

Definition Simplify st : outcome (bool * CDPHyperGraphSimplifier) :=
  _ ← GPOS_ASSERT (0 <? m_pair_budget);
  '(r, st) ← raise_loop (step_bound (length (m_best st)) + 2) 0 1 st;
  match r with
  | RaiseReturn => mret (false, st)
  | RaiseBreak applied =>
      let upper := applied + 1 in
      '(upper, st) ← search_loop upper 0 upper st;
      '(ok, st) ← ApplySteps upper st;
      if negb ok then
        x ← ApplySteps 0 st;
        mret (false, x.2)
      else mret (0 <? length (m_applied st), st)
  end.

Definition Restore st : outcome CDPHyperGraphSimplifier :=
  '(restored, st) ← ApplySteps 0 st;
  _ ← GPOS_ASSERT restored;
  mret st.
End Simplifier.
End HyperSimplify.
