(* ===== verification/HyperStep.v ===== *)
(** * The steps of the simplifier

    A step widens the later of two edges; the queue holds, for an edge, the best
    step with a later edge. [step_ok es s] says that step [s] fits the edges [es];
    [queue_ok] relates the queue to the entries of [m_best]. *)
From stdpp Require Import base numbers list gmap sets.
From Stdlib Require Import SpecFloat.
From S2P Require Import Prelude BitSet SetHash HyperGraph HyperEnum HyperPlan HyperOrder HyperSimplify.

Module HyperStep.
Import HyperGraph HyperEnum HyperPlan HyperOrder HyperSimplify.
Open Scope nat_scope.
Open Scope outcome_scope.

(** ** Steps and edges *)

(** [nn] nodes and [n] edges *)
Section Sizes.
Context (nn n : nat).

Record sides_in (l r : gset N) : Prop := {
  si_left : l <> ∅;
  si_right : r <> ∅;
  si_disjoint : l ## r;
  si_nodes : forall x, x ∈ l ∪ r -> N.to_nat x < nn;
}.

(** Both directions of edge [k] *)
Definition edge_at (es : list SEdge) (k : nat) (l r : gset N) (id : N) : Prop :=
  es !! (k * 2) = Some (mkSEdge l r id) /\ es !! (k * 2 + 1) = Some (mkSEdge r l id).

Record step_ok (es : list SEdge) (s : SSimplificationStep) : Prop := {
  so_edge : c_edge (m_change s) = m_after s;
  so_range : m_after s < n;
  so_old : exists id, edge_at es (m_after s) (c_old_left (m_change s)) (c_old_right (m_change s)) id;
  so_old_sides : sides_in (c_old_left (m_change s)) (c_old_right (m_change s));
  so_new_sides : sides_in (c_new_left (m_change s)) (c_new_right (m_change s));
  so_wider : c_old_left (m_change s) ⊆ c_new_left (m_change s) /\ c_old_right (m_change s) ⊆ c_new_right (m_change s);
  so_before : exists l r id, edge_at es (m_before s) l r id /\
    (l ∪ r ⊆ c_new_left (m_change s) \/ l ∪ r ⊆ c_new_right (m_change s));
}.

(** The graph shows the edges. *)
Record graph_has (es : list SEdge) (g : CDPHyperGraph) : Prop := {
  gh_wf : graph_wf g;
  gh_nodes : NodeCount g = nn;
  gh_edges : m_edges g = es;
  gh_length : length es = n * 2;
}.

Definition ordered_pair (s : SSimplificationStep) (x y : nat) : Prop :=
  (m_before s = x /\ m_after s = y) \/ (m_before s = y /\ m_after s = x).

(** Whether the order relates two edges *)
Definition cmp (o : list (gset nat)) (x y : nat) : bool :=
  match o !! x, o !! y with
  | Some sx, Some sy => bool_decide (y ∈ sx) || bool_decide (x ∈ sy)
  | _, _ => true
  end.

Lemma sides_in_graph g l r : NodeCount g = nn -> sides_in l r -> sides_ok g l r.
Proof. intros Hn [H1 H2 H3 H4]. split; [done..| |]; intros x Hx; rewrite Hn; apply H4; set_solver. Qed.

Section Graph.
Context (es : list SEdge) (g : CDPHyperGraph) (Hg : graph_has es g).

Lemma count_ret : LogicalEdgeCount g = Ret n.
Proof using Hg.
  destruct Hg as [_ _ He Hl]. unfold LogicalEdgeCount. rewrite He, Hl, Nat.Div0.mod_mul, Nat.div_mul by done. done.
Qed.

Lemma edge_present k : k < n -> exists l r id, edge_at es k l r id /\ sides_in l r.
Proof using Hg.
  intros Hk. destruct Hg as [Hw Hn He Hl]. destruct (lookup_lt_is_Some_2 es (k * 2)) as [[l r id] E]; [lia|].
  rewrite <- He in E. pose proof (gw_flip _ Hw k _ E) as E1. destruct (gw_edges _ Hw _ _ E) as [O1 O2 O3 O4 O5].
  exists l, r, id. unfold edge_at. rewrite <- He. split; [done|]. split; [done..|].
  intros x [Hx|Hx]%elem_of_union; rewrite <- Hn; [by apply O4|by apply O5].
Qed.

Lemma Edge_ret k l r id : edge_at es k l r id -> Edge g (k * 2) = Ret (mkSEdge l r id).
Proof using Hg. intros [H _]. unfold Edge. rewrite (gh_edges _ _ Hg). by rewrite H. Qed.
End Graph.

Lemma edge_at_range es k l r id : length es = n * 2 -> edge_at es k l r id -> k < n.
Proof. intros Hl [H _]. apply lookup_lt_Some in H. lia. Qed.

Lemma edge_at_unique es k l r id l' r' id' : edge_at es k l r id -> edge_at es k l' r' id' -> l' = l /\ r' = r /\ id' = id.
Proof. intros [H _] [H' _]. rewrite H in H'. by injection H' as <- <- <-. Qed.
End Sizes.

Section Steps.
Context (nn n : nat).
Context `{BH : BitSetHash} `{PQ : PriorityQueue}.
Context (budget : nat) (pair_filter : option (gset N -> gset N -> N -> bool))
  (edge_filter : N -> bool) (join_cost : gset N -> gset N -> option DOUBLE).
Implicit Types (st : CDPHyperGraphSimplifier) (s : SSimplificationStep).

Abbreviation MakeStep := (MakeStep edge_filter join_cost).
Abbreviation ThreeLeftJoin := (ThreeLeftJoin join_cost).
Abbreviation ThreeRightJoin := (ThreeRightJoin join_cost).

Section State.
Context (es : list SEdge) (st : CDPHyperGraphSimplifier) (Hg : graph_has nn n es (m_graph st)).

Lemma SEdgeOf_ret k l r id : edge_at es k l r id -> SEdgeOf st k = Ret (mkSEdge l r id).
Proof.
  intros He. unfold SEdgeOf, edge_count. rewrite (count_ret nn n es) by done. cbn [mbind outcome_bind].
  rewrite bind_assert by (apply Nat.ltb_lt; by eapply edge_at_range; [apply Hg|]). by eapply Edge_ret.
Qed.

(** The step that [ThreeLeftJoin] makes of the sets *)
Lemma ThreeLeftJoin_ret (set1 set2 set3 : gset N) e1 e2 l1 r1 id1 l2 r2 id2 :
  edge_at es e1 l1 r1 id1 -> edge_at es e2 l2 r2 id2 -> sides_in nn l1 r1 -> sides_in nn l2 r2 ->
  l2 ⊆ set1 ∪ set2 -> r2 = set3 -> l1 ∪ r1 ⊆ set1 ∪ set2 -> (forall x, x ∈ set1 ∪ set2 -> N.to_nat x < nn) ->
  ThreeLeftJoin st set1 e1 set2 e2 set3 ⤳ (fun o => forall s, o = Some s ->
    step_ok nn n es s /\ m_before s = e1 /\ m_after s = e2).
Proof.
  intros H1 H2 S1 S2 Hl -> Hb Hn. unfold HyperSimplify.ThreeLeftJoin, PbsUnion. cbn zeta.
  destruct (negb _ || negb _) eqn:Ed; [by apply returns_ret|].
  apply orb_false_iff in Ed as [_ Ed%negb_false_iff%bool_decide_eq_true].
  destruct (join_cost set1 set2); [|by apply returns_ret]. destruct (join_cost (set1 ∪ set2) set3) as [c|]; [|by apply returns_ret].
  unfold Pchange. rewrite (SEdgeOf_ret e2 l2 set3 id2) by done. apply returns_ret. intros s [= <-]. split; [|done].
  split; cbn; [done|by eapply edge_at_range; [apply Hg|]|by exists id2|done| |done|].
  - destruct S2 as [A1 A2 A3 A4]. split; [set_solver|done|done|]. intros x [Hx|Hx]%elem_of_union; [by apply Hn|apply A4; set_solver].
  - exists l1, r1, id1. split; [done|]. by left.
Qed.

Lemma ThreeRightJoin_ret (set1 set2 set3 : gset N) e1 e2 l1 r1 id1 l2 r2 id2 :
  edge_at es e1 l1 r1 id1 -> edge_at es e2 l2 r2 id2 -> sides_in nn l1 r1 -> sides_in nn l2 r2 ->
  l1 = set1 -> r1 ⊆ set2 ∪ set3 -> l2 ∪ r2 ⊆ set2 ∪ set3 -> (forall x, x ∈ set2 ∪ set3 -> N.to_nat x < nn) ->
  ThreeRightJoin st set1 e1 set2 e2 set3 ⤳ (fun o => forall s, o = Some s ->
    step_ok nn n es s /\ m_before s = e2 /\ m_after s = e1).
Proof.
  intros H1 H2 S1 S2 -> Hr Hb Hn. unfold HyperSimplify.ThreeRightJoin, PbsUnion. cbn zeta.
  destruct (negb _ || negb _) eqn:Ed; [by apply returns_ret|].
  apply orb_false_iff in Ed as [_ Ed%negb_false_iff%bool_decide_eq_true].
  destruct (join_cost set2 set3); [|by apply returns_ret]. destruct (join_cost set1 (set2 ∪ set3)) as [c|]; [|by apply returns_ret].
  unfold Pchange. rewrite (SEdgeOf_ret e1 set1 r1 id1) by done. apply returns_ret. intros s [= <-]. split; [|done].
  split; cbn; [done|by eapply edge_at_range; [apply Hg|]|by exists id1|done| |done|].
  - destruct S1 as [A1 A2 A3 A4]. split; [done|set_solver|done|]. intros x [Hx|Hx]%elem_of_union; [apply A4; set_solver|by apply Hn].
  - exists l2, r2, id2. split; [done|]. by right.
Qed.

Lemma common_superset_some l r a b c : common_superset l r a b = Some c -> l ⊆ c /\ r ⊆ c /\ (c = l \/ c = r).
Proof.
  unfold common_superset, FTryGetSuperset, FSubset. repeat case_bool_decide; intros [= <-]; auto.
Qed.

(** A pair of steps for the two orders of two edges *)
Definition orders_ok (e1 e2 : nat) (x : option SSimplificationStep * option SSimplificationStep) : Prop :=
  forall s, x.1 = Some s \/ x.2 = Some s -> step_ok nn n es s /\ ordered_pair s e1 e2.

Lemma orders_pair (m1 m2 : outcome (option SSimplificationStep)) (b1 a1 b2 a2 e1 e2 : nat) :
  returns m1 (fun o => forall s, o = Some s -> step_ok nn n es s /\ m_before s = b1 /\ m_after s = a1) ->
  returns m2 (fun o => forall s, o = Some s -> step_ok nn n es s /\ m_before s = b2 /\ m_after s = a2) ->
  (b1 = e1 /\ a1 = e2 \/ b1 = e2 /\ a1 = e1) -> (b2 = e1 /\ a2 = e2 \/ b2 = e2 /\ a2 = e1) ->
  (first ← m1; second ← m2; mret (first, second)) ⤳ orders_ok e1 e2.
Proof.
  intros (o1 & -> & H1) (o2 & -> & H2) P1 P2. apply returns_ret. intros s [Hs|Hs]; cbn in Hs.
  - destruct (H1 s Hs) as (Hok & <- & <-). by split.
  - destruct (H2 s Hs) as (Hok & <- & <-). by split.
Qed.

Lemma both_orders_ret e1 e2 l1 r1 id1 l2 r2 id2 :
  edge_at es e1 l1 r1 id1 -> edge_at es e2 l2 r2 id2 -> sides_in nn l1 r1 -> sides_in nn l2 r2 ->
  both_orders join_cost st e1 e2 (mkSEdge l1 r1 id1) (mkSEdge l2 r2 id2) ⤳ orders_ok e1 e2.
Proof.
  intros H1 H2 S1 S2. unfold both_orders. cbn [m_left m_right].
  pose proof (si_nodes _ _ _ S1) as N1. pose proof (si_nodes _ _ _ S2) as N2.
  assert (forall c x, x ∈ c -> c ⊆ l1 ∪ r1 \/ c ⊆ l2 ∪ r2 -> N.to_nat x < nn) as Hc by set_solver.
  assert (forall x : N, x ∈ l1 \/ x ∈ r1 \/ x ∈ l2 \/ x ∈ r2 -> N.to_nat x < nn) as Hx by set_solver.
  destruct (common_superset l1 l2 r1 r2) as [c|] eqn:C1; [|destruct (common_superset l1 r2 l2 r1) as [c|] eqn:C2;
    [|destruct (common_superset r1 l2 l1 r2) as [c|] eqn:C3; [|destruct (common_superset r1 r2 l1 l2) as [c|] eqn:C4]]].
  all: try match goal with H : common_superset _ _ _ _ = Some _ |- _ => apply common_superset_some in H as (K1 & K2 & K3) end.
  - eapply orders_pair; [eapply ThreeLeftJoin_ret; try done; set_solver|eapply ThreeLeftJoin_ret; try done; set_solver|tauto|tauto].
  - eapply orders_pair; [eapply ThreeRightJoin_ret; try done; set_solver|eapply ThreeLeftJoin_ret; try done; set_solver|tauto|tauto].
  - eapply orders_pair; [eapply ThreeLeftJoin_ret; try done; set_solver|eapply ThreeRightJoin_ret; try done; set_solver|tauto|tauto].
  - eapply orders_pair; [eapply ThreeRightJoin_ret; try done; set_solver|eapply ThreeRightJoin_ret; try done; set_solver|tauto|tauto].
  - apply returns_ret. intros s [Hs|Hs]; done.
Qed.

(** A step is only made of two edges that the order does not relate. *)
Lemma step_excluded_ret e1 e2 l1 r1 id1 l2 r2 id2 :
  edge_at es e1 l1 r1 id1 -> edge_at es e2 l2 r2 id2 -> length (m_order st) = n ->
  step_excluded edge_filter st e1 e2 ⤳ (fun x => x = false -> cmp (m_order st) e1 e2 = false).
Proof.
  intros H1 H2 Ho. pose proof (edge_at_range n es _ _ _ _ (gh_length _ _ _ _ Hg) H1) as L1.
  pose proof (edge_at_range n es _ _ _ _ (gh_length _ _ _ _ Hg) H2) as L2.
  unfold step_excluded, PbsUsedNodes. rewrite (SEdgeOf_ret e1 l1 r1 id1), (SEdgeOf_ret e2 l2 r2 id2) by done.
  cbn [mbind outcome_bind mret outcome_ret]. destruct (_ || _); [by apply returns_ret|].
  destruct (lookup_lt_is_Some_2 (m_order st) e1) as [s1 E1]; [lia|]. destruct (lookup_lt_is_Some_2 (m_order st) e2) as [s2 E2]; [lia|].
  unfold WouldCreateCycle, cmp. rewrite !bind_assert by (apply andb_true_intro; split; apply Nat.ltb_lt; lia).
  rewrite (subscript_some _ _ _ E1), (subscript_some _ _ _ E2), E1, E2. cbn [mbind outcome_bind mret outcome_ret].
  case_bool_decide; [by apply returns_ret|]. case_bool_decide; [by apply returns_ret|].
  destruct (negb _); [by apply returns_ret|]. by apply returns_ret.
Qed.

Lemma MakeStep_ret e1 e2 :
  e1 < n -> e2 < n -> length (m_order st) = n ->
  MakeStep st e1 e2 ⤳ (fun o => forall s, o = Some s ->
    step_ok nn n es s /\ ordered_pair s e1 e2 /\ cmp (m_order st) e1 e2 = false).
Proof.
  intros L1 L2 Ho. destruct (edge_present nn n es _ Hg e1 L1) as (l1 & r1 & id1 & H1 & S1).
  destruct (edge_present nn n es _ Hg e2 L2) as (l2 & r2 & id2 & H2 & S2). unfold HyperSimplify.MakeStep.
  eapply returns_bind; [by eapply step_excluded_ret|]. intros [] Hx; [by apply returns_ret|].
  rewrite (SEdgeOf_ret e1 l1 r1 id1), (SEdgeOf_ret e2 l2 r2 id2) by done. cbn [mbind outcome_bind].
  eapply returns_bind; [by eapply both_orders_ret|]. intros [[s1|] [s2|]] Hs; apply returns_ret; try done.
  intros s [= <-]. destruct (Hs s1) as [A1 A2]; [by left|]. destruct (Hs s2) as [B1 B2]; [by right|].
  specialize (Hx eq_refl). unfold OrderJoin.
  destruct (SFltb (m_benefit s1) (m_benefit s2)); (split; [|done]); destruct A1, B1; split; done.
Qed.
End State.
End Steps.
End HyperStep.
