(* ===== verification/HyperQueue.v ===== *)
(** * The queue of the simplifier

    What the operations on the queue and [ProcessNeighbors] do to the entries of
    [m_best]. An entry that is in the queue afterwards is either one that was there
    before, or it holds a step made for the present edges and the present order. *)
From stdpp Require Import base numbers list gmap sets.
From Stdlib Require Import SpecFloat.
From S2P Require Import Prelude BitSet SetHash HyperGraph HyperEnum HyperPlan HyperOrder HyperSimplify HyperStep.

Module HyperQueue.
Import HyperGraph HyperEnum HyperPlan HyperOrder HyperSimplify HyperStep.
Open Scope nat_scope.
Open Scope outcome_scope.

Section Queue.
Context (nn n : nat).
Context `{PQ : PriorityQueue}.
Context (edge_filter : N -> bool) (join_cost : gset N -> gset N -> option DOUBLE).
Implicit Types (st : CDPHyperGraphSimplifier) (s : SSimplificationStep) (b : SBestSimplification)
  (bs : list SBestSimplification) (q : list nat) (es : list SEdge) (i : nat).

Record queue_ok bs q : Prop := {
  qo_length : length bs = n;
  qo_nodup : NoDup q;
  qo_flag : forall i b, bs !! i = Some b -> (m_in_queue b = true <-> i ∈ q);
  qo_range : forall i, i ∈ q -> i < n;
  qo_step : forall i b, bs !! i = Some b -> m_in_queue b = true -> exists s, m_step b = Some s;
}.

(** The queue and the entries change, the rest of the state does not. *)
Record becomes st bs st' : Prop := {
  be_graph : m_graph st' = m_graph st;
  be_order : m_order st' = m_order st;
  be_best : m_best st' = bs;
  be_queue : queue_ok bs (m_queue st');
  be_applied : m_applied st' = m_applied st;
  be_unapplied : m_unapplied st' = m_unapplied st;
}.

Lemma becomes_trans st bs st1 bs' st2 : becomes st bs st1 -> becomes st1 bs' st2 -> becomes st bs' st2.
Proof. intros [] []. split; congruence. Qed.

Lemma becomes_refl st : queue_ok (m_best st) (m_queue st) -> becomes st (m_best st) st.
Proof. by split. Qed.

Lemma queue_ok_perm bs q q' : q ≡ₚ q' -> queue_ok bs q -> queue_ok bs q'.
Proof. intros Hp [H1 H2 H3 H4 H5]. split; [done|by rewrite <- Hp| |setoid_rewrite <- Hp; done|done]. intros i b Hb. rewrite <- Hp. by apply H3. Qed.

Lemma benefits_ret st :
  (forall i, i ∈ m_queue st -> exists b s, m_best st !! i = Some b /\ m_step b = Some s) ->
  queue_benefits st ⤳ (fun l => length l = length (m_queue st)).
Proof.
  intros Hq. unfold queue_benefits. eapply returns_mono; [apply (for_each_rule (fun pre l => length l = length pre))|done]; [done|].
  intros pre i rest l Hl Hlen. destruct (Hq i) as (b & s & Hb & Hs); [rewrite Hl; set_solver|].
  rewrite (subscript_some _ _ _ Hb). cbn [mbind outcome_bind]. rewrite Hs. apply returns_ret. rewrite !length_app, Hlen. done.
Qed.

Lemma queue_pop_ret st :
  m_queue st <> [] -> (forall i, i ∈ m_queue st -> exists b s, m_best st !! i = Some b /\ m_step b = Some s) ->
  exists i q', queue_pop st = Ret (i, set_queue st q') /\ m_queue st ≡ₚ i :: q'.
Proof.
  intros Hne Hq. unfold queue_pop. destruct (benefits_ret st Hq) as (l & -> & Hl). cbn [mbind outcome_bind].
  assert (pq_top l < length (m_queue st)) as Hlt.
  { rewrite <- Hl. apply pq_top_lt. intros ->. cbn in Hl. by destruct (m_queue st). }
  destruct (lookup_lt_is_Some_2 _ _ Hlt) as [i Hi]. rewrite (subscript_some _ _ _ Hi).
  exists i, (delete (pq_top l) (m_queue st)). split; [done|]. by apply delete_Permutation.
Qed.

Lemma rebuild_queue_ret best : forall fuel st rebuilt,
  length (m_queue st) <= fuel -> (forall i, i ∈ m_queue st -> exists b s, m_best st !! i = Some b /\ m_step b = Some s) ->
  exists q', rebuild_queue fuel best st rebuilt = Ret (set_queue st [], q') /\
    q' ≡ₚ rebuilt ++ filter (fun i => i <> best) (m_queue st).
Proof.
  induction fuel as [|fuel IH]; intros st rebuilt Hf Hq; cbn [rebuild_queue]; destruct (m_queue st) as [|i0 q0] eqn:E.
  - exists rebuilt. split; [by destruct st; cbn in *; subst|]. by rewrite app_nil_r.
  - cbn in Hf. lia.
  - exists rebuilt. split; [by destruct st; cbn in *; subst|]. by rewrite app_nil_r.
  - destruct (queue_pop_ret st) as (i & q' & -> & Hp); [by rewrite E|by rewrite E|]. cbn [mbind outcome_bind].
    rewrite E in Hp. destruct (IH (set_queue st q') (if bool_decide (i = best) then rebuilt else rebuilt ++ [i])) as (q2 & -> & H2).
    + cbn. apply Permutation_length in Hp. cbn in Hp, Hf. lia.
    + cbn. intros j Hj. apply Hq. rewrite Hp. set_solver.
    + exists q2. split; [done|]. rewrite H2. cbn [m_queue set_queue]. rewrite Hp, filter_cons.
      case_bool_decide as Ei; [by rewrite decide_False by (by intros ?)|]. rewrite decide_True by done. by rewrite <- app_assoc.
Qed.

Definition has_neighbor b : bool := match m_best_neighbor b with Some _ => true | None => false end.

Lemma queue_insert bs q i b b' :
  queue_ok bs q -> bs !! i = Some b -> (m_in_queue b' = true -> exists s, m_step b' = Some s) ->
  forall q', NoDup q' -> (forall j, j ∈ q' <-> (j <> i /\ j ∈ q) \/ (j = i /\ m_in_queue b' = true)) ->
  queue_ok (<[i := b']> bs) q'.
Proof.
  intros [H1 H2 H3 H4 H5] Hb Hs q' Hn Hq. pose proof (lookup_lt_Some _ _ _ Hb) as Hlt. split.
  - by rewrite length_insert.
  - done.
  - intros j c Hj. rewrite Hq. destruct (decide (j = i)) as [->|Hne].
    + rewrite list_lookup_insert_eq in Hj by done. injection Hj as <-. tauto.
    + rewrite list_lookup_insert_ne in Hj by done. rewrite (H3 j c Hj). tauto.
  - intros j [[_ Hj]|[-> _]]%Hq; [by apply H4|lia].
  - intros j c Hj Hin. destruct (decide (j = i)) as [->|Hne].
    + rewrite list_lookup_insert_eq in Hj by done. injection Hj as <-. by apply Hs.
    + rewrite list_lookup_insert_ne in Hj by done. by eapply H5.
Qed.

Lemma queue_steps bs q i : queue_ok bs q -> i ∈ q -> exists b s, bs !! i = Some b /\ m_step b = Some s.
Proof.
  intros [H1 H2 H3 H4 H5] Hi. destruct (lookup_lt_is_Some_2 bs i) as [b Hb]; [rewrite H1; by apply H4|].
  destruct (H5 i b Hb) as [s Hs]; [by apply (H3 i b)|]. by exists b, s.
Qed.

(** After [UpdateQueue] an entry is in the queue exactly if it has a neighbor. *)
Lemma UpdateQueue_ret st i b :
  queue_ok (m_best st) (m_queue st) -> m_best st !! i = Some b -> (has_neighbor b = true -> exists s, m_step b = Some s) ->
  UpdateQueue i st ⤳ becomes st (<[i := with_in_queue (has_neighbor b) b]> (m_best st)).
Proof.
  intros HQ Hb Hs. pose proof HQ as [H1 H2 H3 H4 H5]. unfold UpdateQueue. rewrite (subscript_some _ _ _ Hb). cbn [mbind outcome_bind].
  unfold has_neighbor in *. destruct (m_in_queue b) eqn:Eq; cbn [negb].
  - destruct (rebuild_queue_ret i (length (m_queue st)) st []) as (q' & -> & Hq'); [done|by intros j; apply queue_steps|].
    cbn [mbind outcome_bind]. cbn in Hq'.
    assert (NoDup q') as Hn by (rewrite Hq'; by apply NoDup_filter).
    assert (forall j, j ∈ q' <-> j <> i /\ j ∈ m_queue st) as Hin by (intros j; rewrite Hq', list_elem_of_filter; done).
    destruct (m_best_neighbor b) as [y|] eqn:Ey.
    + apply returns_ret. split; try done; cbn.
      { assert (with_in_queue true b = b) as -> by (unfold with_in_queue; rewrite <- Eq; by destruct b). by rewrite list_insert_id. }
      eapply queue_insert; [exact HQ|exact Hb|by intros _; apply Hs| |].
      * apply NoDup_app. split; [done|]. split; [|apply NoDup_singleton]. intros j Hj ->%list_elem_of_singleton. set_solver.
      * intros j. rewrite elem_of_app, list_elem_of_singleton, Hin. cbn. naive_solver.
    + unfold update_best. cbn [set_queue m_best]. rewrite (subscript_some _ _ _ Hb). cbn [mbind outcome_bind].
      apply returns_ret. split; try done; cbn. eapply queue_insert; [exact HQ|exact Hb|done|done|]. intros j. rewrite Hin. cbn. naive_solver.
  - destruct (m_best_neighbor b) as [y|] eqn:Ey.
    + unfold update_best. cbn [set_queue m_best]. rewrite (subscript_some _ _ _ Hb). cbn [mbind outcome_bind].
      assert (i ∉ m_queue st) as Hni by (rewrite <- (H3 i b Hb); congruence).
      apply returns_ret. split; try done; cbn. eapply queue_insert; [exact HQ|exact Hb|by intros _; apply Hs| |].
      * apply NoDup_app. split; [done|]. split; [|apply NoDup_singleton]. intros j Hj ->%list_elem_of_singleton. done.
      * intros j. rewrite elem_of_app, list_elem_of_singleton. cbn. naive_solver.
    + apply returns_ret. assert (with_in_queue false b = b) as -> by (unfold with_in_queue; rewrite <- Eq; by destruct b).
      rewrite list_insert_id by done. by apply becomes_refl.
Qed.

(** An assignment to an entry that leaves its place in the queue *)
Lemma update_best_ret st i b (f : SBestSimplification -> SBestSimplification) :
  queue_ok (m_best st) (m_queue st) -> m_best st !! i = Some b ->
  m_in_queue (f b) = m_in_queue b -> (m_in_queue b = true -> exists s, m_step (f b) = Some s) ->
  update_best st i f ⤳ becomes st (<[i := f b]> (m_best st)).
Proof.
  intros HQ Hb Hf Hs. unfold update_best. rewrite (subscript_some _ _ _ Hb). apply returns_ret. split; try done; cbn.
  eapply queue_insert; [exact HQ|exact Hb|by rewrite Hf|apply HQ|]. intros j. rewrite Hf, (qo_flag _ _ HQ i b Hb).
  split; [|naive_solver]. intros Hj. destruct (decide (j = i)) as [->|]; naive_solver.
Qed.

Lemma lookup_insert_same bs i b b' : bs !! i = Some b -> <[i := b']> bs !! i = Some b'.
Proof. intros Hb. apply list_lookup_insert_eq. by eapply lookup_lt_Some. Qed.

Lemma TrySetStep_ret st step i y b :
  queue_ok (m_best st) (m_queue st) -> m_best st !! i = Some b ->
  TrySetStep step i y st ⤳ (fun x => (x.1 = false /\ x.2 = st) \/
    (x.1 = true /\ becomes st (<[i := mkBest (Some y) (Some step) true]> (m_best st)) x.2)).
Proof.
  intros HQ Hb. unfold TrySetStep. rewrite (subscript_some _ _ _ Hb). cbn [mbind outcome_bind].
  eapply returns_bind with (P := fun _ => True).
  { destruct (m_best_neighbor b); [|by apply returns_ret]. destruct (m_in_queue b) eqn:Eq; [|by apply returns_ret].
    destruct (qo_step _ _ HQ i b Hb Eq) as [s ->]. by apply returns_ret. }
  intros [] _; [|apply returns_ret; by left].
  eapply returns_bind; [apply (update_best_ret st i b (with_neighbor (Some y)) HQ Hb); [done|intros Eq; by apply (qo_step _ _ HQ i b Hb)]|].
  intros st1 B1.
  assert (m_best st1 !! i = Some (with_neighbor (Some y) b)) as Hb1 by (rewrite (be_best _ _ _ B1); by eapply lookup_insert_same).
  assert (queue_ok (m_best st1) (m_queue st1)) as HQ1 by (rewrite (be_best _ _ _ B1); apply B1).
  eapply returns_bind; [apply (update_best_ret st1 i _ (with_step (Some step)) HQ1 Hb1); [done|by intros _; exists step]|].
  intros st2 B2. assert (m_best st2 !! i = Some (mkBest (Some y) (Some step) (m_in_queue b))) as Hb2
    by (rewrite (be_best _ _ _ B2); by eapply lookup_insert_same).
  assert (queue_ok (m_best st2) (m_queue st2)) as HQ2 by (rewrite (be_best _ _ _ B2); apply B2).
  eapply returns_bind; [apply (UpdateQueue_ret st2 i _ HQ2 Hb2); by intros _; exists step|].
  intros st3 B3. apply returns_ret. right. split; [done|]. cbn.
  replace (<[i:=mkBest (Some y) (Some step) true]> (m_best st)) with
    (<[i:=with_in_queue true (mkBest (Some y) (Some step) (m_in_queue b))]> (m_best st2)).
  - by eapply becomes_trans; [exact B1|eapply becomes_trans; [exact B2|exact B3]].
  - rewrite (be_best _ _ _ B2), (be_best _ _ _ B1), !list_insert_insert_eq. done.
Qed.

(** ** Entries *)

(** An entry holds a step with a later edge, made for the edges [es]. *)
Definition entry es b i : Prop :=
  exists y s, m_best_neighbor b = Some y /\ m_step b = Some s /\ i < y < n /\ ordered_pair s i y /\ step_ok nn n es s.

(** The order does not relate the edges of the step. *)
Definition fresh (o : list (gset nat)) b : Prop :=
  forall s, m_step b = Some s -> cmp o (m_before s) (m_after s) = false.

Lemma cmp_comm o x y : cmp o x y = cmp o y x.
Proof. unfold cmp. destruct (o !! x), (o !! y); [apply orb_comm|done..]. Qed.

(** An entry that is in the queue is new. *)
Definition renewed es o i b : Prop := m_in_queue b = true -> entry es b i /\ fresh o b.

Section Process.
Context (es : list SEdge) (o : list (gset nat)) (Ho : length o = n).

(** The state while [ProcessNeighbors] runs *)
Record running st : Prop := {
  ru_graph : graph_has nn n es (m_graph st);
  ru_order : m_order st = o;
  ru_queue : queue_ok (m_best st) (m_queue st);
}.

Lemma running_becomes st bs st' : running st -> becomes st bs st' -> running st'.
Proof using. intros [R1 R2 R3] [B1 B2 B3 B4 _ _]. split; [by rewrite B1|congruence|by rewrite B3]. Qed.

Lemma made_step st e1 e2 :
  running st -> e1 < n -> e2 < n ->
  MakeStep edge_filter join_cost st e1 e2 ⤳ (fun x => forall s, x = Some s ->
    step_ok nn n es s /\ ordered_pair s e1 e2 /\ cmp o (m_before s) (m_after s) = false).
Proof using Ho.
  intros [R1 R2 R3] H1 H2. eapply returns_mono; [apply (MakeStep_ret nn n edge_filter join_cost es st R1 e1 e2 H1 H2); by rewrite R2|].
  intros x Hx s Hs. destruct (Hx s Hs) as (A & B & C). split; [done|]. split; [done|]. rewrite R2 in C.
  destruct B as [[-> ->]|[-> ->]]; [done|by rewrite cmp_comm].
Qed.

(** An entry on the way to be renewed *)
Definition filling i b : Prop :=
  (m_best_neighbor b = None /\ (m_in_queue b = true -> exists s, m_step b = Some s)) \/
  (m_in_queue b = true /\ entry es b i /\ fresh o b).

Lemma fill_best_ret i l st b :
  running st -> m_best st !! i = Some b -> filling i b -> (forall y, y ∈ l -> i < y < n) ->
  fill_best edge_filter join_cost i l st ⤳ (fun st' => exists b', becomes st (<[i := b']> (m_best st)) st' /\ filling i b').
Proof using Ho.
  intros R Hb Hf Hl. pose proof (lookup_lt_Some _ _ _ Hb) as Hlt. rewrite (qo_length _ _ (ru_queue _ R)) in Hlt.
  apply (for_each_rule (fun _ st' => exists b', becomes st (<[i := b']> (m_best st)) st' /\ filling i b')).
  - exists b. split; [|done]. rewrite list_insert_id by done. apply becomes_refl, R.
  - intros pre y rest st1 El (b1 & B1 & F1). pose proof (running_becomes _ _ _ R B1) as R1.
    assert (i < y < n) as Hy by (apply Hl; rewrite El; set_solver).
    assert (m_best st1 !! i = Some b1) as Hb1 by (rewrite (be_best _ _ _ B1); by eapply lookup_insert_same).
    eapply returns_bind; [apply made_step; [exact R1|lia|lia]|]. intros [s|] Hs; [|apply returns_ret; by exists b1].
    destruct (Hs s eq_refl) as (S1 & S2 & S3).
    eapply returns_bind; [apply (TrySetStep_ret st1 s i y b1 (ru_queue _ R1) Hb1)|].
    intros [? st2] [[_ E2]|[_ B2]]; cbn in *; apply returns_ret; [subst st2; by exists b1|].
    exists (mkBest (Some y) (Some s) true). split.
    + rewrite (be_best _ _ _ B1), list_insert_insert_eq in B2. by eapply becomes_trans.
    + right. split; [done|]. split; [exists y, s; done|]. by intros s' [= <-].
Qed.

(** The end of [ProcessNeighbors] renews the entry of the edge. *)
Lemma refill_ret i l st b :
  running st -> m_best st !! i = Some b -> (forall y, y ∈ l -> i < y < n) ->
  (st ← update_best st i (with_neighbor None); st ← fill_best edge_filter join_cost i l st; UpdateQueue i st) ⤳
  (fun st' => exists b', becomes st (<[i := b']> (m_best st)) st' /\ renewed es o i b').
Proof using Ho.
  intros R Hb Hl. pose proof (ru_queue _ R) as HQ.
  eapply returns_bind; [apply (update_best_ret st i b (with_neighbor None) HQ Hb); [done|intros Eq; by apply (qo_step _ _ HQ i b Hb)]|].
  intros st1 B1.
  pose proof (running_becomes _ _ _ R B1) as R1.
  assert (m_best st1 !! i = Some (with_neighbor None b)) as Hb1 by (rewrite (be_best _ _ _ B1); by eapply lookup_insert_same).
  eapply returns_bind; [apply (fill_best_ret i l st1 _ R1 Hb1); [left; split; [done|]; intros Eq; by apply (qo_step _ _ HQ i b Hb)|done]|].
  intros st2 (b2 & B2 & F2). pose proof (running_becomes _ _ _ R1 B2) as R2.
  assert (m_best st2 !! i = Some b2) as Hb2 by (rewrite (be_best _ _ _ B2); by eapply lookup_insert_same).
  eapply returns_mono; [apply (UpdateQueue_ret st2 i b2 (ru_queue _ R2) Hb2)|].
  - unfold has_neighbor. destruct F2 as [[-> _]|(_ & (y & s & _ & Hs & _) & _)]; [done|]. by intros _; exists s.
  - intros st3 B3. exists (with_in_queue (has_neighbor b2) b2). split.
    + rewrite (be_best _ _ _ B2), (be_best _ _ _ B1), !list_insert_insert_eq in B3.
      by eapply becomes_trans; [exact B1|eapply becomes_trans; [exact B2|exact B3]].
    + intros Hin. cbn in Hin. unfold has_neighbor in Hin. destruct F2 as [[E _]|(_ & He & Hf)]; [by rewrite E in Hin|].
      split; [|done]. destruct He as (y & s & He). by exists y, s.
Qed.

Lemma seq_range a k y : y ∈ seq a (k - a) -> a <= y < k.
Proof. rewrite elem_of_seq. lia. Qed.

(** A call whose first loop is empty *)
Lemma Process_own fuel i st b :
  running st -> m_best st !! i = Some b ->
  ProcessNeighbors edge_filter join_cost (S fuel) i (i + 1) n st ⤳
  (fun st' => exists b', becomes st (<[i := b']> (m_best st)) st' /\ renewed es o i b').
Proof using Ho.
  intros R Hb. cbn [ProcessNeighbors]. replace (min n i - (i + 1)) with 0 by lia. cbn [seq for_each mbind outcome_bind mret outcome_ret].
  eapply refill_ret; [done|done|]. intros y Hy%seq_range. lia.
Qed.

(** An entry is as before and no step with edge [e], or new. *)
Definition settled bs e i b : Prop :=
  m_in_queue b = true -> (bs !! i = Some b /\ i <> e /\ (i < e -> m_best_neighbor b <> Some e)) \/ (entry es b i /\ fresh o b).

(** One iteration of the first loop, for an edge [k] before [e] *)
Lemma Process_step e k st b :
  running st -> k < e < n -> m_best st !! k = Some b ->
  (step ← MakeStep edge_filter join_cost st e k;
   '(set, st) ← match step with
                | Some s => TrySetStep s k e st
                | None => mret (false, st)
                end;
   if (set : bool) then mret st else
   best ← subscript (m_best st) k;
   if bool_decide (m_best_neighbor best = Some e) then
     (n ← edge_count st; ProcessNeighbors edge_filter join_cost 1 k (k + 1) n st)
   else mret st) ⤳
  (fun st' => exists b', becomes st (<[k := b']> (m_best st)) st' /\
     (m_in_queue b' = true -> (b' = b /\ m_best_neighbor b <> Some e) \/ (entry es b' k /\ fresh o b'))).
Proof using Ho.
  intros R Hk Hb.
  eapply returns_bind; [apply made_step; [exact R|lia|lia]|]. intros step Hstep.
  eapply returns_bind with (P := fun x => (x.1 = false /\ x.2 = st) \/ (x.1 = true /\ exists s, step = Some s /\
    becomes st (<[k := mkBest (Some e) (Some s) true]> (m_best st)) x.2)).
  { destruct step as [s|]; [|apply returns_ret; by left].
    eapply returns_mono; [apply (TrySetStep_ret st s k e b (ru_queue _ R) Hb)|].
    intros x [Hx|[Hx HB]]; [by left|right]. split; [done|]. by exists s. }
  intros [set st1] [[E1 E2]|(E1 & s & Es & HB)]; cbn in E1; subst set.
  - cbn in E2. subst st1. rewrite (subscript_some _ _ _ Hb). cbn [mbind outcome_bind]. case_bool_decide as En.
    + unfold edge_count. rewrite (count_ret nn n es _ (ru_graph _ R)). cbn [mbind outcome_bind].
      eapply returns_mono; [apply (Process_own 0 k st b R Hb)|]. intros st2 (b' & B2 & Hr). exists b'. split; [done|]. intros Hin. right. by apply Hr.
    + apply returns_ret. exists b. split; [rewrite list_insert_id by done; apply becomes_refl, R|]. intros _. by left.
  - apply returns_ret. exists (mkBest (Some e) (Some s) true). split; [exact HB|]. intros _. right.
    destruct (Hstep s Es) as (S1 & S2 & S3). split; [|by intros s' [= <-]].
    exists e, s. split_and!; [done|done|lia|lia| |done]. destruct S2 as [[? ?]|[? ?]]; [by right|by left].
Qed.

(** [ProcessNeighbors] of an edge with all others *)
Lemma Process_all e st :
  running st -> e < n ->
  ProcessNeighbors edge_filter join_cost 2 e 0 n st ⤳ (fun st' => exists bs, becomes st bs st' /\
    forall i b, bs !! i = Some b -> settled (m_best st) e i b).
Proof using Ho.
  intros R He. cbn [ProcessNeighbors]. replace (min n e - 0) with e by lia.
  eapply returns_bind; [apply (for_each_rule (fun pre st' => exists bs, becomes st bs st' /\ forall i b, bs !! i = Some b ->
    m_in_queue b = true -> (i ∈ pre -> settled (m_best st) e i b) /\ (i ∉ pre -> m_best st !! i = Some b)))|].
  - exists (m_best st). split; [apply becomes_refl, R|]. intros i b Hb _. split; [set_solver|done].
  - intros pre k rest st1 Hl (bs1 & B1 & H1). pose proof (running_becomes _ _ _ R B1) as R1.
    assert (k < e) as Hk by (assert (k ∈ seq 0 e) as Hin by (rewrite Hl; set_solver); apply elem_of_seq in Hin; lia).
    assert (k ∉ pre) as Hkp.
    { pose proof (NoDup_seq 0 e) as Hnd. rewrite Hl in Hnd. apply NoDup_app in Hnd as (_ & Hnd & _). intros Hin. apply (Hnd k Hin). set_solver. }
    destruct (lookup_lt_is_Some_2 (m_best st1) k) as [b Hb]; [rewrite (qo_length _ _ (ru_queue _ R1)); lia|].
    eapply returns_mono; [apply (Process_step e k st1 b R1); [lia|done]|]. intros st2 (b' & B2 & Hb').
    exists (<[k := b']> bs1). rewrite (be_best _ _ _ B1) in B2, Hb. split; [by eapply becomes_trans|].
    intros i c Hc Hin. rewrite elem_of_app, list_elem_of_singleton. destruct (decide (i = k)) as [->|Hne].
    + rewrite (lookup_insert_same _ _ _ _ Hb) in Hc. injection Hc as <-. split; [|tauto]. intros _ _.
      destruct (Hb' Hin) as [[-> Hn]|Hnew]; [left|by right]. split; [by apply (H1 k b Hb Hin)|]. split; [lia|done].
    + rewrite list_lookup_insert_ne in Hc by done. destruct (H1 i c Hc Hin) as [A1 A2]. tauto.
  - intros st1 (bs1 & B1 & H1). pose proof (running_becomes _ _ _ R B1) as R1.
    destruct (lookup_lt_is_Some_2 (m_best st1) e) as [b Hb]; [rewrite (qo_length _ _ (ru_queue _ R1)); lia|].
    eapply returns_mono; [apply (refill_ret e _ st1 b R1 Hb); intros y Hy%seq_range; lia|]. intros st2 (b' & B2 & Hr).
    exists (<[e := b']> bs1). rewrite (be_best _ _ _ B1) in B2, Hb. split; [by eapply becomes_trans|]. intros i c Hc Hin.
    destruct (decide (i = e)) as [->|Hne].
    + rewrite (lookup_insert_same _ _ _ _ Hb) in Hc. injection Hc as <-. right. by apply Hr.
    + rewrite list_lookup_insert_ne in Hc by done. destruct (H1 i c Hc Hin) as [A1 A2].
      destruct (decide (i < e)) as [Hi|Hi]; [apply A1; [apply elem_of_seq; lia|done]|]. left.
      split; [|by split]. apply A2. rewrite elem_of_seq. lia.
Qed.
End Process.
End Queue.
End HyperQueue.
