(* ===== verification/HyperApply.v ===== *)
(** * Applying and undoing simplification steps

    [history es0 A es] says that the steps [A], the latest first, lead from the
    edges [es0] to [es]. The invariant [sim_inv] of the simplifier relates the
    graph, the two stacks of steps, the order and the queue; [measure] bounds the
    steps that can still be made. *)
From stdpp Require Import base numbers list gmap sets.
From Stdlib Require Import SpecFloat.
From S2P Require Import Prelude BitSet SetHash HyperGraph HyperEnum HyperPlan HyperOrder HyperSimplify HyperStep HyperQueue.

Module HyperApply.
Import HyperGraph HyperEnum HyperPlan HyperOrder HyperSimplify HyperStep HyperQueue.
Open Scope nat_scope.
Open Scope outcome_scope.

(** ** Changes of the edges *)

Definition put_edge (es : list SEdge) (k : nat) (l r : gset N) (id : N) : list SEdge :=
  <[k * 2 + 1 := mkSEdge r l id]> (<[k * 2 := mkSEdge l r id]> es).

Lemma put_edge_length es k l r id : length (put_edge es k l r id) = length es.
Proof. unfold put_edge. by rewrite !length_insert. Qed.

Lemma put_edge_same es k l r id l' r' id' : edge_at es k l' r' id' -> edge_at (put_edge es k l r id) k l r id.
Proof.
  intros [H1 H2]. apply lookup_lt_Some in H1, H2. unfold edge_at, put_edge. split.
  - rewrite list_lookup_insert_ne by lia. by rewrite list_lookup_insert_eq.
  - rewrite list_lookup_insert_eq; [done|]. by rewrite length_insert.
Qed.

Lemma put_edge_other es k l r id j l' r' id' : j <> k -> edge_at es j l' r' id' -> edge_at (put_edge es k l r id) j l' r' id'.
Proof. intros Hj [H1 H2]. unfold edge_at, put_edge. rewrite !list_lookup_insert_ne by lia. done. Qed.

Lemma put_edge_undo es k l r l' r' id : edge_at es k l r id -> put_edge (put_edge es k l' r' id) k l r id = es.
Proof.
  intros [H1 H2]. unfold put_edge. rewrite (list_insert_insert_ne (<[k * 2:=mkSEdge l' r' id]> es)) by lia.
  rewrite list_insert_insert_eq, list_insert_insert_eq. rewrite (list_insert_id es (k * 2)) by done.
  by rewrite list_insert_id.
Qed.

Section Apply.
Context (nn n : nat) (es0 : list SEdge).
Implicit Types (st : CDPHyperGraphSimplifier) (s : SSimplificationStep) (A : list SSimplificationStep) (es : list SEdge).

(** The steps [A], the latest first, lead from [es0] to [es]. *)
Inductive history : list SSimplificationStep -> list SEdge -> Prop :=
  | history_nil : history [] es0
  | history_step A es s id :
      history A es -> step_ok nn n es s ->
      edge_at es (m_after s) (c_old_left (m_change s)) (c_old_right (m_change s)) id ->
      history (s :: A) (put_edge es (m_after s) (c_new_left (m_change s)) (c_new_right (m_change s)) id).

Lemma history_det A es es' : history A es -> history A es' -> es' = es.
Proof.
  intros H. revert es'. induction H as [|A es s id H IH Hok He]; intros es' H'; inversion H'; subst; [done|].
  match goal with H : history A ?x |- _ => pose proof (IH _ H) as -> end.
  by match goal with H : edge_at es _ _ _ ?x |- _ => destruct (edge_at_unique _ _ _ _ _ _ _ _ He H) as (_ & _ & ->) end.
Qed.

Lemma history_app A B es : history (A ++ B) es -> exists es', history B es'.
Proof.
  revert es. induction A as [|s A IH]; intros es H; [by exists es|]. inversion H; subst. by eapply IH.
Qed.

Lemma history_length A es : length es0 = n * 2 -> history A es -> length es = n * 2.
Proof. intros Hl. induction 1; [done|]. by rewrite put_edge_length. Qed.

(** The edges only become wider. *)
Lemma history_wider A es k l r id :
  history A es -> es !! k = Some (mkSEdge l r id) ->
  exists l0 r0, es0 !! k = Some (mkSEdge l0 r0 id) /\ l0 ⊆ l /\ r0 ⊆ r.
Proof.
  intros H. revert k l r id. induction H as [|A es s id' H IH Hok He]; intros k l r id Hk; [by exists l, r|].
  pose proof (so_wider _ _ _ _ Hok) as [W1 W2]. destruct He as [E1 E2]. unfold put_edge in Hk.
  destruct (decide (k = m_after s * 2 + 1)) as [->|N1].
  { rewrite list_lookup_insert_eq in Hk by (rewrite length_insert; by eapply lookup_lt_Some). injection Hk as <- <- <-.
    destruct (IH _ _ _ _ E2) as (l0 & r0 & H0 & H1 & H2). exists l0, r0. split; [done|]. set_solver. }
  rewrite list_lookup_insert_ne in Hk by done. destruct (decide (k = m_after s * 2)) as [->|N2].
  { rewrite list_lookup_insert_eq in Hk by (by eapply lookup_lt_Some). injection Hk as <- <- <-.
    destruct (IH _ _ _ _ E1) as (l0 & r0 & H0 & H1 & H2). exists l0, r0. split; [done|]. set_solver. }
  rewrite list_lookup_insert_ne in Hk by done. by apply (IH k).
Qed.

(** ** The graph *)

Lemma ReplaceEdge_has es g k l r l' r' id :
  graph_has nn n es g -> edge_at es k l r id -> sides_in nn l' r' ->
  ReplaceEdge g k l' r' ⤳ graph_has nn n (put_edge es k l' r' id).
Proof.
  intros [W1 W2 W3 W4] [He _] Hs. eapply returns_mono; [apply (ReplaceEdge_spec g k (mkSEdge l r id)); [done|by eapply sides_in_graph|by rewrite W3]|].
  intros g' (H1 & H2 & H3). split; [done|congruence|by rewrite H3, W3|by rewrite put_edge_length].
Qed.

(** A step that fits other edges fits after a change of an edge it does not use. *)
Lemma step_ok_put es k l r id s l0 r0 id0 :
  edge_at es k l0 r0 id0 -> m_before s <> k -> m_after s <> k -> step_ok nn n es s -> step_ok nn n (put_edge es k l r id) s.
Proof.
  intros _ Hb Ha [S1 S2 [id1 S3] S4 S5 S6 (l1 & r1 & id2 & S7 & S8)]. split; [done|done| |done|done|done|].
  - exists id1. by apply put_edge_other.
  - exists l1, r1, id2. split; [by apply put_edge_other|done].
Qed.

Lemma entry_put es k l r id b i l0 r0 id0 :
  edge_at es k l0 r0 id0 -> i <> k -> m_best_neighbor b <> Some k -> entry nn n es b i -> entry nn n (put_edge es k l r id) b i.
Proof.
  intros He Hi Hb (y & s & E1 & E2 & E3 & E4 & E5). exists y, s. split; [done|]. split; [done|]. split; [done|]. split; [done|].
  assert (y <> k) by congruence. eapply step_ok_put; [done|..|done]; destruct E4 as [[Eb Ea]|[Eb Ea]]; congruence.
Qed.

(** ** The measure *)

Definition pairs : list (nat * nat) := list_prod (seq 0 n) (seq 0 n).

(** The pairs of edges the order does not relate *)
Definition unrelated (o : list (gset nat)) : list (nat * nat) := filter (fun p => cmp o p.1 p.2 = false) pairs.

(** An entry in the queue whose edges the order relates *)
Definition stale (o : list (gset nat)) (bs : list SBestSimplification) (i : nat) : bool :=
  match bs !! i with
  | Some b => m_in_queue b && match m_step b with Some s => cmp o (m_before s) (m_after s) | None => false end
  | None => false
  end.

Definition stales (o : list (gset nat)) (bs : list SBestSimplification) : list nat :=
  filter (fun i => stale o bs i = true) (seq 0 n).

Definition measure st : nat := length (unrelated (m_order st)) * (n + 1) + length (stales (m_order st) (m_best st)).

Lemma filter_length_le {X} (P Q : X -> Prop) `{!forall x, Decision (P x)} `{!forall x, Decision (Q x)} (l : list X) :
  (forall x, x ∈ l -> P x -> Q x) -> length (filter P l) <= length (filter Q l).
Proof.
  induction l as [|a l IH]; intros Hpq; [done|]. rewrite !filter_cons.
  assert (length (filter P l) <= length (filter Q l)) as Hl by (apply IH; intros x Hx; apply Hpq; set_solver).
  destruct (decide (P a)) as [Ha|Ha]; [rewrite decide_True by (apply Hpq; [set_solver|done]); cbn; lia|].
  destruct (decide (Q a)); cbn; lia.
Qed.

Lemma filter_length_lt {X} (P Q : X -> Prop) `{!forall x, Decision (P x)} `{!forall x, Decision (Q x)} (l : list X) (a : X) :
  (forall x, x ∈ l -> P x -> Q x) -> a ∈ l -> ~ P a -> Q a -> length (filter P l) < length (filter Q l).
Proof.
  induction l as [|c l IH]; intros Hpq Ha HP HQ; [set_solver|]. rewrite !filter_cons.
  assert (forall x, x ∈ l -> P x -> Q x) as Hl by (intros x Hx; apply Hpq; set_solver).
  pose proof (filter_length_le P Q l Hl) as Hle. apply elem_of_cons in Ha as [<-|Ha].
  - rewrite decide_False by done. rewrite decide_True by done. cbn. lia.
  - specialize (IH Hl Ha HP HQ). destruct (decide (P c)) as [Hc|Hc]; [rewrite decide_True by (apply Hpq; [set_solver|done]); cbn; lia|].
    destruct (decide (Q c)); cbn; lia.
Qed.

Lemma stales_le o bs : length (stales o bs) <= n.
Proof. unfold stales. etransitivity; [apply length_filter|]. by rewrite length_seq. Qed.

Lemma unrelated_le o : length (unrelated o) <= n * n.
Proof. unfold unrelated. etransitivity; [apply length_filter|]. unfold pairs. by rewrite length_prod, length_seq. Qed.

Lemma measure_bound st : measure st <= step_bound n.
Proof. unfold measure, step_bound. pose proof (stales_le (m_order st) (m_best st)). pose proof (unrelated_le (m_order st)). nia. Qed.

(** ** The invariant *)

(** The graph has the edges [es], and with all steps applied it has [top]. *)
Record sim_at (es top : list SEdge) (L : list (nat * nat)) st : Prop := {
  sa_graph : graph_has nn n es (m_graph st);
  sa_applied : history (m_applied st) es;
  sa_top : history (reverse (m_unapplied st) ++ m_applied st) top;
  sa_order : order_shows n L (m_order st);
  sa_queue : queue_ok n (m_best st) (m_queue st);
  sa_entry : forall i b, m_best st !! i = Some b -> m_in_queue b = true -> entry nn n top b i;
}.

(** The graph and the stacks stay. *)
Record same_steps st st' : Prop := {
  ss_graph : m_graph st' = m_graph st;
  ss_applied : m_applied st' = m_applied st;
  ss_unapplied : m_unapplied st' = m_unapplied st;
}.

#[export] Instance same_steps_preorder : PreOrder same_steps.
Proof. split; [by split|]. intros x y z [] []. split; congruence. Qed.

Lemma cmp_reach L o x y :
  order_shows n L o -> x < n -> y < n -> cmp o x y = true <-> reach L x y \/ reach L y x.
Proof.
  intros Ho Hx Hy. destruct (shows_lookup n L o Ho x Hx) as (sx & Ex & Rx). destruct (shows_lookup n L o Ho y Hy) as (sy & Ey & Ry).
  unfold cmp. rewrite Ex, Ey, orb_true_iff, !bool_decide_eq_true, Rx, Ry. done.
Qed.

Lemma cmp_mono L b a o o' x y :
  order_shows n L o -> order_shows n (L ++ [(b, a)]) o' -> x < n -> y < n -> cmp o x y = true -> cmp o' x y = true.
Proof. intros H1 H2 Hx Hy. rewrite (cmp_reach L o), (cmp_reach _ o') by done. rewrite !reach_snoc. tauto. Qed.

Lemma elem_of_pairs x y : (x, y) ∈ pairs <-> x < n /\ y < n.
Proof. unfold pairs. rewrite list_elem_of_In, in_prod_iff, <- !list_elem_of_In, !elem_of_seq. lia. Qed.

Lemma unrelated_mono L b a o o' :
  order_shows n L o -> order_shows n (L ++ [(b, a)]) o' -> length (unrelated o') <= length (unrelated o).
Proof.
  intros H1 H2. apply filter_length_le. intros [x y] [Hx Hy]%elem_of_pairs Hc. cbn in *.
  destruct (cmp o x y) eqn:E; [|done]. by rewrite (cmp_mono L b a o o' x y) in Hc.
Qed.

Lemma unrelated_lt L b a o o' :
  order_shows n L o -> order_shows n (L ++ [(b, a)]) o' -> b < n -> a < n -> cmp o b a = false ->
  length (unrelated o') < length (unrelated o).
Proof.
  intros H1 H2 Hb Ha Hc. apply (filter_length_lt _ _ _ (b, a)).
  - intros [x y] [Hx Hy]%elem_of_pairs E. cbn in *. destruct (cmp o x y) eqn:E'; [|done]. by rewrite (cmp_mono L b a o o' x y) in E.
  - by apply elem_of_pairs.
  - cbn. assert (cmp o' b a = true) as ->; [|done]. apply (cmp_reach (L ++ [(b, a)])); [done..|]. left. apply reach_snoc. right. split; reflexivity.
  - done.
Qed.

Lemma entry_pair es b i s : entry nn n es b i -> m_step b = Some s -> m_before s < n /\ m_after s < n /\ step_ok nn n es s.
Proof. intros (y & s' & _ & -> & Hy & Hp & Hok) [= ->]. split_and!; [| |done]; destruct Hp as [[Eb Ea]|[Eb Ea]]; lia. Qed.

Section Ops.
Context `{PQ : PriorityQueue}.
Context (edge_filter : N -> bool) (join_cost : gset N -> gset N -> option DOUBLE).

Abbreviation ProcessNeighbors := (ProcessNeighbors edge_filter join_cost).

(** [ProcessNeighbors] of edge [e] settles the entries that use it. *)
Lemma process_inv es L st e :
  graph_has nn n es (m_graph st) -> history (m_applied st) es -> m_unapplied st = [] -> order_shows n L (m_order st) ->
  queue_ok n (m_best st) (m_queue st) -> e < n ->
  (forall i b, m_best st !! i = Some b -> m_in_queue b = true -> i <> e -> (i < e -> m_best_neighbor b <> Some e) -> entry nn n es b i) ->
  ProcessNeighbors 2 e 0 n st ⤳ (fun st' => sim_at es es L st' /\ same_steps st st' /\ m_order st' = m_order st /\
    length (stales (m_order st') (m_best st')) <= length (stales (m_order st) (m_best st))).
Proof.
  intros Hg Hh Hu Ho HQ He Hent. eapply returns_mono; [apply (Process_all nn n edge_filter join_cost es (m_order st)); [apply Ho|by split|done]|].
  intros st' (bs & HB & Hset). pose proof HB as [B1 B2 B3 B4 B5 B6]. split; [|split; [by split|split; [done|]]].
  - split; [by rewrite B1|by rewrite B5|by rewrite B5, B6, Hu|by rewrite B2|by rewrite B3|].
    rewrite B3. intros i b Hb Hin. destruct (Hset i b Hb Hin) as [(H1 & H2 & H3)|[H1 _]]; [by apply Hent|done].
  - rewrite B2, B3. apply filter_length_le. intros i _. unfold stale. destruct (bs !! i) as [b|] eqn:Eb; [|done].
    intros [Hin Hc]%andb_prop. destruct (m_step b) as [s|] eqn:Es; [|done].
    destruct (Hset i b Eb Hin) as [(-> & _)|[_ Hf]]; [by rewrite Hin, Es|]. by rewrite (Hf s Es) in Hc.
Qed.

(** Taking the top of the queue *)
Lemma pop_inv es L st :
  sim_at es es L st -> m_queue st <> [] ->
  exists i q' b s, queue_pop st = Ret (i, set_queue st q') /\ m_best st !! i = Some b /\ m_in_queue b = true /\
    has_neighbor b = true /\ m_step b = Some s /\ entry nn n es b i /\
    let st1 := set_best (set_queue st q') (<[i := with_in_queue false b]> (m_best st)) in
    sim_at es es L st1 /\ length (stales (m_order st) (m_best st1)) <= length (stales (m_order st) (m_best st)) /\
    (stale (m_order st) (m_best st) i = true ->
       length (stales (m_order st) (m_best st1)) < length (stales (m_order st) (m_best st))).
Proof.
  intros [S1 S2 S3 S4 S5 S6] Hne. destruct (queue_pop_ret st Hne) as (i & q' & Hpop & Hp); [intros j Hj; by eapply queue_steps|].
  assert (i ∈ m_queue st) as Hi by (rewrite Hp; set_solver). destruct (queue_steps n _ _ i S5 Hi) as (b & s & Hb & Hs).
  assert (m_in_queue b = true) as Hin by (by apply (qo_flag _ _ _ S5 i b)).
  assert (NoDup (i :: q')) as Hnd by (rewrite <- Hp; apply S5). apply NoDup_cons in Hnd as [Hni Hnd].
  pose proof (S6 i b Hb Hin) as He. exists i, q', b, s. split; [done|]. split; [done|]. split; [done|].
  split; [unfold has_neighbor; by destruct He as (y & ? & -> & _)|]. split; [done|]. split; [done|]. cbn zeta.
  pose proof (lookup_lt_Some _ _ _ Hb) as Hlt.
  assert (forall j, stale (m_order st) (<[i := with_in_queue false b]> (m_best st)) j = true -> j <> i /\ stale (m_order st) (m_best st) j = true) as Hst.
  { intros j. unfold stale. destruct (decide (j = i)) as [->|Hj]; [by rewrite list_lookup_insert_eq|].
    rewrite list_lookup_insert_ne by done. done. }
  split; [split; cbn; try done|split].
  - eapply queue_insert; [exact S5|exact Hb|done|done|]. intros j. rewrite Hp. cbn. set_solver.
  - intros j c Hc Hq. destruct (decide (j = i)) as [->|Hj].
    + rewrite list_lookup_insert_eq in Hc by done. injection Hc as <-. done.
    + rewrite list_lookup_insert_ne in Hc by done. by apply S6.
  - apply filter_length_le. cbn. intros j _. apply Hst.
  - intros Hsi. apply (filter_length_lt _ _ _ i); cbn.
    + intros j _. apply Hst.
    + apply elem_of_seq. rewrite (qo_length _ _ _ S5) in Hlt. lia.
    + intros [Hx _]%Hst. done.
    + done.
Qed.

(** What [FetchStep] gives when there is no undone step *)
Definition fetched es st (x : option SSimplificationStep * CDPHyperGraphSimplifier) : Prop :=
  exists L, sim_at es es L x.2 /\ same_steps st x.2 /\
  match x.1 with
  | None => measure x.2 <= measure st
  | Some s => step_ok nn n es s /\ measure x.2 < measure st
  end.

(** The step at the top of the queue was accepted. *)
Lemma accept_inv es L st s o' :
  sim_at es es L st -> order_shows n (L ++ [(m_before s, m_after s)]) o' -> sim_at es es (L ++ [(m_before s, m_after s)]) (set_order st o').
Proof. by intros [S1 S2 S3 S4 S5 S6] Ho. Qed.

Lemma fetch_loop_ret es : forall fuel L st,
  sim_at es es L st -> m_unapplied st = [] -> length (stales (m_order st) (m_best st)) < fuel ->
  fetch_loop edge_filter join_cost fuel st ⤳ fetched es st.
Proof.
  induction fuel as [|fuel IH]; intros L st HS Hu Hf; [lia|]. cbn [fetch_loop].
  destruct (m_queue st) as [|i0 q0] eqn:Eq; [apply returns_ret; exists L; split; [done|]; split; [reflexivity|cbn; lia]|].
  destruct (pop_inv es L st HS) as (i & q' & b & s & Hpop & Hb & Hin & Hnb & Hs & He & HS1 & Hle & Hlt); [by rewrite Eq|].
  cbn zeta in HS1, Hle, Hlt. rewrite Hpop. cbn [mbind outcome_bind]. unfold update_best. cbn [m_best set_queue].
  rewrite (subscript_some _ _ _ Hb). cbn [mbind outcome_bind mret outcome_ret]. cbn [m_best set_best].
  rewrite (subscript_some (<[i := with_in_queue false b]> (m_best st)) i (with_in_queue false b))
    by (apply list_lookup_insert_eq; by eapply lookup_lt_Some). cbn [mbind outcome_bind].
  set (st1 := set_best (set_queue st q') (<[i := with_in_queue false b]> (m_best st))) in *.
  unfold has_neighbor in Hnb. cbn [m_best_neighbor m_step with_in_queue]. rewrite Hs.
  destruct (m_best_neighbor b) as [y|]; [|done]. clear Hnb.
  destruct (entry_pair es b i s He Hs) as (Hbn & Han & Hok). pose proof (sa_order _ _ _ _ HS) as Ho.
  destruct (TryAdd_ret n L (m_order st) Ho (m_before s) (m_after s) Hbn Han) as ([added o'] & HT & H1 & H2 & H3). cbn in H1, H2, H3.
  change (m_order st1) with (m_order st). rewrite HT. cbn [mbind outcome_bind]. destruct added.
  - apply returns_ret. specialize (H3 eq_refl). exists (L ++ [(m_before s, m_after s)]). split; [by apply accept_inv|].
    split; [by split|]. cbn [fst snd]. split; [done|]. unfold measure. change (m_best (set_order st1 o')) with (m_best st1).
    change (m_order (set_order st1 o')) with o'. pose proof (stales_le o' (m_best st1)).
    destruct (cmp (m_order st) (m_before s) (m_after s)) eqn:Ec.
    + assert (~ reach L (m_after s) (m_before s)) as Hn by (intros Hr; by apply H1 in Hr).
      pose proof Ec as Hr. apply (cmp_reach L) in Hr as [Hr|Hr]; [|done..].
      rewrite (TryAdd_same n L (m_order st) Ho _ _ Hbn Han Hr Hn) in HT. injection HT as <-.
      assert (stale (m_order st) (m_best st) i = true) as Hst by (unfold stale; by rewrite Hb, Hin, Hs). specialize (Hlt Hst). lia.
    + pose proof (unrelated_lt L _ _ (m_order st) o' Ho H3 Hbn Han Ec). nia.
  - specialize (H2 eq_refl). subst o'. assert (reach L (m_after s) (m_before s)) as Hr by (by apply H1).
    assert (stale (m_order st) (m_best st) i = true) as Hst.
    { unfold stale. rewrite Hb, Hin, Hs. cbn. apply (cmp_reach L); [done..|]. by right. }
    specialize (Hlt Hst). change (set_order st1 (m_order st)) with st1. unfold edge_count.
    rewrite (count_ret nn n es _ (sa_graph _ _ _ _ HS1)). cbn [mbind outcome_bind].
    eapply returns_bind; [apply (process_inv es L st1 (m_after s)); [apply HS1|apply HS1|exact Hu|apply HS1|apply HS1|exact Han|]|].
    { intros j c Hc Hq _ _. by apply (sa_entry _ _ _ _ HS1 j c). }
    intros st2 (HS2 & Hss & Hord & Hle2). assert (m_order st2 = m_order st) as Hord' by done.
    eapply returns_mono; [apply (IH L st2 HS2); [by rewrite (ss_unapplied _ _ Hss)|rewrite Hord in *; change (m_order st1) with (m_order st) in *; lia]|].
    assert (measure st2 <= measure st) as Hm.
    { unfold measure. rewrite Hord' in *. change (m_order st1) with (m_order st) in Hle2. lia. }
    intros x (L' & X1 & X2 & X3). exists L'. split; [done|]. split; [transitivity st2; [|done]; by transitivity st1|].
    destruct x.1; [destruct X3; split; [done|]|]; lia.
Qed.

(** ** Single steps *)

Definition sim_inv st : Prop := exists es top L, sim_at es top L st.

(** All steps made so far, the latest first *)
Definition all_steps st : list SSimplificationStep := reverse (m_unapplied st) ++ m_applied st.

(** New steps use up the measure. *)
Definition progress st st' : Prop :=
  exists X, all_steps st' = X ++ all_steps st /\ length X + measure st' <= measure st.

#[export] Instance progress_preorder : PreOrder progress.
Proof.
  split; [intros st; by exists []|]. intros x y z (X & HX & MX) (Y & HY & MY). exists (Y ++ X).
  rewrite HY, HX, <- app_assoc, length_app. split; [done|lia].
Qed.

Lemma progress_same st st' : all_steps st' = all_steps st -> measure st' <= measure st -> progress st st'.
Proof. intros H1 H2. by exists []. Qed.

Lemma ModifyEdge_has es st s (up : bool) l r id :
  graph_has nn n es (m_graph st) -> c_edge (m_change s) = m_after s -> edge_at es (m_after s) l r id ->
  (let x := m_change s in
   sides_in nn (if up then c_new_left x else c_old_left x) (if up then c_new_right x else c_old_right x)) ->
  ModifyEdge s up st ⤳ (fun st' => exists g, st' = set_graph st g /\
    graph_has nn n (put_edge es (m_after s) (if up then c_new_left (m_change s) else c_old_left (m_change s))
      (if up then c_new_right (m_change s) else c_old_right (m_change s)) id) g).
Proof.
  intros Hg Hk He Hs. unfold ModifyEdge. cbn zeta. rewrite Hk. eapply returns_bind; [by eapply ReplaceEdge_has|].
  intros g Hg'. apply returns_ret. by exists g.
Qed.

(** An undone step is applied again. *)
Lemma apply_again es top L st s U :
  sim_at es top L st -> m_unapplied st = s :: U ->
  ApplyStep edge_filter join_cost st ⤳ (fun x => x.1 = true /\ sim_inv x.2 /\ m_applied x.2 = s :: m_applied st /\
    m_unapplied x.2 = U /\ measure x.2 = measure st).
Proof.
  intros [S1 S2 S3 S4 S5 S6] Hu. unfold ApplyStep, FetchStep. rewrite Hu. cbn [mbind outcome_bind mret outcome_ret].
  rewrite Hu, reverse_cons, <- app_assoc in S3. cbn in S3. destruct (history_app _ _ _ S3) as [es' Hh].
  inversion Hh as [|A es1 s' id Hh1 Hok He]; subst. pose proof (history_det _ _ _ S2 Hh1) as ->.
  eapply returns_bind; [eapply (ModifyEdge_has es (set_stacks st (m_applied st) U) s true); [done|apply Hok|exact He|apply Hok]|].
  intros st' (g & -> & Hg). apply returns_ret. cbn. split; [done|]. split; [|done].
  exists (put_edge es (m_after s) (c_new_left (m_change s)) (c_new_right (m_change s)) id), top, L. by split.
Qed.

(** A new step is made. *)
Lemma apply_fresh es L st :
  sim_at es es L st -> m_unapplied st = [] ->
  ApplyStep edge_filter join_cost st ⤳ (fun x => sim_inv x.2 /\
    if x.1 then exists s, m_applied x.2 = s :: m_applied st /\ m_unapplied x.2 = [] /\ measure x.2 < measure st
    else same_steps st x.2 /\ measure x.2 <= measure st).
Proof.
  intros HS Hu. unfold ApplyStep, FetchStep. rewrite Hu.
  eapply returns_bind; [apply (fetch_loop_ret es _ L); [done|done|]|].
  { rewrite (qo_length _ _ _ (sa_queue _ _ _ _ HS)). pose proof (stales_le (m_order st) (m_best st)). lia. }
  intros [[s|] st1] (L1 & HS1 & Hss & Hm); cbn in Hm, HS1, Hss; [|apply returns_ret; split; [by exists es, es, L1|done]].
  destruct Hm as [Hok Hm]. destruct HS1 as [S1 S2 S3 S4 S5 S6]. destruct (so_old _ _ _ _ Hok) as [id Hold].
  eapply returns_bind; [eapply (ModifyEdge_has es st1 s true); [done|apply Hok|exact Hold|apply Hok]|].
  intros st2 (g & -> & Hg). cbn zeta. unfold edge_count.
  set (es' := put_edge es (m_after s) (c_new_left (m_change s)) (c_new_right (m_change s)) id) in *.
  change (m_graph (set_stacks (set_graph st1 g) (s :: m_applied (set_graph st1 g)) (m_unapplied (set_graph st1 g)))) with g.
  rewrite (count_ret nn n es' _ Hg). cbn [mbind outcome_bind].
  eapply returns_bind; [apply (process_inv es' L1 _ (m_after s)); cbn; [exact Hg|by apply history_step|by rewrite (ss_unapplied _ _ Hss)|done|done|apply Hok|]|].
  - intros i b Hb Hin Hne Hlt. eapply entry_put; [exact Hold|done| |by apply S6]. intros Hn.
    destruct (S6 i b Hb Hin) as (y & s' & Hy & _ & Hr & _). rewrite Hn in Hy. injection Hy as <-. apply Hlt; [lia|done].
  - intros st3 (HS3 & [_ Ha3 Hu3] & Ho3 & Hst3). cbn in Ha3, Hu3, Ho3, Hst3. apply returns_ret. cbn. split; [by exists es', es', L1|].
    exists s. rewrite Ha3, Hu3, (ss_applied _ _ Hss), (ss_unapplied _ _ Hss). split; [done|]. split; [done|].
    unfold measure in *. rewrite Ho3 in *. lia.
Qed.

Lemma ApplyStep_ret st :
  sim_inv st ->
  ApplyStep edge_filter join_cost st ⤳ (fun x => sim_inv x.2 /\ progress st x.2 /\
    (m_unapplied st <> [] -> x.1 = true /\ all_steps x.2 = all_steps st) /\
    (m_unapplied st = [] -> m_unapplied x.2 = []) /\
    if x.1 then length (m_applied x.2) = S (length (m_applied st)) else m_unapplied st = [] /\ same_steps st x.2).
Proof.
  intros (es & top & L & HS). destruct (m_unapplied st) as [|s U] eqn:Hu.
  - assert (top = es) as ->.
    { eapply history_det; [apply HS|]. pose proof (sa_top _ _ _ _ HS) as Ht. by rewrite Hu in Ht. }
    eapply returns_mono; [by apply (apply_fresh es L)|]. intros [[] st'] [Hi Hx]; cbn in *; (split; [done|]).
    + destruct Hx as (s & Ha & Hu' & Hm). split; [|split; [done|by rewrite Ha]]. exists [s]. unfold all_steps. rewrite Hu, Hu', Ha. split; [done|cbn; lia].
    + destruct Hx as [Hss Hm]. split; [|split; [done|split; [by rewrite (ss_unapplied _ _ Hss)|done]]]. apply progress_same; [|done]. unfold all_steps. by rewrite (ss_applied _ _ Hss), (ss_unapplied _ _ Hss).
  - eapply returns_mono; [by apply (apply_again es top L st s U)|]. intros [? st'] (-> & Hi & Ha & Hu' & Hm); cbn in *.
    assert (all_steps st' = all_steps st) as Hall by (unfold all_steps; rewrite Hu, Hu', Ha, reverse_cons, <- app_assoc; done).
    split; [done|]. split; [apply progress_same; [done|lia]|]. split; [done|]. split; [done|]. by rewrite Ha.
Qed.

Lemma UnapplyStep_ret st s A :
  sim_inv st -> m_applied st = s :: A ->
  UnapplyStep st ⤳ (fun x => x.1 = true /\ sim_inv x.2 /\ m_applied x.2 = A /\ all_steps x.2 = all_steps st /\ measure x.2 = measure st).
Proof.
  intros (es & top & L & [S1 S2 S3 S4 S5 S6]) Ha. unfold UnapplyStep. rewrite Ha in *. cbn zeta.
  inversion S2 as [|A' es1 s' id Hh Hok Hold]; subst.
  eapply returns_bind; [eapply (ModifyEdge_has _ (set_stacks st A (m_unapplied st)) s false); [exact S1|apply Hok|by eapply put_edge_same|apply Hok]|].
  intros st' (g & -> & Hg). rewrite put_edge_undo in Hg by done. apply returns_ret. cbn [fst snd].
  assert (reverse (s :: m_unapplied st) ++ A = reverse (m_unapplied st) ++ s :: A) as E by (rewrite reverse_cons, <- app_assoc; done).
  split; [done|]. split; [|split; [done|split; [|done]]].
  - exists es1, top, L. split; [exact Hg|exact Hh| |exact S4|exact S5|exact S6].
    cbn [m_applied m_unapplied set_stacks set_graph]. by rewrite E.
  - unfold all_steps. cbn [m_applied m_unapplied set_stacks set_graph]. by rewrite E, Ha.
Qed.
End Ops.
End Apply.
End HyperApply.
