(* ===== verification/HyperSearch.v ===== *)
(** * The search of the simplifier

    Every loop of [Simplify] ends, the steps are undone when it gives up, and when
    it succeeds the number of steps it chose has been probed. *)
From stdpp Require Import base numbers list gmap sets.
From Stdlib Require Import SpecFloat.
From S2P Require Import Prelude BitSet SetHash HyperGraph HyperEnum HyperSound HyperPlan HyperOrder HyperSimplify.
From S2P Require Import HyperStep HyperQueue HyperApply.

Module HyperSearch.
Import HyperGraph HyperEnum HyperSound HyperPlan HyperOrder HyperSimplify HyperStep HyperQueue HyperApply.
Open Scope nat_scope.
Open Scope outcome_scope.

Section Search.
Context (nn n : nat) (es0 : list SEdge).
Context `{BH : BitSetHash} `{PQ : PriorityQueue}.
Context (budget : nat) (pair_filter : option (gset N -> gset N -> N -> bool))
  (edge_filter : N -> bool) (join_cost : gset N -> gset N -> option DOUBLE).
Context (Hbudget : 0 < budget).
Implicit Types (st : CDPHyperGraphSimplifier) (F : list SSimplificationStep) (g : CDPHyperGraph).

Abbreviation sim_inv := (sim_inv nn n es0).
Abbreviation progress := (progress n).
Abbreviation measure := (measure n).
Abbreviation ApplySteps := (ApplySteps edge_filter join_cost).
Abbreviation EnumerationExceedsBudget := (EnumerationExceedsBudget budget pair_filter).

(** ** Several steps *)

Lemma all_steps_length st : length (all_steps st) = length (m_unapplied st) + length (m_applied st).
Proof. unfold all_steps. by rewrite length_app, length_reverse. Qed.

Lemma apply_up_ret : forall fuel count st,
  sim_inv st -> count - length (m_applied st) <= fuel ->
  apply_up edge_filter join_cost fuel count st ⤳ (fun x => sim_inv x.2 /\ progress st x.2 /\
    (count <= length (all_steps st) -> x.1 = true /\ all_steps x.2 = all_steps st) /\
    (x.1 = true -> count <= length (m_applied x.2) /\ (length (m_applied st) <= count -> length (m_applied x.2) = count))).
Proof.
  induction fuel as [|fuel IH]; intros count st Hi Hf; cbn [apply_up].
  - replace (length (m_applied st) <? count) with false by (symmetry; apply Nat.ltb_ge; lia).
    apply returns_ret. split; [done|]. split; [reflexivity|]. split; [done|]. cbn. lia.
  - destruct (length (m_applied st) <? count) eqn:E.
    2: { apply Nat.ltb_ge in E. apply returns_ret. split; [done|]. split; [reflexivity|]. split; [done|]. cbn. lia. }
    apply Nat.ltb_lt in E. eapply returns_bind; [by apply (ApplyStep_ret nn n es0)|].
    intros [ok st1] (Hi1 & Hp1 & Ha1 & _ & H1). cbn in Hi1, Hp1, Ha1, H1.
    assert (count <= length (all_steps st) -> m_unapplied st <> []) as Hun.
    { intros Hc Hu. rewrite all_steps_length, Hu in Hc. cbn in Hc. lia. }
    destruct ok.
    + eapply returns_mono; [apply (IH count st1 Hi1); lia|]. intros x (X1 & X2 & X3 & X4). split; [done|]. split; [by transitivity st1|].
      split; [|intros Hx; specialize (X4 Hx); split; [apply X4|intros _; apply X4; lia]].
      intros Hc. destruct (Ha1 (Hun Hc)) as [_ Hall]. rewrite Hall in X3. by apply X3.
    + apply returns_ret. split; [done|]. split; [done|]. split; [|done]. intros Hc. by apply Ha1, Hun.
Qed.

Lemma apply_down_ret : forall fuel count st,
  sim_inv st -> length (m_applied st) - count <= fuel ->
  apply_down fuel count st ⤳ (fun st' => sim_inv st' /\ all_steps st' = all_steps st /\ measure st' = measure st /\
    length (m_applied st') = min count (length (m_applied st))).
Proof.
  induction fuel as [|fuel IH]; intros count st Hi Hf; cbn [apply_down].
  - replace (count <? length (m_applied st)) with false by (symmetry; apply Nat.ltb_ge; lia). apply returns_ret. split_and!; [done..|lia].
  - destruct (count <? length (m_applied st)) eqn:E; [|apply Nat.ltb_ge in E; apply returns_ret; split_and!; [done..|lia]].
    apply Nat.ltb_lt in E. destruct (m_applied st) as [|s A] eqn:Ea; [cbn in E; lia|].
    eapply returns_bind; [by apply (UnapplyStep_ret nn n es0 st s A)|]. intros [b st1] (Hb & Hi1 & Ha1 & Hall & Hm).
    cbn in Hb. subst b. cbn [mbind outcome_bind GPOS_ASSERT]. cbn in Hi1, Ha1, Hall, Hm, E. cbn in Hf.
    eapply returns_mono; [apply (IH count st1 Hi1); rewrite Ha1; lia|]. intros st2 (X1 & X2 & X3 & X4).
    split; [done|]. split; [congruence|]. split; [congruence|]. rewrite X4, Ha1. cbn. lia.
Qed.

Lemma ApplySteps_ret count st :
  sim_inv st ->
  ApplySteps count st ⤳ (fun x => sim_inv x.2 /\ progress st x.2 /\
    (count <= length (all_steps st) -> x.1 = true /\ all_steps x.2 = all_steps st) /\
    (x.1 = true -> length (m_applied x.2) = count)).
Proof.
  intros Hi. unfold HyperSimplify.ApplySteps. eapply returns_bind; [apply apply_up_ret; [done|lia]|].
  intros [ok st1] (Hi1 & Hp1 & Ha1 & Hc1). cbn in Hi1, Hp1, Ha1, Hc1. destruct ok; [|by apply returns_ret].
  eapply returns_bind; [apply apply_down_ret; [done|lia]|]. intros st2 (Hi2 & Ha2 & Hm2 & Hl2). apply returns_ret. cbn.
  destruct (Hc1 eq_refl) as [Hge _]. split; [done|]. split; [transitivity st1; [done|]; apply progress_same; [done|lia]|].
  split; [|intros _; lia]. intros Hc. split; [done|]. rewrite Ha2. by apply Ha1.
Qed.

Lemma ApplySteps_zero st : sim_inv st -> ApplySteps 0 st ⤳ (fun x => x.1 = true /\ sim_inv x.2 /\ m_applied x.2 = []).
Proof.
  intros Hi. eapply returns_mono; [by apply ApplySteps_ret|]. intros x (H1 & _ & H2 & H3).
  destruct (H2 ltac:(lia)) as [Hx _]. split; [done|]. split; [done|]. apply nil_length_inv. by apply H3.
Qed.

(** ** Probes *)

Definition fits g : Prop := EnumerationExceedsBudget g = Ret false.
Definition exceeds g : Prop := EnumerationExceedsBudget g = Ret true.

Lemma probe_ret g : graph_wf g -> fits g \/ exceeds g.
Proof using Hbudget.
  intros Hwf. destruct (ctor_inv g Hwf budget pair_filter Hbudget) as (p & Ep & HI & _).
  destruct (Enumerate_sound (RL := PlanLaws g Hwf) g Hwf p HI) as ([b q] & Eq & _).
  unfold fits, exceeds, HyperSimplify.EnumerationExceedsBudget. rewrite Ep. cbn [mbind outcome_bind]. rewrite Eq. cbn [mbind outcome_bind].
  destruct (b || _); [by right|by left].
Qed.

(** The graphs have the same nodes and edges; the edge lists of a node may be in
    different orders. *)
Record twin g g' : Prop := {
  tw_wf : graph_wf g;
  tw_wf' : graph_wf g';
  tw_nodes : NodeCount g = NodeCount g';
  tw_edges : m_edges g = m_edges g';
}.

Lemma sim_wf st : sim_inv st -> graph_wf (m_graph st).
Proof. intros (es & top & L & HS). apply HS. Qed.

Lemma applied_suffix st : m_applied st = drop (length (all_steps st) - length (m_applied st)) (all_steps st).
Proof.
  rewrite all_steps_length. unfold all_steps. replace (_ + _ - _) with (length (reverse (m_unapplied st))) by (rewrite length_reverse; lia).
  by rewrite drop_app_length.
Qed.

(** The edges are determined by the steps and by how many are applied. *)
Lemma sim_twin st st' :
  sim_inv st -> sim_inv st' -> all_steps st = all_steps st' -> length (m_applied st) = length (m_applied st') ->
  twin (m_graph st) (m_graph st').
Proof.
  intros (es & top & L & HS) (es' & top' & L' & HS') Hall Hlen.
  assert (m_applied st = m_applied st') as Ha by (rewrite (applied_suffix st), (applied_suffix st'), Hall, Hlen; done).
  pose proof (sa_applied _ _ _ _ _ _ _ HS) as H1. pose proof (sa_applied _ _ _ _ _ _ _ HS') as H2. rewrite Ha in H1.
  pose proof (history_det _ _ _ _ _ _ H1 H2) as ->.
  destruct (sa_graph _ _ _ _ _ _ _ HS) as [W1 W2 W3 _], (sa_graph _ _ _ _ _ _ _ HS') as [V1 V2 V3 _]. split; congruence.
Qed.

(** ** Raising the number of steps *)

(** Nothing is undone, and [a] steps are applied. *)
Definition raised (a : nat) st : Prop := sim_inv st /\ m_unapplied st = [] /\ length (m_applied st) = a.

Lemma raised_progress a a' st st' : raised a st -> raised a' st' -> progress st st' -> a' + measure st' <= a + measure st.
Proof.
  intros (_ & H1 & H2) (_ & H3 & H4) (X & HX & Hm). apply (f_equal length) in HX.
  rewrite length_app, !all_steps_length, H1, H3, H2, H4 in HX. cbn in HX. lia.
Qed.

Lemma raise_to_ret : forall fuel a upper st,
  raised a st -> a <= upper -> upper - a <= fuel ->
  raise_to budget pair_filter edge_filter join_cost fuel a upper st ⤳ (fun x => sim_inv x.2 /\
    match x.1 with
    | RaiseReturn => m_applied x.2 = []
    | RaiseBreak a' => raised a' x.2 /\ a' <= upper /\ a' + measure x.2 <= a + measure st /\ (a' < upper -> fits (m_graph x.2))
    end).
Proof using Hbudget.
  induction fuel as [|fuel IH]; intros a upper st Hr Hle Hf; cbn [raise_to].
  - replace (a <? upper) with false by (symmetry; apply Nat.ltb_ge; lia). apply returns_ret. split; [apply Hr|]. cbn. split_and!; [done|lia|lia|lia].
  - destruct (a <? upper) eqn:E.
    2: { apply Nat.ltb_ge in E. apply returns_ret. split; [apply Hr|]. cbn. split_and!; [done|lia|lia|lia]. }
    apply Nat.ltb_lt in E. pose proof Hr as (Hi & Hu & Hl).
    eapply returns_bind; [by apply (ApplyStep_ret nn n es0)|]. intros [ok st1] (Hi1 & Hp1 & _ & Hu1 & H1). cbn in Hi1, Hp1, Hu1, H1.
    destruct ok.
    + assert (raised (a + 1) st1) as Hr1 by (split; [done|]; split; [by apply Hu1|]; lia).
      pose proof (raised_progress _ _ _ _ Hr Hr1 Hp1) as Hm.
      eapply returns_mono; [apply (IH (a + 1) upper st1 Hr1); lia|]. intros [[|a'] st2] [X1 X2]; cbn in *; (split; [done|]); [done|].
      destruct X2 as (Y1 & Y2 & Y3 & Y4). split_and!; [done|done|lia|done].
    + destruct H1 as [_ Hss]. assert (raised a st1) as Hr1 by (split; [done|]; split; [by apply Hu1|]; by rewrite (ss_applied _ _ Hss)).
      pose proof (raised_progress _ _ _ _ Hr Hr1 Hp1) as Hm.
      destruct (probe_ret (m_graph st1) (sim_wf st1 Hi1)) as [Hx|Hx]; pose proof Hx as Hx'; unfold fits, exceeds in Hx'; rewrite Hx'; cbn [mbind outcome_bind].
      * apply returns_ret. split; [done|]. cbn. split_and!; [done|lia|lia|done].
      * eapply returns_bind; [by apply ApplySteps_zero|]. intros [b st2] (_ & Hi2 & Ha2). apply returns_ret. by split.
Qed.

Lemma raise_loop_ret : forall fuel a upper st,
  raised a st -> a <= upper -> 1 <= upper -> 1 <= fuel -> a + measure st + 2 <= fuel + upper ->
  raise_loop budget pair_filter edge_filter join_cost fuel a upper st ⤳ (fun x => sim_inv x.2 /\
    match x.1 with
    | RaiseReturn => m_applied x.2 = []
    | RaiseBreak a' => raised a' x.2 /\ fits (m_graph x.2)
    end).
Proof using Hbudget.
  induction fuel as [|fuel IH]; intros a upper st Hr Hle H1 H2 Hf; [lia|]. cbn [raise_loop].
  eapply returns_bind; [apply raise_to_ret; [done|done|lia]|]. intros [[|a'] st1] [Hi1 Hx]; cbn in Hi1, Hx; [by apply returns_ret|].
  destruct Hx as (Hr1 & Hle1 & Hm1 & Hfit). destruct (a' <? upper) eqn:E.
  { apply Nat.ltb_lt in E. apply returns_ret. split; [done|]. by split; [|apply Hfit]. }
  apply Nat.ltb_ge in E.
  destruct (probe_ret (m_graph st1) (sim_wf st1 Hi1)) as [Hx|Hx]; pose proof Hx as Hx'; unfold fits, exceeds in Hx'; rewrite Hx'; cbn [mbind outcome_bind].
  - apply returns_ret. by split.
  - apply (IH a' (upper * 2) st1 Hr1); lia.
Qed.

(** ** The binary search *)

(** A probe of the graph after [k] of the steps [F] *)
Definition probed (P : CDPHyperGraph -> Prop) F (k : nat) : Prop :=
  exists st, sim_inv st /\ all_steps st = F /\ length (m_applied st) = k /\ P (m_graph st).

Lemma search_loop_ret F a : length F = a -> forall fuel lower upper st,
  sim_inv st -> all_steps st = F -> lower <= upper <= a + 1 -> upper - lower <= fuel ->
  (upper <= a -> probed fits F upper) -> (0 < lower -> probed exceeds F (lower - 1)) ->
  search_loop budget pair_filter edge_filter join_cost fuel lower upper st ⤳ (fun x => sim_inv x.2 /\ all_steps x.2 = F /\
    x.1 <= a + 1 /\ (x.1 <= a -> probed fits F x.1) /\ (x.1 = a + 1 -> probed exceeds F a)).
Proof using Hbudget.
  intros HF. induction fuel as [|fuel IH]; intros lower upper st Hi Hall Hr Hf Hup Hlow; cbn [search_loop].
  - replace (lower <? upper) with false by (symmetry; apply Nat.ltb_ge; lia). apply returns_ret. cbn. split_and!; [done|done|lia|done|].
    intros Hx. replace a with (lower - 1) by lia. apply Hlow. lia.
  - destruct (lower <? upper) eqn:E.
    2: { apply Nat.ltb_ge in E. apply returns_ret. cbn. split_and!; [done|done|lia|done|].
         intros Hx. replace a with (lower - 1) by lia. apply Hlow. lia. }
    apply Nat.ltb_lt in E. cbn zeta. set (middle := lower + (upper - lower) / 2).
    assert (lower <= middle < upper) as Hmid.
    { unfold middle. pose proof (Nat.div_lt (upper - lower) 2 ltac:(lia) ltac:(lia)). lia. }
    eapply returns_bind; [by apply ApplySteps_ret|]. intros [ok st1] (Hi1 & _ & Hc1 & Hl1). cbn in Hi1, Hc1, Hl1.
    destruct Hc1 as [-> Hall1]; [rewrite Hall; lia|]. specialize (Hl1 eq_refl). rewrite Hall in Hall1. cbn [negb].
    destruct (probe_ret (m_graph st1) (sim_wf st1 Hi1)) as [Hx|Hx]; pose proof Hx as Hx'; unfold fits, exceeds in Hx'; rewrite Hx'; cbn [mbind outcome_bind negb].
    + apply IH; [done|done|lia|lia| |done]. intros _. by exists st1.
    + apply IH; [done|done|lia|lia|done|]. intros _. rewrite Nat.add_sub. by exists st1.
Qed.

(** ** The whole *)

(** What [Simplify] gives: after [false] nothing is applied; after [true] the graph
    has been probed, unless the probe depends on the order of the edge lists. *)
Definition simplified (x : bool * CDPHyperGraphSimplifier) : Prop :=
  sim_inv x.2 /\
  if x.1 then m_applied x.2 <> [] /\
    ((exists g, twin g (m_graph x.2) /\ fits g) \/ (exists g g', twin g g' /\ fits g /\ exceeds g'))
  else m_applied x.2 = [].

Lemma Simplify_ret st :
  raised 0 st -> length (m_best st) = n -> Simplify budget pair_filter edge_filter join_cost st ⤳ simplified.
Proof using Hbudget.
  intros Hr Hn. unfold Simplify. rewrite bind_assert by (by apply Nat.ltb_lt). rewrite Hn.
  eapply returns_bind; [apply (raise_loop_ret _ 0 1 st Hr); try lia; pose proof (measure_bound n st); lia|].
  intros [[|a] st1] [Hi1 Hx]; cbn in Hi1, Hx; [by apply returns_ret|]. destruct Hx as [(_ & Hu1 & Ha1) Hfit]. cbn zeta.
  assert (length (all_steps st1) = a) as HF by (rewrite all_steps_length, Hu1, Ha1; done).
  eapply returns_bind; [apply (search_loop_ret (all_steps st1) a HF (a + 1) 0 (a + 1) st1 Hi1); try lia; done|].
  intros [upper st2] (Hi2 & Hall2 & Hle & Hfu & Hex). cbn in Hi2, Hall2, Hle, Hfu, Hex.
  eapply returns_bind; [by apply ApplySteps_ret|]. intros [ok st3] (Hi3 & _ & Hc3 & Hl3). cbn in Hi3, Hc3, Hl3. destruct ok; cbn [negb].
  - apply returns_ret. split; [done|]. cbn [fst snd]. specialize (Hl3 eq_refl).
    destruct (0 <? length (m_applied st3)) eqn:E; [|apply Nat.ltb_ge in E; apply nil_length_inv; lia].
    apply Nat.ltb_lt in E. split; [intros Hnil; rewrite Hnil in E; cbn in E; lia|]. destruct (decide (upper <= a)) as [Hup|Hup].
    + left. destruct (Hfu Hup) as (st' & Hi' & Hall' & Hl' & Hfit'). exists (m_graph st'). split; [|done].
      apply sim_twin; [done|done| |congruence]. rewrite Hall'. destruct Hc3 as [_ ->]; [rewrite Hall2; lia|done].
    + right. destruct Hex as (st' & Hi' & Hall' & Hl' & Hex'); [lia|]. exists (m_graph st1), (m_graph st').
      split; [|done]. apply sim_twin; [done|done|by rewrite Hall'|congruence].
  - eapply returns_bind; [by apply ApplySteps_zero|]. intros [b st4] (_ & Hi4 & Ha4). apply returns_ret. by split.
Qed.

Lemma Restore_ret st : sim_inv st -> Restore edge_filter join_cost st ⤳ (fun st' => sim_inv st' /\ m_applied st' = []).
Proof.
  intros Hi. unfold Restore. eapply returns_bind; [by apply ApplySteps_zero|]. intros [b st'] (Hb & Hi' & Ha'). cbn in Hb. subst b.
  cbn [mbind outcome_bind GPOS_ASSERT]. by apply returns_ret.
Qed.

(** ** The constructor *)

Section Start.
Context (g0 : CDPHyperGraph) (Hg0 : graph_has nn n es0 g0).

(** The nodes of an edge *)
Definition used_at (k : nat) (u : gset N) : Prop := exists l r id, edge_at es0 k l r id /\ u = l ∪ r.

Lemma used_unique k u u' : used_at k u -> used_at k u' -> u' = u.
Proof.
  intros (l & r & id & He & ->) (l' & r' & id' & He' & ->).
  by destruct (edge_at_unique _ _ _ _ _ _ _ _ He He') as (-> & -> & _).
Qed.

(** Edge [x] is inside [y]; edges with the same nodes are ordered by their numbers. *)
Definition inside (x y : nat) : Prop :=
  exists ux uy, used_at x ux /\ used_at y uy /\ (ux ⊂ uy \/ (ux = uy /\ x < y)).

Lemma inside_trans x y z : inside x y -> inside y z -> inside x z.
Proof.
  intros (ux & uy & Hx & Hy & H1) (uy' & uz & Hy' & Hz & H2). pose proof (used_unique _ _ _ Hy Hy') as ->.
  exists ux, uz. split; [done|]. split; [done|]. destruct H1 as [H1|[-> H1]], H2 as [H2|[<- H2]].
  - left. by transitivity uy.
  - by left.
  - by left.
  - right. split; [done|lia].
Qed.

Lemma inside_irrefl x y : inside x y -> ~ inside y x.
Proof.
  intros H1 H2. pose proof (inside_trans _ _ _ H1 H2) as (u & u' & Hu & Hu' & H). pose proof (used_unique _ _ _ Hu Hu') as ->.
  destruct H as [H|[_ H]]; [|lia]. by apply (irreflexivity (⊂) u).
Qed.

Lemma reach_inside L x y : (forall a b, (a, b) ∈ L -> inside a b) -> reach L x y -> x = y \/ inside x y.
Proof.
  intros HL. induction 1 as [|x y z Hxy _ IH]; [by left|]. right. apply HL in Hxy. destruct IH as [->|IH]; [done|].
  by eapply inside_trans.
Qed.

(** The state while the dependencies are extracted *)
Definition start_state (o : list (gset nat)) : CDPHyperGraphSimplifier :=
  mkSimplifier g0 o (replicate n (mkBest None None false)) [] [] [].

Definition extracting st : Prop :=
  exists L o, st = start_state o /\ order_shows n L o /\ forall a b, (a, b) ∈ L -> inside a b.

Lemma add_inside L o x y :
  order_shows n L o -> (forall a b, (a, b) ∈ L -> inside a b) -> inside x y -> x < n -> y < n ->
  ('(added, o') ← TryAdd o x y; _ ← GPOS_ASSERT added; mret (set_order (start_state o) o')) ⤳ extracting.
Proof.
  intros Ho HL Hxy Hx Hy. destruct (TryAdd_ret n L o Ho x y Hx Hy) as ([added o'] & -> & H1 & _ & H3). cbn in H1, H3.
  cbn [mbind outcome_bind]. destruct added.
  - cbn [GPOS_ASSERT mbind outcome_bind]. apply returns_ret. exists (L ++ [(x, y)]), o'. split; [done|]. split; [by apply H3|].
    intros a b [Hab|Hab%list_elem_of_singleton]%elem_of_app; [by apply HL|]. by injection Hab as -> ->.
  - exfalso. destruct (reach_inside L y x HL) as [->|Hyx]; [by apply H1|by apply (inside_irrefl x x)|by apply (inside_irrefl x y)].
Qed.

Lemma extract_pair_ret x y st : extracting st -> x < y -> y < n -> extract_pair x y st ⤳ extracting.
Proof.
  intros (L & o & -> & Ho & HL) Hxy Hy.
  destruct (edge_present nn n es0 g0 Hg0 x ltac:(lia)) as (l1 & r1 & id1 & H1 & S1).
  destruct (edge_present nn n es0 g0 Hg0 y Hy) as (l2 & r2 & id2 & H2 & S2).
  assert (used_at x (l1 ∪ r1) /\ used_at y (l2 ∪ r2)) as [U1 U2] by (split; [by exists l1, r1, id1|by exists l2, r2, id2]).
  unfold extract_pair, PbsUsedNodes, PbsUnion, FSubset.
  rewrite (SEdgeOf_ret nn n es0 (start_state o) Hg0 x l1 r1 id1 H1), (SEdgeOf_ret nn n es0 (start_state o) Hg0 y l2 r2 id2 H2).
  cbn [mbind outcome_bind mret outcome_ret m_left m_right m_order start_state]. case_bool_decide as E1.
  - apply (add_inside L); [done|done| |lia|lia]. exists (l1 ∪ r1), (l2 ∪ r2). split; [done|]. split; [done|].
    destruct (decide (l1 ∪ r1 = l2 ∪ r2)) as [E|E]; [by right|left]. set_solver.
  - case_bool_decide as E2; [|apply returns_ret; by exists L, o].
    apply (add_inside L); [done|done| |lia|lia]. exists (l2 ∪ r2), (l1 ∪ r1). split; [done|]. split; [done|]. left. by split.
Qed.

Lemma Extract_ret : ExtractJoinDependencies (start_state (CDPHyperOrderConstraints_ctor n)) ⤳ extracting.
Proof.
  unfold ExtractJoinDependencies, edge_count. cbn [m_graph start_state]. rewrite (count_ret nn n es0 g0 Hg0). cbn [mbind outcome_bind].
  apply (for_each_rule (fun _ => extracting)).
  - exists [], (CDPHyperOrderConstraints_ctor n). split; [done|]. split; [apply ctor_shows|]. intros a b H. by apply not_elem_of_nil in H.
  - intros pre x rest st Hl Hst. apply (for_each_rule (fun _ => extracting)); [done|]. intros pre' y rest' st' Hl' Hst'.
    assert (y ∈ seq (x + 1) (n - (x + 1))) as Hy by (rewrite Hl'; set_solver). apply elem_of_seq in Hy. apply extract_pair_ret; [done|lia|lia].
Qed.

Lemma start_inv L o : order_shows n L o -> sim_at nn n es0 es0 es0 L (start_state o).
Proof.
  intros Ho. split; cbn; [done|constructor|constructor|done| |].
  - split; [apply length_replicate|constructor| |intros i Hi; by apply not_elem_of_nil in Hi|].
    + intros i b [-> _]%lookup_replicate. cbn. split; [done|]. intros Hi. by apply not_elem_of_nil in Hi.
    + intros i b [-> _]%lookup_replicate. done.
  - intros i b [-> _]%lookup_replicate. done.
Qed.

Lemma ctor_ret : CDPHyperGraphSimplifier_ctor budget edge_filter join_cost g0 ⤳ (fun st => raised 0 st /\ length (m_best st) = n).
Proof.
  unfold CDPHyperGraphSimplifier_ctor. rewrite (count_ret nn n es0 g0 Hg0). cbn [mbind outcome_bind].
  rewrite bind_assert by (by apply Nat.ltb_lt). unfold InitFirstStep. eapply returns_bind; [apply Extract_ret|].
  intros st (L & o & -> & Ho & _). unfold edge_count. cbn [m_graph start_state]. rewrite (count_ret nn n es0 g0 Hg0). cbn [mbind outcome_bind].
  eapply returns_mono; [apply (for_each_rule (fun _ st => sim_at nn n es0 es0 es0 L st /\ m_order st = o /\ m_applied st = [] /\ m_unapplied st = []))|].
  - split; [by apply start_inv|done].
  - intros pre i rest st Hl (HS & Hord & Ha & Hu). assert (i < n) as Hi by (assert (i ∈ seq 0 n) as Hin by (rewrite Hl; set_solver); apply elem_of_seq in Hin; lia).
    pose proof HS as [S1 S2 S3 S4 S5 S6]. rewrite (count_ret nn n es0 _ S1). cbn [mbind outcome_bind].
    destruct (lookup_lt_is_Some_2 (m_best st) i) as [b Hb]; [by rewrite (qo_length _ _ _ S5)|].
    eapply returns_mono; [apply (Process_own nn n edge_filter join_cost es0 o (os_length _ _ _ Ho) 1 i st b); [by split|done]|].
    intros st' (b' & [B1 B2 B3 B4 B5 B6] & Hr). split; [|by rewrite B2, B5, B6].
    split; [by rewrite B1|by rewrite B5|by rewrite B5, B6|by rewrite B2|by rewrite B3|]. rewrite B3. intros j c Hc Hin.
    destruct (decide (j = i)) as [->|Hne]; [|rewrite list_lookup_insert_ne in Hc by done; by apply S6].
    rewrite (lookup_insert_same _ _ _ _ Hb) in Hc. injection Hc as <-. by apply Hr.
  - intros st (HS & _ & Ha & Hu). split; [|exact (qo_length _ _ _ (sa_queue _ _ _ _ _ _ _ HS))]. split; [by exists es0, es0, L|]. split; [done|]. by rewrite Ha.
Qed.
End Start.
End Search.
End HyperSearch.
