(* ===== verification/SimplifyProps.v ===== *)
(** * Properties of the graph simplification

    The claims about the order constraints and the simplifier. *)
From stdpp Require Import base numbers list gmap sets.
From Stdlib Require Import SpecFloat.
From S2P Require Import Prelude BitSet SetHash HyperGraph HyperEnum HyperSound HyperPlan HyperProps HyperOrder HyperSimplify.
From S2P Require Import HyperStep HyperQueue HyperApply HyperSearch.

Module SimplifyProps.
Import HyperGraph HyperEnum HyperSound HyperPlan HyperProps HyperOrder HyperSimplify HyperStep HyperQueue HyperApply HyperSearch.
Open Scope nat_scope.
Open Scope outcome_scope.

(** ** Order constraints *)

(** A sequence of calls of [TryAdd], with their answers *)
Definition try_all (calls : list (nat * nat)) (o : list (gset nat)) : outcome (list bool * list (gset nat)) :=
  for_each calls (fun p '(answers, o) => '(b, o) ← TryAdd o p.1 p.2; mret (answers ++ [b], o)) ([], o).

(** The constraints that are accepted: those that close no cycle *)
Inductive accepts : list (nat * nat) -> list bool -> list (nat * nat) -> Prop :=
  | accepts_nil : accepts [] [] []
  | accepts_yes calls answers L b a :
      accepts calls answers L -> ~ reach L a b -> accepts (calls ++ [(b, a)]) (answers ++ [true]) (L ++ [(b, a)])
  | accepts_no calls answers L b a :
      accepts calls answers L -> reach L a b -> accepts (calls ++ [(b, a)]) (answers ++ [false]) L.

(** C35. A sequence of calls of TryAdd over n edges returns. Each constraint is
    accepted exactly if it closes no cycle with those accepted before; afterwards
    the accepted constraints have no cycle, and WouldCreateCycle and Precedes
    answer from their transitive closure. *)
Theorem order_programs_refine (n : nat) (calls : list (nat * nat)) :
  (forall b a, (b, a) ∈ calls -> b < n /\ a < n) ->
  try_all calls (CDPHyperOrderConstraints_ctor n) ⤳ (fun x => exists L, accepts calls x.1 L /\ acyclic L /\
    forall b a, b < n -> a < n ->
      (WouldCreateCycle x.2 b a ⤳ (fun c => c = true <-> reach L a b)) /\
      (Precedes x.2 b a ⤳ (fun c => c = true <-> b <> a /\ reach L b a))).
Proof.
  intros Hc. eapply returns_mono; [apply (for_each_rule (fun pre x => exists L, accepts pre x.1 L /\ order_shows n L x.2))|].
  - exists []. split; [constructor|apply HyperOrder.ctor_shows].
  - intros pre [b a] rest [answers o] Hl (L & Hacc & Ho). cbn in Hacc, Ho |- *.
    destruct (Hc b a) as [Hb Ha]; [rewrite Hl; set_solver|].
    eapply returns_bind; [by apply (TryAdd_ret n L o)|]. intros [[] o'] (H1 & H2 & H3); cbn in *; apply returns_ret; cbn.
    + exists (L ++ [(b, a)]). split; [|by apply H3]. apply accepts_yes; [done|]. intros Hr. by apply H1 in Hr.
    + exists L. rewrite (H2 eq_refl). split; [|done]. apply accepts_no; [done|by apply H1].
  - intros [answers o] (L & Hacc & Ho). exists L. split; [done|]. split; [apply Ho|]. intros b a Hb Ha. cbn.
    destruct (WouldCreateCycle_ret n L o Ho b a Hb Ha) as (c & E & H). destruct (Precedes_ret n L o Ho b a Hb Ha) as (c' & E' & H').
    split; [by exists c|by exists c'].
Qed.

Lemma order_programs_refine_witness :
  try_all [(0, 1); (1, 2); (2, 0)] (CDPHyperOrderConstraints_ctor 3) ⤳ (fun x => exists L, accepts [(0, 1); (1, 2); (2, 0)] x.1 L /\ acyclic L /\
    forall b a, b < 3 -> a < 3 ->
      (WouldCreateCycle x.2 b a ⤳ (fun c => c = true <-> reach L a b)) /\
      (Precedes x.2 b a ⤳ (fun c => c = true <-> b <> a /\ reach L b a))).
Proof.
  apply (order_programs_refine 3 [(0, 1); (1, 2); (2, 0)]). intros b a H.
  repeat (apply elem_of_cons in H as [[= -> ->]|H]; [lia|]). by apply not_elem_of_nil in H.
Defined.

(** ** The simplifier *)

(** The edges of a graph are those of another, with wider sides. *)
Definition wider (g g' : CDPHyperGraph) : Prop :=
  length (m_edges g') = length (m_edges g) /\
  forall k e', m_edges g' !! k = Some e' -> exists e, m_edges g !! k = Some e /\
    m_left e ⊆ m_left e' /\ m_right e ⊆ m_right e' /\ m_edge_id e' = m_edge_id e.

(** Joins of the simplified graph are joins of the original. *)
Lemma wider_connects g g' (a b : gset N) id : wider g g' -> connects g' a b id -> connects g a b id.
Proof.
  intros [_ Hw] (k & e & He & Ha & Hb & Hid). destruct (Hw k e He) as (e0 & H0 & H1 & H2 & H3).
  exists k, e0. split; [done|]. split; [set_solver|]. split; [set_solver|congruence].
Qed.

Lemma wider_csg g g' s : NodeCount g' = NodeCount g -> wider g g' -> csg g' s -> csg g s.
Proof.
  intros Hn Hw. induction 1 as [v Hv|a b id _ IHa _ IHb Hd Hc]; [apply csg_node; by rewrite <- Hn|].
  by eapply csg_join; [..|by eapply wider_connects].
Qed.

Lemma wider_plan `{BitSetHash} g g' p : NodeCount g' = NodeCount g -> wider g g' -> plan_inv g' p -> plan_inv g p.
Proof.
  intros Hn Hw [I1 I2 I3 I4 I5 I6]. split; [|done| |done|done|done].
  - intros s Hs. by eapply wider_csg; [..|by apply I1].
  - intros i x Hx. destruct (I3 i x Hx) as [P1 P2 P3 P4 (P5 & P6 & P7)]. split; [done..|]. split; [done|]. split; [done|].
    intros id Hid. destruct (P7 id Hid) as [Hc Ha]. split; [by eapply wider_connects|done].
Qed.

Section Simplify.
Context `{BH : BitSetHash} `{PQ : PriorityQueue}.
Context (budget : nat) (pair_filter : option (gset N -> gset N -> N -> bool))
  (edge_filter : N -> bool) (join_cost : gset N -> gset N -> option DOUBLE).

(** What is known of the graph at any time *)
Record derived (g : CDPHyperGraph) (st : CDPHyperGraphSimplifier) : Prop := {
  dv_wf : graph_wf (m_graph st);
  dv_nodes : NodeCount (m_graph st) = NodeCount g;
  dv_wider : wider g (m_graph st);
  dv_same : m_applied st = [] -> m_edges (m_graph st) = m_edges g;
}.

Definition run_simplify (g : CDPHyperGraph) : outcome (bool * CDPHyperGraphSimplifier) :=
  st ← CDPHyperGraphSimplifier_ctor budget edge_filter join_cost g;
  Simplify budget pair_filter edge_filter join_cost st.

Abbreviation half g := (length (m_edges g) / 2).

Lemma graph_has_self g : graph_wf g -> graph_has (NodeCount g) (half g) (m_edges g) g.
Proof. intros Hw. split; [done..|]. destruct (gw_even _ Hw) as [m ->]. by rewrite Nat.div_mul. Qed.

Lemma sim_derived g st : graph_wf g -> sim_inv (NodeCount g) (half g) (m_edges g) st -> derived g st.
Proof.
  intros Hw (es & top & L & HS). destruct (sa_graph _ _ _ _ _ _ _ HS) as [W1 W2 W3 W4].
  pose proof (sa_applied _ _ _ _ _ _ _ HS) as Hh. split; [done|done|split|].
  - rewrite W3, W4. symmetry. apply (gh_length _ _ _ _ (graph_has_self g Hw)).
  - intros k [l r id] Hk. rewrite W3 in Hk. destruct (history_wider _ _ _ _ _ _ _ _ _ Hh Hk) as (l0 & r0 & H0 & H1 & H2).
    by exists (mkSEdge l0 r0 id).
  - intros Ha. rewrite Ha in Hh. inversion Hh; subst. done.
Qed.

Lemma run_simplify_ret g :
  graph_wf g -> 0 < budget ->
  run_simplify g ⤳ simplified (NodeCount g) (half g) (m_edges g) budget pair_filter.
Proof.
  intros Hw Hb. unfold run_simplify.
  eapply returns_bind; [apply (ctor_ret (NodeCount g) (half g) (m_edges g) budget edge_filter join_cost Hb g (graph_has_self g Hw))|].
  intros st [Hr Hn]. by apply (Simplify_ret (NodeCount g) (half g) (m_edges g)).
Qed.

End Simplify.


(** C21. The plan of an enumeration of the simplified graph is a plan for the original
    graph: it keeps the invariant with respect to the original edges. In
    particular every recorded pair is joined by edges of the original graph and
    every seen set is connected in it; and a complete plan holds a tree of joins
    of the original graph over all its nodes. *)
Theorem simplified_plan_valid `{BitSetHash} `{PriorityQueue} (budget : nat)
    (pair_filter : option (gset N -> gset N -> N -> bool)) (edge_filter : N -> bool)
    (join_cost : gset N -> gset N -> option DOUBLE) (g : CDPHyperGraph) :
  graph_wf g -> 0 < budget ->
  (x ← run_simplify budget pair_filter edge_filter join_cost g;
   p ← CDPHyperPlan_ctor budget pair_filter;
   Enumerate (m_graph x.2) p) ⤳ (fun y => plan_inv g y.2 /\ length (m_pairs y.2) <= budget /\
     (Complete y.2 (NodeCount g) = true -> exists t, tree_set t = nodes g /\ NoDup (tree_leaves t) /\ tree_in y.2 t)).
Proof.
  intros Hw Hb. eapply returns_bind; [by apply run_simplify_ret|]. intros [ok st] [Hi _]. cbn in Hi.
  destruct (sim_derived g st Hw Hi) as [D1 D2 D3 D4].
  eapply returns_mono; [by apply (enumerate_enumerated (m_graph st) D1 budget pair_filter)|]. intros y [E1 E2 _ _ _].
  pose proof (wider_plan g (m_graph st) y.2 D2 D3 E1) as HI. split; [done|]. split; [done|]. intros Hc.
  unfold Complete in Hc. destruct (_ || _); [done|]. by apply (seen_tree g y.2 HI).
Qed.

(** ** An example: a star of five nodes *)

(** The first of the greatest elements *)
Fixpoint first_max (l : list DOUBLE) (i best : nat) (b : DOUBLE) : nat :=
  match l with
  | [] => best
  | x :: l' => if SFltb b x then first_max l' (S i) i x else first_max l' (S i) best b
  end.

Lemma first_max_lt l i best b : best < i -> first_max l i best b < i + length l.
Proof. revert i best b. induction l as [|x l IH]; intros i best b H; cbn; [lia|]. destruct (SFltb b x); pose proof (IH (S i)); rewrite Nat.add_succ_r; auto. Qed.

#[local] Program Instance first_max_queue : PriorityQueue := {
  pq_top l := match l with [] => 0 | x :: l' => first_max l' 1 0 x end;
}.
Next Obligation. intros [|x l] Hl; [done|]. apply (first_max_lt l 1 0 x). lia. Qed.

#[local] Existing Instance SetHash.CBitSetHash.

Definition star_ops : list GraphOp :=
  [OpAddEdge {[0%N]} {[1%N]} 0; OpAddEdge {[0%N]} {[2%N]} 1; OpAddEdge {[0%N]} {[3%N]} 2; OpAddEdge {[0%N]} {[4%N]} 3].

Lemma star_ok : ops_ok 5 [] star_ops.
Proof. cbn. split_and!; try done; try set_solver by lia. Qed.

Definition star : CDPHyperGraph := graph_of 5 star_ops.

Definition any_edge (id : N) : bool := true.

(** A cost that grows with the sizes and the numbers of the nodes *)
Definition star_cost (a b : gset N) : option DOUBLE :=
  Some (binary_normalize 53 1024 (Z.of_nat (size a * 3 + size b) + Z.of_N (foldr N.add 0%N (elements a))) 0 false).

(** The star has 32 pairs; with a budget of 10 three steps are needed. *)
Example star_simplified :
  (fun x => (x.1, length (m_applied x.2), (fun e => (bits (m_left e), bits (m_right e), m_edge_id e)) <$> m_edges (m_graph x.2))) <$>
    run_simplify 10 None any_edge star_cost star =
  Ret (true, 3,
    [([0%N], [1%N], 0%N); ([1%N], [0%N], 0%N); ([0%N], [2%N], 1%N); ([2%N], [0%N], 1%N); ([0%N; 1%N], [3%N], 2%N); ([3%N], [0%N; 1%N], 2%N);
     ([0%N; 1%N; 2%N], [4%N], 3%N); ([4%N], [0%N; 1%N; 2%N], 3%N)]).
Proof. vm_compute. reflexivity. Qed.


Lemma simplified_plan_valid_witness :
  (x ← run_simplify 10 None any_edge star_cost star;
   p ← CDPHyperPlan_ctor 10 None;
   Enumerate (m_graph x.2) p) ⤳ (fun y => plan_inv star y.2 /\ length (m_pairs y.2) <= 10 /\
     (Complete y.2 (NodeCount star) = true -> exists t, tree_set t = nodes star /\ NoDup (tree_leaves t) /\ tree_in y.2 t)).
Proof. apply (simplified_plan_valid 10 None any_edge star_cost star); [apply graph_of_shows, star_ok|lia]. Defined.
End SimplifyProps.
