(* ===== verification/RuleEnums.v ===== *)
(** * Kinds of the rule language

    Sources: CDSLEnums.h and CDSLEnums.cpp (libgpopt/include/gpopt/dsl,
    libgpopt/src/dsl): the enumerations of the rewrite rule language and the static
    tables [CDSLOpKindTable] and [CDSLConstraintKindTable] over them. A table is
    indexed by the ordinal of the enumeration and asserts that the entry found is
    that of the kind. *)
From stdpp Require Import base numbers list strings.
From S2P Require Import Prelude.

Module RuleEnums.
Open Scope string_scope.
Open Scope nat_scope.
Open Scope outcome_scope.

Inductive EDslSymbolKind :=
  | EdslsymTable | EdslsymAttrs | EdslsymPred | EdslsymSchema | EdslsymFunc | EdslsymScalar | EdslsymExpr
  | EdslsymOrder | EdslsymWindow | EdslsymFrame | EdslsymFrameBound | EdslsymRank | EdslsymCallHead
  | EdslsymValueList | EdslsymCompareHead | EdslsymSentinel.

#[export] Instance EDslSymbolKind_eq_dec : EqDecision EDslSymbolKind.
Proof. solve_decision. Defined.

Inductive EDslOpKind :=
  | EdslopInput | EdslopInnerJoin | EdslopLeftJoin | EdslopFilter | EdslopInSubFilter | EdslopExists
  | EdslopNotExists | EdslopProj | EdslopAgg | EdslopSort | EdslopLimit | EdslopUnion | EdslopCompute
  | EdslopAny | EdslopAll | EdslopEmpty | EdslopSemiJoin | EdslopSemiApply | EdslopAntiJoin | EdslopAntiApply
  | EdslopInnerApply | EdslopLeftOuterApply | EdslopAntiJoinNotIn | EdslopAntiApplyNotIn | EdslopWindowRows
  | EdslopWindowFrame | EdslopMaxOneRow | EdslopAssertMaxOneRow | EdslopIntersect | EdslopExcept
  | EdslopRowNumber | EdslopFullJoin | EdslopCTEConsumer | EdslopCTEAnchor | EdslopBind | EdslopSentinel.

#[export] Instance EDslOpKind_eq_dec : EqDecision EDslOpKind.
Proof. solve_decision. Defined.

Inductive EDslSortDir :=
  | EdslsortNone | EdslsortAsc | EdslsortDesc | EdslsortSpec.

#[export] Instance EDslSortDir_eq_dec : EqDecision EDslSortDir.
Proof. solve_decision. Defined.

Inductive EDslAggFuncKind :=
  | EdslaggfuncUnknown | EdslaggfuncSum | EdslaggfuncAverage | EdslaggfuncCount | EdslaggfuncMax
  | EdslaggfuncMin | EdslaggfuncSentinel.

#[export] Instance EDslAggFuncKind_eq_dec : EqDecision EDslAggFuncKind.
Proof. solve_decision. Defined.

Inductive EDslSide :=
  | EdslsideSource | EdslsideTarget.

#[export] Instance EDslSide_eq_dec : EqDecision EDslSide.
Proof. solve_decision. Defined.

Inductive EDslConstraintKind :=
  | EdslconTableEq | EdslconAttrsEq | EdslconPredicateEq | EdslconSchemaEq | EdslconFuncEq | EdslconScalarEq
  | EdslconAttrsSub | EdslconUnique | EdslconNotNull | EdslconReference | EdslconErrorFree
  | EdslconDeterministic | EdslconExprListEq | EdslconExprConcat | EdslconDepsDisjoint | EdslconExprSplit
  | EdslconAttrsIntersect | EdslconPredicateFalse | EdslconScalarOne | EdslconScalarZero | EdslconAttrsEmpty
  | EdslconAttrsNonEmpty | EdslconPredicateAnd | EdslconAttrsUnion | EdslconSchemaUnion
  | EdslconMinimalGrouping | EdslconCorrelationEquality | EdslconOrderEq | EdslconWindowEq | EdslconFrameEq
  | EdslconCumulativeFrame | EdslconFullPartitionFrame | EdslconBoundedRowsFrame | EdslconRowsFrame
  | EdslconOutputAttrs | EdslconSchemaFromAttrs | EdslconPredicateDomainSplit | EdslconPredicateAny
  | EdslconPredicateAll | EdslconFuncAttrs | EdslconNullOnEmpty | EdslconEmptyInputCompensation
  | EdslconPredicateNullSafeEq | EdslconRankEq | EdslconOrderEmpty | EdslconRankAttrs | EdslconExprNulls
  | EdslconTableShared | EdslconPredicateNotTrue | EdslconPredicateNullRejecting | EdslconPredicateNot
  | EdslconSliceCompose | EdslconSentinel.

#[export] Instance EDslConstraintKind_eq_dec : EqDecision EDslConstraintKind.
Proof. solve_decision. Defined.

(** The operator ids of [COperator::EOperatorId] that the table maps to *)
Inductive EOperatorId :=
  | EopLogicalSelect | EopLogicalGbAgg | EopLogicalProject | EopLogicalInnerJoin | EopLogicalLeftOuterJoin
  | EopLogicalFullOuterJoin | EopLogicalLeftSemiJoin | EopLogicalLeftSemiApply | EopLogicalLeftAntiSemiJoin
  | EopLogicalLeftAntiSemiApply | EopLogicalLeftAntiSemiJoinNotIn | EopLogicalLeftAntiSemiApplyNotIn
  | EopLogicalInnerApply | EopLogicalLeftOuterApply | EopLogicalLeftSemiApplyIn | EopLogicalUnion
  | EopLogicalUnionAll | EopLogicalIntersect | EopLogicalIntersectAll | EopLogicalDifference
  | EopLogicalDifferenceAll | EopLogicalLimit | EopLogicalSequenceProject | EopLogicalMaxOneRow
  | EopLogicalAssert | EopLogicalConstTableGet | EopLogicalCTEConsumer | EopLogicalCTEAnchor | EopSentinel.

#[export] Instance EOperatorId_eq_dec : EqDecision EOperatorId.
Proof. solve_decision. Defined.

(** ** Operators *)

(** The ordinals of the enumerators *)
Definition op_ord (k : EDslOpKind) : nat :=
  match k with
  | EdslopInput => 0 | EdslopInnerJoin => 1 | EdslopLeftJoin => 2 | EdslopFilter => 3 | EdslopInSubFilter => 4
  | EdslopExists => 5 | EdslopNotExists => 6 | EdslopProj => 7 | EdslopAgg => 8 | EdslopSort => 9
  | EdslopLimit => 10 | EdslopUnion => 11 | EdslopCompute => 12 | EdslopAny => 13 | EdslopAll => 14
  | EdslopEmpty => 15 | EdslopSemiJoin => 16 | EdslopSemiApply => 17 | EdslopAntiJoin => 18
  | EdslopAntiApply => 19 | EdslopInnerApply => 20 | EdslopLeftOuterApply => 21 | EdslopAntiJoinNotIn => 22
  | EdslopAntiApplyNotIn => 23 | EdslopWindowRows => 24 | EdslopWindowFrame => 25 | EdslopMaxOneRow => 26
  | EdslopAssertMaxOneRow => 27 | EdslopIntersect => 28 | EdslopExcept => 29 | EdslopRowNumber => 30
  | EdslopFullJoin => 31 | EdslopCTEConsumer => 32 | EdslopCTEAnchor => 33 | EdslopBind => 34
  | EdslopSentinel => 35
  end.

Definition con_ord (k : EDslConstraintKind) : nat :=
  match k with
  | EdslconTableEq => 0 | EdslconAttrsEq => 1 | EdslconPredicateEq => 2 | EdslconSchemaEq => 3
  | EdslconFuncEq => 4 | EdslconScalarEq => 5 | EdslconAttrsSub => 6 | EdslconUnique => 7 | EdslconNotNull => 8
  | EdslconReference => 9 | EdslconErrorFree => 10 | EdslconDeterministic => 11 | EdslconExprListEq => 12
  | EdslconExprConcat => 13 | EdslconDepsDisjoint => 14 | EdslconExprSplit => 15 | EdslconAttrsIntersect => 16
  | EdslconPredicateFalse => 17 | EdslconScalarOne => 18 | EdslconScalarZero => 19 | EdslconAttrsEmpty => 20
  | EdslconAttrsNonEmpty => 21 | EdslconPredicateAnd => 22 | EdslconAttrsUnion => 23 | EdslconSchemaUnion => 24
  | EdslconMinimalGrouping => 25 | EdslconCorrelationEquality => 26 | EdslconOrderEq => 27
  | EdslconWindowEq => 28 | EdslconFrameEq => 29 | EdslconCumulativeFrame => 30
  | EdslconFullPartitionFrame => 31 | EdslconBoundedRowsFrame => 32 | EdslconRowsFrame => 33
  | EdslconOutputAttrs => 34 | EdslconSchemaFromAttrs => 35 | EdslconPredicateDomainSplit => 36
  | EdslconPredicateAny => 37 | EdslconPredicateAll => 38 | EdslconFuncAttrs => 39 | EdslconNullOnEmpty => 40
  | EdslconEmptyInputCompensation => 41 | EdslconPredicateNullSafeEq => 42 | EdslconRankEq => 43
  | EdslconOrderEmpty => 44 | EdslconRankAttrs => 45 | EdslconExprNulls => 46 | EdslconTableShared => 47
  | EdslconPredicateNotTrue => 48 | EdslconPredicateNullRejecting => 49 | EdslconPredicateNot => 50
  | EdslconSliceCompose => 51 | EdslconSentinel => 52
  end.

Record SDslOpDesc := mkOpDesc {
  d_edslop : EDslOpKind;
  d_sz_name : string;
  d_ul_children : nat;
  d_ul_syms : nat;
  d_rgesymk : list EDslSymbolKind;
}.

Definition rg_op_desc : list SDslOpDesc := [
  mkOpDesc EdslopInput "Input" 0 1 [EdslsymTable];
  mkOpDesc EdslopInnerJoin "InnerJoin" 2 7 [EdslsymAttrs; EdslsymAttrs; EdslsymAttrs; EdslsymSchema; EdslsymPred; EdslsymAttrs; EdslsymAttrs];
  mkOpDesc EdslopLeftJoin "LeftJoin" 2 7 [EdslsymAttrs; EdslsymAttrs; EdslsymAttrs; EdslsymSchema; EdslsymPred; EdslsymAttrs; EdslsymAttrs];
  mkOpDesc EdslopFilter "Filter" 1 3 [EdslsymPred; EdslsymAttrs; EdslsymAttrs];
  mkOpDesc EdslopInSubFilter "InSubFilter" 2 5 [EdslsymAttrs; EdslsymAttrs; EdslsymPred; EdslsymAttrs; EdslsymAttrs];
  mkOpDesc EdslopExists "Exists" 2 0 [];
  mkOpDesc EdslopNotExists "NotExists" 2 0 [];
  mkOpDesc EdslopProj "Proj" 1 2 [EdslsymAttrs; EdslsymSchema];
  mkOpDesc EdslopAgg "Agg" 1 6 [EdslsymAttrs; EdslsymAttrs; EdslsymAttrs; EdslsymFunc; EdslsymSchema; EdslsymPred];
  mkOpDesc EdslopSort "Sort" 1 1 [EdslsymAttrs];
  mkOpDesc EdslopLimit "Limit" 1 2 [EdslsymScalar; EdslsymScalar];
  mkOpDesc EdslopUnion "Union" 2 4 [EdslsymAttrs; EdslsymSchema; EdslsymAttrs; EdslsymAttrs];
  mkOpDesc EdslopCompute "Compute" 1 3 [EdslsymExpr; EdslsymAttrs; EdslsymSchema];
  mkOpDesc EdslopAny "Any" 2 2 [EdslsymPred; EdslsymAttrs];
  mkOpDesc EdslopAll "All" 2 2 [EdslsymPred; EdslsymAttrs];
  mkOpDesc EdslopEmpty "Empty" 0 1 [EdslsymTable];
  mkOpDesc EdslopSemiJoin "SemiJoin" 2 3 [EdslsymPred; EdslsymAttrs; EdslsymAttrs];
  mkOpDesc EdslopSemiApply "SemiApply" 2 4 [EdslsymPred; EdslsymAttrs; EdslsymAttrs; EdslsymAttrs];
  mkOpDesc EdslopAntiJoin "AntiJoin" 2 3 [EdslsymPred; EdslsymAttrs; EdslsymAttrs];
  mkOpDesc EdslopAntiApply "AntiApply" 2 4 [EdslsymPred; EdslsymAttrs; EdslsymAttrs; EdslsymAttrs];
  mkOpDesc EdslopInnerApply "InnerApply" 2 4 [EdslsymPred; EdslsymAttrs; EdslsymAttrs; EdslsymAttrs];
  mkOpDesc EdslopLeftOuterApply "LeftApply" 2 4 [EdslsymPred; EdslsymAttrs; EdslsymAttrs; EdslsymAttrs];
  mkOpDesc EdslopAntiJoinNotIn "AntiJoinNotIn" 2 6 [EdslsymPred; EdslsymAttrs; EdslsymAttrs; EdslsymPred; EdslsymAttrs; EdslsymAttrs];
  mkOpDesc EdslopAntiApplyNotIn "AntiApplyNotIn" 2 4 [EdslsymPred; EdslsymAttrs; EdslsymAttrs; EdslsymAttrs];
  mkOpDesc EdslopWindowRows "WindowRows" 1 3 [EdslsymAttrs; EdslsymOrder; EdslsymWindow];
  mkOpDesc EdslopWindowFrame "Window" 1 4 [EdslsymAttrs; EdslsymOrder; EdslsymFrame; EdslsymWindow];
  mkOpDesc EdslopMaxOneRow "MaxOneRow" 1 0 [];
  mkOpDesc EdslopAssertMaxOneRow "AssertMaxOneRow" 1 0 [];
  mkOpDesc EdslopIntersect "Intersect" 2 4 [EdslsymAttrs; EdslsymSchema; EdslsymAttrs; EdslsymAttrs];
  mkOpDesc EdslopExcept "Except" 2 4 [EdslsymAttrs; EdslsymSchema; EdslsymAttrs; EdslsymAttrs];
  mkOpDesc EdslopRowNumber "RowNumber" 1 3 [EdslsymAttrs; EdslsymOrder; EdslsymRank];
  mkOpDesc EdslopFullJoin "FullJoin" 2 7 [EdslsymAttrs; EdslsymAttrs; EdslsymAttrs; EdslsymSchema; EdslsymPred; EdslsymAttrs; EdslsymAttrs];
  mkOpDesc EdslopCTEConsumer "CTEConsumer" 0 1 [EdslsymTable];
  mkOpDesc EdslopCTEAnchor "CTEAnchor" 1 0 [];
  mkOpDesc EdslopBind "Bind" 1 2 [EdslsymScalar; EdslsymAttrs]].

Definition PdescOp (edslop : EDslOpKind) : outcome SDslOpDesc :=
  _ ← GPOS_ASSERT (bool_decide (edslop <> EdslopSentinel));
  d ← subscript rg_op_desc (op_ord edslop);
  _ ← GPOS_ASSERT (bool_decide (d_edslop d = edslop));
  mret d.

Definition OpSzName (edslop : EDslOpKind) : outcome string := d_sz_name <$> PdescOp edslop.
Definition UlChildren (edslop : EDslOpKind) : outcome nat := d_ul_children <$> PdescOp edslop.
Definition UlSyms (edslop : EDslOpKind) : outcome nat := d_ul_syms <$> PdescOp edslop.

Definition EsymkindAt (edslop : EDslOpKind) (ul : nat) : outcome EDslSymbolKind :=
  pdesc ← PdescOp edslop;
  _ ← GPOS_ASSERT (ul <? d_ul_syms pdesc);
  subscript (d_rgesymk pdesc) ul.

Definition Eopid (edslop : EDslOpKind) (fDistinct : bool) : EOperatorId :=
  match edslop with
  | EdslopFilter => EopLogicalSelect
  | EdslopProj => if fDistinct then EopLogicalGbAgg else EopLogicalProject
  | EdslopCompute => EopLogicalProject
  | EdslopInnerJoin => EopLogicalInnerJoin
  | EdslopLeftJoin => EopLogicalLeftOuterJoin
  | EdslopFullJoin => EopLogicalFullOuterJoin
  | EdslopSemiJoin => EopLogicalLeftSemiJoin
  | EdslopSemiApply => EopLogicalLeftSemiApply
  | EdslopAntiJoin => EopLogicalLeftAntiSemiJoin
  | EdslopAntiApply => EopLogicalLeftAntiSemiApply
  | EdslopAntiJoinNotIn => EopLogicalLeftAntiSemiJoinNotIn
  | EdslopAntiApplyNotIn => EopLogicalLeftAntiSemiApplyNotIn
  | EdslopInnerApply => EopLogicalInnerApply
  | EdslopLeftOuterApply => EopLogicalLeftOuterApply
  | EdslopAgg => EopLogicalGbAgg
  | EdslopExists => EopLogicalLeftSemiApply
  | EdslopNotExists => EopLogicalLeftAntiSemiApply
  | EdslopInSubFilter => EopLogicalLeftSemiApplyIn
  | EdslopAny => EopLogicalLeftSemiApplyIn
  | EdslopAll => EopLogicalLeftAntiSemiApplyNotIn
  | EdslopUnion => if fDistinct then EopLogicalUnion else EopLogicalUnionAll
  | EdslopIntersect => if fDistinct then EopLogicalIntersect else EopLogicalIntersectAll
  | EdslopExcept => if fDistinct then EopLogicalDifference else EopLogicalDifferenceAll
  | EdslopSort | EdslopLimit => EopLogicalLimit
  | EdslopWindowRows | EdslopWindowFrame | EdslopRowNumber => EopLogicalSequenceProject
  | EdslopMaxOneRow => EopLogicalMaxOneRow
  | EdslopAssertMaxOneRow => EopLogicalAssert
  | EdslopEmpty => EopLogicalConstTableGet
  | EdslopCTEConsumer => EopLogicalCTEConsumer
  | EdslopCTEAnchor => EopLogicalCTEAnchor
  | _ => EopSentinel
  end.

Definition FHasPreUnnestRepresentation (edslop : EDslOpKind) : bool :=
  match edslop with
  | EdslopExists | EdslopNotExists | EdslopInSubFilter | EdslopAny | EdslopAll => true
  | _ => false
  end.

Definition FMatcherSupported (edslop : EDslOpKind) : bool :=
  match edslop with
  | EdslopInput | EdslopInnerJoin | EdslopLeftJoin | EdslopFullJoin | EdslopFilter | EdslopInSubFilter
  | EdslopExists | EdslopNotExists | EdslopAny | EdslopAll | EdslopProj | EdslopAgg | EdslopUnion
  | EdslopIntersect | EdslopExcept | EdslopSort | EdslopLimit | EdslopCompute | EdslopEmpty | EdslopSemiJoin
  | EdslopSemiApply | EdslopAntiJoin | EdslopAntiApply | EdslopAntiJoinNotIn | EdslopAntiApplyNotIn
  | EdslopInnerApply | EdslopLeftOuterApply | EdslopWindowRows | EdslopWindowFrame | EdslopRowNumber
  | EdslopMaxOneRow | EdslopCTEConsumer | EdslopCTEAnchor => true
  | EdslopAssertMaxOneRow | EdslopSentinel | EdslopBind => false
  end.

Definition FInstantiatorSupported (edslop : EDslOpKind) : bool :=
  match edslop with
  | EdslopInput | EdslopInnerJoin | EdslopLeftJoin | EdslopFullJoin | EdslopFilter | EdslopInSubFilter
  | EdslopExists | EdslopNotExists | EdslopAny | EdslopAll | EdslopProj | EdslopAgg | EdslopUnion
  | EdslopIntersect | EdslopExcept | EdslopSort | EdslopLimit | EdslopCompute | EdslopEmpty | EdslopSemiJoin
  | EdslopSemiApply | EdslopAntiJoin | EdslopAntiApply | EdslopAntiJoinNotIn | EdslopAntiApplyNotIn
  | EdslopInnerApply | EdslopLeftOuterApply | EdslopWindowRows | EdslopWindowFrame | EdslopRowNumber
  | EdslopAssertMaxOneRow | EdslopBind => true
  | EdslopMaxOneRow | EdslopCTEConsumer | EdslopCTEAnchor | EdslopSentinel => false
  end.

Definition FSourceRootDispatchSupported (edslop : EDslOpKind) (fDistinct : bool) : bool :=
  bool_decide (edslop <> EdslopInput) && FMatcherSupported edslop && bool_decide (Eopid edslop fDistinct <> EopSentinel).

(** [CDSLOpKindTable::Parse]: the kind, the star, the direction and the aggregate
    function of an operator token *)
Definition rg_alias : list (string * EDslOpKind * EDslSortDir) := [
  ("Input", EdslopInput, EdslsortNone); ("CTEConsumer", EdslopCTEConsumer, EdslsortNone);
  ("CTEAnchor", EdslopCTEAnchor, EdslsortNone); ("Empty", EdslopEmpty, EdslsortNone);
  ("InnerJoin", EdslopInnerJoin, EdslsortNone); ("LeftJoin", EdslopLeftJoin, EdslsortNone);
  ("FullJoin", EdslopFullJoin, EdslsortNone); ("FullOuterJoin", EdslopFullJoin, EdslsortNone);
  ("SemiJoin", EdslopSemiJoin, EdslsortNone); ("LeftSemiJoin", EdslopSemiJoin, EdslsortNone);
  ("SemiApply", EdslopSemiApply, EdslsortNone); ("LeftSemiApply", EdslopSemiApply, EdslsortNone);
  ("AntiJoin", EdslopAntiJoin, EdslsortNone); ("LeftAntiSemiJoin", EdslopAntiJoin, EdslsortNone);
  ("AntiApply", EdslopAntiApply, EdslsortNone); ("LeftAntiSemiApply", EdslopAntiApply, EdslsortNone);
  ("AntiJoinNotIn", EdslopAntiJoinNotIn, EdslsortNone);
  ("LeftAntiSemiJoinNotIn", EdslopAntiJoinNotIn, EdslsortNone);
  ("AntiApplyNotIn", EdslopAntiApplyNotIn, EdslsortNone);
  ("LeftAntiSemiApplyNotIn", EdslopAntiApplyNotIn, EdslsortNone);
  ("InnerApply", EdslopInnerApply, EdslsortNone); ("LeftApply", EdslopLeftOuterApply, EdslsortNone);
  ("LeftOuterApply", EdslopLeftOuterApply, EdslsortNone); ("Filter", EdslopFilter, EdslsortNone);
  ("PlainFilter", EdslopFilter, EdslsortNone); ("SimpleFilter", EdslopFilter, EdslsortNone);
  ("InSubFilter", EdslopInSubFilter, EdslsortNone); ("SubqueryFilter", EdslopInSubFilter, EdslsortNone);
  ("InSub", EdslopInSubFilter, EdslsortNone); ("Exists", EdslopExists, EdslsortNone);
  ("ExistsFilter", EdslopExists, EdslsortNone); ("NotExists", EdslopNotExists, EdslsortNone);
  ("NotExistsFilter", EdslopNotExists, EdslsortNone); ("Any", EdslopAny, EdslsortNone);
  ("AnyFilter", EdslopAny, EdslsortNone); ("All", EdslopAll, EdslsortNone);
  ("AllFilter", EdslopAll, EdslsortNone); ("Proj", EdslopProj, EdslsortNone);
  ("Compute", EdslopCompute, EdslsortNone); ("Bind", EdslopBind, EdslsortNone);
  ("Agg", EdslopAgg, EdslsortNone); ("Agg_sum", EdslopAgg, EdslsortNone);
  ("Agg_average", EdslopAgg, EdslsortNone); ("Agg_count", EdslopAgg, EdslsortNone);
  ("Agg_max", EdslopAgg, EdslsortNone); ("Agg_min", EdslopAgg, EdslsortNone);
  ("Union", EdslopUnion, EdslsortNone); ("Intersect", EdslopIntersect, EdslsortNone);
  ("Except", EdslopExcept, EdslsortNone); ("Limit", EdslopLimit, EdslsortNone);
  ("Sort", EdslopSort, EdslsortNone); ("SortAsc", EdslopSort, EdslsortAsc);
  ("SortDesc", EdslopSort, EdslsortDesc); ("SortBy", EdslopSort, EdslsortSpec);
  ("WindowRows", EdslopWindowRows, EdslsortNone); ("Window", EdslopWindowFrame, EdslsortNone);
  ("RowNumber", EdslopRowNumber, EdslsortNone); ("MaxOneRow", EdslopMaxOneRow, EdslsortNone);
  ("AssertMaxOneRow", EdslopAssertMaxOneRow, EdslsortNone)].

(** The copy of the token in a buffer of 64 characters, its last one 0 *)
Definition buffer63 (sz : string) : string := String.substring 0 63 sz.

Definition last_is_star (s : string) : bool :=
  bool_decide (String.substring (String.length s - 1) 1 s = "*").

Definition agg_of_token (rgch : string) : EDslAggFuncKind :=
  if String.eqb rgch "Agg_sum" then EdslaggfuncSum
  else if String.eqb rgch "Agg_average" then EdslaggfuncAverage
  else if String.eqb rgch "Agg_count" then EdslaggfuncCount
  else if String.eqb rgch "Agg_max" then EdslaggfuncMax
  else if String.eqb rgch "Agg_min" then EdslaggfuncMin
  else EdslaggfuncUnknown.

Definition star_allowed (edslop : EDslOpKind) (agg : EDslAggFuncKind) : bool :=
  match edslop with
  | EdslopProj | EdslopUnion | EdslopIntersect | EdslopExcept => true
  | EdslopAgg => bool_decide (agg = EdslaggfuncCount)
  | _ => false
  end.

Definition OpParse (sz_token : string) : EDslOpKind * bool * EDslSortDir * EDslAggFuncKind :=
  let rgch := buffer63 sz_token in
  let fStar := (0 <? String.length rgch) && last_is_star rgch in
  let rgch := if fStar then String.substring 0 (String.length rgch - 1) rgch else rgch in
  match List.find (fun a => String.eqb rgch a.1.1) rg_alias with
  | Some (_, edslop, edslsort) =>
      let agg := agg_of_token rgch in
      if fStar && negb (star_allowed edslop agg) then (EdslopSentinel, fStar, EdslsortNone, agg)
      else (edslop, fStar, edslsort, agg)
  | None => (EdslopSentinel, fStar, EdslsortNone, EdslaggfuncUnknown)
  end.

(** The null result for a kind without a name is [None]. *)
Definition SzAggFuncName (edslaggfunc : EDslAggFuncKind) : option string :=
  match edslaggfunc with
  | EdslaggfuncSum => Some "sum"
  | EdslaggfuncAverage => Some "average"
  | EdslaggfuncCount => Some "count"
  | EdslaggfuncMax => Some "max"
  | EdslaggfuncMin => Some "min"
  | _ => None
  end.

(** ** Constraints *)

Record SDslConDesc := mkConDesc {
  d_edslcon : EDslConstraintKind;
  d_con_name : string;
  d_ul_arity : nat;
}.

Definition rg_con_desc : list SDslConDesc := [
  mkConDesc EdslconTableEq "TableEq" 2; mkConDesc EdslconAttrsEq "AttrsEq" 2;
  mkConDesc EdslconPredicateEq "PredicateEq" 2; mkConDesc EdslconSchemaEq "SchemaEq" 2;
  mkConDesc EdslconFuncEq "FuncEq" 2; mkConDesc EdslconScalarEq "ScalarEq" 2;
  mkConDesc EdslconAttrsSub "AttrsSub" 2; mkConDesc EdslconUnique "Unique" 2;
  mkConDesc EdslconNotNull "NotNull" 2; mkConDesc EdslconReference "Reference" 4;
  mkConDesc EdslconErrorFree "ErrorFree" 1; mkConDesc EdslconDeterministic "Deterministic" 1;
  mkConDesc EdslconExprListEq "ExprListEq" 2; mkConDesc EdslconExprConcat "ExprConcat" 3;
  mkConDesc EdslconDepsDisjoint "DepsDisjoint" 2; mkConDesc EdslconExprSplit "ExprSplit" 4;
  mkConDesc EdslconAttrsIntersect "AttrsIntersect" 3; mkConDesc EdslconPredicateFalse "PredicateFalse" 1;
  mkConDesc EdslconScalarOne "ScalarOne" 1; mkConDesc EdslconScalarZero "ScalarZero" 1;
  mkConDesc EdslconAttrsEmpty "AttrsEmpty" 1; mkConDesc EdslconAttrsNonEmpty "AttrsNonEmpty" 1;
  mkConDesc EdslconPredicateAnd "PredicateAnd" 3; mkConDesc EdslconAttrsUnion "AttrsUnion" 3;
  mkConDesc EdslconSchemaUnion "SchemaUnion" 3; mkConDesc EdslconMinimalGrouping "MinimalGrouping" 2;
  mkConDesc EdslconCorrelationEquality "CorrelationEquality" 3; mkConDesc EdslconOrderEq "OrderEq" 2;
  mkConDesc EdslconWindowEq "WindowEq" 2; mkConDesc EdslconFrameEq "FrameEq" 2;
  mkConDesc EdslconCumulativeFrame "CumulativeFrame" 1;
  mkConDesc EdslconFullPartitionFrame "FullPartitionFrame" 1;
  mkConDesc EdslconBoundedRowsFrame "BoundedRowsFrame" 3; mkConDesc EdslconRowsFrame "RowsFrame" 3;
  mkConDesc EdslconOutputAttrs "OutputAttrs" 2; mkConDesc EdslconSchemaFromAttrs "SchemaFromAttrs" 2;
  mkConDesc EdslconPredicateDomainSplit "PredicateDomainSplit" 9;
  mkConDesc EdslconPredicateAny "PredicateAny" 4; mkConDesc EdslconPredicateAll "PredicateAll" 4;
  mkConDesc EdslconFuncAttrs "FuncAttrs" 2; mkConDesc EdslconNullOnEmpty "NullOnEmpty" 1;
  mkConDesc EdslconEmptyInputCompensation "EmptyInputCompensation" 4;
  mkConDesc EdslconPredicateNullSafeEq "PredicateNullSafeEq" 3; mkConDesc EdslconRankEq "RankEq" 2;
  mkConDesc EdslconOrderEmpty "OrderEmpty" 1; mkConDesc EdslconRankAttrs "RankAttrs" 2;
  mkConDesc EdslconExprNulls "ExprNulls" 3; mkConDesc EdslconTableShared "TableShared" 2;
  mkConDesc EdslconPredicateNotTrue "PredicateNotTrue" 2;
  mkConDesc EdslconPredicateNullRejecting "PredicateNullRejecting" 2;
  mkConDesc EdslconPredicateNot "PredicateNot" 2; mkConDesc EdslconSliceCompose "SliceCompose" 6].

Definition PdescCon (edslcon : EDslConstraintKind) : outcome SDslConDesc :=
  _ ← GPOS_ASSERT (bool_decide (edslcon <> EdslconSentinel));
  d ← subscript rg_con_desc (con_ord edslcon);
  _ ← GPOS_ASSERT (bool_decide (d_edslcon d = edslcon));
  mret d.

Definition ConSzName (edslcon : EDslConstraintKind) : outcome string := d_con_name <$> PdescCon edslcon.

(** [UlArity] does not assert that the entry is that of the kind. *)
Definition UlArity (edslcon : EDslConstraintKind) : outcome nat :=
  _ ← GPOS_ASSERT (bool_decide (edslcon <> EdslconSentinel));
  d_ul_arity <$> subscript rg_con_desc (con_ord edslcon).

Definition EsymkindDerivedOutput (edslcon : EDslConstraintKind) (ulPosition : nat) : EDslSymbolKind :=
  match edslcon with
  | EdslconPredicateAnd | EdslconPredicateNotTrue | EdslconPredicateNot
  | EdslconPredicateNullSafeEq | EdslconPredicateAny | EdslconPredicateAll =>
      if ulPosition =? 0 then EdslsymPred else EdslsymSentinel
  | EdslconAttrsIntersect | EdslconAttrsUnion | EdslconFuncAttrs | EdslconRankAttrs =>
      if ulPosition =? 0 then EdslsymAttrs else EdslsymSentinel
  | EdslconSchemaUnion => if ulPosition =? 0 then EdslsymSchema else EdslsymSentinel
  | EdslconExprConcat => if ulPosition =? 0 then EdslsymExpr else EdslsymSentinel
  | EdslconExprNulls =>
      if ulPosition =? 0 then EdslsymExpr else if ulPosition =? 2 then EdslsymAttrs else EdslsymSentinel
  | EdslconScalarOne | EdslconScalarZero => if ulPosition =? 0 then EdslsymScalar else EdslsymSentinel
  | EdslconSliceCompose => if (ulPosition =? 4) || (ulPosition =? 5) then EdslsymScalar else EdslsymSentinel
  | EdslconOrderEmpty => if ulPosition =? 0 then EdslsymOrder else EdslsymSentinel
  | EdslconBoundedRowsFrame =>
      if (ulPosition =? 1) || (ulPosition =? 2) then EdslsymScalar else EdslsymSentinel
  | EdslconRowsFrame => if (ulPosition =? 1) || (ulPosition =? 2) then EdslsymFrameBound else EdslsymSentinel
  | EdslconAttrsEmpty | EdslconAttrsNonEmpty | EdslconOutputAttrs =>
      if ulPosition =? 0 then EdslsymAttrs else EdslsymSentinel
  | EdslconSchemaFromAttrs => if ulPosition =? 0 then EdslsymSchema else EdslsymSentinel
  | EdslconPredicateDomainSplit =>
      if (ulPosition =? 1) || (ulPosition =? 2) then EdslsymPred
      else if (3 <=? ulPosition) && (ulPosition <=? 6) then EdslsymAttrs else EdslsymSentinel
  | _ => EdslsymSentinel
  end.

Definition EdslconEquality (esymkind : EDslSymbolKind) : EDslConstraintKind :=
  match esymkind with
  | EdslsymTable => EdslconTableEq
  | EdslsymAttrs => EdslconAttrsEq
  | EdslsymPred => EdslconPredicateEq
  | EdslsymSchema => EdslconSchemaEq
  | EdslsymFunc => EdslconFuncEq
  | EdslsymScalar => EdslconScalarEq
  | EdslsymExpr => EdslconExprListEq
  | EdslsymOrder => EdslconOrderEq
  | EdslsymWindow => EdslconWindowEq
  | EdslsymFrame => EdslconFrameEq
  | EdslsymRank => EdslconRankEq
  | _ => EdslconSentinel
  end.

(** [CDSLConstraintKindTable::Parse], which takes Pick... for Attrs... and ExprEq
    for ExprListEq. *)
Definition ConParse (sz_name : string) : EDslConstraintKind :=
  let sz_name := if String.eqb (String.substring 0 4 sz_name) "Pick"
                 then "Attrs" +:+ String.substring 4 58 sz_name else sz_name in
  let sz_name := if String.eqb sz_name "ExprEq" then "ExprListEq" else sz_name in
  match List.find (fun d => String.eqb sz_name (d_con_name d)) rg_con_desc with
  | Some d => d_edslcon d
  | None => EdslconSentinel
  end.

Definition FCheckerSupported (edslcon : EDslConstraintKind) : bool :=
  match edslcon with
  | EdslconTableEq | EdslconAttrsEq | EdslconPredicateEq | EdslconSchemaEq | EdslconFuncEq | EdslconScalarEq
  | EdslconAttrsSub | EdslconUnique | EdslconNotNull | EdslconReference | EdslconErrorFree
  | EdslconDeterministic | EdslconExprListEq | EdslconExprConcat | EdslconExprNulls | EdslconTableShared
  | EdslconPredicateNotTrue | EdslconPredicateNot | EdslconPredicateNullRejecting | EdslconDepsDisjoint
  | EdslconExprSplit | EdslconAttrsIntersect | EdslconPredicateFalse | EdslconScalarOne | EdslconSliceCompose
  | EdslconScalarZero | EdslconAttrsEmpty | EdslconAttrsNonEmpty | EdslconPredicateAnd | EdslconAttrsUnion
  | EdslconSchemaUnion | EdslconMinimalGrouping | EdslconCorrelationEquality | EdslconOrderEq
  | EdslconWindowEq | EdslconFrameEq | EdslconCumulativeFrame | EdslconFullPartitionFrame
  | EdslconBoundedRowsFrame | EdslconRowsFrame | EdslconOutputAttrs | EdslconSchemaFromAttrs
  | EdslconPredicateDomainSplit | EdslconPredicateAny | EdslconPredicateAll | EdslconFuncAttrs
  | EdslconNullOnEmpty | EdslconEmptyInputCompensation | EdslconPredicateNullSafeEq | EdslconRankEq
  | EdslconOrderEmpty | EdslconRankAttrs => true
  | EdslconSentinel => false
  end.

Definition FScalarLiteral (kind : EDslConstraintKind) : bool :=
  match kind with
  | EdslconScalarOne | EdslconScalarZero => true
  | _ => false
  end.

Definition FColumnDerivation (kind : EDslConstraintKind) : bool :=
  match kind with
  | EdslconAttrsEmpty | EdslconAttrsUnion | EdslconSchemaUnion | EdslconAttrsIntersect | EdslconOutputAttrs
  | EdslconSchemaFromAttrs | EdslconFuncAttrs => true
  | _ => false
  end.

Definition FBindingMetadata (kind : EDslConstraintKind) : bool :=
  FColumnDerivation kind || FScalarLiteral kind ||
  match kind with
  | EdslconOrderEmpty | EdslconRankAttrs | EdslconPredicateDomainSplit | EdslconPredicateAnd
  | EdslconSliceCompose => true
  | _ => false
  end.

End RuleEnums.
