(* ===== verification/RuleSyntax.v ===== *)
(** * Concrete syntax of the rule language

    Source: the grammar libgpopt/src/dsl/DSLRule.g4. The lexer and the parser are
    generated from it by ANTLR and are not part of the repository; they are the
    class [Antlr], with what the grammar says of them as its laws. RuleGrammar.v
    has an instance. Parse trees have the names of the grammar rules. *)
From Stdlib Require Import Ascii.
From stdpp Require Import base numbers list strings option.
From S2P Require Import Prelude.

Module RuleSyntax.
Open Scope string_scope.
Open Scope nat_scope.
Open Scope list_scope.

(** ** Tokens *)

Inductive token :=
  | BAR | STAR | LP | RP | LT | GT | COMMA | SEMI | BIND
  | SYMBOL (text : string)
  | ID (text : string).

#[export] Instance token_eq_dec : EqDecision token.
Proof. solve_decision. Defined.

Definition lexeme (t : token) : string :=
  match t with
  | BAR => "|" | STAR => "*" | LP => "(" | RP => ")" | LT => "<" | GT => ">" | COMMA => "," | SEMI => ";"
  | BIND => ":=" | SYMBOL s => s | ID s => s
  end.

Definition in_range (lo hi c : Ascii.ascii) : bool :=
  N.leb (Ascii.N_of_ascii lo) (Ascii.N_of_ascii c) && N.leb (Ascii.N_of_ascii c) (Ascii.N_of_ascii hi).
Definition is_lower (c : Ascii.ascii) : bool := in_range "a"%char "z"%char c.
Definition is_letter (c : Ascii.ascii) : bool := is_lower c || in_range "A"%char "Z"%char c.
Definition is_digit (c : Ascii.ascii) : bool := in_range "0"%char "9"%char c.
Definition is_word (c : Ascii.ascii) : bool := is_letter c || Ascii.eqb c "_"%char.

Fixpoint all_chars (P : Ascii.ascii -> bool) (s : string) : bool :=
  match s with EmptyString => true | String c r => P c && all_chars P r end.

(** The lexer rules SYMBOL and ID *)
Definition symbol_text (s : string) : bool :=
  match s with String c (String d r) => is_lower c && is_digit d && all_chars is_digit r | _ => false end.
Definition id_text (s : string) : bool :=
  match s with String c r => is_letter c && all_chars is_word r | EmptyString => false end.

Definition token_ok (t : token) : bool :=
  match t with SYMBOL s => symbol_text s | ID s => id_text s | _ => true end.

(** ** Parse trees *)

#[warnings="-register-all"]
Inductive term :=
  | Sym (s : string)
  | CallTerm (id : string) (args : list term).

#[warnings="-register-all"]
Inductive op := Op (id : string) (star : bool) (symlist : option (list term)) (children : list op).

Record call := mkCall { c_id : string; c_args : list string }.
Record constraint := mkCon { n_id : string; n_syms : list string }.

(** [call BIND SYMBOL], [SYMBOL BIND call] and [SYMBOL BIND SYMBOL] *)
Inductive binding :=
  | BindMatch (c : call) (out : string)
  | BindBuild (out : string) (c : call)
  | BindRef (out input : string).

Inductive item := ICon (c : constraint) | IBind (b : binding).

Record rule_tree := mkTree {
  t_source : op;
  t_target : op;
  t_bar : bool;
  t_constraints : option (list item);
}.

Definition call_eq_dec : EqDecision call.
Proof. solve_decision. Defined.
#[export] Existing Instance call_eq_dec.
#[export] Instance binding_eq_dec : EqDecision binding.
Proof. solve_decision. Defined.

(** The lists [ctx->constraint()] and [ctx->binding()] of a context *)
Definition tree_constraints (t : rule_tree) : list constraint :=
  omap (fun i => match i with ICon c => Some c | IBind _ => None end) (default [] (t_constraints t)).
Definition tree_bindings (t : rule_tree) : list binding :=
  omap (fun i => match i with ICon _ => None | IBind b => Some b end) (default [] (t_constraints t)).

(** ** Yields *)

Definition sep_by {A} (sep : token) (f : A -> list token) : list A -> list token :=
  fix go l :=
    match l with
    | [] => []
    | [a] => f a
    | a :: l' => f a ++ sep :: go l'
    end.

Fixpoint y_term (t : term) : list token :=
  match t with
  | Sym s => [SYMBOL s]
  | CallTerm i args => ID i :: LP :: sep_by COMMA y_term args ++ [RP]
  end.

Definition y_symlist (l : option (list term)) : list token :=
  match l with Some ts => LT :: concat (map y_term ts) ++ [GT] | None => [] end.

Fixpoint y_op (o : op) : list token :=
  match o with
  | Op i star l children =>
      ID i :: (if star then [STAR] else []) ++ y_symlist l ++
      match children with [] => [] | _ => LP :: sep_by COMMA y_op children ++ [RP] end
  end.

Definition y_syms (l : list string) : list token := LP :: sep_by COMMA (fun s => [SYMBOL s]) l ++ [RP].
Definition y_call (c : call) : list token := ID (c_id c) :: y_syms (c_args c).

Definition y_item (i : item) : list token :=
  match i with
  | ICon c => ID (n_id c) :: y_syms (n_syms c)
  | IBind (BindMatch c s) => y_call c ++ [BIND; SYMBOL s]
  | IBind (BindBuild s c) => SYMBOL s :: BIND :: y_call c
  | IBind (BindRef s r) => [SYMBOL s; BIND; SYMBOL r]
  end.

Definition y_constraints (l : list item) : list token := sep_by SEMI y_item l.

Definition y_rule (t : rule_tree) : list token :=
  y_op (t_source t) ++ BAR :: y_op (t_target t) ++
  (if t_bar t then [BAR] else []) ++ match t_constraints t with Some l => y_constraints l | None => [] end.

(** ** Trees of the grammar: nonempty lists where it says so, and the lexemes of
    the lexer rules *)

Fixpoint op_shape (o : op) : bool :=
  match o with
  | Op _ _ l children => match l with Some [] => false | _ => true end && forallb op_shape children
  end.

Definition item_shape (i : item) : bool :=
  match i with ICon c => negb (bool_decide (n_syms c = [])) | IBind _ => true end.

Record tree_ok (t : rule_tree) : Prop := {
  ok_source : op_shape (t_source t) = true;
  ok_target : op_shape (t_target t) = true;
  ok_constraints : forall l, t_constraints t = Some l -> t_bar t = true /\ l <> [] /\ Forall (fun i => item_shape i = true) l;
  ok_tokens : Forall (fun k => token_ok k = true) (y_rule t);
}.

(** ** Texts: tokens with blanks between some of them *)

Inductive piece := T (t : token) | Blank.

Definition text_of (ps : list piece) : string :=
  foldr (fun p s => match p with T t => lexeme t +:+ s | Blank => " " +:+ s end) "" ps.
Definition toks (ps : list piece) : list token :=
  omap (fun p => match p with T t => Some t | Blank => None end) ps.

Definition wordy (p : piece) : bool := match p with T (SYMBOL _) | T (ID _) => true | _ => false end.

(** No two words next to each other *)
Fixpoint spaced (ps : list piece) : bool :=
  match ps with
  | p :: (q :: _) as r => negb (wordy p && wordy q) && spaced r
  | _ => true
  end.

(** [getText()] of a context: the lexemes of its tokens *)
Definition get_text (ts : list token) : string := text_of (map T ts).

(** ** The generated parser: a tree, or syntax errors *)

Class Antlr := antlr_rule : string -> option rule_tree.

Class AntlrLaws `{Antlr} : Prop := {
  antlr_tree_ok s t : antlr_rule s = Some t -> tree_ok t;
  antlr_text ps t : tree_ok t -> spaced ps = true -> toks ps = y_rule t -> antlr_rule (text_of ps) = Some t;
}.
End RuleSyntax.
