(* ===== verification/RuleGrammar.v ===== *)
(** * A parser of the rule grammar

    Source: libgpopt/src/dsl/DSLRule.g4. A lexer that takes the longest token and a
    recursive descent parser, one function per rule of the grammar. They implement
    the interface of the generated parser ([Antlr] of RuleSyntax.v): the parser
    reads back every text of a tree, and what it returns is a tree of the grammar. *)
From Stdlib Require Import Ascii.
From stdpp Require Import base numbers list strings option.
From S2P Require Import Prelude RuleSyntax.

Module RuleGrammar.
Import RuleSyntax.
Open Scope string_scope.
Open Scope nat_scope.
Open Scope list_scope.

#[local] Arguments String.append !_ _ /.

(** ** Lexer *)

(** The state between two characters: the token read so far *)
Inductive lex_state := Start | InId (w : string) | InSym (w : string) | InColon.

Definition start (c : ascii) : option (list token * lex_state) :=
  if is_letter c then Some ([], InId (String c ""))
  else
    match c with
    | "|"%char => Some ([BAR], Start)
    | "*"%char => Some ([STAR], Start)
    | "("%char => Some ([LP], Start)
    | ")"%char => Some ([RP], Start)
    | "<"%char => Some ([LT], Start)
    | ">"%char => Some ([GT], Start)
    | ","%char => Some ([COMMA], Start)
    | ";"%char => Some ([SEMI], Start)
    | ":"%char => Some ([], InColon)
    | " "%char | "009"%char | "013"%char | "010"%char => Some ([], Start)
    | _ => None
    end.

Definition single_lower (w : string) : bool :=
  match w with String c EmptyString => is_lower c | _ => false end.

Definition step (st : lex_state) (c : ascii) : option (list token * lex_state) :=
  match st with
  | Start => start c
  | InId w =>
      if is_word c then Some ([], InId (w +:+ String c ""))
      else if single_lower w && is_digit c then Some ([], InSym (w +:+ String c ""))
      else ('(ts, st') ← start c; Some (ID w :: ts, st'))
  | InSym w =>
      if is_digit c then Some ([], InSym (w +:+ String c ""))
      else ('(ts, st') ← start c; Some (SYMBOL w :: ts, st'))
  | InColon => if Ascii.eqb c "="%char then Some ([BIND], Start) else None
  end.

Definition flush (st : lex_state) : option (list token) :=
  match st with Start => Some [] | InId w => Some [ID w] | InSym w => Some [SYMBOL w] | InColon => None end.

Fixpoint lex (st : lex_state) (s : string) : option (list token) :=
  match s with
  | EmptyString => flush st
  | String c s' => '(ts, st') ← step st c; rest ← lex st' s'; Some (ts ++ rest)
  end.

(** ** Parser *)

Definition parser (A : Type) : Type := list token -> option (A * list token).

Definition expect (t : token) (ts : list token) : option (list token) :=
  match ts with t' :: r => if bool_decide (t' = t) then Some r else None | [] => None end.

(** One or more, with a separator; one or more up to GT *)
Fixpoint p_sep {A} (p : parser A) (sep : token) (n : nat) : parser (list A) := fun ts =>
  match n with
  | 0 => None
  | S n =>
      '(a, r) ← p ts;
      match expect sep r with
      | Some r' => '(l, r'') ← p_sep p sep n r'; Some (a :: l, r'')
      | None => Some ([a], r)
      end
  end.

Fixpoint p_upto {A} (p : parser A) (n : nat) : parser (list A) := fun ts =>
  match n with
  | 0 => None
  | S n =>
      '(a, r) ← p ts;
      match expect GT r with
      | Some r' => Some ([a], r')
      | None => '(l, r'') ← p_upto p n r; Some (a :: l, r'')
      end
  end.

Fixpoint p_term (n : nat) : parser term := fun ts =>
  match n with
  | 0 => None
  | S n =>
      match ts with
      | SYMBOL s :: r => Some (Sym s, r)
      | ID i :: r =>
          r ← expect LP r;
          match expect RP r with
          | Some r => Some (CallTerm i [], r)
          | None => '(args, r) ← p_sep (p_term n) COMMA n r; r ← expect RP r; Some (CallTerm i args, r)
          end
      | _ => None
      end
  end.

Definition p_star : parser bool := fun ts =>
  match expect STAR ts with Some r => Some (true, r) | None => Some (false, ts) end.

Definition p_symlist (n : nat) : parser (option (list term)) := fun ts =>
  match expect LT ts with
  | Some r => '(l, r) ← p_upto (p_term n) n r; Some (Some l, r)
  | None => Some (None, ts)
  end.

Fixpoint p_op (n : nat) : parser op := fun ts =>
  match n with
  | 0 => None
  | S n =>
      match ts with
      | ID i :: r =>
          '(star, r) ← p_star r;
          '(l, r) ← p_symlist n r;
          match expect LP r with
          | Some r => '(children, r) ← p_sep (p_op n) COMMA n r; r ← expect RP r; Some (Op i star l children, r)
          | None => Some (Op i star l [], r)
          end
      | _ => None
      end
  end.

Definition p_symbol : parser string := fun ts => match ts with SYMBOL s :: r => Some (s, r) | _ => None end.

(** The symbols in parentheses, none included *)
Definition p_syms (n : nat) : parser (list string) := fun ts =>
  r ← expect LP ts;
  match expect RP r with
  | Some r => Some ([], r)
  | None => '(l, r) ← p_sep p_symbol COMMA n r; r ← expect RP r; Some (l, r)
  end.

Definition p_item (n : nat) : parser item := fun ts =>
  match ts with
  | SYMBOL s :: r =>
      r ← expect BIND r;
      match r with
      | SYMBOL t :: r => Some (IBind (BindRef s t), r)
      | ID i :: r => '(l, r) ← p_syms n r; Some (IBind (BindBuild s (mkCall i l)), r)
      | _ => None
      end
  | ID i :: r =>
      '(l, r) ← p_syms n r;
      match expect BIND r with
      | Some r => '(s, r) ← p_symbol r; Some (IBind (BindMatch (mkCall i l) s), r)
      | None => if bool_decide (l = []) then None else Some (ICon (mkCon i l), r)
      end
  | _ => None
  end.

Definition p_rule (n : nat) (ts : list token) : option rule_tree :=
  '(s, r) ← p_op n ts;
  r ← expect BAR r;
  '(t, r) ← p_op n r;
  match r with
  | [] => Some (mkTree s t false None)
  | k :: r =>
      if negb (bool_decide (k = BAR)) then None else
      match r with
      | [] => Some (mkTree s t true None)
      | _ => '(l, r) ← p_sep (p_item n) SEMI n r;
             match r with [] => Some (mkTree s t true (Some l)) | _ => None end
      end
  end.

Definition grammar_rule (s : string) : option rule_tree :=
  ts ← lex Start s; p_rule (S (length ts)) ts.

#[export] Instance GrammarParser : Antlr := grammar_rule.

(** ** The lexer reads texts *)

Lemma digit_class c : is_digit c = true -> is_letter c = false /\ is_word c = false.
Proof. destruct c as [[] [] [] [] [] [] [] []]; vm_compute; intros Hc; first [discriminate Hc|by split]. Qed.

Lemma letter_word c : is_letter c = true -> is_word c = true.
Proof. unfold is_word. by intros ->. Qed.

Lemma lower_letter c : is_lower c = true -> is_letter c = true.
Proof. unfold is_letter. by intros ->. Qed.

Lemma string_app_assoc (a b c : string) : (a +:+ b) +:+ c = a +:+ (b +:+ c).
Proof. induction a as [|x a IH]; cbn; [done|]. by rewrite IH. Qed.

Lemma string_app_nil (a : string) : a +:+ "" = a.
Proof. induction a as [|x a IH]; cbn; [done|]. by rewrite IH. Qed.

Lemma lex_quiet st c st' s r : step st c = Some ([], st') -> lex st (String c s +:+ r) = lex st' (s +:+ r).
Proof. cbn. intros ->. cbn. by destruct (lex st' (s +:+ r)). Qed.

Lemma lex_digits w d r : all_chars is_digit d = true -> lex (InSym w) (d +:+ r) = lex (InSym (w +:+ d)) r.
Proof.
  revert w. induction d as [|c d IH]; intros w Hd; [by rewrite string_app_nil|].
  apply andb_prop in Hd as [Hc Hd]. rewrite (lex_quiet _ _ (InSym (w +:+ String c ""))) by (cbn; by rewrite Hc).
  rewrite IH by done. by rewrite string_app_assoc.
Qed.

Lemma lex_word w d r : all_chars is_word d = true -> lex (InId w) (d +:+ r) = lex (InId (w +:+ d)) r.
Proof.
  revert w. induction d as [|c d IH]; intros w Hd; [by rewrite string_app_nil|].
  apply andb_prop in Hd as [Hc Hd]. rewrite (lex_quiet _ _ (InId (w +:+ String c ""))) by (cbn; by rewrite Hc).
  rewrite IH by done. by rewrite string_app_assoc.
Qed.

Lemma lex_symbol s r : symbol_text s = true -> lex Start (s +:+ r) = lex (InSym s) r.
Proof.
  destruct s as [|c [|d s]]; [done..|]. cbn [symbol_text]. intros [[Hc Hd]%andb_prop Hs]%andb_prop.
  rewrite (lex_quiet _ _ (InId (String c ""))) by (cbn; unfold start; by rewrite (lower_letter _ Hc)).
  rewrite (lex_quiet _ _ (InSym (String c (String d ""))))
    by (cbn; destruct (digit_class _ Hd) as [_ ->]; by rewrite Hc, Hd).
  by rewrite lex_digits.
Qed.

Lemma lex_id s r : id_text s = true -> lex Start (s +:+ r) = lex (InId s) r.
Proof.
  destruct s as [|c s]; [done|]. cbn [id_text]. intros [Hc Hs]%andb_prop.
  rewrite (lex_quiet _ _ (InId (String c ""))) by (cbn; unfold start; by rewrite Hc).
  by rewrite lex_word.
Qed.

(** A character that no token continues with *)
Lemma step_other st pend c ts st' :
  flush st = Some pend -> is_word c = false -> is_digit c = false -> start c = Some (ts, st') ->
  step st c = Some (pend ++ ts, st').
Proof.
  intros Hf Hw Hd Hs. destruct st as [|w|w|]; cbn in Hf |- *; simplify_eq; [done|..].
  - rewrite Hw, Hd, andb_false_r. cbn. by rewrite Hs.
  - rewrite Hd. cbn. by rewrite Hs.
Qed.

Lemma lex_other st pend c ts st' s :
  flush st = Some pend -> is_word c = false -> is_digit c = false -> start c = Some (ts, st') ->
  lex st (String c s) = (rest ← lex st' s; Some (pend ++ ts ++ rest)).
Proof. intros. cbn. erewrite step_other by done. cbn. destruct (lex st' s); cbn; [|done]. by rewrite <- (assoc_L (++)). Qed.

Definition in_word (st : lex_state) : bool := match st with InId _ | InSym _ => true | _ => false end.

Lemma lex_text ps : forall st pend,
  flush st = Some pend -> (in_word st = true -> match ps with p :: _ => wordy p = false | [] => True end) ->
  spaced ps = true -> Forall (fun t => token_ok t = true) (toks ps) ->
  lex st (text_of ps) = Some (pend ++ toks ps).
Proof.
  induction ps as [|p ps IH]; intros st pend Hf Hst Hsp Hok; [by rewrite app_nil_r|].
  assert (Hps : spaced ps = true) by (destruct ps; [done|]; cbn in Hsp; by apply andb_prop in Hsp as [_ ?]).
  assert (Hnext : wordy p = true -> match ps with p :: _ => wordy p = false | [] => True end).
  { intros Hp. destruct ps as [|q ps]; [done|]. cbn in Hsp. rewrite Hp in Hsp. by destruct (wordy q). }
  destruct p as [t|].
  2: { change (text_of (Blank :: ps)) with (String " " (text_of ps)).
       rewrite (lex_other _ pend _ [] Start) by done. by rewrite (IH Start []). }
  change (toks (T t :: ps)) with (t :: toks ps) in Hok |- *. apply Forall_cons_iff in Hok as [Ht Hok].
  change (text_of (T t :: ps)) with (lexeme t +:+ text_of ps).
  destruct t; try (cbn [lexeme]; change (String ?c "" +:+ ?r) with (String c r);
    erewrite (lex_other _ pend) by done; by rewrite (IH Start [])).
  - cbn [lexeme]. change (":=" +:+ text_of ps) with (String ":" (String "=" (text_of ps))).
    erewrite (lex_other _ pend) by done. cbn. by rewrite (IH Start []).
  - assert (st = Start /\ pend = []) as [-> ->].
    { destruct st; cbn in Hf, Hst; simplify_eq; [done|by discriminate Hst..]. }
    cbn [lexeme]. rewrite lex_symbol by done. by rewrite (IH (InSym text) [SYMBOL text]).
  - assert (st = Start /\ pend = []) as [-> ->].
    { destruct st; cbn in Hf, Hst; simplify_eq; [done|by discriminate Hst..]. }
    cbn [lexeme]. rewrite lex_id by done. by rewrite (IH (InId text) [ID text]).
Qed.

(** ** The parser reads back the yield of a tree *)

Definition begins (P : token -> bool) (ts : list token) : bool := match ts with t :: _ => P t | [] => false end.

Lemma expect_hit t r : expect t (t :: r) = Some r.
Proof. cbn. by rewrite bool_decide_true. Qed.

Lemma expect_miss t ts : begins (fun k => bool_decide (k = t)) ts = false -> expect t ts = None.
Proof. destruct ts as [|k ts]; [done|]. cbn. by intros ->. Qed.

Lemma expect_begins (P : token -> bool) t ts : begins P ts = true -> P t = false -> expect t ts = None.
Proof.
  destruct ts as [|k ts]; [done|]. cbn. intros Hk Ht. rewrite bool_decide_false; [done|]. intros ->. congruence.
Qed.

Lemma begins_app P a b : begins P a = true -> begins P (a ++ b) = true.
Proof. by destruct a. Qed.

Section Lists.
Context {A : Type} (p : parser A) (f : A -> list token).

Lemma sep_by_cons sep a b (l : list A) : sep_by sep f (a :: b :: l) = f a ++ sep :: sep_by sep f (b :: l).
Proof. done. Qed.

Lemma sep_by_begins P sep (l : list A) :
  l <> [] -> (forall a, a ∈ l -> begins P (f a) = true) -> begins P (sep_by sep f l) = true.
Proof.
  destruct l as [|a [|b l]]; [done|..]; intros _ Hl; (assert (begins P (f a) = true) by (apply Hl; left));
    [done|]. rewrite sep_by_cons. by apply begins_app.
Qed.

Lemma sep_by_length sep (l : list A) a : a ∈ l -> length (f a) <= length (sep_by sep f l).
Proof.
  induction l as [|b [|c l] IH]; intros Ha; [by apply not_elem_of_nil in Ha|..].
  - apply list_elem_of_singleton in Ha as ->. done.
  - rewrite sep_by_cons, length_app. cbn [length]. apply elem_of_cons in Ha as [->|Ha]; [lia|].
    specialize (IH Ha). lia.
Qed.

Lemma sep_by_count sep (l : list A) : (forall a, a ∈ l -> f a <> []) -> length l <= length (sep_by sep f l).
Proof.
  induction l as [|b [|c l] IH]; intros Hl; [done|..].
  - destruct (f b) eqn:E; [by destruct (Hl b ltac:(left))|]. cbn. rewrite E. cbn. lia.
  - rewrite sep_by_cons, length_app. cbn [length] in IH |- *.
    assert (S (length l) <= length (sep_by sep f (c :: l))) by (apply IH; intros a Ha; apply Hl; by right). lia.
Qed.

Lemma p_sep_reads sep n (l : list A) r :
  l <> [] -> length l <= n -> expect sep r = None ->
  (forall a, a ∈ l -> forall r', begins (fun k => bool_decide (k = sep)) r' = true \/ r' = r -> p (f a ++ r') = Some (a, r')) ->
  p_sep p sep n (sep_by sep f l ++ r) = Some (l, r).
Proof.
  revert n. induction l as [|a l IH]; intros n Hne Hn Hr Hp; [done|]. destruct n as [|n]; [cbn in Hn; lia|].
  pose proof (Hp a ltac:(left)) as Ha.
  destruct l as [|b l]; [cbn; rewrite Ha by auto; cbn; by rewrite Hr|].
  rewrite sep_by_cons, <- (assoc_L (++)), <- app_comm_cons. cbn [p_sep].
  rewrite Ha by (left; cbn; by rewrite bool_decide_true). cbn. rewrite bool_decide_true by done.
  rewrite IH; [done|done|cbn in Hn |- *; lia|done|]. intros x Hx. apply Hp. by right.
Qed.

Lemma p_upto_reads n (l : list A) r :
  l <> [] -> length l <= n -> (forall a, a ∈ l -> (forall r', p (f a ++ r') = Some (a, r')) /\ expect GT (f a ++ [GT]) = None) ->
  p_upto p n (concat (map f l) ++ GT :: r) = Some (l, r).
Proof.
  revert n. induction l as [|a l IH]; intros n Hne Hn Hp; [done|]. destruct n as [|n]; [cbn in Hn; lia|].
  destruct (Hp a ltac:(left)) as [Ha _].
  cbn [map concat]. rewrite <- (assoc_L (++)). cbn [p_upto]. rewrite Ha. cbn [mbind option_bind].
  destruct l as [|b l]; [cbn; by rewrite bool_decide_true|].
  assert (expect GT (concat (map f (b :: l)) ++ GT :: r) = None) as ->.
  { destruct (Hp b ltac:(right; left)) as [_ Hb]. cbn [map concat]. destruct (f b); cbn in Hb |- *; [done|].
    by destruct (bool_decide _). }
  rewrite IH; [done|done|cbn in Hn |- *; lia|]. intros x Hx. apply Hp. by right.
Qed.
End Lists.

Definition word (t : token) : bool := match t with SYMBOL _ | ID _ => true | _ => false end.

Lemma y_term_begins t : begins word (y_term t) = true.
Proof. by destruct t. Qed.

Lemma y_op_begins o : begins word (y_op o) = true.
Proof. by destruct o. Qed.

Lemma y_item_begins i : begins word (y_item i) = true.
Proof. by destruct i as [|[]]. Qed.

Lemma begins_nonempty P ts : begins P ts = true -> ts <> [].
Proof. by destruct ts. Qed.

#[local] Hint Resolve y_term_begins y_op_begins y_item_begins begins_nonempty begins_app : core.

Lemma p_term_reads n : forall t r, length (y_term t) <= n -> p_term n (y_term t ++ r) = Some (t, r).
Proof.
  induction n as [|n IH]; intros t r Hn; [destruct t; cbn in Hn; lia|]. destruct t as [s|i args]; [done|].
  cbn [y_term p_term app]. cbn [y_term length] in Hn. rewrite length_app in Hn. cbn in Hn.
  rewrite expect_hit. cbn [mbind option_bind]. destruct args as [|a args]; [done|]. rewrite <- (assoc_L (++)).
  rewrite (expect_begins word) by (try done; apply begins_app, sep_by_begins; auto).
  rewrite p_sep_reads; [cbn; done|done| |done|].
  - pose proof (sep_by_count y_term COMMA (a :: args)) as Hc. specialize (Hc ltac:(eauto)). lia.
  - intros x Hx r' _. apply IH. pose proof (sep_by_length y_term COMMA _ _ Hx). lia.
Qed.

Lemma concat_length {A} (f : A -> list token) l a : a ∈ l -> length (f a) <= length (concat (map f l)).
Proof.
  induction l as [|b l IH]; intros Ha; [by apply not_elem_of_nil in Ha|]. cbn. rewrite length_app.
  apply elem_of_cons in Ha as [->|Ha]; [lia|]. specialize (IH Ha). lia.
Qed.

Lemma concat_count {A} (f : A -> list token) l : (forall a, f a <> []) -> length l <= length (concat (map f l)).
Proof.
  intros Hf. induction l as [|b l IH]; [done|]. cbn. rewrite length_app. specialize (Hf b). destruct (f b); [done|]. cbn. lia.
Qed.

Lemma p_symlist_reads n l r :
  l <> Some [] -> length (y_symlist l) <= n -> expect LT r = None -> p_symlist n (y_symlist l ++ r) = Some (l, r).
Proof.
  intros Hl Hn Hr. unfold p_symlist. destruct l as [ts|]; cbn [y_symlist app]; [|by rewrite Hr].
  rewrite expect_hit. cbn [y_symlist length] in Hn. rewrite length_app in Hn. cbn in Hn. rewrite <- (assoc_L (++)).
  cbn [app]. rewrite p_upto_reads; [done|by intros ->|..].
  - pose proof (concat_count y_term ts ltac:(eauto)). lia.
  - intros a Ha. split; [|by apply (expect_begins word); auto]. intros r'. apply p_term_reads.
    pose proof (concat_length y_term _ _ Ha). lia.
Qed.

Lemma p_op_reads n : forall o r, op_shape o = true -> length (y_op o) <= n ->
  expect STAR r = None -> expect LT r = None -> expect LP r = None -> p_op n (y_op o ++ r) = Some (o, r).
Proof.
  induction n as [|n IH]; intros o r Hs Hn H1 H2 H3; [destruct o; cbn in Hn; lia|]. destruct o as [i star l children].
  cbn [op_shape] in Hs. apply andb_prop in Hs as [Hl Hch]. rewrite forallb_forall in Hch.
  cbn [y_op length] in Hn. rewrite !length_app in Hn. cbn [p_op y_op app].
  set (tail := match children with [] => [] | _ => LP :: sep_by COMMA y_op children ++ [RP] end) in Hn |- *.
  assert (Htail : forall k, k <> LP -> expect k r = None -> expect k (tail ++ r) = None).
  { intros k Hk Hr. subst tail. destruct children; [done|]. cbn. by rewrite bool_decide_false. }
  assert (p_star (((if star then [STAR] else []) ++ y_symlist l ++ tail) ++ r) = Some (star, y_symlist l ++ tail ++ r)) as ->.
  { unfold p_star. rewrite <- !(assoc_L (++)). destruct star; [done|]. cbn [app].
    destruct l; [done|]. cbn [y_symlist app]. by rewrite Htail. }
  cbn [mbind option_bind]. rewrite p_symlist_reads; [|by intros ->|lia|by apply Htail]. cbn [mbind option_bind].
  subst tail. destruct children as [|c children]; [cbn [app]; by rewrite H3|]. cbn [app]. rewrite expect_hit.
  rewrite <- (assoc_L (++)). cbn [app length] in Hn |- *. rewrite length_app in Hn. cbn [length] in Hn.
  rewrite p_sep_reads; [cbn; done|done| |done|].
  - pose proof (sep_by_count y_op COMMA (c :: children)) as Hc. specialize (Hc ltac:(eauto)). cbn [length] in Hc |- *. lia.
  - intros x Hx r' Hr'. pose proof (sep_by_length y_op COMMA _ _ Hx).
    assert (forall k, k <> COMMA -> k <> RP -> expect k r' = None) as Hmiss.
    { intros k Hk1 Hk2. destruct Hr' as [Hr'| ->]; [|cbn; by rewrite bool_decide_false].
      apply (expect_begins _ _ _ Hr'). by apply bool_decide_false. }
    apply IH; [by apply Hch, list_elem_of_In|lia|by apply Hmiss..].
Qed.

Lemma p_syms_reads n l r : length l <= n -> p_syms n (y_syms l ++ r) = Some (l, r).
Proof.
  intros Hn. unfold p_syms, y_syms. cbn [app]. rewrite expect_hit. cbn [mbind option_bind].
  destruct l as [|a l]; [done|]. rewrite <- (assoc_L (++)).
  rewrite (expect_begins word) by (try done; apply begins_app, sep_by_begins; done).
  by rewrite p_sep_reads.
Qed.

Lemma y_syms_length l : length l <= length (y_syms l).
Proof.
  unfold y_syms. cbn [length]. rewrite length_app.
  pose proof (sep_by_count (fun s => [SYMBOL s]) COMMA l ltac:(done)). lia.
Qed.

Lemma p_item_reads n i r :
  item_shape i = true -> length (y_item i) <= n -> expect BIND r = None -> p_item n (y_item i ++ r) = Some (i, r).
Proof.
  intros Hs Hn Hr. destruct i as [[i l]|[[i l] s|s [i l]|s t]]; cbn [y_item y_call app n_id n_syms c_id c_args length] in Hn |- *.
  - unfold p_item. pose proof (y_syms_length l). rewrite p_syms_reads by lia. cbn [mbind option_bind]. rewrite Hr.
    cbn in Hs. by destruct (bool_decide (l = [])).
  - unfold p_item. pose proof (y_syms_length l). rewrite length_app in Hn. rewrite <- (assoc_L (++)).
    rewrite p_syms_reads by lia. done.
  - unfold p_item. pose proof (y_syms_length l). rewrite expect_hit. cbn [mbind option_bind].
    rewrite p_syms_reads by lia. done.
  - done.
Qed.

Lemma p_rule_reads t : tree_ok t -> p_rule (S (length (y_rule t))) (y_rule t) = Some t.
Proof.
  intros [Hs Ht Hc _]. destruct t as [s t bar cs]. cbn in Hs, Ht, Hc. set (n := S _).
  assert (Hn : length (y_rule (mkTree s t bar cs)) <= n) by lia. clearbody n.
  unfold y_rule in Hn |- *. cbn [t_source t_target t_bar t_constraints] in Hn |- *.
  rewrite length_app in Hn. cbn [length] in Hn. rewrite !length_app in Hn.
  unfold p_rule. rewrite p_op_reads by (try done; lia). cbn [mbind option_bind]. rewrite expect_hit. cbn [mbind option_bind].
  rewrite p_op_reads; [|done|lia|destruct bar, cs; try done; by destruct (Hc _ eq_refl)..]. cbn [mbind option_bind].
  destruct cs as [l|]; [|by destruct bar].
  destruct (Hc l eq_refl) as (-> & Hne & Hl). cbn [app]. unfold y_constraints in *.
  rewrite bool_decide_true by done. cbn [negb].
  assert (Hb : begins word (sep_by SEMI y_item l) = true) by (apply sep_by_begins; auto).
  destruct (sep_by SEMI y_item l) as [|k ts] eqn:E; [done|]. rewrite <- E, <- (app_nil_r (sep_by _ _ _)).
  rewrite p_sep_reads; [done|done| |done|].
  - pose proof (sep_by_count y_item SEMI l ltac:(eauto)). rewrite E in *. lia.
  - intros a Ha r' Hr'. rewrite Forall_forall in Hl. apply p_item_reads; [by apply Hl, list_elem_of_In|..].
    + pose proof (sep_by_length y_item SEMI _ _ Ha). rewrite E in *. lia.
    + destruct Hr' as [Hr'| ->]; [by apply (expect_begins _ _ _ Hr')|done].
Qed.

(** ** What the parser returns *)

Lemma expect_inv t ts r : expect t ts = Some r -> ts = t :: r.
Proof. destruct ts as [|k ts]; cbn; [done|]. case_bool_decide as E; [|done]. intros [= <-]. by rewrite E. Qed.

Section Sound.
Context {A : Type} (p : parser A) (f : A -> list token) (Q : A -> Prop).
Hypothesis Hp : forall ts a r, p ts = Some (a, r) -> ts = f a ++ r /\ Q a.

Lemma p_sep_inv sep n : forall ts l r, p_sep p sep n ts = Some (l, r) -> ts = sep_by sep f l ++ r /\ l <> [] /\ Forall Q l.
Proof.
  induction n as [|n IH]; intros ts l r H; [done|]. cbn in H. destruct (p ts) as [[a r1]|] eqn:E; [|done].
  cbn in H. apply Hp in E as [-> Ha]. destruct (expect sep r1) as [r2|] eqn:E2; [|simplify_eq; auto].
  apply expect_inv in E2 as ->. destruct (p_sep p sep n r2) as [[l' r3]|] eqn:E3; [|done]. cbn in H. simplify_eq.
  apply IH in E3 as (-> & Hne & Hl). destruct l' as [|b l']; [done|]. rewrite sep_by_cons, <- (assoc_L (++)). auto.
Qed.

Lemma p_upto_inv n : forall ts l r, p_upto p n ts = Some (l, r) -> ts = concat (map f l) ++ GT :: r /\ l <> [] /\ Forall Q l.
Proof.
  induction n as [|n IH]; intros ts l r H; [done|]. cbn in H. destruct (p ts) as [[a r1]|] eqn:E; [|done].
  cbn in H. apply Hp in E as [-> Ha]. destruct (expect GT r1) as [r2|] eqn:E2.
  - apply expect_inv in E2 as ->. simplify_eq. cbn. rewrite app_nil_r. auto.
  - destruct (p_upto p n r1) as [[l' r3]|] eqn:E3; [|done]. cbn in H. simplify_eq.
    apply IH in E3 as (-> & Hne & Hl). cbn. rewrite <- (assoc_L (++)). auto.
Qed.
End Sound.

Ltac parsed :=
  repeat match goal with
  | H : None = Some _ |- _ => discriminate H
  | H : Some _ = Some _ |- _ => simplify_eq
  | H : (?m ≫= _) = Some _ |- _ =>
      let E := fresh "E" in destruct m as [[]|] eqn:E; cbn [mbind option_bind] in H; [|discriminate H]
  | H : (?m ≫= _) = Some _ |- _ =>
      let E := fresh "E" in destruct m eqn:E; cbn [mbind option_bind] in H; [|discriminate H]
  | H : expect _ _ = Some _ |- _ => apply expect_inv in H; subst
  end.

Lemma p_term_inv n : forall ts t r, p_term n ts = Some (t, r) -> ts = y_term t ++ r.
Proof.
  induction n as [|n IH]; intros ts t r H; [done|]. cbn [p_term] in H. destruct ts as [|[] ts]; try done; [by simplify_eq|].
  parsed. destruct (expect RP _) eqn:E2; [by parsed|]. parsed.
  match goal with H : p_sep _ _ _ _ = _ |- _ => apply (p_sep_inv _ y_term (fun _ => True)) in H as (-> & Hne & _); [|intros; split; [by apply IH|done]] end.
  cbn. by rewrite <- (assoc_L (++)).
Qed.

Lemma p_symlist_inv n ts l r : p_symlist n ts = Some (l, r) -> ts = y_symlist l ++ r /\ l <> Some [].
Proof.
  unfold p_symlist. destruct (expect LT ts) eqn:E; intros H; [|by simplify_eq]. parsed.
  match goal with H : p_upto _ _ _ = _ |- _ => apply (p_upto_inv _ y_term (fun _ => True)) in H as (-> & Hne & _); [|intros; split; [by eapply p_term_inv|done]] end.
  cbn. rewrite <- (assoc_L (++)). split; [done|congruence].
Qed.

Lemma p_star_inv ts b r : p_star ts = Some (b, r) -> ts = (if b then [STAR] else []) ++ r.
Proof. unfold p_star. destruct (expect STAR ts) eqn:E; intros H; parsed; done. Qed.

Lemma p_op_inv n : forall ts o r, p_op n ts = Some (o, r) -> ts = y_op o ++ r /\ op_shape o = true.
Proof.
  induction n as [|n IH]; intros ts o r H; [done|]. cbn [p_op] in H. destruct ts as [|[] ts]; try done.
  parsed. apply p_star_inv in E as ->. apply p_symlist_inv in E0 as [-> Hl].
  assert (Hs : (match o0 with Some [] => false | _ => true end) = true) by (by destruct o0 as [[]|]).
  destruct (expect LP _) eqn:E2; parsed.
  - match goal with H : p_sep _ _ _ _ = _ |- _ => apply (p_sep_inv _ y_op (fun o => op_shape o = true)) in H as (-> & Hne & Hch); [|done] end.
    cbn [y_op op_shape]. rewrite Hs. split; [|by apply forallb_forall; rewrite Forall_forall in Hch].
    destruct l1 as [|c l1]; [done|]. cbn [app]. rewrite <- !(assoc_L (++)). cbn [app]. by rewrite <- (assoc_L (++)).
  - cbn [y_op op_shape forallb]. rewrite Hs. rewrite app_nil_r. cbn. by rewrite <- (assoc_L (++)).
Qed.

Lemma p_syms_inv n ts l r : p_syms n ts = Some (l, r) -> ts = y_syms l ++ r.
Proof.
  unfold p_syms. intros H. parsed. destruct (expect RP _) eqn:E2; parsed; [done|].
  match goal with H : p_sep _ _ _ _ = _ |- _ => apply (p_sep_inv _ (fun s => [SYMBOL s]) (fun _ => True)) in H as (-> & _ & _) end.
  - unfold y_syms. cbn. by rewrite <- (assoc_L (++)).
  - intros [|[] ts] a r'; cbn; intros; by simplify_eq.
Qed.

Lemma p_item_inv n ts i r : p_item n ts = Some (i, r) -> ts = y_item i ++ r /\ item_shape i = true.
Proof.
  unfold p_item. destruct ts as [|[] ts]; try done; intros H; parsed.
  - destruct l as [|[] l]; try done; [by simplify_eq|]. parsed. apply p_syms_inv in E as ->. done.
  - apply p_syms_inv in E as ->. destruct (expect BIND _) eqn:E2; parsed.
    + destruct l1 as [|[] l1]; try done. cbn in E. simplify_eq. cbn [y_item y_call app c_id c_args]. by rewrite <- (assoc_L (++)).
    + case_bool_decide as Hl; [done|]. simplify_eq. cbn. by rewrite bool_decide_false.
Qed.

Lemma p_rule_inv n ts t : p_rule n ts = Some t ->
  ts = y_rule t /\ op_shape (t_source t) = true /\ op_shape (t_target t) = true /\
  (forall l, t_constraints t = Some l -> t_bar t = true /\ l <> [] /\ Forall (fun i => item_shape i = true) l).
Proof.
  unfold p_rule. intros H. parsed. apply p_op_inv in E as [-> H1]. apply p_op_inv in E1 as [-> H2].
  unfold y_rule. destruct l1 as [|k l1]; [simplify_eq; cbn; by rewrite !app_nil_r|].
  case_bool_decide as Hk; [|done]. subst k. cbn [negb] in H. destruct l1 as [|k l1]; [by simplify_eq|]. parsed.
  match goal with H : p_sep _ _ _ _ = _ |- _ => apply (p_sep_inv _ y_item (fun i => item_shape i = true)) in H as (Hl & Hne & Hi); [|intros ? ? ?; apply p_item_inv] end.
  destruct l0; [|done]. simplify_eq. cbn. rewrite Hl, app_nil_r. split_and!; try done. intros l' ?. by simplify_eq.
Qed.

(** The tokens of the lexer match their rules. *)
Definition state_ok (st : lex_state) : bool :=
  match st with InId w => id_text w | InSym w => symbol_text w | _ => true end.

Lemma all_chars_app P a b : all_chars P (a +:+ b) = all_chars P a && all_chars P b.
Proof. induction a as [|c a IH]; [done|]. cbn. by rewrite IH, andb_assoc. Qed.

Lemma start_ok c ts st : start c = Some (ts, st) -> Forall (fun t => token_ok t = true) ts /\ state_ok st = true.
Proof.
  unfold start. destruct (is_letter c) eqn:E; [intros [= <- <-]; cbn; by rewrite E|].
  destruct c as [[] [] [] [] [] [] [] []]; intros H; inversion H; subst; (split; [repeat constructor|done]).
Qed.

Lemma step_ok st c ts st' :
  state_ok st = true -> step st c = Some (ts, st') -> Forall (fun t => token_ok t = true) ts /\ state_ok st' = true.
Proof.
  destruct st as [|w|w|]; cbn [step state_ok]; intros Hst H.
  - by eapply start_ok.
  - destruct (is_word c) eqn:Ew.
    { simplify_eq. split; [constructor|]. destruct w as [|d w]; [done|]. cbn in Hst |- *. rewrite all_chars_app. cbn. rewrite Ew.
      by apply andb_prop in Hst as [-> ->]. }
    destruct (single_lower w && is_digit c) eqn:Es.
    { simplify_eq. apply andb_prop in Es as [Hl Hd]. split; [constructor|]. destruct w as [|d [|]]; [done| |done]. cbn in Hl |- *.
      by rewrite Hl, Hd. }
    destruct (start c) as [[ts' st'']|] eqn:E; [|done]. cbn in H. simplify_eq. apply start_ok in E as [H1 H2]. by split; [constructor|].
  - destruct (is_digit c) eqn:Ed.
    { simplify_eq. split; [constructor|]. destruct w as [|d [|e w]]; [done..|]. cbn in Hst |- *. rewrite all_chars_app. cbn. rewrite Ed.
      apply andb_prop in Hst as [-> ->]. done. }
    destruct (start c) as [[ts' st'']|] eqn:E; [|done]. cbn in H. simplify_eq. apply start_ok in E as [H1 H2]. by split; [constructor|].
  - destruct (Ascii.eqb c "="%char); [|done]. simplify_eq. by split; [repeat constructor|].
Qed.

Lemma lex_ok s : forall st ts, state_ok st = true -> lex st s = Some ts -> Forall (fun t => token_ok t = true) ts.
Proof.
  induction s as [|c s IH]; intros st ts Hst H; cbn in H.
  - destruct st; cbn in H; simplify_eq; by repeat constructor.
  - destruct (step st c) as [[ts1 st1]|] eqn:E; [|done]. cbn in H. destruct (lex st1 s) as [ts2|] eqn:E2; [|done].
    cbn in H. simplify_eq. apply step_ok in E as [H1 H2]; [|done]. apply Forall_app. split; [done|by eapply IH].
Qed.

#[export] Instance GrammarParserLaws : AntlrLaws.
Proof.
  split.
  - intros s t H. change (grammar_rule s = Some t) in H. unfold grammar_rule in H.
    destruct (lex Start s) as [ts|] eqn:E; [|done]. cbn [mbind option_bind] in H. apply lex_ok in E; [|done].
    apply p_rule_inv in H as (-> & H1 & H2 & H3). by split.
  - intros ps t Ht Hsp Hps. change (grammar_rule (text_of ps) = Some t). unfold grammar_rule.
    rewrite (lex_text ps Start []); [|done|done|done|rewrite Hps; apply Ht]. cbn [app mbind option_bind].
    rewrite Hps. by apply p_rule_reads.
Qed.
End RuleGrammar.
