(* ===== verification/RuleDefs.v ===== *)
(** * Rules and definition graphs

    Sources: the template classes of CDSLRule.h ([CDSLSymbol], [CDSLOp],
    [CDSLConstraint], [CDSLFragment]) and CDSLExpressionDefinitions.cpp, the graph
    of the expressions a rule defines (libgpopt/src/dsl). A symbol object is
    represented by its fields: the id is given out once per rule, so that two
    symbols of a rule are the same object exactly if they are equal. *)
From stdpp Require Import base numbers list strings gmap option.
From S2P Require Import Prelude RuleEnums.

Module RuleDefs.
Import RuleEnums.
Open Scope string_scope.
Open Scope nat_scope.
Open Scope list_scope.
Open Scope outcome_scope.

(** ** The classes *)

Record CDSLSymbol := mkSym {
  m_esymk : EDslSymbolKind;
  m_pstrName : string;
  m_id : nat;
  m_eside : EDslSide;
}.

#[export] Instance CDSLSymbol_eq_dec : EqDecision CDSLSymbol.
Proof. solve_decision. Defined.

#[warnings="-register-all"]
Inductive CDSLOp := mkOp {
  m_edslop : EDslOpKind;
  m_fDistinct : bool;
  m_edslsort : EDslSortDir;
  m_edslaggfunc : EDslAggFuncKind;
  m_pdrgpsym : list CDSLSymbol;
  m_pdrgpchild : list CDSLOp;
}.

(** [CDSLOp::Eopid] *)
Definition op_eopid (o : CDSLOp) : EOperatorId := Eopid (m_edslop o) (m_fDistinct o).

Record CDSLConstraint := mkConstraint {
  m_edslcon : EDslConstraintKind;
  m_fLegacyEquality : bool;
  m_con_syms : list CDSLSymbol;
}.

Record CDSLFragment := mkFragment {
  m_pop_root : CDSLOp;
  m_frag_syms : list CDSLSymbol;
}.

(** The number of symbols the constructor of [CDSLOp] accepts besides [UlSyms] *)
Definition other_sizes (edslop : EDslOpKind) (n : nat) : bool :=
  match edslop with
  | EdslopProj | EdslopExists | EdslopAntiJoinNotIn => n =? 3
  | EdslopAgg => n =? 5
  | EdslopInnerJoin | EdslopLeftJoin | EdslopFullJoin => (n =? 2) || (n =? 3) || (n =? 4) || (n =? 5)
  | EdslopSemiApply | EdslopAntiApply | EdslopInnerApply | EdslopLeftOuterApply => n =? 0
  | EdslopFilter => n =? 2
  | EdslopInSubFilter => n =? 1
  | EdslopUnion | EdslopIntersect | EdslopExcept => (n =? 0) || (n =? 2)
  | _ => false
  end.

Definition CDSLOp_ctor (edslop : EDslOpKind) (fDistinct : bool) (edslsort : EDslSortDir) (edslaggfunc : EDslAggFuncKind)
    (pdrgpsym : list CDSLSymbol) (pdrgpchild : list CDSLOp) : outcome CDSLOp :=
  ul_children ← UlChildren edslop;
  _ ← GPOS_ASSERT (ul_children =? length pdrgpchild);
  ul_syms ← UlSyms edslop;
  _ ← GPOS_ASSERT ((ul_syms =? length pdrgpsym) || other_sizes edslop (length pdrgpsym));
  mret (mkOp edslop fDistinct edslsort edslaggfunc pdrgpsym pdrgpchild).

Definition CDSLConstraint_ctor (edslcon : EDslConstraintKind) (pdrgpsym : list CDSLSymbol) (fLegacyEquality : bool) :
    outcome CDSLConstraint :=
  ul_arity ← UlArity edslcon;
  _ ← GPOS_ASSERT (ul_arity =? length pdrgpsym);
  mret (mkConstraint edslcon fLegacyEquality pdrgpsym).

Definition CDSLSymbol_ctor (esymk : EDslSymbolKind) (name : string) (id : nat) (eside : EDslSide) : outcome CDSLSymbol :=
  _ ← GPOS_ASSERT (bool_decide (esymk <> EdslsymSentinel));
  mret (mkSym esymk name id eside).

(** ** Expression kinds and signatures *)

Inductive EDslExpressionKind :=
  | EdslexprAnd | EdslexprNullSafeEq | EdslexprExists | EdslexprNotExists | EdslexprAny | EdslexprAll
  | EdslexprCompare | EdslexprScalarSubquery | EdslexprNulls | EdslexprNotTrue | EdslexprNot | EdslexprRef
  | EdslexprOr | EdslexprItem | EdslexprBoolValue | EdslexprCase | EdslexprValueBool | EdslexprCall
  | EdslexprArgs | EdslexprColumn | EdslexprScalarDeps | EdslexprConcat | EdslexprContext | EdslexprSentinel.

#[export] Instance EDslExpressionKind_eq_dec : EqDecision EDslExpressionKind.
Proof. solve_decision. Defined.

Record SBindingSignature := mkSig {
  s_kind : EDslExpressionKind;
  s_name : string;
  s_arity : nat;
  s_types : list EDslSymbolKind;
}.

Definition binding_signatures : list SBindingSignature := [
  mkSig EdslexprContext "Context" 1 [EdslsymScalar; EdslsymScalar];
  mkSig EdslexprContext "Context" 1 [EdslsymPred; EdslsymScalar];
  mkSig EdslexprContext "Context" 2 [EdslsymPred; EdslsymPred; EdslsymScalar];
  mkSig EdslexprContext "Context" 2 [EdslsymScalar; EdslsymScalar; EdslsymScalar];
  mkSig EdslexprContext "Context" 1 [EdslsymExpr; EdslsymScalar];
  mkSig EdslexprContext "Context" 2 [EdslsymExpr; EdslsymExpr; EdslsymScalar];
  mkSig EdslexprContext "Context" 1 [EdslsymWindow; EdslsymScalar];
  mkSig EdslexprContext "Context" 2 [EdslsymWindow; EdslsymWindow; EdslsymScalar];
  mkSig EdslexprContext "Context" 1 [EdslsymFunc; EdslsymScalar];
  mkSig EdslexprContext "Context" 2 [EdslsymFunc; EdslsymFunc; EdslsymScalar];
  mkSig EdslexprAnd "And" 2 [EdslsymPred; EdslsymPred; EdslsymPred];
  mkSig EdslexprOr "Or" 2 [EdslsymPred; EdslsymPred; EdslsymPred];
  mkSig EdslexprNullSafeEq "NullSafeEq" 2 [EdslsymPred; EdslsymAttrs; EdslsymAttrs];
  mkSig EdslexprItem "Item" 0 [EdslsymExpr];
  mkSig EdslexprConcat "ExprConcat" 2 [EdslsymExpr; EdslsymExpr; EdslsymExpr];
  mkSig EdslexprNulls "ExprNulls" 1 [EdslsymExpr; EdslsymAttrs];
  mkSig EdslexprItem "Item" 3 [EdslsymExpr; EdslsymScalar; EdslsymAttrs; EdslsymExpr];
  mkSig EdslexprBoolValue "BoolValue" 1 [EdslsymScalar; EdslsymPred];
  mkSig EdslexprCase "Case" 3 [EdslsymScalar; EdslsymPred; EdslsymScalar; EdslsymScalar];
  mkSig EdslexprValueBool "ValueBool" 1 [EdslsymPred; EdslsymScalar];
  mkSig EdslexprCall "Call" 2 [EdslsymScalar; EdslsymCallHead; EdslsymValueList];
  mkSig EdslexprScalarSubquery "Subquery" 2 [EdslsymScalar; EdslsymAttrs; EdslsymTable];
  mkSig EdslexprArgs "Args" 0 [EdslsymValueList];
  mkSig EdslexprArgs "Args" 2 [EdslsymValueList; EdslsymScalar; EdslsymValueList];
  mkSig EdslexprColumn "Column" 1 [EdslsymScalar; EdslsymAttrs];
  mkSig EdslexprScalarDeps "ScalarDeps" 1 [EdslsymAttrs; EdslsymScalar];
  mkSig EdslexprScalarDeps "ScalarDeps" 1 [EdslsymAttrs; EdslsymExpr];
  mkSig EdslexprScalarDeps "ScalarDeps" 1 [EdslsymAttrs; EdslsymPred];
  mkSig EdslexprExists "Exists" 1 [EdslsymPred; EdslsymTable];
  mkSig EdslexprAny "Any" 4 [EdslsymPred; EdslsymCompareHead; EdslsymValueList; EdslsymAttrs; EdslsymTable];
  mkSig EdslexprAll "All" 4 [EdslsymPred; EdslsymCompareHead; EdslsymValueList; EdslsymAttrs; EdslsymTable];
  mkSig EdslexprCompare "Compare" 2 [EdslsymPred; EdslsymCompareHead; EdslsymValueList];
  mkSig EdslexprNotTrue "NotTrue" 1 [EdslsymPred; EdslsymPred];
  mkSig EdslexprNot "Not" 1 [EdslsymPred; EdslsymPred]].

Definition types_match (types stypes : list EDslSymbolKind) : bool :=
  forallb (fun p => bool_decide (p.1 = EdslsymSentinel) || bool_decide (p.1 = p.2)) (zip types stypes).

(** The loop of [PsigBinding]: a second match makes the call ambiguous. *)
Fixpoint psig_loop (name : string) (arity : nat) (types : list EDslSymbolKind) (sigs : list SBindingSignature)
    (result : option SBindingSignature) : option SBindingSignature :=
  match sigs with
  | [] => result
  | s :: sigs' =>
      if (s_arity s =? arity) && String.eqb (s_name s) name && types_match types (s_types s) then
        match result with
        | Some _ => None
        | None => psig_loop name arity types sigs' (Some s)
        end
      else psig_loop name arity types sigs' result
  end.

(** [PsigBinding]; a type that is not known yet is [EdslsymSentinel]. *)
Definition PsigBinding (name : option string) (arity : nat) (types : list EDslSymbolKind) : option SBindingSignature :=
  if negb (length types =? 0) && negb (length types =? S arity) then None else
  match name with
  | Some name => psig_loop name arity types binding_signatures None
  | None => None
  end.

Definition SzBindingName (kind : EDslExpressionKind) : option string :=
  match List.find (fun s => bool_decide (s_kind s = kind)) binding_signatures with
  | Some s => Some (s_name s)
  | None => if bool_decide (kind = EdslexprRef) then Some "Ref" else None
  end.

(** ** The definition graph *)

Inductive EBinding := ELegacy | EMatch | EBuild.

#[export] Instance EBinding_eq_dec : EqDecision EBinding.
Proof. solve_decision. Defined.

Record CDefinition := mkDef {
  m_edslexpr : EDslExpressionKind;
  m_binding : EBinding;
  m_psymOutput : CDSLSymbol;
  m_operands : list CDSLSymbol;
}.

Record CDSLExpressionDefinitions := mkDefs {
  m_pdrgpdefByOutput : list (option CDefinition);
  m_pdrgpdefDefinitions : list CDefinition;
}.

Definition EdslexprKind (pcon : CDSLConstraint) : EDslExpressionKind :=
  match m_edslcon pcon with
  | EdslconPredicateAnd => EdslexprAnd
  | EdslconPredicateNullSafeEq => EdslexprNullSafeEq
  | EdslconPredicateAny => EdslexprAny
  | EdslconPredicateAll => EdslexprAll
  | EdslconExprNulls => EdslexprNulls
  | EdslconPredicateNotTrue => EdslexprNotTrue
  | EdslconPredicateNot => EdslexprNot
  | _ => EdslexprSentinel
  end.

Definition PsymOutput (pcon : CDSLConstraint) : option CDSLSymbol :=
  let n := length (m_con_syms pcon) in
  if match EdslexprKind pcon with
     | EdslexprSentinel => true
     | EdslexprAnd | EdslexprNullSafeEq | EdslexprNulls => negb (n =? 3)
     | EdslexprExists | EdslexprNotExists | EdslexprNotTrue | EdslexprNot => negb (n =? 2)
     | EdslexprAny | EdslexprAll => negb (n =? 4)
     | _ => false
     end
  then None else head (m_con_syms pcon).

(** [Pdef]; the symbol is not null. *)
Definition Pdef (defs : CDSLExpressionDefinitions) (psymOutput : CDSLSymbol) : option CDefinition :=
  mjoin (m_pdrgpdefByOutput defs !! m_id psymOutput).

Definition CDefinition_ctor (edslexpr : EDslExpressionKind) (psymOutput : CDSLSymbol) (symbols : list CDSLSymbol)
    (binding : EBinding) : outcome CDefinition :=
  _ ← GPOS_ASSERT (bool_decide (edslexpr <> EdslexprSentinel));
  mret (mkDef edslexpr binding psymOutput (tail symbols)).

(** *** Uses *)

(** [FUsesRecursive], with the set of visited symbols; [n] bounds the depth. *)
Fixpoint FUsesRecursive (n : nat) (defs : CDSLExpressionDefinitions) (psymOutput psymOperand : CDSLSymbol)
    (visited : list CDSLSymbol) : outcome (bool * list CDSLSymbol) :=
  match n with
  | 0 => Abort FFuel
  | S n =>
      if bool_decide (psymOutput = psymOperand) then mret (true, visited) else
      if bool_decide (psymOutput ∈ visited) then mret (false, visited) else
      let visited := psymOutput :: visited in
      match Pdef defs psymOutput with
      | None => mret (false, visited)
      | Some pdef => for_until (m_operands pdef) (fun psym v => FUsesRecursive n defs psym psymOperand v) visited
      end
  end.

Definition FUses (defs : CDSLExpressionDefinitions) (psymOutput psymOperand : CDSLSymbol) : outcome bool :=
  fst <$> FUsesRecursive (S (S (length (m_pdrgpdefDefinitions defs)))) defs psymOutput psymOperand [].

(** *** Validation *)

(** The order in which a hash table is iterated over: the entries, in some order *)
Class HashOrder := hash_order : forall {A : Type}, list A -> list A.
Class HashOrderLaws `{HashOrder} : Prop := hash_order_perm : forall {A} (l : list A), hash_order l ≡ₚ l.

(** A hash map as the list of its entries in the order of insertion *)
Definition map_find {V} (m : list (CDSLSymbol * V)) (k : CDSLSymbol) : option V :=
  snd <$> List.find (fun e => bool_decide (e.1 = k)) m.
Definition map_emplace {V} (m : list (CDSLSymbol * V)) (k : CDSLSymbol) (v : V) : bool * list (CDSLSymbol * V) :=
  match map_find m k with Some _ => (false, m) | None => (true, m ++ [(k, v)]) end.

(** [FHasCycle], with the symbols being visited and those that are complete *)
Fixpoint FHasCycle (n : nat) (definitions : list (CDSLSymbol * CDSLConstraint)) (psym : CDSLSymbol)
    (sets : list CDSLSymbol * list CDSLSymbol) : outcome (bool * (list CDSLSymbol * list CDSLSymbol)) :=
  match n with
  | 0 => Abort FFuel
  | S n =>
      let '(visiting, complete) := sets in
      if bool_decide (psym ∈ complete) then mret (false, sets) else
      if bool_decide (psym ∈ visiting) then mret (true, sets) else
      '(found, (visiting, complete)) ←
        match map_find definitions psym with
        | Some con => for_until (tail (m_con_syms con)) (fun s t => FHasCycle n definitions s t) (psym :: visiting, complete)
        | None => mret (false, (psym :: visiting, complete))
        end;
      if (found : bool) then mret (true, (visiting, complete))
      else mret (false, (List.filter (fun s => negb (bool_decide (s = psym))) visiting, psym :: complete))
  end.

Section Validate.
Context `{HashOrder}.

(** The map of the definitions; [None] if a symbol is defined twice *)
Fixpoint definition_map (cons : list CDSLConstraint) (m : list (CDSLSymbol * CDSLConstraint)) :
    option (list (CDSLSymbol * CDSLConstraint)) :=
  match cons with
  | [] => Some m
  | con :: cons' =>
      match PsymOutput con with
      | None => definition_map cons' m
      | Some psym => let '(ok, m) := map_emplace m psym con in if ok then definition_map cons' m else None
      end
  end.

(** [CDSLExpressionDefinitions::FValidate] *)
Definition FValidate (pdrgpcon : list CDSLConstraint) : outcome bool :=
  match definition_map pdrgpcon [] with
  | None => mret false
  | Some definitions =>
      '(found, _) ← for_until (hash_order definitions)
                      (fun entry t => FHasCycle (S (S (length definitions))) definitions entry.1 t) ([], []);
      mret (negb found)
  end.

(** *** Construction *)

Definition array_replace {A} (l : list A) (pos : nat) (a : A) : outcome (list A) :=
  _ ← GPOS_ASSERT (pos <? length l);
  mret (<[pos := a]> l).

(** The constructor, from the constraints that define expressions *)
Definition Definitions_ctor (pdrgpcon : list CDSLConstraint) : outcome CDSLExpressionDefinitions :=
  valid ← FValidate pdrgpcon;
  _ ← GPOS_ASSERT valid;
  defs ← for_each pdrgpcon (fun pcon defs =>
           match PsymOutput pcon with
           | None => mret defs
           | Some psym => (d ← CDefinition_ctor (EdslexprKind pcon) psym (m_con_syms pcon) ELegacy; mret (defs ++ [d]))
           end) [];
  let ulMaxId := foldr Nat.max 0 (map (fun d => m_id (m_psymOutput d)) defs) in
  let byOutput := if length defs =? 0 then [] else replicate (S ulMaxId) None in
  byOutput ← for_each defs (fun d l => array_replace l (m_id (m_psymOutput d)) (Some d)) byOutput;
  mret (mkDefs byOutput defs).

(** The append of nulls up to an index *)
Definition extend_to {A} (l : list (option A)) (pos : nat) : list (option A) := l ++ replicate (S pos - length l) None.

(** The guards at the start of [FAppendBinding] *)
Definition binding_shape (kind : EDslExpressionKind) (binding : EBinding) (symbols : list CDSLSymbol) : bool :=
  negb (negb (bool_decide (binding = EMatch)) && negb (bool_decide (binding = EBuild))) &&
  negb (bool_decide (kind = EdslexprContext) && negb (length symbols =? if bool_decide (binding = EMatch) then 2 else 3)) &&
  negb (bool_decide (binding = EMatch) && bool_decide (kind = EdslexprRef)) && negb (length symbols =? 0).

(** [FAppendBinding]: the answer and the definitions *)
Definition FAppendBinding (defs : CDSLExpressionDefinitions) (kind : EDslExpressionKind) (binding : EBinding)
    (symbols : list CDSLSymbol) : outcome (bool * CDSLExpressionDefinitions) :=
  if negb (binding_shape kind binding symbols) then mret (false, defs) else
  let types := map m_esymk symbols in
  let signature := PsigBinding (SzBindingName kind) (length symbols - 1) types in
  if if bool_decide (kind = EdslexprRef) then negb (length symbols =? 2) else negb (bool_decide (is_Some signature))
  then mret (false, defs) else
  output ← subscript symbols 0;
  output_kind ← match signature with None => mret (m_esymk output) | Some s => subscript (s_types s) 0 end;
  if bool_decide (output_kind = EdslsymSentinel) || negb (bool_decide (output_kind = m_esymk output)) ||
     bool_decide (is_Some (Pdef defs output))
  then mret (false, defs) else
  '(bad, _) ← for_until (seq 1 (length symbols - 1)) (fun i t =>
      symbol ← subscript symbols i;
      expected ← match signature with None => mret (m_esymk output) | Some s => subscript (s_types s) i end;
      if negb (bool_decide (expected = m_esymk symbol)) then mret (true, t)
      else (uses ← FUses defs symbol output; mret (uses, t))) tt;
  if (bad : bool) then mret (false, defs) else
  def ← CDefinition_ctor kind output symbols binding;
  byOutput ← array_replace (extend_to (m_pdrgpdefByOutput defs) (m_id output)) (m_id output) (Some def);
  mret (true, mkDefs byOutput (m_pdrgpdefDefinitions defs ++ [def])).
End Validate.

Definition FHasBindings (defs : CDSLExpressionDefinitions) : bool :=
  existsb (fun d => negb (bool_decide (m_binding d = ELegacy))) (m_pdrgpdefDefinitions defs).

Definition FHasMatchBindings (defs : CDSLExpressionDefinitions) : bool :=
  existsb (fun d => bool_decide (m_binding d = EMatch)) (m_pdrgpdefDefinitions defs).

(** [PsymRefRoot]: at most as many references as there are definitions *)
Fixpoint ref_root (n : nat) (defs : CDSLExpressionDefinitions) (symbol : CDSLSymbol) : outcome CDSLSymbol :=
  match n with
  | 0 => mret symbol
  | S n =>
      match Pdef defs symbol with
      | Some d =>
          if bool_decide (m_binding d = EBuild) && bool_decide (m_edslexpr d = EdslexprRef)
          then (s ← subscript (m_operands d) 0; ref_root n defs s) else mret symbol
      | None => mret symbol
      end
  end.

Definition PsymRefRoot (defs : CDSLExpressionDefinitions) (symbol : CDSLSymbol) : outcome CDSLSymbol :=
  ref_root (length (m_pdrgpdefDefinitions defs)) defs symbol.
End RuleDefs.
