(* ===== verification/RuleGraph.v ===== *)
(** * The definition graph of a rule

    Proofs about CDSLExpressionDefinitions.cpp (model in RuleDefs.v): the searches
    [FUses] and [FHasCycle] return and decide reachability and cycles, [FValidate]
    accepts exactly the constraints that define every symbol once and without
    cycles, and [FAppendBinding] keeps the graph acyclic. *)
From stdpp Require Import base numbers list strings relations.
From S2P Require Import Prelude RuleEnums RuleDefs.

Module RuleGraph.
Import RuleEnums RuleDefs.
Open Scope nat_scope.
Open Scope list_scope.
Open Scope outcome_scope.
Implicit Types (x y z : CDSLSymbol) (v U : list CDSLSymbol) (defs : CDSLExpressionDefinitions) (cons : list CDSLConstraint).

Lemma filter_shrinks {A} (P Q : A -> bool) (l : list A) (a : A) :
  (forall b, Q b = true -> P b = true) -> a ∈ l -> P a = true -> Q a = false ->
  length (List.filter Q l) < length (List.filter P l).
Proof.
  intros HQP. assert (forall k, length (List.filter Q k) <= length (List.filter P k)) as Hle.
  { induction k as [|b k IH]; [done|]. cbn. destruct (Q b) eqn:E; [rewrite (HQP _ E); cbn; lia|]. destruct (P b); cbn; lia. }
  induction l as [|b l IH]; intros Ha HP HQ; [by apply not_elem_of_nil in Ha|]. cbn.
  apply elem_of_cons in Ha as [<-|Ha]; [rewrite HP, HQ; cbn; specialize (Hle l); lia|].
  specialize (IH Ha HP HQ). destruct (Q b) eqn:E; [rewrite (HQP _ E); cbn; lia|]. destruct (P b); cbn; lia.
Qed.

Lemma filter_monotone {A} (P Q : A -> bool) (l : list A) :
  (forall b, Q b = true -> P b = true) -> length (List.filter Q l) <= length (List.filter P l).
Proof.
  intros HQP. induction l as [|b k IH]; [done|]. cbn. destruct (Q b) eqn:E; [rewrite (HQP _ E); cbn; lia|]. destruct (P b); cbn; lia.
Qed.

(** ** Uses *)

Definition uses defs x y : Prop := exists d, Pdef defs x = Some d /\ y ∈ m_operands d.

(** The array of definitions by the id of their output *)
Definition index_of (l : list (option CDefinition)) (ds : list CDefinition) : Prop :=
  forall i d, mjoin (l !! i) = Some d <-> d ∈ ds /\ m_id (m_psymOutput d) = i.

(** The index finds the definitions of the symbols of a rule, which have different ids. *)
Record indexed U defs : Prop := {
  ix_ids x y : x ∈ U -> y ∈ U -> m_id x = m_id y -> x = y;
  ix_index : index_of (m_pdrgpdefByOutput defs) (m_pdrgpdefDefinitions defs);
  ix_output d : d ∈ m_pdrgpdefDefinitions defs -> m_psymOutput d ∈ U;
  ix_operands d y : d ∈ m_pdrgpdefDefinitions defs -> y ∈ m_operands d -> y ∈ U;
}.

Lemma ix_def U defs x d : indexed U defs -> Pdef defs x = Some d -> d ∈ m_pdrgpdefDefinitions defs.
Proof. intros Hix H. by apply (ix_index _ _ Hix) in H as [? _]. Qed.

Lemma ix_find U defs x d : indexed U defs -> x ∈ U ->
  Pdef defs x = Some d <-> d ∈ m_pdrgpdefDefinitions defs /\ m_psymOutput d = x.
Proof.
  intros Hix Hx. unfold Pdef. rewrite (ix_index _ _ Hix (m_id x) d). split; [|by intros [? <-]].
  intros [Hd Hid]. split; [done|]. apply (ix_ids _ _ Hix); [by apply (ix_output _ _ Hix)|done|done].
Qed.

Section Uses.
Context U defs (Hix : indexed U defs) (target : CDSLSymbol).

Definition open_defs v : nat :=
  length (List.filter (fun d => negb (bool_decide (m_psymOutput d ∈ v))) (m_pdrgpdefDefinitions defs)).

Definition searched v v' : Prop :=
  (forall y, y ∈ v -> y ∈ v') /\ forall y, y ∈ v' -> y ∈ v \/ (y <> target /\ forall z, uses defs y z -> z ∈ v').

Lemma open_defs_le v v' : (forall y, y ∈ v -> y ∈ v') -> open_defs v' <= open_defs v.
Proof.
  intros Hsub. apply filter_monotone. intros d. rewrite !negb_true_iff, !bool_decide_eq_false. auto.
Qed.

Lemma open_defs_lt v x d : x ∈ U -> Pdef defs x = Some d -> x ∉ v -> open_defs (x :: v) < open_defs v.
Proof.
  intros HxU Hd Hv. apply (ix_find U) in Hd as [Hd Hout]; [|done..]. apply (filter_shrinks _ _ _ d); [|done|..].
  - intros e. rewrite !negb_true_iff, !bool_decide_eq_false. intros H1 H2. apply H1. by right.
  - apply negb_true_iff, bool_decide_eq_false. by rewrite Hout.
  - apply negb_false_iff, bool_decide_eq_true. rewrite Hout. left.
Qed.

Lemma FUsesRecursive_ret n : forall x v, x ∈ U -> open_defs v < n ->
  returns (FUsesRecursive n defs x target v) (fun r =>
    if r.1 then rtc (uses defs) x target else searched v r.2 /\ x ∈ r.2).
Proof.
  induction n as [|n IH]; intros x v HxU Hn; [lia|]. cbn [FUsesRecursive].
  case_bool_decide as Ht; [subst; apply returns_ret; apply rtc_refl|].
  case_bool_decide as Hv; [apply returns_ret; split; [split; auto|done]|].
  destruct (Pdef defs x) as [d|] eqn:Ed.
  2: { apply returns_ret. split; [|left]. split; [by right|]. intros y [->|Hy]%elem_of_cons; [right|by left].
       split; [done|]. intros z (d & Hd & _). congruence. }
  pose proof (open_defs_lt v x d HxU Ed Hv) as Hlt.
  eapply returns_mono; [apply (for_until_rule (fun pre w => searched (x :: v) w /\ forall y, y ∈ pre -> y ∈ w)
                                 (fun _ => rtc (uses defs) x target))|].
  - split; [|by intros y ?%not_elem_of_nil]. split; auto.
  - intros pre a rest w Hops [[Hs1 Hs2] Hpre].
    assert (Ha : uses defs x a) by (exists d; split; [done|]; rewrite Hops; set_solver).
    eapply returns_mono; [apply IH|].
    + apply (ix_find U) in Ed as [Ed _]; [|done..]. eapply ix_operands; [done..|]. rewrite Hops. set_solver.
    + pose proof (open_defs_le (x :: v) w Hs1). lia.
    + intros [[] w'] Hr; cbn in Hr |- *; [by eapply rtc_l|]. destruct Hr as [[Hw1 Hw2] Haw]. split.
      * split; [auto|]. intros y Hy. destruct (Hw2 y Hy) as [Hyw|?]; [|by right].
        destruct (Hs2 y Hyw) as [?|[? Hz]]; [by left|]. right. split; [done|]. auto.
      * intros y [Hy|Hy]%elem_of_app; [auto|]. by apply list_elem_of_singleton in Hy as ->.
  - intros [[] w]; cbn; [done|]. intros [[Hs1 Hs2] Hall]. split; [|apply Hs1; left]. split; [intros y Hy; apply Hs1; by right|].
    intros y Hy. destruct (Hs2 y Hy) as [[->|Hyv]%elem_of_cons|?]; [right|by left|by right].
    split; [done|]. intros z (d' & Hd' & Hz). rewrite Ed in Hd'. simplify_eq. auto.
Qed.
End Uses.

Lemma FUses_ret U defs x y : indexed U defs -> x ∈ U ->
  returns (FUses defs x y) (fun b => b = true <-> rtc (uses defs) x y).
Proof.
  intros Hix Hx. unfold FUses. eapply (returns_bind _ (fun r => mret r.1)); [apply (FUsesRecursive_ret U); [done..|]|].
  - eapply Nat.le_lt_trans; [by apply (filter_monotone (fun _ => true))|]. rewrite List.filter_true. lia.
  - intros [[] v]; cbn; intros Hr; apply returns_ret; [done|]. split; [done|]. intros Hxy. exfalso.
    destruct Hr as [[_ Hs] Hxv]. assert (Hclosed : forall z, z ∈ v -> rtc (uses defs) z y -> False); [|by eapply Hclosed].
    intros z Hz Hzy. revert Hz. induction Hzy as [z|z z' y Hzz' _ IH]; intros Hz.
    + destruct (Hs z Hz) as [?%not_elem_of_nil|[? _]]; done.
    + apply IH; [|done|]; [done|]. destruct (Hs z Hz) as [?%not_elem_of_nil|[_ Hn]]; [done|auto].
Qed.

(** ** Validation *)

Section Cycles.
Context (m : list (CDSLSymbol * CDSLConstraint)).

Definition depends x y : Prop := exists con, map_find m x = Some con /\ y ∈ tail (m_con_syms con).

Definition open_entries v : nat := length (List.filter (fun e => negb (bool_decide (e.1 ∈ v))) m).

Lemma map_find_elem {V} (l : list (CDSLSymbol * V)) k a : map_find l k = Some a -> (k, a) ∈ l.
Proof.
  unfold map_find. destruct (List.find _ l) as [[k' a']|] eqn:E; [|done]. cbn. intros [= ->].
  apply find_some in E as [E Hk]. apply bool_decide_eq_true in Hk. cbn in Hk. subst. by apply list_elem_of_In.
Qed.

Lemma open_entries_lt v x con : map_find m x = Some con -> x ∉ v -> open_entries (x :: v) < open_entries v.
Proof.
  intros Hf%map_find_elem Hv. apply (filter_shrinks _ _ _ (x, con)); [|done|..].
  - intros e. rewrite !negb_true_iff, !bool_decide_eq_false. intros H1 H2. apply H1. by right.
  - by apply negb_true_iff, bool_decide_eq_false.
  - apply negb_false_iff, bool_decide_eq_true. left.
Qed.

(** The symbols on the path lead to the symbol visited; below the complete ones
    there is no infinite descent. *)
Definition safe_sets (sets : list CDSLSymbol * list CDSLSymbol) : Prop := forall y, y ∈ sets.2 -> Acc (fun a b => depends b a) y.

Definition cycle_free v (r : bool * (list CDSLSymbol * list CDSLSymbol)) (done : list CDSLSymbol) : Prop :=
  if r.1 then exists y, tc depends y y
  else r.2.1 = v /\ safe_sets r.2 /\ forall y, y ∈ done -> y ∈ r.2.2.

Lemma FHasCycle_ret n : forall x v c, (forall y, y ∈ v -> tc depends y x) -> safe_sets (v, c) -> open_entries v < n ->
  returns (FHasCycle n m x (v, c)) (fun r => cycle_free v r (x :: c)).
Proof.
  induction n as [|n IH]; intros x v c Hpath Hsafe Hn; [lia|]. cbn [FHasCycle].
  case_bool_decide as Hc; [apply returns_ret; split_and!; [done..|]; by intros y [->|?]%elem_of_cons|].
  case_bool_decide as Hv; [apply returns_ret; exists x; auto|].
  eapply (returns_bind _ _ (fun r : bool * (list CDSLSymbol * list CDSLSymbol) => if r.1 then exists y, tc depends y y
      else r.2.1 = x :: v /\ safe_sets r.2 /\ (forall y, depends x y -> y ∈ r.2.2) /\ forall y, y ∈ c -> y ∈ r.2.2)).
  - destruct (map_find m x) as [con|] eqn:Ef; [|apply returns_ret; split_and!; try done; intros y (? & ? & _); congruence].
    pose proof (open_entries_lt v x con Ef Hv).
    eapply returns_mono; [apply (for_until_rule (fun pre w => w.1 = x :: v /\ safe_sets w /\ (forall y, y ∈ pre -> y ∈ w.2) /\
        forall y, y ∈ c -> y ∈ w.2) (fun _ => exists y, tc depends y y))|].
    + split_and!; [done..| |done]. by intros y ?%not_elem_of_nil.
    + intros pre a rest [w1 w2] Hops (Hw1 & Hw2 & Hpre & Hcw). cbn in Hw1, Hpre, Hcw. subst w1.
      assert (Ha : depends x a) by (exists con; split; [done|]; rewrite Hops; set_solver).
      eapply returns_mono; [apply IH; [|done|lia]|].
      * intros y [->|Hy]%elem_of_cons; [by apply tc_once|]. eapply tc_r; [by apply Hpath|done].
      * intros [[] [w1 w3]]; cbn; [done|]. intros (-> & Hs & Hd). cbn in Hd. split_and!; [done..| |].
        -- intros y [Hy|Hy]%elem_of_app; [apply Hd; right; auto|]. apply list_elem_of_singleton in Hy as ->. apply Hd. left.
        -- intros y Hy. apply Hd. right. auto.
    + intros [[] w]; cbn; [done|]. intros (H1 & H2 & H3 & H4). split_and!; [done..| |done].
      intros y (con' & Hf & Hy). rewrite Ef in Hf. simplify_eq. auto.
  - intros [[] [w1 w2]]; cbn; [intros; by apply returns_ret|]. intros (-> & Hs & Hdep & Hcw). apply returns_ret. split_and!; cbn.
    + rewrite bool_decide_true by done. cbn. clear -Hv. induction v as [|y v IH]; [done|].
      cbn. rewrite bool_decide_false; [|intros ->; apply Hv; left]. cbn. f_equal. apply IH. intros Hy. apply Hv. by right.
    + intros y [->|Hy]%elem_of_cons; [|by apply Hs]. constructor. intros z Hz. by apply Hs, Hdep.
    + intros y [->|Hy]%elem_of_cons; [left|]. right. by apply Hcw.
Qed.
End Cycles.

(** The dependencies of the defining constraints *)
Definition con_depends (cons : list CDSLConstraint) x y : Prop :=
  exists con, con ∈ cons /\ PsymOutput con = Some x /\ y ∈ tail (m_con_syms con).

Lemma map_find_None {V} (l : list (CDSLSymbol * V)) k : map_find l k = None <-> k ∉ l.*1.
Proof.
  unfold map_find. split.
  - destruct (List.find _ l) as [e|] eqn:E; [done|]. intros _ ([k' a] & -> & Hk)%list_elem_of_fmap.
    eapply find_none in E; [|by apply list_elem_of_In]. cbn in E. by rewrite bool_decide_true in E.
  - intros Hk. destruct (List.find _ l) as [[k' a]|] eqn:E; [|done]. exfalso. apply Hk.
    apply find_some in E as [E Hk']. apply bool_decide_eq_true in Hk'. cbn in Hk'. subst.
    apply list_elem_of_fmap. exists (k, a). split; [done|]. by apply list_elem_of_In.
Qed.

Lemma map_find_Some {V} (l : list (CDSLSymbol * V)) k a : NoDup l.*1 -> map_find l k = Some a <-> (k, a) ∈ l.
Proof.
  intros Hnd. split; [apply map_find_elem|]. intros Hin. destruct (map_find l k) as [b|] eqn:E.
  - apply map_find_elem in E. f_equal. revert Hnd Hin E. clear. induction l as [|[k' c] l IH]; intros Hnd Hin E; [by apply not_elem_of_nil in E|].
    cbn in Hnd. apply NoDup_cons in Hnd as [Hk Hnd].
    assert (forall d, (k, d) ∈ l -> k ∈ l.*1) as Hin1 by (intros d Hd; apply list_elem_of_fmap; by exists (k, d)).
    apply elem_of_cons in Hin as [Hin|Hin], E as [E|E]; [congruence|..|by apply IH]; exfalso; apply Hk; simplify_eq; eauto.
  - apply map_find_None in E. exfalso. apply E. apply list_elem_of_fmap. by exists (k, a).
Qed.

Lemma definition_map_eq cons m :
  NoDup m.*1 ->
  match definition_map cons m with
  | Some m' => NoDup m'.*1 /\ NoDup (m.*1 ++ omap PsymOutput cons) /\
      forall x con, (x, con) ∈ m' <-> (x, con) ∈ m \/ (con ∈ cons /\ PsymOutput con = Some x)
  | None => ~ NoDup (m.*1 ++ omap PsymOutput cons)
  end.
Proof.
  revert m. induction cons as [|c cons IH]; intros m Hm; cbn [definition_map].
  { rewrite app_nil_r. split_and!; [done..|]. intros x con. split; [by left|]. intros [?|[?%not_elem_of_nil _]]; done. }
  cbn [omap list_omap]. destruct (PsymOutput c) as [s|] eqn:Es.
  2: { specialize (IH m Hm). destruct (definition_map cons m) as [m'|]; [|done]. destruct IH as (H1 & H2 & H3).
       split_and!; [done..|]. intros x con. rewrite H3. rewrite elem_of_cons. naive_solver. }
  unfold map_emplace. destruct (map_find m s) as [a|] eqn:Ef.
  - intros Hnd. apply map_find_elem in Ef. apply NoDup_app in Hnd as (_ & Hnd & _). apply (Hnd s); [|left].
    apply list_elem_of_fmap. by exists (s, a).
  - apply map_find_None in Ef. specialize (IH (m ++ [(s, c)])). rewrite fmap_app in IH. cbn in IH.
    rewrite <- (assoc_L (++)) in IH. cbn in IH.
    assert (Hm' : NoDup (m.*1 ++ [s])) by (apply NoDup_app; split_and!; [done| |apply NoDup_singleton];
      intros y Hy ->%list_elem_of_singleton; done).
    specialize (IH Hm'). destruct (definition_map cons (m ++ [(s, c)])) as [m'|]; [|done].
    destruct IH as (H1 & H2 & H3). split_and!; [done..|]. intros x con.
    rewrite H3, elem_of_app, list_elem_of_singleton, elem_of_cons. naive_solver.
Qed.

Lemma tc_first {A} (R : relation A) a b : tc R a b -> exists c, R a c /\ rtc R c b.
Proof. intros H. inversion H; subst; eauto using rtc_refl, tc_rtc. Qed.

Lemma tc_of_rtc {A} (R : relation A) a b c : rtc R a b -> R b c -> tc R a c.
Proof. induction 1; intros; [by apply tc_once|]. eapply tc_l; eauto. Qed.

Lemma acc_no_cycle {A} (R : relation A) a : Acc (fun a b => R b a) a -> ~ tc R a a.
Proof.
  induction 1 as [a _ IH]. intros (b & Hab & Hba)%tc_first. apply (IH b Hab). by eapply tc_of_rtc.
Qed.

Lemma tc_ext {A} (R S : relation A) a b : (forall a b, R a b -> S a b) -> tc R a b -> tc S a b.
Proof. intros HRS. induction 1; [by apply tc_once, HRS|]. eapply tc_l; eauto. Qed.

Lemma tc_last {A} (R : relation A) a b : tc R a b -> exists c, rtc R a c /\ R c b.
Proof. induction 1 as [a b H|a b c Hab _ (d & Hbd & Hdc)]; [by exists a; split; [apply rtc_refl|]|]. exists d. split; [by eapply rtc_l|done]. Qed.

Section Validate.
Context `{HO : HashOrder} `{HL : !HashOrderLaws}.

(** Every symbol is defined once and no definition leads back to itself. *)
Definition valid_definitions (cons : list CDSLConstraint) : Prop :=
  NoDup (omap PsymOutput cons) /\ forall y, ~ tc (con_depends cons) y y.

Lemma FValidate_ret cons : returns (FValidate cons) (fun b => b = true <-> valid_definitions cons).
Proof.
  unfold FValidate, valid_definitions. pose proof (definition_map_eq cons [] ltac:(constructor)) as Hm. cbn in Hm.
  destruct (definition_map cons []) as [m|]; [|apply returns_ret; split; [done|]; by intros [? _]].
  destruct Hm as (Hnd & Hout & Hin).
  assert (Heq : forall a b, depends m a b <-> con_depends cons a b).
  { intros a b. unfold depends, con_depends. setoid_rewrite map_find_Some; [|done]. setoid_rewrite Hin. split.
    - intros (con & [Hc|[Hc Ho]] & Hb); [by apply not_elem_of_nil in Hc|eauto].
    - intros (con & Hc & Ho & Hb). eauto. }
  eapply returns_bind; [apply (for_until_rule
    (fun pre w => w.1 = [] /\ safe_sets m w /\ forall e, e ∈ pre -> e.1 ∈ w.2) (fun _ => exists y, tc (depends m) y y))|].
  - split_and!; [done|by intros y ?%not_elem_of_nil|by intros y ?%not_elem_of_nil].
  - intros pre e rest [v c] Hl (Hv & Hs & Hpre). cbn in Hv, Hpre. subst v.
    eapply returns_mono; [apply FHasCycle_ret; [by intros y ?%not_elem_of_nil|done|]|].
    + eapply Nat.le_lt_trans; [by apply (filter_monotone (fun _ => true))|]. rewrite List.filter_true. lia.
    + intros [[] [v' c']]; cbn; [done|]. intros (-> & Hs' & Hd). split_and!; [done..|]. cbn in Hd |- *.
      intros e' [He|He]%elem_of_app; [apply Hd; right; auto|]. apply list_elem_of_singleton in He as ->. apply Hd. left.
  - intros [[] [v c]]; cbn; intros Hr; apply returns_ret; cbn.
    + split; [done|]. intros [_ Hno]. destruct Hr as [y Hy]. destruct (Hno y). by eapply tc_ext; [|done]; apply Heq.
    + destruct Hr as (_ & Hs & Hd). split; [|done]. intros _. split; [done|]. intros y Hy.
      assert (Hy' : tc (depends m) y y) by (eapply tc_ext; [|done]; by intros; apply Heq).
      apply (acc_no_cycle (depends m) y); [|done]. apply Hs. cbn.
      apply tc_first in Hy' as (z & (con & Hf & _) & _). apply map_find_elem in Hf.
      apply (Hd (y, con)). by rewrite hash_order_perm.
Qed.

(** ** The index *)

Record defs_ok U defs : Prop := {
  do_indexed : indexed U defs;
  do_outputs : NoDup (map m_psymOutput (m_pdrgpdefDefinitions defs));
  do_acyclic x : ~ tc (uses defs) x x;
}.

Definition legacy_def (con : CDSLConstraint) : option CDefinition :=
  (fun s => mkDef (EdslexprKind con) ELegacy s (tail (m_con_syms con))) <$> PsymOutput con.

Lemma output_kind con s : PsymOutput con = Some s -> EdslexprKind con <> EdslexprSentinel /\ s ∈ m_con_syms con.
Proof.
  unfold PsymOutput. intros H. split; [intros E; by rewrite E in H|].
  destruct (match EdslexprKind con with EdslexprSentinel => _ | _ => _ end); [done|].
  destruct (m_con_syms con); [done|]. cbn in H. simplify_eq. left.
Qed.

Lemma index_replicate n : index_of (replicate n None) [].
Proof.
  intros i d. split; [|by intros [?%not_elem_of_nil _]]. destruct (replicate n None !! i) eqn:E; [|done].
  apply lookup_replicate in E as [-> _]. done.
Qed.

Lemma index_extend l ds pos : index_of l ds -> index_of (extend_to l pos) ds /\ pos < length (extend_to l pos).
Proof.
  intros Hl. unfold extend_to. split; [|rewrite length_app, length_replicate; lia]. intros i d. rewrite <- (Hl i d).
  destruct (decide (i < length l)); [by rewrite lookup_app_l|]. rewrite lookup_app_r by lia.
  rewrite (lookup_ge_None_2 l i) by lia. destruct (replicate _ None !! _) eqn:E; [|done]. by apply lookup_replicate in E as [-> _].
Qed.

Lemma index_insert l ds d :
  index_of l ds -> m_id (m_psymOutput d) < length l -> (forall e, e ∈ ds -> m_id (m_psymOutput e) <> m_id (m_psymOutput d)) ->
  array_replace l (m_id (m_psymOutput d)) (Some d) = Ret (<[m_id (m_psymOutput d) := Some d]> l) /\
  index_of (<[m_id (m_psymOutput d) := Some d]> l) (ds ++ [d]).
Proof.
  intros Hl Hlt Hnew. split; [unfold array_replace; by assert_step|]. intros i e. rewrite elem_of_app, list_elem_of_singleton.
  destruct (decide (i = m_id (m_psymOutput d))) as [->|Hi].
  - rewrite list_lookup_insert_eq by done. cbn. split; [intros [= ->]; auto|]. intros [[He|He] Hid]; [|by rewrite He].
    by destruct (Hnew e He).
  - rewrite list_lookup_insert_ne by done. rewrite (Hl i e). split; [naive_solver|]. intros [[He| ->] Hid]; [done|]. by destruct Hi.
Qed.

Lemma indexed_of U l ds :
  (forall x y, x ∈ U -> y ∈ U -> m_id x = m_id y -> x = y) -> index_of l ds ->
  (forall d, d ∈ ds -> m_psymOutput d ∈ U /\ forall y, y ∈ m_operands d -> y ∈ U) -> indexed U (mkDefs l ds).
Proof. intros HU Hl Hds. split; cbn; [done..| |]; [by intros d [? _]%Hds|]. intros d y [_ H]%Hds. auto. Qed.

Lemma legacy_elem cons d : d ∈ omap legacy_def cons -> exists con, con ∈ cons /\ PsymOutput con = Some (m_psymOutput d) /\
  m_operands d = tail (m_con_syms con) /\ m_binding d = ELegacy.
Proof.
  intros (con & Hc & Hd)%list_elem_of_omap. unfold legacy_def in Hd. destruct (PsymOutput con) as [o|] eqn:E; [|done].
  cbn in Hd. simplify_eq. by exists con.
Qed.

Lemma legacy_outputs cons : map m_psymOutput (omap legacy_def cons) = omap PsymOutput cons.
Proof.
  induction cons as [|c cons IH]; [done|]. cbn. unfold legacy_def at 1. destruct (PsymOutput c); cbn; by rewrite IH.
Qed.

Lemma Definitions_ctor_ret U cons :
  (forall x y, x ∈ U -> y ∈ U -> m_id x = m_id y -> x = y) -> (forall con s, con ∈ cons -> s ∈ m_con_syms con -> s ∈ U) ->
  valid_definitions cons ->
  returns (Definitions_ctor cons) (fun defs => defs_ok U defs /\ m_pdrgpdefDefinitions defs = omap legacy_def cons).
Proof.
  intros HU Hin Hval. pose proof Hval as [Hnd Hacyc]. unfold Definitions_ctor. eapply returns_bind; [apply FValidate_ret|].
  intros b Hb. rewrite (bind_assert b) by (by apply Hb).
  assert (Hds : forall d, d ∈ omap legacy_def cons -> m_psymOutput d ∈ U /\ forall y, y ∈ m_operands d -> y ∈ U).
  { intros d (con & Hc & Ho & -> & _)%legacy_elem. split; [eapply Hin; [done|]; by apply output_kind|].
    intros y Hy. eapply Hin; [done|]. destruct (m_con_syms con); [done|]. by right. }
  eapply (returns_bind _ _ (fun ds => ds = omap legacy_def cons)).
  { apply (for_each_rule (fun pre ds => ds = omap legacy_def pre)); [done|]. intros pre con rest ds _ ->.
    rewrite omap_app. cbn [omap list_omap]. assert (legacy_def con = (fun s => mkDef (EdslexprKind con) ELegacy s (tail (m_con_syms con))) <$> PsymOutput con) as -> by done.
    destruct (PsymOutput con) as [o|] eqn:E; [|apply returns_ret; by rewrite app_nil_r]. cbn.
    unfold CDefinition_ctor. rewrite bind_assert; [by apply returns_ret|]. apply bool_decide_eq_true. by apply (output_kind con o). }
  intros ds ->. set (ds := omap legacy_def cons) in *. set (mx := foldr _ _ _).
  assert (Hmx : forall d, d ∈ ds -> m_id (m_psymOutput d) <= mx).
  { subst mx. clear. induction ds as [|e ds IH]; intros d Hd; [by apply not_elem_of_nil in Hd|]. cbn.
    apply elem_of_cons in Hd as [->|Hd]; [lia|]. specialize (IH d Hd). lia. }
  assert (Hids : NoDup (map (fun d => m_id (m_psymOutput d)) ds)).
  { apply NoDup_fmap_2_strong; [|apply (NoDup_fmap_1 m_psymOutput); rewrite <- legacy_outputs in Hnd; exact Hnd].
    intros d e Hd He Hid. assert (m_psymOutput d = m_psymOutput e) as Ho by (apply HU; [by apply Hds..|done]).
    rewrite <- legacy_outputs in Hnd. fold ds in Hnd. apply list_elem_of_lookup in Hd as [i Hi], He as [j Hj].
    assert (i = j) as ->; [|congruence]. eapply NoDup_lookup; [exact Hnd|..]; rewrite list_lookup_fmap; [by rewrite Hi|by rewrite Hj, Ho]. }
  eapply (returns_bind _ _ (fun l => index_of l ds)).
  - destruct (length ds =? 0) eqn:E0; [destruct ds; [|done]; apply returns_ret, (index_replicate 0)|].
    eapply returns_mono; [apply (for_each_rule (fun pre l => index_of l pre /\ length l = S mx))|by intros l [? _]].
    + split; [apply index_replicate|by rewrite length_replicate].
    + intros pre d rest l Hl [Hix Hlen]. destruct (index_insert l pre d Hix) as [-> Hix'].
      * rewrite Hlen. assert (d ∈ ds) as Hd by (rewrite Hl; set_solver). specialize (Hmx d Hd). lia.
      * intros e He Hid. rewrite Hl, map_app in Hids. apply NoDup_app in Hids as (_ & Hids & _).
        apply (Hids (m_id (m_psymOutput d))); [apply list_elem_of_fmap; eauto|]. cbn. left.
      * apply returns_ret. split; [done|]. by rewrite length_insert.
  - intros l Hl. apply returns_ret. split; [|done].
    assert (Hstep : forall x z, x ∈ U -> uses (mkDefs l ds) x z -> con_depends cons x z /\ z ∈ U).
    { intros x z Hx (d & Hd & Hz). apply (ix_find U) in Hd as [Hd <-]; [|by apply indexed_of|done].
      split; [|by eapply Hds]. apply legacy_elem in Hd as (con & Hc & Ho & Hop & _). exists con. by rewrite <- Hop. }
     split; [by apply indexed_of|by cbn; subst ds; rewrite legacy_outputs|].
    intros y Hy. assert (HyU : y ∈ U).
    { apply tc_last in Hy as (z & _ & (d & Hd & Hop)). apply Hl in Hd as [Hd _]. by eapply Hds. }
    apply (Hacyc y). revert Hy. generalize y at 2 4. intros z Hz. induction Hz as [x z Hxz|x w z Hxw _ IH].
    + by apply tc_once, Hstep.
    + eapply tc_l; [by apply Hstep|]. apply IH. eapply Hstep; [exact HyU|done].
Qed.
End Validate.

(** ** Signatures *)

Lemma psig_loop_inv name arity types sigs result s :
  psig_loop name arity types sigs result = Some s -> result = Some s \/
  (s ∈ sigs /\ s_name s = name /\ s_arity s = arity /\ types_match types (s_types s) = true).
Proof.
  revert result. induction sigs as [|t sigs IH]; intros result H; cbn in H; [by left|].
  destruct ((s_arity t =? arity) && String.eqb (s_name t) name && types_match types (s_types t)) eqn:E.
  - destruct result; [done|]. apply IH in H as [[= ->]|(H1 & H2)]; [|right; split; [by right|done]].
    apply andb_prop in E as [[E1%Nat.eqb_eq E2%String.eqb_eq]%andb_prop E3]. right. split; [left|done].
  - apply IH in H as [?|(H1 & H2)]; [by left|]. right. split; [by right|done].
Qed.

Lemma PsigBinding_inv name arity types s :
  PsigBinding name arity types = Some s ->
  s ∈ binding_signatures /\ name = Some (s_name s) /\ s_arity s = arity /\ types_match types (s_types s) = true.
Proof.
  unfold PsigBinding. destruct (negb _ && negb _); [done|]. destruct name as [name|]; [|done].
  intros [?|(H1 & H2 & H3 & H4)]%psig_loop_inv; [done|]. by subst.
Qed.

Lemma signature_length s : s ∈ binding_signatures -> length (s_types s) = S (s_arity s).
Proof.
  assert (Forall (fun s => length (s_types s) = S (s_arity s)) binding_signatures) as H by (repeat constructor).
  rewrite Forall_forall in H. apply H.
Qed.

(** A definition is typed: a reference between symbols of one kind, or a signature. *)
Definition well_typed (kind : EDslExpressionKind) (symbols : list CDSLSymbol) : Prop :=
  (kind = EdslexprRef /\ exists a b, symbols = [a; b] /\ m_esymk a = m_esymk b) \/
  exists s, PsigBinding (SzBindingName kind) (length symbols - 1) (map m_esymk symbols) = Some s /\ s_types s = map m_esymk symbols.

Lemma uses_new U defs l d x y :
  let new := mkDefs l (m_pdrgpdefDefinitions defs ++ [d]) in
  indexed U defs -> indexed U new -> x ∈ U ->
  uses new x y -> uses defs x y \/ (x = m_psymOutput d /\ y ∈ m_operands d).
Proof.
  intros new Hold Hnew Hx (e & He & Hy). apply (ix_find U) in He as [He Ho]; [|done..]. cbn in He.
  apply elem_of_app in He as [He|He%list_elem_of_singleton]; [|subst; by right]. left. exists e. split; [|done]. by apply (ix_find U).
Qed.

Section NewCycle.
Context U defs l d (Hold : indexed U defs) (Hnew : indexed U (mkDefs l (m_pdrgpdefDefinitions defs ++ [d]))).
Hypothesis Hsafe : forall y, y ∈ m_operands d -> ~ rtc (uses defs) y (m_psymOutput d).
Let new := mkDefs l (m_pdrgpdefDefinitions defs ++ [d]).

Lemma uses_target x y : uses new x y -> x ∈ U -> y ∈ U.
Proof. intros (e & He & Hy) Hx. apply (ix_find U) in He as [He _]; [|done..]. by eapply ix_operands. Qed.

(** A path uses the new definition, a last time, or not. *)
Lemma path_new x y : x ∈ U -> rtc (uses new) x y -> y ∈ U /\
  (rtc (uses defs) x y \/ (rtc (uses defs) x (m_psymOutput d) /\ exists z, z ∈ m_operands d /\ rtc (uses defs) z y)).
Proof.
  intros Hx Hxy. revert y Hxy. apply (rtc_ind_r (fun y => y ∈ U /\ _)); [split; [done|left; apply rtc_refl]|].
  intros y z _ Hyz [HyU IH]. split; [by eapply uses_target|].
  destruct (uses_new U defs l d y z Hold Hnew HyU Hyz) as [Hyz'|[-> Hz]].
  - destruct IH as [IH|(IH & w & Hw & Hwy)]; [left; by eapply rtc_r|]. right. split; [done|]. exists w. split; [done|by eapply rtc_r].
  - right. split; [by destruct IH as [?|[? _]]|]. exists z. split; [done|apply rtc_refl].
Qed.

Lemma still_acyclic : (forall x, ~ tc (uses defs) x x) -> forall x, ~ tc (uses new) x x.
Proof.
  intros Hac x Hxx. assert (HxU : x ∈ U).
  { apply tc_last in Hxx as (z & _ & (e & He & Hop)). apply (ix_def U) in He; [|done]. by eapply ix_operands. }
  apply tc_first in Hxx as (y & Hxy & Hyx). assert (HyU : y ∈ U) by (by eapply uses_target).
  apply path_new in Hyx as [_ Hyx]; [|done]. destruct (uses_new U defs l d x y Hold Hnew HxU Hxy) as [Hxy'|[-> Hy]].
  - destruct Hyx as [Hyx|(Hyo & z & Hz & Hzx)]; [apply (Hac x); eapply tc_rtc_r; [by apply tc_once|done]|].
    apply (Hsafe z Hz). etrans; [exact Hzx|]. by eapply rtc_l.
  - by destruct Hyx as [Hyx|(Hyo & _)]; apply (Hsafe y Hy).
Qed.
End NewCycle.

Lemma binding_name_kind kind : kind <> EdslexprRef -> is_Some (SzBindingName kind) -> kind <> EdslexprSentinel.
Proof. intros _ [n H] ->. by vm_compute in H. Qed.

(** The index after a definition is added *)
Lemma append_def_ok U defs d :
  defs_ok U defs -> m_psymOutput d ∈ U -> (forall y, y ∈ m_operands d -> y ∈ U) -> Pdef defs (m_psymOutput d) = None ->
  (forall y, y ∈ m_operands d -> ~ rtc (uses defs) y (m_psymOutput d)) ->
  exists l, array_replace (extend_to (m_pdrgpdefByOutput defs) (m_id (m_psymOutput d))) (m_id (m_psymOutput d)) (Some d) = Ret l /\
    defs_ok U (mkDefs l (m_pdrgpdefDefinitions defs ++ [d])).
Proof.
  intros [Hix Hnd Hac] Hout Hops Hnone Hsafe. destruct (index_extend _ _ (m_id (m_psymOutput d)) (ix_index _ _ Hix)) as [Hext Hlen].
  assert (Hnew : forall e, e ∈ m_pdrgpdefDefinitions defs -> m_id (m_psymOutput e) <> m_id (m_psymOutput d)).
  { intros e He Hid. assert (Pdef defs (m_psymOutput d) = Some e) as E; [|congruence]. apply (ix_find U); [done..|].
    split; [done|]. apply (ix_ids _ _ Hix); [by eapply ix_output|done|done]. }
  destruct (index_insert _ _ d Hext Hlen Hnew) as [Hrep Hins]. eexists. split; [exact Hrep|].
  assert (Hix' : indexed U (mkDefs (<[m_id (m_psymOutput d) := Some d]> (extend_to (m_pdrgpdefByOutput defs) (m_id (m_psymOutput d))))
      (m_pdrgpdefDefinitions defs ++ [d]))).
  { apply indexed_of; [apply Hix|done|]. intros e [He| ->%list_elem_of_singleton]%elem_of_app; [|done].
    split; [by eapply ix_output|]. intros y. by eapply ix_operands. }
  split; [done|..|by apply (still_acyclic U defs _ d)]. cbn. rewrite map_app. apply NoDup_app.
  split_and!; [done| |apply NoDup_singleton]. cbn.
  intros x (e & -> & He)%list_elem_of_fmap Hx%list_elem_of_singleton. apply (Hnew e He). by rewrite Hx.
Qed.

(** The checks of the operands give the type of the definition. *)
Lemma checked_typed defs sig kind out ops t0 :
  sig = PsigBinding (SzBindingName kind) (length (out :: ops) - 1) (map m_esymk (out :: ops)) ->
  (if bool_decide (kind = EdslexprRef) then negb (length (out :: ops) =? 2) else negb (bool_decide (is_Some sig))) = false ->
  (forall s, sig = Some s -> length (s_types s) = S (length ops)) -> t0 = m_esymk out ->
  (forall s, sig = Some s -> s_types s !! 0 = Some t0) ->
  (forall i, i ∈ seq 1 (length (out :: ops) - 1) -> exists sym, (out :: ops) !! i = Some sym /\
     (forall s, sig = Some s -> s_types s !! i = Some (m_esymk sym)) /\ (sig = None -> m_esymk sym = m_esymk out) /\
     ~ rtc (uses defs) sym out) ->
  well_typed kind (out :: ops).
Proof.
  intros Hsig Hguard Hlen Ht0o Ht0 Hops. unfold well_typed. destruct sig as [s|] eqn:Es.
  - right. exists s. split; [by rewrite <- Hsig|]. apply list_eq. intros i. rewrite list_lookup_fmap.
    destruct ((out :: ops) !! i) as [sym|] eqn:Ei; cbn [fmap option_fmap option_map].
    + destruct i as [|i]; [cbn in Ei; simplify_eq; by apply Ht0|].
      destruct (Hops (S i)) as (sym' & Hs & Ht & _); [apply elem_of_seq; apply lookup_lt_Some in Ei; cbn in *; lia|].
      rewrite Ei in Hs. simplify_eq. by apply Ht.
    + apply lookup_ge_None in Ei. apply lookup_ge_None. rewrite Hlen by done. by cbn in Ei.
  - left. destruct (decide (kind = EdslexprRef)) as [->|Hk].
    + rewrite bool_decide_true in Hguard by done. apply negb_false_iff, Nat.eqb_eq in Hguard. split; [done|].
      destruct ops as [|b [|]]; [done| |done]. exists out, b. split; [done|].
      destruct (Hops 1) as (sym & Hs & _ & Ht & _); [apply elem_of_seq; cbn; lia|]. cbn in Hs. simplify_eq. symmetry. by apply Ht.
    + rewrite bool_decide_false in Hguard by done. apply negb_false_iff, bool_decide_eq_true in Hguard as [? ?]. done.
Qed.

(** The output is not defined yet and no operand leads to it. *)
Definition new_output defs (out : CDSLSymbol) (ops : list CDSLSymbol) : Prop :=
  m_esymk out <> EdslsymSentinel /\ Pdef defs out = None /\ forall y, y ∈ ops -> ~ rtc (uses defs) y out.

Lemma FAppendBinding_ret U defs kind binding symbols :
  defs_ok U defs -> (forall s, s ∈ symbols -> s ∈ U) ->
  returns (FAppendBinding defs kind binding symbols) (fun r =>
    if r.1 then defs_ok U r.2 /\ binding_shape kind binding symbols = true /\ well_typed kind symbols /\
      exists out ops, symbols = out :: ops /\ m_pdrgpdefDefinitions r.2 = m_pdrgpdefDefinitions defs ++ [mkDef kind binding out ops] /\
        new_output defs out ops
    else r.2 = defs).
Proof.
  intros [Hix Hnd Hac] HU. unfold FAppendBinding.
  destruct (binding_shape kind binding symbols) eqn:Hshape; cbn [negb]; [|by apply returns_ret].
  set (sig := PsigBinding _ _ _). set (guard := if bool_decide (kind = EdslexprRef) then _ else _).
  destruct guard eqn:Hguard; [by apply returns_ret|].
  assert (exists out ops, symbols = out :: ops) as (out & ops & ->).
  { destruct symbols; [|eauto]. exfalso. revert Hshape. unfold binding_shape. cbn. by rewrite !andb_false_r. }
  cbn [subscript lookup list_lookup mbind outcome_bind].
  assert (Hsig : forall s, sig = Some s -> length (s_types s) = S (length ops)).
  { intros s Hs. apply PsigBinding_inv in Hs as (H1 & _ & H2 & _). rewrite (signature_length _ H1), H2. cbn. lia. }
  assert (Htype : forall i sym, (out :: ops) !! i = Some sym ->
    exists t, match sig with None => mret (m_esymk out) | Some s => subscript (s_types s) i end = Ret t /\
      forall s, sig = Some s -> s_types s !! i = Some t).
  { intros i sym Hi. destruct sig as [s|]; [|by exists (m_esymk out)]. apply lookup_lt_Some in Hi. cbn in Hi.
    destruct (lookup_lt_is_Some_2 (s_types s) i) as [t Ht]; [rewrite Hsig by done; lia|].
    exists t. rewrite (subscript_some _ _ _ Ht). split; [done|]. by intros ? [= <-]. }
  destruct (Htype 0 out eq_refl) as (t0 & -> & Ht0). cbn [mbind outcome_bind].
  destruct (bool_decide (t0 = EdslsymSentinel) || _ || _) eqn:Hg2; [by apply returns_ret|].
  apply orb_false_elim in Hg2 as [[Ht0s Ht0o]%orb_false_elim Hnone]. apply bool_decide_eq_false in Ht0s.
  apply negb_false_iff, bool_decide_eq_true in Ht0o. apply bool_decide_eq_false in Hnone.
  eapply returns_bind; [apply (for_until_rule (fun pre _ => forall i, i ∈ pre -> exists sym, (out :: ops) !! i = Some sym /\
      (forall s, sig = Some s -> s_types s !! i = Some (m_esymk sym)) /\ (sig = None -> m_esymk sym = m_esymk out) /\
      ~ rtc (uses defs) sym out) (fun _ => True))|].
  { by intros i ?%not_elem_of_nil. }
  { intros pre i rest [] Hl Hpre. assert (Hi : i ∈ seq 1 (length (out :: ops) - 1)) by (rewrite Hl; set_solver).
    apply elem_of_seq in Hi as [Hi1 Hi2]. cbn [length] in Hi2.
    destruct (lookup_lt_is_Some_2 (out :: ops) i) as [sym Hsym]; [cbn; lia|]. rewrite (subscript_some _ _ _ Hsym).
    cbn [mbind outcome_bind]. destruct (Htype i sym Hsym) as (t & Ht & Hts). rewrite Ht. cbn [mbind outcome_bind].
    case_bool_decide as Hty; cbn [negb]; [|by apply returns_ret].
    eapply returns_bind; [apply (FUses_ret U); [done|]; apply HU; by eapply list_elem_of_lookup_2|].
    intros u Hu. apply returns_ret. cbn. destruct u; [done|]. intros j [Hj| ->%list_elem_of_singleton]%elem_of_app; [auto|].
    exists sym. split; [done|]. split_and!; [intros s Hs; rewrite <- Hty; auto| |intros H; by apply Hu in H].
    intros Hs. rewrite Hs in Ht. by injection Ht as <-. }
  intros [[] []]; cbn [fst snd]; intros Hops; [by apply returns_ret|].
  assert (Hops' : forall y, y ∈ ops -> ~ rtc (uses defs) y out).
  { intros y (i & Hi)%list_elem_of_lookup_1. destruct (Hops (S i)) as (sym & Hs & _ & _ & Hno); [apply elem_of_seq; apply lookup_lt_Some in Hi; cbn; lia|].
    change (ops !! i = Some sym) in Hs. congruence. }
  assert (Hkind : kind <> EdslexprSentinel).
  { subst guard. destruct (decide (kind = EdslexprRef)) as [->|Hk]; [done|]. rewrite bool_decide_false in Hguard by done.
    apply negb_false_iff, bool_decide_eq_true in Hguard as [s Hs]. apply PsigBinding_inv in Hs as (_ & Hn & _).
    apply binding_name_kind; [done|]. rewrite Hn. eauto. }
  unfold CDefinition_ctor. rewrite bool_decide_true by done. cbn [GPOS_ASSERT mbind outcome_bind mret outcome_ret tail].
  destruct (append_def_ok U defs (mkDef kind binding out ops)) as (l & Hl & Hok); [by split|apply HU; left|intros y Hy; apply HU; by right| |done|].
  { by apply eq_None_not_Some. }
  cbn [m_psymOutput] in Hl. rewrite Hl. apply returns_ret. cbn [fst snd]. split_and!; [done..| |].
  - by apply (checked_typed defs sig kind out ops t0).
  - exists out, ops. split_and!; [done..|]. split_and!; [congruence|by apply eq_None_not_Some|done].
Qed.
End RuleGraph.
