(* ===== verification/RuleBuild.v ===== *)
(** * The semantic builder of rules

    Source: the builder functions of CDSLRuleParser.cpp (libgpopt/src/dsl), which
    turn a parse tree into operators, symbols, constraints and definitions. A
    function that fails stores a message in the context and returns null; here it
    returns the message. The arrays with the symbols of the two fragments, which
    the code passes along, are part of the context. *)
From Stdlib Require Import Ascii.
From stdpp Require Import base numbers list strings gmap option pretty.
From S2P Require Import Prelude RuleEnums RuleSyntax RuleDefs.

Module RuleBuild.
Import RuleEnums RuleSyntax RuleDefs.
Open Scope string_scope.
Open Scope nat_scope.
Open Scope list_scope.
Open Scope outcome_scope.

(** ** The context and the monad of the builder *)

Record SBuildCtx := mkBuildCtx {
  symtab : gmap string CDSLSymbol;
  next_id : nat;
  has_select_list : bool;
  src_syms : list CDSLSymbol;
  tgt_syms : list CDSLSymbol;
}.

Definition build (A : Type) : Type := SBuildCtx -> outcome (string + A * SBuildCtx).

#[export] Instance build_ret : MRet build := fun A a b => Ret (inr (a, b)).
#[export] Instance build_bind : MBind build := fun A B k m b =>
  match m b with
  | Ret (inr (a, b)) => k a b
  | Ret (inl e) => Ret (inl e)
  | Abort f => Abort f
  end.

(** [bctx.Fail(msg)] and the return of null *)
Definition Fail {A} (msg : string) : build A := fun _ => Ret (inl msg).
Definition lift {A} (m : outcome A) : build A := fun b => match m with Ret a => Ret (inr (a, b)) | Abort f => Abort f end.
Definition get_ctx : build SBuildCtx := fun b => Ret (inr (b, b)).
Definition put_ctx (b : SBuildCtx) : build unit := fun _ => Ret (inr (tt, b)).

Fixpoint each {A B} (l : list A) (f : A -> build B) : build (list B) :=
  match l with
  | [] => mret []
  | a :: l' => (b ← f a; bs ← each l' f; mret (b :: bs))
  end.

(** [for (ul = 0; ...)] over an array *)
Fixpoint each_from {A B} (ul : nat) (l : list A) (f : nat -> A -> build B) : build (list B) :=
  match l with
  | [] => mret []
  | a :: l' => (b ← f ul a; bs ← each_from (S ul) l' f; mret (b :: bs))
  end.

Definition is_target (eside : EDslSide) : bool := match eside with EdslsideTarget => true | EdslsideSource => false end.

(** A new symbol with the next id, in the table and in the array of its side *)
Definition new_symbol (esymk : EDslSymbolKind) (name : string) (eside : EDslSide) : build CDSLSymbol :=
  b ← get_ctx;
  psym ← lift (CDSLSymbol_ctor esymk name (next_id b) eside);
  _ ← put_ctx (mkBuildCtx (<[name := psym]> (symtab b)) (S (next_id b)) (has_select_list b)
                 (if is_target eside then src_syms b else src_syms b ++ [psym])
                 (if is_target eside then tgt_syms b ++ [psym] else tgt_syms b));
  mret psym.

(** ** Operators *)

Definition fJoin (k : EDslOpKind) : bool :=
  match k with EdslopInnerJoin | EdslopLeftJoin | EdslopFullJoin => true | _ => false end.
Definition fSetOp (k : EDslOpKind) : bool :=
  match k with EdslopUnion | EdslopIntersect | EdslopExcept => true | _ => false end.
Definition fInnerApply (k : EDslOpKind) : bool :=
  match k with EdslopInnerApply | EdslopLeftOuterApply => true | _ => false end.
Definition is_op (k k' : EDslOpKind) : bool := bool_decide (k = k').

Definition fLegacyAgg (k : EDslOpKind) (n : nat) : bool := is_op k EdslopAgg && (n =? 5).
Definition fSelectList (k : EDslOpKind) (n : nat) : bool := is_op k EdslopProj && (n =? 3).
Definition fPredicateExists (k : EDslOpKind) (n : nat) : bool := is_op k EdslopExists && (n =? 3).

(** The numbers of symbols accepted besides the one of the table *)
Definition accepted_count (k : EDslOpKind) (n : nat) : bool :=
  fLegacyAgg k n || (fJoin k && ((n =? 2) || (n =? 3) || (n =? 4) || (n =? 5) || (n =? 7))) ||
  fPredicateExists k n || (is_op k EdslopInSubFilter && (n =? 1)) || (fSetOp k && ((n =? 0) || (n =? 2))) ||
  (is_op k EdslopFilter && (n =? 2)) || (is_op k EdslopAntiJoinNotIn && (n =? 3)) || fSelectList k n ||
  ((is_op k EdslopSemiApply || is_op k EdslopAntiApply || fInnerApply k) && (n =? 0)).

Definition expected_text (k : EDslOpKind) (ul_expected : nat) : string :=
  if is_op k EdslopAgg then "5 or 6"
  else if is_op k EdslopProj then "2 or 3"
  else if fJoin k then "2, 3, 4, 5, or 7"
  else if is_op k EdslopExists then "0 or 3"
  else if is_op k EdslopSemiApply || is_op k EdslopAntiApply || fInnerApply k then "0 or 4"
  else if is_op k EdslopInSubFilter then "1 or 5"
  else if fSetOp k then "0, 2, or 4"
  else if is_op k EdslopFilter then "2 or 3"
  else if is_op k EdslopAntiJoinNotIn then "3 or 6"
  else pretty ul_expected.

(** The letter a name must start with, in the layouts with predicates *)
Definition begins_with (c : Ascii.ascii) (name : string) : bool :=
  match name with String d _ => Ascii.eqb c d | EmptyString => false end.

Definition valid_name (k : EDslOpKind) (n ul : nat) (name : string) : bool :=
  (negb (is_op k EdslopAntiJoinNotIn) ||
   begins_with (if n =? 3 then (if ul =? 0 then "p"%char else "a"%char)
                else if (ul =? 0) || (ul =? 3) then "p"%char else "a"%char) name) &&
  (negb ((fJoin k && (n =? 3)) || fPredicateExists k n || is_op k EdslopSemiJoin || is_op k EdslopSemiApply ||
         is_op k EdslopAntiJoin || is_op k EdslopAntiApply || is_op k EdslopAntiApplyNotIn || fInnerApply k) ||
   (if ul =? 0 then begins_with "p"%char name else begins_with "a"%char name)).

(** The kind of the symbol at a position, which the layout of the operator decides *)
Definition symbol_kind (k : EDslOpKind) (edslsort : EDslSortDir) (n ul : nat) : outcome EDslSymbolKind :=
  if fSelectList k n && (ul =? 2) then mret EdslsymExpr
  else if is_op k EdslopSort && bool_decide (edslsort = EdslsortSpec) then mret EdslsymOrder
  else if fLegacyAgg k n && (2 <=? ul) then EsymkindAt k (ul + 1)
  else if (fJoin k && (n =? 3)) || fPredicateExists k n then subscript [EdslsymPred; EdslsymAttrs; EdslsymAttrs] ul
  else if fJoin k && (n =? 5) && (2 <=? ul) then EsymkindAt k (ul + 2)
  else EsymkindAt k ul.

(** One symbol of a declaration *)
Definition build_decl (k : EDslOpKind) (edslsort : EDslSortDir) (eside : EDslSide) (n ul : nat) (t : term) : build CDSLSymbol :=
  name ← lift (deref (match t with Sym s => Some s | CallTerm _ _ => None end));
  if negb (valid_name k n ul name)
  then Fail "predicate-bearing operator expects one <p> followed by <a> symbols" else
  esymk ← lift (symbol_kind k edslsort n ul);
  b ← get_ctx;
  match symtab b !! name with
  | Some psym =>
      if negb (bool_decide (m_eside psym = eside)) || negb (bool_decide (m_esymk psym = esymk))
      then Fail ("value already present: symbol '" +:+ name +:+ "' has an incompatible declaration")
      else mret psym
  | None => new_symbol esymk name eside
  end.

Definition PdrgpsymBuildDecls (k : EDslOpKind) (edslsort : EDslSortDir) (symlist : option (list term)) (eside : EDslSide) :
    build (list CDSLSymbol) :=
  ul_expected ← lift (UlSyms k);
  let terms := default [] symlist in
  let ul_given := length terms in
  b ← get_ctx;
  _ ← put_ctx (mkBuildCtx (symtab b) (next_id b) (has_select_list b || fSelectList k ul_given) (src_syms b) (tgt_syms b));
  if negb (ul_given =? ul_expected) && negb (accepted_count k ul_given) then
    name ← lift (OpSzName k);
    Fail ("operator " +:+ name +:+ " expects " +:+ expected_text k ul_expected +:+ " symbol(s) in <...>, got " +:+ pretty ul_given)
  else each_from 0 terms (build_decl k edslsort eside ul_given).

Fixpoint PopBuild (eside : EDslSide) (o : op) : build CDSLOp :=
  match o with
  | Op id star symlist children =>
      let token := if star then id +:+ "*" else id in
      let '(k, fStar, edslsort, edslaggfunc) := OpParse token in
      if is_op k EdslopSentinel then Fail ("unknown operator: " +:+ token) else
      if is_op k EdslopBind && negb (is_target eside) then Fail "Bind is a target-only deferred value constructor" else
      pdrgpsym ← PdrgpsymBuildDecls k edslsort symlist eside;
      ul_expected ← lift (UlChildren k);
      if negb (length children =? ul_expected) then
        name ← lift (OpSzName k);
        Fail ("operator " +:+ name +:+ " expects " +:+ pretty ul_expected +:+ " child(ren), got " +:+ pretty (length children))
      else
        pdrgpchild ← (fix go (l : list op) : build (list CDSLOp) :=
                        match l with
                        | [] => mret []
                        | c :: l' => (pchild ← PopBuild eside c; rest ← go l'; mret (pchild :: rest))
                        end) children;
        lift (CDSLOp_ctor k fStar edslsort edslaggfunc pdrgpsym pdrgpchild)
  end.

(** ** Constraints *)

Definition is_con (k k' : EDslConstraintKind) : bool := bool_decide (k = k').

(** The outputs of metadata constraints of a rule with bindings are declared first. *)
Definition declare_outputs (con : constraint) : build unit :=
  let kind := ConParse (n_id con) in
  if negb (FBindingMetadata kind) then mret tt else
  arity ← lift (UlArity kind);
  if negb (length (n_syms con) =? arity) then mret tt else
  _ ← each_from 0 (n_syms con) (fun slot name =>
        let type := EsymkindDerivedOutput kind slot in
        b ← get_ctx;
        if bool_decide (type = EdslsymSentinel) || bool_decide (is_Some (symtab b !! name)) then mret tt
        else (_ ← new_symbol type name EdslsideTarget; mret tt));
  mret tt.

(** The kind of a constraint; [Eq] stands for the equality of the type of its symbols. *)
Definition constraint_kind (con : constraint) : build EDslConstraintKind :=
  if negb (String.eqb (n_id con) "Eq") then mret (ConParse (n_id con)) else
  match n_syms con with
  | [l; r] =>
      b ← get_ctx;
      match symtab b !! l, symtab b !! r with
      | Some sl, Some sr =>
          if negb (bool_decide (m_esymk sl = m_esymk sr)) then Fail "Eq expects two declared symbols of the same type" else
          let edslcon := EdslconEquality (m_esymk sl) in
          if is_con edslcon EdslconSentinel then Fail "Eq is not implemented for this symbol type" else mret edslcon
      | _, _ => Fail "Eq expects two declared symbols of the same type"
      end
  | _ => Fail "Eq expects two symbols"
  end.

Definition resolve_symbol (edslcon : EDslConstraintKind) (ulSym : nat) (name : string) : build CDSLSymbol :=
  b ← get_ctx;
  match symtab b !! name with
  | Some psym => mret psym
  | None =>
      let esymkind := EsymkindDerivedOutput edslcon ulSym in
      if bool_decide (esymkind = EdslsymSentinel) then Fail ("constraint references undeclared symbol '" +:+ name +:+ "'")
      else new_symbol esymkind name EdslsideTarget
  end.

(** The checks of the kinds of the symbols: the message of the one that fails. The
    number of symbols is the arity of the constraint here. *)
Definition expects (kinds expected : list EDslSymbolKind) (msg : string) : option string :=
  if bool_decide (kinds = expected) then None else Some msg.
Definition expects_all (kinds : list EDslSymbolKind) (k : EDslSymbolKind) (msg : string) : option string :=
  if forallb (fun k' => bool_decide (k' = k)) kinds then None else Some msg.
Definition kind_in (kinds : list EDslSymbolKind) (ul : nat) (allowed : list EDslSymbolKind) : bool :=
  match kinds !! ul with Some k => bool_decide (k ∈ allowed) | None => false end.

Definition check_kinds (edslcon : EDslConstraintKind) (kinds : list EDslSymbolKind) : outcome (option string) :=
  match edslcon with
  | EdslconErrorFree | EdslconDeterministic =>
      mret (if kind_in kinds 0 [EdslsymCallHead; EdslsymCompareHead; EdslsymValueList]
            then Some "function heads and argument lists do not declare scalar safety premises" else None)
  | EdslconPredicateFalse => mret (expects kinds [EdslsymPred] "PredicateFalse expects a predicate symbol")
  | EdslconPredicateAnd => mret (expects_all kinds EdslsymPred "PredicateAnd expects predicate symbols")
  | EdslconPredicateNotTrue | EdslconPredicateNot =>
      mret (expects_all kinds EdslsymPred "predicate negation expects predicate symbols")
  | EdslconPredicateNullRejecting =>
      mret (expects kinds [EdslsymPred; EdslsymAttrs] "PredicateNullRejecting expects predicate and attrs symbols")
  | EdslconPredicateAny | EdslconPredicateAll =>
      mret (expects kinds [EdslsymPred; EdslsymPred; EdslsymAttrs; EdslsymTable]
              "quantified predicate expects two predicates, attrs, and table symbols")
  | EdslconAttrsUnion => mret (expects_all kinds EdslsymAttrs "AttrsUnion expects attrs symbols")
  | EdslconSchemaUnion =>
      mret (if bool_decide (kinds = [EdslsymSchema; EdslsymSchema; EdslsymAttrs]) ||
               bool_decide (kinds = [EdslsymSchema; EdslsymSchema; EdslsymSchema])
            then None else Some "SchemaUnion expects output schema, input schema, and attrs or schema symbols")
  | EdslconDepsDisjoint =>
      mret (if kind_in kinds 0 [EdslsymExpr; EdslsymTable; EdslsymPred; EdslsymAttrs; EdslsymSchema; EdslsymOrder;
                                EdslsymWindow; EdslsymFrame] && kind_in kinds 1 [EdslsymAttrs; EdslsymSchema]
            then None else Some "DepsDisjoint expects dependency-bearing metadata and an attrs/schema domain")
  | EdslconMinimalGrouping =>
      mret (expects kinds [EdslsymAttrs; EdslsymSchema] "MinimalGrouping expects grouping attrs and aggregate schema symbols")
  | EdslconCorrelationEquality =>
      mret (expects kinds [EdslsymPred; EdslsymAttrs; EdslsymAttrs]
              "CorrelationEquality expects predicate, local attrs, and outer attrs symbols")
  | EdslconOrderEq | EdslconWindowEq | EdslconRankEq | EdslconFrameEq =>
      name ← ConSzName edslcon;
      let esymEq := match edslcon with
                    | EdslconOrderEq => EdslsymOrder
                    | EdslconWindowEq => EdslsymWindow
                    | EdslconRankEq => EdslsymRank
                    | _ => EdslsymFrame
                    end in
      mret (expects kinds [esymEq; esymEq] (name +:+ " expects two matching window-metadata symbols"))
  | EdslconCumulativeFrame | EdslconFullPartitionFrame =>
      mret (expects kinds [EdslsymFrame] "window frame constraint expects a frame symbol")
  | EdslconBoundedRowsFrame =>
      mret (expects kinds [EdslsymFrame; EdslsymScalar; EdslsymScalar] "BoundedRowsFrame expects frame and scalar symbols")
  | EdslconRowsFrame =>
      mret (expects kinds [EdslsymFrame; EdslsymFrameBound; EdslsymFrameBound] "RowsFrame expects frame-bound symbols")
  | EdslconSliceCompose => mret (expects_all kinds EdslsymScalar "SliceCompose expects six scalar symbols")
  | EdslconScalarOne | EdslconScalarZero =>
      name ← ConSzName edslcon;
      mret (expects kinds [EdslsymScalar] (name +:+ " expects a scalar symbol"))
  | EdslconAttrsEmpty | EdslconAttrsNonEmpty =>
      mret (expects kinds [EdslsymAttrs] "AttrsEmpty/AttrsNonEmpty expects an attrs symbol")
  | EdslconPredicateNullSafeEq =>
      mret (expects kinds [EdslsymPred; EdslsymAttrs; EdslsymAttrs]
              "PredicateNullSafeEq expects a predicate and two attrs symbols")
  | EdslconOrderEmpty => mret (expects kinds [EdslsymOrder] "OrderEmpty expects an order symbol")
  | EdslconRankAttrs => mret (expects kinds [EdslsymAttrs; EdslsymRank] "RankAttrs expects attrs and rank symbols")
  | EdslconExprNulls =>
      mret (expects kinds [EdslsymExpr; EdslsymAttrs; EdslsymAttrs]
              "ExprNulls expects an expression list and two attrs symbols")
  | EdslconTableShared => mret (expects kinds [EdslsymTable; EdslsymTable] "TableShared expects two table symbols")
  | EdslconOutputAttrs =>
      mret (if bool_decide (kinds = [EdslsymAttrs; EdslsymTable]) || bool_decide (kinds = [EdslsymAttrs; EdslsymExpr])
            then None else Some "OutputAttrs expects attrs and a table or expression list")
  | EdslconSchemaFromAttrs =>
      mret (expects kinds [EdslsymSchema; EdslsymAttrs] "SchemaFromAttrs expects schema and attrs symbols")
  | EdslconFuncAttrs => mret (expects kinds [EdslsymAttrs; EdslsymFunc] "FuncAttrs expects attrs and function symbols")
  | EdslconPredicateDomainSplit =>
      mret (expects kinds [EdslsymPred; EdslsymPred; EdslsymPred; EdslsymAttrs; EdslsymAttrs; EdslsymAttrs; EdslsymAttrs;
                           EdslsymTable; EdslsymTable]
              "PredicateDomainSplit expects three predicates, four attrs, and two tables")
  | _ => mret None
  end.

Definition build_constraint (con : constraint) : build CDSLConstraint :=
  edslcon ← constraint_kind con;
  if is_con edslcon EdslconSentinel then Fail ("unknown constraint: " +:+ n_id con) else
  ul_arity ← lift (UlArity edslcon);
  if negb (length (n_syms con) =? ul_arity) then
    name ← lift (ConSzName edslcon);
    Fail ("constraint " +:+ name +:+ " expects " +:+ pretty ul_arity +:+ " symbol(s), got " +:+ pretty (length (n_syms con)))
  else
    pdrgpsym ← each_from 0 (n_syms con) (resolve_symbol edslcon);
    bad ← lift (check_kinds edslcon (map m_esymk pdrgpsym));
    match bad with
    | Some msg => Fail msg
    | None => lift (CDSLConstraint_ctor edslcon pdrgpsym (String.eqb (n_id con) "Eq"))
    end.

Section WithOrder.
Context `{HashOrder}.

Definition PdrgpconBuild (tree : rule_tree) : build (list CDSLConstraint) :=
  _ ← (if length (tree_bindings tree) =? 0 then mret [] else each (tree_constraints tree) declare_outputs);
  pdrgpcon ← each (tree_constraints tree) build_constraint;
  match t_constraints tree with
  | None => mret pdrgpcon
  | Some _ =>
      valid ← lift (FValidate pdrgpcon);
      if (valid : bool) then mret pdrgpcon else Fail "invalid or cyclic expression definition graph"
  end.
End WithOrder.
End RuleBuild.
