(* ===== verification/RuleBindings.v ===== *)
(** * Expression bindings of a rule

    Source: [FBindingTree], [FDeclareBindings] and [FBuildBindings] of
    CDSLRuleParser.cpp (libgpopt/src/dsl). The first infers the types of the symbols
    in the bindings, the second builds the definition graph and decides by data
    flow which symbols can be computed. Hash sets are lists without duplicates,
    hash maps lists of entries; iteration over a map is in the order [hash_order]. *)
From stdpp Require Import base numbers list strings gmap option.
From S2P Require Import Prelude RuleEnums RuleSyntax RuleDefs RuleBuild.

Module RuleBindings.
Import RuleEnums RuleSyntax RuleDefs RuleBuild.
Open Scope string_scope.
Open Scope nat_scope.
Open Scope list_scope.
Open Scope outcome_scope.

(** ** The operators that bindings support *)

Definition is_join (k : EDslOpKind) : bool :=
  match k with
  | EdslopInnerJoin | EdslopLeftJoin | EdslopFullJoin | EdslopSemiJoin | EdslopAntiJoin | EdslopAntiJoinNotIn => true
  | _ => false
  end.
Definition is_keyed_join (k : EDslOpKind) : bool := match k with EdslopInnerJoin | EdslopLeftJoin => true | _ => false end.
Definition is_apply (source : bool) (k : EDslOpKind) : bool :=
  match k with
  | EdslopInnerApply | EdslopLeftOuterApply | EdslopSemiApply | EdslopAntiApply => true
  | EdslopAntiApplyNotIn => source
  | _ => false
  end.

(** The operators with one child, by the number of their symbols *)
Definition unary_shape (source : bool) (k : EDslOpKind) (sort : EDslSortDir) (s : nat) : bool :=
  match k with
  | EdslopMaxOneRow => source && (s =? 0)
  | EdslopAssertMaxOneRow => negb source && (s =? 0)
  | EdslopFilter | EdslopProj => (s =? 2) || (s =? 3)
  | EdslopCompute | EdslopWindowRows | EdslopRowNumber => s =? 3
  | EdslopLimit => s =? 2
  | EdslopAgg => (s =? 5) || (s =? 6)
  | EdslopSort => negb (bool_decide (sort = EdslsortNone)) && (s =? 1)
  | EdslopWindowFrame => s =? 4
  | _ => false
  end.

Definition op_supported (source : bool) (k : EDslOpKind) (sort : EDslSortDir) (s children : nat) : bool :=
  if is_join k then
    ((s =? 3) || (is_keyed_join k && ((s =? 2) || (s =? 4) || (s =? 5) || (s =? 7))) || (is_op k EdslopAntiJoinNotIn && (s =? 6))) &&
    (children =? 2)
  else if is_apply source k then ((s =? 4) || (negb (is_op k EdslopAntiApplyNotIn) && (s =? 0))) && (children =? 2)
  else if fSetOp k then ((s =? 4) || (s =? 2) || (source && (s =? 0))) && (children =? 2)
  else if is_op k EdslopAny || is_op k EdslopAll then (s =? 2) && (children =? 2)
  else if is_op k EdslopExists || is_op k EdslopNotExists then ((s =? 0) || (is_op k EdslopExists && (s =? 3))) && (children =? 2)
  else if is_op k EdslopInSubFilter then ((s =? 1) || (s =? 5)) && (children =? 2)
  else (children =? 1) && unary_shape source k sort s.

(** [FBindingTree] *)
Fixpoint FBindingTree (o : CDSLOp) (source : bool) : outcome bool :=
  let k := m_edslop o in
  let s := length (m_pdrgpsym o) in
  let children := length (m_pdrgpchild o) in
  let first := match m_pdrgpchild o with c :: _ => FBindingTree c source | [] => Abort FBounds end in
  if is_op k EdslopInput || is_op k EdslopEmpty || (source && is_op k EdslopCTEConsumer) then mret true
  else if is_op k EdslopCTEAnchor then (if source then first else mret false)
  else if is_op k EdslopBind then
    (if negb source && (s =? 2) && (children =? 1) then first else mret false)
  else if negb (op_supported source k (m_edslsort o) s children) then mret false
  else
    (fix go (l : list CDSLOp) : outcome bool :=
       match l with
       | [] => mret true
       | c :: l' => (b ← FBindingTree c source; if (b : bool) then go l' else mret false)
       end) (m_pdrgpchild o).

(** ** Type inference *)

Definition is_match (b : binding) : bool := match b with BindMatch _ _ => true | _ => false end.
Definition binding_output (b : binding) : string :=
  match b with BindMatch _ s => s | BindBuild s _ => s | BindRef s _ => s end.
Definition binding_operands (b : binding) : list string :=
  match b with BindMatch c _ => c_args c | BindBuild _ c => c_args c | BindRef _ s => [s] end.
Definition binding_call (b : binding) : option call :=
  match b with BindMatch c _ => Some c | BindBuild _ c => Some c | BindRef _ _ => None end.

(** The function [declare] of [FDeclareBindings] *)
Definition declare (name : string) (kind : EDslSymbolKind) (match_ : bool) : build unit :=
  b ← get_ctx;
  psym ← match symtab b !! name with
         | Some psym => mret psym
         | None => new_symbol kind name (if match_ then EdslsideSource else EdslsideTarget)
         end;
  if negb (bool_decide (kind = m_esymk psym)) || (match_ && negb (bool_decide (m_eside psym = EdslsideSource)))
  then Fail "invalid expression operand type or source capture of target symbol" else mret tt.

Definition known_type (b : SBuildCtx) (name : string) : EDslSymbolKind :=
  match symtab b !! name with Some psym => m_esymk psym | None => EdslsymSentinel end.

Fixpoint declare_all (names : list string) (types : list EDslSymbolKind) (match_ : bool) : build unit :=
  match names with
  | [] => mret tt
  | name :: names' =>
      t ← lift (subscript types 0);
      _ ← declare name t match_;
      declare_all names' (tail types) match_
  end.

(** A pending binding: [true] if its types could be declared. A failure without a
    message is the empty one. *)
Definition declare_binding (b : binding) : build bool :=
  c ← get_ctx;
  match binding_call b with
  | None =>
      input ← lift (subscript (binding_operands b) 0);
      match symtab c !! binding_output b, symtab c !! input with
      | None, None => mret false
      | Some known, _ | None, Some known =>
          let kind := m_esymk known in
          if bool_decide (kind = EdslsymSentinel) then Fail "" else
          _ ← declare (binding_output b) kind false;
          _ ← declare input kind false;
          mret true
      end
  | Some call =>
      let types := known_type c (binding_output b) :: map (known_type c) (c_args call) in
      match PsigBinding (Some (c_id call)) (length (c_args call)) types with
      | None => mret false
      | Some signature =>
          _ ← declare_all (binding_output b :: c_args call) (s_types signature) (is_match b);
          mret true
      end
  end.

(** A pass over the pending bindings, and the passes until none is pending *)
Fixpoint declare_pass (pending : list binding) : build (list binding) :=
  match pending with
  | [] => mret []
  | b :: pending' =>
      done ← declare_binding b;
      rest ← declare_pass pending';
      mret (if (done : bool) then rest else b :: rest)
  end.

Fixpoint declare_passes (n : nat) (pending : list binding) : build unit :=
  match n with
  | 0 => lift (Abort FFuel)
  | S n =>
      if length pending =? 0 then mret tt else
      rest ← declare_pass pending;
      if length rest =? length pending then Fail "unsupported, conflicting or ambiguous expression binding types"
      else declare_passes n rest
  end.

Definition unsupported_text : string :=
  "expression bindings support " +:+
  "Input/Empty/Filter/Proj/Proj*/Compute/Agg/Sort/Limit/Window/WindowRows/RowNumber, source-only " +:+
  "MaxOneRow/CTEConsumer/CTEAnchor/AntiApplyNotIn, target-only AssertMaxOneRow/Bind, " +:+
  "single-/five-slot InSubFilter, zero-slot Exists/NotExists, predicate-form Exists, quantified " +:+
  "Any/All, complete-predicate Join/InnerApply/LeftApply/SemiApply/AntiApply, keyed " +:+
  "InnerJoin/LeftJoin with optional residual slots, comparison/qualifier AntiJoinNotIn and Set " +:+
  "templates".

Definition FDeclareBindings (tree : rule_tree) (source target : CDSLOp) : build unit :=
  let bindings := tree_bindings tree in
  b ← get_ctx;
  if length bindings =? 0 then
    (if has_select_list b then Fail "explicit Proj lists require typed expression bindings" else mret tt)
  else
    s ← lift (FBindingTree source true);
    t ← (if (s : bool) then lift (FBindingTree target false) else mret false);
    if negb t then Fail unsupported_text else
    declare_passes (S (length bindings)) (List.filter is_match bindings ++ List.filter (fun b => negb (is_match b)) bindings).

(** ** The definition graph and the data flow *)

Definition insert_sym (s : CDSLSymbol) (l : list CDSLSymbol) : list CDSLSymbol := if bool_decide (s ∈ l) then l else l ++ [s].
Definition insert_syms (ss l : list CDSLSymbol) : list CDSLSymbol := fold_left (fun l s => insert_sym s l) ss l.
Definition in_map {V} (m : list (CDSLSymbol * V)) (s : CDSLSymbol) : bool := bool_decide (is_Some (map_find m s)).

Definition FDeferredSemanticConstraint (kind : EDslConstraintKind) : bool :=
  match kind with
  | EdslconExprConcat | EdslconExprSplit | EdslconPredicateAny | EdslconPredicateAll => true
  | _ => false
  end.

(** The constraints that only check values *)
Definition is_property (kind : EDslConstraintKind) : bool :=
  match kind with
  | EdslconErrorFree | EdslconDeterministic | EdslconPredicateNullRejecting | EdslconAttrsSub | EdslconTableShared
  | EdslconUnique | EdslconCorrelationEquality | EdslconDepsDisjoint => true
  | _ => false
  end.

(** The kind of the symbols of an equality *)
Definition alias_kind (kind : EDslConstraintKind) : EDslSymbolKind :=
  match kind with
  | EdslconTableEq => EdslsymTable
  | EdslconAttrsEq => EdslsymAttrs
  | EdslconSchemaEq => EdslsymSchema
  | EdslconExprListEq => EdslsymExpr
  | EdslconScalarEq => EdslsymScalar
  | EdslconPredicateEq => EdslsymPred
  | EdslconFuncEq => EdslsymFunc
  | EdslconOrderEq => EdslsymOrder
  | EdslconWindowEq => EdslsymWindow
  | EdslconFrameEq => EdslsymFrame
  | EdslconRankEq => EdslsymRank
  | _ => EdslsymSentinel
  end.

Record flow := mkFlow {
  available : list CDSLSymbol;
  aliases : list (CDSLSymbol * CDSLSymbol);
  columnDerivations : list (CDSLSymbol * CDSLConstraint);
  columnChecks : list CDSLConstraint;
  deferredChecks : list CDSLConstraint;
}.

Definition side_is (s : CDSLSymbol) (eside : EDslSide) : bool := bool_decide (m_eside s = eside).
Definition is_output (con : CDSLConstraint) (slot : nat) : bool :=
  negb (bool_decide (EsymkindDerivedOutput (m_edslcon con) slot = EdslsymSentinel)).

(** The symbols with their slots *)
Definition slots (con : CDSLConstraint) : list (nat * CDSLSymbol) := imap (fun i s => (i, s)) (m_con_syms con).

(** A constraint of the first loop of [FBuildBindings] *)
Definition classify (f : flow) (con : CDSLConstraint) : build flow :=
  let kind := m_edslcon con in
  if FBindingMetadata kind then mret (mkFlow (available f) (aliases f) (columnDerivations f) (columnChecks f ++ [con]) (deferredChecks f))
  else if is_property kind then mret f
  else if FDeferredSemanticConstraint kind then
    mret (mkFlow (insert_syms (List.filter (fun s => side_is s EdslsideTarget) (m_con_syms con)) (available f))
            (aliases f) (columnDerivations f) (columnChecks f) (deferredChecks f ++ [con]))
  else if forallb (fun e => side_is e.2 EdslsideSource && (is_con kind EdslconAttrsNonEmpty || negb (is_output con e.1))) (slots con)
  then mret f
  else
    let expected := alias_kind kind in
    match m_con_syms con with
    | [a; b] =>
        if bool_decide (expected = EdslsymSentinel) then Fail "expression bindings accept source premises and cross-side aliases" else
        if negb (bool_decide (m_esymk a = expected)) || negb (bool_decide (m_esymk b = expected)) || bool_decide (m_eside a = m_eside b)
        then Fail "invalid or duplicate cross-side alias" else
        let '(key, value) := if side_is a EdslsideTarget then (a, b) else (b, a) in
        let '(fresh, aliases') := map_emplace (aliases f) key value in
        if fresh then mret (mkFlow (available f) aliases' (columnDerivations f) (columnChecks f) (deferredChecks f))
        else Fail "invalid or duplicate cross-side alias"
    | _ => Fail "expression bindings accept source premises and cross-side aliases"
    end.

(** An output of a metadata constraint *)
Definition check_output (constructed : list CDSLSymbol) (con : CDSLConstraint) (f : flow) (output : CDSLSymbol) : build flow :=
  if is_con (m_edslcon con) EdslconPredicateDomainSplit &&
     (side_is output EdslsideSource || in_map (aliases f) output || bool_decide (output ∈ constructed))
  then Fail "domain partition requires independent target outputs" else
  if side_is output EdslsideSource || in_map (aliases f) output then mret f else
  let '(fresh, m) := map_emplace (columnDerivations f) output con in
  if fresh then mret (mkFlow (available f) (aliases f) m (columnChecks f) (deferredChecks f))
  else Fail "target metadata symbol has multiple definitions".

Fixpoint fold_build {A S} (step : S -> A -> build S) (s : S) (l : list A) : build S :=
  match l with
  | [] => mret s
  | a :: l' => (s ← step s a; fold_build step s l')
  end.

(** A constraint of the loop over the metadata *)
Definition check_column (constructed : list CDSLSymbol) (f : flow) (con : CDSLConstraint) : build flow :=
  f ← (if is_con (m_edslcon con) EdslconRankAttrs then
         rank ← lift (subscript (m_con_syms con) 1);
         mret (if side_is rank EdslsideTarget && negb (in_map (aliases f) rank) && negb (bool_decide (rank ∈ constructed))
               then mkFlow (insert_sym rank (available f)) (aliases f) (columnDerivations f) (columnChecks f) (deferredChecks f)
               else f)
       else mret f);
  fold_build (check_output constructed con) f (map snd (List.filter (fun e => is_output con e.1) (slots con))).

(** [symtab.at(name)], which throws for a name that is not there *)
Definition symtab_at (name : string) : build CDSLSymbol :=
  b ← get_ctx;
  match symtab b !! name with Some psym => mret psym | None => Fail "parser exception" end.

Definition source_only (kind : EDslExpressionKind) : bool :=
  match kind with EdslexprScalarDeps | EdslexprConcat | EdslexprNulls => true | _ => false end.

Section WithOrder.
Context `{HashOrder}.

(** A binding of the loop that builds the graph *)
Definition build_binding (f : flow) (defs : CDSLExpressionDefinitions) (b : binding) : build CDSLExpressionDefinitions :=
  output ← symtab_at (binding_output b);
  if negb (is_match b) && (side_is output EdslsideSource || in_map (aliases f) output || in_map (columnDerivations f) output)
  then Fail "expression construction cannot overwrite a source, alias or column derivation" else
  operands ← each (binding_operands b) symtab_at;
  let symbols := output :: operands in
  let signature := c ← binding_call b; PsigBinding (Some (c_id c)) (length operands) (map m_esymk symbols) in
  _ ← lift (GPOS_ASSERT (bool_decide (binding_call b = None) || bool_decide (is_Some signature)));
  if is_match b && match signature with Some s => source_only (s_kind s) | None => false end
  then Fail "this constructor supports target bindings only" else
  '(valid, defs) ← lift (FAppendBinding defs
                    (match binding_call b with
                     | None => EdslexprRef
                     | Some _ => match signature with Some s => s_kind s | None => EdslexprSentinel end
                     end) (if is_match b then EMatch else EBuild) symbols);
  if (valid : bool) then mret defs else Fail "duplicate or cyclic expression binding".

(** A context is put together only from the occurrence it was taken from. *)
Definition check_context (defs : CDSLExpressionDefinitions) (d : CDefinition) : build unit :=
  if negb (bool_decide (m_edslexpr d = EdslexprContext)) || negb (bool_decide (m_binding d = EBuild)) then mret tt else
  operand ← lift (subscript (m_operands d) 0);
  root ← lift (PsymRefRoot defs operand);
  match Pdef defs root with
  | Some origin =>
      if bool_decide (m_edslexpr origin = EdslexprContext) && bool_decide (m_binding origin = EMatch) then mret tt
      else Fail "Context construction requires a source Context occurrence capture"
  | None => Fail "Context construction requires a source Context occurrence capture"
  end.

(** [collectBindOutputs]: the result columns of Bind operators and their values *)
Fixpoint collectBindOutputs (f : flow) (defs : CDSLExpressionDefinitions) (o : CDSLOp) (m : list (CDSLSymbol * CDSLSymbol)) :
    build (list (CDSLSymbol * CDSLSymbol)) :=
  m ← (if is_op (m_edslop o) EdslopBind then
         output ← lift (subscript (m_pdrgpsym o) 1);
         if negb (bool_decide (output ∈ available f)) && bool_decide (Pdef defs output = None) &&
            negb (in_map (columnDerivations f) output) && negb (in_map (aliases f) output)
         then
           value ← lift (subscript (m_pdrgpsym o) 0);
           let '(fresh, m) := map_emplace m output value in
           if fresh then mret m else Fail "a deferred result column has multiple Bind producers"
         else mret m
       else mret m);
  (fix go (l : list CDSLOp) (m : list (CDSLSymbol * CDSLSymbol)) : build (list (CDSLSymbol * CDSLSymbol)) :=
     match l with
     | [] => mret m
     | c :: l' => (m ← collectBindOutputs f defs c m; go l' m)
     end) (m_pdrgpchild o) m.

(** One round of the data flow *)
Definition copy_available (m : list (CDSLSymbol * CDSLSymbol)) (avail : list CDSLSymbol) : list CDSLSymbol :=
  fold_left (fun avail e => if bool_decide (e.2 ∈ avail) then insert_sym e.1 avail else avail) (hash_order m) avail.

Definition inputs_of (con : CDSLConstraint) : list CDSLSymbol :=
  map snd (List.filter (fun e => negb (is_output con e.1)) (slots con)).

Definition derive_available (m : list (CDSLSymbol * CDSLConstraint)) (avail : list CDSLSymbol) : list CDSLSymbol :=
  fold_left (fun avail e => if forallb (fun s => bool_decide (s ∈ avail)) (inputs_of e.2) then insert_sym e.1 avail else avail)
    (hash_order m) avail.

(** A definition: a match gives its operands, a construction its output. The test
    of the operands and the insertions go on together. *)
Definition define_available (avail : list CDSLSymbol) (d : CDefinition) : list CDSLSymbol :=
  let match_ := bool_decide (m_binding d = EMatch) in
  let '(avail, ready) := fold_left (fun (p : list CDSLSymbol * bool) input =>
      let '(avail, ready) := p in
      let avail := if match_ && bool_decide (m_psymOutput d ∈ avail) then insert_sym input avail else avail in
      (avail, ready && bool_decide (input ∈ avail))) (m_operands d) (avail, true) in
  if negb match_ && ready then insert_sym (m_psymOutput d) avail else avail.

Definition flow_round (f : flow) (defs : CDSLExpressionDefinitions) (bindOutputs : list (CDSLSymbol * CDSLSymbol))
    (avail : list CDSLSymbol) : list CDSLSymbol :=
  let avail := copy_available bindOutputs avail in
  let avail := copy_available (aliases f) avail in
  let avail := derive_available (columnDerivations f) avail in
  fold_left define_available (m_pdrgpdefDefinitions defs) avail.

(** The loop until a round adds nothing *)
Fixpoint flow_loop (n : nat) (f : flow) (defs : CDSLExpressionDefinitions) (bindOutputs : list (CDSLSymbol * CDSLSymbol))
    (avail : list CDSLSymbol) : outcome (list CDSLSymbol) :=
  match n with
  | 0 => Abort FFuel
  | S n =>
      let avail' := flow_round f defs bindOutputs avail in
      if length avail =? length avail' then mret avail' else flow_loop n f defs bindOutputs avail'
  end.

Fixpoint FOpContainsSymbol (o : CDSLOp) (symbol : CDSLSymbol) : bool :=
  bool_decide (symbol ∈ m_pdrgpsym o) || existsb (fun c => FOpContainsSymbol c symbol) (m_pdrgpchild o).

(** A conjunction must be used by the target. *)
Definition check_connected (target : CDSLOp) (defs : CDSLExpressionDefinitions) (con : CDSLConstraint) : build unit :=
  if negb (is_con (m_edslcon con) EdslconPredicateAnd) then mret tt else
  output ← lift (subscript (m_con_syms con) 0);
  if FOpContainsSymbol target output then mret tt else
  '(reachable, _) ← lift (for_until (m_pdrgpsym target) (fun s t => (u ← FUses defs s output; mret (u, t))) tt);
  if (reachable : bool) then mret tt else Fail "constructive predicate is disconnected from target tree".

Definition all_available (avail ss : list CDSLSymbol) : bool := forallb (fun s => bool_decide (s ∈ avail)) ss.

Definition check_flow (avail : list CDSLSymbol) (ok : CDSLConstraint -> bool) (ss : CDSLConstraint -> list CDSLSymbol)
    (msg : string) (con : CDSLConstraint) : build unit :=
  if ok con && negb (all_available avail (ss con)) then Fail msg else mret tt.

(** [FBuildBindings]; the result is the definition graph. *)
Definition FBuildBindings (tree : rule_tree) (source target : CDSLOp) (sourceSymbols : nat) (constraints : list CDSLConstraint)
    (defs : CDSLExpressionDefinitions) : build CDSLExpressionDefinitions :=
  let bindings := tree_bindings tree in
  if length bindings =? 0 then mret defs else
  constructed ← each (List.filter (fun b => negb (is_match b)) bindings) (fun b => symtab_at (binding_output b));
  b ← get_ctx;
  f ← fold_build classify (mkFlow (insert_syms (take sourceSymbols (src_syms b)) []) [] [] [] []) constraints;
  f ← fold_build (check_column constructed) f (columnChecks f);
  defs ← fold_build (build_binding f) defs bindings;
  _ ← each (m_pdrgpdefDefinitions defs) (check_context defs);
  bindOutputs ← collectBindOutputs f defs target [];
  avail ← lift (flow_loop (S (length (src_syms b) + length (tgt_syms b))) f defs bindOutputs (available f));
  let avail := if length (deferredChecks f) =? 0 then avail else insert_syms (tgt_syms b) avail in
  _ ← each (columnChecks f) (check_connected target defs);
  _ ← each (deferredChecks f) (check_flow avail (fun _ => true) (fun con => List.filter (fun s => side_is s EdslsideSource) (m_con_syms con))
              "semantic constraint depends on an unbound source capture");
  _ ← each constraints (check_flow avail (fun con => is_property (m_edslcon con)) m_con_syms
              "property check depends on an unbound expression or metadata");
  if all_available avail (src_syms b ++ tgt_syms b) then mret defs
  else Fail "unreachable source pattern or undefined expression input/target".
End WithOrder.
End RuleBindings.
