(* ===== verification/RuleParse.v ===== *)
(** * Parsing and printing rules

    Sources: [LowerInlineTerm], [LowerInlineOp] and [PdslruleParse] of
    CDSLRuleParser.cpp, the printers and the rule identity of CDSLRule.cpp, and
    [OsPrintBindings] of CDSLExpressionDefinitions.cpp (libgpopt/src/dsl). A rule
    with inline terms is turned into a text without them and parsed again. *)
From Stdlib Require Import Ascii.
From stdpp Require Import base numbers list strings gmap option pretty.
From S2P Require Import Prelude RuleEnums RuleSyntax RuleDefs RuleBuild RuleBindings.

Module RuleParse.
Import RuleEnums RuleSyntax RuleDefs RuleBuild RuleBindings.
Open Scope string_scope.
Open Scope nat_scope.
Open Scope list_scope.
Open Scope outcome_scope.

(** ** Printing *)

(** [os << sep] before all but the first *)
Fixpoint joined (sep : string) (l : list string) : string :=
  match l with
  | [] => ""
  | [s] => s
  | s :: l' => s +:+ sep +:+ joined sep l'
  end.

Definition print_name (o : CDSLOp) : outcome string :=
  let star := if m_fDistinct o then "*" else "" in
  let sort := match m_edslop o, m_edslsort o with
              | EdslopSort, EdslsortAsc => Some "SortAsc"
              | EdslopSort, EdslsortDesc => Some "SortDesc"
              | EdslopSort, EdslsortSpec => Some "SortBy"
              | _, _ => None
              end in
  match sort with
  | Some s => mret s
  | None =>
      if is_op (m_edslop o) EdslopAgg && negb (bool_decide (m_edslaggfunc o = EdslaggfuncUnknown)) then
        (f ← deref (SzAggFuncName (m_edslaggfunc o)); mret ("Agg_" +:+ f +:+ star))
      else (name ← OpSzName (m_edslop o); mret (name +:+ star))
  end.

Definition print_syms (l : list CDSLSymbol) : string :=
  if length l =? 0 then "" else "<" +:+ joined " " (map m_pstrName l) +:+ ">".

(** [CDSLOp::OsPrint] *)
Fixpoint OsPrintOp (o : CDSLOp) (print_children : bool) : outcome string :=
  name ← print_name o;
  let text := name +:+ print_syms (m_pdrgpsym o) in
  if print_children && (0 <? length (m_pdrgpchild o)) then
    children ← (fix go (l : list CDSLOp) : outcome (list string) :=
                  match l with
                  | [] => mret []
                  | c :: l' => (s ← OsPrintOp c true; rest ← go l'; mret (s :: rest))
                  end) (m_pdrgpchild o);
    mret (text +:+ "(" +:+ joined "," children +:+ ")")
  else mret text.

(** [CDSLConstraint::OsPrint] *)
Definition OsPrintConstraint (con : CDSLConstraint) : outcome string :=
  name ← ConSzName (m_edslcon con);
  mret (name +:+ "(" +:+ joined "," (map m_pstrName (m_con_syms con)) +:+ ")").

(** A definition in [OsPrintBindings] *)
Definition print_binding (d : CDefinition) : outcome string :=
  let build := if bool_decide (m_binding d = EBuild) then m_pstrName (m_psymOutput d) +:+ " := " else "" in
  let operands := joined "," (map m_pstrName (m_operands d)) in
  let matched := if bool_decide (m_binding d = EMatch) then " := " +:+ m_pstrName (m_psymOutput d) else "" in
  if bool_decide (m_edslexpr d = EdslexprRef) then mret (build +:+ operands +:+ matched)
  else
    name ← match SzBindingName (m_edslexpr d) with Some n => mret n | None => Abort FAssert end;
    mret (build +:+ name +:+ "(" +:+ operands +:+ ")" +:+ matched).

Definition shown_definitions (defs : CDSLExpressionDefinitions) : list CDefinition :=
  List.filter (fun d => negb (bool_decide (m_binding d = ELegacy))) (m_pdrgpdefDefinitions defs).

Definition OsPrintBindings (defs : CDSLExpressionDefinitions) (separator : bool) : outcome string :=
  texts ← mapM print_binding (shown_definitions defs);
  mret ((if separator && (0 <? length texts) then ";" else "") +:+ joined ";" texts).

(** ** Rules *)

(** The source line, which only the loader sets, is left out. *)
Record CDSLRule := mkRule {
  m_pfrag_src : CDSLFragment;
  m_pfrag_tgt : CDSLFragment;
  m_pdrgpcon : list CDSLConstraint;
  m_pexprdefs : CDSLExpressionDefinitions;
  m_pstr_verdict : option string;
  m_sz_identity : string;
}.

(** [CDSLRule::OsPrint] *)
Definition OsPrintRule (src tgt : CDSLFragment) (cons : list CDSLConstraint) (defs : CDSLExpressionDefinitions) : outcome string :=
  s ← OsPrintOp (m_pop_root src) true;
  t ← OsPrintOp (m_pop_root tgt) true;
  cs ← mapM OsPrintConstraint cons;
  bs ← OsPrintBindings defs (0 <? length cons);
  mret (s +:+ "|" +:+ t +:+ "|" +:+ joined ";" cs +:+ bs).

(** [ComputeRuleIdentity]: FNV-1a over the bytes, modulo 2^64, in hexadecimal *)
Definition fnv_step (hash : N) (c : ascii) : N := (N.lxor hash (N_of_ascii c) * 0x100000001b3) mod 2 ^ 64.

Fixpoint fnv (hash : N) (s : string) : N :=
  match s with EmptyString => hash | String c s' => fnv (fnv_step hash c) s' end.

Definition hex_digit (n : N) : string := String.substring (N.to_nat n) 1 "0123456789abcdef".

Definition ComputeRuleIdentity (text : string) : string :=
  let hash := fnv 0xcbf29ce484222325 text in
  foldr (fun ul s => hex_digit (N.land (N.shiftr hash (N.of_nat ((15 - ul) * 4))) 15) +:+ s) "" (seq 0 16).

Definition CDSLRule_ctor (src tgt : CDSLFragment) (cons : list CDSLConstraint) (verdict : option string)
    (defs : CDSLExpressionDefinitions) : outcome CDSLRule :=
  text ← OsPrintRule src tgt cons defs;
  _ ← GPOS_ASSERT (all_chars (fun c => (N_of_ascii c <=? 127)%N) text);
  mret (mkRule src tgt cons defs verdict (ComputeRuleIdentity text)).

(** ** Inline terms *)

Record lower_state := mkLower {
  l_names : gset string;
  l_next : nat;
  l_bindings : list string;
}.

Fixpoint fresh_name (n : nat) (st : lower_state) : outcome (string * lower_state) :=
  match n with
  | 0 => Abort FFuel
  | S n =>
      let output := "p" +:+ pretty (l_next st) in
      let st' := mkLower ({[output]} ∪ l_names st) (S (l_next st)) (l_bindings st) in
      if bool_decide (output ∈ l_names st) then fresh_name n st' else mret (output, st')
  end.

(** The last character of a string that is not empty *)
Fixpoint back (s : string) : option ascii :=
  match s with
  | EmptyString => None
  | String c EmptyString => Some c
  | String _ s' => back s'
  end.

Definition back_is (c : ascii) (s : string) : bool := match back s with Some d => Ascii.eqb d c | None => false end.

(** [if (s.back() != c) s += sep; s += t] *)
Definition append_sep (c : ascii) (sep s t : string) : string := (if back_is c s then s else s +:+ sep) +:+ t.

Definition with_bindings (st : lower_state) (l : list string) : lower_state := mkLower (l_names st) (l_next st) l.

Fixpoint LowerInlineTerm (source : bool) (t : term) (st : lower_state) : outcome (string * lower_state) :=
  match t with
  | Sym s => mret (s, st)
  | CallTerm id args =>
      '(output, st) ← fresh_name (S (size (l_names st))) st;
      let slot := length (l_bindings st) in
      let st := if source then with_bindings st (l_bindings st ++ [""]) else st in
      '(call, st) ← (fix go (l : list term) (call : string) (st : lower_state) : outcome (string * lower_state) :=
                       match l with
                       | [] => mret (call, st)
                       | a :: l' =>
                           '(s, st) ← LowerInlineTerm source a st;
                           go l' (append_sep "("%char "," call s) st
                       end) args (id +:+ "(") st;
      let call := call +:+ ")" in
      mret (output,
        if source then with_bindings st (<[slot := call +:+ " := " +:+ output]> (l_bindings st))
        else with_bindings st (l_bindings st ++ [output +:+ " := " +:+ call]))
  end.

Fixpoint lower_terms (source : bool) (l : list term) (result : string) (st : lower_state) : outcome (string * lower_state) :=
  match l with
  | [] => mret (result, st)
  | t :: l' =>
      '(s, st) ← LowerInlineTerm source t st;
      lower_terms source l' (append_sep "<"%char " " result s) st
  end.

Fixpoint LowerInlineOp (source : bool) (o : op) (st : lower_state) : outcome (string * lower_state) :=
  match o with
  | Op id star symlist children =>
      let result := if star then id +:+ "*" else id in
      '(result, st) ← match symlist with
                      | None => mret (result, st)
                      | Some l => ('(r, st) ← lower_terms source l (result +:+ "<") st; mret (r +:+ ">", st))
                      end;
      match children with
      | [] => mret (result, st)
      | _ =>
          '(result, st) ← (fix go (l : list op) (result : string) (st : lower_state) : outcome (string * lower_state) :=
                             match l with
                             | [] => mret (result, st)
                             | c :: l' =>
                                 '(s, st) ← LowerInlineOp source c st;
                                 go l' (append_sep "("%char "," result s) st
                             end) children (result +:+ "(") st;
          mret (result +:+ ")", st)
      end
  end.

(** The text of the lowered rule: the bindings of the source, the constraints of the
    rule, the bindings of the target *)
Fixpoint append_bindings (i sourceBindings : nat) (constraints : option string) (bindings : list string) (lowered : string) : string :=
  let lowered := match constraints with
                 | Some c => if i =? sourceBindings then append_sep "|"%char ";" lowered c else lowered
                 | None => lowered
                 end in
  match bindings with
  | [] => lowered
  | b :: bindings' => append_bindings (S i) sourceBindings constraints bindings' (append_sep "|"%char ";" lowered b)
  end.

Definition symbols_of (ts : list token) : list string :=
  omap (fun t => match t with SYMBOL s => Some s | _ => None end) ts.

(** The rule without inline terms as a text, or [None] if it has none *)
Definition lower_rule (tree : rule_tree) : outcome (option string) :=
  let st := mkLower (list_to_set (symbols_of (y_rule tree))) 0 [] in
  '(source, st) ← LowerInlineOp true (t_source tree) st;
  let sourceBindings := length (l_bindings st) in
  '(target, st) ← LowerInlineOp false (t_target tree) st;
  if length (l_bindings st) =? 0 then mret None else
  mret (Some (append_bindings 0 sourceBindings ((fun l => get_text (y_constraints l)) <$> t_constraints tree) (l_bindings st)
                (source +:+ "|" +:+ target +:+ "|"))).

(** ** The parser *)

Section WithOrder.
Context `{HashOrder}.

(** The part of [PdslruleParse] that builds a rule without inline terms *)
Definition build_rule (tree : rule_tree) (verdict : option string) : build CDSLRule :=
  source ← PopBuild EdslsideSource (t_source tree);
  b ← get_ctx;
  let sourceSymbols := length (src_syms b) in
  target ← PopBuild EdslsideTarget (t_target tree);
  _ ← FDeclareBindings tree source target;
  pdrgpcon ← PdrgpconBuild tree;
  definitions ← lift (Definitions_ctor pdrgpcon);
  definitions ← FBuildBindings tree source target sourceSymbols pdrgpcon definitions;
  b ← get_ctx;
  lift (CDSLRule_ctor (mkFragment source (src_syms b)) (mkFragment target (tgt_syms b)) pdrgpcon verdict definitions).

Definition empty_ctx : SBuildCtx := mkBuildCtx ∅ 0 false [] [].

(** [PdslruleParse]: an error message or the rule; [n] bounds the recursion. The
    details of a syntax error come from the generated parser. *)
Fixpoint PdslruleParse_n `{Antlr} (n : nat) (sz_dsl : string) (sz_verdict : option string) : outcome (string + CDSLRule) :=
  match n with
  | 0 => Abort FFuel
  | S n =>
      match antlr_rule sz_dsl with
      | None => mret (inl "syntax error")
      | Some tree =>
          lowered ← lower_rule tree;
          match lowered with
          | Some text => PdslruleParse_n n text sz_verdict
          | None =>
              r ← build_rule tree sz_verdict empty_ctx;
              mret (match r with
                    | inl err => inl (if String.eqb err "" then "semantic error" else err)
                    | inr (rule, _) => inr rule
                    end)
          end
      end
  end.

Definition PdslruleParse `{Antlr} (sz_dsl : string) (sz_verdict : option string) : outcome (string + CDSLRule) :=
  PdslruleParse_n 2 sz_dsl sz_verdict.

(** The canonical text of a rule *)
Definition OsPrint (r : CDSLRule) : outcome string :=
  OsPrintRule (m_pfrag_src r) (m_pfrag_tgt r) (m_pdrgpcon r) (m_pexprdefs r).
End WithOrder.
End RuleParse.
