(* ===== verification/RuleWp.v ===== *)
(** * Programs of the rule builder

    Proof rules for the monad of RuleBuild.v and the invariant of its context: the
    symbol table and the arrays of symbols of the two sides hold the same symbols,
    whose names are symbols of the grammar and whose ids differ. *)
From Stdlib Require Import Ascii.
From stdpp Require Import base numbers list strings gmap option pretty.
From S2P Require Import Prelude RuleEnums RuleSyntax RuleDefs RuleBuild.

Module RuleWp.
Import RuleEnums RuleSyntax RuleDefs RuleBuild.
Open Scope string_scope.
Open Scope nat_scope.
Open Scope list_scope.
Open Scope outcome_scope.
Implicit Types (b c : SBuildCtx) (s : CDSLSymbol).

(** ** The invariant *)

Definition all_syms b : list CDSLSymbol := src_syms b ++ tgt_syms b.
Definition side_syms (eside : EDslSide) b : list CDSLSymbol := if is_target eside then tgt_syms b else src_syms b.

Record ctx_ok b : Prop := {
  cx_tab n s : symtab b !! n = Some s <-> s ∈ all_syms b /\ m_pstrName s = n;
  cx_side eside s : s ∈ side_syms eside b -> m_eside s = eside;
  cx_lt s : s ∈ all_syms b -> m_id s < next_id b;
  cx_ids s s' : s ∈ all_syms b -> s' ∈ all_syms b -> m_id s = m_id s' -> s = s';
  cx_nodup : NoDup (all_syms b);
  cx_kind s : s ∈ all_syms b -> m_esymk s <> EdslsymSentinel;
  cx_name s : s ∈ all_syms b -> symbol_text (m_pstrName s) = true;
}.

(** A later context *)
Record grows b c : Prop := {
  gr_tab n s : symtab b !! n = Some s -> symtab c !! n = Some s;
  gr_src : src_syms b `prefix_of` src_syms c;
  gr_tgt : tgt_syms b `prefix_of` tgt_syms c;
}.

#[export] Instance grows_preorder : PreOrder grows.
Proof.
  split.
  - intros b. by split.
  - intros b c d [H1 H2 H3] [H4 H5 H6]. split; [auto|by etrans|by etrans].
Qed.

Lemma grows_side eside b c s : grows b c -> s ∈ side_syms eside b -> s ∈ side_syms eside c.
Proof.
  intros [_ [k1 H1] [k2 H2]]. unfold side_syms. destruct (is_target eside); [rewrite H2|rewrite H1]; set_solver.
Qed.

Lemma side_all eside b s : s ∈ side_syms eside b -> s ∈ all_syms b.
Proof. unfold side_syms, all_syms. destruct (is_target eside); set_solver. Qed.

Lemma all_side b s : ctx_ok b -> s ∈ all_syms b <-> s ∈ side_syms (m_eside s) b.
Proof.
  intros Hb. split; [|apply side_all]. unfold all_syms. rewrite elem_of_app. intros [H|H].
  - by rewrite (cx_side b Hb EdslsideSource s H).
  - by rewrite (cx_side b Hb EdslsideTarget s H).
Qed.

Lemma grows_all b c s : grows b c -> s ∈ all_syms b -> s ∈ all_syms c.
Proof.
  intros Hg. unfold all_syms. rewrite !elem_of_app. intros [H|H];
    [left; by apply (grows_side EdslsideSource b c)|right; by apply (grows_side EdslsideTarget b c)].
Qed.

(** ** Proof rules *)

(** The program ends with a result that satisfies [P], or with a message. *)
Definition bwp {A} (m : build A) (P : A -> SBuildCtx -> Prop) b : Prop :=
  returns (m b) (fun r => match r with inl _ => True | inr (a, c) => P a c end).

Lemma bwp_mono {A} (m : build A) (P Q : A -> SBuildCtx -> Prop) b : bwp m P b -> (forall a c, P a c -> Q a c) -> bwp m Q b.
Proof. intros H HPQ. eapply returns_mono; [exact H|]. intros [?|[a c]]; [done|]. apply HPQ. Qed.

Lemma bwp_bind {A B} (m : build A) (k : A -> build B) P b : bwp m (fun a c => bwp (k a) P c) b -> bwp (m ≫= k) P b.
Proof.
  unfold bwp, mbind, build_bind. intros (r & -> & Hr). destruct r as [e|[a c]]; [by apply returns_ret|exact Hr].
Qed.

Lemma bwp_lift {A} (m : outcome A) (P : A -> SBuildCtx -> Prop) b : returns m (fun a => P a b) -> bwp (lift m) P b.
Proof. intros (a & -> & H). by eapply returns_ret. Qed.

(** A program that keeps the invariant *)
Definition keeps {A} (m : build A) (Q : A -> SBuildCtx -> Prop) b : Prop := bwp m (fun a c => ctx_ok c /\ grows b c /\ Q a c) b.

Lemma keeps_ret {A} (a : A) (Q : A -> SBuildCtx -> Prop) b : ctx_ok b -> Q a b -> keeps (mret a) Q b.
Proof. intros. by apply returns_ret. Qed.

Lemma keeps_fail {A} msg (Q : A -> SBuildCtx -> Prop) b : keeps (Fail msg) Q b.
Proof. by apply returns_ret. Qed.

Lemma keeps_lift {A} (m : outcome A) (Q : A -> SBuildCtx -> Prop) b : ctx_ok b -> returns m (fun a => Q a b) -> keeps (lift m) Q b.
Proof. intros Hb H. apply bwp_lift. eapply returns_mono; [exact H|]. done. Qed.

Lemma keeps_bind {A B} (m : build A) (k : A -> build B) P Q b :
  keeps m P b -> (forall a c, ctx_ok c -> grows b c -> P a c -> keeps (k a) Q c) -> keeps (m ≫= k) Q b.
Proof.
  intros Hm Hk. apply bwp_bind. eapply bwp_mono; [exact Hm|]. intros a c (Hc & Hg & HP).
  eapply bwp_mono; [by apply Hk|]. intros a' d (Hd & Hg' & HQ). split_and!; [done|by etrans|done].
Qed.

Lemma keeps_mono {A} (m : build A) (P Q : A -> SBuildCtx -> Prop) b :
  keeps m P b -> (forall a c, ctx_ok c -> grows b c -> P a c -> Q a c) -> keeps m Q b.
Proof. intros H HPQ. eapply bwp_mono; [exact H|]. cbn. intros a c (? & ? & ?). auto. Qed.

Lemma keeps_get {B} (k : SBuildCtx -> build B) Q b : keeps (k b) Q b -> keeps (get_ctx ≫= k) Q b.
Proof. intros H. by apply bwp_bind, returns_ret. Qed.

Lemma keeps_lift_bind {A B} (m : outcome A) (k : A -> build B) Q b : returns m (fun a => keeps (k a) Q b) -> keeps (lift m ≫= k) Q b.
Proof. intros H. by apply bwp_bind, bwp_lift. Qed.

(** Loops *)
Lemma keeps_each_from {A B} (R : nat -> A -> B -> SBuildCtx -> Prop) (f : nat -> A -> build B) (l : list A) ul b :
  (forall i a r c d, grows c d -> R i a r c -> R i a r d) -> ctx_ok b ->
  (forall i a c, l !! i = Some a -> ctx_ok c -> grows b c -> keeps (f (ul + i) a) (R (ul + i) a) c) ->
  keeps (each_from ul l f) (fun rs c => length rs = length l /\ forall i a r, l !! i = Some a -> rs !! i = Some r -> R (ul + i) a r c) b.
Proof.
  intros HR. revert ul b. induction l as [|a l IH]; intros ul b Hb Hf; cbn [each_from].
  { apply keeps_ret; [done|]. split; [done|]. intros [] ? ? ?; done. }
  pose proof (Hf 0 a b eq_refl Hb ltac:(done)) as H0. rewrite Nat.add_0_r in H0.
  eapply keeps_bind; [exact H0|]. intros r c Hc Hg Hr.
  eapply keeps_bind; [apply (IH (S ul)); [done|]|].
  { intros i a' d Hi Hd Hg'. rewrite Nat.add_succ_comm. apply (Hf (S i)); [done..|by etrans]. }
  intros rs d Hd Hg' [Hlen Hrs]. apply keeps_ret; [done|]. split; [by cbn; f_equal|]. intros [|i] a' r' Hi Hr'.
  - injection Hi as <-. injection Hr' as <-. rewrite Nat.add_0_r. by eapply HR.
  - rewrite <- Nat.add_succ_comm. by eapply Hrs.
Qed.

Lemma each_as_from {A B} ul (f : A -> build B) (l : list A) b : each l f b = each_from ul l (fun _ => f) b.
Proof.
  revert ul b. induction l as [|a l IH]; intros ul b; [done|]. cbn. unfold mbind, build_bind.
  destruct (f a b) as [[e|[r c]]|?]; [done| |done]. by rewrite (IH (S ul)).
Qed.

Lemma keeps_each {A B} (R : A -> B -> SBuildCtx -> Prop) (f : A -> build B) (l : list A) b :
  (forall a r c d, grows c d -> R a r c -> R a r d) -> ctx_ok b ->
  (forall a c, a ∈ l -> ctx_ok c -> grows b c -> keeps (f a) (R a) c) ->
  keeps (each l f) (fun rs c => Forall2 (fun a r => R a r c) l rs) b.
Proof.
  intros HR Hb Hf. unfold keeps, bwp. rewrite (each_as_from 0).
  eapply keeps_mono; [apply (keeps_each_from (fun _ => R)); [by intros _|done|]|].
  - intros i a c Ha. apply Hf. by eapply list_elem_of_lookup_2.
  - cbn. intros rs c _ _ [Hlen Hrs]. apply Forall2_same_length_lookup. split; [done|]. intros. by eapply Hrs.
Qed.

(** Programs that only look at the context *)
Lemma keeps_checks {A B} (f : A -> build B) (l : list A) b :
  ctx_ok b -> (forall a c, a ∈ l -> ctx_ok c -> grows b c -> keeps (f a) (fun _ _ => True) c) ->
  keeps (each l f) (fun _ _ => True) b.
Proof. intros Hb Hf. eapply keeps_mono; [by apply (keeps_each (fun _ _ _ => True))|]. done. Qed.

(** ** Symbols *)

Lemma new_symbol_keeps esymk name eside b :
  ctx_ok b -> symtab b !! name = None -> symbol_text name = true -> esymk <> EdslsymSentinel ->
  keeps (new_symbol esymk name eside) (fun s c => s ∈ side_syms eside c /\ m_esymk s = esymk /\ m_pstrName s = name /\
    symtab c = <[name := s]> (symtab b)) b.
Proof.
  intros Hb Hnone Hname Hk. unfold new_symbol. apply keeps_get. apply keeps_lift_bind.
  unfold CDSLSymbol_ctor. rewrite bind_assert by (by apply bool_decide_eq_true). apply returns_ret.
  set (s := mkSym esymk name (next_id b) eside). set (c := mkBuildCtx _ _ _ _ _).
  assert (Hall : forall x, x ∈ all_syms c <-> x = s \/ x ∈ all_syms b).
  { intros x. unfold all_syms. cbn. destruct (is_target eside); set_solver. }
  assert (Hfresh : forall x, x ∈ all_syms b -> m_pstrName x <> name).
  { intros x Hx Hn. assert (symtab b !! name = Some x) as E by (by apply (cx_tab b Hb)). congruence. }
  apply bwp_bind, returns_ret, returns_ret. split_and!; [|split|..]; try done.
  - split.
    + intros n x. rewrite Hall. cbn [symtab c]. destruct (decide (n = name)) as [->|Hn].
      * rewrite lookup_insert_eq. split; [intros [= <-]; by split; [left|]|]. intros [[->|Hx] Hx']; [done|]. by apply Hfresh in Hx.
      * rewrite lookup_insert_ne by done. rewrite (cx_tab b Hb). split; [intros [? ?]; split; [by right|done]|].
        intros [[->|?] ?]; [|done]. by destruct Hn.
    + intros eside' x. unfold side_syms. cbn.
      pose proof (cx_side b Hb eside' x) as Hs. unfold side_syms in Hs.
      destruct eside, eside'; cbn in *; try done; rewrite elem_of_app, list_elem_of_singleton; intros [?| ->]; auto.
    + intros x Hx. apply Hall in Hx as [->|Hx]; cbn; [lia|]. apply (cx_lt b Hb) in Hx. lia.
    + intros x y Hx Hy. apply Hall in Hx as [->|Hx], Hy as [->|Hy]; [done|..|by apply (cx_ids b Hb)]; cbn.
      * apply (cx_lt b Hb) in Hy. lia.
      * apply (cx_lt b Hb) in Hx. lia.
    + assert (s ∉ all_syms b) as Hs by (intros Hs; by apply Hfresh in Hs). pose proof (cx_nodup b Hb) as Hnd.
      assert (all_syms c ≡ₚ s :: all_syms b) as ->; [|by constructor].
      unfold all_syms. cbn. destruct (is_target eside); solve_Permutation.
    + intros x Hx. apply Hall in Hx as [->|Hx]; [done|]. by apply (cx_kind b Hb).
    + intros x Hx. apply Hall in Hx as [->|Hx]; [done|]. by apply (cx_name b Hb).
  - intros n x Hx. cbn. rewrite lookup_insert_ne; [done|]. intros ->. congruence.
  - cbn. destruct (is_target eside); [done|]. by apply prefix_app_r.
  - cbn. destruct (is_target eside); [|done]. by apply prefix_app_r.
  - unfold side_syms. cbn. destruct (is_target eside); set_solver.
Qed.

(** The symbol of a name *)
Lemma tab_name b n s : ctx_ok b -> symtab b !! n = Some s -> s ∈ all_syms b /\ m_pstrName s = n.
Proof. intros Hb. apply (cx_tab b Hb). Qed.
End RuleWp.
