(* ===== verification/RuleBuilt.v ===== *)
(** * What the builder of rules builds

    The operators and constraints that [PopBuild] and [PdrgpconBuild] (RuleBuild.v)
    return, and that they return: for every tree without inline terms they end with
    a result or a message, and no assertion of the tables or the constructors fails. *)
From Stdlib Require Import Ascii.
From stdpp Require Import base numbers list strings gmap option pretty.
From S2P Require Import Prelude RuleEnums RuleSyntax RuleDefs RuleGraph RuleBuild RuleWp.

Module RuleBuilt.
Import RuleEnums RuleSyntax RuleDefs RuleGraph RuleBuild RuleWp.
Open Scope string_scope.
Open Scope nat_scope.
Open Scope list_scope.
Open Scope outcome_scope.
Implicit Types (b c : SBuildCtx) (s : CDSLSymbol).

(** ** The tables *)

Definition op_kinds : list EDslOpKind := map d_edslop rg_op_desc.
Definition con_kinds : list EDslConstraintKind := map d_edslcon rg_con_desc.
Definition sorts : list EDslSortDir := [EdslsortNone; EdslsortAsc; EdslsortDesc; EdslsortSpec].

Lemma op_kinds_all k : k <> EdslopSentinel -> k ∈ op_kinds.
Proof. intros H. apply (bool_decide_eq_true_1 (k ∈ op_kinds)). by destruct k. Qed.

Lemma con_kinds_all k : k <> EdslconSentinel -> k ∈ con_kinds.
Proof. intros H. apply (bool_decide_eq_true_1 (k ∈ con_kinds)). by destruct k. Qed.

(** A property of all kinds by evaluation *)
Lemma op_check (P : EDslOpKind -> bool) k : forallb P op_kinds = true -> k <> EdslopSentinel -> P k = true.
Proof. intros H Hk. rewrite forallb_forall in H. apply H, list_elem_of_In, op_kinds_all, Hk. Qed.

Lemma con_check (P : EDslConstraintKind -> bool) k : forallb P con_kinds = true -> k <> EdslconSentinel -> P k = true.
Proof. intros H Hk. rewrite forallb_forall in H. apply H, list_elem_of_In, con_kinds_all, Hk. Qed.

Definition gives {A} (m : outcome A) (P : A -> bool) : bool := match m with Ret a => P a | Abort _ => false end.

Lemma gives_returns {A} (m : outcome A) (P : A -> bool) : gives m P = true <-> returns m (fun a => P a = true).
Proof. destruct m as [a|f]; cbn; split; [intros H; by exists a|by intros (? & [= <-] & ?)|done|by intros (? & ? & _)]. Qed.

(** The layouts of an operator: the numbers of symbols the builder accepts *)
Definition layout_ok (k : EDslOpKind) (n : nat) : bool := gives (UlSyms k) (fun m => n =? m) || accepted_count k n.

Lemma layout_bound k n : k <> EdslopSentinel -> layout_ok k n = true -> n < 8.
Proof.
  intros Hk. unfold layout_ok. intros [H|H]%orb_prop.
  - pose proof (op_check (fun k => gives (UlSyms k) (fun m => m <? 8)) k eq_refl Hk) as Hm. cbn in Hm.
    destruct (UlSyms k) as [m|]; [|done]. cbn in *. apply Nat.eqb_eq in H as ->. by apply Nat.ltb_lt.
  - unfold accepted_count, fLegacyAgg, fPredicateExists, fSelectList in H.
    rewrite !orb_true_iff, !andb_true_iff, !orb_true_iff, !Nat.eqb_eq in H. lia.
Qed.

Definition layout_check (k : EDslOpKind) : bool :=
  forallb (fun sort => forallb (fun n => implb (layout_ok k n)
    (forallb (fun ul => gives (symbol_kind k sort n ul) (fun e => negb (bool_decide (e = EdslsymSentinel)))) (seq 0 n) &&
     gives (UlSyms k) (fun m => (m =? n) || other_sizes k n) && gives (UlChildren k) (fun _ => true) && gives (OpSzName k) (fun _ => true)))
    (seq 0 8)) sorts.

Lemma layout_checked k sort n : k <> EdslopSentinel -> layout_ok k n = true ->
  (forall ul, ul < n -> returns (symbol_kind k sort n ul) (fun e => e <> EdslsymSentinel)) /\
  returns (UlSyms k) (fun m => (m =? n) || other_sizes k n = true).
Proof.
  intros Hk Hn. pose proof (op_check layout_check k ltac:(vm_compute; reflexivity) Hk) as H.
  unfold layout_check in H. rewrite forallb_forall in H. specialize (H sort ltac:(destruct sort; cbn; tauto)).
  rewrite forallb_forall in H. specialize (H n). rewrite in_seq in H. specialize (H ltac:(pose proof (layout_bound k n Hk Hn); lia)).
  rewrite Hn in H. cbn [implb] in H. apply andb_prop in H as [[[H1 H2]%andb_prop _]%andb_prop _].
  split; [|by apply gives_returns in H2]. intros ul Hul. rewrite forallb_forall in H1. specialize (H1 ul ltac:(apply in_seq; lia)).
  apply gives_returns in H1. eapply returns_mono; [exact H1|]. cbn. intros e He. by apply negb_true_iff, bool_decide_eq_false in He.
Qed.

Lemma op_names k : k <> EdslopSentinel -> returns (OpSzName k) (fun n => id_text n = true) /\ returns (UlSyms k) (fun _ => True) /\
  returns (UlChildren k) (fun _ => True).
Proof.
  intros Hk. pose proof (op_check (fun k => gives (OpSzName k) id_text && gives (UlSyms k) (fun _ => true) && gives (UlChildren k) (fun _ => true))
    k eq_refl Hk) as H. cbn in H. apply andb_prop in H as [[H1 H2]%andb_prop H3]. apply gives_returns in H1, H2, H3.
  split_and!; [done|by eapply returns_mono..].
Qed.

Definition con_check_names (k : EDslConstraintKind) : bool :=
  gives (ConSzName k) (fun n => id_text n && bool_decide (ConParse n = k) && negb (String.eqb n "Eq")) && gives (UlArity k) (fun n => 0 <? n).

Lemma con_names k : k <> EdslconSentinel -> returns (ConSzName k) (fun n => id_text n = true /\ ConParse n = k /\ n <> "Eq") /\
  returns (UlArity k) (fun n => 0 < n).
Proof.
  intros Hk. pose proof (con_check con_check_names k ltac:(vm_compute; reflexivity) Hk) as H. apply andb_prop in H as [H1 H2]. apply gives_returns in H1, H2. split; (eapply returns_mono; [done|]); cbn beta; [|intros n; by rewrite Nat.ltb_lt].
  intros n [[H1' H2'%bool_decide_eq_true]%andb_prop H3'%negb_true_iff]%andb_prop. split_and!; [done..|]. intros ->. done.
Qed.

(** ** Trees *)

(** A property of every operator of a tree *)
Fixpoint op_all (P : CDSLOp -> Prop) (o : CDSLOp) : Prop := P o /\ foldr (fun (o : CDSLOp) (R : Prop) => op_all P o /\ R) True (m_pdrgpchild o).

Lemma op_all_iff P o : op_all P o <-> P o /\ Forall (op_all P) (m_pdrgpchild o).
Proof.
  destruct o as [k d st a ss cs]. cbn. apply and_iff_compat_l. induction cs as [|c cs IH]; cbn; [by split; [constructor|]|].
  rewrite IH. by rewrite Forall_cons_iff.
Qed.

Lemma CDSLOp_tree_ind (P : CDSLOp -> Prop) : (forall o, Forall P (m_pdrgpchild o) -> P o) -> forall o, P o.
Proof.
  intros Hstep. fix IH 1. intros o. apply Hstep. destruct o as [k d st a ss cs]. cbn.
  induction cs as [|c cs IHcs]; constructor; [apply IH|exact IHcs].
Qed.

Lemma op_tree_ind (P : op -> Prop) : (forall i st l cs, Forall P cs -> P (Op i st l cs)) -> forall o, P o.
Proof.
  intros Hstep. fix IH 1. intros [i st l cs]. apply Hstep. induction cs as [|c cs IHcs]; constructor; [apply IH|exact IHcs].
Qed.

Lemma op_all_mono (P Q : CDSLOp -> Prop) o : (forall o, P o -> Q o) -> op_all P o -> op_all Q o.
Proof.
  intros HPQ. induction o as [o IH] using CDSLOp_tree_ind. rewrite !op_all_iff. intros [H1 H2]. split; [auto|].
  rewrite Forall_forall in *. auto.
Qed.

(** No inline terms *)
Definition plain_term (t : term) : bool := match t with Sym s => symbol_text s | CallTerm _ _ => false end.
Fixpoint plain_op (o : op) : bool :=
  match o with Op _ _ l children => forallb plain_term (default [] l) && forallb plain_op children end.

(** A node of a built tree *)
Record node_ok (eside : EDslSide) b (o : CDSLOp) : Prop := {
  nd_kind : m_edslop o <> EdslopSentinel;
  nd_children : UlChildren (m_edslop o) = Ret (length (m_pdrgpchild o));
  nd_layout : layout_ok (m_edslop o) (length (m_pdrgpsym o)) = true;
  nd_side i s : m_pdrgpsym o !! i = Some s -> s ∈ side_syms eside b;
  nd_type i s : m_pdrgpsym o !! i = Some s -> symbol_kind (m_edslop o) (m_edslsort o) (length (m_pdrgpsym o)) i = Ret (m_esymk s);
  nd_name i s : m_pdrgpsym o !! i = Some s -> valid_name (m_edslop o) (length (m_pdrgpsym o)) i (m_pstrName s) = true;
  nd_bind : m_edslop o = EdslopBind -> eside = EdslsideTarget;
  nd_token : exists token, OpParse token = (m_edslop o, m_fDistinct o, m_edslsort o, m_edslaggfunc o);
}.

Lemma node_ok_grows eside b c o : grows b c -> node_ok eside b o -> node_ok eside c o.
Proof. intros Hg []. split; try done. intros i s Hs. eapply grows_side; eauto. Qed.

Lemma build_decl_keeps k sort eside n ul t b :
  ctx_ok b -> k <> EdslopSentinel -> layout_ok k n = true -> ul < n -> plain_term t = true ->
  keeps (build_decl k sort eside n ul t) (fun s c => s ∈ side_syms eside c /\ symbol_kind k sort n ul = Ret (m_esymk s) /\
    valid_name k n ul (m_pstrName s) = true /\ t = Sym (m_pstrName s)) b.
Proof.
  intros Hb Hk Hn Hul Ht. destruct t as [name|]; [|done]. cbn in Ht. unfold build_decl.
  apply keeps_lift_bind, returns_ret. destruct (valid_name k n ul name) eqn:Hv; cbn [negb]; [|by apply keeps_fail].
  apply keeps_lift_bind. destruct (layout_checked k sort n Hk Hn) as [Hsk _]. destruct (Hsk ul Hul) as (e & He & Hes). rewrite He.
  apply returns_ret, keeps_get. destruct (symtab b !! name) as [s|] eqn:Es.
  - case_bool_decide as H1; cbn [negb orb]; [|by apply keeps_fail]. case_bool_decide as H2; cbn [negb]; [|by apply keeps_fail].
    apply tab_name in Es as [Es <-]; [|done]. apply keeps_ret; [done|]. apply all_side in Es; [|done]. subst. done.
  - eapply keeps_mono; [by apply new_symbol_keeps|]. cbn. intros s c _ _ (H1 & <- & <- & _). done.
Qed.

Lemma children_each eside l : (fix go (l : list op) : build (list CDSLOp) :=
    match l with [] => mret [] | c :: l' => (pchild ← PopBuild eside c; rest ← go l'; mret (pchild :: rest)) end) l = each l (PopBuild eside).
Proof. induction l as [|o l IH]; [done|]. cbn. by rewrite IH. Qed.

Lemma set_select_keeps f b : ctx_ok b -> keeps (put_ctx (mkBuildCtx (symtab b) (next_id b) f (src_syms b) (tgt_syms b))) (fun _ _ => True) b.
Proof. intros [H1 H2 H3 H4 H5 H6 H7]. apply returns_ret. split_and!; [|by split|done]. by split. Qed.

Lemma PdrgpsymBuildDecls_keeps k sort l eside b :
  ctx_ok b -> k <> EdslopSentinel -> forallb plain_term (default [] l) = true ->
  keeps (PdrgpsymBuildDecls k sort l eside) (fun ss c => layout_ok k (length ss) = true /\
    default [] l = map (fun s => Sym (m_pstrName s)) ss /\
    forall i s, ss !! i = Some s -> s ∈ side_syms eside c /\ symbol_kind k sort (length ss) i = Ret (m_esymk s) /\
      valid_name k (length ss) i (m_pstrName s) = true) b.
Proof.
  intros Hb Hk Hl. unfold PdrgpsymBuildDecls. destruct (op_names k Hk) as (Hname & (m & Hm & _) & _).
  apply keeps_lift_bind. rewrite Hm. apply returns_ret, keeps_get. set (ts := default [] l) in *.
  eapply keeps_bind; [by apply set_select_keeps|]. intros _ c Hc Hg _.
  destruct (negb (length ts =? m) && negb (accepted_count k (length ts))) eqn:E.
  { apply keeps_lift_bind. eapply returns_mono; [exact Hname|]. intros n _. apply keeps_fail. }
  assert (Hlay : layout_ok k (length ts) = true).
  { unfold layout_ok. rewrite Hm. cbn. by destruct (length ts =? m), (accepted_count k (length ts)). }
  eapply keeps_mono; [apply (keeps_each_from (fun i t s c => s ∈ side_syms eside c /\ symbol_kind k sort (length ts) i = Ret (m_esymk s) /\
    valid_name k (length ts) i (m_pstrName s) = true /\ t = Sym (m_pstrName s))); [|done|]|].
  - intros i t s c1 c2 Hg' (H1 & H2). split; [by eapply grows_side|done].
  - intros i t d Hi Hd _. apply build_decl_keeps; [done..| |].
    + cbn. by eapply lookup_lt_Some.
    + rewrite forallb_forall in Hl. by apply Hl, list_elem_of_In, list_elem_of_lookup_2 with i.
  - cbn. intros ss d _ _ [Hlen Hss]. rewrite Hlen. split_and!; [done|..].
    + apply list_eq. intros i. rewrite list_lookup_fmap. destruct (ss !! i) as [s|] eqn:Ei; cbn.
      * destruct (lookup_lt_is_Some_2 ts i) as [t Ht]; [rewrite <- Hlen; by eapply lookup_lt_Some|]. rewrite Ht. f_equal. by eapply Hss.
      * apply lookup_ge_None. apply lookup_ge_None in Ei. lia.
    + intros i s Hi. destruct (lookup_lt_is_Some_2 ts i) as [t Ht]; [rewrite <- Hlen; by eapply lookup_lt_Some|].
      destruct (Hss i t s Ht Hi) as (? & ? & ? & _). done.
Qed.

(** [PopBuild] on an operator without inline terms *)
Lemma PopBuild_keeps eside o : forall b, ctx_ok b -> plain_op o = true ->
  keeps (PopBuild eside o) (fun r c => op_all (node_ok eside c) r) b.
Proof.
  induction o as [i st l cs IH] using op_tree_ind. intros b Hb Hp. cbn in Hp. apply andb_prop in Hp as [Hl Hcs].
  cbn [PopBuild]. set (token := if st then _ else _). destruct (OpParse token) as [[[k star] sort] agg] eqn:Etok.
  unfold is_op at 1. case_bool_decide as Hk; [by apply keeps_fail|].
  destruct (is_op k EdslopBind && negb (is_target eside)) eqn:Ebind; [by apply keeps_fail|].
  eapply keeps_bind; [by apply PdrgpsymBuildDecls_keeps|]. intros ss c Hc Hg (Hlay & _ & Hss).
  destruct (op_names k Hk) as (Hname & _ & (n & Hn & _)). apply keeps_lift_bind. rewrite Hn. apply returns_ret.
  destruct (length cs =? n) eqn:En; cbn [negb].
  2: { apply keeps_lift_bind. eapply returns_mono; [exact Hname|]. intros ? _. apply keeps_fail. }
  apply Nat.eqb_eq in En. rewrite children_each.
  eapply keeps_bind; [apply (keeps_each (fun _ r c => op_all (node_ok eside c) r)); [|done|]|].
  - intros o r c1 c2 Hg'. apply op_all_mono. intros o'. by apply node_ok_grows.
  - intros o d Ho Hd _. rewrite Forall_forall in IH. apply IH; [done..|]. rewrite forallb_forall in Hcs. by apply Hcs, list_elem_of_In.
  - intros rs d Hd Hg' Hrs. apply keeps_lift; [done|]. unfold CDSLOp_ctor. rewrite Hn. cbn [mbind outcome_bind].
    rewrite bind_assert by (apply Nat.eqb_eq; apply Forall2_length in Hrs; lia).
    destruct (layout_checked k sort _ Hk Hlay) as [_ (m & Hm & Hm')]. rewrite Hm. cbn [mbind outcome_bind].
    rewrite bind_assert by done. apply returns_ret. apply op_all_iff. cbn. split.
    + split; cbn; try done.
      * rewrite Hn. f_equal. apply Forall2_length in Hrs. lia.
      * intros j s Hs. eapply grows_side; [done|]. by eapply Hss.
      * intros j s Hs. by eapply Hss.
      * intros j s Hs. by eapply Hss.
      * intros ->. destruct eside; [done|]. done.
      * eauto.
    + apply Forall_forall. intros o (j & Hj)%list_elem_of_lookup_1. eapply Forall2_lookup_r in Hrs as (? & _ & ?); done.
Qed.
(** ** Constraints *)

Record con_ok b (con : CDSLConstraint) : Prop := {
  cn_kind : m_edslcon con <> EdslconSentinel;
  cn_arity : UlArity (m_edslcon con) = Ret (length (m_con_syms con));
  cn_syms s : s ∈ m_con_syms con -> s ∈ all_syms b;
  cn_types : check_kinds (m_edslcon con) (map m_esymk (m_con_syms con)) = Ret None;
}.

Lemma con_ok_grows b c con : grows b c -> con_ok b con -> con_ok c con.
Proof. intros Hg []. split; try done. intros s Hs. eapply grows_all; eauto. Qed.

Definition plain_con (con : constraint) : bool := forallb symbol_text (n_syms con).

Lemma resolve_symbol_keeps edslcon ul name b :
  ctx_ok b -> symbol_text name = true ->
  keeps (resolve_symbol edslcon ul name) (fun s c => s ∈ all_syms c /\ m_pstrName s = name) b.
Proof.
  intros Hb Hn. unfold resolve_symbol. apply keeps_get. destruct (symtab b !! name) as [s|] eqn:Es.
  - apply keeps_ret; [done|]. by apply tab_name in Es.
  - case_bool_decide as Hk; [by apply keeps_fail|].
    eapply keeps_mono; [by apply new_symbol_keeps|]. cbn. intros s c _ _ (H1 & _ & H2 & _). split; [by apply (side_all EdslsideTarget)|done].
Qed.

Lemma constraint_kind_keeps con b : ctx_ok b -> keeps (constraint_kind con) (fun _ _ => True) b.
Proof.
  intros Hb. unfold constraint_kind. destruct (negb _); [by apply keeps_ret|].
  destruct (n_syms con) as [|l [|r [|]]]; try by apply keeps_fail. apply keeps_get.
  destruct (symtab b !! l) as [sl|], (symtab b !! r) as [sr|]; try by apply keeps_fail.
  destruct (negb _); [by apply keeps_fail|]. destruct (is_con _ _); [by apply keeps_fail|by apply keeps_ret].
Qed.

Lemma check_kinds_returns k kinds : k <> EdslconSentinel -> returns (check_kinds k kinds) (fun _ => True).
Proof.
  intros Hk. destruct (con_names k Hk) as [(n & Hn & _) _].
  destruct k; cbn [check_kinds]; rewrite ?Hn; by (eexists; split; [reflexivity|]).
Qed.

Lemma build_constraint_keeps con b : ctx_ok b -> plain_con con = true ->
  keeps (build_constraint con) (fun r c => con_ok c r /\ n_syms con = map m_pstrName (m_con_syms r)) b.
Proof.
  intros Hb Hp. unfold build_constraint. eapply keeps_bind; [by apply constraint_kind_keeps|]. intros k c Hc Hg _.
  unfold is_con. case_bool_decide as Hk; [by apply keeps_fail|]. destruct (con_names k Hk) as [Hname (n & Hn & _)].
  apply keeps_lift_bind. rewrite Hn. apply returns_ret. destruct (length (n_syms con) =? n) eqn:En; cbn [negb].
  2: { apply keeps_lift_bind. eapply returns_mono; [exact Hname|]. intros ? _. apply keeps_fail. }
  apply Nat.eqb_eq in En. eapply keeps_bind; [apply (keeps_each_from (fun _ n s c => s ∈ all_syms c /\ m_pstrName s = n)); [|done|]|].
  - intros _ nm s c1 c2 Hg' [H1 H2]. split; [by eapply grows_all|done].
  - intros i nm d Hi Hd _. apply resolve_symbol_keeps; [done|]. unfold plain_con in Hp. rewrite forallb_forall in Hp.
    by apply Hp, list_elem_of_In, list_elem_of_lookup_2 with i.
  - cbn. intros ss d Hd Hg' [Hlen Hss]. apply keeps_lift_bind.
    destruct (check_kinds_returns k (map m_esymk ss) Hk) as (bad & Hck & _). rewrite Hck. apply returns_ret.
    destruct bad as [msg|]; [by apply keeps_fail|]. apply keeps_lift; [done|]. unfold CDSLConstraint_ctor. rewrite Hn.
    cbn [mbind outcome_bind]. rewrite bind_assert by (apply Nat.eqb_eq; lia). apply returns_ret.
    assert (Hsn : forall i s, ss !! i = Some s -> s ∈ all_syms d /\ n_syms con !! i = Some (m_pstrName s)).
    { intros i s Hi. destruct (lookup_lt_is_Some_2 (n_syms con) i) as [nm Hnm]; [rewrite <- Hlen; by eapply lookup_lt_Some|].
      destruct (Hss i nm s Hnm Hi) as [? <-]. done. }
    split; [split; cbn; [done|by rewrite Hn, Hlen, En| |done]|].
    + intros s (i & Hi)%list_elem_of_lookup_1. by eapply Hsn.
    + cbn. apply list_eq. intros i. rewrite list_lookup_fmap. destruct (ss !! i) as [s|] eqn:Ei; cbn; [by apply Hsn|].
      apply lookup_ge_None. apply lookup_ge_None in Ei. lia.
Qed.

Lemma declare_outputs_keeps con b : ctx_ok b -> plain_con con = true -> keeps (declare_outputs con) (fun _ _ => True) b.
Proof.
  intros Hb Hp. unfold declare_outputs. destruct (negb (FBindingMetadata _)) eqn:Em; [by apply keeps_ret|].
  assert (Hk : ConParse (n_id con) <> EdslconSentinel) by (intros E; by rewrite E in Em).
  destruct (con_names _ Hk) as [_ (n & Hn & _)]. apply keeps_lift_bind. rewrite Hn. apply returns_ret.
  destruct (length (n_syms con) =? n); cbn [negb]; [|by apply keeps_ret].
  eapply keeps_bind; [apply (keeps_each_from (fun _ _ _ _ => True)); [done..|]|intros; by apply keeps_ret].
  intros i nm c Hi Hc _. apply keeps_get. case_bool_decide as H1; [by apply keeps_ret|]. cbn [orb].
  case_bool_decide as H2; [by apply keeps_ret|].
  eapply keeps_bind; [apply new_symbol_keeps; [done|by apply eq_None_not_Some| |done]|intros; by apply keeps_ret].
  unfold plain_con in Hp. rewrite forallb_forall in Hp. by apply Hp, list_elem_of_In, list_elem_of_lookup_2 with i.
Qed.

Section Constraints.
Context `{HO : HashOrder} `{HL : !HashOrderLaws}.

Lemma PdrgpconBuild_keeps tree b :
  ctx_ok b -> Forall (fun con => plain_con con = true) (tree_constraints tree) ->
  keeps (PdrgpconBuild tree) (fun cons c => Forall (con_ok c) cons /\ valid_definitions cons /\
    map n_syms (tree_constraints tree) = map (fun con => map m_pstrName (m_con_syms con)) cons) b.
Proof.
  intros Hb Hp. rewrite Forall_forall in Hp. unfold PdrgpconBuild. eapply (keeps_bind _ _ (fun _ _ => True)).
  { destruct (length (tree_bindings tree) =? 0); [by apply keeps_ret|]. apply keeps_checks; [done|]. intros. apply declare_outputs_keeps; auto. }
  intros _ c Hc Hg _. eapply keeps_bind; [apply (keeps_each (fun con r c => con_ok c r /\ n_syms con = map m_pstrName (m_con_syms r))); [|done|]|].
  - intros con r c1 c2 Hg' [? ?]. split; [by eapply con_ok_grows|done].
  - intros con d Hcon Hd _. apply build_constraint_keeps; auto.
  - intros cons d Hd Hg' Hcons.
    assert (Hok : Forall (con_ok d) cons).
    { apply Forall_forall. intros con (i & Hi)%list_elem_of_lookup_1. eapply Forall2_lookup_r in Hcons as (? & _ & ? & _); done. }
    assert (Hnames : map n_syms (tree_constraints tree) = map (fun con => map m_pstrName (m_con_syms con)) cons).
    { clear -Hcons. induction Hcons as [|x y l k [_ Hxy] _ IH]; [done|]. cbn. by rewrite Hxy, IH. }
    destruct (t_constraints tree) as [items|] eqn:Et.
    + apply keeps_lift_bind. eapply returns_mono; [apply FValidate_ret|]. intros [] Hv; [|by apply keeps_fail].
      apply keeps_ret; [done|]. split_and!; [done|by apply Hv|done].
    + assert (cons = []) as ->.
      { unfold tree_constraints in Hcons. rewrite Et in Hcons. cbn in Hcons. by inversion Hcons. }
      apply keeps_ret; [done|]. split_and!; [done| |done]. split; [constructor|].
      intros y (z & _ & (con & Hin & _))%tc_last. by apply not_elem_of_nil in Hin.
Qed.
End Constraints.
End RuleBuilt.
