(* ===== verification/RuleTyped.v ===== *)
(** * Type inference for bindings

    Proofs about [FBindingTree] and [FDeclareBindings] (RuleBindings.v): the passes
    over the pending bindings end, and afterwards every binding has symbols in the
    table whose kinds are those of exactly one signature. *)
From Stdlib Require Import Ascii.
From stdpp Require Import base numbers list strings gmap option pretty.
From S2P Require Import Prelude RuleEnums RuleSyntax RuleDefs RuleGraph RuleBuild RuleBindings RuleWp RuleBuilt.

Module RuleTyped.
Import RuleEnums RuleSyntax RuleDefs RuleGraph RuleBuild RuleBindings RuleWp RuleBuilt.
Open Scope string_scope.
Open Scope nat_scope.
Open Scope list_scope.
Open Scope outcome_scope.
Implicit Types (b c : SBuildCtx) (bi : binding).

(** ** Signatures *)

Definition sig_matches (name : string) (arity : nat) (types : list EDslSymbolKind) (s : SBindingSignature) : bool :=
  (s_arity s =? arity) && String.eqb (s_name s) name && types_match types (s_types s).

(** The loop finds the only signature that matches. *)
Lemma psig_loop_filter name arity types sigs result :
  psig_loop name arity types sigs result =
  match List.filter (sig_matches name arity types) sigs with
  | [] => result
  | [s] => match result with None => Some s | Some _ => None end
  | _ => None
  end.
Proof.
  revert result. induction sigs as [|s sigs IH]; intros result; cbn [psig_loop List.filter]; [done|].
  unfold sig_matches at 1. destruct ((s_arity s =? arity) && String.eqb (s_name s) name && types_match types (s_types s)).
  - destruct result; [by destruct (List.filter _ sigs)|]. rewrite IH. by destruct (List.filter _ sigs) as [|? []].
  - rewrite IH. done.
Qed.

Lemma filter_unique {A} (P Q : A -> bool) (l : list A) a :
  List.filter P l = [a] -> (forall x, x ∈ l -> Q x = true -> P x = true) -> Q a = true -> List.filter Q l = [a].
Proof.
  intros HP HQP Qa. assert (Hf : List.filter Q l = List.filter Q (List.filter P l)).
  { clear HP Qa a. induction l as [|x l IH]; [done|]. cbn. specialize (IH ltac:(intros y Hy; apply HQP; by right)).
    pose proof (HQP x ltac:(left)) as Hx. destruct (P x), (Q x) eqn:E; cbn; rewrite ?E, IH; try done. by specialize (Hx eq_refl). }
  rewrite Hf, HP. cbn. by rewrite Qa.
Qed.

Lemma signature_types s : s ∈ binding_signatures -> Forall (fun t => t <> EdslsymSentinel) (s_types s).
Proof.
  assert (Forall (fun s => Forall (fun t => t <> EdslsymSentinel) (s_types s)) binding_signatures) as H by (repeat constructor; done).
  rewrite Forall_forall in H. apply H.
Qed.

Lemma signature_name sig : sig ∈ binding_signatures -> SzBindingName (s_kind sig) = Some (s_name sig) /\ s_kind sig <> EdslexprRef /\
  s_name sig <> "Ref".
Proof.
  assert (Forall (fun sig => SzBindingName (s_kind sig) = Some (s_name sig) /\ s_kind sig <> EdslexprRef /\ s_name sig <> "Ref") binding_signatures) as H
    by (repeat constructor; done).
  rewrite Forall_forall in H. apply H.
Qed.

Lemma types_match_refl l : types_match l l = true.
Proof. unfold types_match. induction l as [|t l IH]; [done|]. cbn. rewrite IH, (bool_decide_true (t = t)) by done. by rewrite orb_true_r. Qed.

Lemma types_match_full l k : Forall (fun t => t <> EdslsymSentinel) l -> length l = length k -> types_match l k = true -> l = k.
Proof.
  revert k. induction l as [|t l IH]; intros [|u k] Hl Hlen; try done. apply Forall_cons_iff in Hl as [Ht Hl]. cbn.
  rewrite bool_decide_false by done. cbn. intros [Hu Hm]%andb_prop. apply bool_decide_eq_true in Hu. cbn in Hu. subst. f_equal. apply IH; [done| |done].
  cbn in Hlen. lia.
Qed.

(** With all types known the signature is the one found with some of them. *)
Lemma PsigBinding_full name arity types sig :
  length types = S arity -> PsigBinding (Some name) arity types = Some sig -> PsigBinding (Some name) arity (s_types sig) = Some sig.
Proof.
  intros Hlen H. pose proof (PsigBinding_inv _ _ _ _ H) as (Hin & [= Hname] & Har & Hm).
  pose proof (signature_length _ Hin) as Hsl. unfold PsigBinding in *. rewrite Hsl, Har in *. rewrite Hlen in H. rewrite Nat.eqb_refl in *.
  cbn [negb andb] in *. rewrite psig_loop_filter in *.
  destruct (List.filter (sig_matches name arity types) binding_signatures) as [|s [|]] eqn:E; [done| |done].
  injection H as ->. rewrite (filter_unique _ _ _ sig E); [done|..].
  - unfold sig_matches. intros s Hs [[H1 H2]%andb_prop H3]%andb_prop. rewrite H1, H2. cbn. apply Nat.eqb_eq in H1.
    apply types_match_full in H3; [by rewrite <- H3|by apply signature_types|]. by rewrite Hsl, (signature_length _ Hs), H1.
  - unfold sig_matches. rewrite Har, Hname, Nat.eqb_refl, String.eqb_refl. cbn. apply types_match_refl.
Qed.

(** ** Definitions that are accepted *)

Lemma no_ref_signature arity types : PsigBinding (SzBindingName EdslexprRef) arity types = None.
Proof.
  destruct (PsigBinding _ _ _) as [s|] eqn:E; [|done]. apply PsigBinding_inv in E as (Hin & Hn & _). vm_compute in Hn. injection Hn as Hn.
  by destruct (signature_name s Hin) as (_ & _ & []).
Qed.

(** A definition that is typed, new and closes no cycle is accepted. *)
Lemma FAppendBinding_complete U defs kind binding out ops :
  defs_ok U defs -> (forall s, s ∈ out :: ops -> s ∈ U) -> binding_shape kind binding (out :: ops) = true -> well_typed kind (out :: ops) ->
  new_output defs out ops -> returns (FAppendBinding defs kind binding (out :: ops)) (fun r => r.1 = true).
Proof.
  intros Hok HU Hshape Hwt (Hk & Hnone & Hops). unfold FAppendBinding. rewrite Hshape. cbn [negb].
  set (sig := PsigBinding _ _ _).
  assert (Hsig : if bool_decide (kind = EdslexprRef) then sig = None /\ exists y, ops = [y] /\ m_esymk out = m_esymk y
                 else exists s, sig = Some s /\ s_types s = map m_esymk (out :: ops)).
  { destruct Hwt as [[-> (x & y & [= <- ->] & Hxy)]|(s & Hs & Hts)]; [subst sig; rewrite bool_decide_true by done; rewrite no_ref_signature; eauto|].
    rewrite bool_decide_false; [by exists s|]. intros ->. by rewrite no_ref_signature in Hs. }
  assert (Htype : forall i sym, (out :: ops) !! i = Some sym -> match sig with None => mret (m_esymk out) | Some s => subscript (s_types s) i end = Ret (m_esymk sym)).
  { intros i sym Hi. destruct (bool_decide _).
    - destruct Hsig as (-> & y & -> & Hy). destruct i as [|[|]]; cbn in Hi; try done; injection Hi as <-; [done|by rewrite Hy].
    - destruct Hsig as (s & -> & Hts). apply subscript_some. rewrite Hts, list_lookup_fmap. by rewrite Hi. }
  assert ((if bool_decide (kind = EdslexprRef) then negb (length (out :: ops) =? 2) else negb (bool_decide (is_Some sig))) = false) as ->.
  { destruct (bool_decide (kind = EdslexprRef)); [by destruct Hsig as (_ & y & -> & _)|]. destruct Hsig as (s & -> & _). done. }
  cbn [subscript lookup list_lookup mbind outcome_bind]. rewrite (Htype 0 out eq_refl). cbn [mbind outcome_bind].
  rewrite (bool_decide_false (m_esymk out = EdslsymSentinel)), (bool_decide_true (m_esymk out = m_esymk out)), Hnone by done. cbn [negb orb bool_decide].
  rewrite bool_decide_false by (intros [? ?]; done).
  eapply returns_bind; [apply (for_until_rule (fun _ _ => True) (fun _ => False)); [done|]|].
  - intros pre i rest [] Hl _. assert (Hi : i ∈ seq 1 (length (out :: ops) - 1)) by (rewrite Hl; set_solver). apply elem_of_seq in Hi as [Hi1 Hi2].
    cbn [length] in Hi2. destruct i as [|i]; [lia|]. destruct (lookup_lt_is_Some_2 ops i) as [y Hy]; [lia|].
    rewrite (subscript_some (out :: ops) (S i) y Hy). cbn [mbind outcome_bind]. rewrite (Htype (S i) y Hy). cbn [mbind outcome_bind].
    rewrite bool_decide_true by done. cbn [negb]. eapply returns_bind; [apply (FUses_ret U); [apply Hok|]; apply HU; right; by eapply list_elem_of_lookup_2|].
    intros u Hu. apply returns_ret. destruct u; cbn; [|done]. apply (Hops y); [by eapply list_elem_of_lookup_2|by apply Hu].
  - intros [[] []]; cbn [fst snd]; [done|]. intros _.
    assert (Hkind : kind <> EdslexprSentinel) by (intros ->; destruct Hsig as (s & (_ & [=] & _)%PsigBinding_inv & _)).
    unfold CDefinition_ctor. rewrite bool_decide_true by done. cbn [GPOS_ASSERT mbind outcome_bind mret outcome_ret tail].
    destruct (append_def_ok U defs (mkDef kind binding out ops)) as (l & Hl & _); [done|apply HU; left|intros y Hy; apply HU; by right|done|done|].
    cbn [m_psymOutput] in Hl. rewrite Hl. by apply returns_ret.
Qed.

(** ** The operators bindings support *)

Lemma FBindingTree_returns eside b o source : op_all (node_ok eside b) o -> returns (FBindingTree o source) (fun _ => True).
Proof.
  induction o as [o IH] using CDSLOp_tree_ind. rewrite op_all_iff. intros [Ho Hcs].
  assert (Hch : Forall (fun o => returns (FBindingTree o source) (fun _ => True)) (m_pdrgpchild o)).
  { rewrite Forall_forall in *. auto. }
  clear IH Hcs. destruct o as [k d st a ss cs]. pose proof (nd_children _ _ _ Ho) as Hn. cbn in Hn, Hch.
  assert (Hgo : returns ((fix go (l : list CDSLOp) : outcome bool :=
      match l with [] => mret true | c :: l' => (b ← FBindingTree c source; if (b : bool) then go l' else mret false) end) cs) (fun _ => True)).
  { clear -Hch. induction Hch as [|c cs Hc _ IHc]; [by eexists|]. eapply returns_bind; [exact Hc|]. intros [] _; [done|by eexists]. }
  cbn [FBindingTree m_edslop m_edslsort m_pdrgpsym m_pdrgpchild].
  destruct (is_op k EdslopInput || _ || _); [by eexists|].
  assert (Hfirst : 0 < length cs -> returns (match cs with c :: _ => FBindingTree c source | [] => Abort FBounds end) (fun _ => True)).
  { destruct cs; cbn; [lia|]. intros _. by inversion Hch. }
  destruct (is_op k EdslopCTEAnchor) eqn:E1.
  { apply bool_decide_eq_true in E1. subst k. destruct source; [|by eexists]. apply Hfirst.
    assert (UlChildren EdslopCTEAnchor = Ret 1) as E by done. rewrite Hn in E. injection E as ->. lia. }
  destruct (is_op k EdslopBind) eqn:E2.
  { destruct (negb source && _ && _) eqn:E; [|by eexists]. apply Hfirst. apply andb_prop in E as [_ E%Nat.eqb_eq]. lia. }
  destruct (negb _); [by eexists|exact Hgo].
Qed.

(** ** Declarations *)

(** The name has a symbol of the kind; a match has symbols of the source. *)
Definition declared (match_ : bool) b (name : string) (kind : EDslSymbolKind) : Prop :=
  exists s, symtab b !! name = Some s /\ m_esymk s = kind /\ (match_ = true -> m_eside s = EdslsideSource).

Lemma declared_grows m b c name kind : grows b c -> declared m b name kind -> declared m c name kind.
Proof. intros Hg (s & Hs & H). exists s. split; [by eapply gr_tab|done]. Qed.

Lemma declare_keeps name kind m b : ctx_ok b -> symbol_text name = true -> kind <> EdslsymSentinel ->
  keeps (declare name kind m) (fun _ c => declared m c name kind) b.
Proof.
  intros Hb Hn Hk. unfold declare. apply keeps_get. eapply (keeps_bind _ _ (fun s c => symtab c !! name = Some s)).
  { destruct (symtab b !! name) as [s|] eqn:Es; [by apply keeps_ret|]. eapply keeps_mono; [by apply new_symbol_keeps|].
    cbn. intros s c _ _ (_ & _ & _ & ->). by rewrite lookup_insert_eq. }
  intros s c Hc Hg Hs. case_bool_decide as E1; cbn [negb orb]; [|by apply keeps_fail].
  destruct (m && negb _) eqn:E2; [by apply keeps_fail|]. apply keeps_ret; [done|]. exists s. split_and!; [done..|].
  intros ->. cbn in E2. by apply negb_false_iff, bool_decide_eq_true in E2.
Qed.

Lemma declare_all_keeps names types m b :
  ctx_ok b -> length names = length types -> forallb symbol_text names = true -> Forall (fun t => t <> EdslsymSentinel) types ->
  keeps (declare_all names types m) (fun _ c => Forall2 (declared m c) names types) b.
Proof.
  revert types b. induction names as [|n names IH]; intros [|t types] b Hb Hlen Hn Ht; try done; [by apply keeps_ret|].
  cbn in Hn. apply andb_prop in Hn as [Hn Hns]. apply Forall_cons_iff in Ht as [Ht Hts].
  cbn [declare_all]. apply keeps_lift_bind, returns_ret. eapply keeps_bind; [by apply declare_keeps|]. intros [] c Hc Hg Hd.
  eapply keeps_mono; [apply IH; [done|cbn in Hlen |- *; lia|done|done]|]. cbn. intros _ d Hd' Hg' H. constructor; [by eapply declared_grows|done].
Qed.

(** A binding is typed: its names have symbols of the kinds of a signature. *)
Definition typed b bi : Prop :=
  match binding_call bi with
  | Some call => exists sig, PsigBinding (Some (c_id call)) (length (c_args call)) (s_types sig) = Some sig /\
      Forall2 (declared (is_match bi) b) (binding_output bi :: c_args call) (s_types sig)
  | None => exists kind, Forall (fun n => declared false b n kind) (binding_output bi :: binding_operands bi)
  end.

Definition plain_binding bi : bool := symbol_text (binding_output bi) && forallb symbol_text (binding_operands bi).

Lemma typed_grows b c bi : grows b c -> typed b bi -> typed c bi.
Proof.
  intros Hg. unfold typed. destruct (binding_call bi) as [call|].
  - intros (sig & H1 & H2). exists sig. split; [done|]. eapply Forall2_impl; [exact H2|]. intros. by eapply declared_grows.
  - intros (kind & H). exists kind. eapply Forall_impl; [exact H|]. intros. by eapply declared_grows.
Qed.

Lemma call_operands bi call : binding_call bi = Some call -> binding_operands bi = c_args call.
Proof. by destruct bi; cbn; intros [= ->]. Qed.

Lemma declare_binding_keeps bi b : ctx_ok b -> plain_binding bi = true ->
  keeps (declare_binding bi) (fun r c => (r : bool) = true -> typed c bi) b.
Proof.
  intros Hb [Ho Hops]%andb_prop. unfold declare_binding. apply keeps_get. unfold typed.
  destruct (binding_call bi) as [call|] eqn:Ec.
  - rewrite (call_operands bi call Ec) in Hops. destruct (PsigBinding _ _ _) as [sig|] eqn:Esig; [|by apply keeps_ret].
    pose proof (PsigBinding_inv _ _ _ _ Esig) as (Hin & _ & Har & _). apply PsigBinding_full in Esig; [|by cbn; rewrite length_map].
    eapply keeps_bind; [apply declare_all_keeps; [done| |by cbn; rewrite Ho|by apply signature_types]|].
    { cbn. by rewrite (signature_length _ Hin), Har. }
    intros [] c Hc Hg Hd. apply keeps_ret; [done|]. intros _. by exists sig.
  - destruct bi as [call o|o call|o i]; try done. cbn in *. apply keeps_lift_bind, returns_ret. apply andb_prop in Hops as [Hi _].
    assert (Hknown : forall s, (exists n, symtab b !! n = Some s) ->
      keeps (if bool_decide (m_esymk s = EdslsymSentinel) then Fail "" else
             (_ ← declare o (m_esymk s) false; _ ← declare i (m_esymk s) false; mret true))
        (fun r c => r = true -> exists kind, Forall (fun n => declared false c n kind) [o; i]) b).
    { intros s [n Hs]. case_bool_decide as Hk; [by apply keeps_fail|].
      eapply keeps_bind; [by apply declare_keeps|]. intros [] c Hc Hg H1. eapply keeps_bind; [by apply declare_keeps|]. intros [] d Hd Hg' H2.
      apply keeps_ret; [done|]. intros _. exists (m_esymk s). repeat constructor; [by eapply declared_grows|done]. }
    destruct (symtab b !! o) as [so|] eqn:Eo; [by apply Hknown; exists o|].
    destruct (symtab b !! i) as [si|] eqn:Ei; [by apply Hknown; exists i|by apply keeps_ret].
Qed.

Lemma declare_pass_keeps pending b : ctx_ok b -> Forall (fun bi => plain_binding bi = true) pending ->
  keeps (declare_pass pending) (fun rest c => length rest <= length pending /\ (forall bi, bi ∈ rest -> bi ∈ pending) /\
    forall bi, bi ∈ pending -> bi ∈ rest \/ typed c bi) b.
Proof.
  revert b. induction pending as [|bi pending IH]; intros b Hb Hp; cbn [declare_pass].
  { apply keeps_ret; [done|]. split_and!; [done..|]. by intros bi ?%not_elem_of_nil. }
  apply Forall_cons_iff in Hp as [Hbi Hp]. eapply keeps_bind; [by apply declare_binding_keeps|]. intros done_ c Hc Hg Hd.
  eapply keeps_bind; [by apply IH|]. intros rest d Hd' Hg' (Hlen & Hsub & Hall). apply keeps_ret; [done|].
  destruct done_; cbn [length]; split_and!.
  - lia.
  - intros x Hx. right. auto.
  - intros x [->|Hx]%elem_of_cons; [right; eapply typed_grows; eauto|auto].
  - lia.
  - intros x [->|Hx]%elem_of_cons; [left|right; auto].
  - intros x [->|Hx]%elem_of_cons; [left; left|]. destruct (Hall x Hx); [left; by right|by right].
Qed.

Lemma declare_passes_keeps n : forall pending b, ctx_ok b -> length pending < n -> Forall (fun bi => plain_binding bi = true) pending ->
  keeps (declare_passes n pending) (fun _ c => Forall (typed c) pending) b.
Proof.
  induction n as [|n IH]; intros pending b Hb Hn Hp; [lia|]. cbn [declare_passes].
  destruct (length pending =? 0) eqn:E; [apply keeps_ret; [done|]; by destruct pending|].
  eapply keeps_bind; [by apply declare_pass_keeps|]. intros rest c Hc Hg (Hlen & Hsub & Hall).
  destruct (length rest =? length pending) eqn:E2; [by apply keeps_fail|]. apply Nat.eqb_neq in E2.
  eapply keeps_mono; [apply IH; [done|lia|]|].
  - rewrite Forall_forall in *. auto.
  - cbn. intros _ d _ Hg' Hrest. rewrite Forall_forall in *. intros x Hx. destruct (Hall x Hx); [auto|by eapply typed_grows].
Qed.

(** [FDeclareBindings] types all bindings. *)
Lemma FDeclareBindings_keeps tree source target b :
  ctx_ok b -> op_all (node_ok EdslsideSource b) source -> op_all (node_ok EdslsideTarget b) target ->
  Forall (fun bi => plain_binding bi = true) (tree_bindings tree) ->
  keeps (FDeclareBindings tree source target) (fun _ c => Forall (typed c) (tree_bindings tree)) b.
Proof.
  intros Hb Hs Ht Hp. unfold FDeclareBindings. apply keeps_get. set (bs := tree_bindings tree) in *.
  destruct (length bs =? 0) eqn:E0.
  { destruct (has_select_list b); [by apply keeps_fail|apply keeps_ret; [done|]]. by destruct bs. }
  apply keeps_lift_bind. eapply returns_mono; [by eapply FBindingTree_returns|]. intros sb _.
  eapply (keeps_bind _ _ (fun _ _ => True)).
  { destruct sb; [apply keeps_lift; [done|]; by eapply FBindingTree_returns|by apply keeps_ret]. }
  intros tb c Hc Hg _. destruct (negb tb); [by apply keeps_fail|].
  assert (Hperm : List.filter is_match bs ++ List.filter (fun bi => negb (is_match bi)) bs ≡ₚ bs).
  { clear. induction bs as [|x bs IH]; [done|]. cbn. destruct (is_match x); cbn; [by rewrite IH|]. rewrite <- Permutation_middle. by rewrite IH. }
  eapply keeps_mono; [apply declare_passes_keeps; [done|rewrite Hperm; lia|by rewrite Hperm]|].
  cbn. intros _ d _ _. by rewrite Hperm.
Qed.
End RuleTyped.
