(* ===== verification/RuleFlow.v ===== *)
(** * The data flow of a rule

    Proofs about the loop of [FBuildBindings] (RuleBindings.v) that computes which
    symbols are available: it ends, and whatever the order of the hash tables its
    result is the least set of symbols closed under the steps of the flow. *)
From stdpp Require Import base numbers list strings.
From S2P Require Import Prelude RuleEnums RuleDefs RuleBuild RuleBindings.

Module RuleFlow.
Import RuleEnums RuleDefs RuleBuild RuleBindings.
Open Scope nat_scope.
Open Scope list_scope.
Open Scope outcome_scope.
Implicit Types (s k v : CDSLSymbol) (avail : list CDSLSymbol) (d : CDefinition).

(** ** Sets as lists *)

Lemma insert_sym_elem s l x : x ∈ insert_sym s l <-> x = s \/ x ∈ l.
Proof. unfold insert_sym. case_bool_decide; [|rewrite elem_of_app, list_elem_of_singleton; tauto]. split; [by right|]. by intros [->|?]. Qed.

Lemma insert_sym_nodup s l : NoDup l -> NoDup (insert_sym s l).
Proof.
  intros Hl. unfold insert_sym. case_bool_decide as E; [done|]. apply NoDup_app. split_and!; [done| |apply NoDup_singleton].
  by intros x Hx ->%list_elem_of_singleton.
Qed.

Lemma insert_sym_prefix s l : l `prefix_of` insert_sym s l.
Proof. unfold insert_sym. case_bool_decide; [done|]. by apply prefix_app_r. Qed.

Lemma insert_sym_fixed s l : insert_sym s l = l -> s ∈ l.
Proof. intros <-. apply insert_sym_elem. by left. Qed.

Lemma insert_syms_elem ss l x : x ∈ insert_syms ss l <-> x ∈ ss \/ x ∈ l.
Proof.
  unfold insert_syms. revert l. induction ss as [|s ss IH]; intros l; cbn; [|rewrite IH, insert_sym_elem, elem_of_cons; tauto].
  split; [by right|]. by intros [?%not_elem_of_nil|].
Qed.

Lemma insert_syms_nodup ss l : NoDup l -> NoDup (insert_syms ss l).
Proof. unfold insert_syms. revert l. induction ss as [|s ss IH]; intros l Hl; cbn; [done|]. by apply IH, insert_sym_nodup. Qed.

(** A loop that only appends: an end where it began means that no step did anything. *)
Section Folds.
Context {E : Type} (step : list CDSLSymbol -> E -> list CDSLSymbol) (Hstep : forall l e, l `prefix_of` step l e).

Lemma fold_prefix es l : l `prefix_of` fold_left step es l.
Proof. revert l. induction es as [|e es IH]; intros l; cbn; [done|]. etrans; [apply Hstep|apply IH]. Qed.

Lemma prefix_same (l m n : list CDSLSymbol) : l `prefix_of` m -> m `prefix_of` n -> n = l -> m = l.
Proof.
  intros [a ->] [c ->] H. assert (a = []) as ->; [|apply app_nil_r].
  apply (f_equal length) in H. rewrite !length_app in H. destruct a; [done|]. cbn in H. lia.
Qed.

Lemma fold_fixed es l e : fold_left step es l = l -> e ∈ es -> step l e = l.
Proof.
  revert l. induction es as [|x es IH]; intros l H He; [by apply not_elem_of_nil in He|]. cbn in H.
  pose proof (prefix_same _ _ _ (Hstep l x) (fold_prefix es _) H) as Hx. rewrite Hx in H.
  apply elem_of_cons in He as [->|He]; [done|auto].
Qed.

Lemma fold_invariant (P : list CDSLSymbol -> Prop) es l : P l -> (forall l e, e ∈ es -> P l -> P (step l e)) -> P (fold_left step es l).
Proof.
  revert l. induction es as [|e es IH]; intros l Hl HP; cbn; [done|]. apply IH; [apply HP; [left|done]|]. intros k e' He. apply HP. by right.
Qed.
End Folds.

Section Flow.
Context `{HO : HashOrder} `{HL : !HashOrderLaws}.
Context (f : flow) (defs : CDSLExpressionDefinitions) (bo : list (CDSLSymbol * CDSLSymbol)).

(** ** The symbols that can be computed *)

Inductive reach : CDSLSymbol -> Prop :=
  | rc_base s : s ∈ available f -> reach s
  | rc_bind k v : (k, v) ∈ bo -> reach v -> reach k
  | rc_alias k v : (k, v) ∈ aliases f -> reach v -> reach k
  | rc_derive k con : (k, con) ∈ columnDerivations f -> (forall s, s ∈ inputs_of con -> reach s) -> reach k
  | rc_match d s : d ∈ m_pdrgpdefDefinitions defs -> m_binding d = EMatch -> reach (m_psymOutput d) -> s ∈ m_operands d -> reach s
  | rc_build d : d ∈ m_pdrgpdefDefinitions defs -> m_binding d <> EMatch -> (forall s, s ∈ m_operands d -> reach s) -> reach (m_psymOutput d).

(** ** The steps *)

Definition copy_step avail (e : CDSLSymbol * CDSLSymbol) : list CDSLSymbol :=
  if bool_decide (e.2 ∈ avail) then insert_sym e.1 avail else avail.
Definition derive_step avail (e : CDSLSymbol * CDSLConstraint) : list CDSLSymbol :=
  if forallb (fun s => bool_decide (s ∈ avail)) (inputs_of e.2) then insert_sym e.1 avail else avail.

Lemma all_available_elem avail ss : forallb (fun s => bool_decide (s ∈ avail)) ss = true <-> forall s, s ∈ ss -> s ∈ avail.
Proof.
  rewrite forallb_forall. setoid_rewrite bool_decide_eq_true. by setoid_rewrite list_elem_of_In.
Qed.

Lemma copy_prefix avail e : avail `prefix_of` copy_step avail e.
Proof. unfold copy_step. case_bool_decide; [apply insert_sym_prefix|done]. Qed.

Lemma derive_prefix avail e : avail `prefix_of` derive_step avail e.
Proof. unfold derive_step. destruct (forallb _ _); [apply insert_sym_prefix|done]. Qed.

(** The loop over the operands of a definition *)
Definition operand_step d (p : list CDSLSymbol * bool) (input : CDSLSymbol) : list CDSLSymbol * bool :=
  let '(avail, ready) := p in
  let avail := if bool_decide (m_binding d = EMatch) && bool_decide (m_psymOutput d ∈ avail) then insert_sym input avail else avail in
  (avail, ready && bool_decide (input ∈ avail)).

Lemma define_eq avail d : define_available avail d =
  let '(avail', ready) := fold_left (operand_step d) (m_operands d) (avail, true) in
  if negb (bool_decide (m_binding d = EMatch)) && ready then insert_sym (m_psymOutput d) avail' else avail'.
Proof. done. Qed.

Definition match_step d avail (input : CDSLSymbol) : list CDSLSymbol :=
  if bool_decide (m_binding d = EMatch) && bool_decide (m_psymOutput d ∈ avail) then insert_sym input avail else avail.

Lemma match_prefix d avail input : avail `prefix_of` match_step d avail input.
Proof. unfold match_step. destruct (_ && _); [apply insert_sym_prefix|done]. Qed.

Lemma operand_fold d ops avail r : exists r', fold_left (operand_step d) ops (avail, r) = (fold_left (match_step d) ops avail, r') /\
  (m_binding d <> EMatch -> r' = r && forallb (fun s => bool_decide (s ∈ avail)) ops).
Proof.
  revert avail r. induction ops as [|o ops IH]; intros avail r; cbn; [exists r; by rewrite andb_true_r|].
  set (avail' := match_step d avail o). destruct (IH avail' (r && bool_decide (o ∈ avail'))) as (r' & Hf & Hr).
  exists r'. split; [exact Hf|]. intros Hb. rewrite (Hr Hb). assert (avail' = avail) as ->; [|by rewrite andb_assoc].
  subst avail'. unfold match_step. by rewrite bool_decide_false.
Qed.

Lemma define_prefix avail d : avail `prefix_of` define_available avail d.
Proof.
  rewrite define_eq. destruct (operand_fold d (m_operands d) avail true) as (r & -> & _).
  pose proof (fold_prefix _ (match_prefix d) (m_operands d) avail) as H.
  destruct (_ && _); [|done]. etrans; [exact H|apply insert_sym_prefix].
Qed.

Lemma define_fixed avail d : define_available avail d = avail ->
  if bool_decide (m_binding d = EMatch) then m_psymOutput d ∈ avail -> forall s, s ∈ m_operands d -> s ∈ avail
  else (forall s, s ∈ m_operands d -> s ∈ avail) -> m_psymOutput d ∈ avail.
Proof.
  rewrite define_eq. destruct (operand_fold d (m_operands d) avail true) as (r & -> & Hr).
  case_bool_decide as Hb; cbn [negb andb].
  - intros Hfix Hout s Hs. pose proof (fold_fixed _ (match_prefix d) _ _ s Hfix Hs) as H. unfold match_step in H.
    rewrite !bool_decide_true in H by done. by apply insert_sym_fixed.
  - intros Hfix Hall. specialize (Hr Hb). cbn in Hr. rewrite (proj2 (all_available_elem avail _)) in Hr by done. subst r.
    assert (fold_left (match_step d) (m_operands d) avail = avail) as E; [|rewrite E in Hfix; by apply insert_sym_fixed].
    eapply prefix_same; [apply fold_prefix, match_prefix|apply insert_sym_prefix|exact Hfix].
Qed.

(** Every step keeps the invariant: no duplicates, only symbols that can be computed. *)
Definition flow_inv avail : Prop := NoDup avail /\ forall s, s ∈ avail -> reach s.

Lemma insert_inv avail s : flow_inv avail -> reach s -> flow_inv (insert_sym s avail).
Proof. intros [H1 H2] Hs. split; [by apply insert_sym_nodup|]. intros x [->|?]%insert_sym_elem; auto. Qed.

Lemma define_inv avail d : d ∈ m_pdrgpdefDefinitions defs -> flow_inv avail -> flow_inv (define_available avail d).
Proof.
  intros Hd Hinv. rewrite define_eq. destruct (operand_fold d (m_operands d) avail true) as (r & -> & Hr).
  assert (Hfold : flow_inv (fold_left (match_step d) (m_operands d) avail)).
  { refine (fold_invariant _ flow_inv _ _ Hinv _). intros l o Ho Hl. unfold match_step. case_bool_decide as Hb; [|done]. case_bool_decide as Hout; [|done].
    cbn. apply insert_inv; [done|]. eapply rc_match; eauto. by apply Hl. }
  case_bool_decide as Hb; cbn [negb andb]; [done|]. destruct r eqn:Er; [|done]. apply insert_inv; [done|]. apply rc_build; [done..|].
  intros s Hs. specialize (Hr Hb). cbn in Hr. symmetry in Hr. rewrite all_available_elem in Hr. apply Hinv. auto.
Qed.

Lemma copy_inv (m : list (CDSLSymbol * CDSLSymbol)) avail :
  (forall k v, (k, v) ∈ m -> reach v -> reach k) -> flow_inv avail -> flow_inv (copy_available m avail).
Proof.
  intros Hm Hinv. refine (fold_invariant copy_step flow_inv _ _ Hinv _). intros l [k v] He Hl. unfold copy_step. cbn.
  case_bool_decide; [|done]. apply insert_inv; [done|]. rewrite hash_order_perm in He. apply (Hm k v He). by apply Hl.
Qed.

Lemma derive_inv avail : flow_inv avail -> flow_inv (derive_available (columnDerivations f) avail).
Proof.
  intros Hinv. refine (fold_invariant derive_step flow_inv _ _ Hinv _). intros l [k con] He Hl. unfold derive_step. cbn.
  destruct (forallb _ _) eqn:E; [|done]. apply insert_inv; [done|]. rewrite hash_order_perm in He. rewrite all_available_elem in E.
  eapply rc_derive; [exact He|]. intros s Hs. apply Hl. auto.
Qed.

Lemma round_inv avail : flow_inv avail -> flow_inv (flow_round f defs bo avail).
Proof.
  intros H. refine (fold_invariant define_available flow_inv _ _ _ _); [|intros; by apply define_inv].
  apply derive_inv, copy_inv; [apply rc_alias|]. apply copy_inv; [apply rc_bind|done].
Qed.

Lemma round_prefixes avail : let a1 := copy_available bo avail in let a2 := copy_available (aliases f) a1 in
  let a3 := derive_available (columnDerivations f) a2 in
  avail `prefix_of` a1 /\ a1 `prefix_of` a2 /\ a2 `prefix_of` a3 /\ a3 `prefix_of` flow_round f defs bo avail.
Proof.
  cbn. split_and!; [exact (fold_prefix copy_step copy_prefix _ _)|exact (fold_prefix copy_step copy_prefix _ _)|
    exact (fold_prefix derive_step derive_prefix _ _)|exact (fold_prefix define_available define_prefix _ _)].
Qed.

Lemma round_prefix avail : avail `prefix_of` flow_round f defs bo avail.
Proof. destruct (round_prefixes avail) as (H1 & H2 & H3 & H4). by do 3 (etrans; [eassumption|]). Qed.

(** A round that adds nothing: the set is closed. *)
Lemma round_closed avail s : flow_round f defs bo avail = avail -> (forall s, s ∈ available f -> s ∈ avail) -> reach s -> s ∈ avail.
Proof.
  intros Hfix Hbase. destruct (round_prefixes avail) as (H1 & H2 & H3 & H4). cbn in *.
  assert (E3 : derive_available (columnDerivations f) (copy_available (aliases f) (copy_available bo avail)) = avail).
  { eapply prefix_same; [|exact H4|exact Hfix]. by do 2 (etrans; [eassumption|]). }
  assert (E2 : copy_available (aliases f) (copy_available bo avail) = avail) by (eapply prefix_same; [|exact H3|exact E3]; by etrans).
  assert (E1 : copy_available bo avail = avail) by (by eapply prefix_same; [|exact H2|exact E2]).
  unfold flow_round in Hfix. rewrite E3 in Hfix. rewrite E2 in E3. rewrite E1 in E2.
  induction 1 as [s Hs|k v He _ IH|k v He _ IH|k con He _ IH|d s Hd Hb _ IH Hs|d Hd Hb _ IH].
  - auto.
  - pose proof (fold_fixed copy_step copy_prefix _ _ (k, v) E1 ltac:(by rewrite hash_order_perm)) as H. unfold copy_step in H. cbn in H.
    rewrite bool_decide_true in H by done. by apply insert_sym_fixed.
  - pose proof (fold_fixed copy_step copy_prefix _ _ (k, v) E2 ltac:(by rewrite hash_order_perm)) as H. unfold copy_step in H. cbn in H.
    rewrite bool_decide_true in H by done. by apply insert_sym_fixed.
  - pose proof (fold_fixed derive_step derive_prefix _ _ (k, con) E3 ltac:(by rewrite hash_order_perm)) as H. unfold derive_step in H. cbn in H.
    rewrite (proj2 (all_available_elem avail _)) in H by done. by apply insert_sym_fixed.
  - pose proof (define_fixed avail d (fold_fixed _ define_prefix _ _ d Hfix Hd)) as H. rewrite bool_decide_true in H by done. auto.
  - pose proof (define_fixed avail d (fold_fixed _ define_prefix _ _ d Hfix Hd)) as H. rewrite bool_decide_false in H by done. auto.
Qed.

(** The loop returns the symbols that can be computed. *)
Lemma flow_loop_ret U n : (forall s, reach s -> s ∈ U) ->
  forall avail, flow_inv avail -> (forall s, s ∈ available f -> s ∈ avail) -> length U < n + length avail ->
  returns (flow_loop n f defs bo avail) (fun r => forall s, s ∈ r <-> reach s).
Proof.
  intros HU. induction n as [|n IH]; intros avail Hinv Hbase Hn.
  { assert (length avail <= length U); [|lia]. apply submseteq_length, NoDup_submseteq; [apply Hinv|]. intros s Hs. by apply HU, Hinv. }
  cbn [flow_loop]. pose proof (round_prefix avail) as [ext Hext]. pose proof (round_inv avail Hinv) as Hinv'.
  destruct (length avail =? length (flow_round f defs bo avail)) eqn:E.
  - apply Nat.eqb_eq in E. rewrite Hext, length_app in E. assert (ext = []) as -> by (destruct ext; [done|cbn in E; lia]).
    rewrite app_nil_r in Hext. rewrite Hext. apply returns_ret. intros s. split; [apply Hinv|]. by apply round_closed.
  - apply Nat.eqb_neq in E. apply IH; [done|..].
    + intros s Hs. rewrite Hext. apply elem_of_app. left. auto.
    + rewrite Hext, length_app in E |- *. lia.
Qed.
End Flow.
End RuleFlow.
