(* ===== verification/RuleExec.v ===== *)
(** * Rules with bindings can be executed

    Proofs about [FBuildBindings] (RuleBindings.v): it returns for every typed rule,
    the graph it builds is acyclic and typed and has a definition for every binding,
    and if it accepts the rule every symbol can be computed from the captures of
    the source pattern. *)
From Stdlib Require Import Ascii.
From stdpp Require Import base numbers list strings gmap option pretty.
From S2P Require Import Prelude RuleEnums RuleSyntax RuleDefs RuleGraph RuleBuild RuleBindings RuleWp RuleBuilt RuleTyped RuleFlow.

Module RuleExec.
Import RuleEnums RuleSyntax RuleDefs RuleGraph RuleBuild RuleBindings RuleWp RuleBuilt RuleTyped RuleFlow.
Open Scope string_scope.
Open Scope nat_scope.
Open Scope list_scope.
Open Scope outcome_scope.
Implicit Types (b c : SBuildCtx) (bi : binding) (s k v : CDSLSymbol) (cons : list CDSLConstraint) (d : CDefinition).

(** ** Programs that only read the context *)

Definition checks {A} (m : build A) (Q : A -> Prop) b : Prop := bwp m (fun a c => c = b /\ Q a) b.

Lemma checks_ret {A} (a : A) (Q : A -> Prop) b : Q a -> checks (mret a) Q b.
Proof. intros. by apply returns_ret. Qed.

Lemma checks_fail {A} msg (Q : A -> Prop) b : checks (Fail msg) Q b.
Proof. by apply returns_ret. Qed.

Lemma checks_lift {A} (m : outcome A) (Q : A -> Prop) b : returns m Q -> checks (lift m) Q b.
Proof. intros H. apply bwp_lift. eapply returns_mono; [exact H|]. done. Qed.

Lemma checks_bind {A B} (m : build A) (k : A -> build B) (P : A -> Prop) (Q : B -> Prop) b :
  checks m P b -> (forall a, P a -> checks (k a) Q b) -> checks (m ≫= k) Q b.
Proof. intros Hm Hk. apply bwp_bind. eapply bwp_mono; [exact Hm|]. cbn. intros a c [-> HP]. by apply Hk. Qed.

Lemma checks_lift_bind {A B} (m : outcome A) (k : A -> build B) Q b : returns m (fun a => checks (k a) Q b) -> checks (lift m ≫= k) Q b.
Proof. intros H. by apply bwp_bind, bwp_lift. Qed.

Lemma checks_get {B} (k : SBuildCtx -> build B) Q b : checks (k b) Q b -> checks (get_ctx ≫= k) Q b.
Proof. intros H. by apply bwp_bind, returns_ret. Qed.

Lemma checks_mono {A} (m : build A) (P Q : A -> Prop) b : checks m P b -> (forall a, P a -> Q a) -> checks m Q b.
Proof. intros H HPQ. eapply bwp_mono; [exact H|]. cbn. intros a c [? ?]. auto. Qed.

Lemma checks_keeps {A} (m : build A) (Q : A -> Prop) b : ctx_ok b -> checks m Q b -> keeps m (fun a c => c = b /\ Q a) b.
Proof. intros Hb H. eapply bwp_mono; [exact H|]. cbn. intros a c [-> ?]. done. Qed.

Lemma checks_each {A B} (R : A -> B -> Prop) (f : A -> build B) (l : list A) b :
  (forall a, a ∈ l -> checks (f a) (R a) b) -> checks (each l f) (Forall2 R l) b.
Proof.
  induction l as [|a l IH]; intros Hf; cbn [each]; [by apply checks_ret|].
  eapply checks_bind; [apply Hf; left|]. intros r Hr. eapply checks_bind; [apply IH; intros; apply Hf; by right|].
  intros rs Hrs. apply checks_ret. by constructor.
Qed.

Lemma checks_all {A B} (f : A -> build B) (l : list A) b : (forall a, a ∈ l -> checks (f a) (fun _ => True) b) -> checks (each l f) (fun _ => True) b.
Proof. intros Hf. eapply checks_mono; [by apply (checks_each (fun _ _ => True))|]. done. Qed.

Lemma checks_fold {A S} (I : list A -> S -> Prop) (step : S -> A -> build S) (l : list A) (init : S) b :
  I [] init -> (forall pre a rest (s : S), l = pre ++ a :: rest -> I pre s -> checks (step s a) (I (pre ++ [a])) b) ->
  checks (fold_build step init l) (I l) b.
Proof.
  intros H0 Hstep. assert (Hgen : forall rest pre (s : S), l = pre ++ rest -> I pre s -> checks (fold_build step s rest) (I l) b).
  { induction rest as [|a rest IH]; intros pre s Hl HI; cbn [fold_build].
    - apply checks_ret. by rewrite Hl, app_nil_r.
    - eapply checks_bind; [by eapply Hstep|]. intros s' HI'. apply (IH (pre ++ [a])); [|done]. by rewrite <- (assoc_L (++)). }
  by apply (Hgen l []).
Qed.

Lemma symtab_at_checks name b : checks (symtab_at name) (fun s => symtab b !! name = Some s) b.
Proof. unfold symtab_at. apply checks_get. destruct (symtab b !! name); [by apply checks_ret|apply checks_fail]. Qed.

(** ** Where the flow comes from *)

Fixpoint subops (o : CDSLOp) : list CDSLOp := o :: concat (map subops (m_pdrgpchild o)).

(** An equality that gives the symbol [k] of the target the value of [v] *)
Definition alias_of (con : CDSLConstraint) k v : Prop :=
  alias_kind (m_edslcon con) <> EdslsymSentinel /\ (m_con_syms con = [k; v] \/ m_con_syms con = [v; k]) /\
  m_eside k = EdslsideTarget /\ m_eside v = EdslsideSource /\ m_esymk k = m_esymk v.

(** A value the checker of a constraint computes when the rule is applied *)
Definition deferred_value cons s : Prop :=
  exists con, con ∈ cons /\ FDeferredSemanticConstraint (m_edslcon con) = true /\ s ∈ m_con_syms con /\ m_eside s = EdslsideTarget.

(** A rank that [RankAttrs] may invent *)
Definition new_rank cons s : Prop :=
  exists con, con ∈ cons /\ m_edslcon con = EdslconRankAttrs /\ m_con_syms con !! 1 = Some s /\ m_eside s = EdslsideTarget.

Record flow_from (pattern : list CDSLSymbol) cons (f : flow) : Prop := {
  ff_avail s : s ∈ available f -> s ∈ pattern \/ deferred_value cons s \/ new_rank cons s;
  ff_nodup : NoDup (available f);
  ff_alias k v : (k, v) ∈ aliases f -> exists con, con ∈ cons /\ alias_of con k v;
  ff_derive k con : (k, con) ∈ columnDerivations f -> con ∈ cons /\ FBindingMetadata (m_edslcon con) = true /\ m_eside k = EdslsideTarget /\
    exists i, m_con_syms con !! i = Some k /\ is_output con i = true;
  ff_checks con : con ∈ columnChecks f -> con ∈ cons /\ FBindingMetadata (m_edslcon con) = true;
  ff_deferred con : con ∈ deferredChecks f -> con ∈ cons /\ FDeferredSemanticConstraint (m_edslcon con) = true;
}.

Lemma emplace_elem {V} (m : list (CDSLSymbol * V)) k (a : V) k' a' : (k', a') ∈ (map_emplace m k a).2 -> (k', a') = (k, a) \/ (k', a') ∈ m.
Proof. unfold map_emplace. destruct (map_find m k); cbn; [by right|]. rewrite elem_of_app, list_elem_of_singleton. tauto. Qed.

Lemma classify_from pattern cons f con b : con ∈ cons -> flow_from pattern cons f -> checks (classify f con) (flow_from pattern cons) b.
Proof.
  intros Hcon Hf. pose proof Hf as [H1 H2 H3 H4 H5 H6]. unfold classify. destruct (FBindingMetadata (m_edslcon con)) eqn:Em.
  { apply checks_ret. split; cbn; auto. intros con' [?|<-%list_elem_of_singleton]%elem_of_app; auto. }
  destruct (is_property _); [by apply checks_ret|]. destruct (FDeferredSemanticConstraint _) eqn:Ed.
  { apply checks_ret. split; cbn; auto.
    - intros s [(Hs & Ht)%list_elem_of_In%filter_In|?]%insert_syms_elem; [|auto]. right. left. exists con. split_and!; [done..| |].
      + by apply list_elem_of_In.
      + by apply bool_decide_eq_true in Ht.
    - by apply insert_syms_nodup.
    - intros con' [?|<-%list_elem_of_singleton]%elem_of_app; auto. }
  destruct (forallb _ _); [by apply checks_ret|]. destruct (m_con_syms con) as [|x [|y [|]]] eqn:Es; try by apply checks_fail.
  case_bool_decide as E1; [by apply checks_fail|]. destruct (negb _ || negb _ || _) eqn:E2; [by apply checks_fail|].
  apply orb_false_elim in E2 as [[E2 E3]%orb_false_elim E4]. apply negb_false_iff, bool_decide_eq_true in E2, E3. apply bool_decide_eq_false in E4.
  assert (Halias : forall kv, kv = (if side_is x EdslsideTarget then (x, y) else (y, x)) -> alias_of con kv.1 kv.2).
  { intros kv ->. unfold alias_of, side_is. rewrite Es. case_bool_decide as Ex; cbn; split_and!; eauto; try congruence;
      destruct (m_eside x) eqn:?, (m_eside y) eqn:?; try done; congruence. }
  specialize (Halias _ eq_refl). destruct (if side_is x EdslsideTarget then (x, y) else (y, x)) as [key value].
  destruct (map_emplace (aliases f) key value) as [fresh m] eqn:Ee. destruct fresh; [|by apply checks_fail].
  apply checks_ret. split; cbn; auto. intros k v Hkv. assert ((k, v) ∈ (map_emplace (aliases f) key value).2) as Hkv' by (by rewrite Ee).
  apply emplace_elem in Hkv' as [[= -> ->]|?]; eauto.
Qed.

Lemma check_output_from pattern cons constructed con f i output b :
  con ∈ cons -> FBindingMetadata (m_edslcon con) = true -> m_con_syms con !! i = Some output -> is_output con i = true ->
  flow_from pattern cons f -> checks (check_output constructed con f output) (flow_from pattern cons) b.
Proof.
  intros Hcon Hm Hi Ho Hf. pose proof Hf as [H1 H2 H3 H4 H5 H6]. unfold check_output. destruct (is_con _ _ && _); [by apply checks_fail|].
  destruct (side_is output EdslsideSource) eqn:Eside; [by apply checks_ret|]. cbn [orb]. destruct (in_map _ _); [by apply checks_ret|].
  destruct (map_emplace (columnDerivations f) output con) as [fresh m] eqn:Ee. destruct fresh; [|by apply checks_fail].
  apply checks_ret. split; cbn; auto. intros k con' Hk. assert ((k, con') ∈ (map_emplace (columnDerivations f) output con).2) as Hk' by (by rewrite Ee).
  apply emplace_elem in Hk' as [[= -> ->]|?]; [|by auto]. split_and!; [done..| |by eauto].
  unfold side_is in Eside. apply bool_decide_eq_false in Eside. by destruct (m_eside output).
Qed.

Lemma slots_elem con i s : (i, s) ∈ slots con <-> m_con_syms con !! i = Some s.
Proof. unfold slots. rewrite elem_of_lookup_imap. naive_solver. Qed.

Lemma outputs_elem con s : s ∈ map snd (List.filter (fun e => is_output con e.1) (slots con)) <->
  exists i, m_con_syms con !! i = Some s /\ is_output con i = true.
Proof.
  split.
  - intros ([i t] & -> & (Hi & Ho)%list_elem_of_In%filter_In)%list_elem_of_fmap. exists i. split; [|done]. by apply slots_elem, list_elem_of_In.
  - intros (i & Hi & Ho). apply list_elem_of_fmap. exists (i, s). split; [done|]. apply list_elem_of_In, filter_In. split; [|done].
    by apply list_elem_of_In, slots_elem.
Qed.

Lemma inputs_elem con s : s ∈ inputs_of con <-> exists i, m_con_syms con !! i = Some s /\ is_output con i = false.
Proof.
  unfold inputs_of. split.
  - intros ([i t] & -> & (Hi & Ho%negb_true_iff)%list_elem_of_In%filter_In)%list_elem_of_fmap. exists i. split; [|done]. by apply slots_elem, list_elem_of_In.
  - intros (i & Hi & Ho). apply list_elem_of_fmap. exists (i, s). split; [done|]. apply list_elem_of_In, filter_In. cbn [fst]. rewrite Ho. split; [|done].
    by apply list_elem_of_In, slots_elem.
Qed.

Lemma check_column_from pattern cons constructed con f b :
  con ∈ cons -> con_ok b con -> FBindingMetadata (m_edslcon con) = true -> flow_from pattern cons f ->
  checks (check_column constructed f con) (flow_from pattern cons) b.
Proof.
  intros Hcon Hok Hm Hf. unfold check_column. eapply (checks_bind _ _ (flow_from pattern cons)).
  - unfold is_con. case_bool_decide as E; [|by apply checks_ret]. apply checks_lift_bind.
    pose proof (cn_arity _ _ Hok) as Har. rewrite E in Har. destruct (m_con_syms con) as [|x [|rank [|]]] eqn:Es; try done.
    apply returns_ret, checks_ret. destruct (side_is rank EdslsideTarget) eqn:Er; [|done]. cbn [andb].
    destruct (negb (in_map _ _) && negb _); [|done]. destruct Hf as [H1 H2 H3 H4 H5 H6]. split; cbn; auto.
    + intros s [->|?]%insert_sym_elem; [|auto]. right. right. exists con. rewrite Es. split_and!; [done..|]. by apply bool_decide_eq_true in Er.
    + by apply insert_sym_nodup.
  - intros f' Hf'. apply (checks_fold (fun _ => flow_from pattern cons)); [done|]. intros pre o rest f'' Hl Hf''.
    assert (o ∈ map snd (List.filter (fun e => is_output con e.1) (slots con))) as (i & Hi & Ho)%outputs_elem by (rewrite Hl; set_solver).
    by eapply check_output_from.
Qed.
(** ** The definitions of the bindings *)

Definition binding_of bi : EBinding := if is_match bi then EMatch else EBuild.

(** The definition that a binding adds *)
Record binding_def b bi d : Prop := {
  bd_binding : m_binding d = binding_of bi;
  bd_output : symtab b !! binding_output bi = Some (m_psymOutput d);
  bd_operands : Forall2 (fun n s => symtab b !! n = Some s) (binding_operands bi) (m_operands d);
  bd_kind : match binding_call bi with
            | None => m_edslexpr d = EdslexprRef
            | Some call => m_edslexpr d <> EdslexprRef /\ SzBindingName (m_edslexpr d) = Some (c_id call)
            end;
  bd_shape : binding_shape (m_edslexpr d) (m_binding d) (m_psymOutput d :: m_operands d) = true;
  bd_typed : well_typed (m_edslexpr d) (m_psymOutput d :: m_operands d);
}.

Lemma declared_types m b names types syms :
  Forall2 (declared m b) names types -> Forall2 (fun n s => symtab b !! n = Some s) names syms -> map m_esymk syms = types.
Proof.
  intros H1 H2. revert types H1. induction H2 as [|n s names syms Hs _ IH]; intros types H1; inversion H1 as [|? t ? types' (s' & Hs' & Ht & _) Hr]; [done|].
  subst. cbn. f_equal; [congruence|]. by apply IH.
Qed.

Section WithOrder.
Context `{HO : HashOrder} `{HL : !HashOrderLaws}.

Lemma build_binding_checks f defs bi b : ctx_ok b -> defs_ok (all_syms b) defs -> typed b bi ->
  checks (build_binding f defs bi) (fun defs' => defs_ok (all_syms b) defs' /\
    exists d, binding_def b bi d /\ m_pdrgpdefDefinitions defs' = m_pdrgpdefDefinitions defs ++ [d]) b.
Proof.
  intros Hb Hdefs Hty. unfold build_binding. eapply checks_bind; [apply symtab_at_checks|]. intros output Hout. cbn beta in Hout.
  destruct (negb (is_match bi) && _); [by apply checks_fail|].
  eapply checks_bind; [apply (checks_each (fun n s => symtab b !! n = Some s)); intros; apply symtab_at_checks|]. intros operands Hops.
  assert (HU : forall s, s ∈ output :: operands -> s ∈ all_syms b).
  { intros s [->|Hs]%elem_of_cons; [by apply (tab_name b _ _ Hb Hout)|]. apply list_elem_of_lookup in Hs as [i Hi].
    eapply Forall2_lookup_r in Hops as (n & _ & Hn); [|exact Hi]. by apply (tab_name b _ _ Hb Hn). }
  set (sig := c ← binding_call bi; _).
  assert (Hsig : match binding_call bi with None => sig = None | Some call => exists s : SBindingSignature, sig = Some s /\ s ∈ binding_signatures /\ s_name s = c_id call end).
  { subst sig. unfold typed in Hty. destruct (binding_call bi) as [call|] eqn:Ec; [|done].
    destruct Hty as (s & Hs & Hd). rewrite (call_operands bi call Ec) in Hops. exists s. cbn [mbind option_bind].
    rewrite (declared_types (is_match bi) b (binding_output bi :: c_args call) (s_types s)); [|done|by constructor].
    rewrite <- (Forall2_length _ _ _ Hops). split; [done|]. apply PsigBinding_inv in Hs as (? & [= ?] & _). done. }
  clearbody sig. apply checks_lift_bind. assert (bool_decide (binding_call bi = None) || bool_decide (is_Some sig) = true) as ->.
  { destruct (binding_call bi); [|done]. destruct Hsig as (s & -> & _). rewrite (bool_decide_true (is_Some (Some s))) by eauto. by rewrite orb_true_r. }
  apply returns_ret. destruct (is_match bi && _); [by apply checks_fail|].
  set (kind := match binding_call bi with None => EdslexprRef | Some _ => _ end).
  apply checks_lift_bind. fold (binding_of bi). eapply returns_mono; [by apply (FAppendBinding_ret (all_syms b))|].
  intros [[] defs']; cbn [fst snd]; [|intros _; by apply checks_fail].
  intros (Hok & Hshape & Hwt & out & ops & [= <- <-] & Hds & _). apply checks_ret. split; [done|]. eexists. split; [|exact Hds].
  split; cbn; [done..| |done|done]. subst kind. destruct (binding_call bi) as [call|]; [|done].
  destruct Hsig as (s & -> & Hin & <-). destruct (signature_name s Hin) as (? & ? & _). done.
Qed.

(** The definitions of the rule: those of the constraints, then those of the bindings *)
Definition rule_defs b cons (bindings : list binding) (defs : CDSLExpressionDefinitions) : Prop :=
  defs_ok (all_syms b) defs /\ exists ds, m_pdrgpdefDefinitions defs = omap legacy_def cons ++ ds /\ Forall2 (binding_def b) bindings ds.

Lemma legacy_binding cons d : d ∈ omap legacy_def cons -> m_binding d = ELegacy.
Proof.
  intros (con & _ & H)%list_elem_of_omap. unfold legacy_def in H. destruct (PsymOutput con); [|done]. by injection H as <-.
Qed.

Lemma rule_defs_elem b cons bindings defs d : rule_defs b cons bindings defs -> d ∈ m_pdrgpdefDefinitions defs -> m_binding d <> ELegacy ->
  exists bi, bi ∈ bindings /\ binding_def b bi d.
Proof.
  intros (_ & ds & Hds & Hbd) Hd Hb. rewrite Hds in Hd. apply elem_of_app in Hd as [Hd|Hd]; [by apply legacy_binding in Hd|].
  apply list_elem_of_lookup in Hd as [i Hi]. eapply Forall2_lookup_r in Hbd as (bi & Hbi & ?); [|exact Hi]. exists bi. split; [|done].
  by eapply list_elem_of_lookup_2.
Qed.

Lemma build_bindings_checks f cons bindings defs b : ctx_ok b -> Forall (typed b) bindings -> rule_defs b cons [] defs ->
  checks (fold_build (build_binding f) defs bindings) (rule_defs b cons bindings) b.
Proof.
  intros Hb Hty H0. apply (checks_fold (rule_defs b cons)); [done|]. intros pre bi rest defs' Hl (Hok & ds & Hds & Hbd).
  eapply checks_mono; [apply build_binding_checks; [done..|]|].
  - rewrite Forall_forall in Hty. apply Hty. rewrite Hl. set_solver.
  - cbn. intros defs'' (Hok' & d & Hd & Hds'). split; [done|]. exists (ds ++ [d]). rewrite Hds', Hds, (assoc_L (++)). split; [done|].
    apply Forall2_app; [done|]. by constructor.
Qed.

(** ** Contexts *)

Lemma ref_operand b bi d : binding_def b bi d -> m_edslexpr d = EdslexprRef -> exists x, m_operands d = [x].
Proof.
  intros Hbd Hk. destruct (bd_typed _ _ _ Hbd) as [[_ (x & y & [= _ ->] & _)]|(s & Hs & _)]; [by exists y|].
  rewrite Hk in Hs. apply PsigBinding_inv in Hs as (Hin & Hn & _). vm_compute in Hn. injection Hn as Hn. by apply signature_name in Hin as (_ & _ & []).
Qed.

Lemma ref_root_returns b cons bindings defs n s : rule_defs b cons bindings defs -> returns (ref_root n defs s) (fun _ => True).
Proof.
  intros Hrd. revert s. induction n as [|n IH]; intros s; cbn [ref_root]; [by eexists|].
  destruct (Pdef defs s) as [d|] eqn:Ed; [|by eexists]. case_bool_decide as E1; [|by eexists]. case_bool_decide as E2; [|by eexists]. cbn [andb].
  destruct (rule_defs_elem b cons bindings defs d Hrd) as (bi & _ & Hbd); [by eapply ix_def; [apply Hrd|]|by rewrite E1|].
  destruct (ref_operand b bi d Hbd E2) as [x ->]. apply IH.
Qed.

Lemma check_context_checks b cons bindings defs d : rule_defs b cons bindings defs -> d ∈ m_pdrgpdefDefinitions defs ->
  checks (check_context defs d) (fun _ => True) b.
Proof.
  intros Hrd Hd. unfold check_context. case_bool_decide as E1; cbn [negb orb]; [|by apply checks_ret].
  case_bool_decide as E2; cbn [negb]; [|by apply checks_ret].
  destruct (rule_defs_elem b cons bindings defs d Hrd) as (bi & _ & Hbd); [done|by rewrite E2|].
  pose proof (bd_shape _ _ _ Hbd) as Hsh. unfold binding_shape in Hsh. rewrite E1, E2 in Hsh. cbn in Hsh.
  destruct (m_operands d) as [|x ops] eqn:Eo; [done|]. clear Hsh. apply checks_lift_bind, returns_ret, checks_lift_bind.
  eapply returns_mono; [by eapply ref_root_returns|]. intros root _. destruct (Pdef defs root); [|by apply checks_fail].
  destruct (_ && _); [by apply checks_ret|by apply checks_fail].
Qed.

(** ** Bind operators *)

Definition bind_value (target : CDSLOp) k v : Prop :=
  exists o, o ∈ subops target /\ m_edslop o = EdslopBind /\ m_pdrgpsym o = [v; k].

Lemma subops_child (o c x : CDSLOp) : c ∈ m_pdrgpchild o -> x ∈ subops c -> x ∈ subops o.
Proof.
  intros Hc Hx. destruct o as [k d st a ss cs]. cbn in *. right. apply list_elem_of_In, in_concat. exists (subops c).
  split; [apply List.in_map; by apply list_elem_of_In|by apply list_elem_of_In].
Qed.

Lemma bind_symbols eside b o : node_ok eside b o -> m_edslop o = EdslopBind -> exists v k, m_pdrgpsym o = [v; k].
Proof.
  intros Ho Hk. pose proof (nd_layout _ _ _ Ho) as Hl. rewrite Hk in Hl.
  assert (length (m_pdrgpsym o) = 2) as Hn.
  { by destruct (length (m_pdrgpsym o)) as [|[|[|n]]]. }
  destruct (m_pdrgpsym o) as [|v [|k [|]]]; try done. eauto.
Qed.

Lemma collect_checks f defs eside b o : op_all (node_ok eside b) o -> forall (P : CDSLSymbol -> CDSLSymbol -> Prop) m,
  (forall k v, bind_value o k v -> P k v) -> (forall k v, (k, v) ∈ m -> P k v) ->
  checks (collectBindOutputs f defs o m) (fun m' => forall k v, (k, v) ∈ m' -> P k v) b.
Proof.
  induction o as [o IH] using CDSLOp_tree_ind. rewrite op_all_iff. intros [Ho Hcs] P m HP Hm.
  assert (Hchild : Forall (fun c : CDSLOp => forall m, (forall k v, (k, v) ∈ m -> P k v) ->
      checks (collectBindOutputs f defs c m) (fun m' => forall k v, (k, v) ∈ m' -> P k v) b) (m_pdrgpchild o)).
  { rewrite Forall_forall in *. intros c Hc m' Hm'. apply IH; [done|by apply Hcs| |done].
    intros k v (x & Hx & Hx'). apply HP. exists x. split; [by eapply subops_child|done]. }
  assert (Hbind : m_edslop o = EdslopBind -> exists v k, m_pdrgpsym o = [v; k] /\ P k v).
  { intros Hk. destruct (bind_symbols _ _ _ Ho Hk) as (v & k & Hs). exists v, k. split; [done|]. apply HP. exists o. split_and!; [|done..].
    destruct o. left. }
  clear IH Hcs HP. destruct o as [kind dd st a ss cs]. cbn [m_edslop m_pdrgpsym m_pdrgpchild] in *. cbn [collectBindOutputs m_edslop m_pdrgpsym m_pdrgpchild].
  eapply (checks_bind _ _ (fun m' => forall k v, (k, v) ∈ m' -> P k v)).
  - unfold is_op. case_bool_decide as E; [|by apply checks_ret]. destruct (Hbind E) as (v & k & -> & Hkv). apply checks_lift_bind, returns_ret.
    destruct (_ && _); [|by apply checks_ret]. apply checks_lift_bind, returns_ret.
    destruct (map_emplace m k v) as [fresh m'] eqn:Ee. destruct fresh; [|by apply checks_fail]. apply checks_ret. intros k' v' H.
    assert ((k', v') ∈ (map_emplace m k v).2) as H' by (by rewrite Ee). apply emplace_elem in H' as [[= -> ->]|?]; auto.
  - clear m Hm Ho Hbind. intros m Hm. revert m Hm. induction Hchild as [|c cs Hc _ IH]; intros m Hm; [by apply checks_ret|].
    eapply checks_bind; [by apply Hc|]. intros m' Hm'. by apply IH.
Qed.
(** ** Rules that can be executed *)

(** The symbols that can be computed from the symbols of the source pattern *)
Inductive computable (pattern : list CDSLSymbol) cons (defs : CDSLExpressionDefinitions) (target : CDSLOp) : CDSLSymbol -> Prop :=
  | by_pattern s : s ∈ pattern -> computable pattern cons defs target s
  | by_checker s : deferred_value cons s -> computable pattern cons defs target s
  | by_rank s : new_rank cons s -> computable pattern cons defs target s
  | by_equality con k v : con ∈ cons -> alias_of con k v -> computable pattern cons defs target v -> computable pattern cons defs target k
  | by_metadata con i s : con ∈ cons -> FBindingMetadata (m_edslcon con) = true -> m_con_syms con !! i = Some s -> is_output con i = true ->
      m_eside s = EdslsideTarget -> (forall x, x ∈ inputs_of con -> computable pattern cons defs target x) -> computable pattern cons defs target s
  | by_match d s : d ∈ m_pdrgpdefDefinitions defs -> m_binding d = EMatch -> computable pattern cons defs target (m_psymOutput d) ->
      s ∈ m_operands d -> computable pattern cons defs target s
  | by_construction d : d ∈ m_pdrgpdefDefinitions defs -> m_binding d <> EMatch ->
      (forall x, x ∈ m_operands d -> computable pattern cons defs target x) -> computable pattern cons defs target (m_psymOutput d)
  | by_bind k v : bind_value target k v -> computable pattern cons defs target v -> computable pattern cons defs target k.

Lemma reach_computable pattern cons defs target f bo s :
  flow_from pattern cons f -> (forall k v, (k, v) ∈ bo -> bind_value target k v) -> reach f defs bo s -> computable pattern cons defs target s.
Proof.
  intros Hf Hbo. induction 1 as [s Hs|k v He _ IH|k v He _ IH|k con He _ IH|d s Hd Hb _ IH Hs|d Hd Hb _ IH].
  - apply (ff_avail _ _ _ Hf) in Hs as [?|[?|?]]; [by apply by_pattern|by apply by_checker|by apply by_rank].
  - eapply by_bind; [by apply Hbo|done].
  - apply (ff_alias _ _ _ Hf) in He as (con & ? & ?). by eapply by_equality.
  - apply (ff_derive _ _ _ Hf) in He as (? & ? & ? & i & ? & ?). by eapply by_metadata.
  - by eapply by_match.
  - by apply by_construction.
Qed.

Lemma op_all_subops P o : op_all P o <-> forall o', o' ∈ subops o -> P o'.
Proof.
  induction o as [o IH] using CDSLOp_tree_ind. rewrite op_all_iff. destruct o as [k d st a ss cs]. cbn in *. split.
  - intros [H1 H2] o' [->|Ho]%elem_of_cons; [done|]. apply list_elem_of_In, in_concat in Ho as (l & Hl & Ho).
    apply List.in_map_iff in Hl as (c & <- & Hc). apply list_elem_of_In in Hc, Ho. rewrite Forall_forall in IH, H2.
    by apply (IH c Hc); [apply H2|].
  - intros H. split; [apply H; left|]. apply Forall_forall. intros c Hc. rewrite Forall_forall in IH. apply IH; [done|].
    intros o' Ho. apply H. by apply (subops_child (mkOp k d st a ss cs) c o').
Qed.

Lemma node_symbols eside b o s : node_ok eside b o -> s ∈ m_pdrgpsym o -> s ∈ all_syms b.
Proof. intros Ho (i & Hi)%list_elem_of_lookup_1. eapply side_all, nd_side; eauto. Qed.

Lemma computable_symbol b pattern cons defs target s :
  ctx_ok b -> (forall s, s ∈ pattern -> s ∈ all_syms b) -> Forall (con_ok b) cons -> indexed (all_syms b) defs ->
  op_all (node_ok EdslsideTarget b) target -> computable pattern cons defs target s -> s ∈ all_syms b.
Proof.
  intros Hb Hp Hcons Hix Ht. rewrite Forall_forall in Hcons. assert (Hsym : forall con x, con ∈ cons -> x ∈ m_con_syms con -> x ∈ all_syms b).
  { intros con x Hcon. apply (cn_syms _ _ (Hcons con Hcon)). }
  intros H. destruct H as [s Hs|s (con & ? & _ & ? & _)|s (con & ? & _ & ? & _)|con k v Hcon (_ & Hkv & _)|con i s Hcon _ Hi|d s Hd _ _ Hs|d Hd|k v (o & Ho & _ & Hs)].
  - auto.
  - eauto.
  - eapply Hsym; [done|]. by eapply list_elem_of_lookup_2.
  - eapply Hsym; [done|]. destruct Hkv as [-> | ->]; set_solver.
  - eapply Hsym; [done|]. by eapply list_elem_of_lookup_2.
  - by eapply ix_operands.
  - by eapply ix_output.
  - rewrite op_all_subops in Ht. eapply node_symbols; [by apply Ht|]. rewrite Hs. set_solver.
Qed.

Lemma check_connected_checks b cons bindings defs target con :
  ctx_ok b -> rule_defs b cons bindings defs -> op_all (node_ok EdslsideTarget b) target -> con_ok b con ->
  checks (check_connected target defs con) (fun _ => True) b.
Proof.
  intros Hb Hrd Ht Hcon. unfold check_connected, is_con. case_bool_decide as E; cbn [negb]; [|by apply checks_ret].
  pose proof (cn_arity _ _ Hcon) as Har. rewrite E in Har. destruct (m_con_syms con) as [|x l]; [done|].
  apply checks_lift_bind, returns_ret. destruct (FOpContainsSymbol target x); [by apply checks_ret|]. apply checks_lift_bind.
  eapply returns_mono; [apply (for_until_rule (fun _ _ => True) (fun _ => True)); [done|]|].
  - intros pre s rest [] Hl _. eapply returns_bind; [apply (FUses_ret (all_syms b)); [apply Hrd|]|intros u _; apply returns_ret; by destruct u].
    apply op_all_iff in Ht as [Ht _]. eapply node_symbols; [exact Ht|]. rewrite Hl. set_solver.
  - intros [[] []] _; [by apply checks_ret|by apply checks_fail].
Qed.

Lemma check_flow_checks avail ok ss msg con b : checks (check_flow avail ok ss msg con) (fun _ => True) b.
Proof. unfold check_flow. destruct (_ && _); [apply checks_fail|by apply checks_ret]. Qed.

(** The constraints of a rule with bindings *)
Lemma classify_all b pattern cons :
  checks (fold_build classify (mkFlow (insert_syms pattern []) [] [] [] []) cons) (flow_from pattern cons) b.
Proof.
  apply (checks_fold (fun _ => flow_from pattern cons)).
  - split; cbn; try by intros ? ?%not_elem_of_nil; try by intros ? ? ?%not_elem_of_nil.
    + intros s [?|?%not_elem_of_nil]%insert_syms_elem; [by left|done].
    + apply insert_syms_nodup. constructor.
    + by intros ? ? ?%not_elem_of_nil.
    + by intros ? ? ?%not_elem_of_nil.
  - intros pre con rest f Hl Hf. apply classify_from; [|done]. rewrite Hl. set_solver.
Qed.

Lemma check_columns b pattern cons constructed f : Forall (con_ok b) cons -> flow_from pattern cons f ->
  checks (fold_build (check_column constructed) f (columnChecks f)) (flow_from pattern cons) b.
Proof.
  intros Hcons Hf. rewrite Forall_forall in Hcons. apply (checks_fold (fun _ => flow_from pattern cons)); [done|].
  intros pre con rest f' Hl Hf'. destruct (ff_checks _ _ _ Hf con) as [? ?]; [rewrite Hl; set_solver|]. apply check_column_from; auto.
Qed.

Lemma all_available_spec avail ss : all_available avail ss = true <-> forall s, s ∈ ss -> s ∈ avail.
Proof. apply all_available_elem. Qed.

(** What [FBuildBindings] establishes *)
Definition executable b (pattern : list CDSLSymbol) cons (defs : CDSLExpressionDefinitions) (target : CDSLOp) : Prop :=
  forall s, s ∈ all_syms b -> computable pattern cons defs target s \/
    (m_eside s = EdslsideTarget /\ exists con, con ∈ cons /\ FDeferredSemanticConstraint (m_edslcon con) = true).

Lemma FBuildBindings_checks tree source target n cons defs b :
  ctx_ok b -> op_all (node_ok EdslsideTarget b) target -> Forall (con_ok b) cons -> Forall (typed b) (tree_bindings tree) ->
  rule_defs b cons [] defs ->
  checks (FBuildBindings tree source target n cons defs) (fun defs' => rule_defs b cons (tree_bindings tree) defs' /\
    (tree_bindings tree <> [] -> executable b (take n (src_syms b)) cons defs' target)) b.
Proof.
  intros Hb Ht Hcons Hty Hdefs. unfold FBuildBindings. destruct (length (tree_bindings tree) =? 0) eqn:E0.
  { destruct (tree_bindings tree); [|done]. by apply checks_ret. }
  eapply (checks_bind _ _ (fun _ => True)); [eapply checks_mono; [apply (checks_each (fun _ _ => True))|done]|].
  { intros. eapply checks_mono; [apply symtab_at_checks|done]. }
  intros constructed _. apply checks_get. set (pattern := take n (src_syms b)).
  assert (Hpat : forall s, s ∈ pattern -> s ∈ all_syms b).
  { intros s Hs. unfold all_syms. apply elem_of_app. left. by eapply elem_of_take in Hs as (? & ? & _); eapply list_elem_of_lookup_2. }
  eapply checks_bind; [apply classify_all|]. intros f1 Hf1. eapply checks_bind; [by apply check_columns|]. intros f Hf.
  eapply checks_bind; [by apply build_bindings_checks|]. intros defs' Hrd.
  eapply checks_bind; [apply checks_all; intros d Hd; by eapply check_context_checks|]. intros _ _.
  eapply checks_bind; [apply (collect_checks f defs' EdslsideTarget b target Ht (bind_value target)); [done|]; by intros ? ? ?%not_elem_of_nil|].
  intros bo Hbo. cbn beta in Hbo. apply checks_lift_bind. eapply returns_mono; [apply (flow_loop_ret f defs' bo (all_syms b))|].
  { intros s Hs. eapply computable_symbol; [done..|apply Hrd|exact Ht|]. by eapply reach_computable. }
  { split; [by apply (ff_nodup _ _ _ Hf)|]. intros s. apply rc_base. }
  { done. }
  { unfold all_syms. rewrite length_app. lia. }
  cbn beta. intros avail Havail. rewrite Forall_forall in Hcons.
  eapply checks_bind; [apply checks_all; intros con Hcon; eapply check_connected_checks; [done..|]; by apply Hcons, (ff_checks _ _ _ Hf)|]. intros _ _.
  eapply checks_bind; [apply checks_all; intros; apply check_flow_checks|]. intros _ _.
  eapply checks_bind; [apply checks_all; intros; apply check_flow_checks|]. intros _ _.
  destruct (all_available _ _) eqn:E; [|apply checks_fail]. apply checks_ret. split; [done|]. intros _ s Hs.
  rewrite all_available_spec in E. specialize (E s Hs).
  destruct (length (deferredChecks f) =? 0) eqn:Ed; [left; eapply reach_computable; [done..|]; by apply Havail|].
  apply insert_syms_elem in E as [E|E]; [right|left; eapply reach_computable; [done..|]; by apply Havail].
  split; [by apply (cx_side b Hb EdslsideTarget)|]. destruct (deferredChecks f) as [|con l] eqn:El; [done|]. exists con. apply (ff_deferred _ _ _ Hf).
  rewrite El. left.
Qed.
End WithOrder.
End RuleExec.
