(* ===== verification/RulePieces.v ===== *)
(** * Texts of rules

    Texts as sequences of tokens and blanks: how the printers and the lowering of
    inline terms (RuleParse.v) put a text together, and which tree of the grammar it
    is the text of. *)
From Stdlib Require Import Ascii.
From stdpp Require Import base numbers list strings gmap option pretty.
From S2P Require Import Prelude RuleEnums RuleSyntax RuleGrammar RuleDefs RuleBuild RuleBindings RuleParse RuleWp RuleBuilt.

Module RulePieces.
Import RuleEnums RuleSyntax RuleGrammar RuleDefs RuleBuild RuleBindings RuleParse RuleWp RuleBuilt.
Open Scope string_scope.
Open Scope nat_scope.
Open Scope list_scope.
#[local] Arguments String.append !_ _ /.
Implicit Types (ps : list piece).

(** ** Pieces *)

Lemma text_of_cons p ps : text_of (p :: ps) = text_of [p] +:+ text_of ps.
Proof. destruct p; [cbn; by rewrite string_app_nil|done]. Qed.

Lemma text_of_app (a b : list piece) : text_of (a ++ b) = text_of a +:+ text_of b.
Proof.
  induction a as [|p a IH]; [done|]. change ((p :: a) ++ b) with (p :: (a ++ b)).
  rewrite text_of_cons, (text_of_cons p a), IH. by rewrite string_app_assoc.
Qed.

Lemma text_of_map (l : list token) : text_of (map T l) = get_text l.
Proof. done. Qed.

Lemma toks_app (a b : list piece) : toks (a ++ b) = toks a ++ toks b.
Proof. apply omap_app. Qed.

Lemma toks_cons t ps : toks (T t :: ps) = t :: toks ps.
Proof. done. Qed.

Lemma toks_map (l : list token) : toks (map T l) = l.
Proof. induction l as [|t l IH]; [done|]. cbn. by f_equal. Qed.

Lemma spaced_mid (a b : list piece) p : wordy p = false -> spaced (a ++ p :: b) = spaced a && spaced b.
Proof.
  intros Hp. induction a as [|q a IH]; cbn [app].
  - destruct b as [|r b]; [done|]. cbn [spaced]. by rewrite Hp.
  - destruct a as [|r a]; cbn [app spaced] in *; [by rewrite IH, Hp, andb_false_r|]. by rewrite IH, andb_assoc.
Qed.

Lemma spaced_cons (b : list piece) p : wordy p = false -> spaced (p :: b) = spaced b.
Proof. intros. by rewrite <- (app_nil_l (p :: b)), spaced_mid. Qed.

Lemma spaced_snoc (a : list piece) p : wordy p = false -> spaced (a ++ [p]) = spaced a.
Proof. intros. rewrite spaced_mid by done. cbn. by rewrite andb_true_r. Qed.

(** Lists with separators *)
Fixpoint psep {A} (sep : piece) (f : A -> list piece) (l : list A) : list piece :=
  match l with
  | [] => []
  | [a] => f a
  | a :: l' => f a ++ sep :: psep sep f l'
  end.

Lemma psep_cons {A} sep (f : A -> list piece) a b l : psep sep f (a :: b :: l) = f a ++ sep :: psep sep f (b :: l).
Proof. done. Qed.

Lemma psep_text {A} sep (f : A -> list piece) l : text_of (psep sep f l) = joined (text_of [sep]) (map (fun a => text_of (f a)) l).
Proof.
  induction l as [|a [|b l] IH]; [done..|]. rewrite psep_cons, text_of_app. change (sep :: ?l) with ([sep] ++ l).
  rewrite text_of_app, IH. done.
Qed.

Lemma psep_comma {A} sep (f : A -> list piece) l : toks (psep (T sep) f l) = sep_by sep (fun a => toks (f a)) l.
Proof. induction l as [|a [|b l] IH]; [done..|]. rewrite psep_cons, toks_app, sep_by_cons, <- IH. done. Qed.

Lemma psep_blank {A} (f : A -> list piece) l : toks (psep Blank f l) = concat (map (fun a => toks (f a)) l).
Proof.
  induction l as [|a [|b l] IH]; [done|cbn; by rewrite app_nil_r|]. rewrite psep_cons, toks_app. cbn [map concat]. f_equal. exact IH.
Qed.

Lemma psep_spaced {A} sep (f : A -> list piece) l : wordy sep = false -> (forall a, a ∈ l -> spaced (f a) = true) -> spaced (psep sep f l) = true.
Proof.
  intros Hs. induction l as [|a [|b l] IH]; intros Hf; [done|apply Hf; left|]. rewrite psep_cons, spaced_mid by done.
  rewrite (Hf a) by left. apply IH. intros x Hx. apply Hf. by right.
Qed.

Lemma sep_by_ext {A} sep (f g : A -> list token) l : (forall a, a ∈ l -> f a = g a) -> sep_by sep f l = sep_by sep g l.
Proof.
  induction l as [|a [|b l] IH]; intros H; [done|apply H; left|]. rewrite !sep_by_cons, (H a) by left. rewrite IH; [done|].
  intros x Hx. apply H. by right.
Qed.

(** ** Operators *)

Definition term_pieces (t : term) : list piece := map T (y_term t).

Definition symlist_pieces (l : option (list term)) : list piece :=
  match l with Some ts => T LT :: psep Blank term_pieces ts ++ [T GT] | None => [] end.

Fixpoint op_pieces (o : op) : list piece :=
  match o with
  | Op i star l cs =>
      T (ID i) :: (if star then [T STAR] else []) ++ symlist_pieces l ++
      match cs with [] => [] | _ => T LP :: psep (T COMMA) op_pieces cs ++ [T RP] end
  end.

Lemma op_pieces_toks o : toks (op_pieces o) = y_op o.
Proof.
  induction o as [i st l cs IH] using op_tree_ind. cbn [op_pieces y_op]. change (T (ID i) :: ?l) with ([T (ID i)] ++ l).
  rewrite !toks_app. cbn [toks omap list_omap app]. f_equal. f_equal; [by destruct st|]. f_equal.
  - destruct l as [ts|]; [|done]. cbn [symlist_pieces y_symlist]. change (T LT :: ?l) with ([T LT] ++ l).
    rewrite !toks_app, psep_blank. cbn. f_equal. f_equal. f_equal. apply map_ext. intros t. apply toks_map.
  - destruct cs as [|c cs]; [done|]. change (T LP :: ?l) with ([T LP] ++ l). rewrite !toks_app, psep_comma. cbn [toks omap list_omap app]. f_equal.
    f_equal. apply sep_by_ext. intros x Hx. rewrite Forall_forall in IH. by apply IH.
Qed.

Lemma plain_spaced t : plain_term t = true -> spaced (term_pieces t) = true.
Proof. by destruct t. Qed.

Lemma op_pieces_spaced o : plain_op o = true -> spaced (op_pieces o) = true.
Proof.
  induction o as [i st l cs IH] using op_tree_ind. cbn [plain_op op_pieces]. intros [Hl Hcs]%andb_prop. rewrite forallb_forall in Hl, Hcs.
  assert (Hch : spaced (match cs with [] => [] | _ => T LP :: psep (T COMMA) op_pieces cs ++ [T RP] end) = true).
  { destruct cs as [|c cs]; [done|]. rewrite spaced_cons by done. rewrite spaced_snoc by done. apply psep_spaced; [done|].
    intros x Hx. rewrite Forall_forall in IH. apply IH; [done|]. by apply Hcs, list_elem_of_In. }
  assert (Hall : spaced (symlist_pieces l ++ match cs with [] => [] | _ => T LP :: psep (T COMMA) op_pieces cs ++ [T RP] end) = true).
  { destruct l as [ts|]; [|done]. cbn [symlist_pieces app]. rewrite spaced_cons by done. rewrite <- (assoc_L (++)). cbn [app].
    rewrite spaced_mid by done. rewrite Hch, andb_true_r. apply psep_spaced; [done|]. intros t Ht. by apply plain_spaced, Hl, list_elem_of_In. }
  destruct st; cbn [app]; [change (T (ID i) :: T STAR :: ?l) with ([T (ID i)] ++ T STAR :: l); by rewrite spaced_mid, Hall|].
  destruct l as [ts|]; cbn [symlist_pieces app] in *.
  - change (T (ID i) :: T LT :: ?l) with ([T (ID i)] ++ T LT :: l). rewrite spaced_mid by done. rewrite spaced_cons in Hall by done. by rewrite Hall.
  - destruct cs as [|c cs]; [done|]. change (T (ID i) :: T LP :: ?l) with ([T (ID i)] ++ T LP :: l). rewrite spaced_mid by done.
    rewrite spaced_cons in Hall by done. by rewrite Hall.
Qed.

(** ** Items *)

Definition call_pieces (c : call) : list piece := map T (y_call c).

Definition binding_pieces (bi : binding) : list piece :=
  match bi with
  | BindMatch c s => call_pieces c ++ [Blank; T BIND; Blank; T (SYMBOL s)]
  | BindBuild s c => T (SYMBOL s) :: Blank :: T BIND :: Blank :: call_pieces c
  | BindRef s r => [T (SYMBOL s); Blank; T BIND; Blank; T (SYMBOL r)]
  end.

(** A text of an item *)
Definition item_text (ps : list piece) (i : item) : Prop := toks ps = y_item i /\ spaced ps = true.

Lemma syms_spaced l : spaced (map T (y_syms l)) = true.
Proof.
  unfold y_syms. cbn [map]. rewrite spaced_cons by done. rewrite map_app. cbn [map]. rewrite spaced_snoc by done.
  assert (map T (sep_by COMMA (fun s : string => [SYMBOL s]) l) = psep (T COMMA) (fun s => [T (SYMBOL s)]) l) as ->; [|by apply psep_spaced].
  induction l as [|a [|b l] IH]; [done..|]. rewrite sep_by_cons, psep_cons, map_app. cbn [map]. by rewrite IH.
Qed.

Lemma call_spaced c : spaced (call_pieces c) = true.
Proof.
  unfold call_pieces, y_call. cbn [map]. pose proof (syms_spaced (c_args c)) as H. unfold y_syms in *. cbn [map] in *.
  change (T (ID ?i) :: T LP :: ?l) with ([T (ID i)] ++ T LP :: l). rewrite spaced_mid by done. rewrite spaced_cons in H by done. by rewrite H.
Qed.

Lemma binding_text bi : item_text (binding_pieces bi) (IBind bi).
Proof.
  split; destruct bi as [c s|s c|s r]; cbn [binding_pieces y_item]; try done.
  - unfold call_pieces. by rewrite toks_app, toks_map.
  - change (SYMBOL s :: BIND :: toks (call_pieces c) = SYMBOL s :: BIND :: y_call c). do 2 f_equal. apply toks_map.
  - by rewrite spaced_mid, call_spaced.
  - change (T (SYMBOL s) :: Blank :: ?l) with ([T (SYMBOL s)] ++ Blank :: l). rewrite spaced_mid by done.
    rewrite (spaced_cons _ (T BIND)), (spaced_cons _ Blank) by done. by rewrite call_spaced.
Qed.

Lemma token_text i : item_text (map T (y_item i)) i.
Proof.
  split; [apply toks_map|]. destruct i as [c|[c s|s c|s r]]; cbn [y_item]; try done.
  - exact (call_spaced (mkCall (n_id c) (n_syms c))).
  - rewrite map_app. change (map T [BIND; SYMBOL s]) with ([T BIND; T (SYMBOL s)]). rewrite spaced_mid by done.
    apply andb_true_intro. by split; [apply call_spaced|].
  - change (spaced ([T (SYMBOL s)] ++ T BIND :: call_pieces c) = true). rewrite spaced_mid by done. by rewrite call_spaced.
Qed.

(** ** Rules *)

Definition items_option (l : list item) : option (list item) := match l with [] => None | _ => Some l end.

(** A rule from its operators and the texts of its items *)
Definition rule_pieces (src tgt : op) (texts : list (list piece)) : list piece :=
  op_pieces src ++ T BAR :: op_pieces tgt ++ T BAR :: psep (T SEMI) (fun x => x) texts.

Definition rule_of (src tgt : op) (items : list item) : rule_tree := mkTree src tgt true (items_option items).

Lemma rule_pieces_toks src tgt texts items : Forall2 item_text texts items -> toks (rule_pieces src tgt texts) = y_rule (rule_of src tgt items).
Proof.
  intros H. unfold rule_pieces, y_rule, rule_of. cbn [t_source t_target t_bar t_constraints]. rewrite toks_app, toks_cons, toks_app, toks_cons, !op_pieces_toks.
  do 3 f_equal. cbn [app]. f_equal. rewrite psep_comma.
  assert (sep_by SEMI (fun a => toks a) texts = y_constraints items) as Hsep.
  { unfold y_constraints. clear -H. induction H as [|a i texts items [Ha _] H IH]; [done|]. destruct H as [|b j texts items Hb H]; [exact Ha|].
    rewrite !sep_by_cons, Ha. by rewrite IH. }
  etrans; [exact Hsep|]. by destruct items.
Qed.

Lemma rule_pieces_spaced src tgt texts items :
  plain_op src = true -> plain_op tgt = true -> Forall2 item_text texts items -> spaced (rule_pieces src tgt texts) = true.
Proof.
  intros Hs Ht H. unfold rule_pieces. rewrite spaced_mid, op_pieces_spaced by done. rewrite spaced_mid, op_pieces_spaced by done. cbn.
  apply psep_spaced; [done|]. intros x (i & Hi)%list_elem_of_lookup_1. eapply Forall2_lookup_l in H as (? & _ & _ & ?); done.
Qed.

(** The parser reads the rule back. *)
Lemma rule_pieces_parsed `{HA : Antlr} `{!AntlrLaws} src tgt texts items :
  plain_op src = true -> plain_op tgt = true -> Forall2 item_text texts items -> tree_ok (rule_of src tgt items) ->
  antlr_rule (text_of (rule_pieces src tgt texts)) = Some (rule_of src tgt items).
Proof. intros. apply antlr_text; [done|by eapply rule_pieces_spaced|by apply rule_pieces_toks]. Qed.
End RulePieces.
