(* ===== verification/RuleLower.v ===== *)
(** * Inline terms

    Proofs about [lower_rule] (RuleParse.v): a rule with inline terms becomes the
    text of a rule in which every inline term is a fresh symbol with a binding. *)
From Stdlib Require Import Ascii.
From stdpp Require Import base numbers list strings gmap option pretty.
From S2P Require Import Prelude RuleEnums RuleSyntax RuleGrammar RuleDefs RuleBuild RuleBindings RuleParse RuleWp RuleBuilt RulePieces.

Module RuleLower.
Import RuleEnums RuleSyntax RuleGrammar RuleDefs RuleBuild RuleBindings RuleParse RuleWp RuleBuilt RulePieces.
Open Scope string_scope.
Open Scope nat_scope.
Open Scope list_scope.
Open Scope outcome_scope.
#[local] Arguments String.append !_ _ /.
Implicit Types (st : lower_state) (bs : list binding).

(** ** The specification *)

(** An inline term is a fresh symbol; its binding comes before those of its
    arguments in the source, after them in the target. *)
Inductive lowered (source : bool) : term -> string -> list binding -> Prop :=
  | low_sym s : lowered source (Sym s) s []
  | low_call id args name names bs : lowered_list source args names bs ->
      lowered source (CallTerm id args) name
        (if source then BindMatch (mkCall id names) name :: bs else bs ++ [BindBuild name (mkCall id names)])
with lowered_list (source : bool) : list term -> list string -> list binding -> Prop :=
  | low_nil : lowered_list source [] [] []
  | low_cons t ts name names bs bs' : lowered source t name bs -> lowered_list source ts names bs' ->
      lowered_list source (t :: ts) (name :: names) (bs ++ bs').

Inductive lowered_op (source : bool) : op -> op -> list binding -> Prop :=
  | low_op id star l l' cs cs' bs bs' : lowered_symlist source l l' bs -> lowered_ops source cs cs' bs' ->
      lowered_op source (Op id star l cs) (Op id star l' cs') (bs ++ bs')
with lowered_symlist (source : bool) : option (list term) -> option (list term) -> list binding -> Prop :=
  | low_none : lowered_symlist source None None []
  | low_some l names bs : lowered_list source l names bs -> lowered_symlist source (Some l) (Some (map Sym names)) bs
with lowered_ops (source : bool) : list op -> list op -> list binding -> Prop :=
  | low_ops_nil : lowered_ops source [] [] []
  | low_ops_cons o o' os os' bs bs' : lowered_op source o o' bs -> lowered_ops source os os' bs' ->
      lowered_ops source (o :: os) (o' :: os') (bs ++ bs').

(** ** Fresh names *)

Lemma digit_char n : is_digit (pretty_N_char n) = true.
Proof. unfold pretty_N_char. by repeat case_match. Qed.

Lemma pretty_go_digits n : forall s, all_chars is_digit s = true -> all_chars is_digit (pretty_N_go n s) = true.
Proof.
  induction (N.lt_wf_0 n) as [n _ IH]. intros s Hs. destruct (decide (n = 0)%N) as [->|Hn]; [by rewrite pretty_N_go_0|].
  rewrite pretty_N_go_step by lia. apply IH; [apply N.div_lt; lia|]. cbn. by rewrite Hs, digit_char.
Qed.

Lemma pretty_go_nonempty n : forall s, s <> "" -> pretty_N_go n s <> "".
Proof.
  induction (N.lt_wf_0 n) as [n _ IH]. intros s Hs. destruct (decide (n = 0)%N) as [->|Hn]; [by rewrite pretty_N_go_0|].
  rewrite pretty_N_go_step by lia. apply IH; [apply N.div_lt; lia|done].
Qed.

Lemma fresh_symbol (n : nat) : symbol_text ("p" +:+ pretty n) = true.
Proof.
  assert (Hd : all_chars is_digit (pretty n) = true /\ pretty n <> "").
  { change (pretty n) with (pretty (N.of_nat n)). unfold pretty, pretty_N. case_decide as E; [done|].
    split; [by apply pretty_go_digits|]. rewrite pretty_N_go_step by lia. by apply pretty_go_nonempty. }
  destruct Hd as [Hd Hne]. destruct (pretty n) as [|c r]; [done|]. cbn in *. apply andb_prop in Hd as [Hc Hr]. by rewrite Hc, Hr.
Qed.

Definition names_grow st st' (new : list string) : Prop :=
  l_names st ⊆ l_names st' /\ NoDup new /\ forall o, o ∈ new -> (o ∉ l_names st) /\ o ∈ l_names st'.

Lemma names_grow_app st1 st2 st3 new new' : names_grow st1 st2 new -> names_grow st2 st3 new' -> names_grow st1 st3 (new ++ new').
Proof.
  intros (H1 & H2 & H3) (H4 & H5 & H6). split_and!; [set_solver|apply NoDup_app; split_and!; [done| |done]|].
  - intros o Ho1 Ho2. apply H3 in Ho1 as [_ ?]. by apply H6 in Ho2 as [? _].
  - intros o [Ho|Ho]%elem_of_app; [apply H3 in Ho; set_solver|apply H6 in Ho; set_solver].
Qed.

Lemma fresh_name_ret n : forall st (X : gset string), (forall k, l_next st <= k -> "p" +:+ pretty k ∈ l_names st -> "p" +:+ pretty k ∈ X) -> size X < n ->
  returns (fresh_name n st) (fun r => symbol_text r.1 = true /\ names_grow st r.2 [r.1] /\ l_bindings r.2 = l_bindings st).
Proof.
  induction n as [|n IH]; intros st X HX Hn; [lia|]. cbn [fresh_name]. case_bool_decide as Hin.
  - assert (Hx : "p" +:+ pretty (l_next st) ∈ X) by (by apply HX).
    eapply returns_mono; [apply (IH _ (X ∖ {["p" +:+ pretty (l_next st)]}))|].
    + cbn [l_next l_names]. intros k Hk Hkn. assert (Hne : "p" +:+ pretty k <> "p" +:+ pretty (l_next st)).
      { intros [= E]. apply (inj pretty) in E. lia. }
      apply elem_of_difference. split; [|by rewrite elem_of_singleton]. apply HX; [lia|]. set_solver.
    + rewrite size_difference, size_singleton by set_solver. assert (size X <> 0); [|lia]. rewrite size_empty_iff. set_solver.
    + cbn [l_names l_bindings]. intros [o st'] (H1 & (H2 & H3 & H4) & H5). cbn in *. split_and!; [done| |done]. split_and!; [set_solver|done|].
      intros o' Ho. specialize (H4 o' Ho). set_solver.
  - apply returns_ret. cbn [fst snd l_bindings]. split_and!; [apply fresh_symbol| |done]. split_and!; cbn; [set_solver|apply NoDup_singleton|].
    intros o ->%list_elem_of_singleton. set_solver.
Qed.

Lemma fresh_ret st : returns (fresh_name (S (size (l_names st))) st) (fun r => symbol_text r.1 = true /\ names_grow st r.2 [r.1] /\ l_bindings r.2 = l_bindings st).
Proof. apply (fresh_name_ret _ _ (l_names st)); [done|lia]. Qed.

(** ** Separators *)

Lemma back_app (a b : string) : b <> "" -> back (a +:+ b) = back b.
Proof. intros Hb. induction a as [|c a IH]; [done|]. cbn. rewrite IH. destruct (a +:+ b) eqn:E; [|done]. destruct a, b; done. Qed.

Definition word_for (c : ascii) (w : string) : Prop := w <> "" /\ back_is c w = false.

Lemma back_is_app c a b : word_for c b -> back_is c (a +:+ b) = false.
Proof. intros [H1 H2]. unfold back_is. rewrite back_app by done. exact H2. Qed.

Lemma joined_cons sep a b l : joined sep (a :: b :: l) = a +:+ sep +:+ joined sep (b :: l).
Proof. done. Qed.

Lemma append_sep_join c sep ws : forall r, back_is c r = true -> Forall (word_for c) ws ->
  fold_left (append_sep c sep) ws r = r +:+ joined sep ws.
Proof.
  assert (Hrest : forall ws r, back_is c r = false -> Forall (word_for c) ws ->
    fold_left (append_sep c sep) ws r = r +:+ foldr (fun w s => sep +:+ w +:+ s) "" ws).
  { intros l. induction l as [|w l IH]; intros r Hr Hws; cbn [fold_left foldr]; [by rewrite string_app_nil|]. apply Forall_cons_iff in Hws as [Hw Hws].
    unfold append_sep at 2. rewrite Hr. rewrite IH; [by rewrite !string_app_assoc| |done]. by apply back_is_app. }
  intros r Hr Hws. destruct ws as [|w ws]; [cbn; by rewrite string_app_nil|]. apply Forall_cons_iff in Hws as [Hw Hws]. cbn [fold_left].
  unfold append_sep at 2. rewrite Hr. rewrite Hrest; [|by apply back_is_app|done]. rewrite string_app_assoc. f_equal. clear.
  revert w. induction ws as [|w' ws IH]; intros w; cbn [foldr]; [apply string_app_nil|]. rewrite joined_cons, <- IH. done.
Qed.

(** The last character of a text *)
Lemma back_text ps t c : lexeme t <> "" -> back_is c (lexeme t) = false -> word_for c (text_of (ps ++ [T t])).
Proof.
  intros H1 H2. rewrite text_of_app. change (text_of [T t]) with (lexeme t +:+ ""). rewrite string_app_nil. split.
  - destruct (text_of ps), (lexeme t); done.
  - by apply back_is_app.
Qed.

Lemma back_chars (P : ascii -> bool) c s : all_chars P s = true -> P c = false -> back_is c s = false.
Proof.
  intros Hs Hc. unfold back_is. induction s as [|d s IH]; [done|]. cbn in Hs. apply andb_prop in Hs as [Hd Hs]. cbn. destruct s; [|by apply IH].
  destruct (Ascii.eqb_spec d c) as [->|]; [congruence|done].
Qed.

(** Symbols and identifiers end with a letter, a digit or an underscore. *)
Definition name_char (c : ascii) : bool := is_word c || is_digit c.

Lemma all_chars_impl (P Q : ascii -> bool) s : (forall c, P c = true -> Q c = true) -> all_chars P s = true -> all_chars Q s = true.
Proof. intros HPQ. induction s as [|c s IH]; [done|]. cbn. intros [H1 H2]%andb_prop. by rewrite HPQ, IH. Qed.

Lemma token_chars s : (symbol_text s || id_text s) = true -> s <> "" /\ all_chars name_char s = true.
Proof.
  destruct s as [|c r]; [done|]. intros H. split; [done|]. apply orb_prop in H as [H|H].
  - destruct r as [|d r]; [done|]. cbn [symbol_text] in H. apply andb_prop in H as [[Hc Hd]%andb_prop Hr].
    cbn. unfold name_char. rewrite (letter_word _ (lower_letter _ Hc)), Hd, orb_true_r. cbn.
    eapply all_chars_impl; [|exact Hr]. intros x ->. apply orb_true_r.
  - cbn [id_text] in H. apply andb_prop in H as [Hc Hr]. cbn. unfold name_char. rewrite (letter_word _ Hc). cbn.
    eapply all_chars_impl; [|exact Hr]. by intros x ->.
Qed.

Lemma name_word c s : name_char c = false -> (symbol_text s || id_text s) = true -> word_for c s.
Proof. intros Hc [H1 H2]%token_chars. split; [done|]. by eapply back_chars. Qed.
(** ** Tokens *)

Definition toks_ok (l : list token) : Prop := Forall (fun t => token_ok t = true) l.

Lemma sep_by_all {A} (P : token -> Prop) sep (f : A -> list token) l : P sep -> Forall P (sep_by sep f l) <-> forall a, a ∈ l -> Forall P (f a).
Proof.
  intros Hs. induction l as [|a [|b l] IH].
  - cbn. split; [by intros _ a ?%not_elem_of_nil|constructor].
  - cbn. split; [by intros H x ->%list_elem_of_singleton|]. intros H. apply H. left.
  - rewrite sep_by_cons, Forall_app, Forall_cons_iff, IH. split.
    + intros (H1 & _ & H2) x [->|Hx]%elem_of_cons; auto.
    + intros H. split_and!; [apply H; left|done|]. intros x Hx. apply H. by right.
Qed.

Lemma call_toks id names : id_text id = true -> Forall (fun n => symbol_text n = true) names -> toks_ok (y_call (mkCall id names)).
Proof.
  intros Hi Hn. unfold toks_ok, y_call, y_syms. cbn. do 2 (constructor; [done|]). apply Forall_app. split; [|by repeat constructor].
  apply sep_by_all; [done|]. intros n Hin. rewrite Forall_forall in Hn. constructor; [by apply Hn|constructor].
Qed.

Lemma call_text id names : text_of (call_pieces (mkCall id names)) = id +:+ "(" +:+ joined "," names +:+ ")".
Proof.
  unfold call_pieces, y_call, y_syms. cbn [map c_id c_args]. rewrite map_app.
  change (text_of ([T (ID id); T LP] ++ map T (sep_by COMMA (fun s : string => [SYMBOL s]) names) ++ [T RP]) = id +:+ "(" +:+ joined "," names +:+ ")").
  rewrite !text_of_app. change (text_of [T (ID id); T LP]) with (id +:+ "("). rewrite string_app_assoc. do 3 f_equal.
  induction names as [|a [|b l] IH]; [done|cbn; apply string_app_nil|]. rewrite sep_by_cons, joined_cons, <- IH, map_app, text_of_app.
  cbn. by rewrite string_app_nil.
Qed.

Definition render (bi : binding) : string := text_of (binding_pieces bi).

Lemma render_match id names s : render (BindMatch (mkCall id names) s) = ((id +:+ "(" +:+ joined "," names) +:+ ")") +:+ " := " +:+ s.
Proof. unfold render. cbn [binding_pieces]. rewrite text_of_app, call_text, !string_app_assoc. cbn. by rewrite string_app_nil. Qed.

Lemma render_build id names s : render (BindBuild s (mkCall id names)) = s +:+ " := " +:+ (id +:+ "(" +:+ joined "," names) +:+ ")".
Proof.
  unfold render. cbn [binding_pieces]. change (T (SYMBOL s) :: Blank :: T BIND :: Blank :: ?l) with ([T (SYMBOL s); Blank; T BIND; Blank] ++ l).
  rewrite text_of_app, call_text, !string_app_assoc.
  change (text_of [T (SYMBOL s); Blank; T BIND; Blank]) with (s +:+ " := "). by rewrite string_app_assoc.
Qed.

(** ** Terms *)

Record low_post st st' bs : Prop := {
  lp_bindings : l_bindings st' = l_bindings st ++ map render bs;
  lp_names : names_grow st st' (map binding_output bs);
  lp_toks : Forall (fun bi => toks_ok (y_item (IBind bi))) bs;
}.

Lemma low_post_nil st : low_post st st [].
Proof. split; [by rewrite app_nil_r| |constructor]. split_and!; [done|constructor|by intros o ?%not_elem_of_nil]. Qed.

Lemma low_post_app st1 st2 st3 bs bs' : low_post st1 st2 bs -> low_post st2 st3 bs' -> low_post st1 st3 (bs ++ bs').
Proof.
  intros [H1 H2 H3] [H4 H5 H6]. split; [|rewrite map_app; by eapply names_grow_app|by apply Forall_app].
  rewrite H4, H1, map_app. by rewrite <- (assoc_L (++)).
Qed.

(** The loop over the arguments of a call and over a list of symbols *)
Fixpoint lower_fold (c : ascii) (sep : string) (source : bool) (l : list term) (r : string) (st : lower_state) : outcome (string * lower_state) :=
  match l with
  | [] => mret (r, st)
  | t :: l' => ('(s, st) ← LowerInlineTerm source t st; lower_fold c sep source l' (append_sep c sep r s) st)
  end.

Lemma lower_terms_fold source l r st : lower_terms source l r st = lower_fold "<"%char " " source l r st.
Proof. revert r st. induction l as [|t l IH]; intros r st; [done|]. cbn. destruct (LowerInlineTerm source t st) as [[s st']|]; cbn; [apply IH|done]. Qed.

Lemma call_fold source l r st : (fix go (l : list term) (call : string) (st : lower_state) : outcome (string * lower_state) :=
    match l with
    | [] => mret (call, st)
    | a :: l' => ('(s, st) ← LowerInlineTerm source a st; go l' (append_sep "("%char "," call s) st)
    end) l r st = lower_fold "("%char "," source l r st.
Proof. revert r st. induction l as [|t l IH]; intros r st; [done|]. cbn. destruct (LowerInlineTerm source t st) as [[s st']|]; cbn; [apply IH|done]. Qed.

Lemma term_tree_ind (P : term -> Prop) : (forall s, P (Sym s)) -> (forall i args, Forall P args -> P (CallTerm i args)) -> forall t, P t.
Proof.
  intros Hs Hc. fix IH 1. intros [s|i args]; [apply Hs|apply Hc]. induction args as [|a args IHa]; constructor; [apply IH|exact IHa].
Qed.

Definition term_spec source (t : term) : Prop := forall st, toks_ok (y_term t) ->
  returns (LowerInlineTerm source t st) (fun r => symbol_text r.1 = true /\ exists bs, lowered source t r.1 bs /\ low_post st r.2 bs).

Lemma lower_fold_ret c sep source l : Forall (term_spec source) l -> Forall (fun t => toks_ok (y_term t)) l -> forall r st,
  returns (lower_fold c sep source l r st) (fun x => exists names bs, x.1 = fold_left (append_sep c sep) names r /\
    Forall (fun n => symbol_text n = true) names /\ lowered_list source l names bs /\ low_post st x.2 bs).
Proof.
  induction l as [|t l IH]; intros Hl Ht r st.
  { apply returns_ret. exists [], []. split_and!; [done|constructor|constructor|apply low_post_nil]. }
  apply Forall_cons_iff in Hl as [H1 Hl], Ht as [H2 Ht]. cbn [lower_fold]. eapply returns_bind; [by apply H1|].
  intros [s st1] (Hs & bs & Hbs & Hp). cbn in Hs, Hbs, Hp. eapply returns_mono; [by apply (IH Hl Ht (append_sep c sep r s) st1)|].
  intros [x st2] (names & bs' & Hx & Hn & Hlow & Hp'). cbn in *. exists (s :: names), (bs ++ bs').
  split_and!; [done|by constructor|by constructor|by eapply low_post_app].
Qed.

Lemma names_grow_perm st st' new new' : new ≡ₚ new' -> names_grow st st' new -> names_grow st st' new'.
Proof. intros Hp (H1 & H2 & H3). split_and!; [done|by rewrite <- Hp|]. intros o Ho. apply H3. by rewrite Hp. Qed.

Lemma insert_slot {A} (l m : list A) a b : <[length l := b]> ((l ++ [a]) ++ m) = (l ++ [b]) ++ m.
Proof. rewrite <- !(assoc_L (++)). cbn. rewrite <- (Nat.add_0_r (length l)). by rewrite insert_app_r. Qed.

Lemma LowerInlineTerm_ret source t : term_spec source t.
Proof.
  induction t as [s|id args IH] using term_tree_ind; intros st Hok.
  - apply returns_ret. cbn. split; [by inversion Hok|]. exists []. split; [constructor|apply low_post_nil].
  - cbn [y_term] in Hok. apply Forall_cons_iff in Hok as [Hid Hok]. apply Forall_cons_iff in Hok as [_ Hok]. apply Forall_app in Hok as [Hok _].
    assert (Hargs : Forall (fun t => toks_ok (y_term t)) args) by (apply Forall_forall, (proj1 (sep_by_all (fun t => token_ok t = true) COMMA y_term args eq_refl)); exact Hok).
    cbn [LowerInlineTerm]. eapply returns_bind; [apply fresh_ret|]. intros [o st1] (Ho & Hg & Hb). cbn [fst snd] in Ho, Hg, Hb.
    set (st2 := if source then _ else st1). rewrite call_fold. eapply returns_bind; [by apply lower_fold_ret|].
    intros [call st3] (names & bs & Hcall & Hn & Hlow & [Hp1 Hp2 Hp3]). cbn [fst snd] in Hcall, Hp1, Hp2.
    assert (Hc : call = id +:+ "(" +:+ joined "," names).
    { rewrite Hcall, append_sep_join; [by rewrite string_app_assoc|unfold back_is; by rewrite back_app|].
      eapply Forall_impl; [exact Hn|]. intros n Hsn. apply name_word; [done|]. by rewrite Hsn. }
    assert (Hg' : names_grow st st3 (o :: map binding_output bs)).
    { apply (names_grow_app st st1 st3 [o]); [done|]. subst st2. by destruct source. }
    assert (Htok : toks_ok (y_call (mkCall id names))) by (by apply call_toks).
    apply returns_ret. cbn [fst snd]. split; [done|].
    exists (if source then BindMatch (mkCall id names) o :: bs else bs ++ [BindBuild o (mkCall id names)]).
    split; [by constructor|]. destruct source; subst st2; split; cbn [with_bindings l_bindings l_names].
    + cbn [with_bindings l_bindings] in Hp1. rewrite <- Hb, Hp1, insert_slot. rewrite <- (assoc_L (++)). cbn [app map]. by rewrite render_match, Hc.
    + exact Hg'.
    + constructor; [|done]. cbn [y_item]. apply Forall_app. split; [done|]. by repeat constructor.
    + rewrite <- Hb, Hp1, map_app, <- (assoc_L (++)). cbn [map]. by rewrite render_build, Hc.
    + eapply names_grow_perm; [|exact Hg']. rewrite map_app. cbn. by rewrite Permutation_app_comm.
    + apply Forall_app. split; [done|]. constructor; [|constructor]. cbn [y_item]. by do 2 (constructor; [done|]).
Qed.
(** ** Operators *)

Lemma op_last o : exists ps t, op_pieces o = ps ++ [T t] /\ (t = ID (match o with Op i _ _ _ => i end) \/ t = STAR \/ t = GT \/ t = RP).
Proof.
  destruct o as [i st l [|c cs]]; cbn [op_pieces].
  - destruct l as [ts|]; cbn [symlist_pieces].
    + rewrite app_nil_r. exists (T (ID i) :: (if st then [T STAR] else []) ++ T LT :: psep Blank term_pieces ts), GT. split; [|tauto].
      cbn. by rewrite <- (assoc_L (++)).
    + destruct st; [exists [T (ID i)], STAR; split; [done|tauto]|]. exists [], (ID i). split; [done|tauto].
  - exists (T (ID i) :: (if st then [T STAR] else []) ++ symlist_pieces l ++ T LP :: psep (T COMMA) op_pieces (c :: cs)), RP. split; [|tauto].
    cbn. by rewrite <- !(assoc_L (++)).
Qed.

Lemma op_word c o : name_char c = false -> forallb (fun d => negb (Ascii.eqb d c)) ["*"%char; ">"%char; ")"%char] = true -> toks_ok (y_op o) ->
  word_for c (text_of (op_pieces o)).
Proof.
  intros Hc Hds Hok. destruct (op_last o) as (ps & t & -> & Ht). rewrite forallb_forall in Hds.
  assert (Hd : forall d, d ∈ ["*"%char; ">"%char; ")"%char] -> back_is c (String d "") = false).
  { intros d Hd. unfold back_is. cbn. by apply negb_true_iff, Hds, list_elem_of_In. }
  apply back_text; destruct Ht as [->|[->|[->| ->]]]; try done; try (apply Hd; set_solver).
  - destruct o. cbn in Hok. apply Forall_cons_iff in Hok as [Hok _]. cbn in *. by destruct id.
  - destruct o. cbn in Hok. apply Forall_cons_iff in Hok as [Hok _]. cbn in *. apply name_word; [done|]. by rewrite Hok, orb_true_r.
Qed.

Definition op_spec source (o : op) : Prop := forall st, op_shape o = true -> toks_ok (y_op o) ->
  returns (LowerInlineOp source o st) (fun r => exists o' bs, r.1 = text_of (op_pieces o') /\ lowered_op source o o' bs /\ low_post st r.2 bs /\
    plain_op o' = true /\ op_shape o' = true /\ toks_ok (y_op o')).

Fixpoint lower_ops (source : bool) (l : list op) (r : string) (st : lower_state) : outcome (string * lower_state) :=
  match l with
  | [] => mret (r, st)
  | o :: l' => ('(s, st) ← LowerInlineOp source o st; lower_ops source l' (append_sep "("%char "," r s) st)
  end.

Lemma ops_fold source l r st : (fix go (l : list op) (result : string) (st : lower_state) : outcome (string * lower_state) :=
    match l with
    | [] => mret (result, st)
    | c :: l' => ('(s, st) ← LowerInlineOp source c st; go l' (append_sep "("%char "," result s) st)
    end) l r st = lower_ops source l r st.
Proof. revert r st. induction l as [|t l IH]; intros r st; [done|]. cbn. destruct (LowerInlineOp source t st) as [[s st']|]; cbn; [apply IH|done]. Qed.

Lemma lower_ops_ret source l : Forall (op_spec source) l -> Forall (fun o => op_shape o = true /\ toks_ok (y_op o)) l -> forall r st,
  returns (lower_ops source l r st) (fun x => exists os bs, x.1 = fold_left (append_sep "("%char ",") (map (fun o => text_of (op_pieces o)) os) r /\
    lowered_ops source l os bs /\ low_post st x.2 bs /\ Forall (fun o => plain_op o = true /\ op_shape o = true /\ toks_ok (y_op o)) os).
Proof.
  induction l as [|o l IH]; intros Hl Hok r st.
  { apply returns_ret. exists [], []. split_and!; [done|constructor|apply low_post_nil|constructor]. }
  apply Forall_cons_iff in Hl as [H1 Hl], Hok as [[H2 H3] Hok]. cbn [lower_ops]. eapply returns_bind; [by apply H1|].
  intros [s st1] (o' & bs & Hs & Hlow & Hp & Ho). cbn [fst snd] in Hs, Hp. subst s.
  eapply returns_mono; [by apply (IH Hl Hok _ st1)|]. intros [x st2] (os & bs' & Hx & Hlow' & Hp' & Hos). cbn [fst snd] in *.
  exists (o' :: os), (bs ++ bs'). split_and!; [done|by constructor|by eapply low_post_app|by constructor].
Qed.

Lemma lowered_count source l names bs : lowered_list source l names bs -> length names = length l.
Proof. induction 1; cbn; congruence. Qed.

Lemma symlist_text names : text_of (psep Blank term_pieces (map Sym names)) = joined " " names.
Proof.
  rewrite psep_text, map_map. f_equal. rewrite <- (map_id names) at 2. apply map_ext. intros n. cbn. apply string_app_nil.
Qed.

Lemma symlist_ret source l st r : l <> Some [] -> toks_ok (y_symlist l) ->
  returns (match l with
           | None => mret (r, st)
           | Some l => ('(r, st) ← lower_terms source l (r +:+ "<") st; mret (r +:+ ">", st))
           end) (fun x => exists l' bs, x.1 = r +:+ text_of (symlist_pieces l') /\ lowered_symlist source l l' bs /\ low_post st x.2 bs /\
    forallb plain_term (default [] l') = true /\ l' <> Some [] /\ toks_ok (y_symlist l')).
Proof.
  intros Hne Hok. destruct l as [l|].
  2: { apply returns_ret. exists None, []. cbn. split_and!; [by rewrite string_app_nil|constructor|apply low_post_nil|done..]. }
  cbn [y_symlist] in Hok. apply Forall_cons_iff in Hok as [_ Hok]. apply Forall_app in Hok as [Hok _].
  rewrite lower_terms_fold. eapply returns_bind; [apply lower_fold_ret|].
  - apply Forall_forall. intros t _. apply LowerInlineTerm_ret.
  - rewrite Forall_concat, Forall_map in Hok. exact Hok.
  - intros [x st'] (names & bs & Hx & Hn & Hlow & Hp). apply returns_ret. cbn [fst snd] in *. exists (Some (map Sym names)), bs.
    split_and!; [|by constructor|done|..].
    + rewrite Hx, append_sep_join.
      * cbn [symlist_pieces]. change (T LT :: ?l) with ([T LT] ++ l). rewrite !text_of_app, symlist_text, !string_app_assoc. done.
      * unfold back_is. by rewrite back_app.
      * eapply Forall_impl; [exact Hn|]. intros n Hsn. apply name_word; [done|]. by rewrite Hsn.
    + cbn. apply forallb_forall. intros t (n & <- & Hin)%List.in_map_iff. rewrite Forall_forall in Hn. by apply Hn, list_elem_of_In.
    + apply lowered_count in Hlow. destruct names; [|done]. destruct l; [done|]. done.
    + cbn [y_symlist]. constructor; [done|]. apply Forall_app. split; [|by repeat constructor]. rewrite Forall_concat, !Forall_map.
      eapply Forall_impl; [exact Hn|]. intros n Hsn. by repeat constructor.
Qed.

Lemma LowerInlineOp_ret source o : op_spec source o.
Proof.
  induction o as [i star l cs IH] using op_tree_ind. intros st Hsh Hok. cbn [op_shape] in Hsh. apply andb_prop in Hsh as [Hl Hcs].
  cbn [y_op] in Hok. apply Forall_cons_iff in Hok as [Hi Hok]. apply Forall_app in Hok as [_ Hok]. apply Forall_app in Hok as [Hlok Hcok].
  cbn [LowerInlineOp]. eapply returns_bind; [apply symlist_ret; [by destruct l as [[]|]|done]|].
  intros [r st1] (l' & bs & Hr & Hlow & Hp & Hpl & Hne & Htl). cbn [fst snd] in *.
  set (head := T (ID i) :: (if star then [T STAR] else []) ++ symlist_pieces l').
  assert (Hhead : r = text_of head).
  { subst r head. change (T (ID i) :: ?l) with ([T (ID i)] ++ l). rewrite !text_of_app. rewrite <- string_app_assoc. f_equal. change (text_of [T (ID i)]) with (i +:+ ""). rewrite string_app_nil. destruct star; [done|]. cbn. by rewrite string_app_nil. }
  assert (Hsl : match l' with Some [] => false | _ => true end = true) by (by destruct l' as [[]|]).
  assert (Hstar : toks_ok (if star then [STAR] else [])) by (destruct star; by repeat constructor).
  rewrite ops_fold. destruct cs as [|c cs].
  - apply returns_ret. exists (Op i star l' []), (bs ++ []). cbn [fst snd].
    split_and!; [|constructor; [done|constructor]|by rewrite app_nil_r|by cbn; rewrite Hpl|by cbn; rewrite Hsl|].
    + rewrite Hhead. cbn [op_pieces]. by rewrite app_nil_r.
    + cbn [y_op]. constructor; [done|]. apply Forall_app. split; [done|]. by rewrite app_nil_r.
  - apply Forall_cons_iff in Hcok as [_ Hcok]. apply Forall_app in Hcok as [Hcok _].
    eapply returns_bind; [apply (lower_ops_ret source (c :: cs)); [done|]|].
    + apply Forall_forall. intros o Ho. rewrite forallb_forall in Hcs. split; [by apply Hcs, list_elem_of_In|].
      by apply (proj1 (sep_by_all (fun t => token_ok t = true) COMMA y_op (c :: cs) eq_refl) Hcok).
    + intros [x st2] (os & bs' & Hx & Hlow' & Hp' & Hos). apply returns_ret. cbn [fst snd] in *. exists (Op i star l' os), (bs ++ bs').
      assert (os <> []) as Hne' by (by inversion Hlow').
      assert (Hpieces : op_pieces (Op i star l' os) = head ++ T LP :: psep (T COMMA) op_pieces os ++ [T RP]).
      { cbn [op_pieces]. unfold head. destruct os; [done|]. cbn [app]. by rewrite <- !(assoc_L (++)). }
      split_and!; [|by constructor|by eapply low_post_app|..].
      * rewrite Hx, append_sep_join, Hpieces, Hhead; [|unfold back_is; by rewrite back_app|].
        -- change (T LP :: ?l) with ([T LP] ++ l). rewrite !text_of_app, psep_text, !string_app_assoc. done.
        -- rewrite Forall_map. eapply Forall_impl; [exact Hos|]. intros o (_ & _ & Ho). by apply op_word.
      * cbn. rewrite Hpl. apply forallb_forall. intros o Ho%list_elem_of_In. rewrite Forall_forall in Hos. by apply Hos.
      * cbn. rewrite Hsl. apply forallb_forall. intros o Ho%list_elem_of_In. rewrite Forall_forall in Hos. by apply Hos.
      * cbn [y_op]. constructor; [done|]. apply Forall_app. split; [done|]. apply Forall_app. split; [done|]. destruct os as [|o' os]; [done|].
        constructor; [done|]. apply Forall_app. split; [|by repeat constructor]. apply sep_by_all; [done|]. intros o Ho. rewrite Forall_forall in Hos. by apply Hos.
Qed.
(** ** Rules *)

Lemma joined_app sep a b l m : joined sep ((a :: l) ++ (b :: m)) = joined sep (a :: l) +:+ sep +:+ joined sep (b :: m).
Proof.
  revert a. induction l as [|a' l IH]; intros a; [done|]. change ((a :: a' :: l) ++ b :: m) with (a :: (a' :: l) ++ b :: m).
  change ((a' :: l) ++ b :: m) with (a' :: (l ++ b :: m)) at 1. rewrite !joined_cons.
  change (a' :: (l ++ b :: m)) with ((a' :: l) ++ b :: m). rewrite IH. by rewrite !string_app_assoc.
Qed.

Lemma joined_nested sep A C B : C <> [] -> joined sep (A ++ joined sep C :: B) = joined sep (A ++ C ++ B).
Proof.
  intros HC. destruct C as [|c C]; [done|].
  assert (HB : joined sep (joined sep (c :: C) :: B) = joined sep ((c :: C) ++ B)).
  { destruct B as [|b B]; [by rewrite app_nil_r|]. by rewrite joined_cons, joined_app. }
  destruct A as [|a A]; [exact HB|]. change ((c :: C) ++ B) with (c :: (C ++ B)) in *. by rewrite !joined_app, HB.
Qed.

Lemma append_after bindings : forall i n c r, n < i ->
  append_bindings i n c bindings r = fold_left (append_sep "|"%char ";") bindings r.
Proof.
  induction bindings as [|b l IH]; intros i n c r Hi; cbn [append_bindings fold_left].
  - destruct c; [|done]. by replace (i =? n) with false by (symmetry; apply Nat.eqb_neq; lia).
  - rewrite IH by lia. destruct c; [|done]. by replace (i =? n) with false by (symmetry; apply Nat.eqb_neq; lia).
Qed.

Lemma append_bindings_fold before : forall after i c r,
  append_bindings i (i + length before) c (before ++ after) r =
  fold_left (append_sep "|"%char ";") (before ++ option_list c ++ after) r.
Proof.
  induction before as [|b l IH]; intros after i c r.
  - rewrite Nat.add_0_r. cbn [app]. destruct after as [|a after]; cbn [append_bindings].
    + destruct c; [|done]. by rewrite Nat.eqb_refl.
    + rewrite append_after by lia. destruct c; [|done]. by rewrite Nat.eqb_refl.
  - cbn [app append_bindings fold_left length]. rewrite Nat.add_succ_r, <- Nat.add_succ_l, IH. destruct c; [|done].
    replace (i =? S i + length l) with false by (symmetry; apply Nat.eqb_neq; lia). done.
Qed.

Definition item_token_text (i : item) : string := get_text (y_item i).

Lemma constraints_text l : get_text (y_constraints l) = joined ";" (map item_token_text l).
Proof.
  unfold y_constraints. induction l as [|a [|b l] IH]; [done..|]. rewrite sep_by_cons. unfold get_text in *. rewrite map_app, text_of_app.
  cbn [map]. rewrite joined_cons. f_equal. change (text_of (T SEMI :: ?l)) with (";" +:+ text_of l). by rewrite IH.
Qed.

Lemma item_last i : exists ts t, y_item i = ts ++ [t] /\ (t = RP \/ exists s, t = SYMBOL s).
Proof.
  destruct i as [c|[c s|s c|s r]]; cbn [y_item y_call y_syms].
  - eexists (ID (n_id c) :: LP :: sep_by COMMA _ (n_syms c)), RP. split; [done|tauto].
  - eexists (y_call c ++ [BIND]), (SYMBOL s). split; [|eauto]. by rewrite <- (assoc_L (++)).
  - eexists (SYMBOL s :: BIND :: ID (c_id c) :: LP :: sep_by COMMA _ (c_args c)), RP. split; [done|tauto].
  - eexists [SYMBOL s; BIND], (SYMBOL r). eauto.
Qed.

Lemma last_word c ps t : name_char c = false -> Ascii.eqb ")"%char c = false -> (t = RP \/ exists s, t = SYMBOL s) -> token_ok t = true ->
  word_for c (text_of (ps ++ [T t])).
Proof.
  intros Hc Hp [-> |[s ->]] Hok; apply back_text; try done.
  - cbn in Hok. by destruct s.
  - change (symbol_text s = true) in Hok. cbn [lexeme]. apply name_word; [done|]. by rewrite Hok.
Qed.

Lemma binding_last bi : exists ps t, binding_pieces bi = ps ++ [T t] /\ (t = RP \/ exists s, t = SYMBOL s) /\ t ∈ y_item (IBind bi).
Proof.
  destruct bi as [c s|s c|s r]; cbn [binding_pieces y_item].
  - exists (call_pieces c ++ [Blank; T BIND; Blank]), (SYMBOL s). split_and!; [by rewrite <- (assoc_L (++))|eauto|set_solver].
  - exists (T (SYMBOL s) :: Blank :: T BIND :: Blank :: T (ID (c_id c)) :: T LP :: map T (sep_by COMMA (fun s : string => [SYMBOL s]) (c_args c))), RP.
    split_and!; [|tauto|unfold y_call, y_syms; set_solver]. unfold call_pieces, y_call, y_syms. cbn [map]. by rewrite map_app.
  - exists [T (SYMBOL s); Blank; T BIND; Blank], (SYMBOL r). split_and!; [done|eauto|set_solver].
Qed.

Lemma render_word bi : toks_ok (y_item (IBind bi)) -> word_for "|"%char (render bi).
Proof.
  intros Hok. unfold render. destruct (binding_last bi) as (ps & t & -> & Ht & Hin). apply last_word; [done..|].
  unfold toks_ok in Hok. rewrite Forall_forall in Hok. by apply Hok.
Qed.

Lemma item_word i : toks_ok (y_item i) -> word_for "|"%char (item_token_text i).
Proof.
  intros Hok. unfold item_token_text, get_text. destruct (item_last i) as (ts & t & Hi & Ht). rewrite Hi in *. rewrite map_app.
  apply last_word; [done..|]. unfold toks_ok in Hok. rewrite Forall_forall in Hok. apply Hok. set_solver.
Qed.

Lemma joined_word c sep ws : ws <> [] -> Forall (word_for c) ws -> word_for c (joined sep ws).
Proof.
  intros Hne Hws. induction ws as [|w [|w' ws] IH]; [done|by apply Forall_cons_iff in Hws as [? _]|].
  apply Forall_cons_iff in Hws as [Hw Hws]. rewrite joined_cons, <- string_app_assoc. specialize (IH ltac:(done) Hws).
  split; [|by apply back_is_app]. destruct IH as [IH _]. destruct (w +:+ sep), (joined sep (w' :: ws)); done.
Qed.

(** The items of the lowered rule, and their texts *)
Definition lowered_items (bs bs' : list binding) (tree : rule_tree) : list item := map IBind bs ++ default [] (t_constraints tree) ++ map IBind bs'.
Definition lowered_texts (bs bs' : list binding) (tree : rule_tree) : list (list piece) :=
  map binding_pieces bs ++ map (fun i => map T (y_item i)) (default [] (t_constraints tree)) ++ map binding_pieces bs'.

Lemma lowered_texts_items bs bs' tree : Forall2 item_text (lowered_texts bs bs' tree) (lowered_items bs bs' tree).
Proof.
  assert (Hb : forall bs, Forall2 item_text (map binding_pieces bs) (map IBind bs)).
  { clear. induction bs; constructor; [apply binding_text|done]. }
  unfold lowered_texts, lowered_items. repeat apply Forall2_app; [apply Hb| |apply Hb].
  induction (default [] (t_constraints tree)); constructor; [apply token_text|done].
Qed.

Lemma lowered_text src tgt bs bs' tree :
  (forall l, t_constraints tree = Some l -> l <> [] /\ Forall (fun i => toks_ok (y_item i)) l) ->
  Forall (fun bi => toks_ok (y_item (IBind bi))) (bs ++ bs') ->
  append_bindings 0 (length bs) ((fun l => get_text (y_constraints l)) <$> t_constraints tree) (map render (bs ++ bs'))
    (text_of (op_pieces src) +:+ "|" +:+ text_of (op_pieces tgt) +:+ "|") = text_of (rule_pieces src tgt (lowered_texts bs bs' tree)).
Proof.
  intros Hc Hb. rewrite map_app. pose proof (append_bindings_fold (map render bs) (map render bs') 0) as H. rewrite length_map in H.
  cbn [Nat.add] in H. rewrite H. clear H. apply Forall_app in Hb as [Hb Hb'].
  assert (Hw : forall l, Forall (fun bi => toks_ok (y_item (IBind bi))) l -> Forall (word_for "|"%char) (map render l)).
  { intros l Hl. rewrite Forall_map. eapply Forall_impl; [exact Hl|]. apply render_word. }
  rewrite append_sep_join.
  - change (rule_pieces src tgt ?x) with (op_pieces src ++ [T BAR] ++ op_pieces tgt ++ [T BAR] ++ psep (T SEMI) (fun y => y) x).
    rewrite !text_of_app, psep_text, !string_app_assoc.
    change (text_of [T BAR]) with "|". do 4 f_equal. unfold lowered_texts. rewrite !map_app, !map_map.
    change (map (fun x => text_of (binding_pieces x))) with (map render).
    destruct (t_constraints tree) as [l|]; [|done]. destruct (Hc l eq_refl) as [Hl _]. cbn [fmap option_fmap option_map option_list default].
    rewrite constraints_text. exact (joined_nested ";" (map render bs) (map item_token_text l) (map render bs') ltac:(by destruct l)).
  - unfold back_is. rewrite <- !string_app_assoc. by rewrite back_app.
  - apply Forall_app. split; [by apply Hw|]. apply Forall_app. split; [|by apply Hw].
    destruct (t_constraints tree) as [l|]; [|constructor]. destruct (Hc l eq_refl) as [Hl Hok]. cbn. constructor; [|constructor].
    rewrite constraints_text. apply joined_word; [by destruct l|]. rewrite Forall_map. eapply Forall_impl; [exact Hok|]. apply item_word.
Qed.
(** The tokens of a tree *)
Record tree_toks (tree : rule_tree) : Prop := {
  tt_source : toks_ok (y_op (t_source tree));
  tt_target : toks_ok (y_op (t_target tree));
  tt_items i : i ∈ default [] (t_constraints tree) -> toks_ok (y_item i);
}.

Lemma tree_toks_of tree : toks_ok (y_rule tree) -> tree_toks tree.
Proof.
  unfold y_rule, toks_ok. rewrite Forall_app, Forall_cons_iff, !Forall_app. intros (H1 & _ & H2 & _ & H3). split; [done..|].
  destruct (t_constraints tree) as [l|]; cbn; [|by intros i ?%not_elem_of_nil]. by apply (sep_by_all (fun t => token_ok t = true) SEMI y_item l eq_refl).
Qed.

Lemma rule_of_ok src tgt items : op_shape src = true -> op_shape tgt = true -> toks_ok (y_op src) -> toks_ok (y_op tgt) ->
  Forall (fun i => item_shape i = true /\ toks_ok (y_item i)) items -> tree_ok (rule_of src tgt items).
Proof.
  intros H1 H2 H3 H4 Hi. split; cbn; [done..| |].
  - intros l Hl. split; [done|]. destruct items as [|i items]; [done|]. injection Hl as <-. split; [done|]. eapply Forall_impl; [exact Hi|]. by intros x [? _].
  - unfold y_rule. cbn. apply Forall_app. split; [done|]. constructor; [done|]. apply Forall_app. split; [done|]. constructor; [done|].
    destruct items as [|i items]; [constructor|]. cbn [items_option]. unfold y_constraints. apply sep_by_all; [done|].
    intros x Hx. rewrite Forall_forall in Hi. by apply Hi.
Qed.

(** What a rule is lowered to *)
Record lowered_rule (tree : rule_tree) (src tgt : op) (bs bs' : list binding) : Prop := {
  lr_source : lowered_op true (t_source tree) src bs;
  lr_target : lowered_op false (t_target tree) tgt bs';
  lr_plain : plain_op src = true /\ plain_op tgt = true;
  lr_fresh : NoDup (map binding_output (bs ++ bs'));
  lr_new s : s ∈ map binding_output (bs ++ bs') -> s ∉ symbols_of (y_rule tree);
  lr_tree : tree_ok (rule_of src tgt (lowered_items bs bs' tree));
}.

Lemma lower_rule_ret tree : tree_ok tree ->
  returns (lower_rule tree) (fun r => exists src tgt bs bs', lowered_rule tree src tgt bs bs' /\
    r = match bs ++ bs' with [] => None | _ => Some (text_of (rule_pieces src tgt (lowered_texts bs bs' tree))) end).
Proof.
  intros [Hs Ht Hc Hok]. destruct (tree_toks_of tree Hok) as [Hs' Ht' Hi]. unfold lower_rule.
  set (st := mkLower _ _ _). eapply returns_bind; [by apply LowerInlineOp_ret|].
  intros [x st1] (src & bs & Hx & Hl1 & Hp1 & Hpl1 & Hsh1 & Hok1). cbn [fst snd] in *. subst x.
  eapply returns_bind; [by apply LowerInlineOp_ret|]. intros [x st2] (tgt & bs' & Hx & Hl2 & Hp2 & Hpl2 & Hsh2 & Hok2). cbn [fst snd] in *. subst x.
  pose proof (low_post_app _ _ _ _ _ Hp1 Hp2) as [Hb (_ & Hnd & Hnew) Htoks]. cbn [l_bindings st app] in Hb.
  assert (Hlen : length (l_bindings st1) = length bs) by (rewrite (lp_bindings _ _ _ Hp1); cbn; by rewrite length_map).
  assert (Hlow : lowered_rule tree src tgt bs bs').
  { split; [done..| |]; [intros s Hin; apply Hnew in Hin as [Hin _]; cbn in Hin; by rewrite elem_of_list_to_set in Hin|].
    apply rule_of_ok; [done..|]. apply Forall_forall. intros i. unfold lowered_items. rewrite !elem_of_app.
    assert (Hbind : forall bi, bi ∈ bs ++ bs' -> item_shape (IBind bi) = true /\ toks_ok (y_item (IBind bi))).
    { intros bi Hin. rewrite Forall_forall in Htoks. split; [done|by apply Htoks]. }
    intros [(bi & -> & Hin)%list_elem_of_fmap|[Hin|(bi & -> & Hin)%list_elem_of_fmap]]; [apply Hbind; set_solver| |apply Hbind; set_solver].
    split; [|by apply Hi]. destruct (t_constraints tree) as [l|]; [|by apply not_elem_of_nil in Hin]. destruct (Hc l eq_refl) as (_ & _ & Hsh).
    rewrite Forall_forall in Hsh. by apply Hsh. }
  rewrite Hb, length_map. destruct (bs ++ bs') as [|b0 l0] eqn:E; cbn [length Nat.eqb].
  { apply returns_ret. exists src, tgt, bs, bs'. split; [done|]. by rewrite E. }
  apply returns_ret. exists src, tgt, bs, bs'. split; [done|]. rewrite E. f_equal. rewrite <- E, Hlen.
  apply lowered_text; [|by rewrite E].
  intros l Hl. destruct (Hc l Hl) as (_ & Hne & _). split; [done|]. apply Forall_forall. intros i Hin. apply Hi. by rewrite Hl.
Qed.

(** Without inline terms nothing changes. *)
Lemma lowered_nil source t name bs : lowered source t name bs -> bs = [] -> t = Sym name.
Proof. destruct 1 as [s|id args name names bs _]; [done|]. destruct source; [done|]. by destruct bs. Qed.

Lemma lowered_list_nil source l names bs : lowered_list source l names bs -> bs = [] -> l = map Sym names.
Proof.
  induction 1 as [|t ts name names bs bs' Ht _ IH]; [done|]. intros [-> ->]%app_eq_nil. cbn. rewrite <- IH by done. f_equal. by eapply lowered_nil.
Qed.

Lemma lowered_op_nil source o : forall o', lowered_op source o o' [] -> o' = o.
Proof.
  induction o as [i st l cs IH] using op_tree_ind. intros o' H. inversion H as [? ? ? l' ? cs' bs1 bs2 Hl Hcs E1 E2 E3]; subst.
  apply app_eq_nil in E3 as [-> ->]. f_equal.
  - inversion Hl as [|? ? ? Hlist]; [done|]; subst. by rewrite (lowered_list_nil _ _ _ _ Hlist eq_refl).
  - clear H Hl. revert cs' Hcs. induction IH as [|c cs Hc _ IHcs]; intros cs' Hcs; inversion Hcs as [|? ? ? ? b1 b2 H1 H2 E1 E2 E3]; [done|].
    subst. apply app_eq_nil in E3 as [-> ->]. f_equal; [by apply Hc|by apply IHcs].
Qed.
End RuleLower.
