(* ===== verification/RulePrint.v ===== *)
(** * Printing rules

    Proofs about the printers of RuleParse.v: a rule that was built prints as the
    text of a tree of the grammar, the tree [rule_tree_of]. *)
From Stdlib Require Import Ascii.
From stdpp Require Import base numbers list strings gmap option pretty.
From S2P Require Import Prelude RuleEnums RuleSyntax RuleGrammar RuleDefs RuleGraph RuleBuild RuleBindings RuleParse RuleWp RuleBuilt RuleTyped RuleExec RulePieces RuleLower.

Module RulePrint.
Import RuleEnums RuleSyntax RuleGrammar RuleDefs RuleGraph RuleBuild RuleBindings RuleParse RuleWp RuleBuilt RuleTyped RuleExec RulePieces RuleLower.
Open Scope string_scope.
Open Scope nat_scope.
Open Scope list_scope.
Open Scope outcome_scope.
#[local] Arguments String.append !_ _ /.
Implicit Types (b c : SBuildCtx) (s : CDSLSymbol) (d : CDefinition).

(** ** The tree of a rule *)

Definition name_or (m : outcome string) : string := match m with Ret n => n | Abort _ => "" end.

Definition op_name (o : CDSLOp) : string :=
  match m_edslop o, m_edslsort o with
  | EdslopSort, EdslsortAsc => "SortAsc"
  | EdslopSort, EdslsortDesc => "SortDesc"
  | EdslopSort, EdslsortSpec => "SortBy"
  | EdslopAgg, _ => match SzAggFuncName (m_edslaggfunc o) with Some f => "Agg_" +:+ f | None => "Agg" end
  | k, _ => name_or (OpSzName k)
  end.

Fixpoint op_of (o : CDSLOp) : op :=
  Op (op_name o) (m_fDistinct o)
    (match m_pdrgpsym o with [] => None | ss => Some (map (fun s => Sym (m_pstrName s)) ss) end) (map op_of (m_pdrgpchild o)).

Definition con_of (con : CDSLConstraint) : constraint := mkCon (name_or (ConSzName (m_edslcon con))) (map m_pstrName (m_con_syms con)).

Definition binding_of_def d : binding :=
  let names := map m_pstrName (m_operands d) in
  let call := mkCall (default "" (SzBindingName (m_edslexpr d))) names in
  match m_edslexpr d, m_binding d with
  | EdslexprRef, _ => BindRef (m_pstrName (m_psymOutput d)) (default "" (head names))
  | _, EMatch => BindMatch call (m_pstrName (m_psymOutput d))
  | _, _ => BindBuild (m_pstrName (m_psymOutput d)) call
  end.

Definition items_of (cons : list CDSLConstraint) (defs : CDSLExpressionDefinitions) : list item :=
  map (fun con => ICon (con_of con)) cons ++ map (fun d => IBind (binding_of_def d)) (shown_definitions defs).

Definition rule_tree_of (r : CDSLRule) : rule_tree :=
  rule_of (op_of (m_pop_root (m_pfrag_src r))) (op_of (m_pop_root (m_pfrag_tgt r))) (items_of (m_pdrgpcon r) (m_pexprdefs r)).

(** ** The names of operators *)

(** The operators that the parser of operator names can return *)
Definition alias_ops (a : string * EDslOpKind * EDslSortDir) : list (EDslOpKind * bool * EDslSortDir * EDslAggFuncKind) :=
  let '(name, k, sort) := a in
  (k, false, sort, agg_of_token name) :: if star_allowed k (agg_of_token name) then [(k, true, sort, agg_of_token name)] else [].
Definition op_tokens : list (EDslOpKind * bool * EDslSortDir * EDslAggFuncKind) := concat (map alias_ops rg_alias).

Lemma OpParse_tokens token k star sort agg : OpParse token = (k, star, sort, agg) -> k <> EdslopSentinel -> (k, star, sort, agg) ∈ op_tokens.
Proof.
  unfold OpParse. set (f := (0 <? _) && _). set (rgch := if f then _ else _).
  destruct (List.find _ rg_alias) as [[[name k'] sort']|] eqn:E; [|intros [= <- <- <- <-] []; done].
  apply find_some in E as [Hin Hn]. apply String.eqb_eq in Hn. cbn in Hn. subst name.
  destruct (f && negb (star_allowed k' (agg_of_token rgch))) eqn:Ef; intros [= <- <- <- <-] Hk; [done|].
  unfold op_tokens. apply list_elem_of_In, in_concat. exists (alias_ops (rgch, k', sort')). split; [by apply List.in_map|]. cbn.
  destruct f; [|by left]. cbn in Ef. apply negb_false_iff in Ef. rewrite Ef. right. by left.
Qed.

(** A canonical name is parsed as the operator it was printed for. *)
Definition canonical (x : EDslOpKind * bool * EDslSortDir * EDslAggFuncKind) : bool :=
  let '(k, star, sort, agg) := x in let o := mkOp k star sort agg [] [] in
  id_text (op_name o) && bool_decide (OpParse (if star then op_name o +:+ "*" else op_name o) = x) &&
  gives (print_name o) (fun n => String.eqb n (op_name o +:+ if star then "*" else "")).

Lemma op_canonical eside b o : node_ok eside b o -> id_text (op_name o) = true /\
  OpParse (if m_fDistinct o then op_name o +:+ "*" else op_name o) = (m_edslop o, m_fDistinct o, m_edslsort o, m_edslaggfunc o) /\
  print_name o = Ret (op_name o +:+ if m_fDistinct o then "*" else "").
Proof.
  intros Ho. destruct (nd_token _ _ _ Ho) as [token Ht]. apply OpParse_tokens in Ht; [|apply Ho].
  assert (forallb canonical op_tokens = true) as Hall by (vm_compute; reflexivity). rewrite forallb_forall in Hall.
  apply list_elem_of_In, Hall in Ht. clear Ho. destruct o as [k star sort agg ss cs]. cbn [m_edslop m_fDistinct m_edslsort m_edslaggfunc] in *.
  unfold canonical in Ht. apply andb_prop in Ht as [[H1 H2]%andb_prop H3]. apply bool_decide_eq_true in H2.
  split_and!; [exact H1|exact H2|]. apply gives_returns in H3 as (n & Hn & E). apply String.eqb_eq in E. subst n. exact Hn.
Qed.

(** ** Texts *)

Lemma children_text l : Forall (fun o => OsPrintOp o true = Ret (text_of (op_pieces (op_of o)))) l ->
  (fix go (l : list CDSLOp) : outcome (list string) :=
     match l with [] => mret [] | c :: l' => (s ← OsPrintOp c true; rest ← go l'; mret (s :: rest)) end) l =
  Ret (map (fun o => text_of (op_pieces (op_of o))) l).
Proof. induction 1 as [|o l Ho _ IH]; [done|]. rewrite Ho, IH. done. Qed.

Lemma symlist_of_text ss : print_syms ss =
  text_of (symlist_pieces (match ss with [] => None | ss => Some (map (fun s => Sym (m_pstrName s)) ss) end)).
Proof.
  destruct ss as [|s ss]; [done|]. unfold print_syms. cbn [length Nat.eqb symlist_pieces].
  rewrite text_of_cons, text_of_app. change (text_of [T LT]) with "<". change (text_of [T GT]) with ">".
  rewrite <- (map_map m_pstrName Sym), symlist_text. done.
Qed.

Lemma OsPrintOp_text eside b o : op_all (node_ok eside b) o -> OsPrintOp o true = Ret (text_of (op_pieces (op_of o))).
Proof.
  induction o as [o IH] using CDSLOp_tree_ind. rewrite op_all_iff. intros [Ho Hcs].
  assert (Hch : Forall (fun o => OsPrintOp o true = Ret (text_of (op_pieces (op_of o)))) (m_pdrgpchild o)) by (rewrite Forall_forall in *; auto).
  destruct (op_canonical _ _ _ Ho) as (_ & _ & Hname). clear IH Hcs Ho. destruct o as [k star sort agg ss cs].
  cbn [OsPrintOp m_pdrgpsym m_pdrgpchild] in *. rewrite Hname. cbn [mbind outcome_bind].
  set (o := mkOp k star sort agg ss cs) in *. rewrite symlist_of_text. change (m_fDistinct o) with star in *.
  set (l := match ss with [] => None | _ => _ end).
  assert (Hop : op_of o = Op (op_name o) star l (map op_of cs)) by (subst l; by destruct ss). rewrite Hop. cbn [op_pieces].
  assert (Hhead : (op_name o +:+ (if star then "*" else "")) +:+ text_of (symlist_pieces l) =
    text_of (T (ID (op_name o)) :: (if star then [T STAR] else []) ++ symlist_pieces l)).
  { rewrite text_of_cons, text_of_app, string_app_assoc. change (text_of [T (ID (op_name o))]) with (op_name o +:+ ""). rewrite string_app_nil. by destruct star. }
  destruct cs as [|x cs]; [cbn; rewrite app_nil_r; by rewrite Hhead|].
  rewrite (children_text (x :: cs)) by done. cbn [length Nat.ltb Nat.leb andb mbind outcome_bind mret outcome_ret].
  f_equal. rewrite Hhead. set (h := _ ++ symlist_pieces l).
  change (map op_of (x :: cs)) with (op_of x :: map op_of cs).
  transitivity (text_of ((T (ID (op_name o)) :: h) ++ T LP :: psep (T COMMA) op_pieces (map op_of (x :: cs)) ++ [T RP])).
  - rewrite text_of_app, (text_of_cons (T LP)), text_of_app, psep_text, map_map. done.
  - subst h. cbn [app]. by rewrite <- (assoc_L (++)).
Qed.

Definition con_pieces (con : CDSLConstraint) : list piece := map T (y_item (ICon (con_of con))).

Lemma OsPrintConstraint_text b con : con_ok b con -> OsPrintConstraint con = Ret (text_of (con_pieces con)).
Proof.
  intros Hc. unfold OsPrintConstraint, con_pieces, con_of. destruct (con_names _ (cn_kind _ _ Hc)) as [(n & Hn & _) _]. rewrite Hn. cbn [mbind outcome_bind name_or].
  f_equal. symmetry. exact (call_text n (map m_pstrName (m_con_syms con))).
Qed.

Lemma binding_of_ref b bi d : binding_def b bi d -> m_edslexpr d = EdslexprRef -> m_binding d = EBuild /\
  exists x, m_operands d = [x] /\ binding_of_def d = BindRef (m_pstrName (m_psymOutput d)) (m_pstrName x).
Proof.
  intros Hbd E. destruct (ref_operand b bi d Hbd E) as [x Hx]. split.
  - pose proof (bd_shape _ _ _ Hbd) as Hsh. rewrite E, Hx, (bd_binding _ _ _ Hbd) in *. unfold binding_of in *. by destruct (is_match bi).
  - exists x. split; [done|]. unfold binding_of_def. by rewrite E, Hx.
Qed.

Lemma binding_of_call b bi d : binding_def b bi d -> m_edslexpr d <> EdslexprRef ->
  exists n, SzBindingName (m_edslexpr d) = Some n /\ m_binding d = binding_of bi /\
    let call := mkCall n (map m_pstrName (m_operands d)) in
    binding_of_def d = if is_match bi then BindMatch call (m_pstrName (m_psymOutput d)) else BindBuild (m_pstrName (m_psymOutput d)) call.
Proof.
  intros Hbd E. pose proof (bd_kind _ _ _ Hbd) as Hk. destruct (binding_call bi) as [call|]; [|done]. destruct Hk as [_ Hn].
  exists (c_id call). pose proof (bd_binding _ _ _ Hbd) as Hb. split_and!; [done..|]. unfold binding_of_def. rewrite Hn, Hb. cbn [default].
  unfold binding_of. by destruct (is_match bi), (m_edslexpr d).
Qed.

Lemma print_binding_text b bi d : binding_def b bi d -> print_binding d = Ret (render (binding_of_def d)).
Proof.
  intros Hbd. unfold print_binding. destruct (decide (m_edslexpr d = EdslexprRef)) as [E|E].
  - destruct (binding_of_ref b bi d Hbd E) as (-> & x & -> & ->). rewrite E. rewrite !bool_decide_true, bool_decide_false by done.
    cbn [map joined]. rewrite string_app_nil, string_app_assoc. unfold render. cbn. by rewrite string_app_nil.
  - destruct (binding_of_call b bi d Hbd E) as (n & Hn & -> & ->). rewrite (bool_decide_false (m_edslexpr d = EdslexprRef)), Hn by done.
    cbn [mbind outcome_bind mret outcome_ret]. f_equal. unfold binding_of. destruct (is_match bi).
    + rewrite render_match, bool_decide_false, bool_decide_true by done. cbn [String.append]. by rewrite !string_app_assoc.
    + rewrite render_build, bool_decide_true, bool_decide_false by done. by rewrite !string_app_assoc.
Qed.
(** ** Rules *)

(** The parts of a rule built in a context *)
Record parts b (bindings : list binding) (src tgt : CDSLOp) (cons : list CDSLConstraint) (defs : CDSLExpressionDefinitions) : Prop := {
  pt_ctx : ctx_ok b;
  pt_source : op_all (node_ok EdslsideSource b) src;
  pt_target : op_all (node_ok EdslsideTarget b) tgt;
  pt_cons : Forall (con_ok b) cons;
  pt_defs : rule_defs b cons bindings defs;
}.

Lemma shown_defs b cons bindings defs ds : m_pdrgpdefDefinitions defs = omap legacy_def cons ++ ds -> Forall2 (binding_def b) bindings ds ->
  shown_definitions defs = ds.
Proof.
  intros Hds Hbd. unfold shown_definitions. rewrite Hds, List.filter_app.
  assert (List.filter (fun d => negb (bool_decide (m_binding d = ELegacy))) (omap legacy_def cons) = []) as ->.
  { pose proof (legacy_binding cons) as Hl. revert Hl. generalize (omap legacy_def cons). clear. intros l Hl. induction l as [|d l IH]; [done|]. cbn. rewrite bool_decide_true by (apply Hl; left).
    cbn. apply IH. intros x Hx. apply Hl. by right. }
  cbn. clear Hds. induction Hbd as [|bi d bindings ds' Hd _ IH]; [done|]. cbn. rewrite (bd_binding _ _ _ Hd).
  unfold binding_of. destruct (is_match bi); cbn; f_equal; apply IH; done.
Qed.

Definition item_texts (cons : list CDSLConstraint) (defs : CDSLExpressionDefinitions) : list (list piece) :=
  map con_pieces cons ++ map (fun d => binding_pieces (binding_of_def d)) (shown_definitions defs).

Lemma item_texts_items cons defs : Forall2 item_text (item_texts cons defs) (items_of cons defs).
Proof.
  apply Forall2_app; [induction cons; constructor; [apply token_text|done]|].
  induction (shown_definitions defs); constructor; [apply binding_text|done].
Qed.

Lemma mapM_all {A B} (f : A -> outcome B) (g : A -> B) l : (forall a, a ∈ l -> f a = Ret (g a)) -> mapM f l = Ret (map g l).
Proof.
  induction l as [|a l IH]; intros H; [done|]. cbn. rewrite (H a) by left. cbn. rewrite IH; [done|]. intros x Hx. apply H. by right.
Qed.

Lemma OsPrintRule_text b bindings src tgt cons defs ss ss' : parts b bindings src tgt cons defs ->
  OsPrintRule (mkFragment src ss) (mkFragment tgt ss') cons defs =
  Ret (text_of (rule_pieces (op_of src) (op_of tgt) (item_texts cons defs))).
Proof.
  intros [Hb Hs Ht Hc Hd]. unfold OsPrintRule. cbn [m_pop_root]. rewrite (OsPrintOp_text _ _ _ Hs), (OsPrintOp_text _ _ _ Ht).
  cbn [mbind outcome_bind]. rewrite (mapM_all _ (fun con => text_of (con_pieces con))).
  2: { intros con Hin. rewrite Forall_forall in Hc. by eapply OsPrintConstraint_text, Hc. }
  cbn [mbind outcome_bind]. unfold OsPrintBindings. destruct Hd as (_ & ds & Hds & Hbd). pose proof (shown_defs _ _ _ _ _ Hds Hbd) as Hshown.
  rewrite (mapM_all _ (fun d => render (binding_of_def d))).
  2: { intros d (i & Hi)%list_elem_of_lookup_1. rewrite Hshown in Hi. eapply Forall2_lookup_r in Hbd as (bi & _ & ?); [|exact Hi]. by eapply print_binding_text. }
  cbn [mbind outcome_bind mret outcome_ret]. f_equal.
  change (rule_pieces (op_of src) (op_of tgt) ?x) with (op_pieces (op_of src) ++ [T BAR] ++ op_pieces (op_of tgt) ++ [T BAR] ++ psep (T SEMI) (fun y => y) x).
  rewrite !text_of_app, psep_text. change (text_of [T BAR]) with "|". do 4 f_equal. unfold item_texts. rewrite map_app, !map_map.
  change (fun d => text_of (binding_pieces (binding_of_def d))) with (fun d => render (binding_of_def d)).
  change (text_of [T SEMI]) with ";". generalize (map (fun d => render (binding_of_def d)) (shown_definitions defs)). intros bs.
  destruct cons as [|con cons]; [done|]. destruct bs as [|x bs]; [cbn [length Nat.ltb Nat.leb andb map]; rewrite app_nil_r; cbn [joined]; apply string_app_nil|].
  cbn [length Nat.ltb Nat.leb andb map]. by rewrite joined_app.
Qed.

Lemma op_of_plain eside b o : ctx_ok b -> op_all (node_ok eside b) o -> plain_op (op_of o) = true /\ op_shape (op_of o) = true /\ toks_ok (y_op (op_of o)).
Proof.
  intros Hb. induction o as [o IH] using CDSLOp_tree_ind. rewrite op_all_iff. intros [Ho Hcs].
  assert (Hch : forall x, x ∈ m_pdrgpchild o -> plain_op (op_of x) = true /\ op_shape (op_of x) = true /\ toks_ok (y_op (op_of x))).
  { intros x Hx. rewrite Forall_forall in *. auto. }
  destruct (op_canonical _ _ _ Ho) as (Hname & _).
  assert (Hsyms : forall s, s ∈ m_pdrgpsym o -> symbol_text (m_pstrName s) = true) by (intros s Hs; apply (cx_name b Hb); by eapply node_symbols).
  set (l := match m_pdrgpsym o with [] => None | _ => Some (map (fun s => Sym (m_pstrName s)) (m_pdrgpsym o)) end).
  assert (Hop : op_of o = Op (op_name o) (m_fDistinct o) l (map op_of (m_pdrgpchild o))) by (subst l; by destruct o as [? ? ? ? [|] ?]).
  rewrite Hop. clear IH Hcs Ho. split_and!.
  - cbn. apply andb_true_intro. split; [|apply forallb_forall; intros x (y & <- & Hy%list_elem_of_In)%List.in_map_iff; by apply Hch].
    apply forallb_forall. subst l. intros t Ht. destruct (m_pdrgpsym o) as [|s0 ss] eqn:E; [done|]. cbn [default] in Ht.
    apply List.in_map_iff in Ht as (s & <- & Hs%list_elem_of_In). cbn. by apply Hsyms.
  - cbn. apply andb_true_intro. split; [subst l; by destruct (m_pdrgpsym o)|].
    apply forallb_forall; intros x (y & <- & Hy%list_elem_of_In)%List.in_map_iff; by apply Hch.
  - cbn [y_op]. constructor; [done|]. apply Forall_app. split; [destruct (m_fDistinct o); by repeat constructor|]. apply Forall_app. split.
    + subst l. destruct (m_pdrgpsym o) as [|s0 ss] eqn:E; [constructor|]. cbn [y_symlist]. constructor; [done|]. apply Forall_app.
      split; [|by repeat constructor]. rewrite Forall_concat, !Forall_map. apply Forall_forall. intros s Hs. constructor; [|constructor].
      by apply Hsyms.
    + destruct (m_pdrgpchild o) as [|x cs]; [constructor|]. cbn [map]. constructor; [done|]. apply Forall_app. split; [|by repeat constructor].
      change (op_of x :: map op_of cs) with (map op_of (x :: cs)). apply sep_by_all; [done|]. intros y (z & -> & Hz)%list_elem_of_fmap. by apply Hch.
Qed.

(** The tree of the rule is a tree of the grammar. *)
Lemma parts_tree b bindings src tgt cons defs : parts b bindings src tgt cons defs ->
  tree_ok (rule_of (op_of src) (op_of tgt) (items_of cons defs)) /\ plain_op (op_of src) = true /\ plain_op (op_of tgt) = true.
Proof.
  intros [Hb Hs Ht Hc Hd]. destruct (op_of_plain _ _ _ Hb Hs) as (Hs1 & Hs2 & Hs3), (op_of_plain _ _ _ Hb Ht) as (Ht1 & Ht2 & Ht3).
  split; [|done]. apply rule_of_ok; [done..|]. rewrite Forall_forall in Hc.
  assert (Hsym : forall l, (forall s, s ∈ l -> s ∈ all_syms b) -> Forall (fun n => symbol_text n = true) (map m_pstrName l)).
  { intros l Hl. rewrite Forall_map. apply Forall_forall. intros s Hs'. by apply (cx_name b Hb), Hl. }
  apply Forall_app. split; apply Forall_forall.
  - intros i (con & -> & Hin)%list_elem_of_fmap. specialize (Hc con Hin). destruct (con_names _ (cn_kind _ _ Hc)) as [(n & Hn & Hid & _) (k & Hk & Hpos)].
    assert (m_con_syms con <> []) as Hne by (intros E; pose proof (cn_arity _ _ Hc) as Har; rewrite E, Hk in Har; injection Har as ->; cbn in Hpos; lia).
    split; [cbn; by destruct (m_con_syms con)|]. unfold con_of. rewrite Hn. apply (call_toks n); [done|]. apply Hsym, Hc.
  - intros i (d & -> & Hin)%list_elem_of_fmap. split; [done|]. destruct Hd as (Hok & ds & Hds & Hbd).
    rewrite (shown_defs _ _ _ _ _ Hds Hbd) in Hin. assert (Hin' : d ∈ m_pdrgpdefDefinitions defs) by (rewrite Hds; set_solver).
    apply list_elem_of_lookup in Hin as [j Hj]. eapply Forall2_lookup_r in Hbd as (bi & _ & Hbi); [|exact Hj].
    assert (Hout : symbol_text (m_pstrName (m_psymOutput d)) = true) by (apply (cx_name b Hb), (ix_output _ _ (do_indexed _ _ Hok)), Hin').
    assert (Hops : Forall (fun n => symbol_text n = true) (map m_pstrName (m_operands d))) by (apply Hsym; intros s; by apply (ix_operands _ _ (do_indexed _ _ Hok))).
    destruct (decide (m_edslexpr d = EdslexprRef)) as [E|E].
    + destruct (binding_of_ref b bi d Hbi E) as (_ & x & Hx & ->). rewrite Hx in Hops. inversion Hops; subst. by repeat constructor.
    + destruct (binding_of_call b bi d Hbi E) as (n & Hn & _ & ->). assert (Hid : id_text n = true).
      { pose proof (bd_typed _ _ _ Hbi) as [[? _]|(sig & Hsig & _)]; [done|]. rewrite Hn in Hsig. apply PsigBinding_inv in Hsig as (Hsin & [= ->] & _).
        assert (Forall (fun x => id_text (s_name x) = true) binding_signatures) as Hall by (repeat constructor). rewrite Forall_forall in Hall. by apply Hall. }
      pose proof (call_toks n _ Hid Hops) as Hcall. destruct (is_match bi); cbn [y_item].
      * apply Forall_app. split; [done|]. by repeat constructor.
      * by do 2 (constructor; [done|]).
Qed.

(** ** Only ASCII characters *)

Lemma ascii_char (c : ascii) : name_char c = true -> (N_of_ascii c <=? 127)%N = true.
Proof.
  unfold name_char, is_word, is_letter, is_lower, is_digit, in_range. rewrite !orb_true_iff, !andb_true_iff, !N.leb_le.
  intros [[[[_ H]|[_ H]]|H]|[_ H]]; try (cbn in H; lia). apply Ascii.eqb_eq in H. by subst c.
Qed.

Lemma all_chars_text P (a b : string) : all_chars P (a +:+ b) = all_chars P a && all_chars P b.
Proof. apply all_chars_app. Qed.

Lemma text_ascii ps : toks_ok (toks ps) -> all_chars (fun c : ascii => (N_of_ascii c <=? 127)%N) (text_of ps) = true.
Proof.
  induction ps as [|p ps IH]; intros Hok; [done|]. rewrite text_of_cons, all_chars_text. apply andb_true_intro. destruct p as [t|].
  - rewrite toks_cons in Hok. apply Forall_cons_iff in Hok as [Ht Hok]. split; [|by apply IH].
    change (text_of [T t]) with (lexeme t +:+ ""). rewrite string_app_nil.
    destruct t as [| | | | | | | | |s|s]; try done; refine (all_chars_impl _ _ s ascii_char (proj2 (token_chars s _))).
    + change (symbol_text s = true) in Ht. by rewrite Ht.
    + change (id_text s = true) in Ht. by rewrite Ht, orb_true_r.
  - split; [done|by apply IH].
Qed.

Lemma CDSLRule_ctor_ret b bindings src tgt cons defs ss ss' verdict : parts b bindings src tgt cons defs ->
  CDSLRule_ctor (mkFragment src ss) (mkFragment tgt ss') cons verdict defs =
  Ret (mkRule (mkFragment src ss) (mkFragment tgt ss') cons defs verdict
    (ComputeRuleIdentity (text_of (rule_pieces (op_of src) (op_of tgt) (item_texts cons defs))))).
Proof.
  intros Hp. unfold CDSLRule_ctor. rewrite (OsPrintRule_text _ _ _ _ _ _ _ _ Hp). cbn [mbind outcome_bind]. rewrite text_ascii; [done|].
  rewrite (rule_pieces_toks _ _ _ _ (item_texts_items cons defs)). by apply (parts_tree _ _ _ _ _ _ Hp).
Qed.
End RulePrint.
