(* ===== verification/RuleTotal.v ===== *)
(** * The parser of rules returns

    Proofs about [build_rule] and [PdslruleParse] (RuleParse.v): for every text they
    end with a rule or a message. The rules they return are well formed, and a rule
    with bindings can be executed. *)
From Stdlib Require Import Ascii.
From stdpp Require Import base numbers list strings gmap option pretty.
From S2P Require Import Prelude RuleEnums RuleSyntax RuleDefs RuleGraph RuleBuild RuleBindings RuleParse RuleWp RuleBuilt RuleTyped RuleFlow RuleExec RulePieces RuleLower RulePrint.

Module RuleTotal.
Import RuleEnums RuleSyntax RuleDefs RuleGraph RuleBuild RuleBindings RuleParse RuleWp RuleBuilt RuleTyped RuleFlow RuleExec RulePieces RuleLower RulePrint.
Open Scope string_scope.
Open Scope nat_scope.
Open Scope list_scope.
Open Scope outcome_scope.
Implicit Types (b c : SBuildCtx) (s : CDSLSymbol) (d : CDefinition).

(** ** The symbols of the source are those of its operators *)

Definition op_symbols (o : CDSLOp) : list CDSLSymbol := concat (map m_pdrgpsym (subops o)).

Lemma op_symbols_elem o s : s ∈ op_symbols o <-> exists o', o' ∈ subops o /\ s ∈ m_pdrgpsym o'.
Proof.
  unfold op_symbols. split.
  - intros (l & Hl & Hs)%list_elem_of_In%in_concat. apply List.in_map_iff in Hl as (o' & <- & Ho). exists o'. by rewrite !list_elem_of_In.
  - intros (o' & Ho & Hs). apply list_elem_of_In, in_concat. exists (m_pdrgpsym o'). split; [by apply List.in_map, list_elem_of_In|by apply list_elem_of_In].
Qed.

Lemma bind_result {A B} (m : build A) (k : A -> build B) b r : (m ≫= k) b = Ret (inr r) -> exists a c, m b = Ret (inr (a, c)) /\ k a c = Ret (inr r).
Proof. unfold mbind, build_bind. destruct (m b) as [[e|[a c]]|f]; try done. intros H. by exists a, c. Qed.

Lemma lift_result {A} (m : outcome A) b r : lift m b = Ret (inr r) -> m = Ret r.1 /\ r.2 = b.
Proof. unfold lift. destruct m as [a|]; [|done]. by intros [= <-]. Qed.

(** All symbols that a program adds are in its result. *)
Definition adds {A} (m : build A) (new : A -> list CDSLSymbol) : Prop :=
  forall b a c, m b = Ret (inr (a, c)) -> forall s, s ∈ all_syms c -> s ∈ all_syms b \/ s ∈ new a.

Lemma adds_each_from {A B} (new : B -> list CDSLSymbol) (f : nat -> A -> build B) l ul :
  (forall i a, a ∈ l -> adds (f i a) new) -> adds (each_from ul l f) (fun rs => concat (map new rs)).
Proof.
  revert ul. induction l as [|a l IH]; intros ul Hf b rs d H s Hs; cbn [each_from] in H; [injection H as <- <-; by left|].
  apply bind_result in H as (r & c & H1 & H). apply bind_result in H as (rs' & c' & H2 & H). injection H as <- <-. cbn.
  rewrite elem_of_app. destruct (IH (S ul) ltac:(intros; apply Hf; by right) _ _ _ H2 s Hs) as [H'|?]; [|tauto].
  destruct (Hf ul a ltac:(left) _ _ _ H1 s H'); tauto.
Qed.

Lemma adds_each {A B} (new : B -> list CDSLSymbol) (f : A -> build B) l :
  (forall a, a ∈ l -> adds (f a) new) -> adds (each l f) (fun rs => concat (map new rs)).
Proof. intros Hf b rs c H. rewrite (each_as_from 0) in H. apply (adds_each_from new (fun _ => f) l 0); [by intros _|done]. Qed.

Lemma new_symbol_adds esymk name eside : adds (new_symbol esymk name eside) (fun s => [s]).
Proof.
  intros b s c H x Hx. unfold new_symbol in H. apply bind_result in H as (b' & c' & H0 & H). injection H0 as <- <-.
  apply bind_result in H as (s' & c' & H1 & H). apply lift_result in H1 as [_ H1]. cbn in H1. subst c'.
  apply bind_result in H as ([] & c' & H2 & H). injection H2 as <-. injection H as <- <-. unfold all_syms in *. cbn in Hx.
  destruct (is_target eside); set_solver.
Qed.

Lemma build_decl_adds k sort eside n ul t : adds (build_decl k sort eside n ul t) (fun s => [s]).
Proof.
  intros b s c H x Hx. unfold build_decl in H. apply bind_result in H as (name & c' & H0 & H). apply lift_result in H0 as [_ H0]. cbn in H0. subst c'.
  destruct (negb _); [done|]. apply bind_result in H as (e & c' & H0 & H). apply lift_result in H0 as [_ H0]. cbn in H0. subst c'.
  apply bind_result in H as (b' & c' & H0 & H). injection H0 as <- <-. destruct (symtab b !! name).
  - destruct (negb _ || negb _); [done|]. injection H as <- <-. by left.
  - by eapply new_symbol_adds.
Qed.

Lemma concat_single (l : list CDSLSymbol) : concat (map (fun s => [s]) l) = l.
Proof. induction l as [|s l IH]; [done|]. cbn. by f_equal. Qed.

Lemma decls_adds k sort l eside : adds (PdrgpsymBuildDecls k sort l eside) (fun ss => ss).
Proof.
  intros b ss c H x Hx. unfold PdrgpsymBuildDecls in H. apply bind_result in H as (m & c' & H0 & H). apply lift_result in H0 as [_ H0]. cbn in H0. subst c'.
  apply bind_result in H as (b' & c' & H0 & H). injection H0 as <- <-. apply bind_result in H as ([] & c' & H0 & H). injection H0 as <-.
  destruct (negb _ && negb _); [by apply bind_result in H as (? & ? & _ & ?)|].
  destruct (adds_each_from (fun s => [s]) _ _ _ ltac:(intros; apply build_decl_adds) _ _ _ H x Hx) as [?|Hin]; [by left|]. right.
  by rewrite concat_single in Hin.
Qed.

Lemma PopBuild_adds eside o : adds (PopBuild eside o) op_symbols.
Proof.
  induction o as [i st l cs IH] using op_tree_ind. intros b r c H x Hx. cbn [PopBuild] in H.
  destruct (OpParse _) as [[[k star] sort] agg]. destruct (is_op k EdslopSentinel); [done|]. destruct (_ && _); [done|].
  apply bind_result in H as (ss & c1 & H1 & H). apply bind_result in H as (n & c' & H0 & H). apply lift_result in H0 as [_ H0]. cbn in H0. subst c'.
  destruct (negb _); [by apply bind_result in H as (? & ? & _ & ?)|]. rewrite children_each in H.
  apply bind_result in H as (rs & c2 & H2 & H). apply lift_result in H as [H H3]. cbn in H, H3. subst c2.
  assert (Hr : r = mkOp k star sort agg ss rs).
  { unfold CDSLOp_ctor in H. destruct (UlChildren k) as [m|]; [|done]. cbn in H. destruct (m =? length rs); [|done]. cbn in H.
    destruct (UlSyms k) as [m'|]; [|done]. cbn in H. destruct (_ || _); [|done]. by injection H. }
  rewrite op_symbols_elem. rewrite Forall_forall in IH.
  destruct (adds_each op_symbols _ _ ltac:(intros; by apply IH) _ _ _ H2 x Hx) as [H'|Hin].
  - destruct (decls_adds _ _ _ _ _ _ _ H1 x H') as [?|Hin]; [by left|]. right. exists r. split; [by destruct r; left|]. by rewrite Hr.
  - right. apply list_elem_of_In, in_concat in Hin as (y & Hy & Hin). apply List.in_map_iff in Hy as (o' & <- & Ho). apply list_elem_of_In in Hin, Ho.
    apply op_symbols_elem in Hin as (o'' & Ho'' & Hin). exists o''. split; [|done]. eapply subops_child; [|done]. by rewrite Hr.
Qed.

(** ** Trees *)

Lemma toks_plain_op o o' source : lowered_op source o o' [] -> plain_op o' = true -> plain_op o = true.
Proof. intros H Hp. by rewrite <- (lowered_op_nil _ _ _ H). Qed.

Lemma tree_constraints_elem tree con : con ∈ tree_constraints tree <-> ICon con ∈ default [] (t_constraints tree).
Proof.
  unfold tree_constraints. rewrite list_elem_of_omap. split; [|intros; by exists (ICon con)]. intros ([c|] & Hi & E); [|done]. by injection E as ->.
Qed.

Lemma tree_bindings_elem tree bi : bi ∈ tree_bindings tree <-> IBind bi ∈ default [] (t_constraints tree).
Proof.
  unfold tree_bindings. rewrite list_elem_of_omap. split; [|intros; by exists (IBind bi)]. intros ([|x] & Hi & E); [done|]. by injection E as ->.
Qed.

Lemma syms_plain l : toks_ok (y_syms l) -> forallb symbol_text l = true.
Proof.
  unfold y_syms. intros H. apply Forall_cons_iff in H as [_ H]. apply Forall_app in H as [H _]. apply forallb_forall. intros s Hs%list_elem_of_In.
  apply (proj1 (sep_by_all (fun t => token_ok t = true) COMMA (fun s : string => [SYMBOL s]) l eq_refl)) with s in H; [|done]. by inversion H.
Qed.

Lemma tree_plain tree : tree_ok tree -> Forall (fun con => plain_con con = true) (tree_constraints tree) /\
  Forall (fun bi => plain_binding bi = true) (tree_bindings tree).
Proof.
  intros Hok. pose proof (tree_toks_of tree (ok_tokens _ Hok)) as [_ _ Hi]. split; apply Forall_forall.
  - intros con Hc%tree_constraints_elem. apply Hi in Hc. apply Forall_cons_iff in Hc as [_ Hc]. by apply syms_plain.
  - intros bi Hb%tree_bindings_elem. apply Hi in Hb. unfold plain_binding. apply andb_true_intro.
    destruct bi as [[id args] o|o [id args]|o i]; cbn [y_item binding_output binding_operands c_args] in *.
    + apply Forall_app in Hb as [Hc Ho]. apply Forall_cons_iff in Hc as [_ Hc], Ho as [_ Ho]. split; [by inversion Ho|by apply syms_plain].
    + apply Forall_cons_iff in Hb as [Ho Hb]. apply Forall_cons_iff in Hb as [_ Hb]. apply Forall_cons_iff in Hb as [_ Hb]. split; [done|by apply syms_plain].
    + apply Forall_cons_iff in Hb as [Ho Hb]. apply Forall_cons_iff in Hb as [_ Hb]. apply Forall_cons_iff in Hb as [Hr _]. split; [done|]. cbn. by rewrite andb_true_r.
Qed.
(** ** Building *)

Lemma empty_ok : ctx_ok empty_ctx.
Proof.
  split; cbn; try (by intros ? ?%not_elem_of_nil); [|by intros [] ? ?%not_elem_of_nil|by intros ? ? ?%not_elem_of_nil|constructor].
  intros n s. rewrite lookup_empty. split; [done|]. by intros [?%not_elem_of_nil _].
Qed.

Lemma computable_more pattern pattern' cons defs target s : (forall s, s ∈ pattern -> s ∈ pattern') ->
  computable pattern cons defs target s -> computable pattern' cons defs target s.
Proof.
  intros Hsub. induction 1; [by apply by_pattern, Hsub|by apply by_checker|by apply by_rank|by eapply by_equality|by eapply by_metadata|
    by eapply by_match|by apply by_construction|by eapply by_bind].
Qed.

Section WithOrder.
Context `{HO : HashOrder} `{HL : !HashOrderLaws}.

(** The rule of a tree *)
Record built b (tree : rule_tree) (verdict : option string) (r : CDSLRule) : Prop := {
  bt_parts : parts b (tree_bindings tree) (m_pop_root (m_pfrag_src r)) (m_pop_root (m_pfrag_tgt r)) (m_pdrgpcon r) (m_pexprdefs r);
  bt_source : m_frag_syms (m_pfrag_src r) = src_syms b;
  bt_target : m_frag_syms (m_pfrag_tgt r) = tgt_syms b;
  bt_valid : valid_definitions (m_pdrgpcon r);
  bt_exec : tree_bindings tree <> [] ->
    executable b (op_symbols (m_pop_root (m_pfrag_src r))) (m_pdrgpcon r) (m_pexprdefs r) (m_pop_root (m_pfrag_tgt r));
  bt_verdict : m_pstr_verdict r = verdict;
  bt_identity : m_sz_identity r = ComputeRuleIdentity (text_of (rule_pieces (op_of (m_pop_root (m_pfrag_src r))) (op_of (m_pop_root (m_pfrag_tgt r)))
    (item_texts (m_pdrgpcon r) (m_pexprdefs r))));
}.

Lemma build_rule_keeps tree verdict : tree_ok tree -> plain_op (t_source tree) = true -> plain_op (t_target tree) = true ->
  keeps (build_rule tree verdict) (fun r c => built c tree verdict r) empty_ctx.
Proof.
  intros Hok Hs Ht. destruct (tree_plain tree Hok) as [Hpc Hpb]. unfold build_rule.
  eapply (keeps_bind _ _ (fun r c => op_all (node_ok EdslsideSource c) r /\ forall s, s ∈ all_syms c -> s ∈ op_symbols r)).
  { pose proof (PopBuild_keeps EdslsideSource (t_source tree) empty_ctx empty_ok Hs) as (res & Hres & H). exists res. split; [done|].
    destruct res as [e|[r c]]; [done|]. destruct H as (H1 & H2 & H3). split_and!; [done..|]. intros s Hin.
    destruct (PopBuild_adds EdslsideSource (t_source tree) _ _ _ Hres s Hin) as [?%not_elem_of_nil|]; done. }
  intros source b1 Hb1 _ [Hsrc Hsyms]. apply keeps_get.
  eapply keeps_bind; [by apply PopBuild_keeps|]. intros target b2 Hb2 G12 Htgt.
  assert (Hsrc2 : op_all (node_ok EdslsideSource b2) source) by (eapply op_all_mono; [|exact Hsrc]; intros o; by apply node_ok_grows).
  eapply keeps_bind; [by apply FDeclareBindings_keeps|]. intros [] b3 Hb3 G23 Hty.
  eapply keeps_bind; [by apply PdrgpconBuild_keeps|]. intros cons b4 Hb4 G34 (Hcons & Hval & _).
  assert (Hty4 : Forall (typed b4) (tree_bindings tree)) by (eapply Forall_impl; [exact Hty|]; intros bi; by apply typed_grows).
  assert (Hsrc4 : op_all (node_ok EdslsideSource b4) source) by (eapply op_all_mono; [|exact Hsrc2]; intros o; apply node_ok_grows; by etrans).
  assert (Htgt4 : op_all (node_ok EdslsideTarget b4) target) by (eapply op_all_mono; [|exact Htgt]; intros o; apply node_ok_grows; by etrans).
  apply keeps_lift_bind. eapply returns_mono; [apply (Definitions_ctor_ret (all_syms b4)); [apply (cx_ids b4 Hb4)| |done]|].
  { intros con s Hin. rewrite Forall_forall in Hcons. by apply (cn_syms _ _ (Hcons con Hin)). }
  intros defs [Hdefs Hds]. eapply keeps_bind; [apply checks_keeps; [done|]; apply FBuildBindings_checks; [done..|]|].
  { split; [done|]. exists []. split; [by rewrite app_nil_r|constructor]. }
  cbn beta. intros defs' c _ _ (-> & Hrd & Hexec). apply keeps_get, keeps_lift; [done|].
  assert (Hparts : parts b4 (tree_bindings tree) source target cons defs') by done.
  rewrite (CDSLRule_ctor_ret _ _ _ _ _ _ _ _ _ Hparts). apply returns_ret. split; cbn; try done.
  intros Hne s Hin. destruct (Hexec Hne s Hin) as [Hc|?]; [left|by right]. eapply computable_more; [|exact Hc].
  intros x Hx. apply Hsyms. assert (src_syms b1 `prefix_of` src_syms b4) as [l Hl] by (do 2 (etrans; [apply gr_src; eassumption|]); by apply gr_src).
  rewrite Hl, take_app_length in Hx. unfold all_syms. apply elem_of_app. by left.
Qed.

(** ** Parsing *)

Context `{HA : Antlr} `{HAL : !AntlrLaws}.

(** The tree that is built for a text: that of the text, or that of the lowered rule *)
Definition parsed_as (text : string) (tree : rule_tree) : Prop :=
  exists tree0 src tgt bs bs', antlr_rule text = Some tree0 /\ lowered_rule tree0 src tgt bs bs' /\
    tree = if bool_decide (bs ++ bs' = []) then tree0 else rule_of src tgt (lowered_items bs bs' tree0).

Definition result_of (text : string) (verdict : option string) (r : string + CDSLRule) : Prop :=
  match r with
  | inl _ => True
  | inr rule => exists tree b, parsed_as text tree /\ tree_ok tree /\ plain_op (t_source tree) = true /\ plain_op (t_target tree) = true /\
      build_rule tree verdict empty_ctx = Ret (inr (rule, b)) /\ built b tree verdict rule
  end.

Lemma build_result tree verdict :
  tree_ok tree -> plain_op (t_source tree) = true -> plain_op (t_target tree) = true ->
  returns (r ← build_rule tree verdict empty_ctx;
    mret (match r with inl err => inl (if String.eqb err "" then "semantic error" else err) | inr (rule, _) => inr rule end))
    (fun r : string + CDSLRule => match r with inl _ => True
     | inr rule => exists b, build_rule tree verdict empty_ctx = Ret (inr (rule, b)) /\ built b tree verdict rule end).
Proof.
  intros Hok Hs Ht. destruct (build_rule_keeps tree verdict Hok Hs Ht) as ([e|[r c]] & Hr & H); rewrite Hr; apply returns_ret; [done|].
  exists c. split; [done|]. by destruct H as (_ & _ & ?).
Qed.

Lemma lower_plain tree : tree_ok tree -> plain_op (t_source tree) = true -> plain_op (t_target tree) = true -> lower_rule tree = Ret None.
Proof.
  intros Hok Hs Ht. destruct (lower_rule_ret tree Hok) as (r & Hr & src & tgt & bs & bs' & Hlow & E). rewrite Hr. f_equal. rewrite E.
  assert (Hnil : forall source o o' l, lowered_op source o o' l -> plain_op o = true -> l = []).
  { clear. intros source o. induction o as [i st l cs IH] using op_tree_ind. intros o' bs H Hp. cbn in Hp. apply andb_prop in Hp as [Hl Hcs].
    inversion H as [? ? ? l' ? cs' bs1 bs2 H1 H2]; subst. assert (bs1 = []) as ->.
    { inversion H1 as [|? names ? Hlist]; [done|]; subst. cbn in Hl. clear -Hlist Hl.
      induction Hlist as [|t ts name names bs bs' Hx _ IHl]; [done|]. cbn in Hl. apply andb_prop in Hl as [Hx' Hl]. rewrite IHl by done.
      by inversion Hx; subst. }
    cbn. clear H H1 Hl. revert cs' bs2 H2. induction IH as [|c cs Hc _ IHcs]; intros cs' bs2 H2; inversion H2 as [|? ? ? ? b1 b2 G1 G2]; [done|]; subst.
    cbn in Hcs. apply andb_prop in Hcs as [Hcp Hcs]. rewrite (Hc _ _ G1 Hcp). by eapply IHcs. }
  destruct Hlow as [H1 H2 _ _ _ _]. by rewrite (Hnil _ _ _ _ H1 Hs), (Hnil _ _ _ _ H2 Ht).
Qed.

Lemma parse_plain n text tree verdict : antlr_rule text = Some tree -> tree_ok tree ->
  plain_op (t_source tree) = true -> plain_op (t_target tree) = true ->
  PdslruleParse_n (S n) text verdict =
    r ← build_rule tree verdict empty_ctx;
    mret (match r with inl err => inl (if String.eqb err "" then "semantic error" else err) | inr (rule, _) => inr rule end).
Proof. intros Ht Hok Hs Htg. cbn [PdslruleParse_n]. rewrite Ht, (lower_plain tree Hok Hs Htg). done. Qed.

Lemma PdslruleParse_ret text verdict : returns (PdslruleParse text verdict) (result_of text verdict).
Proof.
  unfold PdslruleParse. destruct (antlr_rule text) as [tree|] eqn:Et.
  2: { cbn [PdslruleParse_n]. rewrite Et. by apply returns_ret. }
  pose proof (antlr_tree_ok _ _ Et) as Hok. destruct (lower_rule_ret tree Hok) as (r & Hr & src & tgt & bs & bs' & Hlow & E).
  destruct (bs ++ bs') as [|b0 l0] eqn:Ebs.
  - apply app_eq_nil in Ebs as [-> ->]. pose proof (lr_plain _ _ _ _ _ Hlow) as [Hps Hpt].
    pose proof (toks_plain_op _ _ _ (lr_source _ _ _ _ _ Hlow) Hps) as Hs. pose proof (toks_plain_op _ _ _ (lr_target _ _ _ _ _ Hlow) Hpt) as Ht.
    rewrite (parse_plain 1 text tree) by done. eapply returns_mono; [by apply build_result|]. intros [e|rule] H; [done|].
    destruct H as (b & Hb & Hbt). exists tree, b. split_and!; [|done..]. exists tree, src, tgt, [], []. done.
  - cbn [PdslruleParse_n]. rewrite Et, Hr, E. cbn [mbind outcome_bind].
    pose proof (lr_plain _ _ _ _ _ Hlow) as [Hps Hpt]. pose proof (lr_tree _ _ _ _ _ Hlow) as Hok'.
    pose proof (rule_pieces_parsed _ _ _ _ Hps Hpt (lowered_texts_items bs bs' tree) Hok') as Hparse.
    pose proof (parse_plain 0 _ _ verdict Hparse Hok' Hps Hpt) as Hp. cbn [PdslruleParse_n] in Hp. rewrite Hp.
    eapply returns_mono; [by apply build_result|]. intros [e|rule] H; [done|]. destruct H as (b & Hb & Hbt).
    exists (rule_of src tgt (lowered_items bs bs' tree)), b. split_and!; [|done..]. exists tree, src, tgt, bs, bs'. split_and!; [done..|].
    by rewrite bool_decide_false by (by rewrite Ebs).
Qed.
End WithOrder.
End RuleTotal.
