(* ===== verification/RuleRoundtrip.v ===== *)
(** * Printing and parsing again

    A rule that was parsed, printed and parsed again is the same rule: the printed
    text parses, to the rule with the same operators, symbols, definitions and
    identity. Only the mark of the surface equality [Eq] is lost, which prints as
    the equality of its type. The hash tables of the second run may be in another
    order. *)
From Stdlib Require Import Ascii.
From stdpp Require Import base numbers list strings gmap option pretty.
From S2P Require Import Prelude RuleEnums RuleSyntax RuleDefs RuleGraph RuleBuild RuleBindings RuleParse RuleWp RuleBuilt RuleTyped RuleFlow RuleExec RulePieces RuleLower RulePrint RuleTotal.

Module RuleRoundtrip.
Import RuleEnums RuleSyntax RuleDefs RuleGraph RuleBuild RuleBindings RuleParse RuleWp RuleBuilt RuleTyped RuleFlow RuleExec RulePieces RuleLower RulePrint RuleTotal.
Open Scope string_scope.
Open Scope nat_scope.
Open Scope list_scope.
Open Scope outcome_scope.
Implicit Types (b c : SBuildCtx) (s : CDSLSymbol) (d : CDefinition).

#[local] Opaque ComputeRuleIdentity.

(** ** Runs *)

Lemma bind_run {A B} (m : build A) (k : A -> build B) b a c : m b = Ret (inr (a, c)) -> (m ≫= k) b = k a c.
Proof. unfold mbind, build_bind. by intros ->. Qed.

(** The loop over a list that was mapped, with results that are mapped *)
Lemma each_map_ctx {A A' B B'} (f : A -> build B) (f' : A' -> build B') (g : B -> A') (h : B -> B') l b rs c :
  (forall a b r c, a ∈ l -> ctx_ok b -> f a b = Ret (inr (r, c)) -> f' (g r) b = Ret (inr (h r, c)) /\ ctx_ok c) -> ctx_ok b ->
  each l f b = Ret (inr (rs, c)) -> each (map g rs) f' b = Ret (inr (map h rs, c)).
Proof.
  revert b rs. induction l as [|a l IH]; intros b rs Hf Hb H; cbn [each] in H; [by injection H as <- <-|].
  apply bind_result in H as (r & c1 & H1 & H). apply bind_result in H as (rs' & c2 & H2 & H). injection H as <- <-. cbn [map each].
  destruct (Hf a b r c1 ltac:(left) Hb H1) as [H1' Hc1]. rewrite (bind_run _ _ _ _ _ H1').
  rewrite (bind_run _ _ _ _ _ (IH _ _ ltac:(intros; eapply Hf; [by right|done..]) Hc1 H2)). done.
Qed.

(** ** Operators *)

Lemma decls_symlist k sort l l' eside b : default [] l = default [] l' -> PdrgpsymBuildDecls k sort l eside b = PdrgpsymBuildDecls k sort l' eside b.
Proof. intros H. unfold PdrgpsymBuildDecls. by rewrite H. Qed.

Lemma keeps_run {A} (m : build A) Q b a c : keeps m Q b -> m b = Ret (inr (a, c)) -> ctx_ok c /\ grows b c /\ Q a c.
Proof. intros (r & Hr & H) E. rewrite Hr in E. by injection E as ->. Qed.

Lemma checks_run {A} (m : build A) Q b a c : checks m Q b -> m b = Ret (inr (a, c)) -> c = b /\ Q a.
Proof. intros (r & Hr & H) E. rewrite Hr in E. by injection E as ->. Qed.

Lemma each_unchanged {A B} (f : A -> build B) l b rs c : (forall a, a ∈ l -> checks (f a) (fun _ => True) b) -> each l f b = Ret (inr (rs, c)) -> c = b.
Proof. intros Hf H. by apply (checks_run _ _ _ _ _ (checks_all f l b Hf) H). Qed.

Lemma each_ctx {A B} (f : A -> build B) (P : A -> Prop) l b rs c :
  (forall a b r c, P a -> ctx_ok b -> f a b = Ret (inr (r, c)) -> ctx_ok c) -> Forall P l -> ctx_ok b -> each l f b = Ret (inr (rs, c)) -> ctx_ok c.
Proof.
  intros Hf Hl. revert b rs. induction Hl as [|a l Ha _ IH]; intros b rs Hb H; cbn [each] in H; [by injection H as <- <-|].
  apply bind_result in H as (r & c1 & H1 & H). apply bind_result in H as (rs' & c2 & H2 & H). injection H as <- <-. eauto.
Qed.

(** The operator of a tree is built again from its canonical tree. *)
Lemma PopBuild_again eside o : forall b r c, plain_op o = true -> ctx_ok b -> PopBuild eside o b = Ret (inr (r, c)) ->
  PopBuild eside (op_of r) b = Ret (inr (r, c)).
Proof.
  induction o as [i st l cs IH] using op_tree_ind. intros b r c Hp Hb H.
  destruct (keeps_run _ _ _ _ _ (PopBuild_keeps eside (Op i st l cs) b Hb Hp) H) as (Hc & _ & Hr).
  apply op_all_iff in Hr as [Hr _]. destruct (op_canonical _ _ _ Hr) as (_ & Hname & _). cbn [plain_op] in Hp. apply andb_prop in Hp as [Hl Hcs].
  cbn [PopBuild] in H. destruct (OpParse _) as [[[k star] sort] agg]. destruct (is_op k EdslopSentinel) eqn:Ek; [done|].
  destruct (is_op k EdslopBind && _) eqn:Ebind; [done|]. apply bool_decide_eq_false in Ek.
  apply bind_result in H as (ss & c1 & H1 & H). destruct (keeps_run _ _ _ _ _ (PdrgpsymBuildDecls_keeps k sort l eside b Hb Ek Hl) H1) as (Hc1 & _ & _ & Hsyms & _).
  apply bind_result in H as (n & c' & H2 & H). pose proof (lift_result _ _ _ H2) as [_ E2]. cbn in E2. subst c'.
  destruct (length cs =? n) eqn:En; cbn [negb] in H; [|by apply bind_result in H as (? & ? & _ & ?)].
  rewrite children_each in H. apply bind_result in H as (rs & c2 & H3 & H). pose proof (lift_result _ _ _ H) as [H' E]. cbn in H', E. subst c2.
  assert (Hrec : r = mkOp k star sort agg ss rs).
  { unfold CDSLOp_ctor in H'. destruct (UlChildren k) as [m|]; [|done]. cbn in H'. destruct (m =? length rs); [|done]. cbn in H'.
    destruct (UlSyms k) as [m'|]; [|done]. cbn in H'. destruct (_ || _); [|done]. by injection H'. }
  subst r. cbn [m_edslop m_fDistinct m_edslsort m_edslaggfunc] in *. set (r := mkOp k star sort agg ss rs) in *.
  set (l' := match ss with [] => None | _ => Some (map (fun s => Sym (m_pstrName s)) ss) end).
  assert (Hop : op_of r = Op (op_name r) star l' (map op_of rs)) by (subst l'; by destruct ss). rewrite Hop. cbn [PopBuild]. rewrite Hname.
  unfold is_op at 1. rewrite bool_decide_false by done. rewrite Ebind.
  rewrite (bind_run _ _ b ss c1). 2: { rewrite <- H1. apply decls_symlist. rewrite Hsyms. subst l'. by destruct ss. }
  rewrite (bind_run _ _ c1 n c1) by done. rewrite children_each.
  assert (Hlen : length rs = length cs).
  { clear -H3. revert c1 rs H3. induction cs as [|o cs IH]; intros c1 rs H; cbn [each] in H; [by injection H as <- _|].
    apply bind_result in H as (? & ? & _ & H). apply bind_result in H as (? & ? & H2 & H). injection H as <- <-. cbn. f_equal. by eapply IH. }
  rewrite length_map, Hlen, En. cbn [negb].
  assert (Hagain : each (map op_of rs) (PopBuild eside) c1 = Ret (inr (rs, c))).
  { clear -IH Hcs Hc1 H3. revert c1 rs Hc1 H3. induction IH as [|o cs Ho _ IHcs]; intros c1 rs Hc1 H; cbn [each] in H; [by injection H as <- <-|].
    cbn in Hcs. apply andb_prop in Hcs as [Hpo Hcs]. apply bind_result in H as (r & c2 & H1 & H). apply bind_result in H as (rs' & c3 & H2 & H).
    injection H as <- <-. cbn [map each]. rewrite (bind_run _ _ _ _ _ (Ho _ _ _ Hpo Hc1 H1)).
    destruct (keeps_run _ _ _ _ _ (PopBuild_keeps eside o c1 Hc1 Hpo) H1) as (Hc2 & _). by rewrite (bind_run _ _ _ _ _ (IHcs Hcs _ _ Hc2 H2)). }
  rewrite (bind_run _ _ _ _ _ Hagain). exact H.
Qed.

(** ** Constraints *)

Definition clear (con : CDSLConstraint) : CDSLConstraint := mkConstraint (m_edslcon con) false (m_con_syms con).

Lemma equality_kind k : EdslconEquality k <> EdslconSentinel -> FBindingMetadata (EdslconEquality k) = false.
Proof. by destruct k. Qed.

(** The kind of a constraint that was built *)
Lemma build_constraint_kind (con' : constraint) b con c : build_constraint con' b = Ret (inr (con, c)) ->
  m_edslcon con <> EdslconSentinel /\
  ((n_id con' <> "Eq" /\ m_edslcon con = ConParse (n_id con')) \/ (n_id con' = "Eq" /\ FBindingMetadata (m_edslcon con) = false)) /\
  exists n, UlArity (m_edslcon con) = Ret n /\ length (n_syms con') = n /\
    exists ss, each_from 0 (n_syms con') (resolve_symbol (m_edslcon con)) b = Ret (inr (ss, c)) /\
      check_kinds (m_edslcon con) (map m_esymk ss) = Ret None /\ m_con_syms con = ss /\ (n =? length ss) = true.
Proof.
  intros H. unfold build_constraint in H. apply bind_result in H as (k & c0 & H0 & H).
  assert (Hk : c0 = b /\ ((n_id con' <> "Eq" /\ k = ConParse (n_id con')) \/ (n_id con' = "Eq" /\ FBindingMetadata k = false))).
  { unfold constraint_kind in H0. destruct (String.eqb_spec (n_id con') "Eq") as [E|E]; cbn [negb] in H0; [|injection H0 as <- <-; eauto].
    destruct (n_syms con') as [|x [|y [|]]]; try done. apply bind_result in H0 as (b' & c' & H1 & H0). injection H1 as <- <-.
    destruct (symtab b !! x) as [sx|]; [|done]. destruct (symtab b !! y) as [sy|]; [|done]. destruct (negb _); [done|].
    destruct (is_con _ _) eqn:Ec; [done|]. injection H0 as <- <-. split; [done|]. right. split; [done|]. apply equality_kind. by apply bool_decide_eq_false in Ec. }
  destruct Hk as [-> Hk]. destruct (is_con k EdslconSentinel) eqn:Es; [done|]. apply bool_decide_eq_false in Es.
  apply bind_result in H as (n & c' & H1 & H). apply lift_result in H1 as [Hn H1]. cbn in Hn, H1. subst c'.
  destruct (length (n_syms con') =? n) eqn:El; cbn [negb] in H; [|by apply bind_result in H as (? & ? & _ & ?)]. apply Nat.eqb_eq in El.
  apply bind_result in H as (ss & c1 & Hss & H). apply bind_result in H as (bad & c' & H1 & H). apply lift_result in H1 as [Hck H1]. cbn in Hck, H1. subst c'.
  destruct bad; [done|]. apply lift_result in H as [H E]. cbn in H, E. subst c1. unfold CDSLConstraint_ctor in H. rewrite Hn in H. cbn in H.
  destruct (n =? length ss) eqn:En; [|done]. injection H as <-. cbn. split_and!; [done..|]. exists n. split_and!; [done..|]. exists ss. done.
Qed.

(** A constraint is built again from its canonical form, without the mark. *)
Lemma build_constraint_again (con' : constraint) b con c : build_constraint con' b = Ret (inr (con, c)) -> n_syms con' = map m_pstrName (m_con_syms con) ->
  build_constraint (con_of con) b = Ret (inr (clear con, c)).
Proof.
  intros H Hnames. apply build_constraint_kind in H as (Hk & _ & n & Hn & Hlen & ss & Hss & Hck & Hs & Hl).
  destruct (con_names _ Hk) as [(name & Hname & _ & Hparse & Hne) _]. unfold con_of. rewrite Hname. cbn [name_or].
  unfold build_constraint, constraint_kind. cbn [n_id n_syms].
  assert (String.eqb name "Eq" = false) as -> by (by apply String.eqb_neq). cbn [negb]. rewrite Hparse, <- Hnames.
  rewrite (bind_run _ _ b (m_edslcon con) b) by done. unfold is_con. rewrite bool_decide_false by done.
  rewrite (bind_run _ _ b n b) by (by rewrite Hn). rewrite Hlen, Nat.eqb_refl. cbn [negb].
  rewrite (bind_run _ _ _ _ _ Hss), (bind_run _ _ c None c) by (by rewrite Hck). unfold CDSLConstraint_ctor. rewrite Hn. cbn [mbind outcome_bind].
  rewrite Hl. cbn. unfold clear. by rewrite Hs.
Qed.

Lemma declare_outputs_again (con' : constraint) b con c : build_constraint con' b = Ret (inr (con, c)) -> n_syms con' = map m_pstrName (m_con_syms con) ->
  forall b', declare_outputs (con_of con) b' = declare_outputs con' b'.
Proof.
  intros H Hnames b'. apply build_constraint_kind in H as (Hk & Hid & _).
  destruct (con_names _ Hk) as [(name & Hname & _ & Hparse & _) _]. unfold con_of. rewrite Hname. cbn [name_or].
  unfold declare_outputs. cbn [n_id n_syms]. rewrite Hparse, <- Hnames. destruct Hid as [[_ E]|[E Hm]]; [by rewrite <- E|].
  rewrite Hm, E. cbn. done.
Qed.
Lemma each_runs {A B} (f : A -> build B) l b rs c :
  (forall a b r c, a ∈ l -> ctx_ok b -> f a b = Ret (inr (r, c)) -> ctx_ok c) -> ctx_ok b -> each l f b = Ret (inr (rs, c)) ->
  Forall2 (fun a r => exists b c, ctx_ok b /\ f a b = Ret (inr (r, c))) l rs.
Proof.
  revert b rs. induction l as [|a l IH]; intros b rs Hf Hb H; cbn [each] in H; [by injection H as <- <-|].
  apply bind_result in H as (r & c1 & H1 & H). apply bind_result in H as (rs' & c2 & H2 & H). injection H as <- <-. constructor; [by exists b, c1|].
  eapply IH; [intros; eapply Hf; [by right|done..]|eapply Hf; [left|done..]|done].
Qed.

Lemma each_same {A A' B} (f : A -> build B) (f' : A' -> build B) l l' b : Forall2 (fun a a' => forall b, f' a' b = f a b) l l' -> each l' f' b = each l f b.
Proof.
  intros H. revert b. induction H as [|a a' l l' Ha _ IH]; intros b; [done|]. cbn [each]. unfold mbind, build_bind. rewrite Ha.
  destruct (f a b) as [[e|[r c]]|]; [done| |done]. by rewrite IH.
Qed.

Lemma clear_output con : PsymOutput (clear con) = PsymOutput con.
Proof. done. Qed.

Lemma clear_outputs cons : omap PsymOutput (map clear cons) = omap PsymOutput cons.
Proof. induction cons as [|con cons IH]; [done|]. cbn. rewrite clear_output. by rewrite IH. Qed.

Lemma clear_legacy cons : omap legacy_def (map clear cons) = omap legacy_def cons.
Proof. induction cons as [|con cons IH]; [done|]. cbn [map omap list_omap]. rewrite IH. done. Qed.

Lemma clear_valid cons : valid_definitions cons -> valid_definitions (map clear cons).
Proof.
  intros [H1 H2]. split; [by rewrite clear_outputs|]. intros y Hy. apply (H2 y). eapply tc_ext; [|exact Hy].
  intros x z (con & (con0 & -> & Hin)%list_elem_of_fmap & Ho & Hz). by exists con0.
Qed.

Lemma con_of_clear con : con_of (clear con) = con_of con.
Proof. done. Qed.

Lemma PdrgpconBuild_again (HO1 HO2 : HashOrder) (HL1 : @HashOrderLaws HO1) (HL2 : @HashOrderLaws HO2) tree tree' b cons c :
  ctx_ok b -> Forall (fun con => plain_con con = true) (tree_constraints tree) -> tree_bindings tree' = tree_bindings tree ->
  tree_constraints tree' = map con_of cons -> (t_constraints tree' = None -> tree_constraints tree' = []) ->
  @PdrgpconBuild HO1 tree b = Ret (inr (cons, c)) -> @PdrgpconBuild HO2 tree' b = Ret (inr (map clear cons, c)).
Proof.
  intros Hb Hp Hbind Hcons Hnone H. destruct (keeps_run _ _ _ _ _ (PdrgpconBuild_keeps tree b Hb Hp) H) as (_ & _ & _ & Hval & _).
  unfold PdrgpconBuild in H |- *. rewrite Hbind. apply bind_result in H as (us & c1 & H1 & H). apply bind_result in H as (cons' & c2 & H2 & H).
  rewrite Forall_forall in Hp.
  assert (Hc1 : ctx_ok c1).
  { destruct (length (tree_bindings tree) =? 0); [by injection H1 as _ <-|].
    eapply each_ctx; [|apply Forall_forall, Hp|exact Hb|exact H1]. intros a b' r c' Ha Hb'. by apply (keeps_run _ _ _ _ _ (declare_outputs_keeps a b' Hb' Ha)). }
  assert (Hsame : cons' = cons /\ c2 = c).
  { destruct (t_constraints tree); [|by injection H as <- <-]. apply bind_result in H as (v & c' & H3 & H). destruct v; [|done].
    apply lift_result in H3 as [_ H3]. cbn in H3. subst c'. by injection H as <- <-. }
  destruct Hsame as [-> ->]. clear H.
  assert (Hpairs : Forall2 (fun con' con => exists b c, ctx_ok b /\ build_constraint con' b = Ret (inr (con, c))) (tree_constraints tree) cons).
  { eapply each_runs; [|exact Hc1|exact H2]. intros a b' r c' Ha Hb'. by apply (keeps_run _ _ _ _ _ (build_constraint_keeps a b' Hb' (Hp a Ha))). }
  assert (Hnames : forall con' b con c, con' ∈ tree_constraints tree -> ctx_ok b -> build_constraint con' b = Ret (inr (con, c)) -> n_syms con' = map m_pstrName (m_con_syms con)).
  { intros con' b' con c' Hin Hb' Hrun. by apply (keeps_run _ _ _ _ _ (build_constraint_keeps con' b' Hb' (Hp con' Hin)) Hrun). }
  rewrite Hcons in *. rewrite (bind_run _ _ b us c1).
  2: { destruct (length (tree_bindings tree) =? 0); [done|]. rewrite <- H1. apply each_same.
       apply Forall2_fmap_r. apply Forall2_same_length_lookup. split; [by eapply Forall2_length|]. intros i con' con Hi Hj.
       destruct (Forall2_lookup_lr _ _ _ i con' con Hpairs Hi Hj) as (b' & c' & Hb' & Hrun). cbn. apply (declare_outputs_again con' b' con c' Hrun).
       eapply Hnames; [by eapply list_elem_of_lookup_2|done..]. }
  rewrite (bind_run _ _ c1 (map clear cons) c).
  - destruct (t_constraints tree'); [|done].
    destruct (@FValidate_ret HO2 HL2 (map clear cons)) as (v & Hv & Hiff). rewrite (bind_run _ _ c v c) by (by rewrite Hv).
    rewrite (proj2 Hiff); [done|]. by apply clear_valid.
  - eapply (each_map_ctx build_constraint build_constraint con_of clear); [|exact Hc1|exact H2].
    intros a b' r c' Ha Hb' Hrun. split; [eapply build_constraint_again; [done|by eapply Hnames]|].
    by apply (keeps_run _ _ _ _ _ (build_constraint_keeps a b' Hb' (Hp a Ha)) Hrun).
Qed.
(** ** Definitions *)

Lemma Definitions_ctor_again (HO1 HO2 : HashOrder) (HL1 : @HashOrderLaws HO1) (HL2 : @HashOrderLaws HO2) cons :
  valid_definitions cons -> @Definitions_ctor HO2 (map clear cons) = @Definitions_ctor HO1 cons.
Proof.
  intros Hval. unfold Definitions_ctor. destruct (@FValidate_ret HO2 HL2 (map clear cons)) as (v2 & -> & H2), (@FValidate_ret HO1 HL1 cons) as (v1 & -> & H1).
  rewrite (proj2 H1) by done. rewrite (proj2 H2) by (by apply clear_valid). by rewrite for_each_map.
Qed.

(** ** The flow *)

Definition clear_entry (e : CDSLSymbol * CDSLConstraint) : CDSLSymbol * CDSLConstraint := (e.1, clear e.2).

Definition clear_flow (f : flow) : flow :=
  mkFlow (available f) (aliases f) (map clear_entry (columnDerivations f)) (map clear (columnChecks f)) (map clear (deferredChecks f)).

Definition res_map {A B} (g : A -> B) (r : outcome (string + A * SBuildCtx)) : outcome (string + B * SBuildCtx) :=
  match r with Ret (inr (a, c)) => Ret (inr (g a, c)) | Ret (inl e) => Ret (inl e) | Abort f => Abort f end.

Lemma bind_ext {A B} (m : build A) (k k' : A -> build B) b : (forall a c, k a c = k' a c) -> (m ≫= k) b = (m ≫= k') b.
Proof. intros H. unfold mbind, build_bind. destruct (m b) as [[e|[a c]]|]; auto. Qed.

Lemma bind_same {A B} (m m' : build A) (k k' : A -> build B) b : m b = m' b -> (forall a c, k a c = k' a c) -> (m ≫= k) b = (m' ≫= k') b.
Proof. intros E H. unfold mbind, build_bind. rewrite E. destruct (m' b) as [[e|[a c]]|]; auto. Qed.

Lemma map_find_clear m k : map_find (map clear_entry m) k = clear <$> map_find m k.
Proof.
  unfold map_find. induction m as [|[k' con] m IH]; [done|]. cbn [map List.find clear_entry fst]. case_bool_decide; [done|]. exact IH.
Qed.

Lemma in_map_clear m k : in_map (map clear_entry m) k = in_map m k.
Proof. unfold in_map. rewrite map_find_clear. by destruct (map_find m k). Qed.

Lemma emplace_clear m k con : map_emplace (map clear_entry m) k (clear con) = ((map_emplace m k con).1, map clear_entry (map_emplace m k con).2).
Proof. unfold map_emplace. rewrite map_find_clear. destruct (map_find m k); cbn; [done|]. by rewrite map_app. Qed.

Lemma fold_clear {A A' S S'} (g : S -> S') (h : A -> A') (step : S -> A -> build S) (step' : S' -> A' -> build S') l x b :
  (forall x a b, step' (g x) (h a) b = res_map g (step x a b)) -> fold_build step' (g x) (map h l) b = res_map g (fold_build step x l b).
Proof.
  intros H. revert x b. induction l as [|a l IH]; intros x b; [done|]. cbn [map fold_build]. unfold mbind, build_bind. rewrite H.
  destruct (step x a b) as [[e|[y c]]|]; cbn; [done|apply IH|done].
Qed.

Lemma classify_clear f con b : classify (clear_flow f) (clear con) b = res_map clear_flow (classify f con b).
Proof.
  unfold classify. change (m_edslcon (clear con)) with (m_edslcon con). change (m_con_syms (clear con)) with (m_con_syms con).
  destruct (FBindingMetadata _); [unfold clear_flow; cbn; by rewrite map_app|]. destruct (is_property _); [done|].
  destruct (FDeferredSemanticConstraint _); [unfold clear_flow; cbn; by rewrite map_app|].
  change (slots (clear con)) with (slots con). change (fun e : nat * CDSLSymbol => side_is e.2 EdslsideSource && (is_con (m_edslcon con) EdslconAttrsNonEmpty || negb (is_output (clear con) e.1)))
    with (fun e : nat * CDSLSymbol => side_is e.2 EdslsideSource && (is_con (m_edslcon con) EdslconAttrsNonEmpty || negb (is_output con e.1))).
  destruct (forallb _ _); [done|]. destruct (m_con_syms con) as [|x [|y [|]]]; try done. destruct (bool_decide _); [done|].
  destruct (negb _ || negb _ || _); [done|]. destruct (if side_is x EdslsideTarget then (x, y) else (y, x)) as [key value].
  change (aliases (clear_flow f)) with (aliases f). destruct (map_emplace (aliases f) key value) as [[] m]; done.
Qed.

Lemma check_output_clear constructed con f o b :
  check_output constructed (clear con) (clear_flow f) o b = res_map clear_flow (check_output constructed con f o b).
Proof.
  unfold check_output. change (m_edslcon (clear con)) with (m_edslcon con). change (aliases (clear_flow f)) with (aliases f).
  destruct (is_con _ _ && _); [done|]. destruct (side_is o EdslsideSource || in_map (aliases f) o); [done|].
  change (columnDerivations (clear_flow f)) with (map clear_entry (columnDerivations f)). rewrite emplace_clear.
  destruct (map_emplace (columnDerivations f) o con) as [[] m]; done.
Qed.

Lemma check_column_clear constructed f con b :
  check_column constructed (clear_flow f) (clear con) b = res_map clear_flow (check_column constructed f con b).
Proof.
  unfold check_column. change (m_edslcon (clear con)) with (m_edslcon con). change (m_con_syms (clear con)) with (m_con_syms con).
  change (slots (clear con)) with (slots con). change (fun e : nat * CDSLSymbol => is_output (clear con) e.1) with (fun e : nat * CDSLSymbol => is_output con e.1).
  set (l := map snd _).
  assert (Hfold : forall f b, fold_build (check_output constructed (clear con)) (clear_flow f) l b = res_map clear_flow (fold_build (check_output constructed con) f l b)).
  { intros f' b'. rewrite <- (map_id l) at 1. apply fold_clear. intros. apply check_output_clear. }
  destruct (is_con _ _); [|by apply Hfold]. destruct (subscript (m_con_syms con) 1) as [rank|]; [|done].
  unfold mbind, build_bind, lift, mret, build_ret. cbn beta iota. change (aliases (clear_flow f)) with (aliases f).
  destruct (side_is rank EdslsideTarget && negb (in_map (aliases f) rank) && negb (bool_decide (rank ∈ constructed))); [|apply Hfold].
  exact (Hfold (mkFlow (insert_sym rank (available f)) (aliases f) (columnDerivations f) (columnChecks f) (deferredChecks f)) b).
Qed.

Lemma build_binding_clear f defs bi b : build_binding (clear_flow f) defs bi b = build_binding f defs bi b.
Proof.
  unfold build_binding. apply bind_ext. intros o c. change (aliases (clear_flow f)) with (aliases f).
  change (columnDerivations (clear_flow f)) with (map clear_entry (columnDerivations f)). by rewrite in_map_clear.
Qed.

Lemma fold_ext {A S} (step step' : S -> A -> build S) l x b : (forall x a b, step' x a b = step x a b) -> fold_build step' x l b = fold_build step x l b.
Proof. intros H. revert x b. induction l as [|a l IH]; intros x b; [done|]. cbn. unfold mbind, build_bind. rewrite H. destruct (step x a b) as [[|[]]|]; auto. Qed.

Lemma collect_clear f defs o : forall m b, collectBindOutputs (clear_flow f) defs o m b = collectBindOutputs f defs o m b.
Proof.
  induction o as [o IH] using CDSLOp_tree_ind. destruct o as [k dd st a ss cs]. cbn [m_pdrgpchild] in IH. intros m b.
  cbn [collectBindOutputs m_edslop m_pdrgpsym m_pdrgpchild].
  change (available (clear_flow f)) with (available f). change (aliases (clear_flow f)) with (aliases f).
  change (columnDerivations (clear_flow f)) with (map clear_entry (columnDerivations f)).
  apply bind_same.
  { destruct (is_op k EdslopBind); [|done]. apply bind_ext. intros out c. by rewrite in_map_clear. }
  clear m b. induction IH as [|o cs Ho _ IHcs]; intros m c; [done|]. apply bind_same; [apply Ho|exact IHcs].
Qed.

Lemma reach_clear f defs bo s : reach (clear_flow f) defs bo s <-> reach f defs bo s.
Proof.
  split.
  - induction 1 as [s Hs|k v He _ IH|k v He _ IH|k con He _ IH|d s Hd Hb _ IH Hs|d Hd Hb _ IH].
    + by apply rc_base.
    + by eapply rc_bind.
    + by eapply rc_alias.
    + cbn in He. apply list_elem_of_fmap in He as ([k' con'] & [= -> ->] & He). by eapply rc_derive.
    + by eapply rc_match.
    + by apply rc_build.
  - induction 1 as [s Hs|k v He _ IH|k v He _ IH|k con He _ IH|d s Hd Hb _ IH Hs|d Hd Hb _ IH].
    + by apply rc_base.
    + by eapply rc_bind.
    + by eapply rc_alias.
    + eapply (rc_derive _ _ _ k (clear con)); [|exact IH]. cbn. apply list_elem_of_fmap. by exists (k, con).
    + by eapply rc_match.
    + by apply rc_build.
Qed.

Lemma each_const {A A' B} (f : A -> build B) (f' : A' -> build B) (g : A -> A') l b : (forall a b, f' (g a) b = f a b) -> each (map g l) f' b = each l f b.
Proof. intros H. apply each_same. induction l; constructor; auto. Qed.

Lemma available_same avail avail' ss : (forall s, s ∈ avail <-> s ∈ avail') -> all_available avail ss = all_available avail' ss.
Proof.
  intros H. apply eq_true_iff_eq. rewrite !all_available_spec. split; intros G s Hs; apply H, G, Hs.
Qed.
Lemma flow_loop_again (HO1 HO2 : HashOrder) (HL1 : @HashOrderLaws HO1) (HL2 : @HashOrderLaws HO2) f defs bo U n avail :
  (forall s, reach f defs bo s -> s ∈ U) -> NoDup (available f) -> length U = n -> @flow_loop HO1 (S n) f defs bo (available f) = Ret avail ->
  exists avail', @flow_loop HO2 (S n) (clear_flow f) defs bo (available f) = Ret avail' /\ forall s, s ∈ avail' <-> s ∈ avail.
Proof.
  intros HU Hnd Hn H.
  destruct (@flow_loop_ret HO1 HL1 f defs bo U (S n) HU (available f) (conj Hnd (rc_base f defs bo)) ltac:(done) ltac:(lia)) as (r & Hr & Havail).
  rewrite Hr in H. injection H as ->.
  assert (HU' : forall s, reach (clear_flow f) defs bo s -> s ∈ U) by (intros s Hs; apply HU; by apply reach_clear).
  destruct (@flow_loop_ret HO2 HL2 (clear_flow f) defs bo U (S n) HU' (available f) (conj Hnd (rc_base (clear_flow f) defs bo)) ltac:(done) ltac:(lia))
    as (avail' & Hr' & Hiff).
  exists avail'. split; [done|]. intros s. by rewrite Hiff, reach_clear, Havail.
Qed.

Lemma FBuildBindings_again (HO1 HO2 : HashOrder) (HL1 : @HashOrderLaws HO1) (HL2 : @HashOrderLaws HO2) tree tree' source target n cons defs defs' b c :
  ctx_ok b -> op_all (node_ok EdslsideTarget b) target -> Forall (con_ok b) cons -> Forall (typed b) (tree_bindings tree) -> rule_defs b cons [] defs ->
  tree_bindings tree' = tree_bindings tree -> @FBuildBindings HO1 tree source target n cons defs b = Ret (inr (defs', c)) ->
  @FBuildBindings HO2 tree' source target n (map clear cons) defs b = Ret (inr (defs', c)).
Proof.
  intros Hb Ht Hcons Hty Hdefs Hbind H. unfold FBuildBindings in H |- *. rewrite Hbind. destruct (length (tree_bindings tree) =? 0); [exact H|].
  apply bind_result in H as (constructed & c0 & H0 & H).
  assert (c0 = b) as -> by (eapply each_unchanged; [|exact H0]; intros; eapply checks_mono; [apply symtab_at_checks|done]).
  rewrite (bind_run _ _ _ _ _ H0). apply bind_result in H as (b' & c' & E & H). injection E as <- <-. rewrite (bind_run _ _ b b b) by done.
  set (f0 := mkFlow _ [] [] [] []) in *. apply bind_result in H as (f1 & c' & H1 & H).
  destruct (checks_run _ _ _ _ _ (classify_all b _ cons) H1) as [-> Hf1]. rewrite (bind_run _ _ b (clear_flow f1) b).
  2: { change f0 with (clear_flow f0). rewrite (fold_clear clear_flow clear classify classify) by (intros; apply classify_clear). by rewrite H1. }
  apply bind_result in H as (f & c' & H2 & H). destruct (checks_run _ _ _ _ _ (check_columns b _ _ constructed f1 Hcons Hf1) H2) as [-> Hf].
  rewrite (bind_run _ _ b (clear_flow f) b).
  2: { change (columnChecks (clear_flow f1)) with (map clear (columnChecks f1)).
       rewrite (fold_clear clear_flow clear (check_column constructed)) by (intros; apply check_column_clear). by rewrite H2. }
  apply bind_result in H as (defs1 & c' & H3 & H). destruct (checks_run _ _ _ _ _ (build_bindings_checks f cons _ defs b Hb Hty Hdefs) H3) as [-> Hrd].
  rewrite (bind_run _ _ b defs1 b) by (rewrite (fold_ext (build_binding f)) by (intros; apply build_binding_clear); exact H3).
  apply bind_result in H as (us & c' & H4 & H).
  assert (c' = b) as -> by (eapply each_unchanged; [|exact H4]; intros d Hd; by eapply check_context_checks).
  rewrite (bind_run _ _ _ _ _ H4). apply bind_result in H as (bo & c' & H5 & H).
  destruct (checks_run _ _ _ _ _ (collect_checks f defs1 EdslsideTarget b target Ht (bind_value target) [] ltac:(done) ltac:(by intros ? ? ?%not_elem_of_nil)) H5) as [-> Hbo].
  rewrite (bind_run _ _ b bo b) by (by rewrite collect_clear). cbn beta in Hbo.
  apply bind_result in H as (avail & c' & H6 & H). apply lift_result in H6 as [H6 E]. cbn [fst snd] in H6, E. subst c'.
  destruct (flow_loop_again HO1 HO2 _ _ f defs1 bo (all_syms b) (length (src_syms b) + length (tgt_syms b)) avail) as (avail' & Hr & Hsame).
  { intros s Hs. eapply (computable_symbol b (take n (src_syms b)) cons defs1 target); [done| |done|apply Hrd|exact Ht|by eapply reach_computable].
    intros x Hx. unfold all_syms. apply elem_of_app. left. by eapply elem_of_take in Hx as (? & ? & _); eapply list_elem_of_lookup_2. }
  { apply (ff_nodup _ _ _ Hf). }
  { unfold all_syms. by rewrite length_app. }
  { exact H6. }
  rewrite (bind_run _ _ b avail' b) by (change (available (clear_flow f)) with (available f); by rewrite Hr). clear Hr.
  change (length (deferredChecks (clear_flow f))) with (length (map clear (deferredChecks f))). rewrite length_map.
  set (av := if length (deferredChecks f) =? 0 then avail else _) in H. set (av' := if length (deferredChecks f) =? 0 then avail' else _).
  assert (Hav : forall s, s ∈ av' <-> s ∈ av).
  { subst av av'. destruct (length (deferredChecks f) =? 0); [done|]. intros s. by rewrite !insert_syms_elem, Hsame. }
  apply bind_result in H as (us1 & c' & H7 & H).
  assert (c' = b) as ->.
  { eapply each_unchanged; [|exact H7]. intros con Hcon. eapply check_connected_checks; [done..|]. rewrite Forall_forall in Hcons.
    by apply Hcons, (ff_checks _ _ _ Hf). }
  rewrite (bind_run _ _ b us1 b) by (change (columnChecks (clear_flow f)) with (map clear (columnChecks f)); by rewrite (each_const (check_connected target defs1))).
  assert (Hcheck : forall (ok : CDSLConstraint -> bool) ss msg l us c', (forall con, ok (clear con) = ok con) -> (forall con, ss (clear con) = ss con) ->
    each l (check_flow av ok ss msg) b = Ret (inr (us, c')) -> c' = b /\ each (map clear l) (check_flow av' ok ss msg) b = Ret (inr (us, b))).
  { intros ok ss msg l us2 c' Hok Hss Hrun. assert (c' = b) as -> by (eapply each_unchanged; [|exact Hrun]; intros; apply check_flow_checks).
    split; [done|]. rewrite <- Hrun. apply each_const. intros con b'. unfold check_flow. by rewrite Hok, Hss, (available_same av' av). }
  apply bind_result in H as (us2 & c' & H8 & H). apply Hcheck in H8 as [-> H8]; [|done..].
  change (deferredChecks (clear_flow f)) with (map clear (deferredChecks f)). rewrite (bind_run _ _ _ _ _ H8).
  apply bind_result in H as (us3 & c' & H9 & H). apply Hcheck in H9 as [-> H9]; [|done..]. rewrite (bind_run _ _ _ _ _ H9).
  rewrite (available_same av' av) by done. exact H.
Qed.
(** ** Rules *)

Definition clear_rule (r : CDSLRule) : CDSLRule :=
  mkRule (m_pfrag_src r) (m_pfrag_tgt r) (map clear (m_pdrgpcon r)) (m_pexprdefs r) (m_pstr_verdict r) (m_sz_identity r).

Lemma name_of_lookup b n s : ctx_ok b -> symtab b !! n = Some s -> m_pstrName s = n.
Proof. intros Hb H. by apply (tab_name b n s Hb H). Qed.

Lemma names_of_lookup b ns ss : ctx_ok b -> Forall2 (fun n s => symtab b !! n = Some s) ns ss -> map m_pstrName ss = ns.
Proof. intros Hb. induction 1 as [|n s ns ss Hs _ IH]; [done|]. cbn. by rewrite IH, (name_of_lookup b n s). Qed.

(** The binding of the definition that a binding became *)
Lemma binding_of_def_same b bi d : ctx_ok b -> binding_def b bi d -> binding_of_def d = bi.
Proof.
  intros Hb Hbd. pose proof (name_of_lookup _ _ _ Hb (bd_output _ _ _ Hbd)) as Hout. pose proof (names_of_lookup _ _ _ Hb (bd_operands _ _ _ Hbd)) as Hops.
  pose proof (bd_kind _ _ _ Hbd) as Hk. destruct (decide (m_edslexpr d = EdslexprRef)) as [E|E].
  - destruct (binding_of_ref b bi d Hbd E) as (_ & x & Hx & ->). rewrite Hx in Hops. destruct bi as [call o|o call|o i]; cbn in *; [by destruct Hk..|].
    injection Hops as <-. by rewrite Hout.
  - destruct (binding_of_call b bi d Hbd E) as (n & Hn & _ & ->). rewrite Hout, Hops.
    destruct bi as [[id args] o|o [id args]|o i]; cbn in *; [destruct Hk as [_ Hk]; rewrite Hn in Hk; by injection Hk as ->..|done].
Qed.

Lemma items_parts cons defs src tgt : tree_constraints (rule_of src tgt (items_of cons defs)) = map con_of cons /\
  tree_bindings (rule_of src tgt (items_of cons defs)) = map binding_of_def (shown_definitions defs) /\
  (t_constraints (rule_of src tgt (items_of cons defs)) = None -> cons = []).
Proof.
  assert (Hd : default [] (t_constraints (rule_of src tgt (items_of cons defs))) = items_of cons defs) by (cbn; by destruct (items_of cons defs)).
  unfold tree_constraints, tree_bindings. rewrite Hd. clear Hd. unfold items_of. rewrite !omap_app. split_and!.
  - rewrite <- (app_nil_r (map con_of cons)). f_equal; [induction cons as [|con l IH]; [done|]; cbn; by f_equal|]. by induction (shown_definitions defs).
  - rewrite <- (app_nil_l (map binding_of_def _)). f_equal; [by induction cons|]. induction (shown_definitions defs) as [|d l IH]; [done|]. cbn. by f_equal.
  - by destruct cons.
Qed.

Lemma FDeclareBindings_again tree tree' source target b : tree_bindings tree' = tree_bindings tree ->
  FDeclareBindings tree' source target b = FDeclareBindings tree source target b.
Proof. intros H. unfold FDeclareBindings. by rewrite H. Qed.

Lemma parts_clear b bindings src tgt cons defs : parts b bindings src tgt cons defs -> parts b bindings src tgt (map clear cons) defs.
Proof.
  intros [H1 H2 H3 H4 (H5 & ds & H6 & H7)]. split; [done..| |split; [done|]; exists ds; by rewrite clear_legacy].
  rewrite Forall_map. eapply Forall_impl; [exact H4|]. intros con [? ? ? ?]. by split.
Qed.

Lemma item_texts_clear cons defs : item_texts (map clear cons) defs = item_texts cons defs.
Proof. unfold item_texts. by rewrite map_map. Qed.

Lemma build_rule_again (HO1 HO2 : HashOrder) (HL1 : @HashOrderLaws HO1) (HL2 : @HashOrderLaws HO2) tree verdict r b :
  tree_ok tree -> plain_op (t_source tree) = true -> plain_op (t_target tree) = true -> @build_rule HO1 tree verdict empty_ctx = Ret (inr (r, b)) ->
  built b tree verdict r -> @build_rule HO2 (rule_tree_of r) verdict empty_ctx = Ret (inr (clear_rule r, b)).
Proof.
  intros Hok Hps Hpt H Hbt. destruct (tree_plain tree Hok) as [Hpc Hpb]. pose proof (bt_parts _ _ _ _ Hbt) as Hparts.
  assert (Hbinds : tree_bindings (rule_tree_of r) = tree_bindings tree).
  { unfold rule_tree_of. rewrite (proj1 (proj2 (items_parts _ _ _ _))). destruct (pt_defs _ _ _ _ _ _ Hparts) as (_ & ds & Hds & Hbd).
    rewrite (shown_defs _ _ _ _ _ Hds Hbd). pose proof (pt_ctx _ _ _ _ _ _ Hparts) as Hb. clear -Hbd Hb.
    induction Hbd as [|bi d bs ds Hd _ IH]; [done|]. cbn. by rewrite IH, (binding_of_def_same b bi d). }
  unfold build_rule in H. apply bind_result in H as (source & b1 & R1 & H).
  destruct (keeps_run _ _ _ _ _ (PopBuild_keeps EdslsideSource (t_source tree) _ empty_ok Hps) R1) as (Hb1 & _ & _).
  apply bind_result in H as (b1' & b1'' & E & H). injection E as <- <-.
  apply bind_result in H as (target & b2 & R2 & H). destruct (keeps_run _ _ _ _ _ (PopBuild_keeps EdslsideTarget (t_target tree) b1 Hb1 Hpt) R2) as (Hb2 & G12 & Htgt).
  destruct (keeps_run _ _ _ _ _ (PopBuild_keeps EdslsideSource (t_source tree) _ empty_ok Hps) R1) as (_ & _ & Hsrc).
  assert (Hsrc2 : op_all (node_ok EdslsideSource b2) source) by (eapply op_all_mono; [|exact Hsrc]; intros o; by apply node_ok_grows).
  apply bind_result in H as ([] & b3 & R3 & H). destruct (keeps_run _ _ _ _ _ (FDeclareBindings_keeps tree source target b2 Hb2 Hsrc2 Htgt Hpb) R3) as (Hb3 & G23 & Hty).
  apply bind_result in H as (cons & b4 & R4 & H). destruct (keeps_run _ _ _ _ _ (PdrgpconBuild_keeps tree b3 Hb3 Hpc) R4) as (Hb4 & G34 & Hcons & Hval & _).
  apply bind_result in H as (defs & b4' & R5 & H). pose proof (lift_result _ _ _ R5) as [Hdefs E]. cbn in Hdefs, E. subst b4'.
  apply bind_result in H as (defs' & b5 & R6 & H). apply bind_result in H as (b5' & b5'' & E & H). injection E as <- <-.
  apply lift_result in H as [Hctor E]. cbn [fst snd] in Hctor, E. subst b5.
  assert (Hr : r = mkRule (mkFragment source (src_syms b)) (mkFragment target (tgt_syms b)) cons defs' verdict (m_sz_identity r)).
  { unfold CDSLRule_ctor in Hctor. destruct (OsPrintRule _ _ _ _) as [t|]; [|done]. cbn in Hctor. destruct (all_chars _ _); [|done]. by injection Hctor as <-. }
  destruct (items_parts cons defs' (op_of source) (op_of target)) as (Hc' & _ & Hnone).
  assert (Htree : rule_tree_of r = rule_of (op_of source) (op_of target) (items_of cons defs')) by (by rewrite Hr).
  rewrite Htree in *. unfold build_rule. cbn [rule_of t_source t_target].
  rewrite (bind_run _ _ _ _ _ (PopBuild_again _ _ _ _ _ Hps empty_ok R1)), (bind_run _ _ b1 b1 b1) by done.
  rewrite (bind_run _ _ _ _ _ (PopBuild_again _ _ _ _ _ Hpt Hb1 R2)).
  rewrite (bind_run _ _ b2 tt b3) by (by rewrite (FDeclareBindings_again tree)).
  rewrite (bind_run _ _ b3 (map clear cons) b4).
  2: { eapply (PdrgpconBuild_again HO1 HO2 _ _ tree); [done..| |exact R4]. intros Hn. by rewrite Hc', (Hnone Hn). }
  rewrite (bind_run _ _ b4 defs b4) by (by rewrite (Definitions_ctor_again HO1 HO2), Hdefs).
  rewrite (bind_run _ _ b4 defs' b).
  2: { eapply (FBuildBindings_again HO1 HO2 _ _ tree); [done| |done| | |done|exact R6].
       - eapply op_all_mono; [|exact Htgt]. intros o. apply node_ok_grows. by etrans.
       - eapply Forall_impl; [exact Hty|]. intros bi. by apply typed_grows.
       - destruct (@Definitions_ctor_ret HO1 HL1 (all_syms b4) cons (cx_ids b4 Hb4)) as (x & Hx & Hx1 & Hx2); [|done|].
         + intros con s Hin. rewrite Forall_forall in Hcons. by apply (cn_syms _ _ (Hcons con Hin)).
         + rewrite Hdefs in Hx. injection Hx as <-. split; [done|]. exists []. split; [by rewrite app_nil_r|constructor]. }
  rewrite (bind_run _ _ b b b) by done. rewrite Hr in Hparts, Hbt |- *. cbn in Hparts.
  rewrite (CDSLRule_ctor_ret _ _ _ _ _ _ _ _ _ (parts_clear _ _ _ _ _ _ Hparts)). unfold clear_rule. cbn. rewrite item_texts_clear.
  pose proof (bt_identity _ _ _ _ Hbt) as Hid. cbn in Hid. by rewrite Hid.
Qed.

(** The printed text of a rule that was parsed is parsed as the same rule. *)
Lemma parse_printed (HO1 HO2 : HashOrder) (HL1 : @HashOrderLaws HO1) (HL2 : @HashOrderLaws HO2) `{HA : Antlr} `{HAL : !AntlrLaws} text verdict r :
  @PdslruleParse HO1 HA text verdict = Ret (inr r) ->
  exists printed, OsPrint r = Ret printed /\ @PdslruleParse HO2 HA printed verdict = Ret (inr (clear_rule r)) /\
    OsPrint (clear_rule r) = Ret printed /\ m_sz_identity r = ComputeRuleIdentity printed.
Proof.
  intros H. destruct (@PdslruleParse_ret HO1 HL1 HA HAL text verdict) as (res & Hres & Hr). rewrite H in Hres. injection Hres as <-.
  destruct Hr as (tree & b & _ & Hok & Hps & Hpt & Hrun & Hbt). pose proof (bt_parts _ _ _ _ Hbt) as Hparts.
  exists (text_of (rule_pieces (op_of (m_pop_root (m_pfrag_src r))) (op_of (m_pop_root (m_pfrag_tgt r))) (item_texts (m_pdrgpcon r) (m_pexprdefs r)))).
  assert (Hprint : forall cons, parts b (tree_bindings tree) (m_pop_root (m_pfrag_src r)) (m_pop_root (m_pfrag_tgt r)) cons (m_pexprdefs r) ->
    OsPrintRule (m_pfrag_src r) (m_pfrag_tgt r) cons (m_pexprdefs r) =
    Ret (text_of (rule_pieces (op_of (m_pop_root (m_pfrag_src r))) (op_of (m_pop_root (m_pfrag_tgt r))) (item_texts cons (m_pexprdefs r))))).
  { intros cons Hp. destruct (m_pfrag_src r) as [src ss], (m_pfrag_tgt r) as [tgt ss']. by eapply OsPrintRule_text. }
  split_and!; [by apply Hprint| | |by apply Hbt].
  - destruct (parts_tree _ _ _ _ _ _ Hparts) as (Hok' & Hps' & Hpt'). pose proof (rule_pieces_parsed _ _ _ _ Hps' Hpt' (item_texts_items _ _) Hok') as Hparse.
    unfold PdslruleParse. rewrite (@parse_plain HO2 HA 1 _ _ verdict Hparse Hok' Hps' Hpt').
    change (rule_of _ _ _) with (rule_tree_of r). by rewrite (build_rule_again HO1 HO2 _ _ tree verdict r b Hok Hps Hpt Hrun Hbt).
  - unfold OsPrint. cbn. rewrite Hprint by (by apply parts_clear). by rewrite item_texts_clear.
Qed.
End RuleRoundtrip.
