(* ===== verification/RuleOrder.v ===== *)
(** * The order of hash tables

    [FValidate] and [FBuildBindings] iterate over hash tables whose keys are
    addresses. The result of parsing a text does not depend on their order. *)
From Stdlib Require Import Ascii.
From stdpp Require Import base numbers list strings gmap option pretty.
From S2P Require Import Prelude RuleEnums RuleSyntax RuleDefs RuleGraph RuleBuild RuleBindings RuleParse RuleWp RuleBuilt RuleTyped RuleFlow RuleExec RulePieces RuleLower RulePrint RuleTotal RuleRoundtrip.

Module RuleOrder.
Import RuleEnums RuleSyntax RuleDefs RuleGraph RuleBuild RuleBindings RuleParse RuleWp RuleBuilt RuleTyped RuleFlow RuleExec RulePieces RuleLower RulePrint RuleTotal RuleRoundtrip.
Open Scope nat_scope.
Open Scope list_scope.
Open Scope outcome_scope.
Implicit Types (b c : SBuildCtx) (s : CDSLSymbol).

Lemma bind_keeps {A B} (m : build A) (k k' : A -> build B) P b :
  keeps m P b -> (forall a c, ctx_ok c -> grows b c -> P a c -> k a c = k' a c) -> (m ≫= k) b = (m ≫= k') b.
Proof.
  intros (r & Hr & H) Hk. unfold mbind, build_bind. rewrite Hr. destruct r as [e|[a c]]; [done|]. destruct H as (? & ? & ?). auto.
Qed.

Lemma bind_checks {A B} (m : build A) (k k' : A -> build B) P b :
  checks m P b -> (forall a, P a -> k a b = k' a b) -> (m ≫= k) b = (m ≫= k') b.
Proof.
  intros (r & Hr & H) Hk. unfold mbind, build_bind. rewrite Hr. destruct r as [e|[a c]]; [done|]. destruct H as [-> ?]. auto.
Qed.

Section Orders.
Context (HO1 HO2 : HashOrder) (HL1 : @HashOrderLaws HO1) (HL2 : @HashOrderLaws HO2).

Lemma FValidate_order cons : @FValidate HO1 cons = @FValidate HO2 cons.
Proof.
  destruct (@FValidate_ret HO1 HL1 cons) as (v1 & -> & H1), (@FValidate_ret HO2 HL2 cons) as (v2 & -> & H2). f_equal. apply eq_true_iff_eq. by rewrite H1, H2.
Qed.

Lemma PdrgpconBuild_order tree b : @PdrgpconBuild HO1 tree b = @PdrgpconBuild HO2 tree b.
Proof.
  unfold PdrgpconBuild. apply bind_ext. intros us c. apply bind_ext. intros cons d. destruct (t_constraints tree); [|done]. by rewrite FValidate_order.
Qed.

Lemma Definitions_ctor_order cons : @Definitions_ctor HO1 cons = @Definitions_ctor HO2 cons.
Proof. unfold Definitions_ctor. by rewrite FValidate_order. Qed.

(** Two orders give sets with the same members. *)
Lemma flow_loop_order f defs bo U n :
  (forall s, reach f defs bo s -> s ∈ U) -> NoDup (available f) -> length U = n ->
  exists a1 a2, @flow_loop HO1 (S n) f defs bo (available f) = Ret a1 /\ @flow_loop HO2 (S n) f defs bo (available f) = Ret a2 /\ forall s, s ∈ a1 <-> s ∈ a2.
Proof.
  intros HU Hnd Hn.
  destruct (@flow_loop_ret HO1 HL1 f defs bo U (S n) HU (available f) (conj Hnd (rc_base f defs bo)) ltac:(done) ltac:(lia)) as (a1 & H1 & E1).
  destruct (@flow_loop_ret HO2 HL2 f defs bo U (S n) HU (available f) (conj Hnd (rc_base f defs bo)) ltac:(done) ltac:(lia)) as (a2 & H2 & E2).
  exists a1, a2. split_and!; [done..|]. intros s. by rewrite E1, E2.
Qed.

Lemma each_ext {A B} (f f' : A -> build B) l b : (forall a b, f a b = f' a b) -> each l f b = each l f' b.
Proof. intros H. apply each_same. induction l; constructor; auto. Qed.

Lemma FBuildBindings_order tree source target n cons defs b :
  ctx_ok b -> op_all (node_ok EdslsideTarget b) target -> Forall (con_ok b) cons -> Forall (typed b) (tree_bindings tree) -> rule_defs b cons [] defs ->
  @FBuildBindings HO1 tree source target n cons defs b = @FBuildBindings HO2 tree source target n cons defs b.
Proof.
  intros Hb Ht Hcons Hty Hdefs. unfold FBuildBindings. destruct (length (tree_bindings tree) =? 0); [done|].
  eapply bind_checks; [apply checks_all; intros; eapply checks_mono; [apply symtab_at_checks|done]|]. intros constructed _.
  eapply (bind_checks _ _ _ (fun x => x = b)); [by apply returns_ret|]. intros ? ->.
  eapply bind_checks; [apply classify_all|]. intros f1 Hf1. eapply bind_checks; [by apply check_columns|]. intros f Hf.
  eapply bind_checks; [by apply build_bindings_checks|]. intros defs' Hrd.
  eapply bind_checks; [apply checks_all; intros d Hd; by eapply check_context_checks|]. intros _ _.
  eapply bind_checks; [apply (collect_checks f defs' EdslsideTarget b target Ht (bind_value target)); [done|]; by intros ? ? ?%not_elem_of_nil|].
  intros bo Hbo. cbn beta in Hbo.
  destruct (flow_loop_order f defs' bo (all_syms b) (length (src_syms b) + length (tgt_syms b))) as (a1 & a2 & E1 & E2 & Hsame).
  { intros s Hs. eapply (computable_symbol b (take n (src_syms b)) cons defs' target); [done| |done|apply Hrd|exact Ht|by eapply reach_computable].
    intros x Hx. unfold all_syms. apply elem_of_app. left. by eapply elem_of_take in Hx as (? & ? & _); eapply list_elem_of_lookup_2. }
  { apply (ff_nodup _ _ _ Hf). }
  { unfold all_syms. by rewrite length_app. }
  rewrite (bind_run (lift (@flow_loop HO1 _ _ _ _ _)) _ b a1 b) by (by rewrite E1). rewrite (bind_run (lift (@flow_loop HO2 _ _ _ _ _)) _ b a2 b) by (by rewrite E2).
  set (av1 := if length (deferredChecks f) =? 0 then a1 else _). set (av2 := if length (deferredChecks f) =? 0 then a2 else _).
  assert (Hav : forall s, s ∈ av1 <-> s ∈ av2).
  { subst av1 av2. destruct (length (deferredChecks f) =? 0); [done|]. intros s. by rewrite !insert_syms_elem, Hsame. }
  assert (Hflow : forall ok ss msg con b, check_flow av1 ok ss msg con b = check_flow av2 ok ss msg con b).
  { intros. unfold check_flow. by rewrite (available_same av1 av2). }
  apply bind_same; [done|]. intros _ c1. apply bind_same; [apply each_ext; auto|]. intros _ c2. apply bind_same; [apply each_ext; auto|]. intros _ c3.
  by rewrite (available_same av1 av2).
Qed.

Lemma build_rule_order tree verdict : tree_ok tree -> plain_op (t_source tree) = true -> plain_op (t_target tree) = true ->
  @build_rule HO1 tree verdict empty_ctx = @build_rule HO2 tree verdict empty_ctx.
Proof.
  intros Hok Hs Ht. destruct (tree_plain tree Hok) as [Hpc Hpb]. unfold build_rule.
  eapply bind_keeps; [apply PopBuild_keeps; [apply empty_ok|done]|]. intros source b1 Hb1 _ Hsrc. cbn beta in Hsrc.
  eapply (bind_checks _ _ _ (fun x => x = b1)); [by apply returns_ret|]. intros ? ->.
  eapply bind_keeps; [by apply PopBuild_keeps|]. intros target b2 Hb2 G12 Htgt. cbn beta in Htgt.
  assert (Hsrc2 : op_all (node_ok EdslsideSource b2) source) by (eapply op_all_mono; [|exact Hsrc]; intros o; by apply node_ok_grows).
  eapply bind_keeps; [by apply FDeclareBindings_keeps|]. intros [] b3 Hb3 G23 Hty. cbn beta in Hty.
  etrans; [apply bind_same; [apply PdrgpconBuild_order|reflexivity]|].
  eapply bind_keeps; [by apply PdrgpconBuild_keeps|]. intros cons b4 Hb4 G34 (Hcons & Hval & _). rewrite Definitions_ctor_order.
  destruct (@Definitions_ctor_ret HO2 HL2 (all_syms b4) cons (cx_ids b4 Hb4)) as (defs & Hdefs & Hd1 & Hd2); [|done|].
  { intros con s Hin. rewrite Forall_forall in Hcons. by apply (cn_syms _ _ (Hcons con Hin)). }
  rewrite !(bind_run (lift (@Definitions_ctor HO2 cons)) _ b4 defs b4) by (by rewrite Hdefs).
  apply bind_same; [|done]. apply FBuildBindings_order; [done| |done| |].
  - eapply op_all_mono; [|exact Htgt]. intros o. apply node_ok_grows. by etrans.
  - eapply Forall_impl; [exact Hty|]. intros bi. by apply typed_grows.
  - split; [done|]. exists []. split; [by rewrite app_nil_r|constructor].
Qed.

Context `{HA : Antlr} `{HAL : !AntlrLaws}.

Lemma parse_order text verdict : @PdslruleParse HO1 HA text verdict = @PdslruleParse HO2 HA text verdict.
Proof.
  unfold PdslruleParse. destruct (antlr_rule text) as [tree|] eqn:Et; [|by cbn [PdslruleParse_n]; rewrite Et].
  pose proof (antlr_tree_ok _ _ Et) as Hok. destruct (lower_rule_ret tree Hok) as (r & Hr & src & tgt & bs & bs' & Hlow & E).
  pose proof (lr_plain _ _ _ _ _ Hlow) as [Hps Hpt]. destruct (bs ++ bs') as [|b0 l0] eqn:Ebs.
  - apply app_eq_nil in Ebs as [-> ->]. pose proof (toks_plain_op _ _ _ (lr_source _ _ _ _ _ Hlow) Hps) as Hs.
    pose proof (toks_plain_op _ _ _ (lr_target _ _ _ _ _ Hlow) Hpt) as Ht.
    rewrite (@parse_plain HO1 HA 1 text tree), (@parse_plain HO2 HA 1 text tree) by done. by rewrite build_rule_order.
  - pose proof (lr_tree _ _ _ _ _ Hlow) as Hok'. pose proof (rule_pieces_parsed _ _ _ _ Hps Hpt (lowered_texts_items bs bs' tree) Hok') as Hparse.
    assert (Hstep : forall HO, @PdslruleParse_n HO HA 2 text verdict = @PdslruleParse_n HO HA 1 (text_of (rule_pieces src tgt (lowered_texts bs bs' tree))) verdict).
    { intros HO. cbn [PdslruleParse_n]. by rewrite Et, Hr, E. }
    rewrite !Hstep, (@parse_plain HO1 HA 0 _ _ verdict Hparse Hok' Hps Hpt), (@parse_plain HO2 HA 0 _ _ verdict Hparse Hok' Hps Hpt). by rewrite build_rule_order.
Qed.
End Orders.
End RuleOrder.
