(* ===== verification/RuleProps.v ===== *)
(** * Properties of the rewrite rule language

    The theorems about parsing, building, printing and checking rules
    (CDSLRuleParser.cpp, CDSLRule.cpp, CDSLExpressionDefinitions.cpp under
    libgpopt/src/dsl), with the examples that apply them. The generated parser and
    the order of the hash tables are parameters (classes [Antlr] and [HashOrder]);
    the examples use the parser of RuleGrammar.v and two different orders. *)
From Stdlib Require Import Ascii.
From stdpp Require Import base numbers list strings gmap option pretty.
From S2P Require Import Prelude RuleEnums RuleSyntax RuleGrammar RuleDefs RuleGraph RuleBuild RuleBindings RuleParse RuleWp RuleBuilt RuleTyped RuleFlow RuleExec RulePieces RuleLower RulePrint RuleTotal RuleRoundtrip RuleOrder.

Module RuleProps.
Import RuleEnums RuleSyntax RuleGrammar RuleDefs RuleGraph RuleBuild RuleBindings RuleParse RuleWp RuleBuilt RuleTyped RuleFlow RuleExec RulePieces RuleLower RulePrint RuleTotal RuleRoundtrip RuleOrder.
Open Scope string_scope.
Open Scope nat_scope.
Open Scope list_scope.
Open Scope outcome_scope.
Implicit Types (r : CDSLRule) (s : CDSLSymbol) (d : CDefinition) (o : CDSLOp) (con : CDSLConstraint).

#[local] Opaque ComputeRuleIdentity.

(** ** Well-formed rules *)

Definition rule_syms r : list CDSLSymbol := m_frag_syms (m_pfrag_src r) ++ m_frag_syms (m_pfrag_tgt r).
Definition rule_source r : CDSLOp := m_pop_root (m_pfrag_src r).
Definition rule_target r : CDSLOp := m_pop_root (m_pfrag_tgt r).

(** An operator over the symbols of its fragment: the table of operators gives the
    number of its children, and its layout the number, the kinds and the initial
    letters of its symbols. *)
Record op_wf (syms : list CDSLSymbol) o : Prop := {
  ow_kind : m_edslop o <> EdslopSentinel;
  ow_children : UlChildren (m_edslop o) = Ret (length (m_pdrgpchild o));
  ow_count : UlSyms (m_edslop o) = Ret (length (m_pdrgpsym o)) \/ accepted_count (m_edslop o) (length (m_pdrgpsym o)) = true;
  ow_symbols i s : m_pdrgpsym o !! i = Some s ->
    s ∈ syms /\ symbol_kind (m_edslop o) (m_edslsort o) (length (m_pdrgpsym o)) i = Ret (m_esymk s) /\
    valid_name (m_edslop o) (length (m_pdrgpsym o)) i (m_pstrName s) = true;
}.

Record con_wf (syms : list CDSLSymbol) con : Prop := {
  cw_kind : m_edslcon con <> EdslconSentinel;
  cw_arity : UlArity (m_edslcon con) = Ret (length (m_con_syms con));
  cw_symbols s : s ∈ m_con_syms con -> s ∈ syms;
  cw_types : check_kinds (m_edslcon con) (map m_esymk (m_con_syms con)) = Ret None;
}.

Record rule_wf r : Prop := {
  rw_names : NoDup (map m_pstrName (rule_syms r));
  rw_ids : NoDup (map m_id (rule_syms r));
  rw_kinds s : s ∈ rule_syms r -> m_esymk s <> EdslsymSentinel;
  rw_side_src s : s ∈ m_frag_syms (m_pfrag_src r) -> m_eside s = EdslsideSource;
  rw_side_tgt s : s ∈ m_frag_syms (m_pfrag_tgt r) -> m_eside s = EdslsideTarget;
  rw_source o : o ∈ subops (rule_source r) -> op_wf (m_frag_syms (m_pfrag_src r)) o /\ m_edslop o <> EdslopBind;
  rw_target o : o ∈ subops (rule_target r) -> op_wf (m_frag_syms (m_pfrag_tgt r)) o;
  rw_cons con : con ∈ m_pdrgpcon r -> con_wf (rule_syms r) con;
  rw_valid : valid_definitions (m_pdrgpcon r);
  rw_defs : defs_ok (rule_syms r) (m_pexprdefs r);
  rw_typed : exists ds, m_pdrgpdefDefinitions (m_pexprdefs r) = omap legacy_def (m_pdrgpcon r) ++ ds /\
    forall d, d ∈ ds -> binding_shape (m_edslexpr d) (m_binding d) (m_psymOutput d :: m_operands d) = true /\
      well_typed (m_edslexpr d) (m_psymOutput d :: m_operands d);
}.

Lemma node_wf eside b o : node_ok eside b o -> op_wf (side_syms eside b) o.
Proof.
  intros [H1 H2 H3 H4 H5 H6 _ _]. split; [done..| |intros i s Hi; split_and!; eauto]. unfold layout_ok in H3. apply orb_prop in H3 as [H3|]; [left|by right].
  destruct (UlSyms _) as [m|]; [|done]. cbn in H3. by apply Nat.eqb_eq in H3 as ->.
Qed.

Lemma built_wf b tree verdict r : built b tree verdict r -> rule_wf r.
Proof.
  intros [[Hctx Hsrc Htgt Hcons [Hdefs (ds & Hds & Hbd)]] Hss Hst Hval _ _ _].
  assert (Hall : rule_syms r = all_syms b) by (unfold rule_syms; by rewrite Hss, Hst).
  split; rewrite ?Hall, ?Hss, ?Hst; try done.
  - apply NoDup_fmap_2_strong; [|apply Hctx]. intros x y Hx Hy Hn. apply (inj Some).
    rewrite <- (proj2 (cx_tab b Hctx (m_pstrName x) x)), <- (proj2 (cx_tab b Hctx (m_pstrName x) y)); done.
  - apply NoDup_fmap_2_strong; [|apply Hctx]. by apply (cx_ids b Hctx).
  - by apply (cx_kind b Hctx).
  - apply (cx_side b Hctx EdslsideSource).
  - apply (cx_side b Hctx EdslsideTarget).
  - intros o Ho. pose proof (proj1 (op_all_subops _ _) Hsrc o Ho) as Hn. split; [by apply node_wf in Hn|]. intros E. by apply (nd_bind _ _ _ Hn) in E.
  - intros o Ho. pose proof (proj1 (op_all_subops _ _) Htgt o Ho) as Hn. by apply node_wf in Hn.
  - intros con Hc. rewrite Forall_forall in Hcons. by destruct (Hcons con Hc).
  - exists ds. split; [done|]. intros d (i & Hi)%list_elem_of_lookup. eapply Forall2_lookup_r in Hbd as (bi & _ & [? ? ? ? ? ?]); [|exact Hi]. done.
Qed.

Lemma bindings_of_rule b tree verdict r : built b tree verdict r -> FHasBindings (m_pexprdefs r) = true -> tree_bindings tree <> [].
Proof.
  intros [[_ _ _ _ Hrd] _ _ _ _ _ _] H Hnil. unfold FHasBindings in H. apply existsb_exists in H as (d & Hd%list_elem_of_In & Hb).
  apply negb_true_iff, bool_decide_eq_false in Hb. destruct (rule_defs_elem _ _ _ _ _ Hrd Hd Hb) as (bi & Hbi & _). rewrite Hnil in Hbi. by apply not_elem_of_nil in Hbi.
Qed.

Lemma parse_message `{HashOrder} `{Antlr} n text verdict msg : PdslruleParse_n n text verdict = Ret (inl msg) -> msg <> "".
Proof.
  revert text. induction n as [|n IH]; intros text; [done|]. cbn [PdslruleParse_n]. destruct (antlr_rule text) as [tree|]; [|by intros [= <-]].
  destruct (lower_rule tree) as [[text'|]|f]; [apply IH| |done]. cbn. destruct (build_rule tree verdict empty_ctx) as [[e|[r c]]|f]; [|done..]. cbn.
  destruct (String.eqb e "") eqn:E; intros [= <-]; [done|]. by apply String.eqb_neq.
Qed.

Lemma parse_lowered `{HashOrder} `{Antlr} n text tree text' verdict : antlr_rule text = Some tree -> lower_rule tree = Ret (Some text') ->
  PdslruleParse_n (S n) text verdict = PdslruleParse_n n text' verdict.
Proof. intros Ht Hl. cbn [PdslruleParse_n]. by rewrite Ht, Hl. Qed.

(** ** The parser *)

Section Parser.
Context `{HO : HashOrder} `{HL : !HashOrderLaws} `{HA : Antlr} `{HAL : !AntlrLaws}.

(** C15: [PdslruleParse] returns for every text: no array is read out of bounds, no
    assertion fails, the lookup of the name of a fresh symbol ends, and the text
    that replaces inline terms is parsed without a further replacement. It returns
    either a message, which is not empty, or a rule with the given verdict, whose
    identity is the hash of its printed text. *)
Theorem parse_returns (text : string) (verdict : option string) :
  PdslruleParse text verdict ⤳ (fun res => match res with
    | inl msg => msg <> ""
    | inr r => is_Some (antlr_rule text) /\ m_pstr_verdict r = verdict /\
        OsPrint r ⤳ (fun printed => m_sz_identity r = ComputeRuleIdentity printed)
    end).
Proof.
  destruct (PdslruleParse_ret text verdict) as (res & Hres & H). exists res. split; [done|]. destruct res as [msg|r]; [by eapply parse_message|].
  destruct H as (tree & b & (tree0 & ? & ? & ? & ? & Ha & _) & _ & _ & _ & _ & Hbt). split_and!; [by eexists|apply Hbt|].
  pose proof (bt_parts _ _ _ _ Hbt) as Hp. pose proof (bt_identity _ _ _ _ Hbt) as Hid. unfold OsPrint.
  destruct (m_pfrag_src r), (m_pfrag_tgt r). rewrite (OsPrintRule_text _ _ _ _ _ _ _ _ Hp). by apply returns_ret.
Qed.

(** C19: A rule that the parser accepts is well formed. Names and ids of symbols are
    unique; every symbol has a kind and the side of its fragment; every operator
    has the children and the symbols that its layout asks for, of the right kinds;
    every constraint has the arity of its kind and symbols of the rule with
    admitted kinds; the definitions of constraints are unique and acyclic, and
    those of bindings typed; the index of the definitions finds them. *)
Theorem parsed_rule_well_formed (text : string) (verdict : option string) (r : CDSLRule) :
  PdslruleParse text verdict = Ret (inr r) -> rule_wf r.
Proof.
  intros H. destruct (PdslruleParse_ret text verdict) as (res & Hres & Hr). rewrite H in Hres. injection Hres as <-.
  destruct Hr as (tree & b & _ & _ & _ & _ & _ & Hbt). by eapply built_wf.
Qed.

(** C8: A rule with bindings that the parser accepts can be executed: every symbol is
    computed from the symbols of the source pattern, by equalities and metadata
    constraints, by taking matched values apart, by constructing values and by the
    outputs of [Bind] operators, without a circle; except for symbols of the target
    of a rule with a constraint whose check computes values. *)
Theorem parsed_rule_executable (text : string) (verdict : option string) (r : CDSLRule) :
  PdslruleParse text verdict = Ret (inr r) -> FHasBindings (m_pexprdefs r) = true ->
  forall s, s ∈ rule_syms r ->
    computable (op_symbols (rule_source r)) (m_pdrgpcon r) (m_pexprdefs r) (rule_target r) s \/
    (m_eside s = EdslsideTarget /\ exists con, con ∈ m_pdrgpcon r /\ FDeferredSemanticConstraint (m_edslcon con) = true).
Proof.
  intros H Hb s Hs. destruct (PdslruleParse_ret text verdict) as (res & Hres & Hr). rewrite H in Hres. injection Hres as <-.
  destruct Hr as (tree & b & _ & _ & _ & _ & _ & Hbt). apply (bt_exec _ _ _ _ Hbt); [by eapply bindings_of_rule|].
  unfold rule_syms in Hs. by rewrite (bt_source _ _ _ _ Hbt), (bt_target _ _ _ _ Hbt) in Hs.
Qed.

(** C24: Inline terms are shorthand. For a rule with inline terms [lower_rule] gives a
    text of the same rule in which every call is replaced by a name that occurs
    nowhere in the rule and is different from the other ones, and bound to the
    call, outermost call first on the source side and last on the target side. The
    text is parsed as that rule, and parsing the original gives what parsing the
    text gives. A rule with only names in its operators is not rewritten. *)
Theorem inline_terms_lowered (text : string) (tree : rule_tree) (verdict : option string) :
  antlr_rule text = Some tree ->
  lower_rule tree ⤳ (fun lowered => match lowered with
    | None => plain_op (t_source tree) = true /\ plain_op (t_target tree) = true
    | Some text' => exists src tgt bs bs', lowered_rule tree src tgt bs bs' /\ bs ++ bs' <> [] /\
        antlr_rule text' = Some (rule_of src tgt (lowered_items bs bs' tree)) /\
        PdslruleParse text verdict = PdslruleParse text' verdict
    end).
Proof.
  intros Ht. pose proof (antlr_tree_ok _ _ Ht) as Hok. destruct (lower_rule_ret tree Hok) as (low & Hlow & src & tgt & bs & bs' & Hl & E).
  exists low. split; [done|]. pose proof (lr_plain _ _ _ _ _ Hl) as [Hps Hpt]. destruct (bs ++ bs') as [|b0 l] eqn:Ebs; subst low.
  - apply app_eq_nil in Ebs as [-> ->]. split; [by eapply toks_plain_op; [apply Hl|]|by eapply toks_plain_op; [apply Hl|]].
  - exists src, tgt, bs, bs'. pose proof (lr_tree _ _ _ _ _ Hl) as Hok'.
    pose proof (rule_pieces_parsed _ _ _ _ Hps Hpt (lowered_texts_items bs bs' tree) Hok') as Hp. split_and!; [done|by rewrite Ebs|done|].
    unfold PdslruleParse. rewrite (parse_plain 1 _ _ verdict Hp Hok' Hps Hpt), <- (parse_plain 0 _ _ verdict Hp Hok' Hps Hpt).
    by apply parse_lowered with tree.
Qed.
End Parser.

(** ** Printing, and the order of hash tables *)

Section Orders.
Context (HO1 HO2 : HashOrder) (HL1 : @HashOrderLaws HO1) (HL2 : @HashOrderLaws HO2) `{HA : Antlr} `{HAL : !AntlrLaws}.

(** C5: Printing and parsing are inverse. A rule that was parsed prints, and the
    printed text is parsed, also where hash tables have another order, as the rule
    with the same fragments, definitions, verdict and identity, which prints in the
    same way; its constraints are those of the rule, with the mark of a surface
    equality cleared. The identity of the rule is the hash of the text. *)
Theorem print_parse_roundtrip (text : string) (verdict : option string) (r : CDSLRule) :
  @PdslruleParse HO1 HA text verdict = Ret (inr r) ->
  exists printed, OsPrint r = Ret printed /\ @PdslruleParse HO2 HA printed verdict = Ret (inr (clear_rule r)) /\
    OsPrint (clear_rule r) = Ret printed /\ m_sz_identity r = ComputeRuleIdentity printed.
Proof. by apply parse_printed. Qed.

(** C32: The rule or the message of a text does not depend on the order in which
    the hash tables of symbols are traversed: the checks for cycles, the data flow
    and the order of the definitions are the same for any two orders. *)
Theorem parse_order_independent (text : string) (verdict : option string) :
  @PdslruleParse HO1 HA text verdict = @PdslruleParse HO2 HA text verdict.
Proof. by apply parse_order. Qed.
End Orders.

(** ** Definitions *)

(** C29: [FValidate] accepts constraints exactly if no symbol is defined twice and no
    definition leads back to itself, for every order of the hash table. If it does,
    the constructor of the definitions returns them in the order of the
    constraints, indexed by the ids of their outputs and without cycle, and
    [FUses] then decides whether a symbol is defined through another one. *)
Theorem definitions_validated `{HO : HashOrder} `{HL : !HashOrderLaws} (U : list CDSLSymbol) (cons : list CDSLConstraint) :
  (forall x y, x ∈ U -> y ∈ U -> m_id x = m_id y -> x = y) -> (forall con s, con ∈ cons -> s ∈ m_con_syms con -> s ∈ U) ->
  FValidate cons ⤳ (fun ok => (ok = true <-> valid_definitions cons) /\
    (ok = true -> Definitions_ctor cons ⤳ (fun defs => defs_ok U defs /\ m_pdrgpdefDefinitions defs = omap legacy_def cons /\
      forall x y, x ∈ U -> FUses defs x y ⤳ (fun b => b = true <-> rtc (uses defs) x y)))).
Proof.
  intros Hids Hsyms. eapply returns_mono; [apply FValidate_ret|]. intros ok Hok. split; [done|]. intros Hv%Hok.
  eapply returns_mono; [by apply (Definitions_ctor_ret U)|]. intros defs [Hd Hl]. split_and!; [done..|]. intros x y Hx.
  apply (FUses_ret U); [apply Hd|done].
Qed.

(** C27: [FAppendBinding] accepts a definition exactly if it has the shape of its
    kind, a signature or a reference gives its symbols their kinds, and its output
    has no definition yet and is not used by one of the operands. It then appends
    the definition, and the index stays correct and acyclic; otherwise nothing
    changes. *)
Theorem append_binding_exact (U : list CDSLSymbol) (defs : CDSLExpressionDefinitions) (kind : EDslExpressionKind)
    (binding : EBinding) (symbols : list CDSLSymbol) :
  defs_ok U defs -> (forall s, s ∈ symbols -> s ∈ U) ->
  FAppendBinding defs kind binding symbols ⤳ (fun res =>
    (res.1 = true <-> binding_shape kind binding symbols = true /\ well_typed kind symbols /\
      exists out ops, symbols = out :: ops /\ new_output defs out ops) /\
    if res.1 then defs_ok U res.2 /\ exists out ops, symbols = out :: ops /\
      m_pdrgpdefDefinitions res.2 = m_pdrgpdefDefinitions defs ++ [mkDef kind binding out ops]
    else res.2 = defs).
Proof.
  intros Hd Hs. destruct (FAppendBinding_ret U defs kind binding symbols Hd Hs) as (res & Hres & H). exists res. split; [done|].
  assert (Hcomp : binding_shape kind binding symbols = true -> well_typed kind symbols ->
      (exists out ops, symbols = out :: ops /\ new_output defs out ops) -> res.1 = true).
  { intros Hsh Hwt (out & ops & -> & Hn). destruct (FAppendBinding_complete U defs kind binding out ops) as (res' & Hres' & H'); [done..|].
    rewrite Hres in Hres'. by injection Hres' as <-. }
  destruct res as [[] defs']; cbn [fst snd] in *.
  - destruct H as (H1 & H2 & H3 & out & ops & -> & H4 & H5). split; [|by eauto]. split; [|done]. intros _. split_and!; [done..|]. by exists out, ops.
  - split; [|done]. split; [done|]. intros (H1 & H2 & H3). by apply Hcomp.
Qed.

(** ** Examples *)

Definition insertion_order : HashOrder := fun _ l => l.
Definition reversed_order : HashOrder := fun _ l => reverse l.

Lemma insertion_order_laws : @HashOrderLaws insertion_order.
Proof. by intros A l. Qed.

Lemma reversed_order_laws : @HashOrderLaws reversed_order.
Proof. intros A l. apply reverse_Permutation. Qed.

#[local] Existing Instances insertion_order insertion_order_laws.

(** Two projections become one; the columns are concatenated. *)
Definition merge_text : string :=
  "Compute<e0 a0 s0>(Compute<e1 a1 s1>(Input<t0>))|Compute<ExprConcat(e1,e0) a2 s2>(Input<t1>)|t1 := t0;DepsDisjoint(e0,s1);AttrsUnion(a2,a0,a1);SchemaUnion(s2,s1,s0);ErrorFree(e1);Deterministic(e0);Deterministic(e1)".

(** The parse tree of a text that has one *)
Definition tree_in_text (text : string) : rule_tree :=
  default (mkTree (Op "" false None []) (Op "" false None []) false None) (antlr_rule text).

(** The rule that a text is parsed as; the rule is unused if it is not *)
Definition rule_in_text (text : string) : CDSLRule :=
  match PdslruleParse text None with
  | Ret (inr r) => r
  | _ => let o := mkOp EdslopInput false EdslsortAsc EdslaggfuncUnknown [] [] in
         mkRule (mkFragment o []) (mkFragment o []) [] (mkDefs [] []) None ""
  end.

Lemma merge_parsed : PdslruleParse merge_text None = Ret (inr (rule_in_text merge_text)).
Proof. vm_compute. reflexivity. Qed.

Lemma parse_returns_witness :
  PdslruleParse merge_text (Some "EQ") ⤳ (fun res => match res with
    | inl msg => msg <> ""
    | inr r => is_Some (antlr_rule merge_text) /\ m_pstr_verdict r = Some "EQ" /\
        OsPrint r ⤳ (fun printed => m_sz_identity r = ComputeRuleIdentity printed)
    end).
Proof. apply (parse_returns merge_text (Some "EQ")). Defined.

Lemma parsed_rule_well_formed_witness : length (rule_syms (rule_in_text merge_text)) = 11 /\ rule_wf (rule_in_text merge_text).
Proof. split; [vm_compute; reflexivity|]. apply (parsed_rule_well_formed merge_text None). exact merge_parsed. Defined.

Lemma parsed_rule_executable_witness :
  FHasBindings (m_pexprdefs (rule_in_text merge_text)) = true /\
  forall s, s ∈ rule_syms (rule_in_text merge_text) ->
    computable (op_symbols (rule_source (rule_in_text merge_text))) (m_pdrgpcon (rule_in_text merge_text))
      (m_pexprdefs (rule_in_text merge_text)) (rule_target (rule_in_text merge_text)) s \/
    (m_eside s = EdslsideTarget /\ exists con, con ∈ m_pdrgpcon (rule_in_text merge_text) /\ FDeferredSemanticConstraint (m_edslcon con) = true).
Proof. split; [vm_compute; reflexivity|]. apply (parsed_rule_executable merge_text None); [exact merge_parsed|vm_compute; reflexivity]. Defined.

(** The second alternative does not occur in this rule. *)
Example merge_no_deferred : forallb (fun con => negb (FDeferredSemanticConstraint (m_edslcon con))) (m_pdrgpcon (rule_in_text merge_text)) = true.
Proof. vm_compute. reflexivity. Qed.

Lemma inline_terms_lowered_witness :
  lower_rule (tree_in_text merge_text) ⤳ (fun lowered => match lowered with
    | None => plain_op (t_source (tree_in_text merge_text)) = true /\ plain_op (t_target (tree_in_text merge_text)) = true
    | Some text' => exists src tgt bs bs', lowered_rule (tree_in_text merge_text) src tgt bs bs' /\ bs ++ bs' <> [] /\
        antlr_rule text' = Some (rule_of src tgt (lowered_items bs bs' (tree_in_text merge_text))) /\
        PdslruleParse merge_text None = PdslruleParse text' None
    end).
Proof. apply (inline_terms_lowered merge_text). vm_compute. reflexivity. Defined.

Example merge_lowered : lower_rule (tree_in_text merge_text) = Ret (Some
  "Compute<e0 a0 s0>(Compute<e1 a1 s1>(Input<t0>))|Compute<p0 a2 s2>(Input<t1>)|t1:=t0;DepsDisjoint(e0,s1);AttrsUnion(a2,a0,a1);SchemaUnion(s2,s1,s0);ErrorFree(e1);Deterministic(e0);Deterministic(e1);p0 := ExprConcat(e1,e0)").
Proof. vm_compute. reflexivity. Qed.

Lemma print_parse_roundtrip_witness :
  exists printed, OsPrint (rule_in_text merge_text) = Ret printed /\
    @PdslruleParse reversed_order GrammarParser printed None = Ret (inr (clear_rule (rule_in_text merge_text))) /\
    OsPrint (clear_rule (rule_in_text merge_text)) = Ret printed /\ m_sz_identity (rule_in_text merge_text) = ComputeRuleIdentity printed.
Proof. apply (print_parse_roundtrip insertion_order reversed_order insertion_order_laws reversed_order_laws merge_text None). exact merge_parsed. Defined.

Lemma parse_order_independent_witness :
  @PdslruleParse insertion_order GrammarParser merge_text None = @PdslruleParse reversed_order GrammarParser merge_text None.
Proof. apply (parse_order_independent insertion_order reversed_order insertion_order_laws reversed_order_laws merge_text None). Defined.

(** Three predicates, their conjunction and its negation *)
Definition pred (i : nat) : CDSLSymbol := mkSym EdslsymPred ("p" +:+ pretty i) i (if i <? 2 then EdslsideSource else EdslsideTarget).
Definition preds : list CDSLSymbol := map pred [0; 1; 2; 3].
Definition and_not : list CDSLConstraint :=
  [mkConstraint EdslconPredicateNot false [pred 3; pred 2]; mkConstraint EdslconPredicateAnd false [pred 2; pred 0; pred 1]].

Lemma preds_ids x y : x ∈ preds -> y ∈ preds -> m_id x = m_id y -> x = y.
Proof. intros (i & -> & _)%list_elem_of_fmap (j & -> & _)%list_elem_of_fmap. cbn. by intros ->. Qed.

Lemma no_defs_ok : defs_ok preds (mkDefs [] []).
Proof.
  assert (Hno : forall x y, ~ uses (mkDefs [] []) x y) by (intros x y (d & Hd & _); unfold Pdef in Hd; cbn in Hd; by rewrite lookup_nil in Hd).
  split; [split|constructor|]; cbn.
  - apply preds_ids.
  - intros i d. cbn. rewrite lookup_nil. split; [done|]. by intros [?%not_elem_of_nil _].
  - by intros d ?%not_elem_of_nil.
  - by intros d y ?%not_elem_of_nil.
  - intros x Hx. by inversion Hx; eapply Hno.
Qed.

Lemma definitions_validated_witness :
  FValidate and_not = Ret true /\
  FValidate and_not ⤳ (fun ok => (ok = true <-> valid_definitions and_not) /\
    (ok = true -> Definitions_ctor and_not ⤳ (fun defs => defs_ok preds defs /\ m_pdrgpdefDefinitions defs = omap legacy_def and_not /\
      forall x y, x ∈ preds -> FUses defs x y ⤳ (fun b => b = true <-> rtc (uses defs) x y)))).
Proof.
  split; [vm_compute; reflexivity|]. apply (definitions_validated preds and_not preds_ids).
  intros con s Hc Hs. unfold and_not in Hc. repeat (apply elem_of_cons in Hc as [->|Hc]); [..|by apply not_elem_of_nil in Hc];
    cbn in Hs; unfold preds; set_solver.
Defined.

(** A cycle is found. *)
Example cycle_rejected : FValidate (mkConstraint EdslconPredicateNot false [pred 0; pred 3] :: and_not) = Ret false.
Proof. vm_compute. reflexivity. Qed.

Lemma append_binding_exact_witness :
  FAppendBinding (mkDefs [] []) EdslexprAnd EBuild [pred 2; pred 0; pred 1] ⤳ (fun res =>
    (res.1 = true <-> binding_shape EdslexprAnd EBuild [pred 2; pred 0; pred 1] = true /\ well_typed EdslexprAnd [pred 2; pred 0; pred 1] /\
      exists out ops, [pred 2; pred 0; pred 1] = out :: ops /\ new_output (mkDefs [] []) out ops) /\
    if res.1 then defs_ok preds res.2 /\ exists out ops, [pred 2; pred 0; pred 1] = out :: ops /\
      m_pdrgpdefDefinitions res.2 = m_pdrgpdefDefinitions (mkDefs [] []) ++ [mkDef EdslexprAnd EBuild out ops]
    else res.2 = mkDefs [] []).
Proof. apply (append_binding_exact preds (mkDefs [] [])); [exact no_defs_ok|]. intros s Hs. unfold preds. set_solver. Defined.

(** The definition is accepted, and one that uses its own output is not. *)
Example append_accepted : (fun res => res.1) <$> FAppendBinding (mkDefs [] []) EdslexprAnd EBuild [pred 2; pred 0; pred 1] = Ret true.
Proof. vm_compute. reflexivity. Qed.
Example append_rejected : (fun res => res.1) <$> FAppendBinding (mkDefs [] []) EdslexprAnd EBuild [pred 2; pred 0; pred 2] = Ret false.
Proof. vm_compute. reflexivity. Qed.

(** ** The surface equality *)

Definition eq_text : string := "InnerJoin<a0 a1>(Input<t0>,Input<t1>)|Input<t2>|Eq(t0,t1);t2 := t0".
Definition table_eq_text : string := "InnerJoin<a0 a1>(Input<t0>,Input<t1>)|Input<t2>|TableEq(t0,t1);t2 := t0".

(** The rules of a surface equality and of the typed equality it stands for have the
    same identity and the same text, although only the first one has the mark
    that makes [FCheckEquality] of CDSLConstraintChecker.cpp compare tables strictly. *)
Lemma surface_equality_identity :
  m_sz_identity (rule_in_text eq_text) = m_sz_identity (rule_in_text table_eq_text) /\
  OsPrint (rule_in_text eq_text) = OsPrint (rule_in_text table_eq_text) /\
  map m_fLegacyEquality (m_pdrgpcon (rule_in_text eq_text)) = [true] /\ map m_fLegacyEquality (m_pdrgpcon (rule_in_text table_eq_text)) = [false] /\
  FHasBindings (m_pexprdefs (rule_in_text eq_text)) = true.
Proof. vm_compute. done. Qed.
End RuleProps.
