(* ===== verification/HashMap.v ===== *)
(** * Hash maps

    Source: [CHashMap] and [CHashMapIter] of libgpos/include/gpos/common. A map has
    a fixed number of chains, each null or an array of elements, and an array of
    its keys in the order of their insertion, which the iterator walks. The hash and
    the equality of the keys are a class; keys and values are pointers that are not
    null. The map refines the list of its entries: the first section has the code,
    the second one the invariant, and then each operation. Owned objects are not
    destroyed here. *)
From stdpp Require Import base numbers list gmap.
From S2P Require Import Prelude.
Local Open Scope N_scope.

(** [HashFn] and [EqFn], the parameters of the template *)
Class HashKey (K : Type) := { HashFn : K -> N; EqFn : K -> K -> bool }.

Class HashKeyLaws (K : Type) `{HashKey K} : Prop := {
  eq_fn_refl (a : K) : EqFn a a = true;
  eq_fn_sym (a b : K) : EqFn a b = true -> EqFn b a = true;
  eq_fn_trans (a b c : K) : EqFn a b = true -> EqFn b c = true -> EqFn a c = true;
  hash_fn_eq (a b : K) : EqFn a b = true -> HashFn a = HashFn b;
}.

Module HashMap.
Open Scope outcome_scope.

Definition ULONG_MOD : N := 2 ^ 32.

Record CHashMap (K T : Type) := mkMap {
  m_num_chains : N;
  m_size : N;
  m_chains : list (option (list (K * T)));
  m_keys : list K;
  m_filled_chains : list N;
}.
Arguments mkMap {K T} _ _ _ _ _.
Arguments m_num_chains {K T} _.
Arguments m_size {K T} _.
Arguments m_chains {K T} _.
Arguments m_keys {K T} _.
Arguments m_filled_chains {K T} _.

Definition CHashMap_ctor {K T} (num_chains : N) : outcome (CHashMap K T) :=
  _ ← GPOS_ASSERT (0 <? num_chains);
  mret (mkMap num_chains 0 (replicate (N.to_nat num_chains) None) [] []).

Section Map.
Context {K T : Type} `{HashKey K}.
Implicit Types (m : CHashMap K T) (key : K) (value : T) (e : K * T).

Definition chain_idx m key : N := HashFn key mod m_num_chains m.

Definition GetChain m key : outcome (option (list (K * T))) :=
  subscript (m_chains m) (N.to_nat (chain_idx m key)).

(** [operator==] of an element with the key *)
Definition has_key key e : bool := EqFn e.1 key.

Definition Lookup m key : outcome (option (K * T)) :=
  chain ← GetChain m key;
  match chain with
  | None => mret None
  | Some c =>
      let found := List.find (has_key key) c in
      _ ← GPOS_ASSERT (match found with Some e => has_key key e | None => true end);
      mret found
  end.

Definition Find m key : outcome (option T) :=
  found ← Lookup m key;
  mret (match found with Some e => Some e.2 | None => None end).

Definition set_chain m (i : N) (c : list (K * T)) : CHashMap K T :=
  mkMap (m_num_chains m) (m_size m) (<[N.to_nat i := Some c]> (m_chains m)) (m_keys m) (m_filled_chains m).

(** The part that [Insert] and [InsertUnique] share *)
Definition append_elem m key value : outcome (CHashMap K T) :=
  chain ← GetChain m key;
  let i := chain_idx m key in
  let filled := match chain with None => m_filled_chains m ++ [i] | Some _ => m_filled_chains m end in
  let m := set_chain m i (default [] chain ++ [(key, value)]) in
  mret (mkMap (m_num_chains m) ((m_size m + 1) mod ULONG_MOD) (m_chains m) (m_keys m ++ [key]) filled).

Definition Insert m key value : outcome (bool * CHashMap K T) :=
  found ← Find m key;
  match found with
  | Some _ => mret (false, m)
  | None => (m ← append_elem m key value; mret (true, m))
  end.

Definition InsertUnique m key value : outcome (CHashMap K T) :=
  found ← Find m key;
  _ ← GPOS_ASSERT (match found with Some _ => false | None => true end);
  append_elem m key value.

(** [ReplaceValue] on the element of a key, which is the first one in its chain *)
Fixpoint replace_value (c : list (K * T)) key value : list (K * T) :=
  match c with
  | [] => []
  | e :: c' => if has_key key e then (e.1, value) :: c' else e :: replace_value c' key value
  end.

Definition Replace m key value : outcome (bool * CHashMap K T) :=
  found ← Lookup m key;
  match found with
  | None => mret (false, m)
  | Some _ =>
      chain ← GetChain m key;
      c ← deref chain;
      mret (true, set_chain m (chain_idx m key) (replace_value c key value))
  end.

(** [CDynamicPtrArray::Swap] and [RemoveLast] *)
Definition Swap (l : list (K * T)) (pos1 pos2 : nat) : outcome (list (K * T)) :=
  match l !! pos1, l !! pos2 with
  | Some a, Some b => mret (<[pos2 := a]> (<[pos1 := b]> l))
  | _, _ => Abort FAssert
  end.
Definition RemoveLast (l : list (K * T)) : list (K * T) := take (length l - 1) l.

Definition Delete m key : outcome (bool * CHashMap K T) :=
  chain ← GetChain m key;
  match chain with
  | None => mret (false, m)
  | Some c =>
      match list_find (fun e => EqFn e.1 key = true) c with
      | None => mret (false, m)
      | Some (ul, _) =>
          c ← Swap c ul (length c - 1);
          mret (true, set_chain m (chain_idx m key) (RemoveLast c))
      end
  end.

Definition Size m : N := m_size m.
Definition GetKeys m : list K := m_keys m.

(** The iterator: the number of the key it has reached *)
Definition Advance m (key_idx : nat) : bool * nat :=
  if (key_idx <? length (m_keys m))%nat then (true, S key_idx) else (false, key_idx).

Definition Get m (key_idx : nat) : outcome (option (K * T)) :=
  k ← subscript (m_keys m) (key_idx - 1);
  Lookup m k.

(** The loop [while (mi.Advance()) ... mi.Key(), mi.Value()] *)
Fixpoint iterate_loop (n : nat) m (key_idx : nat) : outcome (list (option (K * T))) :=
  match n with
  | O => Abort FFuel
  | S n =>
      let '(more, key_idx) := Advance m key_idx in
      if more then (e ← Get m key_idx; rest ← iterate_loop n m key_idx; mret (e :: rest)) else mret []
  end.

Definition iterate m : outcome (list (option (K * T))) := iterate_loop (S (length (m_keys m))) m 0.

(** ** The entries of a map *)

Definition entry (l : list (K * T)) key : option (K * T) := List.find (has_key key) l.
Definition remove_key (l : list (K * T)) key : list (K * T) := filter (fun e => EqFn e.1 key = false) l.

(** No two entries have equal keys. *)
Record distinct (l : list (K * T)) : Prop := {
  di_nodup : NoDup l;
  di_eq a b : a ∈ l -> b ∈ l -> EqFn a.1 b.1 = true -> a = b;
}.

Definition in_chain m (i : N) e : Prop := HashFn e.1 mod m_num_chains m = i.
#[local] Instance in_chain_dec m i e : Decision (in_chain m i e).
Proof. unfold in_chain. apply _. Defined.

(** The chains of [m] hold the entries [l]. *)
Record contents m (l : list (K * T)) : Prop := {
  ct_num : 0 < m_num_chains m;
  ct_length : length (m_chains m) = N.to_nat (m_num_chains m);
  ct_distinct : distinct l;
  ct_chain i c : m_chains m !! N.to_nat i = Some c -> default [] c ≡ₚ filter (in_chain m i) l;
  ct_filled : NoDup (m_filled_chains m);
  ct_filled_iff i : i ∈ m_filled_chains m <-> exists c, m_chains m !! N.to_nat i = Some (Some c);
}.

(** The size and the keys are those of the entries; [Delete] does not maintain this. *)
Record listed m (l : list (K * T)) : Prop := {
  ls_contents : contents m l;
  ls_size : m_size m = N.of_nat (length l) mod ULONG_MOD;
  ls_keys : m_keys m = map fst l;
}.

(** ** Finding entries *)

Context `{HKL : !HashKeyLaws K}.

Lemma entry_Some l key e : distinct l -> entry l key = Some e <-> e ∈ l /\ EqFn e.1 key = true.
Proof.
  intros Hd. unfold entry. split.
  - intros [Hin He]%find_some. split; [by apply list_elem_of_In|done].
  - intros [Hin He]. destruct (List.find (has_key key) l) as [e'|] eqn:E.
    + apply find_some in E as [Hin' He']. f_equal. apply (di_eq l Hd); [by apply list_elem_of_In|done|].
      eapply eq_fn_trans; [exact He'|by apply eq_fn_sym].
    + apply list_elem_of_In in Hin. eapply find_none in E; [|exact Hin]. unfold has_key in E. congruence.
Qed.

Lemma entry_None l key : entry l key = None <-> forall e, e ∈ l -> EqFn e.1 key = false.
Proof.
  unfold entry. split.
  - intros E e He%list_elem_of_In. by eapply find_none in E.
  - intros Hno. destruct (List.find _ _) as [e|] eqn:E; [|done]. apply find_some in E as [Hin He].
    apply list_elem_of_In, Hno in Hin. unfold has_key in He. congruence.
Qed.

Lemma distinct_perm l l' : l ≡ₚ l' -> distinct l -> distinct l'.
Proof. intros Hp [H1 H2]. split; [by rewrite <- Hp|]. intros a b. rewrite <- Hp. apply H2. Qed.

Lemma distinct_filter (P : K * T -> Prop) `{forall e, Decision (P e)} l : distinct l -> distinct (filter P l).
Proof. intros [H1 H2]. split; [by apply NoDup_filter|]. intros a b [_ Ha]%list_elem_of_filter [_ Hb]%list_elem_of_filter. by apply H2. Qed.

Lemma distinct_snoc l key value : distinct l -> entry l key = None -> distinct (l ++ [(key, value)]).
Proof.
  intros [H1 H2] Hno. rewrite entry_None in Hno. split.
  - apply NoDup_app. split_and!; [done| |by apply NoDup_singleton]. intros e He ->%list_elem_of_singleton. apply Hno in He. cbn in He. by rewrite eq_fn_refl in He.
  - intros a b [Ha| ->%list_elem_of_singleton]%elem_of_app [Hb| ->%list_elem_of_singleton]%elem_of_app E; cbn in *; [by apply H2| | |done].
    + apply Hno in Ha. congruence.
    + apply Hno in Hb. apply eq_fn_sym in E. congruence.
Qed.

Lemma entry_perm l l' key : l ≡ₚ l' -> distinct l -> entry l key = entry l' key.
Proof.
  intros Hp Hd. pose proof (distinct_perm _ _ Hp Hd) as Hd'. destruct (entry l' key) as [e|] eqn:E.
  - rewrite entry_Some in E |- * by done. by rewrite Hp.
  - rewrite entry_None in E |- *. intros e. rewrite Hp. apply E.
Qed.

(** An entry with the key lies in the chain of the key. *)
Lemma entry_chain m l key : distinct l -> entry (filter (in_chain m (chain_idx m key)) l) key = entry l key.
Proof.
  intros Hd. destruct (entry l key) as [e|] eqn:E.
  - rewrite entry_Some in E |- * by (try apply distinct_filter; done). destruct E as [He Hk]. split; [|done].
    apply list_elem_of_filter. split; [|done]. unfold in_chain, chain_idx. by rewrite (hash_fn_eq _ _ Hk).
  - rewrite entry_None in E |- *. intros e [_ He]%list_elem_of_filter. by apply E.
Qed.

Section Contents.
Context m l (Hm : contents m l).

Lemma chain_lt key : (N.to_nat (chain_idx m key) < length (m_chains m))%nat.
Proof. rewrite (ct_length _ _ Hm). unfold chain_idx. pose proof (ct_num _ _ Hm). pose proof (N.mod_lt (HashFn key) (m_num_chains m)). lia. Qed.

Lemma GetChain_ret key : exists c, GetChain m key = Ret c /\ m_chains m !! N.to_nat (chain_idx m key) = Some c /\
  default [] c ≡ₚ filter (in_chain m (chain_idx m key)) l.
Proof.
  destruct (lookup_lt_is_Some_2 _ _ (chain_lt key)) as [c Hc]. exists c. unfold GetChain. split_and!; [by apply subscript_some|done|].
  by apply (ct_chain _ _ Hm).
Qed.

Lemma chain_entry key (c : option (list (K * T))) : default [] c ≡ₚ filter (in_chain m (chain_idx m key)) l ->
  distinct (default [] c) /\ entry (default [] c) key = entry l key.
Proof.
  intros Hp. pose proof (distinct_filter (in_chain m (chain_idx m key)) l (ct_distinct _ _ Hm)) as Hd.
  pose proof (distinct_perm _ _ (Permutation_sym Hp) Hd) as Hd'. split; [done|].
  by rewrite (entry_perm _ _ key Hp Hd'), (entry_chain m l key (ct_distinct _ _ Hm)).
Qed.

Lemma Lookup_ret key : Lookup m key = Ret (entry l key).
Proof.
  destruct (GetChain_ret key) as (c & Hc & _ & Hp). unfold Lookup. rewrite Hc. cbn [mbind outcome_bind].
  apply chain_entry in Hp as [_ <-]. destruct c as [c|]; [|done]. cbn [default]. fold (entry c key).
  rewrite bind_assert; [done|]. destruct (entry c key) as [e|] eqn:E; [|done]. apply find_some in E. by destruct E.
Qed.

Lemma Find_ret key : Find m key = Ret (snd <$> entry l key).
Proof. unfold Find. rewrite Lookup_ret. by destruct (entry l key). Qed.
End Contents.

(** ** Changing one chain *)

Lemma remove_perm l key e : distinct l -> entry l key = Some e -> l ≡ₚ e :: remove_key l key.
Proof.
  intros Hd He. pose proof (proj1 (entry_Some l key e Hd) He) as [Hin Hk].
  apply NoDup_Permutation; [apply Hd| |].
  - apply NoDup_cons. split; [|by apply NoDup_filter, Hd]. intros [H1 _]%list_elem_of_filter. congruence.
  - intros x. rewrite elem_of_cons. unfold remove_key. rewrite list_elem_of_filter. split.
    + intros Hx. destruct (EqFn x.1 key) eqn:E; [left|by right]. apply (di_eq l Hd); [done..|]. eapply eq_fn_trans; [exact E|by apply eq_fn_sym].
    + by intros [->|[_ ?]].
Qed.

Lemma remove_absent l key : entry l key = None -> remove_key l key = l.
Proof.
  rewrite entry_None. intros Hno. unfold remove_key. induction l as [|e l IH]; [done|]. rewrite filter_cons_True by (apply Hno; left).
  f_equal. apply IH. intros x Hx. apply Hno. by right.
Qed.

Lemma replace_perm l key value e : distinct l -> entry l key = Some e -> replace_value l key value ≡ₚ (e.1, value) :: remove_key l key.
Proof.
  unfold entry, remove_key. induction l as [|x l IH]; intros Hd He; [done|]. cbn [List.find replace_value] in *. unfold has_key in *. destruct (EqFn x.1 key) eqn:E.
  - injection He as ->. rewrite filter_cons_False by congruence. fold (remove_key l key). rewrite remove_absent; [done|].
    apply entry_None. intros y Hy. destruct (EqFn y.1 key) eqn:Ey; [|done]. exfalso. pose proof (di_nodup _ Hd) as [Hx _]%NoDup_cons. apply Hx.
    assert (e = y) as -> by (apply (di_eq _ Hd); [left|by right|]; eapply eq_fn_trans; [exact E|by apply eq_fn_sym]). done.
  - rewrite filter_cons_True by done. rewrite IH; [apply perm_swap| |done]. split; [by apply (NoDup_cons x l), Hd|].
    intros a b Ha Hb. apply (di_eq _ Hd); by right.
Qed.

Lemma distinct_remove l key : distinct l -> distinct (remove_key l key).
Proof. by apply distinct_filter. Qed.

Lemma distinct_replace l key value e : distinct l -> entry l key = Some e -> distinct ((e.1, value) :: remove_key l key).
Proof.
  intros Hd He. pose proof (proj1 (entry_Some l key e Hd) He) as [Hin Hk]. unfold remove_key. split.
  - apply NoDup_cons. split; [|by apply NoDup_filter, Hd]. intros [H1 _]%list_elem_of_filter. cbn in H1. congruence.
  - intros a b [->|[Ha Ha']%list_elem_of_filter]%elem_of_cons [->|[Hb Hb']%list_elem_of_filter]%elem_of_cons E; cbn in *; [done|..|by apply (di_eq l Hd)].
    + assert (EqFn b.1 key = true); [|congruence]. eapply eq_fn_trans; [by apply eq_fn_sym|done].
    + assert (EqFn a.1 key = true); [|congruence]. by eapply eq_fn_trans.
Qed.

Lemma remove_filter m i l key : remove_key (filter (in_chain m i) l) key = filter (in_chain m i) (remove_key l key).
Proof.
  unfold remove_key. rewrite !list_filter_filter. apply list_filter_iff. tauto.
Qed.

(** A map whose chain of [key] was set; the other chains hold the same entries. *)
Lemma set_chain_contents m l l' key c c' size keys filled :
  contents m l -> distinct l' -> m_chains m !! N.to_nat (chain_idx m key) = Some c ->
  c' ≡ₚ filter (in_chain m (chain_idx m key)) l' ->
  (forall j, j <> chain_idx m key -> filter (in_chain m j) l' ≡ₚ filter (in_chain m j) l) ->
  filled = (if c is None then m_filled_chains m ++ [chain_idx m key] else m_filled_chains m) ->
  contents (mkMap (m_num_chains m) size (<[N.to_nat (chain_idx m key) := Some c']> (m_chains m)) keys filled) l'.
Proof.
  intros Hm Hd Hc Hc' Hother ->. set (i := chain_idx m key) in *. pose proof (lookup_lt_Some _ _ _ Hc) as Hlt. split; cbn [m_num_chains m_chains m_filled_chains].
  - apply Hm.
  - rewrite length_insert. apply Hm.
  - done.
  - intros j d Hj. destruct (decide (j = i)) as [->|Hne].
    + rewrite list_lookup_insert_eq in Hj by done. injection Hj as <-. exact Hc'.
    + rewrite list_lookup_insert_ne in Hj by lia. rewrite (ct_chain _ _ Hm j d Hj). symmetry. by apply Hother.
  - pose proof (ct_filled _ _ Hm) as Hf. destruct c as [c|]; [done|]. apply NoDup_app. split_and!; [done| |apply NoDup_singleton].
    intros x Hx ->%list_elem_of_singleton. apply (ct_filled_iff _ _ Hm) in Hx as [d Hd']. congruence.
  - intros j. destruct (decide (j = i)) as [->|Hne].
    + rewrite list_lookup_insert_eq by done. split; [eauto|]. intros _. destruct c as [c|]; [apply (ct_filled_iff _ _ Hm); eauto|].
      apply elem_of_app. right. by apply list_elem_of_singleton.
    + rewrite list_lookup_insert_ne by lia. rewrite <- (ct_filled_iff _ _ Hm). destruct c; [done|]. rewrite elem_of_app, list_elem_of_singleton. tauto.
Qed.

(** An entry is in one chain. *)
Lemma filter_other m j l e : HashFn e.1 mod m_num_chains m <> j -> filter (in_chain m j) (e :: l) = filter (in_chain m j) l.
Proof. intros Hne. by rewrite filter_cons_False. Qed.

Lemma entry_hash l key e m : distinct l -> entry l key = Some e -> HashFn e.1 mod m_num_chains m = chain_idx m key.
Proof. intros Hd [_ Hk]%entry_Some; [|done]. unfold chain_idx. by rewrite (hash_fn_eq _ _ Hk). Qed.

(** ** The operations *)

Lemma CHashMap_ctor_ret num : 0 < num -> CHashMap_ctor num ⤳ (fun m => listed m []).
Proof.
  intros Hn. unfold CHashMap_ctor. rewrite bind_assert by lia. apply returns_ret. split; [split| |]; cbn; try done.
  - by rewrite length_replicate.
  - split; [constructor|]. by intros a b ?%not_elem_of_nil.
  - intros i c Hi. apply lookup_replicate in Hi as [-> _]. done.
  - constructor.
  - intros i. split; [by intros ?%not_elem_of_nil|]. intros [c Hi]. by apply lookup_replicate in Hi as [? _].
Qed.

Lemma append_elem_ret m l key value : contents m l -> entry l key = None ->
  append_elem m key value ⤳ (fun m' => contents m' (l ++ [(key, value)]) /\ m_keys m' = m_keys m ++ [key] /\
    m_size m' = (m_size m + 1) mod ULONG_MOD).
Proof.
  intros Hm Hno. destruct (GetChain_ret m l Hm key) as (c & Hg & Hc & Hp). unfold append_elem. rewrite Hg. cbn [mbind outcome_bind].
  apply returns_ret. split_and!; [|done..].
  apply (set_chain_contents m l (l ++ [(key, value)]) key c); [done|by apply distinct_snoc, Hno; apply Hm|done|..|by destruct c].
  - rewrite filter_app, <- Hp. f_equiv. by rewrite filter_cons_True, filter_nil.
  - intros j Hj. rewrite filter_app, filter_other, filter_nil, app_nil_r; [done|]. cbn. intros <-. by apply Hj.
Qed.

Lemma Insert_ret m l key value : contents m l -> Insert m key value ⤳ (fun r =>
  match entry l key with
  | Some _ => r = (false, m)
  | None => r.1 = true /\ contents r.2 (l ++ [(key, value)]) /\ m_keys r.2 = m_keys m ++ [key] /\ m_size r.2 = (m_size m + 1) mod ULONG_MOD
  end).
Proof.
  intros Hm. unfold Insert. rewrite (Find_ret m l Hm). cbn [mbind outcome_bind]. destruct (entry l key) as [e|] eqn:E; cbn; [by apply returns_ret|].
  eapply returns_bind; [by apply append_elem_ret|]. intros m' Hm'. by apply returns_ret.
Qed.

Lemma InsertUnique_ret m l key value : contents m l -> entry l key = None -> InsertUnique m key value = append_elem m key value.
Proof. intros Hm E. unfold InsertUnique. rewrite (Find_ret m l Hm), E. done. Qed.

Lemma Replace_ret m l key value : contents m l -> Replace m key value ⤳ (fun r =>
  r.1 = bool_decide (is_Some (entry l key)) /\ contents r.2 (replace_value l key value) /\ m_keys r.2 = m_keys m /\ m_size r.2 = m_size m).
Proof.
  intros Hm. destruct (GetChain_ret m l Hm key) as (c & Hg & Hc & Hp). destruct (chain_entry m l Hm key c Hp) as [Hdc Hec].
  unfold Replace. rewrite (Lookup_ret m l Hm), Hg. cbn [mbind outcome_bind]. destruct (entry l key) as [e|] eqn:E.
  - destruct c as [c|]; [|done]. cbn [default deref mbind outcome_bind] in *. apply returns_ret. cbn [fst snd]. split_and!; [by rewrite bool_decide_true by eauto| |done..].
    pose proof (replace_perm l key value e (ct_distinct _ _ Hm) E) as Hl. pose proof (entry_hash l key e m (ct_distinct _ _ Hm) E) as Hh.
    apply (set_chain_contents m l _ key (Some c)); [done| |done|..|done].
    + eapply distinct_perm; [by symmetry|]. by apply distinct_replace, E; apply Hm.
    + rewrite Hl, filter_cons_True by exact Hh. rewrite (replace_perm c key value e Hdc Hec). f_equiv. rewrite <- remove_filter.
      unfold remove_key. by rewrite Hp.
    + intros j Hj. rewrite Hl, filter_other by (cbn; congruence). rewrite (remove_perm l key e (ct_distinct _ _ Hm) E) at 2.
      by rewrite filter_other by congruence.
  - apply returns_ret. cbn [fst snd]. split_and!; [by rewrite bool_decide_false by (by intros [? ?])| |done..].
    assert (replace_value l key value = l) as ->; [|done]. rewrite entry_None in E. clear -E. induction l as [|x l IH]; [done|].
    cbn. unfold has_key. rewrite E by left. f_equal. apply IH. intros y Hy. apply E. by right.
Qed.

(** The element moved to the end and removed *)
Lemma swap_remove (c : list (K * T)) ul e : c !! ul = Some e ->
  exists c', Swap c ul (length c - 1) = Ret c' /\ c ≡ₚ e :: RemoveLast c'.
Proof.
  intros He. pose proof (lookup_lt_Some _ _ _ He) as Hlt.
  destruct c as [|x c0] using rev_ind; [done|]. clear IHc0. rewrite length_app in *. cbn [length] in *. replace (length c0 + 1 - 1)%nat with (length c0) by lia.
  unfold Swap. rewrite He, (list_lookup_middle c0 [] x) by done. eexists. split; [done|]. unfold RemoveLast.
  rewrite !length_insert, length_app. cbn [length]. replace (length c0 + 1 - 1)%nat with (length c0) by lia.
  rewrite take_insert_ge by lia. destruct (decide (ul = length c0)) as [->|Hne].
  - rewrite take_insert_ge, take_app_length by lia. rewrite (list_lookup_middle c0 [] x) in He by done. injection He as <-. by rewrite Permutation_app_comm.
  - rewrite insert_app_l, take_app_length' by (rewrite ?length_insert; lia). rewrite lookup_app_l in He by lia.
    rewrite <- (take_drop_middle c0 ul e He) at 1. rewrite insert_take_drop by lia. solve_Permutation.
Qed.

Lemma Delete_ret m l key : contents m l -> Delete m key ⤳ (fun r =>
  r.1 = bool_decide (is_Some (entry l key)) /\ contents r.2 (remove_key l key) /\ m_keys r.2 = m_keys m /\ m_size r.2 = m_size m).
Proof.
  intros Hm. destruct (GetChain_ret m l Hm key) as (c & Hg & Hc & Hp). destruct (chain_entry m l Hm key c Hp) as [Hdc Hec].
  unfold Delete. rewrite Hg. cbn [mbind outcome_bind].
  assert (Hno : entry l key = None -> (false, m).1 = bool_decide (is_Some (entry l key)) /\ contents m (remove_key l key) /\ m_keys m = m_keys m /\ m_size m = m_size m).
  { intros E. rewrite E, bool_decide_false by (by intros [? ?]). by rewrite remove_absent. }
  destruct c as [c|]; [|by apply returns_ret, Hno]. cbn [from_option id] in *.
  destruct (list_find (fun e => EqFn e.1 key = true) c) as [[ul e]|] eqn:Ef.
  - apply list_find_Some in Ef as (Hul & He & _). destruct (swap_remove c ul e Hul) as (c' & Hs & Hc'). rewrite Hs. cbn [mbind outcome_bind].
    assert (Ec : entry c key = Some e) by (apply entry_Some; [done|]; split; [by eapply list_elem_of_lookup_2|done]).
    rewrite Hec in Ec. apply returns_ret. cbn [fst snd]. split_and!; [by rewrite bool_decide_true by eauto| |done..].
    pose proof (remove_perm l key e (ct_distinct _ _ Hm) Ec) as Hl. pose proof (entry_hash l key e m (ct_distinct _ _ Hm) Ec) as Hh.
    apply (set_chain_contents m l _ key (Some c)); [done| |done|..|done].
    + by apply distinct_remove; apply Hm.
    + apply (Permutation_cons_inv (a := e)). rewrite <- Hc', Hp, Hl at 1. by rewrite filter_cons_True by exact Hh.
    + intros j Hj. rewrite Hl at 2. by rewrite filter_other by congruence.
  - apply returns_ret, Hno. rewrite <- Hec. apply entry_None. intros x Hx. apply list_find_None in Ef. rewrite Forall_forall in Ef.
    apply Ef in Hx. by destruct (EqFn x.1 key).
Qed.

(** ** Iteration *)

Lemma listed_insert m l key value m' : listed m l -> entry l key = None -> contents m' (l ++ [(key, value)]) ->
  m_keys m' = m_keys m ++ [key] -> m_size m' = (m_size m + 1) mod ULONG_MOD -> listed m' (l ++ [(key, value)]).
Proof.
  intros [Hm Hs Hk] Hno Hm' Hk' Hs'. split; [done| |].
  - rewrite Hs', Hs, length_app, N.Div0.add_mod_idemp_l. cbn. f_equal. lia.
  - by rewrite Hk', Hk, map_app.
Qed.

(** The iterator looks up the keys in the order of their insertion. *)
Lemma iterate_contents m l : contents m l -> iterate m = Ret (map (entry l) (m_keys m)).
Proof.
  intros Hm. unfold iterate.
  assert (Hgen : forall n i, (length (m_keys m) - i < n)%nat -> (i <= length (m_keys m))%nat -> iterate_loop n m i = Ret (map (entry l) (drop i (m_keys m)))).
  { induction n as [|n IH]; intros i Hi Hle; [lia|]. cbn [iterate_loop]. unfold Advance.
    destruct (Nat.ltb_spec i (length (m_keys m))) as [Hlt|Hge]; [|by rewrite drop_ge by lia].
    destruct (lookup_lt_is_Some_2 (m_keys m) i Hlt) as [k Hk]. unfold Get. rewrite Nat.sub_1_r. cbn [pred].
    rewrite (subscript_some _ _ k Hk). cbn [mbind outcome_bind]. rewrite (Lookup_ret m l Hm).
    cbn [mbind outcome_bind]. rewrite IH by lia. cbn [mbind outcome_bind]. by rewrite (drop_S _ k i Hk). }
  rewrite Hgen by lia. by rewrite drop_0.
Qed.

Lemma iterate_ret m l : listed m l -> iterate m = Ret (map Some l).
Proof.
  intros [Hm _ Hk]. rewrite (iterate_contents m l Hm), Hk, map_map. f_equal. apply list_fmap_ext. intros i e He.
  apply entry_Some; [apply Hm|]. split; [by eapply list_elem_of_lookup_2|apply eq_fn_refl].
Qed.
End Map.
End HashMap.
