(* ===== verification/TreeMap.v ===== *)
(** * Counting and unranking of trees

    Source: [CTreeMap] of libgpopt/include/gpopt/search/CTreeMap.h, with which the
    memo counts and enumerates plans. Objects are linked as the n-th child of
    others; a tree takes one of the linked objects at every child position. Nodes
    live in a store and a pointer to a node is its position in the store; the
    objects [T] and the context [U] are arguments, as are the hash and the equality
    of objects and the rehydrate function. The results of type [R] that the
    destructors of arrays release are left out. *)
From stdpp Require Import base numbers list.
From S2P Require Import Prelude BitVector BitSet SetHash HashMap.
Local Open Scope N_scope.

Module TreeMap.
Import HashMap.
Open Scope outcome_scope.

Definition ULLONG_MOD : N := 2 ^ 64.

(** [gpos::Add] and [gpos::Multiply] of libgpos/src/utils.cpp *)
Definition Add_ull (first second : N) : outcome N :=
  if ULLONG_MOD - 1 - second <? first then Abort FRaise else mret (first + second).
Definition Multiply (first second : N) : outcome N :=
  if (0 <? second) && ((ULLONG_MOD - 1) / second <? first) then Abort FRaise else mret (first * second).

Inductive ENodeState := EnsUncounted | EnsCounting | EnsCounted.
#[export] Instance ENodeState_eq_dec : EqDecision ENodeState.
Proof. solve_decision. Defined.

(** A pointer to a node *)
Abbreviation PtrNode := nat (only parsing).

Record CTreeNode (T : Type) := mkNode {
  m_ul : N;
  m_value : option T;
  m_pdrgdrgptn : list (list PtrNode);
  m_ullCount : N;
  m_ulIncoming : N;
  m_ens : ENodeState;
}.
Arguments mkNode {T} _ _ _ _ _ _.
Arguments m_ul {T} _.
Arguments m_value {T} _.
Arguments m_pdrgdrgptn {T} _.
Arguments m_ullCount {T} _.
Arguments m_ulIncoming {T} _.
Arguments m_ens {T} _.

(** [STreeLink]: parent, child index, child *)
Record STreeLink (T : Type) := mkLink { m_ptParent : T; m_ulChildIndex : N; m_ptChild : T }.
Arguments mkLink {T} _ _ _.
Arguments m_ptParent {T} _.
Arguments m_ulChildIndex {T} _.
Arguments m_ptChild {T} _.

(** [STreeLink::HashValue] and [STreeLink::Equals] *)
#[export] Instance STreeLink_key {T} `{HashKey T} : HashKey (STreeLink T) := {
  HashFn ptlink := SetHash.CombineHashes (HashFn (m_ptParent ptlink))
    (SetHash.CombineHashes (HashFn (m_ptChild ptlink)) (SetHash.HashByteArray (SetHash.store_word 4 (m_ulChildIndex ptlink))));
  EqFn ptlink1 ptlink2 := EqFn (m_ptParent ptlink1) (m_ptParent ptlink2) && EqFn (m_ptChild ptlink1) (m_ptChild ptlink2) &&
    (m_ulChildIndex ptlink1 =? m_ulChildIndex ptlink2);
}.

Record CTreeMap (T : Type) := mkTreeMap {
  m_ulCountNodes : N;
  m_ulCountLinks : N;
  m_ptnRoot : PtrNode;
  m_ptmap : CHashMap T PtrNode;
  m_plinkmap : CHashMap (STreeLink T) bool;
  m_nodes : list (CTreeNode T);
}.
Arguments mkTreeMap {T} _ _ _ _ _ _.
Arguments m_ulCountNodes {T} _.
Arguments m_ulCountLinks {T} _.
Arguments m_ptnRoot {T} _.
Arguments m_ptmap {T} _.
Arguments m_plinkmap {T} _.
Arguments m_nodes {T} _.

(** ** Nodes *)

Section Node.
Context {T : Type}.
Implicit Types (s : list (CTreeNode T)) (ptn : PtrNode) (node : CTreeNode T).

Definition CTreeNode_ctor (ul : N) (value : option T) : CTreeNode T := mkNode ul value [] (ULLONG_MOD - 1) 0 EnsUncounted.

Definition FCounted node : bool := bool_decide (m_ens node = EnsCounted).

Definition set_state (ens : ENodeState) node : CTreeNode T :=
  mkNode (m_ul node) (m_value node) (m_pdrgdrgptn node) (m_ullCount node) (m_ulIncoming node) ens.
Definition set_count (ullCount : N) node : CTreeNode T :=
  mkNode (m_ul node) (m_value node) (m_pdrgdrgptn node) ullCount (m_ulIncoming node) EnsCounted.
Definition set_arrays (arrays : list (list PtrNode)) node : CTreeNode T :=
  mkNode (m_ul node) (m_value node) arrays (m_ullCount node) (m_ulIncoming node) (m_ens node).
Definition incr_incoming node : CTreeNode T :=
  mkNode (m_ul node) (m_value node) (m_pdrgdrgptn node) (m_ullCount node) ((m_ulIncoming node + 1) mod ULONG_MOD) (m_ens node).

(** [CTreeNode::Add] of the node [this] *)
Definition Add (this : PtrNode) (ulPos : nat) ptn s : outcome (list (CTreeNode T)) :=
  node ← deref (s !! this);
  _ ← GPOS_ASSERT (negb (FCounted node));
  let arrays := m_pdrgdrgptn node ++ replicate (S ulPos - length (m_pdrgdrgptn node)) [] in
  child ← deref (s !! ptn);
  let s := <[ptn := incr_incoming child]> s in
  node ← deref (s !! this);
  pdrg ← subscript arrays ulPos;
  mret (<[this := set_arrays (<[ulPos := pdrg ++ [ptn]]> arrays) node]> s).

(** [CTreeNode::UllCount()] and, as a loop in it, [UllCount(ulChild)]; [n] bounds the
    recursion. *)
Section Count.
Context (count : PtrNode -> list (CTreeNode T) -> outcome (N * list (CTreeNode T))).

Definition count_child (candidates : list PtrNode) s : outcome (N * list (CTreeNode T)) :=
  for_each candidates (fun ptn '(ull, s) =>
    '(ullCount, s) ← count ptn s;
    ull ← Add_ull ull ullCount;
    mret (ull, s)) (0, s).

Definition count_children (arrays : list (list PtrNode)) s : outcome (N * list (CTreeNode T)) :=
  '(_, (ullCount, s)) ← for_until arrays (fun candidates '(ullCount, s) =>
    '(ull, s) ← count_child candidates s;
    if ull =? 0 then mret (true, (0, s)) else
    ullCount ← Multiply ullCount ull;
    mret (false, (ullCount, s))) (1, s);
  mret (ullCount, s).
End Count.

Fixpoint UllCount_node (n : nat) (this : PtrNode) s : outcome (N * list (CTreeNode T)) :=
  match n with
  | O => Abort FFuel
  | S n =>
      node ← deref (s !! this);
      _ ← GPOS_ASSERT (negb (bool_decide (m_ens node = EnsCounting)));
      if FCounted node then mret (m_ullCount node, s) else
      let s := <[this := set_state EnsCounting node]> s in
      '(ullCount, s) ← count_children (UllCount_node n) (m_pdrgdrgptn node) s;
      node ← deref (s !! this);
      mret (ullCount, <[this := set_count ullCount node]> s)
  end.

Definition UllCount_at this s : outcome (N * list (CTreeNode T)) := UllCount_node (S (length s)) this s.

(** [CTreeNode::UllCount(ulChild)] *)
Definition UllCount_child this (ulChild : nat) s : outcome (N * list (CTreeNode T)) :=
  node ← deref (s !! this);
  candidates ← subscript (m_pdrgdrgptn node) ulChild;
  count_child UllCount_at candidates s.

(** ** Unranking *)

Context {R U : Type} (prfn : T -> list R -> U -> outcome (R * U)).

(** The loop that finds the candidate and its local rank; without a break it ends
    with the last candidate. *)
Fixpoint find_candidate (candidates : list PtrNode) (ptn : option PtrNode) (ullRank : N) s :
    outcome (option PtrNode * N * list (CTreeNode T)) :=
  match candidates with
  | [] => mret (ptn, ullRank, s)
  | ptn :: candidates' =>
      '(ullLocalCount, s) ← UllCount_at ptn s;
      if ullRank <? ullLocalCount then mret (Some ptn, ullRank, s)
      else find_candidate candidates' (Some ptn) (ullRank - ullLocalCount) s
  end.

Section Unrank.
Context (unrank : PtrNode -> N -> U -> list (CTreeNode T) -> outcome (R * U * list (CTreeNode T))).

(** [CTreeNode::PrUnrank(ulChild, ullRank)] *)
Definition PrUnrank_child this (ulChild : nat) (ullRank : N) (pU : U) s : outcome (R * U * list (CTreeNode T)) :=
  '(ull, s) ← UllCount_child this ulChild s;
  _ ← GPOS_ASSERT (ullRank <? ull);
  node ← deref (s !! this);
  candidates ← subscript (m_pdrgdrgptn node) ulChild;
  '(ptn, ullRank, s) ← find_candidate candidates None ullRank s;
  _ ← GPOS_ASSERT (bool_decide (is_Some ptn));
  ptn ← deref ptn;
  unrank ptn ullRank pU s.

Definition unrank_children this (ulChildren : nat) (ullRank : N) (pU : U) s : outcome (list R * N * U * list (CTreeNode T)) :=
  for_each (seq 0 ulChildren) (fun ulChild '(pdrg, ullRankRem, pU, s) =>
    '(ullLocalCount, s) ← UllCount_child this ulChild s;
    _ ← GPOS_ASSERT (0 <? ullLocalCount);
    '(pr, pU, s) ← PrUnrank_child this ulChild (ullRankRem mod ullLocalCount) pU s;
    mret (pdrg ++ [pr], ullRankRem / ullLocalCount, pU, s)) ([], ullRank, pU, s).
End Unrank.

(** [CTreeNode::PrUnrank] *)
Fixpoint PrUnrank_node (n : nat) (this : PtrNode) (ullRank : N) (pU : U) s : outcome (R * U * list (CTreeNode T)) :=
  match n with
  | O => Abort FFuel
  | S n =>
      node ← deref (s !! this);
      if m_ul node =? 0 then PrUnrank_child (PrUnrank_node n) this 0 ullRank pU s
      else
        '(pdrg, _, pU, s) ← unrank_children (PrUnrank_node n) this (length (m_pdrgdrgptn node)) ullRank pU s;
        value ← deref (m_value node);
        '(pr, pU) ← prfn value pdrg pU;
        mret (pr, pU, s)
  end.
End Node.

(** ** Maps *)

Section Map.
Context {T : Type} `{EqDecision T} `{HashKey T}.
Implicit Types (tm : CTreeMap T) (value : T).

Definition with_nodes tm (nodes : list (CTreeNode T)) : CTreeMap T :=
  mkTreeMap (m_ulCountNodes tm) (m_ulCountLinks tm) (m_ptnRoot tm) (m_ptmap tm) (m_plinkmap tm) nodes.

Definition CTreeMap_ctor : outcome (CTreeMap T) :=
  ptmap ← CHashMap_ctor 127;
  plinkmap ← CHashMap_ctor 127;
  mret (mkTreeMap 0 0 0%nat ptmap plinkmap [CTreeNode_ctor 0 None]).

(** [Ptn]: the node of an object, which is created if there is none *)
Definition Ptn tm value : outcome (PtrNode * CTreeMap T) :=
  ptn ← Find (m_ptmap tm) value;
  match ptn with
  | Some ptn => mret (ptn, tm)
  | None =>
      let ul := (m_ulCountNodes tm + 1) mod ULONG_MOD in
      let ptn := length (m_nodes tm) in
      '(_, ptmap) ← HashMap.Insert (m_ptmap tm) value ptn;
      mret (ptn, mkTreeMap ul (m_ulCountLinks tm) (m_ptnRoot tm) ptmap (m_plinkmap tm)
                   (m_nodes tm ++ [CTreeNode_ctor ul (Some value)]))
  end.

(** [Insert]; the assertion compares the pointers, not the objects. *)
Definition Insert tm (ptParent : T) (ulPos : nat) (ptChild : T) : outcome (CTreeMap T) :=
  _ ← GPOS_ASSERT (negb (bool_decide (ptParent = ptChild)));
  let ptlink := mkLink ptParent (N.of_nat ulPos) ptChild in
  found ← Find (m_plinkmap tm) ptlink;
  match found with
  | Some _ => mret tm
  | None =>
      '(ptnParent, tm) ← Ptn tm ptParent;
      '(ptnChild, tm) ← Ptn tm ptChild;
      nodes ← Add ptnParent ulPos ptnChild (m_nodes tm);
      '(fInserted, plinkmap) ← HashMap.Insert (m_plinkmap tm) ptlink true;
      _ ← GPOS_ASSERT fInserted;
      mret (mkTreeMap (m_ulCountNodes tm) ((m_ulCountLinks tm + 1) mod ULONG_MOD) (m_ptnRoot tm) (m_ptmap tm) plinkmap nodes)
  end.

Definition InsertRoot tm value : outcome (CTreeMap T) :=
  '(ptn, tm) ← Ptn tm value;
  nodes ← Add (m_ptnRoot tm) 0 ptn (m_nodes tm);
  mret (with_nodes tm nodes).

(** [UllCount]: the nodes without incoming edge become roots. *)
Definition hook_roots tm : outcome (nat * list (CTreeNode T)) :=
  entries ← iterate (m_ptmap tm);
  for_each entries (fun e '(ulNodes, nodes) =>
    ptn ← deref (snd <$> e);
    node ← deref (nodes !! ptn);
    nodes ← (if m_ulIncoming node =? 0 then Add (m_ptnRoot tm) 0 ptn nodes else mret nodes);
    mret (S ulNodes, nodes)) (O, m_nodes tm).

Definition UllCount tm : outcome (N * CTreeMap T) :=
  '(ulNodes, nodes) ← hook_roots tm;
  let tm := with_nodes tm nodes in
  if (ulNodes =? 0)%nat then mret (0, tm) else
  '(ull, nodes) ← UllCount_at (m_ptnRoot tm) (m_nodes tm);
  mret (ull, with_nodes tm nodes).

Definition PrUnrank {R U} (prfn : T -> list R -> U -> outcome (R * U)) tm (pU : U) (ullRank : N) : outcome (R * U * CTreeMap T) :=
  '(pr, pU, nodes) ← PrUnrank_node prfn (S (length (m_nodes tm))) (m_ptnRoot tm) ullRank pU (m_nodes tm);
  mret (pr, pU, with_nodes tm nodes).

Definition UlNodes tm : N := m_ulCountNodes tm.
Definition UlLinks tm : N := m_ulCountLinks tm.
End Map.
End TreeMap.
