(* ===== verification/TreeSpec.v ===== *)
(** * Trees of a map, their number and their order

    The abstract side of TreeMap.v: the trees that the links of a store of nodes
    describe, listed in the order of their ranks. *)
From stdpp Require Import base numbers list.
From S2P Require Import Prelude BitVector BitSet SetHash HashMap TreeMap.

Module TreeSpec.
Import HashMap TreeMap.
Open Scope outcome_scope.

(** ** One element of every list *)

(** The first list varies fastest. *)
Fixpoint choices {A} (ls : list (list A)) : list (list A) :=
  match ls with
  | [] => [[]]
  | l :: ls' => choices ls' ≫= fun xs => map (fun x => x :: xs) l
  end.

Fixpoint product (ns : list nat) : nat :=
  match ns with [] => 1 | n :: ns' => n * product ns' end.

Section Choices.
Context {A : Type}.
Implicit Types (l : list A) (ls : list (list A)) (xs : list A).

Lemma length_choices ls : length (choices ls) = product (map length ls).
Proof.
  induction ls as [|l ls IH]; [done|]. cbn. rewrite <- IH. clear IH. induction (choices ls) as [|xs xss IH]; cbn; [lia|].
  rewrite length_app, length_map, IH. lia.
Qed.

Lemma elem_choices ls xs : xs ∈ choices ls <-> Forall2 (fun x l => x ∈ l) xs ls.
Proof.
  revert xs. induction ls as [|l ls IH]; intros xs; cbn.
  - rewrite list_elem_of_singleton. split; [intros ->; constructor|]. by inversion 1.
  - rewrite list_elem_of_bind. setoid_rewrite IH. setoid_rewrite list_elem_of_fmap. split.
    + intros (ys & (x & -> & Hx) & Hys). by constructor.
    + inversion 1 as [|x ? ys]; subst. exists ys. eauto.
Qed.

Lemma NoDup_choices ls : Forall NoDup ls -> NoDup (choices ls).
Proof.
  induction 1 as [|l ls Hl _ IH]; cbn; [apply NoDup_singleton|].
  apply NoDup_bind; [| |done].
  - intros xs ys zs _ _ (x & -> & _)%list_elem_of_fmap (y & E & _)%list_elem_of_fmap. by injection E.
  - intros xs _. apply NoDup_fmap_2; [|done]. intros x y E. by injection E.
Qed.

(** The digits of a rank *)
Lemma lookup_choices l ls i xs x : choices ls !! (i / length l) = Some xs -> l !! (i mod length l) = Some x ->
  choices (l :: ls) !! i = Some (x :: xs).
Proof.
  cbn. intros Hxs Hx. assert (Hl : length l <> 0) by (destruct l; [done|cbn; lia]). revert i Hxs Hx.
  induction (choices ls) as [|ys yss IH]; intros i Hxs Hx; [done|]. cbn. destruct (decide (i < length l)) as [Hi|Hi].
  - rewrite lookup_app_l by (rewrite length_map; lia). rewrite Nat.div_small in Hxs by lia. injection Hxs as ->.
    rewrite Nat.mod_small in Hx by lia. rewrite list_lookup_fmap, Hx. done.
  - rewrite lookup_app_r by (rewrite length_map; lia). rewrite length_map. set (j := i - length l).
    assert (Hj : i = j + 1 * length l) by lia. apply IH.
    + rewrite Hj, Nat.div_add, Nat.add_1_r in Hxs by lia. done.
    + rewrite Hj, Nat.Div0.mod_add in Hx. done.
Qed.
End Choices.

Lemma lookup_bind_app {A B} (f : A -> list B) (pre post : list A) a i :
  i < length (f a) -> ((pre ++ a :: post) ≫= f) !! (length (pre ≫= f) + i) = f a !! i.
Proof. intros Hi. rewrite bind_app, lookup_app_r by lia. rewrite Nat.add_comm, Nat.add_sub. cbn. by rewrite lookup_app_l. Qed.

(** ** Trees *)

#[warnings="-register-all"]
Inductive tree := TNode (ptn : PtrNode) (children : list tree).

Definition root (t : tree) : PtrNode := match t with TNode p _ => p end.

Section Trees.
Context {T : Type} (s : list (CTreeNode T)).
Implicit Types (p c : PtrNode) (t : tree).

Definition arrays p : list (list PtrNode) := match s !! p with Some node => m_pdrgdrgptn node | None => [] end.
Definition child p c : Prop := exists alts, alts ∈ arrays p /\ c ∈ alts.

(** A tree takes one node of every array, with a tree of it. *)
Fixpoint is_tree t : Prop :=
  match t with
  | TNode p ts =>
      (fix go (ts : list tree) (ls : list (list PtrNode)) : Prop :=
         match ts, ls with
         | [], [] => True
         | t :: ts, l :: ls => root t ∈ l /\ is_tree t /\ go ts ls
         | _, _ => False
         end) ts (arrays p)
  end.

Lemma is_tree_iff p ts : is_tree (TNode p ts) <-> Forall2 (fun t alts => root t ∈ alts /\ is_tree t) ts (arrays p).
Proof.
  cbn. generalize (arrays p). induction ts as [|t ts IH]; intros [|l ls].
  - split; [constructor|done].
  - split; [done|]. by inversion 1.
  - split; [done|]. by inversion 1.
  - rewrite IH, Forall2_cons. tauto.
Qed.

Fixpoint trees (n : nat) p : list tree :=
  match n with
  | 0 => []
  | S n => map (TNode p) (choices (map (fun alts => alts ≫= trees n) (arrays p)))
  end.

(** The links descend. *)
Context (h : PtrNode -> nat) (Hh : forall p c, child p c -> h c < h p).

Lemma height_ind (P : PtrNode -> Prop) : (forall p, (forall c, h c < h p -> P c) -> P p) -> forall p, P p.
Proof.
  intros HP p. remember (h p) as n eqn:Hn. revert p Hn. induction n as [n IH] using lt_wf_ind. intros p ->. apply HP. intros c Hc. by eapply IH.
Qed.

Definition all_trees p : list tree := trees (S (h p)) p.

Lemma trees_stable n p : h p < n -> trees n p = all_trees p.
Proof.
  unfold all_trees. remember (S (h p)) as k eqn:Hk. assert (Hk' : h p < k) by lia. clear Hk. revert k p Hk'.
  induction n as [|n IH]; intros k p Hk Hn; [lia|]. destruct k as [|k]; [lia|]. cbn [trees]. do 2 f_equal.
  apply list_fmap_ext. intros i alts Halts. apply list_elem_of_lookup_2 in Halts.
  assert (Hc : forall c, c ∈ alts -> h c < h p) by (intros c Hc; apply Hh; by exists alts). clear Halts.
  induction alts as [|c alts IHa]; [done|]. cbn. pose proof (Hc c ltac:(left)). rewrite (IH k c) by lia. f_equal. apply IHa. intros x Hx. apply Hc. by right.
Qed.

Definition alternatives (alts : list PtrNode) : list tree := alts ≫= all_trees.

Lemma all_trees_unfold p : all_trees p = map (TNode p) (choices (map alternatives (arrays p))).
Proof.
  unfold all_trees. cbn [trees]. do 2 f_equal. apply list_fmap_ext. intros i alts Halts. apply list_elem_of_lookup_2 in Halts.
  unfold alternatives. assert (Hc : forall c, c ∈ alts -> h c < h p) by (intros c Hc; apply Hh; by exists alts). clear Halts.
  induction alts as [|c alts IHa]; [done|]. cbn [mbind list_bind]. rewrite (trees_stable (h p)) by (apply Hc; left). f_equal.
  apply IHa. intros x Hx. apply Hc. by right.
Qed.

Lemma Forall2_iff {A B} (P Q : A -> B -> Prop) xs ys : (forall x y, y ∈ ys -> P x y <-> Q x y) -> Forall2 P xs ys <-> Forall2 Q xs ys.
Proof.
  intros H. rewrite !Forall2_same_length_lookup. split; intros [Hl HF]; (split; [done|]); intros i x y Hx Hy;
    apply (H x y); eauto using list_elem_of_lookup_2.
Qed.

(** The list of a node has exactly the trees with that root. *)
Lemma elem_all_trees t p : t ∈ all_trees p <-> root t = p /\ is_tree t.
Proof.
  revert t. revert p. refine (height_ind _ _). intros p IH [q ts].
  rewrite all_trees_unfold, list_elem_of_fmap. cbn [root]. rewrite is_tree_iff.
  assert (Hiff : forall ts', Forall2 (fun t ts => t ∈ ts) ts' (map alternatives (arrays p)) <->
      Forall2 (fun t alts => root t ∈ alts /\ is_tree t) ts' (arrays p)).
  { intros ts'. rewrite Forall2_fmap_r. apply Forall2_iff. intros t alts Halts. unfold compose, alternatives. rewrite list_elem_of_bind. split.
    - intros (c & Ht & Hc). apply IH in Ht as [<- ?]; [done|]. apply Hh. by exists alts.
    - intros [Hr Ht]. exists (root t). split; [|done]. apply IH; [|done]. apply Hh. by exists alts. }
  split.
  - intros (ts' & [= -> ->] & Hc). split; [done|]. apply Hiff. by apply elem_choices.
  - intros [-> HF]. exists ts. split; [done|]. by apply elem_choices, Hiff.
Qed.

Lemma NoDup_alternatives alts : NoDup alts -> (forall c, c ∈ alts -> NoDup (all_trees c)) -> NoDup (alternatives alts).
Proof.
  intros Hn Hc. unfold alternatives. apply NoDup_bind; [|intros c Hin; by apply Hc|done].
  intros a b t _ _ [Ha _]%elem_all_trees [Hb _]%elem_all_trees. congruence.
Qed.

Lemma NoDup_all_trees p : (forall p alts, alts ∈ arrays p -> NoDup alts) -> NoDup (all_trees p).
Proof.
  intros Hnd. revert p. refine (height_ind _ _). intros p IH.
  rewrite all_trees_unfold. apply NoDup_fmap_2; [intros x y E; by injection E|]. apply NoDup_choices, Forall_fmap, Forall_forall.
  intros alts Halts. apply NoDup_alternatives; [by eapply Hnd|]. intros c Hc. apply IH. apply Hh. by exists alts.
Qed.

(** ** Numbers *)

Definition count_of p : nat := length (all_trees p).
Definition count_alts (alts : list PtrNode) : nat := length (alternatives alts).

Lemma count_alts_cons c alts : count_alts (c :: alts) = count_of c + count_alts alts.
Proof. unfold count_alts, alternatives, count_of. cbn. by rewrite length_app. Qed.

Lemma count_of_unfold p : count_of p = product (map count_alts (arrays p)).
Proof. unfold count_of. rewrite all_trees_unfold, length_map, length_choices, map_map. done. Qed.
End Trees.
End TreeSpec.
