(* ===== verification/TreeCount.v ===== *)
(** * Counting and unranking

    [CTreeNode::UllCount] (TreeMap.v) gives the number of the trees of a node, keeps
    it in the nodes it has passed, and fails in no other way than by an overflow;
    [PrUnrank] (Module TreeRank) rehydrates the tree at a rank. *)
From stdpp Require Import base numbers list.
From S2P Require Import Prelude BitVector BitSet SetHash HashMap TreeMap TreeSpec.

Module TreeCount.
Import HashMap TreeMap TreeSpec.
Open Scope outcome_scope.

(** The parts of a node that counting does not change *)
Definition shape {T} (node : CTreeNode T) : N * option T * list (list PtrNode) := (m_ul node, m_value node, m_pdrgdrgptn node).

Lemma Add_ull_cases a b : (exists c, Add_ull a b = Ret c /\ c = (a + b)%N) \/ (Add_ull a b = Abort FRaise /\ (ULLONG_MOD <= a + b)%N).
Proof.
  unfold Add_ull. assert (0 < ULLONG_MOD)%N by done. destruct (N.ltb_spec (ULLONG_MOD - 1 - b) a); [right; split; [done|lia]|left; by eexists].
Qed.

Lemma Multiply_cases a b : (exists c, Multiply a b = Ret c /\ c = (a * b)%N /\ (c < ULLONG_MOD)%N) \/
  (Multiply a b = Abort FRaise /\ (ULLONG_MOD <= a * b)%N).
Proof.
  unfold Multiply. assert (0 < ULLONG_MOD)%N by done. destruct (N.ltb_spec 0 b) as [Hb|]; cbn [andb]; [|left; eexists; split_and!; [done|done|nia]].
  destruct (N.ltb_spec ((ULLONG_MOD - 1) / b) a) as [Ha|Ha]; [right; split; [done|]|left; eexists; split_and!; [done|done|]].
  - pose proof (N.mul_succ_div_gt (ULLONG_MOD - 1) b ltac:(lia)). assert (N.succ ((ULLONG_MOD - 1) / b) <= a)%N by lia. nia.
  - pose proof (N.Div0.mul_div_le (ULLONG_MOD - 1) b). assert (b * a <= b * ((ULLONG_MOD - 1) / b))%N by nia. lia.
Qed.

Section Count.
Context {T : Type} (s0 : list (CTreeNode T)) (h : PtrNode -> nat).
Context (Hh : forall p c, child s0 p c -> h c < h p) (Hwf : forall p c, child s0 p c -> c < length s0).
Implicit Types (s : list (CTreeNode T)) (p c : PtrNode) (node : CTreeNode T) (alts : list PtrNode).

#[local] Abbreviation count_of := (count_of s0 h).
#[local] Abbreviation count_alts := (count_alts s0 h).

Definition in_state (ens : ENodeState) s p : Prop := exists node, s !! p = Some node /\ m_ens node = ens.
#[local] Abbreviation counted := (in_state EnsCounted).
#[local] Abbreviation counting := (in_state EnsCounting).

Record good s : Prop := {
  gd_shape : map shape s = map shape s0;
  gd_count p node : s !! p = Some node -> m_ens node = EnsCounted ->
    m_ullCount node = N.of_nat (count_of p) /\ (N.of_nat (count_of p) < ULLONG_MOD)%N;
  gd_children p c : counted s p -> count_of p <> 0 -> child s0 p c -> counted s c;
}.

(** A later store, with the same nodes being counted *)
Record after s s' : Prop := {
  af_good : good s';
  af_counting p : counting s' p <-> counting s p;
  af_counted p : counted s p -> counted s' p;
}.

Lemma after_refl s : good s -> after s s.
Proof. by split. Qed.

Lemma after_trans s1 s2 s3 : after s1 s2 -> after s2 s3 -> after s1 s3.
Proof. intros [H1 H2 H3] [H4 H5 H6]. split; [done| |auto]. intros p. by rewrite H5, H2. Qed.

Lemma good_length s : good s -> length s = length s0.
Proof. intros Hg. by rewrite <- (length_map shape s), (gd_shape s Hg), length_map. Qed.

Lemma good_node s p : good s -> p < length s0 -> exists node, s !! p = Some node /\ m_pdrgdrgptn node = arrays s0 p.
Proof.
  intros Hg Hp. destruct (lookup_lt_is_Some_2 s p) as [node Hn]; [by rewrite good_length|]. exists node. split; [done|].
  assert (map shape s !! p = Some (shape node)) as Hs by (by rewrite list_lookup_fmap, Hn). rewrite (gd_shape s Hg), list_lookup_fmap in Hs.
  apply fmap_Some in Hs as (node0 & Hn0 & Hs). unfold arrays. rewrite Hn0. unfold shape in Hs. congruence.
Qed.

Lemma set_shape s p node node' : s !! p = Some node -> shape node' = shape node -> map shape (<[p := node']> s) = map shape s.
Proof. intros Hn Hs. rewrite list_fmap_insert, Hs. apply list_insert_id. by rewrite list_lookup_fmap, Hn. Qed.

(** ** Overflow *)

Definition weight p : nat := product (map (fun alts => max 1 (count_alts alts)) (arrays s0 p)).
Definition overflow : Prop := exists p, (ULLONG_MOD <= N.of_nat (weight p))%N.

(** The computation returns, or raises an exception because of an overflow. *)
Definition or_overflow {A} (m : outcome A) (P : A -> Prop) : Prop := (m ⤳ P) \/ (m = Abort FRaise /\ overflow).

Lemma oo_ret {A} (a : A) (P : A -> Prop) : P a -> or_overflow (Ret a) P.
Proof. intros H. left. by apply returns_ret. Qed.

Lemma oo_bind {A B} (m : outcome A) (k : A -> outcome B) P Q :
  or_overflow m P -> (forall a, P a -> or_overflow (k a) Q) -> or_overflow (m ≫= k) Q.
Proof. intros [(a & -> & Ha)|[-> Ho]] Hk; [by apply Hk|by right]. Qed.

Lemma oo_mono {A} (m : outcome A) (P Q : A -> Prop) : or_overflow m P -> (forall a, P a -> Q a) -> or_overflow m Q.
Proof. intros [H|H] HPQ; [left; by eapply returns_mono|by right]. Qed.

Lemma oo_add a b (P : N -> Prop) p : a + b <= weight p -> P (N.of_nat (a + b)) -> or_overflow (Add_ull (N.of_nat a) (N.of_nat b)) P.
Proof.
  intros Hw HP. destruct (Add_ull_cases (N.of_nat a) (N.of_nat b)) as [(c & -> & ->)|[-> Ho]]; [apply oo_ret; by rewrite <- Nat2N.inj_add|].
  right. split; [done|]. exists p. lia.
Qed.

Lemma oo_mul a b p : a * b <= weight p ->
  or_overflow (Multiply (N.of_nat a) (N.of_nat b)) (fun n => n = N.of_nat (a * b) /\ (n < ULLONG_MOD)%N).
Proof.
  intros Hw. destruct (Multiply_cases (N.of_nat a) (N.of_nat b)) as [(c & -> & -> & Hc)|[-> Ho]]; [apply oo_ret; split; [by rewrite <- Nat2N.inj_mul|done]|].
  right. split; [done|]. exists p. lia.
Qed.

(** ** The loops *)

(** What is known of the count of a node in a store from which no node that is being
    counted can be reached *)
Definition counts (f : PtrNode -> list (CTreeNode T) -> outcome (N * list (CTreeNode T))) s c : Prop :=
  forall s', after s s' -> or_overflow (f c s') (fun r => r.1 = N.of_nat (count_of c) /\ after s' r.2 /\ counted r.2 c).

Lemma count_child_spec f s alts p : good s -> count_alts alts <= weight p -> (forall c, c ∈ alts -> counts f s c) ->
  or_overflow (count_child f alts s) (fun r => r.1 = N.of_nat (count_alts alts) /\ after s r.2 /\ forall c, c ∈ alts -> counted r.2 c).
Proof.
  intros Hg Hw Hf. unfold count_child.
  assert (Hgen : forall rest a s', after s s' -> a + count_alts rest <= weight p -> (forall c, c ∈ rest -> counts f s c) ->
    or_overflow (for_each rest (fun ptn '(ull, s) => '(ullCount, s) ← f ptn s; ull ← Add_ull ull ullCount; mret (ull, s)) (N.of_nat a, s'))
      (fun r => r.1 = N.of_nat (a + count_alts rest) /\ after s' r.2 /\ forall c, c ∈ rest -> counted r.2 c)).
  { induction rest as [|c rest IH]; intros a s' Hs Ha Hr; cbn [for_each].
    - apply oo_ret. split_and!; [cbn; f_equal; unfold TreeSpec.count_alts; cbn; lia|apply after_refl, Hs|by intros c ?%not_elem_of_nil].
    - rewrite count_alts_cons in *. eapply oo_bind; [eapply oo_bind; [apply (Hr c ltac:(left) s' Hs)|]|].
      + intros [n s1] (E & Hs1 & Hc1). cbn in E, Hs1, Hc1. subst n. eapply oo_bind; [apply (oo_add a (count_of c) (fun n => n = N.of_nat (a + count_of c)) p); [lia|done]|].
        intros n ->. apply (oo_ret _ (fun r => r.1 = N.of_nat (a + count_of c) /\ after s' r.2 /\ counted r.2 c)). done.
      + intros [n s1] (E & Hs1 & Hc1). cbn in E, Hs1, Hc1. subst n. eapply oo_mono; [apply (IH (a + count_of c) s1)|].
        * by eapply after_trans.
        * lia.
        * intros x Hx. apply Hr. by right.
        * intros r (E & Hr1 & Hr2). split_and!; [rewrite E; f_equal; lia|by eapply after_trans|].
          intros x [->|Hx]%elem_of_cons; [by apply (af_counted _ _ Hr1)|by apply Hr2]. }
  apply (Hgen alts 0 s); [by apply after_refl|done|done].
Qed.

Lemma weight_parts a c P w : 1 <= a -> 1 <= P -> a * (max 1 c * P) <= w -> c <= w /\ a * c <= w /\ a * c * P <= w.
Proof.
  intros Ha HP Hw. assert (Hm : c <= max 1 c) by lia. revert Hw Hm. generalize (max 1 c). intros m Hw Hm.
  assert (H1 : m * 1 <= m * P) by (apply Nat.mul_le_mono_l; lia). assert (H2 : 1 * (m * P) <= a * (m * P)) by (apply Nat.mul_le_mono_r; lia).
  assert (H3 : a * m <= a * (m * P)) by (apply Nat.mul_le_mono_l; lia). assert (H4 : a * c <= a * m) by (apply Nat.mul_le_mono_l; lia).
  assert (H5 : c * P <= m * P) by (apply Nat.mul_le_mono_r; lia). assert (H6 : a * (c * P) <= a * (m * P)) by (apply Nat.mul_le_mono_l; lia). lia.
Qed.

Lemma weights_pos lss : 1 <= product (map (fun alts => max 1 (count_alts alts)) lss).
Proof. induction lss as [|alts lss IH]; cbn [map product]; [lia|]. nia. Qed.

Lemma count_children_spec f s p : good s -> (forall c, child s0 p c -> counts f s c) ->
  or_overflow (count_children f (arrays s0 p) s) (fun r => r.1 = N.of_nat (count_of p) /\ (r.1 < ULLONG_MOD)%N /\ after s r.2 /\
    (count_of p <> 0 -> forall c, child s0 p c -> counted r.2 c)).
Proof.
  intros Hg Hf. unfold count_children. rewrite (count_of_unfold s0 h Hh p).
  assert (Hgen : forall lss a s', after s s' -> 1 <= a -> (N.of_nat a < ULLONG_MOD)%N -> a * product (map (fun alts => max 1 (count_alts alts)) lss) <= weight p ->
    (forall alts c, alts ∈ lss -> c ∈ alts -> counts f s c) ->
    or_overflow (for_until lss (fun candidates '(ullCount, s) =>
        '(ull, s) ← count_child f candidates s;
        if (ull =? 0)%N then mret (true, (0%N, s)) else
        ullCount ← Multiply ullCount ull;
        mret (false, (ullCount, s))) (N.of_nat a, s'))
      (fun r => r.2.1 = N.of_nat (a * product (map count_alts lss)) /\ (r.2.1 < ULLONG_MOD)%N /\ after s' r.2.2 /\
        (product (map count_alts lss) <> 0 -> forall alts c, alts ∈ lss -> c ∈ alts -> counted r.2.2 c))).
  { induction lss as [|alts lss IH]; intros a s' Hs Ha Ham Hw Hl; cbn [for_until map product].
    - apply oo_ret. cbn. split_and!; [f_equal; lia|done|apply after_refl, Hs|]. by intros _ alts c ?%not_elem_of_nil.
    - pose proof (weights_pos lss) as Hpos. cbn [map product] in Hw.
      destruct (weight_parts a (count_alts alts) _ _ Ha Hpos Hw) as (Hw1 & Hw2 & Hw3).
      apply (oo_bind _ _ (fun r : bool * (N * list (CTreeNode T)) => after s' r.2.2 /\ (forall c, c ∈ alts -> counted r.2.2 c) /\
        if r.1 then count_alts alts = 0 /\ r.2.1 = 0%N else count_alts alts <> 0 /\ r.2.1 = N.of_nat (a * count_alts alts) /\ (r.2.1 < ULLONG_MOD)%N)).
      + eapply oo_bind; [apply (count_child_spec f s' alts p); [apply Hs|done|]|].
        * intros c Hc s2 Hs2. apply (Hl alts c); [left|done|by eapply after_trans].
        * intros [n s1] (E & Hs1 & Hc1). cbn in E, Hs1, Hc1. subst n.
          destruct (N.eqb_spec (N.of_nat (count_alts alts)) 0) as [E|E]; [apply oo_ret; cbn; split_and!; [done|done|lia|done]|].
          eapply oo_bind; [by apply (oo_mul a (count_alts alts) p)|].
          intros n [-> Hn]. apply oo_ret. cbn. split_and!; [done|done|lia|done|done].
      + intros [stop [n s1]] (Hs1 & Hc1 & Hr). cbn [fst snd] in Hs1, Hc1, Hr.
        destruct stop; [destruct Hr as [Hz ->]|destruct Hr as (Hz & -> & Hlt)].
        * apply oo_ret. cbn [fst snd]. rewrite Hz. split_and!; [cbn; lia|done|done|]. intros Hne. cbn in Hne. lia.
        * eapply oo_mono; [apply (IH (a * count_alts alts) _)|].
          -- by eapply after_trans.
          -- nia.
          -- done.
          -- done.
          -- intros alts' c Ha' Hc'. apply (Hl alts'); [by right|done].
          -- intros r (E & Hr0 & Hr1 & Hr2). split_and!; [rewrite E; f_equal; lia|done|by eapply after_trans|].
             intros Hne alts' c [->|Ha']%elem_of_cons Hc'; [by apply (af_counted _ _ Hr1), Hc1|]. eapply Hr2; [|done|done]. intros E0. rewrite E0 in Hne. lia. }
  eapply oo_bind; [apply (Hgen (arrays s0 p) 1 s)|].
  - by apply after_refl.
  - lia.
  - done.
  - unfold weight. lia.
  - intros alts c Ha Hc. apply Hf. by exists alts.
  - intros [stop [n s1]] (E & Hlt & Hs1 & Hc1). cbn [fst snd] in E, Hlt, Hs1, Hc1. apply oo_ret. cbn [fst snd]. split_and!; [rewrite E; f_equal; lia|done|done|].
    intros Hne c (alts & Ha & Hc). by eapply Hc1.
Qed.

(** ** A node *)

Lemma state_insert ens s p node q : p < length s -> in_state ens (<[p := node]> s) q <-> (q = p /\ m_ens node = ens) \/ (q <> p /\ in_state ens s q).
Proof.
  intros Hp. unfold in_state. destruct (decide (q = p)) as [->|Hne].
  - setoid_rewrite list_lookup_insert_eq; [|done]. split; [intros (x & [= <-] & H); by left|]. intros [[_ H]|[? _]]; [eauto|done].
  - setoid_rewrite list_lookup_insert_ne; [|done]. split; [by right|]. intros [[? _]|[_ ?]]; done.
Qed.

(** A node that becomes counted, or starts to be counted *)
Lemma good_start s p node : good s -> s !! p = Some node -> m_ens node = EnsUncounted -> good (<[p := set_state EnsCounting node]> s).
Proof.
  intros Hg Hn He. pose proof (lookup_lt_Some _ _ _ Hn) as Hp. split.
  - rewrite <- (gd_shape s Hg). by eapply set_shape.
  - intros q node' Hq Hs. destruct (decide (q = p)) as [->|Hne].
    + rewrite list_lookup_insert_eq in Hq by done. injection Hq as <-. done.
    + rewrite list_lookup_insert_ne in Hq by done. by apply (gd_count s Hg).
  - intros q c Hq Hz Hc. rewrite state_insert in Hq |- * by done. destruct Hq as [[_ Hq]|[Hne Hq]]; [done|]. right.
    pose proof (gd_children s Hg q c Hq Hz Hc) as Hcc. split; [|done]. intros ->. destruct Hcc as (x & Hx & Hx'). rewrite Hn in Hx. injection Hx as <-. congruence.
Qed.

Lemma good_finish s p node : good s -> s !! p = Some node -> (N.of_nat (count_of p) < ULLONG_MOD)%N -> (count_of p <> 0 -> forall c, child s0 p c -> counted s c) ->
  good (<[p := set_count (N.of_nat (count_of p)) node]> s).
Proof.
  intros Hg Hn Hlt Hch. pose proof (lookup_lt_Some _ _ _ Hn) as Hp. split.
  - rewrite <- (gd_shape s Hg). by eapply set_shape.
  - intros q node' Hq Hs. destruct (decide (q = p)) as [->|Hne].
    + rewrite list_lookup_insert_eq in Hq by done. injection Hq as <-. done.
    + rewrite list_lookup_insert_ne in Hq by done. by apply (gd_count s Hg).
  - intros q c Hq Hz Hc. rewrite state_insert in Hq |- * by done. destruct (decide (c = p)) as [->|Hne]; [by left|]. right. split; [done|].
    destruct Hq as [[-> _]|[_ Hq]]; [by apply Hch|by eapply gd_children].
Qed.

(** [UllCount]: the number of trees, or an overflow; never a cycle, never the bound of
    the recursion *)
Lemma UllCount_node_ret n s p : good s -> p < length s0 -> (forall q, counting s q -> h p < h q) -> h p < n ->
  or_overflow (UllCount_node n p s) (fun r => r.1 = N.of_nat (count_of p) /\ after s r.2 /\ counted r.2 p).
Proof.
  revert s p. induction n as [|n IH]; intros s p Hg Hp Hcg Hn; [lia|]. cbn [UllCount_node].
  destruct (good_node s p Hg Hp) as (node & Hnode & Harr). rewrite Hnode. cbn [deref mbind outcome_bind].
  rewrite bind_assert.
  2: { apply negb_true_iff, bool_decide_eq_false. intros E. assert (counting s p) as Hc by (by exists node). apply Hcg in Hc. lia. }
  unfold FCounted. case_bool_decide as E.
  { apply oo_ret. cbn. split_and!; [by apply (gd_count s Hg p)|by apply after_refl|by exists node]. }
  assert (He : m_ens node = EnsUncounted).
  { destruct (m_ens node) eqn:En; [done| |done]. assert (counting s p) as Hc by (by exists node). apply Hcg in Hc. lia. }
  pose proof (lookup_lt_Some _ _ _ Hnode) as Hlt. set (s1 := <[p := set_state EnsCounting node]> s).
  assert (Hg1 : good s1) by (by apply good_start). rewrite Harr.
  eapply oo_bind; [apply (count_children_spec _ s1 p Hg1)|].
  - intros c Hc s' Hs'. apply IH; [apply Hs'|by eapply Hwf| |pose proof (Hh p c Hc); lia].
    intros q Hq. apply (af_counting _ _ Hs'), state_insert in Hq; [|done]. pose proof (Hh p c Hc).
    destruct Hq as [[-> _]|[_ Hq]]; [done|]. apply Hcg in Hq. lia.
  - intros [ull s2] (Hull & Hmod & Hs2 & Hch). cbn [fst snd] in Hull, Hmod, Hs2, Hch. subst ull. destruct (good_node s2 p (af_good _ _ Hs2) Hp) as (node2 & Hnode2 & _). rewrite Hnode2. cbn [deref mbind outcome_bind].
    pose proof (lookup_lt_Some _ _ _ Hnode2) as Hlt2. apply oo_ret. cbn [fst snd]. split_and!; [done| |by rewrite state_insert by done; left].
    split; [apply good_finish; [apply Hs2|done..]| |].
    + intros q. rewrite state_insert by done. rewrite (af_counting _ _ Hs2). unfold s1. rewrite state_insert by done. split.
      * intros [[_ Hd]|[Hne [[? _]|[_ ?]]]]; [discriminate Hd|done|done].
      * intros Hq. right. assert (q <> p); [|tauto]. intros ->. apply Hcg in Hq. lia.
    + intros q Hq. rewrite state_insert by done. destruct (decide (q = p)) as [->|Hne]; [by left|]. right. split; [done|].
      apply (af_counted _ _ Hs2). unfold s1. rewrite state_insert by done. by right.
Qed.
End Count.
End TreeCount.

(** ** Unranking

    In a store whose counts are known [CTreeNode::PrUnrank] (TreeMap.v) rehydrates the
    tree that stands at its rank in the list of the trees of a node. *)

Module TreeRank.
Import HashMap TreeMap TreeSpec TreeCount.
Open Scope outcome_scope.

(** A tree is rehydrated bottom-up, the children from left to right. *)
Section Rehydrate.
Context {T R U : Type} (s : list (CTreeNode T)) (prfn : T -> list R -> U -> outcome (R * U)).

Fixpoint rehydrate (t : tree) (pU : U) : outcome (R * U) :=
  match t with
  | TNode p ts =>
      '(rs, pU) ← (fix go (ts : list tree) (pU : U) : outcome (list R * U) :=
                     match ts with
                     | [] => mret ([], pU)
                     | t :: ts => ('(r, pU) ← rehydrate t pU; '(rs, pU) ← go ts pU; mret (r :: rs, pU))
                     end) ts pU;
      node ← deref (s !! p);
      value ← deref (m_value node);
      prfn value rs pU
  end.

Fixpoint rehydrate_all (ts : list tree) (pU : U) : outcome (list R * U) :=
  match ts with
  | [] => mret ([], pU)
  | t :: ts => ('(r, pU) ← rehydrate t pU; '(rs, pU) ← rehydrate_all ts pU; mret (r :: rs, pU))
  end.

Lemma rehydrate_node p ts pU : rehydrate (TNode p ts) pU =
  '(rs, pU) ← rehydrate_all ts pU; node ← deref (s !! p); value ← deref (m_value node); prfn value rs pU.
Proof. done. Qed.
End Rehydrate.

Section Rank.
Context {T R U : Type} (prfn : T -> list R -> U -> outcome (R * U)).
Context (s0 : list (CTreeNode T)) (h : nat -> nat).
Context (Hh : forall p c, child s0 p c -> h c < h p) (Hwf : forall p c, child s0 p c -> c < length s0).
Context (s : list (CTreeNode T)) (Hg : good s0 h s).

#[local] Abbreviation count_of := (count_of s0 h) (only parsing).
#[local] Abbreviation counted := (in_state EnsCounted s) (only parsing).

(** With the state of the store appended *)
Definition with_store {A} (m : outcome (A * U)) : outcome (A * U * list (CTreeNode T)) :=
  match m with Ret (a, pU) => Ret (a, pU, s) | Abort f => Abort f end.

Lemma with_store_bind {A B} (m : outcome (A * U)) (k : A -> U -> outcome (B * U)) :
  with_store ('(a, pU) ← m; k a pU) = ('(a, pU, s') ← with_store m; with_store (k a pU)).
Proof. by destruct m as [[a pU]|f]. Qed.

Lemma UllCount_at_counted p : counted p -> UllCount_at p s = Ret (N.of_nat (count_of p), s) /\ (N.of_nat (count_of p) < ULLONG_MOD)%N.
Proof.
  intros (node & Hn & He). destruct (gd_count _ _ _ Hg p node Hn He) as [Hc Hlt]. split; [|done].
  unfold UllCount_at. cbn [UllCount_node]. rewrite Hn. cbn [deref mbind outcome_bind]. rewrite bind_assert by (rewrite He; done).
  unfold FCounted. by rewrite bool_decide_true, Hc.
Qed.

(** A node with trees whose count is known *)
Section Counted.
Context (p : nat) (Hp : counted p) (Hz : count_of p <> 0).

Lemma counted_child c : child s0 p c -> counted c.
Proof. by apply (gd_children _ _ _ Hg). Qed.

Lemma counted_lt : p < length s0.
Proof. destruct Hp as (node & Hn & _). rewrite <- (good_length s0 h s Hg). by eapply lookup_lt_Some. Qed.

Lemma product_pos (l : list nat) n : product l <> 0 -> n ∈ l -> 0 < n /\ n <= product l.
Proof.
  induction l as [|m l IH]; intros Hl Hn; [by apply not_elem_of_nil in Hn|]. cbn in *.
  assert (Hm : 0 < m) by (destruct m; [done|lia]). assert (Hl' : product l <> 0) by (intros E; apply Hl; rewrite E; lia).
  apply elem_of_cons in Hn as [->|Hn]; [split; [done|]; rewrite <- (Nat.mul_1_r m) at 1; apply Nat.mul_le_mono_l; lia|].
  destruct (IH Hl' Hn) as [H1 H2]. split; [done|]. etrans; [exact H2|]. rewrite <- (Nat.mul_1_l (product l)) at 1. apply Nat.mul_le_mono_r. lia.
Qed.

Lemma alts_bound alts : alts ∈ arrays s0 p -> 0 < count_alts s0 h alts /\ (N.of_nat (count_alts s0 h alts) < ULLONG_MOD)%N.
Proof.
  intros Ha. pose proof Hz as Hz'. rewrite (count_of_unfold s0 h Hh p) in Hz'.
  destruct (product_pos _ (count_alts s0 h alts) Hz') as [H1 H2]; [by apply list_elem_of_fmap_2|]. split; [done|].
  rewrite <- (count_of_unfold s0 h Hh p) in H2. destruct (UllCount_at_counted p Hp) as [_ H3]. lia.
Qed.

Lemma count_child_counted alts : (forall c, c ∈ alts -> counted c) -> (N.of_nat (count_alts s0 h alts) < ULLONG_MOD)%N ->
  count_child UllCount_at alts s = Ret (N.of_nat (count_alts s0 h alts), s).
Proof.
  intros Hc Hb. unfold count_child.
  assert (Hgen : forall rest a, (forall c, c ∈ rest -> counted c) -> (N.of_nat (a + count_alts s0 h rest) < ULLONG_MOD)%N ->
    for_each rest (fun ptn '(ull, s) => '(ullCount, s) ← UllCount_at ptn s; ull ← Add_ull ull ullCount; mret (ull, s)) (N.of_nat a, s) =
    Ret (N.of_nat (a + count_alts s0 h rest), s)).
  { induction rest as [|c rest IH]; intros a Hr Ha; cbn [for_each]; [unfold count_alts, alternatives; cbn; by rewrite Nat.add_0_r|].
    rewrite count_alts_cons in *. destruct (UllCount_at_counted c (Hr c ltac:(left))) as [-> _]. cbn [mbind outcome_bind].
    destruct (Add_ull_cases (N.of_nat a) (N.of_nat (TreeSpec.count_of s0 h c))) as [(n & -> & ->)|[_ Ho]]; [|lia]. cbn [mbind outcome_bind mret outcome_ret].
    rewrite <- Nat2N.inj_add, IH; [do 2 f_equal; lia|intros x Hx; apply Hr; by right|lia]. }
  apply (Hgen alts 0); [done|]. by rewrite Nat.add_0_l.
Qed.

Lemma UllCount_child_counted i alts : arrays s0 p !! i = Some alts -> UllCount_child p i s = Ret (N.of_nat (count_alts s0 h alts), s).
Proof.
  intros Hi. destruct (good_node s0 h s p Hg counted_lt) as (node & Hn & Ha). unfold UllCount_child. rewrite Hn. cbn [deref mbind outcome_bind].
  rewrite Ha, (subscript_some _ _ _ Hi). cbn [mbind outcome_bind]. pose proof (list_elem_of_lookup_2 _ _ _ Hi) as Hin.
  apply count_child_counted; [|by apply alts_bound]. intros c Hc. apply counted_child. by exists alts.
Qed.

End Counted.

(** The candidate of a rank *)
Lemma find_candidate_ret alts : (forall c, c ∈ alts -> counted c) -> forall prev r, r < count_alts s0 h alts ->
  exists c r', c ∈ alts /\ find_candidate alts prev (N.of_nat r) s = Ret (Some c, N.of_nat r', s) /\ r' < count_of c /\
    alternatives s0 h alts !! r = all_trees s0 h c !! r'.
Proof.
  induction alts as [|c alts IH]; intros Hc prev r Hr; [unfold count_alts, alternatives in Hr; cbn in Hr; lia|]. cbn [find_candidate].
  rewrite count_alts_cons in Hr. destruct (UllCount_at_counted c (Hc c ltac:(left))) as [-> _]. cbn [mbind outcome_bind].
  unfold alternatives. cbn [mbind list_bind]. fold (alternatives s0 h alts). destruct (N.ltb_spec (N.of_nat r) (N.of_nat (TreeSpec.count_of s0 h c))) as [Hlt|Hge].
  - exists c, r. split_and!; [left|done|lia|]. apply lookup_app_l. unfold TreeSpec.count_of in Hlt. lia.
  - destruct (IH ltac:(intros; apply Hc; by right) (Some c) (r - TreeSpec.count_of s0 h c)) as (c' & r' & Hin & Hf & Hr' & Hl); [lia|].
    exists c', r'. split_and!; [by right| |done|].
    + rewrite <- Hf. f_equal. lia.
    + rewrite <- Hl. apply lookup_app_r. unfold TreeSpec.count_of in Hge. lia.
Qed.
(** What [unrank] does at the children of [p] *)
Definition unranks (unrank : nat -> N -> U -> list (CTreeNode T) -> outcome (R * U * list (CTreeNode T))) c : Prop :=
  counted c -> count_of c <> 0 -> forall r t pU, all_trees s0 h c !! r = Some t -> unrank c (N.of_nat r) pU s = with_store (rehydrate s prfn t pU).

Lemma PrUnrank_child_ret unrank p i alts r t pU : counted p -> count_of p <> 0 -> arrays s0 p !! i = Some alts ->
  (forall c, child s0 p c -> unranks unrank c) -> alternatives s0 h alts !! r = Some t ->
  PrUnrank_child unrank p i (N.of_nat r) pU s = with_store (rehydrate s prfn t pU).
Proof.
  intros Hp Hz Hi Hun Ht. pose proof (list_elem_of_lookup_2 _ _ _ Hi) as Hin. pose proof (lookup_lt_Some _ _ _ Ht) as Hr.
  unfold PrUnrank_child. rewrite (UllCount_child_counted p Hp Hz i alts Hi). cbn [mbind outcome_bind].
  rewrite bind_assert by (unfold count_alts; lia). destruct (good_node s0 h s p Hg (counted_lt p Hp)) as (node & Hn & Ha). rewrite Hn. cbn [deref mbind outcome_bind].
  rewrite Ha, (subscript_some _ _ _ Hi). cbn [mbind outcome_bind].
  assert (Hc : forall c, c ∈ alts -> counted c) by (intros c Hc; apply (counted_child p Hp Hz); by exists alts).
  destruct (find_candidate_ret alts Hc None r Hr) as (c & r' & Hcin & Hf & Hr' & Hl). rewrite Hf. cbn [mbind outcome_bind].
  rewrite bind_assert by done. cbn [deref mbind outcome_bind]. apply Hun; [by exists alts|by apply Hc|lia|by rewrite <- Hl].
Qed.

Lemma unrank_children_ret unrank p r ts pU : counted p -> count_of p <> 0 -> (forall c, child s0 p c -> unranks unrank c) ->
  choices (map (alternatives s0 h) (arrays s0 p)) !! r = Some ts ->
  exists rest, unrank_children unrank p (length (arrays s0 p)) (N.of_nat r) pU s =
    match rehydrate_all s prfn ts pU with Ret (rs, pU) => Ret (rs, rest, pU, s) | Abort f => Abort f end.
Proof.
  intros Hp Hz Hun Hts. unfold unrank_children.
  assert (Hgen : forall lss pre r ts acc pU, arrays s0 p = pre ++ lss -> choices (map (alternatives s0 h) lss) !! r = Some ts ->
    exists rest, for_each (seq (length pre) (length lss)) (fun ulChild '(pdrg, ullRankRem, pU, s) =>
      '(ullLocalCount, s) ← UllCount_child p ulChild s;
      _ ← GPOS_ASSERT (0 <? ullLocalCount)%N;
      '(pr, pU, s) ← PrUnrank_child unrank p ulChild (ullRankRem mod ullLocalCount)%N pU s;
      mret (pdrg ++ [pr], (ullRankRem / ullLocalCount)%N, pU, s)) (acc, N.of_nat r, pU, s) =
    match rehydrate_all s prfn ts pU with Ret (rs, pU) => Ret (acc ++ rs, rest, pU, s) | Abort f => Abort f end).
  { clear r ts pU Hts. induction lss as [|alts lss IH]; intros pre r ts acc pU Heq Hts.
    - exists (N.of_nat r). cbn in Hts. destruct r as [|r]; [|done]. injection Hts as <-. cbn. by rewrite app_nil_r.
    - cbn [length seq for_each]. assert (Hi : arrays s0 p !! length pre = Some alts) by (rewrite Heq; by apply list_lookup_middle).
      destruct (alts_bound p Hp Hz alts (list_elem_of_lookup_2 _ _ _ Hi)) as [Hpos _].
      rewrite (UllCount_child_counted p Hp Hz _ _ Hi). cbn [mbind outcome_bind]. rewrite bind_assert by lia.
      rewrite <- Nat2N.inj_mod, <- Nat2N.inj_div. cbn [map] in Hts.
      destruct (lookup_lt_is_Some_2 (alternatives s0 h alts) (r mod count_alts s0 h alts)) as [t Ht]; [apply (Nat.mod_upper_bound r (count_alts s0 h alts)); lia|].
      destruct (choices (map (alternatives s0 h) lss) !! (r / count_alts s0 h alts)) as [ts'|] eqn:Hts'.
      2: { exfalso. apply lookup_ge_None in Hts'. apply lookup_lt_Some in Hts. rewrite length_choices in Hts. cbn [map product] in Hts.
           rewrite <- length_choices in Hts. pose proof (Nat.Div0.div_lt_upper_bound r (count_alts s0 h alts) _ Hts). lia. }
      pose proof (lookup_choices _ _ _ _ _ Hts' Ht) as E. rewrite E in Hts. injection Hts as <-.
      rewrite (PrUnrank_child_ret unrank p _ alts _ t pU Hp Hz Hi Hun Ht). cbn [rehydrate_all].
      destruct (rehydrate s prfn t pU) as [[pr pU']|f]; [|exists 0%N; done]. cbn [with_store mbind outcome_bind].
      destruct (IH (pre ++ [alts]) (r / count_alts s0 h alts) ts' (acc ++ [pr]) pU') as [rest Hrest]; [by rewrite <- (assoc_L (++))|done|].
      exists rest. rewrite length_app, Nat.add_1_r in Hrest. cbn [mret outcome_ret mbind outcome_bind]. rewrite Hrest.
      destruct (rehydrate_all s prfn ts' pU') as [[rs pU'']|f]; cbn; [|done]. by rewrite <- (assoc_L (++)). }
  by apply (Hgen (arrays s0 p) []).
Qed.

Lemma PrUnrank_node_ret n p r t pU : counted p -> h p < n -> all_trees s0 h p !! r = Some t ->
  (forall q node, s !! q = Some node -> m_ul node = 0%N -> forall p, ~ child s0 p q) -> (forall node, s !! p = Some node -> m_ul node <> 0%N) ->
  PrUnrank_node prfn n p (N.of_nat r) pU s = with_store (rehydrate s prfn t pU).
Proof.
  revert p r t pU. induction n as [|n IH]; intros p r t pU Hp Hn Ht Hroot Hul; [lia|]. cbn [PrUnrank_node].
  assert (Hz : count_of p <> 0) by (apply lookup_lt_Some in Ht; unfold TreeSpec.count_of; lia).
  destruct (good_node s0 h s p Hg (counted_lt p Hp)) as (node & Hnode & Ha). rewrite Hnode. cbn [deref mbind outcome_bind].
  destruct (N.eqb_spec (m_ul node) 0) as [E|_]; [by destruct (Hul node Hnode)|]. rewrite Ha.
  rewrite (all_trees_unfold s0 h Hh p) in Ht. apply list_lookup_fmap_Some in Ht as (ts & -> & Hts).
  destruct (unrank_children_ret (PrUnrank_node prfn n) p r ts pU Hp Hz) as [rest Hr]; [|done|].
  - intros c Hc Hcc Hcz r' t' pU' Ht'. apply IH; [done|pose proof (Hh p c Hc); lia|done|done|].
    intros node' Hn' E. by eapply Hroot.
  - rewrite Hr, rehydrate_node, Hnode. destruct (rehydrate_all s prfn ts pU) as [[rs pU']|f]; [|done]. cbn [mbind outcome_bind deref].
    destruct (m_value node) as [value|]; [|done]. cbn [deref mbind outcome_bind]. by destruct (prfn value rs pU') as [[]|].
Qed.
End Rank.
End TreeRank.
