(* ===== verification/TreeBuild.v ===== *)
(** * Building a map of trees

    What the store of a [CTreeMap] (TreeMap.v) holds after a sequence of [Insert] and
    [InsertRoot] calls, in terms of the calls. *)
From stdpp Require Import base numbers list.
From S2P Require Import Prelude BitVector BitSet SetHash HashMap TreeMap TreeSpec.

Module TreeBuild.
Import HashMap TreeMap TreeSpec.
Open Scope outcome_scope.

Inductive TreeOp (T : Type) :=
  | OpInsert (ptParent : T) (ulPos : nat) (ptChild : T)
  | OpRoot (value : T).
Arguments OpInsert {T} _ _ _.
Arguments OpRoot {T} _.

Section Build.
Context {T : Type} `{EqDecision T} `{HK : HashKey T} `{HKL : !HashKeyLaws T}.
Implicit Types (tm : CTreeMap T) (v c : T) (op : TreeOp T) (ops : list (TreeOp T)) (link : STreeLink T).

Definition run_op op tm : outcome (CTreeMap T) :=
  match op with
  | OpInsert ptParent ulPos ptChild => TreeMap.Insert tm ptParent ulPos ptChild
  | OpRoot value => InsertRoot tm value
  end.

Definition build ops : outcome (CTreeMap T) :=
  tm ← CTreeMap_ctor;
  for_each ops run_op tm.

#[export] Instance STreeLink_laws : HashKeyLaws (STreeLink T).
Proof.
  split.
  - intros a. cbn. by rewrite !eq_fn_refl, N.eqb_refl.
  - intros a b. cbn. intros [[H1 H2]%andb_prop H3]%andb_prop. rewrite (eq_fn_sym _ _ H1), (eq_fn_sym _ _ H2). apply N.eqb_eq in H3 as ->. by rewrite N.eqb_refl.
  - intros a b d. cbn. intros [[H1 H2]%andb_prop H3]%andb_prop [[H4 H5]%andb_prop H6]%andb_prop.
    rewrite (eq_fn_trans _ _ _ H1 H4), (eq_fn_trans _ _ _ H2 H5). apply N.eqb_eq in H3 as ->. done.
  - intros a b. cbn. intros [[H1 H2]%andb_prop H3]%andb_prop. apply N.eqb_eq in H3 as ->. by rewrite (hash_fn_eq _ _ H1), (hash_fn_eq _ _ H2).
Qed.

Lemma link_eq link link' : EqFn link link' = true <-> EqFn (m_ptParent link) (m_ptParent link') = true /\
  EqFn (m_ptChild link) (m_ptChild link') = true /\ m_ulChildIndex link = m_ulChildIndex link'.
Proof. cbn. rewrite !andb_true_iff, N.eqb_eq. tauto. Qed.

(** ** The objects, links and roots of a sequence of calls *)

Definition known (l : list T) v : bool := existsb (fun c => EqFn c v) l.
Definition add_object (l : list T) v : list T := if known l v then l else l ++ [v].
Definition op_objects op : list T := match op with OpInsert p _ c => [p; c] | OpRoot v => [v] end.
Definition objects ops : list T := foldl add_object [] (ops ≫= op_objects).

Definition add_link (links : list (STreeLink T)) link : list (STreeLink T) :=
  if existsb (fun link' => EqFn link' link) links then links else links ++ [link].
Definition op_links op : list (STreeLink T) := match op with OpInsert p i c => [mkLink p (N.of_nat i) c] | OpRoot _ => [] end.
Definition links ops : list (STreeLink T) := foldl add_link [] (ops ≫= op_links).

Definition op_roots op : list T := match op with OpInsert _ _ _ => [] | OpRoot v => [v] end.
Definition roots ops : list T := ops ≫= op_roots.

(** The linked children of an object at a position, and the number of positions *)
Definition from_parent v link : bool := EqFn (m_ptParent link) v.
Definition at_position v (i : nat) link : bool := from_parent v link && (m_ulChildIndex link =? N.of_nat i)%N.
Definition children (ls : list (STreeLink T)) v i : list T := map m_ptChild (List.filter (at_position v i) ls).
Definition arity (ls : list (STreeLink T)) v : nat :=
  foldr max 0 (map (fun link => S (N.to_nat (m_ulChildIndex link))) (List.filter (from_parent v) ls)).
(** The edges into an object; a root has one from the global root. *)
Definition incoming (ls : list (STreeLink T)) (rs : list T) v : nat :=
  length (List.filter (fun c => EqFn c v) (map m_ptChild ls ++ rs)).

(** ** The store *)

(** The object at position [j] of the list has the node [j + 1]; node 0 is the global
    root. *)
Definition entries (l : list T) : list (T * nat) := imap (fun i v => (v, S i)) l.
Definition is_node (l : list T) (q : nat) c : Prop := exists j v, q = S j /\ l !! j = Some v /\ EqFn c v = true.
(** The alternatives of a node at a position *)
Definition alts_at (s : list (CTreeNode T)) (p i : nat) : list nat := default [] (arrays s p !! i).

Record stored (s : list (CTreeNode T)) (l : list T) (ls : list (STreeLink T)) (rs : list T) : Prop := {
  st_length : length s = S (length l);
  st_global : exists node, s !! 0 = Some node /\ m_ens node = EnsUncounted /\ m_ul node = 0%N;
  st_node k v : l !! k = Some v -> exists node, s !! S k = Some node /\ m_ens node = EnsUncounted /\
    m_ul node = (N.of_nat (S k) mod ULONG_MOD)%N /\ m_value node = Some v /\
    m_ulIncoming node = (N.of_nat (incoming ls rs v) mod ULONG_MOD)%N;
  st_arity k v : l !! k = Some v -> length (arrays s (S k)) = arity ls v;
  st_children k v i : l !! k = Some v -> Forall2 (is_node l) (alts_at s (S k) i) (children ls v i);
  st_arity_root : length (arrays s 0) = if rs is [] then 0 else 1;
  st_roots : Forall2 (is_node l) (alts_at s 0 0) rs;
}.

(** Links and roots are between objects of the list. *)
Record closed (l : list T) (ls : list (STreeLink T)) (rs : list T) : Prop := {
  cl_parent link : link ∈ ls -> known l (m_ptParent link) = true;
  cl_child link : link ∈ ls -> known l (m_ptChild link) = true;
  cl_root v : v ∈ rs -> known l v = true;
}.

Record built tm (l : list T) (ls : list (STreeLink T)) (rs : list T) : Prop := {
  bt_objects : listed (m_ptmap tm) (entries l);
  bt_linkmap : listed (m_plinkmap tm) (map (fun link => (link, true)) ls);
  bt_root : m_ptnRoot tm = 0;
  bt_count : m_ulCountNodes tm = (N.of_nat (length l) mod ULONG_MOD)%N;
  bt_count_links : m_ulCountLinks tm = (N.of_nat (length ls) mod ULONG_MOD)%N;
  bt_store : stored (m_nodes tm) l ls rs;
  bt_closed : closed l ls rs;
}.

Lemma entries_lookup l i : entries l !! i = (fun v => (v, S i)) <$> l !! i.
Proof. unfold entries. by rewrite list_lookup_imap. Qed.

Lemma length_entries l : length (entries l) = length l.
Proof. unfold entries. by rewrite length_imap. Qed.

Lemma entries_snoc l v : entries (l ++ [v]) = entries l ++ [(v, S (length l))].
Proof. unfold entries. rewrite imap_app. cbn. by rewrite Nat.add_0_r. Qed.

Lemma entries_elem l v p : (v, p) ∈ entries l <-> exists i, p = S i /\ l !! i = Some v.
Proof.
  rewrite list_elem_of_lookup. setoid_rewrite entries_lookup. split.
  - intros (i & Hi). destruct (l !! i) as [v'|] eqn:E; [|done]. injection Hi as -> <-. eauto.
  - intros (i & -> & Hi). exists i. by rewrite Hi.
Qed.

Lemma known_true l v : known l v = true <-> exists j c, l !! j = Some c /\ EqFn c v = true.
Proof.
  unfold known. rewrite existsb_exists. split.
  - intros (c & Hc & E). apply list_elem_of_In, list_elem_of_lookup in Hc as [j Hj]. eauto.
  - intros (j & c & Hj & E). exists c. split; [|done]. apply list_elem_of_In. by eapply list_elem_of_lookup_2.
Qed.

Lemma known_entry l v : distinct (entries l) -> match entry (entries l) v with
  | Some e => exists j, e.2 = S j /\ l !! j = Some e.1 /\ EqFn e.1 v = true
  | None => known l v = false
  end.
Proof.
  intros Hd. destruct (entry (entries l) v) as [[c p]|] eqn:E.
  - apply entry_Some in E as [Hin E]; [|done]. apply entries_elem in Hin as (j & -> & Hj). by exists j.
  - rewrite entry_None in E. apply not_true_iff_false. intros (j & c & Hj & Hc)%known_true.
    specialize (E (c, S j)). rewrite entries_elem in E. cbn in E. rewrite E in Hc; [done|eauto].
Qed.

(** Two positions have different objects. *)
Lemma objects_inj l i j v v' : distinct (entries l) -> l !! i = Some v -> l !! j = Some v' -> EqFn v v' = true -> i = j.
Proof.
  intros Hd Hi Hj E. assert ((v, S i) = (v', S j)) as [= _ ->]; [|done].
  apply (di_eq _ Hd); [apply entries_elem; eauto..|done].
Qed.

(** ** Adding an edge *)

Definition push (i q : nat) (arr : list (list nat)) : list (list nat) :=
  let arr := arr ++ replicate (S i - length arr) [] in <[i := default [] (arr !! i) ++ [q]]> arr.

Lemma length_push i q arr : length (push i q arr) = max (length arr) (S i).
Proof. unfold push. rewrite length_insert, length_app, length_replicate. lia. Qed.

Lemma lookup_push i q arr j : default [] (push i q arr !! j) = default [] (arr !! j) ++ if j =? i then [q] else [].
Proof.
  unfold push. set (arr' := arr ++ replicate (S i - length arr) []).
  assert (Hd : forall k, default [] (arr' !! k) = default [] (arr !! k)).
  { intros k. unfold arr'. destruct (decide (k < length arr)) as [Hk|Hk]; [by rewrite lookup_app_l|].
    rewrite lookup_app_r, (lookup_ge_None_2 arr k) by lia. destruct (replicate _ _ !! _) as [x|] eqn:E; [|done]. by apply lookup_replicate in E as [-> _]. }
  assert (Hi : i < length arr') by (unfold arr'; rewrite length_app, length_replicate; lia).
  destruct (Nat.eqb_spec j i) as [->|Hne].
  - rewrite list_lookup_insert_eq by done. cbn. by rewrite Hd.
  - rewrite list_lookup_insert_ne by done. rewrite Hd. by rewrite app_nil_r.
Qed.

Lemma Add_ret this i q (s : list (CTreeNode T)) node target : this <> q -> s !! this = Some node -> s !! q = Some target -> m_ens node = EnsUncounted ->
  Add this i q s = Ret (<[this := set_arrays (push i q (m_pdrgdrgptn node)) node]> (<[q := incr_incoming target]> s)).
Proof.
  intros Hne Hn Hq He. unfold Add. rewrite Hn. cbn [deref mbind outcome_bind]. rewrite bind_assert by (unfold FCounted; rewrite He; done).
  rewrite Hq. cbn [deref mbind outcome_bind]. rewrite list_lookup_insert_ne, Hn by done. cbn [deref mbind outcome_bind].
  set (arr := m_pdrgdrgptn node ++ _). destruct (lookup_lt_is_Some_2 arr i) as [alts Ha].
  { unfold arr. rewrite length_app, length_replicate. lia. }
  rewrite (subscript_some _ _ _ Ha). cbn [mbind outcome_bind mret outcome_ret]. unfold push. fold arr. by rewrite Ha.
Qed.

(** The store after an edge was added *)
Section Edge.
Context (s : list (CTreeNode T)) (this i q : nat) (node target : CTreeNode T).
Context (Hn : s !! this = Some node) (Hq : s !! q = Some target).
Let s' := <[this := set_arrays (push i q (m_pdrgdrgptn node)) node]> (<[q := incr_incoming target]> s).

Lemma edge_lookup p : s' !! p = (fun n => if p =? this then set_arrays (push i q (m_pdrgdrgptn n)) n else if p =? q then incr_incoming n else n) <$> s !! p.
Proof using Hn Hq.
  unfold s'. pose proof (lookup_lt_Some _ _ _ Hn). pose proof (lookup_lt_Some _ _ _ Hq).
  destruct (Nat.eqb_spec p this) as [->|H1]; [rewrite list_lookup_insert_eq, Hn by (rewrite length_insert; done); done|].
  rewrite list_lookup_insert_ne by done. destruct (Nat.eqb_spec p q) as [->|H2]; [by rewrite list_lookup_insert_eq, Hq by done|].
  rewrite list_lookup_insert_ne by done. by destruct (s !! p).
Qed.

Lemma edge_arrays p : arrays s' p = if p =? this then push i q (arrays s p) else arrays s p.
Proof using Hn Hq.
  unfold arrays. rewrite edge_lookup. destruct (Nat.eqb_spec p this) as [->|H1]; [by rewrite Hn|].
  destruct (s !! p); [|done]. cbn. by destruct (p =? q).
Qed.

Lemma edge_alts p j : alts_at s' p j = alts_at s p j ++ if (p =? this) && (j =? i) then [q] else [].
Proof using Hn Hq.
  unfold alts_at. rewrite edge_arrays. destruct (p =? this); cbn [andb]; [apply lookup_push|by rewrite app_nil_r].
Qed.
End Edge.

(** ** The lists of a sequence that has one link, root or object more *)

Lemma filter_snoc {A} (f : A -> bool) (xs : list A) x : List.filter f (xs ++ [x]) = List.filter f xs ++ if f x then [x] else [].
Proof. rewrite List.filter_app. done. Qed.

Lemma children_snoc ls link v i : children (ls ++ [link]) v i = children ls v i ++ if at_position v i link then [m_ptChild link] else [].
Proof. unfold children. rewrite filter_snoc, map_app. by destruct (at_position v i link). Qed.

Lemma foldr_max_app (xs ys : list nat) : foldr max 0 (xs ++ ys) = max (foldr max 0 xs) (foldr max 0 ys).
Proof. induction xs as [|x xs IH]; [done|]. cbn [app foldr]. rewrite IH. lia. Qed.

Lemma arity_snoc ls link v : arity (ls ++ [link]) v = if from_parent v link then max (arity ls v) (S (N.to_nat (m_ulChildIndex link))) else arity ls v.
Proof. unfold arity. rewrite filter_snoc, map_app, foldr_max_app. destruct (from_parent v link); cbn [map foldr]; lia. Qed.

Lemma incoming_link ls link rs v : incoming (ls ++ [link]) rs v = incoming ls rs v + if EqFn (m_ptChild link) v then 1 else 0.
Proof. unfold incoming. rewrite map_app, !List.filter_app, !length_app. cbn. destruct (EqFn _ _); cbn; lia. Qed.

Lemma incoming_root ls rs c v : incoming ls (rs ++ [c]) v = incoming ls rs v + if EqFn c v then 1 else 0.
Proof. unfold incoming. rewrite app_assoc, List.filter_app, length_app. cbn. destruct (EqFn _ _); cbn; lia. Qed.

Lemma is_node_mono l v q c : is_node l q c -> is_node (l ++ [v]) q c.
Proof. intros (j & x & -> & Hj & E). exists j, x. split_and!; [done| |done]. by apply lookup_app_l_Some. Qed.

Lemma eq_fn_false_left (a b c : T) : EqFn a b = true -> EqFn a c = EqFn b c.
Proof.
  intros E. destruct (EqFn b c) eqn:E2; [by eapply eq_fn_trans|]. destruct (EqFn a c) eqn:E3; [|done].
  rewrite <- E2. symmetry. eapply eq_fn_trans; [by apply eq_fn_sym|done].
Qed.

(** An object of the list equals the object at a position iff it is that position. *)
Lemma eq_position l k j v c x : distinct (entries l) -> l !! k = Some v -> l !! j = Some c -> EqFn x c = true -> EqFn x v = (k =? j).
Proof.
  intros Hd Hk Hj E. rewrite (eq_fn_false_left x c v E). destruct (Nat.eqb_spec k j) as [->|Hne].
  - assert (c = v) as -> by congruence. apply eq_fn_refl.
  - apply not_true_iff_false. intros E'. apply Hne. symmetry. by eapply objects_inj.
Qed.

Lemma stored_new (s : list (CTreeNode T)) l ls rs v : stored s l ls rs -> closed l ls rs -> known l v = false ->
  stored (s ++ [CTreeNode_ctor (N.of_nat (S (length l)) mod ULONG_MOD) (Some v)]) (l ++ [v]) ls rs.
Proof.
  intros Hs Hc Hv. pose proof (st_length _ _ _ _ Hs) as Hl.
  assert (Hno : forall x, known l x = true -> EqFn x v = false).
  { intros x (j & c & Hj & E)%known_true. apply not_true_iff_false. intros E'. assert (known l v = true); [|congruence].
    apply known_true. exists j, c. split; [done|]. by eapply eq_fn_trans. }
  assert (Hlast : (s ++ [CTreeNode_ctor (N.of_nat (S (length l)) mod ULONG_MOD) (Some v)]) !! S (length l) =
      Some (CTreeNode_ctor (N.of_nat (S (length l)) mod ULONG_MOD) (Some v))).
  { rewrite <- Hl. by apply list_lookup_middle. }
  assert (Hold : forall p, p <= length l -> arrays (s ++ [CTreeNode_ctor (N.of_nat (S (length l)) mod ULONG_MOD) (Some v)]) p = arrays s p).
  { intros p Hp. unfold arrays. by rewrite lookup_app_l by lia. }
  assert (Hfrom : List.filter (from_parent v) ls = []).
  { clear -Hc Hno. assert (H : forall link, link ∈ ls -> from_parent v link = false) by (intros link Hlink; by apply Hno, (cl_parent _ _ _ Hc)).
    revert H. clear. induction ls as [|x ls IH]; [done|]. intros H. cbn. rewrite H by left. apply IH. intros y Hy. apply H. by right. }
  assert (Hat : forall i, List.filter (at_position v i) ls = []).
  { intros i. unfold at_position. clear -Hfrom. induction ls as [|x ls IH]; [done|]. cbn in *. destruct (from_parent v x); [done|]. by apply IH. }
  split.
  - rewrite !length_app. cbn. lia.
  - destruct (st_global _ _ _ _ Hs) as (node & Hn & H). exists node. split; [|done]. by apply lookup_app_l_Some.
  - intros k x [[_ Hk]|[-> <-]]%lookup_snoc_Some.
    + destruct (st_node _ _ _ _ Hs k x ltac:(done)) as (node & Hn & H). exists node. split; [|done]. by apply lookup_app_l_Some.
    + eexists. split; [exact Hlast|]. split_and!; [done..|]. cbn. unfold incoming.
      assert (List.filter (fun c => EqFn c v) (map m_ptChild ls ++ rs) = []) as ->; [|done].
      assert (H : forall c, c ∈ map m_ptChild ls ++ rs -> EqFn c v = false).
      { intros c [(link & -> & Hlink)%list_elem_of_fmap|Hr]%elem_of_app; apply Hno; [by apply (cl_child _ _ _ Hc)|by apply (cl_root _ _ _ Hc)]. }
      revert H. generalize (map m_ptChild ls ++ rs). clear. induction l as [|y l IH]; [done|]. intros H. cbn. rewrite H by left. apply IH. intros z Hz. apply H. by right.
  - intros k x [[_ Hk]|[-> <-]]%lookup_snoc_Some.
    + rewrite Hold by (apply lookup_lt_Some in Hk; lia). by apply (st_arity _ _ _ _ Hs).
    + unfold arrays. rewrite Hlast. cbn. unfold arity. by rewrite Hfrom.
  - intros k x i [[_ Hk]|[-> <-]]%lookup_snoc_Some.
    + unfold alts_at. rewrite Hold by (apply lookup_lt_Some in Hk; lia). eapply Forall2_impl; [by apply (st_children _ _ _ _ Hs)|]. intros; by apply is_node_mono.
    + unfold alts_at, arrays. rewrite Hlast. cbn. unfold children. rewrite Hat. constructor.
  - rewrite Hold by lia. apply Hs.
  - unfold alts_at. rewrite Hold by lia. eapply Forall2_impl; [apply Hs|]. intros; by apply is_node_mono.
Qed.

Lemma node_arrays (s : list (CTreeNode T)) p node : s !! p = Some node -> arrays s p = m_pdrgdrgptn node.
Proof. unfold arrays. by intros ->. Qed.

Lemma succ_mod (a : nat) : ((N.of_nat a mod ULONG_MOD + 1) mod ULONG_MOD = N.of_nat (a + 1) mod ULONG_MOD)%N.
Proof. rewrite N.Div0.add_mod_idemp_l. f_equal. lia. Qed.

(** The incoming edges after an edge to the object at position [b] *)
Lemma incoming_edge (s : list (CTreeNode T)) l ls rs b c x k v n (node : CTreeNode T) : distinct (entries l) -> l !! b = Some c -> EqFn x c = true -> l !! k = Some v ->
  m_ulIncoming node = (N.of_nat (incoming ls rs v) mod ULONG_MOD)%N -> n = incoming ls rs v + (if EqFn x v then 1 else 0) ->
  m_ulIncoming (if S k =? S b then incr_incoming node else node) = (N.of_nat n mod ULONG_MOD)%N.
Proof.
  intros Hd Hb E Hk Hi ->. rewrite (eq_position l k b v c x) by done. cbn [Nat.eqb]. destruct (k =? b); [|by rewrite Nat.add_0_r].
  cbn. rewrite Hi. by apply succ_mod.
Qed.

Lemma stored_link (s : list (CTreeNode T)) l ls rs a b p c x i : stored s l ls rs -> distinct (entries l) -> a <> b ->
  l !! a = Some p -> l !! b = Some c -> EqFn (m_ptParent x) p = true -> EqFn (m_ptChild x) c = true -> m_ulChildIndex x = N.of_nat i ->
  TreeMap.Add (S a) i (S b) s ⤳ (fun s' => stored s' l (ls ++ [x]) rs).
Proof.
  intros Hs Hd Hne Ha Hb Ep Ec Ei.
  destruct (st_node _ _ _ _ Hs a p Ha) as (node & Hn & He & _). destruct (st_node _ _ _ _ Hs b c Hb) as (target & Ht & _).
  assert (Hne' : S a <> S b) by lia. rewrite (Add_ret _ i _ s node target) by done. apply returns_ret.
  pose proof (edge_lookup s (S a) i (S b) node target Hn Ht) as Hlk. pose proof (edge_arrays s (S a) i (S b) node target Hn Ht) as Harr.
  pose proof (edge_alts s (S a) i (S b) node target Hn Ht) as Halts. cbv zeta in *. set (s' := <[S a := _]> _) in *.
  split.
  - unfold s'. rewrite !length_insert. apply Hs.
  - destruct (st_global _ _ _ _ Hs) as (g & Hg & H). exists g. by rewrite Hlk, Hg.
  - intros k v Hk. destruct (st_node _ _ _ _ Hs k v Hk) as (nd & Hnd & H1 & H2 & H3 & H4). rewrite Hlk, Hnd. cbn [fmap option_fmap option_map]. eexists. split; [done|].
    pose proof (incoming_edge s l ls rs b c _ k v _ nd Hd Hb Ec Hk H4 (incoming_link ls x rs v)) as Hin.
    destruct (Nat.eqb_spec (S k) (S a)) as [E|E]; [|destruct (S k =? S b); done].
    rewrite (proj2 (Nat.eqb_neq (S k) (S b))) in Hin by lia. done.
  - intros k v Hk. rewrite Harr, arity_snoc, <- (st_arity _ _ _ _ Hs k v Hk), Ei. unfold from_parent. rewrite (eq_position l k a v p) by done. cbn [Nat.eqb].
    destruct (k =? a); [|done]. rewrite length_push. lia.
  - intros k v j Hk. rewrite Halts, children_snoc. apply Forall2_app; [by apply (st_children _ _ _ _ Hs)|]. unfold at_position, from_parent.
    rewrite (eq_position l k a v p), Ei by done. cbn [Nat.eqb]. replace (N.of_nat i =? N.of_nat j)%N with (j =? i) by (destruct (Nat.eqb_spec j i), (N.eqb_spec (N.of_nat i) (N.of_nat j)); lia || done).
    destruct ((k =? a) && (j =? i)); repeat constructor. by exists b, c.
  - rewrite Harr. apply Hs.
  - rewrite Halts. cbn. rewrite app_nil_r. apply Hs.
Qed.

Lemma stored_root (s : list (CTreeNode T)) l ls rs b c x : stored s l ls rs -> distinct (entries l) ->
  l !! b = Some c -> EqFn x c = true -> TreeMap.Add 0 0 (S b) s ⤳ (fun s' => stored s' l ls (rs ++ [x])).
Proof.
  intros Hs Hd Hb Ec. destruct (st_global _ _ _ _ Hs) as (node & Hn & He & Hul). destruct (st_node _ _ _ _ Hs b c Hb) as (target & Ht & _).
  assert (Hne : 0 <> S b) by lia. rewrite (Add_ret _ 0 _ s node target) by done. apply returns_ret.
  pose proof (edge_lookup s 0 0 (S b) node target Hn Ht) as Hlk. pose proof (edge_arrays s 0 0 (S b) node target Hn Ht) as Harr.
  pose proof (edge_alts s 0 0 (S b) node target Hn Ht) as Halts. cbv zeta in *. set (s' := <[0 := _]> _) in *.
  split.
  - unfold s'. rewrite !length_insert. apply Hs.
  - eexists. rewrite Hlk, Hn. split; [done|]. by split.
  - intros k v Hk. destruct (st_node _ _ _ _ Hs k v Hk) as (nd & Hnd & H1 & H2 & H3 & H4). rewrite Hlk, Hnd. cbn [fmap option_fmap option_map]. eexists. split; [done|].
    pose proof (incoming_edge s l ls rs b c _ k v _ nd Hd Hb Ec Hk H4 (incoming_root ls rs x v)) as Hin.
    rewrite (proj2 (Nat.eqb_neq (S k) 0)) by lia. destruct (S k =? S b); done.
  - intros k v Hk. rewrite Harr. by apply (st_arity _ _ _ _ Hs).
  - intros k v j Hk. rewrite Halts. cbn. rewrite app_nil_r. by apply (st_children _ _ _ _ Hs).
  - rewrite Harr. cbn [Nat.eqb]. rewrite length_push, (st_arity_root _ _ _ _ Hs). by destruct rs.
  - rewrite Halts. apply Forall2_app; [apply Hs|]. repeat constructor. by exists b, c.
Qed.

(** ** The calls *)

Lemma is_node_known l q c : is_node l q c -> known l c = true.
Proof. intros (j & v & _ & Hj & E). apply known_true. exists j, v. split; [done|]. by apply eq_fn_sym. Qed.

Lemma known_eq l v w : EqFn v w = true -> known l v = known l w.
Proof.
  intros E. assert (H : forall a b, EqFn a b = true -> known l a = true -> known l b = true).
  { intros a b Eab (j & c & Hj & Ec)%known_true. apply known_true. exists j, c. split; [done|]. by eapply eq_fn_trans. }
  apply eq_true_iff_eq. split; apply H; [done|by apply eq_fn_sym].
Qed.

Lemma add_object_node l v q c : is_node l q c -> is_node (add_object l v) q c.
Proof. unfold add_object. destruct (known l v); [done|]. apply is_node_mono. Qed.

Lemma add_object_known l v w : known l w = true -> known (add_object l v) w = true.
Proof. unfold add_object. destruct (known l v); [done|]. unfold known. rewrite existsb_app. by intros ->. Qed.

Lemma add_object_self l v : known (add_object l v) v = true.
Proof. unfold add_object. destruct (known l v) eqn:E; [done|]. unfold known. rewrite existsb_app. cbn. by rewrite eq_fn_refl, orb_true_r. Qed.

Lemma closed_object l ls rs v : closed l ls rs -> closed (add_object l v) ls rs.
Proof. intros [H1 H2 H3]. split; intros x Hx; apply add_object_known; auto. Qed.

Lemma built_distinct tm l ls rs : built tm l ls rs -> distinct (entries l).
Proof. intros Hb. apply (ct_distinct _ _ (ls_contents _ _ (bt_objects _ _ _ _ Hb))). Qed.

Lemma Ptn_ret tm l ls rs v : built tm l ls rs -> Ptn tm v ⤳ (fun r => built r.2 (add_object l v) ls rs /\ is_node (add_object l v) r.1 v).
Proof.
  intros Hb. pose proof (known_entry l v (built_distinct _ _ _ _ Hb)) as He. pose proof (ls_contents _ _ (bt_objects _ _ _ _ Hb)) as Hc.
  unfold Ptn. rewrite (Find_ret _ _ Hc). cbn [mbind outcome_bind]. destruct (entry (entries l) v) as [[c p]|] eqn:E; cbn [fmap option_fmap option_map fst snd] in *.
  - destruct He as (j & -> & Hj & Ec). apply returns_ret. cbn [fst snd]. unfold add_object. assert (known l v = true) as -> by (apply known_true; eauto).
    split; [done|]. exists j, c. split_and!; [done..|]. by apply eq_fn_sym.
  - eapply returns_bind; [by apply (Insert_ret _ _ _ _ Hc)|]. rewrite E. intros [b ptmap] (Hr & Hr1 & Hr2 & Hr3). cbn [fst snd] in *.
    apply returns_ret. cbn [fst snd]. unfold add_object. rewrite He. pose proof (bt_store _ _ _ _ Hb) as Hs. rewrite (st_length _ _ _ _ Hs) in *.
    rewrite (bt_count _ _ _ _ Hb), succ_mod, Nat.add_1_r. split.
    + split; cbn [m_ptmap m_plinkmap m_ptnRoot m_ulCountNodes m_ulCountLinks m_nodes].
      * rewrite entries_snoc. apply (listed_insert (m_ptmap tm)); [apply Hb|done..].
      * apply Hb.
      * apply Hb.
      * rewrite length_app. cbn. by rewrite Nat.add_1_r.
      * apply Hb.
      * apply stored_new; [done|apply Hb|done].
      * pose proof (closed_object l ls rs v (bt_closed _ _ _ _ Hb)) as Hcl. unfold add_object in Hcl. by rewrite He in Hcl.
    + exists (length l), v. split_and!; [done|by apply list_lookup_middle|apply eq_fn_refl].
Qed.

Lemma link_entry ls link : is_Some (entry (map (fun link => (link, true)) ls) link) <-> existsb (fun link' => EqFn link' link) ls = true.
Proof.
  unfold entry. induction ls as [|x ls IH]; cbn [map List.find existsb]; [split; [by intros [? ?]|done]|].
  unfold has_key at 1. cbn [fst]. destruct (EqFn x link); [split; eauto|exact IH].
Qed.

Lemma add_object_absent l v : known l v = true -> add_object l v = l.
Proof. unfold add_object. by intros ->. Qed.

Lemma Insert_built tm l ls rs p i c : built tm l ls rs -> EqFn p c = false ->
  TreeMap.Insert tm p i c ⤳ (fun tm' => built tm' (add_object (add_object l p) c) (add_link ls (mkLink p (N.of_nat i) c)) rs).
Proof.
  intros Hb Hpc. unfold TreeMap.Insert. rewrite bind_assert.
  2: { apply negb_true_iff, bool_decide_eq_false. intros ->. by rewrite eq_fn_refl in Hpc. }
  cbv zeta. set (x := mkLink p (N.of_nat i) c). pose proof (ls_contents _ _ (bt_linkmap _ _ _ _ Hb)) as Hlc.
  rewrite (Find_ret _ _ Hlc). cbn [mbind outcome_bind]. unfold add_link. pose proof (link_entry ls x) as Hle.
  destruct (entry (map (fun link => (link, true)) ls) x) as [e|] eqn:E; cbn [fmap option_fmap option_map].
  { pose proof (proj1 Hle ltac:(eauto)) as Hex. rewrite Hex. apply returns_ret. apply existsb_exists in Hex as (y & Hy%list_elem_of_In & Ey).
    apply link_eq in Ey as (Ep & Ec & _). cbn [m_ptParent m_ptChild x] in Ep, Ec.
    pose proof (cl_parent _ _ _ (bt_closed _ _ _ _ Hb) y Hy) as Kp. pose proof (cl_child _ _ _ (bt_closed _ _ _ _ Hb) y Hy) as Kc.
    rewrite (known_eq l _ _ Ep) in Kp. rewrite (known_eq l _ _ Ec) in Kc. by rewrite (add_object_absent l p Kp), (add_object_absent l c Kc). }
  assert (existsb (fun link' => EqFn link' x) ls = false) as -> by (apply not_true_iff_false; intros [? ?]%Hle; done).
  eapply returns_bind; [by apply Ptn_ret|]. intros [a tm1] [Hb1 Ha]. cbn [fst snd] in *.
  eapply returns_bind; [by apply Ptn_ret|]. intros [b tm2] [Hb2 Hbn]. cbn [fst snd] in *. apply (add_object_node _ c) in Ha.
  set (l' := add_object (add_object l p) c) in *. pose proof (is_node_known _ _ _ Ha) as Kp. pose proof (is_node_known _ _ _ Hbn) as Kc.
  destruct Ha as (ja & va & -> & Hja & Ea), Hbn as (jb & vb & -> & Hjb & Eb).
  eapply returns_bind; [apply (stored_link _ l' ls rs ja jb va vb x i (bt_store _ _ _ _ Hb2) (built_distinct _ _ _ _ Hb2)); [|done..]|].
  { intros ->. assert (va = vb) as -> by congruence. assert (EqFn p c = true); [|congruence]. eapply eq_fn_trans; [exact Ea|by apply eq_fn_sym]. }
  intros nodes Hs. pose proof (ls_contents _ _ (bt_linkmap _ _ _ _ Hb2)) as Hlc2.
  eapply returns_bind; [by apply (Insert_ret _ _ _ _ Hlc2)|]. rewrite E. intros [fi plinkmap] (Hr & Hr1 & Hr2 & Hr3). cbn [fst snd] in *. subst fi.
  rewrite bind_assert by done. apply returns_ret. split; cbn [m_ptmap m_plinkmap m_ptnRoot m_ulCountNodes m_ulCountLinks m_nodes].
  - apply Hb2.
  - rewrite map_app. cbn [map]. apply (listed_insert (m_plinkmap tm2)); [apply Hb2|done..].
  - apply Hb2.
  - apply Hb2.
  - rewrite (bt_count_links _ _ _ _ Hb2), succ_mod, length_app. done.
  - done.
  - pose proof (bt_closed _ _ _ _ Hb2) as Hcl. split.
    + intros y [Hy| ->%list_elem_of_singleton]%elem_of_app; [by apply (cl_parent _ _ _ Hcl)|done].
    + intros y [Hy| ->%list_elem_of_singleton]%elem_of_app; [by apply (cl_child _ _ _ Hcl)|done].
    + apply Hcl.
Qed.

Lemma closed_root l ls rs v : closed l ls rs -> known l v = true -> closed l ls (rs ++ [v]).
Proof.
  intros [H1 H2 H3] Hv. split; [done..|]. intros x [Hx| ->%list_elem_of_singleton]%elem_of_app; [by apply H3|done].
Qed.

Lemma with_nodes_built tm nodes l ls rs rs' : built tm l ls rs -> stored nodes l ls rs' -> closed l ls rs' -> built (with_nodes tm nodes) l ls rs'.
Proof. intros [H1 H2 H3 H4 H5 H6 H7] Hs Hc. by split. Qed.

Lemma InsertRoot_built tm l ls rs v : built tm l ls rs -> InsertRoot tm v ⤳ (fun tm' => built tm' (add_object l v) ls (rs ++ [v])).
Proof.
  intros Hb. unfold InsertRoot. eapply returns_bind; [by apply Ptn_ret|]. intros [q tm1] [Hb1 Hq]. cbn [fst snd] in *.
  pose proof (is_node_known _ _ _ Hq) as Hk. destruct Hq as (j & c & -> & Hj & E). rewrite (bt_root _ _ _ _ Hb1).
  eapply returns_bind; [by apply (stored_root _ _ _ _ j c v (bt_store _ _ _ _ Hb1) (built_distinct _ _ _ _ Hb1))|].
  intros nodes Hs. apply returns_ret. eapply with_nodes_built; [done..|]. apply closed_root; [apply Hb1|done].
Qed.

Lemma CTreeMap_ctor_built : CTreeMap_ctor ⤳ (fun tm => built tm [] [] []).
Proof.
  unfold CTreeMap_ctor. eapply returns_bind; [by apply CHashMap_ctor_ret|]. intros m1 H1. eapply returns_bind; [by apply CHashMap_ctor_ret|]. intros m2 H2.
  apply returns_ret. split; try done; [|by split; intros ? ?%not_elem_of_nil].
  split; try done; cbn; eauto.
Qed.

(** The pointers differ when the objects do. *)
Definition op_ok op : Prop := match op with OpInsert p _ c => EqFn p c = false | OpRoot _ => True end.

Lemma build_built ops : Forall op_ok ops -> build ops ⤳ (fun tm => built tm (objects ops) (links ops) (roots ops)).
Proof.
  intros Hok. unfold build. eapply returns_bind; [apply CTreeMap_ctor_built|]. intros tm0 Hb0.
  apply (for_each_rule (fun pre tm => built tm (objects pre) (links pre) (roots pre))); [done|].
  intros pre op post tm -> Hb. rewrite Forall_app, Forall_cons in Hok. destruct Hok as (_ & Hop & _).
  unfold objects, links, roots. rewrite !bind_app, !foldl_app. destruct op as [p i c|v]; cbn [mbind list_bind op_objects op_links op_roots app foldl].
  - rewrite app_nil_r. by apply Insert_built.
  - by apply InsertRoot_built.
Qed.

(** ** Hooking the nodes without incoming edge to the global root *)

(** The objects that [UllCount] makes roots *)
Definition unlinked (ls : list (STreeLink T)) (rs l : list T) : list T := List.filter (fun v => incoming ls rs v =? 0) l.

Lemma incoming_other ls rs l k v n : distinct (entries l) -> l !! k = Some v -> n <= k ->
  incoming ls (rs ++ unlinked ls rs (take n l)) v = incoming ls rs v.
Proof.
  intros Hd Hk Hn. unfold incoming at 1. rewrite app_assoc, List.filter_app, length_app. fold (incoming ls rs v).
  assert (List.filter (fun c => EqFn c v) (unlinked ls rs (take n l)) = []) as ->; [|by rewrite Nat.add_0_r].
  assert (H : forall c, c ∈ unlinked ls rs (take n l) -> EqFn c v = false).
  { intros c Hc. apply list_elem_of_In, filter_In in Hc as [Hc%list_elem_of_In _]. apply list_elem_of_lookup in Hc as [j Hj].
    pose proof (lookup_lt_Some _ _ _ Hj) as Hlt. rewrite length_take in Hlt. rewrite lookup_take_lt in Hj by lia.
    rewrite (eq_position l k j v c c Hd Hk Hj (eq_fn_refl c)). apply Nat.eqb_neq. lia. }
  revert H. generalize (unlinked ls rs (take n l)). clear. induction l as [|x l IH]; [done|]. intros H. cbn. rewrite H by left. apply IH. intros y Hy. apply H. by right.
Qed.

Lemma incoming_le ls rs v : incoming ls rs v <= length ls + length rs.
Proof. unfold incoming. rewrite (List.filter_length_le (fun c => EqFn c v)), length_app, length_map. done. Qed.

Lemma hook_roots_ret tm l ls rs : built tm l ls rs -> (N.of_nat (length ls + length rs) < ULONG_MOD)%N ->
  hook_roots tm ⤳ (fun r => r.1 = length l /\ stored r.2 l ls (rs ++ unlinked ls rs l)).
Proof.
  intros Hb Hlt. unfold hook_roots. rewrite (iterate_ret _ _ (bt_objects _ _ _ _ Hb)). cbn [mbind outcome_bind].
  pose proof (built_distinct _ _ _ _ Hb) as Hd. rewrite for_each_map.
  eapply returns_mono; [apply (for_each_rule (fun pre r => r.1 = length pre /\ stored r.2 l ls (rs ++ unlinked ls rs (take (length pre) l))))|].
  - split; [done|]. cbn. rewrite app_nil_r. apply Hb.
  - intros pre [v q] post [n nodes] He [Hn Hs]. cbn [fst snd fmap option_fmap option_map deref mbind outcome_bind] in *.
    assert (Hk : entries l !! length pre = Some (v, q)) by (rewrite He; by apply list_lookup_middle).
    rewrite entries_lookup in Hk. apply fmap_Some in Hk as (v' & Hk & [= <- ->]).
    destruct (st_node _ _ _ _ Hs _ _ Hk) as (node & Hnode & _ & _ & _ & Hin). rewrite Hnode. cbn [deref mbind outcome_bind].
    rewrite Hin, (incoming_other ls rs l (length pre) v (length pre) Hd Hk), N.mod_small by (pose proof (incoming_le ls rs v); lia || done).
    rewrite length_app, Nat.add_1_r, (take_S_r _ _ _ Hk). unfold unlinked at 1. rewrite List.filter_app. cbn [List.filter]. fold (unlinked ls rs (take (length pre) l)).
    replace (N.of_nat (incoming ls rs v) =? 0)%N with (incoming ls rs v =? 0) by (destruct (Nat.eqb_spec (incoming ls rs v) 0), (N.eqb_spec (N.of_nat (incoming ls rs v)) 0); lia || done).
    destruct (incoming ls rs v =? 0).
    + rewrite (bt_root _ _ _ _ Hb). eapply returns_bind; [by apply (stored_root _ _ _ _ _ _ v Hs Hd Hk), eq_fn_refl|].
      intros nodes' Hs'. apply returns_ret. cbn [fst snd]. split; [by rewrite Hn|]. by rewrite app_assoc.
    + apply returns_ret. cbn [fst snd]. split; [by rewrite Hn|]. by rewrite app_nil_r.
  - intros [n nodes] [Hn Hs]. cbn [fst snd] in *. rewrite length_entries, firstn_all in *. done.
Qed.

End Build.
End TreeBuild.
