(* ===== verification/TreePlan.v ===== *)
(** * The plans of a map of trees

    Trees of objects instead of nodes: what the calls on a [CTreeMap] describe,
    without the store (TreeBuild.v), and the correspondence of these plans with the
    trees of the store (TreeSpec.v). *)
From stdpp Require Import base numbers list.
From S2P Require Import Prelude BitVector BitSet SetHash HashMap TreeMap TreeSpec TreeCount TreeBuild.

Module TreePlan.
Import HashMap TreeMap TreeSpec TreeBuild TreeCount TreeRank.
Open Scope outcome_scope.

#[warnings="-register-all"]
Inductive plan (T : Type) := PNode (v : T) (inputs : list (plan T)).
Arguments PNode {T} _ _.
Definition object {T} (pl : plan T) : T := match pl with PNode v _ => v end.

(** A plan is made bottom-up, the inputs from left to right. *)
Section Make.
Context {T R U : Type} (prfn : T -> list R -> U -> outcome (R * U)).

Fixpoint make (pl : plan T) (pU : U) : outcome (R * U) :=
  match pl with
  | PNode v pls =>
      '(rs, pU) ← (fix go (pls : list (plan T)) (pU : U) : outcome (list R * U) :=
                     match pls with
                     | [] => mret ([], pU)
                     | pl :: pls => ('(r, pU) ← make pl pU; '(rs, pU) ← go pls pU; mret (r :: rs, pU))
                     end) pls pU;
      prfn v rs pU
  end.

Fixpoint make_all (pls : list (plan T)) (pU : U) : outcome (list R * U) :=
  match pls with
  | [] => mret ([], pU)
  | pl :: pls => ('(r, pU) ← make pl pU; '(rs, pU) ← make_all pls pU; mret (r :: rs, pU))
  end.

Lemma make_node v pls pU : make (PNode v pls) pU = '(rs, pU) ← make_all pls pU; prfn v rs pU.
Proof. done. Qed.
End Make.

Section Plan.
Context {T : Type} `{HK : HashKey T}.
Implicit Types (v c : T) (pl : plan T) (l : list T) (ls : list (STreeLink T)) (rs : list T).

(** The object is linked as the child of another one at a position. *)
Definition linked ls v i c : Prop := exists c', c' ∈ children ls v i /\ EqFn c' c = true.

(** A plan takes one linked object at every position. *)
Inductive is_plan l ls : plan T -> Prop :=
  | IsPlan v pls : v ∈ l -> length pls = arity ls v ->
      (forall i pl, pls !! i = Some pl -> is_plan l ls pl) -> (forall i pl, pls !! i = Some pl -> linked ls v i (object pl)) ->
      is_plan l ls (PNode v pls).

Definition rooted l ls rs pl : Prop := is_plan l ls pl /\ exists c, c ∈ rs /\ EqFn c (object pl) = true.

(** The plans of the objects linked at a position, their number being [n] *)
Definition alternatives_number l ls v i n : Prop :=
  exists pls, NoDup pls /\ (forall pl, pl ∈ pls <-> is_plan l ls pl /\ linked ls v i (object pl)) /\ n = length pls.

(** The number of choices at an object, or of plans, does not fit. *)
Definition too_many l ls rs : Prop :=
  (exists v ns, v ∈ l /\ length ns = arity ls v /\ (forall i n, ns !! i = Some n -> alternatives_number l ls v i n) /\
    (ULLONG_MOD <= N.of_nat (product (map (max 1) ns)))%N) \/
  (exists pls, NoDup pls /\ (forall pl, pl ∈ pls <-> rooted l ls rs pl) /\ (ULLONG_MOD <= N.of_nat (length pls))%N).
End Plan.

Fixpoint tree_all (P : tree -> Prop) (HP : forall p ts, Forall P ts -> P (TNode p ts)) (t : tree) : P t :=
  match t with
  | TNode p ts => HP p ts ((fix go (ts : list tree) : Forall P ts :=
      match ts with [] => List.Forall_nil P | t :: ts => List.Forall_cons P t ts (tree_all P HP t) (go ts) end) ts)
  end.

(** ** The trees of a store *)

(** No two equal objects or links *)
Definition unique {K} `{HashKey K} (xs : list K) : Prop := NoDup xs /\ forall a b, a ∈ xs -> b ∈ xs -> EqFn a b = true -> a = b.

Lemma Forall2_elem_l {A B} (P : A -> B -> Prop) xs ys x : Forall2 P xs ys -> x ∈ xs -> exists y, y ∈ ys /\ P x y.
Proof.
  intros HF Hx. apply list_elem_of_lookup in Hx as [i Hi]. destruct (Forall2_lookup_l _ _ _ _ _ HF Hi) as (y & Hy & HP).
  exists y. split; [by eapply list_elem_of_lookup_2|done].
Qed.

Lemma Forall2_elem_r {A B} (P : A -> B -> Prop) xs ys y : Forall2 P xs ys -> y ∈ ys -> exists x, x ∈ xs /\ P x y.
Proof. intros HF Hy. apply (Forall2_elem_l (fun y x => P x y) ys xs y); [|done]. by apply Forall2_flip. Qed.

Section Store.
Context {T : Type} `{EqDecision T} `{HK : HashKey T} `{HKL : !HashKeyLaws T}.
Context (s : list (CTreeNode T)) (l : list T) (ls : list (STreeLink T)) (rs : list T).
Context (Hs : stored s l ls rs) (Hd : distinct (entries l)).
Context (Hls : unique ls) (Hrs : unique rs).
Context (height : T -> nat) (height_eq : forall a b, EqFn a b = true -> height a = height b).
Context (Hdown : forall link, link ∈ ls -> height (m_ptChild link) < height (m_ptParent link)).
Context (d : T).
Implicit Types (v c : T) (pl : plan T) (p q : nat) (t : tree).

Lemma node_unique qs (cs : list T) : Forall2 (is_node l) qs cs -> unique cs -> NoDup qs.
Proof using Hd HKL.
  intros HF [Hn Hu]. apply NoDup_alt. intros i j q Hi Hj.
  destruct (Forall2_lookup_l _ _ _ _ _ HF Hi) as (a & Ha & (x & v & -> & Hx & Ea)).
  destruct (Forall2_lookup_l _ _ _ _ _ HF Hj) as (b & Hb & (x' & v' & [= <-] & Hx' & Eb)). assert (v' = v) as -> by congruence.
  assert (a = b) as ->; [|by eapply NoDup_lookup].
  apply Hu; [by eapply list_elem_of_lookup_2..|]. eapply eq_fn_trans; [exact Ea|by apply eq_fn_sym].
Qed.

Lemma at_position_true v i link : at_position v i link = true <-> EqFn (m_ptParent link) v = true /\ m_ulChildIndex link = N.of_nat i.
Proof. unfold at_position, from_parent. by rewrite andb_true_iff, N.eqb_eq. Qed.

Lemma children_elem v i c : c ∈ children ls v i <-> exists link, link ∈ ls /\ EqFn (m_ptParent link) v = true /\ m_ulChildIndex link = N.of_nat i /\ m_ptChild link = c.
Proof.
  unfold children. rewrite list_elem_of_In, in_map_iff. setoid_rewrite filter_In. setoid_rewrite at_position_true. setoid_rewrite <- list_elem_of_In. naive_solver.
Qed.

Lemma children_unique v i : unique (children ls v i).
Proof using Hls HKL.
  assert (Heq : forall a b, a ∈ List.filter (at_position v i) ls -> b ∈ List.filter (at_position v i) ls -> EqFn (m_ptChild a) (m_ptChild b) = true -> a = b).
  { intros a b [Ha [H1 H2]%at_position_true]%list_elem_of_In%filter_In [Hb [H3 H4]%at_position_true]%list_elem_of_In%filter_In E.
    apply Hls; [by apply list_elem_of_In..|]. apply link_eq. split_and!; [|done|congruence]. eapply eq_fn_trans; [exact H1|by apply eq_fn_sym]. }
  split.
  - apply NoDup_fmap_2_strong.
    + intros a b Ha Hb E. apply Heq; [done..|]. rewrite E. apply eq_fn_refl.
    + apply NoDup_ListNoDup, List.NoDup_filter, NoDup_ListNoDup, Hls.
  - intros a b (x & -> & Hx)%list_elem_of_fmap (y & -> & Hy)%list_elem_of_fmap E. by rewrite (Heq x y).
Qed.

Lemma arrays_lookup p i alts : arrays s p !! i = Some alts -> alts_at s p i = alts.
Proof. unfold alts_at. by intros ->. Qed.

(** The alternatives at a position are the nodes of some objects. *)
Lemma arrays_nodes p i alts : arrays s p !! i = Some alts -> exists cs, Forall2 (is_node l) alts cs /\ unique cs /\
  ((p = 0 /\ i = 0 /\ cs = rs) \/ exists k v, p = S k /\ l !! k = Some v /\ cs = children ls v i).
Proof using Hs Hls Hrs HKL.
  intros Hi. rewrite <- (arrays_lookup p i alts Hi). destruct p as [|k].
  - pose proof (lookup_lt_Some _ _ _ Hi) as Hlt. rewrite (st_arity_root _ _ _ _ Hs) in Hlt. assert (i = 0) as -> by (destruct rs; lia).
    exists rs. split_and!; [apply Hs|done|by left].
  - destruct (lookup_lt_is_Some_2 l k) as [v Hk].
    { unfold arrays in Hi. destruct (s !! S k) as [node|] eqn:E; [|done]. apply lookup_lt_Some in E. rewrite (st_length _ _ _ _ Hs) in E. lia. }
    exists (children ls v i). split_and!; [by apply (st_children _ _ _ _ Hs)|apply children_unique|]. right. by exists k, v.
Qed.

Lemma arrays_nodup p alts : alts ∈ arrays s p -> NoDup alts.
Proof using Hs Hd Hls Hrs HKL.
  intros [i Hi]%list_elem_of_lookup. destruct (arrays_nodes p i alts Hi) as (cs & HF & Hu & _). by eapply node_unique.
Qed.

Lemma child_object p q : child s p q -> exists j c, q = S j /\ l !! j = Some c /\
  (p = 0 \/ exists k v i, p = S k /\ l !! k = Some v /\ linked ls v i c).
Proof using Hs Hls Hrs HKL.
  intros (alts & [i Hi]%list_elem_of_lookup & Hq). destruct (arrays_nodes p i alts Hi) as (cs & HF & _ & Hp).
  destruct (Forall2_elem_l _ _ _ _ HF Hq) as (c' & Hc' & (j & c & -> & Hj & E)). exists j, c. split_and!; [done..|].
  destruct Hp as [(-> & _)|(k & v & -> & Hk & ->)]; [by left|]. right. exists k, v, i. split_and!; [done..|]. by exists c'.
Qed.

(** ** Heights of nodes *)

Definition below v : nat := length (List.filter (fun c => height c <? height v) l).
Definition h p : nat := match p with O => length l | S k => match l !! k with Some v => below v | None => 0 end end.

Lemma filter_lt {A} (f g : A -> bool) (xs : list A) x : (forall y, f y = true -> g y = true) -> x ∈ xs -> f x = false -> g x = true ->
  length (List.filter f xs) < length (List.filter g xs).
Proof.
  intros Hfg Hx Hf Hg. assert (Hle : forall ys, length (List.filter f ys) <= length (List.filter g ys)).
  { induction ys as [|y ys IH]; [done|]. cbn. destruct (f y) eqn:E; [rewrite (Hfg y E); cbn; lia|]. destruct (g y); cbn; lia. }
  induction xs as [|y xs IH]; [by apply not_elem_of_nil in Hx|]. cbn. specialize (Hle xs). apply elem_of_cons in Hx as [<-|Hx].
  - rewrite Hf, Hg. cbn. lia.
  - specialize (IH Hx). destruct (f y) eqn:E; [rewrite (Hfg y E); cbn; lia|]. destruct (g y); cbn; lia.
Qed.

Lemma filter_true {A} (xs : list A) : List.filter (fun _ => true) xs = xs.
Proof. induction xs as [|x xs IH]; [done|]. cbn. by rewrite IH. Qed.

Lemma below_lt v c : c ∈ l -> height c < height v -> below c < below v.
Proof.
  intros Hc Hlt. apply filter_lt with c; [|done|by apply Nat.ltb_irrefl|by apply Nat.ltb_lt].
  intros y Hy%Nat.ltb_lt. apply Nat.ltb_lt. lia.
Qed.

Lemma below_length v : v ∈ l -> below v < length l.
Proof.
  intros Hv. rewrite <- (filter_true l). unfold below. eapply filter_lt; [done|done|by apply Nat.ltb_irrefl|done].
Qed.

Lemma linked_down v i c : linked ls v i c -> height c < height v.
Proof using height_eq Hdown.
  intros (c' & (link & Hl & E & _ & <-)%children_elem & Ec). rewrite <- (height_eq _ _ Ec), <- (height_eq _ _ E). by apply Hdown.
Qed.

Lemma h_child p q : child s p q -> h q < h p.
Proof using Hs Hls Hrs HKL height_eq Hdown.
  intros (j & c & -> & Hj & Hp)%child_object. cbn [h]. rewrite Hj. pose proof (list_elem_of_lookup_2 _ _ _ Hj) as Hin.
  destruct Hp as [->|(k & v & i & -> & Hk & Hl)]; [by apply below_length|]. cbn [h]. rewrite Hk. apply below_lt; [done|]. by eapply linked_down.
Qed.

Lemma h_lt p : p < length s -> h p < length s.
Proof using Hs.
  rewrite (st_length _ _ _ _ Hs). intros Hp. destruct p as [|k]; cbn [h]; [lia|]. destruct (l !! k) as [v|] eqn:E; [|lia].
  pose proof (below_length v (list_elem_of_lookup_2 _ _ _ E)). lia.
Qed.

Lemma child_lt p q : child s p q -> q < length s.
Proof using Hs Hls Hrs HKL. intros (j & c & -> & Hj & _)%child_object. apply lookup_lt_Some in Hj. rewrite (st_length _ _ _ _ Hs). lia. Qed.
(** ** Trees and plans *)

Definition value p : T := match p with O => d | S k => default d (l !! k) end.
Fixpoint plan_of t : plan T := match t with TNode p ts => PNode (value p) (map plan_of ts) end.

Lemma object_plan_of t : object (plan_of t) = value (root t).
Proof. by destruct t. Qed.

Lemma nodes_elem qs cs q : Forall2 (is_node l) qs cs ->
  q ∈ qs <-> exists j c, q = S j /\ l !! j = Some c /\ exists c', c' ∈ cs /\ EqFn c' c = true.
Proof using Hd HKL.
  intros HF. split.
  - intros Hq. destruct (Forall2_elem_l _ _ _ _ HF Hq) as (c' & Hc' & (j & c & -> & Hj & E)). exists j, c. eauto.
  - intros (j & c & -> & Hj & c' & Hc' & E). destruct (Forall2_elem_r _ _ _ _ HF Hc') as (q & Hq & (j' & x & -> & Hj' & E')).
    assert (j = j') as ->; [|done]. eapply objects_inj; [exact Hd|done..|]. eapply eq_fn_trans; [by apply eq_fn_sym|done].
Qed.

Lemma value_node k v : l !! k = Some v -> value (S k) = v.
Proof. cbn. by intros ->. Qed.

Lemma tree_children k v ts i t : is_tree s (TNode (S k) ts) -> l !! k = Some v -> ts !! i = Some t ->
  is_tree s t /\ exists j c, root t = S j /\ l !! j = Some c /\ linked ls v i c.
Proof using Hs Hd HKL.
  intros Ht Hk Hi. rewrite is_tree_iff in Ht. destruct (Forall2_lookup_l _ _ _ _ _ Ht Hi) as (alts & Ha & Hr & Hti). split; [done|].
  rewrite <- (arrays_lookup (S k) i alts Ha) in Hr. apply (nodes_elem _ _ _ (st_children _ _ _ _ Hs k v i Hk)) in Hr as (j & c & E & Hj & Hc). by exists j, c.
Qed.

Lemma tree_plan t k v : is_tree s t -> root t = S k -> l !! k = Some v -> is_plan l ls (plan_of t).
Proof using Hs Hd HKL.
  revert t k v. refine (tree_all _ _). intros p ts IH k v Ht [= ->] Hk. cbn [plan_of]. rewrite (value_node k v Hk).
  assert (Hch : forall i pl, map plan_of ts !! i = Some pl -> exists t j c, ts !! i = Some t /\ pl = plan_of t /\ is_tree s t /\ root t = S j /\ l !! j = Some c /\ linked ls v i c).
  { intros i pl Hi. apply list_lookup_fmap_Some in Hi as (t & -> & Hi). destruct (tree_children k v ts i t Ht Hk Hi) as (Ht' & j & c & Hj). by exists t, j, c. }
  constructor.
  - by eapply list_elem_of_lookup_2.
  - rewrite length_map, <- (st_arity _ _ _ _ Hs k v Hk). apply is_tree_iff in Ht. by eapply Forall2_length.
  - intros i pl (t & j & c & Hi & -> & Ht' & Hr & Hj & _)%Hch. rewrite Forall_lookup in IH. by eapply (IH i t Hi).
  - intros i pl (t & j & c & _ & -> & _ & Hr & Hj & Hl)%Hch. rewrite object_plan_of, Hr. by rewrite (value_node j c Hj).
Qed.

Lemma list_choice {A B} (P : nat -> A -> B -> Prop) (xs : list A) : (forall i x, xs !! i = Some x -> exists y, P i x y) ->
  exists ys, length ys = length xs /\ forall i x y, xs !! i = Some x -> ys !! i = Some y -> P i x y.
Proof.
  revert P. induction xs as [|x xs IH]; intros P HP; [by exists []|].
  destruct (HP 0 x eq_refl) as [y Hy]. destruct (IH (fun i => P (S i)) (fun i => HP (S i))) as (ys & Hl & Hys).
  exists (y :: ys). split; [cbn; by rewrite Hl|]. intros [|i] a b Ha Hb; [cbn in *; congruence|]. by apply Hys.
Qed.

Lemma plan_tree pl k : is_plan l ls pl -> l !! k = Some (object pl) -> exists t, is_tree s t /\ root t = S k /\ plan_of t = pl.
Proof using Hs Hd HKL.
  intros Hpl. revert k. induction Hpl as [v pls Hv Hlen Hpls IH Hlink]. intros k Hk. cbn [object] in Hk.
  destruct (list_choice (fun i pl t => is_tree s t /\ root t ∈ alts_at s (S k) i /\ plan_of t = pl) pls) as (ts & Hts & Hall).
  { intros i pl Hi. assert (Hin : object pl ∈ l) by (by destruct (Hpls i pl Hi)). apply list_elem_of_lookup in Hin as [j Hj].
    destruct (IH i pl Hi j Hj) as (t & Ht & Hr & <-). exists t. split_and!; [done| |done]. rewrite Hr.
    apply (nodes_elem _ _ _ (st_children _ _ _ _ Hs k v i Hk)). exists j, (object (plan_of t)). split_and!; [done..|]. by apply Hlink. }
  exists (TNode (S k) ts). pose proof (st_arity _ _ _ _ Hs k v Hk) as Ha. split_and!; [|done|].
  - apply is_tree_iff, Forall2_same_length_lookup. split; [congruence|]. intros i t alts Hi Halts.
    destruct (lookup_lt_is_Some_2 pls i) as [pl Hpi]; [apply lookup_lt_Some in Hi; lia|].
    destruct (Hall i pl t Hpi Hi) as (Ht & Hr & _). by rewrite (arrays_lookup (S k) i alts Halts) in Hr.
  - cbn [plan_of]. rewrite (value_node k v Hk). f_equal. apply list_eq_same_length with (length pls); [done|by rewrite length_map|].
    intros i x y _ Hx Hy. apply list_lookup_fmap_Some in Hx as (t & -> & Hi). by destruct (Hall i y t Hy Hi) as (_ & _ & ->).
Qed.

Lemma plan_of_inj t t' k v k' v' : is_tree s t -> is_tree s t' -> root t = S k -> root t' = S k' -> l !! k = Some v -> l !! k' = Some v' ->
  plan_of t = plan_of t' -> t = t'.
Proof using Hs Hd HKL.
  revert t t' k v k' v'. refine (tree_all _ _). intros p ts IH [p' ts'] k v k' v' Ht Ht' [= ->] [= ->] Hk Hk' E. cbn [plan_of] in E.
  rewrite (value_node k v Hk), (value_node k' v' Hk') in E. injection E as <- Ets.
  assert (k = k') as <- by (by eapply objects_inj; [exact Hd|..|apply eq_fn_refl]). f_equal.
  apply list_eq_same_length with (length ts'); [done|by rewrite <- (length_map plan_of ts), Ets, length_map|].
  intros i x y _ Hx Hy. destruct (tree_children k v ts i x Ht Hk Hx) as (Htx & j & c & Hrx & Hj & _).
  destruct (tree_children k v ts' i y Ht' Hk Hy) as (Hty & j' & c' & Hry & Hj' & _). rewrite Forall_lookup in IH.
  apply (IH i x Hx y j c j' c'); [done..|]. assert (Hm : map plan_of ts !! i = map plan_of ts' !! i) by (by rewrite Ets).
  rewrite !list_lookup_fmap, Hx, Hy in Hm. by injection Hm.
Qed.

(** ** The list of the plans *)

Abbreviation plans alts := (map plan_of (alternatives s h alts)).

Lemma plans_elem alts cs pl : Forall2 (is_node l) alts cs -> pl ∈ plans alts <-> is_plan l ls pl /\ exists c, c ∈ cs /\ EqFn c (object pl) = true.
Proof using Hs Hd Hls Hrs HKL height_eq Hdown.
  intros HF. rewrite list_elem_of_fmap. unfold alternatives. setoid_rewrite list_elem_of_bind. setoid_rewrite (elem_all_trees s h h_child). split.
  - intros (t & -> & q & [<- Ht] & Hq). apply (nodes_elem _ _ _ HF) in Hq as (j & c & Hr & Hj & Hc). split; [by eapply tree_plan|].
    rewrite object_plan_of, Hr. by rewrite (value_node j c Hj).
  - intros [Hpl Hc]. assert (Hin : object pl ∈ l) by (by destruct Hpl). apply list_elem_of_lookup in Hin as [k Hk].
    destruct (plan_tree pl k Hpl Hk) as (t & Ht & Hr & Ep). exists t. split; [done|]. exists (S k). split; [done|].
    apply (nodes_elem _ _ _ HF). by exists k, (object pl).
Qed.

Lemma plans_nodup alts cs : Forall2 (is_node l) alts cs -> unique cs -> NoDup (plans alts).
Proof using Hs Hd Hls Hrs HKL height_eq Hdown.
  intros HF Hu. apply NoDup_fmap_2_strong.
  - assert (Hin : forall t, t ∈ alternatives s h alts -> is_tree s t /\ exists j c, root t = S j /\ l !! j = Some c).
    { intros t (q & [<- Ht]%(elem_all_trees s h h_child) & Hq)%list_elem_of_bind. split; [done|].
      apply (nodes_elem _ _ _ HF) in Hq as (j & c & Hr & Hj & _). by exists j, c. }
    intros t t' (Ht & k & v & Hr & Hk)%Hin (Ht' & k' & v' & Hr' & Hk')%Hin E. by eapply plan_of_inj.
  - apply (NoDup_alternatives s h h_child); [by eapply node_unique|]. intros c _. apply (NoDup_all_trees s h h_child). by apply arrays_nodup.
Qed.

Lemma overflow_too_many : overflow s h -> too_many l ls rs.
Proof using d Hs Hd Hls Hrs HKL height_eq Hdown.
  intros (p & Hw). unfold weight in Hw. destruct p as [|k].
  - right. pose proof (st_arity_root _ _ _ _ Hs) as Ha. destruct (arrays s 0) as [|alts [|]] eqn:E; [done| |by destruct rs].
    pose proof (st_roots _ _ _ _ Hs) as HF. unfold alts_at in HF. rewrite E in HF. cbn in HF.
    exists (plans alts). split_and!; [by eapply plans_nodup|intros pl; by apply plans_elem|]. rewrite length_map. unfold count_alts in Hw. cbn [map product] in Hw.
    assert (1 < ULLONG_MOD)%N by done. lia.
  - left. destruct (l !! k) as [v|] eqn:Hk.
    2: { unfold arrays in Hw. rewrite (lookup_ge_None_2 s) in Hw; [done|]. apply lookup_ge_None in Hk. rewrite (st_length _ _ _ _ Hs). lia. }
    exists v, (map (count_alts s h) (arrays s (S k))). split_and!; [by eapply list_elem_of_lookup_2|by rewrite length_map, (st_arity _ _ _ _ Hs k v Hk)| |by rewrite map_map].
    intros i n Hi. apply list_lookup_fmap_Some in Hi as (alts & -> & Hi). pose proof (st_children _ _ _ _ Hs k v i Hk) as HF. rewrite (arrays_lookup _ i alts Hi) in HF.
    exists (plans alts). split_and!; [eapply plans_nodup; [done|by apply children_unique]|intros pl; by apply plans_elem|by rewrite length_map].
Qed.

Lemma make_plan_of {R U} (prfn : T -> list R -> U -> outcome (R * U)) s' t k v pU : map shape s' = map shape s -> is_tree s t -> root t = S k -> l !! k = Some v ->
  rehydrate s' prfn t pU = make prfn (plan_of t) pU.
Proof using Hs Hd HKL.
  intros Hshape. revert t k v pU. refine (tree_all _ _). intros p ts IH k v pU Ht [= ->] Hk. cbn [plan_of]. rewrite rehydrate_node, make_node.
  assert (Hall : forall pU, rehydrate_all s' prfn ts pU = make_all prfn (map plan_of ts) pU).
  { assert (Hin : forall t, t ∈ ts -> exists j c, is_tree s t /\ root t = S j /\ l !! j = Some c).
    { intros t [i Hi]%list_elem_of_lookup. destruct (tree_children k v ts i t Ht Hk Hi) as (? & j & c & ? & ? & _). by exists j, c. }
    clear Ht. induction IH as [|t ts Ht' _ IHts]; [done|]. intros pU'. cbn [rehydrate_all map make_all].
    destruct (Hin t ltac:(left)) as (j & c & Ht & Hr & Hj). rewrite (Ht' j c pU' Ht Hr Hj). destruct (make prfn (plan_of t) pU') as [[r pU1]|f]; [|done].
    cbn [mbind outcome_bind]. rewrite IHts; [done|]. intros t' Hin'. apply Hin. by right. }
  rewrite Hall. destruct (make_all prfn (map plan_of ts) pU) as [[rs' pU']|f]; [|done]. cbn [mbind outcome_bind].
  destruct (st_node _ _ _ _ Hs k v Hk) as (node & Hn & _ & _ & Hv & _).
  assert (map shape s' !! S k = Some (shape node)) as Hn' by (by rewrite Hshape, list_lookup_fmap, Hn).
  apply list_lookup_fmap_Some in Hn' as (node' & Hsh & ->). cbn [deref mbind outcome_bind]. unfold shape in Hsh.
  assert (m_value node' = Some v) as -> by congruence. cbn [deref mbind outcome_bind]. by rewrite (value_node k v Hk).
Qed.

(** ** Counting and unranking in the store *)

Lemma uncounted p node : s !! p = Some node -> m_ens node = EnsUncounted.
Proof using Hs.
  intros Hp. destruct p as [|k].
  - destruct (st_global _ _ _ _ Hs) as (node' & Hn & He & _). congruence.
  - destruct (lookup_lt_is_Some_2 l k) as [v Hk]; [apply lookup_lt_Some in Hp; rewrite (st_length _ _ _ _ Hs) in Hp; lia|].
    destruct (st_node _ _ _ _ Hs k v Hk) as (node' & Hn & He & _). congruence.
Qed.

Lemma good_uncounted : good s h s.
Proof using Hs.
  split; [done| |].
  - intros p node Hp E. rewrite (uncounted p node Hp) in E. done.
  - intros p c (node & Hp & E). rewrite (uncounted p node Hp) in E. done.
Qed.

Lemma arrays_root : rs <> [] -> arrays s 0 = [alts_at s 0 0].
Proof using Hs.
  intros Hne. pose proof (st_arity_root _ _ _ _ Hs) as Ha. unfold alts_at.
  revert Ha Hne. generalize (arrays s 0). clear. by intros [|alts [|]]; case rs.
Qed.

Lemma ul_nonzero s' k v node : (N.of_nat (length l) < ULONG_MOD)%N -> map shape s' = map shape s -> l !! k = Some v -> s' !! S k = Some node -> m_ul node <> 0%N.
Proof using Hs.
  intros Hlt Hsh Hk Hn. destruct (st_node _ _ _ _ Hs k v Hk) as (node0 & Hn0 & _ & Hul & _). apply lookup_lt_Some in Hk.
  assert (map shape s' !! S k = Some (shape node)) as E by (by rewrite list_lookup_fmap, Hn). rewrite Hsh, list_lookup_fmap, Hn0 in E. injection E as E _ _.
  rewrite <- E, Hul, N.mod_small by lia. lia.
Qed.

(** Unranking after the count of the global root *)
Lemma PrUnrank_plans {R U} (prfn : T -> list R -> U -> outcome (R * U)) s' pU r pl : rs <> [] -> (N.of_nat (length l) < ULONG_MOD)%N ->
  good s h s' -> in_state EnsCounted s' 0 -> plans (alts_at s 0 0) !! r = Some pl ->
  PrUnrank_node prfn (S (length s')) 0 (N.of_nat r) pU s' = with_store s' (make prfn pl pU).
Proof using Hs Hd Hls Hrs HKL height_eq Hdown.
  intros Hne Hlt Hg Hc Hr. apply list_lookup_fmap_Some in Hr as (t & -> & Hr).
  pose proof (arrays_root Hne) as Ha. pose proof (st_roots _ _ _ _ Hs) as HF.
  assert (Ht : is_tree s t /\ exists j c, root t = S j /\ l !! j = Some c).
  { apply list_elem_of_lookup_2, list_elem_of_bind in Hr as (q & [<- Ht]%(elem_all_trees s h h_child) & Hq). split; [done|].
    apply (nodes_elem _ _ _ HF) in Hq as (j & c & Hj & Hl & _). by exists j, c. }
  destruct Ht as (Ht & j & c & Hj & Hl). rewrite <- (make_plan_of prfn s' t j c pU (gd_shape _ _ _ Hg) Ht Hj Hl).
  assert (Hz : TreeSpec.count_of s h 0 <> 0).
  { rewrite (count_of_unfold s h h_child), Ha. cbn [map product]. apply lookup_lt_Some in Hr. unfold count_alts. lia. }
  cbn [PrUnrank_node]. assert (Hn0 : exists node, s' !! 0 = Some node /\ m_ul node = 0%N).
  { destruct (st_global _ _ _ _ Hs) as (node & Hn & _ & Hul). assert (map shape s' !! 0 = Some (shape node)) as E by (by rewrite (gd_shape _ _ _ Hg), list_lookup_fmap, Hn).
    apply list_lookup_fmap_Some in E as (node' & E & Hn'). exists node'. split; [done|]. injection E as E _ _. congruence. }
  destruct Hn0 as (node & Hn & Hul). rewrite Hn. cbn [deref mbind outcome_bind]. rewrite Hul. cbn [N.eqb].
  apply (PrUnrank_child_ret prfn s h h_child s' Hg _ 0 0 (alts_at s 0 0)); [done|done|by rewrite Ha| |done].
  intros q Hq Hqc _ r' t' pU' Ht'. pose proof (child_lt _ _ Hq) as Hlq. pose proof (h_lt q Hlq) as Hhq. rewrite <- (good_length _ _ _ Hg) in Hhq.
  apply (PrUnrank_node_ret prfn s h h_child s' Hg); [done..| |].
  - intros q' node' Hn' E p Hch. destruct (child_object _ _ Hch) as (i & x & -> & Hi & _). by eapply ul_nonzero in E; [|done|apply Hg|..].
  - intros node' Hn' E. destruct (child_object _ _ Hq) as (i & x & -> & Hi & _). by eapply ul_nonzero in E; [|done|apply Hg|..].
Qed.

Lemma UllCount_plans : rs <> [] -> or_overflow s h (UllCount_at 0 s) (fun r =>
  r.1 = N.of_nat (length (plans (alts_at s 0 0))) /\ good s h r.2 /\ in_state EnsCounted r.2 0).
Proof using Hs Hd Hls Hrs HKL height_eq Hdown.
  intros Hne. assert (H0 : 0 < length s) by (rewrite (st_length _ _ _ _ Hs); lia). pose proof (h_lt 0 H0) as Hh0.
  eapply oo_mono; [apply (UllCount_node_ret s h h_child child_lt)|].
  - apply good_uncounted.
  - done.
  - intros q (node & Hn & E). by rewrite (uncounted q node Hn) in E.
  - lia.
  - intros r (-> & Ha & Hc). split_and!; [|apply Ha|done]. rewrite (count_of_unfold s h h_child), (arrays_root Hne). cbn [map product].
    rewrite length_map. unfold count_alts. by rewrite Nat.mul_1_r.
Qed.

End Store.

(** ** The plans of a sequence of calls *)

Section Ops.
Context {T : Type} `{EqDecision T} `{HK : HashKey T} `{HKL : !HashKeyLaws T}.
Implicit Types (ops : list (TreeOp T)) (v c : T) (l : list T) (ls : list (STreeLink T)) (rs : list T).

(** The children of the global root when [UllCount] counts *)
Definition final_roots ops : list T := roots ops ++ unlinked (links ops) (roots ops) (objects ops).
Definition complete ops (pl : plan T) : Prop := rooted (objects ops) (links ops) (final_roots ops) pl.

Lemma add_object_length l v : length (add_object l v) <= S (length l).
Proof. unfold add_object. destruct (known l v); [lia|]. rewrite length_app. cbn. lia. Qed.

Lemma add_link_length ls link : length (add_link ls link) <= S (length ls).
Proof. unfold add_link. destruct (existsb _ ls); [lia|]. rewrite length_app. cbn. lia. Qed.

Lemma objects_length ops : length (objects ops) <= 2 * length ops.
Proof.
  unfold objects. induction ops as [|op ops IH] using rev_ind; [done|]. rewrite bind_app, foldl_app, length_app. cbn [mbind list_bind length].
  rewrite app_nil_r. set (l := foldl _ _ _) in *. destruct op as [p i c|v]; cbn [op_objects foldl].
  - pose proof (add_object_length l p). pose proof (add_object_length (add_object l p) c). lia.
  - pose proof (add_object_length l v). lia.
Qed.

Lemma links_roots_length ops : length (links ops) + length (roots ops) <= length ops.
Proof.
  unfold links, roots. induction ops as [|op ops IH] using rev_ind; [done|]. rewrite !bind_app, foldl_app, !length_app. cbn [mbind list_bind length].
  rewrite !app_nil_r. set (ls := foldl _ _ _) in *. destruct op as [p i c|v]; cbn [op_links op_roots foldl length]; [|lia].
  pose proof (add_link_length ls (mkLink p (N.of_nat i) c)). lia.
Qed.

Lemma add_link_elem links0 xs link : link ∈ foldl add_link links0 xs -> link ∈ links0 \/ link ∈ xs.
Proof.
  revert links0. induction xs as [|x xs IH]; intros links0 Hin; [by left|]. cbn in Hin. apply IH in Hin as [Hin|Hin]; [|by right; right].
  unfold add_link in Hin. destruct (existsb _ links0); [by left|]. apply elem_of_app in Hin as [?| ->%list_elem_of_singleton]; [by left|right; left].
Qed.

Lemma links_elem ops link : link ∈ links ops -> exists p i c, OpInsert p i c ∈ ops /\ link = mkLink p (N.of_nat i) c.
Proof.
  intros [?%not_elem_of_nil|Hin]%add_link_elem; [done|]. apply list_elem_of_bind in Hin as (op & Hl & Hop).
  destruct op as [p i c|v]; [|by apply not_elem_of_nil in Hl]. apply list_elem_of_singleton in Hl as ->. by exists p, i, c.
Qed.

Lemma links_unique tm l ls rs : built tm l ls rs -> unique ls.
Proof.
  intros Hb. pose proof (ct_distinct _ _ (ls_contents _ _ (bt_linkmap _ _ _ _ Hb))) as [Hn Hu]. split.
  - by apply NoDup_fmap_1 in Hn.
  - intros a b Ha Hb' E. assert ((a, true) = (b, true)) as [=]; [|done]. apply Hu; [apply list_elem_of_fmap; by exists a|apply list_elem_of_fmap; by exists b|done].
Qed.

Lemma unlinked_elem ls rs l v : v ∈ unlinked ls rs l <-> v ∈ l /\ incoming ls rs v = 0.
Proof. unfold unlinked. by rewrite !list_elem_of_In, filter_In, Nat.eqb_eq. Qed.

Lemma incoming_zero ls rs v : incoming ls rs v = 0 <-> forall c, c ∈ map m_ptChild ls ++ rs -> EqFn c v = false.
Proof.
  unfold incoming. generalize (map m_ptChild ls ++ rs). intros xs. induction xs as [|x xs IH]; cbn.
  - split; [by intros _ c ?%not_elem_of_nil|done].
  - destruct (EqFn x v) eqn:E; cbn.
    + split; [done|]. intros H. rewrite (H x) in E; [done|left].
    + rewrite IH. split; [by intros H c [->|Hc]%elem_of_cons; auto|]. intros H c Hc. apply H. by right.
Qed.

Lemma final_roots_unique l ls rs : distinct (entries l) -> unique rs -> unique (rs ++ unlinked ls rs l).
Proof.
  intros Hd [Hn Hu].
  assert (Hl : forall a b, a ∈ l -> b ∈ l -> EqFn a b = true -> a = b).
  { intros a b [i Hi]%list_elem_of_lookup [j Hj]%list_elem_of_lookup E. pose proof (objects_inj l i j a b Hd Hi Hj E). congruence. }
  assert (Hno : forall a b, a ∈ rs -> b ∈ unlinked ls rs l -> EqFn a b = false).
  { intros a b Ha [_ Hb]%unlinked_elem. rewrite incoming_zero in Hb. apply Hb, elem_of_app. by right. }
  split.
  - apply NoDup_app. split_and!; [done| |].
    + intros x Hx Hx'. specialize (Hno x x Hx Hx'). by rewrite eq_fn_refl in Hno.
    + unfold unlinked. apply NoDup_ListNoDup, List.NoDup_filter, NoDup_ListNoDup. apply NoDup_alt. intros i j x Hi Hj.
      by apply (objects_inj l i j x x Hd Hi Hj), eq_fn_refl.
  - intros a b [Ha|Ha]%elem_of_app [Hb|Hb]%elem_of_app E.
    + by apply Hu.
    + by rewrite Hno in E.
    + apply eq_fn_sym in E. by rewrite Hno in E.
    + apply unlinked_elem in Ha as [Ha _], Hb as [Hb _]. by apply Hl.
Qed.

(** With descending links some object is a root. *)
Lemma final_roots_nonempty l ls rs (height : T -> nat) : closed l ls rs -> l <> [] ->
  (forall a b, EqFn a b = true -> height a = height b) ->
  (forall link, link ∈ ls -> height (m_ptChild link) < height (m_ptParent link)) -> rs ++ unlinked ls rs l <> [].
Proof.
  intros Hc Hne Heq Hdown E.
  assert (Hup : forall n v, v ∈ l -> exists w, w ∈ l /\ n <= height w).
  { induction n as [|n IH]; intros v Hv; [exists v; split; [done|lia]|]. destruct (IH v Hv) as (w & Hw & Hn).
    destruct (decide (incoming ls rs w = 0)) as [E0|E0]; [assert (w ∈ rs ++ unlinked ls rs l) as Hin by (apply elem_of_app; right; by apply unlinked_elem); rewrite E in Hin; by apply not_elem_of_nil in Hin|].
    assert (exists c, c ∈ map m_ptChild ls ++ rs /\ EqFn c w = true) as (c & [Hc'|Hc']%elem_of_app & Ec).
    { unfold incoming in E0. destruct (List.filter (fun c => EqFn c w) (map m_ptChild ls ++ rs)) as [|c cs] eqn:Ef; [done|].
      assert (In c (c :: cs)) as Hin by (by left). rewrite <- Ef in Hin. apply filter_In in Hin as [Hin Ec]. exists c. split; [by apply list_elem_of_In|done]. }
    - apply list_elem_of_fmap in Hc' as (link & -> & Hl). pose proof (Hdown link Hl) as Hlt. rewrite (Heq _ _ Ec) in Hlt.
      pose proof (cl_parent _ _ _ Hc link Hl) as Hk. apply known_true in Hk as (j & x & Hj & Ex). exists x. split; [by eapply list_elem_of_lookup_2|]. rewrite (Heq _ _ Ex). lia.
    - assert (c ∈ rs ++ unlinked ls rs l) as Hin by (apply elem_of_app; by left). rewrite E in Hin. by apply not_elem_of_nil in Hin. }
  destruct l as [|v l']; [done|]. set (top := foldr max 0 (map height (v :: l'))).
  destruct (Hup (S top) v ltac:(left)) as (w & Hw & Hge).
  assert (height w <= top); [|lia]. unfold top. clear -Hw. induction Hw as [x xs|x y xs _ IH]; cbn [map foldr]; lia.
Qed.
End Ops.
End TreePlan.
