(* ===== verification/MapProps.v ===== *)
(** * Hash maps and the plans of the memo

    The properties of [CHashMap] (HashMap.v) and [CTreeMap] (TreeMap.v). A program of
    calls on a hash map answers like the list of its entries. A map of trees built by
    any calls whose links descend counts its plans, or raises an exception, and gives
    every plan at one rank. *)
From stdpp Require Import base numbers list.
From S2P Require Import Prelude BitVector BitSet SetHash HashMap TreeMap TreeSpec TreeCount TreeBuild TreePlan.

Module MapProps.
Import HashMap.
Open Scope outcome_scope.

(** ** Programs on a hash map *)

Inductive MapOp (K V : Type) :=
  | MInsert (key : K) (value : V)
  | MReplace (key : K) (value : V)
  | MDelete (key : K)
  | MFind (key : K).
Arguments MInsert {K V} _ _.
Arguments MReplace {K V} _ _.
Arguments MDelete {K V} _.
Arguments MFind {K V} _.

Inductive answer (V : Type) := ABool (b : bool) | AValue (value : option V).
Arguments ABool {V} _.
Arguments AValue {V} _.

Section HashMaps.
Context {K V : Type} `{HK : HashKey K} `{HKL : !HashKeyLaws K}.
Implicit Types (m : CHashMap K V) (l : list (K * V)) (op : MapOp K V).

Definition run_map op m : outcome (answer V * CHashMap K V) :=
  match op with
  | MInsert key value => '(b, m) ← HashMap.Insert m key value; mret (ABool b, m)
  | MReplace key value => '(b, m) ← Replace m key value; mret (ABool b, m)
  | MDelete key => '(b, m) ← Delete m key; mret (ABool b, m)
  | MFind key => v ← Find m key; mret (AValue v, m)
  end.

(** The same on the list of the entries *)
Definition spec_map op l : answer V * list (K * V) :=
  let found := bool_decide (is_Some (entry l (match op with MInsert k _ | MReplace k _ | MDelete k | MFind k => k end))) in
  match op with
  | MInsert key value => (ABool (negb found), if found then l else l ++ [(key, value)])
  | MReplace key value => (ABool found, replace_value l key value)
  | MDelete key => (ABool found, remove_key l key)
  | MFind key => (AValue (snd <$> entry l key), l)
  end.

Definition run_maps (ops : list (MapOp K V)) m : outcome (list (answer V) * CHashMap K V) :=
  for_each ops (fun op '(answers, m) => '(a, m) ← run_map op m; mret (answers ++ [a], m)) ([], m).
Definition spec_maps (ops : list (MapOp K V)) l : list (answer V) * list (K * V) :=
  foldl (fun r op => let a := spec_map op r.2 in (r.1 ++ [a.1], a.2)) ([], l) ops.

Definition deletes op : bool := match op with MDelete _ => true | _ => false end.

Lemma replace_keys l key value : map fst (replace_value l key value) = map fst l /\ length (replace_value l key value) = length l.
Proof. induction l as [|e l [IH1 IH2]]; [done|]. cbn. destruct (has_key key e); cbn; [done|]. by rewrite IH1, IH2. Qed.

Lemma run_map_ret m l op : contents m l -> run_map op m ⤳ (fun r =>
  r.1 = (spec_map op l).1 /\ contents r.2 (spec_map op l).2 /\ (deletes op = false -> listed m l -> listed r.2 (spec_map op l).2)).
Proof.
  intros Hm. destruct op as [key value|key value|key|key]; cbn [run_map spec_map deletes].
  - eapply returns_bind; [by apply Insert_ret|]. intros [b m'] Hr. apply returns_ret. cbn [fst snd] in *. destruct (entry l key) as [e|] eqn:E.
    + injection Hr as -> ->. by rewrite bool_decide_true by eauto.
    + destruct Hr as (-> & H1 & H2 & H3). rewrite bool_decide_false by (by intros [? ?]). split_and!; [done..|]. intros _ Hl. by eapply listed_insert.
  - eapply returns_bind; [by apply Replace_ret|]. intros [b m'] (Hr & H1 & H2 & H3). apply returns_ret. cbn [fst snd] in *. split_and!; [by rewrite Hr|done|].
    intros _ [_ Hsz Hk]. pose proof (replace_keys l key value) as [E1 E2]. split; [done|by rewrite H3, E2|by rewrite H2, E1].
  - eapply returns_bind; [by apply Delete_ret|]. intros [b m'] (Hr & H1 & _). apply returns_ret. cbn [fst snd] in *. by rewrite Hr.
  - rewrite (Find_ret m l Hm). by apply returns_ret.
Qed.

(** C22: Any sequence of Insert, Replace, Delete and Find calls on a new map, with
    any number of chains and any hash that agrees with the equality of the keys,
    returns without a fault and gives the answers of the list of entries, in which
    Insert appends unless there is an equal key, Replace changes the value in place
    and keeps the key, and Delete removes. If nothing was deleted, Size is the number
    of entries modulo 2^32 and an iteration gives the entries in the order of their
    insertion. *)
Theorem hash_map_programs_refine num (ops : list (MapOp K V)) : (0 < num)%N ->
  (m ← CHashMap_ctor num; run_maps ops m) ⤳ (fun r =>
    r.1 = (spec_maps ops []).1 /\
    (forall key, Find r.2 key = Ret (snd <$> entry (spec_maps ops []).2 key)) /\
    (forallb (fun op => negb (deletes op)) ops = true ->
      Size r.2 = (N.of_nat (length (spec_maps ops []).2) mod ULONG_MOD)%N /\ iterate r.2 = Ret (map Some (spec_maps ops []).2))).
Proof.
  intros Hnum. eapply returns_bind; [by apply CHashMap_ctor_ret|]. intros m0 Hm0. unfold run_maps.
  eapply returns_mono; [apply (for_each_rule (fun pre r => r.1 = (spec_maps pre []).1 /\ contents r.2 (spec_maps pre []).2 /\
    (forallb (fun op => negb (deletes op)) pre = true -> listed r.2 (spec_maps pre []).2)))|].
  - split_and!; [done|apply Hm0|done].
  - intros pre op post [answers m] _ (Ha & Hc & Hl). cbn [fst snd] in *. unfold spec_maps. rewrite foldl_app. cbn [foldl]. fold (spec_maps pre []).
    eapply returns_bind; [by apply run_map_ret|]. intros [a m'] (H1 & H2 & H3). apply returns_ret. cbn [fst snd] in *. split_and!; [by rewrite Ha, H1|done|].
    rewrite forallb_app. intros [Hpre [Hop%negb_true_iff _]%andb_prop]%andb_prop. by apply H3, Hl.
  - intros [answers m] (Ha & Hc & Hl). cbn [fst snd] in *. split_and!; [done|intros key; by apply Find_ret|].
    intros Hno. specialize (Hl Hno). split; [apply Hl|by apply iterate_ret].
Qed.

End HashMaps.

(** ** Plans *)

Section Trees.
Import TreeMap TreeSpec TreeBuild TreeCount TreeRank TreePlan.
Local Open Scope nat_scope.
Context {T : Type} `{EqDecision T} `{HK : HashKey T} `{HKL : !HashKeyLaws T}.
Implicit Types (ops : list (TreeOp T)) (pl : plan T) (tm : CTreeMap T).

(** Equal objects have the same height, and an object is above the objects that are
    linked as its children; no two calls of [InsertRoot] have equal objects. *)
Record well_linked ops (height : T -> nat) : Prop := {
  wl_equal a b : EqFn a b = true -> height a = height b;
  wl_down p i c : OpInsert p i c ∈ ops -> height c < height p;
  wl_roots : unique (roots ops);
  wl_length : (N.of_nat (length ops) < 2 ^ 31)%N;
}.

Lemma well_linked_ok ops height : well_linked ops height -> Forall op_ok ops.
Proof.
  intros Hw. apply Forall_forall. intros op Hop. destruct op as [p i c|v]; [|done]. apply not_true_iff_false. intros E.
  pose proof (wl_equal _ _ Hw _ _ E). pose proof (wl_down _ _ Hw _ _ _ Hop). lia.
Qed.

(** What is known of a map that was built, in one lemma for the two claims *)
Lemma built_plans ops height tm : well_linked ops height -> built tm (objects ops) (links ops) (roots ops) ->
  exists all, NoDup all /\ (forall pl, pl ∈ all <-> complete ops pl) /\
    ((UllCount tm = Abort FRaise /\ too_many (objects ops) (links ops) (final_roots ops)) \/
     exists tm', UllCount tm = Ret (N.of_nat (length all), tm') /\ (N.of_nat (length all) < ULLONG_MOD)%N /\
       forall (R U : Type) (prfn : T -> list R -> U -> outcome (R * U)) pU r pl, all !! r = Some pl ->
         PrUnrank prfn tm' pU (N.of_nat r) = '(res, pU') ← make prfn pl pU; mret (res, pU', tm')).
Proof.
  intros Hw Hb. pose proof (objects_length ops) as Hlo. pose proof (links_roots_length ops) as Hll. pose proof (wl_length _ _ Hw) as Hlen.
  assert (E31 : (ULONG_MOD = 2 * 2 ^ 31)%N) by done.
  pose proof (built_distinct _ _ _ _ Hb) as Hd. pose proof (links_unique _ _ _ _ Hb) as Hul.
  pose proof (final_roots_unique _ (links ops) _ Hd (wl_roots _ _ Hw)) as Hur.
  assert (Hdown : forall link, link ∈ links ops -> height (m_ptChild link) < height (m_ptParent link)).
  { intros link (p & i & c & Hop & ->)%links_elem. by eapply (wl_down _ _ Hw). }
  destruct (hook_roots_ret tm _ _ _ Hb) as ([n nodes] & Hh & Hn & Hs); [lia|]. cbn [fst snd] in Hn, Hs.
  unfold UllCount. rewrite Hh. cbn [mbind outcome_bind]. destruct (objects ops) as [|d l'] eqn:El.
  { exists []. split_and!; [constructor| |].
    - intros pl. split; [by intros ?%not_elem_of_nil|]. intros [Hp _]. rewrite El in Hp. destruct Hp as [v pls Hv]. by apply not_elem_of_nil in Hv.
    - right. rewrite Hn. eexists. split; [done|]. split; [done|]. by intros. }
  rewrite <- El in *. assert (Hne : final_roots ops <> []).
  { apply (final_roots_nonempty _ _ _ height); [apply Hb|by rewrite El|apply Hw|done]. }
  assert (Hn0 : (n =? 0) = false) by (rewrite Hn, El; done). rewrite Hn0. cbn [m_ptnRoot with_nodes m_nodes]. rewrite (bt_root _ _ _ _ Hb).
  fold (final_roots ops) in *. set (ls := links ops) in *. set (rs := final_roots ops) in *. set (l := objects ops) in *.
  exists (map (plan_of l d) (alternatives nodes (h l height) (alts_at nodes 0 0))).
  split_and!.
  - apply (plans_nodup nodes l ls rs Hs Hd Hul Hur height (wl_equal _ _ Hw) Hdown d _ rs); [apply Hs|done].
  - intros pl. apply (plans_elem nodes l ls rs Hs Hd Hul Hur height (wl_equal _ _ Hw) Hdown d _ rs). apply Hs.
  - destruct (UllCount_plans nodes l ls rs Hs Hd Hul Hur height (wl_equal _ _ Hw) Hdown d Hne) as [([ull nodes'] & Hc & Hull & Hg & Hcc)|[Hc Ho]].
    + right. rewrite Hc. cbn [mbind outcome_bind fst snd] in *. eexists. rewrite Hull. split; [done|]. split.
      * destruct Hcc as (node & Hnode & He). destruct (gd_count _ _ _ Hg 0 node Hnode He) as [_ Hlt].
        unfold TreeSpec.count_of in Hlt. rewrite length_map. revert Hlt.
        rewrite (all_trees_unfold nodes (h l height) (h_child nodes l ls rs Hs Hul Hur height (wl_equal _ _ Hw) Hdown)), (arrays_root nodes l ls rs Hs Hne).
        rewrite length_map, length_choices. cbn [map product]. by rewrite Nat.mul_1_r.
      * intros R U prfn pU r pl Hr. unfold PrUnrank. cbn [m_ptnRoot with_nodes m_nodes]. rewrite (bt_root _ _ _ _ Hb).
        rewrite (PrUnrank_plans nodes l ls rs Hs Hd Hul Hur height (wl_equal _ _ Hw) Hdown d prfn nodes' pU r pl Hne); [|lia|done..].
        destruct (make prfn pl pU) as [[res pU']|f]; done.
    + left. rewrite Hc. cbn [mbind outcome_bind]. split; [done|].
      by apply (overflow_too_many nodes l ls rs Hs Hd Hul Hur height (wl_equal _ _ Hw) Hdown d).
Qed.


End Trees.

(** ** At concrete inputs *)

(** Objects with a number and a color, equal when the numbers are *)
#[local] Instance numbered : HashKey (N * N) := { HashFn x := (x.1 * 7)%N; EqFn x y := (x.1 =? y.1)%N }.
#[local] Instance numbered_laws : HashKeyLaws (N * N).
Proof.
  split; cbn.
  - intros a. apply N.eqb_refl.
  - intros a b E%N.eqb_eq. by apply N.eqb_eq.
  - intros a b c E%N.eqb_eq E'%N.eqb_eq. apply N.eqb_eq. congruence.
  - intros a b E%N.eqb_eq. by rewrite E.
Qed.

Definition sample_map : list (MapOp (N * N) nat) :=
  [MInsert (1, 0)%N 10; MInsert (4, 0)%N 40; MInsert (1, 9)%N 11; MReplace (4, 1)%N 41; MFind (1, 2)%N; MFind (4, 0)%N; MFind (2, 0)%N].

Lemma hash_map_programs_refine_witness : (0 < 3)%N /\
  (m ← CHashMap_ctor 3; run_maps sample_map m) ⤳ (fun r =>
    r.1 = [ABool true; ABool true; ABool false; ABool true; AValue (Some 10); AValue (Some 41); AValue None] /\
    Size r.2 = 2%N /\ iterate r.2 = Ret [Some ((1, 0)%N, 10); Some ((4, 0)%N, 41)]).
Proof.
  split; [done|]. eapply returns_mono; [apply (hash_map_programs_refine 3 sample_map); done|].
  intros r (H1 & _ & H2). split; [rewrite H1; vm_compute; reflexivity|]. destruct (H2 ltac:(vm_compute; reflexivity)) as [-> ->]. split; vm_compute; reflexivity.
Defined.

Definition listed_map : CHashMap (N * N) nat := mkMap 1 2 [Some [((1, 0), 10%nat); ((4, 0), 40%nat)]]%N [(1, 0)%N; (4, 0)%N] [0%N].

Lemma listed_sample : listed listed_map [((1, 0)%N, 10); ((4, 0)%N, 40)].
Proof.
  split; [split| |]; try done.
  - split.
    + by apply (bool_decide_unpack _).
    + intros a b Ha Hb. repeat (apply elem_of_cons in Ha as [->|Ha]; [repeat (apply elem_of_cons in Hb as [->|Hb]; [done|]); by apply not_elem_of_nil in Hb|]). by apply not_elem_of_nil in Ha.
  - intros i c Hi. destruct (N.to_nat i) as [|n] eqn:E; [|by destruct n]. assert (i = 0%N) as -> by lia. injection Hi as <-. done.
  - apply NoDup_singleton.
  - intros i. cbn. rewrite list_elem_of_singleton. split; [by intros ->; eauto|]. intros [c Hi]. destruct (N.to_nat i) as [|[]] eqn:E; [lia|done..].
Qed.


Section SampleTrees.
Import TreeMap TreeBuild TreePlan.
Local Open Scope N_scope.

(** Object 4 with two alternatives at each of two positions, one link given twice *)
Definition sample_ops : list (TreeOp (N * N)) :=
  [OpInsert (4, 0) 0 (1, 0); OpInsert (4, 0) 0 (2, 0); OpInsert (4, 1) 1 (2, 1); OpInsert (4, 0) 1 (3, 0); OpInsert (4, 0) 0 (2, 7)].
Definition number (x : N * N) : nat := N.to_nat x.1.

Lemma sample_linked : well_linked sample_ops number.
Proof.
  split.
  - intros a b E%N.eqb_eq. unfold number. by rewrite E.
  - intros p i c Hin. unfold sample_ops in Hin. repeat (apply elem_of_cons in Hin as [[= -> -> ->]|Hin]; [cbv; lia|]). by apply not_elem_of_nil in Hin.
  - split; [constructor|]. by intros a b ?%not_elem_of_nil.
  - done.
Qed.

Definition sample_tree : CTreeMap (N * N) := match build sample_ops with Ret tm => tm | Abort _ => mkTreeMap 0 0 0%nat (mkMap 0 0 [] [] []) (mkMap 0 0 [] [] []) [] end.
Definition sample_counted : CTreeMap (N * N) := match UllCount sample_tree with Ret (_, tm) => tm | Abort _ => sample_tree end.


(** The plan itself as the result *)
Definition as_plan (v : N * N) (inputs : list (plan (N * N))) (u : unit) : outcome (plan (N * N) * unit) := mret (PNode v inputs, u).

End SampleTrees.
End MapProps.
