(* ===== verification/StateMachine.v ===== *)
(** * Finite state machines of jobs

    Source: [CStateMachine] of libgpopt/include/gpopt/base and [CJobStateMachine] of
    libgpopt/include/gpopt/search. States and events are enumerations without their
    sentinels; an entry of the table of transitions that is the sentinel is [None].
    What the constructor asserts of the numbers of states and events holds by the types.
    Names and printing are left out, the history of a debug build is kept. *)
From stdpp Require Import base numbers list finite.
From S2P Require Import Prelude.

Module StateMachine.
Open Scope outcome_scope.

Definition ULONG_MOD : N := 2 ^ 32.
Definition GPOPT_FSM_HISTORY : N := 25.

Section Machine.
Context {St Ev : Type} `{Finite St} `{Finite Ev} `{Inhabited St}.

Record CStateMachine := mkSM {
  m_tenumstate : St;
  m_fInit : bool;
  m_rgrgtenumeventTransitions : St -> St -> option Ev;
  m_ulHistory : N;
  (** [m_tenumeventHistory] and [m_tenumstateHistory] *)
  m_history : list (option (Ev * St));
}.
Implicit Types (sm : CStateMachine) (tenumstate : St) (tenumevent : Ev).

Definition TesInitial : St := hd inhabitant (enum St).
Definition TesFinal : St := List.last (enum St) inhabitant.

Definition CStateMachine_ctor : CStateMachine :=
  mkSM TesInitial false (fun _ _ => None) 0 (replicate (N.to_nat GPOPT_FSM_HISTORY) None).

Definition sm_Init sm (transitions : St -> St -> option Ev) : outcome CStateMachine :=
  _ ← GPOS_ASSERT (negb (m_fInit sm));
  mret (mkSM TesInitial true transitions (m_ulHistory sm) (m_history sm)).

Definition sm_Reset sm : CStateMachine :=
  mkSM TesInitial false (m_rgrgtenumeventTransitions sm) (m_ulHistory sm) (m_history sm).

Definition Estate sm : St := m_tenumstate sm.

Definition RecordHistory sm tenumevent tenumstate : CStateMachine :=
  let ulHistory := (m_ulHistory sm mod GPOPT_FSM_HISTORY)%N in
  mkSM (m_tenumstate sm) (m_fInit sm) (m_rgrgtenumeventTransitions sm) ((m_ulHistory sm + 1) mod ULONG_MOD)%N
       (<[N.to_nat ulHistory := Some (tenumevent, tenumstate)]> (m_history sm)).

Definition FAttemptTransition sm (tenumstateOld : St) tenumevent : outcome (option St) :=
  _ ← GPOS_ASSERT (m_fInit sm);
  match list_find (fun s => m_rgrgtenumeventTransitions sm tenumstateOld s = Some tenumevent) (enum St) with
  | None => mret None
  | Some (ulOuter, tenumstateNew) =>
      _ ← GPOS_ASSERT (forallb (fun s => bool_decide (m_rgrgtenumeventTransitions sm tenumstateOld s <> Some tenumevent))
                         (drop (S ulOuter) (enum St)));
      mret (Some tenumstateNew)
  end.

(** The result, the state afterwards, and the machine *)
Definition FTransition sm tenumevent : outcome (bool * St * CStateMachine) :=
  new ← FAttemptTransition sm (m_tenumstate sm) tenumevent;
  let sm' := match new with
             | Some s => RecordHistory (mkSM s (m_fInit sm) (m_rgrgtenumeventTransitions sm) (m_ulHistory sm) (m_history sm)) tenumevent s
             | None => sm
             end in
  mret (bool_decide (is_Some new), m_tenumstate sm', sm').

Definition Transition sm tenumevent : outcome CStateMachine :=
  '(fCheck, _, sm) ← FTransition sm tenumevent;
  _ ← GPOS_ASSERT fCheck;
  mret sm.

(** [OsHistory]: the entries in the order in which they are printed *)
Definition OsHistory sm : outcome (list (Ev * St)) :=
  let ulElems := N.min (m_ulHistory sm) GPOPT_FSM_HISTORY in
  let ulStart := if (m_ulHistory sm <? GPOPT_FSM_HISTORY)%N then 0%N else ((m_ulHistory sm + 1) mod ULONG_MOD)%N in
  mapM (fun ul =>
    let ulPos := (((ulStart + N.of_nat ul) mod ULONG_MOD) mod GPOPT_FSM_HISTORY)%N in
    e ← subscript (m_history sm) (N.to_nat ulPos);
    deref e) (seq 0 (N.to_nat ulElems)).

(** [Walk] calls a function for every edge. *)
Definition Walk {A} (f : St -> St -> Ev -> A -> A) sm (pvContext : A) : A :=
  foldl (fun ctx sink => foldl (fun ctx source =>
    match m_rgrgtenumeventTransitions sm source sink with Some ev => f source sink ev ctx | None => ctx end) ctx (enum St)) pvContext (enum St).

Definition Unreachable_walker (tenumstateSource tenumstateSink : St) (tenumevent : Ev) (eset : list St) : list St :=
  if bool_decide (tenumstateSource <> tenumstateSink) then filter (fun s => s <> tenumstateSink) eset else eset.

Definition Unreachable sm : list St := Walk Unreachable_walker sm (enum St).
Definition FReachable sm : bool := (length (Unreachable sm) =? 0)%nat.
End Machine.
#[global] Arguments CStateMachine : clear implicits.

(** ** Job state machines *)

(** The object [C] is what actions are called with: the scheduler context and the
    owner of the machine. *)
Section JobMachine.
Context {St Ev C : Type} `{Finite St} `{Finite Ev} `{Inhabited St}.
Context (FTimedOut : C -> bool) (Cleanup : C -> outcome C).

Record CJobStateMachine := mkJSM {
  m_rgPfuncAction : St -> option (C -> outcome (Ev * C));
  m_sm : CStateMachine St Ev;
}.
Implicit Types (jsm : CJobStateMachine) (c : C).

Definition CJobStateMachine_ctor : CJobStateMachine := mkJSM (fun _ => None) CStateMachine_ctor.

Definition Reset jsm : CJobStateMachine := mkJSM (fun _ => None) (sm_Reset (m_sm jsm)).

Definition Init jsm (rgfTransitions : St -> St -> option Ev) : outcome CJobStateMachine :=
  let jsm := Reset jsm in
  sm ← sm_Init (m_sm jsm) rgfTransitions;
  mret (mkJSM (m_rgPfuncAction jsm) sm).

Definition SetAction jsm (est : St) (pfAction : C -> outcome (Ev * C)) : outcome CJobStateMachine :=
  _ ← GPOS_ASSERT (match m_rgPfuncAction jsm est with None => true | Some _ => false end);
  mret (mkJSM (fun s => if bool_decide (s = est) then Some pfAction else m_rgPfuncAction jsm s) (m_sm jsm)).

(** [FRun]; [n] bounds the number of actions. *)
Fixpoint FRun (n : nat) jsm c : outcome (bool * CJobStateMachine * C) :=
  match n with
  | O => Abort FFuel
  | S n =>
      if FTimedOut c then (c ← Cleanup c; mret (true, jsm, c)) else
      let estCurrent := Estate (m_sm jsm) in
      _ ← GPOS_ASSERT (match m_rgPfuncAction jsm estCurrent with Some _ => true | None => false end);
      pfunc ← deref (m_rgPfuncAction jsm estCurrent);
      '(eev, c) ← pfunc c;
      '(fSucceeded, estNext, sm) ← FTransition (m_sm jsm) eev;
      let jsm := mkJSM (m_rgPfuncAction jsm) sm in
      _ ← GPOS_ASSERT fSucceeded;
      if bool_decide (estNext <> estCurrent) && bool_decide (estNext <> TesFinal)
      then FRun n jsm c
      else mret (bool_decide (estNext = TesFinal), jsm, c)
  end.
End JobMachine.
#[global] Arguments CJobStateMachine : clear implicits.


(** ** Transitions *)

(** The computation returns a value with [P], or stops at a fault in [F]. *)
Definition only_faults {A} (F : fault -> Prop) (m : outcome A) (P : A -> Prop) : Prop :=
  match m with Ret a => P a | Abort f => F f end.

Lemma of_bind {A B} F (m : outcome A) (k : A -> outcome B) P Q :
  only_faults F m P -> (forall a, P a -> only_faults F (k a) Q) -> only_faults F (m ≫= k) Q.
Proof. destruct m as [a|f]; [intros Ha Hk; by apply Hk|done]. Qed.

Lemma of_mono {A} F (m : outcome A) (P Q : A -> Prop) : only_faults F m P -> (forall a, P a -> Q a) -> only_faults F m Q.
Proof. destruct m; cbn; auto. Qed.

Lemma of_returns {A} (m : outcome A) P : only_faults (fun _ => False) m P -> m ⤳ P.
Proof. destruct m as [a|f]; [intros Ha; by exists a|done]. Qed.

(** An event leads from a state to at most one other. *)
Definition deterministic {St Ev} (trans : St -> St -> option Ev) : Prop :=
  forall a b b' ev, trans a b = Some ev -> trans a b' = Some ev -> b = b'.

Section Transitions.
Context {St Ev : Type} `{Finite St} `{Finite Ev} `{Inhabited St}.
Implicit Types (sm : CStateMachine St Ev).

Lemma FAttemptTransition_ret sm a b ev : m_fInit sm = true -> deterministic (m_rgrgtenumeventTransitions sm) ->
  m_rgrgtenumeventTransitions sm a b = Some ev -> FAttemptTransition sm a ev = Ret (Some b).
Proof.
  intros Hi Hd Hab. unfold FAttemptTransition. rewrite bind_assert by done.
  destruct (list_find (fun s => m_rgrgtenumeventTransitions sm a s = Some ev) (enum St)) as [[i b']|] eqn:E.
  - apply list_find_Some in E as (Hi' & Hb' & _). assert (b' = b) as -> by (by eapply Hd). rewrite bind_assert; [done|].
    apply forallb_forall. intros x Hx%list_elem_of_In. apply bool_decide_eq_true. intros Hx'. assert (x = b) as -> by (by eapply Hd).
    apply list_elem_of_lookup in Hx as [j Hj]. rewrite lookup_drop in Hj. pose proof (NoDup_lookup _ _ _ _ (NoDup_enum St) Hi' Hj). lia.
  - apply list_find_None in E. rewrite Forall_forall in E. exfalso. apply (E b); [apply elem_of_enum|done].
Qed.

Lemma FTransition_ret sm b ev : m_fInit sm = true -> deterministic (m_rgrgtenumeventTransitions sm) ->
  m_rgrgtenumeventTransitions sm (Estate sm) b = Some ev ->
  FTransition sm ev = Ret (true, b, RecordHistory (mkSM b (m_fInit sm) (m_rgrgtenumeventTransitions sm) (m_ulHistory sm) (m_history sm)) ev b).
Proof.
  intros Hi Hd Hab. unfold FTransition. unfold Estate in Hab. rewrite (FAttemptTransition_ret sm _ b ev Hi Hd Hab). done.
Qed.

(** ** Unreachable states: those without an edge from another state *)

Lemma foldl_filter {A B} (f : list A -> B -> list A) (P : B -> A -> Prop) xs l :
  (forall l b x, x ∈ f l b <-> x ∈ l /\ P b x) -> forall x, x ∈ foldl f l xs <-> x ∈ l /\ forall b, b ∈ xs -> P b x.
Proof.
  intros Hf. revert l. induction xs as [|b xs IH]; intros l x; cbn.
  - split; [intros Hx; split; [done|]; by intros b ?%not_elem_of_nil|tauto].
  - rewrite IH, Hf. split.
    + intros [[Hx Hb] Hxs]. split; [done|]. by intros y [->|Hy]%elem_of_cons; auto.
    + intros [Hx Hxs]. split_and!; [done|apply Hxs; by left|]. intros y Hy. apply Hxs. by right.
Qed.

Lemma Unreachable_elem sm s : s ∈ Unreachable sm <-> forall a, a <> s -> m_rgrgtenumeventTransitions sm a s = None.
Proof.
  unfold Unreachable, Walk.
  rewrite (foldl_filter _ (fun sink x => forall source, source ∈ enum St -> source <> sink -> x = sink -> m_rgrgtenumeventTransitions sm source sink = None)).
  - split.
    + intros [_ Hs] a Ha. apply (Hs s); [apply elem_of_enum|apply elem_of_enum|done|done].
    + intros Hs. split; [apply elem_of_enum|]. intros b _ a _ Ha ->. by apply Hs.
  - intros l sink x. rewrite (foldl_filter _ (fun source x => source <> sink -> x = sink -> m_rgrgtenumeventTransitions sm source sink = None)); [done|].
    intros l' source y. destruct (m_rgrgtenumeventTransitions sm source sink) as [ev|]; [|naive_solver].
    unfold Unreachable_walker. case_bool_decide as Hne.
    + rewrite list_elem_of_filter. naive_solver.
    + naive_solver.
Qed.
End Transitions.

(** ** Running *)

Section Run.
Context {St Ev C : Type} `{Finite St} `{Finite Ev} `{Inhabited St}.
Context (FTimedOut : C -> bool) (Cleanup : C -> outcome C) (F : fault -> Prop).
Context (trans : St -> St -> option Ev) (acts : St -> option (C -> outcome (Ev * C))).
Context (Inv Stop : St -> C -> Prop) (measure : St -> C -> nat).
Implicit Types (jsm : CJobStateMachine St Ev C) (c : C) (s : St).

(** A machine that was set up with the table and the actions *)
Definition set_up jsm : Prop := m_fInit (m_sm jsm) = true /\ m_rgrgtenumeventTransitions (m_sm jsm) = trans /\ m_rgPfuncAction jsm = acts.

(** Every state that is not final has an action; it answers with an event of its
    row, and the machine stays, with [Stop], ends, or comes closer to an end. *)
Record runnable : Prop := {
  ru_det : deterministic trans;
  ru_action s c : s <> TesFinal -> Inv s c -> FTimedOut c = false -> exists f, acts s = Some f /\
    only_faults F (f c) (fun r => exists s', trans s s' = Some r.1 /\ Inv s' r.2 /\ ((s' = s /\ Stop s r.2) \/ s' = TesFinal \/ (s' <> s /\ measure s' r.2 < measure s c)));
  ru_cleanup s c : Inv s c -> only_faults F (Cleanup c) (fun _ => True);
}.

(** What a run leaves behind *)
Definition ran (r : bool * CJobStateMachine St Ev C * C) : Prop :=
  let '(b, jsm, c) := r in
  set_up jsm /\
  if b then (Estate (m_sm jsm) = TesFinal /\ Inv TesFinal c) \/ exists c0, FTimedOut c0 = true
  else Estate (m_sm jsm) <> TesFinal /\ Inv (Estate (m_sm jsm)) c /\ Stop (Estate (m_sm jsm)) c /\
       trans (Estate (m_sm jsm)) (Estate (m_sm jsm)) <> None.

Lemma FRun_ret n jsm c : runnable -> set_up jsm -> Estate (m_sm jsm) <> TesFinal -> Inv (Estate (m_sm jsm)) c -> measure (Estate (m_sm jsm)) c < n ->
  only_faults F (FRun FTimedOut Cleanup n jsm c) ran.
Proof.
  intros Hr. revert jsm c. induction n as [|n IH]; intros jsm c Hs Hne Hi Hn; [lia|]. cbn [FRun].
  destruct (FTimedOut c) eqn:Et.
  { eapply of_bind; [by eapply (ru_cleanup Hr)|]. intros c' _. cbn. split; [done|]. right. by exists c. }
  destruct Hs as (Hinit & Htr & Hacts). set (s := Estate (m_sm jsm)) in *.
  destruct (ru_action Hr s c Hne Hi Et) as (f & Hf & Hfc). rewrite Hacts, Hf, bind_assert by done. cbn [deref mbind outcome_bind].
  eapply of_bind; [exact Hfc|]. intros [ev c'] (s' & Hs' & Hi' & Hdec). cbn [fst snd] in *.
  rewrite (FTransition_ret (m_sm jsm) s' ev Hinit) by (rewrite Htr; first [apply Hr|exact Hs']). cbn [mbind outcome_bind]. rewrite bind_assert by done.
  set (jsm' := mkJSM _ _). assert (Hset : set_up jsm') by (by split_and!). assert (He : Estate (m_sm jsm') = s') by done.
  destruct (bool_decide_reflect (s' <> s)) as [Hn1|Hn1]; cbn [andb].
  - destruct (bool_decide_reflect (s' <> TesFinal)) as [Hn2|Hn2].
    + apply IH; [done|by rewrite He|by rewrite He|]. rewrite He. destruct Hdec as [[? _]|[?|[_ ?]]]; [done..|lia].
    + apply dec_stable in Hn2. cbn. split; [done|]. rewrite bool_decide_true by done. left. rewrite Hn2 in Hi'. split; [exact Hn2|exact Hi'].
  - apply dec_stable in Hn1. rewrite Hn1 in Hs', Hi'. cbn. split; [done|]. rewrite bool_decide_false by (rewrite Hn1; exact Hne). unfold Estate. cbn. rewrite Hn1. split_and!; [exact Hne|exact Hi'| |by rewrite Hs'].
    destruct Hdec as [[_ Hst]|[Hfin|[Hd _]]]; [exact Hst|congruence|congruence].
Qed.
End Run.
End StateMachine.
