(* ===== verification/SearchJobs.v ===== *)
(** * Search jobs

    Source: the CJob files of libgpopt/src/search: the jobs that explore, implement and
    optimize groups and group expressions, and the job that applies a transformation.
    Each has a state machine (StateMachine.v): its states and events, its table [rgeev]
    and its actions. What an action asks of the memo, the engine and the scheduler is
    the class [Engine]: calls, questions and data of the state [E], any of which may
    fail. A group expression is a number, and so is an xform; which xforms an enumeration of
    the join region replaces is a question to the engine. *)
From stdpp Require Import base numbers list finite.
From S2P Require Import Prelude StateMachine.

Inductive EOptimizationLevel := EolLow | EolHigh | EolSentinel.
Inductive EDPHyperStatus := EdphUnrequested | EdphScheduled | EdphSucceeded | EdphFallback | EdphNativeFallback.
#[export] Instance EOptimizationLevel_eq_dec : EqDecision EOptimizationLevel.
Proof. solve_decision. Defined.
#[export] Instance EDPHyperStatus_eq_dec : EqDecision EDPHyperStatus.
Proof. solve_decision. Defined.

(** States of a group, a group expression, an optimization context *)
Inductive EMemoState := estUnexplored | estExploring | estExplored | estImplementing | estImplemented | estOptimizing | estOptimized.

(** Calls that change the memo, the engine or the scheduler; the first ones are
    [ScheduleJob] of the job classes, [Check] is an assertion on the memo. *)
Inductive EngineCall :=
  | ScheduleGroupExploration (child : option nat)
  | ScheduleGroupImplementation (child : option nat)
  | ScheduleGroupOptimization
  | ScheduleGroupExpressionExploration (pgexpr : nat)
  | ScheduleGroupExpressionImplementation (pgexpr : nat)
  | ScheduleGroupExpressionOptimization (pgexpr ul : nat)
  | ScheduleTransformation (xform : nat)
  | ScheduleJoinEnumeration
  | ScheduleCTEOptimization
  | SetGroupState (est : EMemoState)
  | SetGexprState (est : EMemoState)
  | SetContextState (est : EMemoState)
  | SetDPHyperStatus (status : EDPHyperStatus)
  | FinalizeExploration
  | FinalizeImplementation
  | TruncateExploration
  | TruncateImplementation
  | Transform
  | InsertXformResult
  | PccComputePruned
  | InitHandles
  | AddRefChildReqdProps
  | BuildChildContexts
  | UpdateBestCost
  | CleanupContexts
  | CheckFExplored
  | CheckUnoptimized
  | CheckJoin
  | CheckNotScheduled
  | CheckBestCosted.

(** Questions, whose answer may change the memo *)
Inductive EngineQuestion :=
  | FExplored | FImplemented | FRoot
  | FTransitionedExplored (pgexpr : nat) | FTransitionedImplemented (pgexpr : nat) | ContainsCircularDependencies (pgexpr : nat)
  | FHasPendingJoinIngress
  | FOptimizeChild (pgexpr : nat) (eol : EOptimizationLevel)
  | FCheckReqdProps | FSafeToPrune | FChildScalar | FNextChildIndex | FComputeChildRequirementsFailed | FMatchesParent
  | FCheckEnfdProps | FCostContext | FDisabledCTEPush | FProducerRequirements.

Class Engine (E : Type) := {
  FTimedOut : E -> bool;
  call : EngineCall -> E -> outcome E;
  ask : EngineQuestion -> E -> outcome (bool * E);
  (** the expressions of the group in order, and the ones that are not logical *)
  gexprs : E -> list nat;
  gexprs_physical : E -> list nat;
  UlOptRequests : nat -> E -> nat;
  EolMax : E -> EOptimizationLevel;
  DPHyperStatus : E -> EDPHyperStatus;
  (** candidate xforms of the expression, in order, and sets of them *)
  PxfsCandidates : E -> list nat;
  PxfsExploration : nat -> bool;
  PxfsImplementation : nat -> bool;
  PxfsCurrentStage : E -> nat -> bool;
  ExfDPHyperJoinRegion : nat;
  FReplacedByDPHyper : E -> nat -> bool;
  FDPHyperRegionMemberNotRoot : E -> bool;
  FDPHyperShadow : E -> bool;
}.

(** An enumeration is finite. *)
Ltac finite_enum l :=
  refine {| enum := l |};
  [by apply (bool_decide_unpack _)|by intros []; apply (bool_decide_unpack _)].

Module SearchJobs.
Import StateMachine.
Open Scope outcome_scope.

(** [CJobGroup::PgexprFirstUnsched] and the expressions after it *)
Definition unscheduled (last : option nat) (l : list nat) : list nat :=
  match last with
  | None => l
  | Some x => match list_find (eq x) l with Some (i, _) => drop (S i) l | None => [] end
  end.

Record CJobGroupExpression := mkGexprJob { m_fChildrenScheduled : bool; m_fXformsScheduled : bool; m_ulArity : nat }.
Definition CJobGroupExpression_Init (arity : nat) : CJobGroupExpression := mkGexprJob false false arity.
Definition SetChildrenScheduled (j : CJobGroupExpression) : CJobGroupExpression := mkGexprJob true (m_fXformsScheduled j) (m_ulArity j).
Definition SetXformsScheduled (j : CJobGroupExpression) : CJobGroupExpression := mkGexprJob (m_fChildrenScheduled j) true (m_ulArity j).

Definition no_cleanup {C} (c : C) : outcome C := mret c.

Section Shared.
Context {E : Type} `{Engine E}.

Definition ScheduleTransformations (xform_set : list nat) (e : E) : outcome E :=
  for_each xform_set (fun xform e => call (ScheduleTransformation xform) e) e.

Definition schedule_children (job : nat -> EngineCall) (c : CJobGroupExpression * E) : outcome (CJobGroupExpression * E) :=
  let '(j, e) := c in
  _ ← GPOS_ASSERT (negb (m_fChildrenScheduled j));
  e ← for_each (seq 0 (m_ulArity j)) (fun i e => call (job i) e) e;
  mret (SetChildrenScheduled j, e).
End Shared.

(** ** Exploration of a group *)

Module GroupExploration.
Inductive EState := estInitialized | estExploringChildren | estCompleted.
Inductive EEvent := eevStartedExploration | eevNewChildren | eevExplored.
#[global] Instance EState_eq_dec : EqDecision EState.
Proof. solve_decision. Defined.
#[global] Instance EEvent_eq_dec : EqDecision EEvent.
Proof. solve_decision. Defined.
#[global] Instance EState_finite : Finite EState.
Proof. finite_enum [estInitialized; estExploringChildren; estCompleted]. Defined.
#[global] Instance EEvent_finite : Finite EEvent.
Proof. finite_enum [eevStartedExploration; eevNewChildren; eevExplored]. Defined.
#[global] Instance EState_inhabited : Inhabited EState := populate estInitialized.

Definition rgeev (source sink : EState) : option EEvent :=
  match source, sink with
  | estInitialized, estExploringChildren => Some eevStartedExploration
  | estExploringChildren, estExploringChildren => Some eevNewChildren
  | estExploringChildren, estCompleted => Some eevExplored
  | _, _ => None
  end.

Section Actions.
Context {E : Type} `{Engine E}.

(** [m_pgexprLastScheduled] and the engine *)
Definition job : Type := option nat * E.

Definition FScheduleGroupExpressions (c : job) : outcome (bool * job) :=
  let '(m_pgexprLastScheduled, e) := c in
  '(pgexprLast, e) ← for_each (unscheduled m_pgexprLastScheduled (gexprs e)) (fun pgexpr '(pgexprLast, e) =>
    '(fTransitioned, e) ← ask (FTransitionedExplored pgexpr) e;
    if negb fTransitioned then (e ← call (ScheduleGroupExpressionExploration pgexpr) e; mret (Some pgexpr, e)) else mret (pgexprLast, e))
    (m_pgexprLastScheduled, e);
  mret (bool_decide (m_pgexprLastScheduled <> pgexprLast), (pgexprLast, e)).

Definition EevtStartExploration (c : job) : outcome (EEvent * job) :=
  let '(last, e) := c in
  e ← call (SetGroupState estExploring) e;
  mret (eevStartedExploration, (last, e)).

Definition EevtExploreChildren (c : job) : outcome (EEvent * job) :=
  '(fNewJobs, (last, e)) ← FScheduleGroupExpressions c;
  if fNewJobs : bool then mret (eevNewChildren, (last, e)) else
  e ← call (SetGroupState estExplored) e;
  '(fRoot, e) ← ask FRoot e;
  e ← (if fRoot : bool then call FinalizeExploration e else mret e);
  mret (eevExplored, (last, e)).

Definition Init : outcome (CJobStateMachine EState EEvent job) :=
  jsm ← StateMachine.Init CJobStateMachine_ctor rgeev;
  jsm ← SetAction jsm estInitialized EevtStartExploration;
  SetAction jsm estExploringChildren EevtExploreChildren.

Definition FExecute : CJobStateMachine EState EEvent job -> job -> outcome (bool * CJobStateMachine EState EEvent job * job) :=
  FRun (fun c => FTimedOut c.2) no_cleanup (length (enum EState)).
End Actions.
End GroupExploration.

(** ** Implementation of a group *)

Module GroupImplementation.
Inductive EState := estInitialized | estImplementingChildren | estCompleted.
Inductive EEvent := eevExploring | eevExplored | eevImplementing | eevImplemented.
#[global] Instance EState_eq_dec : EqDecision EState.
Proof. solve_decision. Defined.
#[global] Instance EEvent_eq_dec : EqDecision EEvent.
Proof. solve_decision. Defined.
#[global] Instance EState_finite : Finite EState.
Proof. finite_enum [estInitialized; estImplementingChildren; estCompleted]. Defined.
#[global] Instance EEvent_finite : Finite EEvent.
Proof. finite_enum [eevExploring; eevExplored; eevImplementing; eevImplemented]. Defined.
#[global] Instance EState_inhabited : Inhabited EState := populate estInitialized.

Definition rgeev (source sink : EState) : option EEvent :=
  match source, sink with
  | estInitialized, estInitialized => Some eevExploring
  | estInitialized, estImplementingChildren => Some eevExplored
  | estImplementingChildren, estImplementingChildren => Some eevImplementing
  | estImplementingChildren, estCompleted => Some eevImplemented
  | _, _ => None
  end.

Section Actions.
Context {E : Type} `{Engine E}.
Definition job : Type := option nat * E.

Definition FScheduleGroupExpressions (c : job) : outcome (bool * job) :=
  let '(m_pgexprLastScheduled, e) := c in
  '(pgexprLast, e) ← for_each (unscheduled m_pgexprLastScheduled (gexprs e)) (fun pgexpr '(pgexprLast, e) =>
    '(fTransitioned, e) ← ask (FTransitionedImplemented pgexpr) e;
    if fTransitioned : bool then mret (pgexprLast, e) else
    '(fCircular, e) ← ask (ContainsCircularDependencies pgexpr) e;
    if fCircular : bool then mret (pgexprLast, e) else
    e ← call (ScheduleGroupExpressionImplementation pgexpr) e;
    mret (Some pgexpr, e)) (m_pgexprLastScheduled, e);
  mret (bool_decide (m_pgexprLastScheduled <> pgexprLast), (pgexprLast, e)).

Definition EevtStartImplementation (c : job) : outcome (EEvent * job) :=
  let '(last, e) := c in
  '(fExplored, e) ← ask FExplored e;
  if negb fExplored then (e ← call (ScheduleGroupExploration None) e; mret (eevExploring, (last, e))) else
  e ← call (SetGroupState estImplementing) e;
  '(fRoot, e) ← ask FRoot e;
  e ← (if fRoot : bool then call TruncateExploration e else mret e);
  mret (eevExplored, (last, e)).

Definition EevtImplementChildren (c : job) : outcome (EEvent * job) :=
  '(fNewJobs, (last, e)) ← FScheduleGroupExpressions c;
  if fNewJobs : bool then mret (eevImplementing, (last, e)) else
  e ← call (SetGroupState estImplemented) e;
  '(fRoot, e) ← ask FRoot e;
  e ← (if fRoot : bool then call FinalizeImplementation e else mret e);
  mret (eevImplemented, (last, e)).

Definition Init : outcome (CJobStateMachine EState EEvent job) :=
  jsm ← StateMachine.Init CJobStateMachine_ctor rgeev;
  jsm ← SetAction jsm estInitialized EevtStartImplementation;
  SetAction jsm estImplementingChildren EevtImplementChildren.

Definition FExecute : CJobStateMachine EState EEvent job -> job -> outcome (bool * CJobStateMachine EState EEvent job * job) :=
  FRun (fun c => FTimedOut c.2) no_cleanup (length (enum EState)).
End Actions.
End GroupImplementation.


(** ** Exploration of a group expression *)

Module GroupExpressionExploration.
Inductive EState := estInitialized | estChildrenExplored | estSelfExplored | estCompleted.
Inductive EEvent := eevExploringChildren | eevChildrenExplored | eevExploringSelf | eevSelfExplored | eevFinalized.
#[global] Instance EState_eq_dec : EqDecision EState.
Proof. solve_decision. Defined.
#[global] Instance EEvent_eq_dec : EqDecision EEvent.
Proof. solve_decision. Defined.
#[global] Instance EState_finite : Finite EState.
Proof. finite_enum [estInitialized; estChildrenExplored; estSelfExplored; estCompleted]. Defined.
#[global] Instance EEvent_finite : Finite EEvent.
Proof. finite_enum [eevExploringChildren; eevChildrenExplored; eevExploringSelf; eevSelfExplored; eevFinalized]. Defined.
#[global] Instance EState_inhabited : Inhabited EState := populate estInitialized.

Definition rgeev (source sink : EState) : option EEvent :=
  match source, sink with
  | estInitialized, estInitialized => Some eevExploringChildren
  | estInitialized, estChildrenExplored => Some eevChildrenExplored
  | estChildrenExplored, estChildrenExplored => Some eevExploringSelf
  | estChildrenExplored, estSelfExplored => Some eevSelfExplored
  | estSelfExplored, estCompleted => Some eevFinalized
  | _, _ => None
  end.

Section Actions.
Context {E : Type} `{Engine E}.
Definition job : Type := CJobGroupExpression * E.

(** Candidates of the current stage *)
Definition xform_candidates (e : E) : list nat :=
  filter (fun x => PxfsCurrentStage e x = true) (filter (fun x => PxfsExploration x = true) (PxfsCandidates e)).

Definition ClearDPHyperJoinEnumeration (xform_set : list nat) (e : E) : list nat :=
  filter (fun x => FReplacedByDPHyper e x = false) xform_set.

Definition FScheduleDPHyperBeforeChildren (e : E) : outcome (bool * E) :=
  if bool_decide (DPHyperStatus e <> EdphUnrequested) then mret (false, e) else
  if negb (bool_decide (ExfDPHyperJoinRegion ∈ xform_candidates e)) then mret (false, e) else
  '(fPending, e) ← ask FHasPendingJoinIngress e;
  if fPending : bool then mret (false, e) else
  e ← call (SetDPHyperStatus EdphScheduled) e;
  e ← call ScheduleJoinEnumeration e;
  mret (true, e).

Definition schedule_and_mark (xform_set : list nat) (c : job) : outcome job :=
  let '(j, e) := c in
  e ← ScheduleTransformations xform_set e;
  mret (SetXformsScheduled j, e).

Definition ScheduleApplicableTransformations (c : job) : outcome job :=
  let '(j, e) := c in
  _ ← GPOS_ASSERT (negb (m_fXformsScheduled j));
  let xform_set := xform_candidates e in
  let xform_set := if FDPHyperRegionMemberNotRoot e && bool_decide (DPHyperStatus e = EdphSucceeded) && negb (FDPHyperShadow e)
                   then ClearDPHyperJoinEnumeration xform_set e else xform_set in
  if bool_decide (ExfDPHyperJoinRegion ∈ xform_set) then
    e ← call CheckJoin e;
    let xform_set := filter (fun x => x <> ExfDPHyperJoinRegion) xform_set in
    if bool_decide (DPHyperStatus e = EdphUnrequested) then
      e ← call (SetDPHyperStatus EdphScheduled) e;
      e ← call ScheduleJoinEnumeration e;
      mret (j, e)
    else
      e ← call CheckNotScheduled e;
      let xform_set := if (bool_decide (DPHyperStatus e = EdphSucceeded) || bool_decide (DPHyperStatus e = EdphNativeFallback)) && negb (FDPHyperShadow e)
                       then ClearDPHyperJoinEnumeration xform_set e else xform_set in
      schedule_and_mark xform_set (j, e)
  else schedule_and_mark xform_set (j, e).

Definition EevtExploreChildren (c : job) : outcome (EEvent * job) :=
  let '(j, e) := c in
  if negb (m_fChildrenScheduled j) then
    '(fScheduled, e) ← FScheduleDPHyperBeforeChildren e;
    if fScheduled : bool then mret (eevExploringChildren, (j, e)) else
    e ← call (SetGexprState estExploring) e;
    c ← schedule_children (fun i => ScheduleGroupExploration (Some i)) (j, e);
    mret (eevExploringChildren, c)
  else mret (eevChildrenExplored, (j, e)).

Definition EevtExploreSelf (c : job) : outcome (EEvent * job) :=
  if negb (m_fXformsScheduled c.1) then (c ← ScheduleApplicableTransformations c; mret (eevExploringSelf, c))
  else mret (eevSelfExplored, c).

Definition EevtFinalize (c : job) : outcome (EEvent * job) :=
  let '(j, e) := c in
  e ← call (SetGexprState estExplored) e;
  mret (eevFinalized, (j, e)).

Definition Init : outcome (CJobStateMachine EState EEvent job) :=
  jsm ← StateMachine.Init CJobStateMachine_ctor rgeev;
  jsm ← SetAction jsm estInitialized EevtExploreChildren;
  jsm ← SetAction jsm estChildrenExplored EevtExploreSelf;
  SetAction jsm estSelfExplored EevtFinalize.

Definition FExecute : CJobStateMachine EState EEvent job -> job -> outcome (bool * CJobStateMachine EState EEvent job * job) :=
  FRun (fun c => FTimedOut c.2) no_cleanup (length (enum EState)).
End Actions.
End GroupExpressionExploration.

(** ** Implementation of a group expression *)

Module GroupExpressionImplementation.
Inductive EState := estInitialized | estChildrenImplemented | estSelfImplemented | estCompleted.
Inductive EEvent := eevImplementingChildren | eevChildrenImplemented | eevImplementingSelf | eevSelfImplemented | eevFinalized.
#[global] Instance EState_eq_dec : EqDecision EState.
Proof. solve_decision. Defined.
#[global] Instance EEvent_eq_dec : EqDecision EEvent.
Proof. solve_decision. Defined.
#[global] Instance EState_finite : Finite EState.
Proof. finite_enum [estInitialized; estChildrenImplemented; estSelfImplemented; estCompleted]. Defined.
#[global] Instance EEvent_finite : Finite EEvent.
Proof. finite_enum [eevImplementingChildren; eevChildrenImplemented; eevImplementingSelf; eevSelfImplemented; eevFinalized]. Defined.
#[global] Instance EState_inhabited : Inhabited EState := populate estInitialized.

Definition rgeev (source sink : EState) : option EEvent :=
  match source, sink with
  | estInitialized, estInitialized => Some eevImplementingChildren
  | estInitialized, estChildrenImplemented => Some eevChildrenImplemented
  | estChildrenImplemented, estChildrenImplemented => Some eevImplementingSelf
  | estChildrenImplemented, estSelfImplemented => Some eevSelfImplemented
  | estSelfImplemented, estCompleted => Some eevFinalized
  | _, _ => None
  end.

Section Actions.
Context {E : Type} `{Engine E}.
Definition job : Type := CJobGroupExpression * E.

Definition ScheduleApplicableTransformations (c : job) : outcome job :=
  let '(j, e) := c in
  _ ← GPOS_ASSERT (negb (m_fXformsScheduled j));
  let xform_set := filter (fun x => PxfsCurrentStage e x = true) (filter (fun x => PxfsImplementation x = true) (PxfsCandidates e)) in
  e ← ScheduleTransformations xform_set e;
  mret (SetXformsScheduled j, e).

Definition EevtImplementChildren (c : job) : outcome (EEvent * job) :=
  let '(j, e) := c in
  e ← call CheckFExplored e;
  if negb (m_fChildrenScheduled j) then
    e ← call (SetGexprState estImplementing) e;
    c ← schedule_children (fun i => ScheduleGroupImplementation (Some i)) (j, e);
    mret (eevImplementingChildren, c)
  else mret (eevChildrenImplemented, (j, e)).

Definition EevtImplementSelf (c : job) : outcome (EEvent * job) :=
  if negb (m_fXformsScheduled c.1) then (c ← ScheduleApplicableTransformations c; mret (eevImplementingSelf, c))
  else mret (eevSelfImplemented, c).

Definition EevtFinalize (c : job) : outcome (EEvent * job) :=
  let '(j, e) := c in
  e ← call (SetGexprState estImplemented) e;
  mret (eevFinalized, (j, e)).

Definition Init : outcome (CJobStateMachine EState EEvent job) :=
  jsm ← StateMachine.Init CJobStateMachine_ctor rgeev;
  jsm ← SetAction jsm estInitialized EevtImplementChildren;
  jsm ← SetAction jsm estChildrenImplemented EevtImplementSelf;
  SetAction jsm estSelfImplemented EevtFinalize.

Definition FExecute : CJobStateMachine EState EEvent job -> job -> outcome (bool * CJobStateMachine EState EEvent job * job) :=
  FRun (fun c => FTimedOut c.2) no_cleanup (length (enum EState)).
End Actions.
End GroupExpressionImplementation.

(** ** Application of a transformation *)

Module Transformation.
Inductive EState := estInitialized | estCompleted.
Inductive EEvent := eevCompleted.
#[global] Instance EState_eq_dec : EqDecision EState.
Proof. solve_decision. Defined.
#[global] Instance EEvent_eq_dec : EqDecision EEvent.
Proof. solve_decision. Defined.
#[global] Instance EState_finite : Finite EState.
Proof. finite_enum [estInitialized; estCompleted]. Defined.
#[global] Instance EEvent_finite : Finite EEvent.
Proof. finite_enum [eevCompleted]. Defined.
#[global] Instance EState_inhabited : Inhabited EState := populate estInitialized.

Definition rgeev (source sink : EState) : option EEvent :=
  match source, sink with
  | estInitialized, estCompleted => Some eevCompleted
  | _, _ => None
  end.

Section Actions.
Context {E : Type} `{Engine E}.

(** The job has no data that changes. *)
Definition job : Type := unit * E.

Definition EevtTransform (c : job) : outcome (EEvent * job) :=
  let '(j, e) := c in
  e ← call Transform e;
  e ← call InsertXformResult e;
  mret (eevCompleted, (j, e)).

Definition Init : outcome (CJobStateMachine EState EEvent job) :=
  jsm ← StateMachine.Init CJobStateMachine_ctor rgeev;
  SetAction jsm estInitialized EevtTransform.

Definition FExecute : CJobStateMachine EState EEvent job -> job -> outcome (bool * CJobStateMachine EState EEvent job * job) :=
  FRun (fun c => FTimedOut c.2) no_cleanup (length (enum EState)).
End Actions.
End Transformation.


(** ** Optimization of a group *)

(** [CEngine::EolDamp] *)
Definition EolDamp (eol : EOptimizationLevel) : EOptimizationLevel :=
  if bool_decide (eol = EolHigh) then EolLow else EolSentinel.

Module GroupOptimization.
Inductive EState := estInitialized | estOptimizingChildren | estDampingOptimizationLevel | estCompleted.
Inductive EEvent := eevImplementing | eevImplemented | eevOptimizing | eevOptimizedCurrentLevel | eevOptimized.
#[global] Instance EState_eq_dec : EqDecision EState.
Proof. solve_decision. Defined.
#[global] Instance EEvent_eq_dec : EqDecision EEvent.
Proof. solve_decision. Defined.
#[global] Instance EState_finite : Finite EState.
Proof. finite_enum [estInitialized; estOptimizingChildren; estDampingOptimizationLevel; estCompleted]. Defined.
#[global] Instance EEvent_finite : Finite EEvent.
Proof. finite_enum [eevImplementing; eevImplemented; eevOptimizing; eevOptimizedCurrentLevel; eevOptimized]. Defined.
#[global] Instance EState_inhabited : Inhabited EState := populate estInitialized.

Definition rgeev (source sink : EState) : option EEvent :=
  match source, sink with
  | estInitialized, estInitialized => Some eevImplementing
  | estInitialized, estOptimizingChildren => Some eevImplemented
  | estInitialized, estCompleted => Some eevOptimized
  | estOptimizingChildren, estOptimizingChildren => Some eevOptimizing
  | estOptimizingChildren, estDampingOptimizationLevel => Some eevOptimizedCurrentLevel
  | estDampingOptimizationLevel, estOptimizingChildren => Some eevOptimizing
  | estDampingOptimizationLevel, estCompleted => Some eevOptimized
  | _, _ => None
  end.

(** [m_eolCurrent] and [m_pgexprLastScheduled] *)
Record CJobGroupOptimization := mkJob { m_eolCurrent : EOptimizationLevel; m_pgexprLastScheduled : option nat }.
Definition CJobGroupOptimization_Init : CJobGroupOptimization := mkJob EolLow None.

(** At most two rounds of two actions, one for each level, and a last one *)
Definition max_actions : nat := 7.

Section Actions.
Context {E : Type} `{Engine E}.
Definition job : Type := CJobGroupOptimization * E.

Definition FScheduleGroupExpressions (c : job) : outcome (bool * job) :=
  let '(j, e) := c in
  '(pgexprLast, e) ← for_each (unscheduled (m_pgexprLastScheduled j) (gexprs_physical e)) (fun pgexpr '(_, e) =>
    '(fOptimize, e) ← ask (FOptimizeChild pgexpr (m_eolCurrent j)) e;
    e ← (if fOptimize : bool
         then for_each (seq 0 (UlOptRequests pgexpr e)) (fun ul e => call (ScheduleGroupExpressionOptimization pgexpr ul) e) e
         else mret e);
    mret (Some pgexpr, e)) (m_pgexprLastScheduled j, e);
  mret (bool_decide (m_pgexprLastScheduled j <> pgexprLast), (mkJob (m_eolCurrent j) pgexprLast, e)).

Definition EevtStartOptimization (c : job) : outcome (EEvent * job) :=
  let '(j, e) := c in
  e ← call CheckUnoptimized e;
  '(fImplemented, e) ← ask FImplemented e;
  if negb fImplemented then (e ← call (ScheduleGroupImplementation None) e; mret (eevImplementing, (j, e))) else
  e ← call (SetContextState estOptimizing) e;
  '(fRoot, e) ← ask FRoot e;
  e ← (if fRoot : bool then call TruncateImplementation e else mret e);
  mret (eevImplemented, (mkJob (EolMax e) (m_pgexprLastScheduled j), e)).

Definition EevtOptimizeChildren (c : job) : outcome (EEvent * job) :=
  '(fNewJobs, c) ← FScheduleGroupExpressions c;
  if fNewJobs : bool then mret (eevOptimizing, c) else mret (eevOptimizedCurrentLevel, c).

Definition EevtCompleteOptimization (c : job) : outcome (EEvent * job) :=
  let '(j, e) := c in
  let eolCurrent := EolDamp (m_eolCurrent j) in
  if bool_decide (eolCurrent <> EolSentinel) then mret (eevOptimizing, (mkJob eolCurrent None, e)) else
  e ← call (SetContextState estOptimized) e;
  mret (eevOptimized, (mkJob eolCurrent (m_pgexprLastScheduled j), e)).

Definition Init : outcome (CJobStateMachine EState EEvent job) :=
  jsm ← StateMachine.Init CJobStateMachine_ctor rgeev;
  jsm ← SetAction jsm estInitialized EevtStartOptimization;
  jsm ← SetAction jsm estOptimizingChildren EevtOptimizeChildren;
  SetAction jsm estDampingOptimizationLevel EevtCompleteOptimization.

Definition FExecute : CJobStateMachine EState EEvent job -> job -> outcome (bool * CJobStateMachine EState EEvent job * job) :=
  FRun (fun c => FTimedOut c.2) no_cleanup max_actions.
End Actions.
End GroupOptimization.

(** ** Optimization of a group expression *)

Module GroupExpressionOptimization.
Inductive EState := estInitialized | estOptimizingChildren | estChildrenOptimized | estEnfdPropsChecked | estSelfOptimized | estCompleted.
Inductive EEvent := eevOptimizingChildren | eevChildrenOptimized | eevCheckingEnfdProps | eevOptimizingSelf | eevSelfOptimized | eevFinalized.
#[global] Instance EState_eq_dec : EqDecision EState.
Proof. solve_decision. Defined.
#[global] Instance EEvent_eq_dec : EqDecision EEvent.
Proof. solve_decision. Defined.
#[global] Instance EState_finite : Finite EState.
Proof. finite_enum [estInitialized; estOptimizingChildren; estChildrenOptimized; estEnfdPropsChecked; estSelfOptimized; estCompleted]. Defined.
#[global] Instance EEvent_finite : Finite EEvent.
Proof. finite_enum [eevOptimizingChildren; eevChildrenOptimized; eevCheckingEnfdProps; eevOptimizingSelf; eevSelfOptimized; eevFinalized]. Defined.
#[global] Instance EState_inhabited : Inhabited EState := populate estInitialized.

Definition rgeev (source sink : EState) : option EEvent :=
  match source, sink with
  | estInitialized, estOptimizingChildren => Some eevOptimizingChildren
  | estInitialized, estCompleted => Some eevFinalized
  | estOptimizingChildren, estOptimizingChildren => Some eevOptimizingChildren
  | estOptimizingChildren, estChildrenOptimized => Some eevChildrenOptimized
  | estOptimizingChildren, estCompleted => Some eevFinalized
  | estChildrenOptimized, estEnfdPropsChecked => Some eevOptimizingSelf
  | estChildrenOptimized, estCompleted => Some eevFinalized
  | estEnfdPropsChecked, estEnfdPropsChecked => Some eevOptimizingSelf
  | estEnfdPropsChecked, estSelfOptimized => Some eevSelfOptimized
  | estEnfdPropsChecked, estCompleted => Some eevFinalized
  | estSelfOptimized, estCompleted => Some eevFinalized
  | _, _ => None
  end.

(** The flags of the job; of its pointers, whether they are null. The handles are
    [m_pexprhdlPlan] and [m_pexprhdlRel]. *)
Record CJobGroupExpressionOptimization := mkJob {
  gexpr_job : CJobGroupExpression;
  m_fChildOptimizationFailed : bool;
  m_fOptimizeCTESequence : bool;
  m_fScheduledCTEOptimization : bool;
  has_prppCTEProducer : bool;
  has_pdrgpoc : bool;
  has_handles : bool;
}.
Definition Job_Init (arity : nat) (fOptimizeCTESequence has_producer : bool) : CJobGroupExpressionOptimization :=
  mkJob (CJobGroupExpression_Init arity) false fOptimizeCTESequence false has_producer false false.

Definition set_children (j : CJobGroupExpressionOptimization) := mkJob (SetChildrenScheduled (gexpr_job j)) (m_fChildOptimizationFailed j) (m_fOptimizeCTESequence j)
  (m_fScheduledCTEOptimization j) (has_prppCTEProducer j) (has_pdrgpoc j) (has_handles j).
Definition set_failed (j : CJobGroupExpressionOptimization) := mkJob (gexpr_job j) true (m_fOptimizeCTESequence j)
  (m_fScheduledCTEOptimization j) (has_prppCTEProducer j) (has_pdrgpoc j) (has_handles j).
Definition set_scheduled_cte (j : CJobGroupExpressionOptimization) := mkJob (gexpr_job j) (m_fChildOptimizationFailed j) (m_fOptimizeCTESequence j)
  true (has_prppCTEProducer j) (has_pdrgpoc j) (has_handles j).
Definition set_contexts (j : CJobGroupExpressionOptimization) := mkJob (gexpr_job j) (m_fChildOptimizationFailed j) (m_fOptimizeCTESequence j)
  (m_fScheduledCTEOptimization j) (has_prppCTEProducer j) true (has_handles j).
Definition set_handles (j : CJobGroupExpressionOptimization) := mkJob (gexpr_job j) (m_fChildOptimizationFailed j) (m_fOptimizeCTESequence j)
  (m_fScheduledCTEOptimization j) (has_prppCTEProducer j) (has_pdrgpoc j) true.

Section Actions.
Context {E : Type} `{Engine E}.
Definition job : Type := CJobGroupExpressionOptimization * E.

(** The arrays and handles are released; the pointers keep their values. *)
Definition Cleanup (c : job) : outcome job :=
  let '(j, e) := c in e ← call CleanupContexts e; mret (j, e).

Definition InitChildGroupsOptimization (c : job) : outcome job :=
  let '(j, e) := c in
  _ ← GPOS_ASSERT (negb (has_handles j));
  e ← call InitHandles e;
  mret (set_handles j, e).

Definition EevtInitialize (c : job) : outcome (EEvent * job) :=
  let '(j, e) := c in
  '(fCheck, e) ← ask FCheckReqdProps e;
  if negb fCheck then mret (eevFinalized, (j, e)) else
  '(fPrune, e) ← ask FSafeToPrune e;
  if fPrune : bool then (e ← call PccComputePruned e; mret (eevFinalized, (j, e))) else
  c ← InitChildGroupsOptimization (j, e);
  mret (eevOptimizingChildren, c).

(** [FNextChildIndex] answers whether there is another child. *)
Definition advance_child (c : job) : outcome job :=
  let '(j, e) := c in
  '(fNext, e) ← ask FNextChildIndex e;
  mret (if fNext : bool then j else set_children j, e).

Definition ScheduleChildGroupsJobs (c : job) : outcome job :=
  let '(j, e) := c in
  _ ← GPOS_ASSERT (negb (m_fChildrenScheduled (gexpr_job j)));
  '(fScalar, e) ← ask FChildScalar e;
  if fScalar : bool then advance_child (j, e) else
  '(fFailed, e) ← ask FComputeChildRequirementsFailed e;
  if fFailed : bool then mret (set_failed j, e) else
  e ← call AddRefChildReqdProps e;
  '(fMatches, e) ← ask FMatchesParent e;
  if fMatches : bool then mret (set_failed j, e) else
  e ← call ScheduleGroupOptimization e;
  advance_child (j, e).

Definition EevtOptimizeChildren (c : job) : outcome (EEvent * job) :=
  let j := c.1 in
  if (0 <? m_ulArity (gexpr_job j))%nat && negb (m_fChildrenScheduled (gexpr_job j)) then
    '(j, e) ← ScheduleChildGroupsJobs c;
    if m_fChildOptimizationFailed j then (c ← Cleanup (j, e); mret (eevFinalized, c))
    else mret (eevOptimizingChildren, (j, e))
  else mret (eevChildrenOptimized, c).

Definition EevtAddEnforcers (c : job) : outcome (EEvent * job) :=
  let '(j, e) := c in
  _ ← GPOS_ASSERT (negb (has_pdrgpoc j));
  e ← call BuildChildContexts e;
  let j := set_contexts j in
  '(fCheckEnfdProps, e) ← ask FCheckEnfdProps e;
  if fCheckEnfdProps : bool then mret (eevOptimizingSelf, (j, e)) else
  c ← Cleanup (j, e);
  mret (eevFinalized, c).

Definition FScheduleCTEOptimization (c : job) : outcome (bool * E) :=
  let '(j, e) := c in
  '(fDisabled, e) ← ask FDisabledCTEPush e;
  if fDisabled : bool then mret (false, e) else
  _ ← GPOS_ASSERT (negb (m_fScheduledCTEOptimization j));
  if negb (m_fOptimizeCTESequence j) then mret (false, e) else
  if has_prppCTEProducer j then mret (false, e) else
  '(fProducer, e) ← ask FProducerRequirements e;
  if negb fProducer then mret (false, e) else
  e ← call ScheduleCTEOptimization e;
  mret (true, e).

Definition EevtOptimizeSelf (c : job) : outcome (EEvent * job) :=
  let '(j, e) := c in
  if m_fScheduledCTEOptimization j then mret (eevSelfOptimized, (j, e)) else
  '(fCostContext, e) ← ask FCostContext e;
  if negb fCostContext then (c ← Cleanup (j, e); mret (eevFinalized, c)) else
  e ← call UpdateBestCost e;
  '(fScheduled, e) ← FScheduleCTEOptimization (j, e);
  if fScheduled : bool then mret (eevOptimizingSelf, (set_scheduled_cte j, e)) else
  mret (eevSelfOptimized, (j, e)).

Definition EevtFinalize (c : job) : outcome (EEvent * job) :=
  let '(j, e) := c in
  _ ← GPOS_ASSERT (negb (m_fChildOptimizationFailed j));
  e ← call CheckBestCosted e;
  c ← Cleanup (j, e);
  mret (eevFinalized, c).

Definition Init : outcome (CJobStateMachine EState EEvent job) :=
  jsm ← StateMachine.Init CJobStateMachine_ctor rgeev;
  jsm ← SetAction jsm estInitialized EevtInitialize;
  jsm ← SetAction jsm estOptimizingChildren EevtOptimizeChildren;
  jsm ← SetAction jsm estChildrenOptimized EevtAddEnforcers;
  jsm ← SetAction jsm estEnfdPropsChecked EevtOptimizeSelf;
  SetAction jsm estSelfOptimized EevtFinalize.

Definition FExecute : CJobStateMachine EState EEvent job -> job -> outcome (bool * CJobStateMachine EState EEvent job * job) :=
  FRun (fun c => FTimedOut c.2) Cleanup (length (enum EState)).
End Actions.
End GroupExpressionOptimization.
End SearchJobs.
