(* ===== verification/JobProps.v ===== *)
(** * State machines of search jobs

    The properties of StateMachine.v and SearchJobs.v: whatever the memo and the engine
    do, the machine of a search job never rejects an event, misses an action or runs
    on without end, also when it is executed again and again; what the history and
    the check for unreachable states of a debug build show. *)
From stdpp Require Import base numbers list finite.
From S2P Require Import Prelude StateMachine SearchJobs.

Module JobProps.
Import StateMachine SearchJobs.
Open Scope outcome_scope.

(** ** Executions *)

(** A job is executed in states of the engine that others have changed in between,
    until it returns true. *)
Section Executions.
Context {St Ev J E : Type} `{Finite St} `{Finite Ev} `{Inhabited St} `{Engine E}.
Context (FExecute : CJobStateMachine St Ev (J * E) -> J * E -> outcome (bool * CJobStateMachine St Ev (J * E) * (J * E))).

Fixpoint execute_all (es : list E) (jsm : CJobStateMachine St Ev (J * E)) (j : J) : outcome (bool * CJobStateMachine St Ev (J * E) * J) :=
  match es with
  | [] => mret (false, jsm, j)
  | e :: es =>
      '(fCompleted, jsm, (j, _)) ← FExecute jsm (j, e);
      if fCompleted : bool then mret (true, jsm, j) else execute_all es jsm j
  end.

(** The executions of a job stop only at faults in [F]; true means that the final
    state is reached or the time is up, false that it is not. *)
Definition job_runs (F : fault -> Prop) (Init : outcome (CJobStateMachine St Ev (J * E))) (j : J) : Prop :=
  forall es, only_faults F (jsm ← Init; execute_all es jsm j) (fun '(b, jsm, _) =>
    if b : bool then Estate (m_sm jsm) = TesFinal \/ exists e : E, FTimedOut e = true else Estate (m_sm jsm) <> TesFinal).

Lemma execute_all_ret F (cleanup : J * E -> outcome (J * E)) trans acts (Inv Stop : St -> J -> Prop) measure n es jsm j :
  FExecute = FRun (fun c => FTimedOut c.2) cleanup n ->
  runnable (fun c => FTimedOut c.2) cleanup F trans acts (fun s c => Inv s c.1) (fun s c => Stop s c.1) measure ->
  (forall s c, measure s c < n) -> set_up trans acts jsm -> Estate (m_sm jsm) <> TesFinal -> Inv (Estate (m_sm jsm)) j ->
  only_faults F (execute_all es jsm j) (fun '(b, jsm, _) =>
    if b : bool then Estate (m_sm jsm) = TesFinal \/ exists e : E, FTimedOut e = true else Estate (m_sm jsm) <> TesFinal).
Proof.
  intros HF Hr Hn. revert jsm j. induction es as [|e es IH]; intros jsm j Hs Hne Hi; cbn [execute_all]; [done|].
  rewrite HF. eapply of_bind; [by eapply FRun_ret; eauto|]. intros [[b jsm'] [j' e']] [Hs' Hb]. destruct b.
  - cbn. destruct Hb as [[Hf _]|[c0 Hc0]]; [by left|right]. by exists c0.2.
  - destruct Hb as (Hne' & Hi' & _). by apply IH.
Qed.
End Executions.

Lemma of_call_rule {A B} F (m : outcome A) (k : A -> outcome B) Q : only_faults F m (fun _ => True) -> (forall a, only_faults F (k a) Q) -> only_faults F (m ≫= k) Q.
Proof. intros Hm Hk. eapply of_bind; [exact Hm|]. auto. Qed.

Lemma of_for_each {A S} F (l : list A) (body : A -> S -> outcome S) (t : S) :
  (forall a t, only_faults F (body a t) (fun _ => True)) -> only_faults F (for_each l body t) (fun _ => True).
Proof. intros Hb. revert t. induction l as [|a l IH]; intros t; [done|]. cbn [for_each]. apply of_call_rule; [apply Hb|auto]. Qed.

Lemma bind_assoc {A B D} (m : outcome A) (f : A -> outcome B) (g : B -> outcome D) : (m ≫= f) ≫= g = m ≫= (fun a => f a ≫= g).
Proof. by destruct m. Qed.

Lemma of_ret {A} F (a : A) (P : A -> Prop) : P a -> only_faults F (Ret a) P.
Proof. done. Qed.

Section Jobs.
Context {E : Type} `{Engine E} (F : fault -> Prop).
Context (Hcall : forall k e, only_faults F (call k e) (fun _ => True)) (Hask : forall q e, only_faults F (ask q e) (fun _ => True)).

(** Executes an action call by call. *)
Ltac pairs := repeat match goal with x : (_ * _)%type |- _ => destruct x end.
Ltac act_step :=
  match goal with
  | |- only_faults _ (call _ _ ≫= _) _ => apply of_call_rule; [apply Hcall|intros ?]
  | |- only_faults _ (ask _ _ ≫= _) _ => apply of_call_rule; [apply Hask|intros [[] ?]]
  | |- only_faults _ (for_each _ _ _ ≫= _) _ => apply of_call_rule; [apply of_for_each; intros; pairs; repeat act_step|intros ?; pairs]
  | |- only_faults _ (call _ _) _ => eapply of_mono; [apply Hcall|intros ? _]
  | |- only_faults _ (mret _ ≫= _) _ => cbn [mret outcome_ret mbind outcome_bind]
  | |- only_faults _ (Ret _ ≫= _) _ => cbn [mbind outcome_bind]
  | |- only_faults _ (mret _) _ => apply of_ret
  | |- only_faults _ (Ret _) _ => apply of_ret
  | |- only_faults _ (GPOS_ASSERT _ ≫= _) _ => rewrite bind_assert by (cbn in *; congruence)
  | |- only_faults _ (if ?b then _ else _) _ => destruct b eqn:?
  | |- only_faults _ ((if ?b then _ else _) ≫= _) _ => destruct b eqn:?
  | |- only_faults _ ((_ ≫= _) ≫= _) _ => rewrite bind_assoc
  | _ => progress (cbn [negb fst snd])
  end.

(** The state that an event leads to *)
Tactic Notation "answer" integer(n) := unshelve eexists; [constructor n|]; split; [reflexivity|]; split;
  [cbn in *; first [tauto|lia]|first [left; split; [done|cbn in *; first [done|lia]]|by right; left|right; right; split; [done|cbn in *; lia]]].
Ltac answers := first [done|match goal with Hb : bool_decide _ = _ |- _ => vm_compute in Hb; discriminate Hb end|answer 1|answer 2|answer 3|answer 4|answer 5|answer 6].
Ltac run_action := cbn; repeat act_step; answers.

(** What is shown of each job: [Init] sets it up, and it is runnable. *)
Definition job_ok {St Ev J} `{Finite St} `{Finite Ev} `{Inhabited St} (Init : outcome (CJobStateMachine St Ev (J * E))) (cleanup : J * E -> outcome (J * E))
    (trans : St -> St -> option Ev) (Inv Stop : St -> J -> Prop) (measure : St -> J * E -> nat) : Prop :=
  exists acts, (exists jsm, Init = Ret jsm /\ set_up trans acts jsm /\ Estate (m_sm jsm) = TesInitial) /\
    runnable (fun c => FTimedOut c.2) cleanup F trans acts (fun s c => Inv s c.1) (fun s c => Stop s c.1) measure.

Ltac start_job := eexists; split; [eexists; split; [reflexivity|by split_and!]|]; split; [by intros [] [] [] []| |].

Lemma group_exploration_ok : job_ok GroupExploration.Init no_cleanup GroupExploration.rgeev (fun _ _ => True) (fun _ _ => True)
  (fun s _ => match s with GroupExploration.estInitialized => 1 | _ => 0 end).
Proof.
  start_job; [|done]. intros [] [last e] Hs _ _; try done; (eexists; split; [reflexivity|]).
  - unfold GroupExploration.EevtStartExploration. run_action.
  - unfold GroupExploration.EevtExploreChildren, GroupExploration.FScheduleGroupExpressions. run_action.
Qed.

Lemma group_implementation_ok : job_ok GroupImplementation.Init no_cleanup GroupImplementation.rgeev (fun _ _ => True) (fun _ _ => True)
  (fun s _ => match s with GroupImplementation.estInitialized => 1 | _ => 0 end).
Proof.
  start_job; [|done]. intros [] [last e] Hs _ _; try done; (eexists; split; [reflexivity|]).
  - unfold GroupImplementation.EevtStartImplementation. run_action.
  - unfold GroupImplementation.EevtImplementChildren, GroupImplementation.FScheduleGroupExpressions. run_action.
Qed.

Lemma gexpr_exploration_ok : job_ok GroupExpressionExploration.Init no_cleanup GroupExpressionExploration.rgeev (fun _ _ => True) (fun _ _ => True)
  (fun s _ => match s with GroupExpressionExploration.estInitialized => 2 | GroupExpressionExploration.estChildrenExplored => 1 | _ => 0 end).
Proof.
  start_job; [|done]. intros [] [j e] Hs _ _; try done; (eexists; split; [reflexivity|]).
  - unfold GroupExpressionExploration.EevtExploreChildren, GroupExpressionExploration.FScheduleDPHyperBeforeChildren, schedule_children. run_action.
  - unfold GroupExpressionExploration.EevtExploreSelf, GroupExpressionExploration.ScheduleApplicableTransformations,
      GroupExpressionExploration.schedule_and_mark, ScheduleTransformations. run_action.
  - unfold GroupExpressionExploration.EevtFinalize. run_action.
Qed.

Lemma gexpr_implementation_ok : job_ok GroupExpressionImplementation.Init no_cleanup GroupExpressionImplementation.rgeev (fun _ _ => True) (fun _ _ => True)
  (fun s _ => match s with GroupExpressionImplementation.estInitialized => 2 | GroupExpressionImplementation.estChildrenImplemented => 1 | _ => 0 end).
Proof.
  start_job; [|done]. intros [] [j e] Hs _ _; try done; (eexists; split; [reflexivity|]).
  - unfold GroupExpressionImplementation.EevtImplementChildren, schedule_children. run_action.
  - unfold GroupExpressionImplementation.EevtImplementSelf, GroupExpressionImplementation.ScheduleApplicableTransformations, ScheduleTransformations. run_action.
  - unfold GroupExpressionImplementation.EevtFinalize. run_action.
Qed.

Lemma transformation_waits k : job_ok Transformation.Init no_cleanup Transformation.rgeev (fun _ _ => 0 <= k) (fun _ _ => 0 < k) (fun _ _ => 0).
Proof.
  start_job; [|done]. intros [] [j e] Hs _ _; try done; (eexists; split; [reflexivity|]). unfold Transformation.EevtTransform. run_action.
Qed.


Definition level (eol : EOptimizationLevel) : nat := match eol with EolHigh => 2 | EolLow => 1 | EolSentinel => 0 end.

Lemma EolDamp_eq eol : EolDamp eol = match eol with EolHigh => EolLow | _ => EolSentinel end.
Proof. by destruct eol. Qed.

Lemma group_optimization_ok : job_ok GroupOptimization.Init no_cleanup GroupOptimization.rgeev (fun _ _ => True) (fun _ _ => True)
  (fun s c => match s with
   | GroupOptimization.estInitialized => 6
   | GroupOptimization.estOptimizingChildren => 2 * level (GroupOptimization.m_eolCurrent c.1) + 1
   | GroupOptimization.estDampingOptimizationLevel => 2 * level (GroupOptimization.m_eolCurrent c.1)
   | GroupOptimization.estCompleted => 0
   end).
Proof.
  start_job; [|done]. intros [] [[eol last] e] Hs _ _; try done; (eexists; split; [reflexivity|]).
  - unfold GroupOptimization.EevtStartOptimization. cbn [fst snd]. repeat act_step; try solve [answers].
    all: exists GroupOptimization.estOptimizingChildren; split_and!; [done..|right; right; split; [done|cbn]].
    all: by match goal with |- context [level ?x] => destruct x; cbn; lia end.
  - unfold GroupOptimization.EevtOptimizeChildren, GroupOptimization.FScheduleGroupExpressions. run_action.
  - unfold GroupOptimization.EevtCompleteOptimization. cbn [GroupOptimization.m_eolCurrent]. rewrite EolDamp_eq. destruct eol; run_action.
Qed.

(** The child contexts are built once, the handles are made once, a job with a failed
    child ends. *)
Definition geo_inv (s : GroupExpressionOptimization.EState) (j : GroupExpressionOptimization.CJobGroupExpressionOptimization) : Prop :=
  match s with
  | GroupExpressionOptimization.estInitialized => GroupExpressionOptimization.has_handles j = false /\ GroupExpressionOptimization.has_pdrgpoc j = false /\ GroupExpressionOptimization.m_fChildOptimizationFailed j = false
  | GroupExpressionOptimization.estOptimizingChildren | GroupExpressionOptimization.estChildrenOptimized => GroupExpressionOptimization.has_pdrgpoc j = false /\ GroupExpressionOptimization.m_fChildOptimizationFailed j = false
  | GroupExpressionOptimization.estEnfdPropsChecked | GroupExpressionOptimization.estSelfOptimized => GroupExpressionOptimization.m_fChildOptimizationFailed j = false
  | GroupExpressionOptimization.estCompleted => True
  end.

Lemma gexpr_optimization_ok : job_ok GroupExpressionOptimization.Init GroupExpressionOptimization.Cleanup GroupExpressionOptimization.rgeev geo_inv (fun _ _ => True)
  (fun s _ => match s with
   | GroupExpressionOptimization.estInitialized => 5 | GroupExpressionOptimization.estOptimizingChildren => 4 | GroupExpressionOptimization.estChildrenOptimized => 3 | GroupExpressionOptimization.estEnfdPropsChecked => 2 | GroupExpressionOptimization.estSelfOptimized => 1
   | GroupExpressionOptimization.estCompleted => 0
   end).
Proof.
  start_job.
  - intros [] [[[ch xf ar] fail seq cte prod poc hand] e] Hs Hi _; try done; cbn in Hi; (eexists; split; [reflexivity|]).
    + destruct Hi as (-> & -> & ->). unfold GroupExpressionOptimization.EevtInitialize, GroupExpressionOptimization.InitChildGroupsOptimization. run_action.
    + destruct Hi as (-> & ->). unfold GroupExpressionOptimization.EevtOptimizeChildren, GroupExpressionOptimization.ScheduleChildGroupsJobs, GroupExpressionOptimization.advance_child, GroupExpressionOptimization.Cleanup. cbn [fst GroupExpressionOptimization.gexpr_job m_ulArity m_fChildrenScheduled].
      destruct ((0 <? ar)%nat && negb ch) eqn:Eb; [|answers]. apply andb_prop in Eb as [_ Eb]. run_action.
    + destruct Hi as (-> & ->). unfold GroupExpressionOptimization.EevtAddEnforcers, GroupExpressionOptimization.Cleanup. run_action.
    + unfold GroupExpressionOptimization.EevtOptimizeSelf, GroupExpressionOptimization.FScheduleCTEOptimization, GroupExpressionOptimization.Cleanup. run_action.
    + unfold GroupExpressionOptimization.EevtFinalize, GroupExpressionOptimization.Cleanup. rewrite Hi. run_action.
  - intros s [j e] _. unfold GroupExpressionOptimization.Cleanup. by repeat act_step.
Qed.


(** A job that implements a group expression waits at most twice: for the child
    groups and for the transformations. *)
Definition waits_left (s : GroupExpressionImplementation.EState) (j : CJobGroupExpression) : nat :=
  match s with
  | GroupExpressionImplementation.estInitialized => (if m_fChildrenScheduled j then 0 else 1) + (if m_fXformsScheduled j then 0 else 1)
  | GroupExpressionImplementation.estChildrenImplemented => if m_fXformsScheduled j then 0 else 1
  | _ => 0
  end.

Lemma gexpr_implementation_waits k : job_ok GroupExpressionImplementation.Init no_cleanup GroupExpressionImplementation.rgeev
  (fun s j => waits_left s j <= k) (fun s j => waits_left s j < k)
  (fun s _ => match s with GroupExpressionImplementation.estInitialized => 2 | GroupExpressionImplementation.estChildrenImplemented => 1 | _ => 0 end).
Proof.
  start_job; [|done]. intros [] [[ch xf ar] e] Hs Hi _; try done; (eexists; split; [reflexivity|]).
  - unfold GroupExpressionImplementation.EevtImplementChildren, schedule_children. destruct ch, xf; cbn in Hi; run_action.
  - unfold GroupExpressionImplementation.EevtImplementSelf, GroupExpressionImplementation.ScheduleApplicableTransformations, ScheduleTransformations.
    destruct xf; cbn in Hi; run_action.
  - unfold GroupExpressionImplementation.EevtFinalize. run_action.
Qed.


Lemma job_ok_runs {St Ev J} `{Finite St} `{Finite Ev} `{Inhabited St} Init cleanup (trans : St -> St -> option Ev) (Inv Stop : St -> J -> Prop) measure n j :
  job_ok Init cleanup trans Inv Stop measure -> (forall s c, measure s c < n) -> (TesInitial : St) <> TesFinal -> Inv TesInitial j ->
  job_runs (FRun (fun c => FTimedOut c.2) cleanup n) F Init j.
Proof.
  intros (acts & (jsm & Hinit & Hset & He) & Hr) Hn Hne Hi es. rewrite Hinit. cbn [mbind outcome_bind].
  eapply execute_all_ret; [done|exact Hr|done|exact Hset|by rewrite He|by rewrite He].
Qed.

(** One execution more than waits are left completes the job. *)
Lemma execute_all_bounded {St Ev J} `{Finite St} `{Finite Ev} `{Inhabited St} Init cleanup (trans : St -> St -> option Ev) (left : St -> J -> nat) measure n jsm0 es jsm j :
  (forall k, job_ok Init cleanup trans (fun s j => left s j <= k) (fun s j => left s j < k) measure) -> (forall s c, measure s c < n) ->
  Init = Ret jsm0 -> set_up trans (m_rgPfuncAction jsm0) jsm -> Estate (m_sm jsm) <> TesFinal -> left (Estate (m_sm jsm)) j < length es ->
  only_faults F (execute_all (FRun (fun c => FTimedOut c.2) cleanup n) es jsm j) (fun r => r.1.1 = true).
Proof.
  intros Hok Hn Hinit. revert jsm j. induction es as [|e es IH]; intros jsm j Hs Hne Hlt; cbn [length] in Hlt; [lia|]. cbn [execute_all].
  destruct (Hok (length es)) as (acts & (jsm1 & Hinit1 & Hset & He) & Hr). rewrite Hinit in Hinit1. injection Hinit1 as <-.
  destruct Hset as (_ & _ & <-).
  eapply of_bind; [eapply (FRun_ret _ _ _ _ _ _ _ _ _ _ _ Hr Hs Hne); [cbn; lia|apply Hn]|].
  intros [[b jsm'] [j' e']] [Hs' Hb]. destruct b; [done|]. destruct Hb as (Hne' & _ & Hst & _). by apply IH.
Qed.

End Jobs.


(** ** The history of a debug build *)

Section History.
Context {St Ev : Type} `{Finite St} `{Finite Ev} `{Inhabited St}.
Implicit Types (es : list (Ev * St)) (sm : CStateMachine St Ev).

Definition record_all es : CStateMachine St Ev := foldl (fun sm e => RecordHistory sm e.1 e.2) CStateMachine_ctor es.

Lemma recorded es : (N.of_nat (length es) < ULONG_MOD)%N -> m_ulHistory (record_all es) = N.of_nat (length es) /\ length (m_history (record_all es)) = 25 /\
  forall i e, es !! i = Some e -> length es <= i + 25 -> m_history (record_all es) !! (i mod 25) = Some (Some e).
Proof.
  induction es as [|e es IH] using rev_ind; intros Hlt; [by split_and!|]. rewrite length_app in *. cbn [length] in *.
  destruct IH as (Hn & Hl & Hall); [lia|]. unfold record_all. rewrite foldl_app. cbn [foldl]. fold (record_all es). set (sm := record_all es) in *.
  assert (Hpos : N.to_nat (m_ulHistory sm mod GPOPT_FSM_HISTORY) = length es mod 25).
  { rewrite Hn. change GPOPT_FSM_HISTORY with (N.of_nat 25). by rewrite <- Nat2N.inj_mod, Nat2N.id. }
  unfold RecordHistory. cbn [m_ulHistory m_history]. rewrite Hpos. split_and!.
  - rewrite Hn, N.mod_small by lia. lia.
  - by rewrite length_insert.
  - intros i x Hi Hle. pose proof (Nat.mod_upper_bound (length es) 25 ltac:(lia)) as Hub.
    apply lookup_snoc_Some in Hi as [[Hlt' Hi]|[-> <-]].
    + rewrite list_lookup_insert_ne; [apply Hall; [done|lia]|].
      pose proof (Nat.div_mod i 25 ltac:(lia)). pose proof (Nat.div_mod (length es) 25 ltac:(lia)). lia.
    + rewrite list_lookup_insert_eq by lia. by destruct e.
Qed.

Lemma mapM_seq {B} (f : nat -> outcome B) (l : list B) : (forall k b, l !! k = Some b -> f k = Ret b) -> mapM f (seq 0 (length l)) = Ret l.
Proof.
  assert (Hgen : forall l i, (forall k b, l !! k = Some b -> f (i + k) = Ret b) -> mapM f (seq i (length l)) = Ret l).
  { clear l. induction l as [|b l IH]; intros i Hf; [done|]. cbn [length seq mapM]. pose proof (Hf 0 b eq_refl) as H0'. rewrite Nat.add_0_r in H0'. rewrite H0'. cbn [mbind outcome_bind].
    rewrite IH; [done|]. intros k b' Hk. rewrite Nat.add_succ_comm. by apply Hf. }
  intros Hf. by apply Hgen.
Qed.

(** C39: The history of a debug build records the last 25 transitions. Up to 24
    transitions are printed in their order; after that the list is rotated by one, so
    that the oldest transition is printed last, as if it were the latest. *)
Theorem history_printed es : (N.of_nat (length es) + 26 < ULONG_MOD)%N ->
  OsHistory (record_all es) = Ret (if length es <? 25 then es else drop 1 (drop (length es - 25) es) ++ take 1 (drop (length es - 25) es)).
Proof.
  intros Hlt. destruct (recorded es ltac:(lia)) as (Hn & Hl & Hall). unfold OsHistory. rewrite Hn. set (last := drop (length es - 25) es).
  assert (Hget : forall i j e, es !! i = Some e -> length es <= i + 25 -> j mod 25 = i mod 25 -> (N.of_nat j < ULONG_MOD)%N ->
    (x ← subscript (m_history (record_all es)) (N.to_nat (N.of_nat j mod ULONG_MOD mod GPOPT_FSM_HISTORY)); deref x) = Ret e).
  { intros i j e Hi Hle Hj Hjl. rewrite (N.mod_small (N.of_nat j) ULONG_MOD) by done. change GPOPT_FSM_HISTORY with (N.of_nat 25). rewrite <- Nat2N.inj_mod, Nat2N.id, Hj.
    by rewrite (subscript_some _ _ _ (Hall i e Hi Hle)). }
  destruct (Nat.ltb_spec (length es) 25) as [Hs|Hs].
  - rewrite (proj2 (N.ltb_lt _ _)) by (unfold GPOPT_FSM_HISTORY; lia). rewrite N.min_l, Nat2N.id by (unfold GPOPT_FSM_HISTORY; lia).
    apply mapM_seq. intros k e Hk. pose proof (lookup_lt_Some _ _ _ Hk). rewrite N.add_0_l. apply (Hget k k e Hk); lia.
  - rewrite (proj2 (N.ltb_ge _ _)) by (unfold GPOPT_FSM_HISTORY; lia). rewrite N.min_r by (unfold GPOPT_FSM_HISTORY; lia).
    assert (Hlast : length last = 25) by (unfold last; rewrite length_drop; lia).
    replace (N.to_nat GPOPT_FSM_HISTORY) with (length (drop 1 last ++ take 1 last)) by (rewrite length_app, length_drop, length_take, Hlast; done).
    apply mapM_seq. intros k e Hk. pose proof (lookup_lt_Some _ _ _ Hk) as Hk'. rewrite length_app, length_drop, length_take, Hlast in Hk'. cbn in Hk'.
    rewrite (N.mod_small (N.of_nat (length es) + 1)) by lia. replace (N.of_nat (length es) + 1 + N.of_nat k)%N with (N.of_nat (length es + 1 + k)) by lia.
    apply lookup_app_Some in Hk as [Hk|[Hge Hk]].
    + rewrite lookup_drop in Hk. unfold last in Hk. rewrite lookup_drop in Hk. apply (Hget _ _ e Hk); [lia| |lia].
      replace (length es + 1 + k) with (length es - 25 + (1 + k) + 1 * 25) by lia. apply Nat.Div0.mod_add.
    + rewrite length_drop, Hlast in Hge, Hk. assert (k = 24) as -> by lia. cbn [Nat.sub] in Hk. rewrite lookup_take_lt in Hk by lia. unfold last in Hk. rewrite lookup_drop in Hk.
      apply (Hget _ _ e Hk); [lia| |lia]. replace (length es + 1 + 24) with (length es - 25 + 0 + 2 * 25) by lia. apply Nat.Div0.mod_add.
Qed.
End History.

(** ** The check for unreachable states *)

(** It reports states to which no other state leads: the initial state of every job,
    and no state on a circle of states that cannot be reached. *)
Lemma initial_states_reported :
  (forall sm, m_rgrgtenumeventTransitions sm = GroupExploration.rgeev -> Unreachable sm = [GroupExploration.estInitialized]) /\
  (forall sm, m_rgrgtenumeventTransitions sm = GroupExpressionOptimization.rgeev -> Unreachable sm = [GroupExpressionOptimization.estInitialized]) /\
  (forall sm, m_rgrgtenumeventTransitions sm = GroupOptimization.rgeev -> Unreachable sm = [GroupOptimization.estInitialized]).
Proof. split_and!; intros sm E; unfold Unreachable, Walk; rewrite E; vm_compute; reflexivity. Qed.

(** ** At concrete inputs *)

(** An engine that answers yes and counts calls *)
#[local] Instance yes_engine : Engine nat := {
  FTimedOut e := false;
  call k e := mret (S e);
  ask q e := mret (true, e);
  gexprs e := [1; 2];
  gexprs_physical e := [3];
  UlOptRequests p e := 1;
  EolMax e := EolHigh;
  DPHyperStatus e := EdphFallback;
  PxfsCandidates e := [7; 8; 9];
  PxfsExploration x := bool_decide (x <> 8);
  PxfsImplementation x := bool_decide (x = 8);
  PxfsCurrentStage e x := true;
  ExfDPHyperJoinRegion := 0;
  FReplacedByDPHyper e x := false;
  FDPHyperRegionMemberNotRoot e := false;
  FDPHyperShadow e := false;
}.


(** Thirty transitions of a machine with two states *)
Definition thirty : list (Transformation.EEvent * Transformation.EState) :=
  replicate 5 (Transformation.eevCompleted, Transformation.estCompleted) ++ replicate 1 (Transformation.eevCompleted, Transformation.estInitialized) ++
  replicate 24 (Transformation.eevCompleted, Transformation.estCompleted).

Lemma history_printed_witness : (N.of_nat (length thirty) + 26 < ULONG_MOD)%N /\
  OsHistory (record_all thirty) = Ret (replicate 24 (Transformation.eevCompleted, Transformation.estCompleted) ++ [(Transformation.eevCompleted, Transformation.estInitialized)]).
Proof. split; [vm_compute; reflexivity|]. rewrite (history_printed thirty) by (vm_compute; reflexivity). vm_compute. reflexivity. Defined.
End JobProps.
