(* ===== verification/CteMap.v ===== *)
(** * CTE maps and CTE requirements

    Source: [CCTEMap] and [CCTEReq] of libgpopt/src/base, and what physical operators
    do with them ([CPhysical], [CPhysicalSequence], [CPhysicalCTEProducer],
    [CPhysicalCTEConsumer] of libgpopt/src/operators). The CTE map of a plan has an
    entry for each CTE that the plan produces or consumes; a CTE requirement says which
    ones it must or may have. Both are hash maps (HashMap.v) keyed by the id of the CTE.
    The properties of a plan, which hold its CTE map, are the class [PlanProps]; an
    entry of a producer holds the properties of its plan. *)
From stdpp Require Import base numbers list gmap.
From S2P Require Import Prelude BitVector BitSet SetHash HashMap.
Local Open Scope N_scope.

Inductive ECteType := EctProducer | EctConsumer | EctSentinel.
#[export] Instance ECteType_eq_dec : EqDecision ECteType.
Proof. solve_decision. Defined.

Inductive EChildExecOrder := EceoLeftToRight | EceoRightToLeft.

Module CteMap.
Import HashMap.
Open Scope outcome_scope.

(** [gpos::HashValue] of a [ULONG], an enumeration, a [BOOL] *)
Definition HashULONG (u : N) : N := SetHash.HashByteArray (SetHash.store_word 4 u).
Definition HashEct (ect : ECteType) : N :=
  HashULONG (match ect with EctProducer => 0 | EctConsumer => 1 | EctSentinel => 2 end).
Definition HashBOOL (b : bool) : N := SetHash.HashByteArray (SetHash.store_word 1 (if b then 1 else 0)).

#[global] Instance ulong_key : HashKey N := { HashFn := HashULONG; EqFn := N.eqb }.

Definition ulong_max : N := 2 ^ 32 - 1.

Record CCTEMapEntry (P : Type) := mkEntry { m_id : N; m_ect : ECteType; m_pdpplan : option P }.
Arguments mkEntry {P} _ _ _.
Arguments m_id {P} _.
Arguments m_ect {P} _.
Arguments m_pdpplan {P} _.

Definition CCTEMap (P : Type) : Type := CHashMap N (CCTEMapEntry P).

Record CCTEReqEntry (P : Type) := mkReqEntry { r_id : N; r_ect : ECteType; m_fRequired : bool; r_pdpplan : option P }.
Arguments mkReqEntry {P} _ _ _ _.
Arguments r_id {P} _.
Arguments r_ect {P} _.
Arguments m_fRequired {P} _.
Arguments r_pdpplan {P} _.

Record CCTEReq (P : Type) := mkReq { m_phmcter : CHashMap N (CCTEReqEntry P); m_pdrgpulRequired : list N }.
Arguments mkReq {P} _ _.
Arguments m_phmcter {P} _.
Arguments m_pdrgpulRequired {P} _.

(** [GetCostModel] is the method that returns the CTE map. *)
Class PlanProps (P : Type) := {
  GetCostModel : P -> CCTEMap P;
  PlanEquals : P -> P -> bool;
  PlanHashValue : P -> N;
}.

(** [Value()] at a position of the iterator, dereferenced *)
Definition Value {T : Type} (e : option (N * T)) : outcome T := '(_, v) ← deref e; mret v.

(** A loop that returns false at the first element for which [f] is false *)
Fixpoint for_all {A} (l : list A) (f : A -> outcome bool) : outcome bool :=
  match l with
  | [] => mret true
  | a :: l => b ← f a; if b : bool then for_all l f else mret false
  end.

Section Cte.
Context {P : Type} `{PlanProps P}.
Implicit Types (pcm : CCTEMap P) (pcter : CCTEReq P) (id : N) (ect : ECteType) (pdpplan : option P).

(** ** CTE maps *)

Definition CCTEMapEntry_ctor id ect pdpplan : outcome (CCTEMapEntry P) :=
  _ ← GPOS_ASSERT (bool_decide (ect <> EctSentinel));
  _ ← GPOS_ASSERT (negb (bool_decide (ect = EctProducer)) || bool_decide (is_Some pdpplan));
  mret (mkEntry id ect pdpplan).

Definition EntryHashValue (pcme : CCTEMapEntry P) : N := SetHash.CombineHashes (HashULONG (m_id pcme)) (HashEct (m_ect pcme)).

Definition CCTEMap_ctor : outcome (CCTEMap P) := CHashMap_ctor 127.

Definition PcmeLookup pcm id : outcome (option (CCTEMapEntry P)) := Find pcm id.

Definition Insert pcm id ect pdpplan : outcome (CCTEMap P) :=
  _ ← GPOS_ASSERT (bool_decide (ect <> EctSentinel));
  pcme ← CCTEMapEntry_ctor id ect pdpplan;
  '(fSuccess, pcm) ← HashMap.Insert pcm id pcme;
  _ ← GPOS_ASSERT fSuccess;
  mret pcm.

(** The loop of [PdpplanProducer], and the loop after it *)
Fixpoint producer_loop (entries : list (option (N * CCTEMapEntry P))) : outcome (N * option P) :=
  match entries with
  | [] => mret (ulong_max, None)
  | e :: entries =>
      pcme ← Value e;
      if bool_decide (m_ect pcme = EctProducer) then
        _ ← GPOS_ASSERT (bool_decide (is_Some (m_pdpplan pcme)));
        _ ← for_each entries (fun e _ => pcme ← Value e; GPOS_ASSERT (bool_decide (m_ect pcme = EctConsumer))) tt;
        mret (m_id pcme, m_pdpplan pcme)
      else producer_loop entries
  end.

Definition PdpplanProducer pcm : outcome (N * option P) := entries ← iterate pcm; producer_loop entries.

Definition AddUnresolved (cmFirst cmSecond pcmResult : CCTEMap P) : outcome (CCTEMap P) :=
  entries ← iterate cmFirst;
  for_each entries (fun e pcmResult =>
    pcme ← Value e;
    let id := m_id pcme in
    found ← PcmeLookup pcmResult id;
    match found with
    | Some _ => mret pcmResult
    | None =>
        pcmeSecond ← PcmeLookup cmSecond id;
        if match pcmeSecond with None => true | Some second => bool_decide (m_ect pcme = m_ect second) end
        then Insert pcmResult id (m_ect pcme) (m_pdpplan pcme)
        else mret pcmResult
    end) pcmResult.

Definition FSubset pcm (other : CCTEMap P) : outcome bool :=
  if Size other <? Size pcm then mret false else
  entries ← iterate pcm;
  for_all entries (fun e =>
    pcme ← Value e;
    pcmeOther ← PcmeLookup other (m_id pcme);
    mret (match pcmeOther with None => false | Some o => bool_decide (m_ect o = m_ect pcme) end)).

Definition Equals pcm (other : CCTEMap P) : outcome bool :=
  if Size pcm =? Size other then FSubset pcm other else mret false.

Definition HashValue pcm : outcome N :=
  entries ← iterate pcm;
  for_each (take 5 entries) (fun e ulHash => pcme ← Value e; mret (SetHash.CombineHashes ulHash (EntryHashValue pcme))) 0.

Definition Ect pcm id : outcome ECteType :=
  pcme ← PcmeLookup pcm id;
  mret (match pcme with None => EctSentinel | Some pcme => m_ect pcme end).

Definition PcmCombine (cmFirst cmSecond : CCTEMap P) : outcome (CCTEMap P) :=
  pcmResult ← CCTEMap_ctor;
  pcmResult ← AddUnresolved cmFirst cmSecond pcmResult;
  AddUnresolved cmSecond cmFirst pcmResult.

(** ** CTE requirements *)

Definition CCTEReqEntry_ctor id ect (fRequired : bool) pdpplan : outcome (CCTEReqEntry P) :=
  _ ← GPOS_ASSERT (bool_decide (ect <> EctSentinel));
  _ ← GPOS_ASSERT (bool_decide (is_Some pdpplan) || bool_decide (ect = EctProducer));
  mret (mkReqEntry id ect fRequired pdpplan).

Definition ReqEntryHashValue (pcre : CCTEReqEntry P) : N :=
  let ulHash := SetHash.CombineHashes (HashULONG (r_id pcre)) (HashEct (r_ect pcre)) in
  let ulHash := SetHash.CombineHashes ulHash (HashBOOL (m_fRequired pcre)) in
  match r_pdpplan pcre with Some pdpplan => SetHash.CombineHashes ulHash (PlanHashValue pdpplan) | None => ulHash end.

Definition ReqEntryEquals (this pcre : CCTEReqEntry P) : bool :=
  if negb (r_id this =? r_id pcre) || negb (bool_decide (r_ect this = r_ect pcre)) || negb (bool_decide (m_fRequired this = m_fRequired pcre)) then false
  else match r_pdpplan this, r_pdpplan pcre with
       | None, None => true
       | Some p, Some q => PlanEquals p q
       | _, _ => false
       end.

Definition CCTEReq_ctor : outcome (CCTEReq P) := m ← CHashMap_ctor 127; mret (mkReq m []).

Definition PcreLookup pcter id : outcome (option (CCTEReqEntry P)) := Find (m_phmcter pcter) id.

Definition ReqInsert pcter id ect (fRequired : bool) pdpplan : outcome (CCTEReq P) :=
  _ ← GPOS_ASSERT (bool_decide (ect <> EctSentinel));
  pcre ← CCTEReqEntry_ctor id ect fRequired pdpplan;
  '(fSuccess, m) ← HashMap.Insert (m_phmcter pcter) id pcre;
  _ ← GPOS_ASSERT fSuccess;
  mret (mkReq m (if fRequired then m_pdrgpulRequired pcter ++ [id] else m_pdrgpulRequired pcter)).

Definition InsertConsumer pcter id (pdrgpdpCtxt : list P) : outcome (CCTEReq P) :=
  p ← subscript pdrgpdpCtxt 0;
  '(ulProducerId, pdpplan) ← PdpplanProducer (GetCostModel p);
  _ ← GPOS_ASSERT (bool_decide (is_Some pdpplan));
  _ ← GPOS_ASSERT (ulProducerId =? id);
  ReqInsert pcter id EctConsumer true pdpplan.

Definition ReqFSubset pcter (other : CCTEReq P) : outcome bool :=
  if Size (m_phmcter other) <? Size (m_phmcter pcter) then mret false else
  if Size (m_phmcter pcter) =? 0 then mret true else
  entries ← iterate (m_phmcter pcter);
  for_all entries (fun e =>
    pcre ← Value e;
    pcreOther ← PcreLookup other (r_id pcre);
    mret (match pcreOther with None => false | Some o => ReqEntryEquals pcre o end)).

Definition ReqEquals pcter (other : CCTEReq P) : outcome bool :=
  if Size (m_phmcter pcter) =? Size (m_phmcter other) then ReqFSubset pcter other else mret false.

Definition FContainsRequirement pcter id ect : outcome bool :=
  pcre ← PcreLookup pcter id;
  mret (match pcre with None => false | Some pcre => bool_decide (r_ect pcre = ect) end).

Definition ReqEct pcter id : outcome ECteType :=
  pcre ← PcreLookup pcter id;
  _ ← GPOS_ASSERT (bool_decide (is_Some pcre));
  pcre ← deref pcre;
  mret (r_ect pcre).

Definition ReqHashValue pcter : outcome N :=
  entries ← iterate (m_phmcter pcter);
  for_each (take 5 entries) (fun e ulHash => pcre ← Value e; mret (SetHash.CombineHashes ulHash (ReqEntryHashValue pcre))) 0.

Definition PcterUnresolved pcter pcm : outcome (CCTEReq P) :=
  pcterUnresolved ← CCTEReq_ctor;
  entries ← iterate (m_phmcter pcter);
  for_each entries (fun e pcterUnresolved =>
    pcre ← Value e;
    ect ← (if m_fRequired pcre then Ect pcm (r_id pcre) else mret EctSentinel);
    let fRequired := m_fRequired pcre && bool_decide (ect = EctSentinel) in
    ReqInsert pcterUnresolved (r_id pcre) (r_ect pcre) fRequired (r_pdpplan pcre)) pcterUnresolved.

(** [CCTEMap::PdrgpulAdditionalProducers] *)
Definition PdrgpulAdditionalProducers pcm pcter : outcome (list N) :=
  entries ← iterate pcm;
  for_each entries (fun e pdrgpul =>
    pcme ← Value e;
    if bool_decide (m_ect pcme = EctProducer) then
      fContains ← FContainsRequirement pcter (m_id pcme) (m_ect pcme);
      mret (if fContains : bool then pdrgpul else pdrgpul ++ [m_id pcme])
    else mret pdrgpul) [].

(** The body of the first loop of [PcterUnresolvedSequence] *)
Definition sequence_entry pcm (pdrgpdpCtxt : list P) (e : option (N * CCTEReqEntry P)) (pcterUnresolved : CCTEReq P) : outcome (CCTEReq P) :=
  pcre ← Value e;
  let id := r_id pcre in
  let ect := r_ect pcre in
  let fRequired := m_fRequired pcre in
  ectDrvd ← Ect pcm id;
  if fRequired && bool_decide (ectDrvd <> EctSentinel) then
    _ ← GPOS_ASSERT (bool_decide (ect = EctConsumer));
    _ ← GPOS_ASSERT (bool_decide (ectDrvd = EctConsumer));
    _ ← GPOS_ASSERT (bool_decide (is_Some (r_pdpplan pcre)));
    ReqInsert pcterUnresolved id ect false (r_pdpplan pcre)
  else if negb fRequired && bool_decide (ect = EctProducer) && bool_decide (ectDrvd <> EctSentinel) then
    _ ← GPOS_ASSERT (bool_decide (ectDrvd = EctProducer));
    InsertConsumer pcterUnresolved id pdrgpdpCtxt
  else
    _ ← GPOS_ASSERT (bool_decide (is_Some (r_pdpplan pcre)) || bool_decide (ect = EctProducer));
    ReqInsert pcterUnresolved id ect fRequired (r_pdpplan pcre).

Definition PcterUnresolvedSequence pcter pcm (pdrgpdpCtxt : list P) : outcome (CCTEReq P) :=
  pcterUnresolved ← CCTEReq_ctor;
  entries ← iterate (m_phmcter pcter);
  pcterUnresolved ← for_each entries (sequence_entry pcm pdrgpdpCtxt) pcterUnresolved;
  pdrgpulProducers ← PdrgpulAdditionalProducers pcm pcter;
  for_each pdrgpulProducers (fun id pcterUnresolved => InsertConsumer pcterUnresolved id pdrgpdpCtxt) pcterUnresolved.

Definition PcterAllOptional pcter : outcome (CCTEReq P) :=
  res ← CCTEReq_ctor;
  entries ← iterate (m_phmcter pcter);
  for_each entries (fun e res => pcre ← Value e; ReqInsert res (r_id pcre) (r_ect pcre) false (r_pdpplan pcre)) res.

Definition Pdpplan pcter id : outcome (option P) :=
  pcre ← PcreLookup pcter id;
  mret (match pcre with Some pcre => r_pdpplan pcre | None => None end).

(** [CCTEMap::FSatisfies] *)
Definition FSatisfies pcm pcter : outcome bool :=
  fRequired ← for_all (m_pdrgpulRequired pcter) (fun id =>
    ect ← ReqEct pcter id;
    pcme ← PcmeLookup pcm id;
    mret (match pcme with None => false | Some pcme => bool_decide (m_ect pcme = ect) end));
  if negb fRequired then mret false else
  entries ← iterate pcm;
  for_all entries (fun e =>
    pcme ← Value e;
    let ect := m_ect pcme in
    if bool_decide (ect = EctConsumer) then FContainsRequirement pcter (m_id pcme) ect else mret true).

(** ** Physical operators *)

(** [CPhysical::PcmCombine], for the children that were optimized before *)
Definition PcmCombineCtxt (pdrgpdpCtxt : list P) : outcome (CCTEMap P) :=
  pcmCombined ← CCTEMap_ctor;
  for_each pdrgpdpCtxt (fun p pcmCombined => PcmCombine pcmCombined (GetCostModel p)) pcmCombined.

(** [CPhysical::PcmDerive]; scalar children have no plan. *)
Definition PcmDerive (children : list (option P)) : outcome (CCTEMap P) :=
  _ ← GPOS_ASSERT (negb (length children =? 0)%nat);
  pcm ← CCTEMap_ctor;
  for_each children (fun child pcm => match child with Some p => PcmCombine pcm (GetCostModel p) | None => mret pcm end) pcm.

(** [CPhysicalCTEProducer::PcmDerive] and [CPhysicalCTEConsumer::PcmDerive] *)
Definition PcmDeriveProducer id (child : P) : outcome (CCTEMap P) :=
  pcmProducer ← CCTEMap_ctor;
  pcmProducer ← Insert pcmProducer id EctProducer (Some child);
  PcmCombine pcmProducer (GetCostModel child).

Definition PcmDeriveConsumer id : outcome (CCTEMap P) :=
  pcmConsumer ← CCTEMap_ctor;
  Insert pcmConsumer id EctConsumer None.

(** [CExpressionHandle::UlLastNonScalarChild] and [UlFirstNonScalarChild], on the
    flags that say which children are scalar; [None] is [ulong_max]. *)
Fixpoint first_false (l : list bool) : option nat :=
  match l with
  | [] => None
  | false :: _ => Some 0%nat
  | true :: l => S <$> first_false l
  end.
Definition UlFirstNonScalarChild (scalars : list bool) : option nat := first_false scalars.
Definition UlLastNonScalarChild (scalars : list bool) : option nat :=
  (fun i => length scalars - 1 - i)%nat <$> first_false (rev scalars).

Definition PcterNAry (eceo : EChildExecOrder) (scalars : list bool) pcter (child_index : nat) (pdrgpdpCtxt : list P) : outcome (CCTEReq P) :=
  let fOptional :=
    match eceo with
    | EceoLeftToRight => match UlLastNonScalarChild scalars with Some last => child_index <? last | None => false end
    | EceoRightToLeft => match UlFirstNonScalarChild scalars with Some first => first <? child_index | None => false end
    end%nat in
  if fOptional then PcterAllOptional pcter else
  pcmCombined ← PcmCombineCtxt pdrgpdpCtxt;
  PcterUnresolved pcter pcmCombined.

(** [CPhysicalSequence::PcteRequired] *)
Definition PcteRequiredSequence (arity : nat) pcter (child_index : nat) (pdrgpdpCtxt : list P) : outcome (CCTEReq P) :=
  if (child_index <? arity - 1)%nat then PcterAllOptional pcter else
  pcmCombined ← PcmCombineCtxt pdrgpdpCtxt;
  PcterUnresolvedSequence pcter pcmCombined pdrgpdpCtxt.
End Cte.
End CteMap.
