(* ===== verification/CteSpec.v ===== *)
(** * What CTE maps and requirements hold

    A CTE map and a CTE requirement (CteMap.v) stand for finite maps from ids to
    entries. Each operation returns without a fault and computes on the finite maps:
    combination drops the CTEs that one side produces and the other consumes. *)
From stdpp Require Import base numbers list gmap.
From S2P Require Import Prelude BitVector BitSet SetHash HashMap CteMap.

Module CteSpec.
Import HashMap CteMap.
Open Scope outcome_scope.

#[global] Instance ulong_key_laws : HashKeyLaws N.
Proof.
  split; cbn; [apply N.eqb_refl|..].
  - intros a b. by rewrite N.eqb_sym.
  - by intros a b c ->%N.eqb_eq ->%N.eqb_eq; apply N.eqb_eq.
  - by intros a b ->%N.eqb_eq.
Qed.

(** ** Hash maps keyed by numbers *)

Section Ulong.
Context {T S : Type}.
Implicit Types (m : CHashMap N T) (l : list (N * T)) (M : gmap N T).

Definition holds m M : Prop := exists l, listed m l /\ M = list_to_map l.

Lemma distinct_fst l : distinct l -> NoDup l.*1.
Proof.
  intros [Hnd Heq]. apply NoDup_fmap_2_strong; [|done]. intros a b Ha Hb E. apply Heq; [done..|]. cbn. by apply N.eqb_eq.
Qed.

Lemma entry_map l id : distinct l -> snd <$> entry l id = (list_to_map l : gmap N T) !! id.
Proof.
  intros Hd. pose proof (distinct_fst l Hd) as Hn. destruct (entry l id) as [[k v]|] eqn:E; cbn.
  - apply entry_Some in E as [Hin E]; [|done]. cbn in E. apply N.eqb_eq in E as ->. symmetry. by apply elem_of_list_to_map.
  - symmetry. apply not_elem_of_list_to_map. intros ([k v] & -> & Hin)%list_elem_of_fmap.
    rewrite entry_None in E. apply E in Hin. cbn in Hin. by rewrite N.eqb_refl in Hin.
Qed.

Lemma holds_ctor : CHashMap_ctor 127 ⤳ (fun m => holds m ∅).
Proof. eapply returns_mono; [by apply CHashMap_ctor_ret|]. intros m Hm. by exists []. Qed.

Lemma holds_find m M id : holds m M -> Find m id = Ret (M !! id).
Proof. intros (l & Hl & ->). pose proof (ls_contents _ _ Hl) as Hc. rewrite (Find_ret m l Hc). f_equal. apply entry_map, Hc. Qed.

Lemma list_to_map_snoc l id (v : T) : (list_to_map l : gmap N T) !! id = None -> list_to_map (l ++ [(id, v)]) = <[id := v]> (list_to_map l : gmap N T).
Proof.
  intros Hno. rewrite list_to_map_app. cbn. rewrite insert_empty.
  symmetry. rewrite insert_union_singleton_r; [|done]. done.
Qed.

Lemma holds_insert m M id (v : T) : holds m M -> M !! id = None ->
  HashMap.Insert m id v ⤳ (fun r => r.1 = true /\ holds r.2 (<[id := v]> M)).
Proof.
  intros (l & Hl & ->) Hno. pose proof (ls_contents _ _ Hl) as Hc. eapply returns_mono; [by apply HashMap.Insert_ret|].
  intros [b m'] Hr. assert (entry l id = None) as E.
  { pose proof (entry_map l id (ct_distinct _ _ Hc)) as E. rewrite Hno in E. by destruct (entry l id). }
  rewrite E in Hr. destruct Hr as (-> & H1 & H2 & H3). split; [done|]. exists (l ++ [(id, v)]). split; [by eapply listed_insert|].
  by rewrite list_to_map_snoc.
Qed.

(** A loop over the entries: the invariant is about those it has passed. *)
Lemma for_entries m M (I : gmap N T -> S -> Prop) (body : option (N * T) -> S -> outcome S) (t : S) : holds m M -> I ∅ t ->
  (forall id v M' t, M !! id = Some v -> M' !! id = None -> I M' t -> body (Some (id, v)) t ⤳ I (<[id := v]> M')) ->
  (entries ← iterate m; for_each entries body t) ⤳ I M.
Proof.
  intros (l & Hl & ->) H0 Hstep. rewrite (iterate_ret m l Hl). cbn [mbind outcome_bind]. rewrite for_each_map.
  pose proof (distinct_fst l (ct_distinct _ _ (ls_contents _ _ Hl))) as Hn.
  apply (for_each_rule (fun pre => I (list_to_map pre))); [done|]. intros pre [id v] rest t' El Ht'. subst l.
  rewrite fmap_app in Hn. pose proof Hn as (_ & Hpre & _)%NoDup_app. assert ((list_to_map pre : gmap N T) !! id = None) as Hno.
  { apply not_elem_of_list_to_map. intros Hin. apply (Hpre id Hin). cbn. by left. }
  rewrite list_to_map_snoc by done. apply Hstep; [|done..]. rewrite list_to_map_app. apply lookup_union_Some_raw. right. split; [done|].
  cbn. by rewrite lookup_insert_eq.
Qed.

Lemma for_all_ret {A} (l : list A) (f : A -> outcome bool) (Φ : A -> Prop) :
  (forall a, a ∈ l -> f a ⤳ (fun b => b = true <-> Φ a)) -> for_all l f ⤳ (fun b => b = true <-> forall a, a ∈ l -> Φ a).
Proof.
  induction l as [|a l IH]; intros Hf; cbn [for_all].
  { apply returns_ret. split; [|done]. by intros _ a ?%not_elem_of_nil. }
  eapply returns_bind; [apply Hf; left|]. intros [] Hb; cbn in Hb.
  - eapply returns_mono; [apply IH; intros x Hx; apply Hf; by right|]. intros b Hb'. rewrite Hb'. split.
    + by intros Hl x [->|Hx]%elem_of_cons; [apply Hb|apply Hl].
    + intros Hl x Hx. apply Hl. by right.
  - apply returns_ret. split; [done|]. intros Hl. apply Hb, Hl. left.
Qed.

Lemma for_all_entries m M (f : option (N * T) -> outcome bool) (Φ : N -> T -> Prop) : holds m M ->
  (forall id v, M !! id = Some v -> f (Some (id, v)) ⤳ (fun b => b = true <-> Φ id v)) ->
  (entries ← iterate m; for_all entries f) ⤳ (fun b => b = true <-> map_Forall Φ M).
Proof.
  intros (l & Hl & ->) Hf. rewrite (iterate_ret m l Hl). cbn [mbind outcome_bind].
  pose proof (distinct_fst l (ct_distinct _ _ (ls_contents _ _ Hl))) as Hn.
  eapply returns_mono; [apply (for_all_ret _ _ (fun e => match e with Some x => Φ x.1 x.2 | None => True end))|].
  - intros e ([id v] & -> & Hin)%list_elem_of_fmap. apply Hf. by apply elem_of_list_to_map.
  - intros b ->. split.
    + intros Hall id v Hv%elem_of_list_to_map; [|done]. apply (Hall (Some (id, v))). apply list_elem_of_fmap. by eexists.
    + intros Hall e ([id v] & -> & Hin)%list_elem_of_fmap. apply Hall. by apply elem_of_list_to_map.
Qed.
End Ulong.

Section Cte.
Context {P : Type} `{PlanProps P}.
Implicit Types (pcm : CCTEMap P) (pcter : CCTEReq P) (id : N) (M F S : gmap N (CCTEMapEntry P)) (R : gmap N (CCTEReqEntry P)).

(** ** CTE maps *)

Definition wf_entry id (e : CCTEMapEntry P) : Prop := m_id e = id /\ m_ect e <> EctSentinel /\ (m_ect e = EctProducer -> is_Some (m_pdpplan e)).
Definition cte_map pcm M : Prop := holds pcm M /\ map_Forall wf_entry M.

(** An entry that the other map does not resolve *)
Definition stays S id (e : CCTEMapEntry P) : bool :=
  match S !! id with None => true | Some e' => bool_decide (m_ect e = m_ect e') end.
Definition unresolved F S : gmap N (CCTEMapEntry P) := filter (fun kv => stays S kv.1 kv.2 = true) F.
Definition combine F S : gmap N (CCTEMapEntry P) := unresolved F S ∪ unresolved S F.

Lemma unresolved_lookup F S id : unresolved F S !! id = match F !! id with Some e => if stays S id e then Some e else None | None => None end.
Proof.
  unfold unresolved. destruct (F !! id) as [e|] eqn:E.
  - destruct (stays S id e) eqn:Es; [by apply map_lookup_filter_Some_2|]. apply map_lookup_filter_None_2. right. intros e' He'. rewrite E in He'. injection He' as <-. cbn. congruence.
  - apply map_lookup_filter_None_2. by left.
Qed.

Lemma combine_lookup F S id : combine F S !! id =
  match F !! id, S !! id with
  | Some a, Some b => if bool_decide (m_ect a = m_ect b) then Some a else None
  | Some a, None => Some a
  | None, o => o
  end.
Proof.
  unfold combine. rewrite lookup_union, !unresolved_lookup. unfold stays.
  destruct (F !! id) as [a|] eqn:Ea, (S !! id) as [b|] eqn:Eb; cbn; try done; repeat case_bool_decide; done || congruence.
Qed.

Lemma combine_empty M : combine ∅ M = M.
Proof. apply map_eq. intros id. by rewrite combine_lookup, lookup_empty. Qed.

Lemma combine_wf F S : map_Forall wf_entry F -> map_Forall wf_entry S -> map_Forall wf_entry (combine F S).
Proof.
  intros HF HS id e. rewrite combine_lookup. destruct (F !! id) as [a|] eqn:Ea, (S !! id) as [b|] eqn:Eb; try done.
  - case_bool_decide; [|done]. intros [= <-]. by apply HF.
  - intros [= <-]. by apply HF.
  - intros [= <-]. by apply HS.
Qed.

Lemma CCTEMap_ctor_ret : CCTEMap_ctor ⤳ (fun pcm => cte_map pcm ∅).
Proof. eapply returns_mono; [apply holds_ctor|]. intros m Hm. split; [done|apply map_Forall_empty]. Qed.

Lemma PcmeLookup_ret pcm M id : cte_map pcm M -> PcmeLookup pcm id = Ret (M !! id).
Proof. intros [Hm _]. by apply holds_find. Qed.

Lemma CteInsert_ret pcm M id e : cte_map pcm M -> wf_entry id e -> M !! id = None ->
  Insert pcm id (m_ect e) (m_pdpplan e) ⤳ (fun pcm' => cte_map pcm' (<[id := e]> M)).
Proof.
  intros [Hm Hw] He Hno. pose proof He as (Hid & Hs & Hp). unfold Insert, CCTEMapEntry_ctor.
  rewrite !bind_assert by (by rewrite bool_decide_true).
  rewrite bind_assert by (destruct (decide (m_ect e = EctProducer)) as [Hpr|Hpr]; [rewrite (bool_decide_true (is_Some _)) by auto; by rewrite orb_true_r|by rewrite bool_decide_false]).
  cbn [mbind outcome_bind mret outcome_ret]. replace (mkEntry id (m_ect e) (m_pdpplan e)) with e by (destruct e; cbn in *; congruence).
  eapply returns_bind; [by apply holds_insert|]. intros [b m'] [Hb Hm']. cbn in Hb. subst b. rewrite bind_assert by done. apply returns_ret.
  split; [done|]. by apply map_Forall_insert_2.
Qed.

Lemma AddUnresolved_ret cmFirst cmSecond pcmResult F S M : cte_map cmFirst F -> cte_map cmSecond S -> cte_map pcmResult M ->
  AddUnresolved cmFirst cmSecond pcmResult ⤳ (fun pcm => cte_map pcm (M ∪ unresolved F S)).
Proof.
  intros HF HS HM. unfold AddUnresolved.
  apply (for_entries _ F (fun F' pcm => cte_map pcm (M ∪ unresolved F' S))); [apply HF|unfold unresolved; by rewrite map_filter_empty, map_union_empty|].
  intros id e F' pcm He Hno Hpcm. pose proof (proj2 HF id e He) as Hwf. cbn. pose proof Hwf as (Hid & _). rewrite Hid.
  rewrite (PcmeLookup_ret _ _ _ Hpcm). cbn [mbind outcome_bind]. rewrite lookup_union, unresolved_lookup, Hno.
  assert (stays S id e = false -> unresolved (<[id:=e]> F') S = unresolved F' S) as Hdrop.
  { intros Hs. unfold unresolved. rewrite map_filter_insert_False by (cbn; congruence). by rewrite delete_id. }
  assert (stays S id e = true -> unresolved (<[id:=e]> F') S = <[id:=e]> (unresolved F' S)) as Hkeep.
  { intros Hs. unfold unresolved. by rewrite map_filter_insert_True. }
  destruct (M !! id) as [x|] eqn:EM; cbn [union option_union option_union_with].
  - apply returns_ret. replace (M ∪ unresolved (<[id:=e]> F') S) with (M ∪ unresolved F' S); [done|].
    destruct (stays S id e); [rewrite Hkeep by done|by rewrite Hdrop].
    apply map_eq. intros j. rewrite !lookup_union. destruct (decide (j = id)) as [->|Hj]; [|by rewrite lookup_insert_ne].
    rewrite EM, lookup_insert_eq, unresolved_lookup, Hno. done.
  - rewrite (PcmeLookup_ret _ _ _ HS). cbn [mbind outcome_bind]. fold (stays S id e). destruct (stays S id e) eqn:Es.
    + rewrite Hkeep by done. rewrite <- insert_union_r by done. apply CteInsert_ret; [done..|]. rewrite lookup_union, EM, unresolved_lookup, Hno. done.
    + rewrite Hdrop by done. by apply returns_ret.
Qed.

Lemma PcmCombine_ret cmFirst cmSecond F S : cte_map cmFirst F -> cte_map cmSecond S ->
  PcmCombine cmFirst cmSecond ⤳ (fun pcm => cte_map pcm (combine F S)).
Proof.
  intros HF HS. unfold PcmCombine. eapply returns_bind; [apply CCTEMap_ctor_ret|]. intros m0 H0.
  eapply returns_bind; [by apply (AddUnresolved_ret _ _ _ F S ∅)|]. intros m1 H1. rewrite map_empty_union in H1. by apply AddUnresolved_ret.
Qed.

Lemma Ect_ret pcm M id : cte_map pcm M -> Ect pcm id = Ret (match M !! id with Some e => m_ect e | None => EctSentinel end).
Proof. intros Hm. unfold Ect. by rewrite (PcmeLookup_ret _ _ _ Hm). Qed.

Lemma Ect_sentinel M id : map_Forall wf_entry M -> match M !! id with Some e => m_ect e | None => EctSentinel end = EctSentinel <-> M !! id = None.
Proof. intros Hw. destruct (M !! id) as [e|] eqn:E; [|done]. split; [|done]. intros Hs. by destruct (Hw _ _ E) as (_ & ? & _). Qed.

(** ** CTE requirements *)

Definition wf_req id (r : CCTEReqEntry P) : Prop := r_id r = id /\ r_ect r <> EctSentinel /\ (r_ect r = EctProducer \/ is_Some (r_pdpplan r)).
Definition cte_req pcter R : Prop := holds (m_phmcter pcter) R /\ map_Forall wf_req R /\
  forall id, id ∈ m_pdrgpulRequired pcter <-> exists r, R !! id = Some r /\ m_fRequired r = true.

Definition set_required (b : bool) (r : CCTEReqEntry P) : CCTEReqEntry P := mkReqEntry (r_id r) (r_ect r) b (r_pdpplan r).

(** What the operations ask of the next child *)
Definition all_optional R : gmap N (CCTEReqEntry P) := set_required false <$> R.
Definition unresolved_req R M : gmap N (CCTEReqEntry P) :=
  map_imap (fun id r => Some (set_required (m_fRequired r && bool_decide (M !! id = None)) r)) R.

Lemma CCTEReq_ctor_ret : CCTEReq_ctor ⤳ (fun pcter => cte_req pcter ∅).
Proof.
  eapply returns_bind; [apply holds_ctor|]. intros m Hm. apply returns_ret. split_and!; [done|apply map_Forall_empty|].
  intros id. cbn. rewrite lookup_empty. split; [by intros ?%not_elem_of_nil|]. by intros (r & ? & _).
Qed.

Lemma PcreLookup_ret pcter R id : cte_req pcter R -> PcreLookup pcter id = Ret (R !! id).
Proof. intros [Hm _]. by apply holds_find. Qed.

Lemma ReqInsert_ret pcter R id r : cte_req pcter R -> wf_req id r -> R !! id = None ->
  ReqInsert pcter id (r_ect r) (m_fRequired r) (r_pdpplan r) ⤳ (fun pcter' => cte_req pcter' (<[id := r]> R)).
Proof.
  intros (Hm & Hw & Hq) Hr Hno. pose proof Hr as (Hid & Hs & Hp). unfold ReqInsert, CCTEReqEntry_ctor.
  rewrite !bind_assert by (by rewrite bool_decide_true).
  rewrite bind_assert by (destruct Hp as [Hp|Hp]; [rewrite (bool_decide_true (r_ect r = _)) by done; apply orb_true_r|by rewrite bool_decide_true]).
  cbn [mbind outcome_bind mret outcome_ret]. replace (mkReqEntry id (r_ect r) (m_fRequired r) (r_pdpplan r)) with r by (destruct r; cbn in *; congruence).
  eapply returns_bind; [by apply holds_insert|]. intros [b m'] [Hb Hm']. cbn in Hb. subst b. rewrite bind_assert by done. apply returns_ret.
  split_and!; [done|by apply map_Forall_insert_2|]. intros i. cbn [m_pdrgpulRequired].
  assert (i ∈ (if m_fRequired r then m_pdrgpulRequired pcter ++ [id] else m_pdrgpulRequired pcter) <-> i ∈ m_pdrgpulRequired pcter \/ (i = id /\ m_fRequired r = true)) as ->.
  { destruct (m_fRequired r); [rewrite elem_of_app, list_elem_of_singleton|]; naive_solver. }
  rewrite Hq. destruct (decide (i = id)) as [->|Hi].
  - rewrite lookup_insert_eq, Hno. naive_solver.
  - rewrite lookup_insert_ne by done. naive_solver.
Qed.

(** A copy of a requirement with changed entries *)
Lemma copy_ret pcter R (body : option (N * CCTEReqEntry P) -> CCTEReq P -> outcome (CCTEReq P)) (g : N -> CCTEReqEntry P -> CCTEReqEntry P) : cte_req pcter R ->
  (forall id r, R !! id = Some r -> wf_req id r -> wf_req id (g id r)) ->
  (forall id r res Q, R !! id = Some r -> wf_req id r -> cte_req res Q -> Q !! id = None -> body (Some (id, r)) res ⤳ (fun res => cte_req res (<[id := g id r]> Q))) ->
  (res ← CCTEReq_ctor; entries ← iterate (m_phmcter pcter); for_each entries body res) ⤳ (fun res => cte_req res (map_imap (fun id r => Some (g id r)) R)).
Proof.
  intros (Hm & Hw & Hq) Hg Hbody. eapply returns_bind; [apply CCTEReq_ctor_ret|]. intros res0 Hres0.
  apply (for_entries _ R (fun R' res => cte_req res (map_imap (fun id r => Some (g id r)) R'))); [done|by rewrite map_imap_empty|].
  intros id r R' res Hr Hno Hres. pose proof (Hw _ _ Hr) as Hwr. rewrite (map_imap_insert_Some _ _ _ _ (g id r)) by done.
  apply Hbody; [done..|]. by rewrite map_lookup_imap, Hno.
Qed.

Lemma wf_set_required id b r : wf_req id r -> wf_req id (set_required b r).
Proof. done. Qed.

Lemma PcterAllOptional_ret pcter R : cte_req pcter R -> PcterAllOptional pcter ⤳ (fun res => cte_req res (all_optional R)).
Proof.
  intros HR. unfold PcterAllOptional. eapply returns_mono; [apply (copy_ret pcter R _ (fun _ => set_required false) HR)|].
  - intros id r _. apply wf_set_required.
  - intros id r res Q _ Hwr Hres Hno. cbn. destruct Hwr as (Hid & Hs). rewrite Hid. by apply (ReqInsert_ret res Q id (set_required false r)).
  - intros res Hres. replace (all_optional R) with (map_imap (fun _ r => Some (set_required false r)) R); [done|].
    apply map_eq. intros id. unfold all_optional. rewrite map_lookup_imap, lookup_fmap. by destruct (R !! id).
Qed.

Lemma PcterUnresolved_ret pcter pcm R M : cte_req pcter R -> cte_map pcm M -> PcterUnresolved pcter pcm ⤳ (fun res => cte_req res (unresolved_req R M)).
Proof.
  intros HR HM. unfold PcterUnresolved, unresolved_req. apply (copy_ret pcter R _ (fun id r => set_required (m_fRequired r && bool_decide (M !! id = None)) r) HR); [by intros id r _; apply wf_set_required|].
  intros id r res Q _ Hwr Hres Hno. cbn. pose proof Hwr as (Hid & Hs). rewrite Hid. set (b := m_fRequired r && bool_decide (M !! id = None)).
  assert (exists ect, (if m_fRequired r then Ect pcm id else mret EctSentinel) = Ret ect /\ m_fRequired r && bool_decide (ect = EctSentinel) = b) as (ect & -> & Hb).
  { unfold b. destruct (m_fRequired r); [|by exists EctSentinel]. rewrite (Ect_ret _ _ _ HM). eexists. split; [done|]. cbn.
    apply bool_decide_ext. apply Ect_sentinel, HM. }
  cbn [mbind outcome_bind]. rewrite Hb. by apply (ReqInsert_ret res Q id (set_required b r)).
Qed.

(** ** Satisfaction *)

Definition satisfies M R : Prop :=
  (forall id r, R !! id = Some r -> m_fRequired r = true -> exists e, M !! id = Some e /\ m_ect e = r_ect r) /\
  (forall id e, M !! id = Some e -> m_ect e = EctConsumer -> exists r, R !! id = Some r /\ r_ect r = EctConsumer).

Lemma FContainsRequirement_ret pcter R id ect : cte_req pcter R ->
  FContainsRequirement pcter id ect ⤳ (fun b => b = true <-> exists r, R !! id = Some r /\ r_ect r = ect).
Proof.
  intros HR. unfold FContainsRequirement. rewrite (PcreLookup_ret _ _ _ HR). cbn. apply returns_ret.
  destruct (R !! id) as [r|]; [|naive_solver]. rewrite bool_decide_eq_true. naive_solver.
Qed.

Lemma FSatisfies_ret pcm pcter M R : cte_map pcm M -> cte_req pcter R -> FSatisfies pcm pcter ⤳ (fun b => b = true <-> satisfies M R).
Proof.
  intros HM HR. unfold FSatisfies.
  eapply returns_bind; [apply (for_all_ret _ _ (fun id => exists r e, R !! id = Some r /\ M !! id = Some e /\ m_ect e = r_ect r))|].
  - intros id (r & Hr & Hreq)%(proj2 (proj2 HR)). unfold ReqEct. rewrite (PcreLookup_ret _ _ _ HR), Hr. cbn [mbind outcome_bind].
    rewrite bind_assert by (by apply bool_decide_true). cbn [deref mbind outcome_bind mret outcome_ret].
    rewrite (PcmeLookup_ret _ _ _ HM). cbn. apply returns_ret. destruct (M !! id) as [e|]; [rewrite bool_decide_eq_true|]; naive_solver.
  - intros b Hb. assert (b = true <-> forall id r, R !! id = Some r -> m_fRequired r = true -> exists e, M !! id = Some e /\ m_ect e = r_ect r) as Hb'.
    { rewrite Hb. split.
      - intros Hall id r Hr Hreq. destruct (Hall id) as (r' & e & Hr' & He); [apply HR; eauto|]. rewrite Hr in Hr'. injection Hr' as <-. eauto.
      - intros Hall id (r & Hr & Hreq)%(proj2 (proj2 HR)). destruct (Hall id r Hr Hreq) as (e & He). eauto. }
    destruct b; cbn [negb].
    + eapply returns_mono; [apply (for_all_entries _ M _ (fun id e => m_ect e = EctConsumer -> exists r, R !! id = Some r /\ r_ect r = EctConsumer)); [apply HM|]|].
      * intros id e He. cbn. destruct (proj2 HM _ _ He) as (Hid & _). rewrite Hid. case_bool_decide as Hc; [|by apply returns_ret].
        rewrite Hc. eapply returns_mono; [by apply FContainsRequirement_ret|]. naive_solver.
      * intros c ->. unfold satisfies, map_Forall. naive_solver.
    + apply returns_ret. unfold satisfies. naive_solver.
Qed.

(** ** Sequences *)

(** [e] is the only producer of the map. *)
Definition sole_producer M id (e : CCTEMapEntry P) : Prop :=
  M !! id = Some e /\ m_ect e = EctProducer /\ forall id' e', M !! id' = Some e' -> m_ect e' = EctProducer -> id' = id.

Lemma consumers_ret (l : list (N * CCTEMapEntry P)) : (forall x, x ∈ l -> m_ect x.2 = EctConsumer) ->
  for_each (map Some l) (fun e _ => pcme ← Value e; GPOS_ASSERT (bool_decide (m_ect pcme = EctConsumer))) tt = Ret tt.
Proof.
  induction l as [|[i x] l IH]; intros Hall; [done|]. cbn. rewrite (bool_decide_true (m_ect x = EctConsumer)) by (apply (Hall (i, x)); left).
  cbn. apply IH. intros y Hy. apply Hall. by right.
Qed.

Lemma producer_loop_ret M (l : list (N * CCTEMapEntry P)) id e : map_Forall wf_entry M -> sole_producer M id e -> NoDup l.*1 ->
  (forall x, x ∈ l -> M !! x.1 = Some x.2) -> (id, e) ∈ l -> producer_loop (map Some l) = Ret (id, m_pdpplan e).
Proof.
  intros Hw (He & Hp & Hsole). induction l as [|[i x] l IH]; intros Hnd Hl Hin; [by apply not_elem_of_nil in Hin|].
  cbn in Hnd. apply NoDup_cons in Hnd as [Hi Hnd]. assert (M !! i = Some x) as Hx by (apply (Hl (i, x)); left).
  assert (forall y, y ∈ l -> y.1 <> i) as Hne by (intros y Hy <-; apply Hi, list_elem_of_fmap; eauto).
  cbn. case_bool_decide as Hpx.
  - assert (i = id) as -> by eauto. assert (x = e) as -> by congruence. destruct (Hw _ _ Hx) as (Hid & _ & Hsome).
    rewrite (bool_decide_true (is_Some _)) by auto. cbn. rewrite consumers_ret; [cbn; by rewrite Hid|].
    intros y Hy. pose proof (Hl y ltac:(by right)) as Hy'. destruct (Hw _ _ Hy') as (_ & Hs & _). destruct (m_ect y.2) eqn:E; [|done..].
    exfalso. by apply (Hne y Hy), (Hsole _ _ Hy').
  - apply IH; [done|intros y Hy; apply Hl; by right|]. apply elem_of_cons in Hin as [[= -> ->]|Hin]; [|done]. congruence.
Qed.

Lemma PdpplanProducer_ret pcm M id e : cte_map pcm M -> sole_producer M id e -> PdpplanProducer pcm = Ret (id, m_pdpplan e).
Proof.
  intros [(l & Hl & ->) Hw] Hsole. unfold PdpplanProducer. rewrite (iterate_ret pcm l Hl). cbn [mbind outcome_bind].
  pose proof (distinct_fst l (ct_distinct _ _ (ls_contents _ _ Hl))) as Hn. eapply producer_loop_ret; [done|done|done| |].
  - intros [i x] Hx. by apply elem_of_list_to_map.
  - destruct Hsole as (He & _). by apply elem_of_list_to_map in He.
Qed.

Definition consumer_of id (e : CCTEMapEntry P) : CCTEReqEntry P := mkReqEntry id EctConsumer true (m_pdpplan e).

Lemma InsertConsumer_ret pcter R id p ctxt M e : cte_req pcter R -> R !! id = None -> cte_map (GetCostModel p) M -> sole_producer M id e ->
  InsertConsumer pcter id (p :: ctxt) ⤳ (fun res => cte_req res (<[id := consumer_of id e]> R)).
Proof.
  intros HR Hno HM Hsole. unfold InsertConsumer. cbn [subscript lookup list_lookup mbind outcome_bind].
  rewrite (PdpplanProducer_ret _ M id e HM Hsole). cbn [mbind outcome_bind]. destruct Hsole as (He & Hp & _).
  assert (is_Some (m_pdpplan e)) as Hsome by (by apply (proj2 HM _ _ He)).
  rewrite !bind_assert by (first [by apply bool_decide_true|apply N.eqb_refl]).
  apply (ReqInsert_ret pcter R id (consumer_of id e)); [done| |done]. split_and!; [done..|by right].
Qed.

Lemma PdrgpulAdditionalProducers_ret pcm pcter M R id e : cte_map pcm M -> cte_req pcter R -> sole_producer M id e ->
  (forall r, R !! id = Some r -> r_ect r = EctProducer) ->
  PdrgpulAdditionalProducers pcm pcter = Ret (if bool_decide (R !! id = None) then [id] else []).
Proof.
  intros HM HR (He & Hp & Hsole) Hr. unfold PdrgpulAdditionalProducers.
  destruct (for_entries pcm M (fun M' l => l = if bool_decide (is_Some (M' !! id)) && bool_decide (R !! id = None) then [id] else [])
    (fun e pdrgpul => pcme ← Value e; if bool_decide (m_ect pcme = EctProducer) then
      fContains ← FContainsRequirement pcter (m_id pcme) (m_ect pcme); mret (if fContains : bool then pdrgpul else pdrgpul ++ [m_id pcme]) else mret pdrgpul) [])
    as (l & El & Hl); [apply HM|by rewrite lookup_empty| |].
  - intros i x M' l Hx Hno ->. destruct (proj2 HM _ _ Hx) as (Hid & _). cbn. rewrite Hid. case_bool_decide as Hpx.
    + assert (i = id) as -> by eauto. rewrite Hpx. eapply returns_bind; [by apply FContainsRequirement_ret|]. intros b Hb. apply returns_ret.
      rewrite lookup_insert_eq, Hno, (bool_decide_true (is_Some (Some x))), (bool_decide_false (is_Some None)) by (eauto || by intros [? ?]). cbn.
      case_bool_decide as Hnone; destruct b; try done.
      * destruct (proj1 Hb eq_refl) as (r & Hr' & _). congruence.
      * destruct (R !! id) as [r|] eqn:Er; [|done]. assert (false = true); [|done]. apply Hb. exists r. split; [done|by apply Hr].
    + apply returns_ret. rewrite lookup_insert_ne; [done|]. intros ->. congruence.
  - rewrite El, Hl. rewrite (bool_decide_true (is_Some _)) by eauto. done.
Qed.

(** What a sequence asks of its second child *)
Definition sequence_req R M id (e : CCTEMapEntry P) : gmap N (CCTEReqEntry P) := <[id := consumer_of id e]> (unresolved_req R M).

Section Sequence.
Context (pcter : CCTEReq P) (pcm : CCTEMap P) (p : P) (ctxt : list P) (R : gmap N (CCTEReqEntry P)) (M : gmap N (CCTEMapEntry P)) (id : N) (e : CCTEMapEntry P).
Context (HR : cte_req pcter R) (HM : cte_map pcm M) (Hp : cte_map (GetCostModel p) M) (Hsole : sole_producer M id e).
Context (Hreq : forall i r, R !! i = Some r -> m_fRequired r = true -> r_ect r = EctConsumer) (Hprod : forall r, R !! id = Some r -> r_ect r = EctProducer).
Context (Hsat : satisfies M (all_optional R)).

Definition sequence_new (i : N) (r : CCTEReqEntry P) : CCTEReqEntry P :=
  if decide (i = id) then consumer_of id e else set_required (m_fRequired r && bool_decide (M !! i = None)) r.

Lemma other_entry i x : i <> id -> M !! i = Some x -> m_ect x = EctConsumer /\ exists r, R !! i = Some r /\ r_ect r = EctConsumer.
Proof.
  intros Hi Hx. destruct (proj2 HM _ _ Hx) as (_ & Hs & _). assert (m_ect x = EctConsumer) as Hc.
  { destruct (m_ect x) eqn:E; [|done..]. exfalso. by apply Hi, (proj2 (proj2 Hsole) i x). }
  split; [done|]. destruct (proj2 Hsat i x Hx Hc) as (r & Hr & Hrc). unfold all_optional in Hr. rewrite lookup_fmap in Hr.
  apply fmap_Some in Hr as (r0 & Hr0 & ->). by exists r0.
Qed.

Lemma sequence_entry_ret i r res Q : R !! i = Some r -> wf_req i r -> cte_req res Q -> Q !! i = None ->
  sequence_entry pcm (p :: ctxt) (Some (i, r)) res ⤳ (fun res => cte_req res (<[i := sequence_new i r]> Q)).
Proof.
  intros Hr (Hid & Hs & Hpl) Hres Hno. unfold sequence_entry. cbn [Value deref mbind outcome_bind mret outcome_ret].
  rewrite Hid, (Ect_ret _ _ _ HM). cbn [mbind outcome_bind]. unfold sequence_new. destruct (decide (i = id)) as [->|Hi].
  - destruct Hsole as (He & Hep & _). rewrite He, Hep. pose proof (Hprod _ Hr) as Hrp.
    assert (m_fRequired r = false) as -> by (destruct (m_fRequired r) eqn:E; [rewrite (Hreq _ _ Hr E) in Hrp|]; done).
    cbn [andb negb]. rewrite !bool_decide_true by done. cbn [andb]. rewrite bind_assert by done. by apply (InsertConsumer_ret _ _ _ _ _ M).
  - assert (is_Some (r_pdpplan r) \/ r_ect r = EctProducer) as Hpl' by tauto. destruct (M !! i) as [x|] eqn:Ex.
    + destruct (other_entry i x Hi Ex) as (Hx & r' & Hr' & Hrc). assert (r' = r) as -> by congruence. destruct Hpl' as [Hpl'|?]; [|congruence].
      rewrite Hx, (bool_decide_true (EctConsumer <> EctSentinel)), (bool_decide_false (Some x = None)) by done. rewrite !andb_true_r, andb_false_r.
      rewrite (bool_decide_false (r_ect r = EctProducer)), andb_false_r, orb_false_r by congruence.
      rewrite !bind_assert by (by apply bool_decide_true). destruct (m_fRequired r); by apply (ReqInsert_ret res Q i (set_required false r)).
    + rewrite (bool_decide_false (EctSentinel <> EctSentinel)) by (intros Hbad; by apply Hbad). rewrite (bool_decide_true (None = None)) by done.
      rewrite !andb_false_r, andb_true_r. rewrite bind_assert by (rewrite orb_true_iff, !bool_decide_eq_true; exact Hpl').
      by apply (ReqInsert_ret res Q i (set_required (m_fRequired r) r)).
Qed.

Lemma sequence_req_lookup i : sequence_req R M id e !! i = if decide (i = id) then Some (consumer_of id e) else map_imap (fun i r => Some (sequence_new i r)) R !! i.
Proof.
  unfold sequence_req, sequence_new. destruct (decide (i = id)) as [->|Hi]; [by rewrite lookup_insert_eq|]. rewrite lookup_insert_ne by done.
  unfold unresolved_req. rewrite !map_lookup_imap. destruct (R !! i); cbn; [|done]. by rewrite decide_False.
Qed.

Lemma PcterUnresolvedSequence_ret : PcterUnresolvedSequence pcter pcm (p :: ctxt) ⤳ (fun res => cte_req res (sequence_req R M id e)).
Proof.
  assert (is_Some (m_pdpplan e)) as Hsome by (destruct Hsole as (He & Hep & _); by apply (proj2 HM _ _ He)).
  destruct (copy_ret pcter R (sequence_entry pcm (p :: ctxt)) sequence_new HR) as (res & Eres & Hres).
  - intros i r _ Hwr. unfold sequence_new. destruct (decide (i = id)) as [->|]; [split_and!; [done..|by right]|done].
  - apply sequence_entry_ret.
  - unfold PcterUnresolvedSequence. destruct CCTEReq_ctor as [q0|]; [|done]. cbn [mbind outcome_bind] in *.
    destruct (iterate (m_phmcter pcter)) as [entries|]; [|done]. cbn [mbind outcome_bind] in *. rewrite Eres. cbn [mbind outcome_bind].
    rewrite (PdrgpulAdditionalProducers_ret pcm pcter M R id e HM HR Hsole Hprod). cbn [mbind outcome_bind]. case_bool_decide as Hnone; cbn [for_each].
    + eapply returns_bind; [apply (InsertConsumer_ret res _ id p ctxt M e Hres); [by rewrite map_lookup_imap, Hnone|done|done]|].
      intros res' Hres'. apply returns_ret. eapply (eq_ind_r (cte_req res')); [exact Hres'|].
      apply map_eq. intros i. rewrite sequence_req_lookup. destruct (decide (i = id)) as [->|Hi]; [by rewrite lookup_insert_eq|by rewrite lookup_insert_ne].
    + apply returns_ret. eapply (eq_ind_r (cte_req res)); [exact Hres|]. apply map_eq. intros i. rewrite sequence_req_lookup.
      destruct (decide (i = id)) as [->|Hi]; [|done]. rewrite map_lookup_imap. destruct (R !! id) as [r|]; [|done]. cbn. unfold sequence_new. by rewrite decide_True.
Qed.
End Sequence.
End Cte.
End CteSpec.
