(* ===== verification/CteProps.v ===== *)
(** * CTE maps and requirements: how they compose

    The properties of CteMap.v, by the finite maps of CteSpec.v: what an operator with
    several children asks of its last child is what the whole needs, a sequence makes
    its second child consume what the first one produces, and equality of maps is
    equality of ids and types. *)
From stdpp Require Import base numbers list gmap.
From S2P Require Import Prelude BitVector BitSet SetHash HashMap CteMap CteSpec.

Module CteProps.
Import HashMap CteMap CteSpec.
Open Scope outcome_scope.

Section Requirements.
Context {P : Type} `{PlanProps P}.
Implicit Types (p q : P) (pcm : CCTEMap P) (pcter : CCTEReq P) (id : N) (M C : gmap N (CCTEMapEntry P)) (R : gmap N (CCTEReqEntry P)).

(** ** Types of the CTEs of a map *)

Definition ect_at M id (ect : ECteType) : Prop := exists e, M !! id = Some e /\ m_ect e = ect.

Lemma ect_at_some M id : is_Some (M !! id) <-> exists ect, ect_at M id ect.
Proof. unfold ect_at. split; [intros [e He]; eauto|]. intros (ect & e & He & _). eauto. Qed.

Lemma ect_at_none M id : (forall ect, ~ ect_at M id ect) -> M !! id = None.
Proof. intros Hno. destruct (M !! id) as [e|] eqn:E; [|done]. exfalso. apply (Hno (m_ect e)). by exists e. Qed.

Lemma ect_at_inj M id a b : ect_at M id a -> ect_at M id b -> a = b.
Proof. intros (e & He & <-) (e' & He' & <-). congruence. Qed.

Lemma ect_at_kind M id ect : map_Forall wf_entry M -> ect_at M id ect -> ect = EctProducer \/ ect = EctConsumer.
Proof. intros Hw (e & He & <-). destruct (Hw _ _ He) as (_ & Hs & _). destruct (m_ect e); auto. done. Qed.

Lemma satisfies_ect M R : satisfies M R <->
  (forall id r, R !! id = Some r -> m_fRequired r = true -> ect_at M id (r_ect r)) /\
  (forall id, ect_at M id EctConsumer -> exists r, R !! id = Some r /\ r_ect r = EctConsumer).
Proof. unfold satisfies, ect_at. naive_solver. Qed.

Lemma combine_ect M C id : (forall a b, ect_at M id a -> ect_at C id b -> a = b) ->
  forall ect, ect_at (combine M C) id ect <-> ect_at M id ect \/ ect_at C id ect.
Proof.
  intros Hagree ect. unfold ect_at in *. rewrite combine_lookup.
  destruct (M !! id) as [a|] eqn:Ea, (C !! id) as [b|] eqn:Eb.
  - assert (m_ect a = m_ect b) as E by (apply Hagree; eauto). rewrite bool_decide_true by done. naive_solver congruence.
  - naive_solver.
  - naive_solver.
  - naive_solver.
Qed.

Lemma unresolved_req_lookup R M id r : unresolved_req R M !! id = Some r <->
  exists r0, R !! id = Some r0 /\ r = set_required (m_fRequired r0 && bool_decide (M !! id = None)) r0.
Proof. unfold unresolved_req. rewrite map_lookup_imap. destruct (R !! id) as [r0|]; cbn; naive_solver. Qed.

(** ** Maps of several children *)

Section Children.
Context (cm : P -> gmap N (CCTEMapEntry P)).

Definition combined (qs : list P) : gmap N (CCTEMapEntry P) := foldl (fun M q => combine M (cm q)) ∅ qs.

(** No CTE is produced in one of the plans and consumed in another. *)
Definition agree (qs : list P) : Prop :=
  forall q q' id a b, q ∈ qs -> q' ∈ qs -> ect_at (cm q) id a -> ect_at (cm q') id b -> a = b.

Lemma combined_ect qs id : agree qs -> forall ect, ect_at (combined qs) id ect <-> exists q, q ∈ qs /\ ect_at (cm q) id ect.
Proof.
  induction qs as [|q qs IH] using rev_ind; intros Hagree ect.
  - split; [|by intros (q & ?%not_elem_of_nil & _)]. intros (e & He & _). cbn in He. by rewrite lookup_empty in He.
  - assert (agree qs) as Hqs by (intros q1 q2 i a b H1 H2; apply Hagree; set_solver). specialize (IH Hqs).
    unfold combined. rewrite foldl_app. cbn [foldl]. fold (combined qs). rewrite combine_ect.
    + rewrite IH. set_solver.
    + intros a b (q' & Hq' & Ha)%IH Hb. eapply (Hagree q' q); [set_solver..|done|done].
Qed.

Lemma combined_none qs id : agree qs -> combined qs !! id = None <-> forall q, q ∈ qs -> cm q !! id = None.
Proof.
  intros Hagree. split.
  - intros Hno q Hq. apply ect_at_none. intros ect He. assert (ect_at (combined qs) id ect) as (e & He' & _); [|congruence].
    apply combined_ect; eauto.
  - intros Hall. apply ect_at_none. intros ect (q & Hq & e & He & _)%combined_ect; [|done]. rewrite (Hall q Hq) in He. done.
Qed.

Lemma combine_children (children : list (option P)) : (forall q, Some q ∈ children -> cte_map (GetCostModel q) (cm q)) ->
  (pcm ← CCTEMap_ctor; for_each children (fun child pcm => match child with Some p => PcmCombine pcm (GetCostModel p) | None => mret pcm end) pcm)
    ⤳ (fun pcm => cte_map pcm (combined (omap (fun c => c) children))).
Proof.
  intros Hcm. eapply returns_bind; [apply CCTEMap_ctor_ret|]. intros m0 H0.
  apply (for_each_rule (fun pre pcm => cte_map pcm (combined (omap (fun c => c) pre)))); [done|].
  intros pre [p|] rest pcm El Hpcm; unfold combined in *; rewrite omap_app; cbn.
  - rewrite foldl_app. cbn. apply PcmCombine_ret; [done|]. apply Hcm. subst. apply elem_of_app. right. left.
  - rewrite app_nil_r. by apply returns_ret.
Qed.

Lemma PcmCombineCtxt_ret (qs : list P) : (forall q, q ∈ qs -> cte_map (GetCostModel q) (cm q)) -> PcmCombineCtxt qs ⤳ (fun pcm => cte_map pcm (combined qs)).
Proof.
  intros Hcm. unfold PcmCombineCtxt. eapply returns_mono; [eapply (eq_ind _ (fun m => m ⤳ _)); [apply (combine_children (map Some qs))|]|].
  - intros q (q' & [= ->] & Hq)%list_elem_of_fmap. by apply Hcm.
  - destruct CCTEMap_ctor; [|done]. cbn [mbind outcome_bind]. by rewrite for_each_map.
  - intros pcm Hpcm. replace (omap (fun c => c) (map Some qs)) with qs in Hpcm; [done|]. clear. induction qs; [done|]. cbn. by f_equal.
Qed.

(** The requirement of the last child and that of the whole *)
Lemma last_child_satisfies p before R : map_Forall wf_entry (cm p) -> (forall q, q ∈ before -> map_Forall wf_entry (cm q)) -> agree (p :: before) ->
  (forall q id r, q ∈ p :: before -> R !! id = Some r -> ect_at (cm q) id EctProducer -> r_ect r = EctProducer) ->
  (forall q, q ∈ before -> satisfies (cm q) (all_optional R)) ->
  forall W, (forall id ect, ect_at W id ect <-> exists q, q ∈ p :: before /\ ect_at (cm q) id ect) ->
  satisfies W R <-> satisfies (cm p) (unresolved_req R (combined before)).
Proof.
  intros Hwp Hwb Hagree Hprod Hbefore W HW. assert (agree before) as Hab by (intros q1 q2 i a b H1 H2; apply Hagree; by right).
  assert (Hcons : forall q id, q ∈ before -> ect_at (cm q) id EctConsumer -> exists r, R !! id = Some r /\ r_ect r = EctConsumer).
  { intros q id Hq Hc. apply Hbefore, satisfies_ect in Hq as [_ Hq]. apply Hq in Hc as (r & Hr & Hc). unfold all_optional in Hr.
    rewrite lookup_fmap in Hr. apply fmap_Some in Hr as (r0 & Hr0 & ->). by exists r0. }
  rewrite !satisfies_ect. split.
  - intros [Hreq Hc]. split.
    + intros id r (r0 & Hr0 & ->)%unresolved_req_lookup Hr. cbn in Hr |- *. apply andb_prop in Hr as [Hr Hnone%bool_decide_eq_true].
      apply Hreq in Hr0; [|done]. apply HW in Hr0 as (q & [->|Hq]%elem_of_cons & He); [done|].
      destruct He as (e & He & _). rewrite (combined_none before id Hab) in Hnone. by rewrite (Hnone q Hq) in He.
    + intros id He. destruct (Hc id) as (r & Hr & Hrc); [apply HW; exists p; split; [by left|done]|].
      eexists. split; [apply unresolved_req_lookup; by exists r|done].
  - intros [Hreq Hc]. split.
    + intros id r Hr Hrr. destruct (decide (combined before !! id = None)) as [Hnone|Hsome].
      * apply HW. exists p. split; [by left|]. apply (Hreq id (set_required true r)); [|done].
        apply unresolved_req_lookup. exists r. split; [done|]. by rewrite Hrr, bool_decide_true.
      * apply not_eq_None_Some, ect_at_some in Hsome as [ect He]. pose proof He as (q & Hq & Hqe)%combined_ect; [|done].
        assert (ect = r_ect r) as <-; [|apply HW; exists q; split; [by right|done]].
        destruct (ect_at_kind _ _ _ (Hwb q Hq) Hqe) as [-> | ->].
        -- symmetry. apply (Hprod q id r); [by right|done|done].
        -- apply Hcons in Hqe as (r' & Hr' & Hrc); [|done]. congruence.
    + intros id (q & [->|Hq]%elem_of_cons & He)%HW; [|by eapply Hcons].
      apply Hc in He as (r & (r0 & Hr0 & ->)%unresolved_req_lookup & Hrc). eauto.
Qed.
End Children.

(** ** Joins and unions *)

Definition is_scalar (c : option P) : bool := match c with None => true | Some _ => false end.

(** The children of an operator: those optimized before [p], in the order of their
    optimization, [p], and scalar ones after it *)
Definition children_of (eceo : EChildExecOrder) (before : list (option P)) p (n : nat) : list (option P) :=
  match eceo with
  | EceoLeftToRight => before ++ Some p :: replicate n None
  | EceoRightToLeft => replicate n None ++ Some p :: rev before
  end.
Definition last_index (eceo : EChildExecOrder) (before : list (option P)) (n : nat) : nat :=
  match eceo with EceoLeftToRight => length before | EceoRightToLeft => n end.
Definition earlier (eceo : EChildExecOrder) (before : list (option P)) (n i : nat) : Prop :=
  match eceo with EceoLeftToRight => i < length before | EceoRightToLeft => n < i end.

Lemma first_false_skip n (l : list bool) : first_false (replicate n true ++ false :: l) = Some n.
Proof. induction n as [|n IH]; [done|]. cbn. by rewrite IH. Qed.

Lemma scalars_none n : map is_scalar (replicate n None) = replicate n true.
Proof. induction n as [|n IH]; [done|]. cbn. by rewrite IH. Qed.

Lemma rev_true n : rev (replicate n true) = replicate n true.
Proof. induction n as [|n IH]; [done|]. cbn. rewrite IH. symmetry. apply (replicate_S_end n true). Qed.

Lemma first_scalars (n : nat) p (l : list (option P)) : UlFirstNonScalarChild (map is_scalar (replicate n None ++ Some p :: l)) = Some n.
Proof. unfold UlFirstNonScalarChild. rewrite map_app. rewrite scalars_none. apply first_false_skip. Qed.

Lemma last_scalars (n : nat) p (l : list (option P)) : UlLastNonScalarChild (map is_scalar (l ++ Some p :: replicate n None)) = Some (length l).
Proof.
  unfold UlLastNonScalarChild. rewrite map_app, rev_app_distr. cbn [map rev is_scalar]. rewrite scalars_none, rev_true, <- app_assoc. cbn [app].
  rewrite first_false_skip, length_app, length_map. cbn. rewrite length_replicate. f_equal. lia.
Qed.

Lemma PcterNAry_optional eceo before p n i pcter ctxt : earlier eceo before n i ->
  PcterNAry eceo (map is_scalar (children_of eceo before p n)) pcter i ctxt = PcterAllOptional pcter.
Proof.
  intros Hi. unfold PcterNAry. destruct eceo; cbn [children_of earlier] in *; [rewrite last_scalars|rewrite first_scalars];
    by rewrite (proj2 (Nat.ltb_lt _ _) Hi).
Qed.

Lemma PcterNAry_last eceo before p n pcter ctxt :
  PcterNAry eceo (map is_scalar (children_of eceo before p n)) pcter (last_index eceo before n) ctxt = (pcm ← PcmCombineCtxt ctxt; PcterUnresolved pcter pcm).
Proof.
  unfold PcterNAry. destruct eceo; cbn [children_of last_index]; [rewrite last_scalars|rewrite first_scalars];
    by rewrite (proj2 (Nat.ltb_ge _ _) (le_n _)).
Qed.

Lemma plans_of_children eceo before p n q : q ∈ omap (fun c => c) (children_of eceo before p n) <-> q ∈ p :: omap (fun c => c) before.
Proof.
  rewrite !list_elem_of_omap, elem_of_cons, list_elem_of_omap. destruct eceo; cbn [children_of].
  - setoid_rewrite elem_of_app. setoid_rewrite elem_of_cons. split.
    + intros (x & [Hx|[->|Hx%elem_of_replicate]] & E); [right; eauto|left; congruence|naive_solver].
    + intros [->|(x & Hx & E)]; eauto.
  - setoid_rewrite elem_of_app. setoid_rewrite elem_of_cons. assert (forall x, x ∈ rev before <-> x ∈ before) as Hrev by (intros x; by rewrite list_elem_of_In, <- in_rev, <- list_elem_of_In). setoid_rewrite Hrev. split.
    + intros (x & [Hx%elem_of_replicate|[->|Hx]] & E); [naive_solver|left; congruence|right; eauto].
    + intros [->|(x & Hx & E)]; eauto.
Qed.

(** C12: The CTE requirements of the children of a join or a union, in either order of
    their optimization: if no CTE is produced in one child and consumed in another or
    by the requirement, then every child but the last is asked for the optional
    version, and once those are satisfied, the last child satisfies what it is asked
    for exactly if the CTE map of the whole satisfies the requirement. No assertion
    fails on the way. *)
Theorem nary_requirements eceo (before : list (option P)) p n pcter pcter0 R (cm : P -> gmap N (CCTEMapEntry P)) :
  let ctxt := omap (fun c => c) before in
  let children := children_of eceo before p n in
  cte_req pcter R -> (forall q, q ∈ p :: ctxt -> cte_map (GetCostModel q) (cm q)) -> agree cm (p :: ctxt) ->
  (forall q id r, q ∈ p :: ctxt -> R !! id = Some r -> ect_at (cm q) id EctProducer -> r_ect r = EctProducer) ->
  PcterAllOptional pcter = Ret pcter0 -> (forall q, q ∈ ctxt -> FSatisfies (GetCostModel q) pcter0 = Ret true) ->
  (forall i prev, earlier eceo before n i -> PcterNAry eceo (map is_scalar children) pcter i prev = Ret pcter0) /\
  (PcterNAry eceo (map is_scalar children) pcter (last_index eceo before n) ctxt ⤳ (fun pcterLast =>
    PcmDerive children ⤳ (fun pcm => exists b, FSatisfies (GetCostModel p) pcterLast = Ret b /\ FSatisfies pcm pcter = Ret b))).
Proof.
  intros ctxt children HR Hcm Hagree Hprod Hopt Hbefore. split.
  { intros i prev Hi. unfold children. by rewrite PcterNAry_optional. }
  assert (cte_req pcter0 (all_optional R)) as HR0.
  { destruct (PcterAllOptional_ret pcter R HR) as (x & E & Hx). congruence. }
  unfold children. rewrite PcterNAry_last. eapply returns_bind; [apply (PcmCombineCtxt_ret cm); intros q Hq; apply Hcm; by right|]. intros pcmC HC.
  eapply returns_mono; [apply (PcterUnresolved_ret pcter pcmC R _ HR HC)|]. intros pcterLast Hlast. fold children. unfold PcmDerive.
  rewrite bind_assert by (unfold children; destruct eceo; cbn; rewrite length_app; cbn; destruct (length _); done).
  eapply returns_mono; [apply (combine_children cm)|].
  - intros q Hq. apply Hcm. apply (plans_of_children eceo before p n). apply list_elem_of_omap. by exists (Some q).
  - intros pcm Hpcm. destruct (FSatisfies_ret _ _ _ _ Hpcm HR) as (b & Eb & Hb).
    destruct (FSatisfies_ret _ _ _ _ (Hcm p (list_elem_of_here _ _)) Hlast) as (b' & Eb' & Hb'). exists b'. split; [done|]. rewrite Eb. f_equal.
    apply eq_true_iff_eq. rewrite Hb, Hb'. apply (last_child_satisfies cm p ctxt R); [apply Hcm; left|intros q Hq; apply Hcm; by right|done|done| |].
    + intros q Hq. destruct (FSatisfies_ret _ _ _ _ (Hcm q (list_elem_of_further _ _ _ Hq)) HR0) as (c & Ec & Hc). apply Hc. rewrite Hbefore in Ec by done. by injection Ec.
    + intros id ect. rewrite combined_ect.
      * split; intros (q & Hq & He); exists q; split; try done; by apply (plans_of_children eceo before p n).
      * intros q q' i a b1 Hq Hq'. apply Hagree; by apply (plans_of_children eceo before p n).
Qed.

(** ** Sequences *)

Lemma sequence_satisfies M0 M1 R id e : map_Forall wf_entry M0 -> map_Forall wf_entry M1 -> sole_producer M0 id e -> satisfies M0 (all_optional R) ->
  (forall i r, R !! i = Some r -> m_fRequired r = true -> r_ect r = EctConsumer) -> (forall r, R !! id = Some r -> r_ect r = EctProducer) ->
  (forall i, ect_at M1 i EctProducer -> M0 !! i = None) ->
  satisfies M1 (sequence_req R M0 id e) <-> satisfies (combine M0 M1) R /\ combine M0 M1 !! id = None.
Proof.
  intros Hw0 Hw1 Hsole [_ Hsat] Hreq Hprod Hapart. pose proof Hsole as (He & Hep & Hone).
  assert (Hcons : forall i, ect_at M0 i EctConsumer -> exists r, R !! i = Some r /\ r_ect r = EctConsumer).
  { intros i (x & Hx & Hc). destruct (Hsat i x Hx Hc) as (r & Hr & Hrc). unfold all_optional in Hr. rewrite lookup_fmap in Hr.
    apply fmap_Some in Hr as (r0 & Hr0 & ->). by exists r0. }
  assert (Hkind : forall i, i <> id -> is_Some (M0 !! i) -> ect_at M0 i EctConsumer).
  { intros i Hi [ect Hx]%ect_at_some. destruct (ect_at_kind _ _ _ Hw0 Hx) as [->| ->]; [|done]. destruct Hx as (x & Hx & Hpx). by destruct Hi; eapply Hone. }
  assert (Hc1 : forall i, is_Some (M0 !! i) -> is_Some (M1 !! i) -> ect_at M1 i EctConsumer).
  { intros i H0 [ect Hx]%ect_at_some. destruct (ect_at_kind _ _ _ Hw1 Hx) as [->| ->]; [|done]. apply Hapart in Hx. rewrite Hx in H0. by destruct H0. }
  assert (Hid : combine M0 M1 !! id = None <-> ect_at M1 id EctConsumer).
  { rewrite combine_lookup, He, Hep. split.
    - destruct (M1 !! id) as [x|] eqn:Ex; [|done]. intros _. apply Hc1; eauto.
    - intros (x & -> & ->). by rewrite bool_decide_false. }
  assert (Hother : forall i ect, i <> id -> ect_at (combine M0 M1) i ect <-> ect_at M0 i ect \/ ect_at M1 i ect).
  { intros i ect Hi. apply combine_ect. intros a b Ha Hb. pose proof (Hkind i Hi (proj2 (ect_at_some _ _) (ex_intro _ _ Ha))) as Ha'.
    pose proof (Hc1 i (proj2 (ect_at_some _ _) (ex_intro _ _ Ha)) (proj2 (ect_at_some _ _) (ex_intro _ _ Hb))) as Hb'.
    rewrite (ect_at_inj _ _ _ _ Ha Ha'), (ect_at_inj _ _ _ _ Hb Hb'). done. }
  assert (Hseq : forall i r, i <> id -> R !! i = Some r -> sequence_req R M0 id e !! i = Some (set_required (m_fRequired r && bool_decide (M0 !! i = None)) r)).
  { intros i r Hi Hr. unfold sequence_req. rewrite lookup_insert_ne by done. apply unresolved_req_lookup. eauto. }
  rewrite Hid, !satisfies_ect. split.
  - intros [Hr1 Hc]. assert (ect_at M1 id EctConsumer) as Hcid by (apply (Hr1 id (consumer_of id e)); [apply lookup_insert_eq|done]). split; [split|done].
    + intros i r Hr Hrr. pose proof (Hreq _ _ Hr Hrr) as Hrc. assert (i <> id) as Hi by (intros ->; rewrite (Hprod _ Hr) in Hrc; done).
      rewrite Hother by done. rewrite Hrc. destruct (M0 !! i) as [x|] eqn:Ex; [left; apply Hkind; eauto|right].
      rewrite <- Hrc. apply (Hr1 i (set_required true r)); [|done]. rewrite (Hseq i r) by done. by rewrite Hrr, Ex, bool_decide_true.
    + intros i Hci. destruct (decide (i = id)) as [->|Hi]; [destruct Hci as (x & Hx & _); apply Hid in Hcid; congruence|].
      apply (Hother i _ Hi) in Hci as [Hci|Hci]; [by apply Hcons|]. apply Hc in Hci as (r & Hr & Hrc). unfold sequence_req in Hr.
      rewrite lookup_insert_ne in Hr by done. apply unresolved_req_lookup in Hr as (r0 & Hr0 & ->). eauto.
  - intros [[Hr1 Hc] Hcid]. split.
    + intros i r Hr Hrr. destruct (decide (i = id)) as [->|Hi].
      * unfold sequence_req in Hr. rewrite lookup_insert_eq in Hr. injection Hr as <-. done.
      * unfold sequence_req in Hr. rewrite lookup_insert_ne in Hr by done. apply unresolved_req_lookup in Hr as (r0 & Hr0 & ->). cbn in Hrr |- *.
        apply andb_prop in Hrr as [Hrr Hnone%bool_decide_eq_true]. pose proof (proj1 (Hother i _ Hi) (Hr1 _ _ Hr0 Hrr)) as [(x & Hx & _)|Hx]; [congruence|done].
    + intros i Hci. destruct (decide (i = id)) as [->|Hi]; [exists (consumer_of id e); split; [apply lookup_insert_eq|done]|].
      destruct (Hc i) as (r & Hr & Hrc); [apply Hother; auto|]. eexists. split; [by apply Hseq|done].
Qed.

(** C11: A sequence whose first child produces a CTE: if the first child satisfies what
    it is asked for, the second child is asked to consume the CTE with the properties
    of its producer, next to what the first child left open. The second child
    satisfies that exactly if the CTE map of the whole satisfies the requirement of
    the sequence and the CTE is resolved in it. No assertion fails on the way. *)
Theorem sequence_requirements p0 p1 pcter pcter0 R M0 M1 id e :
  cte_req pcter R -> cte_map (GetCostModel p0) M0 -> cte_map (GetCostModel p1) M1 -> sole_producer M0 id e ->
  (forall i r, R !! i = Some r -> m_fRequired r = true -> r_ect r = EctConsumer) -> (forall r, R !! id = Some r -> r_ect r = EctProducer) ->
  (forall i, ect_at M1 i EctProducer -> M0 !! i = None) ->
  PcteRequiredSequence 2 pcter 0 [] = Ret pcter0 -> FSatisfies (GetCostModel p0) pcter0 = Ret true ->
  PcteRequiredSequence 2 pcter 1 [p0] ⤳ (fun pcter1 =>
    Pdpplan pcter1 id = Ret (m_pdpplan e) /\
    (PcmDerive [Some p0; Some p1] ⤳ (fun pcm => exists b, FSatisfies (GetCostModel p1) pcter1 = Ret b /\
      (b = true <-> FSatisfies pcm pcter = Ret true /\ PcmeLookup pcm id = Ret None)))).
Proof.
  intros HR H0 H1 Hsole Hreq Hprod Hapart Hopt Hs0. set (cm := fun (_ : P) => M0).
  assert (satisfies M0 (all_optional R)) as Hsat.
  { destruct (PcterAllOptional_ret pcter R HR) as (x & Ex & Hx). change (PcteRequiredSequence 2 pcter 0 []) with (PcterAllOptional pcter) in Hopt. rewrite Ex in Hopt. injection Hopt as <-.
    destruct (FSatisfies_ret _ _ _ _ H0 Hx) as (b & Eb & Hb). apply Hb. congruence. }
  change (PcteRequiredSequence 2 pcter 1 [p0]) with (pcm ← PcmCombineCtxt [p0]; PcterUnresolvedSequence pcter pcm [p0]).
  eapply returns_bind; [apply (PcmCombineCtxt_ret cm [p0]); by intros q ->%list_elem_of_singleton|]. intros pcm0 Hpcm0. unfold combined in Hpcm0. cbn in Hpcm0. rewrite combine_empty in Hpcm0.
  eapply returns_mono; [by apply (PcterUnresolvedSequence_ret pcter pcm0 p0 [] R M0 id e)|]. intros pcter1 Hpcter1. split.
  { unfold Pdpplan. rewrite (PcreLookup_ret _ _ _ Hpcter1). unfold sequence_req. by rewrite lookup_insert_eq. }
  unfold PcmDerive. rewrite bind_assert by done. eapply returns_bind; [apply CCTEMap_ctor_ret|]. intros m0 Hm0. cbn [for_each].
  eapply returns_bind; [by apply (PcmCombine_ret _ _ ∅ M0)|]. intros m1 Hm1. rewrite combine_empty in Hm1.
  eapply returns_bind; [by apply (PcmCombine_ret _ _ M0 M1)|]. intros pcm Hpcm. apply returns_ret.
  destruct (FSatisfies_ret _ _ _ _ H1 Hpcter1) as (b & Eb & Hb). destruct (FSatisfies_ret _ _ _ _ Hpcm HR) as (c & Ec & Hc).
  exists b. split; [done|]. rewrite Ec, (PcmeLookup_ret _ _ _ Hpcm), Hb.
  rewrite (sequence_satisfies M0 M1 R id e (proj2 H0) (proj2 H1)) by done. split.
  - intros [Hsat' Hnone]. split; [by rewrite (proj2 Hc)|by rewrite Hnone].
  - intros [[= ->] [= ->]]. split; [by apply Hc|done].
Qed.

(** ** Equality and hashes *)

Lemma holds_size {T} (m : HashMap.CHashMap N T) (M : gmap N T) : holds m M -> (N.of_nat (size M) < HashMap.ULONG_MOD)%N -> Size m = N.of_nat (size M).
Proof.
  intros (l & Hl & ->) Hlt. pose proof (distinct_fst l (ct_distinct _ _ (ls_contents _ _ Hl))) as Hn.
  unfold Size. rewrite (ls_size _ _ Hl), map_size_list_to_map in * by done. by apply N.mod_small.
Qed.

Lemma FSubset_ret pcm other M M' : cte_map pcm M -> cte_map other M' -> (N.of_nat (size M) < ULONG_MOD)%N -> (N.of_nat (size M') < ULONG_MOD)%N ->
  FSubset pcm other ⤳ (fun b => b = true <-> forall id ect, ect_at M id ect -> ect_at M' id ect).
Proof.
  intros HM HM' Hlt Hlt'. unfold FSubset. rewrite (holds_size pcm M), (holds_size other M') by (done || apply HM || apply HM').
  destruct (N.ltb_spec (N.of_nat (size M')) (N.of_nat (size M))) as [Hsz|Hsz].
  - apply returns_ret. split; [done|]. intros Hall. exfalso. assert (dom M ⊆ dom M') as Hsub.
    { intros id [e He]%elem_of_dom. apply elem_of_dom. destruct (Hall id (m_ect e)) as (e' & He' & _); [by exists e|]. eauto. }
    apply subseteq_size in Hsub. rewrite !size_dom in Hsub. lia.
  - eapply returns_mono; [apply (for_all_entries _ M _ (fun id e => ect_at M' id (m_ect e))); [apply HM|]|].
    + intros id e He. cbn. destruct (proj2 HM _ _ He) as (-> & _). rewrite (PcmeLookup_ret _ _ _ HM'). cbn. apply returns_ret.
      unfold ect_at. destruct (M' !! id) as [o|]; [rewrite bool_decide_eq_true|]; naive_solver.
    + intros b ->. unfold map_Forall, ect_at. naive_solver.
Qed.

Lemma Equals_ret pcm other M M' : cte_map pcm M -> cte_map other M' -> (N.of_nat (size M) < ULONG_MOD)%N -> (N.of_nat (size M') < ULONG_MOD)%N ->
  Equals pcm other ⤳ (fun b => b = true <-> forall id ect, ect_at M id ect <-> ect_at M' id ect).
Proof.
  intros HM HM' Hlt Hlt'. unfold Equals. rewrite (holds_size pcm M), (holds_size other M') by (done || apply HM || apply HM').
  assert (Hdom : forall A B : gmap N (CCTEMapEntry P), (forall id ect, ect_at A id ect -> ect_at B id ect) -> dom A ⊆ dom B).
  { intros A B Hall id [e He]%elem_of_dom. apply elem_of_dom. destruct (Hall id (m_ect e)) as (e' & He' & _); [by exists e|]. eauto. }
  destruct (N.eqb_spec (N.of_nat (size M)) (N.of_nat (size M'))) as [Hsz|Hsz].
  - eapply returns_mono; [by apply FSubset_ret|]. intros b ->. split; [|naive_solver]. intros Hall id ect. split; [apply Hall|].
    intros He'. assert (dom M = dom M') as Hd. { apply set_eq. apply set_subseteq_size_equiv; [by apply Hdom|]. rewrite !size_dom. lia. }
    pose proof He' as (e' & Hl & _). assert (is_Some (M !! id)) as [ect0 H0]%ect_at_some by (apply elem_of_dom; rewrite Hd; apply elem_of_dom; eauto).
    pose proof (Hall _ _ H0) as H0'. by rewrite (ect_at_inj _ _ _ _ He' H0').
  - apply returns_ret. split; [done|]. intros Hall. exfalso. apply Hsz. f_equal.
    rewrite <- !size_dom. f_equal. apply (anti_symm (⊆)); apply Hdom; intros; by apply Hall.
Qed.
End Requirements.

(** ** At concrete inputs *)

#[warnings="-register-all"]
Inductive plan := mkPlan (plan_id : N) (plan_ctes : HashMap.CHashMap N (CCTEMapEntry plan)).
Definition plan_id (p : plan) : N := match p with mkPlan i _ => i end.

#[local] Instance plan_props : PlanProps plan := {
  GetCostModel p := match p with mkPlan _ m => m end;
  PlanEquals p q := (plan_id p =? plan_id q)%N;
  PlanHashValue p := HashULONG (plan_id p);
}.

Definition no_entries {T} : HashMap.CHashMap N T := HashMap.mkMap 0 0 [] [] [].
Definition get {A} (default : A) (m : outcome A) : A := match m with Ret a => a | Abort _ => default end.

Lemma get_ret {A} (d : A) (m : outcome A) (Q : A -> Prop) : (m ⤳ Q) -> Q (get d m).
Proof. intros (a & -> & Ha). exact Ha. Qed.

(** A scan, the consumer of a CTE, its producer over a scan *)
Definition scan : plan := mkPlan 0 (get no_entries CCTEMap_ctor).
Definition use (id : N) : plan := mkPlan id (get no_entries (PcmDeriveConsumer id)).
Definition make (id : N) : plan := mkPlan id (get no_entries (PcmDeriveProducer id scan)).

Definition consumes (id : N) : gmap N (CCTEMapEntry plan) := {[ id := mkEntry id EctConsumer None ]}.
Definition produces (id : N) : gmap N (CCTEMapEntry plan) := {[ id := mkEntry id EctProducer (Some scan) ]}.

Lemma use_ctes id : cte_map (GetCostModel (use id)) (consumes id).
Proof.
  apply (get_ret no_entries (PcmDeriveConsumer id) (fun m => cte_map m (consumes id))). unfold PcmDeriveConsumer. eapply returns_bind; [apply CCTEMap_ctor_ret|]. intros m Hm.
  apply (CteInsert_ret m ∅ id (mkEntry id EctConsumer None) Hm); [done|apply lookup_empty].
Qed.

Lemma make_ctes id : cte_map (GetCostModel (make id)) (produces id).
Proof.
  apply (get_ret no_entries (PcmDeriveProducer id scan) (fun m => cte_map m (produces id))). unfold PcmDeriveProducer. eapply returns_bind; [apply CCTEMap_ctor_ret|]. intros m Hm.
  eapply returns_bind; [apply (CteInsert_ret m ∅ id (mkEntry id EctProducer (Some scan)) Hm); [by split_and!; [| |eexists]|apply lookup_empty]|].
  intros m1 Hm1. assert (cte_map (GetCostModel scan) ∅) as H0 by apply (get_ret no_entries _ (fun m => cte_map m ∅) CCTEMap_ctor_ret).
  eapply returns_mono; [apply (PcmCombine_ret _ _ _ _ Hm1 H0)|]. intros pcm Hpcm. replace (produces id) with (combine (<[id := mkEntry id EctProducer (Some scan)]> ∅ : gmap N (CCTEMapEntry plan)) ∅); [done|].
  apply map_eq. intros i. rewrite combine_lookup, lookup_empty. unfold produces. rewrite insert_empty. by destruct (_ !! i).
Qed.

(** A requirement with one entry, or with two *)
Definition entry_of (id : N) (ect : ECteType) (b : bool) : CCTEReqEntry plan := mkReqEntry id ect b (Some scan).
Definition insert_of (q : CCTEReq plan) (r : CCTEReqEntry plan) : outcome (CCTEReq plan) := ReqInsert q (r_id r) (r_ect r) (m_fRequired r) (r_pdpplan r).
Definition need (l : list (CCTEReqEntry plan)) : CCTEReq plan := get (mkReq no_entries []) (q ← CCTEReq_ctor; for_each l (fun r q => insert_of q r) q).

Lemma need_one id ect b : ect <> EctSentinel -> cte_req (need [entry_of id ect b]) {[ id := entry_of id ect b ]}.
Proof.
  intros He. apply (get_ret (mkReq no_entries []) _ (fun q => cte_req q {[ id := entry_of id ect b ]})). eapply returns_bind; [apply CCTEReq_ctor_ret|]. intros q Hq. cbn [for_each].
  eapply returns_bind; [apply (ReqInsert_ret q ∅ id (entry_of id ect b) Hq); [by split_and!; [| |right; eexists]|apply lookup_empty]|]. intros q1 Hq1. by apply returns_ret.
Qed.

Lemma need_two i j b : i <> j -> cte_req (need [entry_of i EctConsumer b; entry_of j EctConsumer b]) (<[ j := entry_of j EctConsumer b ]> {[ i := entry_of i EctConsumer b ]}).
Proof.
  intros Hij. apply (get_ret (mkReq no_entries []) _ (fun q => cte_req q (<[ j := entry_of j EctConsumer b ]> {[ i := entry_of i EctConsumer b ]}))). eapply returns_bind; [apply CCTEReq_ctor_ret|]. intros q Hq. cbn [for_each].
  eapply returns_bind; [apply (ReqInsert_ret q ∅ i (entry_of i EctConsumer b) Hq); [by split_and!; [| |right; eexists]|apply lookup_empty]|]. intros q1 Hq1.
  eapply returns_bind; [apply (ReqInsert_ret q1 _ j (entry_of j EctConsumer b) Hq1); [by split_and!; [| |right; eexists]|by rewrite lookup_insert_ne]|].
  intros q2 Hq2. by apply returns_ret.
Qed.

Lemma consumes_ect id i ect : ect_at (consumes id) i ect -> ect = EctConsumer.
Proof. intros (e & He & <-). unfold consumes in He. by apply lookup_singleton_Some in He as [<- <-]. Qed.

Definition two : CCTEReq plan := need [entry_of 1 EctConsumer true; entry_of 2 EctConsumer true].

(** A join of two consumers, both required *)
Lemma nary_requirements_witness :
  PcterNAry EceoLeftToRight [false; false] two 1 [use 1] ⤳ (fun pcterLast => PcmDerive [Some (use 1); Some (use 2)] ⤳ (fun pcm =>
    exists b, FSatisfies (GetCostModel (use 2)) pcterLast = Ret b /\ FSatisfies pcm two = Ret b)).
Proof.
  refine (proj2 (nary_requirements EceoLeftToRight [Some (use 1)] (use 2) 0 two (get two (PcterAllOptional two)) _ (fun p => consumes (plan_id p)) _ _ _ _ _ _)).
  - by apply need_two.
  - intros q [->|[->|?%not_elem_of_nil]%elem_of_cons]%elem_of_cons; [apply (use_ctes 2)|apply (use_ctes 1)|done].
  - intros q q' i a b _ _ ->%consumes_ect ->%consumes_ect. done.
  - intros q i r _ _ [=]%consumes_ect.
  - vm_compute. reflexivity.
  - intros q [->|?%not_elem_of_nil]%elem_of_cons; [vm_compute; reflexivity|done].
Defined.

(** A sequence of a producer and its consumer, under the requirement of the root *)
Definition root_req : CCTEReq plan := need [entry_of 1 EctProducer false].

Lemma sequence_requirements_witness :
  PcteRequiredSequence 2 root_req 1 [make 1] ⤳ (fun pcter1 => Pdpplan pcter1 1 = Ret (Some scan) /\
    (PcmDerive [Some (make 1); Some (use 1)] ⤳ (fun pcm => exists b, FSatisfies (GetCostModel (use 1)) pcter1 = Ret b /\
      (b = true <-> FSatisfies pcm root_req = Ret true /\ PcmeLookup pcm 1 = Ret None)))).
Proof.
  apply (sequence_requirements (make 1) (use 1) root_req (get root_req (PcterAllOptional root_req)) {[ 1%N := entry_of 1 EctProducer false ]} (produces 1) (consumes 1) 1 (mkEntry 1 EctProducer (Some scan))).
  - by apply need_one.
  - apply make_ctes.
  - apply use_ctes.
  - split_and!; [by apply lookup_singleton_eq|done|]. intros i e He. unfold produces in He. by apply lookup_singleton_Some in He as [<- <-].
  - by intros i r [<- <-]%lookup_singleton_Some.
  - by intros r [_ <-]%lookup_singleton_Some.
  - intros i [=]%consumes_ect.
  - vm_compute. reflexivity.
  - vm_compute. reflexivity.
Defined.

(** The hash of a map depends on the order in which it was filled, its equality does
    not: the maps of two consumers, combined in either order *)
Lemma equal_maps_hash_differently :
  (a ← PcmCombine (GetCostModel (use 1)) (GetCostModel (use 2)); b ← PcmCombine (GetCostModel (use 2)) (GetCostModel (use 1));
   equal ← Equals a b; h1 ← HashValue a; h2 ← HashValue b; mret (equal, (h1 =? h2)%N)) = Ret (true, false).
Proof. vm_compute. reflexivity. Qed.

Lemma equal_requirements_hash_differently :
  let a := need [entry_of 1 EctConsumer true; entry_of 2 EctConsumer true] in
  let b := need [entry_of 2 EctConsumer true; entry_of 1 EctConsumer true] in
  (equal ← ReqEquals a b; h1 ← ReqHashValue a; h2 ← ReqHashValue b; mret (equal, (h1 =? h2)%N)) = Ret (true, false).
Proof. vm_compute. reflexivity. Qed.
End CteProps.
