(* ===== verification/OrderSpec.v ===== *)
(** * Order and rewindability of plans

    Source: [COrderSpec], [CEnfdOrder], [CRewindabilitySpec] and [CEnfdRewindability]
    of libgpopt/src/base. An order is an array of order expressions: a sort operator, a
    column and the treatment of nulls. A column reference is a number, its id; a column
    set is the finite set of its members; the sort operators, which are metadata ids,
    are the class [MdIds], and the column factory is the class [ColumnFactory]. *)
From stdpp Require Import base numbers list gmap.
From S2P Require Import Prelude BitVector BitSet SetHash HashMap CteMap CteSpec.
Local Open Scope N_scope.

(** [IMDId] *)
Class MdIds (I : Type) := { IsValid : I -> bool; MdIdEquals : I -> I -> bool }.
Class MdIdsLaws (I : Type) `{MdIds I} : Prop := {
  mdid_refl (a : I) : MdIdEquals a a = true;
  mdid_sym (a b : I) : MdIdEquals a b = true -> MdIdEquals b a = true;
  mdid_trans (a b c : I) : MdIdEquals a b = true -> MdIdEquals b c = true -> MdIdEquals a c = true;
}.

(** [CColumnFactory::PcrCopy], and the hash of the address of a column reference *)
Class ColumnFactory (F : Type) := { PcrCopy : N -> F -> N * F; HashPtr : N -> N }.

Inductive ENullTreatment := EntLast | EntFirst | EntAuto.
Inductive EOrderMatching := EomSatisfy | EomSentinel.
Inductive ERewindabilityType := ErtMarkRestore | ErtRewindable | ErtRescannable | ErtNone.
Inductive EMotionHazardType := EmhtMotion | EmhtNoMotion.
Inductive ERewindabilityMatching := ErmSatisfy | ErmSentinel.
#[export] Instance ENullTreatment_eq_dec : EqDecision ENullTreatment.
Proof. solve_decision. Defined.
#[export] Instance EOrderMatching_eq_dec : EqDecision EOrderMatching.
Proof. solve_decision. Defined.
#[export] Instance ERewindabilityMatching_eq_dec : EqDecision ERewindabilityMatching.
Proof. solve_decision. Defined.
#[export] Instance ERewindabilityType_eq_dec : EqDecision ERewindabilityType.
Proof. solve_decision. Defined.
#[export] Instance EMotionHazardType_eq_dec : EqDecision EMotionHazardType.
Proof. solve_decision. Defined.

Module OrderSpec.
Import HashMap CteMap CteSpec.
Open Scope outcome_scope.

Record COrderExpression (I : Type) := mkOE { m_mdid : I; m_pcr : N; m_ent : ENullTreatment }.
Arguments mkOE {I} _ _ _.
Arguments m_mdid {I} _.
Arguments m_pcr {I} _.
Arguments m_ent {I} _.

(** [m_pdrgpoe] *)
Definition COrderSpec (I : Type) : Type := list (COrderExpression I).

Section Order.
Context {I F : Type} `{MdIds I} `{ColumnFactory F}.
Implicit Types (pos : COrderSpec I) (poe : COrderExpression I) (pcrs : gset N) (colref_mapping : CHashMap N N).

Definition COrderExpression_ctor (mdid : I) (colref : N) (ent : ENullTreatment) : outcome (COrderExpression I) :=
  _ ← GPOS_ASSERT (IsValid mdid);
  mret (mkOE mdid colref ent).

Definition OrderExpressionMatches (this poe : COrderExpression I) : bool :=
  MdIdEquals (m_mdid poe) (m_mdid this) && (m_pcr poe =? m_pcr this) && bool_decide (m_ent poe = m_ent this).

Definition COrderSpec_ctor : COrderSpec I := [].

Definition Append pos (mdid : I) (colref : N) (ent : ENullTreatment) : outcome (COrderSpec I) :=
  poe ← COrderExpression_ctor mdid colref ent;
  mret (pos ++ [poe]).

Definition OrderFSatisfies (this pos : COrderSpec I) : outcome bool :=
  let arity := length pos in
  if (length this <? arity)%nat then mret false else
  for_all (seq 0 arity) (fun ul => a ← subscript this ul; b ← subscript pos ul; mret (OrderExpressionMatches a b)).

Definition OrderMatches (this pos : COrderSpec I) : outcome bool :=
  fMatch ← (if (length this =? length pos)%nat then OrderFSatisfies this pos else mret false);
  fReverse ← (if fMatch : bool then OrderFSatisfies pos this else mret true);
  _ ← GPOS_ASSERT fReverse;
  mret fMatch.

Definition OrderHashValue pos : N :=
  fold_left (fun ulHash poe => SetHash.CombineHashes ulHash (HashPtr (m_pcr poe))) pos 0.

(** The copy, the mapping and the column factory afterwards *)
Definition PosCopyWithRemappedColumns pos colref_mapping (must_exist : bool) (col_factory : F) : outcome (COrderSpec I * CHashMap N N * F) :=
  for_each pos (fun poe '(res, colref_mapping, col_factory) =>
    let colref := m_pcr poe in
    pcrMapped ← Find colref_mapping colref;
    '(pcrMapped, colref_mapping, col_factory) ←
      match pcrMapped with
      | Some pcrMapped => mret (pcrMapped, colref_mapping, col_factory)
      | None =>
          if must_exist then
            let '(pcrMapped, col_factory) := PcrCopy colref col_factory in
            '(result, colref_mapping) ← HashMap.Insert colref_mapping colref pcrMapped;
            _ ← GPOS_ASSERT result;
            mret (pcrMapped, colref_mapping, col_factory)
          else mret (colref, colref_mapping, col_factory)
      end;
    res ← Append res (m_mdid poe) pcrMapped (m_ent poe);
    mret (res, colref_mapping, col_factory)) (COrderSpec_ctor, colref_mapping, col_factory).

Definition PosExcludeColumns pos pcrs : outcome (COrderSpec I) :=
  for_each pos (fun poe res =>
    if bool_decide (m_pcr poe ∈ pcrs) then mret res else Append res (m_mdid poe) (m_pcr poe) (m_ent poe)) COrderSpec_ctor.

Definition ExtractCols pos pcrs : gset N := fold_left (fun pcrs poe => pcrs ∪ {[ m_pcr poe ]}) pos pcrs.
Definition PcrsUsed pos : gset N := ExtractCols pos ∅.
Definition GetColRefSet (pdrgpos : list (COrderSpec I)) : gset N := fold_left (fun pcrs pos => ExtractCols pos pcrs) pdrgpos ∅.

Definition PdrgposExclude (pdrgpos : list (COrderSpec I)) pcrsToExclude : outcome (list (COrderSpec I)) :=
  if (size pcrsToExclude =? 0)%nat then mret pdrgpos else mapM (fun pos => PosExcludeColumns pos pcrsToExclude) pdrgpos.

(** Arrays of orders, which may be null *)
Definition OrdersEqual (pdrgposFirst pdrgposSecond : option (list (COrderSpec I))) : outcome bool :=
  match pdrgposFirst, pdrgposSecond with
  | Some first, Some second =>
      if negb (length first =? length second)%nat then mret false else
      for_all (seq 0 (length first)) (fun ul => a ← subscript first ul; b ← subscript second ul; OrderMatches a b)
  | None, None => mret true
  | _, _ => mret false
  end.

Definition OrdersHashValue (pdrgpos : list (COrderSpec I)) (ulMaxSize : nat) : N :=
  fold_left (fun ulHash pos => SetHash.CombineHashes ulHash (OrderHashValue pos)) (take (Nat.min ulMaxSize (length pdrgpos)) pdrgpos) 0.

(** ** Orders as enforceable properties *)

Record CEnfdOrder := mkEnfdOrder { m_pos : COrderSpec I; m_eom : EOrderMatching }.

Definition CEnfdOrder_ctor pos (eom : EOrderMatching) : outcome CEnfdOrder :=
  _ ← GPOS_ASSERT (negb (bool_decide (eom = EomSentinel)));
  mret (mkEnfdOrder pos eom).

Definition EnfdOrderFCompatible (peo : CEnfdOrder) pos : outcome bool :=
  match m_eom peo with EomSatisfy => OrderFSatisfies pos (m_pos peo) | EomSentinel => mret false end.

Definition eom_number (eom : EOrderMatching) : N := match eom with EomSatisfy => 0 | EomSentinel => 1 end.
Definition EnfdOrderHashValue (peo : CEnfdOrder) : N := SetHash.CombineHashes (eom_number (m_eom peo) + 1) (OrderHashValue (m_pos peo)).

Definition EnfdOrderMatches (this peo : CEnfdOrder) : outcome bool :=
  if bool_decide (m_eom this = m_eom peo) then OrderMatches (m_pos this) (m_pos peo) else mret false.
End Order.
Arguments CEnfdOrder I : clear implicits.

(** ** Rewindability *)

Record CRewindabilitySpec := mkRewindability { m_rewindability : ERewindabilityType; m_motion_hazard : EMotionHazardType; m_origin_nl_join : bool }.

Definition RewindabilityMatches (this prs : CRewindabilitySpec) : bool :=
  bool_decide (m_rewindability this = m_rewindability prs) && bool_decide (m_motion_hazard this = m_motion_hazard prs).

Definition HasMotionHazard (prs : CRewindabilitySpec) : bool := bool_decide (m_motion_hazard prs = EmhtMotion).

Definition RewindabilityFSatisfies (this prs : CRewindabilitySpec) : bool :=
  let own := m_rewindability this in
  let required := m_rewindability prs in
  if bool_decide (required = ErtNone) then true
  else if bool_decide (own = ErtNone) then false
  else if bool_decide (own = ErtRescannable) && (bool_decide (required = ErtRewindable) || bool_decide (required = ErtMarkRestore)) then false
  else if bool_decide (own = ErtRewindable) && bool_decide (required = ErtMarkRestore) then false
  else if HasMotionHazard prs && HasMotionHazard this then false
  else true.

Definition HashEnum (n : N) : N := HashULONG n.
Definition RewindabilityHashValue (prs : CRewindabilitySpec) : N :=
  SetHash.CombineHashes
    (HashEnum (match m_rewindability prs with ErtMarkRestore => 0 | ErtRewindable => 1 | ErtRescannable => 2 | ErtNone => 3 end))
    (HashEnum (match m_motion_hazard prs with EmhtMotion => 0 | EmhtNoMotion => 1 end)).

Definition IsRewindable (prs : CRewindabilitySpec) : bool := bool_decide (m_rewindability prs = ErtRewindable) || bool_decide (m_rewindability prs = ErtMarkRestore).
Definition IsRescannable (prs : CRewindabilitySpec) : bool := bool_decide (m_rewindability prs = ErtRescannable).
Definition IsCheckRequired (prs : CRewindabilitySpec) : bool := negb (bool_decide (m_rewindability prs = ErtNone)).

(** Whether the spool that [AppendEnforcers] puts on top of a plan blocks: the trace
    flag for motion hazards, what is required, and what the plan has *)
Definition spool_eager (trace_motion_hazard : bool) (required derived : CRewindabilitySpec) : bool :=
  negb trace_motion_hazard || (HasMotionHazard required && HasMotionHazard derived).

(** ** Rewindability as an enforceable property *)

Record CEnfdRewindability := mkEnfdRewindability { m_prs : CRewindabilitySpec; m_erm : ERewindabilityMatching }.

Definition CEnfdRewindability_ctor (prs : CRewindabilitySpec) (erm : ERewindabilityMatching) : outcome CEnfdRewindability :=
  _ ← GPOS_ASSERT (negb (bool_decide (erm = ErmSentinel)));
  mret (mkEnfdRewindability prs erm).

Definition EnfdRewindabilityFCompatible (per : CEnfdRewindability) (prs : CRewindabilitySpec) : bool :=
  match m_erm per with ErmSatisfy => RewindabilityFSatisfies prs (m_prs per) | ErmSentinel => false end.

Definition erm_number (erm : ERewindabilityMatching) : N := match erm with ErmSatisfy => 0 | ErmSentinel => 1 end.
Definition EnfdRewindabilityHashValue (per : CEnfdRewindability) : N :=
  SetHash.CombineHashes (erm_number (m_erm per) + 1) (RewindabilityHashValue (m_prs per)).

Definition EnfdRewindabilityMatches (this per : CEnfdRewindability) : bool :=
  bool_decide (m_erm this = m_erm per) && RewindabilityMatches (m_prs this) (m_prs per).
End OrderSpec.
