(* ===== verification/OrderProps.v ===== *)
(** * What the satisfaction of orders and of rewindability means

    The properties of OrderSpec.v: rows that are sorted by an order are sorted by every
    order it satisfies, also after both are remapped to other columns; the satisfaction
    of rewindability is the table in the comment of its function. *)
From Stdlib Require Import Sorted.
From stdpp Require Import base numbers list gmap.
From S2P Require Import Prelude BitVector BitSet SetHash HashMap CteMap CteSpec OrderSpec.

Module OrderProps.
Import HashMap CteMap CteSpec OrderSpec.
Open Scope outcome_scope.

(** What a sort operator and a treatment of nulls say of two values *)
Class SortOperators (I V : Type) `{MdIds I} := {
  sort_le : I -> ENullTreatment -> V -> V -> Prop;
  sort_le_equal (a b : I) ent v w : MdIdEquals a b = true -> sort_le a ent v w -> sort_le b ent v w;
}.

Section Orders.
Context {I F V : Type} `{HI : MdIds I} `{HIL : !MdIdsLaws I} `{HF : ColumnFactory F} `{HS : !SortOperators I V}.
Implicit Types (pos req : COrderSpec I) (poe : COrderExpression I) (M : gmap N N).

(** ** Prefixes *)

Definition oe_eq (a b : COrderExpression I) : Prop := OrderExpressionMatches a b = true.

Lemma oe_eq_iff a b : oe_eq a b <-> MdIdEquals (m_mdid b) (m_mdid a) = true /\ m_pcr b = m_pcr a /\ m_ent b = m_ent a.
Proof. unfold oe_eq, OrderExpressionMatches. rewrite !andb_true_iff, N.eqb_eq, bool_decide_eq_true. tauto. Qed.

Lemma oe_eq_sym a b : oe_eq a b -> oe_eq b a.
Proof. rewrite !oe_eq_iff. intros (H1 & H2 & H3). split_and!; [by apply mdid_sym|done|done]. Qed.

Definition begins_with pos req : Prop := exists rest, exists start, pos = start ++ rest /\ Forall2 oe_eq start req.

Lemma OrderFSatisfies_ret pos req : OrderFSatisfies pos req ⤳ (fun b => b = true <-> begins_with pos req).
Proof.
  unfold OrderFSatisfies. destruct (Nat.ltb_spec (length pos) (length req)) as [Hlt|Hle].
  - apply returns_ret. split; [done|]. intros (rest & start & -> & Hf%Forall2_length). rewrite length_app in Hlt. lia.
  - eapply returns_mono; [apply (for_all_ret _ _ (fun ul => exists a b, pos !! ul = Some a /\ req !! ul = Some b /\ oe_eq a b))|].
    + intros ul [_ Hul]%elem_of_seq. destruct (lookup_lt_is_Some_2 req ul) as [b Hb]; [lia|]. destruct (lookup_lt_is_Some_2 pos ul) as [a Ha]; [lia|].
      rewrite (subscript_some _ _ _ Ha), (subscript_some _ _ _ Hb). cbn. apply returns_ret. split.
      * intros He. by exists a, b.
      * intros (a' & b' & Ha' & Hb' & He). unfold COrderSpec in *. by simplify_eq.
    + intros b ->. split.
      * intros Hall. exists (drop (length req) pos), (take (length req) pos). split; [by rewrite take_drop|].
        apply Forall2_same_length_lookup_2; [rewrite length_take; lia|]. intros i x y Hx Hy. pose proof (lookup_lt_Some _ _ _ Hy) as Hi.
        rewrite lookup_take_lt in Hx by done. destruct (Hall i) as (a & b' & Ha & Hb & He); [apply elem_of_seq; lia|]. unfold COrderSpec in *. by simplify_eq.
      * intros (rest & start & -> & Hf) ul [_ Hul]%elem_of_seq. destruct (lookup_lt_is_Some_2 req ul) as [y Hy]; [lia|].
        destruct (Forall2_lookup_r _ _ _ _ _ Hf Hy) as (x & Hx & He). exists x, y. split_and!; [by apply lookup_app_l_Some|done|done].
Qed.

Lemma OrderMatches_ret pos req : OrderMatches pos req ⤳ (fun b => b = true <-> Forall2 oe_eq pos req).
Proof.
  unfold OrderMatches. destruct (Nat.eqb_spec (length pos) (length req)) as [Hl|Hl].
  - destruct (OrderFSatisfies_ret pos req) as (b & -> & Hb). cbn [mbind outcome_bind].
    assert (begins_with pos req <-> Forall2 oe_eq pos req) as Hbw.
    { split.
      - intros (rest & start & -> & Hf). pose proof (Forall2_length _ _ _ Hf) as Hlen. rewrite length_app in Hl.
        assert (rest = []) as -> by (apply nil_length_inv; lia). by rewrite app_nil_r.
      - intros Hf. exists [], pos. by rewrite app_nil_r. }
    rewrite Hbw in Hb. destruct b.
    + destruct (OrderFSatisfies_ret req pos) as (c & -> & Hc). cbn [mbind outcome_bind]. assert (c = true) as ->.
      { apply Hc. exists [], req. split; [by rewrite app_nil_r|]. apply Forall2_flip. eapply Forall2_impl; [by apply Hb|]. apply oe_eq_sym. }
      rewrite bind_assert by done. by apply returns_ret.
    + cbn [mret outcome_ret mbind outcome_bind]. rewrite bind_assert by done. by apply returns_ret.
  - cbn. apply returns_ret. split; [done|]. by intros ?%Forall2_length.
Qed.

(** ** Sorted rows *)

(** [x] may come before [y]: lexicographic, each column by its operator *)
Fixpoint row_le pos (x y : N -> V) : Prop :=
  match pos with
  | [] => True
  | poe :: pos =>
      sort_le (m_mdid poe) (m_ent poe) (x (m_pcr poe)) (y (m_pcr poe)) /\
      (sort_le (m_mdid poe) (m_ent poe) (y (m_pcr poe)) (x (m_pcr poe)) -> row_le pos x y)
  end.

Lemma row_le_prefix pos req x y : begins_with pos req -> row_le pos x y -> row_le req x y.
Proof.
  intros (rest & start & -> & Hf). induction Hf as [|a b start req He Hf IH]; [done|]. cbn. pose proof He as (Hm & Hc & Hn)%oe_eq_iff.
  rewrite Hc, Hn. intros [Hle Hrec]. split; [by eapply sort_le_equal; [apply mdid_sym|]|]. intros Hge. apply IH, Hrec. by eapply sort_le_equal.
Qed.

Lemma OrderHashValue_eq pos req : Forall2 oe_eq pos req -> OrderHashValue pos = OrderHashValue req.
Proof.
  unfold OrderHashValue. generalize 0%N. intros h Hf. revert h. induction Hf as [|a b pos req He Hf IH]; intros h; [done|]. cbn.
  apply oe_eq_iff in He as (_ & -> & _). apply IH.
Qed.

(** ** Required orders *)

Lemma begins_with_eq pos req req' : Forall2 oe_eq req req' -> begins_with pos req -> begins_with pos req'.
Proof.
  intros Hr (rest & start & -> & Hf). exists rest, start. split; [done|]. revert req' Hr.
  induction Hf as [|a b start req He Hf IH]; intros req' Hr; inversion Hr as [|? c ? req'' Hc Hr']; subst; constructor; [|by apply IH].
  apply oe_eq_iff in He as (H1 & H2 & H3), Hc as (H1' & H2' & H3'). apply oe_eq_iff. split_and!; [by eapply mdid_trans|congruence|congruence].
Qed.

(** Required orders that match have the same hash and accept the same orders. *)
Lemma EnfdOrderMatches_ret (a b : CEnfdOrder I) :
  EnfdOrderMatches a b ⤳ (fun c => c = true -> EnfdOrderHashValue a = EnfdOrderHashValue b /\ forall pos, EnfdOrderFCompatible a pos = EnfdOrderFCompatible b pos).
Proof.
  destruct a as [req eom], b as [req' eom']. unfold EnfdOrderMatches. cbn [m_eom m_pos]. case_bool_decide as He; [subst eom'|by apply returns_ret].
  eapply returns_mono; [apply OrderMatches_ret|]. intros c Hc Hct. pose proof (proj1 Hc Hct) as Hf. split.
  - unfold EnfdOrderHashValue. cbn [m_eom m_pos]. by rewrite (OrderHashValue_eq _ _ Hf).
  - intros pos. unfold EnfdOrderFCompatible. cbn [m_eom m_pos]. destruct eom; [|done].
    destruct (OrderFSatisfies_ret pos req) as (x & -> & Hx), (OrderFSatisfies_ret pos req') as (y & -> & Hy). f_equal. apply eq_bool_prop_intro.
    rewrite !Is_true_true, Hx, Hy. split; apply begins_with_eq; [done|]. apply Forall2_flip. eapply Forall2_impl; [exact Hf|]. apply oe_eq_sym.
Qed.

(** ** Remapped columns *)

Definition remap M (c : N) : N := default c (M !! c).
Definition remap_oe M poe : COrderExpression I := mkOE (m_mdid poe) (remap M (m_pcr poe)) (m_ent poe).
Definition valid pos : Prop := Forall (fun poe => IsValid (m_mdid poe) = true) pos.

Lemma Append_ret pos (mdid : I) c ent : IsValid mdid = true -> Append pos mdid c ent = Ret (pos ++ [mkOE mdid c ent]).
Proof. intros Hv. unfold Append, COrderExpression_ctor. by rewrite bind_assert. Qed.

Lemma PosExclude_ret pos (pcrs : gset N) : valid pos -> PosExcludeColumns pos pcrs = Ret (filter (fun poe => m_pcr poe ∉ pcrs) pos).
Proof.
  intros Hv. assert (PosExcludeColumns pos pcrs ⤳ (fun res => res = filter (fun poe => m_pcr poe ∉ pcrs) pos)) as (res & -> & ->); [|done].
  apply (for_each_rule (fun pre res => res = filter (fun poe => m_pcr poe ∉ pcrs) pre)); [done|].
  intros pre poe rest res El ->. assert (IsValid (m_mdid poe) = true) as Hvp.
  { unfold valid in Hv. rewrite El, Forall_app, Forall_cons in Hv. tauto. }
  rewrite filter_app, filter_cons, filter_nil. case_bool_decide as Hin.
  - apply returns_ret. rewrite decide_False by tauto. by rewrite app_nil_r.
  - rewrite Append_ret by done. apply returns_ret. rewrite decide_True by done. by destruct poe.
Qed.

(** The mapping grows, by the columns that the order uses if they must exist. *)
Definition remapped (must_exist : bool) pos M M' (res : COrderSpec I) : Prop :=
  M ⊆ M' /\ (must_exist = false -> M' = M) /\ (must_exist = true -> forall poe, poe ∈ pos -> is_Some (M' !! m_pcr poe)) /\ res = map (remap_oe M') pos.

Lemma remapped_grow must_exist pos M M' M'' res : remapped must_exist pos M M' res -> M' ⊆ M'' -> (must_exist = false -> M'' = M') -> map (remap_oe M'') pos = res.
Proof.
  intros (_ & Hno & Hyes & ->) Hsub Heq. destruct must_exist; [|by rewrite Heq]. apply map_ext_in. intros poe Hpoe%list_elem_of_In.
  destruct (Hyes eq_refl poe Hpoe) as [c Hc]. unfold remap_oe, remap. by rewrite (lookup_weaken _ _ _ _ Hc Hsub), Hc.
Qed.

Lemma PosCopy_ret pos m M must_exist (f : F) : valid pos -> holds m M ->
  PosCopyWithRemappedColumns pos m must_exist f ⤳ (fun '(res, m', _) => exists M', holds m' M' /\ remapped must_exist pos M M' res).
Proof.
  intros Hv Hm. unfold PosCopyWithRemappedColumns. apply (for_each_rule (fun pre '(res, m', _) => exists M', holds m' M' /\ remapped must_exist pre M M' res)).
  - exists M. split; [done|]. split_and!; [done|done| |done]. by intros _ poe ?%not_elem_of_nil.
  - intros pre poe rest [[res m'] f'] El (M' & Hm' & Hr). assert (IsValid (m_mdid poe) = true) as Hvp.
    { unfold valid in Hv. rewrite El, Forall_app, Forall_cons in Hv. tauto. }
    rewrite (holds_find _ _ _ Hm'). cbn [mbind outcome_bind]. pose proof Hr as (Hsub & Hno & Hyes & Hres).
    assert (Hstep : forall M'' m'' (c : N) (f'' : F), holds m'' M'' -> M' ⊆ M'' -> (must_exist = false -> M'' = M') -> remap M'' (m_pcr poe) = c ->
      (must_exist = true -> is_Some (M'' !! m_pcr poe)) ->
      (res ← Append res (m_mdid poe) c (m_ent poe); mret (res, m'', f'')) ⤳ (fun '(res, m', _) => exists M', holds m' M' /\ remapped must_exist (pre ++ [poe]) M M' res)).
    { intros M'' m'' c f'' Hm'' Hsub' Heq Hc Hin. rewrite Append_ret by done.
      apply returns_ret. exists M''. split; [done|]. split_and!.
      - by transitivity M'.
      - intros E. rewrite (Heq E). by apply Hno.
      - intros E x [Hx| ->%list_elem_of_singleton]%elem_of_app; [|by apply Hin]. destruct (Hyes E x Hx) as [y Hy]. exists y. by eapply lookup_weaken.
      - rewrite map_app, (remapped_grow _ _ _ _ _ _ Hr Hsub' Heq). cbn. unfold remap_oe. by rewrite Hc. }
    destruct (M' !! m_pcr poe) as [c|] eqn:Ec.
    + cbn [mbind outcome_bind mret outcome_ret]. apply (Hstep M'); [done..|by unfold remap; rewrite Ec|by rewrite Ec].
    + destruct must_exist.
      * destruct (PcrCopy (m_pcr poe) f') as [c f'']. destruct (holds_insert m' M' (m_pcr poe) c Hm' Ec) as ([b m''] & -> & Hb & Hm''). cbn in Hb, Hm''. subst b.
        cbn [mbind outcome_bind]. rewrite bind_assert by done. cbn [mbind outcome_bind mret outcome_ret].
        apply (Hstep (<[m_pcr poe := c]> M')); [done|by apply insert_subseteq|done|by unfold remap; rewrite lookup_insert_eq|by rewrite lookup_insert_eq].
      * cbn [mbind outcome_bind mret outcome_ret]. apply (Hstep M'); [done..|by unfold remap; rewrite Ec|done].
Qed.

Lemma begins_with_remap M pos req : begins_with pos req -> begins_with (map (remap_oe M) pos) (map (remap_oe M) req).
Proof.
  intros (rest & start & -> & Hf). exists (map (remap_oe M) rest), (map (remap_oe M) start). split; [by rewrite map_app|].
  induction Hf as [|a b start req He Hf IH]; [constructor|]. cbn. constructor; [|done].
  apply oe_eq_iff in He as (H1 & H2 & H3). apply oe_eq_iff. cbn. by rewrite H2.
Qed.

Lemma row_le_remap M pos (x y : N -> V) : row_le (map (remap_oe M) pos) x y <-> row_le pos (fun c => x (remap M c)) (fun c => y (remap M c)).
Proof. induction pos as [|poe pos IH]; [done|]. cbn. by rewrite IH. Qed.

(** C17: [FSatisfies] of orders returns without a fault, and if it is true then all
    rows that are sorted by the first order are sorted by the second one. [Matches] is
    satisfaction at equal length, its assertion holds, and matching orders have equal
    hashes. Orders copied one after the other with one mapping of columns satisfy each
    other as before, and the copy sorts rows as the order sorts the renamed rows. *)
Theorem order_satisfaction_sound pos req m M must_exist (f : F) : valid pos -> valid req -> holds m M ->
  exists b, OrderFSatisfies pos req = Ret b /\
    (b = true -> forall rows, StronglySorted (row_le pos) rows -> StronglySorted (row_le req) rows) /\
    (OrderMatches pos req ⤳ (fun c => (c = true <-> b = true /\ length pos = length req) /\ (c = true -> OrderHashValue pos = OrderHashValue req))) /\
    (PosCopyWithRemappedColumns pos m must_exist f ⤳ (fun '(pos', m', f') =>
      (exists M', holds m' M' /\ M ⊆ M' /\ forall x y, row_le pos' x y <-> row_le pos (fun c => x (remap M' c)) (fun c => y (remap M' c))) /\
      (PosCopyWithRemappedColumns req m' must_exist f' ⤳ (fun '(req', _, _) => b = true -> OrderFSatisfies pos' req' = Ret true)))).
Proof.
  intros Hvp Hvr Hm. destruct (OrderFSatisfies_ret pos req) as (b & Eb & Hb). exists b. split_and!; [done|..].
  - intros Hbt rows Hsort. pose proof (proj1 Hb Hbt) as Hbw. clear Eb Hb. induction Hsort as [|x rows Hsort IH Hx]; constructor; [done|].
    eapply Forall_impl; [exact Hx|]. intros y. by apply row_le_prefix.
  - eapply returns_mono; [apply OrderMatches_ret|]. intros c Hc. split; [|by intros Hct; apply OrderHashValue_eq, Hc].
    rewrite Hc, Hb. split.
    + intros Hf. split; [exists [], pos; by rewrite app_nil_r|by apply Forall2_length in Hf].
    + intros [(rest & start & -> & Hf) Hl]. pose proof (Forall2_length _ _ _ Hf) as Hlen. rewrite length_app in Hl.
      assert (rest = []) as -> by (apply nil_length_inv; lia). by rewrite app_nil_r.
  - eapply returns_mono; [by apply PosCopy_ret|]. intros [[pos' m'] f'] (M' & Hm' & Hr). pose proof Hr as (Hsub & _ & _ & Hpos'). split.
    + exists M'. split_and!; [done|done|]. intros x y. rewrite Hpos'. apply row_le_remap.
    + eapply returns_mono; [by apply PosCopy_ret|]. intros [[req' m''] f''] (M'' & Hm'' & Hr'') Hbt. pose proof Hr'' as (Hsub' & Heq & _ & ->).
      destruct (OrderFSatisfies_ret pos' (map (remap_oe M'') req)) as (c & Ec & Hc). rewrite Ec. f_equal. apply Hc.
      rewrite <- (remapped_grow _ _ _ _ M'' _ Hr Hsub' Heq). by apply begins_with_remap, Hb.
Qed.
End Orders.

(** ** Rewindability *)

(** The tables in the comment of [CRewindabilitySpec::FSatisfies] *)
Definition rank (ert : ERewindabilityType) : nat := match ert with ErtNone => 0 | ErtRescannable => 1 | ErtRewindable => 2 | ErtMarkRestore => 3 end.

Lemma rewindability_table (own required : CRewindabilitySpec) :
  RewindabilityFSatisfies own required = true <->
  m_rewindability required = ErtNone \/
  rank (m_rewindability required) <= rank (m_rewindability own) /\ ~ (m_motion_hazard required = EmhtMotion /\ m_motion_hazard own = EmhtMotion).
Proof.
  destruct own as [[] [] n], required as [[] [] n']; vm_compute; split; try done; intros; try (by left); try lia;
    try (right; split; [lia|by intros []]); by intuition (try lia; try done).
Qed.

(** ** At a concrete input *)

#[local] Instance number_ids : MdIds N := { IsValid i := true; MdIdEquals := N.eqb }.
#[local] Instance number_ids_laws : MdIdsLaws N.
Proof.
  split; cbn; [apply N.eqb_refl|intros a b; by rewrite N.eqb_sym|]. by intros a b c ->%N.eqb_eq ->%N.eqb_eq; apply N.eqb_eq.
Qed.
#[local] Instance number_sorts : SortOperators N N := { sort_le _ _ := N.le; sort_le_equal a b ent v w _ H := H }.
#[local] Instance counting_factory : ColumnFactory N := { PcrCopy c next := (next, (next + 1)%N); HashPtr c := c }.

(** Ordered by columns 1 and 2, required is column 1 *)
Definition by_two : COrderSpec N := [mkOE 7%N 1%N EntAuto; mkOE 7%N 2%N EntLast].
Definition by_one : COrderSpec N := [mkOE 7%N 1%N EntAuto].
Definition no_mapping : HashMap.CHashMap N N := match CHashMap_ctor 127 with Ret m => m | Abort _ => HashMap.mkMap 0 0 [] [] [] end.

Lemma order_satisfaction_sound_witness :
  (forall rows : list (N -> N), StronglySorted (row_le by_two) rows -> StronglySorted (row_le by_one) rows) /\
  (PosCopyWithRemappedColumns by_two no_mapping true 100%N ⤳ (fun '(pos', m', f') =>
     PosCopyWithRemappedColumns by_one m' true f' ⤳ (fun '(req', _, _) => OrderFSatisfies pos' req' = Ret true))).
Proof.
  assert (holds no_mapping ∅) as Hm by (destruct (@holds_ctor N) as (m & E & Hm); unfold no_mapping; rewrite E; exact Hm).
  destruct (order_satisfaction_sound (F := N) (V := N) by_two by_one no_mapping ∅ true 100%N) as (b & Eb & Hsort & _ & Hcopy);
    [by repeat constructor|by repeat constructor|exact Hm|].
  assert (b = true) as -> by (vm_compute in Eb; by injection Eb). split; [by apply Hsort|].
  eapply returns_mono; [exact Hcopy|]. intros [[pos' m'] f'] [_ Hreq]. eapply returns_mono; [exact Hreq|]. intros [[req' m''] f'']. auto.
Defined.
End OrderProps.
